(* ===== verification/_CoqProject ===== *)
-Q . S2P
Prelude.v
Effects.v
Bounded.v
PeerInfo.v
PartialView.v
Hpv.v
Broadcast.v
Tocks.v
Policy.v
Tracking.v
Batch.v
RefFormat.v
RefName.v
Scoped.v
LinkRefs.v
Refdb.v
RefTx.v
Transmit.v
FetchState.v
Steps.v
Validation.v
Pull.v
PullSafety.v
Identity.v
Delegation.v
GitIdentity.v
PruningFold.v
Cob.v
Trailers.v
CommitMessage.v
ChangeStore.v
ChangeGraph.v
CobCache.v
CobApi.v
CanonicalJson.v
CanonicalFormatter.v
Utf8.v
RefLike.v
Keys.v
UrnText.v
LibradRef.v
RemotesGraph.v
SignedRefs.v
SignedRefsSpec.v
Fetchspecs.v
StorageRead.v
IdentityStore.v
Replication.v
ReplicationSafety.v
TrackingConfig.v
Conntrack.v
DefaultHead.v
PackOdb.v
Payload.v
IdentityDoc.v
IdentityWitness.v
ContextTracking.v
ReplicationContext.v
PeerStorage.v
RequestPull.v
Processes.v
SshService.v
GitHooks.v
GitSubprocess.v
GitServer.v
LinkHooks.v
RemoteConfig.v
Seeds.v
Tasks.v
Include.v
MessageIo.v
RpcServer.v
Profile.v
