(* ===== verification/Prelude.v ===== *)
(** * radicle-link: a verification library

    radicle-link is a peer to peer protocol for code collaboration on top of git.
    Peers gossip about what they have ([librad/src/net/protocol]): a membership
    protocol (HyParView) keeps a small active and a larger passive view of the
    network, a broadcast protocol passes announcements along the active view.  What
    a peer replicates is decided by its tracking graph ([link-tracking]), kept in git
    references under a naming discipline ([git-ref-format]); replication itself
    ([link-replication]) fetches what other peers have signed, verifies it and updates
    the references.  Who may change an
    identity or a project is decided by signed identity documents and quorums of
    their delegates ([link-identities]); collaborative objects ([cob]) are graphs of
    changes authorized by such identities.

    ** Files, in dependency order

    - [Prelude.v] (this file): results and panics with their monad notation, the
      ordered maps and sets of Rust's [BTreeMap] and [BTreeSet] over stdpp's finite
      ones, the hint database [rad] and the tactics shared by all files.
    - [Effects.v]: the monads of computations that fail or panic, and that change a
      state kept on errors too, with rules for invariants.
    - [Bounded.v]: [data/src/bounded.rs] and [data/src/nonempty.rs], collections with
      an upper bound or at least one element.
    - [PeerInfo.v]: [librad/src/net/protocol/info.rs], what peers tell of each other.
    - [PartialView.v]: [membership/partial_view.rs], the two views, with an abstract
      specification the operations refine.
    - [Hpv.v]: [membership/hpv.rs], [membership/rpc.rs] and [membership/tick.rs], the
      membership state machine, its messages and what it asks to be sent.
    - [Broadcast.v]: [protocol/broadcast.rs], [broadcast/storage.rs] and the parts of
      [protocol/gossip.rs] it uses.
    - [Tocks.v]: [protocol/tick.rs] and [protocol/io/recv/membership.rs], the
      execution of the requested sends, in which failures feed back into the views.
    - [Policy.v]: [link-tracking/src/git/tracking/policy.rs], the algebra of tracking
      policies.
    - [Tracking.v]: [link-tracking/src/git/tracking.rs] with its reference names, and
      the transactional reference database [librad/src/git/tracking/refdb.rs].
    - [Batch.v]: [link-tracking/src/git/tracking/batch.rs], batches of actions.
    - [RefFormat.v]: [git-ref-format/core/src/check.rs], the validator of names.
    - [RefName.v]: [name.rs], [name/iter.rs], [deriv.rs], [refspec.rs],
      [refspec/iter.rs] and [lit.rs] of the same crate, in the modules [Name],
      [Refspec] and [Lit].
    - [Scoped.v] (in [link-replication/src], as the next files): [refs.rs],
      [refs/lit.rs], [refs/scoped.rs] and [refs/parsed.rs], the names of own and of
      remote references.
    - [LinkRefs.v]: [link-git/src/refs/db.rs], snapshots of the packed references and
      following symbolic ones.
    - [Refdb.v]: [refdb.rs] and [refdb/mem.rs], updates of references and the
      in-memory database that stages them.
    - [RefTx.v]: [io/refdb.rs], the transactions that apply updates.
    - [Transmit.v]: [transmit.rs], [sigrefs.rs] and [track.rs], what is asked of a
      remote, and signed references.
    - [FetchState.v]: [state.rs], [internal.rs], [error.rs] and the traits of
      [ids.rs], the state of a run and the context seen through staged updates.
    - [Steps.v]: [peek.rs], [peek/clone.rs], [peek/fetch.rs], [prepare.rs],
      [fetch.rs], [fetch/transitive.rs] and [FetchState::step], the steps of a run.
    - [Validation.v]: [validation.rs], the check of what was replicated.
    - [Pull.v]: [lib.rs], [ids.rs], [eval/rad.rs], [eval/pull.rs] and [success.rs], a
      whole run; [PullSafety.v]: what a run can write.
    - [Identity.v]: [link-identities/src/generic.rs], the stages of verification and
      the fold over a history, against the interface [DelegationsLaws].
    - [Delegation.v]: [delegation/direct.rs] and [delegation/indirect.rs], which
      discharge that interface, and the theorems about verification.
    - [GitIdentity.v]: [link-identities/src/git.rs] and [git/iter.rs], persons and
      projects in a repository.
    - [PruningFold.v] and [Cob.v]: [cob/src/pruning_fold.rs], [cob/src/history.rs],
      [cob/src/change_graph/evaluation.rs] and what they use of the other files of
      the crate.
    - [Trailers.v]: [git-trailers/src/lib.rs], the trailers of commit messages.
    - [CommitMessage.v]: [link-identities/src/sign.rs], [git/sign.rs],
      [cob/src/trailers.rs] and the multihash form of object ids of
      [git-ext/src/oid.rs]: signatures and object ids in messages.
    - [ChangeStore.v]: [cob/src/change.rs], changes as commits.
    - [ChangeGraph.v]: [cob/src/change_graph.rs], loading and evaluating the graph of
      the changes of an object.
    - [CobCache.v]: [cob/src/cache.rs] and [cache/cached_change_graph.rs].
    - [CobApi.v]: [cob/src/lib.rs] and [cob/src/refs_storage.rs], the operations on
      objects.
    - [CanonicalJson.v]: [link-canonical/src/json.rs], [json/ser.rs], [json/parser.rs] and
      [json/parser/string.rs], canonical JSON values, their text and its parser.
    - [CanonicalFormatter.v]: [link-canonical/src/formatter.rs] and [Cjson] of [lib.rs], the
      canonical form of anything that is serialized.
    - [Utf8.v]: UTF-8 and percent encoding.
    - [RefLike.v]: [git-ext/src/reference/name.rs], [reference.rs] and [reference/iter.rs],
      the names most of [librad] works with.
    - [Keys.v]: [link-crypto/src/keys.rs] and [peer.rs], the text of keys, signatures and
      peer ids, with a complete z-base32 codec in the module [ZBase32].
    - [UrnText.v]: [link-identities/src/urn.rs], URNs, which discharge the interface
      of [Scoped.v].
    - [LibradRef.v]: [librad/src/git/types.rs], [types/namespace.rs], [types/reference.rs] and
      [types/refspec.rs], references and refspecs.
    - [RemotesGraph.v], [SignedRefs.v] and [SignedRefsSpec.v]: [librad/src/git/refs.rs] and
      [refs/serde_impls.rs], the tracking graph and the signed references of a peer.
    - [Fetchspecs.v]: [librad/src/git/fetch.rs] and [fetch/specs.rs], what a replication
      asks a remote for.
    - [StorageRead.v]: [librad/src/git/storage/read.rs] and [git-ext/src/blob.rs], reading
      from the storage.
    - [IdentityStore.v]: [librad/src/git/identities/] ([common.rs], [any.rs], [person.rs],
      [project.rs], [local.rs], [relations.rs], [error.rs]) and
      [link-identities/src/relations.rs], identities in the storage.
    - [Replication.v] and [ReplicationSafety.v]: [librad/src/git/replication.rs], a whole
      replication of [librad], and what it can change.
    - [TrackingConfig.v]: [link-tracking/src/config.rs], [config/cobs.rs],
      [config/cobs/cjson.rs], [git/config.rs] and [librad/src/git/tracking/odb.rs],
      tracking configurations, which discharge the interface [Odb] of [Tracking.v].
    - [Conntrack.v]: [librad/src/net/quic/connection/tracking.rs], the connections of an
      endpoint, with operations and garbage collection interleaved in a step relation.
    - [DefaultHead.v]: [librad/src/git/identities/project/heads.rs], the head of the default
      branch of a project.
    - [PackOdb.v]: [link-git/src/odb.rs] and [odb/], the indices of packs, the cache of open
      packs and the lookup of objects.
    - [Payload.v]: [link-identities/src/payload.rs], [git/load.rs] and the serialization in [git.rs]
      and [generic.rs], payloads with extensions, delegations and documents as JSON.
    - [IdentityDoc.v]: [link-identities/src/git.rs] and [git/load.rs], identities stored as trees and
      commits and loaded from them; [IdentityWitness.v] has a repository in memory for them.
    - [ContextTracking.v] and [ReplicationContext.v]: [librad/src/net/replication/context.rs],
      the context that [librad] gives [link-replication], which discharges its traits.
    - [PeerStorage.v]: [librad/src/net/peer/storage.rs], announcements and what is fetched for them.
    - [RequestPull.v]: [cli/linkd-lib/src/tracking.rs], [request_pull.rs] and
      [librad/src/net/protocol/request_pull.rs], what a node tracks, and requests to pull.
    - [Processes.v], [SshService.v], [GitHooks.v], [GitSubprocess.v], [GitServer.v]: [cli/gitd-lib/src],
      the git server behind SSH: its processes, the commands it takes, what happens before and after them, and its sessions.
    - [LinkHooks.v]: [link-hooks/src], the texts hook processes are told and the tasks that tell them.
    - [RemoteConfig.v]: [librad/src/git/types/remote.rs], remotes in a configuration;
      [Include.v]: [librad/src/git/include.rs] and [cli/lnk-identities/src/git/include.rs], the remotes of
      working copies.
    - [Seeds.v]: [cli/lnk-clib/src/seed.rs] and [seed/store/file.rs], the file of seeds.
    - [Tasks.v]: [link-async/src/tasks.rs], the set of running tasks.
    - [MessageIo.v] and [RpcServer.v]: [cli/linkd-lib/src/api], the messages on the socket of a node, the
      loop that serves them, and the client.
    - [Profile.v]: [librad/src/profile.rs], [profile/id.rs] and [paths.rs], profiles and their directories.

    ** How the code is rendered

    A struct is a [Record], an enum an [Inductive] type with the source's variants, a
    method a function from the state before to the state after.  A fallible function
    returns [result], one that may panic ([unwrap], [expect], [assert!], indexing,
    subtraction below zero) an [outcome], and one that may do both an [eff].  The traits a
    replication run is generic in are type classes over the context.  Logging and debug
    assertions are left out.  Random choices of the membership protocol
    are drawn from an explicit generator state; keys, object ids and peer ids are
    numbers, strings lists of code points.  Libraries outside the repository are
    parameters: libgit2 (which calls fail, revision walks, hashes; for objects the
    classes [Git2] and [GitWalk], met by [MemoryStore] and [MemoryWalk]), petgraph (the
    classes [PetGraph] and [PetWalk] with their laws, met by [ListGraph] and
    [ListWalk]), nom ([Nom], met by [ListNom]), multibase and multihash ([Multicodec]),
    toml, CBOR and the file system ([Toml], [Cbor], [Fs]), gitoxide's reference store and
    transactions ([GitDb] with [TxLaws]), the encoding of peer ids ([PeerNames], and [PeerNamesTotal] where reading one must not panic, as
    [peer_never_panics] of [Keys.v] shows of the code), the
    iteration order of hash maps, signature checks, the hash function of the
    broadcast filter, Unicode normalization ([Nfc]), nom's streaming parsers ([NomStream]),
    serde_json ([Serializer], [CompactFormatter], [JsonText]), percent encoding
    ([PercentEncoding]), multibase and multihash of keys and URNs ([Multibase],
    [HasProtocol]), globs ([Globset]), and what signed references use of the storage and of
    git ([RefsStorage], [RefsGit]), libgit2 as the storage reads and writes it ([Git2Repo],
    [GitBlobs]), identities as the storage verifies them ([LinkIdentities], [GitExists]),
    and the fetcher and tracking store of a replication ([ReplicationEnv], with the laws
    [RefsView] and [EnvLaws]), merge bases ([MergeBase] with [AncestryLaws]) and gitoxide's
    packs and indices ([GitPack]), the text of URLs and of object ids ([UrlLib], [OidText]), identities as
    trees and commits ([IdentityGit]), [serde_json] as identities use it ([SerdeJson]), what a peer and
    a node run on ([PeerEnv], [PeerKeys], [NodeEnv]), remotes in git's configuration ([GitRemotes]), the text of
    revisions and addresses ([RevText], [AddrText]), what a git process and its hooks do (the
    records [HookEnv] and [SubEnv]), CBOR ([MiniCbor]), sockets ([Transport], and lists of what they have next) and the
    files of profiles ([ProfileFs]).

    ** What the theorems show

    - Membership: every run of the protocol from a fresh state keeps the views
      disjoint, bounded and free of the local peer; promotion and demotion refine an
      abstract specification of the views; relays go to active peers and not back to
      the sender; shuffles expire.  Executing the requested sends terminates: each failed send removes an active peer, so the
      loop needs at most [1 + 3 * max_active] rounds of fuel.
    - Broadcast: a message with an extension that was handled once is not handled again,
      however often it was relayed, while the filter remembers it; what is sent goes to
      members, and relays not back to the sender.
    - Tracking: composing policies is sound for the sequential meaning of actions;
      [track] and [untrack] refine an abstract map of entries; what is tracked is
      found; a batch has the effect of its actions.
    - Names: the validator accepts exactly the names the rules of git describe, less two
      kinds of components it refuses beyond these rules; joining,
      extending and collecting names stay within them; namespaces are added and
      stripped inversely, and stripping all of them terminates within as many
      rounds as the name has components.
    - Replication: whatever a remote answers and however a run ends, only the own
      [rad/] references, at verified identities, and references of other peers are
      written, the latter as the remote lists them under [rad/] and as signed elsewhere,
      and only references of other peers are pruned; however an update of the database ends,
      it changes only what the updates justify, and a reference leaves its history only where
      the policy allows; what
      is asked of a remote is what is missing; validation accepts exactly what is
      signed; parsing and printing of reference names are inverse.
    - Identities: a history verifies exactly to a chain of revisions each signed by a
      quorum of its own and of its predecessor's delegations; proposals without
      quorum have no effect; no fork of an identity is possible without a delegate
      who signs both sides; projects verify with their delegates brought up to date;
      merging a foreign identity yields valid signatures and one commit at most.
    - Collaborative objects: the pruning fold visits exactly the changes not below a
      rejected one; a closed acyclic graph of acceptable changes evaluates to a
      history with one entry per change, the fuel being the number of paths in it.
    - Objects in git: trailers, signatures and changes are read back as they were
      written; loading ends on any history and finds exactly the changes that are
      reached, and retrieving gives exactly their history; an object that was created
      is retrieved as it was, an update adds one change; the cache is written
      atomically and returns what was put there.  Loading a graph takes one round per
      path through it, which is finite because commits have no cycles; the theorems
      give a bound that is enough and hold for all larger fuel.

    - Canonical JSON: the parser reads canonical text back, the text of a value
      determines it, and the formatter writes objects with their members sorted,
      whatever their order.
    - Names, keys and URNs of [librad]: each is read back from its text, within the
      limits the theorems state, and conversions between references and URNs are
      inverse.
    - Signed references: what is computed are exactly the references of the
      namespace, the tracking graph is bounded, what is loaded was signed by the peer
      it is loaded for, and an update is found again by loading.
    - Replication in [librad]: requests only write references of remote peers, of the
      signed references exactly those advertised at their signed target; a run never
      rewinds the identity of anyone, and leaves the local peer untracked.
    - Tracking configurations are read back from their canonical form and from the
      storage, and let through exactly the references they describe.
    - Connections: however operations and sweeps interleave, an idle connection is gone
      after the second sweep, one that is used survives the next, and the lists per peer
      are bounded.
    - The head of a project is a commit all delegates have; where there is none, the parts
      of the fork cover the delegates and nothing is written.
    - Objects in packs are found in the first index that has them and in the contents of
      its pack; the cache of packs is bounded and evicts, from a full bucket, what was used least.
    - A person that was stored is loaded as it was, but for extensions that are null, when its
      text is normalized and its keys have nothing to escape.
    - The context of a replication tracks who is to be tracked, and shows exactly the signed
      references, cut to their depth; announcements are passed on only when something was fetched and
      verified, and requests to pull are answered once, after tracking.
    - The git server keeps a bounded number of processes, each reached by its own id; references are signed
      before seeds are asked to pull; what a process prints arrives in order, hooks run only after a
      push, and sessions do not see each other.  Hooks are told exactly the changes of their kind.
    - Remotes, seeds and profiles that were saved are found again; the lines of an include file are exactly
      those of its remotes; the files of a profile are in its directory.
    - Requests on the socket of a node arrive as they were sent, however they are split and
      however often a reader is dropped; the reader takes at most two rounds more than there are bytes and
      events.  Responses to a request are in order, and bounded in number while they wait.

    Some theorems state behaviours that look unintended: a [MustExist] update is lost
    in a composition of policies, a forwarded join is relayed after its time to live
    is over, a promoted peer may be forgotten, an unsolicited message masks later
    ones, a message without an extension is taken for a new one when it comes back, iteration over tracked entries
    stops at a missing object, delegations made from a single identity never reach a
    quorum, a rejected change makes the evaluation of a collaborative object panic,
    unsigned changes are accepted, extending a history twice panics, a remote can make
    a clone panic with a reference name, packed references changed on disk are not read
    again, scanning the in-memory database stops early, a symbolic reference cannot be
    moved to a target that does not exist yet, a message that ends with an odd number
    of line feeds makes a change unreadable, a new object is cached where it is never
    found, a project with direct delegations only cannot be replicated, a type name that
    ends in [.lock] cannot be made a reference, a connection made just before a sweep is
    closed by it; examples show that strings are not escaped in canonical JSON, that some
    numbers are not read back, that a percent sign in a URN is lost, that names
    with certain components panic, that the short name of a file makes lookups in packs panic, and
    that objects are not found after a compaction.  Further: names that are no UTF-8 and null subjects are
    lost, only one direct delegate is tracked, a signed name can make a replication panic, a known identity is cloned again,
    announcements with a path match no selected URN, eleven processes run where ten are meant to, late
    input ends the loop of processes, a closed output sends empty messages, a failed hook is reported as success, an
    executor of hooks waits for ever on a full channel, a cutoff of zero loads all seeds, the end of a
    stream of tasks is missed while idle, a quote in a name changes an include file, a connection to a node is stuck after
    eleven requests at once or turns for ever after a message that was cut off, and a line feed in a profile id
    makes another profile active.

    ** Not modelled

    Of the async runtime only what interleaves: handlers and tasks are events, and their
    scheduling, timers and cancellation by the runtime are left out.  QUIC, TLS, certificates and
    discovery ([librad/src/net/quic], [tls.rs], [x509.rs], [discovery.rs]) are calls of libraries, and the driver of the
    protocol ([protocol.rs], [accept.rs], [state.rs], [tincans.rs], [peer.rs]) passes what they give to the parts that are
    modelled.  The codecs are derived, and parameters here.  Opening, configuring, pooling and watching the
    storage, the local transport, and fetching from and pushing to remotes are operations of libgit2; the packets of the git
    protocol in [link-git/src/protocol] are gitoxide's.  The thread that rebuilds the filter of known URNs calls a library
    for it, procedural macros have no run time, and the command lines and daemons parse arguments and print.  Of
    [cob], the drawing of a graph is left out. *)

From stdpp Require Import base list sorting gmap strings.
From Stdlib Require Import NArith Lia Ascii.

(** ** Results and panics

    Rust's [Result<T, E>]: an error is a value.  The error type comes first, so
    that [result E] is a monad and the code's [?] is [x ← e; k]. *)
Inductive result (E A : Type) : Type :=
| Ok (a : A)
| Err (e : E).
Arguments Ok {E A} a.
Arguments Err {E A} e.

(** Rust code that can panic ([assert!], [unwrap], [expect], [unreachable!],
    arithmetic underflow) returns an [outcome]: [Panic] is the abort. *)
Inductive outcome (A : Type) : Type :=
| Done (a : A)
| Panic.
Arguments Done {A} a.
Arguments Panic {A}.

#[export] Instance result_ret {E} : MRet (result E) := fun A a => Ok a.
#[export] Instance result_bind {E} : MBind (result E) := fun A B f x =>
  match x with Ok a => f a | Err e => Err e end.
#[export] Instance result_fmap {E} : FMap (result E) := fun A B f x =>
  match x with Ok a => Ok (f a) | Err e => Err e end.

#[export] Instance outcome_ret : MRet outcome := fun A a => Done a.
#[export] Instance outcome_bind : MBind outcome := fun A B f x =>
  match x with Done a => f a | Panic => Panic end.
#[export] Instance outcome_fmap : FMap outcome := fun A B f x =>
  match x with Done a => Done (f a) | Panic => Panic end.

#[export] Instance result_eq_dec {E A} `{EqDecision E, EqDecision A} :
  EqDecision (result E A).
Proof. solve_decision. Defined.

#[export] Instance outcome_eq_dec {A} `{EqDecision A} : EqDecision (outcome A).
Proof. solve_decision. Defined.

(** [Result::map_err], [Option::ok_or], [Result::ok], [Result::is_ok],
    [Option::unwrap]. *)
Definition map_err {E F A} (f : E -> F) (x : result E A) : result F A :=
  match x with Ok a => Ok a | Err e => Err (f e) end.

Definition ok_or {E A} (x : option A) (e : E) : result E A :=
  match x with Some a => Ok a | None => Err e end.

Definition res_ok {E A} (x : result E A) : option A :=
  match x with Ok a => Some a | Err _ => None end.

Definition is_ok {E A} (x : result E A) : bool :=
  match x with Ok _ => true | Err _ => false end.

Definition unwrap {A} (x : option A) : outcome A :=
  match x with Some a => Done a | None => Panic end.

(** ** Automation

    [rad] is the hint database of the development; [inv_res] splits the
    monadic chains that returned a value, [case_guards] splits the conditionals
    the code branches on. *)
Create HintDb rad.
Create Rewrite HintDb rad.

Lemma res_bind_ok {E A B} (x : result E A) (f : A -> result E B) b :
  x ≫= f = Ok b <-> exists a, x = Ok a /\ f a = Ok b.
Proof.
  destruct x as [a|e]; cbn; split.
  - eauto.
  - intros (? & [= ->] & ?). done.
  - done.
  - intros (? & ? & ?). done.
Qed.

Lemma out_bind_done {A B} (x : outcome A) (f : A -> outcome B) b :
  x ≫= f = Done b <-> exists a, x = Done a /\ f a = Done b.
Proof.
  destruct x as [a|]; cbn; split.
  - eauto.
  - intros (? & [= ->] & ?). done.
  - done.
  - intros (? & ? & ?). done.
Qed.

Ltac inv_res :=
  repeat match goal with
  | H : mbind _ _ = Ok _ |- _ => apply res_bind_ok in H as (? & ? & H)
  | H : mbind _ _ = Done _ |- _ => apply out_bind_done in H as (? & ? & H)
  end; simplify_eq/=.

Ltac case_guards := repeat (case_match || case_decide); simplify_eq/=.

(** ** Lists *)

Lemma filter_all {A} (P : A -> Prop) `{!forall x, Decision (P x)} l : Forall P l -> filter P l = l.
Proof.
  induction 1 as [|x l Hx _ IH]; [done|]. by rewrite filter_cons_True, IH.
Qed.

Lemma filter_none {A} (P : A -> Prop) `{!forall x, Decision (P x)} l :
  Forall (fun x => ~ P x) l -> filter P l = [].
Proof.
  induction 1 as [|x l Hx _ IH]; [done|]. by rewrite filter_cons_False.
Qed.

(** ** Ordered containers

    [BTreeMap] and [BTreeSet] are finite maps and sets ([gmap], [gset]) whose
    iterators run in ascending key order.  [OrdKey] is Rust's [Ord] for keys. *)
Class OrdKey (K : Type) `{Countable K} := {
  key_le : relation K;
  key_le_dec :: RelDecision key_le;
  key_le_total :: Total key_le;
  key_le_trans :: Transitive key_le;
  key_le_anti :: AntiSymm (=) key_le;
}.

#[export] Program Instance ord_N : OrdKey N := {| key_le := N.le |}.

(** Derived [Ord]: tuples and structs compare lexicographically, [None] is below
    [Some], sequences (and strings, by code point) lexicographically. *)
#[export] Program Instance ord_prod `{OA : OrdKey A} `{OB : OrdKey B} : OrdKey (A * B) := {|
  key_le := fun p q => p.1 <> q.1 /\ key_le p.1 q.1 \/ p.1 = q.1 /\ key_le p.2 q.2;
|}.
Next Obligation. intros A ? ? OA B ? ? OB p q. simpl. apply _. Defined.
Next Obligation.
  intros A ? ? OA B ? ? OB [a b] [a' b']. simpl. destruct (decide (a = a')) as [->|].
  - destruct (total key_le b b'); [left|right]; by right.
  - destruct (total key_le a a'); [left|right]; left; split; congruence.
Qed.
Next Obligation.
  intros A ? ? OA B ? ? OB [a b] [a' b'] [a'' b'']. simpl.
  intros [[Hn Hl]|[-> Hl]] [[Hn' Hl']|[-> Hl']].
  - left. split; [|by etransitivity]. intros ->. by apply Hn, (anti_symm key_le).
  - by left.
  - by left.
  - right. split; [done|]. by etransitivity.
Qed.
Next Obligation.
  intros A ? ? OA B ? ? OB [a b] [a' b']. simpl.
  intros [[Hn Hl]|[-> Hl]] [[Hn' Hl']|[? Hl']]; try congruence.
  - by destruct Hn; apply (anti_symm key_le).
  - f_equal. by apply (anti_symm key_le).
Qed.

Definition sum_le `{OA : OrdKey A} `{OB : OrdKey B} (p q : A + B) : bool :=
  match p, q with
  | inl a, inl b => bool_decide (key_le a b)
  | inl _, inr _ => true
  | inr _, inl _ => false
  | inr a, inr b => bool_decide (key_le a b)
  end.

(** An enum compares by its variant first. *)
#[export] Program Instance ord_sum `{OA : OrdKey A} `{OB : OrdKey B} : OrdKey (A + B) := {|
  key_le := fun p q => sum_le p q = true;
|}.
Next Obligation. intros A ? ? OA B ? ? OB p q. apply _. Defined.
Next Obligation.
  intros A ? ? OA B ? ? OB [a|a] [b|b]; simpl; auto; rewrite !bool_decide_eq_true; apply (total key_le).
Qed.
Next Obligation.
  intros A ? ? OA B ? ? OB [a|a] [b|b] [c|c]; simpl; try done; rewrite !bool_decide_eq_true;
    apply (transitivity (R:=key_le)).
Qed.
Next Obligation.
  intros A ? ? OA B ? ? OB [a|a] [b|b]; simpl; try done; rewrite !bool_decide_eq_true;
    intros; f_equal; by apply (anti_symm key_le).
Qed.

Definition option_le `{OA : OrdKey A} (p q : option A) : bool :=
  match p, q with
  | None, _ => true
  | Some _, None => false
  | Some a, Some b => bool_decide (key_le a b)
  end.

#[export] Program Instance ord_option `{OA : OrdKey A} : OrdKey (option A) := {|
  key_le := fun p q => option_le p q = true;
|}.
Next Obligation. intros A ? ? OA p q. apply _. Defined.
Next Obligation.
  intros A ? ? OA [a|] [b|]; simpl; auto. rewrite !bool_decide_eq_true. apply (total key_le).
Qed.
Next Obligation.
  intros A ? ? OA [a|] [b|] [c|]; simpl; try done. rewrite !bool_decide_eq_true.
  apply (transitivity (R:=key_le)).
Qed.
Next Obligation.
  intros A ? ? OA [a|] [b|]; simpl; try done. rewrite !bool_decide_eq_true.
  intros. f_equal. by apply (anti_symm key_le).
Qed.

Fixpoint list_le `{OA : OrdKey A} (xs ys : list A) : bool :=
  match xs, ys with
  | [], _ => true
  | _ :: _, [] => false
  | x :: xs, y :: ys =>
      if decide (x = y) then list_le xs ys else bool_decide (key_le x y)
  end.

#[export] Program Instance ord_list `{OA : OrdKey A} : OrdKey (list A) := {|
  key_le := fun p q => list_le p q = true;
|}.
Next Obligation. intros A ? ? OA p q. apply _. Defined.
Next Obligation.
  intros A ? ? OA p. induction p as [|x p IH]; intros [|y q]; simpl; auto.
  case_decide as Hd; [rewrite decide_True by done; apply IH|].
  rewrite decide_False by done. rewrite !bool_decide_eq_true. apply (total key_le).
Qed.
Next Obligation.
  intros A ? ? OA p. induction p as [|x p IH]; intros [|y q] [|z r]; simpl; try done.
  repeat case_decide; rewrite ?bool_decide_eq_true; subst; try done; try congruence.
  - apply IH.
  - intros. match goal with Hn : _ <> _ |- _ => exfalso; apply Hn end.
    by apply (anti_symm key_le).
  - apply (transitivity (R:=key_le)).
Qed.
Next Obligation.
  intros A ? ? OA p. induction p as [|x p IH]; intros [|y q]; simpl; try done.
  repeat case_decide; rewrite ?bool_decide_eq_true; subst; try congruence.
  - intros. f_equal. by apply IH.
  - intros. match goal with Hn : _ <> _ |- _ => exfalso; apply Hn end.
    by apply (anti_symm key_le).
Qed.

Section BTree.
Context {K : Type} `{OK : OrdKey K} {V : Type}.

(** [BTreeSet::iter] *)
Definition bset_iter (s : gset K) : list K := merge_sort key_le (elements s).

(** [BTreeMap::keys] *)
Definition btree_keys (m : gmap K V) : list K := bset_iter (dom m).

(** [BTreeMap::iter] *)
Definition btree_iter (m : gmap K V) : list (K * V) :=
  omap (fun k => pair k <$> m !! k) (btree_keys m).

(** [BTreeMap::values] *)
Definition btree_values (m : gmap K V) : list V :=
  omap (fun k => m !! k) (btree_keys m).

Lemma bset_iter_perm (s : gset K) : bset_iter s ≡ₚ elements s.
Proof. apply merge_sort_Permutation. Qed.

Lemma bset_iter_sorted (s : gset K) : StronglySorted key_le (bset_iter s).
Proof. apply StronglySorted_merge_sort; apply _. Qed.

Lemma elem_of_bset_iter (s : gset K) k : k ∈ bset_iter s <-> k ∈ s.
Proof. rewrite bset_iter_perm. apply elem_of_elements. Qed.

Lemma bset_iter_nodup (s : gset K) : NoDup (bset_iter s).
Proof. rewrite bset_iter_perm. apply NoDup_elements. Qed.

Lemma length_bset_iter (s : gset K) : length (bset_iter s) = size s.
Proof. by rewrite bset_iter_perm. Qed.

Lemma elem_of_btree_keys (m : gmap K V) k :
  k ∈ btree_keys m <-> is_Some (m !! k).
Proof. unfold btree_keys. by rewrite elem_of_bset_iter, elem_of_dom. Qed.

Lemma btree_keys_nodup (m : gmap K V) : NoDup (btree_keys m).
Proof. apply bset_iter_nodup. Qed.

Lemma length_btree_keys (m : gmap K V) : length (btree_keys m) = size m.
Proof. unfold btree_keys. by rewrite length_bset_iter, size_dom. Qed.

Lemma elem_of_btree_values (m : gmap K V) v :
  v ∈ btree_values m <-> exists k, m !! k = Some v.
Proof.
  unfold btree_values. rewrite list_elem_of_omap. split.
  - intros (k & _ & Hk). eauto.
  - intros (k & Hk). exists k. rewrite elem_of_btree_keys. eauto.
Qed.

Lemma elem_of_btree_iter (m : gmap K V) k v :
  (k, v) ∈ btree_iter m <-> m !! k = Some v.
Proof.
  unfold btree_iter. rewrite list_elem_of_omap. split.
  - intros (k' & _ & Hk). destruct (m !! k') eqn:E; by simplify_eq/=.
  - intros Hk. exists k. rewrite elem_of_btree_keys, Hk. eauto.
Qed.

Lemma btree_iter_fst (m : gmap K V) : (btree_iter m).*1 = btree_keys m.
Proof.
  unfold btree_iter.
  assert (forall l, (forall k, k ∈ l -> is_Some (m !! k)) ->
    (omap (fun k => pair k <$> m !! k) l).*1 = l) as Hl.
  { intros l. induction l as [|k l IH]; intros Hin; [done|]. simpl.
    destruct (Hin k) as [v Hv]; [by left|]. rewrite Hv. simpl. f_equal.
    apply IH. intros k' ?. apply Hin. by right. }
  apply Hl. intros k. apply elem_of_btree_keys.
Qed.

Lemma length_btree_values (m : gmap K V) : length (btree_values m) = size m.
Proof.
  rewrite <- length_btree_keys. unfold btree_values.
  assert (forall l, (forall k, k ∈ l -> is_Some (m !! k)) ->
    length (omap (fun k => m !! k) l) = length l) as Hl.
  { intros l. induction l as [|k l IH]; intros Hin; [done|]. simpl.
    destruct (Hin k) as [v Hv]; [by left|]. rewrite Hv. simpl. f_equal.
    apply IH. intros k' ?. apply Hin. by right. }
  apply Hl. intros k. apply elem_of_btree_keys.
Qed.

Lemma btree_keys_nil (m : gmap K V) : btree_keys m = [] <-> m = ∅.
Proof.
  rewrite <- map_size_empty_iff, <- length_btree_keys.
  by rewrite length_zero_iff_nil.
Qed.
End BTree.

#[export] Hint Resolve bset_iter_nodup btree_keys_nodup bset_iter_sorted : rad.
#[export] Hint Rewrite @elem_of_bset_iter @elem_of_btree_keys
  @elem_of_btree_values @elem_of_btree_iter using apply _ : rad.
