(* ===== verification/Effects.v ===== *)
(** * Effects

    The replication code can fail with an error, panic, and change the database and
    the network it runs against.  [eff E] is the monad of computations that return a
    value, return an error or panic; [st W E] adds a state [W] that is kept on errors
    too, since what was written before an error stays written.  [keeps] says
    that a computation keeps an invariant of the state however it ends; its rules
    follow the structure of the code. *)
From stdpp Require Import base list gmap.
From S2P Require Import Prelude.

Inductive eff (E A : Type) : Type :=
| EOk (a : A)
| EErr (e : E)
| EPanic.
Arguments EOk {E A} a.
Arguments EErr {E A} e.
Arguments EPanic {E A}.

#[export] Instance eff_ret {E} : MRet (eff E) := fun A a => EOk a.
#[export] Instance eff_bind {E} : MBind (eff E) := fun A B f x =>
  match x with EOk a => f a | EErr e => EErr e | EPanic => EPanic end.
#[export] Instance eff_fmap {E} : FMap (eff E) := fun A B f x =>
  match x with EOk a => EOk (f a) | EErr e => EErr e | EPanic => EPanic end.

Definition of_out {E A} (x : outcome A) : eff E A :=
  match x with Done a => EOk a | Panic => EPanic end.
Definition of_res {E A} (x : result E A) : eff E A :=
  match x with Ok a => EOk a | Err e => EErr e end.
(** [?] with a conversion of the error. *)
Definition of_res_with {E F A} (f : E -> F) (x : result E A) : eff F A := of_res (map_err f x).
Definition eff_map_err {E F A} (f : E -> F) (x : eff E A) : eff F A :=
  match x with EOk a => EOk a | EErr e => EErr (f e) | EPanic => EPanic end.

(** A [for] loop over a list that threads an accumulator. *)
Fixpoint eff_fold {E A B} (f : A -> B -> eff E A) (acc : A) (l : list B) : eff E A :=
  match l with
  | [] => EOk acc
  | b :: l => acc ← f acc b; eff_fold f acc l
  end.

(** [iter.map(f).collect::<Result<_, _>>()]. *)
Fixpoint eff_map {E A B} (f : A -> eff E B) (l : list A) : eff E (list B) :=
  match l with
  | [] => EOk []
  | a :: l => b ← f a; bs ← eff_map f l; EOk (b :: bs)
  end.

Lemma eff_bind_ok {E A B} (x : eff E A) (f : A -> eff E B) b :
  x ≫= f = EOk b <-> exists a, x = EOk a /\ f a = EOk b.
Proof.
  destruct x; cbn; split; try done; [eauto|by intros (? & [= ->] & ?)|by intros (? & ? & ?)..].
Qed.

Lemma EOk_inj {E A} (a b : A) : EOk (E:=E) a = EOk b -> a = b.
Proof. congruence. Qed.

Lemma of_out_ok {E A} (x : outcome A) a : of_out x = EOk (E:=E) a <-> x = Done a.
Proof. by destruct x; cbn; split; intros; simplify_eq. Qed.
Lemma of_res_ok {E A} (x : result E A) a : of_res x = EOk a <-> x = Ok a.
Proof. by destruct x; cbn; split; intros; simplify_eq. Qed.
Lemma of_res_with_ok {E F A} (f : E -> F) (x : result E A) a : of_res_with f x = EOk a <-> x = Ok a.
Proof. by destruct x; cbn; split; intros; simplify_eq. Qed.
Lemma eff_map_err_ok {E F A} (f : E -> F) (x : eff E A) a : eff_map_err f x = EOk a <-> x = EOk a.
Proof. by destruct x; cbn; split; intros; simplify_eq. Qed.

(** Splits the chains that returned a value. *)
Ltac inv_eff :=
  repeat match goal with
  | H : mbind _ _ = EOk _ |- _ => apply eff_bind_ok in H as (? & ? & H)
  | H : of_out _ = EOk _ |- _ => apply of_out_ok in H
  | H : of_res _ = EOk _ |- _ => apply of_res_ok in H
  | H : of_res_with _ _ = EOk _ |- _ => apply of_res_with_ok in H
  | H : eff_map_err _ _ = EOk _ |- _ => apply eff_map_err_ok in H
  end; simplify_eq/=.

(** An invariant of a fold, by the elements it goes through. *)
Lemma eff_fold_ind {E A B} (f : A -> B -> eff E A) (P : A -> Prop) (l : list B) :
  (forall acc b acc', b ∈ l -> P acc -> f acc b = EOk acc' -> P acc') ->
  forall acc acc', P acc -> eff_fold f acc l = EOk acc' -> P acc'.
Proof.
  induction l as [|b l IH]; intros Hf acc acc' Hacc; cbn [eff_fold]; [by intros [= <-]|].
  intros (a & Ha & Hl)%eff_bind_ok. apply (IH (fun acc b acc' Hb => Hf acc b acc' (list_elem_of_further _ _ _ Hb)) a); [|done].
  eapply Hf; [by left|done..].
Qed.

Lemma eff_fold_app {E A B} (f : A -> B -> eff E A) l1 l2 acc :
  eff_fold f acc (l1 ++ l2) = acc ← eff_fold f acc l1; eff_fold f acc l2.
Proof.
  revert acc. induction l1 as [|b l1 IH]; intros acc; [done|]. cbn [eff_fold app].
  destruct (f acc b); cbn; [apply IH|done..].
Qed.

Lemma eff_map_ok {E A B} (f : A -> eff E B) l bs :
  eff_map f l = EOk bs <-> Forall2 (fun a b => f a = EOk b) l bs.
Proof.
  revert bs. induction l as [|a l IH]; intros bs; cbn [eff_map].
  - split; [intros [= <-]; constructor|by inversion 1].
  - split.
    + intros (b & Hb & (bs' & Hbs & [= <-])%eff_bind_ok)%eff_bind_ok. constructor; [done|by apply IH].
    + inversion 1 as [|? b ? bs' Hb Hbs]; subst. apply IH in Hbs. apply eff_bind_ok.
      exists b. split; [done|]. apply eff_bind_ok. by exists bs'.
Qed.

(** ** State *)

Definition st (W E A : Type) : Type := W -> eff E A * W.

#[export] Instance st_ret {W E} : MRet (st W E) := fun A a w => (EOk a, w).
#[export] Instance st_bind {W E} : MBind (st W E) := fun A B f m w =>
  match m w with
  | (EOk a, w) => f a w
  | (EErr e, w) => (EErr e, w)
  | (EPanic, w) => (EPanic, w)
  end.

Section State.
Context {W E : Type}.

Definition get : st W E W := fun w => (EOk w, w).
Definition put (w : W) : st W E unit := fun _ => (EOk tt, w).
Definition lift {A} (x : eff E A) : st W E A := fun w => (x, w).
(** A computation that only reads. *)
Definition reads {A} (f : W -> eff E A) : st W E A := fun w => (f w, w).

Lemma st_bind_ok {A B} (m : st W E A) (f : A -> st W E B) w b w' :
  (m ≫= f) w = (EOk b, w') <-> exists a w1, m w = (EOk a, w1) /\ f a w1 = (EOk b, w').
Proof.
  unfold mbind, st_bind. destruct (m w) as [[a|e|] w1].
  - split; [eauto|]. by intros (? & ? & [= <- <-] & ?).
  - split; [done|]. by intros (? & ? & ? & ?).
  - split; [done|]. by intros (? & ? & ? & ?).
Qed.

(** [m] keeps the invariant [I], however it ends, and a value it returns satisfies [Q]. *)
Definition keeps {A} (I : W -> Prop) (m : st W E A) (Q : A -> Prop) : Prop :=
  forall w, I w -> I (m w).2 /\ forall a, (m w).1 = EOk a -> Q a.

Lemma keeps_bind {A B} I (m : st W E A) (f : A -> st W E B) P Q :
  keeps I m P -> (forall a, P a -> keeps I (f a) Q) -> keeps I (m ≫= f) Q.
Proof.
  intros Hm Hf w Hw. destruct (Hm w Hw) as [H1 H2]. unfold mbind, st_bind.
  destruct (m w) as [[a|e|] w1]; cbn in *; [|by split..]. apply Hf; [by apply H2|done].
Qed.
Lemma keeps_ret {A} (I : W -> Prop) (a : A) (Q : A -> Prop) : Q a -> keeps I (mret a) Q.
Proof. intros Ha w Hw. split; [done|]. by intros ? [= <-]. Qed.
Lemma keeps_get (I : W -> Prop) : keeps I get I.
Proof. intros w Hw. split; [done|]. by intros ? [= <-]. Qed.
Lemma keeps_lift {A} (I : W -> Prop) (x : eff E A) (Q : A -> Prop) :
  (forall a, x = EOk a -> Q a) -> keeps I (lift x) Q.
Proof. intros Hx w Hw. by split. Qed.
Lemma keeps_reads {A} (I : W -> Prop) (f : W -> eff E A) (Q : A -> Prop) :
  (forall w a, I w -> f w = EOk a -> Q a) -> keeps I (reads f) Q.
Proof. intros Hf w Hw. split; [done|]. intros a. by apply Hf. Qed.
Lemma keeps_weaken {A} (I : W -> Prop) (m : st W E A) (P Q : A -> Prop) :
  keeps I m P -> (forall a, P a -> Q a) -> keeps I m Q.
Proof. intros Hm HPQ w Hw. destruct (Hm w Hw) as [H1 H2]. split; [done|]. eauto. Qed.
End State.
