(* ===== verification/Bounded.v ===== *)
(** * Length-bounded and non-empty containers

    [data/src/bounded.rs] and [data/src/nonempty.rs].  [Within min max T] is the
    newtype that witnesses [min <= len <= max]; its only mutating operation is
    [extend_fill].  The bounds, type-level naturals in the source, are
    parameters of the record.  The containers a bound can wrap implement the
    [Length] trait together with [FromIterator] and [Extend]; the class
    [Collection] states what the code relies on, and [Vec] and [BTreeSet]
    implement it. *)
From stdpp Require Import base list gmap.
From Stdlib Require Import Lia.
From S2P Require Import Prelude.

(** ** The traits *)

(** [Length::length], together with the [FromIterator]/[Extend] of the
    container and the laws of the standard containers. *)
Class Collection (T V : Type) := {
  length_ : T -> nat;
  from_iter : list V -> T;
  extend : T -> list V -> T;
  into_iter : T -> list V;
  from_iter_nil : length_ (from_iter []) = 0;
  from_iter_one v : length_ (from_iter [v]) = 1;
  from_iter_le vs : length_ (from_iter vs) <= length vs;
  into_iter_length t : length (into_iter t) = length_ t;
  extend_ge t vs : length_ t <= length_ (extend t vs);
  extend_le t vs : length_ (extend t vs) <= length_ t + length vs;
}.

#[export] Instance collection_vec {V} : Collection (list V) V.
Proof.
  refine {| length_ := length; from_iter := fun vs => vs;
            extend := fun t vs => t ++ vs; into_iter := fun t => t |};
    intros; rewrite ?length_app; simpl; lia.
Defined.

(** [BTreeSet]: extending by a value that is there leaves the size alone. *)
Definition bset_extend `{OrdKey K} (s : gset K) (vs : list K) : gset K :=
  foldl (fun s v => {[v]} ∪ s) s vs.

Lemma bset_extend_size `{OrdKey K} (s : gset K) vs :
  size s <= size (bset_extend s vs) <= size s + length vs.
Proof.
  unfold bset_extend. revert s. induction vs as [|v vs IH]; intros s; simpl; [lia|].
  specialize (IH ({[v]} ∪ s)).
  assert (size s <= size ({[v]} ∪ s)) by (apply subseteq_size; set_solver).
  assert (size ({[v]} ∪ s) <= 1 + size s).
  { rewrite size_union_alt, size_singleton.
    assert (size (s ∖ {[v]}) <= size s) by (apply subseteq_size; set_solver). lia. }
  lia.
Qed.

#[export] Instance collection_bset `{OrdKey K} : Collection (gset K) K.
Proof.
  refine {| length_ := size; from_iter := bset_extend ∅;
            extend := bset_extend; into_iter := bset_iter |}; intros.
  - exact (size_empty (C:=gset K)).
  - transitivity (size ({[v]} ∪ ∅ : gset K)); [done|].
    by rewrite (right_id_L ∅ (∪)), size_singleton.
  - etransitivity; [apply bset_extend_size|]. by rewrite size_empty.
  - apply length_bset_iter.
  - apply bset_extend_size.
  - apply bset_extend_size.
Defined.

(** ** [Within] *)

Inductive Error : Type :=
| TooSmall (min len : nat)
| TooLarge (max len : nat).

#[export] Instance error_eq_dec : EqDecision Error.
Proof. solve_decision. Defined.

Record Within (min max : nat) (T : Type) := MkWithin { inner : T }.
Arguments MkWithin {min max T} inner.
Arguments inner {min max T} w.

#[export] Instance within_eq_dec {n m} `{EqDecision T} : EqDecision (Within n m T).
Proof. solve_decision. Defined.

(** The property the newtype witnesses. *)
Definition within_ok `{Collection T V} {min max} (w : Within min max T) : Prop :=
  min <= length_ (inner w) <= max.

Section Within.
Context {T V : Type} `{Collection T V} {min max : nat}.

Definition try_from_length (t : T) : result Error (Within min max T) :=
  let len := length_ t in
  if len <? min then Err (TooSmall min len)
  else if max <? len then Err (TooLarge max len)
  else Ok (MkWithin t).

(** [From<iter::Once<V>>]: the bounds [N <= 1 <= M] are trait bounds. *)
Definition from_once (v : V) : Within min max T := MkWithin (from_iter [v]).

Definition singleton (v : V) : Within min max T := from_once v.

(** [max - len] is a [usize] subtraction: below zero it panics. *)
Definition extend_fill (w : Within min max T) (iter : list V) :
    outcome (Within min max T) :=
  let len := length_ (inner w) in
  if max <? len then Panic
  else Done (MkWithin (extend (inner w) (take (max - len) iter))).

Definition into_inner (w : Within min max T) : T := inner w.

(** [From<iter::Empty<V>>], for [Bounded<N, T> = Within<U0, N, T>] only. *)
Definition from_empty : Within 0 max T := MkWithin (from_iter []).

(** [T::deserialize] and [T::decode] are third-party code: [dec] is its
    result on the input at hand. *)
Definition deserialize_truncate {E} (dec : result E T) : result E (Within 0 max T) :=
  t ← dec; Ok (MkWithin (from_iter (take max (into_iter t)))).

Definition decode_truncate {E} (dec : result E T) : result E (Within 0 max T) :=
  t ← dec; Ok (MkWithin (from_iter (take max (into_iter t)))).

Definition deserialize {E} (custom : Error -> E) (dec : result E T) :
    result E (Within min max T) :=
  t ← dec; map_err custom (try_from_length t).

(** The messages of [decode::Error::Message]. *)
Inductive decode_error (E : Type) : Type :=
| Decoder (e : E)
| MinNotReached
| MaxExceeded.
#[global] Arguments Decoder {E} e.
#[global] Arguments MinNotReached {E}.
#[global] Arguments MaxExceeded {E}.

Definition decode_any {E} (dec : result E T) : result (decode_error E) (Within min max T) :=
  t ← map_err Decoder dec;
  if length_ t <? min then Err MinNotReached
  else if max <? length_ t then Err MaxExceeded
  else Ok (MkWithin t).

(** [d.probe().array()] ([d.probe().map()]): the definite length of the item
    that comes next, [None] for an indefinite one. *)
Definition decode_array {E} (probe : result E (option nat)) (dec : result E T) :
    result (decode_error E) (Within min max T) :=
  p ← map_err Decoder probe;
  match p with
  | Some len =>
      if len <? min then Err MinNotReached
      else if max <? len then Err MaxExceeded
      else decode_any dec
  | None => decode_any dec
  end.

Definition decode_map {E} (probe : result E (option nat)) (dec : result E T) :
    result (decode_error E) (Within min max T) :=
  p ← map_err Decoder probe;
  match p with
  | Some len =>
      if len <? min then Err MinNotReached
      else if max <? len then Err MaxExceeded
      else decode_any dec
  | None => decode_any dec
  end.
End Within.

(** ** Lemmas *)
Section Laws.
Context {T V : Type} `{Collection T V}.

Lemma try_from_length_ok {n m} (t : T) (w : Within n m T) :
  try_from_length t = Ok w <-> inner w = t /\ within_ok w.
Proof.
  unfold try_from_length, within_ok. destruct w as [u]; simpl.
  destruct (Nat.ltb_spec (length_ t) n); [split; [done|intros [<- ?]; lia]|].
  destruct (Nat.ltb_spec m (length_ t)); [split; [done|intros [<- ?]; lia]|].
  split; [intros [= ->]; split; [done|lia]|intros [-> _]; done].
Qed.

Lemma extend_fill_done {n m} (w : Within n m T) iter :
  within_ok w ->
  exists w', extend_fill w iter = Done w' /\ within_ok w' /\
    inner w' = extend (inner w) (take (m - length_ (inner w)) iter).
Proof.
  intros [Hmin Hmax]. unfold extend_fill.
  destruct (Nat.ltb_spec m (length_ (inner w))); [lia|].
  eexists. split; [done|]. split; [|done]. unfold within_ok. simpl.
  pose proof (extend_ge (inner w) (take (m - length_ (inner w)) iter)).
  pose proof (extend_le (inner w) (take (m - length_ (inner w)) iter)).
  rewrite length_take in *. lia.
Qed.

Lemma decode_truncate_within {E m} (dec : result E T) (w : Within 0 m T) :
  decode_truncate dec = Ok w -> within_ok w.
Proof.
  unfold decode_truncate. intros Hd. inv_res. unfold within_ok. simpl.
  match goal with |- context [from_iter ?l] => pose proof (from_iter_le l) as Hl end.
  rewrite length_take in Hl. lia.
Qed.

Lemma decode_any_within {E n m} (dec : result E T) (w : Within n m T) :
  decode_any dec = Ok w -> within_ok w /\ dec = Ok (inner w).
Proof.
  unfold decode_any, within_ok. destruct dec; simpl; [|done].
  destruct (Nat.ltb_spec (length_ a) n), (Nat.ltb_spec m (length_ a)); intros [= <-].
  simpl. split; [lia|done].
Qed.

Lemma decode_array_within {E n m} probe (dec : result E T) (w : Within n m T) :
  decode_array probe dec = Ok w -> within_ok w /\ dec = Ok (inner w).
Proof.
  unfold decode_array. intros Hd. inv_res. case_guards; by eapply decode_any_within.
Qed.

Lemma singleton_within {n m} (v : V) :
  n <= 1 <= m -> within_ok (singleton v : Within n m T).
Proof. intros. unfold within_ok. simpl. rewrite from_iter_one. lia. Qed.
End Laws.

(** Every way to obtain a [Within] value from outside goes through one of these
    constructors; what they accept, and what an extension leaves, is what the
    type witnesses. *)
Inductive built {T V : Type} `{Collection T V} {min max : nat} :
    Within min max T -> Prop :=
| built_try t w : try_from_length t = Ok w -> built w
| built_once v : min <= 1 -> 1 <= max -> built (singleton v)
| built_decode E probe (dec : result E T) w : decode_array probe dec = Ok w -> built w
| built_any E (dec : result E T) w : decode_any dec = Ok w -> built w
| built_extend w vs w' : built w -> extend_fill w vs = Done w' -> built w'.

Lemma built_within `{Collection T V} {n m} (w : Within n m T) : built w -> within_ok w.
Proof.
  induction 1 as [t w Ht|v ? ?|E p d w Hd|E d w Hd|w vs w' _ IH He].
  - by apply try_from_length_ok in Ht as [_ ?].
  - by apply singleton_within.
  - by apply decode_array_within in Hd as [? _].
  - by apply decode_any_within in Hd as [? _].
  - destruct (extend_fill_done w vs IH) as (w'' & Hw & ? & _). congruence.
Qed.

#[export] Hint Resolve singleton_within built_within : rad.

(** ** [NonEmpty] *)
Module NonEmpty.

Record NonEmpty (T : Type) := MkNonEmpty { inner : T }.
Arguments MkNonEmpty {T} inner.
Arguments inner {T} n.

Section NonEmpty.
Context {T V : Type} `{Collection T V}.

(** [MaybeEmpty::is_empty]. *)
Definition is_empty (t : T) : bool := length_ t =? 0.

Definition new (v : V) : NonEmpty T := MkNonEmpty (from_iter [v]).

Definition from_maybe_empty (t : T) : option (NonEmpty T) :=
  if is_empty t then None else Some (MkNonEmpty t).

(** [Extend for NonEmpty]. *)
Definition ne_extend (n : NonEmpty T) (vs : list V) : NonEmpty T :=
  MkNonEmpty (extend (inner n) vs).

(** [Deserialize]/[Decode for NonEmpty]; [dec] is the inner container's. *)
Definition ne_decode {E} (empty : E) (dec : result E T) : result E (NonEmpty T) :=
  t ← dec; ok_or (from_maybe_empty t) empty.

Definition non_empty_ok (n : NonEmpty T) : Prop := 0 < length_ (inner n).

Inductive ne_built : NonEmpty T -> Prop :=
| ne_new v : ne_built (new v)
| ne_from t n : from_maybe_empty t = Some n -> ne_built n
| ne_dec E (e : E) d n : ne_decode e d = Ok n -> ne_built n
| ne_ext n vs : ne_built n -> ne_built (ne_extend n vs).

Lemma from_maybe_empty_ok t n : from_maybe_empty t = Some n -> non_empty_ok n.
Proof.
  unfold from_maybe_empty, is_empty, non_empty_ok.
  destruct (Nat.eqb_spec (length_ t) 0); intros [= <-]. simpl. lia.
Qed.

Lemma ne_built_ok n : ne_built n -> non_empty_ok n.
Proof.
  induction 1 as [v|t n Ht|E e d n Hd|n vs _ IH].
  - unfold non_empty_ok. simpl. rewrite from_iter_one. lia.
  - by eapply from_maybe_empty_ok.
  - unfold ne_decode in Hd. inv_res. unfold ok_or in *. case_guards.
    by eapply from_maybe_empty_ok.
  - unfold non_empty_ok in *. simpl. pose proof (extend_ge (inner n) vs). lia.
Qed.
End NonEmpty.
End NonEmpty.

(** ** Properties *)

(** [extend_fill_bounded]: a value built by any of the validating constructors
    or decoders satisfies its length bounds, extending it never underflows the
    [max - len] subtraction, and the result satisfies the bounds again and holds
    the prefix of the iterator that fits. *)
Theorem extend_fill_bounded `{Collection T V} {n m} (w : Within n m T) (vs : list V)
    (Hw : built w) :
  n <= length_ (inner w) <= m /\
  exists w', extend_fill w vs = Done w' /\ n <= length_ (inner w') <= m /\
    inner w' = extend (inner w) (take (m - length_ (inner w)) vs).
Proof.
  apply built_within in Hw. split; [done|].
  destruct (extend_fill_done w vs Hw) as (w' & ? & ? & ?). by exists w'.
Qed.

Lemma extend_fill_bounded_witness :
  let w : Within 0 2 (list nat) := singleton 1 in
  0 <= length_ (inner w) <= 2 /\
  exists w', extend_fill w [2; 3] = Done w' /\ 0 <= length_ (inner w') <= 2 /\
    inner w' = [1; 2].
Proof.
  assert (built (singleton 1 : Within 0 2 (list nat))) as Hb by (apply built_once; lia).
  exact (extend_fill_bounded (singleton 1 : Within 0 2 (list nat)) [2; 3] Hb).
Defined.
