(* ===== verification/PeerInfo.v ===== *)
(** * Peer information

    [librad/src/net/protocol/info.rs]: what a peer advertises about itself and
    what others have seen of it.  A [PeerId] is an opaque, ordered, 32-byte
    public key: it is represented by the number its bytes spell. *)
From stdpp Require Import base list gmap.
From Stdlib Require Import NArith.
From S2P Require Import Prelude.
From S2P Require Import Bounded.

Abbreviation PeerId := N (only parsing).

Inductive Capability : Type := Reserved.

#[export] Instance capability_eq_dec : EqDecision Capability.
Proof. solve_decision. Defined.

#[export] Program Instance capability_countable : Countable Capability :=
  {| encode := fun _ => 1%positive; decode := fun _ => Some Reserved |}.
Next Obligation. by intros []. Qed.

Record PeerAdvertisement (Addr : Type) := MkAdvertisement {
  listen_addrs : Within 0 16 (list Addr);
  capabilities : gset Capability;
}.
Arguments MkAdvertisement {Addr} _ _.
Arguments listen_addrs {Addr} _.
Arguments capabilities {Addr} _.

Record GenericPeerInfo (Addr T : Type) := MkPeerInfo {
  peer_id : PeerId;
  advertised_info : T;
  seen_addrs : Within 0 16 (list Addr);
}.
Arguments MkPeerInfo {Addr T} _ _ _.
Arguments peer_id {Addr T} _.
Arguments advertised_info {Addr T} _.
Arguments seen_addrs {Addr T} _.

Abbreviation PeerInfo Addr := (GenericPeerInfo Addr (PeerAdvertisement Addr)).
Abbreviation PartialPeerInfo Addr :=
  (GenericPeerInfo Addr (option (PeerAdvertisement Addr))).

#[export] Instance peer_advertisement_eq_dec `{EqDecision Addr} :
  EqDecision (PeerAdvertisement Addr).
Proof. solve_decision. Defined.

#[export] Instance generic_peer_info_eq_dec `{EqDecision Addr, EqDecision T} :
  EqDecision (GenericPeerInfo Addr T).
Proof. solve_decision. Defined.

Section PeerInfo.
Context {Addr : Type}.

(** [PartialPeerInfo::sequence] *)
Definition sequence (i : PartialPeerInfo Addr) : option (PeerInfo Addr) :=
  match advertised_info i with
  | Some ad => Some (MkPeerInfo (peer_id i) ad (seen_addrs i))
  | None => None
  end.

(** [From<PeerInfo> for PartialPeerInfo] *)
Definition to_partial (i : PeerInfo Addr) : PartialPeerInfo Addr :=
  MkPeerInfo (peer_id i) (Some (advertised_info i)) (seen_addrs i).

(** [From<PartialPeerInfo> for (PeerId, Vec<Addr>)] *)
Definition partial_into_addrs (i : PartialPeerInfo Addr) : PeerId * list Addr :=
  (peer_id i,
   flat_map (fun ad => inner (listen_addrs ad)) (option_list (advertised_info i))
     ++ inner (seen_addrs i)).

(** [From<PeerInfo> for (PeerId, Vec<Addr>)] *)
Definition into_addrs (i : PeerInfo Addr) : PeerId * list Addr :=
  (peer_id i, inner (listen_addrs (advertised_info i)) ++ inner (seen_addrs i)).

(** [PeerInfo::addrs]: seen addresses first. *)
Definition addrs (i : PeerInfo Addr) : list Addr :=
  inner (seen_addrs i) ++ inner (listen_addrs (advertised_info i)).

(** [PeerAdvertisement::new] *)
Definition advertisement_new (listen_addr : Addr) : PeerAdvertisement Addr :=
  MkAdvertisement (singleton listen_addr) ∅.

(** The bound the types promise. *)
Definition info_ok {T} (i : GenericPeerInfo Addr T) : Prop := within_ok (seen_addrs i).

Lemma sequence_to_partial i : sequence (to_partial i) = Some i.
Proof. by destruct i. Qed.

Lemma sequence_some i j :
  sequence i = Some j -> to_partial j = i /\ peer_id j = peer_id i /\ (info_ok i -> info_ok j).
Proof. unfold sequence. destruct i as [p [ad|] s]; simpl; by intros [= <-]. Qed.

Lemma to_partial_peer_id i : peer_id (to_partial i) = peer_id i.
Proof. done. Qed.

Lemma into_addrs_to_partial i : partial_into_addrs (to_partial i) = into_addrs i.
Proof. destruct i. unfold partial_into_addrs, into_addrs. simpl. by rewrite app_nil_r. Qed.
End PeerInfo.

#[export] Hint Resolve sequence_to_partial : rad.
