(* ===== verification/PartialView.v ===== *)
(** * The partial view of the network

    [librad/src/net/protocol/membership/partial_view.rs]: the active and passive
    sets of peers the HyParView protocol keeps.  Every operation that changes
    the view is a state-passing function in the [outcome] monad: the address
    bound of [extend_fill] is a [usize] subtraction. *)
From stdpp Require Import base list gmap.
From Stdlib Require Import NArith Lia.
From S2P Require Import Prelude.
From S2P Require Import Bounded.
From S2P Require Import PeerInfo.

(** ** The random generator

    [rand::seq::IteratorRandom] is third-party code.  [Rng] states what its
    documentation promises: [choose] returns an element of the iterator unless
    it is empty; [choose_multiple] returns [amount] distinct positions, or all
    of them when there are fewer. *)
Class Rng (R : Type) := {
  choose : forall {A : Type}, list A -> R -> option A * R;
  choose_multiple : forall {A : Type}, list A -> nat -> R -> list A * R;
  choose_nil A (r : R) : (choose (@nil A) r).1 = None;
  choose_cons A (l : list A) (r : R) : l <> [] -> exists x, (choose l r).1 = Some x /\ x ∈ l;
  choose_multiple_sub A (l : list A) n r :
    exists rest, l ≡ₚ (choose_multiple l n r).1 ++ rest;
  choose_multiple_length A (l : list A) n r :
    length (choose_multiple l n r).1 = n `min` length l;
}.

(** A concrete generator, for the witnesses: a counter that picks by position. *)
#[refine, export] Instance rng_counter : Rng nat := {|
  choose := fun A l r => (l !! (r mod length l), S r);
  choose_multiple := fun A l n r => (take n (drop (r mod length l) l ++ take (r mod length l) l), S r);
|}.
Proof.
  - done.
  - intros A l r Hl. simpl.
    destruct (lookup_lt_is_Some_2 l (r mod length l)) as [x Hx].
    { apply Nat.mod_upper_bound. by destruct l. }
    exists x. split; [done|]. by eapply list_elem_of_lookup_2.
  - intros A l n r. simpl. eexists. rewrite take_drop.
    rewrite Permutation_app_comm. by rewrite take_drop.
  - intros A l n r. simpl. rewrite length_take, length_app, length_take, length_drop. lia.
Defined.

Section Choose.
Context {R : Type} `{Rng R}.

Lemma choose_some A (l : list A) r x r' : choose l r = (Some x, r') -> x ∈ l.
Proof.
  intros Hc. destruct l as [|y l].
  - pose proof (choose_nil A r) as Hn. rewrite Hc in Hn. done.
  - destruct (choose_cons A (y :: l) r) as (z & Hz & ?); [done|].
    rewrite Hc in Hz. simpl in Hz. by simplify_eq.
Qed.

Lemma choose_none A (l : list A) r r' : choose l r = (None, r') -> l = [].
Proof.
  intros Hc. destruct l as [|y l]; [done|].
  destruct (choose_cons A (y :: l) r) as (z & Hz & ?); [done|].
  by rewrite Hc in Hz.
Qed.

Lemma choose_multiple_elem A (l : list A) n r x :
  x ∈ (choose_multiple l n r).1 -> x ∈ l.
Proof.
  intros Hx. destruct (choose_multiple_sub A l n r) as [rest Hp].
  rewrite Hp, elem_of_app. by left.
Qed.
End Choose.

(** ** The view *)

Inductive Transition (A : Type) : Type :=
| Promoted (i : PartialPeerInfo A)
| Demoted (i : PeerInfo A)
| Evicted (i : PartialPeerInfo A).
Arguments Promoted {A} i.
Arguments Demoted {A} i.
Arguments Evicted {A} i.

Record PartialView (R A : Type) := MkPartialView {
  local_id : PeerId;
  rng : R;
  max_active : nat;
  max_passive : nat;
  active : gmap PeerId (PartialPeerInfo A);
  passive : gmap PeerId (PeerInfo A);
}.
Arguments MkPartialView {R A} _ _ _ _ _ _.
Arguments local_id {R A} _.
Arguments rng {R A} _.
Arguments max_active {R A} _.
Arguments max_passive {R A} _.
Arguments active {R A} _.
Arguments passive {R A} _.

Section View.
Context {R A : Type} `{Rng R} `{EqDecision A}.
Implicit Types v : PartialView R A.

Definition set_rng v (r : R) : PartialView R A :=
  MkPartialView (local_id v) r (max_active v) (max_passive v) (active v) (passive v).
Definition set_active v a : PartialView R A :=
  MkPartialView (local_id v) (rng v) (max_active v) (max_passive v) a (passive v).
Definition set_passive v p : PartialView R A :=
  MkPartialView (local_id v) (rng v) (max_active v) (max_passive v) (active v) p.

Definition new (local_id : PeerId) (rng : R) (max_active max_passive : nat) : PartialView R A :=
  MkPartialView local_id rng max_active max_passive ∅ ∅.

Definition is_active v (peer : PeerId) : bool := bool_decide (is_Some (active v !! peer)).
Definition is_passive v (peer : PeerId) : bool := bool_decide (is_Some (passive v !! peer)).
Definition is_known v peer : bool := is_active v peer || is_passive v peer.
Definition active_ids v : list PeerId := btree_keys (active v).
Definition passive_ids v : list PeerId := btree_keys (passive v).
Definition known v : list PeerId := active_ids v ++ passive_ids v.
Definition active_info v : list (PartialPeerInfo A) := btree_values (active v).
Definition passive_info v : list (PeerInfo A) := btree_values (passive v).
Definition num_active v : nat := size (active v).
Definition num_passive v : nat := size (passive v).
Definition is_active_full v : bool := max_active v <=? num_active v.

Definition evict (peer : PeerId) v : list (Transition A) * PartialView R A :=
  match passive v !! peer with
  | Some evicted =>
      ([Evicted (to_partial evicted)], set_passive v (delete peer (passive v)))
  | None => ([], v)
  end.

Definition evict_random v : list (Transition A) * PartialView R A :=
  match choose (passive_ids v) (rng v) with
  | (Some peer, r) => evict peer (set_rng v r)
  | (None, r) => ([], set_rng v r)
  end.

(** aka [addNodePassiveView] *)
Definition add_passive (info : PeerInfo A) v :
    outcome (list (Transition A) * PartialView R A) :=
  if bool_decide (peer_id info = local_id v) || is_active v (peer_id info)
  then Done ([], v)
  else
    let '(evicted, v1) :=
      if max_passive v <=? num_passive v then evict_random v else ([], v) in
    match passive v1 !! peer_id info with
    | None => Done (evicted, set_passive v1 (<[peer_id info := info]> (passive v1)))
    | Some prev_info =>
        let prev_addrs :=
          filter (fun addr => addr ∉ inner (seen_addrs info)) (inner (seen_addrs prev_info)) in
        seen ← extend_fill (seen_addrs info) prev_addrs;
        Done (evicted,
          set_passive v1
            (<[peer_id info := MkPeerInfo (peer_id prev_info) (advertised_info info) seen]>
               (passive v1)))
    end.

Definition demote (peer : PeerId) v : outcome (list (Transition A) * PartialView R A) :=
  match active v !! peer with
  | None => Done ([], v)
  | Some demoted =>
      let v1 := set_active v (delete peer (active v)) in
      match sequence demoted with
      | None => Done ([Evicted demoted], v1)
      | Some info =>
          '(ts, v2) ← add_passive info v1;
          Done (Demoted info :: ts, v2)
      end
  end.

(** aka [dropRandomElementFromActiveView] *)
Definition demote_random v : outcome (list (Transition A) * PartialView R A) :=
  match choose (active_ids v) (rng v) with
  | (Some peer, r) => demote peer (set_rng v r)
  | (None, r) => Done ([], set_rng v r)
  end.

(** aka [addNodeActiveView] *)
Definition add_active (info : PartialPeerInfo A) v :
    outcome (list (Transition A) * PartialView R A) :=
  if bool_decide (peer_id info = local_id v) || is_active v (peer_id info)
  then Done ([], v)
  else
    '(demoted, v1) ← (if is_active_full v then demote_random v else Done ([], v));
    let v2 :=
      if is_passive v1 (peer_id info)
      then set_passive v1 (delete (peer_id info) (passive v1)) else v1 in
    let v3 := set_active v2 (<[peer_id info := info]> (active v2)) in
    Done (Promoted info :: demoted, v3).

(** ** The invariant *)

(** The local peer is in neither set, the sets are disjoint and within their
    bounds (a bound of zero still admits the one peer an operation inserts),
    every entry sits under its own id, and the address lists are within the
    bound of their type. *)
Record view_ok v : Prop := {
  vo_local_active : active v !! local_id v = None;
  vo_local_passive : passive v !! local_id v = None;
  vo_disjoint : forall p, is_Some (active v !! p) -> passive v !! p = None;
  vo_active_size : num_active v <= 1 `max` max_active v;
  vo_passive_size : num_passive v <= 1 `max` max_passive v;
  vo_active_id : forall p i, active v !! p = Some i -> peer_id i = p /\ info_ok i;
  vo_passive_id : forall p i, passive v !! p = Some i -> peer_id i = p /\ info_ok i;
}.

(** The part of the view no operation changes. *)
Definition same_config v v' : Prop :=
  local_id v' = local_id v /\ max_active v' = max_active v /\ max_passive v' = max_passive v.

(** ** The abstract view: two sets of ids

    A transition is what the protocol reports of a change; [replay] is what a
    listener that keeps the two sets does with it. *)
Definition sets v : gset PeerId * gset PeerId := (dom (active v), dom (passive v)).

Definition replay (s : gset PeerId * gset PeerId) (t : Transition A) :
    gset PeerId * gset PeerId :=
  match t with
  | Promoted i => (s.1 ∪ {[peer_id i]}, s.2 ∖ {[peer_id i]})
  | Demoted i => (s.1 ∖ {[peer_id i]}, s.2 ∪ {[peer_id i]})
  | Evicted i => (s.1 ∖ {[peer_id i]}, s.2 ∖ {[peer_id i]})
  end.

Definition replay_all := foldl replay.

Lemma same_config_refl v : same_config v v.
Proof. done. Qed.

Lemma same_config_trans v1 v2 v3 : same_config v1 v2 -> same_config v2 v3 -> same_config v1 v3.
Proof. unfold same_config. intuition congruence. Qed.

Lemma new_ok l r a p : view_ok (new l r a p).
Proof.
  split; unfold num_active, num_passive, new; cbn [active passive]; try done;
    rewrite map_size_empty; lia.
Qed.

Lemma view_ok_set_rng v r : view_ok v -> view_ok (set_rng v r).
Proof. intros []. by split. Qed.

Lemma view_ok_del_active v p :
  view_ok v -> view_ok (set_active v (delete p (active v))).
Proof.
  intros []. split; unfold num_active, num_passive in *; simpl; try done.
  - by rewrite lookup_delete_None; right.
  - intros q Hq. apply vo_disjoint0. by apply lookup_delete_is_Some in Hq as [_ ?].
  - assert (size (delete p (active v)) <= size (active v)); [|lia].
    apply map_subseteq_size, delete_subseteq.
  - intros q i Hq. apply lookup_delete_Some in Hq as [_ ?]. by apply vo_active_id0.
Qed.

Lemma view_ok_del_passive v p :
  view_ok v -> view_ok (set_passive v (delete p (passive v))).
Proof.
  intros []. split; unfold num_active, num_passive in *; simpl; try done.
  - by rewrite lookup_delete_None; right.
  - intros q Hq. rewrite lookup_delete_None. right. by apply vo_disjoint0.
  - assert (size (delete p (passive v)) <= size (passive v)); [|lia].
    apply map_subseteq_size, delete_subseteq.
  - intros q i Hq. apply lookup_delete_Some in Hq as [_ ?]. by apply vo_passive_id0.
Qed.

Lemma view_ok_ins_passive v p i :
  view_ok v -> p <> local_id v -> active v !! p = None -> peer_id i = p -> info_ok i ->
  size (<[p := i]> (passive v)) <= 1 `max` max_passive v ->
  view_ok (set_passive v (<[p := i]> (passive v))).
Proof.
  intros [] Hl Ha Hp Hi Hsz. split; unfold num_active, num_passive in *; simpl; try done.
  - by rewrite lookup_insert_ne.
  - intros q Hq. destruct (decide (q = p)) as [->|]; [rewrite Ha in Hq; by destruct Hq|].
    rewrite lookup_insert_ne by done. by apply vo_disjoint0.
  - intros q j. rewrite lookup_insert_Some. intros [[<- <-]|[_ Hq]]; [done|].
    by apply vo_passive_id0.
Qed.

Lemma view_ok_ins_active v p i :
  view_ok v -> p <> local_id v -> passive v !! p = None -> peer_id i = p -> info_ok i ->
  size (<[p := i]> (active v)) <= 1 `max` max_active v ->
  view_ok (set_active v (<[p := i]> (active v))).
Proof.
  intros [] Hl Ha Hp Hi Hsz. split; unfold num_active, num_passive in *; simpl; try done.
  - by rewrite lookup_insert_ne.
  - intros q Hq. destruct (decide (q = p)) as [->|]; [done|].
    rewrite lookup_insert_ne in Hq by done. by apply vo_disjoint0.
  - intros q j. rewrite lookup_insert_Some. intros [[<- <-]|[_ Hq]]; [done|].
    by apply vo_active_id0.
Qed.

(** ** Eviction *)

Lemma evict_spec p v ts v' :
  evict p v = (ts, v') -> view_ok v ->
  view_ok v' /\ same_config v v' /\ active v' = active v /\
  passive v' = delete p (passive v) /\
  (ts = [] /\ passive v !! p = None \/
   exists i, passive v !! p = Some i /\ ts = [Evicted (to_partial i)]).
Proof.
  unfold evict. intros He Hok. destruct (passive v !! p) as [i|] eqn:Hp; simplify_eq.
  - split_and!; try done; [by apply view_ok_del_passive|]. right. eauto.
  - split_and!; try done; [by rewrite delete_id|]. by left.
Qed.

Lemma evict_random_spec v ts v' :
  evict_random v = (ts, v') -> view_ok v ->
  view_ok v' /\ same_config v v' /\ active v' = active v /\
  ((ts = [] /\ passive v = ∅ /\ passive v' = ∅) \/
   exists z i, passive v !! z = Some i /\ passive v' = delete z (passive v) /\
     ts = [Evicted (to_partial i)]).
Proof.
  unfold evict_random. intros He Hok.
  destruct (choose (passive_ids v) (rng v)) as [[z|] r] eqn:Hc.
  - apply choose_some in Hc. unfold passive_ids in Hc.
    apply elem_of_btree_keys in Hc as [i Hi].
    apply evict_spec in He as (? & ? & ? & Hp & Ht); [|by apply view_ok_set_rng].
    simpl in *. split_and!; try done. right.
    destruct Ht as [[_ Hn]|(j & Hj & ->)]; [congruence|]. eauto.
  - apply choose_none in Hc. unfold passive_ids in Hc. apply btree_keys_nil in Hc.
    simplify_eq. split_and!; try done; [by apply view_ok_set_rng|]. by left.
Qed.

(** ** Adding to the passive view *)

Lemma size_insert_le {V} (m : gmap PeerId V) k x : size (<[k := x]> m) <= S (size m).
Proof. rewrite map_size_insert. destruct (m !! k); simpl; lia. Qed.

(** What room the eviction made. *)
Lemma room_passive (info : PeerInfo A) v ts v1 (i : PeerInfo A) :
  view_ok v ->
  (if max_passive v <=? num_passive v then evict_random v else ([], v)) = (ts, v1) ->
  view_ok v1 /\ same_config v v1 /\ active v1 = active v /\
  size (<[peer_id info := i]> (passive v1)) <= 1 `max` max_passive v /\
  (ts = [] /\ passive v1 = passive v \/
   exists z j, passive v !! z = Some j /\ passive v1 = delete z (passive v) /\
     ts = [Evicted (to_partial j)]) .
Proof.
  intros Hok. pose proof (vo_passive_size v Hok) as Hsz.
  destruct (Nat.leb_spec (max_passive v) (num_passive v)) as [Hf|Hf]; intros He.
  - apply evict_random_spec in He as (? & ? & ? & Ht); [|done]. split_and!; try done.
    + pose proof (size_insert_le (passive v1) (peer_id info) i) as Hi.
      destruct Ht as [(-> & Hz & Hz')|(z & j & Hz & Hz' & ->)].
      * rewrite Hz' in *. rewrite map_size_empty in Hi. lia.
      * rewrite Hz' in *. rewrite map_size_delete_Some in Hi by eauto.
        unfold num_passive in *.
        assert (size (passive v) <> 0); [|lia].
        apply map_size_non_empty_iff. intros E. by rewrite E in Hz.
    + destruct Ht as [(-> & Hz & Hz')|?]; [left|by right]. by rewrite Hz, Hz'.
  - simplify_eq. split_and!; try done; [|by left].
    pose proof (size_insert_le (passive v1) (peer_id info) i). unfold num_passive in *. lia.
Qed.

Lemma add_passive_spec info v :
  view_ok v -> info_ok info ->
  exists ts v', add_passive info v = Done (ts, v') /\
    view_ok v' /\ same_config v v' /\ active v' = active v /\
    (peer_id info = local_id v \/ is_Some (active v !! peer_id info) -> ts = [] /\ v' = v) /\
    (peer_id info <> local_id v -> active v !! peer_id info = None ->
      dom (passive v') = (replay_all (sets v) ts).2 ∪ {[peer_id info]} /\
      (ts = [] \/ exists z j, passive v !! z = Some j /\ ts = [Evicted (to_partial j)])).
Proof.
  intros Hok Hi. unfold add_passive.
  destruct (decide (peer_id info = local_id v)) as [Hl|Hl].
  { rewrite bool_decide_true by done. simpl. do 2 eexists. split_and!; done. }
  unfold is_active. rewrite (bool_decide_false (peer_id info = _)) by done. simpl.
  destruct (active v !! peer_id info) as [a|] eqn:Ha.
  { rewrite bool_decide_true by eauto. do 2 eexists. split_and!; done. }
  rewrite bool_decide_false by (by intros [? ?]).
  destruct (if max_passive v <=? num_passive v then _ else _) as [ts v1] eqn:He.
  assert (forall i : PeerInfo A, peer_id i = peer_id info -> info_ok i ->
    view_ok (set_passive v1 (<[peer_id info := i]> (passive v1)))) as Hins.
  { intros i Hid Hio. destruct (room_passive info v ts v1 i Hok He) as (Hok1 & Hsc & Ha1 & Hsz & _).
    destruct Hsc as (Hl1 & _ & Hm1).
    apply view_ok_ins_passive; rewrite ?Hl1, ?Ha1, ?Hm1; done. }
  destruct (room_passive info v ts v1 info Hok He) as (Hok1 & Hsc & Ha1 & _ & Hts).
  assert (forall i : PeerInfo A, dom (<[peer_id info := i]> (passive v1)) =
    (replay_all (sets v) ts).2 ∪ {[peer_id info]}) as Hdom.
  { intros i. rewrite dom_insert_L.
    destruct Hts as [[-> ->]|(z & j & Hz & -> & ->)]; simpl; [set_solver|].
    destruct (vo_passive_id v Hok z j Hz) as [-> _]. rewrite dom_delete_L. set_solver. }
  assert (ts = [] \/ exists z j, passive v !! z = Some j /\ ts = [Evicted (to_partial j)]) as Hts'.
  { destruct Hts as [[-> _]|(z & j & ? & _ & ->)]; [by left|right; eauto]. }
  destruct (passive v1 !! peer_id info) as [prev|] eqn:Hprev.
  - destruct (extend_fill_done (seen_addrs info)
      (filter (fun addr => addr ∉ inner (seen_addrs info)) (inner (seen_addrs prev))) Hi)
      as (w & -> & Hw & _).
    destruct (vo_passive_id v1 Hok1 _ _ Hprev) as [Hpid _].
    do 2 eexists. split; [done|]. split_and!; try done.
    + by apply Hins.
    + intros [?|[? ?]]; done.
    + intros _ _. split; [apply Hdom|done].
  - do 2 eexists. split; [done|]. split_and!; try done.
    + by apply Hins.
    + intros [?|[? ?]]; done.
    + intros _ _. split; [apply Hdom|done].
Qed.

(** ** Demotion *)

Lemma demote_spec p v :
  view_ok v ->
  exists ts v', demote p v = Done (ts, v') /\
    view_ok v' /\ same_config v v' /\ active v' = delete p (active v) /\
    sets v' = replay_all (sets v) ts /\
    (ts = [] <-> active v !! p = None).
Proof.
  intros Hok. unfold demote. destruct (active v !! p) as [d|] eqn:Hp.
  2: { do 2 eexists. split; [done|]. split_and!; try done. by rewrite delete_id. }
  destruct (vo_active_id v Hok p d Hp) as [Hid Hio].
  destruct (sequence d) as [info|] eqn:Hs.
  2: { do 2 eexists. split; [done|]. split_and!; try done; [by apply view_ok_del_active|].
       unfold sets. simpl. rewrite dom_delete_L, Hid. f_equal.
       assert (p ∉ dom (passive v)); [|set_solver].
       rewrite not_elem_of_dom. apply (vo_disjoint v Hok). eauto. }
  apply sequence_some in Hs as (Hpart & Hpid & Hio').
  set (v1 := set_active v (delete p (active v))).
  destruct (add_passive_spec info v1) as (ts & v2 & -> & Hok2 & Hsc & Ha2 & _ & Hadd).
  { by apply view_ok_del_active. }
  { by apply Hio'. }
  do 2 eexists. split; [done|]. split_and!; try done.
  rewrite Hpid, Hid in Hadd.
  destruct Hadd as [Hd Hts].
  { simpl. intros E. rewrite E, (vo_local_active v Hok) in Hp. done. }
  { simpl. by rewrite lookup_delete_eq. }
  assert (p ∉ dom (passive v)) as Hnp.
  { rewrite not_elem_of_dom. apply (vo_disjoint v Hok). eauto. }
  unfold sets. rewrite Ha2, Hd. simpl. rewrite Hpid, Hid.
  destruct Hts as [->|(z & j & Hz & ->)]; simpl; unfold sets; simpl; rewrite ?dom_delete_L.
  - f_equal.
  - simpl in Hz. assert (z ∈ dom (passive v)) as Hzd by (rewrite elem_of_dom; eauto).
    destruct (vo_passive_id v Hok z j Hz) as [-> _].
    assert (z ∉ dom (active v)) as Hza.
    { rewrite not_elem_of_dom. destruct (active v !! z) eqn:E; [|done].
      rewrite (vo_disjoint v Hok z) in Hz by eauto. done. }
    f_equal; set_solver.
Qed.

Lemma demote_random_spec v :
  view_ok v ->
  exists ts v', demote_random v = Done (ts, v') /\
    view_ok v' /\ same_config v v' /\ sets v' = replay_all (sets v) ts /\
    active v' ⊆ active v /\
    (active v = ∅ \/ S (num_active v') = num_active v).
Proof.
  intros Hok. unfold demote_random.
  destruct (choose (active_ids v) (rng v)) as [[p|] r] eqn:Hc.
  - apply choose_some in Hc. unfold active_ids in Hc. apply elem_of_btree_keys in Hc.
    destruct (demote_spec p (set_rng v r)) as (ts & v' & Hd & Hok' & Hsc & Ha & Hs & _).
    { by apply view_ok_set_rng. }
    do 2 eexists. split; [done|]. split_and!; try done.
    + rewrite Ha. apply delete_subseteq.
    + right. unfold num_active. rewrite Ha. simpl. rewrite map_size_delete_Some by done.
      assert (size (active v) <> 0); [|lia].
      apply map_size_non_empty_iff. intros E. rewrite E in Hc. by destruct Hc.
  - apply choose_none in Hc. apply btree_keys_nil in Hc.
    do 2 eexists. split; [done|]. split_and!; try done; [by apply view_ok_set_rng|by left].
Qed.

(** ** Promotion *)

Lemma passive_removed v p :
  (if is_passive v p then set_passive v (delete p (passive v)) else v) =
  set_passive v (delete p (passive v)).
Proof.
  unfold is_passive. case_bool_decide as Hb; [done|].
  rewrite delete_id; [by destruct v|]. by apply eq_None_not_Some.
Qed.

Lemma add_active_spec info v :
  view_ok v -> info_ok info ->
  exists ts v', add_active info v = Done (ts, v') /\
    view_ok v' /\ same_config v v' /\
    (peer_id info = local_id v \/ is_Some (active v !! peer_id info) -> ts = [] /\ v' = v) /\
    (peer_id info <> local_id v -> active v !! peer_id info = None ->
      active v' !! peer_id info = Some info /\
      exists rest, ts = Promoted info :: rest /\
        sets v' = replay_all (sets v) (rest ++ [Promoted info])).
Proof.
  intros Hok Hi. unfold add_active.
  destruct (decide (peer_id info = local_id v)) as [Hl|Hl].
  { rewrite bool_decide_true by done. simpl. do 2 eexists. split_and!; done. }
  unfold is_active. rewrite (bool_decide_false (peer_id info = _)) by done. simpl.
  destruct (active v !! peer_id info) as [a|] eqn:Ha.
  { rewrite bool_decide_true by eauto. do 2 eexists. split_and!; done. }
  rewrite bool_decide_false by (by intros [? ?]).
  assert (exists ts v1, (if is_active_full v then demote_random v else Done ([], v)) = Done (ts, v1)
    /\ view_ok v1 /\ same_config v v1 /\ sets v1 = replay_all (sets v) ts /\
    active v1 ⊆ active v /\ S (num_active v1) <= 1 `max` max_active v)
    as (ts & v1 & -> & Hok1 & Hsc & Hs & Hsub & Hsz).
  { unfold is_active_full. destruct (Nat.leb_spec (max_active v) (num_active v)).
    - destruct (demote_random_spec v Hok) as (ts & v1 & ? & ? & ? & ? & Hsub & Hn).
      do 2 eexists. split_and!; try done. destruct Hn as [Hn|Hn].
      + unfold num_active. rewrite Hn in Hsub. apply map_subseteq_size in Hsub.
        rewrite map_size_empty in Hsub. lia.
      + rewrite Hn. apply (vo_active_size v Hok).
    - do 2 eexists. split_and!; try done. lia. }
  destruct Hsc as (Hl1 & Hm1 & Hp1).
  cbn [mbind outcome_bind]. rewrite passive_removed.
  do 2 eexists. split; [done|]. split_and!; try done.
  - eapply (view_ok_ins_active (set_passive v1 (delete (peer_id info) (passive v1)))); try done.
    + by apply view_ok_del_passive.
    + simpl. congruence.
    + simpl. by rewrite lookup_delete_eq.
    + simpl. rewrite Hm1. etransitivity; [apply size_insert_le|]. done.
  - by intros [?|[? ?]].
  - intros _ _. simpl. rewrite lookup_insert_eq. split; [done|].
    exists ts. split; [done|]. unfold replay_all in *. rewrite foldl_app, <- Hs. unfold sets. simpl.
    rewrite dom_insert_L, dom_delete_L. f_equal. set_solver.
Qed.

(** ** The reported infos are within their bounds *)

Definition transition_ok (t : Transition A) : Prop :=
  match t with
  | Promoted i | Evicted i => info_ok i
  | Demoted i => info_ok i
  end.

Lemma evict_random_transitions v ts v' :
  evict_random v = (ts, v') -> view_ok v -> Forall transition_ok ts.
Proof.
  intros He Hok. apply evict_random_spec in He as (_ & _ & _ & Ht); [|done].
  destruct Ht as [(-> & _)|(z & i & Hz & _ & ->)]; [constructor|].
  apply Forall_singleton. simpl. by apply (vo_passive_id v Hok z i).
Qed.

Lemma add_passive_transitions info v ts v' :
  add_passive info v = Done (ts, v') -> view_ok v -> Forall transition_ok ts.
Proof.
  unfold add_passive. intros He Hok. destruct (_ || _); [simplify_eq; constructor|].
  destruct (if max_passive v <=? num_passive v then _ else _) as [ts1 v1] eqn:E1.
  assert (Forall transition_ok ts1) as Hts.
  { destruct (max_passive v <=? num_passive v); [by eapply evict_random_transitions|].
    simplify_eq. constructor. }
  destruct (passive v1 !! peer_id info); inv_res; done.
Qed.

Lemma demote_transitions p v ts v' :
  demote p v = Done (ts, v') -> view_ok v -> Forall transition_ok ts.
Proof.
  unfold demote. intros He Hok. destruct (active v !! p) as [d|] eqn:Hp; [|simplify_eq; constructor].
  destruct (vo_active_id v Hok p d Hp) as [_ Hd].
  destruct (sequence d) as [info|] eqn:Hs; [|simplify_eq; by apply Forall_singleton].
  apply sequence_some in Hs as (_ & _ & Hi).
  inv_res. case_match. simplify_eq. constructor; [by apply Hi|].
  eapply add_passive_transitions; [done|]. by apply view_ok_del_active.
Qed.

Lemma add_active_transitions info v ts v' :
  add_active info v = Done (ts, v') -> view_ok v -> info_ok info -> Forall transition_ok ts.
Proof.
  unfold add_active. intros He Hok Hi. destruct (_ || _); [simplify_eq; constructor|].
  inv_res. case_match. simplify_eq. constructor; [done|].
  destruct (is_active_full v); [|simplify_eq; constructor].
  unfold demote_random in *. destruct (choose _ _) as [[q|] r]; [|simplify_eq; constructor].
  eapply demote_transitions; [done|]. by apply view_ok_set_rng.
Qed.
(** ** How many transitions an operation reports *)

Lemma add_passive_at_most info v ts v' :
  add_passive info v = Done (ts, v') -> view_ok v -> info_ok info -> length ts <= 1.
Proof.
  intros E Hok Hi. destruct (add_passive_spec info v Hok Hi) as (ts1 & v1 & E1 & _ & _ & _ & Hs & Hn).
  rewrite E in E1. simplify_eq.
  destruct (decide (peer_id info = local_id v)) as [?|Hl]; [destruct Hs as [-> _]; simpl; auto|].
  destruct (active v !! peer_id info) eqn:Ha; [destruct Hs as [-> _]; simpl; eauto|].
  destruct Hn as [_ [->|(z & j & _ & ->)]]; simpl; auto.
Qed.

Lemma demote_at_most p v ts v' :
  demote p v = Done (ts, v') -> view_ok v -> length ts <= 2.
Proof.
  unfold demote. intros E Hok. destruct (active v !! p) as [d|] eqn:Hp; [|simplify_eq; simpl; lia].
  destruct (vo_active_id v Hok p d Hp) as [_ Hd].
  destruct (sequence d) as [info|] eqn:Hs; [|simplify_eq; simpl; lia].
  apply sequence_some in Hs as (_ & _ & Hi). inv_res. case_match. simplify_eq. simpl.
  apply le_n_S. eapply add_passive_at_most; [done| |by apply Hi]. by apply view_ok_del_active.
Qed.

Lemma add_active_at_most info v ts v' :
  add_active info v = Done (ts, v') -> view_ok v ->
  ts = [] \/ exists rest, ts = Promoted info :: rest /\ length rest <= 2.
Proof.
  unfold add_active. intros E Hok. destruct (_ || _); [simplify_eq; by left|]. right.
  inv_res. case_match. simplify_eq. eexists. split; [done|].
  destruct (is_active_full v); [|simplify_eq; simpl; lia].
  unfold demote_random in *. destruct (choose _ _) as [[q|] r]; [|simplify_eq; simpl; lia].
  eapply demote_at_most; [done|]. by apply view_ok_set_rng.
Qed.
End View.

(** ** Properties *)
Section Properties.
Context {R A : Type} `{Rng R} `{EqDecision A}.

(** C12 [add_active_refines]: promoting a peer in a well-formed view never panics
    and keeps it well-formed. A peer that is local or already active changes
    nothing and reports nothing; any other peer ends up active under its new
    info, and the transitions reported, with the promotion taken last, account
    for every change of the two sets of peers. *)
Theorem add_active_refines (info : PartialPeerInfo A) (v : PartialView R A)
    (Hv : view_ok v) (Hi : info_ok info) :
  exists ts v', add_active info v = Done (ts, v') /\ view_ok v' /\ same_config v v' /\
    if bool_decide (peer_id info = local_id v) || is_active v (peer_id info)
    then ts = [] /\ v' = v
    else active v' !! peer_id info = Some info /\
         exists rest, ts = Promoted info :: rest /\
           sets v' = replay_all (sets v) (rest ++ [Promoted info]).
Proof.
  destruct (add_active_spec info v Hv Hi) as (ts & v' & E & Hok & Hsc & Hsame & Hnew).
  exists ts, v'. split_and!; try done. unfold is_active.
  case_bool_decide as Hl; simpl; [by apply Hsame; left|].
  case_bool_decide as Ha; [by apply Hsame; right|].
  apply Hnew; [done|]. by apply eq_None_not_Some.
Qed.

(** [demote_refines]: demoting a peer in a well-formed view never panics, takes
    exactly that peer out of the active set, reports nothing exactly when it was
    not there, and reports every change of the two sets in the order in which a
    listener can apply it. *)
Theorem demote_refines (p : PeerId) (v : PartialView R A) (Hv : view_ok v) :
  exists ts v', demote p v = Done (ts, v') /\ view_ok v' /\ same_config v v' /\
    active v' = delete p (active v) /\ sets v' = replay_all (sets v) ts /\
    (ts = [] <-> is_active v p = false).
Proof.
  destruct (demote_spec p v Hv) as (ts & v' & E & ? & ? & ? & ? & Hn).
  exists ts, v'. split_and!; try done. rewrite Hn. unfold is_active.
  rewrite bool_decide_eq_false. apply eq_None_not_Some.
Qed.
End Properties.

(** *** Witnesses *)
Definition demo_peer (p : PeerId) : PartialPeerInfo N :=
  to_partial (MkPeerInfo p (advertisement_new 7%N) (singleton 9%N)).
Definition demo_view : PartialView nat N :=
  MkPartialView 0%N 0 1 2 {[1%N := demo_peer 1%N]} ∅.

Lemma demo_peer_ok p : info_ok (demo_peer p).
Proof. unfold info_ok, within_ok. simpl. lia. Qed.

Lemma demo_view_ok : view_ok demo_view.
Proof.
  split; simpl; try done; try (unfold num_active, num_passive; vm_compute; lia).
  intros p i Hp. apply lookup_singleton_Some in Hp as [<- <-]. split; [done|apply demo_peer_ok].
Qed.

Lemma add_active_refines_witness :
  exists ts v', add_active (demo_peer 2%N) demo_view = Done (ts, v') /\ view_ok v' /\
    same_config demo_view v' /\ active v' !! 2%N = Some (demo_peer 2%N) /\
    exists rest, ts = Promoted (demo_peer 2%N) :: rest /\
      sets v' = replay_all (sets demo_view) (rest ++ [Promoted (demo_peer 2%N)]).
Proof.
  exact (add_active_refines (demo_peer 2%N) demo_view demo_view_ok (demo_peer_ok 2%N)).
Defined.

Lemma demote_refines_witness :
  exists ts v', demote 1%N demo_view = Done (ts, v') /\ view_ok v' /\ same_config demo_view v' /\
    active v' = delete 1%N (active demo_view) /\ sets v' = replay_all (sets demo_view) ts /\
    (ts = [] <-> is_active demo_view 1%N = false).
Proof. exact (demote_refines 1%N demo_view demo_view_ok). Defined.
