(* ===== verification/Hpv.v ===== *)
(** * The HyParView membership protocol

    [librad/src/net/protocol/membership/{hpv,params,tick,rpc,error}.rs] and
    [librad/src/net/protocol/membership.rs].  The state [HpvInner] sits behind a
    read-write lock in the source, so that every operation is one atomic step:
    here a state-passing function in the [outcome] monad.  Ticks are the
    continuations an operation asks its caller to run, tocks the network actions
    they become. *)
From stdpp Require Import base list gmap.
From Stdlib Require Import NArith Lia.
From S2P Require Import Prelude.
From S2P Require Import Bounded.
From S2P Require Import PeerInfo.
From S2P Require Import PartialView.

(** ** Messages, parameters, ticks *)

Inductive Priority : Type := Normal | High.

#[export] Instance priority_eq_dec : EqDecision Priority.
Proof. solve_decision. Defined.

Inductive Message (A : Type) : Type :=
| Join (info : PeerAdvertisement A)
| ForwardJoin (joined : PeerInfo A) (ttl : nat)
| Neighbour (info : PeerAdvertisement A) (prio : Priority)
| Shuffle (origin : PeerInfo A) (peers : list (PeerInfo A)) (ttl : nat)
| ShuffleReply (peers : list (PeerInfo A))
| Disconnect.
Arguments Join {A} info.
Arguments ForwardJoin {A} joined ttl.
Arguments Neighbour {A} info prio.
Arguments Shuffle {A} origin peers ttl.
Arguments ShuffleReply {A} peers.
Arguments Disconnect {A}.

(** Durations are in seconds. *)
Record Params := MkParams {
  p_max_active : nat;
  p_max_passive : nat;
  active_random_walk_length : nat;
  passive_random_walk_length : nat;
  shuffle_sample_size : nat;
  shuffle_interval : N;
  promote_interval : N;
}.

Definition params_default : Params := MkParams 5 30 6 3 7 30 30.

Inductive Error : Type := JoinWhileConnected.

Inductive Tick (A : Type) : Type :=
| All (recipients : list PeerId) (message : Message A)
| Reply (to : PeerId) (message : Message A)
| Try (recipient : PeerInfo A) (message : Message A)
| Connect (to : PeerInfo A)
| Forget (peer : PeerId).
Arguments All {A} recipients message.
Arguments Reply {A} to message.
Arguments Try {A} recipient message.
Arguments Connect {A} to.
Arguments Forget {A} peer.

(** [From<Transition> for Option<Tick>] *)
Definition tick_of_transition {A} (t : Transition A) : option (Tick A) :=
  match t with
  | Demoted info => Some (Try info Disconnect)
  | Evicted info => Some (Forget (peer_id info))
  | Promoted _ => None
  end.

Record TnT (A : Type) := MkTnT { trans : list (Transition A); ticks : list (Tick A) }.
Arguments MkTnT {A} _ _.
Arguments trans {A} _.
Arguments ticks {A} _.

Section TnT.
Context {A : Type}.

Definition tnt_default : TnT A := MkTnT [] [].
(** [with_tick] replaces the ticks. *)
Definition with_tick (t : TnT A) (tick : option (Tick A)) : TnT A :=
  MkTnT (trans t) (option_list tick).
Definition tnt_mul (l r : TnT A) : TnT A :=
  MkTnT (trans l ++ trans r) (ticks l ++ ticks r).
Definition tnt_of_transitions (ts : list (Transition A)) : TnT A :=
  MkTnT ts (omap tick_of_transition ts).
Definition tnt_of_ticks (ts : list (Tick A)) : TnT A := MkTnT [] ts.
Definition tnt_extend (t : TnT A) (ts : list (Tick A)) : TnT A :=
  MkTnT (trans t) (ticks t ++ ts).
End TnT.

(** ** The protocol state *)

Record ShuffleReq (A : Type) := MkShuffle {
  sh_recipient : PeerId;
  sh_sample : list (PeerInfo A);
  sh_ttl : nat;
}.
Arguments MkShuffle {A} _ _ _.
Arguments sh_recipient {A} _.
Arguments sh_sample {A} _.
Arguments sh_ttl {A} _.

Record HpvInner (R A : Type) := MkHpv {
  h_local_id : PeerId;
  h_params : Params;
  h_rng : R;
  h_view : PartialView R A;
}.
Arguments MkHpv {R A} _ _ _ _.
Arguments h_local_id {R A} _.
Arguments h_params {R A} _.
Arguments h_rng {R A} _.
Arguments h_view {R A} _.

Section Hpv.
Context {R A : Type} `{Rng R} `{EqDecision A}.
Implicit Types h : HpvInner R A.

Definition with_view h v : HpvInner R A := MkHpv (h_local_id h) (h_params h) (h_rng h) v.
Definition with_rng h r : HpvInner R A := MkHpv (h_local_id h) (h_params h) r (h_view h).

(** The view gets a clone of the generator. *)
Definition hpv_new (local_id : PeerId) (rng : R) (params : Params) : HpvInner R A :=
  MkHpv local_id params rng
    (new local_id rng (p_max_active params) (p_max_passive params)).

Definition view_stats h : nat * nat := (num_active (h_view h), num_passive (h_view h)).

Definition hello (local_info : PeerAdvertisement A) h : Message A :=
  match view_stats h with
  | (0, 0) => Join local_info
  | (act, _) => Neighbour local_info (if act =? 0 then High else Normal)
  end.

Definition random_active h : option PeerId * HpvInner R A :=
  let '(p, r) := choose (active_ids (h_view h)) (h_rng h) in (p, with_rng h r).

Definition sample (sz : nat) h : list (PeerInfo A) * HpvInner R A :=
  let '(s, r) := choose_multiple (omap sequence (active_info (h_view h))) sz (h_rng h) in
  if length s <? shuffle_sample_size (h_params h) then
    let '(more, r') := choose_multiple (passive_info (h_view h)) (sz - length s) r in
    (s ++ more, with_rng h r')
  else (s, with_rng h r).

Definition shuffle h : option (ShuffleReq A) * HpvInner R A :=
  match random_active h with
  | (None, h1) => (None, h1)
  | (Some recipient, h1) =>
      let '(s, h2) := sample (shuffle_sample_size (h_params h1)) h1 in
      let s := filter (fun info => peer_id info <> recipient) s in
      match s with
      | [] => (None, h2)
      | _ => (Some (MkShuffle recipient s (active_random_walk_length (h_params h2))), h2)
      end
  end.

(** [assert!(max_active >= num_active)], then [checked_sub(..).unwrap_or(1)]. *)
Definition choose_passive_to_promote h : outcome (list (PeerInfo A) * HpvInner R A) :=
  if num_active (h_view h) <=? p_max_active (h_params h) then
    let n :=
      if num_active (h_view h) <=? p_max_active (h_params h)
      then p_max_active (h_params h) - num_active (h_view h) else 1 in
    let '(infos, r) := choose_multiple (passive_info (h_view h)) n (h_rng h) in
    Done (infos, with_rng h r)
  else Panic.

Definition broadcast_recipients (exclude : option PeerId) h : list PeerId :=
  filter (fun p => exclude <> Some p) (active_ids (h_view h)).

Definition connection_lost (remote_peer : PeerId) h : outcome (TnT A * HpvInner R A) :=
  '(demoted, v) ← demote remote_peer (h_view h);
  let h1 := with_view h v in
  match demoted with
  | [] => Done (tnt_default, h1)
  | _ =>
      '(infos, h2) ← choose_passive_to_promote h1;
      Done (MkTnT demoted (Connect <$> infos), h2)
  end.

Definition connection_established (info : PartialPeerInfo A) h :
    outcome (TnT A * HpvInner R A) :=
  '(ts, v) ← add_active info (h_view h);
  Done (tnt_of_transitions ts, with_view h v).

Definition peer_info_from (remote_peer : PeerId) (advertised : PeerAdvertisement A)
    (remote_addr : A) : PeerInfo A :=
  MkPeerInfo remote_peer advertised (singleton remote_addr).

(** The fold of [add_passive] over the peers of a shuffle. *)
Fixpoint add_passive_all (acc : TnT A) (peers : list (PeerInfo A)) h :
    outcome (TnT A * HpvInner R A) :=
  match peers with
  | [] => Done (acc, h)
  | info :: peers =>
      '(ts, v) ← add_passive info (h_view h);
      add_passive_all (tnt_mul acc (tnt_of_transitions ts)) peers (with_view h v)
  end.

(** The next hop of a random walk: an active peer other than the sender. *)
Definition next_hop (remote_peer : PeerId) h : option PeerId * HpvInner R A :=
  let '(p, r) :=
    choose (filter (fun p => p <> remote_peer) (active_ids (h_view h))) (h_rng h) in
  (p, with_rng h r).

(** A shuffle that comes from its origin: the address it came from is put in
    front of the seen ones. *)
Definition see_origin (remote_peer : PeerId) (remote_addr : A) (origin : PeerInfo A) :
    outcome (PeerInfo A) :=
  if bool_decide (peer_id origin = remote_peer) then
    seen ← extend_fill (singleton remote_addr)
             (filter (fun addr => addr <> remote_addr) (inner (seen_addrs origin)));
    Done (MkPeerInfo (peer_id origin) (advertised_info origin) seen)
  else Done origin.

Definition apply (remote_peer : PeerId) (remote_addr : A) (rpc : Message A) h :
    outcome (result Error (TnT A) * HpvInner R A) :=
  match rpc with
  | Join info =>
      if is_active (h_view h) remote_peer then Done (Err JoinWhileConnected, h)
      else
        let info := peer_info_from remote_peer info remote_addr in
        '(ts, v) ← add_active (to_partial info) (h_view h);
        let h1 := with_view h v in
        let tnt := tnt_of_transitions ts in
        let fwd := broadcast_recipients (Some remote_peer) h1 in
        let tnt :=
          match fwd with
          | [] => tnt
          | _ => tnt_extend tnt
                   [All fwd (ForwardJoin info (active_random_walk_length (h_params h1)))]
          end in
        Done (Ok tnt, h1)
  | ForwardJoin joined ttl =>
      if ((ttl =? 0) || negb (is_active_full (h_view h)))
         && negb (is_active (h_view h) (peer_id joined))
         && negb (bool_decide (peer_id joined = h_local_id h))
      then Done (Ok (with_tick tnt_default (Some (Connect joined))), h)
      else
        '(tnt, h1) ←
          (if ttl =? 0 then
             '(ts, v) ← add_passive joined (h_view h);
             Done (tnt_of_transitions ts, with_view h v)
           else Done (tnt_default, h));
        let '(hop, h2) := next_hop remote_peer h1 in
        Done (Ok (tnt_extend tnt
                    (option_list ((fun hop => All [hop] (ForwardJoin joined (ttl - 1))) <$> hop))),
              h2)
  | Neighbour info prio =>
      if bool_decide (prio = High) || negb (is_active_full (h_view h)) then
        let info := peer_info_from remote_peer info remote_addr in
        '(ts, v) ← add_active (to_partial info) (h_view h);
        Done (Ok (tnt_of_transitions ts), with_view h v)
      else Done (Ok (with_tick tnt_default (Some (Reply remote_peer Disconnect))), h)
  | Disconnect =>
      '(ts, v) ← demote remote_peer (h_view h);
      Done (Ok (tnt_of_transitions ts), with_view h v)
  | Shuffle origin peers ttl =>
      if (ttl =? 0) && negb (bool_decide (peer_id origin = h_local_id h)) then
        let '(s, h1) := sample (length peers) h in
        let tnt :=
          match s with
          | [] => tnt_default
          | _ => tnt_of_ticks [Try origin (ShuffleReply s)]
          end in
        '(tnt, h2) ← add_passive_all tnt peers h1;
        Done (Ok tnt, h2)
      else if 0 <? ttl then
        origin ← see_origin remote_peer remote_addr origin;
        let '(hop, h1) := next_hop remote_peer h in
        Done (Ok (tnt_of_ticks
                    (option_list ((fun hop => All [hop] (Shuffle origin peers (ttl - 1))) <$> hop))),
              h1)
      else Done (Ok tnt_default, h)
  | ShuffleReply peers =>
      '(tnt, h1) ← add_passive_all tnt_default peers h;
      Done (Ok tnt, h1)
  end.

(** ** The invariant *)

Record hpv_ok h : Prop := {
  ho_view : view_ok (h_view h);
  ho_local : local_id (h_view h) = h_local_id h;
  ho_active : max_active (h_view h) = p_max_active (h_params h);
  ho_passive : max_passive (h_view h) = p_max_passive (h_params h);
}.

(** A message off the wire: the address lists decoded within their bound. *)
Definition message_ok (m : Message A) : Prop :=
  match m with
  | ForwardJoin joined _ => info_ok joined
  | Shuffle origin peers _ => info_ok origin /\ Forall info_ok peers
  | ShuffleReply peers => Forall info_ok peers
  | Join _ | Neighbour _ _ | Disconnect => True
  end.

(** What the ticks of an operation ask for, from the state it left. *)
Definition tick_ok (remote : option PeerId) h (t : Tick A) : Prop :=
  match t with
  | All rs m =>
      message_ok m /\ Forall (fun p => Some p <> remote /\ is_active (h_view h) p = true) rs
  | Reply to m => Some to = remote /\ message_ok m
  | Try info m => info_ok info /\ message_ok m
  | Connect info => info_ok info /\ is_active (h_view h) (peer_id info) = false
  | Forget _ => True
  end.

(** One operation's effect on the configuration and its obligations. *)
Definition step_ok (remote : option PeerId) h h' (t : TnT A) : Prop :=
  hpv_ok h' /\ h_params h' = h_params h /\ h_local_id h' = h_local_id h /\
  Forall (tick_ok remote h') (ticks t).

Lemma hpv_new_ok l r p : hpv_ok (hpv_new l r p).
Proof. split; try done. apply new_ok. Qed.

Lemma hpv_ok_with_view h v :
  hpv_ok h -> view_ok v -> same_config (h_view h) v -> hpv_ok (with_view h v).
Proof. intros [] Hv (? & ? & ?). split; simpl; congruence. Qed.

Lemma hpv_ok_with_rng h r : hpv_ok h -> hpv_ok (with_rng h r).
Proof. intros []. by split. Qed.

Lemma tnt_of_transitions_ok remote h ts :
  Forall transition_ok ts -> Forall (tick_ok remote h) (ticks (tnt_of_transitions ts)).
Proof.
  intros Hts. simpl. induction Hts as [|[i|i|i] ts Hi _ IH]; simpl; try done;
    constructor; simpl; done.
Qed.

Lemma choose_multiple_Forall {X} (P : X -> Prop) l n (r : R) xs r' :
  choose_multiple l n r = (xs, r') -> Forall P l -> Forall P xs.
Proof.
  intros Hc. rewrite !Forall_forall. intros Hl x Hx. apply Hl.
  apply (choose_multiple_elem X l n r). by rewrite Hc.
Qed.

Lemma passive_info_ok h : hpv_ok h -> Forall info_ok (passive_info (h_view h)).
Proof.
  intros Hh. apply Forall_forall. intros i Hi. apply elem_of_btree_values in Hi as [p Hp].
  by apply (vo_passive_id _ (ho_view h Hh) p i).
Qed.

Lemma active_info_ok h : hpv_ok h -> Forall info_ok (omap sequence (active_info (h_view h))).
Proof.
  intros Hh. apply Forall_forall. intros i Hi.
  apply list_elem_of_omap in Hi as (j & Hj & Hs).
  apply elem_of_btree_values in Hj as [p Hp]. apply sequence_some in Hs as (_ & _ & Hs).
  apply Hs. by apply (vo_active_id _ (ho_view h Hh) p j).
Qed.

Lemma sample_ok sz h s h' :
  sample sz h = (s, h') -> hpv_ok h ->
  hpv_ok h' /\ h_view h' = h_view h /\ h_params h' = h_params h /\
  h_local_id h' = h_local_id h /\ Forall info_ok s.
Proof.
  unfold sample. intros Hs Hh.
  destruct (choose_multiple _ sz _) as [s1 r1] eqn:E1.
  apply (choose_multiple_Forall info_ok) in E1; [|by apply active_info_ok].
  case_match; [destruct (choose_multiple _ _ r1) as [s2 r2] eqn:E2|]; simplify_eq;
    split_and!; try done; try by apply hpv_ok_with_rng.
  apply (choose_multiple_Forall info_ok) in E2; [|by apply passive_info_ok].
  by apply Forall_app_2.
Qed.

Lemma next_hop_ok remote h hop h' :
  next_hop remote h = (hop, h') -> hpv_ok h ->
  hpv_ok h' /\ h_view h' = h_view h /\ h_params h' = h_params h /\
  h_local_id h' = h_local_id h /\
  (forall p, hop = Some p -> p <> remote /\ is_active (h_view h) p = true).
Proof.
  unfold next_hop. intros Hn Hh.
  destruct (choose _ _) as [p r] eqn:E. simplify_eq. split_and!; try done.
  - by apply hpv_ok_with_rng.
  - intros q ->. apply choose_some, list_elem_of_filter in E as [? Hq]. split; [done|].
    unfold active_ids in Hq. apply elem_of_btree_keys in Hq.
    unfold is_active. by apply bool_decide_eq_true.
Qed.

Lemma relay_ok remote h hop h' (f : PeerId -> Message A) :
  (forall p, hop = Some p -> p <> remote /\ is_active (h_view h') p = true) ->
  (forall p, message_ok (f p)) ->
  Forall (tick_ok (Some remote) h') (option_list ((fun p => All [p] (f p)) <$> hop)).
Proof.
  intros Hp Hm. destruct hop as [p|]; simpl; [|constructor].
  destruct (Hp p eq_refl) as [Hne Ha].
  apply Forall_singleton. simpl. split; [apply Hm|]. apply Forall_singleton.
  split; [congruence|done].
Qed.

Lemma broadcast_recipients_ok remote h :
  Forall (fun p => Some p <> Some remote /\ is_active (h_view h) p = true)
    (broadcast_recipients (Some remote) h).
Proof.
  apply Forall_forall. intros p Hp. apply list_elem_of_filter in Hp as [Hne Hp].
  split; [congruence|]. unfold active_ids in Hp. apply elem_of_btree_keys in Hp.
  unfold is_active. by apply bool_decide_eq_true.
Qed.

(** The view operations, lifted to the protocol state. *)
Lemma view_add_passive info h :
  hpv_ok h -> info_ok info ->
  exists ts v, add_passive info (h_view h) = Done (ts, v) /\ hpv_ok (with_view h v) /\
    active v = active (h_view h) /\ Forall transition_ok ts.
Proof.
  intros Hh Hi.
  destruct (add_passive_spec info (h_view h)) as (ts & v & E & Hv & Hsc & Ha & _);
    [apply Hh|done|].
  exists ts, v. split_and!; try done; [by apply hpv_ok_with_view|].
  eapply add_passive_transitions; [done|apply Hh].
Qed.

Lemma view_add_active info h :
  hpv_ok h -> info_ok info ->
  exists ts v, add_active info (h_view h) = Done (ts, v) /\ hpv_ok (with_view h v) /\
    Forall transition_ok ts.
Proof.
  intros Hh Hi.
  destruct (add_active_spec info (h_view h)) as (ts & v & E & Hv & Hsc & _);
    [apply Hh|done|].
  exists ts, v. split_and!; try done; [by apply hpv_ok_with_view|].
  eapply add_active_transitions; [done|apply Hh|done].
Qed.

Lemma view_demote p h :
  hpv_ok h ->
  exists ts v, demote p (h_view h) = Done (ts, v) /\ hpv_ok (with_view h v) /\
    active v = delete p (active (h_view h)) /\ Forall transition_ok ts.
Proof.
  intros Hh.
  destruct (demote_spec p (h_view h)) as (ts & v & E & Hv & Hsc & Ha & _); [apply Hh|].
  exists ts, v. split_and!; try done; [by apply hpv_ok_with_view|].
  eapply demote_transitions; [done|apply Hh].
Qed.

Lemma add_passive_all_ok remote peers : forall acc h,
  hpv_ok h -> Forall info_ok peers -> Forall (tick_ok (Some remote) h) (ticks acc) ->
  exists t h', add_passive_all acc peers h = Done (t, h') /\ step_ok (Some remote) h h' t.
Proof.
  induction peers as [|i peers IH]; intros acc h Hh Hp Hacc; simpl.
  - do 2 eexists. split; [done|]. by split_and!.
  - inversion_clear Hp as [|? ? Hi Hps].
    destruct (view_add_passive i h Hh Hi) as (ts & v & -> & Hh1 & Ha & Hts). simpl.
    destruct (IH (tnt_mul acc (tnt_of_transitions ts)) (with_view h v)) as (t & h' & -> & Hs);
      [done|done| |eauto].
    simpl. apply Forall_app_2; [|by apply tnt_of_transitions_ok].
    eapply Forall_impl; [done|]. intros [] Ht; simpl in *; unfold is_active in *; simpl; by rewrite ?Ha.
Qed.

Lemma info_ok_from p ad (a : A) : info_ok (to_partial (peer_info_from p ad a)).
Proof. unfold info_ok, within_ok. simpl. lia. Qed.

(** ** [apply], branch by branch *)

Definition apply_result_ok (remote : PeerId) h (o : outcome (result Error (TnT A) * HpvInner R A))
    : Prop :=
  exists r h', o = Done (r, h') /\
    match r with
    | Ok t => step_ok (Some remote) h h' t
    | Err JoinWhileConnected => h' = h /\ is_active (h_view h) remote = true
    end.

Lemma apply_join_ok remote addr info h :
  hpv_ok h -> apply_result_ok remote h (apply remote addr (Join info) h).
Proof.
  intros Hh. unfold apply_result_ok. simpl.
  destruct (is_active (h_view h) remote) eqn:Ha; [by do 2 eexists|].
  destruct (view_add_active (to_partial (peer_info_from remote info addr)) h)
    as (ts & v & -> & Hh1 & Hts); [done|apply info_ok_from|]. simpl.
  do 2 eexists. split; [done|]. simpl. split_and!; try done.
  pose proof (broadcast_recipients_ok remote (with_view h v)) as Hb.
  pose proof (tnt_of_transitions_ok (Some remote) (with_view h v) ts Hts) as Hto.
  destruct (broadcast_recipients _ _); [done|].
  apply Forall_app_2; [done|]. apply Forall_singleton. split; [|done].
  apply (info_ok_from remote info addr).
Qed.

Lemma apply_forward_join_ok remote addr joined ttl h :
  hpv_ok h -> info_ok joined ->
  apply_result_ok remote h (apply remote addr (ForwardJoin joined ttl) h).
Proof.
  intros Hh Hj. unfold apply_result_ok. simpl. destruct (_ && _) eqn:Hg.
  { do 2 eexists. split; [done|]. split_and!; try done.
    apply Forall_singleton. split; [done|].
    apply andb_prop in Hg as [Hg _]. apply andb_prop in Hg as [_ Hg].
    by apply negb_true_iff. }
  assert (exists t h1, (if ttl =? 0 then
             '(ts, v) ← add_passive joined (h_view h);
             Done (tnt_of_transitions ts, with_view h v)
           else Done (tnt_default, h)) = Done (t, h1) /\ step_ok (Some remote) h h1 t)
    as (t & h1 & -> & Hh1 & Hp1 & Hl1 & Ht1).
  { destruct (ttl =? 0); [|by do 2 eexists].
    destruct (view_add_passive joined h Hh Hj) as (ts & v & -> & Hh1 & _ & Hts). simpl.
    do 2 eexists. split; [done|]. split_and!; try done. by apply tnt_of_transitions_ok. }
  cbn [mbind outcome_bind].
  destruct (next_hop remote h1) as [hop h2] eqn:En.
  apply next_hop_ok in En as (Hh2 & Hv2 & Hp2 & Hl2 & Hhop); [|done].
  do 2 eexists. split; [done|]. split_and!; try congruence; try done.
  simpl. apply Forall_app_2.
  - eapply Forall_impl; [done|]. intros [] Hx; simpl in *; by rewrite ?Hv2.
  - eapply (relay_ok remote h2); [|done]. by rewrite Hv2.
Qed.

Lemma apply_neighbour_ok remote addr info prio h :
  hpv_ok h -> apply_result_ok remote h (apply remote addr (Neighbour info prio) h).
Proof.
  intros Hh. unfold apply_result_ok. simpl. destruct (_ || _).
  - destruct (view_add_active (to_partial (peer_info_from remote info addr)) h)
      as (ts & v & -> & Hh1 & Hts); [done|apply info_ok_from|]. simpl.
    do 2 eexists. split; [done|]. split_and!; try done. by apply tnt_of_transitions_ok.
  - do 2 eexists. split; [done|]. split_and!; try done. by apply Forall_singleton.
Qed.

Lemma shuffle_origin_ok remote addr (origin : PeerInfo A) :
  info_ok origin ->
  exists o, see_origin remote addr origin = Done o /\ info_ok o /\
    peer_id o = peer_id origin.
Proof.
  intros Ho. unfold see_origin. case_bool_decide; [|by eexists].
  destruct (extend_fill_done (singleton addr : Within 0 16 (list A))
    (filter (fun a => a <> addr) (inner (seen_addrs origin)))) as (w & E & Hw & _).
  { apply singleton_within. lia. }
  rewrite E. simpl. eexists. split; [done|]. split; done.
Qed.

Lemma apply_shuffle_ok remote addr origin peers ttl h :
  hpv_ok h -> info_ok origin -> Forall info_ok peers ->
  apply_result_ok remote h (apply remote addr (Shuffle origin peers ttl) h).
Proof.
  intros Hh Ho Hp. unfold apply_result_ok. unfold apply. destruct (_ && _).
  { destruct (sample _ _) as [s h1] eqn:Es.
    apply sample_ok in Es as (Hh1 & Hv1 & Hp1 & Hl1 & Hs); [|done].
    destruct (add_passive_all_ok remote peers
      (match s with [] => tnt_default | _ => tnt_of_ticks [Try origin (ShuffleReply s)] end) h1)
      as (t & h2 & -> & Hh2 & Hp2 & Hl2 & Ht); [done|done| |].
    { destruct s; [constructor|]. by apply Forall_singleton. }
    do 2 eexists. split; [done|]. split_and!; try done; congruence. }
  destruct (0 <? ttl); [|do 2 eexists; split; [done|]; by split_and!].
  destruct (shuffle_origin_ok remote addr origin Ho) as (o & -> & Hoo & _).
  cbn [mbind outcome_bind].
  destruct (next_hop remote h) as [hop h1] eqn:En.
  apply next_hop_ok in En as (Hh1 & Hv1 & Hp1 & Hl1 & Hhop); [|done].
  do 2 eexists. split; [done|]. split_and!; try done.
  eapply (relay_ok remote h1); [|done]. by rewrite Hv1.
Qed.

Lemma apply_ok remote addr m h :
  hpv_ok h -> message_ok m -> apply_result_ok remote h (apply remote addr m h).
Proof.
  intros Hh Hm. destruct m as [info|joined ttl|info prio|origin peers ttl|peers|].
  - by apply apply_join_ok.
  - by apply apply_forward_join_ok.
  - by apply apply_neighbour_ok.
  - destruct Hm. by apply apply_shuffle_ok.
  - unfold apply_result_ok. simpl.
    destruct (add_passive_all_ok remote peers tnt_default h) as (t & h1 & -> & Hs); [done|done|done|].
    do 2 eexists. by split.
  - unfold apply_result_ok. simpl.
    destruct (view_demote remote h Hh) as (ts & v & -> & Hh1 & _ & Hts). simpl.
    do 2 eexists. split; [done|]. split_and!; try done. by apply tnt_of_transitions_ok.
Qed.

Lemma choose_passive_ok h :
  hpv_ok h -> 1 <= p_max_active (h_params h) ->
  exists infos h', choose_passive_to_promote h = Done (infos, h') /\ hpv_ok h' /\
    h_view h' = h_view h /\ h_params h' = h_params h /\ h_local_id h' = h_local_id h /\
    (forall i, i ∈ infos -> passive (h_view h) !! peer_id i = Some i) /\
    length infos =
      (p_max_active (h_params h) - num_active (h_view h)) `min` num_passive (h_view h).
Proof.
  intros Hh H1. unfold choose_passive_to_promote.
  pose proof (vo_active_size _ (ho_view h Hh)) as Hsz. rewrite (ho_active h Hh) in Hsz.
  destruct (Nat.leb_spec (num_active (h_view h)) (p_max_active (h_params h))); [|lia].
  destruct (choose_multiple _ _ _) as [infos r] eqn:Ec.
  do 2 eexists. split; [done|]. split_and!; try done; [by apply hpv_ok_with_rng| |].
  - intros i Hi. pose proof (choose_multiple_elem _ (passive_info (h_view h))
      (p_max_active (h_params h) - num_active (h_view h)) (h_rng h) i) as Hm.
    rewrite Ec in Hm. specialize (Hm Hi). unfold passive_info in Hm.
    apply elem_of_btree_values in Hm as [p Hp].
    destruct (vo_passive_id _ (ho_view h Hh) p i Hp) as [-> _]. done.
  - pose proof (choose_multiple_length _ (passive_info (h_view h))
      (p_max_active (h_params h) - num_active (h_view h)) (h_rng h)) as Hm.
    rewrite Ec in Hm. simpl in Hm. rewrite Hm. f_equal. unfold passive_info, num_passive.
    apply length_btree_values.
Qed.

Lemma connection_lost_ok remote h :
  hpv_ok h -> 1 <= p_max_active (h_params h) ->
  exists t h', connection_lost remote h = Done (t, h') /\ step_ok None h h' t /\
    is_active (h_view h') remote = false.
Proof.
  intros Hh H1. unfold connection_lost.
  destruct (view_demote remote h Hh) as (ts & v & -> & Hh1 & Ha & Hts). cbn [mbind outcome_bind].
  assert (is_active v remote = false) as Hna.
  { unfold is_active. rewrite Ha, lookup_delete_eq. apply bool_decide_eq_false. by intros [? ?]. }
  destruct ts as [|t ts]; [do 2 eexists; split; [done|]; by split_and!|].
  destruct (choose_passive_ok (with_view h v) Hh1 H1)
    as (infos & h2 & -> & Hh2 & Hv2 & Hp2 & Hl2 & Hin & _). cbn [mbind outcome_bind].
  do 2 eexists. split; [done|]. split; [|by rewrite Hv2].
  split_and!; try done. simpl. apply Forall_fmap, Forall_forall. intros i Hi. simpl.
  apply Hin in Hi. rewrite Hv2. split.
  - by apply (vo_passive_id _ (ho_view _ Hh1) _ _ Hi).
  - unfold is_active. apply bool_decide_eq_false. intros Hs.
    pose proof (vo_disjoint _ (ho_view _ Hh1) _ Hs) as Hn. congruence.
Qed.

Lemma connection_established_ok info h :
  hpv_ok h -> info_ok info ->
  exists t h', connection_established info h = Done (t, h') /\ step_ok None h h' t /\
    (peer_id info <> h_local_id h -> is_active (h_view h') (peer_id info) = true).
Proof.
  intros Hh Hi. unfold connection_established.
  destruct (add_active_spec info (h_view h)) as (ts & v & E & Hv & Hsc & Hsame & Hnew);
    [apply Hh|done|].
  pose proof (add_active_transitions _ _ _ _ E (ho_view h Hh) Hi) as Hts.
  rewrite E. simpl. do 2 eexists. split; [done|]. split.
  - split_and!; try done; [by apply hpv_ok_with_view|by apply tnt_of_transitions_ok].
  - intros Hl. simpl. unfold is_active. apply bool_decide_eq_true.
    destruct (active (h_view h) !! peer_id info) as [a|] eqn:Ha.
    + destruct Hsame as [_ ->]; [by right|]. by eexists.
    + destruct Hnew as [-> _]; [by rewrite (ho_local h Hh)|done|]. by eexists.
Qed.

Lemma shuffle_ok h r h' :
  shuffle h = (r, h') -> hpv_ok h ->
  hpv_ok h' /\ h_view h' = h_view h /\ h_params h' = h_params h /\
  (forall s, r = Some s -> is_active (h_view h) (sh_recipient s) = true /\
     sh_sample s <> [] /\ Forall (fun i => info_ok i /\ peer_id i <> sh_recipient s) (sh_sample s)).
Proof.
  unfold shuffle, random_active. intros Hs Hh.
  destruct (choose _ _) as [[p|] r1] eqn:Ec.
  2: { simplify_eq. split_and!; try done. by apply hpv_ok_with_rng. }
  destruct (sample _ _) as [s h2] eqn:Es.
  apply sample_ok in Es as (Hh2 & Hv2 & Hp2 & _ & Hi); [|by apply hpv_ok_with_rng].
  assert (is_active (h_view h) p = true) as Hact.
  { apply choose_some in Ec. unfold active_ids in Ec. apply elem_of_btree_keys in Ec.
    unfold is_active. by apply bool_decide_eq_true. }
  assert (Forall (fun i => info_ok i /\ peer_id i <> p)
    (filter (fun info => peer_id info <> p) s)) as Hf.
  { apply Forall_forall. intros i Hin. apply list_elem_of_filter in Hin as [? Hin].
    split; [|done]. by eapply Forall_forall in Hi. }
  destruct (filter _ s) eqn:Ef; simplify_eq; split_and!; try done.
  intros ? [= <-]. done.
Qed.
End Hpv.

(** Adding peers to the passive view relays nothing. *)
Lemma transitions_no_relay {A} (ts : list (Transition A)) rs m :
  All rs m ∉ ticks (tnt_of_transitions ts).
Proof.
  simpl. intros Hin. apply list_elem_of_omap in Hin as (t & _ & Ht). by destruct t.
Qed.

Lemma add_passive_all_relays {R A : Type} `{Rng R} `{EqDecision A} peers :
  forall acc (h : HpvInner R A) t h' rs m,
  add_passive_all acc peers h = Done (t, h') -> All rs m ∈ ticks t -> All rs m ∈ ticks acc.
Proof.
  induction peers as [|i peers IH]; intros acc h t h' rs m Ha Hin; simpl in Ha.
  - by simplify_eq.
  - inv_res. case_match. eapply IH in Ha; [|done]. simpl in Ha.
    apply elem_of_app in Ha as [?|Ha]; [done|]. by apply transitions_no_relay in Ha.
Qed.

(** ** Runs of the protocol

    The events of a node, in the order the lock serialises them. *)
Inductive Event (A : Type) : Type :=
| EvApply (remote : PeerId) (addr : A) (m : Message A)
| EvLost (remote : PeerId)
| EvEstablished (info : PartialPeerInfo A)
| EvShuffle
| EvPromote.
Arguments EvApply {A} remote addr m.
Arguments EvLost {A} remote.
Arguments EvEstablished {A} info.
Arguments EvShuffle {A}.
Arguments EvPromote {A}.

Section Runs.
Context {R A : Type} `{Rng R} `{EqDecision A}.

Definition run_event (e : Event A) (h : HpvInner R A) : outcome (HpvInner R A) :=
  match e with
  | EvApply remote addr m => '(_, h') ← apply remote addr m h; Done h'
  | EvLost remote => '(_, h') ← connection_lost remote h; Done h'
  | EvEstablished info => '(_, h') ← connection_established info h; Done h'
  | EvShuffle => Done (shuffle h).2
  | EvPromote => '(_, h') ← choose_passive_to_promote h; Done h'
  end.

Fixpoint run (es : list (Event A)) (h : HpvInner R A) : outcome (HpvInner R A) :=
  match es with
  | [] => Done h
  | e :: es => h' ← run_event e h; run es h'
  end.

Definition event_ok (e : Event A) : Prop :=
  match e with
  | EvApply _ _ m => message_ok m
  | EvEstablished info => info_ok info
  | EvLost _ | EvShuffle | EvPromote => True
  end.

Lemma run_event_ok e (h : HpvInner R A) :
  hpv_ok h -> event_ok e -> 1 <= p_max_active (h_params h) ->
  exists h', run_event e h = Done h' /\ hpv_ok h' /\ h_params h' = h_params h.
Proof.
  intros Hh He H1. destruct e as [remote addr m|remote|info| |]; simpl in *.
  - destruct (apply_ok remote addr m h Hh He) as (r & h' & -> & Hr).
    eexists. split; [done|]. destruct r as [t|[]].
    + by destruct Hr as (? & ? & _).
    + destruct Hr as [-> _]. done.
  - destruct (connection_lost_ok remote h Hh H1) as (t & h' & -> & (? & ? & _) & _). by eexists.
  - destruct (connection_established_ok info h Hh He) as (t & h' & -> & (? & ? & _) & _).
    by eexists.
  - destruct (shuffle h) as [r h'] eqn:E. apply shuffle_ok in E as (? & _ & ? & _); [|done].
    by eexists.
  - destruct (choose_passive_ok h Hh H1) as (i & h' & -> & ? & _ & ? & _). by eexists.
Qed.

Lemma run_ok es : forall h : HpvInner R A,
  hpv_ok h -> Forall event_ok es -> 1 <= p_max_active (h_params h) ->
  exists h', run es h = Done h' /\ hpv_ok h' /\ h_params h' = h_params h.
Proof.
  induction es as [|e es IH]; intros h Hh Hes H1; simpl; [by eexists|].
  inversion_clear Hes. destruct (run_event_ok e h) as (h1 & -> & Hh1 & Hp); [done..|].
  simpl. destruct (IH h1) as (h' & -> & ? & ?); [done|done|by rewrite Hp|].
  eexists. split_and!; [done|done|congruence].
Qed.
End Runs.

(** ** Properties *)
Section Properties.
Context {R A : Type} `{Rng R} `{EqDecision A}.

(** C4 [hpv_run_safe]: from the initial state, whatever sequence of decoded
    messages, lost and established connections, shuffles and promotions a node
    processes, it never panics (neither the assertion of the promotion nor the
    address bound), and in the state it reaches the local peer is in neither
    view, no peer is in both, and both views respect their configured maximum. *)
Theorem hpv_run_safe (l : PeerId) (r : R) (params : Params) (es : list (Event A))
    (Hact : 1 <= p_max_active params) (Hpas : 1 <= p_max_passive params)
    (Hes : Forall event_ok es) :
  exists h, run es (hpv_new l r params) = Done h /\
    is_known (h_view h) (h_local_id h) = false /\
    (forall p, is_active (h_view h) p && is_passive (h_view h) p = false) /\
    num_active (h_view h) <= p_max_active params /\
    num_passive (h_view h) <= p_max_passive params.
Proof.
  destruct (run_ok es (hpv_new l r params)) as (h & Hr & [Hv Hl Ha Hp] & Hps);
    [apply hpv_new_ok|done|done|].
  exists h. split; [done|]. simpl in Hps. destruct Hv. rewrite Ha, Hp, Hps in *. split_and!.
  - unfold is_known, is_active, is_passive. rewrite <- Hl, vo_local_active, vo_local_passive.
    apply orb_false_iff. split; apply bool_decide_eq_false; by intros [? ?].
  - intros p. unfold is_active, is_passive. case_bool_decide as Hb; [|done].
    rewrite (vo_disjoint p Hb). apply bool_decide_eq_false. by intros [? ?].
  - lia.
  - lia.
Qed.

(** [apply_ticks_addressed]: handling any decoded message in a well-formed
    state succeeds or reports a join of a peer that is already active, leaves
    the state well-formed, and asks only for sends it may make: relays go to
    peers that are active afterwards and never back to the sender, replies go to
    the sender, connections are opened only to peers that are not active, and
    every outgoing message is one the receiver can decode. *)
Theorem apply_ticks_addressed (remote : PeerId) (addr : A) (m : Message A) (h : HpvInner R A)
    (Hh : hpv_ok h) (Hm : message_ok m) :
  exists r h', apply remote addr m h = Done (r, h') /\ hpv_ok h' /\
    match r with
    | Err JoinWhileConnected =>
        (exists i, m = Join i) /\ is_active (h_view h) remote = true /\ h' = h
    | Ok t => Forall (tick_ok (Some remote) h') (ticks t)
    end.
Proof.
  destruct (apply_ok remote addr m h Hh Hm) as (r & h' & E & Hr).
  exists r, h'. split; [done|]. destruct r as [t|[]]; [by destruct Hr as (? & _ & _ & ?)|].
  destruct Hr as [-> Ha]. split_and!; try done.
  destruct m; [by eexists|exfalso..]; unfold apply in E; case_guards; inv_res; case_guards.
Qed.

(** [apply_shuffle_expires]: a shuffle is a bounded random walk. What a node
    relays of a shuffle has a strictly smaller time to live, carries the same
    peers and the same origin, and at time to live zero nothing is relayed. *)
Theorem apply_shuffle_expires (remote : PeerId) (addr : A) (origin : PeerInfo A)
    (peers : list (PeerInfo A)) (ttl : nat) (h h' : HpvInner R A) (t : TnT A)
    (rs : list PeerId) (m : Message A)
    (Ha : apply remote addr (Shuffle origin peers ttl) h = Done (Ok t, h'))
    (Hin : All rs m ∈ ticks t) :
  exists origin', m = Shuffle origin' peers (ttl - 1) /\ peer_id origin' = peer_id origin /\
    ttl - 1 < ttl /\ exists hop, rs = [hop].
Proof.
  unfold apply in Ha. destruct (_ && _) eqn:Hg.
  { exfalso. destruct (sample _ _) as [s h1]. inv_res.
    match goal with x : TnT A * _ |- _ => destruct x as [t1 h2] end. simplify_eq.
    eapply add_passive_all_relays in Hin; [|done].
    destruct s; simpl in Hin; [by apply elem_of_nil in Hin|].
    by apply list_elem_of_singleton in Hin. }
  destruct (Nat.ltb_spec 0 ttl) as [Ht|]; [|simplify_eq; simpl in Hin; by apply elem_of_nil in Hin].
  inv_res. destruct (next_hop remote h) as [[hop|] h1]; simplify_eq/=;
    [|by apply elem_of_nil in Hin].
  apply list_elem_of_singleton in Hin as [= -> ->].
  eexists. split_and!; [done| |lia|by eexists].
  unfold see_origin in *. case_guards; inv_res; done.
Qed.

(** [forward_join_relayed]: a [ForwardJoin] for a peer the node is already
    connected to is relayed whatever its time to live: at time to live zero the
    relayed message has time to live zero again, so that the walk does not end
    after the configured number of hops. *)
Theorem forward_join_relayed (remote : PeerId) (addr : A) (joined : PeerInfo A) (ttl : nat)
    (h : HpvInner R A) (q : PeerId)
    (Hh : hpv_ok h) (Hj : info_ok joined)
    (Ha : is_active (h_view h) (peer_id joined) = true)
    (Hq : is_active (h_view h) q = true) (Hqr : q <> remote) :
  exists t h' hop, apply remote addr (ForwardJoin joined ttl) h = Done (Ok t, h') /\
    All [hop] (ForwardJoin joined (ttl - 1)) ∈ ticks t.
Proof.
  unfold apply. rewrite Ha, andb_false_r. simpl.
  assert (exists t h1, (if ttl =? 0 then
             '(ts, v) ← add_passive joined (h_view h);
             Done (tnt_of_transitions ts, with_view h v)
           else Done (tnt_default, h)) = Done (t, h1) /\ active (h_view h1) = active (h_view h))
    as (t & h1 & -> & Hact).
  { destruct (ttl =? 0); [|by do 2 eexists].
    destruct (view_add_passive joined h Hh Hj) as (ts & v & -> & _ & Hact & _). by do 2 eexists. }
  cbn [mbind outcome_bind]. unfold next_hop. destruct (choose _ _) as [[hop|] r] eqn:Ec.
  - do 3 eexists. split; [done|]. simpl. apply elem_of_app. right. by apply list_elem_of_singleton.
  - exfalso. apply choose_none in Ec. apply filter_nil_not_elem_of with (x := q) in Ec; [|done].
    apply Ec. unfold active_ids. rewrite Hact. apply elem_of_btree_keys.
    unfold is_active in Hq. by apply bool_decide_eq_true in Hq.
Qed.
End Properties.

(** ** Concrete runs *)

Definition demo_ad : PeerAdvertisement N := advertisement_new 7%N.
Definition demo_info (p : PeerId) : PeerInfo N := peer_info_from p demo_ad 9%N.
Definition demo_params (a p : nat) : Params := MkParams a p 6 3 7 30 30.
Definition demo_new : HpvInner nat N := hpv_new 0%N 0 params_default.
Definition demo_events : list (Event N) :=
  [EvApply 1%N 9%N (Neighbour demo_ad High);
   EvApply 1%N 9%N (ShuffleReply [demo_info 2%N])].

Lemma demo_info_ok p : info_ok (demo_info p).
Proof. unfold info_ok, within_ok. simpl. lia. Qed.

Lemma demo_events_ok : Forall event_ok demo_events.
Proof. repeat constructor. Qed.

(** [promoted_peer_forgotten]: with both views full, promoting a passive peer
    can evict that very peer from the passive view: the node then holds it
    active and at the same time is told to forget it, i.e. to close its
    connections. *)
Theorem promoted_peer_forgotten :
  exists (h h' : HpvInner nat N) (t : TnT N),
    run demo_events (hpv_new 0%N 0 (demo_params 1 1)) = Done h /\
    apply 2%N 9%N (Neighbour demo_ad High) h = Done (Ok t, h') /\
    Forget 2%N ∈ ticks t /\ is_active (h_view h') 2%N = true.
Proof.
  eexists _, _, _. split; [by vm_compute|]. split; [by vm_compute|].
  split; [right; left|by vm_compute].
Qed.

(** *** Witnesses *)

Lemma hpv_run_safe_witness :
  exists h, run demo_events (hpv_new 0%N 0 (demo_params 5 30)) = Done h /\
    is_known (h_view h) (h_local_id h) = false /\
    (forall p, is_active (h_view h) p && is_passive (h_view h) p = false) /\
    num_active (h_view h) <= 5 /\ num_passive (h_view h) <= 30.
Proof.
  apply (hpv_run_safe 0%N 0 (demo_params 5 30) demo_events); simpl; [lia|lia|apply demo_events_ok].
Defined.

Lemma apply_ticks_addressed_witness :
  exists r h', apply 3%N 9%N (ForwardJoin (demo_info 4%N) 2) demo_new
      = Done (r, h') /\ hpv_ok h' /\
    match r with
    | Err JoinWhileConnected =>
        (exists i, ForwardJoin (demo_info 4%N) 2 = Join i) /\
        is_active (h_view demo_new) 3%N = true /\
        h' = demo_new
    | Ok t => Forall (tick_ok (Some 3%N) h') (ticks t)
    end.
Proof.
  apply (apply_ticks_addressed 3%N 9%N (ForwardJoin (demo_info 4%N) 2)
    demo_new); [apply hpv_new_ok|apply demo_info_ok].
Defined.

(** The state after [demo_events], with two peers connected. *)
Definition demo_state : HpvInner nat N :=
  match run (demo_events ++ [EvApply 3%N 9%N (Neighbour demo_ad High)])
    (hpv_new 0%N 0 (demo_params 5 30)) with
  | Done h => h
  | Panic => hpv_new 0%N 0 (demo_params 5 30)
  end.

Lemma demo_state_ok : hpv_ok demo_state.
Proof.
  unfold demo_state.
  destruct (run_ok (demo_events ++ [EvApply 3%N 9%N (Neighbour demo_ad High)])
    (hpv_new 0%N 0 (demo_params 5 30) : HpvInner nat N)) as (h & -> & Hh & _); [| |simpl; lia|done].
  - apply hpv_new_ok.
  - apply Forall_app_2; [apply demo_events_ok|]. by apply Forall_singleton.
Qed.

Lemma apply_shuffle_expires_witness :
  match apply 1%N 9%N (Shuffle (demo_info 1%N) [] 2) demo_state with
  | Done (Ok t, _) => exists rs m origin', All rs m ∈ ticks t /\ m = Shuffle origin' [] 1
  | _ => False
  end.
Proof.
  destruct (apply 1%N 9%N (Shuffle (demo_info 1%N) [] 2) demo_state) as [[[t|e] h']|] eqn:E;
    [|vm_compute in E; discriminate E..].
  assert (exists rs m, All rs m ∈ ticks t) as (rs & m & Hin).
  { vm_compute in E. injection E as <- _. do 2 eexists. left. }
  destruct (apply_shuffle_expires 1%N 9%N (demo_info 1%N) [] 2 demo_state h' t rs m E Hin)
    as (o & -> & _). by exists rs, (Shuffle o [] 1), o.
Defined.

Lemma forward_join_relayed_witness :
  exists t h' hop, apply 5%N 9%N (ForwardJoin (demo_info 1%N) 0) demo_state = Done (Ok t, h') /\
    All [hop] (ForwardJoin (demo_info 1%N) (0 - 1)) ∈ ticks t.
Proof.
  apply (forward_join_relayed 5%N 9%N (demo_info 1%N) 0 demo_state 3%N);
    [apply demo_state_ok|apply demo_info_ok|by vm_compute|by vm_compute|done].
Defined.
