(* ===== verification/Broadcast.v ===== *)
(** * Gossip

    [librad/src/net/protocol/broadcast.rs], [broadcast/storage.rs],
    [gossip.rs] and the message and tock types of [io/send/rpc.rs] and
    [tick.rs].  The handler [apply] is parametric in its collaborators, traits in
    the source and classes here: the membership (implemented by [Hpv]), the local
    storage with its rate limits, and the metrics.  The Bloom filter and the
    random source are third-party code. *)
From stdpp Require Import base list gmap.
From Stdlib Require Import NArith Lia.
From S2P Require Import Prelude.
From S2P Require Import Bounded.
From S2P Require Import PeerInfo.
From S2P Require Import PartialView.
From S2P Require Import Hpv.

(** ** Messages *)

(** [u64::MAX], which is [usize::MAX] on the supported platforms. *)
Definition usize_max : N := 18446744073709551615%N.

Definition saturating_add (a b : N) : N := N.min (a + b) usize_max.

Record Ext := MkExt {
  seqno : N;
  hop : N;
  sig : option (list N);
}.

#[export] Instance ext_eq_dec : EqDecision Ext.
Proof. solve_decision. Defined.

Inductive Kind : Type := KHave | KWant.

#[export] Instance kind_eq_dec : EqDecision Kind.
Proof. solve_decision. Defined.

Inductive Message (A P : Type) : Type :=
| Have (origin : PeerInfo A) (val : P) (ext : option Ext)
| Want (origin : PeerInfo A) (val : P) (ext : option Ext).
Arguments Have {A P} origin val ext.
Arguments Want {A P} origin val ext.

(** The payload of the gossip protocol. *)
Inductive Rev : Type := Git (oid : N).

Record Payload (Urn : Type) := MkPayload {
  urn : Urn;
  rev : option Rev;
  p_origin : option PeerId;
}.

Inductive PutResult (P : Type) : Type :=
| Applied (p : P)
| Stale
| Uninteresting
| StorageError.
Arguments Applied {P} p.
Arguments Stale {P}.
Arguments Uninteresting {P}.
Arguments StorageError {P}.

(** [io::Rpc] and [tick::Tock]. *)
Inductive Rpc (A P : Type) : Type :=
| RpcMembership (m : Hpv.Message A)
| RpcGossip (m : Message A P).
Arguments RpcMembership {A P} m.
Arguments RpcGossip {A P} m.

Inductive Tock (A P : Type) : Type :=
| SendConnected (to : PeerId) (message : Rpc A P)
| AttemptSend (to : PeerInfo A) (message : Rpc A P)
| TConnect (to : PeerInfo A) (message : Rpc A P)
| TDisconnect (peer : PeerId).
Arguments SendConnected {A P} to message.
Arguments AttemptSend {A P} to message.
Arguments TConnect {A P} to message.
Arguments TDisconnect {A P} peer.

Section Messages.
Context {A P : Type}.
Implicit Types m : Message A P.

Definition origin m : PeerInfo A := match m with Have o _ _ | Want o _ _ => o end.
Definition payload m : P := match m with Have _ v _ | Want _ v _ => v end.
Definition ext m : option Ext := match m with Have _ _ e | Want _ _ e => e end.
Definition kind m : Kind := match m with Have _ _ _ => KHave | Want _ _ _ => KWant end.
Definition hop_count m : option N := hop <$> ext m.

(** [Ext::new]: the sequence number is the random value given. *)
Definition ext_new (random : N) : Ext := MkExt random 0 None.

Definition ext_next_hop (e : Ext) : Ext := MkExt (seqno e) (saturating_add (hop e) 1) (sig e).

Definition have (random : N) (o : PeerInfo A) (val : P) : Message A P :=
  Have o val (Some (ext_new random)).
Definition want (random : N) (o : PeerInfo A) (val : P) : Message A P :=
  Want o val (Some (ext_new random)).

(** What [Hash for Message] feeds the hasher: messages with the same key are
    the same message to the filter. *)
Definition hash_key m : Kind * PeerId * (P + N) :=
  (kind m, peer_id (origin m),
   match ext m with None => inl (payload m) | Some e => inr (seqno e) end).
End Messages.

(** ** Collaborators *)

(** [broadcast::Membership]. *)
Class Membership (M : Type) := {
  members : M -> option PeerId -> list PeerId;
  is_member : M -> PeerId -> bool;
  members_exclude m p : p ∉ members m (Some p);
  members_member m e p : p ∈ members m e -> is_member m p = true;
}.

Inductive Limit : Type := LErrors | LWants (recipient : PeerId).

(** [broadcast::LocalStorage] with [broadcast::RateLimited], both with interior
    mutability. *)
Class LocalStorage (S A P : Type) := {
  put : PeerId * list A -> P -> S -> PutResult P * S;
  ask : P -> S -> bool * S;
  is_rate_limit_breached : Limit -> S -> bool * S;
}.

(** [broadcast::Metrics] *)
Class Metrics (T : Type) := {
  record_message : option N -> T -> T;
  record_seen : T -> T;
}.

(** [bloom_filters::BloomFilter]: a key that has just been inserted is
    contained. *)
Class BloomFilter (F K : Type) := {
  contains : F -> K -> bool;
  insert : F -> K -> F;
  contains_insert f k : contains (insert f k) k = true;
}.

(** [rand::random::<u64>]. *)
Class Random (G : Type) := random : G -> N * G.

Record State (S F T G : Type) := MkState { storage : S; seen_filter : F; stats : T; gen : G }.
Arguments MkState {S F T G} _ _ _ _.
Arguments storage {S F T G} _.
Arguments seen_filter {S F T G} _.
Arguments stats {S F T G} _.
Arguments gen {S F T G} _.

Inductive Error (A P : Type) : Type :=
| Unsolicited (remote_id : PeerId) (message : Message A P).
Arguments Unsolicited {A P} remote_id message.

(** [event::Gossip] *)
Inductive GossipEvent (A P : Type) : Type :=
| Put (provider : PeerInfo A) (payload : P) (result : PutResult P).
Arguments Put {A P} provider payload result.

Section Apply.
Context {S F T G A P M : Type}.
Context `{Membership M} `{LocalStorage S A P} `{Metrics T}.
Context `{BloomFilter F (Kind * PeerId * (P + N))} `{Random G}.
Implicit Types s : State S F T G.

Definition set_storage s x : State S F T G := MkState x (seen_filter s) (stats s) (gen s).
Definition set_filter s x : State S F T G := MkState (storage s) x (stats s) (gen s).
Definition set_stats s x : State S F T G := MkState (storage s) (seen_filter s) x (gen s).
Definition set_gen s x : State S F T G := MkState (storage s) (seen_filter s) (stats s) x.

Definition seen (m : Message A P) s : bool * State S F T G :=
  if contains (seen_filter s) (hash_key m) then (true, set_stats s (record_seen (stats s)))
  else (false, set_filter s (insert (seen_filter s) (hash_key m))).

(** [ext.unwrap_or_default().next_hop()]: the default draws a sequence number. *)
Definition relay_ext (e : option Ext) s : Ext * State S F T G :=
  match e with
  | Some e => (ext_next_hop e, s)
  | None => let '(r, g) := random (gen s) in (ext_next_hop (ext_new r), set_gen s g)
  end.

Definition fresh (mk : N -> Message A P) s : Message A P * State S F T G :=
  let '(r, g) := random (gen s) in (mk r, set_gen s g).

Definition broadcast (membership : M) (msg : Message A P) (exclude : option PeerId) :
    list (Tock A P) :=
  (fun to => SendConnected to (RpcGossip msg)) <$> members membership exclude.

Definition apply_have (membership : M) (info : PeerInfo A) (remote_id : PeerId)
    (o : PeerInfo A) (val : P) (e : option Ext) s :
    (option (GossipEvent A P) * list (Tock A P)) * State S F T G :=
  let '(res, st) := put (into_addrs o) val (storage s) in
  let s := set_storage s st in
  let event := Put o val res in
  match res with
  | Applied ap =>
      let '(msg, s) := fresh (fun r => have r info ap) s in
      ((Some event, broadcast membership msg (Some remote_id)), s)
  | StorageError =>
      let '(e', s) := relay_ext e s in
      let fwd := broadcast membership (Have o val (Some e')) (Some remote_id) in
      let '(breached, st) := is_rate_limit_breached LErrors (storage s) in
      let s := set_storage s st in
      if breached then ((Some event, fwd), s)
      else
        let '(msg, s) := fresh (fun r => want r info val) s in
        ((Some event, fwd ++ broadcast membership msg None), s)
  | Uninteresting =>
      let '(e', s) := relay_ext e s in
      ((Some event, broadcast membership (Have o val (Some e')) (Some remote_id)), s)
  | Stale => ((Some event, []), s)
  end.

Definition apply_want (membership : M) (info : PeerInfo A) (remote_id : PeerId)
    (o : PeerInfo A) (val : P) (e : option Ext) s :
    (option (GossipEvent A P) * list (Tock A P)) * State S F T G :=
  let '(breached, st) := is_rate_limit_breached (LWants (peer_id o)) (storage s) in
  let s := set_storage s st in
  if breached then ((None, []), s)
  else
    let '(have_it, st) := ask val (storage s) in
    let s := set_storage s st in
    if have_it then
      let '(reply, s) := fresh (fun r => have r info val) s in
      if bool_decide (peer_id o = remote_id)
      then ((None, [SendConnected remote_id (RpcGossip reply)]), s)
      else ((None, broadcast membership reply (Some remote_id)), s)
    else
      let '(e', s) := relay_ext e s in
      ((None, broadcast membership (Want o val (Some e')) (Some remote_id)), s).

Definition apply (membership : M) (info : PeerInfo A) (remote_id : PeerId)
    (message : Message A P) s :
    result (Error A P) (option (GossipEvent A P) * list (Tock A P)) * State S F T G :=
  let s := set_stats s (record_message (hop_count message) (stats s)) in
  match seen message s with
  | (true, s) => (Ok (None, []), s)
  | (false, s) =>
      if negb (is_member membership remote_id)
      then (Err (Unsolicited remote_id message), s)
      else
        let '(r, s) :=
          match message with
          | Have o val e => apply_have membership info remote_id o val e s
          | Want o val e => apply_want membership info remote_id o val e s
          end in
        (Ok r, s)
  end.
End Apply.

(** ** The membership the handler is run with *)

#[export] Instance membership_hpv {R A} `{Rng R} `{EqDecision A} : Membership (HpvInner R A).
Proof.
  refine {| members := fun h exclude => broadcast_recipients exclude h;
            is_member := fun h p => is_known (h_view h) p |}.
  - intros h p Hin. by apply list_elem_of_filter in Hin as [? _].
  - intros h e p Hin. apply list_elem_of_filter in Hin as [_ Hin].
    unfold active_ids in Hin. apply elem_of_btree_keys in Hin.
    unfold is_known, is_active. by rewrite bool_decide_true.
Defined.

(** ** Lemmas *)
Section Lemmas.
Context {S F T G A P M : Type}.
Context `{Membership M} `{LocalStorage S A P} `{Metrics T}.
Context `{BloomFilter F (Kind * PeerId * (P + N))} `{Random G}.
Implicit Types s : State S F T G.

(** The copies of a message that relays send on: each sets the extension as [relay_ext] does in a state of its own. *)
Definition with_ext (m : Message A P) (e : option Ext) : Message A P :=
  match m with Have o v _ => Have o v e | Want o v _ => Want o v e end.
Inductive relays (m : Message A P) : Message A P -> Prop :=
| relays_here : relays m m
| relays_on m' s : relays m m' -> relays m (with_ext m' (Some (relay_ext (ext m') s).1)).

Lemma relays_key m m' : relays m m' -> is_Some (ext m) -> is_Some (ext m') /\ hash_key m' = hash_key m.
Proof.
  intros Hr Hm. induction Hr as [|m' s _ [[e He] Hk]]; [done|]. unfold relay_ext. rewrite He. split; [by destruct m'|].
  rewrite <- Hk. by destruct m' as [o v e'|o v e']; cbn in He; subst.
Qed.
(** A message without an extension gets one, and is not the same to the filter. *)
Lemma relay_unextended m s : ext m = None -> hash_key (with_ext m (Some (relay_ext (ext m) s).1)) <> hash_key m.
Proof. intros He. unfold hash_key. rewrite He. destruct m; by intros [=]. Qed.

Lemma relay_ext_spec e s e' s' :
  relay_ext e s = (e', s') ->
  seen_filter s' = seen_filter s /\ hop e' = saturating_add (default 0%N (hop <$> e)) 1 /\
  (forall e0, e = Some e0 -> seqno e' = seqno e0).
Proof.
  unfold relay_ext. destruct e as [e|].
  - intros [= <- <-]. by split_and!; [..|intros ? [= <-]].
  - destruct (random (gen s)). by intros [= <- <-].
Qed.

Lemma fresh_spec (mk : N -> Message A P) s m s' :
  fresh mk s = (m, s') -> seen_filter s' = seen_filter s /\ exists r, m = mk r.
Proof. unfold fresh. destruct (random (gen s)). intros [= <- <-]. eauto. Qed.

Lemma apply_have_filter mb info rid o v e s :
  seen_filter (apply_have mb info rid o v e s).2 = seen_filter s.
Proof.
  unfold apply_have. destruct (put _ _ _) as [[ap| | |] st].
  - destruct (fresh _ _) eqn:Ef. apply fresh_spec in Ef as [Hf _]. simpl. by rewrite Hf.
  - done.
  - destruct (relay_ext _ _) eqn:Er. apply relay_ext_spec in Er as [Hr _]. simpl. by rewrite Hr.
  - destruct (relay_ext _ _) eqn:Er. apply relay_ext_spec in Er as [Hr _].
    destruct (is_rate_limit_breached _ _) as [[] st']; [simpl; by rewrite Hr|].
    destruct (fresh _ _) eqn:Ef. apply fresh_spec in Ef as [Hf _]. simpl in *. by rewrite Hf, Hr.
Qed.

Lemma apply_want_filter mb info rid o v e s :
  seen_filter (apply_want mb info rid o v e s).2 = seen_filter s.
Proof.
  unfold apply_want. destruct (is_rate_limit_breached _ _) as [[] st]; [done|].
  destruct (ask _ _) as [[] st'].
  - destruct (fresh _ _) eqn:Ef. apply fresh_spec in Ef as [Hf _].
    case_bool_decide; simpl; by rewrite Hf.
  - destruct (relay_ext _ _) eqn:Er. apply relay_ext_spec in Er as [Hr _]. simpl. by rewrite Hr.
Qed.

(** Handling a message changes the filter by inserting the message, unless it is contained. *)
Lemma apply_filter_eq mb info rid m s :
  seen_filter (apply mb info rid m s).2 =
    if contains (seen_filter s) (hash_key m) then seen_filter s else insert (seen_filter s) (hash_key m).
Proof.
  unfold apply, seen. simpl.
  destruct (contains (seen_filter s) (hash_key m)) eqn:Hc; [done|]. simpl.
  destruct (is_member mb rid); simpl; [|done].
  destruct m as [o v e|o v e]; simpl.
  - pose proof (apply_have_filter mb info rid o v e
      (set_filter (set_stats s (record_message (hop <$> e) (stats s)))
        (insert (seen_filter s) (hash_key (Have o v e))))) as Hf.
    unfold hop_count. simpl. by destruct (apply_have _ _ _ _ _ _ _).
  - pose proof (apply_want_filter mb info rid o v e
      (set_filter (set_stats s (record_message (hop <$> e) (stats s)))
        (insert (seen_filter s) (hash_key (Want o v e))))) as Hf.
    unfold hop_count. simpl. by destruct (apply_want _ _ _ _ _ _ _).
Qed.
(** The filter after a message has been handled contains it. *)
Lemma apply_filter mb info rid m s :
  contains (seen_filter (apply mb info rid m s).2) (hash_key m) = true.
Proof. rewrite apply_filter_eq. destruct (contains (seen_filter s) (hash_key m)) eqn:Hc; [done|apply contains_insert]. Qed.

(** Other messages, each with the membership of its time and from its sender. *)
Definition handle_all (l : list (M * PeerInfo A * PeerId * Message A P)) s : State S F T G :=
  foldl (fun s x => (apply x.1.1.1 x.1.1.2 x.1.2 x.2 s).2) s l.
(** Inserting [m] does not make the filter forget [k]. *)
Definition remembers (k : Kind * PeerId * (P + N)) (m : Message A P) : Prop :=
  forall f : F, contains f k = true -> contains (insert f (hash_key m)) k = true.
Lemma handle_all_contains k l : Forall (fun x => remembers k x.2) l -> forall s,
  contains (seen_filter s) k = true -> contains (seen_filter (handle_all l s)) k = true.
Proof.
  induction 1 as [|x l Hx _ IH]; intros s Hs; [done|]. cbn [handle_all foldl]. apply IH. rewrite apply_filter_eq.
  case_match; [done|by apply Hx].
Qed.

Lemma apply_contained mb info rid m s :
  contains (seen_filter s) (hash_key m) = true ->
  (apply mb info rid m s).1 = Ok (None, []) /\ storage (apply mb info rid m s).2 = storage s /\
  seen_filter (apply mb info rid m s).2 = seen_filter s /\ gen (apply mb info rid m s).2 = gen s.
Proof. intros Hc. unfold apply, seen. simpl. by rewrite Hc. Qed.

(** What an emitted tock may be, for a message received from [rid]. *)
Definition tock_ok (mb : M) (info : PeerInfo A) (rid : PeerId) (m : Message A P)
    (t : Tock A P) : Prop :=
  exists to m', t = SendConnected to (RpcGossip m') /\ is_member mb to = true /\
    (origin m' = info /\ hop_count m' = Some 0%N \/
     (origin m' = origin m /\ payload m' = payload m /\ kind m' = kind m /\ to <> rid /\
      hop_count m' = Some (saturating_add (default 0%N (hop_count m)) 1) /\
      (is_Some (ext m) -> hash_key m' = hash_key m))).

Lemma broadcast_ok mb info rid m m' e :
  (origin m' = info /\ hop_count m' = Some 0%N \/
     (origin m' = origin m /\ payload m' = payload m /\ kind m' = kind m /\ e = Some rid /\
      hop_count m' = Some (saturating_add (default 0%N (hop_count m)) 1) /\
      (is_Some (ext m) -> hash_key m' = hash_key m))) ->
  Forall (tock_ok mb info rid m) (broadcast mb m' e).
Proof.
  intros Hm. apply Forall_fmap, Forall_forall. intros to Hto. exists to, m'. split; [done|].
  split; [by eapply members_member|].
  destruct Hm as [?|(? & ? & ? & -> & ? & ?)]; [by left|right]. split_and!; try done.
  intros ->. by apply members_exclude in Hto.
Qed.

Lemma relay_have_ok mb info rid o v e s e' s' :
  relay_ext e s = (e', s') ->
  Forall (tock_ok mb info rid (Have o v e)) (broadcast mb (Have o v (Some e')) (Some rid)).
Proof.
  intros Hr. apply relay_ext_spec in Hr as (_ & Hh & Hs). apply broadcast_ok. right.
  split_and!; try done.
  - unfold hop_count. simpl. by rewrite Hh.
  - intros [e0 He]. simpl in He. unfold hash_key. simpl. rewrite He. by rewrite (Hs e0 He).
Qed.

Lemma relay_want_ok mb info rid o v e s e' s' :
  relay_ext e s = (e', s') ->
  Forall (tock_ok mb info rid (Want o v e)) (broadcast mb (Want o v (Some e')) (Some rid)).
Proof.
  intros Hr. apply relay_ext_spec in Hr as (_ & Hh & Hs). apply broadcast_ok. right.
  split_and!; try done.
  - unfold hop_count. simpl. by rewrite Hh.
  - intros [e0 He]. simpl in He. unfold hash_key. simpl. rewrite He. by rewrite (Hs e0 He).
Qed.

Lemma apply_have_ok mb info rid o v e s :
  Forall (tock_ok mb info rid (Have o v e)) (apply_have mb info rid o v e s).1.2.
Proof.
  unfold apply_have. destruct (put _ _ _) as [[ap| | |] st].
  - destruct (fresh _ _) eqn:Ef. apply fresh_spec in Ef as (_ & r & ->).
    apply broadcast_ok. by left.
  - constructor.
  - destruct (relay_ext _ _) eqn:Er. by eapply relay_have_ok.
  - destruct (relay_ext _ _) eqn:Er. pose proof (relay_have_ok mb info rid o v _ _ _ _ Er).
    destruct (is_rate_limit_breached _ _) as [[] st']; [done|].
    destruct (fresh _ _) eqn:Ef. apply fresh_spec in Ef as (_ & r & ->).
    apply Forall_app_2; [done|]. apply broadcast_ok. by left.
Qed.

Lemma apply_want_ok mb info rid o v e s :
  is_member mb rid = true ->
  Forall (tock_ok mb info rid (Want o v e)) (apply_want mb info rid o v e s).1.2.
Proof.
  intros Hm. unfold apply_want. destruct (is_rate_limit_breached _ _) as [[] st]; [constructor|].
  destruct (ask _ _) as [[] st'].
  - destruct (fresh _ _) eqn:Ef. apply fresh_spec in Ef as (_ & r & ->). case_bool_decide; simpl.
    + apply Forall_singleton. do 2 eexists. split; [done|]. split; [done|]. by left.
    + apply broadcast_ok. by left.
  - destruct (relay_ext _ _) eqn:Er. by eapply relay_want_ok.
Qed.
End Lemmas.

(** ** Properties *)
Section Properties.
Context {S F T G A P M : Type}.
Context `{Membership M} `{LocalStorage S A P} `{Metrics T}.
Context `{BloomFilter F (Kind * PeerId * (P + N))} `{Random G}.


(** [gossip_addressed]: handling a message fails exactly for an unseen message
    of a peer that is not a member. Otherwise everything sent goes to a member;
    it is either the node's own announcement or request, with hop count zero, or
    the received message relayed to somebody other than its sender, with origin,
    payload and kind unchanged, the hop count one higher (saturating at the
    width of the counter), and recognisable as a duplicate. *)
Theorem gossip_addressed (mb : M) (info : PeerInfo A) (rid : PeerId) (m : Message A P)
    (s : State S F T G) :
  match (apply mb info rid m s).1 with
  | Err (Unsolicited p m') =>
      p = rid /\ m' = m /\ is_member mb rid = false /\
      contains (seen_filter s) (hash_key m) = false
  | Ok (_, tocks) => Forall (tock_ok mb info rid m) tocks
  end.
Proof.
  unfold apply, seen. simpl. destruct (contains (seen_filter s) (hash_key m)) eqn:Hc;
    [constructor|].
  destruct (is_member mb rid) eqn:Hm; simpl; [|done].
  destruct m as [o v e|o v e]; simpl.
  - pose proof (apply_have_ok mb info rid o v e
      (set_filter (set_stats s (record_message (hop_count (Have o v e)) (stats s)))
        (insert (seen_filter s) (hash_key (Have o v e))))) as Hok.
    by destruct (apply_have _ _ _ _ _ _ _) as [[ev ts] s'].
  - pose proof (apply_want_ok mb info rid o v e
      (set_filter (set_stats s (record_message (hop_count (Want o v e)) (stats s)))
        (insert (seen_filter s) (hash_key (Want o v e)))) Hm) as Hok.
    by destruct (apply_want _ _ _ _ _ _ _) as [[ev ts] s'].
Qed.

(** [unsolicited_masks]: a message rejected as unsolicited is recorded as seen
    all the same: when a member delivers it right afterwards, it is dropped
    without being stored or relayed. *)
Theorem unsolicited_masks (mb mb' : M) (info : PeerInfo A) (rid rid' : PeerId)
    (m : Message A P) (s s1 : State S F T G) (e : Error A P)
    (Hrej : apply mb info rid m s = (Err e, s1)) :
  (apply mb' info rid' m s1).1 = Ok (None, []) /\
  storage (apply mb' info rid' m s1).2 = storage s.
Proof.
  pose proof (apply_filter mb info rid m s) as Hf. rewrite Hrej in Hf. simpl in Hf.
  destruct (apply_contained mb' info rid' m s1 Hf) as (-> & -> & _). split; [done|].
  unfold apply, seen in Hrej. simpl in Hrej. destruct (contains _ _); [done|].
  destruct (is_member mb rid); simpl in Hrej; [|by simplify_eq].
  by destruct (match m with Have _ _ _ => _ | Want _ _ _ => _ end).
Qed.
End Properties.

(** *** A concrete node *)

(** An exact filter, a counting generator and a storage that holds nothing. *)
#[export] Instance demo_filter : BloomFilter (list (Kind * PeerId * (N + N)))
  (Kind * PeerId * (N + N)).
Proof.
  refine {| contains := fun f k => bool_decide (k ∈ f); insert := fun f k => k :: f |}.
  intros. apply bool_decide_eq_true. left.
Defined.

#[export] Instance demo_random : Random N := fun g => (g, N.succ g).

#[export] Instance demo_storage : LocalStorage unit N N :=
  {| put := fun _ _ s => (Uninteresting, s); ask := fun _ s => (false, s);
     is_rate_limit_breached := fun _ s => (false, s) |}.

#[export] Instance demo_metrics : Metrics N :=
  {| record_message := fun _ n => N.succ n; record_seen := fun n => n |}.

Lemma unsolicited_masks_witness :
  let s : State unit (list (Kind * PeerId * (N + N))) N N := MkState tt [] 0%N 0%N in
  let m : Message N N := have 5%N (demo_info 4%N) 42%N in
  exists s1, apply demo_new (demo_info 0%N) 9%N m s = (Err (Unsolicited 9%N m), s1) /\
  is_member demo_state 3%N = true /\
  (apply demo_state (demo_info 0%N) 3%N m s1).1 = Ok (None, []) /\
  storage (apply demo_state (demo_info 0%N) 3%N m s1).2 = storage s.
Proof.
  intros s m. eexists. split; [by vm_compute|]. split; [by vm_compute|].
  apply (unsolicited_masks demo_new demo_state (demo_info 0%N) 9%N 3%N m s _
    (Unsolicited 9%N m)). by vm_compute.
Defined.

(** [unextended_returns]: a message without an extension comes back from a relay as a new one. *)
Example unextended_returns :
  let s : State unit (list (Kind * PeerId * (N + N))) N N := MkState tt [] 0%N 0%N in
  let m : Message N N := Have (demo_info 4%N) 42%N None in
  let m' := with_ext m (Some (relay_ext (ext m) s).1) in
  let s1 := (apply demo_state (demo_info 0%N) 3%N m s).2 in
  (apply demo_state (demo_info 0%N) 3%N m' s1).1 <> Ok (None, []).
Proof. by vm_compute. Qed.
