(* ===== verification/Tocks.v ===== *)
(** * Running ticks: the network side of a node

    [librad/src/net/protocol/{membership,tick,io}.rs] and the receive loop of
    [io/recv/membership.rs].  A tick becomes tocks, a tock is run against the
    endpoint and may ask for more ticks; [tock] drains that queue.  The endpoint
    (QUIC connections) and the rate limiter are interfaces.  The futures of
    [FuturesOrdered] are run in queue order. *)
From stdpp Require Import base list gmap.
From Stdlib Require Import NArith Lia.
From S2P Require Import Prelude.
From S2P Require Import Bounded.
From S2P Require Import PeerInfo.
From S2P Require Import PartialView.
From S2P Require Import Hpv.
From S2P Require Import Broadcast.

(** The endpoint: get or establish a connection (the addresses are hints for
    dialling), send on it, close every connection of a peer. *)
Class Endpoint (W A P : Type) := {
  Conn : Type;
  listen_addrs_of : W -> list A;
  connection : PeerId -> list A -> W -> option Conn * W;
  send_rpc : Conn -> Rpc A P -> W -> bool * W;
  disconnect : PeerId -> W -> W;
  check_rate : PeerId -> W -> bool * W;
}.

Record Node (R W A : Type) := MkNode {
  membership : HpvInner R A;
  world : W;
  emitted : list (Transition A);
}.
Arguments MkNode {R W A} _ _ _.
Arguments membership {R W A} _.
Arguments world {R W A} _.
Arguments emitted {R W A} _.

(** [error::Tock] *)
Inductive TockError (A : Type) : Type :=
| Reliable (cont : list (Tick A))
| Unreliable.
Arguments Reliable {A} cont.
Arguments Unreliable {A}.

(** What comes off a membership stream. *)
Inductive Recv (A : Type) : Type :=
| RecvErr
| RecvMsg (m : Hpv.Message A).
Arguments RecvErr {A}.
Arguments RecvMsg {A} m.

Section Tocks.
Context {R W A P : Type} `{Rng R} `{EqDecision A} `{Endpoint W A P}.
Implicit Types n : Node R W A.

Definition set_membership n h : Node R W A := MkNode h (world n) (emitted n).
Definition set_world n w : Node R W A := MkNode (membership n) w (emitted n).
(** [State::emit] *)
Definition emit n ts : Node R W A := MkNode (membership n) (world n) (emitted n ++ ts).

(** [io::peer_advertisement] *)
Definition peer_advertisement (w : W) : outcome (PeerAdvertisement A) :=
  addrs ← extend_fill from_empty (listen_addrs_of w);
  Done (MkAdvertisement addrs ∅).

(** [membership::into_tocks] *)
Definition into_tocks (h : HpvInner R A) (info : PeerAdvertisement A) (tick : Tick A) :
    list (Tock A P) :=
  match tick with
  | Forget peer => [TDisconnect peer]
  | Connect to => [TConnect to (RpcMembership (hello info h))]
  | Reply to message => [SendConnected to (RpcMembership message)]
  | Try recipient message => [AttemptSend recipient (RpcMembership message)]
  | All recipients message =>
      (fun r => SendConnected r (RpcMembership message)) <$> recipients
  end.

(** [membership::tocks] *)
Definition tocks (h : HpvInner R A) (info : PeerAdvertisement A) (ticks : list (Tick A)) :
    list (Tock A P) :=
  flat_map (into_tocks h info) ticks.

(** [membership::apply] *)
Definition membership_apply (info : PeerAdvertisement A) (remote_id : PeerId) (remote_addr : A)
    (m : Hpv.Message A) (h : HpvInner R A) :
    outcome (result Hpv.Error (list (Transition A) * list (Tock A P)) * HpvInner R A) :=
  '(r, h') ← Hpv.apply remote_id remote_addr m h;
  Done (match r with
        | Ok t => Ok (trans t, tocks h' info (ticks t))
        | Err e => Err e
        end, h').

Definition try_connect_and_send (to : PeerInfo A) (message : Rpc A P) n : bool * Node R W A :=
  match connection (peer_id to) (addrs to) (world n) with
  | (None, w) => (false, set_world n w)
  | (Some conn, w) =>
      let '(ok, w) := send_rpc conn message w in (ok, set_world n w)
  end.

(** A failed [send_rpc] returns through [?], before [state.emit]. *)
Definition one_tock (tock : Tock A P) n :
    outcome (result (TockError A) (list (Tick A)) * Node R W A) :=
  match tock with
  | SendConnected to message =>
      match connection to [] (world n) with
      | (None, w) =>
          '(t, h) ← connection_lost to (membership n);
          Done (Err (Reliable (ticks t)), emit (set_membership (set_world n w) h) (trans t))
      | (Some conn, w) =>
          match send_rpc conn message w with
          | (true, w) => Done (Ok [], emit (set_world n w) [])
          | (false, w) =>
              '(t, h) ← connection_lost to (membership n);
              Done (Err (Reliable (ticks t)), set_membership (set_world n w) h)
          end
      end
  | AttemptSend to message =>
      match try_connect_and_send to message n with
      | (true, n) => Done (Ok [], emit n [])
      | (false, n) => Done (Err Unreliable, n)
      end
  | TConnect to message =>
      match try_connect_and_send to message n with
      | (true, n) =>
          '(t, h) ← connection_established (to_partial to) (membership n);
          Done (Ok (ticks t), emit (set_membership n h) (trans t))
      | (false, n) => Done (Err Unreliable, n)
      end
  | TDisconnect peer => Done (Ok [], emit (set_world n (disconnect peer (world n))) [])
  end.

Definition cont_of (r : result (TockError A) (list (Tick A))) : list (Tick A) :=
  match r with
  | Ok cont => cont
  | Err (Reliable cont) => cont
  | Err Unreliable => []
  end.

(** The loop of [tick::tock]; [None] is out of fuel. *)
Fixpoint tock_loop (fuel : nat) (queue : list (Tock A P)) n : outcome (option (Node R W A)) :=
  match queue with
  | [] => Done (Some n)
  | t :: queue =>
      match fuel with
      | 0 => Done None
      | S fuel =>
          '(r, n1) ← one_tock t n;
          info ← peer_advertisement (world n1);
          tock_loop fuel (queue ++ tocks (membership n1) info (cont_of r)) n1
      end
  end.

Definition tock (fuel : nat) (t : Tock A P) n : outcome (option (Node R W A)) :=
  tock_loop fuel [t] n.

(** [State::tick]: one after the other. *)
Fixpoint tick (fuel : nat) (ts : list (Tock A P)) n : outcome (option (Node R W A)) :=
  match ts with
  | [] => Done (Some n)
  | t :: ts =>
      o ← tock fuel t n;
      match o with Some n => tick fuel ts n | None => Done None end
  end.

(** [state.tick(membership::tocks(..))]: the iterator is lazy, so that each
    tick becomes tocks in the state its predecessors left. *)
Fixpoint tick_lazy (fuel : nat) (tks : list (Tick A)) n : outcome (option (Node R W A)) :=
  match tks with
  | [] => Done (Some n)
  | t :: tks =>
      info ← peer_advertisement (world n);
      o ← tick fuel (into_tocks (membership n) info t) n;
      match o with Some n => tick_lazy fuel tks n | None => Done None end
  end.

(** [io::recv::connection_lost] *)
Definition recv_connection_lost (fuel : nat) (remote_id : PeerId) n :
    outcome (option (Node R W A)) :=
  '(t, h) ← connection_lost remote_id (membership n);
  tick_lazy fuel (ticks t) (emit (set_membership n h) (trans t)).

(** [io::recv::membership]: the receive loop of one stream, over the items the
    stream yields. *)
Fixpoint recv_membership (fuel : nat) (remote_id : PeerId) (remote_addr : A)
    (items : list (Recv A)) n : outcome (option (Node R W A)) :=
  match items with
  | [] => Done (Some n)
  | RecvErr :: _ => recv_connection_lost fuel remote_id n
  | RecvMsg m :: items =>
      let '(breached, w) := check_rate remote_id (world n) in
      let n := set_world n w in
      info ← peer_advertisement (world n);
      if breached : bool then
        o ← tick fuel (tocks (membership n) info [Reply remote_id Disconnect]
                        ++ [TDisconnect remote_id]) n;
        match o with
        | Some n => recv_connection_lost fuel remote_id n
        | None => Done None
        end
      else
        '(r, h) ← membership_apply info remote_id remote_addr m (membership n);
        let n := set_membership n h in
        match r with
        | Err _ => Done (Some n)
        | Ok (ts, tks) =>
            o ← tick fuel tks (emit n ts);
            match o with
            | Some n => recv_membership fuel remote_id remote_addr items n
            | None => Done None
            end
        end
  end.

(** ** The queue drains *)

(** What a tock can still cause, in tocks: a failed send asks to connect to at
    most [m] peers, an established connection to tell at most two peers off. *)
Definition weight (m : nat) (t : Tock A P) : nat :=
  match t with
  | SendConnected _ _ => 1 + 3 * m
  | TConnect _ _ => 3
  | AttemptSend _ _ | TDisconnect _ => 1
  end.

Definition tock_fine (t : Tock A P) : Prop :=
  match t with TConnect to _ => info_ok to | _ => True end.

Record node_ok n : Prop := {
  no_hpv : hpv_ok (membership n);
  no_max : 1 <= p_max_active (h_params (membership n));
}.

Definition max_of n : nat := p_max_active (h_params (membership n)).

Lemma peer_advertisement_done w : exists info, peer_advertisement w = Done info.
Proof.
  unfold peer_advertisement.
  destruct (extend_fill_done (from_empty : Within 0 16 (list A)) (listen_addrs_of w))
    as (x & -> & _); [unfold within_ok; simpl; lia|]. by eexists.
Qed.

Lemma weight_connects m (h : HpvInner R A) info (ps : list (PeerInfo A)) :
  sum_list_with (weight m) (tocks h info (Connect <$> ps)) = 3 * length ps.
Proof.
  unfold tocks. induction ps as [|i ps IH]; [done|].
  rewrite fmap_cons. cbn [flat_map into_tocks]. rewrite sum_list_with_app, IH. simpl. lia.
Qed.

Lemma fine_connects (h : HpvInner R A) info (ps : list (PeerInfo A)) :
  Forall info_ok ps -> Forall tock_fine (tocks h info (Connect <$> ps)).
Proof. unfold tocks. induction 1; [constructor|]. by constructor. Qed.

Lemma weight_transitions m (h : HpvInner R A) info ts :
  sum_list_with (weight m) (tocks h info (omap tick_of_transition ts)) <= length ts /\
  Forall tock_fine (tocks h info (omap tick_of_transition ts)).
Proof.
  unfold tocks. induction ts as [|[i|i|i] ts [IH IH']]; [split; [simpl; lia|constructor]|..];
    cbn [omap list_omap tick_of_transition flat_map into_tocks app length].
  - split; [lia|done].
  - split; [cbn [sum_list_with weight]; lia|by constructor].
  - split; [cbn [sum_list_with weight]; lia|by constructor].
Qed.

Lemma connection_lost_cont remote h :
  hpv_ok h -> 1 <= p_max_active (h_params h) ->
  exists t h', connection_lost remote h = Done (t, h') /\ hpv_ok h' /\ h_params h' = h_params h /\
    forall hh info, sum_list_with (weight (p_max_active (h_params h))) (tocks hh info (ticks t))
        <= 3 * p_max_active (h_params h) /\ Forall tock_fine (tocks hh info (ticks t)).
Proof.
  intros Hh H1. unfold connection_lost.
  destruct (view_demote remote h Hh) as (ts & v & -> & Hh1 & _ & _). cbn [mbind outcome_bind].
  destruct ts as [|t ts].
  { do 2 eexists. split; [done|]. split_and!; try done. intros. simpl. split; [lia|constructor]. }
  destruct (choose_passive_ok (with_view h v) Hh1 H1)
    as (infos & h2 & -> & Hh2 & _ & Hp2 & _ & Hin & Hlen). cbn [mbind outcome_bind].
  do 2 eexists. split; [done|]. split_and!; try done. intros hh info. cbn [ticks]. split.
  - rewrite weight_connects, Hlen. simpl. lia.
  - apply fine_connects, Forall_forall. intros i Hi. apply Hin in Hi.
    by apply (vo_passive_id _ (ho_view _ Hh1) _ _ Hi).
Qed.

Lemma connection_established_cont info h :
  hpv_ok h -> info_ok info ->
  exists t h', connection_established info h = Done (t, h') /\ hpv_ok h' /\
    h_params h' = h_params h /\
    forall m hh ad, sum_list_with (weight m) (tocks hh ad (ticks t)) <= 2 /\
      Forall tock_fine (tocks hh ad (ticks t)).
Proof.
  intros Hh Hi.
  destruct (connection_established_ok info h Hh Hi) as (t & h' & E & (Hh' & Hp & _) & _).
  exists t, h'. split_and!; try done. intros m hh ad.
  unfold connection_established in E. inv_res. case_match. simplify_eq. cbn [ticks tnt_of_transitions].
  match goal with Ha : add_active _ _ = Done _ |- _ =>
    apply add_active_at_most in Ha; [|apply Hh] end.
  match goal with Ha : _ = [] \/ _ |- _ => destruct Ha as [->|(rest & -> & Hr)] end.
  - simpl. split; [lia|constructor].
  - change (omap tick_of_transition (Promoted info :: rest)) with (omap tick_of_transition rest).
    destruct (weight_transitions m hh ad rest). split; [lia|done].
Qed.

Lemma try_connect_membership to msg n b n' :
  try_connect_and_send to msg n = (b, n') -> membership n' = membership n.
Proof.
  unfold try_connect_and_send. destruct (connection _ _ _) as [[c|] w]; [|by intros [= <- <-]].
  destruct (send_rpc _ _ _). by intros [= <- <-].
Qed.

Lemma one_tock_ok t n :
  node_ok n -> tock_fine t ->
  exists r n', one_tock t n = Done (r, n') /\ node_ok n' /\ max_of n' = max_of n /\
    forall hh info, sum_list_with (weight (max_of n)) (tocks hh info (cont_of r))
        < weight (max_of n) t /\ Forall tock_fine (tocks hh info (cont_of r)).
Proof.
  intros [Hh H1] Ht. unfold max_of. destruct t as [to m|to m|to m|p]; simpl.
  - destruct (connection_lost_cont to (membership n) Hh H1) as (t & h & El & Hh' & Hp & Hw).
    destruct (connection to [] (world n)) as [[c|] w].
    + destruct (send_rpc c m w) as [[] w'].
      * do 2 eexists. split; [done|]. split_and!; try done. intros; split; [simpl; lia|constructor].
      * rewrite El. simpl. do 2 eexists. split; [done|].
        split_and!; simpl; [by split; simpl; rewrite ?Hp|by rewrite Hp|].
        intros hh info. destruct (Hw hh info). split; [lia|done].
    + rewrite El. simpl. do 2 eexists. split; [done|].
      split_and!; simpl; [by split; simpl; rewrite ?Hp|by rewrite Hp|].
      intros hh info. destruct (Hw hh info). split; [lia|done].
  - destruct (try_connect_and_send to m n) as [[] n1] eqn:E; apply try_connect_membership in E;
      do 2 eexists; (split; [done|]); split_and!; try (split; simpl; rewrite ?E; done);
      simpl; rewrite ?E; try done; intros; split; [lia|constructor|lia|constructor].
  - destruct (try_connect_and_send to m n) as [[] n1] eqn:E; apply try_connect_membership in E.
    + destruct (connection_established_cont (to_partial to) (membership n1))
        as (t & h & -> & Hh' & Hp & Hw); [by rewrite E|done|]. simpl.
      do 2 eexists. split; [done|]. simpl. rewrite E in Hp.
      split_and!; [by split; simpl; rewrite ?Hp|by rewrite Hp|].
      intros hh info. destruct (Hw (p_max_active (h_params (membership n))) hh info).
      split; [lia|done].
    + do 2 eexists. split; [done|]. rewrite E. split_and!; [by split; rewrite E|done|].
      intros; split; [simpl; lia|constructor].
  - do 2 eexists. split; [done|]. split_and!; try done. intros; split; [simpl; lia|constructor].
Qed.

Lemma tock_loop_ok fuel : forall queue n,
  node_ok n -> Forall tock_fine queue -> sum_list_with (weight (max_of n)) queue <= fuel ->
  exists n', tock_loop fuel queue n = Done (Some n') /\ node_ok n' /\ max_of n' = max_of n.
Proof.
  induction fuel as [|fuel IH]; intros queue n Hn Hq Hf; destruct queue as [|t queue];
    cbn [tock_loop]; try by eexists.
  - exfalso. simpl in Hf. destruct t; simpl in Hf; lia.
  - inversion_clear Hq as [|? ? Ht Hq'].
    destruct (one_tock_ok t n Hn Ht) as (r & n1 & -> & Hn1 & Hm & Hw). cbn [mbind outcome_bind].
    destruct (peer_advertisement_done (world n1)) as [info ->]. cbn [mbind outcome_bind].
    destruct (Hw (membership n1) info) as [Hlt Hfine].
    destruct (IH (queue ++ tocks (membership n1) info (cont_of r)) n1) as (n' & -> & ? & ?).
    + done.
    + by apply Forall_app_2.
    + rewrite Hm, sum_list_with_app. simpl in Hf. lia.
    + eexists. split_and!; [done|done|congruence].
Qed.
End Tocks.

Section Recv.
Context {R W A P : Type} `{Rng R} `{EqDecision A} `{Endpoint W A P}.
Implicit Types n : Node R W A.

Lemma tick_ok_done fuel : forall (ts : list (Tock A P)) n,
  node_ok n -> Forall tock_fine ts -> 1 + 3 * max_of n <= fuel ->
  exists n', tick fuel ts n = Done (Some n') /\ node_ok n' /\ max_of n' = max_of n.
Proof.
  induction ts as [|t ts IH]; intros n Hn Hts Hf; cbn [tick]; [by eexists|].
  inversion_clear Hts as [|? ? Ht Hts'].
  destruct (tock_loop_ok fuel [t] n) as (n1 & E & Hn1 & Hm1); [done|by apply Forall_singleton| |].
  { pose proof (no_max n Hn). unfold max_of in *. destruct t; simpl in *; lia. }
  unfold tock. rewrite E. cbn [mbind outcome_bind].
  destruct (IH n1) as (n' & -> & ? & ?); [done|done|lia|].
  eexists. split_and!; [done|done|congruence].
Qed.

Definition tick_fine (t : Tick A) : Prop :=
  match t with Connect to => info_ok to | _ => True end.

Lemma into_tocks_fine (h : HpvInner R A) info t :
  tick_fine t -> Forall tock_fine (into_tocks h info t : list (Tock A P)).
Proof.
  destruct t as [rs m|to m|to m|to|p]; intros Ht; simpl.
  - apply Forall_fmap, Forall_forall. done.
  - by apply Forall_singleton.
  - by apply Forall_singleton.
  - by apply Forall_singleton.
  - by apply Forall_singleton.
Qed.

Lemma tocks_fine (h : HpvInner R A) info ts :
  Forall tick_fine ts -> Forall tock_fine (tocks h info ts : list (Tock A P)).
Proof.
  unfold tocks. induction 1 as [|t ts Ht _ IH]; [constructor|]. cbn [flat_map].
  apply Forall_app_2; [by apply into_tocks_fine|done].
Qed.

Lemma tick_ok_fine remote (h : HpvInner R A) ts :
  Forall (tick_ok remote h) ts -> Forall tick_fine ts.
Proof.
  intros Hts. eapply Forall_impl; [done|]. intros [] Ht; simpl in *; by try destruct Ht.
Qed.

Lemma tick_lazy_done fuel : forall (ts : list (Tick A)) n,
  node_ok n -> Forall tick_fine ts -> 1 + 3 * max_of n <= fuel ->
  exists n', tick_lazy fuel ts n = Done (Some n') /\ node_ok n' /\ max_of n' = max_of n.
Proof.
  induction ts as [|t ts IH]; intros n Hn Hts Hf; cbn [tick_lazy]; [by eexists|].
  inversion_clear Hts as [|? ? Ht Hts'].
  destruct (peer_advertisement_done (world n)) as [info ->]. cbn [mbind outcome_bind].
  destruct (tick_ok_done fuel (into_tocks (membership n) info t) n) as (n1 & -> & Hn1 & Hm1);
    [done|by apply into_tocks_fine|done|]. cbn [mbind outcome_bind].
  destruct (IH n1) as (n' & -> & ? & ?); [done|done|lia|].
  eexists. split_and!; [done|done|congruence].
Qed.

Lemma recv_connection_lost_done fuel remote n :
  node_ok n -> 1 + 3 * max_of n <= fuel ->
  exists n', recv_connection_lost fuel remote n = Done (Some n') /\ node_ok n' /\
    max_of n' = max_of n.
Proof.
  intros Hn Hf. unfold recv_connection_lost. destruct Hn as [Hh H1].
  destruct (connection_lost_ok remote (membership n) Hh H1) as (t & h & -> & (Hh' & Hp & _ & Ht) & _).
  cbn [mbind outcome_bind].
  destruct (tick_lazy_done fuel (ticks t) (emit (set_membership n h) (trans t)))
    as (n' & -> & Hn' & Hm'); unfold max_of in *; simpl in *.
  - split; simpl; [done|by rewrite Hp].
  - by eapply tick_ok_fine.
  - by rewrite Hp.
  - eexists. split_and!; [done|done|congruence].
Qed.

Definition recv_ok (i : Recv A) : Prop :=
  match i with RecvErr => True | RecvMsg m => Hpv.message_ok m end.

Lemma recv_membership_done fuel remote addr items : forall n,
  node_ok n -> Forall recv_ok items -> 1 + 3 * max_of n <= fuel ->
  exists n', recv_membership fuel remote addr items n = Done (Some n') /\ node_ok n' /\
    max_of n' = max_of n.
Proof.
  induction items as [|[|m] items IH]; intros n Hn Hi Hf; cbn [recv_membership]; [by eexists|..].
  { by apply recv_connection_lost_done. }
  inversion_clear Hi as [|? ? Hm Hi'].
  destruct (check_rate remote (world n)) as [breached w].
  destruct (peer_advertisement_done w) as [info Ei]. cbn [world set_world]. rewrite Ei.
  cbn [mbind outcome_bind]. assert (node_ok (set_world n w)) as Hnw by (by destruct Hn).
  destruct breached.
  - destruct (tick_ok_done fuel (tocks (membership (set_world n w)) info
      [Reply remote Disconnect] ++ [TDisconnect remote]) (set_world n w)) as (n1 & -> & Hn1 & Hm1);
      [done|by repeat constructor|done|]. cbn [mbind outcome_bind].
    destruct (recv_connection_lost_done fuel remote n1) as (n' & -> & ? & ?); [done|by rewrite Hm1|].
    eexists. split_and!; [done|done|]. rewrite Hm1 in *. done.
  - unfold membership_apply.
    destruct (apply_ok remote addr m (membership n) (no_hpv n Hn) Hm) as (r & h & E & Hr).
    cbn [membership set_world]. rewrite E. cbn [mbind outcome_bind].
    destruct r as [t|[]].
    + destruct Hr as (Hh' & Hp & _ & Ht).
      destruct (tick_ok_done fuel (tocks h info (ticks t))
        (emit (set_membership (set_world n w) h) (trans t))) as (n1 & -> & Hn1 & Hm1).
      * destruct Hn. split; simpl; [done|by rewrite Hp].
      * eapply tocks_fine, tick_ok_fine. done.
      * unfold max_of in *. simpl. by rewrite Hp.
      * cbn [mbind outcome_bind]. assert (max_of n1 = max_of n) as Hmm.
        { rewrite Hm1. unfold max_of. simpl. by rewrite Hp. }
        destruct (IH n1) as (n' & -> & ? & ?); [done|done|by rewrite Hmm|].
        eexists. split_and!; [done|done|congruence].
    + destruct Hr as [-> _]. eexists. split_and!; [done|by destruct Hn|done].
Qed.
End Recv.

(** ** Properties *)
Section Properties.
Context {R W A P : Type} `{Rng R} `{EqDecision A} `{Endpoint W A P}.

(** C17 [recv_membership_total]: the receive loop of a membership stream, with
    everything it sets in motion (ticks becoming tocks, failed sends demoting
    peers and connecting to others, established connections promoting them and
    demoting others), terminates on every finite stream of decoded messages
    whatever the network does, without a panic, and leaves the membership state
    well-formed; [1 + 3 * max_active] steps of the tock queue per tock are
    enough. *)
Theorem recv_membership_total (fuel : nat) (remote : PeerId) (addr : A) (items : list (Recv A))
    (n : Node R W A) (Hn : node_ok n) (Hi : Forall recv_ok items)
    (Hf : 1 + 3 * p_max_active (h_params (membership n)) <= fuel) :
  exists n', recv_membership fuel remote addr items n = Done (Some n') /\
    hpv_ok (membership n').
Proof.
  destruct (recv_membership_done fuel remote addr items n Hn Hi Hf) as (n' & ? & [? ?] & _).
  by exists n'.
Qed.

(** [send_failure_unreported]: when a connected peer turns out to be unreachable
    while sending, it leaves the active view but the transitions are not emitted
    to the subscribers; when there is no connection at all, they are. *)
Theorem send_failure_unreported (to : PeerId) (m : Rpc A P) (n : Node R W A) (c : Conn) (w w' : W)
    (Hn : node_ok n) (Hc : connection to [] (world n) = (Some c, w))
    (Hs : send_rpc c m w = (false, w'))
    (Ha : is_active (h_view (membership n)) to = true) :
  exists r n', one_tock (SendConnected to m) n = Done (r, n') /\
    emitted n' = emitted n /\ is_active (h_view (membership n')) to = false.
Proof.
  simpl. rewrite Hc, Hs. destruct Hn as [Hh H1].
  destruct (connection_lost_ok to (membership n) Hh H1) as (t & h & -> & _ & Hna).
  simpl. do 2 eexists. split_and!; try done.
Qed.
End Properties.

(** *** A concrete network: one peer that accepts connections and loses data. *)
#[export] Instance demo_endpoint : Endpoint N N N :=
  {| Conn := PeerId; listen_addrs_of := fun w => [w];
     connection := fun p _ w => (Some p, w); send_rpc := fun _ _ w => (false, w);
     disconnect := fun _ w => w; check_rate := fun _ w => (false, w) |}.

Definition demo_node : Node nat N N := MkNode demo_state 7%N [].

Lemma demo_node_ok : node_ok demo_node.
Proof. split; [apply demo_state_ok|]. vm_compute. lia. Qed.

Lemma recv_membership_total_witness :
  exists n', recv_membership 16 1%N 9%N
      [RecvMsg (Shuffle (demo_info 1%N) [demo_info 8%N] 3); RecvErr] demo_node = Done (Some n') /\
    hpv_ok (membership n').
Proof.
  apply (recv_membership_total 16 1%N 9%N); [apply demo_node_ok| |vm_compute; lia].
  repeat constructor.
Defined.

Lemma send_failure_unreported_witness :
  exists r n', one_tock (SendConnected 1%N (RpcMembership Disconnect)) demo_node = Done (r, n') /\
    emitted n' = emitted demo_node /\ is_active (h_view (membership n')) 1%N = false.
Proof.
  apply (send_failure_unreported 1%N (RpcMembership Disconnect) demo_node
    (1%N : @Conn N N N demo_endpoint) 7%N 7%N);
    [apply demo_node_ok|done|done|by vm_compute].
Defined.
