(* ===== verification/Policy.v ===== *)
(** * Tracking policies and their composition

    [link-tracking/src/git/tracking/policy.rs] and
    [link-tracking/src/git/refdb/previous_value.rs].  A batch of tracking actions
    on the same entry is fused by composing their policies; the specification of
    a composition is the sequential effect of the actions on the entry. *)
From stdpp Require Import base list.
From S2P Require Import Prelude.

(** ** Policies *)

Inductive Track : Type := TrackAny | TrackMustNotExist | TrackMustExist.
Inductive Untrack : Type := UntrackAny | UntrackMustExist.
Inductive UntrackAll : Type := AllAny | AllMustExistAndMatch.

#[export] Instance track_eq_dec : EqDecision Track.
Proof. solve_decision. Defined.
#[export] Instance untrack_eq_dec : EqDecision Untrack.
Proof. solve_decision. Defined.

Inductive PreviousValue (Oid : Type) : Type :=
| PAny
| PMustExist
| PMustNotExist
| PMustExistAndMatch (oid : Oid)
| PIfExistsMustMatch (oid : Oid).
Arguments PAny {Oid}.
Arguments PMustExist {Oid}.
Arguments PMustNotExist {Oid}.
Arguments PMustExistAndMatch {Oid} oid.
Arguments PIfExistsMustMatch {Oid} oid.

Inductive PreviousError (Oid : Type) : Type :=
| DidNotExist
| DidExist
| DidNotMatch (expected actual : Oid).
Arguments DidNotExist {Oid}.
Arguments DidExist {Oid}.
Arguments DidNotMatch {Oid} expected actual.

Section PreviousValue.
Context {Oid : Type} `{EqDecision Oid}.

(** [From<Track>], [From<Untrack> for PreviousValue] and
    [UntrackAll::into_previous_value]. *)
Definition previous_of_track (p : Track) : PreviousValue Oid :=
  match p with
  | TrackAny => PAny
  | TrackMustNotExist => PMustNotExist
  | TrackMustExist => PMustExist
  end.

Definition previous_of_untrack (p : Untrack) : PreviousValue Oid :=
  match p with UntrackAny => PAny | UntrackMustExist => PMustExist end.

Definition into_previous_value (p : UntrackAll) (oid : Oid) : PreviousValue Oid :=
  match p with AllAny => PAny | AllMustExistAndMatch => PMustExistAndMatch oid end.

(** [PreviousValue::guard]: [on_success] is run with the state [S] and can fail. *)
Definition guard {S E : Type} (self : PreviousValue Oid) (previous : option Oid)
    (on_success : S -> result E S) (s : S) : result E (option (PreviousError Oid) * S) :=
  match self with
  | PAny => s ← on_success s; Ok (None, s)
  | PMustExist =>
      if previous is Some _ then s ← on_success s; Ok (None, s)
      else Ok (Some DidNotExist, s)
  | PMustNotExist =>
      if previous is None then s ← on_success s; Ok (None, s)
      else Ok (Some DidExist, s)
  | PMustExistAndMatch expected =>
      match previous with
      | None => Ok (Some DidNotExist, s)
      | Some actual =>
          if bool_decide (expected = actual) then s ← on_success s; Ok (None, s)
          else Ok (Some (DidNotMatch expected actual), s)
      end
  | PIfExistsMustMatch expected =>
      match previous with
      | None => s ← on_success s; Ok (None, s)
      | Some actual =>
          if bool_decide (expected = actual) then s ← on_success s; Ok (None, s)
          else Ok (Some (DidNotMatch expected actual), s)
      end
  end.

(** What the variants document: the condition on the previous value. *)
Definition admits (self : PreviousValue Oid) (previous : option Oid) : bool :=
  match self, previous with
  | PAny, _ => true
  | PMustExist, Some _ => true
  | PMustNotExist, None => true
  | PMustExistAndMatch e, Some a => bool_decide (e = a)
  | PIfExistsMustMatch e, Some a => bool_decide (e = a)
  | PIfExistsMustMatch _, None => true
  | _, _ => false
  end.

(** [guard] runs the action exactly when the previous value is admitted, and
    otherwise reports without touching the state. *)
Lemma guard_spec {S E} self previous (f : S -> result E S) s :
  if admits self previous
  then guard self previous f s = (s' ← f s; Ok (None, s'))
  else exists e, guard self previous f s = Ok (Some e, s).
Proof.
  destruct self as [| | |e|e], previous as [a|]; simpl; eauto; case_bool_decide; eauto.
Qed.
End PreviousValue.

(** ** Composition *)

(** [WithConfig] and the actions on one entry, [Either<WithConfig, Untrack>]. *)
Record WithConfig (C : Type) := MkWithConfig { policy : Track; config : C }.
Arguments MkWithConfig {C} policy config.
Arguments policy {C} w.
Arguments config {C} w.

Inductive Reduction (T : Type) : Type :=
| Simple (t : T)
| Stuck (first second : T).
Arguments Simple {T} t.
Arguments Stuck {T} first second.

(** [IntoIterator for Reduction] *)
Definition red_into_iter {T} (r : Reduction T) : list T :=
  match r with Simple one => [one] | Stuck first second => [first; second] end.

(** [Compose]: [first.compose(second)], "first then second". *)
Class Compose (Self Other Codomain : Type) := compose : Self -> Other -> Codomain.

Section Compose.
Context {C : Type}.
Abbreviation Entry := (WithConfig C + Untrack)%type.

#[export] Instance compose_with_config :
    Compose (WithConfig C) (WithConfig C) (Reduction (WithConfig C)) :=
  fun self other =>
  match policy other, policy self with
  | TrackAny, _ => Simple (MkWithConfig TrackAny (config other))
  | TrackMustNotExist, TrackAny => Simple (MkWithConfig TrackAny (config self))
  | TrackMustNotExist, TrackMustNotExist => Simple (MkWithConfig TrackMustNotExist (config self))
  | TrackMustNotExist, TrackMustExist =>
      Stuck (MkWithConfig TrackMustExist (config self))
            (MkWithConfig TrackMustNotExist (config other))
  | TrackMustExist, TrackAny => Simple (MkWithConfig TrackAny (config self))
  | TrackMustExist, TrackMustNotExist => Simple (MkWithConfig TrackAny (config self))
  | TrackMustExist, TrackMustExist => Simple (MkWithConfig TrackMustExist (config other))
  end.

#[export] Instance compose_track_untrack : Compose Track Untrack Untrack :=
  fun _ _ => UntrackAny.

#[export] Instance compose_untrack : Compose Untrack Untrack Untrack :=
  fun self other =>
  match other, self with
  | UntrackAny, _ => UntrackAny
  | UntrackMustExist, UntrackAny => UntrackAny
  | UntrackMustExist, UntrackMustExist => UntrackMustExist
  end.

#[export] Instance compose_untrack_track : Compose Untrack Track (Track + Untrack) :=
  fun self track =>
  match track, self with
  | TrackAny, _ => inl TrackAny
  | TrackMustNotExist, _ => inl TrackAny
  | TrackMustExist, u => inr u
  end.

#[export] Instance compose_entry : Compose Entry Entry (Reduction Entry) :=
  fun self other =>
  match other, self with
  | inl second, inl first =>
      match (compose first second : Reduction (WithConfig C)) with
      | Simple w => Simple (inl (MkWithConfig (policy w) (config w)))
      | Stuck f s => Stuck (inl f) (inl s)
      end
  | inl w, inr untrack =>
      Simple (match (compose untrack (policy w) : Track + Untrack) with
              | inl track => inl (MkWithConfig track (config w))
              | inr untrack => inr untrack
              end)
  | inr untrack, inl w => Simple (inr (compose (policy w) untrack))
  | inr untrackl, inr untrackr => Simple (inr (compose untrackr untrackl))
  end.

(** [Compose<T> for Reduction<T>]; the inner stuck case is [unreachable!]. *)
Definition red_compose {T} `{Compose T T (Reduction T)} (self : Reduction T) (other : T) :
    outcome (Reduction T) :=
  match self with
  | Simple s => Done (compose s other)
  | Stuck first second =>
      match (compose second other : Reduction T) with
      | Simple new => Done (compose first new)
      | Stuck _ _ => Panic
      end
  end.

(** The composition of a sequence of actions, as the fusion builds it up. *)
Fixpoint reduce_from {T} `{Compose T T (Reduction T)} (r : Reduction T) (ops : list T) :
    outcome (Reduction T) :=
  match ops with
  | [] => Done r
  | op :: ops => r ← red_compose r op; reduce_from r ops
  end.

(** ** The specification: sequential effect on the entry

    [Some c]: tracked with configuration [c]; a rejected action leaves the
    entry. *)
Definition effect (op : Entry) (e : option C) : option C :=
  match op, e with
  | inl (MkWithConfig TrackAny c), _ => Some c
  | inl (MkWithConfig TrackMustNotExist c), None => Some c
  | inl (MkWithConfig TrackMustNotExist _), Some x => Some x
  | inl (MkWithConfig TrackMustExist c), Some _ => Some c
  | inl (MkWithConfig TrackMustExist _), None => None
  | inr _, _ => None
  end.

Definition effects (ops : list Entry) (e : option C) : option C :=
  foldl (fun e op => effect op e) e ops.

(** Reductions the composition can produce. *)
Definition red_ok (r : Reduction Entry) : Prop :=
  match r with
  | Simple _ => True
  | Stuck (inl f) (inl s) => policy f = TrackMustExist /\ policy s = TrackMustNotExist
  | Stuck _ _ => False
  end.

(** The actions whose composition is exact. *)
Definition updates_config (op : Entry) : bool :=
  match op with inl (MkWithConfig TrackMustExist _) => true | _ => false end.

Lemma compose_red_ok (a b : Entry) : red_ok (compose a b).
Proof. by destruct a as [[[] ca]|[]], b as [[[] cb]|[]]. Qed.

Lemma red_compose_done r op :
  red_ok r -> exists r', red_compose r op = Done r' /\ red_ok r'.
Proof.
  destruct r as [a|[[pf cf]|] [[ps cs]|]]; simpl; try done.
  - intros _. eexists. split; [done|]. apply compose_red_ok.
  - intros [-> ->]. destruct op as [[[] c]|[]]; simpl; eexists; (split; [done|]); done.
Qed.

(** One composition, for the presence of the entry and, except when an update
    of the configuration comes second, for its configuration. *)
Lemma compose_presence (a b : Entry) e :
  is_Some (effects (red_into_iter (compose a b)) e) <-> is_Some (effect b (effect a e)).
Proof.
  destruct a as [[[] ca]|[]], b as [[[] cb]|[]], e; simpl; split; intros Hs;
    first [by destruct Hs|by eexists].
Qed.

Lemma compose_exact (a b : Entry) e :
  updates_config b = false -> effects (red_into_iter (compose a b)) e = effect b (effect a e).
Proof. by destruct a as [[[] ca]|[]], b as [[[] cb]|[]], e. Qed.

Lemma effects_presence ops : forall e e', is_Some e <-> is_Some e' ->
  (is_Some (effects ops e) <-> is_Some (effects ops e')).
Proof.
  induction ops as [|op ops IH]; intros e e' He; [done|]. simpl. apply IH.
  destruct op as [[[] c]|[]], e, e'; simpl; try done;
    exfalso; destruct He as [H1 H2];
    first [destruct (H1 ltac:(by eexists)); done|destruct (H2 ltac:(by eexists)); done].
Qed.

Lemma red_compose_presence r op r' e :
  red_ok r -> red_compose r op = Done r' ->
  is_Some (effects (red_into_iter r') e) <-> is_Some (effects (red_into_iter r ++ [op]) e).
Proof.
  intros Hr Hc. destruct r as [a|[[pf cf]|] [[ps cs]|]]; simpl in *; simplify_eq; try done.
  - apply compose_presence.
  - destruct Hr as [-> ->].
    destruct op as [[[] c]|[]], e; simpl in *; simplify_eq; simpl; split; intros Hs;
      first [by destruct Hs|by eexists].
Qed.

Lemma red_compose_exact r op r' e :
  red_ok r -> updates_config op = false -> red_compose r op = Done r' ->
  effects (red_into_iter r') e = effects (red_into_iter r ++ [op]) e.
Proof.
  intros Hr Ho Hc. destruct r as [a|[[pf cf]|] [[ps cs]|]]; simpl in *; simplify_eq; try done.
  - by apply compose_exact.
  - destruct Hr as [-> ->].
    by destruct op as [[[] c]|[]], e; simpl in *; simplify_eq.
Qed.

Lemma effects_app xs ys e : effects (xs ++ ys) e = effects ys (effects xs e).
Proof. apply foldl_app. Qed.

Lemma reduce_from_spec ops : forall r,
  red_ok r ->
  exists r', reduce_from r ops = Done r' /\ red_ok r' /\
    forall e, (is_Some (effects (red_into_iter r') e) <->
               is_Some (effects (red_into_iter r ++ ops) e)) /\
      (forallb (fun op => negb (updates_config op)) ops = true ->
       effects (red_into_iter r') e = effects (red_into_iter r ++ ops) e).
Proof.
  induction ops as [|op ops IH]; intros r Hr; simpl.
  { eexists. split; [done|]. split; [done|]. intros e. by rewrite app_nil_r. }
  destruct (red_compose_done r op Hr) as (r1 & Hc & Hr1). rewrite Hc. simpl.
  destruct (IH r1 Hr1) as (r' & -> & Hr' & Hspec). eexists. split; [done|]. split; [done|].
  intros e. destruct (Hspec e) as [Hp He]. change (op :: ops) with ([op] ++ ops).
  rewrite (app_assoc _ [op] ops), effects_app. rewrite effects_app in Hp, He. split.
  - rewrite Hp. apply effects_presence. by apply red_compose_presence.
  - intros Hall. apply andb_prop in Hall as [Ho Hall]. rewrite (He Hall).
    f_equal. apply red_compose_exact; [done| |done]. by apply negb_true_iff.
Qed.
End Compose.

(** ** Properties *)
Section Properties.
Context {C : Type}.

(** C26 [policy_reduce_sound]: composing the policies of any sequence of track and
    untrack actions on one entry never reaches the code's [unreachable!], and
    running the composed actions leaves the entry tracked exactly when running
    the original actions one after the other does; unless a later action updates
    an existing configuration ([MustExist]), the configuration is the same too. *)
Theorem policy_reduce_sound (op : WithConfig C + Untrack) (ops : list (WithConfig C + Untrack)) :
  exists r, reduce_from (Simple op) ops = Done r /\
    forall e : option C,
      (is_Some (effects (red_into_iter r) e) <-> is_Some (effects (op :: ops) e)) /\
      (forallb (fun o => negb (updates_config o)) ops = true ->
       effects (red_into_iter r) e = effects (op :: ops) e).
Proof.
  destruct (reduce_from_spec ops (Simple op) I) as (r & E & _ & Hr). by exists r.
Qed.

(** [must_exist_update_lost]: composing a track that creates the entry ([Any] or
    [MustNotExist]) with an update of its configuration ([MustExist]) keeps the
    configuration of the first action, where running the two in sequence ends
    with the second one's, whatever the entry was before. *)
Theorem must_exist_update_lost (p : Track) (c c' : C) (e : option C)
    (Hp : p = TrackAny \/ p = TrackMustNotExist) :
  let first := inl (MkWithConfig p c) in
  let second := inl (MkWithConfig TrackMustExist c') in
  effects [first; second] e = Some c' /\
  effects (red_into_iter (compose first second : Reduction (WithConfig C + Untrack))) e = Some c.
Proof. destruct Hp as [-> | ->], e; done. Qed.
End Properties.

Lemma must_exist_update_lost_witness :
  let first := inl (MkWithConfig TrackAny 1) in
  let second := inl (MkWithConfig TrackMustExist 2) in
  effects [first; second] None = Some 2 /\
  effects (red_into_iter (compose first second : Reduction (WithConfig nat + Untrack))) None = Some 1.
Proof. apply (must_exist_update_lost TrackAny 1 2 None). by left. Defined.
