(* ===== verification/Tracking.v ===== *)
(** * Tracking: the reference database and the operations on it

    [link-tracking/src/git/{refdb,odb}.rs], [git/tracking.rs],
    [git/tracking/{batch,reference}.rs] and the implementation of the reference
    database by [librad/src/git/tracking/refdb.rs].  The state is the map from
    tracking references to git references together with the object store of
    configurations.  libgit2 calls can fail: which do is decided by a parameter,
    so that every error path of the code is there. *)
From stdpp Require Import base list gmap.
From Stdlib Require Import NArith Lia.
From S2P Require Import Prelude.
From S2P Require Import Policy.

Abbreviation Oid := N (only parsing).
Abbreviation PeerId := N (only parsing).

(** ** Names *)

(** An URN: the identity's hash and an optional path. *)
Record Urn := MkUrn { urn_id : N; urn_path : option (list N) }.

#[export] Instance urn_eq_dec : EqDecision Urn.
Proof. solve_decision. Defined.

#[export] Program Instance urn_countable : Countable Urn :=
  inj_countable' (fun u => (urn_id u, urn_path u)) (fun p => MkUrn p.1 p.2) _.
Next Obligation. by intros []. Qed.

Inductive Remote : Type := RDefault | RPeer (peer : PeerId).

#[export] Instance remote_eq_dec : EqDecision Remote.
Proof. solve_decision. Defined.

(** [From<Remote> for Option<PeerId>] and back. *)
Definition remote_into (r : Remote) : option PeerId :=
  match r with RDefault => None | RPeer peer => Some peer end.
Definition remote_from (p : option PeerId) : Remote :=
  match p with None => RDefault | Some peer => RPeer peer end.

#[export] Program Instance remote_countable : Countable Remote :=
  inj_countable' remote_into remote_from _.
Next Obligation. by intros []. Qed.

Record RefName := MkRefName { remote : Remote; urn : Urn }.

#[export] Instance refname_eq_dec : EqDecision RefName.
Proof. solve_decision. Defined.

#[export] Program Instance refname_countable : Countable RefName :=
  inj_countable' (fun n => (remote n, urn n)) (fun p => MkRefName p.1 p.2) _.
Next Obligation. by intros []. Qed.

(** [RefName::new] drops the path. *)
Definition refname_new (u : Urn) (peer : option PeerId) : RefName :=
  MkRefName (remote_from peer)
    (if urn_path u is Some _ then MkUrn (urn_id u) None else u).

Lemma refname_new_inj u peer u' peer' :
  refname_new u peer = refname_new u' peer' <-> urn_id u = urn_id u' /\ peer = peer'.
Proof.
  destruct u as [i [p|]], u' as [i' [p'|]], peer, peer'; unfold refname_new; simpl;
    split; intros; intuition congruence.
Qed.

(** ** The reference database *)

(** A git reference; the tracking entries are direct ones. *)
Inductive GRef : Type := Direct (target : Oid) | Symbolic.

Definition target (g : GRef) : option Oid :=
  match g with Direct o => Some o | Symbolic => None end.

Record Ref := MkRef { r_name : RefName; r_target : Oid }.

Inductive Update : Type :=
| Write (name : RefName) (target : Oid) (previous : PreviousValue Oid)
| Delete (name : RefName) (previous : PreviousValue Oid).

Inductive Updated : Type :=
| Written (name : RefName) (target : Oid)
| Deleted (name : RefName) (previous : Oid).

Record Applied := MkApplied { updates : list Updated; rejections : list (PreviousError Oid) }.

Definition applied_default : Applied := MkApplied [] [].

(** The transaction: what is queued, in order. *)
Inductive TxnOp : Type :=
| SetTarget (name : RefName) (target : Oid)
| Remove (name : RefName).

Inductive TxnError : Type :=
| Acquire | Lock (name : RefName) | WriteFailed (name : RefName) (target : Oid)
| DeleteFailed (name : RefName) | ReadFailed | SymbolicRef | Commit.

(** Which libgit2 calls fail, given what has been locked and queued so far. *)
Inductive GitCall : Type :=
| CTransaction | CLock (name : RefName) | CSet (name : RefName) | CRemove (name : RefName)
| CRead (name : RefName) | CApply (op : TxnOp).

Record Txn := MkTxn { locked : list RefName; queue : list TxnOp }.

(** libgit2: which calls fail, and the order in which it lists references. *)
Class Git2 := {
  git_fails : Txn -> GitCall -> bool;
  iter_refs : gmap RefName GRef -> list (RefName * GRef);
  iter_refs_perm refs : iter_refs refs ≡ₚ map_to_list refs;
}.

Section Refdb.
Context `{Git2}.
Abbreviation refs_t := (gmap RefName GRef).

(** [Read::find_reference] *)
Definition find_reference (name : RefName) (refs : refs_t) : result TxnError (option Ref) :=
  if git_fails (MkTxn [] []) (CRead name) then Err ReadFailed
  else match refs !! name with
       | None => Ok None
       | Some (Direct oid) => Ok (Some (MkRef name oid))
       | Some Symbolic => Err SymbolicRef
       end.

Definition lock_ref (name : RefName) (t : Txn) : result TxnError Txn :=
  if git_fails t (CLock name) then Err (Lock name)
  else Ok (MkTxn (name :: locked t) (queue t)).

Definition set_target (name : RefName) (oid : Oid) (t : Txn) : result TxnError Txn :=
  if git_fails t (CSet name) then Err (WriteFailed name oid)
  else Ok (MkTxn (locked t) (queue t ++ [SetTarget name oid])).

Definition remove (name : RefName) (t : Txn) : result TxnError Txn :=
  if git_fails t (CRemove name) then Err (DeleteFailed name)
  else Ok (MkTxn (locked t) (queue t ++ [Remove name])).

Definition read_ref (name : RefName) (refs : refs_t) (t : Txn) : result TxnError (option GRef) :=
  if git_fails t (CRead name) then Err ReadFailed else Ok (refs !! name).

Definition reject_or_update (applied : Applied) (r : option (PreviousError Oid)) (u : Updated) :
    Applied :=
  match r with
  | None => MkApplied (updates applied ++ [u]) (rejections applied)
  | Some e => MkApplied (updates applied) (rejections applied ++ [e])
  end.

(** One iteration of the loop of [Write::update]. *)
Definition update_one (refs : refs_t) (u : Update) (st : Txn * Applied) :
    result TxnError (Txn * Applied) :=
  let '(t, applied) := st in
  match u with
  | Write name oid previous =>
      t ← lock_ref name t;
      r ← read_ref name refs t;
      '(rej, t) ← guard previous (r ≫= target) (set_target name oid) t;
      Ok (t, reject_or_update applied rej (Written name oid))
  | Delete name previous =>
      t ← lock_ref name t;
      r ← read_ref name refs t;
      match r with
      | Some g =>
          '(rej, t) ← guard previous (target g) (remove name) t;
          prev ← ok_or (target g) SymbolicRef;
          Ok (t, reject_or_update applied rej (Deleted name prev))
      | None =>
          match previous with
          | PAny | PMustNotExist | PIfExistsMustMatch _ => Ok (t, applied)
          | _ => Ok (t, MkApplied (updates applied) (rejections applied ++ [DidNotExist]))
          end
      end
  end.

#[local] Arguments update_one : simpl never.

Fixpoint update_loop (refs : refs_t) (us : list Update) (st : Txn * Applied) :
    result TxnError (Txn * Applied) :=
  match us with
  | [] => Ok st
  | u :: us => st ← update_one refs u st; update_loop refs us st
  end.

Definition apply_op (refs : refs_t) (op : TxnOp) : refs_t :=
  match op with
  | SetTarget name oid => <[name := Direct oid]> refs
  | Remove name => delete name refs
  end.

(** [Transaction::commit] makes the updates one by one and stops at the first
    failure. *)
Fixpoint commit (t : Txn) (ops : list TxnOp) (refs : refs_t) : bool * refs_t :=
  match ops with
  | [] => (true, refs)
  | op :: ops =>
      if git_fails t (CApply op) then (false, refs)
      else commit t ops (apply_op refs op)
  end.

(** [Write::update] *)
Definition update (us : list Update) (refs : refs_t) : result TxnError Applied * refs_t :=
  if git_fails (MkTxn [] []) CTransaction then (Err Acquire, refs)
  else match update_loop refs us (MkTxn [] [], applied_default) with
       | Err e => (Err e, refs)
       | Ok (t, applied) =>
           match commit t (queue t) refs with
           | (true, refs') => (Ok applied, refs')
           | (false, refs') => (Err Commit, refs')
           end
       end.

(** ** Lemmas *)

(** The specification of one update: its condition on the reference at hand
    decides between the change and a rejection. *)
Definition spec_one (u : Update) (g : option GRef) : option GRef :=
  match u with
  | Write _ oid previous => if admits previous (g ≫= target) then Some (Direct oid) else g
  | Delete _ previous => if admits previous (g ≫= target) then None else g
  end.

Definition name_of (u : Update) : RefName :=
  match u with Write n _ _ | Delete n _ => n end.

Definition op_name (o : TxnOp) : RefName :=
  match o with SetTarget n _ | Remove n => n end.

Lemma guard_ok {S E} (p : PreviousValue Oid) prev (f : S -> result E S) s r s' :
  guard p prev f s = Ok (r, s') ->
  (admits p prev = true /\ r = None /\ f s = Ok s') \/
  (admits p prev = false /\ (exists e, r = Some e) /\ s' = s).
Proof.
  intros Hg. pose proof (guard_spec p prev f s) as Hs. destruct (admits p prev).
  - left. rewrite Hg in Hs. symmetry in Hs. inv_res. done.
  - right. destruct Hs as [e He]. rewrite Hg in He. simplify_eq. eauto.
Qed.

Lemma lock_ref_ok n t t' : lock_ref n t = Ok t' -> queue t' = queue t.
Proof. unfold lock_ref. case_match; by intros; simplify_eq. Qed.

Lemma read_ref_ok n refs t r : read_ref n refs t = Ok r -> r = refs !! n.
Proof. unfold read_ref. case_match; by intros; simplify_eq. Qed.

Lemma set_target_ok n o t t' : set_target n o t = Ok t' -> queue t' = queue t ++ [SetTarget n o].
Proof. unfold set_target. case_match; by intros; simplify_eq. Qed.

Lemma remove_ok n t t' : remove n t = Ok t' -> queue t' = queue t ++ [Remove n].
Proof. unfold remove. case_match; by intros; simplify_eq. Qed.

Ltac txn_ok :=
  repeat match goal with
  | H : lock_ref _ _ = Ok _ |- _ => apply lock_ref_ok in H
  | H : read_ref _ _ _ = Ok _ |- _ => apply read_ref_ok in H
  | H : set_target _ _ _ = Ok _ |- _ => apply set_target_ok in H
  | H : remove _ _ = Ok _ |- _ => apply remove_ok in H
  | H : guard _ _ _ _ = Ok _ |- _ =>
      apply guard_ok in H as [(? & -> & ?)|(? & [? ->] & ->)]
  end.

Ltac by_admits :=
  repeat match goal with H : admits _ _ = _ |- _ => rewrite H end.

(** What one iteration queues and reports. *)
Definition ops_of (u : Update) (g : option GRef) : list TxnOp :=
  match u with
  | Write n o p => if admits p (g ≫= target) then [SetTarget n o] else []
  | Delete n p => if g is Some g then if admits p (target g) then [Remove n] else [] else []
  end.

(** The report: an update that was made, or the reason it was not; deleting
    what is not there is a no-op unless it had to be. *)
Definition report_ok (u : Update) (g : option GRef) (us : list Updated)
    (rs : list (PreviousError Oid)) : Prop :=
  match u with
  | Write n o p =>
      if admits p (g ≫= target) then us = [Written n o] /\ rs = [] else us = [] /\ exists e, rs = [e]
  | Delete n p =>
      match g with
      | Some g =>
          exists o, target g = Some o /\
            if admits p (Some o) then us = [Deleted n o] /\ rs = [] else us = [] /\ exists e, rs = [e]
      | None => us = [] /\ if admits p None then rs = [] else rs = [DidNotExist]
      end
  end.

Lemma update_one_ok refs u t a t' a' :
  update_one refs u (t, a) = Ok (t', a') ->
  queue t' = queue t ++ ops_of u (refs !! name_of u) /\
  exists us rs, a' = MkApplied (updates a ++ us) (rejections a ++ rs) /\
    report_ok u (refs !! name_of u) us rs.
Proof.
  unfold update_one. destruct u as [n o p|n p]; cbn [name_of]; intros Hu; inv_res.
  - destruct x1 as [rej t2]. txn_ok; subst; simplify_eq; simpl; by_admits.
    + split; [congruence|]. exists [Written n o], []. by rewrite app_nil_r.
    + rewrite app_nil_r. split; [congruence|]. eexists [], _. rewrite app_nil_r. eauto.
  - txn_ok; subst. destruct (refs !! n) as [g|].
    + inv_res. destruct x0 as [rej t2]. inv_res. unfold ok_or in *.
      destruct (target g) as [o|] eqn:Hg; simplify_eq. simpl.
      txn_ok; simplify_eq; simpl; by_admits.
      * split; [congruence|]. eexists [Deleted n _], []. rewrite app_nil_r.
        split; [done|]. eexists. split; [done|]. by_admits. done.
      * rewrite app_nil_r. split; [congruence|]. eexists [], _. rewrite app_nil_r.
        split; [done|]. eexists. split; [done|]. by_admits. eauto.
    + rewrite app_nil_r. destruct p; simplify_eq; (split; [congruence|]);
        first [exists [], []; rewrite !app_nil_r; by destruct a'
              |exists [], [DidNotExist]; by rewrite app_nil_r].
Qed.

Definition ops_of_all (refs : refs_t) (us : list Update) : list TxnOp :=
  flat_map (fun u => ops_of u (refs !! name_of u)) us.

Lemma update_loop_queue refs us : forall t a t' a',
  update_loop refs us (t, a) = Ok (t', a') -> queue t' = queue t ++ ops_of_all refs us.
Proof.
  induction us as [|u us IH]; intros t a t' a' Hu; cbn [update_loop] in Hu.
  - simplify_eq. by rewrite app_nil_r.
  - inv_res. destruct x as [t1 a1]. apply IH in Hu.
    match goal with H : update_one _ _ _ = _ |- _ => apply update_one_ok in H as [Hq _] end.
    rewrite Hu, Hq. unfold ops_of_all. simpl. by rewrite app_assoc.
Qed.

Lemma commit_all t ops : forall refs refs',
  commit t ops refs = (true, refs') -> refs' = foldl apply_op refs ops.
Proof.
  induction ops as [|op ops IH]; intros refs refs' Hc; simpl in Hc; [by simplify_eq|].
  case_match; [done|]. by apply IH.
Qed.

(** The change an update makes to its own reference, on top of what earlier
    updates of the batch queued; conditions are checked on [g], the reference
    before the batch. *)
Definition queued (g acc : option GRef) (u : Update) : option GRef :=
  match ops_of u g with
  | [] => acc
  | SetTarget _ o :: _ => Some (Direct o)
  | Remove _ :: _ => None
  end.

Lemma ops_of_lookup u g refs n :
  foldl apply_op refs (ops_of u g) !! n =
  if decide (name_of u = n) then queued g (refs !! n) u else refs !! n.
Proof.
  unfold queued. destruct u as [m o p|m p]; simpl; unfold op_name; case_decide; subst.
  - case_match; simpl; [by rewrite lookup_insert_eq|done].
  - case_match; simpl; [by rewrite lookup_insert_ne|done].
  - destruct g as [g|]; [|done]. case_match; simpl; [by rewrite lookup_delete_eq|done].
  - destruct g as [g|]; [|done]. case_match; simpl; [by rewrite lookup_delete_ne|done].
Qed.

Lemma ops_of_all_lookup orig us n : forall refs,
  foldl apply_op refs (ops_of_all orig us) !! n =
  foldl (queued (orig !! n)) (refs !! n) (filter (fun u => name_of u = n) us).
Proof.
  unfold ops_of_all. induction us as [|u us IH]; intros refs; [done|]. simpl.
  rewrite foldl_app, IH, ops_of_lookup, filter_cons.
  case_decide as Hd; [|done]. simpl. by rewrite Hd.
Qed.

(** The reference database after a successful update, and after a failed one. *)
Lemma update_ok us refs a refs' :
  update us refs = (Ok a, refs') ->
  forall n, refs' !! n = foldl (queued (refs !! n)) (refs !! n) (filter (fun u => name_of u = n) us).
Proof.
  unfold update. intros Hu n. case_match; [done|].
  destruct (update_loop refs us _) as [[t a']|e] eqn:El; [|done].
  destruct (commit t (queue t) refs) as [[] r] eqn:Ec; simplify_eq.
  apply commit_all in Ec. apply update_loop_queue in El. simpl in El.
  rewrite Ec, El. apply ops_of_all_lookup.
Qed.

Lemma update_err us refs e refs' :
  update us refs = (Err e, refs') -> e <> Commit -> refs' = refs.
Proof.
  unfold update. intros Hu He. case_match; [by simplify_eq|].
  destruct (update_loop refs us _) as [[t a']|e'] eqn:El; [|by simplify_eq].
  destruct (commit t (queue t) refs) as [[] r] eqn:Ec; simplify_eq.
Qed.

(** A single update. *)
Lemma update_single u refs a refs' :
  update [u] refs = (Ok a, refs') ->
  refs' = match ops_of u (refs !! name_of u) with
          | [] => refs
          | op :: _ => apply_op refs op
          end /\
  report_ok u (refs !! name_of u) (updates a) (rejections a).
Proof.
  unfold update. intros Hu. case_match; [done|].
  destruct (update_loop refs [u] _) as [[t a']|e] eqn:El; [|done].
  destruct (commit t (queue t) refs) as [[] r] eqn:Ec; simplify_eq.
  apply commit_all in Ec. cbn [update_loop] in El. inv_res.
  match goal with H : update_one _ _ _ = _ |- _ =>
    apply update_one_ok in H as (Hq & us & rs & -> & Hr) end.
  simpl in *. split; [|done]. rewrite Hq. unfold ops_of. clear.
  destruct u as [n o p|n p]; [by case_match|]. case_match; [|done]. by case_match.
Qed.
End Refdb.

(** ** The object store of configurations *)

(** [odb::Read] and [odb::Write]: a configuration that was written is found
    under the id returned, and writing loses nothing. *)
Class Odb (D C : Type) := {
  write_config : C -> D -> option (Oid * D);
  find_config : Oid -> D -> option (option C);
  write_find c d o d' : write_config c d = Some (o, d') -> find_config o d' = Some (Some c);
  write_keeps c d o d' o' c' : write_config c d = Some (o, d') ->
    find_config o' d = Some (Some c') -> find_config o' d' = Some (Some c');
}.

(** [Write::modify_config] of [librad/src/git/tracking/odb.rs]. *)
Definition modify_config `{Odb D C} (oid : Oid) (f : C -> C) (d : D) : option (Oid * D) :=
  found ← find_config oid d;
  c ← found;
  write_config (f c) d.

(** ** The operations *)

Record Db (D X : Type) := MkDb { refs : gmap RefName GRef; objects : D; others : X }.
Arguments MkDb {D X} refs objects others.
Arguments refs {D X} d.
Arguments objects {D X} d.
Arguments others {D X} d.

Inductive OpError : Type :=
| EWriteObj (name : RefName)
| ECreate (name : RefName) (e : TxnError)
| EModifyMissing (name : RefName)
| EModifyObj (name : RefName) (target : Oid)
| EWriteRef (name : RefName) (object : Oid) (e : TxnError)
| EDelete (name : RefName) (e : TxnError)
| EPrune (name : RefName)
| EFindRef (name : RefName) (e : TxnError)
| EFindObj (name : RefName) (target : Oid)
| EIter (e : TxnError)
| EReferences
| EMissingRef (name : RefName)
| ETxn (e : TxnError).

Inductive Tracked (C : Type) : Type :=
| TrackedDefault (u : Urn) (config : C)
| TrackedPeer (u : Urn) (peer : PeerId) (config : C).
Arguments TrackedDefault {C} u config.
Arguments TrackedPeer {C} u peer config.

Record Untracked (P : Type) := MkUntracked { previous : option Oid; pruned : option P }.
Arguments MkUntracked {P} _ _.
Arguments previous {P} _.
Arguments pruned {P} _.

Record UntrackArgs := MkUntrackArgs { ua_policy : Untrack; ua_prune : bool }.
Definition untrack_args_default : UntrackArgs := MkUntrackArgs UntrackMustExist false.

Record UntrackAllArgs := MkUntrackAllArgs { uaa_policy : UntrackAll; uaa_prune : bool }.
Definition untrack_all_args_default : UntrackAllArgs :=
  MkUntrackAllArgs AllMustExistAndMatch false.

(** [refdb::Prune]: deletes the references of a remote, outside the tracking
    namespace. *)
Class Prune (X P : Type) := prune : Urn -> option PeerId -> X -> option P * X.

Section Ops.
Context {D C X P : Type} `{Git2} `{Odb D C} `{Prune X P}.
Implicit Types db : Db D X.

Definition set_refs db r : Db D X := MkDb r (objects db) (others db).
Definition set_objects db o : Db D X := MkDb (refs db) o (others db).
Definition set_others db o : Db D X := MkDb (refs db) (objects db) o.

(** The result of a single write: [panic!] on a deletion, [unwrap] on neither
    an update nor a rejection. *)
Definition written (a : Applied) : outcome (result (PreviousError Oid) Ref) :=
  match updates a with
  | Written name target :: _ => Done (Ok (MkRef name target))
  | Deleted _ _ :: _ => Panic
  | [] => e ← unwrap (head (rejections a)); Done (Err e)
  end.

Definition track (u : Urn) (peer : option PeerId) (c : C) (policy : Track) db :
    outcome (result OpError (result (PreviousError Oid) Ref) * Db D X) :=
  let reference := refname_new u peer in
  match write_config c (objects db) with
  | None => Done (Err (EWriteObj reference), db)
  | Some (target, d) =>
      let db := set_objects db d in
      match update [Write reference target (previous_of_track policy)] (refs db) with
      | (Err e, r) => Done (Err (ECreate reference e), set_refs db r)
      | (Ok a, r) => x ← written a; Done (Ok x, set_refs db r)
      end
  end.

Definition modify (u : Urn) (peer : option PeerId) (f : C -> C) db :
    outcome (result OpError (result (PreviousError Oid) Ref) * Db D X) :=
  let name := refname_new u peer in
  match find_reference name (refs db) with
  | Err e => Done (Err (EFindRef name e), db)
  | Ok None => Done (Err (EModifyMissing name), db)
  | Ok (Some r) =>
      match modify_config (r_target r) f (objects db) with
      | None => Done (Err (EModifyObj name (r_target r)), db)
      | Some (new, d) =>
          let db := set_objects db d in
          match update [Write name new (PMustExistAndMatch (r_target r))] (refs db) with
          | (Err e, r) => Done (Err (EWriteRef name new e), set_refs db r)
          | (Ok a, r) => x ← written a; Done (Ok x, set_refs db r)
          end
      end
  end.

Definition untrack (u : Urn) (peer : PeerId) (args : UntrackArgs) db :
    outcome (result OpError (result (PreviousError Oid) (Untracked P)) * Db D X) :=
  let reference := refname_new u (Some peer) in
  match update [Delete reference (previous_of_untrack (ua_policy args))] (refs db) with
  | (Err e, r) => Done (Err (EDelete reference e), set_refs db r)
  | (Ok a, r) =>
      let db := set_refs db r in
      prev ←
        match updates a with
        | Deleted _ previous :: _ => Done (Ok (Some previous))
        | Written _ _ :: _ => Panic
        | [] => match rejections a with
                | rejection :: _ => Done (Err rejection)
                | [] => Done (Ok None)
                end
        end;
      if ua_prune args then
        match prune u (Some peer) (others db) with
        | (None, x) => Done (Err (EPrune reference), set_others db x)
        | (Some p, x) =>
            Done (Ok (match prev with
                      | Ok previous => Ok (MkUntracked previous (Some p))
                      | Err e => Err e
                      end), set_others db x)
        end
      else
        Done (Ok (match prev with
                  | Ok previous => Ok (MkUntracked previous None)
                  | Err e => Err e
                  end), db)
  end.

(** What [remotes_refspec] matches: [refs/rad/remotes/<urn>/*] or, without a
    filter, [refs/rad/remotes/*]. *)
Definition remotes_refspec (filter_by : option Urn) (name : RefName) : bool :=
  match filter_by with Some u => bool_decide (urn_id (urn name) = urn_id u) | None => true end.

(** [convert]: a symbolic reference yields an error item. *)
Definition convert (p : RefName * GRef) : result TxnError Ref :=
  match target p.2 with Some o => Ok (MkRef p.1 o) | None => Err SymbolicRef end.

(** [Read::references] *)
Definition references (filter_by : option Urn) (r : gmap RefName GRef) : list (result TxnError Ref) :=
  convert <$> filter (fun p => remotes_refspec filter_by p.1 = true) (iter_refs r).

Definition from_reference (name : RefName) (c : C) : Tracked C :=
  match remote name with
  | RDefault => TrackedDefault (urn name) c
  | RPeer peer => TrackedPeer (urn name) peer c
  end.

Definition get (u : Urn) (peer : option PeerId) db : result OpError (option (Tracked C)) :=
  let name := refname_new u peer in
  match find_reference name (refs db) with
  | Err e => Err (EFindRef name e)
  | Ok None => Ok None
  | Ok (Some reference) =>
      match find_config (r_target reference) (objects db) with
      | None => Err (EFindObj (r_name reference) (r_target reference))
      | Some None => Ok None
      | Some (Some c) => Ok (Some (from_reference name c))
      end
  end.

Definition is_tracked (u : Urn) (peer : option PeerId) db : result OpError bool :=
  let name := refname_new u peer in
  match find_reference name (refs db) with
  | Err e => Err (EFindRef name e)
  | Ok None => Ok false
  | Ok (Some _) => Ok true
  end.

(** The updates of [untrack_all]: [collect] stops at the first error item. *)
Fixpoint deletions (policy : UntrackAll) (items : list (result TxnError Ref)) :
    result TxnError (list Update) :=
  match items with
  | [] => Ok []
  | r :: items =>
      r ← r;
      us ← deletions policy items;
      Ok (Delete (r_name r) (into_previous_value policy (r_target r)) :: us)
  end.

Fixpoint deleted_names (us : list Updated) : outcome (list (result (PreviousError Oid) RefName)) :=
  match us with
  | [] => Done []
  | Written _ _ :: _ => Panic
  | Deleted name _ :: us => ns ← deleted_names us; Done (Ok name :: ns)
  end.

Definition untrack_all (u : Urn) (args : UntrackAllArgs) db :
    outcome (result OpError (list (result (PreviousError Oid) RefName) * option P) * Db D X) :=
  match deletions (uaa_policy args) (references (Some u) (refs db)) with
  | Err e => Done (Err (EIter e), db)
  | Ok us =>
      match update us (refs db) with
      | (Err e, r) => Done (Err (ETxn e), set_refs db r)
      | (Ok a, r) =>
          let db := set_refs db r in
          names ← deleted_names (updates a);
          let untracked := names ++ (Err <$> rejections a) in
          if uaa_prune args then
            match prune u None (others db) with
            | (None, x) => Done (Err (EPrune (refname_new u None)), set_others db x)
            | (Some p, x) => Done (Ok (untracked, Some p), set_others db x)
            end
          else Done (Ok (untracked, None), db)
      end
  end.

(** [TrackedEntries::resolve], with the configurations seen so far. *)
Definition resolve (seen : gmap Oid C) (reference : Ref) db :
    result OpError (option (Tracked C)) * gmap Oid C :=
  match seen !! r_target reference with
  | Some c => (Ok (Some (from_reference (r_name reference) c)), seen)
  | None =>
      match find_config (r_target reference) (objects db) with
      | None => (Err (EFindObj (r_name reference) (r_target reference)), seen)
      | Some None => (Ok None, seen)
      | Some (Some c) =>
          (Ok (Some (from_reference (r_name reference) c)), <[r_target reference := c]> seen)
      end
  end.

(** What a consumer of [TrackedEntries] gets: [next] returns [None], and the
    consumer stops, at the end of the references or at one whose blob is
    missing. *)
Fixpoint tracked_entries (seen : gmap Oid C) (items : list (result TxnError Ref)) db :
    list (result OpError (Tracked C)) :=
  match items with
  | [] => []
  | Err e :: items => Err (EIter e) :: tracked_entries seen items db
  | Ok reference :: items =>
      match resolve seen reference db with
      | (Err e, seen) => Err e :: tracked_entries seen items db
      | (Ok (Some t), seen) => Ok t :: tracked_entries seen items db
      | (Ok None, _) => []
      end
  end.

Definition tracked (filter_by : option Urn) db : list (result OpError (Tracked C)) :=
  tracked_entries ∅ (references filter_by (refs db)) db.

(** [TrackedPeers]: the default entries are skipped. *)
Fixpoint peers_of (items : list (result TxnError Ref)) : list (result OpError PeerId) :=
  match items with
  | [] => []
  | Err e :: items => Err (EIter e) :: peers_of items
  | Ok reference :: items =>
      match remote_into (remote (r_name reference)) with
      | Some peer => Ok peer :: peers_of items
      | None => peers_of items
      end
  end.

Definition tracked_peers (filter_by : option Urn) db : list (result OpError PeerId) :=
  peers_of (references filter_by (refs db)).

Fixpoint default_only_loop (seen_default : bool) (items : list (result TxnError Ref)) :
    result OpError bool :=
  match items with
  | [] => Ok seen_default
  | Err e :: _ => Err (EIter e)
  | Ok reference :: items =>
      match remote (r_name reference) with
      | RDefault => default_only_loop true items
      | RPeer _ => Ok false
      end
  end.

Definition default_only (u : Urn) db : result OpError bool :=
  default_only_loop false (references (Some u) (refs db)).
End Ops.

(** ** The entries: what the database stands for *)
Section Refinement.
Context {D C X P : Type} `{Git2} `{Odb D C} `{Prune X P}.
Implicit Types db : Db D X.

Definition config_at (d : D) (g : option GRef) : option C :=
  match g with
  | Some (Direct o) => match find_config o d with Some (Some c) => Some c | _ => None end
  | _ => None
  end.

(** The abstract state: the configuration an URN is tracked with for a peer,
    or by default. *)
Definition entry db (u : Urn) (peer : option PeerId) : option C :=
  config_at (objects db) (refs db !! refname_new u peer).

(** Every tracking reference points to a configuration. *)
Definition db_ok db : Prop :=
  forall n g, refs db !! n = Some g -> is_Some (config_at (objects db) (Some g)).

Lemma entry_some db u peer :
  db_ok db -> (is_Some (entry db u peer) <-> is_Some (refs db !! refname_new u peer)).
Proof.
  intros Hok. unfold entry. destruct (refs db !! refname_new u peer) as [g|] eqn:E.
  - split; [by eexists|]. intros _. by eapply Hok.
  - split; by intros [? ?].
Qed.

Lemma db_ok_target db n g : db_ok db -> refs db !! n = Some g -> exists o, g = Direct o.
Proof. intros Hok Hn. destruct (Hok _ _ Hn) as [c Hc]. destruct g; [by eexists|done]. Qed.

Lemma config_at_write d c o d' g x :
  write_config c d = Some (o, d') -> config_at d g = Some x -> config_at d' g = Some x.
Proof.
  intros Hw. destruct g as [[o'|]|]; simpl; try done. destruct (find_config o' d) as [[c'|]|] eqn:E;
    intros; simplify_eq. by rewrite (write_keeps c d o d' o' x Hw E).
Qed.

Lemma db_ok_write db c o d' :
  db_ok db -> write_config c (objects db) = Some (o, d') -> db_ok (set_objects db d').
Proof.
  intros Hok Hw n g Hn. destruct (Hok n g Hn) as [x Hx]. exists x. by eapply config_at_write.
Qed.

Lemma entry_write db c o d' u peer :
  db_ok db -> write_config c (objects db) = Some (o, d') ->
  entry (set_objects db d') u peer = entry db u peer.
Proof.
  intros Hok Hw. unfold entry. simpl. destruct (refs db !! refname_new u peer) as [g|] eqn:E; [|done].
  destruct (Hok _ _ E) as [x Hx]. rewrite Hx. by eapply config_at_write.
Qed.

Lemma admits_track p (g : option GRef) :
  (forall x, g = Some x -> exists o, x = Direct o) ->
  admits (previous_of_track p) (g ≫= target) =
    match p with TrackAny => true | TrackMustExist => bool_decide (is_Some g)
               | TrackMustNotExist => negb (bool_decide (is_Some g)) end.
Proof.
  intros Hg. destruct g as [x|]; [destruct (Hg x eq_refl) as [o ->]|]; by destruct p.
Qed.

(** The database after a single write that was not a failure. *)
Lemma track_update_spec u peer c p db o d' a r' :
  db_ok db -> write_config c (objects db) = Some (o, d') ->
  update [Write (refname_new u peer) o (previous_of_track p)] (refs db) = (Ok a, r') ->
  let db' := MkDb r' d' (others db) in
  db_ok db' /\
  entry db' u peer = effect (inl (MkWithConfig p c)) (entry db u peer) /\
  (forall u' peer', refname_new u' peer' <> refname_new u peer ->
     entry db' u' peer' = entry db u' peer') /\
  exists x, written a = Done x /\
    is_ok x = admits (previous_of_track p) (refs db !! refname_new u peer ≫= target).
Proof.
  intros Hok Hw Hu db'.
  pose proof (db_ok_write db c o d' Hok Hw) as Hok1.
  pose proof (fun u peer => entry_write db c o d' u peer Hok Hw) as He1.
  pose proof (entry_some db u peer Hok) as Hes.
  apply update_single in Hu as [Hr' Hrep]. cbn [name_of ops_of report_ok] in *.
  assert (forall x, refs db !! refname_new u peer = Some x -> exists o, x = Direct o) as Hdir.
  { intros x Hx. by eapply db_ok_target. }
  rewrite (admits_track p _ Hdir) in *.
  set (b := match p with TrackAny => true | TrackMustExist => _ | TrackMustNotExist => _ end) in *.
  assert (effect (inl (MkWithConfig p c)) (entry db u peer) =
    if b then Some c else entry db u peer) as ->.
  { unfold b. destruct p; [done|..]; case_bool_decide as Hb; rewrite <- Hes in Hb;
      destruct (entry db u peer); try done;
      first [by destruct Hb|by exfalso; apply Hb; eexists]. }
  destruct b; subst r'.
  - destruct Hrep as [Hup Hre]. split_and!.
    + intros n g Hn. simpl in Hn. apply lookup_insert_Some in Hn as [[<- <-]|[_ Hn]].
      * simpl. by rewrite (write_find c (objects db) o d' Hw).
      * by apply (Hok1 n g).
    + unfold entry, db'. simpl. rewrite lookup_insert_eq. simpl.
      by rewrite (write_find c (objects db) o d' Hw).
    + intros u' peer' Hne. rewrite <- He1. unfold entry, db'. simpl. by rewrite lookup_insert_ne.
    + unfold written. rewrite Hup. by eexists.
  - destruct Hrep as [Hup [e Hre]]. split_and!.
    + done.
    + apply He1.
    + intros. apply He1.
    + unfold written. rewrite Hup, Hre. by eexists.
Qed.

(** The database after a single deletion that was not a failure. *)
Lemma untrack_update_spec u peer p db a r' :
  db_ok db ->
  update [Delete (refname_new u (Some peer)) (previous_of_untrack p)] (refs db) = (Ok a, r') ->
  let db' := MkDb r' (objects db) (others db) in
  db_ok db' /\ entry db' u (Some peer) = None /\
  (forall u' peer', refname_new u' peer' <> refname_new u (Some peer) ->
     entry db' u' peer' = entry db u' peer') /\
  match entry db u (Some peer), p with
  | Some _, _ => exists o, updates a = [Deleted (refname_new u (Some peer)) o] /\ rejections a = []
  | None, UntrackAny => updates a = [] /\ rejections a = []
  | None, UntrackMustExist => updates a = [] /\ rejections a = [DidNotExist]
  end.
Proof.
  intros Hok Hu db'. pose proof (entry_some db u (Some peer) Hok) as Hes.
  apply update_single in Hu as [Hr' Hrep]. cbn [name_of ops_of report_ok] in *. unfold db'. clear db'.
  destruct (refs db !! refname_new u (Some peer)) as [g|] eqn:E.
  - destruct (db_ok_target db _ _ Hok E) as [o ->]. cbn [target] in *.
    assert (admits (previous_of_untrack p) (Some o) = true) as Ha by (by destruct p).
    rewrite Ha in *. subst r'. destruct Hrep as (o' & [= <-] & Hrep). rewrite Ha in Hrep. split_and!.
    + intros n g Hn. simpl in Hn. apply lookup_delete_Some in Hn as [_ Hn]. by apply (Hok n g).
    + unfold entry. simpl. by rewrite lookup_delete_eq.
    + intros u' peer' Hne. unfold entry. simpl. by rewrite lookup_delete_ne.
    + destruct (entry db u (Some peer)); [by exists o|].
      destruct Hes as [_ Hes]. destruct Hes; [by eexists|done].
  - subst r'. assert (entry db u (Some peer) = None) as He by (unfold entry; by rewrite E).
    split_and!; try done. rewrite He. by destruct p; destruct Hrep.
Qed.

(** *** Enumeration *)

Definition seen_ok (d : D) (seen : gmap Oid C) : Prop :=
  forall o c, seen !! o = Some c -> find_config o d = Some (Some c).

Lemma resolve_ok seen r db c :
  seen_ok (objects db) seen -> find_config (r_target r) (objects db) = Some (Some c) ->
  exists seen', resolve seen r db = (Ok (Some (from_reference (r_name r) c)), seen') /\
    seen_ok (objects db) seen'.
Proof.
  intros Hs Hf. unfold resolve. destruct (seen !! r_target r) as [c'|] eqn:E.
  - pose proof (Hs _ _ E). simplify_eq. by eexists.
  - rewrite Hf. eexists. split; [done|]. intros o x Ho.
    apply lookup_insert_Some in Ho as [[<- <-]|[_ Ho]]; [done|]. by apply Hs.
Qed.

Lemma tracked_entries_ok (l : list (RefName * GRef)) db : forall seen,
  seen_ok (objects db) seen ->
  Forall (fun p => is_Some (config_at (objects db) (Some p.2))) l ->
  tracked_entries seen (convert <$> l) db =
  omap (fun p => (fun c => Ok (from_reference p.1 c)) <$> config_at (objects db) (Some p.2)) l.
Proof.
  induction l as [|[n g] l IH]; intros seen Hs Hl; [done|].
  inversion_clear Hl as [|? ? [c Hc] Hl']. rewrite fmap_cons. cbn [omap list_omap snd fst] in *.
  rewrite Hc. simpl in Hc. destruct g as [o|]; [|done].
  destruct (find_config o (objects db)) as [[c'|]|] eqn:Hf; simplify_eq.
  change (convert (n, Direct o)) with (Ok (MkRef n o) : result TxnError Ref).
  cbn [tracked_entries].
  destruct (resolve_ok seen (MkRef n o) db c Hs Hf) as (seen' & -> & Hs').
  cbn. f_equal. by apply IH.
Qed.

(** *** When nothing fails *)
Definition quiet : Prop := forall t c, git_fails t c = false.

Lemma commit_quiet t ops : quiet -> forall r, commit t ops r = (true, foldl apply_op r ops).
Proof. intros Hq. induction ops as [|op ops IH]; intros r; simpl; [done|]. by rewrite Hq. Qed.

Lemma guard_total {S E} (p : PreviousValue Oid) prev (f : S -> result E S) s s' :
  f s = Ok s' -> exists rs, guard p prev f s = Ok rs.
Proof.
  intros Hf. destruct p as [| | |e|e], prev; simpl; try case_bool_decide; rewrite ?Hf; simpl;
    by eexists.
Qed.

Lemma update_one_total r u st :
  quiet -> (forall g, r !! name_of u = Some g -> exists o, g = Direct o) ->
  exists st', update_one r u st = Ok st'.
Proof.
  intros Hq Hd. destruct st as [t a]. unfold update_one, lock_ref, read_ref.
  destruct u as [n o p|n p]; rewrite !Hq; cbn [mbind result_bind name_of] in *; rewrite ?Hq.
  - cbn [mbind result_bind].
    destruct (guard_total p (r !! n ≫= target) (set_target n o)
      (MkTxn (n :: locked t) (queue t)) (MkTxn (n :: locked t) (queue t ++ [SetTarget n o])))
      as [[rej t'] ->]; [unfold set_target; by rewrite Hq|]. by eexists.
  - cbn [mbind result_bind]. destruct (r !! n) as [g|] eqn:E.
    + destruct (Hd g eq_refl) as [o ->]. simpl.
      destruct (guard_total p (Some o) (remove n)
        (MkTxn (n :: locked t) (queue t)) (MkTxn (n :: locked t) (queue t ++ [Remove n])))
        as [[rej t'] ->]; [unfold remove; by rewrite Hq|]. by eexists.
    + destruct p; by eexists.
Qed.

Lemma update_total us db :
  quiet -> db_ok db -> exists a r', update us (refs db) = (Ok a, r').
Proof.
  intros Hq Hok. unfold update. rewrite Hq.
  assert (forall st, exists st', update_loop (refs db) us st = Ok st') as Hl.
  { induction us as [|u us IH]; intros st; cbn [update_loop]; [by eexists|].
    destruct (update_one_total (refs db) u st Hq) as [st' ->].
    { intros g Hg. by eapply db_ok_target. }
    apply IH. }
  destruct (Hl (MkTxn [] [], applied_default)) as [[t a] ->].
  rewrite commit_quiet by done. by do 2 eexists.
Qed.
End Refinement.

(** ** Properties *)
Section Properties.
Context {D C X P : Type} `{Git2} `{Odb D C} `{Prune X P}.

(** C28 [track_refines]: [track] never panics. When it reports an error, the
    references are unchanged unless the commit of the transaction itself failed;
    otherwise its effect on the entry is the one of its policy, all other
    entries are unchanged, every reference still points to a configuration, and
    it returns a reference exactly when the policy admits the previous value. *)
Theorem track_refines (u : Urn) (peer : option PeerId) (c : C) (p : Track) (db : Db D X)
    (Hok : db_ok db) :
  exists r db', track u peer c p db = Done (r, db') /\
    match r with
    | Err (ECreate _ Commit) => True
    | Err _ => refs db' = refs db
    | Ok x =>
        db_ok db' /\
        entry db' u peer = effect (inl (MkWithConfig p c)) (entry db u peer) /\
        (forall u' peer', urn_id u' <> urn_id u \/ peer' <> peer ->
           entry db' u' peer' = entry db u' peer') /\
        is_ok x = admits (previous_of_track p) (refs db !! refname_new u peer ≫= target)
    end.
Proof.
  unfold track. destruct (write_config c (objects db)) as [[o d']|] eqn:Hw.
  2: { by do 2 eexists. }
  destruct (update _ _) as [[a|e] r'] eqn:Hu.
  - destruct (track_update_spec u peer c p db o d' a r' Hok Hw Hu) as (? & ? & Hoth & x & Hx & ?).
    cbn [refs set_objects] in Hu. rewrite Hx. cbn [mbind outcome_bind].
    do 2 eexists. split; [done|]. split_and!; try done.
    intros u' peer' Hne. apply Hoth. rewrite refname_new_inj. intuition.
  - do 2 eexists. split; [done|]. destruct e; try done;
      by eapply update_err in Hu.
Qed.

(** [untrack_refines]: [untrack] never panics. When the deletion fails other than
    in the commit, the references are unchanged; when it does not fail, the entry
    is gone, all others are unchanged, and (pruning aside) the previous value is
    reported if there was one, nothing if there was none and the policy is [Any],
    and a rejection if there was none and it had to exist. *)
Theorem untrack_refines (u : Urn) (peer : PeerId) (args : UntrackArgs) (db : Db D X)
    (Hok : db_ok db) :
  exists r db', untrack u peer args db = Done (r, db') /\
    match r with
    | Err (EDelete _ Commit) => True
    | Err (EDelete _ _) => refs db' = refs db
    | _ =>
        db_ok db' /\ entry db' u (Some peer) = None /\
        (forall u' peer', urn_id u' <> urn_id u \/ peer' <> Some peer ->
           entry db' u' peer' = entry db u' peer') /\
        match r with
        | Ok (Ok x) => is_Some (previous x) <-> is_Some (entry db u (Some peer))
        | Ok (Err e) => e = DidNotExist /\ ua_policy args = UntrackMustExist /\
                        entry db u (Some peer) = None
        | Err e => e = EPrune (refname_new u (Some peer))
        end
    end.
Proof.
  unfold untrack. destruct (update _ _) as [[a|e] r'] eqn:Hu.
  2: { do 2 eexists. split; [done|]. destruct e; try done; by eapply update_err in Hu. }
  destruct (untrack_update_spec u peer (ua_policy args) db a r' Hok Hu) as (Hok' & He & Hoth & Hrep).
  assert (forall (x : X) u' peer', urn_id u' <> urn_id u \/ peer' <> Some peer ->
    entry (MkDb r' (objects db) x) u' peer' = entry db u' peer') as Hoth'.
  { intros x u' peer' Hne. apply Hoth. rewrite refname_new_inj. intuition. }
  destruct (entry db u (Some peer)) as [c|]; [destruct Hrep as (o & Hup & Hre)
    |destruct (ua_policy args); destruct Hrep as [Hup Hre]];
    rewrite ?Hup, ?Hre; cbn [mbind outcome_bind];
    (destruct (ua_prune args); [destruct (prune _ _ _) as [[pr|] x]|]);
    do 2 eexists; (split; [done|]); (split; [done|]; split; [done|]; split; [apply Hoth'|]);
    try done; simpl; split; intros Hs; first [by destruct Hs|by eexists].
Qed.

(** [tracked_complete]: in a database whose references all point to
    configurations, iterating over the tracked entries yields no error, and
    yields exactly the entries of the URN asked for (or all of them), each with
    its configuration. *)
Theorem tracked_complete (filter_by : option Urn) (db : Db D X) (Hok : db_ok db) :
  Forall (fun r => is_ok r = true) (tracked filter_by db) /\
  forall t, Ok t ∈ tracked filter_by db <->
    exists n c, t = from_reference n c /\ config_at (objects db) (refs db !! n) = Some c /\
      (filter_by = None \/ exists u, filter_by = Some u /\ urn_id u = urn_id (urn n)).
Proof.
  unfold tracked, references.
  assert (forall n g, (n, g) ∈ filter (fun p => remotes_refspec filter_by p.1 = true)
      (iter_refs (refs db)) <-> refs db !! n = Some g /\ remotes_refspec filter_by n = true) as Hin.
  { intros n g. rewrite list_elem_of_filter, iter_refs_perm, elem_of_map_to_list. simpl. intuition. }
  rewrite tracked_entries_ok; [|done|].
  2: { apply Forall_forall. intros [n g] Hn. apply Hin in Hn as [Hn _]. by apply (Hok n g). }
  assert (forall n, remotes_refspec filter_by n = true <->
    (filter_by = None \/ exists u, filter_by = Some u /\ urn_id u = urn_id (urn n))) as Hspec.
  { intros n. unfold remotes_refspec. destruct filter_by as [u|]; [|naive_solver].
    rewrite bool_decide_eq_true. naive_solver. }
  split.
  - apply Forall_forall. intros r Hr. apply list_elem_of_omap in Hr as ([n g] & _ & Hr).
    simpl in Hr. destruct (match g with Direct _ => _ | Symbolic => _ end); by simplify_eq/=.
  - intros t. rewrite list_elem_of_omap. split.
    + intros ([n g] & Hn & Hr). apply Hin in Hn as [Hn Hs].
      apply fmap_Some in Hr as (c & Hc & [= ->]). simpl in *.
      exists n, c. rewrite Hn. split; [done|]. split; [done|]. by apply Hspec.
    + intros (n & c & -> & Hc & Hs). destruct (refs db !! n) as [g|] eqn:Hn; [|done].
      exists (n, g). rewrite Hin, Hspec. split; [done|]. cbn [fst snd]. by rewrite Hc.
Qed.

(** [track_get]: when no libgit2 call fails and the configuration can be
    written, [track] with a policy that the entry satisfies succeeds and [get]
    returns the configuration that was tracked, for the same URN whatever its
    path. *)
Theorem track_get (u : Urn) (peer : option PeerId) (c : C) (p : Track) (db : Db D X)
    (path : option (list N)) (Hok : db_ok db) (Hq : quiet)
    (Hw : is_Some (write_config c (objects db)))
    (Hp : match p with
          | TrackAny => True
          | TrackMustExist => is_Some (entry db u peer)
          | TrackMustNotExist => entry db u peer = None
          end) :
  exists ref db', track u peer c p db = Done (Ok (Ok ref), db') /\
    get (MkUrn (urn_id u) path) peer db' =
      Ok (Some (from_reference (refname_new u peer) c)).
Proof.
  destruct Hw as [[o d'] Hw]. unfold track. rewrite Hw.
  destruct (update_total [Write (refname_new u peer) o (previous_of_track p)]
    (set_objects db d') Hq (db_ok_write db c o d' Hok Hw)) as (a & r' & Hu).
  cbn [refs set_objects] in *. rewrite Hu.
  destruct (track_update_spec u peer c p db o d' a r' Hok Hw Hu) as (Hok' & He & _ & x & -> & Hx).
  cbn [mbind outcome_bind]. rewrite admits_track in Hx.
  2: { intros g Hg. exact (db_ok_target db _ _ Hok Hg). }
  pose proof (entry_some db u peer Hok) as Hes.
  assert (is_ok x = true /\ entry (MkDb r' d' (others db)) u peer = Some c) as [Hxo Hec].
  { rewrite Hx, He. destruct p; [done|..].
    - rewrite Hp. split; [|done]. rewrite bool_decide_false; [done|].
      rewrite <- Hes, Hp. by intros [? ?].
    - destruct Hp as [y Hy]. rewrite Hy in *. split; [|done].
      apply bool_decide_eq_true, Hes. by eexists. }
  destruct x as [ref|]; [|done]. do 2 eexists. split; [done|].
  unfold get, find_reference. rewrite Hq.
  assert (refname_new (MkUrn (urn_id u) path) peer = refname_new u peer) as ->.
  { by apply refname_new_inj. }
  unfold entry, config_at in Hec. cbn [refs objects set_refs set_objects] in *.
  destruct (r' !! refname_new u peer) as [[o'|]|]; [|done..]. cbn [r_target].
  destruct (find_config o' d') as [[c'|]|]; by simplify_eq.
Qed.
End Properties.

(** *** A concrete database: configurations are numbers, stored under themselves. *)
#[export] Instance demo_git : Git2 :=
  {| git_fails := fun _ _ => false; iter_refs := map_to_list;
     iter_refs_perm := fun _ => reflexivity _ |}.

#[export] Instance demo_odb : Odb (gset N) N.
Proof.
  refine {| write_config := fun c d => Some (c, {[c]} ∪ d);
            find_config := fun o d => Some (if bool_decide (o ∈ d) then Some o else None) |}.
  - intros c d o d' [= <- <-]. by rewrite bool_decide_true by set_solver.
  - intros c d o d' o' c' [= <- <-] [= Ho]. case_bool_decide; simplify_eq.
    by rewrite bool_decide_true by set_solver.
Defined.

#[export] Instance demo_prune : Prune unit unit := fun _ _ x => (Some tt, x).

Definition demo_urn : Urn := MkUrn 7%N None.
Definition demo_db : Db (gset N) unit := MkDb {[refname_new demo_urn (Some 1%N) := Direct 5%N]} {[5%N]} tt.

Lemma demo_db_ok : db_ok demo_db.
Proof.
  intros n g Hn. unfold demo_db in Hn. cbn [refs] in Hn.
  apply lookup_singleton_Some in Hn as [<- <-]. by eexists.
Qed.

Lemma track_refines_witness :
  exists r db', track demo_urn (Some 1%N) 6%N TrackMustExist demo_db = Done (r, db') /\
    match r with
    | Err (ECreate _ Commit) => True
    | Err _ => refs db' = refs demo_db
    | Ok x =>
        db_ok db' /\
        entry db' demo_urn (Some 1%N) =
          effect (inl (MkWithConfig TrackMustExist 6%N)) (entry demo_db demo_urn (Some 1%N)) /\
        (forall u' peer', urn_id u' <> urn_id demo_urn \/ peer' <> Some 1%N ->
           entry db' u' peer' = entry demo_db u' peer') /\
        is_ok x = admits (previous_of_track TrackMustExist)
          (refs demo_db !! refname_new demo_urn (Some 1%N) ≫= target)
    end.
Proof. exact (track_refines demo_urn (Some 1%N) 6%N TrackMustExist demo_db demo_db_ok). Defined.

Lemma untrack_refines_witness :
  exists r db', untrack demo_urn 1%N untrack_args_default demo_db = Done (r, db') /\
    match r with
    | Err (EDelete _ Commit) => True
    | Err (EDelete _ _) => refs db' = refs demo_db
    | _ =>
        db_ok db' /\ entry db' demo_urn (Some 1%N) = None /\
        (forall u' peer', urn_id u' <> urn_id demo_urn \/ peer' <> Some 1%N ->
           entry db' u' peer' = entry demo_db u' peer') /\
        match r with
        | Ok (Ok x) => is_Some (previous x) <-> is_Some (entry demo_db demo_urn (Some 1%N))
        | Ok (Err e) => e = DidNotExist /\ UntrackMustExist = UntrackMustExist /\
                        entry demo_db demo_urn (Some 1%N) = None
        | Err e => e = EPrune (refname_new demo_urn (Some 1%N))
        end
    end.
Proof. exact (untrack_refines demo_urn 1%N untrack_args_default demo_db demo_db_ok). Defined.

Lemma tracked_complete_witness :
  Forall (fun r => is_ok r = true) (tracked (Some demo_urn) demo_db) /\
  Ok (TrackedPeer demo_urn 1%N 5%N) ∈ tracked (Some demo_urn) demo_db.
Proof.
  destruct (tracked_complete (Some demo_urn) demo_db demo_db_ok) as [Hf Ht]. split; [done|].
  apply Ht. exists (refname_new demo_urn (Some 1%N)), 5%N. split; [done|].
  split; [by vm_compute|]. right. by eexists.
Defined.

Lemma track_get_witness :
  exists ref db', track demo_urn None 6%N TrackMustNotExist demo_db = Done (Ok (Ok ref), db') /\
    get (MkUrn (urn_id demo_urn) (Some [1%N])) None db' =
      Ok (Some (from_reference (refname_new demo_urn None) 6%N)).
Proof.
  apply (track_get demo_urn None 6%N TrackMustNotExist demo_db (Some [1%N]));
    [apply demo_db_ok|done|by eexists|by vm_compute].
Defined.

(** [tracked_stops_at_missing]: an entry whose configuration blob is missing ends
    the iteration over the tracked entries: the entries that git lists after it
    are not yielded, although they are there. *)
Theorem tracked_stops_at_missing :
  exists db : Db (gset N) unit,
    is_tracked demo_urn (Some 1%N) db = Ok true /\
    is_tracked demo_urn (Some 2%N) db = Ok true /\
    get demo_urn (Some 2%N) db = Ok (Some (TrackedPeer demo_urn 2%N 5%N)) /\
    tracked (Some demo_urn) db = [].
Proof.
  exists (MkDb {[refname_new demo_urn (Some 1%N) := Direct 4%N;
                 refname_new demo_urn (Some 2%N) := Direct 5%N]} {[5%N]} tt).
  by vm_compute.
Qed.
