(* ===== verification/Batch.v ===== *)
(** * Batches of tracking actions

    [link-tracking/src/git/tracking/batch.rs].  A batch fuses the actions on the
    same entry by composing their policies, turns what is left into reference
    updates, and applies them in one transaction. *)
From stdpp Require Import base list gmap.
From Stdlib Require Import NArith Lia.
From S2P Require Import Prelude.
From S2P Require Import Policy.
From S2P Require Import Tracking.

(** [Ord for Urn] is derived. *)
#[export] Program Instance ord_urn : OrdKey Urn := {|
  key_le := fun u v => key_le (urn_id u, urn_path u) (urn_id v, urn_path v);
|}.
Next Obligation. intros u v. apply _. Defined.
Next Obligation. intros u v. apply (total key_le). Qed.
Next Obligation. intros u v w. apply (transitivity (R:=key_le)). Qed.
Next Obligation.
  intros [i p] [j q] H1 H2. pose proof (anti_symm key_le (i, p) (j, q) H1 H2). congruence.
Qed.

Inductive Action (C : Type) : Type :=
| ATrack (u : Urn) (peer : option PeerId) (config : C) (policy : Track)
| AUntrack (u : Urn) (peer : PeerId) (policy : Untrack).
Arguments ATrack {C} u peer config policy.
Arguments AUntrack {C} u peer policy.

Inductive BUpdated : Type :=
| BTracked (reference : Ref)
| BUntracked (reference : Ref).

Section Batch.
Context {C : Type}.
Abbreviation Entry := (WithConfig C + Untrack)%type.

Definition action_urn (a : Action C) : Urn := match a with ATrack u _ _ _ | AUntrack u _ _ => u end.
Definition action_peer (a : Action C) : option PeerId :=
  match a with ATrack _ p _ _ => p | AUntrack _ p _ => Some p end.

(** The fusion state: reductions per pair of URN and peer, and per URN for the
    default entries. *)
Record Fusion := MkFusion {
  pairs : gmap (Urn * PeerId) (Reduction Entry);
  defaults : gmap Urn (Reduction (WithConfig C));
}.

(** [entry(key).and_modify(compose).or_insert_with(into)]. *)
Definition fuse_at {K T} `{Countable K} `{Compose T T (Reduction T)} (k : K) (op : T)
    (m : gmap K (Reduction T)) : outcome (gmap K (Reduction T)) :=
  match m !! k with
  | Some r => r ← red_compose r op; Done (<[k := r]> m)
  | None => Done (<[k := Simple op]> m)
  end.

Definition fuse_step (f : Fusion) (a : Action C) : outcome Fusion :=
  match a with
  | ATrack u None c p =>
      d ← fuse_at u (MkWithConfig p c) (defaults f); Done (MkFusion (pairs f) d)
  | ATrack u (Some peer) c p =>
      ps ← fuse_at (u, peer) (inl (MkWithConfig p c) : Entry) (pairs f);
      Done (MkFusion ps (defaults f))
  | AUntrack u peer p =>
      ps ← fuse_at (u, peer) (inr p : Entry) (pairs f); Done (MkFusion ps (defaults f))
  end.

Fixpoint fuse_loop (f : Fusion) (acts : list (Action C)) : outcome Fusion :=
  match acts with
  | [] => Done f
  | a :: acts => f ← fuse_step f a; fuse_loop f acts
  end.

Definition pair_action (k : Urn * PeerId) (e : Entry) : Action C :=
  match e with
  | inl w => ATrack k.1 (Some k.2) (config w) (policy w)
  | inr p => AUntrack k.1 k.2 p
  end.

Definition default_action (u : Urn) (w : WithConfig C) : Action C :=
  ATrack u None (config w) (policy w).

Definition fuse (acts : list (Action C)) : outcome (list (Action C)) :=
  f ← fuse_loop (MkFusion ∅ ∅) acts;
  Done (flat_map (fun '(k, r) => pair_action k <$> red_into_iter r) (btree_iter (pairs f)) ++
        flat_map (fun '(u, r) => default_action u <$> red_into_iter r) (btree_iter (defaults f))).
End Batch.
Arguments Fusion C : clear implicits.

Section IntoUpdates.
Context {D C X : Type} `{Git2} `{Odb D C} `{Countable C}.

(** [target]: the configurations written so far are cached. *)
Definition target_of (cache : gmap C Oid) (name : RefName) (c : C) (d : D) :
    result OpError Oid * gmap C Oid * D :=
  match cache !! c with
  | Some o => (Ok o, cache, d)
  | None =>
      match write_config c d with
      | None => (Err (EWriteObj name), cache, d)
      | Some (o, d') => (Ok o, <[c := o]> cache, d')
      end
  end.

(** The reference a policy requires to exist. *)
Definition require_ref (name : RefName) (refs : gmap RefName GRef) : result OpError Ref :=
  match find_reference name refs with
  | Err e => Err (EFindRef name e)
  | Ok None => Err (EMissingRef name)
  | Ok (Some r) => Ok r
  end.

Definition into_update (refs : gmap RefName GRef) (a : Action C) (cache : gmap C Oid) (d : D) :
    result OpError Update * gmap C Oid * D :=
  match a with
  | ATrack u peer c p =>
      let name := refname_new u peer in
      let write previous :=
        match target_of cache name c d with
        | (Err e, cache, d) => (Err e, cache, d)
        | (Ok t, cache, d) => (Ok (Write name t previous), cache, d)
        end in
      match p with
      | TrackAny => write PAny
      | TrackMustExist =>
          match require_ref name refs with
          | Err e => (Err e, cache, d)
          | Ok r => write (PMustExistAndMatch (r_target r))
          end
      | TrackMustNotExist => write PMustNotExist
      end
  | AUntrack u peer p =>
      let name := refname_new u (Some peer) in
      match p with
      | UntrackAny => (Ok (Delete name (previous_of_untrack p)), cache, d)
      | UntrackMustExist =>
          match require_ref name refs with
          | Err e => (Err e, cache, d)
          | Ok r => (Ok (Delete name (PMustExistAndMatch (r_target r))), cache, d)
          end
      end
  end.

(** [into_updates(..).collect::<Result<Vec<_>, _>>()]. *)
Fixpoint into_updates (refs : gmap RefName GRef) (acts : list (Action C)) (cache : gmap C Oid)
    (d : D) : result OpError (list Update) * D :=
  match acts with
  | [] => (Ok [], d)
  | a :: acts =>
      match into_update refs a cache d with
      | (Err e, _, d) => (Err e, d)
      | (Ok u, cache, d) =>
          match into_updates refs acts cache d with
          | (Ok us, d) => (Ok (u :: us), d)
          | (Err e, d) => (Err e, d)
          end
      end
  end.

Definition updated_from (u : Updated) : BUpdated :=
  match u with
  | Written name t => BTracked (MkRef name t)
  | Deleted name prev => BUntracked (MkRef name prev)
  end.

Definition batch (acts : list (Action C)) (db : Db D X) :
    outcome (result OpError (list BUpdated * list (PreviousError Oid)) * Db D X) :=
  fused ← fuse acts;
  let '(us, d) := into_updates (refs db) fused ∅ (objects db) in
  let db := set_objects db d in
  match us with
  | Err e => Done (Err e, db)
  | Ok us =>
      match update us (refs db) with
      | (Err e, r) => Done (Err (ETxn e), set_refs db r)
      | (Ok a, r) => Done (Ok (updated_from <$> updates a, rejections a), set_refs db r)
      end
  end.
End IntoUpdates.

(** ** The fusion is sound *)
Section FuseSpec.
Context {C : Type}.
Abbreviation Entry := (WithConfig C + Untrack)%type.

(** The actions of a batch on one entry, in order. *)
Definition entry_op (a : Action C) : Entry :=
  match a with ATrack _ _ c p => inl (MkWithConfig p c) | AUntrack _ _ p => inr p end.

Definition action_key (a : Action C) : Urn * option PeerId := (action_urn a, action_peer a).

Definition ops_on (k : Urn * option PeerId) (acts : list (Action C)) : list Entry :=
  entry_op <$> filter (fun a => action_key a = k) acts.

(** Default entries are only ever tracked; their reductions embed. *)
Definition red_inl (r : Reduction (WithConfig C)) : Reduction Entry :=
  match r with Simple w => Simple (inl w) | Stuck f s => Stuck (inl f) (inl s) end.

Lemma compose_inl (a b : WithConfig C) :
  (compose (inl a : Entry) (inl b : Entry) : Reduction Entry) = red_inl (compose a b).
Proof. by destruct a as [[] ?], b as [[] ?]. Qed.

Lemma red_compose_inl r (w : WithConfig C) :
  red_compose (red_inl r) (inl w) =
    match red_compose r w with Done r' => Done (red_inl r') | Panic => Panic end.
Proof.
  destruct r as [a|f s]; simpl; [by rewrite compose_inl|]. rewrite compose_inl.
  destruct (compose s w : Reduction (WithConfig C)); simpl; [by rewrite compose_inl|done].
Qed.

(** The reduction held for a key. *)
Definition fused_at (f : Fusion C) (k : Urn * option PeerId) : option (Reduction Entry) :=
  match k with
  | (u, Some p) => pairs f !! (u, p)
  | (u, None) => red_inl <$> defaults f !! u
  end.

Definition reduces (ops : list Entry) (r : option (Reduction Entry)) : Prop :=
  match ops with
  | [] => r = None
  | op :: ops => exists r', r = Some r' /\ reduce_from (Simple op) ops = Done r'
  end.

Lemma reduce_from_snoc r (ops : list Entry) op :
  reduce_from r (ops ++ [op]) = (r' ← reduce_from r ops; red_compose r' op).
Proof.
  revert r. induction ops as [|o ops IH]; intros r; simpl.
  - by destruct (red_compose r op).
  - destruct (red_compose r o); simpl; [apply IH|done].
Qed.

Lemma reduces_snoc ops r op :
  reduces ops r ->
  exists r', match r with Some r => red_compose r op | None => Done (Simple op) end = Done r' /\
    reduces (ops ++ [op]) (Some r').
Proof.
  destruct ops as [|o ops]; simpl.
  - intros ->. eexists. split; [done|]. eauto.
  - intros (r' & -> & Hr). destruct (reduce_from_spec ops (Simple o) I) as (r1 & E & Hok & _).
    rewrite E in Hr. simplify_eq.
    destruct (red_compose_done r' op Hok) as (r2 & E2 & _).
    exists r2. split; [done|]. exists r2. split; [done|]. rewrite reduce_from_snoc, E. done.
Qed.

Lemma fuse_step_spec f a acts :
  (forall k, reduces (ops_on k acts) (fused_at f k)) ->
  exists f', fuse_step f a = Done f' /\ forall k, reduces (ops_on k (acts ++ [a])) (fused_at f' k).
Proof.
  intros Hinv.
  assert (forall k, ops_on k (acts ++ [a]) =
    ops_on k acts ++ (if decide (action_key a = k) then [entry_op a] else [])) as Hops.
  { intros k. unfold ops_on. rewrite filter_app, fmap_app, filter_cons, filter_nil.
    by case_decide. }
  destruct (reduces_snoc _ _ (entry_op a) (Hinv (action_key a))) as (r' & Er & Hr').
  assert (exists f', fuse_step f a = Done f' /\ fused_at f' (action_key a) = Some r' /\
    forall k, k <> action_key a -> fused_at f' k = fused_at f k) as (f' & Ef & Hsame & Hoth).
  { unfold fuse_step, fuse_at, action_key in *. destruct a as [u [peer|] c p|u peer p];
      cbn [action_urn action_peer entry_op fused_at] in *.
    - destruct (pairs f !! (u, peer)); rewrite ?Er; simplify_eq; simpl;
        (eexists; split; [done|]); (split; [apply lookup_insert_eq|]);
        intros [u' [p'|]] Hk; simpl; rewrite ?lookup_insert_ne by congruence; done.
    - destruct (defaults f !! u) as [r|].
      + simpl in Er. rewrite red_compose_inl in Er.
        destruct (red_compose r (MkWithConfig p c)) as [r1|]; simplify_eq. simpl.
        eexists; split; [done|]. split; [simpl; by rewrite lookup_insert_eq|].
        intros [u' [p'|]] Hk; simpl; [done|]. by rewrite lookup_insert_ne by congruence.
      + simpl in Er. simplify_eq. simpl.
        eexists; split; [done|]. split; [simpl; by rewrite lookup_insert_eq|].
        intros [u' [p'|]] Hk; simpl; [done|]. by rewrite lookup_insert_ne by congruence.
    - destruct (pairs f !! (u, peer)); rewrite ?Er; simplify_eq; simpl;
        (eexists; split; [done|]); (split; [apply lookup_insert_eq|]);
        intros [u' [p'|]] Hk; simpl; rewrite ?lookup_insert_ne by congruence; done. }
  exists f'. split; [done|]. intros k. rewrite Hops. case_decide as Hk.
  - subst k. by rewrite Hsame.
  - rewrite app_nil_r, Hoth by done. apply Hinv.
Qed.

Lemma fuse_loop_spec acts : forall f done_,
  (forall k, reduces (ops_on k done_) (fused_at f k)) ->
  exists f', fuse_loop f acts = Done f' /\
    forall k, reduces (ops_on k (done_ ++ acts)) (fused_at f' k).
Proof.
  induction acts as [|a acts IH]; intros f done_ Hinv; simpl.
  - eexists. split; [done|]. by rewrite app_nil_r.
  - destruct (fuse_step_spec f a done_ Hinv) as (f1 & -> & Hinv1). simpl.
    destruct (IH f1 (done_ ++ [a]) Hinv1) as (f' & -> & Hinv'). eexists. split; [done|].
    by rewrite <- app_assoc in Hinv'.
Qed.

(** The actions a table of reductions is turned back into. *)
Lemma ops_on_table {K T} `{OK : OrdKey K} (key : K -> Urn * option PeerId)
    (act : K -> T -> Action C) (emb : T -> Entry) (m : gmap K (Reduction T)) k :
  (forall k e, action_key (act k e) = key k) -> (forall k e, entry_op (act k e) = emb e) ->
  ops_on k (flat_map (fun '(k, r) => act k <$> red_into_iter r) (btree_iter m)) =
  flat_map (fun '(k', r) => if decide (key k' = k) then emb <$> red_into_iter r else [])
    (btree_iter m).
Proof.
  intros Hk He. unfold ops_on. induction (btree_iter m) as [|[k' r] l IH]; [done|].
  cbn [flat_map]. rewrite filter_app, fmap_app, IH. f_equal.
  case_decide as Hd.
  - rewrite filter_all.
    + rewrite <- list_fmap_compose. apply list_fmap_ext. intros i e _. simpl. apply He.
    + apply Forall_fmap, Forall_forall. intros e _. simpl. by rewrite Hk.
  - rewrite filter_none; [done|].
    apply Forall_fmap, Forall_forall. intros e _. simpl. by rewrite Hk.
Qed.

Lemma flat_map_key {K V B} `{OK : OrdKey K} (m : gmap K V) k (f : V -> list B) :
  flat_map (fun '(k', r) => if decide (k' = k) then f r else []) (btree_iter m) =
  match m !! k with Some r => f r | None => [] end.
Proof.
  assert (NoDup (btree_iter m).*1) as Hnd by (rewrite btree_iter_fst; apply btree_keys_nodup).
  destruct (m !! k) as [r|] eqn:Hk.
  - apply elem_of_btree_iter in Hk. induction (btree_iter m) as [|[k' r'] l IH];
      [by apply elem_of_nil in Hk|].
    simpl in Hnd. apply NoDup_cons in Hnd as [Hni Hnd]. cbn [flat_map].
    apply elem_of_cons in Hk as [[= <- <-]|Hk].
    + rewrite decide_True by done.
      assert (flat_map (fun '(k', r0) => if decide (k' = k) then f r0 else []) l = []) as ->;
        [|by rewrite app_nil_r].
      clear IH Hnd. induction l as [|[k' r'] l IH]; [done|]. cbn [flat_map].
      simpl in Hni. apply not_elem_of_cons in Hni as [? Hni]. rewrite decide_False by done.
      by apply IH.
    + rewrite decide_False; [by apply IH|]. intros ->. apply Hni.
      apply list_elem_of_fmap. by exists (k, r).
  - assert (forall k' r, (k', r) ∈ btree_iter m -> k' <> k) as Hne.
    { intros k' r Hin ->. apply elem_of_btree_iter in Hin. congruence. }
    clear Hnd Hk. induction (btree_iter m) as [|[k' r'] l IH]; [done|]. cbn [flat_map].
    rewrite decide_False by (apply (Hne k' r'); by left). apply IH. intros k1 r1 ?.
    apply (Hne k1 r1). by right.
Qed.

Lemma ops_on_table_at {K T} `{OK : OrdKey K} (key : K -> Urn * option PeerId)
    (act : K -> T -> Action C) (emb : T -> Entry) (m : gmap K (Reduction T)) k :
  (forall k e, action_key (act k e) = key k) -> (forall k e, entry_op (act k e) = emb e) ->
  (forall k1 k2, key k1 = key k2 -> k1 = k2) ->
  ops_on (key k) (flat_map (fun '(k, r) => act k <$> red_into_iter r) (btree_iter m)) =
  match m !! k with Some r => emb <$> red_into_iter r | None => [] end.
Proof.
  intros Hk He Hinj. rewrite (ops_on_table key act emb) by done.
  rewrite <- (flat_map_key m k (fun r => emb <$> red_into_iter r)).
  apply flat_map_ext. intros [k' r].
  destruct (decide (k' = k)) as [->|]; [by rewrite decide_True|].
  rewrite decide_False; [done|]. intros E. by apply Hinj in E.
Qed.

Lemma ops_on_table_other {K T} `{OK : OrdKey K} (key : K -> Urn * option PeerId)
    (act : K -> T -> Action C) (emb : T -> Entry) (m : gmap K (Reduction T)) k :
  (forall k e, action_key (act k e) = key k) -> (forall k e, entry_op (act k e) = emb e) ->
  (forall k', key k' <> k) ->
  ops_on k (flat_map (fun '(k, r) => act k <$> red_into_iter r) (btree_iter m)) = [].
Proof.
  intros Hk He Hne. rewrite (ops_on_table key act emb) by done.
  induction (btree_iter m) as [|[k' r] l IH]; [done|]. cbn [flat_map].
  by rewrite decide_False by apply Hne.
Qed.

Lemma ops_on_app k (xs ys : list (Action C)) : ops_on k (xs ++ ys) = ops_on k xs ++ ops_on k ys.
Proof. unfold ops_on. by rewrite filter_app, fmap_app. Qed.

Lemma fused_actions (f : Fusion C) k :
  ops_on k (flat_map (fun '(k, r) => pair_action k <$> red_into_iter r) (btree_iter (pairs f)) ++
    flat_map (fun '(u, r) => default_action u <$> red_into_iter r) (btree_iter (defaults f))) =
  match fused_at f k with Some r => red_into_iter r | None => [] end.
Proof.
  rewrite ops_on_app.
  assert (forall k e, action_key (pair_action k e : Action C) = (k.1, Some k.2)) as Hp1
    by (intros ? [|]; done).
  assert (forall k (e : Entry), entry_op (pair_action k e) = id e) as Hp2
    by (intros ? [[]|]; done).
  assert (forall u (w : WithConfig C), entry_op (default_action u w) = inl w) as Hd2
    by (intros ? []; done).
  destruct k as [u [p|]].
  - rewrite (ops_on_table_at (fun k => (k.1, Some k.2)) pair_action id (pairs f) (u, p) Hp1 Hp2)
      by (intros [? ?] [? ?] ?; simpl in *; congruence).
    rewrite (ops_on_table_other (fun u => (u, None)) default_action inl (defaults f)) by done.
    rewrite app_nil_r. simpl. destruct (pairs f !! (u, p)); [by rewrite list_fmap_id|done].
  - rewrite (ops_on_table_other (fun k => (k.1, Some k.2)) pair_action id (pairs f)) by done.
    rewrite (ops_on_table_at (fun u => (u, None)) default_action inl (defaults f) u)
      by (done || congruence).
    simpl. by destruct (defaults f !! u) as [[]|].
Qed.

(** After the fusion, the actions on an entry are the reduction of the original
    ones. *)
Lemma fuse_spec acts :
  exists acts', fuse acts = Done acts' /\
    forall k, match ops_on k acts with
              | [] => ops_on k acts' = []
              | op :: ops => exists r, reduce_from (Simple op) ops = Done r /\
                               ops_on k acts' = red_into_iter r
              end.
Proof.
  unfold fuse. destruct (fuse_loop_spec acts (MkFusion ∅ ∅) []) as (f & -> & Hf).
  { intros [u [p|]]; simpl; by rewrite lookup_empty. }
  cbn [mbind outcome_bind]. eexists. split; [done|]. intros k. specialize (Hf k). simpl in Hf.
  rewrite fused_actions.
  unfold reduces in Hf. destruct (ops_on k acts) as [|op ops].
  - by rewrite Hf.
  - destruct Hf as (r & Hr & E). exists r. by rewrite Hr.
Qed.
End FuseSpec.

(** ** The batch refines the sequence of its actions *)
Section BatchSpec.
Context {D C X : Type} `{Git2} `{Odb D C} `{Countable C}.

(** What an action is turned into, given the references before the batch and
    the object store after it. *)
Definition update_of (rs : gmap RefName GRef) (d : D) (a : Action C) (u : Update) : Prop :=
  let n := refname_new (action_urn a) (action_peer a) in
  match a with
  | ATrack _ _ c p =>
      exists o, find_config o d = Some (Some c) /\
        match p with
        | TrackAny => u = Write n o PAny
        | TrackMustNotExist => u = Write n o PMustNotExist
        | TrackMustExist => exists r, rs !! n = Some (Direct r) /\ u = Write n o (PMustExistAndMatch r)
        end
  | AUntrack _ _ p =>
      match p with
      | UntrackAny => u = Delete n PAny
      | UntrackMustExist => exists r, rs !! n = Some (Direct r) /\ u = Delete n (PMustExistAndMatch r)
      end
  end.

Definition cache_ok (cache : gmap C Oid) (d : D) : Prop :=
  forall c o, cache !! c = Some o -> find_config o d = Some (Some c).

(** Writing configurations only adds to the store. *)
Definition grows (d d' : D) : Prop :=
  forall o c, find_config o d = Some (Some c) -> find_config o d' = Some (Some c).

Lemma target_of_spec cache n c d r cache' d' :
  target_of cache n c d = (r, cache', d') -> cache_ok cache d ->
  cache_ok cache' d' /\ grows d d' /\ forall o, r = Ok o -> find_config o d' = Some (Some c).
Proof.
  unfold target_of. intros Ht Hc. destruct (cache !! c) as [o|] eqn:E.
  { simplify_eq. split; [done|]. split; [by intros ? ?|]. intros ? [= <-]. by apply Hc. }
  destruct (write_config c d) as [[o d1]|] eqn:Hw; simplify_eq;
    [|split_and!; [done|by intros ? ?|done]].
  assert (grows d d') as Hg by (intros o' c'; by apply (write_keeps c d o d')).
  split_and!; [|done|intros ? [= <-]; by eapply write_find].
  intros c' o' Hl. apply lookup_insert_Some in Hl as [[<- <-]|[_ Hl]]; [by eapply write_find|].
  by apply Hg, Hc.
Qed.

Lemma require_ref_ok n rs r : require_ref n rs = Ok r -> rs !! n = Some (Direct (r_target r)).
Proof.
  unfold require_ref, find_reference. destruct (git_fails _ _); [done|].
  destruct (rs !! n) as [[o|]|]; intros Hr; [|done..]. by injection Hr as <-.
Qed.

Lemma into_update_spec rs a cache d r cache' d' :
  into_update rs a cache d = (r, cache', d') -> cache_ok cache d ->
  cache_ok cache' d' /\ grows d d' /\ forall u, r = Ok u -> update_of rs d' a u.
Proof.
  assert (forall x : D, grows x x) as Hrefl by (by intros ? ?).
  unfold into_update. intros Hi Hc. destruct a as [u peer c p|u peer p].
  - destruct p.
    1,2: destruct (target_of cache (refname_new u peer) c d) as [[[o|e] c1] d1] eqn:Ht;
      destruct (target_of_spec _ _ _ _ _ _ _ Ht Hc) as (? & ? & Hf); simplify_eq;
      (split; [done|]; split; [done|]); intros ? Hw; simplify_eq; exists o; eauto.
    destruct (require_ref _ _) as [r0|e] eqn:Hr; [|simplify_eq; by split_and!].
    apply require_ref_ok in Hr.
    destruct (target_of cache (refname_new u peer) c d) as [[[o|e] c1] d1] eqn:Ht;
      destruct (target_of_spec _ _ _ _ _ _ _ Ht Hc) as (? & ? & Hf); simplify_eq;
      (split; [done|]; split; [done|]); intros ? Hw; simplify_eq; exists o; eauto.
  - destruct p; [simplify_eq; split_and!; [done|done|by intros ? [= <-]]|].
    destruct (require_ref _ _) as [r0|e] eqn:Hr; [|simplify_eq; by split_and!].
    apply require_ref_ok in Hr. simplify_eq. split_and!; [done|done|].
    intros ? [= <-]. simpl. eauto.
Qed.

Lemma update_of_grows rs d d' a u : grows d d' -> update_of rs d a u -> update_of rs d' a u.
Proof.
  intros Hg. destruct a as [n p c t|]; simpl; [|done]. intros (o & Ho & Hu). exists o.
  split; [by apply Hg|done].
Qed.

Lemma into_updates_spec rs acts : forall cache d us d',
  into_updates rs acts cache d = (us, d') -> cache_ok cache d ->
  grows d d' /\ forall l, us = Ok l -> Forall2 (update_of rs d') acts l.
Proof.
  induction acts as [|a acts IH]; intros cache d us d' Hi Hc; simpl in Hi.
  { simplify_eq. split; [by intros ? ?|]. intros l [= <-]. constructor. }
  destruct (into_update rs a cache d) as [[[u|e] c1] d1] eqn:Hu;
    destruct (into_update_spec _ _ _ _ _ _ _ Hu Hc) as (Hc1 & Hg1 & Hu1); [|by simplify_eq].
  destruct (into_updates rs acts c1 d1) as [us2 d2] eqn:H2.
  apply IH in H2 as (Hg2 & Hus2); [|done].
  assert (grows d d2) as Hg by (intros o c Ho; by apply Hg2, Hg1).
  destruct us2 as [us2|e]; simplify_eq; [|by split]. split; [done|].
  intros l [= <-]. constructor; [|by apply Hus2].
  apply (update_of_grows _ d1); [done|]. by apply Hu1.
Qed.

Lemma update_of_name rs d a u :
  update_of rs d a u -> name_of u = refname_new (action_urn a) (action_peer a).
Proof.
  destruct a as [n p c []|n p []]; simpl; naive_solver.
Qed.

(** One action on a reference that holds a configuration or nothing. *)
Lemma queued_effect rs d a u g :
  update_of rs d a u -> rs !! refname_new (action_urn a) (action_peer a) = g ->
  (forall x, g = Some x -> exists o c, x = Direct o /\ find_config o d = Some (Some c)) ->
  config_at d (queued g g u) = effect (entry_op a) (config_at d g).
Proof.
  intros Hu Hg Hx. unfold queued.
  destruct a as [n p c t|n p t]; simpl in *.
  - destruct Hu as (o & Ho & Hu). destruct g as [x|].
    + destruct (Hx x eq_refl) as (o' & c' & -> & Hf).
      destruct t; [| |destruct Hu as (r & Hr & Hu); simplify_eq]; simplify_eq; simpl;
        rewrite ?Hf, ?bool_decide_true by congruence; simpl; rewrite ?Ho, ?Hf; done.
    + destruct t; [| |destruct Hu as (r & Hr & Hu); congruence]; simplify_eq; simpl; by rewrite ?Ho.
  - destruct g as [x|].
    + destruct (Hx x eq_refl) as (o' & c' & -> & Hf).
      destruct t; [|destruct Hu as (r & Hr & Hu); simplify_eq]; simplify_eq; simpl;
        rewrite ?bool_decide_true by congruence; done.
    + destruct t; [|destruct Hu as (r & Hr & Hu); congruence]; simplify_eq; done.
Qed.

(** The stuck pair: the second is rejected on the reference before the batch. *)
Lemma queued_stuck rs d a b u v g ca cb :
  update_of rs d a u -> update_of rs d b v ->
  entry_op a = inl (MkWithConfig TrackMustExist ca) ->
  entry_op b = inl (MkWithConfig TrackMustNotExist cb) ->
  refname_new (action_urn a) (action_peer a) = refname_new (action_urn b) (action_peer b) ->
  rs !! refname_new (action_urn a) (action_peer a) = g ->
  (forall x, g = Some x -> exists o c, x = Direct o /\ find_config o d = Some (Some c)) ->
  config_at d (queued g (queued g g u) v) = effects [entry_op a; entry_op b] (config_at d g).
Proof.
  intros Ha Hb Ea Eb Hn Hg Hx. destruct a as [n p c t|]; [|done]. destruct b as [n' p' c' t'|]; [|done].
  simpl in *. simplify_eq. destruct Ha as (o & Ho & r & Hr & ->). destruct Hb as (o' & Ho' & ->).
  rewrite Hr in *. destruct (Hx _ eq_refl) as (r' & x & [= <-] & Hf). unfold queued. simpl.
  rewrite bool_decide_true by done. simpl. by rewrite Ho, Hf.
Qed.

Definition plain (a : Action C) : Prop := urn_path (action_urn a) = None.

Lemma filter_key_name u peer (acts : list (Action C)) us rs d :
  urn_path u = None -> Forall plain acts -> Forall2 (update_of rs d) acts us ->
  Forall2 (update_of rs d) (filter (fun a => action_key a = (u, peer)) acts)
    (filter (fun x => name_of x = refname_new u peer) us).
Proof.
  intros Hu Hp Hf. induction Hf as [|a x acts us Hax _ IH]; [constructor|].
  inversion_clear Hp as [|? ? Hpa Hps]. rewrite !filter_cons.
  rewrite (update_of_name _ _ _ _ Hax).
  assert (action_key a = (u, peer) <->
    refname_new (action_urn a) (action_peer a) = refname_new u peer) as Hiff.
  { rewrite refname_new_inj. unfold action_key, plain in *. destruct (action_urn a), u. simpl in *.
    split; [intros [= -> _ ->]; done|intros [-> ->]; congruence]. }
  specialize (IH Hps). repeat case_decide; try tauto. by constructor.
Qed.

Lemma fuse_plain acts acts' : fuse acts = Done acts' -> Forall plain acts -> Forall plain acts'.
Proof.
  intros Hf Hp. destruct (fuse_spec acts) as (l & E & Hs). rewrite Hf in E. simplify_eq.
  apply Forall_forall. intros a Ha. specialize (Hs (action_key a)).
  assert (entry_op a ∈ ops_on (action_key a) l) as Hin.
  { unfold ops_on. apply list_elem_of_fmap. exists a. split; [done|].
    by apply list_elem_of_filter. }
  destruct (ops_on (action_key a) acts) as [|op ops] eqn:Eo.
  { rewrite Hs in Hin. by apply elem_of_nil in Hin. }
  assert (exists b, b ∈ acts /\ action_key b = action_key a) as (b & Hb & Hk).
  { unfold ops_on in Eo. destruct (filter _ acts) as [|b bs] eqn:Ef; [done|].
    exists b. assert (b ∈ filter (fun x => action_key x = action_key a) acts) as Hb
      by (rewrite Ef; by left).
    by apply list_elem_of_filter in Hb as [? ?]. }
  eapply Forall_forall in Hb; [|done]. unfold plain, action_key in *.
  injection Hk as Hk _. by rewrite <- Hk.
Qed.

Lemma entry_plain (db : Db D X) i path peer :
  entry db (MkUrn i path) peer = entry db (MkUrn i None) peer.
Proof. unfold entry. by destruct path. Qed.

(** The entry after a successful batch is the effect of the reduced actions. *)
Lemma batch_entry acts (db db' : Db D X) res i peer :
  db_ok db -> Forall plain acts -> batch acts db = Done (Ok res, db') ->
  entry db' (MkUrn i None) peer =
    match ops_on (MkUrn i None, peer) acts with
    | [] => entry db (MkUrn i None) peer
    | op :: ops =>
        match reduce_from (Simple op) ops with
        | Done r => effects (red_into_iter r) (entry db (MkUrn i None) peer)
        | Panic => None
        end
    end.
Proof.
  intros Hok Hp Hb. unfold batch in Hb.
  destruct (fuse_spec acts) as (fused & Ef & Hs). pose proof (fuse_plain _ _ Ef Hp) as Hpf.
  rewrite Ef in Hb. cbn [mbind outcome_bind] in Hb.
  destruct (into_updates (refs db) fused ∅ (objects db)) as [us d] eqn:Hi.
  apply into_updates_spec in Hi as [Hg Hus]; [|by intros ? ?].
  destruct us as [us|]; [|done]. cbn [refs set_objects] in Hb.
  destruct (update us (refs db)) as [[a|e] r'] eqn:Hu; [|done]. simplify_eq.
  specialize (Hus us eq_refl). set (u := MkUrn i None) in *.
  pose proof (filter_key_name u peer fused us _ _ eq_refl Hpf Hus) as Hfk.
  set (g := refs db !! refname_new u peer).
  assert (forall x, g = Some x ->
    exists o c, x = Direct o /\ find_config o d = Some (Some c)) as Hx.
  { intros x Hx. destruct (Hok _ _ Hx) as [c Hc]. destruct x as [o|]; [|done]. simpl in Hc.
    destruct (find_config o (objects db)) as [[c'|]|] eqn:Ho; simplify_eq.
    exists o, c. split; [done|]. by apply Hg. }
  assert (entry db u peer = config_at d g) as He.
  { unfold entry. fold g. destruct g as [x|] eqn:Eg; [|done].
    destruct (Hok _ _ Eg) as [c Hc]. rewrite Hc. destruct x as [o|]; [|done]. simpl in *.
    destruct (find_config o (objects db)) as [[c'|]|] eqn:Ho; simplify_eq.
    by rewrite (Hg _ _ Ho). }
  assert (entry (set_refs (set_objects db d) r') u peer = config_at d
    (foldl (queued g) g (filter (fun x => name_of x = refname_new u peer) us))) as ->.
  { unfold entry. simpl. by rewrite (update_ok us (refs db) a r' Hu). }
  specialize (Hs (u, peer)). rewrite He.
  destruct (ops_on (u, peer) acts) as [|op ops].
  { unfold ops_on in Hs. apply fmap_nil_inv in Hs. rewrite Hs in Hfk.
    inversion Hfk. by subst. }
  destruct Hs as (r & Er & Hr). rewrite Er.
  destruct (reduce_from_spec ops (Simple op) I) as (r1 & E1 & Hrok & _).
  rewrite Er in E1. simplify_eq. unfold ops_on in Hr.
  assert (forall b, b ∈ filter (fun a => action_key a = (u, peer)) fused ->
    refname_new (action_urn b) (action_peer b) = refname_new u peer) as Hname.
  { intros b Hb. apply list_elem_of_filter in Hb as [Hb _]. unfold action_key in Hb.
    injection Hb as -> ->. done. }
  destruct (filter (fun a => action_key a = (u, peer)) fused) as [|b1 [|b2 [|b3 bs]]];
    destruct r1 as [o1|[w1|] [w2|]]; try done; simpl in Hr; simplify_eq.
  - inversion Hfk as [|? x ? xs Hb1 Hnil]; subst. inversion Hnil; subst. simpl.
    eapply queued_effect; [done| |done]. by rewrite Hname by left.
  - inversion Hfk as [|? x ? xs Hb1 Hf2]; subst. inversion Hf2 as [|? y ? ys Hb2 Hnil]; subst.
    inversion Hnil; subst. destruct w1 as [p1 c1], w2 as [p2 c2]. destruct Hrok as [? ?].
    simpl in *. subst p1 p2. simplify_eq.
    pose proof (Hname b1 ltac:(left)) as Hn1. pose proof (Hname b2 ltac:(right; left)) as Hn2.
    pose proof (queued_stuck _ _ b1 b2 x y g c1 c2 Hb1 Hb2) as Hq.
    rewrite Hn1, Hn2 in Hq.
    assert (entry_op b1 = inl (MkWithConfig TrackMustExist c1)) as E1 by congruence.
    assert (entry_op b2 = inl (MkWithConfig TrackMustNotExist c2)) as E2 by congruence.
    rewrite E1, E2 in Hq.
    by apply Hq.
Qed.
End BatchSpec.

(** ** Properties *)
Section Properties.
Context {D C X : Type} `{Git2} `{Odb D C} `{Countable C}.

(** [fuse_terminates_sound]: fusing a batch never panics; for every entry, the
    fused actions leave it tracked exactly when the original ones, in order, do,
    and with the same configuration unless one of them updates an existing
    configuration. *)
Theorem fuse_terminates_sound (acts : list (Action C)) :
  exists acts', fuse acts = Done acts' /\
    forall k e,
      (is_Some (effects (ops_on k acts') e) <-> is_Some (effects (ops_on k acts) e)) /\
      (forallb (fun o => negb (updates_config o)) (ops_on k acts) = true ->
       effects (ops_on k acts') e = effects (ops_on k acts) e).
Proof.
  destruct (fuse_spec acts) as (acts' & E & Hs). exists acts'. split; [done|]. intros k e.
  specialize (Hs k). destruct (ops_on k acts) as [|op ops]; [by rewrite Hs|].
  destruct Hs as (r & Er & ->). destruct (reduce_from_spec ops (Simple op) I) as (r1 & E1 & _ & Hr).
  rewrite Er in E1. simplify_eq. destruct (Hr e) as [Hp He]. split; [done|].
  intros Hall. apply He. simpl in Hall. by apply andb_prop in Hall as [_ ?].
Qed.

(** C32 [batch_refines]: a batch never panics, and when it succeeds it has done in one
    transaction what its actions do one after the other: every entry is tracked
    afterwards exactly when running the actions on it in order leaves it tracked,
    and with that configuration unless one of them updates an existing
    configuration; entries the batch does not mention are unchanged. *)
Theorem batch_refines (acts : list (Action C)) (db : Db D X) (Hok : db_ok db)
    (Hp : Forall plain acts) :
  exists r db', batch acts db = Done (r, db') /\
    match r with
    | Err _ => True
    | Ok _ => forall i peer,
        let ops := ops_on (MkUrn i None, peer) acts in
        (is_Some (entry db' (MkUrn i None) peer) <->
         is_Some (effects ops (entry db (MkUrn i None) peer))) /\
        (forallb (fun o => negb (updates_config o)) ops = true ->
         entry db' (MkUrn i None) peer = effects ops (entry db (MkUrn i None) peer))
    end.
Proof.
  assert (exists r db', batch acts db = Done (r, db')) as (r & db' & E).
  { unfold batch. destruct (fuse_spec acts) as (acts' & -> & _). cbn [mbind outcome_bind].
    destruct (into_updates _ _ _ _) as [[us|e] d]; [|by do 2 eexists].
    destruct (update _ _) as [[a|e] r']; by do 2 eexists. }
  exists r, db'. split; [done|]. destruct r as [res|]; [|done]. intros i peer ops.
  pose proof (batch_entry acts db db' res i peer Hok Hp E) as ->. fold ops.
  destruct ops as [|op ops']; [done|].
  destruct (reduce_from_spec ops' (Simple op) I) as (r1 & -> & _ & Hr).
  destruct (Hr (entry db (MkUrn i None) peer)) as [Hpres Hex]. split; [done|].
  intros Hall. apply Hex. simpl in Hall. by apply andb_prop in Hall as [_ ?].
Qed.
End Properties.

Definition demo_batch : list (Action N) :=
  [ATrack demo_urn (Some 2%N) 6%N TrackMustNotExist; AUntrack demo_urn 2%N UntrackAny;
   ATrack demo_urn (Some 1%N) 8%N TrackMustExist; ATrack demo_urn None 8%N TrackAny].

Lemma batch_refines_witness :
  exists r db', batch demo_batch demo_db = Done (r, db') /\
    match r with
    | Err _ => True
    | Ok _ => forall i peer,
        let ops := ops_on (MkUrn i None, peer) demo_batch in
        (is_Some (entry db' (MkUrn i None) peer) <->
         is_Some (effects ops (entry demo_db (MkUrn i None) peer))) /\
        (forallb (fun o => negb (updates_config o)) ops = true ->
         entry db' (MkUrn i None) peer = effects ops (entry demo_db (MkUrn i None) peer))
    end.
Proof. apply (batch_refines demo_batch demo_db demo_db_ok). by repeat constructor. Defined.
