(* ===== verification/RefFormat.v ===== *)
(** * Reference name validation

    [git-ref-format/core/src/check.rs].  A string is the list of its code
    points.  [ref_format] is the validator; [ref_valid] is the specification: the
    rules of [git-check-ref-format] on the components between slashes, plus the
    one extra rule the validator has because it looks at pairs of neighbouring
    characters cyclically. *)
From stdpp Require Import base list gmap.
From Stdlib Require Import NArith Lia Ascii.
From Stdlib Require String.
Import String.StringSyntax.
From S2P Require Import Prelude.
#[local] Open Scope N_scope.

Abbreviation Str := (list N) (only parsing).

(** String literals. *)
Fixpoint str (s : String.string) : list N :=
  match s with
  | String.EmptyString => []
  | String.String a s => N_of_ascii a :: str s
  end.
Arguments str s%_string_scope.

Definition slash : N := 47.
Definition dot : N := 46.
Definition at_sign : N := 64.
Definition star : N := 42.
Definition open_brace : N := 123.

(** ** Slices: [str::split], [ends_with], [rfind], joining with slashes *)

(** [s.split(c)]: never empty, empty pieces included. *)
Fixpoint split_on (c : N) (s : list N) : list (list N) :=
  match s with
  | [] => [[]]
  | x :: s =>
      if N.eqb x c then [] :: split_on c s
      else match split_on c s with
           | [] => [[x]]
           | p :: ps => (x :: p) :: ps
           end
  end.

Fixpoint join_on (c : N) (ps : list (list N)) : list N :=
  match ps with
  | [] => []
  | [p] => p
  | p :: ps => p ++ c :: join_on c ps
  end.

Definition ends_with (s suffix : list N) : bool :=
  bool_decide (drop (length s - length suffix) s = suffix) && (length suffix <=? length s)%nat.

(** ** The validator *)

Record Options := MkOptions { allow_onelevel : bool; allow_pattern : bool }.

Inductive Error : Type :=
| Empty | LoneAt | Slash | DotLock | DotDot | AtOpenBrace | InvalidChar (c : N)
| StartsDot | EndsDot | Control | Space | Pattern | OneLevel.

#[export] Instance error_eq_dec : EqDecision Error.
Proof. solve_decision. Defined.

(** [char::is_ascii_control]. *)
Definition is_ascii_control (c : N) : bool := (c <? 32) || (c =? 127).

(** The characters rejected by name: NUL, backslash, tilde, caret, colon,
    question mark, open bracket. *)
Definition invalid_chars : list N := [0; 92; 126; 94; 58; 63; 91].

(** One iteration over a character, its successor and its index; [Ok] carries
    the number of globs it adds. *)
Definition check_char (i last_char : nat) (y z : N) : result Error nat :=
  if (y =? dot) && (z =? dot) then Err DotDot
  else if (y =? at_sign) && (z =? open_brace) then Err AtOpenBrace
  else if existsb (N.eqb y) invalid_chars then Err (InvalidChar y)
  else if y =? star then Ok 1%nat
  else if (y =? dot) && (i =? 0)%nat then Err StartsDot
  else if (y =? dot) && (i =? last_char)%nat then Err EndsDot
  else if y =? 32 then Err Space
  else if is_ascii_control y then Err Control
  else Ok 0%nat.

Fixpoint check_chars (i last_char : nat) (ps : list (N * N)) (globs : nat) : result Error nat :=
  match ps with
  | [] => Ok globs
  | (y, z) :: ps =>
      g ← check_char i last_char y z;
      check_chars (S i) last_char ps (globs + g)
  end.

(** [x.chars().zip(x.chars().cycle().skip(1))] *)
Definition cyclic_pairs (x : list N) : list (N * N) :=
  match x with [] => [] | h :: t => zip x (t ++ [h]) end.

Definition check_part (x : list N) (globs : nat) : result Error nat :=
  match x with
  | [] => Err Slash
  | _ =>
      if ends_with x (str ".lock") then Err DotLock
      else check_chars 0 (length x - 1) (cyclic_pairs x) globs
  end.

Fixpoint check_parts (xs : list (list N)) (globs parts : nat) : result Error (nat * nat) :=
  match xs with
  | [] => Ok (globs, parts)
  | x :: xs => g ← check_part x globs; check_parts xs g (S parts)
  end.

Definition ref_format (opts : Options) (s : list N) : result Error unit :=
  if bool_decide (s = []) then Err Empty
  else if bool_decide (s = str "@") then Err LoneAt
  else if bool_decide (s = str ".") then Err StartsDot
  else
    '(globs, parts) ← check_parts (split_on slash s) 0 0;
    if (parts <? 2)%nat && negb (allow_onelevel opts) then Err OneLevel
    else if (1 <? globs)%nat && allow_pattern opts then Err Pattern
    else if (0 <? globs)%nat && negb (allow_pattern opts) then Err (InvalidChar star)
    else Ok tt.

(** ** The specification *)

(** [a] immediately followed by [b] somewhere. *)
Fixpoint adjacent (a b : N) (s : list N) : bool :=
  match s with
  | x :: ((y :: _) as t) => ((x =? a) && (y =? b)) || adjacent a b t
  | _ => false
  end.

Definition forbidden (c : N) : bool :=
  existsb (N.eqb c) invalid_chars || (c =? 32) || is_ascii_control c.

Definition globs_of (s : list N) : nat := length (filter (fun c => c = star) s).

(** The rules of git-check-ref-format(1).  A component is not empty, does not start with
    a dot and does not end with [.lock]; there are no two dots in a row, no [@{] and no forbidden
    character. *)
Record git_component (x : list N) : Prop := {
  gc_nonempty : x <> [];
  gc_lock : ends_with x (str ".lock") = false;
  gc_head : head x <> Some dot;
  gc_dotdot : adjacent dot dot x = false;
  gc_brace : adjacent at_sign open_brace x = false;
  gc_chars : Forall (fun c => forbidden c = false) x;
}.
(** A name is not a lone at sign, does not end with a dot, has two components unless
    one level is allowed, and has an asterisk only as a pattern, and one only. *)
Record git_refname (opts : Options) (s : list N) : Prop := {
  gr_at : s <> str "@";
  gr_components : Forall git_component (split_on slash s);
  gr_last : last s <> Some dot;
  gr_level : allow_onelevel opts = true \/ (2 <= length (split_on slash s))%nat;
  gr_globs : (globs_of s <= if allow_pattern opts then 1 else 0)%nat;
}.

(** What the validator lets through in a component: beyond the rules of git, it does not end
    with a dot, and, this being what the cyclic comparison adds, does not have both an open brace
    in front and an at sign at the end. *)
Record component_valid (x : list N) : Prop := {
  cv_nonempty : x <> [];
  cv_lock : ends_with x (str ".lock") = false;
  cv_head : head x <> Some dot;
  cv_last : last x <> Some dot;
  cv_dotdot : adjacent dot dot x = false;
  cv_brace : adjacent at_sign open_brace x = false;
  cv_chars : Forall (fun c => forbidden c = false) x;
  cv_wrap : ~ (last x = Some at_sign /\ head x = Some open_brace);
}.

Record ref_valid (opts : Options) (s : list N) : Prop := {
  rv_at : s <> str "@";
  rv_components : Forall component_valid (split_on slash s);
  rv_level : allow_onelevel opts = true \/ (2 <= length (split_on slash s))%nat;
  rv_globs : (globs_of s <= if allow_pattern opts then 1 else 0)%nat;
}.

(** ** Splitting and joining *)

Lemma split_on_nonempty c s : split_on c s <> [].
Proof. destruct s as [|x s]; simpl; [done|]. case_match; [done|]. by case_match. Qed.

Lemma join_cons c p ps : ps <> [] -> join_on c (p :: ps) = p ++ c :: join_on c ps.
Proof. by destruct ps. Qed.

Lemma join_split c s : join_on c (split_on c s) = s.
Proof.
  induction s as [|x s IH]; [done|]. simpl. pose proof (split_on_nonempty c s) as Hne.
  destruct (N.eqb_spec x c) as [->|].
  - rewrite join_cons by done. simpl. by rewrite IH.
  - destruct (split_on c s) as [|p ps]; [done|]. destruct ps; simpl in *; by rewrite IH.
Qed.

Lemma split_on_no c s : c ∉ s -> split_on c s = [s].
Proof.
  induction s as [|x s IH]; intros Hc; [done|]. simpl. apply not_elem_of_cons in Hc as [Hx Hc].
  destruct (N.eqb_spec x c); [congruence|]. by rewrite IH.
Qed.

Lemma split_on_app c s t : split_on c (s ++ c :: t) = split_on c s ++ split_on c t.
Proof.
  induction s as [|x s IH]; simpl; [by rewrite N.eqb_refl|].
  rewrite IH. destruct (N.eqb x c); [done|].
  pose proof (split_on_nonempty c s). by destruct (split_on c s).
Qed.

Lemma split_join c ps :
  ps <> [] -> Forall (fun p => c ∉ p) ps -> split_on c (join_on c ps) = ps.
Proof.
  induction ps as [|p ps IH]; intros Hne Hps; [done|]. inversion_clear Hps as [|? ? Hp Hps'].
  destruct ps as [|q ps]; [by apply split_on_no|].
  rewrite join_cons by done. rewrite split_on_app, split_on_no by done.
  rewrite IH by done. done.
Qed.

Lemma split_on_pieces c s : Forall (fun p => c ∉ p) (split_on c s).
Proof.
  induction s as [|x s IH]; simpl; [apply Forall_singleton; set_solver|].
  destruct (N.eqb_spec x c); [constructor; [set_solver|done]|].
  destruct (split_on c s) as [|p ps]; [apply Forall_singleton; set_solver|].
  inversion_clear IH. constructor; [set_solver|done].
Qed.

Lemma elem_of_split c s x p : p ∈ split_on c s -> x ∈ p -> x ∈ s.
Proof.
  revert p. induction s as [|y s IH]; intros p Hp Hx; simpl in Hp.
  - apply list_elem_of_singleton in Hp as ->. done.
  - destruct (N.eqb y c).
    + apply elem_of_cons in Hp as [->|Hp]; [by apply elem_of_nil in Hx|]. right. by eapply IH.
    + destruct (split_on c s) as [|q ps].
      * apply list_elem_of_singleton in Hp as ->. apply list_elem_of_singleton in Hx as ->. left.
      * apply elem_of_cons in Hp as [->|Hp].
        -- apply elem_of_cons in Hx as [->|Hx]; [left|right]. eapply IH; [left|done].
        -- right. eapply IH; [by right|done].
Qed.

(** ** The validator implements the specification *)

(** The characters an iteration rejects. *)
Definition bad (i last_char : nat) (y z : N) : bool :=
  ((y =? dot) && (z =? dot)) || ((y =? at_sign) && (z =? open_brace)) || forbidden y ||
  ((y =? dot) && ((i =? 0)%nat || (i =? last_char)%nat)).

Lemma check_char_spec i l y z :
  if bad i l y z then exists e, check_char i l y z = Err e
  else check_char i l y z = Ok (if N.eqb y star then 1%nat else 0%nat).
Proof.
  unfold bad, check_char, forbidden. generalize (existsb (N.eqb y) invalid_chars) as inv.
  intros inv. destruct ((y =? dot) && (z =? dot)); simpl; [eauto|].
  destruct ((y =? at_sign) && (z =? open_brace)); simpl; [eauto|].
  destruct inv; simpl; [eauto|]. destruct (N.eqb_spec y star) as [->|]; [done|].
  destruct (y =? dot), (i =? 0)%nat, (i =? l)%nat, (y =? 32), (is_ascii_control y); simpl; eauto.
Qed.

Lemma globs_cons y s :
  globs_of (y :: s) = ((if N.eqb y star then 1 else 0) + globs_of s)%nat.
Proof.
  unfold globs_of. rewrite filter_cons. destruct (N.eqb_spec y star) as [->|];
    [by rewrite decide_True|by rewrite decide_False].
Qed.

Lemma check_chars_spec l ps : forall i g g',
  check_chars i l ps g = Ok g' <->
  (forall k y z, ps !! k = Some (y, z) -> bad (i + k) l y z = false) /\
  g' = (g + globs_of ps.*1)%nat.
Proof.
  induction ps as [|[y z] ps IH]; intros i g g'; cbn [check_chars].
  - unfold globs_of. simpl. split; [intros [= <-]; split; [done|lia]|intros [_ ->]; f_equal; lia].
  - pose proof (check_char_spec i l y z) as Hc. destruct (bad i l y z) eqn:Hb.
    + destruct Hc as [e ->]. split; [done|]. intros [Hk _].
      specialize (Hk 0%nat y z eq_refl). rewrite Nat.add_0_r in Hk. congruence.
    + rewrite Hc. cbn [mbind result_bind]. rewrite IH, fmap_cons, globs_cons; cbn [fst].
      split; intros [Hk ->]; (split; [|lia]).
      * intros [|k] y' z' Hl; [simplify_eq/=; by rewrite Nat.add_0_r|].
        simpl in Hl. replace (i + S k)%nat with (S i + k)%nat by lia. by apply Hk.
      * intros k y' z' Hl. replace (S i + k)%nat with (i + S k)%nat by lia. by apply Hk.
Qed.

Lemma adjacent_spec a b s :
  adjacent a b s = true <-> exists k, s !! k = Some a /\ s !! S k = Some b.
Proof.
  induction s as [|x s IH]; simpl; [split; [done|by intros (k & Hk & _)]|].
  destruct s as [|y s].
  - split; [done|]. intros (k & _ & Hk). by destruct k.
  - rewrite orb_true_iff, andb_true_iff, IH, !N.eqb_eq. split.
    + intros [[-> ->]|(k & ? & ?)]; [by exists 0%nat|by exists (S k)].
    + intros ([|k] & ? & ?); [left; simplify_eq/=; done|right; by exists k].
Qed.

Lemma adjacent_false a b s :
  adjacent a b s = false <-> forall k, s !! k = Some a -> s !! S k <> Some b.
Proof.
  rewrite <- not_true_iff_false, adjacent_spec. split.
  - intros Hn k H1 H2. apply Hn. eauto.
  - intros Hn (k & H1 & H2). by eapply Hn.
Qed.

(** The pairs: neighbours, and the last character with the first. *)
Lemma cyclic_lookup h t k y z :
  cyclic_pairs (h :: t) !! k = Some (y, z) <->
  (h :: t) !! k = Some y /\
  ((h :: t) !! S k = Some z \/ k = length t /\ z = h).
Proof.
  unfold cyclic_pairs. rewrite lookup_zip_with_Some. split.
  - intros (y' & z' & [= -> ->] & Hy & Hz). split; [done|].
    apply lookup_app_Some in Hz as [Hz|[Hk Hz]]; [by left|right].
    apply list_lookup_singleton_Some in Hz as [Hk' ->]. split; [lia|done].
  - intros [Hy Hz]. exists y, z. split; [done|]. split; [done|].
    apply lookup_app_Some. destruct Hz as [Hz|[-> ->]]; [by left|right].
    split; [lia|]. by rewrite Nat.sub_diag.
Qed.

Lemma cyclic_fst x : (cyclic_pairs x).*1 = x.
Proof.
  destruct x as [|h t]; [done|]. unfold cyclic_pairs. apply fst_zip. rewrite length_app. simpl. lia.
Qed.

Lemma component_checked h t :
  (forall k y z, cyclic_pairs (h :: t) !! k = Some (y, z) -> bad k (length (h :: t) - 1) y z = false)
  <-> h <> dot /\ last (h :: t) <> Some dot /\ adjacent dot dot (h :: t) = false /\
      adjacent at_sign open_brace (h :: t) = false /\
      Forall (fun c => forbidden c = false) (h :: t) /\
      ~ (last (h :: t) = Some at_sign /\ h = open_brace).
Proof.
  assert (last (h :: t) = (h :: t) !! length t) as Hlast.
  { rewrite last_lookup. simpl length. by rewrite Nat.pred_succ. }
  replace (length (h :: t) - 1)%nat with (length t) by (simpl; lia).
  split.
  - intros Hb.
    assert (forall k y, (h :: t) !! k = Some y -> exists z, cyclic_pairs (h :: t) !! k = Some (y, z)
      /\ forall w, (h :: t) !! S k = Some w -> w = z) as Hpair.
    { intros k y Hy. destruct ((h :: t) !! S k) as [z|] eqn:Hz.
      - exists z. rewrite cyclic_lookup. split; [by auto|congruence].
      - exists h. rewrite cyclic_lookup. split; [|done]. split; [done|right].
        apply lookup_lt_Some in Hy. apply lookup_ge_None in Hz. simpl in *. split; [lia|done]. }
    assert (forall k y, (h :: t) !! k = Some y -> forbidden y = false /\
      (y = dot -> k <> 0%nat /\ k <> length t)) as Hone.
    { intros k y Hy. destruct (Hpair k y Hy) as (z & Hz & _). apply Hb in Hz. unfold bad in Hz.
      apply orb_false_iff in Hz as [Hz Hd]. apply orb_false_iff in Hz as [_ Hf]. split; [done|].
      intros ->. rewrite N.eqb_refl in Hd. simpl in Hd. apply orb_false_iff in Hd as [H0 Hl].
      apply Nat.eqb_neq in H0, Hl. done. }
    assert (forall k y z, cyclic_pairs (h :: t) !! k = Some (y, z) ->
      ~ (y = dot /\ z = dot) /\ ~ (y = at_sign /\ z = open_brace)) as Htwo.
    { intros k y z Hz. apply Hb in Hz. unfold bad in Hz.
      apply orb_false_iff in Hz as [Hz _]. apply orb_false_iff in Hz as [Hz _].
      apply orb_false_iff in Hz as [H1 H2]. split; intros [-> ->]; done. }
    split_and!.
    + intros ->. by destruct (Hone 0%nat dot eq_refl) as [_ [? _]].
    + rewrite Hlast. intros Hl. by destruct (Hone _ _ Hl) as [_ [_ ?]].
    + apply adjacent_false. intros k H1 H2. destruct (Htwo k dot dot) as [Hn _]; [|by apply Hn].
      rewrite cyclic_lookup. auto.
    + apply adjacent_false. intros k H1 H2.
      destruct (Htwo k at_sign open_brace) as [_ Hn]; [|by apply Hn]. rewrite cyclic_lookup. auto.
    + apply Forall_lookup. intros k y Hy. by apply (Hone k y).
    + rewrite Hlast. intros [Hl ->].
      destruct (Htwo (length t) at_sign open_brace) as [_ Hn]; [|by apply Hn].
      rewrite cyclic_lookup. auto.
  - intros (Hh & Hl & Hdd & Hab & Hf & Hw) k y z Hz. rewrite cyclic_lookup in Hz.
    destruct Hz as [Hy Hz]. rewrite Hlast in *. rewrite adjacent_false in Hdd, Hab.
    rewrite Forall_lookup in Hf. unfold bad. rewrite (Hf k y Hy).
    apply orb_false_iff. split; [apply orb_false_iff; split; [apply orb_false_iff; split|done]|].
    + apply andb_false_iff. destruct (N.eqb_spec y dot) as [->|]; [right|by left].
      apply N.eqb_neq. intros ->. destruct Hz as [Hz|[-> Hz]]; [by apply (Hdd k)|by apply Hh].
    + apply andb_false_iff. destruct (N.eqb_spec y at_sign) as [->|]; [right|by left].
      apply N.eqb_neq. intros ->. destruct Hz as [Hz|[-> Hz]]; [by apply (Hab k)|by apply Hw].
    + apply andb_false_iff. destruct (N.eqb_spec y dot) as [->|]; [right|by left].
      apply orb_false_iff. split; apply Nat.eqb_neq; intros ->; [|done].
      apply Hh. simpl in Hy. congruence.
Qed.

Lemma check_part_spec x g g' :
  check_part x g = Ok g' <-> component_valid x /\ g' = (g + globs_of x)%nat.
Proof.
  unfold check_part. destruct x as [|h t]; [split; [done|by intros [[] _]]|].
  destruct (ends_with (h :: t) (str ".lock")) eqn:Hlock.
  { split; [done|]. intros [[] _]. congruence. }
  rewrite check_chars_spec, cyclic_fst. simpl (0 + _)%nat. rewrite component_checked. split.
  - intros [(? & ? & ? & ? & ? & Hw) ->]. split; [|done]. split; try done.
    + simpl. congruence.
    + simpl head. intros [Hl [= ->]]. by apply Hw.
  - intros [[] ->]. split; [|done]. split_and!; try done.
    + intros ->. by apply cv_head0.
    + intros [Hl ->]. by apply cv_wrap0.
Qed.

Lemma check_parts_spec xs : forall g p g' p',
  check_parts xs g p = Ok (g', p') <->
  Forall component_valid xs /\ g' = (g + sum_list (globs_of <$> xs))%nat /\ p' = (p + length xs)%nat.
Proof.
  induction xs as [|x xs IH]; intros g p g' p'; cbn [check_parts].
  - simpl. split; [intros [= <- <-]; split_and!; [done|lia|lia]|].
    intros (_ & -> & ->). do 2 f_equal; lia.
  - destruct (check_part x g) as [g1|e] eqn:Hx.
    + apply check_part_spec in Hx as [Hv ->]. cbn [mbind result_bind]. rewrite IH, fmap_cons. simpl.
      split.
      * intros (? & -> & ->). split_and!; [by constructor|lia|lia].
      * intros (Hf & -> & ->). inversion_clear Hf. split_and!; [done|lia|lia].
    + split; [done|]. intros (Hf & _). inversion_clear Hf as [|? ? Hv _].
      assert (check_part x g = Ok (g + globs_of x)%nat) as Hx' by (by apply check_part_spec).
      congruence.
Qed.

Lemma globs_split s : sum_list (globs_of <$> split_on slash s) = globs_of s.
Proof.
  assert (forall p ps, sum_list (globs_of <$> p :: ps) =
    (globs_of p + sum_list (globs_of <$> ps))%nat) as Hcons by done.
  induction s as [|x s IH]; [done|]. cbn [split_on].
  pose proof (split_on_nonempty slash s) as Hne. rewrite globs_cons.
  destruct (N.eqb_spec x slash) as [->|]; [by rewrite Hcons, IH|].
  destruct (split_on slash s) as [|p ps]; [done|]. rewrite Hcons in *. rewrite globs_cons. lia.
Qed.

Lemma ref_format_spec opts s : ref_format opts s = Ok tt <-> ref_valid opts s.
Proof.
  unfold ref_format.
  case_bool_decide as H0.
  { subst s. split; [done|]. intros [_ Hc _ _]. simpl in Hc. inversion_clear Hc as [|? ? Hn _].
    by destruct (cv_nonempty _ Hn). }
  case_bool_decide as H1; [subst s; split; [done|by intros []]|].
  case_bool_decide as H2.
  { subst s. split; [done|]. intros [_ Hc _ _]. simpl in Hc. inversion_clear Hc as [|? ? Hn _].
    by destruct (cv_head _ Hn). }
  destruct (check_parts (split_on slash s) 0 0) as [[g p]|e] eqn:Hp.
  - apply check_parts_spec in Hp as (Hf & -> & ->). rewrite globs_split. cbn [mbind result_bind]. simpl.
    assert ((if (length (split_on slash s) <? 2)%nat && negb (allow_onelevel opts) then Err OneLevel
       else if (1 <? globs_of s)%nat && allow_pattern opts then Err Pattern
       else if (0 <? globs_of s)%nat && negb (allow_pattern opts) then Err (InvalidChar star)
       else Ok tt) = Ok tt <->
      (allow_onelevel opts = true \/ (2 <= length (split_on slash s))%nat) /\
      (globs_of s <= if allow_pattern opts then 1 else 0)%nat) as ->.
    { destruct (allow_onelevel opts), (allow_pattern opts);
        repeat (match goal with |- context [(?a <? ?b)%nat] => destruct (Nat.ltb_spec a b) end; simpl);
        split; intros; try done; try (split; [auto|lia]); exfalso; intuition (congruence || lia). }
    split; [intros [? ?]; by split|intros []; done].
  - split; [done|]. intros [_ Hf _ _].
    assert (check_parts (split_on slash s) 0 0 =
      Ok ((0 + sum_list (globs_of <$> split_on slash s))%nat, (0 + length (split_on slash s))%nat))
      as Hp' by (by apply check_parts_spec).
    congruence.
Qed.

Lemma last_join c ps : ps <> [] -> Forall (fun x => x <> []) ps -> exists p, p ∈ ps /\ last (join_on c ps) = last p.
Proof.
  intros Hne Hf. induction Hf as [|p ps Hp Hf IH]; [done|]. destruct ps as [|q ps]; [exists p; by split; [left|]|].
  destruct IH as (r & Hr & Hl); [done|]. exists r. split; [by right|]. rewrite join_cons by done. rewrite last_app, last_cons, Hl.
  apply (proj1 (Forall_forall _ _) Hf) in Hr. by destruct (last r) as [z|] eqn:Hz; [|apply last_None in Hz].
Qed.

(** C34 [ref_format_sound_complete]: the validator accepts a string exactly when it satisfies the
    rules of git-check-ref-format and, which these do not ask for, no component ends with a dot,
    and no component has an open brace in front and an at sign at the end. *)
Theorem ref_format_sound_complete opts s : ref_format opts s = Ok tt <->
  git_refname opts s /\
  Forall (fun x => last x <> Some dot /\ ~ (head x = Some open_brace /\ last x = Some at_sign)) (split_on slash s).
Proof.
  rewrite ref_format_spec. split.
  - intros [Hat Hc Hl Hg]. split.
    + split; try done.
      * eapply Forall_impl; [exact Hc|]. by intros x [].
      * rewrite <- (join_split slash s). destruct (last_join slash (split_on slash s)) as (p & Hp & ->); [apply split_on_nonempty| |].
        -- eapply Forall_impl; [exact Hc|]. by intros x [].
        -- rewrite Forall_forall in Hc. by apply Hc in Hp as [].
    + eapply Forall_impl; [exact Hc|]. intros x []. split; [done|tauto].
  - intros [[Hat Hc _ Hl Hg] Hx]. split; try done. rewrite Forall_forall in Hc, Hx |- *. intros x Hin.
    destruct (Hc x Hin), (Hx x Hin) as [? ?]. split; try done. tauto.
Qed.

(** [brace_at_rejected]: because neighbours are compared cyclically, no component
    that begins with an open brace and ends with an at sign is accepted, although
    no at sign is followed by an open brace in it: a component such as [{a@] is
    refused as if it were, when the documented rules allow it. *)
Theorem brace_at_rejected opts w :
  ~ ((slash ∉ w) /\ ref_format opts (open_brace :: w ++ [at_sign]) = Ok tt) /\
  ref_format opts (str "{a@") = Err AtOpenBrace /\
  adjacent at_sign open_brace (str "{a@") = false /\
  Forall (fun c => forbidden c = false) (str "{a@").
Proof.
  split; [|split_and!; [done|done|by repeat constructor]]. rewrite ref_format_spec.
  intros [Hw [_ Hc _ _]]. rewrite split_on_no in Hc by (unfold slash, open_brace, at_sign in *; set_solver).
  inversion_clear Hc as [|? ? Hv _]. apply (cv_wrap _ Hv). split; [|done].
  by rewrite app_comm_cons, last_snoc.
Qed.
