(* ===== verification/RefName.v ===== *)
(** * Reference names

    [git-ref-format/core/src/{name,name/iter,deriv,refspec,refspec/iter,lit}.rs].
    A [RefStr], a [RefString], a [Component], a [Qualified] and a [Namespaced] are
    all the string they wrap: the types differ in the invariant the constructors
    establish ([is_refstr], [is_component], [is_qualified], [is_namespaced]), and
    the unchecked [from_str] conversions are the identity, so that whether an
    operation keeps its result type's invariant is a theorem, not a given.
    Borrowed and owned forms are not distinguished. *)
From stdpp Require Import base list gmap.
From Stdlib Require Import NArith Lia Ascii.
From Stdlib Require String.
Import String.StringSyntax.
From S2P Require Import Prelude RefFormat.
#[local] Open Scope N_scope.

(** ** [str] operations the code uses *)

(** [str::strip_prefix]. *)
Fixpoint str_strip_prefix (p s : list N) : option (list N) :=
  match p, s with
  | [], _ => Some s
  | a :: p, b :: s => if N.eqb a b then str_strip_prefix p s else None
  | _ :: _, [] => None
  end.

(** [str::rfind] of a character. *)
Fixpoint rfind (c : N) (s : list N) : option nat :=
  match s with
  | [] => None
  | x :: s =>
      match rfind c s with
      | Some i => Some (S i)
      | None => if N.eqb x c then Some 0%nat else None
      end
  end.

Definition contains (s : list N) (c : N) : bool := existsb (N.eqb c) s.

Module Name.

Definition CHECK_OPTS : Options := MkOptions true false.

Definition HEADS := str "heads".
Definition NAMESPACES := str "namespaces".
Definition NOTES := str "notes".
Definition REFS := str "refs".
Definition REMOTES := str "remotes".
Definition TAGS := str "tags".
Definition RAD := str "rad".
Definition ID := str "id".
Definition IDS := str "ids".
Definition SELF := str "self".
Definition SIGNED_REFS := str "signed_refs".
Definition COBS := str "cobs".

(** ** [RefStr] and [RefString] *)

Definition try_from_str (s : list N) : result Error (list N) :=
  (fun _ => s) <$> ref_format CHECK_OPTS s.

Definition iter (s : list N) : list (list N) := split_on slash s.

Definition components (s : list N) : list (list N) := iter s.

Definition strip_prefix (self base : list N) : option (list N) :=
  str_strip_prefix base self ≫= str_strip_prefix [slash].

Definition push (buf other : list N) : list N := buf ++ [slash] ++ other.

Definition and_ (self other : list N) : list N := push self other.

Definition join (self other : list N) : list N := push self other.

(** The flag and the buffer after the call. *)
Definition pop (buf : list N) : bool * list N :=
  match rfind slash buf with
  | None => (false, buf)
  | Some idx => (true, take idx buf)
  end.

Definition with_pattern (self pattern : list N) : list N := self ++ [slash] ++ pattern.

Definition to_pattern (self pattern : list N) : list N := with_pattern self pattern.

Definition head (s : list N) : outcome (list N) := unwrap (components s !! 0%nat).

Definition from_iter (cs : list (list N)) : outcome (list N) :=
  let buf := foldl (fun buf c => buf ++ c ++ [slash]) [] cs in
  if bool_decide (buf = []) then Panic else Done (take (length buf - 1) buf).

Definition extend (self : list N) (cs : list (list N)) : list N := foldl push self cs.

(** ** [Component] *)

Definition from_refstring (r : list N) : option (list N) :=
  if negb (contains r slash) then Some r else None.

(** ** [Qualified] *)

Definition from_refstr (r : list N) : option (list N) :=
  match iter r with
  | a :: _ :: _ :: _ => if bool_decide (a = str "refs") then Some r else None
  | _ => None
  end.

Definition from_components (a b : list N) (tail : list (list N)) : list N :=
  extend (and_ (join REFS a) b) tail.

Definition non_empty_iter (q : list N) : outcome (list N * list N * list N * list (list N)) :=
  match iter q with
  | a :: b :: c :: rest => Done (a, b, c, rest)
  | _ => Panic
  end.

(** ** [Namespaced] *)

Definition namespaced (rs : list N) : option (list N) :=
  match iter rs with
  | a :: b :: _ :: d :: _ =>
      if bool_decide (a = str "refs") && bool_decide (b = str "namespaces")
         && bool_decide (d = str "refs")
      then Some rs else None
  | _ => None
  end.

Definition add_namespace (q ns : list N) : outcome (list N) :=
  from_iter ([REFS; NAMESPACES; ns] ++ components q).

Definition namespace (n : list N) : outcome (list N) := unwrap (components n !! 2%nat).

Definition strip_namespace (n : list N) : outcome (list N) :=
  rest ← unwrap (strip_prefix n (str "refs/namespaces"));
  from_iter (drop 1 (components rest)).

(** The [while let] loop of [strip_namespace_recursive]; [None] is out of fuel. *)
Fixpoint strip_loop (fuel : nat) (strip : list N) : option (outcome (list N)) :=
  match fuel with
  | O => None
  | S fuel =>
      match namespaced strip with
      | None => Some (Done strip)
      | Some ns =>
          match strip_namespace ns with
          | Panic => Some Panic
          | Done strip => strip_loop fuel strip
          end
      end
  end.

Definition strip_namespace_recursive (fuel : nat) (n : list N) : option (outcome (list N)) :=
  match strip_namespace n with
  | Panic => Some Panic
  | Done strip => strip_loop fuel strip
  end.

(** [From<lit::RefsNamespaces>]. *)
Definition from_refs_namespaces (ns name : list N) : outcome (list N) :=
  (fun r => and_ r name) <$> from_iter [REFS; NAMESPACES; ns].

(** [From<(Refs, T, U)>], [From<RefsHeads>] and its siblings, and the
    [link-literals] ones. *)
Definition from_refs (cat name : list N) : list N := and_ (join REFS cat) name.
Definition from_category (cat name : list N) : outcome (list N) :=
  (fun r => and_ r name) <$> from_iter [REFS; cat].
Definition from_refs_rad (leaf : list N) : outcome (list N) := from_iter [REFS; RAD; leaf].
Definition from_refs_rad_ids (id : list N) : outcome (list N) := from_iter [REFS; RAD; IDS; id].
Definition from_refs_cobs (ty id : list N) : outcome (list N) := from_iter [REFS; COBS; ty; id].

End Name.

Module Refspec.

Definition PATTERN_CHECK_OPTS : Options := MkOptions true true.

Definition pattern_try_from_str (s : list N) : result Error (list N) :=
  (fun _ => s) <$> ref_format PATTERN_CHECK_OPTS s.

Inductive Component : Type :=
| Glob (p : option (list N))
| Normal (r : list N).

Definition as_str (c : Component) : list N :=
  match c with
  | Glob None => str "*"
  | Glob (Some x) => x
  | Normal x => x
  end.

Definition component_of (x : list N) : Component :=
  if bool_decide (x = str "*") then Glob None
  else if contains x star then Glob (Some x)
  else Normal x.

Definition pattern_components (s : list N) : list Component := component_of <$> split_on slash s.

Definition is_glob (c : Component) : bool := match c with Glob _ => true | Normal _ => false end.

(** The loop of [FromIterator]: [None] is [DuplicateGlob]. *)
Fixpoint from_iter_loop (buf : list N) (seen_glob : bool) (cs : list Component) : option (list N) :=
  match cs with
  | [] => Some buf
  | c :: cs =>
      if is_glob c && seen_glob then None
      else from_iter_loop (buf ++ as_str c ++ [slash]) (is_glob c || seen_glob) cs
  end.

Inductive DuplicateGlob : Type := MkDuplicateGlob.

(** [buf.len() - 1] underflows on an empty iterator. *)
Definition pattern_from_components (cs : list Component) : outcome (result DuplicateGlob (list N)) :=
  match from_iter_loop [] false cs with
  | None => Done (Err MkDuplicateGlob)
  | Some buf => if bool_decide (buf = []) then Panic else Done (Ok (take (length buf - 1) buf))
  end.

Definition pattern_push (buf other : list N) : list N := buf ++ [slash] ++ other.

Definition pattern_and (buf other : list N) : list N := pattern_push buf other.

Definition pattern_join (self other : list N) : list N := pattern_push self other.

Definition pattern_pop (buf : list N) : bool * list N :=
  match rfind slash buf with
  | None => (false, buf)
  | Some idx => (true, take idx buf)
  end.

End Refspec.

Module Lit.
Import Name.

Inductive KnownLit : Type :=
| Refs | Heads | Namespaces | Remotes | Tags | Notes
| Rad | Id | Ids | Selv | SignedRefs | Cobs.

#[export] Instance known_lit_eq_dec : EqDecision KnownLit.
Proof. solve_decision. Defined.

(** [Lit::NAME], and [From<KnownLit> for Component]. *)
Definition into_component (k : KnownLit) : list N :=
  match k with
  | Refs => REFS | Heads => HEADS | Namespaces => NAMESPACES | Remotes => REMOTES
  | Tags => TAGS | Notes => NOTES | Rad => str "rad" | Id => str "id" | Ids => str "ids"
  | Selv => str "self" | SignedRefs => str "signed_refs" | Cobs => str "cobs"
  end.

Definition from_component (c : list N) : option KnownLit :=
  if bool_decide (c = REFS) then Some Refs
  else if bool_decide (c = HEADS) then Some Heads
  else if bool_decide (c = NAMESPACES) then Some Namespaces
  else if bool_decide (c = REMOTES) then Some Remotes
  else if bool_decide (c = TAGS) then Some Tags
  else if bool_decide (c = NOTES) then Some Notes
  else if bool_decide (c = str "rad") then Some Rad
  else if bool_decide (c = str "id") then Some Id
  else if bool_decide (c = str "ids") then Some Ids
  else if bool_decide (c = str "self") then Some Selv
  else if bool_decide (c = str "signed_refs") then Some SignedRefs
  else if bool_decide (c = str "cobs") then Some Cobs
  else None.

Inductive SomeLit : Type :=
| Known (k : KnownLit)
| Any (c : list N).

Definition known (s : SomeLit) : option KnownLit :=
  match s with Known k => Some k | Any _ => None end.

(** [From<Component> for SomeLit] and back. *)
Definition some_lit (c : list N) : SomeLit :=
  match from_component c with
  | Some k => Known k
  | None => Any c
  end.

Definition lit_component (s : SomeLit) : list N :=
  match s with
  | Known k => into_component k
  | Any c => c
  end.

End Lit.

Import Name.

(** ** The invariants of the types *)

Definition is_refstr (s : list N) : Prop := ref_format CHECK_OPTS s = Ok tt.

(** A refname, or a lone at sign: what the unchecked conversions of pieces of a
    refname guarantee. *)
Definition is_piece (s : list N) : Prop := is_refstr s \/ s = str "@".

Definition is_component (c : list N) : Prop := is_piece c /\ slash ∉ c.

Definition is_qualified (s : list N) : Prop :=
  is_refstr s /\ exists a b rest, components s = REFS :: a :: b :: rest.

Definition is_namespaced (s : list N) : Prop :=
  is_refstr s /\ exists ns rest, components s = REFS :: NAMESPACES :: ns :: REFS :: rest.

Definition is_pattern (s : list N) : Prop := ref_format Refspec.PATTERN_CHECK_OPTS s = Ok tt.

(** ** Strings *)

Lemma globs_app s t : globs_of (s ++ t) = (globs_of s + globs_of t)%nat.
Proof. unfold globs_of. by rewrite filter_app, length_app. Qed.

Lemma str_strip_prefix_spec p s t : str_strip_prefix p s = Some t <-> s = p ++ t.
Proof.
  revert s. induction p as [|a p IH]; intros s; simpl; [split; congruence|].
  destruct s as [|b s]; [done|]. destruct (N.eqb_spec a b) as [->|Hab].
  - rewrite IH. split; [by intros ->|]. by intros [= ->].
  - split; [done|]. intros [= ? ?]. congruence.
Qed.

Lemma rfind_none c s : rfind c s = None <-> c ∉ s.
Proof.
  induction s as [|x s IH]; simpl; [split; [by intros _ ?%elem_of_nil|done]|].
  rewrite not_elem_of_cons. destruct (rfind c s) as [i|] eqn:Hr.
  - split; [done|]. intros [_ Hs]. by apply IH in Hs.
  - destruct (N.eqb_spec x c) as [->|]; [split; [done|by intros [? _]]|].
    split; [|done]. split; [congruence|by apply IH].
Qed.

Lemma rfind_last c s t : c ∉ t -> rfind c (s ++ c :: t) = Some (length s).
Proof.
  intros Ht. induction s as [|x s IH]; simpl.
  - apply rfind_none in Ht. by rewrite Ht, N.eqb_refl.
  - by rewrite IH.
Qed.

(** The last separator splits a string that has one. *)
Lemma last_slash s : slash ∈ s -> exists a t, s = a ++ slash :: t /\ slash ∉ t.
Proof.
  induction s as [|x s IH]; [by intros ?%elem_of_nil|]. intros Hs.
  destruct (decide (slash ∈ s)) as [Hin|Hn].
  - destruct (IH Hin) as (a & t & -> & ?). by exists (x :: a), t.
  - apply elem_of_cons in Hs as [<-|]; [|done]. by exists [], s.
Qed.

Lemma contains_spec s c : contains s c = true <-> c ∈ s.
Proof.
  unfold contains. rewrite existsb_exists. split.
  - intros (x & Hx & ->%N.eqb_eq). by apply list_elem_of_In.
  - intros Hc. exists c. split; [by apply list_elem_of_In|apply N.eqb_refl].
Qed.

(** ** Validity in terms of components *)

Lemma piece_valid s :
  is_piece s <-> Forall component_valid (components s) /\ globs_of s = 0%nat.
Proof.
  unfold is_piece, is_refstr. rewrite ref_format_spec. split.
  - intros [[_ Hc _ Hg]|Hs]; [split; [done|simpl in Hg; lia]|subst s].
    split; [|done]. repeat constructor; try done. by intros [_ ?].
  - intros [Hc Hg]. destruct (decide (s = str "@")); [by right|left].
    split; [done|done|by left|simpl; lia].
Qed.

Lemma refstr_valid s : is_refstr s <-> is_piece s /\ s <> str "@".
Proof.
  split.
  - intros H. split; [by left|]. by intros ->.
  - by intros [[?|?] ?].
Qed.

Lemma pattern_valid s :
  is_pattern s <->
  s <> str "@" /\ Forall component_valid (components s) /\ (globs_of s <= 1)%nat.
Proof.
  unfold is_pattern. rewrite ref_format_spec. split.
  - by intros [? ? _ ?].
  - intros (? & ? & ?). by split; [|done|left|].
Qed.

Lemma refstr_piece s : is_refstr s -> is_piece s.
Proof. by left. Qed.
#[export] Hint Resolve refstr_piece : rad.

Lemma refstr_pattern s : is_refstr s -> is_pattern s.
Proof.
  rewrite refstr_valid, piece_valid, pattern_valid. intros [[? ?] ?]. split_and!; [done|done|lia].
Qed.

Lemma component_one c : is_component c -> components c = [c].
Proof. intros [_ Hc]. by apply split_on_no. Qed.

Lemma piece_components s : is_piece s <-> Forall is_component (components s).
Proof.
  rewrite piece_valid. unfold components, iter. rewrite <- globs_split.
  pose proof (split_on_pieces slash s) as Hno. revert Hno.
  generalize (split_on slash s) as ps. intros ps Hno.
  induction Hno as [|p ps Hp Hps IH]; [by split|].
  assert (is_component p <-> component_valid p /\ globs_of p = 0%nat) as Hp'.
  { unfold is_component. rewrite piece_valid. unfold components, iter.
    rewrite split_on_no, Forall_singleton by done. by intuition. }
  rewrite !Forall_cons, Hp', <- IH, fmap_cons.
  change (sum_list (globs_of p :: (globs_of <$> ps)))
    with (globs_of p + sum_list (globs_of <$> ps))%nat.
  rewrite Nat.eq_add_0. by intuition.
Qed.

Lemma components_push a b : components (push a b) = components a ++ components b.
Proof. apply split_on_app. Qed.

Lemma push_not_at a b : push a b <> str "@".
Proof. unfold push. destruct a as [|x a]; simpl; [done|]. intros [= _ H]. by destruct a. Qed.

Lemma push_valid a b : is_piece a -> is_piece b -> is_refstr (push a b).
Proof.
  intros Ha Hb. apply refstr_valid. split; [|apply push_not_at].
  apply piece_components. rewrite components_push, Forall_app.
  by split; apply piece_components.
Qed.
#[export] Hint Resolve push_valid : rad.

Lemma push_pieces a b : is_piece (push a b) -> is_piece a /\ is_piece b.
Proof. by rewrite !piece_components, components_push, Forall_app. Qed.

Lemma components_nonempty s : components s <> [].
Proof. apply split_on_nonempty. Qed.

Lemma join_components s : join_on slash (components s) = s.
Proof. apply join_split. Qed.

Lemma components_join cs : cs <> [] -> Forall is_component cs -> components (join_on slash cs) = cs.
Proof.
  intros Hne Hcs. apply split_join; [done|]. eapply Forall_impl; [exact Hcs|]. by intros c [_ ?].
Qed.

Lemma join_piece cs : cs <> [] -> Forall is_component cs -> is_piece (join_on slash cs).
Proof. intros Hne Hcs. apply piece_components. by rewrite components_join. Qed.

Lemma from_iter_spec cs :
  from_iter cs = if decide (cs = []) then Panic else Done (join_on slash cs).
Proof.
  assert (forall cs buf, cs <> [] ->
    foldl (fun buf c => buf ++ c ++ [slash]) buf cs = buf ++ join_on slash cs ++ [slash]) as Hf.
  { intros cs'. induction cs' as [|c cs' IH]; intros buf Hne; [done|]. simpl.
    destruct cs' as [|d cs']; [done|]. rewrite IH by done. cbn [join_on].
    by rewrite <- !app_assoc. }
  unfold from_iter. case_decide as Hc; [by subst|]. rewrite Hf by done. simpl.
  rewrite bool_decide_eq_false_2 by (by intros [_ ?]%app_eq_nil).
  f_equal. rewrite length_app, Nat.add_sub. apply take_app_length.
Qed.

Lemma from_iter_done cs : cs <> [] -> from_iter cs = Done (join_on slash cs).
Proof. intros. rewrite from_iter_spec. by rewrite decide_False. Qed.

Lemma components_extend cs : forall s,
  components (extend s cs) = components s ++ (cs ≫= components).
Proof.
  induction cs as [|c cs IH]; intros s; simpl; [by rewrite app_nil_r|].
  change (foldl push (push s c) cs) with (extend (push s c) cs).
  by rewrite IH, components_push, <- app_assoc.
Qed.

(** ** Prefixes and suffixes *)

Lemma strip_prefix_spec s a b : strip_prefix s a = Some b <-> s = push a b.
Proof.
  unfold strip_prefix, push. split.
  - destruct (str_strip_prefix a s) as [t|] eqn:Ht; [|done].
    apply str_strip_prefix_spec in Ht as ->. cbn [mbind option_bind].
    intros Ht%str_strip_prefix_spec. by subst.
  - intros Hs%str_strip_prefix_spec. rewrite Hs. cbn [mbind option_bind].
    by apply str_strip_prefix_spec.
Qed.

Lemma pop_push s c : slash ∉ c -> pop (push s c) = (true, s).
Proof.
  intros Hc. unfold pop, push. simpl. rewrite rfind_last by done. by rewrite take_app_length.
Qed.

Lemma pop_none s : slash ∉ s -> pop s = (false, s).
Proof. intros Hs%rfind_none. unfold pop. by rewrite Hs. Qed.

(** ** Namespaces *)

Lemma REFS_component : is_component REFS.
Proof. split; [by left|]. by apply (bool_decide_unpack _). Qed.

Lemma NAMESPACES_component : is_component NAMESPACES.
Proof. split; [by left|]. by apply (bool_decide_unpack _). Qed.
#[export] Hint Resolve REFS_component NAMESPACES_component : rad.

Lemma namespaced_spec s s' :
  namespaced s = Some s' <->
  s' = s /\ exists ns rest, components s = REFS :: NAMESPACES :: ns :: REFS :: rest.
Proof.
  unfold namespaced, components. destruct (iter s) as [|a [|b [|c [|d rest]]]];
    try (split; [done|]; intros [_ (? & ? & ?)]; done).
  change (str "refs") with REFS. change (str "namespaces") with NAMESPACES.
  destruct (decide (a = REFS /\ b = NAMESPACES /\ d = REFS)) as [(-> & -> & ->)|Hn].
  - rewrite !bool_decide_eq_true_2 by done. split; [intros [= <-]; eauto|by intros [-> _]].
  - assert (bool_decide (a = REFS) && bool_decide (b = NAMESPACES) && bool_decide (d = REFS) = false)
      as ->; [|split; [done|]; intros [_ (? & ? & Heq)]; exfalso; apply Hn; by inversion Heq].
    apply not_true_iff_false. rewrite !andb_true_iff, !bool_decide_eq_true.
    intros [[? ?] ?]. by apply Hn.
Qed.

Lemma namespaced_refstr s : is_refstr s -> namespaced s = Some s <-> is_namespaced s.
Proof. intros Hs. rewrite namespaced_spec. unfold is_namespaced. by intuition. Qed.

(** Stripping a namespace removes the first three components. *)
Lemma strip_namespace_spec s ns rest :
  components s = REFS :: NAMESPACES :: ns :: REFS :: rest ->
  strip_namespace s = Done (join_on slash (REFS :: rest)).
Proof.
  intros Hs. unfold strip_namespace.
  assert (strip_prefix s (str "refs/namespaces") = Some (join_on slash (ns :: REFS :: rest))) as ->.
  { apply strip_prefix_spec. rewrite <- (join_components s), Hs. done. }
  cbn [unwrap mbind outcome_bind]. unfold components, iter.
  rewrite split_join; [cbn [drop skipn]; by rewrite from_iter_done|done|].
  pose proof (split_on_pieces slash s) as Hp. unfold components, iter in Hs. rewrite Hs in Hp.
  by do 2 (apply Forall_cons in Hp as [_ Hp]).
Qed.

Lemma components_rest s p rest :
  components s = p ++ rest -> rest <> [] -> components (join_on slash rest) = rest.
Proof.
  intros Hs Hne. apply split_join; [done|]. pose proof (split_on_pieces slash s) as Hp.
  unfold components, iter in Hs. rewrite Hs in Hp. by apply Forall_app in Hp as [_ Hp].
Qed.

(** The namespaces of a name, outermost first, in front of the components of the
    name without them. *)
Definition under (nss : list (list N)) (cs : list (list N)) : list (list N) :=
  (nss ≫= fun ns => [REFS; NAMESPACES; ns]) ++ cs.

Lemma strip_loop_spec fuel : forall s,
  (length (components s) < fuel)%nat ->
  exists nss q, strip_loop fuel s = Some (Done q) /\ namespaced q = None /\
    components s = under nss (components q) /\ components q !! 0%nat = components s !! 0%nat.
Proof.
  induction fuel as [|fuel IH]; intros s Hf; [lia|]. cbn [strip_loop].
  destruct (namespaced s) as [n|] eqn:Hn; [|by exists [], s].
  apply namespaced_spec in Hn as [-> (ns & rest & Hs)].
  rewrite (strip_namespace_spec s ns rest) by done.
  assert (components (join_on slash (REFS :: rest)) = REFS :: rest) as Hr.
  { by apply (components_rest s [REFS; NAMESPACES; ns]). }
  destruct (IH (join_on slash (REFS :: rest))) as (nss & q & Hq & Hnone & Hc & Hh).
  { rewrite Hr. rewrite Hs in Hf. simpl in *. lia. }
  exists (ns :: nss), q. rewrite Hh. split_and!; [done|done| |by rewrite Hr, Hs].
  rewrite Hs, <- Hr, Hc. done.
Qed.

Lemma under_cons ns nss cs : under (ns :: nss) cs = REFS :: NAMESPACES :: ns :: under nss cs.
Proof. done. Qed.

(** ** Patterns *)

Lemma component_of_str x : Refspec.as_str (Refspec.component_of x) = x.
Proof.
  unfold Refspec.component_of. case_bool_decide as Hx; [by rewrite Hx|]. by case_match.
Qed.

Lemma component_of_glob x :
  Refspec.is_glob (Refspec.component_of x) = bool_decide (star ∈ x).
Proof.
  unfold Refspec.component_of. case_bool_decide as Hx.
  - subst x. symmetry. apply bool_decide_eq_true. left.
  - destruct (contains x star) eqn:Hc; symmetry.
    + by apply bool_decide_eq_true, contains_spec.
    + apply bool_decide_eq_false. rewrite <- contains_spec. congruence.
Qed.

Definition globs (cs : list Refspec.Component) : nat :=
  length (filter (fun c => Refspec.is_glob c = true) cs).

Lemma globs_component_cons c cs :
  globs (c :: cs) = ((if Refspec.is_glob c then 1 else 0) + globs cs)%nat.
Proof. unfold globs. rewrite filter_cons. by destruct (Refspec.is_glob c). Qed.

Lemma from_iter_loop_spec cs : forall buf seen,
  Refspec.from_iter_loop buf seen cs =
  if (globs cs + (if seen then 1 else 0) <=? 1)%nat
  then Some (foldl (fun b c => b ++ c ++ [slash]) buf (Refspec.as_str <$> cs)) else
  if (globs cs =? 0)%nat then Some (foldl (fun b c => b ++ c ++ [slash]) buf (Refspec.as_str <$> cs))
  else None.
Proof.
  induction cs as [|c cs IH]; intros buf seen; [by destruct seen|]. cbn [Refspec.from_iter_loop].
  rewrite IH, globs_component_cons, fmap_cons. cbn [foldl].
  destruct (Refspec.is_glob c), seen; simpl;
    destruct (globs cs) as [|[|n]]; done.
Qed.

Lemma pattern_from_spec cs :
  Refspec.pattern_from_components cs =
  if (globs cs <=? 1)%nat
  then match from_iter (Refspec.as_str <$> cs) with Done s => Done (Ok s) | Panic => Panic end
  else Done (Err Refspec.MkDuplicateGlob).
Proof.
  unfold Refspec.pattern_from_components. rewrite from_iter_loop_spec, Nat.add_0_r. unfold from_iter.
  destruct (globs cs) as [|[|n]]; simpl; [by case_bool_decide|by case_bool_decide|done].
Qed.

Lemma globs_of_zero s : globs_of s = 0%nat <-> star ∉ s.
Proof.
  induction s as [|x s IH]; [split; [by intros _ ?%elem_of_nil|done]|].
  rewrite globs_cons, not_elem_of_cons, Nat.eq_add_0, IH.
  destruct (N.eqb_spec x star); intuition congruence.
Qed.

(** Each glob of a valid pattern is in one component. *)
Lemma globs_components s : (globs (Refspec.pattern_components s) <= globs_of s)%nat.
Proof.
  unfold Refspec.pattern_components. rewrite <- globs_split.
  induction (split_on slash s) as [|p ps IH]; [done|].
  rewrite !fmap_cons, globs_component_cons, component_of_glob.
  change (sum_list (globs_of p :: (globs_of <$> ps)))
    with (globs_of p + sum_list (globs_of <$> ps))%nat.
  case_bool_decide as Hp; [|lia]. destruct (globs_of p) eqn:Hg; [|lia].
  by apply globs_of_zero in Hg.
Qed.

Lemma push_pattern a b :
  is_pattern a \/ is_piece a -> is_pattern b \/ is_piece b ->
  (globs_of a + globs_of b <= 1)%nat -> is_pattern (push a b).
Proof.
  assert (forall x, is_pattern x \/ is_piece x -> Forall component_valid (components x)) as Hx.
  { intros x. rewrite pattern_valid, piece_valid. by intuition. }
  intros Ha%Hx Hb%Hx Hg. apply pattern_valid. rewrite components_push, Forall_app.
  split_and!; [apply push_not_at|done|done|]. unfold push. rewrite !globs_app.
  change (globs_of [slash]) with 0%nat. lia.
Qed.

Lemma join_extend c cs : join_on slash (c :: cs) = extend c cs.
Proof.
  assert (forall cs x y, x ++ slash :: extend y cs = extend (push x y) cs) as Hx.
  { induction cs0 as [|d ds IH]; intros x y; [done|]. simpl. unfold extend in IH. rewrite IH.
    unfold push. by rewrite <- !app_assoc. }
  revert c. induction cs as [|d cs IH]; intros c; [done|].
  rewrite join_cons, IH by done. apply Hx.
Qed.

Lemma extend_refstr cs : forall s, is_refstr s -> Forall is_refstr cs -> is_refstr (extend s cs).
Proof.
  induction cs as [|c cs IH]; intros s Hs Hcs; [done|]. inversion_clear Hcs. simpl.
  apply IH; auto with rad.
Qed.

(** [refname_closed]: joining refnames, extending one and collecting a non-empty
    sequence of them give refnames, with the components of the operands in order;
    a refname joined with a pattern is a pattern, and so is a pattern joined with a
    refname. *)
Theorem refname_closed a b p cs :
  is_refstr a -> is_refstr b -> is_pattern p -> Forall is_refstr cs ->
  is_refstr (join a b) /\ components (join a b) = components a ++ components b /\
  is_refstr (extend a cs) /\ components (extend a cs) = components a ++ (cs ≫= components) /\
  (cs = [] /\ from_iter cs = Panic \/
   exists r, from_iter cs = Done r /\ is_refstr r /\ components r = cs ≫= components) /\
  is_pattern (to_pattern a p) /\ is_pattern (Refspec.pattern_join p a).
Proof.
  intros Ha Hb Hp Hcs.
  pose proof Ha as [[_ Hga]%piece_valid _]%refstr_valid.
  pose proof Hp as (_ & _ & Hgp)%pattern_valid.
  split_and!; auto using components_push, components_extend, extend_refstr with rad.
  - destruct cs as [|c cs]; [by left|right]. inversion_clear Hcs.
    exists (extend c cs). rewrite from_iter_done, join_extend by done.
    auto using components_extend, extend_refstr.
  - apply push_pattern; [right; auto with rad|by left|lia].
  - apply push_pattern; [by left|right; auto with rad|lia].
Qed.

Lemma refname_closed_witness :
  is_refstr (join (str "refs/heads") (str "main")).
Proof.
  apply (refname_closed (str "refs/heads") (str "main") (str "feature/*") [str "x"]);
    [reflexivity|reflexivity|reflexivity|apply Forall_singleton; reflexivity].
Defined.

(** [strip_prefix_join]: stripping a prefix inverts joining: it yields [b] exactly
    for the name joined from [base] and [b], so never splits a component.  Popping
    removes exactly the last component, and refuses to remove the only one. *)
Theorem strip_prefix_join s base b :
  (strip_prefix s base = Some b <-> s = join base b) /\
  match pop s with
  | (true, s') => exists c, s = push s' c /\ components s = components s' ++ [c]
  | (false, s') => s' = s /\ components s = [s]
  end.
Proof.
  split; [apply strip_prefix_spec|]. destruct (decide (slash ∈ s)) as [Hin|Hn].
  - apply last_slash in Hin as (a & t & -> & Ht).
    change (a ++ slash :: t) with (push a t). rewrite pop_push by done.
    exists t. split; [done|]. rewrite components_push. f_equal. by apply split_on_no.
  - rewrite pop_none by done. split; [done|]. by apply split_on_no.
Qed.

(** [components_roundtrip]: the components of a refname are refnames without a
    separator or lone at signs, and collecting them gives the name back; collecting
    any non-empty sequence of components gives a name with those components. *)
Theorem components_roundtrip s cs :
  is_refstr s -> Forall is_component cs -> cs <> [] ->
  Forall is_component (components s) /\ from_iter (components s) = Done s /\
  exists r, from_iter cs = Done r /\ components r = cs /\ is_piece r /\
    (is_refstr r \/ cs = [str "@"]).
Proof.
  intros Hs Hcs Hne. split_and!.
  - apply piece_components. auto with rad.
  - rewrite from_iter_done by apply components_nonempty. by rewrite join_components.
  - exists (join_on slash cs). pose proof (join_piece cs Hne Hcs) as Hp.
    rewrite from_iter_done, components_join by done. split_and!; [done|done|done|].
    destruct Hp as [Hr|Hr]; [by left|right].
    rewrite <- (components_join cs) by done. by rewrite Hr.
Qed.

Lemma components_roundtrip_witness :
  from_iter (components (str "refs/heads/main")) = Done (str "refs/heads/main").
Proof.
  apply (components_roundtrip (str "refs/heads/main") [str "a"]); [reflexivity| |done].
  apply Forall_singleton. split; [by left|]. by apply (bool_decide_unpack _).
Defined.

(** [namespace_roundtrip]: putting a qualified name under a namespace gives a
    namespaced name, recognised as one, whose namespace is the given component,
    and stripping it gives the qualified name back. *)
Theorem namespace_roundtrip q ns :
  is_qualified q -> is_component ns ->
  exists n, add_namespace q ns = Done n /\ from_refs_namespaces ns q = Done n /\
    is_namespaced n /\ namespaced n = Some n /\ from_refstr n = Some n /\
    namespace n = Done ns /\ strip_namespace n = Done q.
Proof.
  intros [Hq (a & b & rest & Hc)] Hns.
  set (cs := [REFS; NAMESPACES; ns] ++ components q).
  assert (Forall is_component cs) as Hcs.
  { apply Forall_app. split; [rewrite !Forall_cons; auto with rad|].
    apply piece_components. auto with rad. }
  assert (cs <> []) as Hne by done.
  pose proof (components_join cs Hne Hcs) as Hn.
  assert (is_namespaced (join_on slash cs)) as Hnamed.
  { split; [|exists ns, (a :: b :: rest); by rewrite Hn; unfold cs; rewrite Hc].
    apply refstr_valid. split; [by apply join_piece|].
    intros Hat. rewrite Hat in Hn. by unfold cs in Hn. }
  exists (join_on slash cs). split_and!.
  - apply from_iter_done. done.
  - unfold from_refs_namespaces. rewrite from_iter_done by done. cbn [fmap outcome_fmap].
    f_equal. rewrite <- (join_components q) at 1. unfold cs. rewrite Hc. done.
  - done.
  - by apply namespaced_refstr; [apply Hnamed|].
  - unfold from_refstr. change (iter (join_on slash cs)) with (components (join_on slash cs)).
    rewrite Hn. done.
  - unfold namespace. by rewrite Hn.
  - rewrite (strip_namespace_spec _ ns (a :: b :: rest)) by (by rewrite Hn; unfold cs; rewrite Hc).
    rewrite <- Hc. by rewrite join_components.
Qed.

Lemma namespace_roundtrip_witness :
  exists n, add_namespace (str "refs/heads/main") (str "xyz") = Done n /\
    strip_namespace n = Done (str "refs/heads/main").
Proof.
  destruct (namespace_roundtrip (str "refs/heads/main") (str "xyz")) as (n & Ha & _ & _ & _ & _ & _ & Hs).
  - split; [reflexivity|]. by exists (str "heads"), (str "main"), [].
  - split; [by left|]. by apply (bool_decide_unpack _).
  - by exists n.
Defined.

(** Stripping all namespaces of a namespaced name. *)
Lemma strip_recursive_spec n ns rest fuel :
  components n = REFS :: NAMESPACES :: ns :: REFS :: rest -> (length (components n) <= fuel)%nat ->
  exists nss q, strip_namespace_recursive fuel n = Some (Done q) /\ namespaced q = None /\
    nss <> [] /\ components n = under nss (components q) /\ components q !! 0%nat = Some REFS.
Proof.
  intros Hn Hf. unfold strip_namespace_recursive. rewrite (strip_namespace_spec n ns rest Hn).
  assert (components (join_on slash (REFS :: rest)) = REFS :: rest) as Hr
    by (by apply (components_rest n [REFS; NAMESPACES; ns])).
  destruct (strip_loop_spec fuel (join_on slash (REFS :: rest))) as (nss & q & Hq & Hnone & Hc & Hh).
  { rewrite Hr. rewrite Hn in Hf. simpl in *. lia. }
  exists (ns :: nss), q. rewrite Hh. split_and!; [done|done|done| |by rewrite Hr].
  rewrite under_cons, <- Hc, Hr. done.
Qed.

(** [strip_recursive_total]: the loop that strips all namespaces terminates after
    at most as many rounds as the name has components, never panics, and leaves a
    name that is not namespaced, which is the original one with exactly its
    leading namespaces removed. *)
Theorem strip_recursive_total n fuel :
  is_namespaced n -> (length (components n) <= fuel)%nat ->
  exists nss q, strip_namespace_recursive fuel n = Some (Done q) /\ namespaced q = None /\
    nss <> [] /\ components n = under nss (components q).
Proof.
  intros [_ (ns & rest & Hn)] Hf.
  destruct (strip_recursive_spec n ns rest fuel Hn Hf) as (nss & q & ? & ? & ? & ? & _).
  by exists nss, q.
Qed.

Lemma strip_recursive_total_witness :
  exists nss q,
    strip_namespace_recursive 9 (str "refs/namespaces/a/refs/namespaces/b/refs/heads/main") =
      Some (Done q) /\ namespaced q = None /\ nss <> [] /\
    components (str "refs/namespaces/a/refs/namespaces/b/refs/heads/main") =
      under nss (components q).
Proof.
  apply strip_recursive_total; [|apply Nat.leb_le; reflexivity].
  split; [vm_compute; reflexivity|].
  exists (str "a"), [str "namespaces"; str "b"; str "refs"; str "heads"; str "main"].
  vm_compute. reflexivity.
Defined.

(** [pattern_roundtrip]: a pattern's components give the pattern back; collecting
    components panics on none, reports a duplicate glob exactly when more than one
    component is a glob, and otherwise joins them. *)
Theorem pattern_roundtrip s cs :
  is_pattern s ->
  Refspec.pattern_from_components (Refspec.pattern_components s) = Done (Ok s) /\
  match Refspec.pattern_from_components cs with
  | Panic => cs = []
  | Done (Err _) => (1 < globs cs)%nat
  | Done (Ok r) => (globs cs <= 1)%nat /\ cs <> [] /\ r = join_on slash (Refspec.as_str <$> cs)
  end.
Proof.
  intros (_ & _ & Hg)%pattern_valid. rewrite !pattern_from_spec. split.
  - pose proof (globs_components s). replace (globs _ <=? 1)%nat with true
      by (symmetry; apply Nat.leb_le; lia).
    assert (Refspec.as_str <$> Refspec.pattern_components s = components s) as ->.
    { unfold Refspec.pattern_components, components, iter. rewrite <- list_fmap_compose.
      rewrite <- (list_fmap_id (split_on slash s)) at 2. apply list_fmap_ext.
      intros ? x _. apply component_of_str. }
    rewrite from_iter_done by apply components_nonempty. by rewrite join_components.
  - destruct (Nat.leb_spec (globs cs) 1); [|done]. rewrite from_iter_spec.
    destruct cs as [|c cs]; [done|]. rewrite decide_False by done. done.
Qed.

Lemma pattern_roundtrip_witness :
  Refspec.pattern_from_components (Refspec.pattern_components (str "refs/heads/*")) =
    Done (Ok (str "refs/heads/*")).
Proof. apply (pattern_roundtrip (str "refs/heads/*") []). reflexivity. Defined.

(** [lit_roundtrip]: the literals and their names are in bijection, and turning a
    component into a literal or an opaque component and back is the identity. *)
Theorem lit_roundtrip k c :
  Lit.from_component (Lit.into_component k) = Some k /\
  (Lit.from_component c = Some k <-> c = Lit.into_component k) /\
  Lit.lit_component (Lit.some_lit c) = c /\
  Lit.known (Lit.some_lit c) = Lit.from_component c.
Proof.
  assert (forall j, Lit.from_component (Lit.into_component j) = Some j) as Hk by (by intros []).
  assert (forall j, Lit.from_component c = Some j -> c = Lit.into_component j) as Hc.
  { intros j. unfold Lit.from_component. repeat case_bool_decide; by intros [= <-]. }
  split_and!; [done|split; [apply Hc|by intros ->]| |].
  - unfold Lit.some_lit. destruct (Lit.from_component c) as [j|] eqn:Hj; [|done].
    symmetry. by apply Hc.
  - unfold Lit.some_lit. by destruct (Lit.from_component c).
Qed.

(** [stripped_not_qualified]: a name that ends right after the inner [refs]
    counts as namespaced, but what is left after stripping its namespace is not a
    qualified name although it has that type: asking it for its three components
    panics.  And a component of a refname may be a lone at sign, which is not a
    refname. *)
Theorem stripped_not_qualified ns :
  is_component ns ->
  (exists n q,
     from_iter [REFS; NAMESPACES; ns; REFS] = Done n /\ is_refstr n /\ namespaced n = Some n /\
     strip_namespace n = Done q /\ from_refstr q = None /\ non_empty_iter q = Panic) /\
  is_refstr (str "foo/@") /\ components (str "foo/@") = [str "foo"; str "@"] /\
  ~ is_refstr (str "@").
Proof.
  intros Hns. split; [|done].
  set (cs := [REFS; NAMESPACES; ns; REFS]).
  assert (Forall is_component cs) as Hcs by (unfold cs; rewrite !Forall_cons; auto 6 with rad).
  pose proof (components_join cs ltac:(done) Hcs) as Hc.
  assert (is_refstr (join_on slash cs)) as Hr.
  { apply refstr_valid. split; [by apply join_piece|]. intros Hat. by rewrite Hat in Hc. }
  exists (join_on slash cs), REFS. split_and!; try done.
  - by apply from_iter_done.
  - apply namespaced_refstr; [done|]. split; [done|]. by exists ns, [].
  - by apply (strip_namespace_spec _ ns []).
Qed.

Lemma stripped_not_qualified_witness :
  exists n q, from_iter [REFS; NAMESPACES; str "a"; REFS] = Done n /\
    strip_namespace n = Done q /\ non_empty_iter q = Panic.
Proof.
  destruct (stripped_not_qualified (str "a")) as [(n & q & ? & ? & ? & ? & ? & ?) _].
  - split; [by left|]. by apply (bool_decide_unpack _).
  - by exists n, q.
Defined.
