(* ===== verification/Scoped.v ===== *)
(** * Scoped reference names

    [link-replication/src/refs.rs], [refs/lit.rs], [refs/scoped.rs] and
    [refs/parsed.rs]: where the references of a peer live.  What a peer owns is
    [refs/<category>/<name>]; what it replicates of others is
    [refs/remotes/<peer>/<category>/<name>]; a name that is parsed becomes a
    remote (if any) and what that remote owns, with the [rad] category split into
    its known references.  How peer ids and URNs are written is an interface
    ([PeerNames], [Urn]): their encodings come from a library. *)
From stdpp Require Import base list gmap.
From Stdlib Require Import NArith Lia Ascii.
From Stdlib Require String.
Import String.StringSyntax.
From S2P Require Import Prelude RefFormat RefName.
Import Name.
#[local] Open Scope N_scope.

(** ** Peer ids and URNs as reference name components *)

(** [PeerId::default_encoding] and [PeerId::from_str] ([link-crypto/src/peer.rs]):
    the encoding is a single component and is read back.  Reading expects that there is data, and
    may panic; [Keys.v] has the definitions for keys as bytes. *)
Class PeerNames := {
  default_encoding : N -> list N;
  peer_from_str : list N -> outcome (option N);
  peer_roundtrip p : peer_from_str (default_encoding p) = Done (Some p);
  peer_refstr p : is_refstr (default_encoding p);
  peer_slash p : slash ∉ default_encoding p;
}.

(** Reading a peer id never panics; [peer_never_panics] of [Keys.v] has it of the code. *)
Class PeerNamesTotal `{PeerNames} : Prop := peer_total s : peer_from_str s <> Panic.

(** The trait [ids]::Urn]. *)
Class Urn (U : Type) := {
  try_from_id : list N -> option U;
  encode_id : U -> list N;
}.

(** What its implementations for URNs promise. *)
Class UrnLaws (U : Type) `{Urn U} := {
  urn_roundtrip u : try_from_id (encode_id u) = Some u;
  urn_refstr u : is_refstr (encode_id u);
  urn_slash u : slash ∉ encode_id u;
}.

(** [parsed::Identity]: a URN that is the string itself. *)
Definition Identity : Type := list N.
#[export] Instance identity_urn : Urn Identity := {|
  try_from_id := fun s => Some s;
  encode_id := fun i => i;
|}.

Definition expect_ref {E} (r : result E (list N)) : outcome (list N) := unwrap (res_ok r).

Section Refs.
Context {PN : PeerNames}.

Definition from_peer_id (p : N) : outcome (list N) := expect_ref (try_from_str (default_encoding p)).

Definition from_urn {U} `{Urn U} (urn : U) : outcome (list N) :=
  expect_ref (try_from_str (encode_id urn)).

Definition rad_ids {U} `{Urn U} (urn : U) : outcome (list N) :=
  r ← from_urn urn; h ← head r; from_refs_rad_ids h.

Definition REFS_RAD_ID : outcome (list N) := from_refs_rad ID.
Definition REFS_RAD_SELF : outcome (list N) := from_refs_rad SELF.
Definition REFS_RAD_SIGNED_REFS : outcome (list N) := from_refs_rad SIGNED_REFS.

(** [lit::Prefix::as_str]. *)
Inductive Prefix : Type := PHeads | PNotes | PRad | PRadIds | PRemotes | PTags | PCobs.

Definition prefix_str (p : Prefix) : list N :=
  match p with
  | PHeads => str "refs/heads/" | PNotes => str "refs/notes/" | PRad => str "refs/rad/"
  | PRadIds => str "refs/rad/ids/" | PRemotes => str "refs/remotes/" | PTags => str "refs/tags/"
  | PCobs => str "refs/cobs/"
  end.

(** ** [scoped.rs] *)

(** [scoped::namespaced]. *)
Definition namespaced_urn {U} `{Urn U} (ns : U) (name : list N) : outcome (list N) :=
  r ← from_urn ns; c ← unwrap (from_refstring r); add_namespace name c.

(** [Qualified::from((Refs, Remotes, from_peer_id(remote).and(cat).and(..)))]. *)
Definition under_remote (remote_id : N) (cat fst : list N) (tail : list (list N)) :
    outcome (list N) :=
  p ← from_peer_id remote_id;
  rest ← from_iter (fst :: tail);
  from_category REMOTES (and_ (and_ p cat) rest).

(** One level of [remote_tracking]; [rec] is the recursive call. *)
Definition remote_tracking_with (rec : list N -> outcome (option (list N))) (fuel : nat)
    (remote_id : N) (name : list N) : outcome (option (list N)) :=
  '(_, b, c, tail) ← non_empty_iter name;
  if bool_decide (b = REMOTES) then
    match tail with
    | cat :: fst :: tail => Some <$> under_remote remote_id cat fst tail
    | _ => Done None
    end
  else if bool_decide (b = NAMESPACES) then
    ns ← unwrap (namespaced name);
    match strip_namespace_recursive fuel ns with
    | Some r => q ← r; rec q
    | None => Panic
    end
  else Some <$> under_remote remote_id b c tail.

(** The recursion of [remote_tracking].  Neither it nor the loop of
    [strip_namespace_recursive] runs out of fuel: see [remote_tracking_total]. *)
Fixpoint remote_tracking_rec (depth fuel : nat) (remote_id : N) (name : list N) :
    outcome (option (list N)) :=
  match depth with
  | O => Panic
  | S depth => remote_tracking_with (remote_tracking_rec depth fuel remote_id) fuel remote_id name
  end.

Definition remote_tracking (remote_id : N) (name : list N) : outcome (option (list N)) :=
  remote_tracking_rec 2 (length (components name)) remote_id name.

(** [Owned::into_remote_tracking]. *)
Definition into_remote_tracking (owned : list N) (remote_id : N) : outcome (list N) :=
  '(_, b, c, tail) ← non_empty_iter owned; under_remote remote_id b c tail.

Definition owned (name : list N) : outcome (option (list N)) :=
  '(_, b, c, tail) ← non_empty_iter name;
  if bool_decide (b = NAMESPACES) then Done None
  else if bool_decide (b = REMOTES) then
    match tail with
    | cat :: fst :: tail => rest ← from_iter (fst :: tail); Done (Some (from_refs cat rest))
    | _ => Done None
    end
  else Done (Some name).

(** [Scoped]: the scope, and the name as [Owned] or [RemoteTracking]. *)
Definition Scoped : Type := N * (list N + list N).

Definition scoped (wanted_id remote_id : N) (name : list N) : outcome Scoped :=
  if bool_decide (wanted_id = remote_id) then Done (wanted_id, inl name)
  else r ← into_remote_tracking name wanted_id; Done (wanted_id, inr r).

(** [AsRef<RefStr>] and [From<Scoped> for Qualified]. *)
Definition scoped_ref (s : Scoped) : list N :=
  match s.2 with inl o => o | inr r => r end.

(** ** [parsed.rs] *)

Inductive ParseError : Type :=
| Unqualified
| ENamespaced (s : list N)
| PeerIdError
| Check (e : Error)
| Other.

Inductive Rad (U : Type) : Type :=
| Id | Selv | SignedRefs
| Ids (urn : U).

Record Parsed (U : Type) : Type := MkParsed {
  remote : option N;
  inner : Rad U + list N;
}.
End Refs.
Arguments Id {U}. Arguments Selv {U}. Arguments SignedRefs {U}. Arguments Ids {U} urn.
Arguments MkParsed {U} remote inner.
Arguments remote {U} p.
Arguments inner {U} p.

#[export] Instance rad_eq_dec {U} `{EqDecision U} : EqDecision (Rad U).
Proof. solve_decision. Defined.
#[export] Instance parsed_eq_dec {U} `{EqDecision U} : EqDecision (Parsed U).
Proof. solve_decision. Defined.

Section Parsed.
Context {PN : PeerNames} {U : Type} `{Urn U}.

(** [From<Rad<Urn>> for Qualified]. *)
Definition rad_qualified (r : Rad U) : outcome (list N) :=
  match r with
  | Id => REFS_RAD_ID
  | Selv => REFS_RAD_SELF
  | SignedRefs => REFS_RAD_SIGNED_REFS
  | Ids urn => s ← from_urn urn; c ← unwrap (from_refstring s); from_refs_rad_ids c
  end.

(** [Parsed::to_owned] *)
Definition to_owned (p : Parsed U) : outcome (list N) :=
  match inner p with
  | inl rad => rad_qualified rad
  | inr o => Done o
  end.

Definition to_remote_tracking (p : Parsed U) : outcome (option (list N)) :=
  match remote p with
  | None => Done None
  | Some id => o ← to_owned p; remote_tracking id o
  end.

Definition parse_inner (cs : list (list N)) : outcome (option (Rad U + list N)) :=
  match cs with
  | [] => Done None
  | x :: cs =>
      if bool_decide (x = RAD) then
        match cs with
        | [] => Done None
        | [y] =>
            Done (if bool_decide (y = ID) then Some (inl Id)
                  else if bool_decide (y = SELF) then Some (inl Selv)
                  else if bool_decide (y = SIGNED_REFS) then Some (inl SignedRefs)
                  else None)
        | y :: id :: rest =>
            Done (if bool_decide (y = IDS) then
                    match try_from_id id with
                    | Some urn => if bool_decide (rest = []) then Some (inl (Ids urn)) else None
                    | None => None
                    end
                  else None)
        end
      else
        match cs with
        | [] => Done None
        | y :: cs =>
            rest ← from_iter (y :: cs);
            (fun o => match o with Some o => Some (inr o) | None => None end)
              <$> owned (from_refs x rest)
        end
  end.

(** [TryFrom<Qualified> for Parsed]. *)
Definition parsed_of (q : list N) : outcome (result ParseError (Parsed U)) :=
  '(_, b, c, tail) ← non_empty_iter q;
  if bool_decide (b = NAMESPACES) then Done (Err (ENamespaced b))
  else if bool_decide (b = REMOTES) then
    peer ← peer_from_str c;
    match peer with
    | None => Done (Err PeerIdError)
    | Some r =>
        i ← parse_inner tail;
        Done (MkParsed (Some r) <$> ok_or i Other)
    end
  else
    i ← parse_inner (b :: c :: tail);
    Done (MkParsed None <$> ok_or i Other).

(** [TryFrom<RefString> for Parsed]. *)
Definition parsed_of_refstring (r : list N) : outcome (result ParseError (Parsed U)) :=
  match from_refstr r with
  | None => Done (Err Unqualified)
  | Some q => parsed_of q
  end.

(** The input is the decoded text: [BStr::to_str] refuses what is not UTF-8. *)
Definition parse (input : list N) : outcome (result ParseError (Parsed U)) :=
  match map_err Check (try_from_str input) with
  | Err e => Done (Err e)
  | Ok rs => parsed_of_refstring rs
  end.
End Parsed.

(** ** Names as lists of components *)

Lemma join_push a b cs : join_on slash (a :: b :: cs) = push a (join_on slash (b :: cs)).
Proof. done. Qed.

Lemma qualified_components n :
  is_qualified n <-> is_refstr n /\ exists a b rest, components n = REFS :: a :: b :: rest.
Proof. done. Qed.

Lemma non_empty_iter_spec n a b c rest :
  components n = a :: b :: c :: rest -> non_empty_iter n = Done (a, b, c, rest).
Proof. unfold components, non_empty_iter. by intros ->. Qed.

Lemma join_qualified a b rest :
  Forall is_component (a :: b :: rest) -> is_qualified (join_on slash (REFS :: a :: b :: rest)).
Proof.
  intros Hcs. assert (Forall is_component (REFS :: a :: b :: rest)) as Hcs'
    by (constructor; auto with rad).
  split; [|by exists a, b, rest; apply components_join].
  apply refstr_valid. split; [by apply join_piece|]. rewrite join_push. apply push_not_at.
Qed.

Lemma qualified_forall n : is_qualified n -> Forall is_component (components n).
Proof. intros [? _]. apply piece_components. auto with rad. Qed.

Lemma RAD_component : is_component RAD.
Proof. split; [by left|]. by apply (bool_decide_unpack _). Qed.
Lemma REMOTES_component : is_component REMOTES.
Proof. split; [by left|]. by apply (bool_decide_unpack _). Qed.
Lemma IDS_component : is_component IDS.
Proof. split; [by left|]. by apply (bool_decide_unpack _). Qed.
#[export] Hint Resolve RAD_component REMOTES_component IDS_component : rad.

Lemma from_refs_join cat c tail :
  from_refs cat (join_on slash (c :: tail)) = join_on slash (REFS :: cat :: c :: tail).
Proof.
  rewrite !join_push. unfold from_refs, and_, join, push. by rewrite <- !app_assoc.
Qed.

Section NameLemmas.
Context {PN : PeerNames}.

Lemma peer_component p : is_component (default_encoding p).
Proof. split; [left; apply peer_refstr|apply peer_slash]. Qed.
#[local] Hint Resolve peer_component : rad.

Lemma try_from_str_ok s : is_refstr s -> try_from_str s = Ok s.
Proof. unfold is_refstr, try_from_str. by intros ->. Qed.

Lemma try_from_str_spec s t : try_from_str s = Ok t <-> t = s /\ is_refstr s.
Proof.
  unfold try_from_str, is_refstr. destruct (ref_format CHECK_OPTS s) as [[]|]; simpl; split; try done.
  - by intros [= <-].
  - by intros [-> _].
  - by intros [_ ?].
Qed.

Lemma from_peer_id_done p : from_peer_id p = Done (default_encoding p).
Proof. unfold from_peer_id, expect_ref. by rewrite (try_from_str_ok _ (peer_refstr p)). Qed.

(** The name of a remote's reference. *)
Definition tracking_name (r : N) (cs : list (list N)) : list N :=
  join_on slash (REFS :: REMOTES :: default_encoding r :: cs).

Lemma under_remote_done r cat c tail :
  under_remote r cat c tail = Done (tracking_name r (cat :: c :: tail)).
Proof.
  unfold under_remote. rewrite from_peer_id_done. cbn [mbind outcome_bind].
  rewrite from_iter_done by done. cbn [mbind outcome_bind]. unfold from_category.
  rewrite from_iter_done by done. cbn [fmap outcome_fmap]. f_equal.
  unfold tracking_name. rewrite !join_push. unfold and_, push. cbn [join_on].
  by rewrite <- !app_assoc.
Qed.

Lemma tracking_components r cs :
  Forall is_component cs -> components (tracking_name r cs) = REFS :: REMOTES :: default_encoding r :: cs.
Proof. intros. apply components_join; [done|]. rewrite !Forall_cons. auto with rad. Qed.

Lemma tracking_qualified r cs : Forall is_component cs -> is_qualified (tracking_name r cs).
Proof. intros. apply join_qualified. rewrite !Forall_cons. auto with rad. Qed.

(** ** [remote_tracking] *)

(** One level, by what the name looks like. *)
Lemma remote_tracking_level rec fuel r n b c tail :
  components n = REFS :: b :: c :: tail -> b <> NAMESPACES ->
  remote_tracking_with rec fuel r n =
    Done (if decide (b = REMOTES)
          then match tail with
               | cat :: c' :: tail => Some (tracking_name r (cat :: c' :: tail))
               | _ => None
               end
          else Some (tracking_name r (b :: c :: tail))).
Proof.
  intros Hn Hb. unfold remote_tracking_with. rewrite (non_empty_iter_spec _ _ _ _ _ Hn).
  cbn [mbind outcome_bind]. case_decide.
  - rewrite bool_decide_eq_true_2 by done. destruct tail as [|cat [|c' tail]]; [done..|].
    by rewrite under_remote_done.
  - rewrite !bool_decide_eq_false_2 by done. by rewrite under_remote_done.
Qed.

Lemma remote_tracking_plain r n b c tail :
  components n = REFS :: b :: c :: tail -> b <> NAMESPACES -> b <> REMOTES ->
  remote_tracking r n = Done (Some (tracking_name r (b :: c :: tail))).
Proof.
  intros Hn ? ?. unfold remote_tracking. cbn [remote_tracking_rec].
  rewrite (remote_tracking_level _ _ _ _ _ _ _ Hn) by done. by rewrite decide_False.
Qed.

Lemma remote_tracking_stuck rec fuel r n :
  namespaced n = None -> (forall b c tail, components n = REFS :: b :: c :: tail -> b = NAMESPACES) ->
  (exists cs, components n = REFS :: cs) ->
  remote_tracking_with rec fuel r n = Panic.
Proof.
  intros Hnone Hb [cs Hn]. unfold remote_tracking_with, non_empty_iter.
  change (iter n) with (components n). rewrite Hn in *.
  destruct cs as [|b [|c tail]]; [done..|]. cbn [mbind outcome_bind].
  rewrite (Hb b c tail) by done. rewrite bool_decide_eq_false_2, bool_decide_eq_true_2 by done.
  by rewrite Hnone.
Qed.
End NameLemmas.
#[export] Hint Resolve peer_component : rad.

Section Theorems.
Context {PN : PeerNames}.

(** What [remote_tracking] does with a name that has no namespace in front. *)
Definition tracked_as (r : N) (q : list N) (o : outcome (option (list N))) : Prop :=
  match components q with
  | _ :: b :: c :: tail =>
      if decide (b = NAMESPACES) then o = Panic
      else o = Done (if decide (b = REMOTES)
                     then match tail with
                          | cat :: c' :: tail => Some (tracking_name r (cat :: c' :: tail))
                          | _ => None
                          end
                     else Some (tracking_name r (b :: c :: tail)))
  | _ => o = Panic
  end.

Lemma tracked_as_level rec fuel r q cs :
  namespaced q = None -> components q = REFS :: cs ->
  tracked_as r q (remote_tracking_with rec fuel r q).
Proof.
  intros Hnone Hq. unfold tracked_as. rewrite Hq. destruct cs as [|b [|c tail]].
  1,2: apply remote_tracking_stuck; [done|rewrite Hq; by intros|eauto].
  case_decide as Hb.
  - apply remote_tracking_stuck; [done| |eauto]. rewrite Hq. by intros ? ? ? [= <- _ _].
  - by apply remote_tracking_level.
Qed.

(** [remote_tracking_total]: the remote tracking name of a qualified name is computed
    without running out of rounds.  Leading namespaces are removed; what remains is
    put under the remote, or, when it is a remote tracking name already, moved from
    its remote to the given one (nothing when no category and name follow).  It
    panics exactly when what remains has no category and name, or starts with
    [refs/namespaces] without being namespaced. *)
Theorem remote_tracking_total (r : N) (n : list N) (Hn : is_qualified n) :
  exists nss q, components n = under nss (components q) /\ namespaced q = None /\
    tracked_as r q (remote_tracking r n).
Proof.
  destruct Hn as [_ (b & c & rest & Hc)]. unfold remote_tracking.
  change (remote_tracking_rec 2 (length (components n)) r n) with
    (remote_tracking_with (remote_tracking_rec 1 (length (components n)) r)
      (length (components n)) r n).
  destruct (namespaced n) as [n'|] eqn:Hns.
  - apply namespaced_spec in Hns as [-> (ns & rest' & Hn')].
    destruct (strip_recursive_spec n ns rest' (length (components n)) Hn')
      as (nss & q & Hs & Hnone & _ & Hu & Hh); [lia|].
    exists nss, q. split_and!; [done|done|]. unfold remote_tracking_with.
    rewrite (non_empty_iter_spec _ _ _ _ _ Hn'). cbn [mbind outcome_bind].
    rewrite bool_decide_eq_false_2, bool_decide_eq_true_2 by done.
    rewrite (proj2 (namespaced_spec n n)) by eauto. cbn [unwrap mbind outcome_bind].
    rewrite Hs. cbn [mbind outcome_bind remote_tracking_rec].
    destruct (components q) as [|x cs] eqn:Hq; [done|]. injection Hh as ->.
    by apply (tracked_as_level _ _ _ _ cs).
  - exists [], n. split_and!; [done|done|]. by eapply tracked_as_level.
Qed.
End Theorems.

(** Peer ids in unary, and URNs by their string: the interfaces can be met. *)
Definition unary_encoding (p : N) : list N := 104 :: replicate (N.to_nat p) 97.
Definition unary_from_str (s : list N) : option N :=
  match s with
  | c :: s =>
      if bool_decide (c = 104 /\ Forall (fun x => x = 97) s) then Some (N.of_nat (length s)) else None
  | [] => None
  end.

(** A word of small letters and digits is a component. *)
Definition letter (c : N) : Prop := 97 <= c <= 122 \/ 48 <= c <= 57.

Lemma letters_adjacent a b s : Forall letter s -> ~ letter a -> adjacent a b s = false.
Proof.
  intros Hs Ha. induction Hs as [|x s Hx Hs IH]; [done|]. cbn [adjacent].
  destruct s as [|y s]; [done|]. rewrite IH. destruct (N.eqb_spec x a) as [->|]; [by destruct Ha|done].
Qed.

Lemma letter_forbidden c : letter c -> forbidden c = false.
Proof.
  unfold letter, forbidden, is_ascii_control. intros Hc. cbn [existsb invalid_chars].
  repeat match goal with |- context [N.eqb ?a ?b] => destruct (N.eqb_spec a b) as [->|]; [lia|] end.
  destruct (N.leb_spec c 31), (N.ltb_spec c 32); simpl; lia || done.
Qed.

Lemma letters_component s : s <> [] -> Forall letter s -> is_refstr s /\ slash ∉ s.
Proof.
  intros Hne Hs.
  assert (forall c, c ∈ s -> letter c) as Hin by (by rewrite <- Forall_forall).
  assert (slash ∉ s) as Hsl by (intros H%Hin; unfold letter, slash in H; lia).
  assert (forall c, ~ letter c -> c ∉ s) as Hout by (intros c Hc ?; by apply Hc, Hin).
  split; [|done]. apply refstr_valid. split.
  2: { intros ->. apply (Hout 64); [unfold letter; lia|by left]. }
  apply piece_valid. unfold components, iter. rewrite split_on_no, Forall_singleton by done. split.
  2: { unfold globs_of. rewrite filter_none; [done|]. apply Forall_forall.
       intros c Hc ->. apply (Hout star); [unfold letter, star; lia|done]. }
  assert (forall x, list.head s = Some x -> x ∈ s) as Hh by (destruct s; [done|intros ? [= ->]; by left]).
  assert (forall x, last s = Some x -> x ∈ s) as Hl by (intros x [l ->]%last_Some; set_solver).
  assert (dot ∉ s) as Hdot by (apply Hout; unfold letter, dot; lia).
  split; [done| |by intros ?%Hh|by intros ?%Hl| | | |].
  - unfold ends_with. apply andb_false_iff. left. apply bool_decide_eq_false.
    intros Hd. apply Hdot, (subseteq_drop (length s - length (str ".lock"))%nat s).
    rewrite Hd. by left.
  - apply letters_adjacent; [done|]. unfold letter, dot. lia.
  - apply letters_adjacent; [done|]. unfold letter, at_sign. lia.
  - eapply Forall_impl; [done|]. apply letter_forbidden.
  - intros [Ha%Hl _]. revert Ha. apply Hout. unfold letter, at_sign. lia.
Qed.

Lemma unary_name_roundtrip p : unary_from_str (unary_encoding p) = Some p.
Proof.
  unfold unary_encoding, unary_from_str. rewrite bool_decide_eq_true_2 by (split; [done|by apply Forall_replicate]).
  by rewrite length_replicate, N2Nat.id.
Qed.
Definition unary_names : PeerNames.
Proof.
  refine {| default_encoding := unary_encoding; peer_from_str s := Done (unary_from_str s) |}.
  1: intros p; by rewrite unary_name_roundtrip.
  all: intros p; apply letters_component; [done|]; constructor;
    [unfold letter; lia|apply Forall_replicate; unfold letter; lia].
Defined.

Lemma unary_total : PeerNamesTotal (H := unary_names).
Proof. done. Qed.

(** ** Parsing and printing *)

Section Roundtrip.
Context {PN : PeerNames} {U : Type} `{UrnLaws U}.

Lemma parsed_of_plain n b c tail :
  components n = REFS :: b :: c :: tail -> b <> NAMESPACES -> b <> REMOTES ->
  parsed_of (U:=U) n =
    (fun i => MkParsed None <$> ok_or i Other) <$> parse_inner (b :: c :: tail).
Proof.
  intros Hn ? ?. unfold parsed_of. rewrite (non_empty_iter_spec _ _ _ _ _ Hn).
  cbn [mbind outcome_bind]. by rewrite !bool_decide_eq_false_2 by done.
Qed.

Lemma parsed_of_tracking r cs : Forall is_component cs ->
  parsed_of (U:=U) (tracking_name r cs) =
    (fun i => MkParsed (Some r) <$> ok_or i Other) <$> parse_inner cs.
Proof.
  intros Hcs. unfold parsed_of.
  rewrite (non_empty_iter_spec _ _ _ _ _ (tracking_components r cs Hcs)).
  cbn [mbind outcome_bind]. rewrite bool_decide_eq_false_2, bool_decide_eq_true_2 by done.
  by rewrite peer_roundtrip.
Qed.

Lemma parse_qualified n : is_qualified n -> parse (U:=U) n = parsed_of n.
Proof.
  intros [Hn (b & c & tail & Hc)]. unfold parse. rewrite try_from_str_ok by done. cbn [map_err].
  unfold parsed_of_refstring, from_refstr. change (iter n) with (components n). rewrite Hc.
  by rewrite bool_decide_eq_true_2.
Qed.

(** What a parsed name carries: a reference of the [rad] category, or a name of
    another category that is neither a remote tracking name nor namespaced. *)
Definition parsed_wf (p : Parsed U) : Prop :=
  match inner p with
  | inl _ => True
  | inr o => exists b c tail, is_refstr o /\ components o = REFS :: b :: c :: tail /\
      b <> RAD /\ b <> REMOTES /\ b <> NAMESPACES
  end.

Lemma urn_component u : is_component (encode_id u).
Proof. split; [left; apply urn_refstr|apply urn_slash]. Qed.

Lemma from_urn_done u : from_urn u = Done (encode_id u).
Proof. unfold from_urn, expect_ref. by rewrite (try_from_str_ok _ (urn_refstr u)). Qed.

Lemma from_refstring_done s : slash ∉ s -> from_refstring s = Some s.
Proof.
  intros Hs. unfold from_refstring.
  destruct (contains s slash) eqn:Hc; [by apply contains_spec in Hc|done].
Qed.

Lemma rad_qualified_done (r : Rad U) :
  exists c tail, rad_qualified r = Done (join_on slash (REFS :: RAD :: c :: tail)) /\
    Forall is_component (c :: tail) /\ parse_inner (RAD :: c :: tail) = Done (Some (inl r)).
Proof.
  destruct r as [| | |u].
  1: exists ID, []. 2: exists SELF, []. 3: exists SIGNED_REFS, [].
  1-3: split_and!; [done| |done]; repeat constructor; try (by left); by apply (bool_decide_unpack _).
  exists IDS, [encode_id u]. cbn [rad_qualified]. rewrite from_urn_done. cbn [mbind outcome_bind].
  rewrite from_refstring_done by apply urn_slash. cbn [unwrap mbind outcome_bind]. split_and!.
  - unfold from_refs_rad_ids. by rewrite from_iter_done.
  - rewrite !Forall_cons. split_and!; [apply IDS_component|apply urn_component|constructor].
  - cbn. by rewrite urn_roundtrip.
Qed.

Lemma owned_plain n b c tail :
  components n = REFS :: b :: c :: tail -> b <> NAMESPACES -> b <> REMOTES -> owned n = Done (Some n).
Proof.
  intros Hn ? ?. unfold owned. rewrite (non_empty_iter_spec _ _ _ _ _ Hn).
  cbn [mbind outcome_bind]. by rewrite !bool_decide_eq_false_2 by done.
Qed.

Lemma to_owned_done p : parsed_wf p ->
  exists b c tail, to_owned p = Done (join_on slash (REFS :: b :: c :: tail)) /\
    Forall is_component (b :: c :: tail) /\ b <> NAMESPACES /\ b <> REMOTES /\
    parse_inner (b :: c :: tail) = Done (Some (inner p)).
Proof.
  unfold parsed_wf, to_owned. destruct (inner p) as [r|o].
  - intros _. destruct (rad_qualified_done r) as (c & tail & Hq & Hc & Hp).
    exists RAD, c, tail. split_and!; try done. constructor; auto with rad.
  - intros (b & c & tail & Ho & Hc & Hr & Hrem & Hns). exists b, c, tail.
    rewrite <- Hc, join_components. split_and!; try done.
    + assert (Forall is_component (components o)) as Hf by (apply piece_components; auto with rad).
      rewrite Hc in Hf. by apply Forall_cons in Hf as [_ ?].
    + unfold parse_inner. rewrite bool_decide_eq_false_2 by done.
      rewrite from_iter_done by done. cbn [mbind outcome_bind].
      rewrite from_refs_join, <- Hc, join_components. by rewrite (owned_plain o b c tail).
Qed.

(** [parsed_roundtrip]: what a parsed reference is printed as, by itself or under the
    remote it belongs to, is a qualified name, and parsing it gives the reference
    back, with its remote in the second case. *)
Theorem parsed_roundtrip (p : Parsed U) (Hp : parsed_wf p) :
  (exists n, to_owned p = Done n /\ is_qualified n /\
    parse n = Done (Ok (MkParsed None (inner p)))) /\
  (forall r, remote p = Some r -> exists n, to_remote_tracking p = Done (Some n) /\
    is_qualified n /\ parse n = Done (Ok p)).
Proof.
  destruct (to_owned_done p Hp) as (b & c & tail & Ho & Hf & Hns & Hrem & Hi).
  assert (is_qualified (join_on slash (REFS :: b :: c :: tail))) as Hq by (by apply join_qualified).
  assert (components (join_on slash (REFS :: b :: c :: tail)) = REFS :: b :: c :: tail) as Hc
    by (apply components_join; [done|]; constructor; auto with rad).
  split.
  - eexists. split_and!; [done|done|]. rewrite parse_qualified by done.
    rewrite (parsed_of_plain _ _ _ _ Hc), Hi by done. done.
  - intros r Hr. exists (tracking_name r (b :: c :: tail)). split_and!.
    + unfold to_remote_tracking. rewrite Hr, Ho. cbn [mbind outcome_bind].
      by apply remote_tracking_plain.
    + by apply tracking_qualified.
    + rewrite parse_qualified by (by apply tracking_qualified).
      rewrite parsed_of_tracking, Hi by done. cbn. f_equal. f_equal. destruct p; simpl in *. by subst.
Qed.

(** The category of a parsed name, which must not be [remotes] again. *)
Definition nested_remote (cs : list (list N)) : Prop :=
  match cs with
  | _ :: b :: _ :: cat :: _ => b = REMOTES /\ cat = REMOTES
  | _ => False
  end.

Lemma parse_inner_total cs (Hcs : Forall is_component cs) :
  exists o, parse_inner (U:=U) cs = Done o /\
    (list.head cs <> Some REMOTES -> match o with Some i => parsed_wf (MkParsed None i) | None => True end).
Proof.
  destruct cs as [|x cs]; [by exists None|]. simpl. case_bool_decide as Hx.
  - destruct cs as [|y [|id rest]]; [by exists None| |]; eexists; (split; [done|]); intros _;
      by repeat (case_bool_decide || case_match); simplify_eq.
  - destruct cs as [|y cs]; [by exists None|]. rewrite from_iter_done by done.
    cbn [mbind outcome_bind]. rewrite from_refs_join.
    set (n := join_on slash _).
    assert (components n = REFS :: x :: y :: cs) as Hn
      by (apply components_join; [done|]; constructor; auto with rad).
    assert (is_qualified n) as [Hr _] by (by apply join_qualified).
    unfold owned. rewrite (non_empty_iter_spec _ _ _ _ _ Hn). cbn [mbind outcome_bind].
    case_bool_decide as Hns; [by exists None|]. case_bool_decide as Hrem.
    + destruct cs as [|cat [|z cs]]; [by exists None..|]. rewrite from_iter_done by done.
      eexists. split; [done|]. by subst.
    + eexists. split; [done|]. intros _. by exists x, y, cs.
Qed.

(** Parsing, by the kind of name. *)
Lemma parse_total_spec (s : list N) :
  match parse (U:=U) s with
  | Panic => is_qualified s /\ exists c tail, components s = REFS :: REMOTES :: c :: tail /\ peer_from_str c = Panic
  | Done (Ok p) => is_qualified s /\ (parsed_wf p \/ nested_remote (components s))
  | Done (Err _) => True
  end.
Proof.
  unfold parse. destruct (try_from_str s) as [t|e] eqn:Ht; [|done].
  apply try_from_str_spec in Ht as [-> Hs]. cbn [map_err]. unfold parsed_of_refstring, from_refstr.
  change (iter s) with (components s).
  destruct (components s) as [|a [|b [|c tail]]] eqn:Hc; [done..|].
  case_bool_decide as Ha; [|done]. subst a.
  assert (is_qualified s) as Hq by (split; [done|by exists b, c, tail]).
  pose proof (qualified_forall _ Hq) as Hf. rewrite Hc, !Forall_cons in Hf.
  destruct Hf as (_ & Hb & Hcc & Htail). unfold parsed_of.
  rewrite (non_empty_iter_spec _ _ _ _ _ Hc). cbn [mbind outcome_bind].
  case_bool_decide as Hns; [done|]. case_bool_decide as Hrem.
  - destruct (peer_from_str c) as [[r|]|] eqn:Hpeer; cbn [mbind outcome_bind]; [|done|subst b; split; [done|by exists c, tail]].
    destruct (parse_inner_total tail Htail) as (o & -> & Ho). cbn [mbind outcome_bind].
    destruct o as [i|]; [|done]. cbn. split; [done|].
    destruct tail as [|cat tail]; [by left; apply Ho|].
    destruct (decide (cat = REMOTES)) as [->|]; [by right|left]. apply Ho. simpl. congruence.
  - destruct (parse_inner_total (b :: c :: tail)) as (o & -> & Ho); [by rewrite !Forall_cons|].
    cbn [mbind outcome_bind]. destruct o as [i|]; [|done]. cbn. split; [done|].
    left. apply Ho. simpl. congruence.
Qed.
(** C40 [parse_total]: parsing any text gives a reference or an error, and panics exactly when the text is a qualified
    name of a remote, the id of which cannot be read without a panic; a reference it gives
    is well-formed, unless the text names a remote within a remote
    ([refs/remotes/<peer>/remotes/..]). *)
Theorem parse_total (s : list N) :
  (parse (U:=U) s = Panic <->
    is_qualified s /\ exists c tail, components s = REFS :: REMOTES :: c :: tail /\ peer_from_str c = Panic) /\
  (forall p, parse (U:=U) s = Done (Ok p) -> is_qualified s /\ (parsed_wf p \/ nested_remote (components s))).
Proof.
  pose proof (parse_total_spec s) as Hs. split; [split|].
  - intros Hp. by rewrite Hp in Hs.
  - intros (Hq & c & tail & Hc & Hpeer). rewrite parse_qualified by done. unfold parsed_of.
    rewrite (non_empty_iter_spec _ _ _ _ _ Hc). cbn [mbind outcome_bind].
    by rewrite bool_decide_eq_false_2, bool_decide_eq_true_2, Hpeer by done.
  - intros p Hp. by rewrite Hp in Hs.
Qed.
End Roundtrip.

(** URNs written the way peer ids are. *)
Definition unary_urn : Urn N := {|
  try_from_id := unary_from_str;
  encode_id := default_encoding (PeerNames := unary_names);
|}.
#[local] Existing Instance unary_urn.
Definition unary_urn_laws : UrnLaws N := {|
  urn_roundtrip := unary_name_roundtrip;
  urn_refstr := peer_refstr (PeerNames := unary_names);
  urn_slash := peer_slash (PeerNames := unary_names);
|}.

#[local] Existing Instance unary_urn_laws.

(** A name under [refs/namespaces] that is not namespaced: the computation panics. *)
Lemma remote_tracking_total_witness :
  exists nss q, components (str "refs/namespaces/a/heads/b") = under nss (components q) /\
    namespaced q = None /\
    tracked_as (PN := unary_names) 3 q
      (remote_tracking (PN := unary_names) 3 (str "refs/namespaces/a/heads/b")) /\
    remote_tracking (PN := unary_names) 3 (str "refs/namespaces/a/heads/b") = Panic.
Proof.
  destruct (remote_tracking_total (PN := unary_names) 3 (str "refs/namespaces/a/heads/b"))
    as (nss & q & Hc & Hn & Ht).
  - split; [vm_compute; reflexivity|].
    exists (str "namespaces"), (str "a"), [str "heads"; str "b"]. vm_compute. reflexivity.
  - exists nss, q. split_and!; [exact Hc|exact Hn|exact Ht|vm_compute; reflexivity].
Defined.

Lemma parsed_roundtrip_witness :
  exists n, to_remote_tracking (PN := unary_names) (MkParsed (Some 2) (inl (Ids 1%N))) = Done (Some n) /\
    n = str "refs/remotes/haa/rad/ids/ha".
Proof.
  destruct (parsed_roundtrip (PN := unary_names) (MkParsed (Some 2) (inl (Ids 1)))) as [_ H];
    [exact I|].
  destruct (H 2 eq_refl) as (n & Hn & _ & _). exists n. split; [exact Hn|].
  assert (Done (Some n) = Done (Some (str "refs/remotes/haa/rad/ids/ha"))) as Heq.
  { rewrite <- Hn. vm_compute. reflexivity. }
  congruence.
Defined.
