(* ===== verification/LinkRefs.v ===== *)
(** * References on disk

    [link-git/src/refs/db.rs]: snapshots of the packed references, which are cached
    together with the modification time of the file they were read from, and the
    resolution of symbolic references.  The reference store itself is gitoxide's:
    [Store] with [try_find] is a parameter. *)
From stdpp Require Import base list gmap.
From Stdlib Require Import NArith Lia.
From S2P Require Import Prelude.
#[local] Open Scope N_scope.

(** [git_ref::Target]: names are the strings. *)
Inductive Target : Type :=
| Peeled (oid : N)
| Symbolic (name : list N).

#[export] Instance target_eq_dec : EqDecision Target.
Proof. solve_decision. Defined.

Record Reference : Type := MkReference {
  r_name : list N;
  r_target : Target;
}.

(** ** [Refdb] and [Packed] *)
Section Packed.
Context {Store Buf IoError : Type}.

Record Packed : Type := MkPacked {
  buf : Buf;
  mtime : N;
}.

Record Snapshot : Type := MkSnapshot {
  store : Store;
  packed : option Buf;
}.

(** What the file system answers: an error, no file, or its time and contents. *)
Definition Disk : Type := result IoError (option (N * Buf)).

(** [Packed::open]. *)
Definition packed_open (disk : Disk) : result IoError (option Packed) :=
  match disk with
  | Err e => Err e
  | Ok None => Ok None
  | Ok (Some (t, b)) => Ok (Some (MkPacked b t))
  end.

Definition is_modified (self : Packed) (disk : Disk) : result IoError bool :=
  match disk with
  | Err e => Err e
  | Ok None => Ok true
  | Ok (Some (t, _)) => Ok (bool_decide (mtime self = t))
  end.

(** [Refdb::reload]; [write] is the cache when the write lock is taken, the second
    result the cache afterwards. *)
Definition reload (st : Store) (modified_while_blocked : Packed -> bool) (write : option Packed)
    (disk : Disk) : result IoError Snapshot * option Packed :=
  let again :=
    match packed_open disk with
    | Err e => (Err e, write)
    | Ok (Some p) => (Ok (MkSnapshot st (Some (buf p))), Some p)
    | Ok None => (Ok (MkSnapshot st None), None)
    end in
  match write with
  | Some p => if modified_while_blocked p then (Ok (MkSnapshot st (Some (buf p))), write) else again
  | None => again
  end.

(** [Refdb::snapshot]; [read] is the cache under the read lock, [write] the one
    another thread may have left when the write lock is taken. *)
Definition snapshot (st : Store) (read write : option Packed) (disk : Disk) :
    result IoError Snapshot * option Packed :=
  match read with
  | None => reload st (fun _ => true) write disk
  | Some p =>
      match is_modified p disk with
      | Err e => (Err e, read)
      | Ok true => reload st (fun p1 => bool_decide (mtime p1 <> mtime p)) write disk
      | Ok false => (Ok (MkSnapshot st (Some (buf p))), read)
      end
  end.

(** [snapshot_stale]: the modification check is inverted.  When the file of packed
    references has changed since it was read, the snapshot still carries the cached
    contents; the file is read again exactly when it has not changed, or is gone. *)
Theorem snapshot_stale (st : Store) (p : Packed) (t : N) (b : Buf) :
  snapshot st (Some p) (Some p) (Ok (Some (t, b))) =
    if decide (mtime p = t)
    then (Ok (MkSnapshot st (Some b)), Some (MkPacked b t))
    else (Ok (MkSnapshot st (Some (buf p))), Some p).
Proof.
  unfold snapshot, is_modified. case_decide as Ht.
  - rewrite bool_decide_eq_true_2 by done. unfold reload. rewrite bool_decide_eq_false_2 by congruence.
    done.
  - by rewrite bool_decide_eq_false_2.
Qed.

(** Whatever other threads leave in the cache, a snapshot is made of the contents of
    the cache or of the file, and the cache holds what was returned. *)
Lemma snapshot_from (st : Store) (read write : option Packed) (disk : Disk) s c :
  snapshot st read write disk = (Ok s, c) ->
  store s = st /\ packed s = buf <$> c /\
  (c = read \/ c = write \/ exists o, packed_open disk = Ok o /\ c = o).
Proof.
  unfold snapshot, reload. intros.
  repeat case_match; simplify_eq/=; split_and!; eauto 6.
Qed.
End Packed.
Arguments Packed Buf : clear implicits.
Arguments Snapshot Store Buf : clear implicits.

(** ** Following symbolic references *)
Section Follow.
Context {FindError : Type}.

Inductive Follow : Type :=
| Cycle (name : list N)
| NotFound (name : list N)
| DepthLimitExceeded (n : nat)
| Find (e : FindError).

Definition MAX_DEPTH : nat := 5.

(** [Snapshot::find]. *)
Context (find : list N -> result FindError (option Target)).

Definition find_or (name : list N) : result Follow Reference :=
  t ← map_err Find (find name);
  match t with
  | Some t => Ok (MkReference name t)
  | None => Err (NotFound name)
  end.

(** The loop; [None] is out of fuel. *)
Fixpoint follow_loop (fuel : nat) (seen : gset (list N)) (next : Reference) :
    option (result Follow Reference) :=
  match fuel with
  | O => None
  | S fuel =>
      match r_target next with
      | Peeled _ => Some (Ok next)
      | Symbolic sym =>
          if (MAX_DEPTH <? size seen + 1)%nat then Some (Err (DepthLimitExceeded MAX_DEPTH))
          else if bool_decide (sym ∈ seen) then Some (Err (Cycle sym))
          else
            match find_or sym with
            | Err e => Some (Err e)
            | Ok next => follow_loop fuel ({[ sym ]} ∪ seen) next
            end
      end
  end.

Definition follow (fuel : nat) (symref : Reference) : option (result Follow Reference) :=
  match r_target symref with
  | Peeled _ => Some (Ok symref)
  | Symbolic name =>
      match find_or name with
      | Err e => Some (Err e)
      | Ok next => follow_loop fuel ({[ name ]} ∪ {[ r_name symref ]}) next
      end
  end.

(** The references a resolution passes through. *)
Inductive resolves : nat -> Reference -> Reference -> Prop :=
| resolves_here r oid : r_target r = Peeled oid -> resolves 0 r r
| resolves_next k r name t r' :
    r_target r = Symbolic name -> find name = Ok (Some t) ->
    resolves k (MkReference name t) r' -> resolves (S k) r r'.
End Follow.
Arguments Follow FindError : clear implicits.
Arguments find_or {FindError} find name.

Section FollowProperties.
Context {FindError : Type} (find : list N -> result FindError (option Target)).

Lemma find_or_ok name r :
  find_or find name = Ok r <-> exists t, find name = Ok (Some t) /\ r = MkReference name t.
Proof.
  unfold find_or. destruct (find name) as [[t|]|e]; cbn; split; try done.
  - intros [= <-]. eauto.
  - by intros (? & [= <-] & ->).
  - by intros (? & ? & _).
  - by intros (? & ? & _).
Qed.

Lemma size_insert_new (x : list N) (seen : gset (list N)) :
  x ∉ seen -> size ({[ x ]} ∪ seen) = S (size seen).
Proof. intros. rewrite size_union by set_solver. by rewrite size_singleton. Qed.

Lemma follow_loop_total fuel : forall seen next,
  (size seen <= MAX_DEPTH < fuel + size seen)%nat -> is_Some (follow_loop find fuel seen next).
Proof.
  unfold MAX_DEPTH. induction fuel as [|fuel IH]; intros seen next Hf; [lia|]. cbn [follow_loop].
  destruct (r_target next) as [oid|sym]; [done|]. unfold MAX_DEPTH.
  destruct (Nat.ltb_spec 5 (size seen + 1)); [done|]. case_bool_decide as Hin; [done|].
  destruct (find_or find sym); [|done]. apply IH. rewrite size_insert_new by done. lia.
Qed.

Lemma follow_loop_sound fuel : forall seen next r',
  follow_loop find fuel seen next = Some (Ok r') -> (size seen <= MAX_DEPTH)%nat ->
  exists k, (k + size seen <= MAX_DEPTH)%nat /\ resolves find k next r'.
Proof.
  unfold MAX_DEPTH. induction fuel as [|fuel IH]; intros seen next r'; [done|]. cbn [follow_loop].
  destruct (r_target next) as [oid|sym] eqn:Ht.
  - intros [= <-] Hs. exists 0%nat. split; [lia|]. by econstructor.
  - unfold MAX_DEPTH. destruct (Nat.ltb_spec 5 (size seen + 1)); [done|].
    case_bool_decide as Hin; [done|]. destruct (find_or find sym) as [n|e] eqn:Hn; [|done].
    apply find_or_ok in Hn as (t & Hn & ->). intros Hl _.
    destruct (IH _ _ _ Hl) as (k & Hk & Hr); [rewrite size_insert_new by done; lia|].
    rewrite size_insert_new in Hk by done. exists (S k). split; [lia|]. by econstructor.
Qed.

Lemma resolves_det k r r' : resolves find k r r' -> forall k' r'', resolves find k' r r'' -> k = k'.
Proof.
  induction 1 as [r oid Hr|k r name t r' Hr Hn _ IH]; inversion 1 as [|? ? name' t']; subst; try congruence.
  assert (name' = name) as -> by congruence. assert (t' = t) as -> by congruence.
  f_equal. by eapply IH.
Qed.

(** A name whose reference resolves. *)
Definition name_resolves (n : list N) (k : nat) : Prop :=
  exists t r', find n = Ok (Some t) /\ resolves find k (MkReference n t) r'.

Lemma name_resolves_det n k k' : name_resolves n k -> name_resolves n k' -> k = k'.
Proof.
  intros (t & r & Hn & Hr) (t' & r' & Hn' & Hr'). assert (t' = t) as -> by congruence.
  by eapply resolves_det.
Qed.

Lemma follow_loop_complete k next r' : resolves find k next r' -> forall fuel seen,
  (k < fuel)%nat -> (k + size seen <= MAX_DEPTH)%nat ->
  (forall n, n ∈ seen -> exists j, (k <= j)%nat /\ name_resolves n j) ->
  follow_loop find fuel seen next = Some (Ok r').
Proof.
  unfold MAX_DEPTH. induction 1 as [r oid Hr|k r name t r' Hr Hn Hres IH];
    intros [|fuel] seen Hf Hs Hseen; try (exfalso; lia); cbn [follow_loop]; rewrite Hr; [done|].
  unfold MAX_DEPTH. destruct (Nat.ltb_spec 5 (size seen + 1)); [lia|].
  assert (name_resolves name k) as Hk by (by exists t, r').
  rewrite bool_decide_eq_false_2.
  2: { intros (j & Hj & Hj')%Hseen. pose proof (name_resolves_det _ _ _ Hk Hj'). lia. }
  rewrite (proj2 (find_or_ok _ _)) by eauto. apply IH; [lia| |].
  - rewrite size_insert_new; [lia|]. intros (j & Hj & Hj')%Hseen.
    pose proof (name_resolves_det _ _ _ Hk Hj'). lia.
  - intros n [->%elem_of_singleton|Hin]%elem_of_union; [by exists k; split|].
    destruct (Hseen n Hin) as (j & ? & ?). exists j. split; [lia|done].
Qed.

(** [follow_exact]: following a stored reference always ends within five rounds, in a
    result or an error, and it succeeds exactly when a direct reference is reached
    through at most four symbolic ones, in particular for no cycle. *)
Theorem follow_exact (r : Reference) (fuel : nat) (Hr : find (r_name r) = Ok (Some (r_target r)))
    (Hf : (MAX_DEPTH <= fuel)%nat) :
  exists o, follow find fuel r = Some o /\
    forall r', o = Ok r' <-> exists k, (k <= 4)%nat /\ resolves find k r r'.
Proof.
  unfold follow, MAX_DEPTH in *. destruct (r_target r) as [oid|name] eqn:Ht.
  { eexists. split; [done|]. intros r'. split.
    - intros [= <-]. exists 0%nat. split; [lia|]. by econstructor.
    - intros (k & _ & Hk). inversion Hk; congruence. }
  destruct (find_or find name) as [next|e] eqn:Hn.
  2: { eexists. split; [done|]. intros r'. split; [done|]. intros (k & _ & Hk).
       inversion Hk as [|? ? n' t ? Ht' Hn' Hk']; subst; [congruence|].
       rewrite Ht in Ht'. injection Ht' as <-.
       assert (find_or find name = Ok (MkReference name t)) by (apply find_or_ok; eauto). congruence. }
  apply find_or_ok in Hn as (t & Hn & ->).
  set (seen := {[ name ]} ∪ {[ r_name r ]} : gset (list N)).
  assert (name <> r_name r -> size seen = 2%nat) as Hsize.
  { intros. unfold seen. rewrite size_insert_new by set_solver. by rewrite size_singleton. }
  assert (1 <= size seen <= 2)%nat as Hle.
  { destruct (decide (name = r_name r)) as [->|]; [|rewrite Hsize by done; lia].
    unfold seen. rewrite union_idemp_L, size_singleton. lia. }
  destruct (follow_loop_total fuel seen (MkReference name t)) as [o Ho]; [unfold MAX_DEPTH; lia|].
  exists o. split; [done|]. intros r'. split.
  - intros ->. assert (name <> r_name r) as Hneq.
    { intros ->. rewrite Hn in Hr. injection Hr as ->. destruct fuel; [done|].
      cbn [follow_loop r_target] in Ho. destruct (_ <? _)%nat; [done|].
      rewrite bool_decide_eq_true_2 in Ho by set_solver. done. }
    destruct (follow_loop_sound _ _ _ _ Ho) as (k & Hk & Hres); [unfold MAX_DEPTH; lia|].
    rewrite Hsize in Hk by done. unfold MAX_DEPTH in Hk. exists (S k). split; [lia|]. by econstructor.
  - intros (k & Hk & Hres). inversion Hres as [|k' ? n' t' ? Ht' Hn' Hres']; subst; [congruence|].
    rewrite Ht in Ht'. injection Ht' as <-. assert (t' = t) as -> by congruence.
    assert (name_resolves name k') as Hnr by (by eexists _, _).
    assert (name_resolves (r_name r) (S k')) as Hrr.
    { exists (Symbolic name), r'. split; [done|]. by econstructor. }
    assert (name <> r_name r) as Hneq.
    { intros Heq. rewrite <- Heq in Hrr. pose proof (name_resolves_det _ _ _ Hnr Hrr). lia. }
    rewrite (follow_loop_complete k' _ r' Hres') in Ho; [by injection Ho|lia| |].
    + rewrite Hsize by done. unfold MAX_DEPTH. lia.
    + intros n [->%elem_of_singleton| ->%elem_of_singleton]%elem_of_union.
      * by exists k'.
      * exists (S k'). split; [lia|done].
Qed.
End FollowProperties.

(** [1] points to [2], which is direct. *)
Lemma follow_exact_witness :
  let find := fun n : list N => Ok (E := Empty_set)
    (if decide (n = [1]) then Some (Symbolic [2]) else if decide (n = [2]) then Some (Peeled 7) else None) in
  exists o, follow find 5 (MkReference [1] (Symbolic [2])) = Some o /\
    o = Ok (MkReference [2] (Peeled 7)).
Proof.
  destruct (follow_exact (fun n : list N => Ok (E := Empty_set)
    (if decide (n = [1]) then Some (Symbolic [2]) else if decide (n = [2]) then Some (Peeled 7) else None))
    (MkReference [1] (Symbolic [2])) 5) as (o & Ho & Hok); [reflexivity|unfold MAX_DEPTH; lia|].
  exists o. split; [exact Ho|]. apply Hok. exists 1%nat. split; [lia|].
  eapply resolves_next; [reflexivity|reflexivity|]. eapply resolves_here. reflexivity.
Defined.
