(* ===== verification/Refdb.v ===== *)
(** * Reference databases of the replication

    [link-replication/src/refdb.rs]: the updates replication asks for, what a
    database answers, and the traits; [refdb/mem.rs]: the in-memory database that
    stages updates during a run; [io/refdb.rs]: the database on disk, which turns
    updates into edits of a git transaction under the policies of the updates.

    The transaction is gitoxide's: a parameter, with what its documentation says of
    it in [TxLaws]. *)
From stdpp Require Import base list gmap.
From Stdlib Require Import NArith Lia.
From S2P Require Import Prelude Effects RefFormat RefName LinkRefs.
Import Name.
#[local] Open Scope N_scope.

Inductive Policy : Type := Abort | Reject | Allow.
#[export] Instance policy_eq_dec : EqDecision Policy.
Proof. solve_decision. Defined.

Record SymrefTarget : Type := MkSymrefTarget {
  sym_name : list N;
  sym_target : N;
}.
#[export] Instance symref_target_eq_dec : EqDecision SymrefTarget.
Proof. solve_decision. Defined.

Inductive Update : Type :=
| Direct (name : list N) (target : N) (no_ff : Policy)
| Symbolic (name : list N) (target : SymrefTarget) (type_change : Policy)
| Prune (name : list N) (prev : N + list N).
#[export] Instance update_eq_dec : EqDecision Update.
Proof. solve_decision. Defined.

Definition refname (u : Update) : list N :=
  match u with Direct n _ _ | Symbolic n _ _ | Prune n _ => n end.

Inductive Updated : Type :=
| UpdatedDirect (name : list N) (target : N)
| UpdatedSymbolic (name : list N) (target : list N)
| UpdatedPrune (name : list N).

Record Applied : Type := MkApplied {
  rejected : list Update;
  updated : list Updated;
}.
Definition applied_default : Applied := MkApplied [] [].
Definition applied_append (a b : Applied) : Applied :=
  MkApplied (rejected a ++ rejected b) (updated a ++ updated b).

Record Ref : Type := MkRef {
  ref_name : list N;
  ref_target : N + list N;
  peeled : N;
}.

(** ** The traits

    [Er] stands for the boxed errors of the implementations. *)
Class Refdb (Er D : Type) := {
  refname_to_id : D -> list N -> result Er (option N);
  refdb_update : list Update -> st D Er Applied;
  refdb_reload : st D Er unit;
}.

Class RefScan (Er D : Type) := {
  scan : D -> option (list N) -> result Er (list (result Er Ref));
}.

Class Odb (Er D : Type) := {
  odb_contains : D -> N -> bool;
  odb_is_in_ancestry_path : D -> N -> N -> result Er bool;
}.

(** ** The in-memory database *)

(** The order in which a [HashMap] iterates is unspecified. *)
Class HashIter := {
  hash_iter : forall V, gmap (list N) V -> list (list N * V);
  hash_iter_perm V (m : gmap (list N) V) : hash_iter V m ≡ₚ map_to_list m;
}.
Arguments hash_iter {HashIter V} m.

Definition list_hash : HashIter := {|
  hash_iter := fun V m => map_to_list m;
  hash_iter_perm := fun V m => reflexivity (map_to_list m);
|}.

Record Mem : Type := MkMem { mem_refs : gmap (list N) N }.
Definition mem_default : Mem := MkMem ∅.

Definition mem_refname_to_id (m : Mem) (name : list N) : option N := mem_refs m !! name.

(** One round of [Mem]::update]. *)
Definition mem_update_one (acc : Applied * Mem) (up : Update) : Applied * Mem :=
  let '(ap, m) := acc in
  match up with
  | Direct name target _ =>
      (MkApplied (rejected ap) (updated ap ++ [UpdatedDirect name target]),
       MkMem (<[name := target]> (mem_refs m)))
  | Symbolic name target _ =>
      (MkApplied (rejected ap) (updated ap ++ [UpdatedSymbolic name (sym_name target)]),
       MkMem (<[name := sym_target target]> (mem_refs m)))
  | Prune name _ =>
      (match mem_refs m !! name with
       | Some _ => MkApplied (rejected ap) (updated ap ++ [UpdatedPrune name])
       | None => ap
       end,
       MkMem (delete name (mem_refs m)))
  end.

Definition mem_update (ups : list Update) (m : Mem) : Applied * Mem :=
  foldl mem_update_one (applied_default, m) ups.

#[export] Instance mem_refdb {Er} : Refdb Er Mem := {|
  refname_to_id := fun m n => Ok (mem_refname_to_id m n);
  refdb_update := fun ups m => let '(ap, m) := mem_update ups m in (EOk ap, m);
  refdb_reload := fun m => (EOk tt, m);
|}.

(** [str::starts_with]. *)
Definition starts_with (s p : list N) : bool := bool_decide (take (length p) s = p).

(** The iterator [Scan], to its end: [next] ends it when an entry does not match. *)
Fixpoint mem_scan_loop (pref : option (list N)) (entries : list (list N * N)) : list Ref :=
  match entries with
  | [] => []
  | (k, v) :: entries =>
      if match pref with None => true | Some p => starts_with k p end
      then MkRef k (inl v) v :: mem_scan_loop pref entries
      else []
  end.

Definition mem_scan `{HashIter} (m : Mem) (pref : option (list N)) : list Ref :=
  mem_scan_loop pref (hash_iter (mem_refs m)).

#[export] Instance mem_refscan {Er} `{HashIter} : RefScan Er Mem := {|
  scan := fun m pref => Ok (Ok <$> mem_scan m pref);
|}.

(** What a sequence of updates leaves under a name: the last one that names it. *)
Definition staged (m : gmap (list N) N) (ups : list Update) (name : list N) : option N :=
  foldl (fun cur up =>
    if decide (refname up = name) then
      match up with
      | Direct _ t _ => Some t
      | Symbolic _ t _ => Some (sym_target t)
      | Prune _ _ => None
      end
    else cur) (m !! name) ups.

Lemma mem_update_app ups ups' m :
  mem_update (ups ++ ups') m = foldl mem_update_one (mem_update ups m) ups'.
Proof. apply foldl_app. Qed.

Lemma mem_update_lookup ups m name :
  mem_refs (mem_update ups m).2 !! name = staged (mem_refs m) ups name.
Proof.
  unfold mem_update, staged. generalize applied_default as ap. revert m.
  induction ups as [|up ups IH]; intros m ap; [done|]. cbn [foldl]. unfold mem_update_one at 2.
  destruct up as [n t p|n t p|n p]; rewrite IH; cbn [refname mem_refs];
    (case_decide as Hn; [subst n|]).
  - by rewrite lookup_insert_eq.
  - by rewrite lookup_insert_ne.
  - by rewrite lookup_insert_eq.
  - by rewrite lookup_insert_ne.
  - by rewrite lookup_delete_eq.
  - by rewrite lookup_delete_ne.
Qed.

(** [mem_scan_incomplete]: the scan of the in-memory database with a prefix ends at the
    first entry that does not match, so that it finds every matching entry exactly
    when the iteration order of the map happens to put the matching ones first;
    without a prefix it finds all. *)
Theorem mem_scan_incomplete `{HashIter} (m : Mem) (p : list N) :
  ref_name <$> mem_scan m None = (hash_iter (mem_refs m)).*1 /\
  (mem_scan m (Some p) = (fun kv => MkRef kv.1 (inl kv.2) kv.2) <$>
      filter (fun kv => starts_with kv.1 p = true) (hash_iter (mem_refs m)) <->
   exists front back, hash_iter (mem_refs m) = front ++ back /\
     Forall (fun kv => starts_with kv.1 p = true) front /\
     Forall (fun kv => starts_with kv.1 p = false) back).
Proof.
  unfold mem_scan. generalize (hash_iter (mem_refs m)) as es. intros es. split.
  { induction es as [|[k v] es IH]; [done|]. cbn. by rewrite IH. }
  induction es as [|[k v] es IH]; [split; [by exists [], []|done]|]. cbn [mem_scan_loop].
  destruct (starts_with k p) eqn:Hk.
  - rewrite filter_cons_True by done. cbn [fmap list_fmap]. split.
    + intros [= Hes]. apply IH in Hes as (front & back & -> & Hf & Hb).
      exists ((k, v) :: front), back. split_and!; [done|by constructor|done].
    + intros (front & back & Heq & Hf & Hb). f_equal. apply IH.
      destruct front as [|kv front]; [simpl in Heq; subst; inversion Hb; simplify_eq/=; congruence|].
      injection Heq as <- ->. exists front, back. by inversion_clear Hf.
  - rewrite filter_cons_False by (simpl; congruence). split.
    + intros Hnil. exists [], ((k, v) :: es). split_and!; [done|done|]. constructor; [done|].
      symmetry in Hnil. apply fmap_nil_inv in Hnil. apply Forall_forall. intros [k' v'] Hin.
      apply not_true_iff_false. intros Hp.
      assert ((k', v') ∈ filter (fun kv => starts_with kv.1 p = true) es) as Hin'
        by (by apply list_elem_of_filter).
      rewrite Hnil in Hin'. by apply elem_of_nil in Hin'.
    + intros (front & back & Heq & Hf & Hb).
      destruct front as [|kv front].
      * simpl in Heq. subst. inversion_clear Hb. rewrite filter_none; [done|].
        eapply Forall_impl; [done|]. intros ? Hs. simpl. by rewrite Hs.
      * injection Heq as <- _. inversion Hf. simplify_eq/=. congruence.
Qed.
