(* ===== verification/RefTx.v ===== *)
(** * The reference database on disk

    [link-replication/src/io/refdb.rs]: every update becomes edits of a transaction,
    is rejected, or aborts the whole transaction, by its policy and by what the
    database holds; the edits are then prepared and committed together.  The store is
    gitoxide's: [GitDb] is a parameter and [TxLaws] what its documentation says of a
    transaction, relative to what is on disk ([disk]). *)
From stdpp Require Import base list gmap.
From Stdlib Require Import NArith Lia.
From Stdlib Require String.
Import String.StringSyntax.
From S2P Require Import Prelude Effects RefFormat RefName LinkRefs Refdb.
Import Name.
#[local] Open Scope N_scope.

(** ** [git_ref]::transaction] *)

Inductive PreviousValue : Type :=
| MustNotExist
| MustExistAndMatch (t : Target).

Record LogChange : Type := MkLogChange {
  force_create_reflog : bool;
  message : list N;
}.

Inductive Change : Type :=
| ChangeUpdate (log : LogChange) (expected : PreviousValue) (new : Target)
| ChangeDelete (expected : PreviousValue).

Record RefEdit : Type := MkRefEdit {
  change : Change;
  edit_name : list N;
}.

Definition expected (c : Change) : PreviousValue :=
  match c with ChangeUpdate _ e _ | ChangeDelete e => e end.

Class GitDb (Er D : Type) := {
  db_find : D -> list N -> result Er (option Target);
  db_prepare : D -> list RefEdit -> result Er unit;
  db_clock : D -> result Er unit;
  db_commit : list RefEdit -> D -> result Er (list RefEdit) * D;
  db_snapshot : D -> result Er unit * D;
  disk : D -> gmap (list N) Target;
}.

Definition satisfied (e : PreviousValue) (cur : option Target) : Prop :=
  match e with
  | MustNotExist => cur = None
  | MustExistAndMatch t => cur = Some t
  end.

Definition edit_result (e : RefEdit) : option Target :=
  match change e with ChangeUpdate _ _ new => Some new | ChangeDelete _ => None end.

(** A prepared transaction has found its expectations met and changes nothing yet; a
    committed one has made all its edits and no others. *)
Class TxLaws (Er D : Type) `{GitDb Er D} := {
  prepare_expected d es : db_prepare d es = Ok tt ->
    forall e, e ∈ es -> satisfied (expected (change e)) (disk d !! edit_name e);
  commit_exact es d es' d' : db_commit es d = (Ok es', d') -> NoDup (edit_name <$> es) ->
    es' ≡ₚ es /\
    (forall e, e ∈ es -> disk d' !! edit_name e = edit_result e) /\
    (forall n, n ∉ edit_name <$> es -> disk d' !! n = disk d !! n);
  (** A commit that fails may have made some of the changes, each of them as a whole. *)
  commit_failed es d x d' : db_commit es d = (Err x, d') -> NoDup (edit_name <$> es) ->
    forall n, disk d' !! n = disk d !! n \/ exists e, e ∈ es /\ edit_name e = n /\ disk d' !! n = edit_result e;
  snapshot_keeps d r d' : db_snapshot d = (r, d') -> disk d' = disk d;
}.

Inductive Tx (Er : Type) : Type :=
| NonFF (name : list N) (new cur : N)
| TargetSymbolic (name : list N)
| TypeChange (name : list N)
| Ancestry (name : list N) (new old : N) (e : Er)
| WtfGitoxide (e : RefFormat.Error)
| TxFollow (e : Follow Er)
| External (e : Er).
Arguments NonFF {Er}. Arguments TargetSymbolic {Er}. Arguments TypeChange {Er}.
Arguments Ancestry {Er}. Arguments WtfGitoxide {Er}. Arguments TxFollow {Er}. Arguments External {Er}.

(** The components of a name that are literals, as [force_reflog] looks at them. *)
Definition known_lits (refname : list N) : list Lit.KnownLit :=
  omap (fun c => Lit.known (Lit.some_lit c)) (take 8 (components refname)).

Definition force_reflog (refname : list N) : bool :=
  match known_lits refname with
  | Lit.Refs :: Lit.Rad :: _ => true
  | Lit.Refs :: Lit.Remotes :: _ :: Lit.Rad :: _ => true
  | Lit.Refs :: Lit.Namespaces :: _ :: Lit.Refs :: Lit.Rad :: _ => true
  | Lit.Refs :: Lit.Namespaces :: _ :: Lit.Refs :: Lit.Remotes :: _ :: Lit.Rad :: _ => true
  | _ => false
  end.

Section Io.
Context {Er D : Type} `{GitDb Er D, Odb Er D}.

Record IoRefdb : Type := MkIoRefdb {
  namespace : list N;
  db : D;
}.

Definition namespaced_name (self : IoRefdb) (name : list N) : eff (Tx Er) (list N) :=
  of_out (add_namespace name (namespace self)).

(** [Target::into_id]. *)
Definition into_id (t : Target) : outcome N :=
  match t with Peeled oid => Done oid | LinkRefs.Symbolic _ => Panic end.

Definition find_namespaced (self : IoRefdb) (name : list N) : eff (Tx Er) (option N) :=
  t ← of_res_with External (db_find (db self) name);
  match t with
  | None => EOk None
  | Some t =>
      match follow (db_find (db self)) MAX_DEPTH (MkReference name t) with
      | None => EPanic
      | Some r =>
          r ← of_res_with TxFollow r;
          oid ← of_out (into_id (r_target r));
          EOk (Some oid)
      end
  end.

Definition direct_edit (self : IoRefdb) (name : list N) (target : N) (no_ff : Policy) :
    eff (Tx Er) (Update + list RefEdit) :=
  let force := force_reflog name in
  name_ns ← namespaced_name self name;
  tip ← find_namespaced self name_ns;
  match tip with
  | None =>
      EOk (inr [MkRefEdit (ChangeUpdate (MkLogChange force (str "replicate: create"))
                             MustNotExist (Peeled target)) name_ns])
  | Some prev =>
      is_ff ← of_res_with (Ancestry name_ns target prev)
                (odb_is_in_ancestry_path (db self) target prev);
      if negb is_ff then
        match no_ff with
        | Abort => EErr (NonFF name_ns target prev)
        | Reject => EOk (inl (Direct name target no_ff))
        | Allow =>
            EOk (inr [MkRefEdit (ChangeUpdate (MkLogChange force (str "replicate: forced update"))
                        (MustExistAndMatch (Peeled prev)) (Peeled target)) name_ns])
        end
      else
        EOk (inr [MkRefEdit (ChangeUpdate (MkLogChange force (str "replicate: fast-forward"))
                    (MustExistAndMatch (Peeled prev)) (Peeled target)) name_ns])
  end.

(** The edits of a symbolic update whose type change, if any, is allowed. *)
Definition symref_edits (self : IoRefdb) (name name_ns : list N) (src : option Target)
    (target : SymrefTarget) : eff (Tx Er) (list RefEdit) :=
  dst ← of_res_with External (db_find (db self) (sym_name target));
  let force := force_reflog name in
  let dst_name := sym_name target in
  let oid := sym_target target in
  match dst with
  | Some (LinkRefs.Symbolic dst) => EErr (TargetSymbolic dst)
  | None =>
      EOk [MkRefEdit (ChangeUpdate (MkLogChange force (str "replicate: implicit symref target"))
             MustNotExist (Peeled oid)) dst_name;
           MkRefEdit (ChangeUpdate (MkLogChange force (str "replicate: symbolic ref"))
             MustNotExist (LinkRefs.Symbolic dst_name)) name_ns]
  | Some (Peeled dst) =>
      is_ff ← (if bool_decide (oid <> dst)
               then of_res_with (Ancestry dst_name oid dst) (odb_is_in_ancestry_path (db self) oid dst)
               else EOk false);
      EOk ((if (is_ff : bool) then
              [MkRefEdit (ChangeUpdate
                 (MkLogChange (force_reflog dst_name) (str "replicate: fast-forward symref target"))
                 (MustExistAndMatch (Peeled dst)) (Peeled oid)) dst_name]
            else []) ++
           [MkRefEdit (ChangeUpdate (MkLogChange force (str "replicate: symbolic ref"))
              (match src with Some t => MustExistAndMatch t | None => MustNotExist end)
              (LinkRefs.Symbolic dst_name)) name_ns])
  end.

Definition symbolic_edit (self : IoRefdb) (name : list N) (target : SymrefTarget)
    (type_change : Policy) : eff (Tx Er) (Update + list RefEdit) :=
  name_ns ← namespaced_name self name;
  src ← of_res_with External (db_find (db self) name_ns);
  match src, type_change with
  | Some (Peeled _), Abort => EErr (TypeChange name_ns)
  | Some (Peeled _), Reject => EOk (inl (Symbolic name target type_change))
  | _, _ => inr <$> symref_edits self name name_ns src target
  end.

Definition as_edits (self : IoRefdb) (up : Update) : eff (Tx Er) (Update + list RefEdit) :=
  match up with
  | Direct name target no_ff => direct_edit self name target no_ff
  | Symbolic name target type_change => symbolic_edit self name target type_change
  | Prune name prev =>
      name_ns ← namespaced_name self name;
      EOk (inr [MkRefEdit (ChangeDelete (MustExistAndMatch
        (match prev with inl oid => Peeled oid | inr sym => LinkRefs.Symbolic sym end))) name_ns])
  end.

Definition io_refname_to_id (self : IoRefdb) (name : list N) : eff (Tx Er) (option N) :=
  name_ns ← namespaced_name self name; find_namespaced self name_ns.

(** One round of the fold of [update]. *)
Definition collect_edits (self : IoRefdb) (acc : list Update * gmap (list N) RefEdit) (up : Update) :
    eff (Tx Er) (list Update * gmap (list N) RefEdit) :=
  e ← as_edits self up;
  EOk (match e with
       | inl rej => (acc.1 ++ [rej], acc.2)
       | inr eds => (acc.1, foldl (fun m e => <[edit_name e := e]> m) acc.2 eds)
       end).

(** What is reported of an edit. *)
Definition updated_of (e : RefEdit) : eff (Tx Er) Updated :=
  name ← of_res_with WtfGitoxide (try_from_str (edit_name e));
  match change e with
  | ChangeUpdate _ _ (Peeled oid) => EOk (UpdatedDirect name oid)
  | ChangeUpdate _ _ (LinkRefs.Symbolic sym) =>
      sym ← of_res_with WtfGitoxide (try_from_str sym); EOk (UpdatedSymbolic name sym)
  | ChangeDelete _ => EOk (UpdatedPrune name)
  end.

Definition on_db {A} (m : D -> result Er A * D) : st IoRefdb (Tx Er) A := fun self =>
  let '(r, d) := m (db self) in (of_res_with External r, MkIoRefdb (namespace self) d).

Definition io_reload : st IoRefdb (Tx Er) unit := on_db db_snapshot.

Definition io_update `{HashIter} (ups : list Update) : st IoRefdb (Tx Er) Applied :=
  '(rejected, edits) ← reads (fun self => eff_fold (collect_edits self) ([], ∅) ups);
  let es := (hash_iter edits).*2 in
  reads (fun self => of_res_with External (db_prepare (db self) es)) ;;
  reads (fun self => of_res_with External (db_clock (db self))) ;;
  es ← on_db (db_commit es);
  applied ← lift (eff_map updated_of es);
  (if bool_decide (applied = []) then mret tt else io_reload) ;;
  mret (MkApplied rejected applied).
End Io.
Arguments IoRefdb D : clear implicits.

(** ** What a transaction may change *)
#[local] Arguments str _ : simpl never.

Section Safety.
Context {Er D : Type} `{GitDb Er D, Odb Er D}.
Implicit Types self : IoRefdb D.

(** The change of the reference [n] from [old] to [new] is one the update asks for:
    a direct reference is created, fast-forwarded, or forced where the update allows
    it; a symbolic reference replaces a direct one only where the update allows it;
    the target of a symbolic reference is created or fast-forwarded; a pruned
    reference had the value the update expects. *)
Inductive justified self (n : list N) : Update -> option Target -> option Target -> Prop :=
| just_direct name t p old :
    add_namespace name (namespace self) = Done n ->
    (old = None \/ exists prev, old = Some (Peeled prev) /\
       (p = Allow \/ odb_is_in_ancestry_path (db self) t prev = Ok true)) ->
    justified self n (Direct name t p) old (Some (Peeled t))
| just_symbolic name t p old :
    add_namespace name (namespace self) = Done n ->
    (forall oid, old = Some (Peeled oid) -> p = Allow) ->
    justified self n (Symbolic name t p) old (Some (LinkRefs.Symbolic (sym_name t)))
| just_target name t p old :
    n = sym_name t ->
    (old = None \/ exists prev, old = Some (Peeled prev) /\
       odb_is_in_ancestry_path (db self) (sym_target t) prev = Ok true) ->
    justified self n (Symbolic name t p) old (Some (Peeled (sym_target t)))
| just_prune name prev old :
    add_namespace name (namespace self) = Done n ->
    old = Some (match prev with inl oid => Peeled oid | inr sym => LinkRefs.Symbolic sym end) ->
    justified self n (Prune name prev) old None.

(** An edit that is justified whenever its expectation holds. *)
Definition edit_justified self (up : Update) (e : RefEdit) : Prop :=
  forall old, satisfied (expected (change e)) old -> justified self (edit_name e) up old (edit_result e).

Lemma direct_edit_ok self name t p r :
  direct_edit self name t p = EOk r ->
  match r with
  | inl u => u = Direct name t p
  | inr es => Forall (edit_justified self (Direct name t p)) es
  end.
Proof.
  unfold direct_edit, namespaced_name. intros Hd. inv_eff.
  match goal with H : find_namespaced _ _ = EOk ?o |- _ => destruct o as [prev|] end; inv_eff.
  - match goal with H : odb_is_in_ancestry_path _ _ _ = Ok ?b |- _ => destruct b; simplify_eq/= end.
    2: destruct p; simplify_eq/=; [done|].
    all: apply Forall_singleton; intros old Hold; simpl in Hold; subst; apply just_direct; [done|].
    all: right; exists prev; split; [done|]; auto.
  - apply Forall_singleton. intros old Hold. simpl in Hold. subst. apply just_direct; [done|by left].
Qed.

Lemma symref_edits_ok self name name_ns src t p es :
  symref_edits self name name_ns src t = EOk es ->
  add_namespace name (namespace self) = Done name_ns ->
  (forall oid, src = Some (Peeled oid) -> p = Allow) ->
  Forall (edit_justified self (Symbolic name t p)) es.
Proof.
  unfold symref_edits. intros Hs Hns Hsrc. inv_eff.
  match goal with H : db_find _ _ = Ok ?o |- _ => destruct o as [[dst|dst]|] end; inv_eff.
  - apply Forall_app. split.
    + match goal with H : (if bool_decide _ then _ else _) = EOk ?b |- _ =>
        rename H into Hff; destruct b; [|done] end.
      case_bool_decide; [|done]. inv_eff. apply Forall_singleton. intros old Hold. simpl in Hold. subst.
      apply just_target; [done|]. right. by exists dst.
    + apply Forall_singleton. intros old Hold. apply just_symbolic; [done|]. intros oid ->.
      apply (Hsrc oid). destruct src; simpl in Hold; congruence.
  - apply Forall_cons; split; [|apply Forall_singleton]; intros old Hold; simpl in Hold; subst.
    + apply just_target; [done|by left].
    + by apply just_symbolic.
Qed.

Lemma as_edits_ok self up r :
  as_edits self up = EOk r ->
  match r with inl u => u = up | inr es => Forall (edit_justified self up) es end.
Proof.
  destruct up as [name t p|name t p|name prev]; cbn [as_edits].
  - apply direct_edit_ok.
  - unfold symbolic_edit, namespaced_name. intros Hs. inv_eff.
    match goal with H : db_find _ _ = Ok ?o |- _ => destruct o as [[oid|sym]|] end.
    1: destruct p; simplify_eq/=; [done|].
    all: match goal with H : _ <$> ?x = EOk _ |- _ => destruct x as [es| |] eqn:He; simplify_eq/= end.
    all: eapply symref_edits_ok; [done|done|]; done.
  - unfold namespaced_name. intros Hp. inv_eff. apply Forall_singleton. intros old Hold.
    by apply just_prune.
Qed.

(** The edits collected so far: under their own names, each asked for by an update. *)
Definition edits_ok self (ups : list Update) (acc : list Update * gmap (list N) RefEdit) : Prop :=
  Forall (fun u => u ∈ ups) acc.1 /\
  map_Forall (fun n e => edit_name e = n /\ exists up, up ∈ ups /\ edit_justified self up e) acc.2.

Lemma insert_edits_ok self (ups : list Update) (up : Update) (es : list RefEdit) (m : gmap (list N) RefEdit) :
  up ∈ ups -> Forall (edit_justified self up) es ->
  map_Forall (fun n e => edit_name e = n /\ exists up, up ∈ ups /\ edit_justified self up e) m ->
  map_Forall (fun n e => edit_name e = n /\ exists up, up ∈ ups /\ edit_justified self up e)
    (foldl (fun m e => <[edit_name e := e]> m) m es).
Proof.
  intros Hup Hes. revert m. induction Hes as [|e es He _ IH]; intros m Hm; [done|]. cbn [foldl].
  apply IH. apply map_Forall_insert_2; [|done]. eauto.
Qed.

Lemma collect_ok self ups r :
  eff_fold (collect_edits self) ([], ∅) ups = EOk r ->
  edits_ok self ups r /\
  forall up, up ∈ ups -> exists e, as_edits self up = EOk e /\ (forall u, e = inl u -> up ∈ r.1).
Proof.
  intros Hf.
  assert (forall l acc, l ⊆ ups -> edits_ok self ups acc -> forall r,
    eff_fold (collect_edits self) acc l = EOk r -> edits_ok self ups r /\ acc.1 ⊆ r.1 /\
    forall up, up ∈ l -> exists e, as_edits self up = EOk e /\ (forall u, e = inl u -> up ∈ r.1)) as H'.
  2: { destruct (H' ups ([], ∅) ltac:(done) ltac:(split; [constructor|apply map_Forall_empty]) r Hf)
         as (? & _ & ?). done. }
  clear Hf r. induction l as [|up l IH]; intros acc Hl Hacc r; cbn [eff_fold].
  { intros [= <-]. split_and!; [done|done|]. intros ? []%elem_of_nil. }
  intros (acc' & (e & He & [= <-])%eff_bind_ok & Hr)%eff_bind_ok.
  pose proof (as_edits_ok _ _ _ He) as Hok. assert (up ∈ ups) as Hup by set_solver.
  destruct Hacc as [Hrej Hm].
  destruct (IH (match e with
       | inl rej => (acc.1 ++ [rej], acc.2)
       | inr eds => (acc.1, foldl (fun m e => <[edit_name e := e]> m) acc.2 eds)
       end)) with (r := r) as (Hro & Hsub & Hall); [set_solver| |done|].
  { destruct e as [u|es]; split; cbn [fst snd]; try done; [|by apply insert_edits_ok with up].
    rewrite Forall_app, Forall_singleton. by subst. }
  split_and!; [done| |].
  - intros u Hu. apply Hsub. destruct e; simpl; set_solver.
  - intros up' [->|Hin]%elem_of_cons; [|by apply Hall]. exists e. split; [done|]. intros u ->. subst u.
    apply Hsub. simpl. set_solver.
Qed.

Lemma hash_names `{HashIter} (m : gmap (list N) RefEdit) :
  map_Forall (fun n e => edit_name e = n) m ->
  NoDup (edit_name <$> (hash_iter m).*2) /\ (forall e, e ∈ (hash_iter m).*2 <-> m !! edit_name e = Some e).
Proof.
  intros Hm.
  assert (forall k e, (k, e) ∈ hash_iter m <-> m !! k = Some e) as Hel
    by (intros; rewrite hash_iter_perm; apply elem_of_map_to_list).
  assert (edit_name <$> (hash_iter m).*2 = (hash_iter m).*1) as ->.
  { rewrite <- list_fmap_compose. apply list_fmap_ext. intros i [k e] Hi. simpl.
    apply list_elem_of_lookup_2, Hel in Hi. by apply Hm in Hi. }
  split; [rewrite hash_iter_perm; apply NoDup_fst_map_to_list|].
  intros e. rewrite list_elem_of_fmap. split.
  - intros ([k e'] & -> & Hin%Hel). simpl. pose proof (Hm _ _ Hin) as Hk. simpl in Hk. by rewrite Hk.
  - intros Hin. exists (edit_name e, e). split; [done|]. by apply Hel.
Qed.

(** The policy errors a transaction is given up with. *)
Definition policy_error (e : Tx Er) : Prop :=
  match e with
  | NonFF _ _ _ | TypeChange _ | TargetSymbolic _ | Ancestry _ _ _ _ => True
  | _ => False
  end.

Lemma updated_of_not_policy e x : updated_of e = EErr x -> ~ policy_error x.
Proof.
  unfold updated_of, of_res_with. destruct (try_from_str (edit_name e)); cbn; [|by intros [= <-] []].
  case_match; [|done]. case_match; [done|].
  destruct (try_from_str _); cbn; [done|by intros [= <-] []].
Qed.

Lemma eff_map_err_in {E A B} (f : A -> eff E B) l x :
  eff_map f l = EErr x -> exists a, a ∈ l /\ f a = EErr x.
Proof.
  induction l as [|a l IH]; cbn [eff_map]; [done|]. destruct (f a) eqn:Ha; cbn.
  - destruct (eff_map f l); cbn; [done| |done]. intros [= ->]. destruct IH as (a' & ? & ?); [done|].
    exists a'. split; [by right|done].
  - intros [= ->]. exists a. split; [by left|done].
  - done.
Qed.

(** ** No panics *)

Lemma namespaced_name_ok self name :
  namespaced_name (Er:=Er) self name = EOk (join_on slash ([REFS; NAMESPACES; namespace self] ++ components name)).
Proof. unfold namespaced_name, add_namespace. by rewrite from_iter_done. Qed.

Lemma resolves_peeled (find : list N -> result Er (option Target)) k r r' :
  resolves find k r r' -> exists oid, r_target r' = Peeled oid.
Proof. induction 1; eauto. Qed.

Lemma find_namespaced_no_panic self name : find_namespaced self name <> EPanic.
Proof.
  unfold find_namespaced. destruct (db_find (db self) name) as [[t|]|e] eqn:Hf; cbn; [|done..].
  destruct (follow_exact (db_find (db self)) (MkReference name t) MAX_DEPTH) as (o & -> & Ho); [done..|].
  destruct o as [r|]; cbn; [|done].
  destruct (proj1 (Ho r) eq_refl) as (k & _ & (oid & ->)%resolves_peeled). done.
Qed.

Lemma as_edits_no_panic self up : as_edits self up <> EPanic.
Proof.
  destruct up as [name t p|name t p|name prev]; cbn [as_edits];
    unfold direct_edit, symbolic_edit; rewrite namespaced_name_ok; cbn [mbind eff_bind].
  - pose proof (find_namespaced_no_panic self
      (join_on slash ([REFS; NAMESPACES; namespace self] ++ components name))) as Hp.
    destruct (find_namespaced _ _) as [[prev|]| |]; cbn; [|done..].
    destruct (odb_is_in_ancestry_path _ _ _) as [[]|]; cbn; by destruct p.
  - destruct (db_find _ _) as [src|]; cbn; [|done].
    assert (symref_edits self name
      (join_on slash ([REFS; NAMESPACES; namespace self] ++ components name)) src t <> EPanic) as Hp.
    { unfold symref_edits. destruct (db_find _ _) as [[[dst|dst]|]|]; cbn; [|done..].
      case_bool_decide; cbn; [|done]. by destruct (odb_is_in_ancestry_path _ _ _). }
    destruct src as [[oid|sym]|]; [destruct p; [done|done|]|..]; cbn;
      by destruct (symref_edits _ _ _ _ _).
  - done.
Qed.

Lemma collect_no_panic self ups : forall acc, eff_fold (collect_edits self) acc ups <> EPanic.
Proof.
  induction ups as [|up ups IH]; intros acc; cbn [eff_fold]; [done|].
  assert (collect_edits self acc up <> EPanic) as Hc.
  { unfold collect_edits. pose proof (as_edits_no_panic self up). by destruct (as_edits self up). }
  destruct (collect_edits self acc up); cbn; [apply IH|done..].
Qed.

Lemma updated_no_panic es : eff_map (updated_of (Er:=Er)) es <> EPanic.
Proof.
  induction es as [|e es IH]; cbn [eff_map]; [done|].
  assert (updated_of (Er:=Er) e <> EPanic) as He.
  { unfold updated_of, of_res_with. destruct (try_from_str (edit_name e)); cbn; [|done].
    repeat case_match; try done. by destruct (try_from_str _). }
  destruct (updated_of e); cbn; [by destruct (eff_map _ es)|done..].
Qed.

(** The part after the edits are collected: what a commit changes, also when it fails. *)
Lemma commit_changes `{TL : !TxLaws Er D} `{HashIter} self ups rej edits r d' :
  edits_ok self ups (rej, edits) -> db_prepare (db self) (hash_iter edits).*2 = Ok tt ->
  db_commit (hash_iter edits).*2 (db self) = (r, d') ->
  forall n, disk d' !! n = disk (db self) !! n \/
    exists up, up ∈ ups /\ justified self n up (disk (db self) !! n) (disk d' !! n).
Proof.
  intros [_ Hm] Hp Hc n. cbn [snd] in Hm.
  destruct (hash_names edits) as [Hnd Hin]; [by eapply map_Forall_impl; [done|intros ? ? [? _]]|].
  assert (forall e, e ∈ (hash_iter edits).*2 -> disk d' !! edit_name e = edit_result e ->
    exists up, up ∈ ups /\ justified self (edit_name e) up (disk (db self) !! edit_name e) (disk d' !! edit_name e)) as Hmade.
  { intros e He Hres. pose proof (proj1 (Hin e) He) as Hlook. apply Hm in Hlook as (_ & up & Hup & Hj). exists up. split; [done|].
    rewrite Hres. apply Hj. by eapply prepare_expected. }
  destruct r as [es'|x].
  - destruct (commit_exact _ _ _ _ Hc Hnd) as (_ & Hset & Hkeep).
    destruct (decide (n ∈ edit_name <$> (hash_iter edits).*2)) as [Hn|Hn]; [right|left; auto].
    apply list_elem_of_fmap in Hn as (e & -> & He). by apply Hmade, Hset.
  - destruct (commit_failed _ _ _ _ Hc Hnd n) as [?|(e & He & <- & Hres)]; [by left|right]. by apply Hmade.
Qed.

(** C13 [io_update_safe]: however updating the references on disk ends, it changes nothing an update does
    not ask for: every reference that differs afterwards was created, fast-forwarded,
    forced where the update allows it, retyped where the update allows it, or pruned
    from the value the update expects.  When it succeeds no update is dropped silently: each one
    became edits or is reported as rejected.  A violation of a policy that demands it aborts
    the transaction and leaves the database as it was; other errors may come after some of the changes were made.  It never panics. *)
Theorem io_update_safe `{TL : !TxLaws Er D} `{HashIter} self (ups : list Update) r self'
    (Hu : io_update ups self = (r, self')) :
  (forall n, disk (db self') !! n = disk (db self) !! n \/
     exists up, up ∈ ups /\ justified self n up (disk (db self) !! n) (disk (db self') !! n)) /\
  match r with
  | EOk ap =>
      (forall u, u ∈ rejected ap -> u ∈ ups) /\
      (forall up, up ∈ ups -> exists e, as_edits self up = EOk e /\
         (forall u, e = inl u -> up ∈ rejected ap))
  | EErr x => policy_error x -> self' = self
  | EPanic => False
  end.
Proof.
  revert Hu. unfold io_update, reads, lift, mbind, st_bind, mret, st_ret.
  pose proof (collect_no_panic self ups ([], ∅)) as Hnp.
  destruct (eff_fold (collect_edits self) ([], ∅) ups) as [[rej edits]| |] eqn:Hf;
    [|by intros [= <- <-]; split; [left|]|done].
  destruct (collect_ok self ups _ Hf) as [Hok Hall]. clear Hnp.
  destruct (db_prepare (db self) (hash_iter edits).*2) as [[]|] eqn:Hp; [|by intros [= <- <-]; split; [left|]].
  destruct (db_clock (db self)) as [[]|]; [|by intros [= <- <-]; split; [left|]].
  cbn [of_res_with map_err of_res]. unfold on_db at 1.
  destruct (db_commit (hash_iter edits).*2 (db self)) as [c d'] eqn:Hc.
  pose proof (commit_changes self ups rej edits c d' Hok Hp Hc) as Hch.
  destruct c as [es|x]; cbn [of_res_with map_err of_res]; [|by intros [= <- <-]; split; [|intros []]].
  pose proof (updated_no_panic es) as Hnp.
  destruct (eff_map updated_of es) as [applied|x|] eqn:Hm; [|intros [= <- <-]; split; [done|]; intros Hx; exfalso|done].
  2: { apply eff_map_err_in in Hm as (e & _ & He). by eapply updated_of_not_policy. }
  assert (forall u, u ∈ rej -> u ∈ ups) as Hrej' by (destruct Hok as [Hrej _]; rewrite Forall_forall in Hrej; exact Hrej).
  case_bool_decide.
  - intros [= <- <-]. cbn [rejected db fst] in *. by split_and!.
  - unfold io_reload, on_db. cbn [db namespace].
    destruct (db_snapshot d') as [[[]|x] d''] eqn:Hs; cbn [of_res_with map_err of_res]; intros [= <- <-]; cbn [rejected db fst] in *;
      rewrite (snapshot_keeps _ _ _ Hs); by split_and!.
Qed.

(** [symbolic_retarget_fails]: a symbolic update whose target does not exist creates the
    target, but expects the symbolic reference itself not to exist either; where it
    does exist the update fails, although the policy allows to replace it. *)
Theorem symbolic_retarget_fails `{TL : !TxLaws Er D} `{HashIter} self name t n cur
    (Hfresh : forall m, db_find (db self) m = Ok (disk (db self) !! m))
    (Hn : add_namespace name (namespace self) = Done n)
    (Hcur : disk (db self) !! n = Some cur) (Hdst : disk (db self) !! sym_name t = None) :
  exists e, io_update [Symbolic name t Allow] self = (EErr (External e), self).
Proof.
  unfold io_update, reads, mbind, st_bind. cbn [eff_fold].
  set (e2 := MkRefEdit (ChangeUpdate (MkLogChange (force_reflog name) (str "replicate: symbolic ref"))
               MustNotExist (LinkRefs.Symbolic (sym_name t))) n).
  assert (exists e1, edit_name e1 = sym_name t /\
    collect_edits self ([], ∅) (Symbolic name t Allow) =
      EOk ([], <[n := e2]> (<[sym_name t := e1]> ∅))) as (e1 & He1 & ->).
  { unfold collect_edits. cbn [as_edits]. unfold symbolic_edit, symref_edits, namespaced_name.
    rewrite Hn. cbn [of_out mbind eff_bind]. rewrite !Hfresh, Hcur, Hdst.
    eexists. split; [|destruct cur; reflexivity]. done. }
  cbn [mbind eff_bind fst snd]. set (m := <[n := e2]> _).
  destruct (db_prepare (db self) (hash_iter m).*2) as [[]|e] eqn:Hp; [exfalso|by exists e].
  assert (e2 ∈ (hash_iter m).*2) as Hin.
  { apply list_elem_of_fmap. exists (n, e2). split; [done|].
    rewrite hash_iter_perm. apply elem_of_map_to_list. apply lookup_insert_eq. }
  pose proof (prepare_expected _ _ Hp e2 Hin) as Hs. simpl in Hs. congruence.
Qed.
End Safety.

(** ** A database in memory that keeps the laws *)

Definition apply_edit (d : gmap (list N) Target) (e : RefEdit) : gmap (list N) Target :=
  match edit_result e with
  | Some t => <[edit_name e := t]> d
  | None => delete (edit_name e) d
  end.

#[export] Instance satisfied_dec e cur : Decision (satisfied e cur).
Proof. destruct e; simpl; apply _. Defined.

#[local] Instance map_db : GitDb unit (gmap (list N) Target) := {|
  db_find := fun d n => Ok (d !! n);
  db_prepare := fun d es =>
    if bool_decide (Forall (fun e => satisfied (expected (change e)) (d !! edit_name e)) es)
    then Ok tt else Err tt;
  db_clock := fun _ => Ok tt;
  db_commit := fun es d => (Ok es, foldl apply_edit d es);
  db_snapshot := fun d => (Ok tt, d);
  disk := fun d => d;
|}.

Lemma apply_edits_lookup es : forall d,
  NoDup (edit_name <$> es) ->
  (forall e, e ∈ es -> foldl apply_edit d es !! edit_name e = edit_result e) /\
  (forall n, n ∉ edit_name <$> es -> foldl apply_edit d es !! n = d !! n).
Proof.
  induction es as [|e es IH]; intros d Hnd; [split; [by intros ? ?%elem_of_nil|done]|].
  cbn [fmap list_fmap] in Hnd. apply NoDup_cons in Hnd as [Hn Hnd].
  destruct (IH (apply_edit d e) Hnd) as [Hset Hkeep]. cbn [foldl].
  assert (apply_edit d e !! edit_name e = edit_result e) as He.
  { unfold apply_edit. destruct (edit_result e); [by rewrite lookup_insert_eq|by rewrite lookup_delete_eq]. }
  split.
  - intros e' [->|?]%elem_of_cons; [|by apply Hset]. by rewrite Hkeep.
  - intros n. cbn [fmap list_fmap]. rewrite not_elem_of_cons. intros [Hne ?]. rewrite Hkeep by done.
    unfold apply_edit. by destruct (edit_result e); rewrite ?lookup_insert_ne, ?lookup_delete_ne by done.
Qed.

#[local] Instance map_db_laws : TxLaws unit (gmap (list N) Target).
Proof.
  split.
  - intros d es. cbn. case_bool_decide as Hf; [|done]. intros _ e He. rewrite Forall_forall in Hf. by apply Hf.
  - intros es d es' d' [= <- <-] Hnd. split; [done|]. by apply apply_edits_lookup.
  - done.
  - by intros d r d' [= <- <-].
Qed.

(** Commits are numbered along one line of history. *)
#[local] Instance line_odb : Odb unit (gmap (list N) Target) := {|
  odb_contains := fun _ _ => true;
  odb_is_in_ancestry_path := fun _ new old => Ok (N.leb old new);
|}.

#[local] Existing Instance list_hash.

(** A fast-forward is made, and a rewind that must not happen aborts. *)
Lemma io_update_safe_witness :
  let d := {[ str "refs/namespaces/x/refs/heads/main" := Peeled 3 ]} : gmap (list N) Target in
  let self := MkIoRefdb (str "x") d in
  (io_update [Direct (str "refs/heads/main") 5 Abort] self).2 =
    MkIoRefdb (str "x") {[ str "refs/namespaces/x/refs/heads/main" := Peeled 5 ]} /\
  (io_update [Direct (str "refs/heads/main") 2 Abort] self).2 = self.
Proof.
  split; [vm_compute; reflexivity|].
  destruct (io_update [Direct (str "refs/heads/main") 2 Abort] (MkIoRefdb (str "x")
    ({[ str "refs/namespaces/x/refs/heads/main" := Peeled 3 ]} : gmap (list N) Target))) as [r self'] eqn:Hu.
  pose proof (io_update_safe _ _ _ _ Hu) as Hs.
  destruct Hs as [_ Hs]. destruct r as [ap|x|]; [exfalso; vm_compute in Hu; discriminate Hu|simpl; apply Hs|destruct Hs].
  vm_compute in Hu. injection Hu as <- _. exact I.
Defined.

(** The symbolic reference is there, its target is not. *)
Lemma symbolic_retarget_fails_witness :
  let d := {[ str "refs/namespaces/x/refs/rad/ids/y" :=
                LinkRefs.Symbolic (str "refs/namespaces/y/refs/rad/id") ]} : gmap (list N) Target in
  exists e, io_update (D := gmap (list N) Target)
    [Symbolic (str "refs/rad/ids/y") (MkSymrefTarget (str "refs/namespaces/y/refs/rad/id") 4) Allow]
    (MkIoRefdb (str "x") d) = (EErr (External e), MkIoRefdb (str "x") d).
Proof.
  eapply (symbolic_retarget_fails _ _ _ (str "refs/namespaces/x/refs/rad/ids/y")
    (LinkRefs.Symbolic (str "refs/namespaces/y/refs/rad/id")));
    [reflexivity|vm_compute; reflexivity..].
Defined.
