(* ===== verification/Transmit.v ===== *)
(** * Negotiation

    [link-replication/src/transmit.rs], [sigrefs.rs], [error.rs] and [track.rs]: the
    references a remote advertises once they have passed a filter, what is asked of
    the remote ([want]) and what it is told is here already ([have]), and the signed
    references of the peers. *)
From stdpp Require Import base list gmap.
From Stdlib Require Import NArith Lia.
From Stdlib Require String.
Import String.StringSyntax.
From S2P Require Import Prelude Effects RefFormat RefName Scoped LinkRefs Refdb.
Import Name.
#[local] Open Scope N_scope.

(** ** [track.rs] *)

Inductive Rel (U : Type) : Type :=
| Delegation (x : N + U)
| SelfRef (urn : U).
Arguments Delegation {U} x.
Arguments SelfRef {U} urn.

Inductive DataPolicy : Type := Deny | DAllow.
#[export] Instance data_policy_eq_dec : EqDecision DataPolicy.
Proof. solve_decision. Defined.

(** The derived order: [Deny] is below [Allow]. *)
Definition policy_lt (a b : DataPolicy) : bool :=
  match a, b with Deny, DAllow => true | _, _ => false end.

(** ** [transmit.rs] *)

(** [link_git::protocol::Ref], what [ls-refs] answers with. *)
Inductive GitRef : Type :=
| RefDirect (path : list N) (object : N)
| RefPeeled (path : list N) (tag object : N)
| RefSymbolic (path target : list N) (object : N).

Definition into_unpacked (r : GitRef) : list N * N :=
  match r with
  | RefDirect path object => (path, object)
  | RefPeeled path tag _ => (path, tag)
  | RefSymbolic path _ object => (path, object)
  end.

(** [None] is [LsRefs]::Full]. *)
Inductive LsRefs : Type :=
| LsFull
| LsPrefix (prefixes : list (list N)).

(** [NonEmptyVec::from_vec(..).map(LsRefs::from)]. *)
Definition ls_prefixes (ps : list (list N)) : option LsRefs :=
  match ps with [] => None | _ => Some (LsPrefix ps) end.

Definition from_prefix {PN : PeerNames} (scope : option N) (p : Prefix) : outcome (list N) :=
  match scope with
  | None => Done (prefix_str p)
  | Some id =>
      peer ← from_peer_id id;
      rest ← unwrap (str_strip_prefix (str "refs/") (prefix_str p));
      Done (join_on slash [str "refs"; str "remotes"; peer; rest])
  end.

Inductive WantsHavesError (Er : Type) : Type :=
| WhFind (e : Er)
| Malformed (name : list N).
Arguments WhFind {Er} e.
Arguments Malformed {Er} name.

Record FilteredRef : Type := MkFilteredRef {
  tip : N;
  parsed : Parsed Identity;
}.
#[export] Instance identity_eq_dec : EqDecision Identity := list_eq_dec.
#[export] Instance filtered_ref_eq_dec : EqDecision FilteredRef.
Proof. solve_decision. Defined.

(** [FilteredRef::new]. *)
Definition filtered_new (tip remote_id : N) (p : Parsed Identity) : FilteredRef :=
  MkFilteredRef tip (MkParsed (match remote p with Some r => Some r | None => Some remote_id end) (inner p)).

Definition remote_id (r : FilteredRef) : outcome N := unwrap (remote (parsed r)).

Section Transmit.
Context {PN : PeerNames}.

Definition fr_to_owned (r : FilteredRef) : outcome (list N) := to_owned (parsed r).

(** [FilteredRef::to_remote_tracking]. *)
Definition fr_to_remote_tracking (r : FilteredRef) : outcome (list N) :=
  o ← to_remote_tracking (parsed r); unwrap o.

Definition as_verification_ref_update (r : FilteredRef) : outcome (option Update) :=
  track_as ← fr_to_remote_tracking r;
  match inner (parsed r) with
  | inr _ => Done None
  | inl rad =>
      match rad with
      | Id | SignedRefs => Done (Some (Direct track_as (tip r) Abort))
      | Ids urn =>
          rid ← REFS_RAD_ID;
          n ← namespaced_urn urn rid;
          Done (Some (Symbolic track_as (MkSymrefTarget n (tip r)) Allow))
      | Selv => Done None
      end
  end.

Record BuildWantsHaves : Type := MkWantsHaves {
  wants : gset N;
  haves : gset N;
}.
Definition wh_default : BuildWantsHaves := MkWantsHaves ∅ ∅.
Definition want (oid : N) (b : BuildWantsHaves) : BuildWantsHaves :=
  MkWantsHaves ({[ oid ]} ∪ wants b) (haves b).
Definition have (oid : N) (b : BuildWantsHaves) : BuildWantsHaves :=
  MkWantsHaves (wants b) ({[ oid ]} ∪ haves b).

Section Db.
Context {Er C : Type} `{Refdb Er C, Odb Er C}.

(** The body shared by [BuildWantsHaves]::add] and [fetch::wants_haves]: the current
    tip of a reference, if any, is had; the new one is wanted unless it is the
    current one or known. *)
Definition want_have (db : C) (cur : option N) (new : N) (b : BuildWantsHaves) : BuildWantsHaves :=
  match cur with
  | Some oid =>
      let b' := have oid b in
      if bool_decide (oid <> new) && negb (odb_contains db new) then want new b' else b'
  | None => if negb (odb_contains db new) then want new b else b
  end.

(** One round of [BuildWantsHaves]::add]. *)
Definition wh_add_one (db : C) (b : BuildWantsHaves) (r : FilteredRef) : eff (WantsHavesError Er) BuildWantsHaves :=
  name ← of_out (fr_to_remote_tracking r);
  cur ← of_res_with WhFind (refname_to_id db name);
  EOk (want_have db cur (tip r) b).

Definition wh_add (db : C) (b : BuildWantsHaves) (refs : list FilteredRef) :
    eff (WantsHavesError Er) BuildWantsHaves :=
  eff_fold (wh_add_one db) b refs.

Definition wh_build (b : BuildWantsHaves) : option (list N * list N) :=
  let ws := filter (fun w => w ∉ haves b) (bset_iter (wants b)) in
  match ws with
  | [] => None
  | _ => Some (ws, bset_iter (haves b))
  end.
End Db.

(** ** [sigrefs.rs] *)

Record Sigrefs : Type := MkSigrefs {
  at_ : N;
  refs : gmap (list N) N;
  remotes : gset N;
}.

(** [sigrefs::Refs]. *)
Record SigRefs : Type := MkRefs {
  refs_at : N;
  refs_refs : gmap (list N) N;
}.

Record Flattened : Type := MkFlattened {
  f_refs : gmap N SigRefs;
  f_remotes : gset N;
}.


(** [Combined] is the map it wraps. *)
Definition flattened (c : gmap N Sigrefs) : Flattened :=
  foldl (fun f kv =>
    MkFlattened (<[kv.1 := MkRefs (at_ kv.2) (refs kv.2)]> (f_refs f)) (remotes kv.2 ∪ f_remotes f))
    (MkFlattened ∅ ∅) (btree_iter c).

Class SignedRefs (Er C : Type) := {
  sig_load : C -> N -> nat -> result Er (option Sigrefs);
  sig_load_at : C -> N -> N -> nat -> result Er (option Sigrefs);
  sig_update : st C Er (option N);
}.

Inductive Combine (Er : Type) : Type :=
| CombineNotFound (id : N)
| CombineLoad (e : Er).

Record Select : Type := MkSelect {
  must : gset N;
  may : gset N;
  cutoff : nat;
}.
End Transmit.
Abbreviation Combined := (gmap N Sigrefs) (only parsing).
Arguments CombineNotFound {Er} id.
Arguments CombineLoad {Er} e.

Section Combined.
Context {Er C : Type} `{SignedRefs Er C}.

Definition load_must (s : C) (cutoff : nat) (acc : Combined) (id : N) : result (Combine Er) Combined :=
  match sig_load s id cutoff with
  | Err e => Err (CombineLoad e)
  | Ok None => Err (CombineNotFound id)
  | Ok (Some sr) => Ok (<[id := sr]> acc)
  end.

Definition load_may (s : C) (cutoff : nat) (acc : Combined) (id : N) : result (Combine Er) Combined :=
  match sig_load s id cutoff with
  | Err e => Err (CombineLoad e)
  | Ok None => Ok acc
  | Ok (Some sr) => Ok (<[id := sr]> acc)
  end.

(** [fold_ok] *)
Fixpoint fold_ok {A B E} (f : A -> B -> result E A) (acc : A) (l : list B) : result E A :=
  match l with
  | [] => Ok acc
  | b :: l => acc ← f acc b; fold_ok f acc l
  end.

Definition combined (s : C) (sel : Select) : result (Combine Er) Combined :=
  acc ← fold_ok (load_must s (cutoff sel)) ∅ (bset_iter (must sel));
  fold_ok (load_may s (cutoff sel)) acc (bset_iter (may sel)).
End Combined.

(** ** Wants and haves *)
Section WantsHaves.
Context {PN : PeerNames} {Er C : Type} `{Refdb Er C, Odb Er C}.

(** The current tip of the tracking branch of an advertised reference. *)
Definition current_tip (db : C) (r : FilteredRef) (cur : option N) : Prop :=
  exists n, fr_to_remote_tracking r = Done n /\ refname_to_id db n = Ok cur.

Lemma want_have_wants db cur new b w :
  w ∈ wants (want_have db cur new b) <->
  w ∈ wants b \/ w = new /\ odb_contains db new = false /\ cur <> Some new.
Proof.
  unfold want_have. destruct cur as [oid|].
  - case_bool_decide as Hne; destruct (odb_contains db new); cbn [negb andb wants want have]; set_solver.
  - destruct (odb_contains db new); cbn [negb wants want]; set_solver.
Qed.

Lemma want_have_haves db cur new b h :
  h ∈ haves (want_have db cur new b) <-> h ∈ haves b \/ cur = Some h.
Proof.
  unfold want_have. destruct cur as [oid|].
  - case_bool_decide as Hne; destruct (odb_contains db new); cbn [negb andb haves want have]; set_solver.
  - destruct (odb_contains db new); cbn [negb haves want]; set_solver.
Qed.

Lemma wh_add_spec db rs : forall b b', wh_add db b rs = EOk b' ->
  (forall r, r ∈ rs -> exists cur, current_tip db r cur) /\
  (forall w, w ∈ wants b' <-> w ∈ wants b \/ exists r cur, r ∈ rs /\ current_tip db r cur /\
     w = tip r /\ odb_contains db w = false /\ cur <> Some w) /\
  (forall h, h ∈ haves b' <-> h ∈ haves b \/ exists r, r ∈ rs /\ current_tip db r (Some h)).
Proof.
  induction rs as [|r rs IH]; intros b b'; unfold wh_add; cbn [eff_fold].
  { intros [= <-]. split_and!; [by intros ? ?%elem_of_nil|set_solver..]. }
  intros (b1 & H1 & H2)%eff_bind_ok. unfold wh_add_one in H1. inv_eff.
  match goal with H : fr_to_remote_tracking r = Done ?n, H' : refname_to_id _ _ = Ok ?c |- _ =>
    assert (current_tip db r c) as Hcur by (by exists n);
    assert (forall c', current_tip db r c' -> c' = c) as Hdet
      by (intros c' (n' & ? & ?); congruence) end.
  destruct (IH _ _ H2) as (Hall & Hw & Hh). split_and!.
  - intros r' [->|?]%elem_of_cons; eauto.
  - intros w. rewrite Hw, want_have_wants. setoid_rewrite elem_of_cons. split.
    + intros [[?|(-> & ? & ?)]|(r' & c & ? & ?)]; [by left|right; exists r; eexists; eauto 6|right; eauto 8].
    + intros [?|(r' & c & [->|?] & Hc & -> & ? & ?)]; [by left; left| |right; eauto 10].
      apply Hdet in Hc as ->. left. by right.
  - intros h. rewrite Hh, want_have_haves. setoid_rewrite elem_of_cons. split.
    + intros [[?|Heq]|(r' & ? & ?)]; [by left|right; exists r; rewrite <- Heq; eauto|right; eauto].
    + intros [?|(r' & [->|?] & Hc)]; [by left; left| |right; eauto].
      apply Hdet in Hc. left. by right.
Qed.

(** [wants_haves_exact]: what is asked of the remote are exactly the advertised tips that
    are neither in the object database, nor where their tracking branch is, nor among
    the tips announced as present; the announced ones are exactly the current tips of
    the tracking branches; and when nothing is asked for, every advertised tip is
    already here. *)
Theorem wants_haves_exact (db : C) (rs : list FilteredRef) (b : BuildWantsHaves)
    (Hadd : wh_add db wh_default rs = EOk b) :
  (forall h, h ∈ haves b <-> exists r, r ∈ rs /\ current_tip db r (Some h)) /\
  match wh_build b with
  | None => forall r, r ∈ rs -> odb_contains db (tip r) = true \/ tip r ∈ haves b
  | Some (ws, hs) =>
      NoDup ws /\ ws <> [] /\ (forall h, h ∈ hs <-> h ∈ haves b) /\
      forall w, w ∈ ws <-> (w ∉ haves b) /\ odb_contains db w = false /\
        exists r cur, r ∈ rs /\ current_tip db r cur /\ w = tip r /\ cur <> Some w
  end.
Proof.
  destruct (wh_add_spec _ _ _ _ Hadd) as (Hall & Hw & Hh). cbn [wh_default wants haves] in *.
  assert (forall h, h ∈ haves b <-> exists r, r ∈ rs /\ current_tip db r (Some h)) as Hh'
    by (intros h; rewrite Hh; set_solver).
  split; [done|]. unfold wh_build.
  set (ws := filter (fun w => w ∉ haves b) (bset_iter (wants b))).
  assert (forall w, w ∈ ws <-> (w ∉ haves b) /\ odb_contains db w = false /\
    exists r cur, r ∈ rs /\ current_tip db r cur /\ w = tip r /\ cur <> Some w) as Hws.
  { intros w. unfold ws. rewrite list_elem_of_filter, elem_of_bset_iter, Hw. split.
    - intros (? & [?%elem_of_empty|(r & c & ? & ? & ? & ? & ?)]); [done|]. eauto 10.
    - intros (? & ? & r & c & ? & ? & ? & ?). split; [done|right]. eauto 10. }
  destruct ws as [|w ws'] eqn:Hnil.
  - intros r Hr. destruct (odb_contains db (tip r)) eqn:Hc; [by left|right].
    destruct (Hall r Hr) as [cur Hcur]. destruct (decide (tip r ∈ haves b)) as [|Hnot]; [done|].
    exfalso. apply (not_elem_of_nil (tip r)), Hws. split_and!; [done|done|]. exists r, cur.
    split_and!; [done|done|done|]. intros ->. apply Hnot, Hh'. eauto.
  - split_and!; [|done| |exact Hws].
    + rewrite <- Hnil. apply NoDup_filter, bset_iter_nodup.
    + intros h. apply elem_of_bset_iter.
Qed.
End WantsHaves.

(** ** Signed references *)
Section CombinedProperties.
Context {Er C : Type} `{SignedRefs Er C}.

Lemma fold_ok_app {A B E} (f : A -> B -> result E A) l1 l2 acc :
  fold_ok f acc (l1 ++ l2) = acc ← fold_ok f acc l1; fold_ok f acc l2.
Proof.
  revert acc. induction l1 as [|b l1 IH]; intros acc; [done|]. cbn [fold_ok app].
  by destruct (f acc b); cbn.
Qed.

(** What a pass over the peers leaves, or why it stops. *)
Lemma load_spec s k (req : bool) ids : forall acc,
  match fold_ok (if req then load_must s k else load_may s k) acc ids with
  | Ok m => forall id, (id ∈ ids -> exists o, sig_load s id k = Ok o /\
        (o = None -> req = false /\ m !! id = acc !! id) /\ (is_Some o -> m !! id = o)) /\
      (id ∉ ids -> m !! id = acc !! id)
  | Err (CombineNotFound id) => req = true /\ id ∈ ids /\ sig_load s id k = Ok None
  | Err (CombineLoad e) => exists id, id ∈ ids /\ sig_load s id k = Err e
  end.
Proof.
  induction ids as [|id ids IH]; intros acc; cbn [fold_ok].
  { intros id. split; [by intros ?%elem_of_nil|done]. }
  assert (forall acc', (if req then load_must s k else load_may s k) acc id = Ok acc' ->
    exists o, sig_load s id k = Ok o /\ (o = None -> req = false /\ acc' = acc) /\
      (forall sr, o = Some sr -> acc' = <[id := sr]> acc)) as Hone.
  { intros acc'. unfold load_must, load_may.
    destruct req, (sig_load s id k) as [[sr|]|] eqn:Hs; intros [= <-]; eexists; (split; [done|]);
      split; congruence || done. }
  destruct ((if req then load_must s k else load_may s k) acc id) as [acc'|e] eqn:Ha; cbn [mbind result_bind].
  2: { clear IH. revert Ha. unfold load_must, load_may.
       destruct req; destruct (sig_load s id k) as [[sr|]|x] eqn:Hs; intros Heq; try discriminate;
         injection Heq as <-.
       - split_and!; [done|by left|done].
       - exists id. split; [by left|done].
       - exists id. split; [by left|done]. }
  destruct (Hone _ eq_refl) as (o & Hs & Hnone & Hsome). specialize (IH acc').
  destruct (fold_ok _ acc' ids) as [m|[id'|e]].
  - intros id'. destruct (IH id') as [Hin Hout]. split.
    + intros [->|Hi]%elem_of_cons.
      * exists o. split; [done|]. destruct (decide (id ∈ ids)) as [Hi|Hi].
        -- destruct (Hin Hi) as (o' & Hs' & Hn' & Hs''). assert (o' = o) as -> by congruence.
           split; [|done]. intros Ho. destruct (Hn' Ho). destruct (Hnone Ho) as [? ->]. done.
        -- rewrite (Hout Hi). split; [intros Ho; destruct (Hnone Ho) as [? ->]; done|].
           intros [sr ->]. rewrite (Hsome sr) by done. apply lookup_insert_eq.
      * destruct (Hin Hi) as (o' & Hs' & Hn' & Hs''). exists o'. split; [done|]. split; [|done].
        intros Ho. destruct (Hn' Ho) as [? ->]. split; [done|].
        destruct o as [sr|]; [|destruct (Hnone eq_refl) as [? ->]; done].
        rewrite (Hsome sr) by done. rewrite lookup_insert_ne; [done|]. intros ->. congruence.
    + rewrite not_elem_of_cons. intros [Hne Hi]. rewrite (Hout Hi).
      destruct o as [sr|]; [|by destruct (Hnone eq_refl) as [? ->]].
      rewrite (Hsome sr) by done. by rewrite lookup_insert_ne.
  - destruct IH as (? & ? & ?). split_and!; [done|by right|done].
  - destruct IH as (id' & ? & ?). exists id'. split; [by right|done].
Qed.

(** The outcome of loading, by peer. *)
Lemma combined_spec (s : C) (sel : Select) :
  match combined s sel with
  | Ok m =>
      (forall id, id ∈ must sel -> is_Some (m !! id)) /\
      (forall id, id ∈ must sel ∪ may sel -> sig_load s id (cutoff sel) = Ok (m !! id)) /\
      (forall id, id ∉ must sel ∪ may sel -> m !! id = None)
  | Err (CombineNotFound id) => id ∈ must sel /\ sig_load s id (cutoff sel) = Ok None
  | Err (CombineLoad e) => exists id, id ∈ must sel ∪ may sel /\ sig_load s id (cutoff sel) = Err e
  end.
Proof.
  unfold combined. pose proof (load_spec s (cutoff sel) true (bset_iter (must sel)) ∅) as H1.
  cbn beta iota in H1.
  destruct (fold_ok (load_must s (cutoff sel)) ∅ _) as [m1|[id|e]]; cbn [mbind result_bind].
  2: { destruct H1 as (_ & Hi & ?). by rewrite elem_of_bset_iter in Hi. }
  2: { destruct H1 as (id & Hi & ?). exists id. rewrite elem_of_bset_iter in Hi. set_solver. }
  pose proof (load_spec s (cutoff sel) false (bset_iter (may sel)) m1) as H2. cbn beta iota in H2.
  destruct (fold_ok (load_may s (cutoff sel)) m1 _) as [m|[id|e]]; [|by destruct H2|].
  2: { destruct H2 as (id & Hi & ?). exists id. rewrite elem_of_bset_iter in Hi. set_solver. }
  setoid_rewrite elem_of_bset_iter in H1. setoid_rewrite elem_of_bset_iter in H2.
  assert (forall id, id ∈ must sel -> exists sr, sig_load s id (cutoff sel) = Ok (Some sr) /\
    m1 !! id = Some sr) as Hmust.
  { intros id Hi. destruct (H1 id) as [(o & Hs & Hn & Hso) _]; [done|].
    destruct o as [sr|]; [|by destruct (Hn eq_refl)]. exists sr. split; [done|]. by apply Hso. }
  assert (forall id, id ∈ must sel -> exists sr, sig_load s id (cutoff sel) = Ok (Some sr) /\
    m !! id = Some sr) as Hmust'.
  { intros id Hi. destruct (Hmust id Hi) as (sr & Hs & Hm1). exists sr. split; [done|].
    destruct (H2 id) as [Hin Hout]. destruct (decide (id ∈ may sel)) as [Hm|Hm].
    - destruct (Hin Hm) as (o & Hs' & _ & Hso). rewrite Hs in Hs'. injection Hs' as <-. by apply Hso.
    - by rewrite Hout. }
  split_and!.
  - intros id Hi. destruct (Hmust' id Hi) as (sr & _ & ->). by eexists.
  - intros id [Hi|Hi]%elem_of_union.
    + destruct (Hmust' id Hi) as (sr & -> & ->). done.
    + destruct (H2 id) as [Hin _]. destruct (Hin Hi) as (o & Hs & Hn & Hso). rewrite Hs. f_equal.
      destruct o as [sr|]; [symmetry; by apply Hso|]. destruct (Hn eq_refl) as [_ ->].
      destruct (decide (id ∈ must sel)) as [Hmi|Hmi]; [destruct (Hmust id Hmi) as (? & ? & _); congruence|].
      destruct (H1 id) as [_ Hout]. by rewrite Hout.
  - intros id Hi. apply not_elem_of_union in Hi as [Hi1 Hi2].
    destruct (H1 id) as [_ Ho1]. destruct (H2 id) as [_ Ho2]. by rewrite Ho2, Ho1.
Qed.

(** [combined_exact]: the signed references that are loaded are exactly those of the
    selected peers; it fails exactly when loading fails for one of them, or one of the
    required ones has none. *)
Theorem combined_exact (s : C) (sel : Select) :
  match combined s sel with
  | Ok m =>
      (forall id, id ∈ must sel -> is_Some (m !! id)) /\
      (forall id, id ∈ must sel ∪ may sel -> sig_load s id (cutoff sel) = Ok (m !! id)) /\
      (forall id, id ∉ must sel ∪ may sel -> m !! id = None)
  | Err (CombineNotFound id) => id ∈ must sel /\ sig_load s id (cutoff sel) = Ok None
  | Err (CombineLoad e) => exists id, id ∈ must sel ∪ may sel /\ sig_load s id (cutoff sel) = Err e
  end.
Proof. apply combined_spec. Qed.
End CombinedProperties.

(** ** A sample negotiation *)
Module SampleDb.
#[local] Existing Instance unary_names.

(** References, and the objects that are present. *)
Abbreviation Db := (gmap (list N) N * gset N)%type.
#[local] Instance db_refdb : Refdb unit Db := {|
  refname_to_id := fun s n => Ok (s.1 !! n);
  refdb_update := fun _ s => (EOk applied_default, s);
  refdb_reload := fun s => (EOk tt, s);
|}.
#[local] Instance db_odb : Odb unit Db := {|
  odb_contains := fun s o => bool_decide (o ∈ s.2);
  odb_is_in_ancestry_path := fun _ _ _ => Ok true;
|}.

(** The identity has moved from 5 to 6; the signed references, at 8, are here already. *)
Lemma wants_haves_exact_witness :
  exists b, wh_add ({[ str "refs/remotes/ha/rad/id" := 5 ]}, {[ 5; 8 ]} : gset N) wh_default
      [MkFilteredRef 6 (MkParsed (Some 1) (inl Id));
       MkFilteredRef 8 (MkParsed (Some 1) (inl Scoped.SignedRefs))] = EOk b /\
    wh_build b = Some ([6], [5]) /\ 5 ∈ haves b.
Proof.
  destruct (wants_haves_exact ({[ str "refs/remotes/ha/rad/id" := 5 ]}, {[ 5; 8 ]} : gset N)
      [MkFilteredRef 6 (MkParsed (Some 1) (inl Id));
       MkFilteredRef 8 (MkParsed (Some 1) (inl Scoped.SignedRefs))]
      (MkWantsHaves {[ 6 ]} {[ 5 ]})) as [Hh _].
  - vm_compute. reflexivity.
  - exists (MkWantsHaves {[ 6 ]} {[ 5 ]}). split_and!; [vm_compute; reflexivity..|].
    apply Hh. eexists. split; [by left|]. eexists. split; vm_compute; reflexivity.
Defined.
End SampleDb.
