(* ===== verification/FetchState.v ===== *)
(** * Fetch steps

    [link-replication/src/state.rs], [ids.rs], [internal.rs], [prepare.rs],
    [peek.rs], [peek/clone.rs], [peek/fetch.rs], [fetch.rs] and
    [fetch/transitive.rs].  A replication run goes through steps; each step lists
    references of the remote, filters them, checks that the required ones are there,
    fetches the objects that are missing, and prepares updates from what it has
    verified.  The updates are staged in the [FetchState] and seen by later steps
    through the [Shim] before they are applied.

    The traits the context implements ([LocalPeer], [Identities], [Net], [Tracking],
    [Refdb], [RefScan], [Odb], [SignedRefs]) are interfaces. *)
From stdpp Require Import base list gmap.
From Stdlib Require Import NArith Lia.
From Stdlib Require String.
Import String.StringSyntax.
From S2P Require Import Prelude Effects RefFormat RefName Scoped LinkRefs Refdb Transmit.
Import Name.
#[local] Open Scope N_scope.

(** ** [ids.rs]: the traits *)

Class VerifiedIdentity (U V : Type) `{Countable U} := {
  revision : V -> N;
  content_id : V -> N;
  v_urn : V -> U;
  delegate_ids : V -> gset N;
  delegate_urns : V -> gset U;
}.

Class LocalPeer (C : Type) := { local_peer : C -> N }.

Class Identities (Er U V C : Type) := {
  id_get : C -> U -> result Er (option N);
  id_verify : C -> N -> (U -> option N) -> result Er V;
  id_newer : C -> V -> V -> result Er V;
}.

Class Net (Er C : Type) := {
  run_ls_refs : LsRefs -> st C Er (list GitRef);
  run_fetch : N -> list N -> list N -> st C Er unit;
}.

Class Tracking (Er U C : Type) := {
  tracking_track : list (Rel U) -> st C Er (list (N + U));
  tracking_tracked : C -> result Er (list (result Er (N * DataPolicy)));
}.

(** ** [error.rs] *)

Inductive Layout : Type := MissingRequiredRefs (names : list (list N)).

Inductive Prepare (Er : Type) : Type :=
| Verification (e : Er)
| FindRef (name : list N) (e : Er)
| PrepareScan (e : Er).
Arguments Verification {Er} e.
Arguments FindRef {Er} name e.
Arguments PrepareScan {Er} e.

(** [Box<dyn Error>], by where it comes from. *)
Inductive RError (Er : Type) : Type :=
| FromSelf                                    (** cannot replicate from self *)
| MissingRadId                                (** pull: missing [rad/id] *)
| NewestMissing (id : N)                      (** newest: missing [rad/id] of a peer *)
| SetupMissing (name : list N)                (** rad::setup: missing *)
| ELayout (e : Layout)
| EWantsHaves (e : WantsHavesError Er)
| EPrepare (e : Prepare Er)
| ECombine (e : Combine Er)
| External (e : Er).
Arguments FromSelf {Er}. Arguments MissingRadId {Er}. Arguments NewestMissing {Er} id.
Arguments SetupMissing {Er} name. Arguments ELayout {Er} e. Arguments EWantsHaves {Er} e.
Arguments EPrepare {Er} e. Arguments ECombine {Er} e. Arguments External {Er} e.

(** ** [state.rs]: the state *)

Section State.
Context {U : Type} `{Countable U}.

Record FetchState : Type := MkFetchState {
  fs_refs : Mem;
  idts : gmap N N;
  dels : gmap N (gmap U N);
  sigs : gmap N N;
  tips : list Update;
  trks : list (Rel U);
}.

Definition fs_default : FetchState := MkFetchState mem_default ∅ ∅ ∅ [] [].

Definition lookup_delegations (s : FetchState) (remote : N) (urn : U) : option N :=
  dels s !! remote ≫= fun ids => ids !! urn.

Definition set_idts (s : FetchState) x := MkFetchState (fs_refs s) x (dels s) (sigs s) (tips s) (trks s).
Definition set_dels (s : FetchState) x := MkFetchState (fs_refs s) (idts s) x (sigs s) (tips s) (trks s).
Definition set_sigs (s : FetchState) x := MkFetchState (fs_refs s) (idts s) (dels s) x (tips s) (trks s).
Definition set_tips (s : FetchState) x := MkFetchState (fs_refs s) (idts s) (dels s) (sigs s) x (trks s).
Definition set_trks (s : FetchState) x := MkFetchState (fs_refs s) (idts s) (dels s) (sigs s) (tips s) x.

(** One round of [update_all]. *)
Definition update_one (acc : Applied * FetchState) (up : Update) : Applied * FetchState :=
  let '(ap, s) := acc in
  let '(ap', m) := mem_update [up] (fs_refs s) in
  (applied_append ap ap',
   MkFetchState m (idts s) (dels s) (sigs s) (tips s ++ [up]) (trks s)).

Definition update_all (ups : list Update) (s : FetchState) : Applied * FetchState :=
  foldl update_one (applied_default, s) ups.

Definition clear_rad_refs (s : FetchState) : FetchState :=
  MkFetchState (fs_refs s) ∅ ∅ ∅ (tips s) (trks s).
End State.
Arguments FetchState U {_ _}.

(** [internal::Updates]. *)
Record Updates (U : Type) : Type := MkUpdates {
  u_tips : list Update;
  u_track : list (Rel U);
}.
Arguments MkUpdates {U} u_tips u_track.
Arguments u_tips {U} u.
Arguments u_track {U} u.

(** [Shim]: the context seen through the staged updates. *)
Record Shim (C U : Type) `{Countable U} : Type := MkShim {
  shim_inner : C;
  shim_fetch : FetchState U;
}.
Arguments MkShim {C U _ _} shim_inner shim_fetch.
Arguments shim_inner {C U _ _} s.
Arguments shim_fetch {C U _ _} s.

Section ShimInstances.
Context {Er U V C : Type} `{Countable U}.

Definition shim_refname_to_id `{Refdb Er C} (s : Shim C U) (n : list N) : result Er (option N) :=
  match mem_refname_to_id (fs_refs (shim_fetch s)) n with
  | Some oid => Ok (Some oid)
  | None => refname_to_id (shim_inner s) n
  end.

#[export] Instance shim_refdb `{Refdb Er C} : Refdb Er (Shim C U) := {|
  refname_to_id := shim_refname_to_id;
  refdb_update := fun ups s =>
    let '(ap, f) := update_all ups (shim_fetch s) in (EOk ap, MkShim (shim_inner s) f);
  refdb_reload := fun s => (EOk tt, s);
|}.

Definition shim_load `{SignedRefs Er C} (s : Shim C U) (id : N) (cutoff : nat) :
    result Er (option Sigrefs) :=
  if bool_decide (sigs (shim_fetch s) = ∅) then sig_load (shim_inner s) id cutoff
  else match sigs (shim_fetch s) !! id with
       | None => Ok None
       | Some tip => sig_load_at (shim_inner s) tip id cutoff
       end.

Definition shim_sig_update `{SignedRefs Er C} : st (Shim C U) Er (option N) := fun s =>
  let '(r, c) := sig_update (shim_inner s) in (r, MkShim c (shim_fetch s)).

#[export] Instance shim_signed_refs `{SignedRefs Er C} : SignedRefs Er (Shim C U) := {|
  sig_load := shim_load;
  sig_load_at := fun s => sig_load_at (shim_inner s);
  sig_update := shim_sig_update;
|}.

Definition shim_track (rels : list (Rel U)) : st (Shim C U) Er (list (N + U)) := fun s =>
  (EOk ((fun r => match r with Delegation x => x | SelfRef urn => inr urn end) <$> rels),
   MkShim (shim_inner s) (set_trks (shim_fetch s) (trks (shim_fetch s) ++ rels))).

#[export] Instance shim_tracking `{Tracking Er U C} : Tracking Er U (Shim C U) := {|
  tracking_track := shim_track;
  tracking_tracked := fun s => tracking_tracked (shim_inner s);
|}.

#[export] Instance shim_identities `{Identities Er U V C} : Identities Er U V (Shim C U) := {|
  id_get := fun s => id_get (shim_inner s);
  id_verify := fun s => id_verify (shim_inner s);
  id_newer := fun s => id_newer (shim_inner s);
|}.

#[export] Instance shim_local_peer `{LocalPeer C} : LocalPeer (Shim C U) := {|
  local_peer := fun s => local_peer (shim_inner s);
|}.
End ShimInstances.
