(* ===== verification/Steps.v ===== *)
(** * The steps of a replication run

    [prepare.rs], [peek.rs], [peek/clone.rs], [peek/fetch.rs], [fetch.rs],
    [fetch/transitive.rs] and [FetchState::step].  The traits [Negotiation],
    [Layout] and [UpdateTips] are the class [Step], with one instance per step. *)
From stdpp Require Import base list gmap.
From Stdlib Require Import NArith Lia.
From Stdlib Require String.
Import String.StringSyntax.
From S2P Require Import Prelude Effects RefFormat RefName Scoped LinkRefs Refdb Transmit FetchState.
Import Name.
#[local] Open Scope N_scope.

Section Steps.
Context {PN : PeerNames} {Er U V C : Type} `{Countable U} `{Urn U}.

(** ** [peek.rs] *)

Definition scoped_of (id remote : N) (name : outcome (list N)) : outcome Scoped :=
  n ← name; scoped id remote n.

Definition ref_prefixes (id remote : N) : outcome (list (list N)) :=
  a ← scoped_of id remote REFS_RAD_ID;
  b ← scoped_of id remote REFS_RAD_SELF;
  c ← scoped_of id remote REFS_RAD_SIGNED_REFS;
  d ← from_prefix (if bool_decide (id <> remote) then Some id else None) PRadIds;
  Done [scoped_ref a; scoped_ref b; scoped_ref c; d].

Definition required_refs (id remote : N) : outcome (list Scoped) :=
  a ← scoped_of id remote REFS_RAD_ID;
  b ← scoped_of id remote REFS_RAD_SIGNED_REFS;
  Done [a; b].

Definition guard_required (required wanted : gset Scoped) : result Layout unit :=
  if bool_decide (wanted = ∅) then Ok tt
  else
    let diff := scoped_ref <$> bset_iter (required ∖ wanted) in
    match diff with
    | [] => Ok tt
    | _ => Err (MissingRequiredRefs diff)
    end.

Fixpoint out_concat {A B} (f : A -> outcome (list B)) (l : list A) : outcome (list B) :=
  match l with
  | [] => Done []
  | a :: l => x ← f a; y ← out_concat f l; Done (x ++ y)
  end.

(** [refs.iter().map(|x| scoped(x.remote_id(), remote_id, x.to_owned()))]. *)
Definition scoped_refs (remote : N) (refs : list FilteredRef) : outcome (list Scoped) :=
  out_concat (fun x =>
    id ← remote_id x; o ← fr_to_owned x; s ← scoped id remote o; Done [s]) refs.

Definition pre_validate_required (remote : N) (required : outcome (list Scoped))
    (refs : list FilteredRef) : eff Layout unit :=
  req ← of_out required;
  got ← of_out (scoped_refs remote refs);
  of_res (guard_required (list_to_set req) (list_to_set got)).

(** ** [prepare.rs] *)
Section Prepare.
Context `{Identities Er U V C} `{!VerifiedIdentity U V}.

Definition rad_self (cx : C) (id : V) (fr : FilteredRef) : eff (Prepare Er) Update :=
  rid ← of_out REFS_RAD_ID;
  top ← of_out (namespaced_urn (v_urn id) rid);
  oid ← of_res_with (FindRef top) (id_get cx (v_urn id));
  name ← of_out (fr_to_remote_tracking fr);
  EOk (match oid with
       | Some oid => Symbolic name (MkSymrefTarget top oid) Allow
       | None => Direct name (tip fr) Abort
       end).

Definition verification_update (fr : FilteredRef) (ups : list Update) : eff (Prepare Er) (list Update) :=
  u ← of_out (as_verification_ref_update fr);
  EOk (match u with Some u => ups ++ [u] | None => ups end).

(** The loop over the references of one remote; an invalid [rad/id] of a peer that is
    not a delegate drops all of them. *)
Fixpoint remote_refs (cx : C) (s : FetchState U) (remote : N) (is_delegate : bool)
    (ups : list Update) (rels : list (Rel U)) (refs : list FilteredRef) :
    eff (Prepare Er) (list Update * list (Rel U)) :=
  match refs with
  | [] => EOk (ups, rels)
  | r :: refs =>
      match inner (parsed r) with
      | inl Selv =>
          match id_verify cx (tip r) (fun _ => None) with
          | Err e =>
              if is_delegate then EErr (Verification e)
              else remote_refs cx s remote is_delegate ups rels refs
          | Ok id =>
              up ← rad_self cx id r;
              remote_refs cx s remote is_delegate (ups ++ [up]) (rels ++ [SelfRef (v_urn id)]) refs
          end
      | inl Id =>
          match id_verify cx (tip r) (lookup_delegations s remote) with
          | Err e => if is_delegate then EErr (Verification e) else EOk ([], [])
          | Ok _ =>
              ups ← verification_update r ups;
              remote_refs cx s remote is_delegate ups rels refs
          end
      | inl _ =>
          ups ← verification_update r ups;
          remote_refs cx s remote is_delegate ups rels refs
      | inr _ => remote_refs cx s remote is_delegate ups rels refs
      end
  end.

(** The references by remote, the local peer's left out. *)
Definition group_refs (local_id : N) (refs : list FilteredRef) : outcome (gmap N (list FilteredRef)) :=
  foldl (fun acc r =>
    acc ← acc; id ← remote_id r;
    Done (if bool_decide (id <> local_id) then <[id := default [] (acc !! id) ++ [r]]> acc else acc))
    (Done ∅) refs.

Definition verification_refs (local_id : N) (s : FetchState U) (cx : C) (refs : list FilteredRef)
    (is_delegate : N -> outcome bool) : eff (Prepare Er) (Updates U) :=
  grouped ← of_out (group_refs local_id refs);
  eff_fold (fun acc kv =>
    d ← of_out (is_delegate kv.1);
    '(ups, rels) ← remote_refs cx s kv.1 d [] [] kv.2;
    EOk (MkUpdates (u_tips acc ++ ups) (u_track acc ++ rels)))
    (MkUpdates [] []) (btree_iter grouped).
End Prepare.

(** ** The traits of a step *)

Class Step (S : Type) := {
  ls_refs : S -> outcome (option LsRefs);
  ref_filter : S -> GitRef -> outcome (option FilteredRef);
  wants_haves : S -> C -> list FilteredRef -> eff (WantsHavesError Er) (option (list N * list N));
  fetch_limit : S -> N;
  pre_validate : S -> list FilteredRef -> eff Layout unit;
  prepare : S -> FetchState U -> C -> list FilteredRef -> eff (Prepare Er) (Updates U);
}.

Context `{Refdb Er C, Odb Er C, RefScan Er C, Net Er C, Identities Er U V C, !VerifiedIdentity U V}.

(** [refs::parse(..).ok()?]. *)
Definition parse_ok (name : list N) : outcome (option (Parsed Identity)) :=
  r ← parse name; Done (res_ok r).

(** ** [peek/clone.rs] *)

Record ForClone : Type := MkForClone {
  cl_remote_id : N;
  cl_limit : N;
}.

Definition clone_ref_filter (self : ForClone) (r : GitRef) : outcome (option FilteredRef) :=
  let '(name, tip) := into_unpacked r in
  p ← parse_ok name;
  Done (match p with
        | Some p =>
            match remote p, inner p with
            | None, inl _ => Some (filtered_new tip (cl_remote_id self) p)
            | _, _ => None
            end
        | None => None
        end).

Definition clone_prepare (self : ForClone) (s : FetchState U) (cx : C) (refs : list FilteredRef) :
    eff (Prepare Er) (Updates U) :=
  tip ← of_out (unwrap (idts s !! cl_remote_id self));
  v ← of_res_with Verification (id_verify cx tip (lookup_delegations s (cl_remote_id self)));
  if bool_decide (cl_remote_id self ∈ delegate_ids (v : V)) then
    ups ← eff_map (fun r => of_out (as_verification_ref_update r)) refs;
    EOk (MkUpdates (omap (fun u => u) ups) [])
  else EOk (MkUpdates [] []).

#[export] Instance clone_step : Step ForClone := {|
  ls_refs := fun self => ls_prefixes <$> ref_prefixes (cl_remote_id self) (cl_remote_id self);
  ref_filter := clone_ref_filter;
  wants_haves := fun self db refs => wh_build <$> wh_add db wh_default refs;
  fetch_limit := cl_limit;
  pre_validate := fun self =>
    pre_validate_required (cl_remote_id self) (required_refs (cl_remote_id self) (cl_remote_id self));
  prepare := clone_prepare;
|}.

(** ** [peek/fetch.rs] *)

(** [Spec]. *)
Record FetchSpec : Type := MkSpec {
  spec_is_delegate : bool;
  spec_policy : DataPolicy;
}.

Record ForFetch : Type := MkForFetch {
  ff_local_id : N;
  ff_remote_id : N;
  ff_tracked : gmap N FetchSpec;
  ff_limit : N;
}.

Definition peers (self : ForFetch) : list N :=
  filter (fun id => id <> ff_local_id self) (btree_keys (ff_tracked self)).

Definition fetch_required_refs (self : ForFetch) : outcome (list Scoped) :=
  out_concat (fun kv => required_refs kv.1 (ff_remote_id self))
    (filter (fun kv => kv.1 <> ff_local_id self /\ spec_is_delegate kv.2 = true)
       (btree_iter (ff_tracked self))).

Definition fetch_ref_prefixes (self : ForFetch) : outcome (list (list N)) :=
  out_concat (fun id => ref_prefixes id (ff_remote_id self)) (peers self).

Definition fetch_ref_filter (self : ForFetch) (r : GitRef) : outcome (option FilteredRef) :=
  let '(name, tip) := into_unpacked r in
  p ← parse_ok name;
  Done (match p with
        | None => None
        | Some p =>
            let owner :=
              match remote p with
              | Some id => if bool_decide (id = ff_local_id self) then None else Some id
              | None => Some (ff_remote_id self)
              end in
            match owner with
            | None => None
            | Some id =>
                match ff_tracked self !! id, inner p with
                | Some spec, inl Scoped.SignedRefs =>
                    match spec_policy spec with
                    | Deny => None
                    | DAllow => Some (filtered_new tip id p)
                    end
                | Some spec, inl _ => Some (filtered_new tip id p)
                | _, _ => None
                end
            end
        end).

#[export] Instance for_fetch_step : Step ForFetch := {|
  ls_refs := fun self => ls_prefixes <$> fetch_ref_prefixes self;
  ref_filter := fetch_ref_filter;
  wants_haves := fun self db refs => wh_build <$> wh_add db wh_default refs;
  fetch_limit := ff_limit;
  pre_validate := fun self => pre_validate_required (ff_remote_id self) (fetch_required_refs self);
  prepare := fun self s cx refs =>
    verification_refs (ff_local_id self) s cx refs
      (fun id => spec_is_delegate <$> unwrap (ff_tracked self !! id));
|}.

(** ** [fetch.rs] *)

Record Fetch : Type := MkFetch {
  fe_local_id : N;
  fe_remote_id : N;
  fe_signed_refs : Flattened;
  fe_limit : N;
}.

(** [Qualified::from_refstr(name).and_then(|q| remote_tracking(remote, q))]. *)
Definition signed_tracking (remote : N) (name : list N) : outcome (option (list N)) :=
  match from_refstr name with
  | None => Done None
  | Some q => remote_tracking remote q
  end.

(** [fetch::wants_haves]. *)
Definition signed_wants_haves `{HashIter} (db : C) (filtered : list FilteredRef)
    (signed : list (N * gmap (list N) N)) : eff (WantsHavesError Er) (option (list N * list N)) :=
  b ← eff_fold (fun b kv =>
        eff_fold (fun b nt =>
          t ← of_out (signed_tracking kv.1 nt.1);
          name ← of_res (ok_or t (Malformed nt.1));
          cur ← of_res_with WhFind (refname_to_id db name);
          EOk (want_have db cur nt.2 b)) b (hash_iter kv.2))
      wh_default signed;
  b ← wh_add db b filtered;
  EOk (wh_build b).

(** [HashSet::contains] on the tracking names of a peer's signed references. *)
Definition peer_tips `{HashIter} (remote : N) (rs : SigRefs) : eff (Prepare Er) (list Update) :=
  eff_map (fun nt =>
    t ← of_out (signed_tracking remote nt.1);
    name ← of_out (unwrap t);
    EOk (Direct name nt.2 Allow)) (hash_iter (refs_refs rs)).

Definition prune_known (prefix_rad : list N) (signed : list (list N)) (acc : list Update) (r : Ref) :
    list Update :=
  if starts_with (ref_name r) prefix_rad then acc
  else if bool_decide (ref_name r ∈ signed) then acc
  else acc ++ [Prune (ref_name r) (ref_target r)].

(** The references of one peer that are not signed any more. *)
Definition peer_prunes (cx : C) (remote : N) (signed : list (list N)) : eff (Prepare Er) (list Update) :=
  p ← of_out (from_peer_id remote);
  let prefix := join (str "refs/remotes") p in
  let prefix_rad := join prefix RAD in
  known ← of_res_with PrepareScan (scan cx (Some prefix));
  eff_fold (fun acc r =>
    r ← of_res_with PrepareScan r; EOk (prune_known prefix_rad signed acc r)) [] known.

Definition fetch_prepare `{HashIter} (self : Fetch) (cx : C) : eff (Prepare Er) (Updates U) :=
  tips ← eff_fold (fun acc kv =>
    ups ← peer_tips kv.1 kv.2;
    prunes ← peer_prunes cx kv.1 (refname <$> ups);
    EOk (acc ++ ups ++ prunes)) [] (btree_iter (f_refs (fe_signed_refs self)));
  EOk (MkUpdates tips []).

Definition signed_ref_filter (self : Fetch) (r : GitRef) : outcome (option FilteredRef) :=
  let '(name, tip) := into_unpacked r in
  p ← parse_ok name;
  Done (match p with
        | Some p =>
            match remote p, inner p with
            | Some id, inl (Id | Scoped.SignedRefs | Ids _) =>
                if bool_decide (id ∈ f_remotes (fe_signed_refs self))
                then Some (filtered_new tip id p) else None
            | _, _ => None
            end
        | None => None
        end).

#[export] Instance fetch_step `{HashIter} : Step Fetch := {|
  ls_refs := fun self =>
    ls_prefixes <$> out_concat (fun id => ref_prefixes id (fe_remote_id self))
      (bset_iter (f_remotes (fe_signed_refs self)));
  ref_filter := signed_ref_filter;
  wants_haves := fun self db refs =>
    signed_wants_haves db refs
      ((fun kv => (kv.1, refs_refs kv.2)) <$> btree_iter (f_refs (fe_signed_refs self)));
  fetch_limit := fe_limit;
  pre_validate := fun _ _ => EOk tt;
  prepare := fun self _ cx _ => fetch_prepare self cx;
|}.

(** ** [fetch/transitive.rs] *)

Record Transitive : Type := MkTransitive {
  tr_local_id : N;
  tr_remote_id : N;
  tr_signed_refs : Combined;
  tr_identities : gset N;
  tr_denied : gset N;
  tr_limit : N;
}.

Definition trans_ref_prefixes (self : Transitive) : outcome (list (list N)) :=
  out_concat (fun id => ref_prefixes id (tr_remote_id self))
    ((btree_keys (tr_signed_refs self) ++ bset_iter (tr_denied self)) ++ bset_iter (tr_identities self)).

Definition trans_required_refs (self : Transitive) : outcome (list Scoped) :=
  a ← out_concat (fun id => required_refs id (tr_remote_id self)) (btree_keys (tr_signed_refs self));
  b ← out_concat (fun id => s ← scoped_of id (tr_remote_id self) REFS_RAD_ID; Done [s])
        (bset_iter (tr_denied self));
  Done (a ++ b).

Definition trans_ref_filter (self : Transitive) (r : GitRef) : outcome (option FilteredRef) :=
  let '(name, tip) := into_unpacked r in
  p ← parse_ok name;
  Done (match p with
        | Some p =>
            match remote p, inner p with
            | Some id, inl rad =>
                if bool_decide (is_Some (tr_signed_refs self !! id)) || bool_decide (id ∈ tr_denied self)
                then
                  match rad with
                  | Scoped.SignedRefs =>
                      match tr_signed_refs self !! id with
                      | Some sig => Some (filtered_new (at_ sig) id p)
                      | None => None
                      end
                  | _ => Some (filtered_new tip id p)
                  end
                else
                  match rad with
                  | Id | Ids _ => Some (filtered_new tip id p)
                  | _ => None
                  end
            | _, _ => None
            end
        | None => None
        end).

#[export] Instance transitive_step `{HashIter} : Step Transitive := {|
  ls_refs := fun self => ls_prefixes <$> trans_ref_prefixes self;
  ref_filter := trans_ref_filter;
  wants_haves := fun self db rs =>
    signed_wants_haves db rs ((fun kv => (kv.1, refs kv.2)) <$> btree_iter (tr_signed_refs self));
  fetch_limit := tr_limit;
  pre_validate := fun self => pre_validate_required (tr_remote_id self) (trans_required_refs self);
  prepare := fun self s cx refs =>
    verification_refs (tr_local_id self) s cx refs (fun _ => Done false);
|}.

(** ** [FetchState]::step] *)

(** The state and the context a step runs on. *)
Record World : Type := MkWorld {
  w_state : FetchState U;
  w_cx : C;
}.

Definition on_cx {A} (m : st C Er A) : st World (RError Er) A := fun w =>
  let '(r, c) := m (w_cx w) in (eff_map_err External r, MkWorld (w_state w) c).

Definition modify (f : FetchState U -> FetchState U) : st World (RError Er) unit := fun w =>
  (EOk tt, MkWorld (f (w_state w)) (w_cx w)).

(** The tips a step has seen are remembered by what they are of. *)
Definition record_tip (s : FetchState U) (r : FilteredRef) : outcome (FetchState U) :=
  match inner (parsed r) with
  | inl Id => id ← remote_id r; Done (set_idts s (<[id := tip r]> (idts s)))
  | inl (Ids urn) =>
      match try_from_id (U:=U) urn with
      | Some urn =>
          id ← remote_id r;
          Done (set_dels s (<[id := <[urn := tip r]> (default ∅ (dels s !! id))]> (dels s)))
      | None => Done s
      end
  | inl Scoped.SignedRefs => id ← remote_id r; Done (set_sigs s (<[id := tip r]> (sigs s)))
  | _ => Done s
  end.

Definition list_refs {S} `{Step S} (step : S) : st World (RError Er) (list FilteredRef) :=
  ls ← lift (of_out (ls_refs step));
  match ls with
  | None => mret []
  | Some ls =>
      all ← on_cx (run_ls_refs ls);
      lift (of_out (out_concat (fun r => o ← ref_filter step r; Done (option_list o)) all))
  end.

Definition run_step {S} `{Step S} (step : S) : st World (RError Er) unit :=
  on_cx refdb_reload ;;
  refs ← list_refs step;
  lift (eff_map_err ELayout (pre_validate step refs)) ;;
  wh ← reads (fun w => eff_map_err EWantsHaves (wants_haves step (w_cx w) refs));
  match wh with
  | Some (ws, hs) => on_cx (run_fetch (fetch_limit step) ws hs)
  | None => mret tt
  end ;;
  s ← reads (fun w => eff_fold (fun s r => of_out (record_tip s r)) (w_state w) refs);
  modify (fun _ => s) ;;
  up ← reads (fun w => eff_map_err EPrepare (prepare step (w_state w) (w_cx w) refs));
  modify (fun s => (update_all (u_tips up) (set_trks s (trks s ++ u_track up))).2).
End Steps.
