(* ===== verification/Validation.v ===== *)
(** * Validation of replicated trees

    [link-replication/src/validation.rs]: the references stored for a peer are
    compared with the ones the peer has signed. *)
From stdpp Require Import base list gmap.
From Stdlib Require Import NArith Lia.
From Stdlib Require String.
Import String.StringSyntax.
From S2P Require Import Prelude Effects RefFormat RefName Scoped LinkRefs Refdb Transmit.
Import Name.
#[local] Open Scope N_scope.

(** [error::Validation]; [None] is the local peer. *)
Inductive Validation : Type :=
| Unexpected (name : list N)
| VMalformed (name : list N) (e : ParseError)
| Missing (name : list N) (remote : option N)
| MissingRadId (remote : option N)
| MissingSigRefs (remote : option N)
| MismatchedTips (expected actual : N) (name : list N)
| NoData (remote : option N).

Section Validate.
Context {PN : PeerNames} {U : Type} `{Urn U} {Er : Type}.

(** What the loop of [SigTree]::validate] has gathered. *)
Record Seen : Type := MkSeen {
  fail : list Validation;
  count : nat;
  seen : list (list N);
  seen_rad_id : bool;
  seen_sigrefs : bool;
}.

Definition mismatch (expected actual : N) (name : list N) : list Validation :=
  if bool_decide (actual <> expected) then [MismatchedTips expected actual name] else [].

(** A reference of the validated peer. *)
Definition check_owned (rs : SigRefs) (acc : Seen) (owned : list N) (oid : N) (i : Rad U + list N) : Seen :=
  let acc := MkSeen (fail acc) (count acc) (owned :: seen acc) (seen_rad_id acc) (seen_sigrefs acc) in
  match i with
  | inl Id => MkSeen (fail acc) (count acc) (seen acc) true (seen_sigrefs acc)
  | inl Scoped.SignedRefs =>
      MkSeen (fail acc ++ mismatch (refs_at rs) oid owned) (count acc) (seen acc) (seen_rad_id acc) true
  | inl _ => acc
  | inr name =>
      MkSeen (fail acc ++ match refs_refs rs !! name with
                          | Some tip => mismatch tip oid name
                          | None => [Unexpected name]
                          end)
        (count acc) (seen acc) (seen_rad_id acc) (seen_sigrefs acc)
  end.

Definition check_item (id : option N) (rs : SigRefs) (acc : Seen) (item : result Er Ref) : eff Er Seen :=
  let acc := MkSeen (fail acc) (S (count acc)) (seen acc) (seen_rad_id acc) (seen_sigrefs acc) in
  r ← of_res item;
  p ← of_out (parsed_of (U:=U) (ref_name r));
  match p with
  | Err e => EOk (MkSeen (fail acc ++ [VMalformed (ref_name r) e]) (count acc) (seen acc)
                    (seen_rad_id acc) (seen_sigrefs acc))
  | Ok p =>
      if bool_decide (remote p <> id) then EOk acc
      else
        o ← of_out (to_owned p);
        EOk (check_owned rs acc o (peeled r) (inner p))
  end.

Definition sigtree_validate `{HashIter} (id : option N) (rs : SigRefs) (items : list (result Er Ref)) :
    eff Er (list Validation) :=
  acc ← eff_fold (check_item id rs) (MkSeen [] 0 [] false false) items;
  EOk (fail acc ++
       if bool_decide (count acc = 0%nat) then [NoData id]
       else
         (if seen_rad_id acc then [] else [MissingRadId id]) ++
         (if seen_sigrefs acc then [] else [MissingSigRefs id]) ++
         ((fun k => Missing k id) <$>
            filter (fun k => k ∉ seen acc) (hash_iter (refs_refs rs)).*1)).

(** [filter_ok(|x| !x.name.starts_with("refs/remotes"))]. *)
Definition not_remote (item : result Er Ref) : bool :=
  match item with
  | Ok r => negb (starts_with (ref_name r) (str "refs/remotes"))
  | Err _ => true
  end.

Definition validate {C} `{RefScan Er C} `{HashIter} (cx : C) (id : option N) (rs : SigRefs) :
    eff Er (list Validation) :=
  match id with
  | None =>
      items ← of_res (scan cx None);
      sigtree_validate None rs (filter (fun x => not_remote x = true) items)
  | Some p =>
      items ← of_res (scan cx (Some (str "refs/remotes/" ++ default_encoding p)));
      sigtree_validate (Some p) rs items
  end.
End Validate.

Section Exact.
Context {PN : PeerNames} {PT : PeerNamesTotal} {U : Type} `{UrnLaws U} {Er : Type}.
Implicit Types (r : Ref) (p : Parsed U).

(** The stored reference [r] is the peer's own reference [o]. *)
Definition entry (id : option N) r p (o : list N) : Prop :=
  parsed_of (ref_name r) = Done (Ok p) /\ remote p = id /\ to_owned p = Done o.

(** A stored reference that gives no warning by itself. *)
Definition good (id : option N) (rs : SigRefs) r : Prop :=
  exists p, parsed_of (ref_name r) = Done (Ok p) /\
    (remote p = id ->
      (inner p = inl Scoped.SignedRefs -> peeled r = refs_at rs) /\
      (forall n, inner p = inr n -> refs_refs rs !! n = Some (peeled r))).

Lemma mismatch_nil e a n : mismatch e a n = [] <-> a = e.
Proof. unfold mismatch. by case_bool_decide; split. Qed.

(** Some stored reference has a property. *)
Definition has (items : list Ref) (Q : Ref -> Prop) : Prop := exists r, r ∈ items /\ Q r.

Lemma has_nil Q : has [] Q <-> False.
Proof. unfold has. split; [by intros (r & []%elem_of_nil & _)|done]. Qed.
Lemma has_one r Q : has [r] Q <-> Q r.
Proof.
  unfold has. split; [by intros (r' & ->%list_elem_of_singleton & ?)|].
  intros. exists r. split; [by left|done].
Qed.
Lemma has_app i1 i2 Q : has (i1 ++ i2) Q <-> has i1 Q \/ has i2 Q.
Proof.
  unfold has. setoid_rewrite elem_of_app. split.
  - intros (r & [?|?] & ?); [left|right]; eauto.
  - intros [(r & ? & ?)|(r & ? & ?)]; eauto.
Qed.

Definition is_entry (id : option N) (k : list N) r : Prop := exists p, entry id r p k.
Definition is_rad (id : option N) (x : Rad U) r : Prop := exists p o, entry id r p o /\ inner p = inl x.

(** What the loop adds for some references. *)
Definition gathered (id : option N) (rs : SigRefs) (items : list Ref) (acc acc' : Seen) : Prop :=
  count acc' = (count acc + length items)%nat /\
  (forall k, k ∈ seen acc' <-> k ∈ seen acc \/ has items (is_entry id k)) /\
  (seen_rad_id acc' = true <-> seen_rad_id acc = true \/ has items (is_rad id Id)) /\
  (seen_sigrefs acc' = true <-> seen_sigrefs acc = true \/ has items (is_rad id Scoped.SignedRefs)) /\
  (fail acc' = [] <-> fail acc = [] /\ Forall (good id rs) items).

Lemma gathered_nil id rs acc : gathered id rs [] acc acc.
Proof. unfold gathered. setoid_rewrite has_nil. rewrite Forall_nil. split_and!; [simpl; lia|tauto..]. Qed.

Lemma gathered_app id rs i1 i2 a b c :
  gathered id rs i1 a b -> gathered id rs i2 b c -> gathered id rs (i1 ++ i2) a c.
Proof.
  intros (C1 & S1 & R1 & G1 & F1) (C2 & S2 & R2 & G2 & F2). unfold gathered.
  setoid_rewrite has_app. rewrite Forall_app, length_app, R2, R1, G2, G1, F2, F1.
  split_and!; [lia|intros k; rewrite S2, S1; tauto|tauto..].
Qed.

Lemma gathered_skip id rs r acc :
  (forall p o, ~ entry id r p o) -> good id rs r ->
  gathered id rs [r] acc (MkSeen (fail acc) (S (count acc)) (seen acc) (seen_rad_id acc) (seen_sigrefs acc)).
Proof.
  intros Hno Hg. unfold gathered. cbn [count seen seen_rad_id seen_sigrefs fail length].
  setoid_rewrite has_one. rewrite Forall_singleton. unfold is_rad, is_entry.
  split_and!; [lia|naive_solver..].
Qed.

Lemma gathered_malformed id rs r acc e :
  parsed_of (U:=U) (ref_name r) = Done (Err e) ->
  gathered id rs [r] acc (MkSeen (fail acc ++ [VMalformed (ref_name r) e]) (S (count acc)) (seen acc)
    (seen_rad_id acc) (seen_sigrefs acc)).
Proof.
  intros He. assert (forall p o, ~ entry id r p o) as Hno by (intros p o (Hp & _); congruence).
  unfold gathered. cbn [count seen seen_rad_id seen_sigrefs fail length].
  setoid_rewrite has_one. rewrite Forall_singleton. unfold is_rad, is_entry.
  split_and!; [lia|naive_solver..|].
  split; [by intros [_ ?]%app_eq_nil|]. intros [_ (p & Hp & _)]. congruence.
Qed.

Lemma gathered_owned id rs r p o acc :
  entry id r p o ->
  gathered id rs [r] acc
    (check_owned rs (MkSeen (fail acc) (S (count acc)) (seen acc) (seen_rad_id acc) (seen_sigrefs acc))
       o (peeled r) (inner p)).
Proof.
  intros He. destruct (He) as (Hp & Hr & Ho).
  assert (forall p' o', entry id r p' o' <-> p' = p /\ o' = o) as Hdet.
  { intros p' o'. split; [|by intros [-> ->]]. intros (Hp' & _ & Ho').
    assert (p' = p) as -> by congruence. split; congruence. }
  assert (good id rs r <-> (inner p = inl Scoped.SignedRefs -> peeled r = refs_at rs) /\
      (forall n, inner p = inr n -> refs_refs rs !! n = Some (peeled r))) as Hgood.
  { unfold good. split; [|eauto]. intros (p' & Hp' & Hx). assert (p' = p) as -> by congruence. auto. }
  assert (forall k, is_entry id k r <-> k = o) as Hent
    by (intros k; unfold is_entry; setoid_rewrite Hdet; naive_solver).
  assert (forall x, is_rad id x r <-> inner p = inl x) as Hrad
    by (intros x; unfold is_rad; setoid_rewrite Hdet; naive_solver).
  unfold gathered. setoid_rewrite has_one. setoid_rewrite Hent. setoid_rewrite Hrad.
  rewrite Forall_singleton, Hgood. unfold check_owned. cbn [count seen seen_rad_id seen_sigrefs fail].
  assert (forall (b : bool) (P : Prop), ~ P -> (b = true <-> b = true \/ P)) as Hflag by tauto.
  assert (forall (b : bool) (P : Prop), P -> (true = true <-> b = true \/ P)) as Hset by tauto.
  destruct (inner p) as [[]|n]; cbn [count seen seen_rad_id seen_sigrefs fail length];
    setoid_rewrite elem_of_cons;
    (split_and!; [lia|intros; tauto|by first [apply Hflag|apply Hset]|by first [apply Hflag|apply Hset]|]).
  1,2,4: split; [intros ->; split; [done|]; by split|by intros [-> _]].
  - split; [intros [? ?%mismatch_nil]%app_eq_nil; split; [done|]; by split|]. intros (-> & Ha & _).
    simpl. by apply mismatch_nil, Ha.
  - split.
    + intros [? Hn]%app_eq_nil. split; [done|]. split; [done|]. intros n' [= <-].
      destruct (refs_refs rs !! n) as [tip|]; [|done]. apply mismatch_nil in Hn. by rewrite Hn.
    + intros (-> & _ & Hn). simpl. rewrite (Hn n) by done. by apply mismatch_nil.
Qed.

Lemma to_owned_total p : exists o, to_owned p = Done o.
Proof.
  unfold to_owned. destruct (inner p) as [r|o]; [|eauto].
  destruct (rad_qualified_done r) as (c & tail & -> & _). eauto.
Qed.

Lemma check_item_spec id rs acc r x :
  parsed_of (U:=U) (ref_name r) = Done x ->
  exists acc', check_item (U:=U) (Er:=Er) id rs acc (Ok r) = EOk acc' /\ gathered id rs [r] acc acc'.
Proof.
  intros Hp. unfold check_item. cbn [of_res mbind eff_bind]. rewrite Hp. cbn [of_out mbind eff_bind].
  destruct x as [p|e].
  - case_bool_decide as Hr.
    + eexists. split; [done|]. apply gathered_skip; [intros p' o (? & ? & _); congruence|].
      exists p. split; [done|]. intros; contradiction.
    + destruct (to_owned_total p) as (o & Ho). rewrite Ho. eexists. split; [done|].
      apply gathered_owned. split_and!; [done| |done]. destruct (decide (remote p = id)); tauto.
  - eexists. split; [done|]. exact (gathered_malformed id rs r acc e Hp).
Qed.

Lemma check_fold id rs items : forall acc,
  (forall r, r ∈ items -> exists x, parsed_of (U:=U) (ref_name r) = Done x) ->
  exists acc', eff_fold (check_item (U:=U) (Er:=Er) id rs) acc (Ok <$> items) = EOk acc' /\
    gathered id rs items acc acc'.
Proof.
  induction items as [|r items IH]; intros acc Hq; [by exists acc; split; [|apply gathered_nil]|].
  destruct (Hq r) as [x Hx]; [by left|]. destruct (check_item_spec id rs acc r x Hx) as (a & Ha & Hg).
  destruct (IH a) as (acc' & Hf & Hg'); [intros; apply Hq; by right|].
  exists acc'. cbn [fmap list_fmap eff_fold]. rewrite Ha. split; [done|].
  by apply (gathered_app id rs [r] items acc a acc').
Qed.

Lemma stored_parses r : is_qualified (ref_name r) -> exists x, parsed_of (U:=U) (ref_name r) = Done x.
Proof.
  intros Hq. pose proof (parse_total_spec (U:=U) (ref_name r)) as Hp. rewrite parse_qualified in Hp by done.
  destruct (parsed_of (ref_name r)) as [x|]; [by exists x|]. destruct Hp as (_ & c & tail & _ & []%peer_total).
Qed.

(** C35 [validate_exact]: validating the stored references of a peer against its signed ones
    always gives a verdict, and gives no warning exactly when there are stored
    references, all parse, the peer has a [rad/id] and a [rad/signed_refs] that
    is where the signatures were read from, every other reference of the peer is
    signed with the very tip it has, and every signed reference is stored. *)
Theorem validate_exact `{HashIter} (id : option N) (rs : SigRefs) (items : list Ref)
    (Hq : forall r, r ∈ items -> is_qualified (ref_name r)) :
  exists ws, sigtree_validate (U:=U) (Er:=Er) id rs (Ok <$> items) = EOk ws /\
  (ws = [] <->
   items <> [] /\ (forall r, r ∈ items -> good id rs r) /\
   (exists r, r ∈ items /\ is_rad id Id r) /\
   (exists r, r ∈ items /\ is_rad id Scoped.SignedRefs r) /\
   (forall k, is_Some (refs_refs rs !! k) -> exists r, r ∈ items /\ is_entry id k r)).
Proof.
  destruct (check_fold id rs items (MkSeen [] 0 [] false false)) as (acc & Hf & HC & HS & HR & HG & HF).
  { intros r Hr. by apply stored_parses, Hq. }
  unfold sigtree_validate. rewrite Hf. eexists. split; [done|]. cbn [count seen seen_rad_id seen_sigrefs fail] in *.
  assert (count acc = 0%nat <-> items = []) as Hc by (rewrite HC; destruct items; simpl; split; done || lia).
  assert (filter (fun k => k ∉ seen acc) (hash_iter (refs_refs rs)).*1 = [] <->
    forall k, is_Some (refs_refs rs !! k) -> has items (is_entry id k)) as Hmiss.
  { assert (forall k, k ∈ (hash_iter (refs_refs rs)).*1 <-> is_Some (refs_refs rs !! k)) as Hk.
    { intros k. rewrite hash_iter_perm. rewrite list_elem_of_fmap. split.
      - intros ([k' v] & -> & Hin%elem_of_map_to_list). by eexists.
      - intros [v Hv]. exists (k, v). split; [done|]. by apply elem_of_map_to_list. }
    split.
    - intros Hnil k Hk'. destruct (decide (k ∈ seen acc)) as [[?%elem_of_nil|?]%HS|Hn]; [done..|].
      exfalso. apply (not_elem_of_nil k). rewrite <- Hnil. apply list_elem_of_filter. by rewrite Hk.
    - intros Hall. apply filter_none, Forall_forall. intros k Hk'%Hk Hn. apply Hn, HS. right. by apply Hall. }
  split.
  - intros [Hfail Hrest]%app_eq_nil. revert Hrest. case_bool_decide as H0'; [done|].
    intros [Hid [Hsig Hm]%app_eq_nil]%app_eq_nil. apply fmap_nil_inv in Hm.
    destruct (seen_rad_id acc); [|done]. destruct (seen_sigrefs acc); [|done].
    split_and!; [by rewrite <- Hc| | | |by apply Hmiss].
    + apply Forall_forall. by apply HF.
    + destruct (proj1 HR eq_refl); [done|done].
    + destruct (proj1 HG eq_refl); [done|done].
  - intros (Hne & Hg & Hid & Hsig & Hall). rewrite (proj2 HF) by (split; [done|by apply Forall_forall]). simpl.
    rewrite bool_decide_eq_false_2 by tauto.
    rewrite (proj2 HR) by (by right). rewrite (proj2 HG) by (by right).
    by rewrite (proj2 Hmiss Hall).
Qed.
End Exact.

#[local] Existing Instance unary_names.
#[local] Existing Instance unary_total.
#[local] Existing Instance unary_urn.
#[local] Existing Instance unary_urn_laws.
#[local] Existing Instance list_hash.

(** A peer with one signed branch. *)
Lemma validate_exact_witness :
  let rs := MkRefs 7 {[ str "refs/heads/m" := 9 ]} in
  let items := [MkRef (str "refs/remotes/ha/rad/id") (inl 5) 5;
                MkRef (str "refs/remotes/ha/rad/signed_refs") (inl 7) 7;
                MkRef (str "refs/remotes/ha/heads/m") (inl 9) 9] in
  exists ws, sigtree_validate (U:=N) (Er:=unit) (Some 1) rs (Ok <$> items) = EOk ws /\ ws = [] /\
    exists r, r ∈ items /\ is_entry (U:=N) (Some 1) (str "refs/heads/m") r.
Proof.
  destruct (validate_exact (U:=N) (Er:=unit) (Some 1) (MkRefs 7 {[ str "refs/heads/m" := 9 ]})
    [MkRef (str "refs/remotes/ha/rad/id") (inl 5) 5;
     MkRef (str "refs/remotes/ha/rad/signed_refs") (inl 7) 7;
     MkRef (str "refs/remotes/ha/heads/m") (inl 9) 9]) as (ws & Hv & Hok).
  - intros r Hr. repeat (apply elem_of_cons in Hr as [->|Hr]); try (by apply elem_of_nil in Hr);
      (split; [|eexists _, _, _]; vm_compute; reflexivity).
  - assert (ws = []) as -> by (vm_compute in Hv; congruence).
    exists []. split_and!; [exact Hv|reflexivity|].
    destruct (proj1 Hok eq_refl) as (_ & _ & _ & _ & Hall). apply Hall.
    exists 9. vm_compute. reflexivity.
Defined.
