(* ===== verification/Pull.v ===== *)
(** * Replication

    [link-replication/src/ids.rs] (the functions), [eval/rad.rs], [eval/pull.rs],
    [lib.rs] and [success.rs]: a whole replication run.  [pull] peeks at the
    identities and signed references of the tracked peers, sets up the local
    [rad/] hierarchy, fetches what is signed (also for the peers those peers
    track), applies the staged updates and validates the result. *)
From stdpp Require Import base list gmap.
From Stdlib Require Import NArith Lia.
From Stdlib Require String.
Import String.StringSyntax.
From S2P Require Import Prelude Effects RefFormat RefName Scoped LinkRefs Refdb Transmit FetchState.
From S2P Require Import Steps Validation.
Import Name.
#[local] Open Scope N_scope.

(** ** [ids.rs] *)
Section Ids.
Context {PN : PeerNames} {Er U V C : Type} `{Countable U} `{Urn U}.
Context `{Identities Er U V C, !VerifiedIdentity U V, Refdb Er C}.

(** [Refdb::refname_to_id(..).ok().flatten()].  The names are built from URNs, whose
    encodings are reference names, so building them does not panic. *)
Definition resolve_name (cx : C) (name : outcome (option (list N))) : option N :=
  match name with
  | Done (Some name) => match refname_to_id cx name with Ok o => o | Err _ => None end
  | _ => None
  end.

(** [None] where the reference does not exist, else its verified identity. *)
Definition verify_at (cx : C) (tip : option N) (resolve : U -> option N) : eff (RError Er) (option V) :=
  match tip with
  | None => EOk None
  | Some tip => Some <$> of_res_with External (id_verify cx tip resolve)
  end.

Definition current (cx : C) : eff (RError Er) (option V) :=
  name ← of_out REFS_RAD_ID;
  tip ← of_res_with External (refname_to_id cx name);
  verify_at cx tip (fun urn => resolve_name cx (Some <$> rad_ids urn)).

Definition identity_of (cx : C) (remote : N) : eff (RError Er) (option V) :=
  rid ← of_out REFS_RAD_ID;
  id_ref ← of_out (remote_tracking remote rid);
  id_ref ← of_out (unwrap id_ref);
  tip ← of_res_with External (refname_to_id cx id_ref);
  verify_at cx tip (fun urn => resolve_name cx (n ← rad_ids urn; remote_tracking remote n)).

Context `{LocalPeer C}.

(** One round of [newest]. *)
Definition newest_one (cx : C) (best : option (N * V)) (id : N) : eff (RError Er) (option (N * V)) :=
  a ← (if bool_decide (id = local_peer cx) then current cx else identity_of cx id);
  a ← of_res (ok_or a (NewestMissing id));
  match best with
  | None => EOk (Some (id, a))
  | Some (id_b, b) =>
      newer ← of_res_with External (id_newer cx a b);
      EOk (Some (if bool_decide (content_id newer <> content_id b) then (id, newer) else (id_b, newer)))
  end.

Definition newest (cx : C) (of_ids : list N) : eff (RError Er) (option (N * V)) :=
  eff_fold (newest_one cx) None of_ids.
End Ids.

(** ** [eval/rad.rs] *)
Section Rad.
Context {PN : PeerNames} {Er U V C : Type} `{OrdKey U} `{Urn U}.
Context `{Identities Er U V C, !VerifiedIdentity U V, Refdb Er C, LocalPeer C}.

Record LocalIdentity : Type := MkLocalIdentity {
  li_tip : N;
  li_ids : gset N;
}.

Record RadSetup : Type := MkRadSetup {
  rad_track : list (Rel U);
  rad_up : list Update;
}.

(** One delegate URN; [no_indirects] resolves nothing. *)
Definition setup_urn (cx : C) (remote : option N) (acc : RadSetup) (urn : U) : eff (RError Er) RadSetup :=
  name ← of_out (rad_ids urn);
  refname ← (match remote with
             | Some remote => n ← of_out (remote_tracking remote name); of_out (unwrap n)
             | None => EOk name
             end);
  head ← of_res_with External (refname_to_id cx refname);
  head ← of_res (ok_or head (SetupMissing refname));
  delegate ← of_res_with External (id_verify cx head (fun _ => None));
  rid ← of_out REFS_RAD_ID;
  top ← of_out (namespaced_urn urn rid);
  EOk (MkRadSetup (rad_track acc ++ [Delegation (inr urn)])
        (rad_up acc ++ [Symbolic name (MkSymrefTarget top (content_id (delegate : V))) Allow])).

Definition setup (cx : C) (remote : option N) (newest : V) (whoami : option LocalIdentity) :
    eff (RError Er) RadSetup :=
  acc ← eff_fold (setup_urn cx remote) (MkRadSetup [] []) (bset_iter (delegate_urns newest));
  self ← of_out REFS_RAD_SELF;
  rid ← of_out REFS_RAD_ID;
  EOk (MkRadSetup
    (rad_track acc ++ ((fun id => Delegation (inl id)) <$> bset_iter (delegate_ids newest)))
    (rad_up acc ++
     (match whoami with Some li => [Direct self (li_tip li) Reject] | None => [] end) ++
     [Direct rid (content_id newest) Reject])).

(** [rad::newer]: [None] is [ConfirmationRequired]; [inl] is ours, [inr] theirs. *)
Definition rad_newer (cx : C) (ours : option V) (theirs : V) : result Er (option (V + V)) :=
  match ours with
  | Some ours =>
      if bool_decide (local_peer cx ∈ delegate_ids ours) && bool_decide (revision ours <> revision theirs)
      then
        newer ← id_newer cx ours theirs;
        Ok (if bool_decide (content_id newer <> content_id ours) then None else Some (inl newer))
      else Ok (Some (inr theirs))
  | None => Ok (Some (inr theirs))
  end.
End Rad.
Arguments RadSetup U : clear implicits.
Arguments MkRadSetup {U} rad_track rad_up.

(** ** [eval/pull.rs] *)

(** [Vec::swap_remove]. *)
Definition swap_remove {A} (i : nat) (l : list A) : option (A * list A) :=
  match l !! i, list.last l with
  | Some x, Some z => Some (x, take (length l - 1) (<[i := z]> l))
  | _, _ => None
  end.

Definition is_id_tip (u : Update) : bool :=
  match u with
  | Direct name _ _ => ends_with name (str "refs/rad/id")
  | Symbolic _ target _ => ends_with (sym_name target) (str "refs/rad/id")
  | Prune _ _ => false
  end.

(** The [while] loop that takes the identity tips out of the pending updates; it
    makes one round per element: see [drain_spec]. *)
Fixpoint drain_id_tips (fuel i : nat) (tips pending : list Update) : option (list Update * list Update) :=
  if (i <? length pending)%nat then
    match fuel with
    | O => None
    | S fuel =>
        match pending !! i with
        | None => None
        | Some u =>
            if is_id_tip u then
              match swap_remove i pending with
              | Some (u, pending) => drain_id_tips fuel i (tips ++ [u]) pending
              | None => None
              end
            else drain_id_tips fuel (S i) tips pending
        end
    end
  else Some (tips, pending).

Record FetchLimit : Type := MkFetchLimit { limit_peek : N; limit_data : N }.
Definition fetch_limit_default : FetchLimit :=
  MkFetchLimit (1024 * 1024 * 5) (1024 * 1024 * 1024 * 5).

Section Pull.
Context {PN : PeerNames} {HI : HashIter} {Er U V C : Type} `{OrdKey U} `{Urn U}.
Context `{Identities Er U V C, !VerifiedIdentity U V, Refdb Er C, RefScan Er C, Odb Er C, Net Er C,
  SignedRefs Er C, Tracking Er U C, LocalPeer C}.

Record Success : Type := MkSuccess {
  applied : Applied;
  newly_tracked : list (N + U);
  requires_confirmation : bool;
  validation : list Validation;
}.

(** The peers to peek at: the tracked ones, and the delegates whatever their policy. *)
Definition tracked_specs (items : list (result Er (N * DataPolicy))) (delegates : gset N) :
    result Er (gmap N FetchSpec) :=
  m ← fold_ok (fun m item =>
        '(id, policy) ← item;
        Ok (if bool_decide (id ∉ delegates) then <[id := MkSpec false policy]> m else m)) ∅ items;
  Ok (foldl (fun m id => <[id := MkSpec true DAllow]> m) m (bset_iter delegates)).

(** The peers the tracked peers track: the lowest policy of those that are not
    delegates counts. *)
Definition transitive_one (local_id : N) (delegates : gset N) (tracked : gmap N FetchSpec)
    (spec : FetchSpec) (acc : gmap N DataPolicy) (remote : N) : gmap N DataPolicy :=
  if bool_decide (remote = local_id) || bool_decide (remote ∈ delegates) ||
     bool_decide (is_Some (tracked !! remote)) then acc
  else
    match acc !! remote with
    | Some v =>
        if negb (spec_is_delegate spec) && policy_lt (spec_policy spec) v
        then <[remote := spec_policy spec]> acc else acc
    | None => <[remote := spec_policy spec]> acc
    end.

Definition transitive_policies (local_id : N) (delegates : gset N) (tracked : gmap N FetchSpec)
    (signed : Combined) : gmap N DataPolicy :=
  foldl (fun acc kv =>
    match signed !! kv.1 with
    | Some sr => foldl (transitive_one local_id delegates tracked kv.2) acc (bset_iter (remotes sr))
    | None => acc
    end) ∅ (btree_iter tracked).

Abbreviation PM := (st (World (U:=U) (C:=C)) (RError Er)).

Definition shim (w : World (U:=U) (C:=C)) : Shim C U := MkShim (w_cx w) (w_state w).

(** The local [rad/] hierarchy; the result is whether a confirmation is required. *)
Definition setup_rad (anchor : V) (others : list N) (whoami : option LocalIdentity) : PM bool :=
  theirs ← reads (fun w => newest (V:=V) (shim w) others);
  match theirs with
  | None => mret false
  | Some (their_id, theirs) =>
      n ← reads (fun w => of_res_with External (rad_newer (shim w) (Some anchor) theirs));
      match n with
      | None => mret true
      | Some n =>
          r ← reads (fun w =>
                match n with
                | inl ours => setup (V:=V) (shim w) None ours whoami
                | inr theirs => setup (V:=V) (shim w) (Some their_id) theirs whoami
                end);
          modify (fun s => (update_all (rad_up r) (set_trks s (trks s ++ rad_track r))).2) ;;
          mret false
      end
  end.

(** [Tracking::track(cx, state.trackings_mut().drain(..))]. *)
Definition apply_trackings : PM (list (N + U)) :=
  w ← get;
  modify (fun s => set_trks s []) ;;
  on_cx (tracking_track (trks (w_state w))).

Definition apply_id_tips : PM Applied :=
  w ← get;
  match drain_id_tips (length (tips (w_state w))) 0 [] (tips (w_state w)) with
  | None => lift EPanic
  | Some (ups, pending) =>
      modify (fun s => set_tips s pending) ;;
      on_cx (refdb_update ups)
  end.

Definition apply_updates : PM Applied :=
  w ← get;
  modify (fun s => set_tips s []) ;;
  on_cx (refdb_update (tips (w_state w))).

(** The transitively tracked peers, when the fetch has found identities of them. *)
Definition pull_transitive (local_id remote : N) (limit : FetchLimit) (trans : gmap N DataPolicy)
    (signed : Flattened) : PM Flattened :=
  w ← get;
  if bool_decide (idts (w_state w) = ∅) then mret signed
  else
    let may := list_to_set (filter (fun id => trans !! id = Some DAllow) (btree_keys (sigs (w_state w)))) in
    sr ← lift (of_res_with ECombine (combined (shim w) (MkSelect ∅ may 0)));
    let step := MkTransitive local_id remote sr (dom (idts (w_state w)))
      (list_to_set (filter (fun id => trans !! id = Some Deny) (btree_keys trans))) (limit_data limit) in
    run_step step ;;
    mret (MkFlattened (f_refs (flattened sr) ∪ f_refs signed) (f_remotes signed)).

Definition validate_signed (signed : Flattened) : PM (list Validation) :=
  w ← get;
  lift (eff_map_err External (eff_fold (fun ws kv =>
    v ← validate (U:=U) (w_cx w) (Some kv.1) kv.2; EOk (ws ++ v)) [] (btree_iter (f_refs signed)))).

Definition validate_remotes (local_id : N) (signed : Flattened) : PM (list Validation) :=
  w ← get;
  lift (eff_map_err External (eff_fold (fun ws peer =>
    if bool_decide (peer = local_id) then EOk ws
    else
      sr ← of_res (sig_load (w_cx w) peer 0);
      match sr with
      | None => EOk (ws ++ [NoData (Some peer)])
      | Some sr => v ← validate (U:=U) (w_cx w) (Some peer) (MkRefs (at_ sr) (refs sr)); EOk (ws ++ v)
      end) [] (bset_iter (f_remotes signed)))).

(** [eval::pull]. *)
Definition eval_pull (limit : FetchLimit) (anchor : V) (remote : N) (whoami : option LocalIdentity) :
    PM Success :=
  w ← get;
  let local_id := local_peer (w_cx w) in
  let delegates := delegate_ids anchor in
  let delegates_sans_local := filter (fun id => id <> local_id) delegates in
  items ← lift (of_res_with External (tracking_tracked (w_cx w)));
  tracked ← lift (of_res_with External (tracked_specs items delegates));
  let peek := MkForFetch local_id remote tracked (limit_peek limit) in
  run_step peek ;;
  w ← get;
  signed ← lift (of_res_with ECombine (combined (shim w)
    (MkSelect delegates_sans_local (filter (fun id => id ∉ delegates) (dom tracked)) 2)));
  let trans := transitive_policies local_id delegates tracked signed in
  confirm ← setup_rad anchor (bset_iter delegates_sans_local) whoami;
  newly ← apply_trackings;
  ap1 ← apply_id_tips;
  let signed := flattened signed in
  modify clear_rad_refs ;;
  run_step (MkFetch local_id remote signed (limit_data limit)) ;;
  signed ← pull_transitive local_id remote limit trans signed;
  ap2 ← apply_updates;
  on_cx sig_update ;;
  ws1 ← validate_signed signed;
  ws2 ← validate_remotes local_id signed;
  mret (MkSuccess (applied_append ap1 ap2) newly confirm (ws1 ++ ws2)).

(** ** [lib.rs] *)

Definition pull (limit : FetchLimit) (remote : N) (whoami : option LocalIdentity) : st C (RError Er) Success :=
  fun cx =>
    if bool_decide (local_peer cx = remote) then (EErr FromSelf, cx)
    else
      match current (V:=V) cx with
      | EOk None => (EErr FetchState.MissingRadId, cx)
      | EOk (Some anchor) =>
          let '(r, w) := eval_pull limit anchor remote whoami (MkWorld fs_default cx) in (r, w_cx w)
      | EErr e => (EErr e, cx)
      | EPanic => (EPanic, cx)
      end.

Definition clone (limit : FetchLimit) (remote : N) (whoami : option LocalIdentity) : st C (RError Er) Success :=
  fun cx =>
    if bool_decide (local_peer cx = remote) then (EErr FromSelf, cx)
    else
      let '(r, w) :=
        (run_step (MkForClone remote (limit_peek limit)) ;;
         w ← get;
         tip ← lift (of_out (unwrap (idts (w_state w) !! remote)));
         anchor ← lift (of_res_with External
           (id_verify (w_cx w) tip (lookup_delegations (w_state w) remote)));
         eval_pull limit anchor remote whoami) (MkWorld fs_default cx) in
      (r, w_cx w).

(** [Success::urns_created]. *)
Definition urns_created (s : Success) : list U :=
  omap (fun u =>
    match u with
    | UpdatedSymbolic _ target =>
        match take 7 (components target) with
        | [a; b; id; c; d; e] =>
            if bool_decide (a = REFS) && bool_decide (b = NAMESPACES) && bool_decide (c = REFS) &&
               bool_decide (d = RAD) && bool_decide (e = ID)
            then try_from_id id else None
        | _ => None
        end
    | _ => None
    end) (updated (applied s)).
End Pull.

(** ** The identity tips *)

Lemma swap_remove_spec {A} (i : nat) (l : list A) :
  (i < length l)%nat ->
  exists x l', l !! i = Some x /\ swap_remove i l = Some (x, l') /\ l ≡ₚ x :: l' /\
    take i l' = take i l /\ length l' = (length l - 1)%nat.
Proof.
  intros Hi. destruct (lookup_lt_is_Some_2 l i Hi) as [x Hx].
  destruct l as [|z l] using rev_ind; [simpl in Hi; lia|]. clear IHl.
  exists x. unfold swap_remove. rewrite Hx, last_snoc.
  rewrite length_app in *. simpl in Hi |- *.
  replace (length l + 1 - 1)%nat with (length l) by lia.
  destruct (decide (i = length l)) as [->|Hne].
  - assert (x = z) as -> by (rewrite list_lookup_middle in Hx by done; congruence).
    rewrite insert_app_r_alt, Nat.sub_diag by lia. cbn [list_insert]. rewrite take_app_length.
    exists l. rewrite take_app_length, take_ge by lia.
    split_and!; [done|done|by rewrite Permutation_app_comm|done|lia].
  - rewrite insert_app_l by lia. rewrite take_app_length' by (by rewrite length_insert).
    rewrite lookup_app_l in Hx by lia.
    exists (<[i := z]> l). split_and!; [done|done| | |rewrite length_insert; lia].
    + rewrite <- (take_drop_middle l i x Hx) at 1. rewrite insert_take_drop by lia.
      rewrite <- app_assoc. simpl. rewrite <- Permutation_middle, Permutation_app_comm. simpl.
      rewrite (Permutation_app_comm (drop (S i) l)), <- !Permutation_middle. simpl.
      by rewrite Permutation_app_comm, Permutation_middle.
    + rewrite take_insert_ge by lia. by rewrite take_app_le by lia.
Qed.

Lemma drain_spec fuel : forall i ts pending,
  (length pending <= i + fuel)%nat ->
  Forall (fun u => is_id_tip u = false) (take i pending) ->
  exists ts' rest, drain_id_tips fuel i ts pending = Some (ts ++ ts', rest) /\
    pending ≡ₚ ts' ++ rest /\ Forall (fun u => is_id_tip u = true) ts' /\
    Forall (fun u => is_id_tip u = false) rest.
Proof.
  induction fuel as [|fuel IH]; intros i ts pending Hf Hi; cbn [drain_id_tips];
    (destruct (Nat.ltb_spec i (length pending)) as [Hlt|Hge]; [|
       exists [], pending; rewrite app_nil_r; rewrite take_ge in Hi by lia; by split_and!]).
  { exfalso. lia. }
  destruct (swap_remove_spec i pending Hlt) as (u & pending' & Hu & Hs & Hp & Ht & Hl).
  rewrite Hu. destruct (is_id_tip u) eqn:Hid.
  - rewrite Hs. destruct (IH i (ts ++ [u]) pending') as (ts' & rest & Hd & Hp' & Hts & Hr);
      [lia|by rewrite Ht|].
    exists (u :: ts'), rest. rewrite Hd, <- app_assoc. split_and!; [done| |by constructor|done].
    by rewrite Hp, Hp'.
  - destruct (IH (S i) ts pending) as (ts' & rest & Hd & Hp' & Hts & Hr); [lia| |by exists ts', rest].
    rewrite (take_S_r _ _ _ Hu), Forall_app, Forall_singleton. done.
Qed.

(** [drain_partition]: taking the identity tips out of the pending updates in place, by
    swapping with the last one, ends after one round per update and splits the pending
    updates into exactly the identity tips and the others, none lost or duplicated. *)
Theorem drain_partition (pending : list Update) :
  exists ts rest, drain_id_tips (length pending) 0 [] pending = Some (ts, rest) /\
    pending ≡ₚ ts ++ rest /\ Forall (fun u => is_id_tip u = true) ts /\
    Forall (fun u => is_id_tip u = false) rest.
Proof. apply (drain_spec (length pending) 0 []); [lia|constructor]. Qed.

(** ** The newest identity *)
Section Newest.
Context {PN : PeerNames} {Er U V C : Type} `{Countable U} `{Urn U}.
Context `{Identities Er U V C, !VerifiedIdentity U V, Refdb Er C, LocalPeer C}.

(** What [Identities]::newer] documents: of two related identities it returns one that
    is no older than either. *)
Context (cx : C) (no_older : V -> V -> Prop) {Htrans : RelationClasses.Transitive no_older}
  {Hrefl : RelationClasses.Reflexive no_older}.
Context (Hnewer : forall a b c, id_newer cx a b = Ok c ->
  (c = a \/ c = b) /\ no_older c a /\ no_older c b).

(** The identity a peer is taken at. *)
Definition identity_at (id : N) (v : V) : Prop :=
  (if bool_decide (id = local_peer cx) then current cx else identity_of cx id) = EOk (E:=RError Er) (Some v).

Lemma newest_spec ids : forall best r,
  eff_fold (newest_one (Er:=Er) cx) best ids = EOk r ->
  (forall id, id ∈ ids -> exists v, identity_at id v) /\
  match r with
  | None => ids = [] /\ best = None
  | Some (id, v) =>
      (exists v', content_id v' = content_id v /\ (id ∈ ids /\ identity_at id v' \/ best = Some (id, v'))) /\
      (forall id' v', id' ∈ ids -> identity_at id' v' -> no_older v v') /\
      (forall id' v', best = Some (id', v') -> no_older v v')
  end.
Proof using Hnewer Hrefl Htrans.
  induction ids as [|i ids IH]; intros best r; cbn [eff_fold].
  { intros [= <-]. split; [by intros ? ?%elem_of_nil|]. destruct best as [[id v]|]; [|done].
    split_and!; [exists v; split; [done|by right]|by intros ? ? ?%elem_of_nil|].
    by intros ? ? [= <- <-]. }
  intros (best' & E1 & E2)%eff_bind_ok. unfold newest_one in E1.
  apply eff_bind_ok in E1 as (a & Ha & E1). apply eff_bind_ok in E1 as (a' & Ha' & E1).
  destruct a as [a|]; [|done]. injection Ha' as <-.
  assert (identity_at i a) as Hi by done.
  assert (forall v', identity_at i v' -> v' = a) as Hdet by (unfold identity_at; intros; congruence).
  destruct (IH _ _ E2) as [Hall Hr].
  split; [intros id [->|?]%elem_of_cons; eauto|].
  assert (exists id1 v1, best' = Some (id1, v1) /\ no_older v1 a /\
    (forall id' v', best = Some (id', v') -> no_older v1 v') /\
    (id1 = i /\ content_id v1 = content_id a \/
     exists b, best = Some (id1, b) /\ content_id v1 = content_id b)) as (id1 & v1 & -> & Hva & Hvb & Hid).
  { destruct best as [[id_b b]|].
    - apply eff_bind_ok in E1 as (n & Hn & [= <-]). apply of_res_with_ok in Hn.
      destruct (Hnewer _ _ _ Hn) as (Hor & Hna & Hnb).
      case_bool_decide as Hc; eexists _, _; (split; [done|]); (split_and!; [done|by intros ? ? [= <- <-]|]).
      + left. split; [done|]. destruct Hor as [->| ->]; [done|congruence].
      + right. exists b. split; [done|]. destruct (decide (content_id n = content_id b)); tauto.
    - injection E1 as <-. eexists _, _. split; [done|]. split_and!; [reflexivity|done|by left]. }
  destruct r as [[id v]|]; [|by destruct Hr].
  destruct Hr as ((v' & Hcv & Hsrc) & Hmax & Hbest). specialize (Hbest _ _ eq_refl). split_and!.
  - destruct Hsrc as [[Hin Hat]|[= <- <-]]; [exists v'; split; [done|left; split; [by right|done]]|].
    destruct Hid as [[-> Hc]|(b & -> & Hc)].
    + exists a. split; [congruence|]. left. split; [by left|done].
    + exists b. split; [congruence|by right].
  - intros id' v'' [->|Hin]%elem_of_cons Hat; [|by eapply Hmax].
    apply Hdet in Hat as ->. by transitivity v1.
  - intros id' v'' Hb. transitivity v1; [done|by eapply Hvb].
Qed.

(** [newest_latest]: the newest identity among peers is found only if every one of them
    has a verified identity; the result has the content of the identity of the peer it
    is attributed to and is no older than that of any of them. *)
Theorem newest_latest (ids : list N) (r : option (N * V)) (Hr : newest (Er:=Er) cx ids = EOk r) :
  (forall id, id ∈ ids -> exists v, identity_at id v) /\
  match r with
  | None => ids = []
  | Some (id, v) =>
      id ∈ ids /\ (exists v', identity_at id v' /\ content_id v' = content_id v) /\
      forall id' v', id' ∈ ids -> identity_at id' v' -> no_older v v'
  end.
Proof using Hnewer Hrefl Htrans.
  destruct (newest_spec ids None r Hr) as [Hall H']. split; [done|].
  destruct r as [[id v]|]; [|by destruct H'].
  destruct H' as ((v' & Hc & [[Hin Hat]|?]) & Hmax & _); [|done]. split_and!; [done|by exists v'|done].
Qed.
End Newest.

(** ** Transitively tracked peers *)
Section TransitivePolicies.
Context {Er : Type} (local_id : N) (delegates : gset N) (tracked : gmap N FetchSpec).

Definition excluded (r : N) : Prop := r = local_id \/ r ∈ delegates \/ is_Some (tracked !! r).

(** Every delegate is allowed. *)
Definition delegates_allowed (ps : list (FetchSpec * N)) : Prop :=
  Forall (fun p => spec_is_delegate p.1 = true -> spec_policy p.1 = DAllow) ps.

Lemma excluded_bool r :
  bool_decide (r = local_id) || bool_decide (r ∈ delegates) || bool_decide (is_Some (tracked !! r)) = true
  <-> excluded r.
Proof. unfold excluded. rewrite !orb_true_iff, !bool_decide_eq_true. tauto. Qed.

Lemma transitive_one_lookup spec acc x r :
  (spec_is_delegate spec = true -> spec_policy spec = DAllow) ->
  transitive_one local_id delegates tracked spec acc x !! r =
    if decide (x = r /\ ~ excluded r)
    then Some (if decide (acc !! r = Some Deny) then Deny else spec_policy spec)
    else acc !! r.
Proof.
  intros Hd. unfold transitive_one.
  destruct (_ || _ || _) eqn:He.
  - apply excluded_bool in He. rewrite decide_False; [done|]. by intros [-> ?].
  - assert (~ excluded x) as Hx by (by rewrite <- excluded_bool, He).
    destruct (decide (x = r)) as [->|Hne].
    + rewrite decide_True by done. destruct (acc !! r) as [v|] eqn:Hv.
      * destruct (spec_is_delegate spec) eqn:Hs, (spec_policy spec) eqn:Hp, v; cbn [negb andb policy_lt];
          try (by specialize (Hd eq_refl)); rewrite ?lookup_insert_eq, ?Hv; by repeat case_decide.
      * rewrite lookup_insert_eq. by rewrite decide_False.
    + rewrite decide_False by tauto.
      destruct (acc !! x); [case_match|]; rewrite ?lookup_insert_ne by done; done.
Qed.

(** All listings at once: which tracked peer lists which remote. *)
Definition listings (signed : Combined) (kvs : list (N * FetchSpec)) : list (FetchSpec * N) :=
  kvs ≫= fun kv =>
    match signed !! kv.1 with
    | Some sr => (fun r => (kv.2, r)) <$> bset_iter (remotes sr)
    | None => []
    end.

Lemma transitive_flat signed kvs : forall acc,
  foldl (fun acc kv =>
    match signed !! kv.1 with
    | Some sr => foldl (transitive_one local_id delegates tracked kv.2) acc (bset_iter (remotes sr))
    | None => acc
    end) acc kvs =
  foldl (fun acc p => transitive_one local_id delegates tracked p.1 acc p.2) acc (listings signed kvs).
Proof.
  induction kvs as [|kv kvs IH]; intros acc; [done|]. cbn [foldl]. rewrite IH.
  unfold listings at 2. cbn [mbind list_bind]. rewrite foldl_app. f_equal.
  destruct (signed !! kv.1) as [sr|]; [|done]. generalize (bset_iter (remotes sr)) as rs. intros rs.
  revert acc. induction rs as [|r rs IHr]; intros acc; [done|]. cbn [foldl fmap list_fmap]. apply IHr.
Qed.

Lemma transitive_fold_lookup ps r : delegates_allowed ps -> ~ excluded r -> forall acc,
  let m := foldl (fun acc p => transitive_one local_id delegates tracked p.1 acc p.2) acc ps in
  (is_Some (m !! r) <-> is_Some (acc !! r) \/ exists spec, (spec, r) ∈ ps) /\
  (m !! r = Some Deny <-> acc !! r = Some Deny \/ exists spec, (spec, r) ∈ ps /\ spec_policy spec = Deny).
Proof.
  intros Hps Hr. induction Hps as [|[spec x] ps Hd _ IH]; intros acc m.
  { subst m. cbn [foldl]. split; split; try (by left); intros [?|(? & ?)]; try done; set_solver. }
  subst m. cbn [foldl fst snd]. destruct (IH (transitive_one local_id delegates tracked spec acc x)) as [Hs Hden].
  rewrite Hs, Hden, transitive_one_lookup by done. setoid_rewrite elem_of_cons. clear Hs Hden IH.
  destruct (decide (x = r)) as [->|Hne].
  - rewrite decide_True by done. split.
    + split; [intros _; right; exists spec; by left|intros _; left; by eexists].
    + case_decide as Ha.
      * split; [by left|]. intros _. by left.
      * split.
        -- intros [[= Hp]|(s & ? & ?)]; right; [exists spec; split; [by left|done]|exists s; split; [by right|done]].
        -- intros [?|(s & [[= ->]|?] & ?)]; [done|left; congruence|right; eauto].
  - rewrite decide_False by tauto. split.
    + split; [intros [?|(s & ?)]; [by left|right; exists s; by right]|].
      intros [?|(s & [[= -> ->]|?])]; [by left|done|right; eauto].
    + split; [intros [?|(s & ? & ?)]; [by left|right; exists s; split; [by right|done]]|].
      intros [?|(s & [[= -> ->]|?] & ?)]; [by left|done|right; eauto].
Qed.

Lemma excluded_lookup ps r : excluded r -> forall acc,
  foldl (fun acc p => transitive_one local_id delegates tracked p.1 acc p.2) acc ps !! r = acc !! r.
Proof.
  intros Hr. induction ps as [|[spec x] ps IH]; intros acc; [done|]. cbn [foldl fst snd]. rewrite IH.
  unfold transitive_one. destruct (_ || _ || _) eqn:He; [done|].
  assert (x <> r) by (intros ->; apply excluded_bool in Hr; congruence).
  destruct (acc !! x); [case_match|]; rewrite ?lookup_insert_ne by done; done.
Qed.

Lemma elem_of_listings signed kvs spec r :
  (spec, r) ∈ listings signed kvs <->
  exists id sr, (id, spec) ∈ kvs /\ signed !! id = Some sr /\ r ∈ remotes sr.
Proof.
  unfold listings. rewrite list_elem_of_bind. split.
  - intros ([id spec'] & Hin & Hkv). simpl in Hin. destruct (signed !! id) as [sr|] eqn:Hs; [|set_solver].
    apply list_elem_of_fmap in Hin as (r' & [= <- <-] & Hr). rewrite elem_of_bset_iter in Hr. eauto.
  - intros (id & sr & Hin & Hs & Hr). exists (id, spec). split; [|done]. simpl. rewrite Hs.
    apply list_elem_of_fmap. exists r. split; [done|]. by rewrite elem_of_bset_iter.
Qed.

(** The specs of the delegates are set last, and allow. *)
Lemma delegate_specs (ids : list N) (m : gmap N FetchSpec) : forall id spec,
  foldl (fun m id => <[id := MkSpec true DAllow]> m) m ids !! id = Some spec ->
  id ∈ ids /\ spec = MkSpec true DAllow \/ (id ∉ ids) /\ m !! id = Some spec.
Proof.
  revert m. induction ids as [|i ids IH]; intros m id spec; cbn [foldl]; [right; split; [set_solver|done]|].
  intros [[? ?]|[Hn Hm]]%IH; [left; split; [by right|done]|].
  destruct (decide (i = id)) as [->|].
  - rewrite lookup_insert_eq in Hm. left. split; [by left|congruence].
  - rewrite lookup_insert_ne in Hm by done. right. split; [set_solver|done].
Qed.

Lemma tracked_specs_spec (items : list (result Er (N * DataPolicy))) (dels : gset N) t :
  tracked_specs items dels = Ok t -> forall id spec, t !! id = Some spec ->
  id ∈ dels /\ spec = MkSpec true DAllow \/
  (id ∉ dels) /\ exists p, Ok (id, p) ∈ items /\ spec = MkSpec false p.
Proof.
  unfold tracked_specs. intros Ht. apply res_bind_ok in Ht as (m & Hm & [= <-]). intros id spec.
  intros [[Hin ->]|[Hin Hl]]%delegate_specs; rewrite elem_of_bset_iter in Hin; [by left|right].
  split; [done|].
  assert (forall acc, fold_ok (fun m item => '(id, policy) ← item;
      Ok (if bool_decide (id ∉ dels) then <[id := MkSpec false policy]> m else m)) acc items = Ok m ->
    acc !! id = Some spec \/ exists p, Ok (id, p) ∈ items /\ spec = MkSpec false p) as Hg.
  { clear Hm. induction items as [|x items IH]; intros acc; cbn [fold_ok]; [intros [= ->]; by left|].
    intros (acc' & Hx & Hf)%res_bind_ok. apply res_bind_ok in Hx as ([i p] & -> & [= <-]).
    destruct (IH _ Hf) as [Ha|(q & ? & ?)]; [|right; exists q; split; [by right|done]].
    case_bool_decide; [|by left]. destruct (decide (i = id)) as [->|].
    - rewrite lookup_insert_eq in Ha. right. exists p. split; [by left|congruence].
    - rewrite lookup_insert_ne in Ha by done. by left. }
  destruct (Hg ∅ Hm) as [Hl'|?]; [|done]. by rewrite lookup_empty in Hl'.
Qed.
End TransitivePolicies.

(** [transitive_exact]: the peers replicated because tracked peers track them are exactly
    those listed by the signed references of a tracked peer, other than the local peer,
    the delegates and the tracked peers themselves; one of them is denied exactly when a
    tracked peer that is no delegate and is denied itself lists it. *)
Theorem transitive_exact {Er} (local_id : N) (delegates : gset N)
    (items : list (result Er (N * DataPolicy))) (tracked : gmap N FetchSpec) (signed : Combined) (r : N)
    (Ht : tracked_specs items delegates = Ok tracked) :
  let m := transitive_policies local_id delegates tracked signed in
  (is_Some (m !! r) <-> ~ excluded local_id delegates tracked r /\
     exists id spec sr, tracked !! id = Some spec /\ signed !! id = Some sr /\ r ∈ remotes sr) /\
  (m !! r = Some Deny <-> ~ excluded local_id delegates tracked r /\
     exists id sr, tracked !! id = Some (MkSpec false Deny) /\ signed !! id = Some sr /\ r ∈ remotes sr).
Proof.
  cbn zeta. unfold transitive_policies. rewrite transitive_flat.
  assert (excluded local_id delegates tracked r \/ ~ excluded local_id delegates tracked r) as [He|He].
  { unfold excluded. destruct (decide (r = local_id)), (decide (r ∈ delegates)),
      (decide (is_Some (tracked !! r))); tauto. }
  { rewrite excluded_lookup, lookup_empty by done. split; split; try (by intros [? ?]); done. }
  destruct (transitive_fold_lookup local_id delegates tracked (listings signed (btree_iter tracked)) r)
    with (acc := ∅ : gmap N DataPolicy) as [Hs Hd]; [|done|].
  { apply Forall_forall. intros [spec x] (id & sr & Hin & _)%elem_of_listings Hdel.
    rewrite elem_of_btree_iter in Hin.
    destruct (tracked_specs_spec _ _ _ Ht _ _ Hin) as [[_ ->]|(_ & p & _ & ->)]; done. }
  rewrite Hs, Hd, lookup_empty. setoid_rewrite elem_of_listings. setoid_rewrite elem_of_btree_iter.
  split; split.
  - intros [[? ?]|(spec & id & sr & ? & ? & ?)]; [done|]. split; [done|]. by exists id, spec, sr.
  - intros (_ & id & spec & sr & ? & ? & ?). right. by exists spec, id, sr.
  - intros [?|(spec & (id & sr & Hl & ? & ?) & Hp)]; [done|]. split; [done|]. exists id, sr.
    split_and!; [|done..]. rewrite Hl. f_equal.
    destruct (tracked_specs_spec _ _ _ Ht _ _ Hl) as [[_ ->]|(_ & p & _ & ->)]; [done|].
    simpl in Hp. by subst.
  - intros (_ & id & sr & ? & ? & ?). right. exists (MkSpec false Deny). split; [by exists id, sr|done].
Qed.

(** Peer 2 is tracked and denied, peer 1 a delegate; both track peer 3. *)
Lemma transitive_exact_witness :
  let items := [Ok (2, Deny)] : list (result unit (N * DataPolicy)) in
  let tracked := {[ 1 := MkSpec true DAllow; 2 := MkSpec false Deny ]} : gmap N FetchSpec in
  let signed := {[ 1 := MkSigrefs 0 ∅ {[ 3 ]}; 2 := MkSigrefs 0 ∅ {[ 3; 0 ]} ]} : Combined in
  tracked_specs items {[ 1 ]} = Ok tracked /\
  transitive_policies 0 {[ 1 ]} tracked signed !! 3 = Some Deny /\
  ~ excluded 0 {[ 1 ]} tracked 3.
Proof.
  assert (tracked_specs ([Ok (2, Deny)] : list (result unit (N * DataPolicy))) {[ 1 ]} =
    Ok ({[ 1 := MkSpec true DAllow; 2 := MkSpec false Deny ]} : gmap N FetchSpec)) as Ht
    by (vm_compute; reflexivity).
  destruct (transitive_exact 0 {[ 1 ]} _ _
    ({[ 1 := MkSigrefs 0 ∅ {[ 3 ]}; 2 := MkSigrefs 0 ∅ {[ 3; 0 ]} ]} : Combined) 3 Ht) as [_ Hd].
  cbn zeta. split; [exact Ht|].
  assert (transitive_policies 0 {[ 1 ]} ({[ 1 := MkSpec true DAllow; 2 := MkSpec false Deny ]} : gmap N FetchSpec)
    ({[ 1 := MkSigrefs 0 ∅ {[ 3 ]}; 2 := MkSigrefs 0 ∅ {[ 3; 0 ]} ]} : Combined) !! 3 = Some Deny) as H3
    by (vm_compute; reflexivity).
  split; [exact H3|]. apply Hd in H3. exact (proj1 H3).
Defined.

(** ** A sample context

    A storage held in memory and a remote that advertises fixed references: peer 1,
    which the local peer 0 replicates from, is the only delegate. *)
Module Sample.
#[export] Existing Instance unary_names.
#[export] Existing Instance unary_urn.
#[export] Existing Instance list_hash.

Record Store : Type := MkStore {
  s_local : N;
  s_refs : gmap (list N) N;
  s_objects : gset N;
  s_advertised : list GitRef;
  s_signed : gmap N Sigrefs;
}.
Definition with_refs (s : Store) r := MkStore (s_local s) r (s_objects s) (s_advertised s) (s_signed s).
Definition with_objects (s : Store) o := MkStore (s_local s) (s_refs s) o (s_advertised s) (s_signed s).

Definition put_ref (m : gmap (list N) N) (u : Update) : gmap (list N) N :=
  match u with
  | Direct n t _ => <[n := t]> m
  | Symbolic n t _ => <[n := sym_target t]> m
  | Prune n _ => delete n m
  end.

#[export] Instance store_refdb : Refdb unit Store := {|
  refname_to_id := fun s n => Ok (s_refs s !! n);
  refdb_update := fun ups s => (EOk (MkApplied [] []), with_refs s (foldl put_ref (s_refs s) ups));
  refdb_reload := fun s => (EOk tt, s);
|}.
#[export] Instance store_scan : RefScan unit Store := {|
  scan := fun s p => Ok ((fun kv => Ok (MkRef kv.1 (inl kv.2) kv.2)) <$>
    filter (fun kv => match p with None => true | Some p => starts_with kv.1 p end = true)
      (map_to_list (s_refs s)));
|}.
#[export] Instance store_odb : Odb unit Store := {|
  odb_contains := fun s o => bool_decide (o ∈ s_objects s);
  odb_is_in_ancestry_path := fun _ _ _ => Ok true;
|}.
#[export] Instance store_net : Net unit Store := {|
  run_ls_refs := fun _ s => (EOk (s_advertised s), s);
  run_fetch := fun _ ws _ s => (EOk tt, with_objects s (list_to_set ws ∪ s_objects s));
|}.
#[export] Instance store_local : LocalPeer Store := {| local_peer := s_local |}.
#[export] Instance store_signed : SignedRefs unit Store := {|
  sig_load := fun s p _ => Ok (s_signed s !! p);
  sig_load_at := fun s _ p _ => Ok (s_signed s !! p);
  sig_update := fun s => (EOk None, s);
|}.
#[export] Instance store_tracking : Tracking unit N Store := {|
  tracking_track := fun _ s => (EOk [], s);
  tracking_tracked := fun _ => Ok [];
|}.
(** An identity is its tip. *)
#[export] Instance store_verified : VerifiedIdentity N N := {|
  revision := fun v => v;
  content_id := fun v => v;
  v_urn := fun _ => 0;
  delegate_ids := fun _ => {[ 1 ]};
  delegate_urns := fun _ => ∅;
|}.
#[export] Instance store_identities : Identities unit N N Store := {|
  id_get := fun _ _ => Ok None;
  id_verify := fun _ t _ => Ok t;
  id_newer := fun _ a b => Ok (N.max a b);
|}.

Definition mine : list N := str "refs/heads/mine".

Definition sample : Store := MkStore 0
  {[ str "refs/rad/id" := 5; mine := 7 ]} {[ 5; 7 ]}
  [RefDirect (str "refs/rad/id") 6; RefDirect (str "refs/rad/signed_refs") 8;
   RefDirect (str "refs/heads/mine") 9]
  {[ 1 := MkSigrefs 8 {[ mine := 9 ]} ∅ ]}.

(** The identities of two peers: the newer one is found. *)
Lemma newest_latest_witness :
  exists id v, newest (Er:=unit) (with_refs sample
      {[ str "refs/rad/id" := 5; str "refs/remotes/ha/rad/id" := 6 ]}) [0; 1] = EOk (Some (id, v)) /\
    id = 1 /\ v = 6 /\ v >= 5.
Proof.
  destruct (newest_latest (Er:=unit) (U:=N) (V:=N) (with_refs sample
      {[ str "refs/rad/id" := 5; str "refs/remotes/ha/rad/id" := 6 ]}) N.ge
      (Htrans := fun a b c (H1 : a >= b) (H2 : b >= c) => ltac:(lia))
      (Hrefl := fun a => (ltac:(lia) : a >= a))) with (ids := [0; 1]) (r := Some (1, 6)) as [_ (_ & _ & Hmax)].
  - intros a b c [= <-]. lia.
  - vm_compute. reflexivity.
  - exists 1, 6. split_and!; [vm_compute; reflexivity|done|done|]. apply (Hmax 0); [by left|].
    vm_compute. done.
Defined.
End Sample.
