(* ===== verification/PullSafety.v ===== *)
(** * What replication writes

    The updates a replication run hands to the reference database, for any context:
    [licensed] says what may be written, and [pull_licensed] that nothing else is.
    The context is arbitrary; what is assumed of it is that scanning for a prefix
    finds names with that prefix, and that the local peer does not track itself. *)
From stdpp Require Import base list gmap.
From Stdlib Require Import NArith Lia.
From Stdlib Require String.
Import String.StringSyntax.
From S2P Require Import Prelude Effects RefFormat RefName Scoped LinkRefs Refdb Transmit FetchState.
From S2P Require Import Steps Validation Pull.
Import Name.
#[local] Open Scope N_scope.

(** ** The names of verification references *)
Section Names.
Context {PN : PeerNames}.

Lemma from_refstring_some s c : from_refstring s = Some c -> c = s /\ slash ∉ s.
Proof.
  unfold from_refstring. destruct (contains s slash) eqn:Hc; cbn [negb]; [done|]. intros [= <-].
  split; [done|]. intros Hin. apply contains_spec in Hin. congruence.
Qed.

Lemma rad_qualified_components (x : Rad Identity) q :
  rad_qualified x = Done q -> exists c tail, components q = REFS :: RAD :: c :: tail.
Proof.
  destruct x as [| | |urn]; cbn [rad_qualified].
  1-3: intros [= <-]; eexists _, []; vm_compute; reflexivity.
  intros (s & Hu & (c & Hc & Hq)%out_bind_done)%out_bind_done.
  destruct (from_refstring s) as [c'|] eqn:Hs; [|done]. injection Hc as ->.
  apply from_refstring_some in Hs as [-> Hs].
  unfold from_urn, expect_ref in Hu. destruct (try_from_str (encode_id urn)) as [t|] eqn:Ht; [|done].
  apply try_from_str_spec in Ht as [-> Hr]. injection Hu as <-.
  unfold from_refs_rad_ids in Hq. rewrite from_iter_done in Hq by done.
  assert (q = join_on slash [REFS; RAD; IDS; encode_id urn]) as -> by (by injection Hq as <-).
  exists IDS, [encode_id urn]. apply components_join; [done|]. rewrite !Forall_cons.
  split_and!; [auto with rad..|split; [by left|done]|constructor].
Qed.

(** [n] is where the reference [x] of [rad] of peer [r] is tracked. *)
Definition rad_of (r : N) (x : Rad Identity) (n : list N) : Prop :=
  exists q cs, rad_qualified x = Done q /\ components q = REFS :: RAD :: cs /\ n = tracking_name r (RAD :: cs).

(** [n] is the [rad/id] in the namespace of [urn]. *)
Definition rad_id_of {X} `{Urn X} (urn : X) (n : list N) : Prop :=
  exists rid, REFS_RAD_ID = Done rid /\ namespaced_urn urn rid = Done n.

(** A [rad] reference of a remote is tracked under that remote's [rad]. *)
Lemma rad_tracking_name (r : FilteredRef) (x : Rad Identity) id n :
  inner (parsed r) = inl x -> remote (parsed r) = Some id -> fr_to_remote_tracking r = Done n ->
  rad_of id x n.
Proof.
  intros Hi Hr. unfold fr_to_remote_tracking, to_remote_tracking, to_owned. rewrite Hr, Hi. intros Hn. inv_res.
  match goal with H : rad_qualified x = Done ?q |- _ =>
    destruct (rad_qualified_components x q H) as (c & tail & Hc); exists q, (c :: tail) end.
  match goal with H : remote_tracking _ _ = Done ?o |- _ =>
    rewrite (remote_tracking_plain id _ RAD c tail Hc) in H by done; injection H as <- end.
  injection Hn as <-. done.
Qed.
End Names.

Section Licensed.
Context {PN : PeerNames} {HI : HashIter} {Er U V C : Type} `{OrdKey U} `{Urn U}.
Context `{Identities Er U V C, !VerifiedIdentity U V, Refdb Er C, RefScan Er C, Odb Er C, Net Er C,
  SignedRefs Er C, Tracking Er U C, LocalPeer C}.
Context (local from : N) (whoami : option LocalIdentity) (I : C -> Prop).

(** These are the signed references of peer [r]. *)
Definition loaded (r : N) (sr : Sigrefs) : Prop :=
  exists c : C, I c /\
    ((exists k, sig_load c r k = Ok (Some sr)) \/ (exists at_ k, sig_load_at c at_ r k = Ok (Some sr))).
(** Peer [r] has signed that its reference [name] is at [t]. *)
Definition signed_by (r : N) (name : list N) (t : N) : Prop :=
  exists sr, loaded r sr /\ refs sr !! name = Some t.

(** The remote has listed the reference [g]. *)
Definition listed (g : GitRef) : Prop :=
  exists (c c' : C) ls all, I c /\ run_ls_refs ls c = (EOk all : eff Er (list GitRef), c') /\ g ∈ all.
(** The remote has listed the reference [x] of [rad] of peer [r] with target [t]; a name that is not of a remote is of the remote itself. *)
Definition advertised (r : N) (x : Rad Identity) (t : N) : Prop :=
  exists g name p, listed g /\ into_unpacked g = (name, t) /\ parse name = Done (Ok p) /\
    inner p = inl x /\ default from (remote p) = r.
(** That, or the commit the signed references of [r] were loaded from. *)
Definition offered (r : N) (x : Rad Identity) (t : N) : Prop :=
  advertised r x t \/ (x = Scoped.SignedRefs /\ exists sr, loaded r sr /\ at_ sr = t).

(** The identity at [t] is verified to be [v]. *)
Definition verified_at (t : N) (v : V) : Prop :=
  exists (c : C) resolve, I c /\ id_verify (Er:=Er) c t resolve = Ok v.
(** A verified identity, or the newer of two. *)
Inductive known : V -> Prop :=
| known_verified t v : verified_at t v -> known v
| known_newer (c : C) a b v : known a -> known b -> id_newer (Er:=Er) c a b = Ok v -> known v.

Definition remote_prefix (r : N) : list N := join (str "refs/remotes") (default_encoding r).

(** What may be written.
    - Of the local peer: its [rad/id], to the content of a verified identity, and its
      [rad/self], to the identity it says it is, both only forwards; and [rad/ids], as a
      symbolic reference to the [rad/id] of that URN, with the verified identity as its
      target.
    - Of another peer, under [rad]: what the remote lists for it, or the commit of its
      signed references, only forwards; for its [rad/ids] symbolic references to the
      [rad/id] of that URN, with the target listed; for its [rad/self] also a symbolic
      reference to the [rad/id] of the URN of the identity listed, which is verified, at
      the target the storage has for it.
    - Of another peer, elsewhere: what this peer has signed, and removals. *)
Definition licensed (u : Update) : Prop :=
  match u with
  | Direct n t p =>
      (p = Reject /\ REFS_RAD_ID = Done n /\ exists v, known v /\ t = content_id v) \/
      (p = Reject /\ REFS_RAD_SELF = Done n /\ exists li, whoami = Some li /\ t = li_tip li) \/
      (p = Abort /\ exists r x, r <> local /\ rad_of r x n /\ offered r x t) \/
      (p = Allow /\ exists r name, r <> local /\ signed_by r name t /\
         signed_tracking r name = Done (Some n))
  | Symbolic n t p =>
      p = Allow /\
      ((exists (urn : U) tip v, rad_ids urn = Done n /\ rad_id_of urn (sym_name t) /\
         verified_at tip v /\ sym_target t = content_id v) \/
       (exists r urn, r <> local /\ rad_of r (Ids urn) n /\ rad_id_of urn (sym_name t) /\
         advertised r (Ids urn) (sym_target t)) \/
       (exists r tip v, r <> local /\ rad_of r Selv n /\ advertised r Selv tip /\ verified_at tip v /\
         rad_id_of (v_urn v) (sym_name t) /\
         exists c, I c /\ id_get (Er:=Er) (V:=V) c (v_urn v) = Ok (Some (sym_target t))))
  | Prune n prev =>
      exists r, r <> local /\ starts_with n (remote_prefix r) = true /\
        starts_with n (join (remote_prefix r) RAD) = false
  end.

(** ** The updates prepared by the steps *)

(** A reference that a step may have let through; one of peer [id]. *)
Definition heard (r : FilteredRef) : Prop :=
  forall id x, remote (parsed r) = Some id -> inner (parsed r) = inl x -> offered id x (tip r).
Definition from_peer (id : N) (r : FilteredRef) : Prop := remote (parsed r) = Some id /\ heard r.

Lemma offered_advertised id x t : offered id x t -> x <> Scoped.SignedRefs -> advertised id x t.
Proof using. intros [?|[-> _]]; done. Qed.

Lemma verification_update_licensed (r : FilteredRef) id u :
  from_peer id r -> id <> local -> as_verification_ref_update r = Done (Some u) -> licensed u.
Proof using.
  intros [Hr Ho] Hl. unfold as_verification_ref_update. intros Hu. inv_res.
  match goal with H : fr_to_remote_tracking r = Done ?n |- _ => rename H into Hn end.
  destruct (inner (parsed r)) as [rd|] eqn:Hi; [|done]. specialize (Ho id rd Hr Hi).
  pose proof (rad_tracking_name r rd id _ Hi Hr Hn) as Ht.
  destruct rd as [| | |urn]; simplify_eq/=.
  - right; right; left. eauto 6.
  - right; right; left. eauto 6.
  - inv_res. split; [done|]. right; left. exists id, urn. cbn [sym_name sym_target].
    split_and!; [done|done|by eexists|by apply offered_advertised].
Qed.

Lemma rad_self_licensed (cx : C) (v : V) (r : FilteredRef) id u :
  I cx -> inner (parsed r) = inl Selv -> from_peer id r -> id <> local -> verified_at (tip r) v ->
  rad_self cx v r = EOk u -> licensed u.
Proof using.
  intros Hc Hi [Hr Ho] Hl Hv. specialize (Ho _ _ Hr Hi). unfold rad_self. intros Hu. inv_eff.
  match goal with H : fr_to_remote_tracking r = Done ?n |- _ =>
    pose proof (rad_tracking_name r Selv id _ Hi Hr H) as Ht end.
  case_match; [|right; right; left; eauto 6]. split; [done|]. right; right. exists id, (tip r), v.
  split_and!; [done|done|by apply offered_advertised|done|by eexists|]. subst. eexists. by split.
Qed.

Lemma verification_update_ok (r : FilteredRef) id ups ups' :
  from_peer id r -> id <> local -> Forall licensed ups ->
  verification_update (Er:=Er) r ups = EOk ups' -> Forall licensed ups'.
Proof using.
  intros Hr Hl Hups. unfold verification_update. intros Hu. inv_eff. case_match; [|done].
  subst. apply Forall_app. split; [done|]. apply Forall_singleton.
  by eapply verification_update_licensed.
Qed.

Lemma remote_refs_licensed (cx : C) (s : FetchState U) id d rs : I cx -> id <> local ->
  Forall (from_peer id) rs -> forall ups rels ups' rels',
  Forall licensed ups -> remote_refs (V:=V) (Er:=Er) cx s id d ups rels rs = EOk (ups', rels') ->
  Forall licensed ups'.
Proof using.
  intros Hcx Hl Hrs. induction Hrs as [|r rs Hr Hrs IH]; intros ups rels ups' rels' Hups;
    cbn [remote_refs]; [by intros [= <- <-]|].
  destruct (inner (parsed r)) as [[| | |urn]|o] eqn:Hi.
  - case_match; [|by destruct d; [|intros [= <- <-]]].
    intros (ups1 & Hv & Hrest)%eff_bind_ok. eapply IH, Hrest. by eapply verification_update_ok.
  - case_match; [|destruct d; [done|by apply IH]].
    intros (u & Hv & Hrest)%eff_bind_ok. eapply IH, Hrest. apply Forall_app. split; [done|].
    apply Forall_singleton. eapply rad_self_licensed; try done. by eexists _, _.
  - intros (ups1 & Hv & Hrest)%eff_bind_ok. eapply IH, Hrest. by eapply verification_update_ok.
  - intros (ups1 & Hv & Hrest)%eff_bind_ok. eapply IH, Hrest. by eapply verification_update_ok.
  - by apply IH.
Qed.

Lemma group_refs_ok rs g :
  Forall heard rs -> group_refs local rs = Done g -> forall id l, g !! id = Some l ->
  id <> local /\ Forall (from_peer id) l.
Proof using.
  unfold group_refs. set (good := fun id l => id <> local /\ Forall (from_peer id) l).
  set (step := fun acc r => _).
  assert (forall (rs : list FilteredRef) (acc : gmap N (list FilteredRef)), Forall heard rs -> map_Forall good acc ->
    forall g, foldl step (Done acc) rs = Done g -> map_Forall good g) as Hg.
  2: { intros Hrs Hf. exact (Hg rs ∅ Hrs (map_Forall_empty _) g Hf). }
  clear. induction rs as [|r rs IH]; intros acc Hrs Hacc g; cbn [foldl]; [by intros [= <-]|].
  apply Forall_cons in Hrs as [Hh Hrs]. unfold step at 2. cbn [mbind outcome_bind].
  assert (forall rs, foldl step Panic rs = Panic) as Hp by (clear; by induction rs).
  unfold remote_id. destruct (remote (parsed r)) as [id|] eqn:Hr; cbn [unwrap mbind outcome_bind];
    [|by rewrite Hp].
  apply IH; [done|]. case_bool_decide; [|done]. apply map_Forall_insert_2; [|done]. split; [done|].
  apply Forall_app. split; [|by apply Forall_singleton].
  destruct (acc !! id) as [l|] eqn:Hl; [|constructor]. exact (proj2 (Hacc id l Hl)).
Qed.

Lemma verification_refs_licensed (s : FetchState U) (cx : C) rs d up :
  I cx -> Forall heard rs -> verification_refs (V:=V) (Er:=Er) local s cx rs d = EOk up -> Forall licensed (u_tips up).
Proof using.
  intros Hcx Hrs. unfold verification_refs. intros (g & Hg%of_out_ok & Hf)%eff_bind_ok.
  refine (eff_fold_ind _ (fun acc => Forall licensed (u_tips acc)) _ _ _ _ _ Hf); [|constructor].
  intros acc [id l] acc' Hin Hacc. rewrite elem_of_btree_iter in Hin.
  destruct (group_refs_ok _ _ Hrs Hg _ _ Hin) as [Hid Hl].
  intros (b & _ & Hx)%eff_bind_ok. apply eff_bind_ok in Hx as ([ups rels] & Hr & [= <-]).
  cbn [u_tips]. apply Forall_app. split; [done|].
  by eapply remote_refs_licensed with (ups := []); [..|constructor|].
Qed.

Lemma clone_prepare_licensed (self : ForClone) (s : FetchState U) (cx : C) rs up :
  cl_remote_id self <> local -> (forall r, r ∈ rs -> from_peer (cl_remote_id self) r) ->
  clone_prepare (V:=V) (Er:=Er) self s cx rs = EOk up -> Forall licensed (u_tips up).
Proof using.
  intros Hl Hrs. unfold clone_prepare. intros Hp. inv_eff. case_bool_decide; [|by injection Hp as <-].
  apply eff_bind_ok in Hp as (ups & Hu & [= <-]). cbn [u_tips]. apply eff_map_ok in Hu.
  clear H10. revert Hrs. induction Hu as [|r u rs us Hr _ IH]; intros Hrs; [constructor|].
  apply of_out_ok in Hr. assert (Forall licensed (omap (fun u => u) us)) as Hus
    by (apply IH; intros; apply Hrs; by right).
  destruct u as [u|]; [|done]. constructor; [|done].
  eapply verification_update_licensed; [|done..]. apply Hrs. by left.
Qed.

(** What the context promises of a scan. *)
Context (Hscan : forall (c : C) p items r, scan c (Some p) = Ok items -> Ok r ∈ items ->
  starts_with (ref_name r) p = true).

Lemma peer_tips_licensed id rs ups :
  id <> local -> (forall n t, refs_refs rs !! n = Some t -> signed_by id n t) ->
  peer_tips (Er:=Er) id rs = EOk ups -> Forall licensed ups.
Proof using.
  intros Hl Hs. unfold peer_tips. rewrite eff_map_ok.
  assert (forall n t, (n, t) ∈ hash_iter (refs_refs rs) -> signed_by id n t) as Hin.
  { intros n t Hin. rewrite hash_iter_perm in Hin. apply elem_of_map_to_list in Hin. by apply Hs. }
  intros Hf. revert Hin. induction Hf as [|[n t] u l us Hu _ IH]; intros Hin; [constructor|].
  constructor; [|apply IH; intros; apply Hin; by right]. inv_eff.
  match goal with H : unwrap ?o = Done ?x |- _ => destruct o as [x'|]; [|done]; injection H as -> end.
  right; right; right. split; [done|]. exists id, n. split_and!; [done| |done]. apply Hin. by left.
Qed.

Lemma prune_known_licensed id signed acc r :
  id <> local -> starts_with (ref_name r) (remote_prefix id) = true -> Forall licensed acc ->
  Forall licensed (prune_known (join (remote_prefix id) RAD) signed acc r).
Proof using.
  intros Hl Hr Hacc. unfold prune_known.
  destruct (starts_with (ref_name r) (join (remote_prefix id) RAD)) eqn:Hrad; [done|].
  case_bool_decide; [done|]. apply Forall_app. split; [done|]. apply Forall_singleton.
  by exists id.
Qed.

Lemma peer_prunes_licensed (cx : C) id signed ups :
  id <> local -> peer_prunes (Er:=Er) cx id signed = EOk ups -> Forall licensed ups.
Proof using Hscan.
  intros Hl. unfold peer_prunes. rewrite from_peer_id_done. cbn [of_out mbind eff_bind].
  fold (remote_prefix id). intros (items & Hi%of_res_with_ok & Hf)%eff_bind_ok.
  refine (eff_fold_ind _ (Forall licensed) _ _ _ _ _ Hf); [|constructor].
  intros acc [r|e] acc' Hin Hacc; [|done]. cbn [of_res_with map_err of_res mbind eff_bind].
  intros <-%EOk_inj. apply prune_known_licensed; [done| |done]. by eapply Hscan.
Qed.

(** Signed references that are really signed, and not by the local peer. *)
Definition flat_ok (f : Flattened) : Prop :=
  map_Forall (fun id rs => id <> local /\ forall n t, refs_refs rs !! n = Some t -> signed_by id n t) (f_refs f).

Lemma fetch_prepare_licensed (self : Fetch) (cx : C) up :
  flat_ok (fe_signed_refs self) -> fetch_prepare (U:=U) (Er:=Er) self cx = EOk up ->
  Forall licensed (u_tips up).
Proof using Hscan.
  intros Hok. unfold fetch_prepare. intros (ups & Hf & [= <-])%eff_bind_ok. cbn [u_tips].
  refine (eff_fold_ind _ (Forall licensed) _ _ _ _ _ Hf); [|constructor].
  intros acc [id rs] acc' Hin Hacc. rewrite elem_of_btree_iter in Hin.
  destruct (Hok id rs Hin) as [Hl Hs]. cbn [fst snd].
  intros (ts & Ht & (ps & Hp & [= <-])%eff_bind_ok)%eff_bind_ok.
  rewrite !Forall_app. split_and!; [done|by eapply peer_tips_licensed|by eapply peer_prunes_licensed].
Qed.

Lemma flattened_lookup (c : Combined) id :
  f_refs (flattened c) !! id = (fun s => MkRefs (at_ s) (refs s)) <$> c !! id.
Proof using.
  unfold flattened.
  assert (forall l f, NoDup l.*1 ->
    f_refs (foldl (fun f kv => MkFlattened (<[kv.1 := MkRefs (at_ kv.2) (refs kv.2)]> (f_refs f))
      (remotes kv.2 ∪ f_remotes f)) f l) !! id =
    match list_find (fun kv => kv.1 = id) l with
    | Some (_, kv) => Some (MkRefs (at_ kv.2) (refs kv.2))
    | None => f_refs f !! id
    end) as Hl.
  { induction l as [|[k s] l IH]; intros f Hnd; [done|]. cbn [foldl]. cbn [fmap list_fmap] in Hnd.
    apply NoDup_cons in Hnd as [Hk Hnd]. rewrite IH by done. cbn [list_find fst snd f_refs].
    destruct (decide (k = id)) as [->|Hne].
    - destruct (list_find (fun kv => kv.1 = id) l) as [[i kv]|] eqn:Hf.
      + apply list_find_Some in Hf as (Hi & <- & _). exfalso. apply Hk.
        apply list_elem_of_fmap. exists kv. split; [done|]. by eapply list_elem_of_lookup_2.
      + cbn. by rewrite lookup_insert_eq.
    - destruct (list_find (fun kv => kv.1 = id) l) as [[i kv]|]; cbn; [done|].
      by rewrite lookup_insert_ne. }
  rewrite Hl by (rewrite btree_iter_fst; apply btree_keys_nodup).
  destruct (list_find (fun kv => kv.1 = id) (btree_iter c)) as [[i [k s]]|] eqn:Hf.
  - apply list_find_Some in Hf as (Hi & Hk & _). simpl in Hk. subst.
    apply list_elem_of_lookup_2, elem_of_btree_iter in Hi. by rewrite Hi.
  - cbn [f_refs]. rewrite lookup_empty. destruct (c !! id) as [s|] eqn:Hc; [exfalso|done].
    apply list_find_None in Hf. rewrite Forall_forall in Hf. apply (Hf (id, s)); [|done].
    by apply elem_of_btree_iter.
Qed.

(** The combined signed references of peers other than the local one. *)
Definition combined_ok (c : Combined) : Prop :=
  map_Forall (fun id sr => id <> local /\ forall n t, refs sr !! n = Some t -> signed_by id n t) c.

Lemma combined_flat_ok c : combined_ok c -> flat_ok (flattened c).
Proof using.
  intros Hc id rs. rewrite flattened_lookup. intros (sr & Hs & ->)%fmap_Some. exact (Hc id sr Hs).
Qed.

Lemma combined_loaded (w : World (U:=U) (C:=C)) sel m :
  I (w_cx w) -> combined (shim w) sel = Ok m -> map_Forall (fun id sr => id ∈ must sel ∪ may sel /\ loaded id sr) m.
Proof using.
  intros Hw Hm. pose proof (combined_spec (shim w) sel) as Hs. rewrite Hm in Hs.
  destruct Hs as (_ & Hin & Hout). intros id sr Hid.
  destruct (decide (id ∈ must sel ∪ may sel)) as [Hi|Hi]; [|by rewrite Hout in Hid].
  split; [done|]. specialize (Hin id Hi). rewrite Hid in Hin.
  cbn [sig_load shim_signed_refs] in Hin. unfold shim_load in Hin. exists (w_cx w). split; [done|].
  case_bool_decide; [left; by eexists|].
  destruct (sigs (shim_fetch (shim w)) !! id) as [at_|]; [|done]. right. by eexists _, _.
Qed.
Lemma combined_licensed (w : World (U:=U) (C:=C)) sel m :
  I (w_cx w) -> local ∉ must sel ∪ may sel -> combined (shim w) sel = Ok m -> combined_ok m.
Proof using.
  intros Hw Hl Hm id sr [Hi Hsr]%(combined_loaded w sel m Hw Hm). split; [by intros ->|]. intros n t Ht. by exists sr.
Qed.

(** ** The run *)

Context (Hlocal : forall c, I c -> local_peer c = local).
Context (Htracked : forall c items p, I c -> tracking_tracked c = Ok items -> Ok (local, p) ∉ items).
Context (Hreload : keeps (E:=Er) I refdb_reload (fun _ => True)).
Context (Hls : forall ls, keeps (E:=Er) I (run_ls_refs ls) (fun _ => True)).
Context (Hfetch : forall limit ws hs, keeps (E:=Er) I (run_fetch limit ws hs) (fun _ => True)).
Context (Htrack : forall rels, keeps (E:=Er) I (tracking_track rels) (fun _ => True)).
Context (Hsig : keeps (E:=Er) I sig_update (fun _ => True)).
Context (Hupdate : forall ups, Forall licensed ups -> keeps (E:=Er) I (refdb_update ups) (fun _ => True)).

(** The context satisfies the invariant, and what is staged may be written. *)
Definition Inv (w : World (U:=U) (C:=C)) : Prop := I (w_cx w) /\ Forall licensed (tips (w_state w)).
Abbreviation ok m := (keeps (E:=RError Er) Inv m (fun _ => True)).

Lemma on_cx_keeps {A} (m : st C Er A) Q : keeps I m Q -> keeps (E:=RError Er) Inv (on_cx m) Q.
Proof using.
  intros Hm [s c] [Hc Hs]. unfold on_cx. cbn [w_cx w_state]. destruct (Hm c Hc) as [H' HQ].
  destruct (m c) as [r c']. split; [done|]. intros a Ha%eff_map_err_ok. by apply HQ.
Qed.

Lemma modify_keeps f :
  (forall s, Forall licensed (tips s) -> Forall licensed (tips (f s))) -> ok (modify (Er:=Er) f).
Proof using. intros Hf [s c] [Hc Hs]. split; [split; [done|by apply Hf]|done]. Qed.

Lemma update_all_tips ups (s : FetchState U) : tips (update_all ups s).2 = tips s ++ ups.
Proof using.
  unfold update_all. generalize applied_default as ap. revert s.
  induction ups as [|u ups IH]; intros s ap; cbn [foldl]; [by rewrite app_nil_r|].
  unfold update_one at 2. destruct (mem_update [u] (fs_refs s)) as [ap' m]. rewrite IH.
  cbn [tips]. by rewrite <- app_assoc.
Qed.

Lemma stage_keeps ups rels :
  Forall licensed ups ->
  ok (modify (Er:=Er) (fun s => (update_all ups (set_trks s (trks s ++ rels))).2)).
Proof using. intros Hu. apply modify_keeps. intros s Hs. rewrite update_all_tips. by apply Forall_app. Qed.

Lemma record_tips (rs : list FilteredRef) : forall (s s' : FetchState U),
  eff_fold (fun s r => of_out (record_tip s r)) s rs = EOk (E:=RError Er) s' -> tips s' = tips s.
Proof using.
  intros s s' Hs. refine (eff_fold_ind _ (fun s' => tips s' = tips s) _ _ _ _ _ Hs); [|done].
  intros a r a' _ <- Hr%of_out_ok. unfold record_tip in Hr.
  repeat (case_match; simplify_eq/=; try done); inv_res; done.
Qed.

(** What a step must promise: from references of the remote that pass its filter it
    prepares only updates that may be written. *)
Definition step_ok {S} {Hst : Step (Er:=Er) (U:=U) (C:=C) S} (step : S) : Prop :=
  forall s cx rs up, I cx -> (forall r, r ∈ rs -> exists g, listed g /\ ref_filter step g = Done (Some r)) ->
  prepare step s cx rs = EOk up -> Forall licensed (u_tips up).

Lemma ls_keeps ls : keeps (E:=Er) I (run_ls_refs ls) (Forall listed).
Proof using Hls.
  intros c Hc. split; [by apply Hls|]. destruct (run_ls_refs ls c) as [r c'] eqn:He. intros all Ha. cbn in Ha. subst.
  apply Forall_forall. intros g Hg. by exists c, c', ls, all.
Qed.

Lemma out_concat_in (f : GitRef -> outcome (option FilteredRef)) all r rs :
  out_concat (fun g => o ← f g; Done (option_list o)) all = Done rs -> r ∈ rs -> exists g, g ∈ all /\ f g = Done (Some r).
Proof using.
  revert rs. induction all as [|g all IH]; intros rs; cbn [out_concat]; [intros [= <-] ?%elem_of_nil; done|].
  intros (o & Ho & Hrest)%out_bind_done. apply out_bind_done in Hrest as (os & Hos & [= <-]).
  apply out_bind_done in Ho as (x & Hx & [= <-]).
  intros [Hr|Hr]%elem_of_app.
  - destruct x as [x|]; [|by apply elem_of_nil in Hr]. apply list_elem_of_singleton in Hr as ->. exists g. split; [by left|done].
  - destruct (IH os Hos Hr) as (g' & ? & ?). exists g'. split; [by right|done].
Qed.

Lemma list_refs_keeps {S} {Hst : Step (Er:=Er) (U:=U) (C:=C) S} (step : S) :
  keeps (E:=RError Er) Inv (list_refs step)
    (fun rs => forall r, r ∈ rs -> exists g, listed g /\ ref_filter step g = Done (Some r)).
Proof using Hls.
  unfold list_refs. eapply keeps_bind; [by apply keeps_lift with (Q := fun _ => True)|].
  intros [ls|] _; [|by apply keeps_ret; intros r ?%elem_of_nil].
  eapply keeps_bind; [apply on_cx_keeps, ls_keeps|]. intros all Hall. apply keeps_lift.
  intros rs Hrs%of_out_ok r Hr. destruct (out_concat_in _ _ _ _ Hrs Hr) as (g & Hg & Hf).
  exists g. split; [|done]. by eapply Forall_forall in Hall.
Qed.

Lemma run_step_keeps {S} {Hst : Step (Er:=Er) (U:=U) (C:=C) S} (step : S) : step_ok step -> ok (run_step step).
Proof using Hreload Hls Hfetch.
  intros Hok. unfold run_step. eapply keeps_bind; [by apply on_cx_keeps|]. intros _ _.
  eapply keeps_bind; [apply list_refs_keeps|]. intros rs Hrs.
  eapply keeps_bind; [by apply keeps_lift with (Q := fun _ => True)|]. intros _ _.
  eapply keeps_bind; [by apply keeps_reads with (Q := fun _ => True)|]. intros wh _.
  eapply keeps_bind; [destruct wh as [[ws hs]|]; [by apply on_cx_keeps|by apply keeps_ret with (Q := fun _ => True)]|].
  intros _ _.
  eapply keeps_bind; [apply keeps_reads with (Q := fun s => Forall licensed (tips s))|].
  { intros w s [_ Hw] Hs%record_tips. by rewrite Hs. }
  intros s Hs. eapply keeps_bind; [by apply modify_keeps|]. intros _ _.
  eapply keeps_bind; [apply keeps_reads with (Q := fun up => Forall licensed (u_tips up))|].
  { intros w up [Hw _] Hp%eff_map_err_ok. exact (Hok _ _ _ _ Hw Hrs Hp). }
  intros up Hup. by apply stage_keeps.
Qed.

(** What a filter makes of a listed reference with name [name] and target [t]. *)
Lemma filtered_heard g name t p id : listed g -> into_unpacked g = (name, t) -> parse name = Done (Ok p) ->
  default from (remote p) = id -> heard (filtered_new t id p).
Proof using.
  intros Hg Hn Hp Hid r x Hr Hx. left. exists g, name, p. split_and!; try done. cbn in Hr. by destruct (remote p); simplify_eq/=.
Qed.
Lemma parse_ok_some name p : parse_ok name = Done (Some p) -> parse name = Done (Ok p).
Proof using. unfold parse_ok. destruct (parse name) as [[q|e]|]; cbn; [by intros [= ->]|done..]. Qed.

Lemma for_fetch_step_ok (step : ForFetch) : ff_local_id step = local -> ff_remote_id step = from ->
  step_ok (Hst := for_fetch_step (V:=V)) step.
Proof using.
  intros Hl Hf s cx rs up Hcx Hrs. cbn [prepare for_fetch_step]. rewrite Hl. apply verification_refs_licensed; [done|].
  apply Forall_forall. intros r (g & Hg & Hr)%Hrs. cbn [ref_filter for_fetch_step] in Hr. unfold fetch_ref_filter in Hr.
  destruct (into_unpacked g) as [name t] eqn:Hn. apply out_bind_done in Hr as ([p|] & Hp & Hr); [apply parse_ok_some in Hp|done].
  destruct (match remote p with Some _ => _ | None => _ end) as [id|] eqn:Hid; [|done].
  assert (default from (remote p) = id) as Hd by (destruct (remote p); [case_bool_decide|]; by simplify_eq/=).
  injection Hr as Hr. assert (r = filtered_new t id p) as -> by (clear Hid Hd; repeat case_match; by simplify_eq). by eapply filtered_heard.
Qed.

Lemma transitive_step_ok (step : Transitive) : tr_local_id step = local -> map_Forall loaded (tr_signed_refs step) ->
  step_ok (Hst := transitive_step (V:=V)) step.
Proof using.
  intros Hl Hsr s cx rs up Hcx Hrs. cbn [prepare transitive_step]. rewrite Hl. apply verification_refs_licensed; [done|].
  apply Forall_forall. intros r (g & Hg & Hr)%Hrs. cbn [ref_filter transitive_step] in Hr. unfold trans_ref_filter in Hr.
  destruct (into_unpacked g) as [name t] eqn:Hn. apply out_bind_done in Hr as ([p|] & Hp & Hr); [apply parse_ok_some in Hp|done].
  injection Hr as Hr. destruct (remote p) as [id|] eqn:Hid; [|done]. destruct (inner p) as [x|] eqn:Hx; [|done].
  assert (heard (filtered_new t id p)) as Hh by (eapply filtered_heard; [done..|by rewrite Hid]).
  assert (forall sr, tr_signed_refs step !! id = Some sr -> x = Scoped.SignedRefs -> heard (filtered_new (at_ sr) id p)) as Hs.
  { intros sr Hi -> r' x' Hr' Hx'. right. cbn in Hr', Hx'. rewrite Hid in Hr'. simplify_eq/=. split; [congruence|].
    exists sr. split; [by apply Hsr|done]. }
  repeat (case_match; simplify_eq/=); eauto.
Qed.

Lemma fetch_step_ok (step : Fetch) : flat_ok (fe_signed_refs step) -> step_ok step.
Proof using Hscan. intros Hf s cx rs up _ _. cbn [prepare fetch_step]. by apply fetch_prepare_licensed. Qed.

Lemma clone_step_ok (step : ForClone) : cl_remote_id step = from -> from <> local ->
  step_ok (Hst := clone_step (V:=V)) step.
Proof using.
  intros Hf Hl s cx rs up _ Hrs. cbn [prepare clone_step]. apply clone_prepare_licensed; [congruence|].
  intros r (g & Hg & Hr)%Hrs. cbn [ref_filter clone_step] in Hr. unfold clone_ref_filter in Hr.
  destruct (into_unpacked g) as [name t] eqn:Hn. apply out_bind_done in Hr as ([p|] & Hp & Hr); [apply parse_ok_some in Hp|done].
  injection Hr as Hr. destruct (remote p) as [id|] eqn:Hid; [done|]. destruct (inner p) as [x|] eqn:Hx; [|done].
  injection Hr as <-. split; [cbn; by rewrite Hid|]. eapply filtered_heard; [done..|]. by rewrite Hid.
Qed.

(** ** The identities of a run *)

Lemma verify_at_known (w : World (U:=U) (C:=C)) tip resolve v :
  I (w_cx w) -> verify_at (Er:=Er) (shim w) tip resolve = EOk (Some v) -> known v.
Proof using.
  intros Hw. destruct tip as [tip|]; cbn [verify_at]; [|done]. unfold fmap, eff_fmap.
  destruct (of_res_with External _) as [v'| |] eqn:Hv; cbn; [|done..]. intros [= <-].
  apply of_res_with_ok in Hv. apply (known_verified tip). by exists (w_cx w), resolve.
Qed.

Lemma newest_known (w : World (U:=U) (C:=C)) ids id v :
  I (w_cx w) -> newest (Er:=Er) (V:=V) (shim w) ids = EOk (Some (id, v)) -> known v.
Proof using.
  intros Hw Hn. refine (eff_fold_ind (newest_one (shim w)) (fun best => forall i x, best = Some (i, x) -> known x)
    _ _ _ _ _ Hn id v eq_refl); [|done].
  clear Hn. intros best p best' _ Hb. unfold newest_one. intros (o & Ho & (a & Ha & Hx)%eff_bind_ok)%eff_bind_ok.
  assert (known a) as Hk.
  { destruct o as [a'|]; [injection Ha as ->|done]. case_bool_decide.
    - unfold current in Ho. inv_eff. by eapply verify_at_known.
    - unfold identity_of in Ho. inv_eff. by eapply verify_at_known. }
  destruct best as [[ib b]|]; [|injection Hx as <-; by intros ? ? [= <- <-]].
  apply eff_bind_ok in Hx as (n & Hn%of_res_with_ok & [= <-]). intros i x Hi.
  assert (x = n) as -> by (by case_bool_decide; simplify_eq). eapply (known_newer (w_cx w)); [exact Hk|by eapply Hb|exact Hn].
Qed.

Lemma current_known (c : C) v : I c -> current (Er:=Er) (V:=V) c = EOk (Some v) -> known v.
Proof using.
  intros Hc. unfold current. intros Ho. inv_eff. destruct x0 as [tip|]; cbn [verify_at] in Ho; [|done].
  unfold fmap, eff_fmap in Ho. destruct (of_res_with External _) as [v'| |] eqn:Hv; cbn in Ho; [|done..]. injection Ho as <-.
  apply of_res_with_ok in Hv. apply (known_verified tip). by eexists c, _.
Qed.

Lemma setup_licensed (w : World (U:=U) (C:=C)) r (v : V) su :
  I (w_cx w) -> known v -> setup (shim w) r v whoami = EOk (E:=RError Er) su -> Forall licensed (rad_up su).
Proof using.
  intros Hw Hv.
  unfold setup. intros (acc & Hf & (self & Hs%of_out_ok & (rid & Hr%of_out_ok & <-%EOk_inj)%eff_bind_ok)%eff_bind_ok)%eff_bind_ok.
  cbn [rad_up]. rewrite !Forall_app. split_and!.
  - refine (eff_fold_ind _ (fun acc => Forall licensed (rad_up acc)) _ _ _ _ _ Hf); [|constructor].
    intros a urn a' _ Ha Hu. unfold setup_urn in Hu. inv_eff. apply Forall_app. split; [done|].
    apply Forall_singleton. split; [done|]. left. eexists urn, _, _. split_and!; [done|by eexists| |reflexivity].
    by exists (w_cx w), (fun _ => None).
  - destruct whoami as [li|] eqn:Hwho; [|constructor]. apply Forall_singleton. right. left. eauto.
  - apply Forall_singleton. left. eauto.
Qed.

Lemma setup_rad_keeps (anchor : V) others : known anchor -> ok (setup_rad anchor others whoami).
Proof using.
  intros Ha. unfold setup_rad.
  eapply keeps_bind; [apply keeps_reads with (Q := fun o => forall i v, o = Some (i, v) -> known v)|].
  { intros w o [Hw _] Ho i v ->. by eapply newest_known. }
  intros [[their_id theirs]|] Ht; [|by apply keeps_ret]. specialize (Ht _ _ eq_refl).
  eapply keeps_bind; [apply keeps_reads with (Q := fun o => forall n, o = Some n -> known (match n with inl v | inr v => v end))|].
  { intros w o [Hw _] Ho%of_res_with_ok n ->. unfold rad_newer in Ho. case_match; [|by simplify_eq].
    apply res_bind_ok in Ho as (n' & Hn & Ho). case_bool_decide; simplify_eq. exact (known_newer (w_cx w) _ _ _ Ha Ht Hn). }
  intros [n|] Hn; [|by apply keeps_ret]. specialize (Hn _ eq_refl).
  eapply keeps_bind; [apply keeps_reads with (Q := fun su => Forall licensed (rad_up su))|].
  { intros w su [Hw _]. destruct n; by apply setup_licensed. }
  intros su Hsu. eapply keeps_bind; [by apply stage_keeps|]. intros _ _. by apply keeps_ret.
Qed.

Lemma apply_trackings_keeps : ok (apply_trackings (Er:=Er)).
Proof using Htrack.
  unfold apply_trackings. eapply keeps_bind; [apply keeps_get|]. intros w _.
  eapply keeps_bind; [by apply modify_keeps|]. intros _ _. by apply on_cx_keeps.
Qed.

Lemma apply_id_tips_keeps : ok (apply_id_tips (Er:=Er)).
Proof using Hupdate.
  unfold apply_id_tips. eapply keeps_bind; [apply keeps_get|]. intros w [_ Hw].
  destruct (drain_spec (length (tips (w_state w))) 0 [] (tips (w_state w))) as (ts & rest & -> & Hp & _);
    [lia|constructor|].
  rewrite Hp in Hw. apply Forall_app in Hw as [Hts Hrest]. rewrite app_nil_l.
  eapply keeps_bind; [by apply modify_keeps|]. intros _ _. by apply on_cx_keeps, Hupdate.
Qed.

Lemma apply_updates_keeps : ok (apply_updates (Er:=Er)).
Proof using Hupdate.
  unfold apply_updates. eapply keeps_bind; [apply keeps_get|]. intros w [_ Hw].
  eapply keeps_bind; [apply modify_keeps; constructor|]. intros _ _. by apply on_cx_keeps, Hupdate.
Qed.

Lemma pull_transitive_keeps remote limit trans signed :
  trans !! local = None -> ok (pull_transitive (V:=V) local remote limit trans signed).
Proof using Hreload Hls Hfetch.
  intros Ht. unfold pull_transitive. eapply keeps_bind; [apply keeps_get|]. intros w [Hw _].
  case_bool_decide; [by apply keeps_ret|].
  eapply keeps_bind; [apply keeps_lift with (Q := map_Forall loaded)|].
  { intros m Hm%of_res_with_ok id sr Hi. by apply (combined_loaded w _ m Hw Hm id sr Hi). }
  intros sr Hsr. eapply keeps_bind; [by apply run_step_keeps, transitive_step_ok|]. intros _ _. by apply keeps_ret.
Qed.

Lemma eval_pull_keeps limit (anchor : V) : known anchor -> ok (eval_pull limit anchor from whoami).
Proof using Hscan Hlocal Htracked Hreload Hls Hfetch Htrack Hsig Hupdate.
  intros Hanchor. unfold eval_pull. eapply keeps_bind; [apply keeps_get|]. intros w [Hw _]. rewrite (Hlocal _ Hw).
  eapply keeps_bind; [apply keeps_lift; intros items Hi; exact Hi|].
  intros items Hitems%of_res_with_ok.
  eapply keeps_bind; [apply keeps_lift; intros tracked Ht; exact Ht|]. intros tracked Hts%of_res_with_ok.
  eapply keeps_bind; [by apply run_step_keeps, for_fetch_step_ok|]. intros _ _.
  eapply keeps_bind; [apply keeps_get|]. intros w2 [Hw2 _].
  eapply keeps_bind; [apply keeps_lift with (Q := combined_ok)|].
  { intros m Hm%of_res_with_ok. eapply combined_licensed; [exact Hw2| |exact Hm]. cbn [must may].
    rewrite elem_of_union, !elem_of_filter, elem_of_dom. intros [[? _]|[Hd [spec Hs]]]; [done|].
    destruct (tracked_specs_spec _ _ _ Hts _ _ Hs) as [[? _]|[_ (p & Hp & _)]]; [done|].
    exact (Htracked _ _ _ Hw Hitems Hp). }
  intros signed Hsigned.
  eapply keeps_bind; [by apply setup_rad_keeps|]. intros confirm _.
  eapply keeps_bind; [apply apply_trackings_keeps|]. intros newly _.
  eapply keeps_bind; [apply apply_id_tips_keeps|]. intros ap1 _.
  eapply keeps_bind; [by apply modify_keeps|]. intros _ _.
  eapply keeps_bind; [by apply run_step_keeps, fetch_step_ok, combined_flat_ok|]. intros _ _.
  eapply keeps_bind; [apply pull_transitive_keeps|].
  { unfold transitive_policies. rewrite transitive_flat, excluded_lookup; [apply lookup_empty|by left]. }
  intros signed' _. eapply keeps_bind; [apply apply_updates_keeps|]. intros ap2 _.
  eapply keeps_bind; [by apply on_cx_keeps|]. intros _ _.
  eapply keeps_bind; [unfold validate_signed; eapply keeps_bind; [apply keeps_get|intros; by apply keeps_lift with (Q := fun _ => True)]|].
  intros ws1 _.
  eapply keeps_bind; [unfold validate_remotes; eapply keeps_bind; [apply keeps_get|intros; by apply keeps_lift with (Q := fun _ => True)]|].
  intros ws2 _. by apply keeps_ret.
Qed.

Lemma run_default {A} (m : st World (RError Er) A) c :
  I c -> ok m -> I (let '(r, w) := m (MkWorld fs_default c) in (r, w_cx w)).2.
Proof using.
  intros Hc Hm. destruct (Hm (MkWorld fs_default c)) as [[Hi _] _]; [split; [done|constructor]|].
  by destruct (m _).
Qed.

End Licensed.

(** ** Names that may be written *)
Section Scope.
Context {PN : PeerNames}.

Lemma remote_tracking_shape depth : forall fuel r n m,
  remote_tracking_rec depth fuel r n = Done (Some m) -> exists cs, m = tracking_name r cs.
Proof.
  induction depth as [|depth IH]; intros fuel r n m; cbn [remote_tracking_rec]; [done|].
  unfold remote_tracking_with. intros ([[[a b] c] tail] & _ & Hm)%out_bind_done.
  case_bool_decide.
  { destruct tail as [|cat [|fst tail]]; [done..|]. rewrite under_remote_done in Hm. injection Hm as <-. eauto. }
  case_bool_decide; [|rewrite under_remote_done in Hm; injection Hm as <-; eauto].
  apply out_bind_done in Hm as (ns & _ & Hm). destruct (strip_namespace_recursive fuel ns); [|done].
  apply out_bind_done in Hm as (q & _ & Hm). by apply IH in Hm.
Qed.

Lemma starts_with_app p s : starts_with (p ++ s) p = true.
Proof. unfold starts_with. apply bool_decide_eq_true, take_app_length. Qed.

Lemma tracking_prefix r cs : starts_with (tracking_name r cs) (remote_prefix r) = true.
Proof.
  assert (exists s, tracking_name r cs = remote_prefix r ++ s) as [s ->]; [|apply starts_with_app].
  unfold tracking_name. destruct cs as [|c cs]; [exists []; by rewrite app_nil_r|].
  eexists (slash :: join_on slash (c :: cs)). unfold remote_prefix, join, push.
  cbn [join_on]. cbn. rewrite <- ?app_assoc. reflexivity.
Qed.

Context {Er U V C : Type} `{Countable U} `{Urn U}.
Context `{Identities Er U V C, !VerifiedIdentity U V, Net Er C, SignedRefs Er C}.

Lemma rad_of_prefix r x n : rad_of r x n -> starts_with n (remote_prefix r) = true.
Proof. intros (q & cs & _ & _ & ->). apply tracking_prefix. Qed.

(** The local peer's [rad/] references and references of other peers: the local peer's
    branches are out of reach. *)
Lemma licensed_scope local from whoami (I : C -> Prop) u : licensed (Er:=Er) (U:=U) (V:=V) local from whoami I u ->
  starts_with (refname u) (str "refs/rad/") = true \/
  exists r, r <> local /\ starts_with (refname u) (remote_prefix r) = true.
Proof.
  assert (forall n, REFS_RAD_ID = Done n \/ REFS_RAD_SELF = Done n -> starts_with n (str "refs/rad/") = true) as Hown.
  { intros n [Hn|Hn]; vm_compute in Hn; injection Hn as <-; vm_compute; reflexivity. }
  destruct u as [n t p|n t p|n prev]; cbn [licensed refname].
  - intros [(_ & Hn & _)|[(_ & Hn & _)|[(_ & r & x & Hr & Hn & _)|(_ & r & name & Hr & _ & Hn)]]]; [by left; auto..| |].
    + right. exists r. split; [done|]. by eapply rad_of_prefix.
    + right. exists r. split; [done|]. unfold signed_tracking in Hn.
      destruct (from_refstr name); [|done]. apply remote_tracking_shape in Hn as [cs ->]. apply tracking_prefix.
  - intros [_ [(urn & tip & v & Hn & _)|[(r & urn & Hr & Hn & _)|(r & tip & v & Hr & Hn & _)]]].
    + left. unfold rad_ids, from_refs_rad_ids in Hn. inv_res.
      match goal with H : from_iter _ = Done _ |- _ => rewrite from_iter_done in H by done end. simplify_eq.
      apply (starts_with_app (str "refs/rad/") (IDS ++ slash :: _)).
    + right. exists r. split; [done|]. by eapply rad_of_prefix.
    + right. exists r. split; [done|]. by eapply rad_of_prefix.
  - intros (r & Hr & Hp & _). right. eauto.
Qed.
End Scope.

(** ** A run on the sample context *)
Import Sample.

(** The invariant: whose storage it is, and where its own branch is. *)
Definition untouched (s : Store) : Prop := s_local s = 0 /\ s_refs s !! mine = Some 7.

Lemma untouched_update ups s :
  Forall (licensed (Er:=unit) (U:=N) (V:=N) 0 1 None untouched) ups -> untouched s ->
  untouched (with_refs s (foldl put_ref (s_refs s) ups)).
Proof.
  intros Hups [Hl Hm]. split; [done|]. cbn [s_refs with_refs]. revert Hm. generalize (s_refs s) as m.
  induction Hups as [|u ups Hu _ IH]; intros m Hm; [done|]. cbn [foldl]. apply IH.
  assert (refname u <> mine) as Hne.
  { intros Heq. apply licensed_scope in Hu. rewrite Heq in Hu. destruct Hu as [Hu|(r & _ & Hu)].
    - vm_compute in Hu. discriminate.
    - unfold starts_with in Hu. apply bool_decide_eq_true, (f_equal (fun l => take 6 l)) in Hu.
      rewrite take_take in Hu. unfold remote_prefix, join, push in Hu. cbn in Hu. discriminate. }
  destruct u; cbn [put_ref refname] in *; rewrite ?lookup_insert_ne, ?lookup_delete_ne by done; done.
Qed.


(** ** A name that is not an identifier *)
Section Panics.
Context {PN : PeerNames} {HI : HashIter} {Er U V C : Type} `{OrdKey U} `{Urn U}.
Context `{Identities Er U V C, !VerifiedIdentity U V, Refdb Er C, RefScan Er C, Odb Er C, Net Er C,
  SignedRefs Er C, Tracking Er U C, LocalPeer C}.

Lemma out_concat_panic {A B} (f : A -> outcome (list B)) x l :
  x ∈ l -> f x = Panic -> out_concat f l = Panic.
Proof using.
  intros Hx Hf. induction Hx as [x l|x y l Hx IH]; cbn [out_concat]; [by rewrite Hf|].
  destruct (f y); [|done]. cbn. by rewrite IH.
Qed.

Lemma out_concat_elem {A B} (f : A -> outcome (list B)) x l y ys :
  x ∈ l -> f x = Done [y] -> out_concat f l = Done ys -> y ∈ ys.
Proof using.
  intros Hx Hf. revert ys. induction Hx as [x l|x z l Hx IH]; cbn [out_concat]; intros ys.
  - rewrite Hf. cbn. intros (r & _ & [= <-])%out_bind_done. by left.
  - intros (r & _ & (r' & Hr & [= <-])%out_bind_done)%out_bind_done. apply elem_of_app. right. by apply IH.
Qed.

(** [refs/rad/ids/@]: a valid reference name whose last component alone is not one. *)
Definition at_ids : list N := str "refs/rad/ids/@".

Lemma at_ids_filtered (self : ForClone) t :
  clone_ref_filter self (RefDirect at_ids t) =
  Done (Some (MkFilteredRef t (MkParsed (Some (cl_remote_id self)) (inl (Ids (str "@")))))).
Proof using. vm_compute. reflexivity. Qed.

Lemma at_ids_scoped remote id t rs :
  MkFilteredRef t (MkParsed (Some id) (inl (Ids (str "@")))) ∈ rs -> scoped_refs remote rs = Panic.
Proof using. intros Hin. unfold scoped_refs. eapply out_concat_panic; [exact Hin|]. vm_compute. reflexivity. Qed.

Lemma st_bind_panic {W E A B} (m : st W E A) (f : A -> st W E B) w :
  (m w).1 = EPanic -> ((m ≫= f) w).1 = EPanic.
Proof using. unfold mbind, st_bind. by destruct (m w) as [[| |] ?]. Qed.

Lemma drop_state {E A} (r : eff E A * World (U:=U) (C:=C)) :
  r.1 = EPanic -> (let '(r, w) := r in (r, w_cx w)).1 = EPanic.
Proof using. by destruct r. Qed.

Lemma run_step_panics {S} {Hst : Step (Er:=Er) (U:=U) (C:=C) S} (step : S) w c1 c2 all g fr :
  refdb_reload (w_cx w) = (EOk tt : eff Er unit, c1) ->
  (forall ls, run_ls_refs ls c1 = (EOk all : eff Er (list GitRef), c2)) ->
  ls_refs step <> Done None -> g ∈ all -> ref_filter step g = Done (Some fr) ->
  (forall rs, fr ∈ rs -> pre_validate step rs = EPanic) ->
  (run_step step w).1 = EPanic.
Proof using.
  intros Hr Hls Hne Hg Hf Hp. unfold run_step. unfold mbind at 1, st_bind at 1. unfold on_cx at 1. rewrite Hr.
  cbn [eff_map_err]. unfold mbind at 1, st_bind at 1. unfold list_refs, mbind at 1, st_bind at 1, lift at 1.
  destruct (ls_refs step) as [[ls|]|]; cbn [of_out]; [|done..].
  unfold mbind at 1, st_bind at 1, on_cx at 1. cbn [w_cx]. rewrite Hls. cbn [eff_map_err]. unfold lift at 1.
  destruct (out_concat _ all) as [rs|] eqn:Hrs; cbn [of_out]; [|done].
  apply st_bind_panic. unfold lift. rewrite Hp; [done|].
  eapply out_concat_elem; [exact Hg| |exact Hrs]. cbn beta. by rewrite Hf.
Qed.

(** [clone_panics]: a remote that advertises [refs/rad/ids/@] passes the filter of a clone
    and ends the cloning process: the name is accepted, but its last component, taken for
    the identifier of an identity, is not a reference name by itself, and converting it
    back panics. *)
Theorem clone_panics (limit : FetchLimit) (remote : N) (whoami : option LocalIdentity) (c c1 c2 : C)
    (all : list GitRef) (t : N)
    (Hne : local_peer c <> remote)
    (Hreload : refdb_reload c = (EOk tt : eff Er unit, c1))
    (Hls : forall ls, run_ls_refs ls c1 = (EOk all : eff Er (list GitRef), c2))
    (Hin : RefDirect at_ids t ∈ all) :
  (clone (Er:=Er) (U:=U) (V:=V) limit remote whoami c).1 = EPanic.
Proof using.
  unfold clone. rewrite bool_decide_eq_false_2 by done.
  apply drop_state, st_bind_panic.
  eapply run_step_panics; [exact Hreload|exact Hls| |exact Hin|apply at_ids_filtered|].
  - cbn [ls_refs clone_step]. unfold ref_prefixes.
    destruct (scoped_of _ _ REFS_RAD_ID); [|done]. destruct (scoped_of _ _ REFS_RAD_SELF); [|done].
    destruct (scoped_of _ _ REFS_RAD_SIGNED_REFS); [|done]. by destruct (from_prefix _ _).
  - intros rs Hrs. cbn [pre_validate clone_step]. unfold pre_validate_required.
    rewrite (at_ids_scoped _ _ _ _ Hrs). by destruct (required_refs _ _).
Qed.
End Panics.

Lemma clone_panics_witness :
  (clone (Er:=unit) (U:=N) (V:=N) fetch_limit_default 1 None
    (MkStore 0 ∅ ∅ [RefDirect (str "refs/rad/id") 6; RefDirect at_ids 6] ∅)).1 = EPanic.
Proof.
  eapply (clone_panics (Er:=unit) (U:=N) (V:=N) fetch_limit_default 1 None _ _ _
    [RefDirect (str "refs/rad/id") 6; RefDirect at_ids 6] 6); [done|reflexivity|intros; reflexivity|].
  right. by left.
Defined.
