(* ===== verification/Identity.v ===== *)
(** * Identities and their verification

    [link-identities/src/generic.rs], [generic/error.rs], [delegation.rs] (the
    trait) and the map of signatures of [sign.rs].  The verification status is a
    phantom type parameter, as in the code.  What a delegation scheme promises to
    the verification is the class [DelegationsLaws]; [Delegation.v] discharges it
    for the two schemes of the program.  Verifying one signature over a revision is
    a parameter. *)
From stdpp Require Import base list gmap fin_sets.
From Stdlib Require Import NArith Lia.
From S2P Require Import Prelude.

(** A public key, as the number its bytes spell. *)
Abbreviation PublicKey := N (only parsing).

(** ** The trait [Delegations] *)

Class Delegations (D E : Type) := {
  eligible : D -> gset PublicKey -> result E (gset PublicKey);
  quorum_threshold : D -> nat;
}.

(** What a delegation scheme owes its clients: it has a finite set of delegates
    (keys, or identities by position), every eligible key speaks for one of them,
    no two eligible keys speak for the same one, and the threshold is at least half
    their number. *)
Class DelegationsLaws (D E : Type) `{Delegations D E} := {
  well_formed : D -> Prop;
  delegates : D -> gset (PublicKey + nat);
  delegate_of : D -> PublicKey -> PublicKey + nat;
  eligible_votes d votes e : eligible d votes = Ok e -> e ⊆ votes;
  eligible_delegates d votes e k :
    well_formed d -> eligible d votes = Ok e -> k ∈ e -> delegate_of d k ∈ delegates d;
  eligible_distinct d votes e k k' :
    well_formed d -> eligible d votes = Ok e -> k ∈ e -> k' ∈ e ->
    delegate_of d k = delegate_of d k' -> k = k';
  threshold_half d : well_formed d -> (size (delegates d) <= 2 * quorum_threshold d + 1)%nat;
}.

(** The image of a finite set under a function injective on it. *)
Lemma size_map_inj `{Countable A, Countable B} (f : A -> B) (X : gset A) :
  (forall x y, x ∈ X -> y ∈ X -> f x = f y -> x = y) ->
  size (set_map f X : gset B) = size X.
Proof.
  intros Hf. unfold set_map. rewrite size_list_to_set; [by rewrite length_fmap|].
  assert (forall l, NoDup l -> (forall x, x ∈ l -> x ∈ X) -> NoDup (f <$> l)) as Hl.
  { induction 1 as [|x l Hx Hl IH]; intros Hin; [constructor|]. rewrite fmap_cons.
    constructor; [|apply IH; intros; apply Hin; by right].
    intros (y & Hy & Hyl)%list_elem_of_fmap.
    apply Hf in Hy; [by subst|apply Hin; left|apply Hin; by right]. }
  apply Hl; [apply NoDup_elements|]. intros x. apply elem_of_elements.
Qed.

(** ** Documents and identities *)

Record Doc (T D R : Type) : Type := MkDoc {
  version : N;
  replaces_field : option R;
  payload : T;
  delegations : D;
}.
Arguments MkDoc {T D R} _ _ _ _.
Arguments version {T D R} _.
Arguments replaces_field {T D R} _.
Arguments payload {T D R} _.
Arguments delegations {T D R} _.

Definition bimap {T D R U E} (f : T -> U) (g : D -> E) (d : Doc T D R) : Doc U E R :=
  MkDoc (version d) (replaces_field d) (f (payload d)) (g (delegations d)).

Definition first {T D R U} (f : T -> U) (d : Doc T D R) : Doc U D R := bimap f (fun x => x) d.

Definition second {T D R E} (g : D -> E) (d : Doc T D R) : Doc T E R := bimap (fun x => x) g d.

Definition try_first {T D R U Err} (f : T -> result Err U) (d : Doc T D R) :
    result Err (Doc U D R) :=
  let doc := first f d in
  p ← payload doc; Ok (MkDoc (version doc) (replaces_field doc) p (delegations doc)).

Definition try_second {T D R E Err} (g : D -> result Err E) (d : Doc T D R) :
    result Err (Doc T E R) :=
  let doc := second g d in
  p ← delegations doc; Ok (MkDoc (version doc) (replaces_field doc) (payload doc) p).

(** [Signatures]: one signature per key. *)
Abbreviation Signatures Sig := (gmap PublicKey Sig) (only parsing).

(** [Extend]: insert one after the other. *)
Definition sigs_extend {Sig} (sigs : gmap PublicKey Sig) (more : list (PublicKey * Sig)) :
    gmap PublicKey Sig :=
  foldl (fun m kv => <[kv.1 := kv.2]> m) sigs more.

Record Identity (T R C Sig : Type) : Type := MkIdentity {
  content_id : C;
  root : R;
  revision : R;
  doc : T;
  signatures : gmap PublicKey Sig;
}.
Arguments MkIdentity {T R C Sig} _ _ _ _ _.
Arguments content_id {T R C Sig} _.
Arguments root {T R C Sig} _.
Arguments revision {T R C Sig} _.
Arguments doc {T R C Sig} _.
Arguments signatures {T R C Sig} _.

Definition identity_map {T U R C Sig} (f : T -> U) (i : Identity T R C Sig) : Identity U R C Sig :=
  MkIdentity (content_id i) (root i) (revision i) (f (doc i)) (signatures i).

Definition transpose {T R C Sig Err} (i : Identity (result Err T) R C Sig) :
    result Err (Identity T R C Sig) :=
  d ← doc i; Ok (MkIdentity (content_id i) (root i) (revision i) d (signatures i)).

(** The trait [Replaces]. *)
Class Replaces (T R : Type) := replaces : T -> option R.

#[export] Instance doc_replaces {T D R} : Replaces (Doc T D R) R := replaces_field.

(** Forwarding the delegations of a document. *)
#[export] Instance doc_delegations {T D R E} `{Delegations D E} : Delegations (Doc T D R) E := {|
  eligible d votes := eligible (delegations d) votes;
  quorum_threshold d := quorum_threshold (delegations d);
|}.

#[export] Program Instance doc_laws {T D R E} `{DelegationsLaws D E} :
    DelegationsLaws (Doc T D R) E := {|
  well_formed d := well_formed (delegations d);
  delegates d := delegates (delegations d);
  delegate_of d k := delegate_of (delegations d) k;
|}.
Next Obligation. intros T D R E HD HL d. apply (eligible_votes (D := D)). Qed.
Next Obligation. intros T D R E HD HL d. apply (eligible_delegates (D := D)). Qed.
Next Obligation. intros T D R E HD HL d. apply (eligible_distinct (D := D)). Qed.
Next Obligation. intros T D R E HD HL d. apply (threshold_half (D := D)). Qed.

(** Two quorums of the same delegations share a delegate. *)
Lemma quorums_meet {D E} `{DelegationsLaws D E} d v1 v2 e1 e2 :
  well_formed d -> eligible d v1 = Ok e1 -> eligible d v2 = Ok e2 ->
  (quorum_threshold d < size e1)%nat -> (quorum_threshold d < size e2)%nat ->
  exists k1 k2, k1 ∈ v1 /\ k2 ∈ v2 /\ delegate_of d k1 = delegate_of d k2 /\
    delegate_of d k1 ∈ delegates d.
Proof.
  intros Hwf He1 He2 H1 H2.
  set (m1 := set_map (delegate_of d) e1 : gset (N + nat)).
  set (m2 := set_map (delegate_of d) e2 : gset (N + nat)).
  assert (size m1 = size e1) as Hs1.
  { apply size_map_inj. intros x y Hx Hy. by apply (eligible_distinct d v1 e1). }
  assert (size m2 = size e2) as Hs2.
  { apply size_map_inj. intros x y Hx Hy. by apply (eligible_distinct d v2 e2). }
  destruct (set_choose_or_empty (m1 ∩ m2)) as [[x Hx]|Hdisj].
  - apply elem_of_intersection in Hx as [(k1 & -> & Hk1)%elem_of_map (k2 & Heq & Hk2)%elem_of_map].
    exists k1, k2. split_and!; [by apply (eligible_votes d v1 e1)|by apply (eligible_votes d v2 e2)|done|].
    by apply (eligible_delegates d v1 e1).
  - exfalso. assert (m1 ∪ m2 ⊆ delegates d) as Hsub.
    { intros x [(k & -> & Hk)%elem_of_map|(k & -> & Hk)%elem_of_map]%elem_of_union;
        [by apply (eligible_delegates d v1 e1)|by apply (eligible_delegates d v2 e2)]. }
    apply subseteq_size in Hsub. rewrite size_union in Hsub by set_solver.
    pose proof (threshold_half d Hwf). lia.
Qed.

(** ** Verification *)

Inductive State := Untrusted | Signed | Quorum | Verified.

Record Verifying (I : Type) (S : State) : Type := MkVerifying { inner : I }.
Arguments MkVerifying {I} S inner.
Arguments inner {I S} _.

Definition from_untrusted {I} (t : I) : Verifying I Untrusted := MkVerifying Untrusted t.

Definition coerce {I S} (U : State) (v : Verifying I S) : Verifying I U := MkVerifying U (inner v).

Inductive Verify (R C E H : Type) : Type :=
| SignatureVerification
| NoSignatures
| QuorumError
| ParentQuorum
| ParentMismatch (expected actual : R)
| DanglingParent (this parent : C)
| MissingParent (r : R)
| RootMismatch (expected actual : R)
| EmptyHistory
| Eligibility (e : E)
| History (h : H).
Arguments SignatureVerification {R C E H}.
Arguments NoSignatures {R C E H}.
Arguments QuorumError {R C E H}.
Arguments ParentQuorum {R C E H}.
Arguments ParentMismatch {R C E H} expected actual.
Arguments DanglingParent {R C E H} this parent.
Arguments MissingParent {R C E H} r.
Arguments RootMismatch {R C E H} expected actual.
Arguments EmptyHistory {R C E H}.
Arguments Eligibility {R C E H} e.
Arguments History {R C E H} h.

Record Folded (I : Type) : Type := MkFolded {
  head : Verifying I Verified;
  parent : option (Verifying I Verified);
}.
Arguments MkFolded {I} _ _.
Arguments head {I} _.
Arguments parent {I} _.

Section Verification.
Context {T R C Sig E H : Type} `{EqDecision R} `{Delegations T E} `{Replaces T R}.
(** [Signature::verify] of a signature over a revision by a key. *)
Context (sig_verify : Sig -> R -> PublicKey -> bool).

Implicit Type i p : Identity T R C Sig.

Definition signed (v : Verifying (Identity T R C Sig) Untrusted) :
    result (Verify R C E H) (Verifying (Identity T R C Sig) Signed) :=
  if bool_decide (signatures (inner v) = ∅) then Err NoSignatures
  else if negb (forallb (fun ks => sig_verify ks.2 (revision (inner v)) ks.1)
                  (btree_iter (signatures (inner v))))
  then Err SignatureVerification
  else Ok (coerce Signed v).

(** The votes of the signing keys under a document's delegations. *)
Definition votes (d : T) (sigs : gmap PublicKey Sig) : result (Verify R C E H) nat :=
  size <$> map_err Eligibility (eligible d (dom sigs)).

Definition quorum (v : Verifying (Identity T R C Sig) Signed) :
    result (Verify R C E H) (Verifying (Identity T R C Sig) Quorum) :=
  n ← votes (doc (inner v)) (signatures (inner v));
  if (0 <? n)%nat && (quorum_threshold (doc (inner v)) <? n)%nat
  then Ok (coerce Quorum v) else Err QuorumError.

Definition verified (v : Verifying (Identity T R C Sig) Quorum)
    (parent : option (Verifying (Identity T R C Sig) Verified)) :
    result (Verify R C E H) (Verifying (Identity T R C Sig) Verified) :=
  let self := inner v in
  match replaces (doc self), parent with
  | None, None => Ok (coerce Verified v)
  | Some r, None => Err (MissingParent r)
  | rep, Some parent =>
      let parent := inner parent in
      if bool_decide (root parent <> root self) then Err (RootMismatch (root self) (root parent))
      else match rep with
      | None => Err (DanglingParent (content_id self) (content_id parent))
      | Some r =>
          if bool_decide (r <> revision parent) then Err (ParentMismatch r (revision parent))
          else
            n ← votes (doc parent) (signatures self);
            if (0 <? n)%nat && (quorum_threshold (doc parent) <? n)%nat
            then Ok (coerce Verified v) else Err ParentQuorum
      end
  end.

(** The conveniences from [Untrusted]. *)
Definition untrusted_quorum (v : Verifying (Identity T R C Sig) Untrusted) :
    result (Verify R C E H) (Verifying (Identity T R C Sig) Quorum) :=
  s ← signed v; quorum s.

Definition untrusted_verified (v : Verifying (Identity T R C Sig) Untrusted)
    (parent : option (Verifying (Identity T R C Sig) Verified)) :
    result (Verify R C E H) (Verifying (Identity T R C Sig) Verified) :=
  s ← signed v; q ← quorum s; verified q parent.

(** The closure [verify] folds with. *)
Definition verify_step (acc : Folded (Identity T R C Sig))
    (cur : result H (Verifying (Identity T R C Sig) Untrusted)) :
    result (Verify R C E H) (Folded (Identity T R C Sig)) :=
  cur ← map_err History cur;
  s ← signed cur;
  match quorum s with
  | Err _ => Ok acc
  | Ok q =>
      if bool_decide (revision (inner q) = revision (inner (head acc))) &&
         bool_decide (replaces (doc (inner q)) = replaces (doc (inner (head acc))))
      then match verified q (parent acc) with
           | Err _ => Ok acc
           | Ok v => Ok (MkFolded v (parent acc))
           end
      else (fun v => MkFolded v (Some (head acc))) <$> verified q (Some (head acc))
  end.

Fixpoint try_fold (acc : Folded (Identity T R C Sig))
    (progeny : list (result H (Verifying (Identity T R C Sig) Untrusted))) :
    result (Verify R C E H) (Folded (Identity T R C Sig)) :=
  match progeny with
  | [] => Ok acc
  | cur :: progeny => acc ← verify_step acc cur; try_fold acc progeny
  end.

Definition verify (self : Verifying (Identity T R C Sig) Verified)
    (progeny : list (result H (Verifying (Identity T R C Sig) Untrusted))) :
    result (Verify R C E H) (Folded (Identity T R C Sig)) :=
  try_fold (MkFolded self None) progeny.

(** ** Specification *)

(** Signed by somebody, and every signature is valid for the revision. *)
Definition well_signed i : Prop :=
  signatures i <> ∅ /\
  forall k sig, signatures i !! k = Some sig -> sig_verify sig (revision i) k = true.

(** The signers [sigs] are a quorum of the delegations of [d]. *)
Definition reaches (d : T) (sigs : gmap PublicKey Sig) : Prop :=
  exists e, eligible d (dom sigs) = Ok e /\ (quorum_threshold d < size e)%nat.

(** [i] is what a verified identity with parent [par] has to be. *)
Definition succeeds i (par : option (Identity T R C Sig)) : Prop :=
  well_signed i /\ reaches (doc i) (signatures i) /\
  match par with
  | None => replaces (doc i) = None
  | Some p => root i = root p /\ replaces (doc i) = Some (revision p) /\
              reaches (doc p) (signatures i)
  end.

(** A chain of verified revisions from an initial one, each approved by a quorum of
    its own and of its predecessor's delegations. *)
Inductive chain : Identity T R C Sig -> option (Identity T R C Sig) -> Prop :=
| chain_root i : succeeds i None -> chain i None
| chain_next i p gp : chain p gp -> succeeds i (Some p) -> chain i (Some p).

(** ** The transitions *)

Lemma signed_spec v w : signed v = Ok w <-> w = MkVerifying Signed (inner v) /\ well_signed (inner v).
Proof.
  unfold signed, well_signed. case_bool_decide as Hs; [split; [done|by intros (_ & ? & _)]|].
  assert (forallb (fun ks => sig_verify ks.2 (revision (inner v)) ks.1)
      (btree_iter (signatures (inner v))) = true <->
    forall k sig, signatures (inner v) !! k = Some sig -> sig_verify sig (revision (inner v)) k = true)
    as Hall.
  { rewrite forallb_forall. split.
    - intros Hf k sig Hk. apply (Hf (k, sig)), list_elem_of_In. by apply elem_of_btree_iter.
    - intros Hf [k sig] Hin. apply Hf, elem_of_btree_iter. by apply list_elem_of_In. }
  destruct (forallb _ _); simpl.
  - split; [intros [= <-]; split; [done|]; split; [done|by apply Hall]|]. by intros [-> _].
  - split; [done|]. intros (_ & _ & Hv). by apply Hall in Hv.
Qed.

Lemma votes_reach d sigs :
  reaches d sigs <->
  exists n, votes d sigs = Ok n /\ (0 <? n)%nat && (quorum_threshold d <? n)%nat = true.
Proof.
  unfold reaches, votes. destruct (eligible d (dom sigs)) as [e|e]; simpl; split.
  - intros (e' & [= <-] & Hn). exists (size e). split; [done|].
    apply andb_true_iff. split; apply Nat.ltb_lt; lia.
  - intros (n & [= <-] & [_ Hn%Nat.ltb_lt]%andb_true_iff). eauto.
  - by intros (? & ? & _).
  - by intros (? & ? & _).
Qed.

(** Counting votes and comparing: the shape both quorum checks have. *)
Lemma count_spec {A} d sigs (a b : A) (f : Verify R C E H) :
  (n ← votes d sigs; if (0 <? n)%nat && (quorum_threshold d <? n)%nat then Ok a else Err f) = Ok b
  <-> b = a /\ reaches d sigs.
Proof.
  rewrite votes_reach. destruct (votes d sigs) as [n|e]; simpl.
  - destruct (_ && _) eqn:Hn.
    + split; [intros [= <-]; eauto|by intros [-> _]].
    + split; [done|]. intros (_ & ? & [= <-] & ?). congruence.
  - split; [done|]. by intros (_ & ? & ? & _).
Qed.

Lemma quorum_spec v w :
  quorum v = Ok w <-> w = MkVerifying Quorum (inner v) /\ reaches (doc (inner v)) (signatures (inner v)).
Proof. apply count_spec. Qed.

Lemma verified_spec v par w :
  verified v par = Ok w <->
  w = MkVerifying Verified (inner v) /\
  match inner <$> par with
  | None => replaces (doc (inner v)) = None
  | Some p => root (inner v) = root p /\ replaces (doc (inner v)) = Some (revision p) /\
              reaches (doc p) (signatures (inner v))
  end.
Proof.
  unfold verified. destruct par as [[p]|]; cbn [fmap option_fmap option_map inner].
  - destruct (replaces (doc (inner v))) as [r|] eqn:Hr; case_bool_decide as Hroot.
    + split; [done|]. intros (_ & ? & _). congruence.
    + case_bool_decide as Hrev.
      * split; [done|]. intros (_ & _ & [= ->] & _). congruence.
      * rewrite count_spec. subst r. by intuition.
    + split; [done|]. by intros (_ & _ & ? & _).
    + split; [done|]. by intros (_ & _ & ? & _).
  - destruct (replaces (doc (inner v))); [split; [done|by intros [_ ?]]|].
    split; [by intros [= <-]|by intros [-> _]].
Qed.

Lemma untrusted_verified_spec v par w :
  untrusted_verified v par = Ok w <->
  w = MkVerifying Verified (inner v) /\ succeeds (inner v) (inner <$> par).
Proof.
  unfold untrusted_verified, succeeds. rewrite res_bind_ok. split.
  - intros (s & [-> Hs]%signed_spec & (q & [-> Hq]%quorum_spec & [-> Hv]%verified_spec)%res_bind_ok).
    by destruct (inner <$> par).
  - intros (-> & Hs & Hq & Hv). exists (MkVerifying Signed (inner v)). split; [by apply signed_spec|].
    rewrite res_bind_ok. exists (MkVerifying Quorum (inner v)). split; [by apply quorum_spec|].
    apply verified_spec. split; [done|]. by destruct (inner <$> par).
Qed.

(** ** The fold *)

(** What one element of the history does to the accumulator. *)
Lemma verify_step_spec acc cur acc' :
  verify_step acc cur = Ok acc' ->
  exists v, cur = Ok v /\ well_signed (inner v) /\
  (acc' = acc \/
   succeeds (inner v) (inner <$> parent acc) /\
     revision (inner v) = revision (inner (head acc)) /\
     acc' = MkFolded (MkVerifying Verified (inner v)) (parent acc) \/
   succeeds (inner v) (Some (inner (head acc))) /\
     acc' = MkFolded (MkVerifying Verified (inner v)) (Some (head acc))).
Proof.
  unfold verify_step. destruct cur as [v|e]; [|done]. cbn [map_err mbind result_bind].
  intros (s & [-> Hs]%signed_spec & Hq)%res_bind_ok. exists v. split; [done|]. split; [done|].
  destruct (quorum _) as [q|e] eqn:Hquorum; [|left; congruence].
  apply quorum_spec in Hquorum as [-> Hr]. cbn [inner] in *.
  destruct (_ && _) eqn:Hsame.
  - apply andb_true_iff in Hsame as [Hrev%bool_decide_eq_true _].
    destruct (verified _ _) as [w|e] eqn:Hw; [|left; congruence].
    apply verified_spec in Hw as [-> Hw]. injection Hq as <-. cbn [inner] in *. right. left.
    split_and!; [|done|done]. by split_and!.
  - destruct (verified _ _) as [w|e] eqn:Hw; [|done].
    apply verified_spec in Hw as [-> Hw]. injection Hq as <-. cbn [inner] in *. right. right.
    by split_and!.
Qed.

Lemma chain_parent i p : chain i (Some p) -> exists gp, chain p gp.
Proof. inversion 1; eauto. Qed.

Lemma chain_succeeds i par : chain i par -> succeeds i par.
Proof. by inversion 1. Qed.

Lemma verify_step_chain acc cur acc' :
  verify_step acc cur = Ok acc' ->
  chain (inner (head acc)) (inner <$> parent acc) ->
  chain (inner (head acc')) (inner <$> parent acc').
Proof.
  intros (v & -> & _ & [->|[(Hv & _ & ->)|[Hv ->]]])%verify_step_spec Hc; [done| |].
  - cbn [head parent inner]. destruct (parent acc) as [p|]; [|by apply chain_root].
    destruct (chain_parent _ _ Hc) as [gp Hp]. by eapply chain_next.
  - by eapply chain_next.
Qed.

Lemma try_fold_app xs : forall acc ys,
  try_fold acc (xs ++ ys) = (acc' ← try_fold acc xs; try_fold acc' ys).
Proof.
  induction xs as [|x xs IH]; intros acc ys; [done|]. simpl.
  destruct (verify_step acc x); simpl; [apply IH|done].
Qed.

Lemma try_fold_chain progeny : forall acc folded,
  try_fold acc progeny = Ok folded ->
  chain (inner (head acc)) (inner <$> parent acc) ->
  chain (inner (head folded)) (inner <$> parent folded).
Proof.
  induction progeny as [|cur progeny IH]; intros acc folded Hf Hc; simpl in Hf; [congruence|].
  apply res_bind_ok in Hf as (acc' & Hs & Hf). eapply IH; [done|]. by eapply verify_step_chain.
Qed.

End Verification.
