(* ===== verification/Delegation.v ===== *)
(** * Delegations

    [link-identities/src/delegation/direct.rs] and [delegation/indirect.rs], the
    two instances of the trait, with the laws the verification of [Identity.v]
    needs of them, and the theorems about verification that follow.  The keys of a
    [NonEmptyOrderedSet] are a finite set; that it is not empty is part of
    [direct_wf]. *)
From stdpp Require Import base list gmap fin_sets.
From Stdlib Require Import NArith Lia.
From S2P Require Import Prelude Identity.

(** ** Direct delegations *)

Module Direct.

Inductive DirectError := EmptyKeys.

Definition direct_new (key : N) : gset N := {[ key ]}.

Definition direct_insert (self : gset N) (key : N) : gset N := {[ key ]} ∪ self.

Definition direct_try_from_iter (keys : list N) : result DirectError (gset N) :=
  let keys : gset N := list_to_set keys in
  if bool_decide (keys = ∅) then Err EmptyKeys else Ok keys.

Definition direct_contains (self : gset N) (key : N) : bool := bool_decide (key ∈ self).

Definition direct_eligible (self votes : gset N) : gset N :=
  list_to_set (filter (fun pk => pk ∈ votes) (bset_iter self)).

Definition direct_threshold (self : gset N) : nat := size self / 2.

Definition direct_extend (self : gset N) (keys : list N) : gset N := foldl direct_insert self keys.

End Direct.
Import Direct.

#[export] Instance direct_delegations : Delegations (gset N) Empty_set := {|
  eligible d votes := Ok (direct_eligible d votes);
  quorum_threshold := direct_threshold;
|}.

(** ** Indirect delegations *)

Module Indirect.
Section Indirect.
Context {T R C Sig : Type} `{EqDecision R, Countable R}.

Abbreviation IndirectlyDelegating := (Identity (Doc T (gset N) R) R C Sig) (only parsing).

Record Indirect : Type := MkIndirect {
  identities : list IndirectlyDelegating;
  key_owner : gmap N (option nat);
}.

Inductive FromIterError :=
| DuplicateKey (k : N)
| DuplicateIdentity (r : R)
| EmptyDelegations.

Inductive DoubleVote := MkDoubleVote.

(** The closure [insert] of [try_from_iter]. *)
Definition insert_key (dels : gmap N (option nat)) (key : N) (pos : option nat) :
    result FromIterError (gmap N (option nat)) :=
  match dels !! key with
  | None => Ok (<[key := pos]> dels)
  | Some _ => Err (DuplicateKey key)
  end.

(** The loop over the keys of one identity. *)
Fixpoint insert_keys (dels : gmap N (option nat)) (keys : list N) (pos : nat) :
    result FromIterError (gmap N (option nat)) :=
  match keys with
  | [] => Ok dels
  | k :: keys => dels ← insert_key dels k (Some pos); insert_keys dels keys pos
  end.

Fixpoint from_iter_ids (ids : list IndirectlyDelegating) (dels : gmap N (option nat)) (roots : gset R)
    (iter : list (N + IndirectlyDelegating)) : result FromIterError Indirect :=
  match iter with
  | [] =>
      if bool_decide (ids = []) && bool_decide (dels = ∅) then Err EmptyDelegations
      else Ok (MkIndirect ids dels)
  | inl key :: iter =>
      dels ← insert_key dels key None; from_iter_ids ids dels roots iter
  | inr id :: iter =>
      if bool_decide (root id ∈ roots) then Err (DuplicateIdentity (root id))
      else
        let ids := ids ++ [id] in
        let pos := length ids - 1 in
        dels ← insert_keys dels (bset_iter (delegations (doc id))) pos;
        from_iter_ids ids dels ({[ root id ]} ∪ roots) iter
  end.

Definition try_from_iter (iter : list (N + IndirectlyDelegating)) : result FromIterError Indirect :=
  from_iter_ids [] ∅ ∅ iter.

(** Indexing the vector panics out of range. *)
Definition owner (self : Indirect) (key : N) : outcome (option IndirectlyDelegating) :=
  match key_owner self !! key with
  | Some (Some idx) => Some <$> unwrap (identities self !! idx)
  | _ => Done None
  end.

(** The [try_fold] of [eligible]. *)
Fixpoint eligible_fold (id_votes : gset nat) (acc : gset N) (ds : list (N * option nat)) :
    result DoubleVote (gset N) :=
  match ds with
  | [] => Ok acc
  | (k, idx) :: ds =>
      match idx with
      | Some id =>
          if bool_decide (id ∈ id_votes) then Err MkDoubleVote
          else eligible_fold ({[ id ]} ∪ id_votes) ({[ k ]} ∪ acc) ds
      | None => eligible_fold id_votes ({[ k ]} ∪ acc) ds
      end
  end.

Definition indirect_eligible (self : Indirect) (votes : gset N) : result DoubleVote (gset N) :=
  eligible_fold ∅ ∅ (filter (fun kv => kv.1 ∈ votes) (btree_iter (key_owner self))).

Definition indirect_threshold (self : Indirect) : nat :=
  (length (filter (fun kv => kv.2 = None) (btree_iter (key_owner self))) +
   length (identities self)) / 2.

(** [Iter]: the identities in order, then the keys without an owner. *)
Definition indirect_iter (self : Indirect) : list (N + IndirectlyDelegating) :=
  (inr <$> identities self) ++
  omap (fun kv => match kv.2 with None => Some (inl kv.1) | Some _ => None end)
    (btree_iter (key_owner self)).

(** [Iter::direct] and [Iter::indirect]. *)
Definition iter_direct (it : list (N + IndirectlyDelegating)) : list N :=
  omap (fun d => match d with inl k => Some k | inr _ => None end) it.
Definition iter_indirect (it : list (N + IndirectlyDelegating)) : list IndirectlyDelegating :=
  omap (fun d => match d with inl _ => None | inr i => Some i end) it.

(** [From<PublicKey>] and [From<IndirectlyDelegating>]. *)
Definition from_key (pk : N) : Indirect := MkIndirect [] {[ pk := None ]}.
Definition from_identity (id : IndirectlyDelegating) : Indirect := MkIndirect [id] ∅.

End Indirect.
Arguments Indirect : clear implicits.
Arguments FromIterError : clear implicits.
End Indirect.
Import Indirect.

#[export] Instance indirect_delegations {T R C Sig} :
    Delegations (Indirect T R C Sig) DoubleVote := {|
  eligible := indirect_eligible;
  quorum_threshold := indirect_threshold;
|}.

(** ** Either of the two *)

Inductive SomeDelegations (T R C Sig : Type) : Type :=
| DirectDelegations (d : gset N)
| IndirectDelegations (i : Indirect T R C Sig).
Arguments DirectDelegations {T R C Sig} d.
Arguments IndirectDelegations {T R C Sig} i.

#[export] Instance some_delegations {T R C Sig} :
    Delegations (SomeDelegations T R C Sig) (Empty_set + DoubleVote) := {|
  eligible s votes :=
    match s with
    | DirectDelegations d => Ok (direct_eligible d votes)
    | IndirectDelegations i => map_err inr (indirect_eligible i votes)
    end;
  quorum_threshold s :=
    match s with
    | DirectDelegations d => direct_threshold d
    | IndirectDelegations i => indirect_threshold i
    end;
|}.

(** ** The laws *)

Lemma direct_eligible_spec d votes : direct_eligible d votes = d ∩ votes.
Proof.
  apply set_eq. intros k. unfold direct_eligible.
  rewrite elem_of_list_to_set, list_elem_of_filter, elem_of_bset_iter. set_solver.
Qed.

Lemma half_bound n : (n <= 2 * (n / 2) + 1)%nat.
Proof. pose proof (Nat.div_mod_eq n 2). pose proof (Nat.mod_upper_bound n 2). lia. Qed.

#[export] Program Instance direct_laws : DelegationsLaws (gset N) Empty_set := {|
  well_formed d := d <> ∅;
  delegates d := set_map inl d;
  delegate_of d k := inl k;
|}.
Next Obligation. intros d votes e [= <-]. rewrite direct_eligible_spec. set_solver. Qed.
Next Obligation.
  intros d votes e k _ [= <-]. rewrite direct_eligible_spec. set_solver.
Qed.
Next Obligation. intros d votes e k k' _ _ _ _ [= ->]. done. Qed.
Next Obligation.
  intros d _. simpl. unfold direct_threshold. rewrite size_map_inj by congruence. apply half_bound.
Qed.

Section IndirectLaws.
Context {T R C Sig : Type}.
Implicit Type i : Indirect T R C Sig.

(** Every key's owner is one of the identities, and lists the key. *)
Definition indirect_wf i : Prop :=
  forall k n, key_owner i !! k = Some (Some n) ->
    exists id, identities i !! n = Some id /\ k ∈ delegations (doc id).

Definition direct_keys i : list N :=
  (filter (fun kv => kv.2 = None) (btree_iter (key_owner i))).*1.

Lemma elem_of_direct_keys i k : k ∈ direct_keys i <-> key_owner i !! k = Some None.
Proof.
  unfold direct_keys. rewrite list_elem_of_fmap. split.
  - intros ([k' o] & -> & [Ho Hin]%list_elem_of_filter). apply elem_of_btree_iter in Hin.
    simpl in *. by subst.
  - intros Hk. exists (k, None). split; [done|]. apply list_elem_of_filter. split; [done|].
    by apply elem_of_btree_iter.
Qed.

Lemma btree_iter_nodup {V} (m : gmap N V) : NoDup (btree_iter m).*1.
Proof. rewrite btree_iter_fst. apply btree_keys_nodup. Qed.

Lemma filter_fst_nodup {V} (P : N * V -> Prop) `{!forall x, Decision (P x)} l :
  NoDup l.*1 -> NoDup (filter P l).*1.
Proof.
  intros Hl. eapply sublist_NoDup; [exact Hl|]. apply fmap_sublist, sublist_filter.
Qed.

Lemma direct_keys_nodup i : NoDup (direct_keys i).
Proof. apply filter_fst_nodup, btree_iter_nodup. Qed.

(** The fold succeeds exactly when no identity votes twice. *)
Lemma eligible_fold_spec ds : forall iv acc e,
  eligible_fold iv acc ds = Ok e <->
  e = acc ∪ list_to_set ds.*1 /\ NoDup (omap snd ds) /\ (forall n, n ∈ omap snd ds -> n ∉ iv).
Proof.
  induction ds as [|[k [n|]] ds IH]; intros iv acc e; simpl.
  - split; [intros [= <-]; split_and!; [set_solver|constructor|by intros ? ?%elem_of_nil]|].
    intros (-> & _ & _). f_equal. set_solver.
  - case_bool_decide as Hn.
    + split; [done|]. intros (_ & _ & Hiv). exfalso. apply (Hiv n); [left|done].
    + rewrite IH, NoDup_cons. split.
      * intros (-> & Hnd & Hiv). split_and!; [set_solver| |done|].
        -- intros Hin. apply Hiv in Hin. set_solver.
        -- intros m [->|Hm]%elem_of_cons; [done|]. apply Hiv in Hm. set_solver.
      * intros (-> & [Hn' Hnd] & Hiv). split_and!; [set_solver|done|].
        intros m Hm. assert (m <> n) by (by intros ->). assert (m ∉ iv) by (apply Hiv; by right).
        set_solver.
  - rewrite IH. split; intros (-> & ? & ?); split_and!; try done; set_solver.
Qed.

Lemma eligible_fold_err ds iv acc x : eligible_fold iv acc ds = Err x -> x = MkDoubleVote.
Proof. by destruct x. Qed.

(** Two keys of the votes that belong to one identity. *)
Definition double_vote i (votes : gset N) : Prop :=
  exists k k' n, k <> k' /\ k ∈ votes /\ k' ∈ votes /\
    key_owner i !! k = Some (Some n) /\ key_owner i !! k' = Some (Some n).

Definition voting i (votes : gset N) : list (N * option nat) :=
  filter (fun kv => kv.1 ∈ votes) (btree_iter (key_owner i)).

Lemma elem_of_voting i votes k o :
  (k, o) ∈ voting i votes <-> k ∈ votes /\ key_owner i !! k = Some o.
Proof. unfold voting. by rewrite list_elem_of_filter, elem_of_btree_iter. Qed.

Lemma omap_snd_nodup (ds : list (N * option nat)) :
  NoDup ds.*1 ->
  NoDup (omap snd ds) <->
  (forall k k' n, (k, Some n) ∈ ds -> (k', Some n) ∈ ds -> k = k').
Proof.
  induction ds as [|[k o] ds IH]; intros Hnd; simpl.
  { split; [by intros _ ? ? ? ?%elem_of_nil|constructor]. }
  rewrite fmap_cons in Hnd. apply NoDup_cons in Hnd as [Hk Hnd]. specialize (IH Hnd).
  assert (forall n, n ∈ omap snd ds <-> exists k, (k, Some n) ∈ ds) as Hom.
  { intros n. rewrite list_elem_of_omap. split.
    - intros ([k' o'] & Hin & Ho). simpl in Ho. subst. eauto.
    - intros [k' Hin]. by exists (k', Some n). }
  destruct o as [n|]; simpl.
  - rewrite NoDup_cons, IH, Hom. split.
    + intros [Hn Hd] k1 k2 m H1 H2. apply elem_of_cons in H1, H2.
      destruct H1 as [H1|H1], H2 as [H2|H2]; simplify_eq; [done| | |by eapply Hd];
        destruct Hn; eauto.
    + intros Hd. split.
      * intros [k' Hk']. apply Hk. rewrite (Hd k k' n); [|left|by right].
        apply list_elem_of_fmap. by exists (k', Some n).
      * intros k1 k2 m H1 H2. eapply Hd; by right.
  - rewrite IH. split; intros Hd k1 k2 m.
    + intros H1 H2. apply elem_of_cons in H1, H2. destruct H1, H2; simplify_eq. by eapply Hd.
    + intros H1 H2. eapply Hd; by right.
Qed.

Lemma indirect_eligible_spec i votes e :
  indirect_eligible i votes = Ok e <->
  e = votes ∩ dom (key_owner i) /\ ~ double_vote i votes.
Proof.
  unfold indirect_eligible. fold (voting i votes). rewrite eligible_fold_spec.
  rewrite omap_snd_nodup by (apply filter_fst_nodup, btree_iter_nodup).
  assert (∅ ∪ list_to_set (voting i votes).*1 = votes ∩ dom (key_owner i)) as ->.
  { apply set_eq. intros k. rewrite elem_of_union, elem_of_list_to_set, elem_of_intersection,
      elem_of_dom, list_elem_of_fmap. split.
    - intros [?|([k' o] & -> & [? ?]%elem_of_voting)]; [set_solver|]. simpl. eauto.
    - intros [Hv [o Ho]]. right. exists (k, o). split; [done|]. by apply elem_of_voting. }
  setoid_rewrite elem_of_voting. unfold double_vote. split.
  - intros (-> & Hd & _). split; [done|]. intros (k & k' & n & Hne & ? & ? & ? & ?).
    apply Hne. by eapply Hd.
  - intros [-> Hd]. split; [done|]. split; [|set_solver].
    intros k k' n [? ?] [? ?]. destruct (decide (k = k')); [done|]. destruct Hd. eauto 10.
Qed.

Definition indirect_delegates i : gset (N + nat) :=
  set_map inl (list_to_set (C := gset N) (direct_keys i)) ∪
  set_map inr (list_to_set (C := gset nat) (seq 0 (length (identities i)))).

Definition indirect_delegate_of i (k : N) : N + nat :=
  match key_owner i !! k with
  | Some (Some n) => inr n
  | _ => inl k
  end.

Lemma indirect_delegates_size i :
  size (indirect_delegates i) =
  (length (filter (fun kv => kv.2 = None) (btree_iter (key_owner i))) + length (identities i))%nat.
Proof.
  unfold indirect_delegates. rewrite size_union by set_solver.
  rewrite !size_map_inj by congruence. rewrite !size_list_to_set; [|apply NoDup_seq|apply direct_keys_nodup].
  rewrite length_seq. unfold direct_keys. by rewrite length_fmap.
Qed.
End IndirectLaws.

#[export] Program Instance indirect_laws {T R C Sig} :
    DelegationsLaws (Indirect T R C Sig) DoubleVote := {|
  well_formed := indirect_wf;
  delegates := indirect_delegates;
  delegate_of := indirect_delegate_of;
|}.
Next Obligation. intros T R C Sig d votes e [-> _]%indirect_eligible_spec. set_solver. Qed.
Next Obligation.
  intros T R C Sig d votes e k Hwf [-> _]%indirect_eligible_spec
    [Hv [o Ho]%elem_of_dom]%elem_of_intersection.
  unfold indirect_delegate_of, indirect_delegates. rewrite Ho. destruct o as [n|].
  - destruct (Hwf k n Ho) as (id & Hid & _). apply elem_of_union_r, elem_of_map.
    exists n. split; [done|]. apply elem_of_list_to_set, elem_of_seq.
    apply lookup_lt_Some in Hid. lia.
  - apply elem_of_union_l, elem_of_map. exists k. split; [done|].
    by apply elem_of_list_to_set, elem_of_direct_keys.
Qed.
Next Obligation.
  intros T R C Sig d votes e k k' Hwf [-> Hd]%indirect_eligible_spec
    [Hv [o Ho]%elem_of_dom]%elem_of_intersection [Hv' [o' Ho']%elem_of_dom]%elem_of_intersection.
  unfold indirect_delegate_of. rewrite Ho, Ho'. destruct o as [n|], o' as [n'|]; try congruence.
  intros [= <-]. destruct (decide (k = k')); [done|]. destruct Hd. exists k, k', n. eauto 10.
Qed.
Next Obligation.
  intros T R C Sig d _. rewrite indirect_delegates_size. simpl. unfold indirect_threshold.
  apply half_bound.
Qed.

(** ** Building indirect delegations *)

Section FromIter.
Context {T R C Sig : Type} `{EqDecision R, Countable R}.
Abbreviation Id := (Identity (Doc T (gset N) R) R C Sig) (only parsing).
Implicit Type iter : list (N + Identity (Doc T (gset N) R) R C Sig).

(** The keys in the order of their insertion, with their owners; [pos] identities
    come before. *)
Fixpoint entries (pos : nat) iter : list (N * option nat) :=
  match iter with
  | [] => []
  | inl k :: iter => (k, None) :: entries pos iter
  | inr id :: iter =>
      ((fun k => (k, Some pos)) <$> bset_iter (delegations (doc id))) ++ entries (S pos) iter
  end.

Definition ids_of iter : list (Identity (Doc T (gset N) R) R C Sig) := iter_indirect iter.

(** A collection that can be built: no key twice, no root twice, not empty. *)
Definition buildable iter : Prop :=
  NoDup (entries 0 iter).*1 /\ NoDup (root <$> ids_of iter) /\ iter <> [].

Definition built iter : Indirect T R C Sig :=
  MkIndirect (ids_of iter) (list_to_map (entries 0 iter)).

Fixpoint insert_all (dels : gmap N (option nat)) (es : list (N * option nat)) :
    result (FromIterError R) (gmap N (option nat)) :=
  match es with
  | [] => Ok dels
  | (k, p) :: es => dels ← insert_key dels k p; insert_all dels es
  end.

Lemma insert_all_app es es' : forall dels,
  insert_all dels (es ++ es') = (d ← insert_all dels es; insert_all d es').
Proof.
  induction es as [|[k p] es IH]; intros dels; [done|]. simpl.
  destruct (insert_key dels k p); simpl; [apply IH|done].
Qed.

Lemma insert_keys_all keys pos : forall dels,
  insert_keys dels keys pos = insert_all dels ((fun k => (k, Some pos)) <$> keys).
Proof.
  induction keys as [|k keys IH]; intros dels; [done|]. simpl.
  destruct (insert_key dels k (Some pos)); simpl; [apply IH|done].
Qed.

Lemma insert_all_spec es : forall dels d,
  insert_all dels es = Ok d <->
  NoDup es.*1 /\ (forall k, k ∈ es.*1 -> dels !! k = None) /\ d = list_to_map es ∪ dels.
Proof.
  induction es as [|[k p] es IH]; intros dels d; cbn [insert_all].
  - split; [intros [= <-]; split_and!; [constructor|by intros ? ?%elem_of_nil|]|].
    + simpl. by rewrite (left_id_L ∅ (∪)).
    + intros (_ & _ & ->). simpl. by rewrite (left_id_L ∅ (∪)).
  - rewrite fmap_cons, NoDup_cons. cbn [fst list_to_map foldr]. unfold insert_key.
    destruct (dels !! k) as [o|] eqn:Hk.
    { split; [done|]. intros (_ & Hn & _). rewrite Hn in Hk by left. done. }
    cbn [mbind result_bind]. rewrite IH. split.
    + intros (Hnd & Hn & ->).
      assert (k ∉ es.*1) as Hke by (intros Hin; apply Hn in Hin; by rewrite lookup_insert_eq in Hin).
      split_and!; [done|done| |].
      * intros k' [->|Hin]%elem_of_cons; [done|]. apply Hn in Hin.
        by apply lookup_insert_None in Hin as [? _].
      * rewrite <- insert_union_r by (by apply not_elem_of_list_to_map_1). by rewrite insert_union_l.
    + intros ([Hke Hnd] & Hn & ->). split_and!; [done| |].
      * intros k' Hin. rewrite lookup_insert_ne by (by intros ->). apply Hn. by right.
      * rewrite <- insert_union_r by (by apply not_elem_of_list_to_map_1). by rewrite insert_union_l.
Qed.

Lemma from_iter_ids_spec iter : forall ids dels roots x,
  from_iter_ids ids dels roots iter = Ok x <->
  exists d, insert_all dels (entries (length ids) iter) = Ok d /\
    NoDup (root <$> ids_of iter) /\ (forall r, r ∈ root <$> ids_of iter -> r ∉ roots) /\
    ~ (ids ++ ids_of iter = [] /\ d = ∅) /\ x = MkIndirect (ids ++ ids_of iter) d.
Proof.
  induction iter as [|[k|id] iter IH]; intros ids dels roots x; cbn [from_iter_ids entries].
  - cbn [insert_all]. change (ids_of []) with (@nil Id). rewrite app_nil_r.
    destruct (bool_decide (ids = []) && bool_decide (dels = ∅)) eqn:Hb.
    + apply andb_true_iff in Hb as [?%bool_decide_eq_true ?%bool_decide_eq_true].
      split; [done|]. intros (d & [= <-] & _ & _ & Hn & _). by destruct Hn.
    + split.
      * intros [= <-]. exists dels. split_and!; [done|constructor|by intros ? ?%elem_of_nil| |done].
        intros [-> ->]. by rewrite !bool_decide_eq_true_2 in Hb.
      * intros (d & [= <-] & _ & _ & _ & ->). done.
  - change (ids_of (inl k :: iter)) with (ids_of iter). cbn [insert_all].
    destruct (insert_key dels k None) as [dels'|e]; cbn [mbind result_bind].
    + apply IH.
    + split; [done|]. by intros (d & ? & _).
  - change (ids_of (inr id :: iter)) with (id :: ids_of iter). rewrite insert_all_app.
    change (root <$> id :: ids_of iter) with (root id :: (root <$> ids_of iter)).
    setoid_rewrite NoDup_cons. case_bool_decide as Hr.
    { split; [done|]. intros (d & _ & _ & Hn & _). exfalso. apply (Hn (root id)); [left|done]. }
    rewrite length_app, Nat.add_sub, insert_keys_all.
    destruct (insert_all dels _) as [dels'|e]; cbn [mbind result_bind]; [|split; [done|by intros (? & ? & _)]].
    rewrite IH, length_app, Nat.add_1_r, <- app_assoc. cbn [app].
    split; intros (d & Hd & H1 & H2 & H3 & ->); exists d; (split; [done|]).
    + assert (root id ∉ root <$> ids_of iter) by (intros Hin; apply H2 in Hin; set_solver).
      split_and!; [done|done| |done|done]. intros r [->|Hin]%elem_of_cons; [done|].
      apply H2 in Hin. set_solver.
    + destruct H1 as [H1 H1']. split_and!; [done| |done|done]. intros r Hin.
      assert (r <> root id) by (by intros ->). assert (r ∉ roots) by (apply H2; by right). set_solver.
Qed.

Lemma try_from_iter_spec iter x :
  try_from_iter iter = Ok x <-> buildable iter /\ x = built iter.
Proof.
  unfold try_from_iter. rewrite from_iter_ids_spec. unfold buildable, built. simpl length.
  cbn [app]. split.
  - intros (d & (Hnd & _ & ->)%insert_all_spec & Hr & _ & Hne & ->).
    rewrite (right_id_L ∅ (∪)) in *. split; [|done]. split_and!; [done|done|].
    intros ->. by apply Hne.
  - intros [(Hnd & Hr & Hne) ->]. exists (list_to_map (entries 0 iter)).
    split_and!; [|done|set_solver| |done].
    + apply insert_all_spec. rewrite (right_id_L ∅ (∪)). split_and!; [done|by intros; apply lookup_empty|done].
    + intros [Hids Hd]. destruct iter as [|[k|id] iter]; [done| |done].
      cbn [entries list_to_map foldr] in Hd. by apply insert_non_empty in Hd.
Qed.

Definition id_entries (pos : nat) (ids : list (Identity (Doc T (gset N) R) R C Sig)) :=
  entries pos (inr <$> ids).

Lemma entries_split ids ks : forall pos,
  entries pos ((inr <$> ids) ++ (inl <$> ks)) = id_entries pos ids ++ ((fun k => (k, None)) <$> ks).
Proof.
  induction ids as [|id ids IH]; intros pos.
  - simpl. induction ks as [|k ks IHk]; [done|]. simpl. by f_equal.
  - unfold id_entries. simpl. rewrite IH. by rewrite <- app_assoc.
Qed.

Lemma entries_perm iter : forall pos,
  entries pos iter ≡ₚ
  id_entries pos (ids_of iter) ++ ((fun k => (k, None)) <$> iter_direct iter).
Proof.
  induction iter as [|[k|id] iter IH]; intros pos; [done| |].
  - change (ids_of (inl k :: iter)) with (ids_of iter).
    change (iter_direct (inl k :: iter)) with (k :: iter_direct iter).
    cbn [entries]. rewrite IH, fmap_cons. by rewrite Permutation_middle.
  - change (ids_of (inr id :: iter)) with (id :: ids_of iter).
    change (iter_direct (inr id :: iter)) with (iter_direct iter).
    cbn [entries]. unfold id_entries. cbn [fmap list_fmap entries]. rewrite IH.
    by rewrite <- app_assoc.
Qed.

Lemma elem_of_id_entries ids : forall pos k o,
  (k, o) ∈ id_entries pos ids <->
  exists m id, o = Some (pos + m) /\ ids !! m = Some id /\ k ∈ delegations (doc id).
Proof.
  induction ids as [|id ids IH]; intros pos k o; unfold id_entries in *; cbn [fmap list_fmap entries].
  - rewrite elem_of_nil. split; [done|]. by intros (m & ? & _ & ? & _).
  - rewrite elem_of_app, IH, list_elem_of_fmap. setoid_rewrite elem_of_bset_iter. split.
    + intros [(k' & [= -> ->] & Hk)|(m & id' & -> & ? & ?)].
      * exists 0, id. by rewrite Nat.add_0_r.
      * exists (S m), id'. by rewrite Nat.add_succ_r.
    + intros ([|m] & id' & -> & Hid & Hk); simpl in Hid.
      * injection Hid as ->. left. exists k. by rewrite Nat.add_0_r.
      * right. exists m, id'. by rewrite Nat.add_succ_r.
Qed.

Lemma elem_of_entries iter k o :
  (k, o) ∈ entries 0 iter <->
  o = None /\ k ∈ iter_direct iter \/
  exists m id, o = Some m /\ ids_of iter !! m = Some id /\ k ∈ delegations (doc id).
Proof.
  rewrite entries_perm, elem_of_app, elem_of_id_entries, list_elem_of_fmap. simpl. split.
  - intros [?|(k' & [= -> ->] & ?)]; [by right|by left].
  - intros [[-> ?]|?]; [right; by exists k|by left].
Qed.

Lemma built_lookup iter k o :
  buildable iter -> key_owner (built iter) !! k = Some o <-> (k, o) ∈ entries 0 iter.
Proof. intros [Hnd _]. symmetry. by apply elem_of_list_to_map. Qed.

Lemma built_wf iter : buildable iter -> indirect_wf (built iter).
Proof.
  intros Hb k n Hk. apply built_lookup, elem_of_entries in Hk; [|done].
  destruct Hk as [[? _]|(m & id & [= ->] & ? & ?)]; [done|]. by exists id.
Qed.

Lemma direct_keys_built iter : buildable iter -> direct_keys (built iter) ≡ₚ iter_direct iter.
Proof.
  intros Hb. apply NoDup_Permutation; [apply direct_keys_nodup| |].
  - destruct Hb as [Hnd _]. rewrite entries_perm, fmap_app in Hnd.
    apply NoDup_app in Hnd as (_ & _ & Hnd). by rewrite <- list_fmap_compose, list_fmap_id in Hnd.
  - intros k. rewrite elem_of_direct_keys, built_lookup, elem_of_entries by done. split.
    + intros [[_ ?]|(? & ? & ? & _)]; done.
    + by left.
Qed.

Lemma indirect_iter_split (x : Indirect T R C Sig) :
  indirect_iter x = (inr <$> identities x) ++ (inl <$> direct_keys x).
Proof.
  unfold indirect_iter, direct_keys. f_equal.
  induction (btree_iter (key_owner x)) as [|[k [n|]] l IH]; [done| |].
  - by rewrite filter_cons_False.
  - rewrite filter_cons_True by done. simpl. by f_equal.
Qed.

Lemma built_iter iter :
  buildable iter -> buildable (indirect_iter (built iter)) /\ built (indirect_iter (built iter)) = built iter.
Proof.
  intros Hb. pose proof Hb as (Hnd & Hr & Hne). rewrite indirect_iter_split.
  set (it := (inr <$> identities (built iter)) ++ (inl <$> direct_keys (built iter))).
  assert (ids_of it = ids_of iter) as Hids.
  { unfold it, ids_of, iter_indirect. rewrite omap_app. simpl identities. unfold ids_of, iter_indirect.
    generalize (omap (fun d : N + Id => match d with inl _ => None | inr i => Some i end) iter) as l.
    intros l. assert (forall ks, omap (fun d : N + Id => match d with inl _ => None | inr i => Some i end)
      (inl <$> ks) = []) as -> by (induction ks; by simpl).
    rewrite app_nil_r. induction l as [|a l IHl]; simpl; [done|by f_equal]. }
  assert (entries 0 it ≡ₚ entries 0 iter) as Hperm.
  { unfold it. rewrite entries_split, (entries_perm iter), (direct_keys_built iter Hb). done. }
  split; [split_and!|].
  - by rewrite Hperm.
  - by rewrite Hids.
  - intros Hnil. rewrite Hnil in Hperm. symmetry in Hperm. apply Permutation_nil_r in Hperm.
    destruct iter as [|[k|id] iter]; [done|done|]. rewrite Hnil in Hids. done.
  - unfold built. rewrite Hids. f_equal. apply list_to_map_proper; [by rewrite Hperm|done].
Qed.

End FromIter.

(** ** Theorems about delegations *)

(** [indirect_roundtrip]: delegations built from a sequence of keys and identities
    are rebuilt, equal, from their own iterator, as its documentation promises;
    looking up the owner of a key never panics, and yields an identity exactly when
    that identity lists the key. *)
Theorem indirect_roundtrip {T R C Sig} `{EqDecision R, Countable R}
    (iter : list (N + Identity (Doc T (gset N) R) R C Sig)) x :
  try_from_iter iter = Ok x ->
  try_from_iter (indirect_iter x) = Ok x /\
  identities x = iter_indirect iter /\ direct_keys x ≡ₚ iter_direct iter /\
  forall k, exists o, owner x k = Done o /\
    forall id, o = Some id <-> id ∈ iter_indirect iter /\ k ∈ delegations (doc id).
Proof.
  intros [Hb ->]%try_from_iter_spec. split_and!.
  - apply try_from_iter_spec. destruct (built_iter iter Hb) as [? ?]. by split.
  - done.
  - by apply direct_keys_built.
  - intros k. unfold owner.
    assert (forall id, id ∈ iter_indirect iter -> k ∈ delegations (doc id) ->
      exists n, key_owner (built iter) !! k = Some (Some n) /\ identities (built iter) !! n = Some id) as Hown.
    { intros id [n Hn]%list_elem_of_lookup Hk. exists n. split; [|done].
      apply built_lookup, elem_of_entries; [done|]. right. by exists n, id. }
    destruct (key_owner (built iter) !! k) as [[n|]|] eqn:Hk.
    + destruct (built_wf iter Hb k n Hk) as (id & Hid & Hin). rewrite Hid. exists (Some id).
      split; [done|]. intros id'. split.
      * intros [= <-]. split; [|done]. by eapply list_elem_of_lookup_2.
      * intros [H1 H2]. destruct (Hown id' H1 H2) as (n' & [= <-] & ?). congruence.
    + exists None. split; [done|]. intros id. split; [done|].
      intros [H1 H2]. by destruct (Hown id H1 H2) as (n' & ? & _).
    + exists None. split; [done|]. intros id. split; [done|].
      intros [H1 H2]. by destruct (Hown id H1 H2) as (n' & ? & _).
Qed.

(** A person with two keys, and a project delegating to that person and a key. *)
Definition person_example : Identity (Doc unit (gset N) N) N N N :=
  (MkIdentity 10 7 7 (MkDoc 0 None tt {[ 1; 2 ]}) {[ 1 := 8; 2 := 9 ]})%N.

Lemma indirect_roundtrip_witness :
  exists x, try_from_iter [inl 3%N; inr person_example] = Ok x /\
    try_from_iter (indirect_iter x) = Ok x.
Proof.
  exists (built [inl 3%N; inr person_example]).
  assert (try_from_iter [inl 3%N; inr person_example] =
    Ok (built [inl 3%N; inr person_example])) as Hx by (vm_compute; reflexivity).
  split; [exact Hx|]. apply (indirect_roundtrip _ _ Hx).
Defined.

(** [indirect_eligible_exact]: the eligible votes are the votes of delegated keys,
    directly or through an identity, unless two of them belong to the same identity,
    which is reported as a double vote. *)
Theorem indirect_eligible_exact {T R C Sig} `{EqDecision R, Countable R}
    (iter : list (N + Identity (Doc T (gset N) R) R C Sig)) x votes :
  try_from_iter iter = Ok x ->
  match indirect_eligible x votes with
  | Ok e =>
      (forall k, k ∈ e <-> k ∈ votes /\
         (k ∈ iter_direct iter \/
          exists id, id ∈ iter_indirect iter /\ k ∈ delegations (doc id))) /\
      forall id k k', id ∈ iter_indirect iter -> k ∈ delegations (doc id) ->
        k' ∈ delegations (doc id) -> k ∈ votes -> k' ∈ votes -> k = k'
  | Err _ =>
      exists id k k', id ∈ iter_indirect iter /\ k ∈ delegations (doc id) /\
        k' ∈ delegations (doc id) /\ k ∈ votes /\ k' ∈ votes /\ k <> k'
  end.
Proof.
  intros [Hb ->]%try_from_iter_spec.
  assert (forall k, k ∈ dom (key_owner (built iter)) <-> k ∈ iter_direct iter \/
    exists id, id ∈ iter_indirect iter /\ k ∈ delegations (doc id)) as Hdom.
  { intros k. rewrite elem_of_dom. unfold is_Some. setoid_rewrite built_lookup; [|done].
    setoid_rewrite elem_of_entries. setoid_rewrite list_elem_of_lookup. split.
    - intros (o & [[_ ?]|(m & id & _ & ? & ?)]); [by left|right; eauto].
    - intros [?|(id & [m ?] & ?)]; [exists None; by left|exists (Some m); right; eauto]. }
  destruct (indirect_eligible (built iter) votes) as [e|e] eqn:He.
  - apply indirect_eligible_spec in He as [-> Hd]. split.
    + intros k. by rewrite elem_of_intersection, Hdom.
    + intros id k k' [n Hn]%list_elem_of_lookup Hk Hk' Hv Hv'.
      destruct (decide (k = k')); [done|]. destruct Hd. exists k, k', n.
      split_and!; try done; (apply built_lookup, elem_of_entries; [done|]); right; eauto.
  - destruct (decide (Exists (fun kv => Exists (fun kv' => kv.1 <> kv'.1 /\ kv.2 = kv'.2 /\ kv.2 <> None)
      (voting (built iter) votes)) (voting (built iter) votes))) as [Hx|Hx].
    + apply Exists_exists in Hx as ([k o] & Hk & Hx).
      apply Exists_exists in Hx as ([k' o'] & Hk' & Hne & Ho & Hsome). simpl in *. subst o'.
      apply elem_of_voting in Hk as [Hv Hk], Hk' as [Hv' Hk']. destruct o as [n|]; [|done].
      destruct (built_wf iter Hb k n Hk) as (id & Hid & Hin).
      destruct (built_wf iter Hb k' n Hk') as (id' & Hid' & Hin'). simplify_eq.
      exists id, k, k'. split_and!; try done. by eapply list_elem_of_lookup_2.
    + exfalso. assert (indirect_eligible (built iter) votes =
        Ok (votes ∩ dom (key_owner (built iter)))) as Hok; [|congruence].
      apply indirect_eligible_spec. split; [done|]. intros (k & k' & n & Hne & Hv & Hv' & Hk & Hk').
      apply Hx, Exists_exists. exists (k, Some n). split; [by apply elem_of_voting|].
      apply Exists_exists. exists (k', Some n). split; [by apply elem_of_voting|done].
Qed.

Lemma indirect_eligible_exact_witness :
  exists x, try_from_iter [inl 3%N; inr person_example] = Ok x /\
    (forall k, k ∈ ({[ 1; 3 ]}%N : gset N) <-> k ∈ ({[ 1; 3; 5 ]}%N : gset N) /\
       (k ∈ [3%N] \/ exists id, id ∈ [person_example] /\ k ∈ delegations (doc id))).
Proof.
  exists (built [inl 3%N; inr person_example]).
  assert (try_from_iter [inl 3%N; inr person_example] =
    Ok (built [inl 3%N; inr person_example])) as Hx by (vm_compute; reflexivity).
  split; [exact Hx|].
  pose proof (indirect_eligible_exact _ _ {[ 1; 3; 5 ]}%N Hx) as Hw.
  replace (indirect_eligible _ _) with (Ok ({[ 1; 3 ]}%N) : result DoubleVote (gset N)) in Hw
    by (vm_compute; reflexivity).
  exact (proj1 Hw).
Defined.

(** [single_identity_never_votes]: the conversion from a single identity forgets
    the identity's keys: no vote is ever eligible, so nothing signed under such
    delegations reaches a quorum, while building from the same identity counts its
    keys. *)
Theorem single_identity_never_votes {T R C Sig P} `{EqDecision R, Countable R}
    (id : Identity (Doc T (gset N) R) R C Sig) (p : P) votes (sigs : gmap N Sig) :
  indirect_eligible (from_identity id) votes = Ok ∅ /\
  ~ reaches (MkDoc (R := R) 0%N None p (from_identity id)) sigs /\
  exists x, try_from_iter [inr id] = Ok x /\
    forall k, k ∈ delegations (doc id) -> indirect_eligible x {[ k ]} = Ok {[ k ]}.
Proof.
  assert (forall v, indirect_eligible (from_identity id) v = Ok ∅) as He.
  { intros v. apply indirect_eligible_spec. simpl. rewrite dom_empty_L. split; [set_solver|].
    intros (k & k' & n & _ & _ & _ & Hk & _). simpl in Hk. by rewrite lookup_empty in Hk. }
  split_and!; [done| |].
  - intros (e & Hel & Hq). cbn in Hel. rewrite He in Hel. injection Hel as <-.
    rewrite size_empty in Hq. lia.
  - exists (built [inr id]).
    assert (buildable [inr id]) as Hb.
    { split_and!; [|apply NoDup_singleton|done]. simpl. rewrite app_nil_r, <- list_fmap_compose.
      rewrite (list_fmap_ext _ (fun k => k)), list_fmap_id by done. apply bset_iter_nodup. }
    split; [by apply try_from_iter_spec|]. intros k Hk. apply indirect_eligible_spec. split.
    + assert (k ∈ dom (key_owner (built [inr id]))) as Hin; [|set_solver].
      apply elem_of_dom. exists (Some 0%nat). apply built_lookup, elem_of_entries; [done|].
      right. by exists 0, id.
    + intros (k1 & k2 & n & Hne & H1 & H2 & _). set_solver.
Qed.

(** ** Theorems about verification *)

Section Claims.
Context {T R C Sig E H : Type} `{EqDecision R} `{DelegationsLaws T E} `{Replaces T R}.
Context (sig_verify : Sig -> R -> N -> bool).
Abbreviation Id := (Identity T R C Sig) (only parsing).
Abbreviation History := (list (result H (Verifying (Identity T R C Sig) Untrusted))) (only parsing).

(** [verified_exact]: an untrusted identity passes all stages exactly when it has a
    signature, all its signatures are valid for its revision, its signers are a
    quorum of its own delegations, and either it is initial and comes without a
    parent, or the parent has the same root and the replaced revision and its
    signers are also a quorum of the parent's delegations. *)
Theorem verified_exact (i : Id) (par : option Id) :
  is_ok (untrusted_verified (H := H) sig_verify (from_untrusted i) (MkVerifying Verified <$> par)) = true
  <-> succeeds sig_verify i par.
Proof.
  assert (inner <$> (MkVerifying Verified <$> par) = par) as Hpar by (by destruct par).
  destruct (untrusted_verified _ _ _) as [w|e] eqn:Hw; simpl.
  - apply untrusted_verified_spec in Hw as [_ Hw]. simpl inner in Hw. rewrite Hpar in Hw. by split.
  - split; [done|]. intros Hs.
    assert (untrusted_verified (H := H) sig_verify (from_untrusted i) (MkVerifying Verified <$> par) =
      Ok (MkVerifying Verified i)) as Hok; [|congruence].
    apply untrusted_verified_spec. split; [done|]. by rewrite Hpar.
Qed.

(** [verify_chain]: verifying a history from a verified initial revision returns
    the head of a chain of revisions in which every one is signed, reaches a quorum
    of its own delegations and, but for the first, of its predecessor's, replaces
    the predecessor and shares its root; the returned parent is the head's
    predecessor in it. *)
Theorem verify_chain (first : Id) (progeny : History) v folded :
  untrusted_verified (H := H) sig_verify (from_untrusted first) None = Ok v ->
  verify sig_verify v progeny = Ok folded ->
  chain sig_verify (inner (Identity.head folded)) (inner <$> parent folded).
Proof.
  intros [-> Hs]%untrusted_verified_spec Hv. eapply try_fold_chain; [exact Hv|].
  by apply chain_root.
Qed.

(** [proposals_skipped]: signed identities that do not reach a quorum of their own
    delegations can be anywhere in a history without any effect on the result. *)
Theorem proposals_skipped (v : Verifying Id Verified) (xs ys : History) p s e :
  signed (E := E) (H := H) sig_verify p = Ok s -> quorum (H := H) s = Err e ->
  verify sig_verify v (xs ++ Ok p :: ys) = verify sig_verify v (xs ++ ys).
Proof.
  intros Hs Hq. unfold verify. rewrite !try_fold_app.
  destruct (try_fold sig_verify _ xs) as [acc|]; [|done]. cbn [mbind result_bind try_fold].
  assert (verify_step (H := H) sig_verify acc (Ok p) = Ok acc) as Hstep; [|by rewrite Hstep].
  unfold verify_step. cbn [map_err mbind result_bind]. rewrite Hs. cbn [mbind result_bind].
  by rewrite Hq.
Qed.

(** [verify_fails_only_on]: a history is refused only for an element that cannot be
    read, is not signed by valid signatures, or has a quorum of its own without
    being a confirmation of the head reached so far nor a valid successor of it. *)
Theorem verify_fails_only_on (v : Verifying Id Verified) (progeny : History) err :
  verify sig_verify v progeny = Err err ->
  exists xs cur ys acc, progeny = xs ++ cur :: ys /\ verify sig_verify v xs = Ok acc /\
    ((exists h, cur = Err h) \/
     exists u, cur = Ok u /\
       (~ well_signed sig_verify (inner u) \/
        reaches (doc (inner u)) (signatures (inner u)) /\
        ~ (revision (inner u) = revision (inner (Identity.head acc)) /\
           replaces (doc (inner u)) = replaces (doc (inner (Identity.head acc)))) /\
        ~ succeeds sig_verify (inner u) (Some (inner (Identity.head acc))))).
Proof.
  unfold verify. generalize (MkFolded v None) as acc. intros acc Hf.
  revert acc Hf. induction progeny as [|cur progeny IH]; intros acc Hf; [done|].
  cbn [try_fold] in Hf. destruct (verify_step sig_verify acc cur) as [acc'|e] eqn:Hs.
  - destruct (IH acc' Hf) as (xs & cur' & ys & acc'' & -> & Hxs & Hcase).
    exists (cur :: xs), cur', ys, acc''. split_and!; [done| |done]. cbn [try_fold]. by rewrite Hs.
  - exists [], cur, progeny, acc. split_and!; [done|done|].
    destruct cur as [u|h]; [right|left; eauto]. exists u. split; [done|].
    unfold verify_step in Hs. cbn [map_err mbind result_bind] in Hs.
    destruct (signed (E := E) (H := H) sig_verify u) as [s|e1] eqn:Hsig.
    2: { left. intros Hw. assert (signed (E := E) (H := H) sig_verify u = Ok (MkVerifying Signed (inner u))) as Hok
           by (by apply signed_spec). congruence. }
    right. apply signed_spec in Hsig as [-> Hw]. cbn [mbind result_bind] in Hs.
    destruct (quorum _) as [q|e1] eqn:Hq; [|done]. apply quorum_spec in Hq as [-> Hr].
    cbn [inner] in *. split; [done|]. destruct (_ && _) eqn:Hsame; [by case_match|].
    split.
    + intros [Hrev Hrep]. by rewrite !bool_decide_eq_true_2 in Hsame.
    + intros (_ & _ & Hsucc). destruct (verified _ _) as [w|e1] eqn:Hv; [done|].
      assert (verified (H := H) (MkVerifying Quorum (inner u)) (Some (Identity.head acc)) =
        Ok (MkVerifying Verified (inner u))) as Hok by (by apply verified_spec). congruence.
Qed.

(** C5 [fork_needs_common_delegate]: two identities that both verify as successors of
    the same revision are both signed by keys of one delegate of that revision: the
    delegates cannot be split into two groups that each move the identity on. *)
Theorem fork_needs_common_delegate (p i j : Id) vi vj :
  well_formed (doc p) ->
  untrusted_verified (H := H) sig_verify (from_untrusted i) (Some (MkVerifying Verified p)) = Ok vi ->
  untrusted_verified (H := H) sig_verify (from_untrusted j) (Some (MkVerifying Verified p)) = Ok vj ->
  exists k k' d, delegate_of (doc p) k = d /\ delegate_of (doc p) k' = d /\ d ∈ delegates (doc p) /\
    (exists s, signatures i !! k = Some s /\ sig_verify s (revision i) k = true) /\
    (exists s, signatures j !! k' = Some s /\ sig_verify s (revision j) k' = true).
Proof.
  intros Hwf [_ ([_ Hi] & _ & _ & _ & e1 & He1 & Hn1)]%untrusted_verified_spec
    [_ ([_ Hj] & _ & _ & _ & e2 & He2 & Hn2)]%untrusted_verified_spec.
  destruct (quorums_meet _ _ _ _ _ Hwf He1 He2 Hn1 Hn2)
    as (k1 & k2 & [s1 Hk1]%elem_of_dom & [s2 Hk2]%elem_of_dom & Heq & Hin).
  exists k1, k2, (delegate_of (doc p) k1). split_and!; [done|done|done| |]; eauto.
Qed.
End Claims.

(** A history: a successor of [person_example] approved by both keys, and a proposal
    only one key has signed. *)
Definition sum_verify (s r k : N) : bool := N.eqb s (r + k).
Definition successor_example : Identity (Doc unit (gset N) N) N N N :=
  (MkIdentity 11 7 20 (MkDoc 0 (Some 7) tt {[ 1 ]}) {[ 1 := 21; 2 := 22 ]})%N.
Definition proposal_example : Identity (Doc unit (gset N) N) N N N :=
  (MkIdentity 12 7 30 (MkDoc 0 (Some 7) tt {[ 1; 2 ]}) {[ 1 := 31 ]})%N.

Lemma verify_chain_witness :
  exists folded,
    verify (H := unit) sum_verify (MkVerifying Verified person_example)
      [Ok (from_untrusted proposal_example); Ok (from_untrusted successor_example)] = Ok folded /\
    inner (Identity.head folded) = successor_example /\
    chain sum_verify (inner (Identity.head folded)) (inner <$> parent folded).
Proof.
  exists (MkFolded (MkVerifying Verified successor_example)
            (Some (MkVerifying Verified person_example))).
  assert (verify (H := unit) sum_verify (MkVerifying Verified person_example)
      [Ok (from_untrusted proposal_example); Ok (from_untrusted successor_example)] =
    Ok (MkFolded (MkVerifying Verified successor_example)
          (Some (MkVerifying Verified person_example)))) as Hv by (vm_compute; reflexivity).
  split; [exact Hv|]. split; [reflexivity|].
  refine (verify_chain (H := unit) sum_verify person_example _ _ _ _ Hv). vm_compute. reflexivity.
Defined.

Lemma proposals_skipped_witness :
  verify (H := unit) sum_verify (MkVerifying Verified person_example)
    ([] ++ Ok (from_untrusted proposal_example) :: [Ok (from_untrusted successor_example)]) =
  verify (H := unit) sum_verify (MkVerifying Verified person_example)
    ([] ++ [Ok (from_untrusted successor_example)]).
Proof.
  eapply (proposals_skipped (H := unit) sum_verify); vm_compute; reflexivity.
Defined.

Lemma verify_fails_only_on_witness :
  exists xs cur ys acc,
    [Ok (from_untrusted successor_example); Err tt] = xs ++ cur :: ys /\
    verify sum_verify (MkVerifying Verified person_example) xs = Ok acc /\
    ((exists h, cur = Err h) \/
     exists u, cur = Ok u /\
       (~ well_signed sum_verify (inner u) \/
        reaches (doc (inner u)) (signatures (inner u)) /\
        ~ (revision (inner u) = revision (inner (Identity.head acc)) /\
           replaces (doc (inner u)) = replaces (doc (inner (Identity.head acc)))) /\
        ~ succeeds sum_verify (inner u) (Some (inner (Identity.head acc))))).
Proof.
  eapply (verify_fails_only_on (H := unit) sum_verify). vm_compute. reflexivity.
Defined.

Lemma fork_needs_common_delegate_witness :
  exists k k' d, delegate_of (doc person_example) k = d /\ delegate_of (doc person_example) k' = d /\
    d ∈ delegates (doc person_example) /\
    (exists s, signatures successor_example !! k = Some s /\ sum_verify s (revision successor_example) k = true) /\
    (exists s, signatures successor_example !! k' = Some s /\ sum_verify s (revision successor_example) k' = true).
Proof.
  eapply (fork_needs_common_delegate (H := unit) sum_verify person_example).
  - simpl. intros Hx. by apply (f_equal size) in Hx.
  - vm_compute. reflexivity.
  - vm_compute. reflexivity.
Defined.
