(* ===== verification/GitIdentity.v ===== *)
(** * Identities in git

    [link-identities/src/git.rs] and [git/iter.rs]: verifying the history of a
    commit, resolving the delegations of a project, choosing the newer of two
    identities, approving and merging foreign identities.  A repository is its
    commits and the names of its trees; libgit2 is a parameter where it does more
    than look an object up: the hash of a commit, the order of a revision walk, the
    descendant relation.  Reading an identity from a commit is the trait bound
    [TryFrom<ByOid>] of the code, here a parameter too. *)
From stdpp Require Import base list gmap fin_sets.
From Stdlib Require Import NArith Lia.
From S2P Require Import Prelude Identity Delegation.
Import Direct Indirect.

(** Revisions (trees) and content ids (commits) are object ids. *)
Abbreviation Oid := N (only parsing).

Inductive Message :=
| ApprovedForeign (root content_id revision : Oid)
| UpdatedSignatures (from : Oid)
| ApprovedRevision (revision from : Oid).

Record Commit (Sig : Type) : Type := MkCommit {
  c_tree : Oid;
  c_parents : list Oid;
  c_message : Message;
  c_signatures : gmap N Sig;
}.
Arguments MkCommit {Sig} _ _ _ _.
Arguments c_tree {Sig} _.
Arguments c_parents {Sig} _.
Arguments c_message {Sig} _.
Arguments c_signatures {Sig} _.

Record Repo (Sig : Type) : Type := MkRepo {
  commits : gmap Oid (Commit Sig);
  trees : gset Oid;
}.
Arguments MkRepo {Sig} _ _.
Arguments commits {Sig} _.
Arguments trees {Sig} _.

Inductive Merge (G S : Type) : Type :=
| ForeignBase
| MergeRootMismatch
| RevisionMismatch
| MergeSigner (e : S)
| MergeGit (e : G).
Arguments ForeignBase {G S}.
Arguments MergeRootMismatch {G S}.
Arguments RevisionMismatch {G S}.
Arguments MergeSigner {G S} e.
Arguments MergeGit {G S} e.

Inductive Store (G S L J : Type) : Type :=
| StoreLoad (e : L)
| StoreSigner (e : S)
| StoreCjson (e : J)
| StoreGit (e : G).
Arguments StoreLoad {G S L J} e.
Arguments StoreSigner {G S L J} e.
Arguments StoreCjson {G S L J} e.
Arguments StoreGit {G S L J} e.

Inductive VerifyPerson (V G : Type) : Type :=
| NotInAncestryPath (urn revision known_head latest_head : Oid)
| PersonVerification (e : V)
| PersonGit (e : G).
Arguments NotInAncestryPath {V G} _ _ _ _.
Arguments PersonVerification {V G} e.
Arguments PersonGit {V G} e.

Inductive VerifyProject (F V P D L G : Type) : Type :=
| Lookup (e : F)
| ProjectVerification (e : V)
| ProjectPerson (e : P)
| ProjectDelegation (e : D)
| ProjectLoad (e : L)
| ProjectGit (e : G).
Arguments Lookup {F V P D L G} e.
Arguments ProjectVerification {F V P D L G} e.
Arguments ProjectPerson {F V P D L G} e.
Arguments ProjectDelegation {F V P D L G} e.
Arguments ProjectLoad {F V P D L G} e.
Arguments ProjectGit {F V P D L G} e.

(** The actions of [update_from]. *)
Inductive Action := Uptodate | FastFwd | SlowFwd | SuccRev.

(** A [Signer]: its key, and signing a revision, which may fail. *)
Record Signer (Sig S : Type) : Type := MkSigner {
  public_key : N;
  sign_bytes : Oid -> result S Sig;
}.
Arguments MkSigner {Sig S} _ _.
Arguments public_key {Sig S} _.
Arguments sign_bytes {Sig S} _ _.

Definition sign {Sig S} (signer : Signer Sig S) (rev : Oid) : result S (N * Sig) :=
  (fun sig => (public_key signer, sig)) <$> sign_bytes signer rev.

Section Git.
Context {Sig S GitError LoadError CjsonError : Type}.
Context (sig_verify : Sig -> Oid -> N -> bool).
(** libgit2 *)
Context (not_found : GitError).
Context (commit_id : Commit Sig -> Oid).
Context (repo_signature : result GitError unit).
Context (graph_descendant_of : Repo Sig -> Oid -> Oid -> result GitError bool).
Context (revwalk : Repo Sig -> Oid -> result GitError (list (result GitError Oid))).
Context (revwalk_first_parent : Repo Sig -> Oid -> result GitError (list (result GitError Oid))).
Context (load_git : GitError -> LoadError).

Definition find_commit (repo : Repo Sig) (oid : Oid) : result GitError (Commit Sig) :=
  ok_or (commits repo !! oid) not_found.

Definition find_tree (repo : Repo Sig) (oid : Oid) : result GitError Oid :=
  if bool_decide (oid ∈ trees repo) then Ok oid else Err not_found.

Section Generic.
Context {T E : Type} `{Delegations T E} `{Replaces T Oid}.
Context (try_from_oid : Repo Sig -> Oid -> result LoadError (Identity T Oid Oid Sig)).
Abbreviation GitId := (Identity T Oid Oid Sig) (only parsing).

(** [Iter::next] on one result of the walk, and [Iter::new] with the walk it
    yields. *)
Definition iter_next (repo : Repo Sig) (oid : result GitError Oid) :
    result LoadError (Verifying GitId Untrusted) :=
  o ← map_err load_git oid; from_untrusted <$> try_from_oid repo o.

Definition iter_new (repo : Repo Sig) (hd : Oid) :
    result LoadError (list (result LoadError (Verifying GitId Untrusted))) :=
  map (iter_next repo) <$> map_err load_git (revwalk_first_parent repo hd).

Definition fold_verify_generic (repo : Repo Sig) (hd : Oid) :
    result (Verify Oid Oid E LoadError) (Folded GitId) :=
  progeny ← map_err History (iter_new repo hd);
  match progeny with
  | [] => Err EmptyHistory
  | first :: progeny =>
      first ← map_err History first;
      s ← signed sig_verify first;
      q ← quorum s;
      root ← verified q None;
      verify sig_verify root progeny
  end.

Definition verify_generic (repo : Repo Sig) (hd : Oid) :
    result (Verify Oid Oid E LoadError) (Verifying GitId Verified) :=
  Identity.head <$> fold_verify_generic repo hd.

(** The loop of [is_in_ancestry_path]. *)
Fixpoint find_tree_in (repo : Repo Sig) (tree : Oid) (walk : list (result GitError Oid)) :
    result GitError bool :=
  match walk with
  | [] => Ok false
  | oid :: walk =>
      oid ← oid;
      commit ← find_commit repo oid;
      if bool_decide (tree = c_tree commit) then Ok true else find_tree_in repo tree walk
  end.

Definition is_in_ancestry_path (repo : Repo Sig) (commit tree : Oid) : result GitError bool :=
  c ← find_commit repo commit;
  if bool_decide (tree = c_tree c) then Ok true
  else walk ← revwalk repo commit; find_tree_in repo tree walk.

(** [None] is the error [Fork]. *)
Definition newer (repo : Repo Sig) (left right : GitId) : result GitError (option GitId) :=
  b ← is_in_ancestry_path repo (content_id left) (revision right);
  if (b : bool) then Ok (Some left)
  else
    b ← is_in_ancestry_path repo (content_id right) (revision left);
    if (b : bool) then Ok (Some right) else Ok None.

Fixpoint find_commits (repo : Repo Sig) (oids : list Oid) : result GitError (list Oid) :=
  match oids with
  | [] => Ok []
  | oid :: oids => _ ← find_commit repo oid; rest ← find_commits repo oids; Ok (oid :: rest)
  end.

(** The content id, and the repository with the new commit. *)
Definition commit (message : Message) (sigs : gmap N Sig) (revision : Oid) (parents : list GitId)
    (repo : Repo Sig) : result GitError (Oid * Repo Sig) :=
  tree ← find_tree repo revision;
  parents ← find_commits repo (content_id <$> parents);
  _ ← repo_signature;
  let c := MkCommit tree parents message sigs in
  Ok (commit_id c, MkRepo (<[commit_id c := c]> (commits repo)) (trees repo)).

Definition with_commit (i : GitId) (content_id : Oid) (sigs : gmap N Sig) : GitId :=
  MkIdentity content_id (root i) (revision i) (doc i) sigs.

Definition create_from (theirs : Verifying GitId Signed) (signer : Signer Sig S) (repo : Repo Sig) :
    result (Store GitError S LoadError CjsonError) (GitId * Repo Sig) :=
  let theirs := inner theirs in
  sig ← map_err StoreSigner (sign signer (revision theirs));
  let sigs := sigs_extend (signatures theirs) [sig] in
  '(cid, repo) ← map_err StoreGit
    (commit (ApprovedForeign (root theirs) (content_id theirs) (revision theirs)) sigs
       (revision theirs) [theirs] repo);
  Ok (with_commit theirs cid sigs, repo).

Definition choose_action (ours theirs : GitId) (our_pk : N) (repo : Repo Sig) :
    result (Merge GitError S) Action :=
  if negb (bool_decide (is_Some (signatures ours !! our_pk))) then Err ForeignBase
  else if bool_decide (root ours <> root theirs) then Err MergeRootMismatch
  else
    up ← map_err MergeGit (graph_descendant_of repo (content_id ours) (content_id theirs));
    if (up : bool) then Ok Uptodate
    else
      ff ← (if bool_decide (is_Some (signatures theirs !! our_pk))
            then map_err MergeGit (graph_descendant_of repo (content_id theirs) (content_id ours))
            else Ok false);
      if (ff : bool) then Ok FastFwd
      else if bool_decide (revision ours = revision theirs) then Ok SlowFwd
      else if bool_decide (Some (revision ours) = replaces (doc theirs)) then Ok SuccRev
      else Err RevisionMismatch.

Definition update_from (ours theirs : Verifying GitId Signed) (signer : Signer Sig S)
    (repo : Repo Sig) : result (Merge GitError S) (GitId * Repo Sig) :=
  let ours := inner ours in
  let theirs := inner theirs in
  action ← choose_action ours theirs (public_key signer) repo;
  match action with
  | Uptodate => Ok (ours, repo)
  | FastFwd => Ok (theirs, repo)
  | SlowFwd =>
      let sigs := sigs_extend (signatures ours) (btree_iter (signatures theirs)) in
      '(cid, repo) ← map_err MergeGit
        (commit (UpdatedSignatures (content_id theirs)) sigs (revision ours) [ours] repo);
      Ok (with_commit ours cid sigs, repo)
  | SuccRev =>
      sig ← map_err MergeSigner (sign signer (revision theirs));
      let sigs := sigs_extend (signatures theirs) [sig] in
      '(cid, repo) ← map_err MergeGit
        (commit (ApprovedRevision (revision theirs) (content_id theirs)) sigs (revision theirs)
           [ours; theirs] repo);
      Ok (with_commit theirs cid sigs, repo)
  end.
End Generic.

(** ** Projects *)

Section Project.
Context {P Q F : Type}.
Abbreviation Person := (Identity (Doc Q (gset N) Oid) Oid Oid Sig) (only parsing).
Abbreviation Project := (Identity (Doc P (Indirect Q Oid Oid Sig) Oid) Oid Oid Sig) (only parsing).
Context (person_from_oid : Repo Sig -> Oid -> result LoadError Person).
Context (project_from_oid : Repo Sig -> Oid -> result LoadError Project).

Abbreviation PersonError :=
  (VerifyPerson (Verify Oid Oid Empty_set LoadError) GitError) (only parsing).
Abbreviation ProjectError :=
  (VerifyProject F (Verify Oid Oid DoubleVote LoadError)
     (VerifyPerson (Verify Oid Oid Empty_set LoadError) GitError) (FromIterError Oid)
     LoadError GitError) (only parsing).

Definition verify_person (repo : Repo Sig) (hd : Oid) : result PersonError (Verifying Person Verified) :=
  map_err PersonVerification (verify_generic person_from_oid repo hd).

Definition updated_person (repo : Repo Sig) (known : Person) (latest_head : Oid) :
    result PersonError (Verifying Person Verified) :=
  b ← map_err PersonGit (is_in_ancestry_path repo latest_head (revision known));
  if (b : bool) then verify_person repo latest_head
  else Err (NotInAncestryPath (root known) (revision known) (content_id known) latest_head).

(** The loop of [resolve_delegation_updates]. *)
Fixpoint resolve_loop (repo : Repo Sig) (find_latest_head : Oid -> result F Oid)
    (current : list (N + Person)) (updated : list (N + Person)) :
    result ProjectError (list (N + Person)) :=
  match current with
  | [] => Ok updated
  | inr id :: current =>
      hd ← map_err Lookup (find_latest_head (root id));
      v ← map_err ProjectPerson (updated_person repo id hd);
      resolve_loop repo find_latest_head current (updated ++ [inr (inner v)])
  | inl key :: current => resolve_loop repo find_latest_head current (updated ++ [inl key])
  end.

Definition resolve_delegation_updates (repo : Repo Sig) (find_latest_head : Oid -> result F Oid)
    (current : Indirect Q Oid Oid Sig) : result ProjectError (Indirect Q Oid Oid Sig) :=
  updated ← resolve_loop repo find_latest_head (indirect_iter current) [];
  map_err ProjectDelegation (try_from_iter updated).

Definition verify_project (repo : Repo Sig) (find_latest_head : Oid -> result F Oid) (hd : Oid) :
    result ProjectError (Verifying Project Verified) :=
  folded ← map_err ProjectVerification (fold_verify_generic project_from_oid repo hd);
  h ← transpose (identity_map
        (fun d => try_second (resolve_delegation_updates repo find_latest_head) d)
        (inner (Identity.head folded)));
  map_err ProjectVerification
    (s ← signed sig_verify (from_untrusted h); q ← quorum s; verified q (parent folded)).
End Project.

(** ** Ancestry *)

Inductive ancestor (repo : Repo Sig) : Oid -> Oid -> Prop :=
| ancestor_refl a c : commits repo !! a = Some c -> ancestor repo a a
| ancestor_step a c p b :
    commits repo !! a = Some c -> p ∈ c_parents c -> ancestor repo p b -> ancestor repo a b.

(** What the revision walk documents: it yields the commits reachable from the one
    it starts at. *)
Definition walk_complete (repo : Repo Sig) : Prop :=
  forall c w o, revwalk repo c = Ok w -> Ok o ∈ w <-> ancestor repo c o.

(** An ancestor of [c] has the tree [t]. *)
Definition in_ancestry (repo : Repo Sig) (c t : Oid) : Prop :=
  exists o cm, ancestor repo c o /\ commits repo !! o = Some cm /\ c_tree cm = t.

Lemma find_commit_ok repo o c : find_commit repo o = Ok c <-> commits repo !! o = Some c.
Proof. unfold find_commit. destruct (commits repo !! o); simpl; split; congruence. Qed.

Lemma find_tree_in_spec repo t w b :
  find_tree_in repo t w = Ok b ->
  if b then exists o c, Ok o ∈ w /\ commits repo !! o = Some c /\ c_tree c = t
  else forall o, Ok o ∈ w -> exists c, commits repo !! o = Some c /\ c_tree c <> t.
Proof.
  induction w as [|[o|e] w IH]; intros Hf; simpl in Hf; simplify_eq.
  - by intros o ?%elem_of_nil.
  - apply res_bind_ok in Hf as (c & Hc%find_commit_ok & Hf). case_bool_decide as Ht.
    + injection Hf as <-. exists o, c. split_and!; [left|done|done].
    + apply IH in Hf. destruct b.
      * destruct Hf as (o' & c' & ? & ?). exists o', c'. split; [by right|done].
      * intros o' [[= ->]|Hin]%elem_of_cons; [|by apply Hf]. exists c. split; [done|congruence].
Qed.

Lemma ancestry_spec repo c t b :
  walk_complete repo -> is_in_ancestry_path repo c t = Ok b ->
  if b then in_ancestry repo c t else ~ in_ancestry repo c t.
Proof.
  intros Hw. unfold is_in_ancestry_path. intros (cm & Hc%find_commit_ok & Hf)%res_bind_ok.
  case_bool_decide as Ht.
  - injection Hf as <-. exists c, cm. split_and!; [by eapply ancestor_refl|done|done].
  - apply res_bind_ok in Hf as (w & Hwalk & Hf%find_tree_in_spec). destruct b.
    + destruct Hf as (o & c' & Hin & Ho & Htree). exists o, c'. split_and!; [|done|done].
      by apply (Hw c w o).
    + intros (o & c' & Hanc & Ho & Htree). apply (Hw c w o) in Hanc; [|done].
      destruct (Hf o Hanc) as (c'' & ? & ?). congruence.
Qed.

(** ** Histories *)

Section GenericProofs.
Context {T E : Type} `{Delegations T E} `{Replaces T Oid}.
Context (try_from_oid : Repo Sig -> Oid -> result LoadError (Identity T Oid Oid Sig)).
Implicit Type i j ours theirs : Identity T Oid Oid Sig.

(** [i] is the identity read from a commit of the walk from [hd]. *)
Definition in_history (repo : Repo Sig) (hd : Oid) i : Prop :=
  exists w o, revwalk_first_parent repo hd = Ok w /\ Ok o ∈ w /\ try_from_oid repo o = Ok i.

Lemma step_members (Pr : Identity T Oid Oid Sig -> Prop) acc cur acc' :
  verify_step (H := LoadError) sig_verify acc cur = Ok acc' ->
  (forall v, cur = Ok v -> Pr (inner v)) ->
  Pr (inner (Identity.head acc)) -> (forall p, parent acc = Some p -> Pr (inner p)) ->
  Pr (inner (Identity.head acc')) /\ (forall p, parent acc' = Some p -> Pr (inner p)).
Proof.
  intros (v & Hcur & _ & [->|[(_ & _ & ->)|[_ ->]]])%verify_step_spec Hv Hh Hp; simpl; auto.
  split; [by apply Hv|]. by intros p [= <-].
Qed.

Lemma fold_members (Pr : Identity T Oid Oid Sig -> Prop) progeny : forall acc folded,
  try_fold (H := LoadError) sig_verify acc progeny = Ok folded ->
  (forall v, Ok v ∈ progeny -> Pr (inner v)) ->
  Pr (inner (Identity.head acc)) -> (forall p, parent acc = Some p -> Pr (inner p)) ->
  Pr (inner (Identity.head folded)) /\ (forall p, parent folded = Some p -> Pr (inner p)).
Proof.
  induction progeny as [|cur progeny IH]; intros acc folded Hf Hv Hh Hp; simpl in Hf; [by simplify_eq|].
  apply res_bind_ok in Hf as (acc' & Hs & Hf).
  destruct (step_members Pr acc cur acc' Hs) as [Hh' Hp']; [|done|done|].
  - intros v ->. apply Hv. left.
  - eapply IH; [done| |done|done]. intros v Hin. apply Hv. by right.
Qed.

Lemma fold_verify_spec repo hd folded :
  fold_verify_generic try_from_oid repo hd = Ok folded ->
  chain sig_verify (inner (Identity.head folded)) (inner <$> parent folded) /\
  in_history repo hd (inner (Identity.head folded)) /\
  (forall p, parent folded = Some p -> in_history repo hd (inner p)).
Proof.
  unfold fold_verify_generic, iter_new. destruct (revwalk_first_parent repo hd) as [w|e] eqn:Hw; [|done].
  cbn [map_err fmap result_fmap mbind result_bind]. destruct w as [|first w]; [done|]. cbn [map].
  destruct (iter_next try_from_oid repo first) as [v|e] eqn:Hv; [|done].
  cbn [map_err mbind result_bind]. intros (s & Hs & (q & Hq & (r & Hr & Hf)%res_bind_ok)%res_bind_ok)%res_bind_ok.
  assert (untrusted_verified (H := LoadError) sig_verify v None = Ok r) as Huv.
  { unfold untrusted_verified. rewrite Hs. cbn [mbind result_bind]. rewrite Hq. done. }
  apply untrusted_verified_spec in Huv as [-> Hsucc]. simpl in Hsucc.
  assert (forall o u, iter_next try_from_oid repo o = Ok u -> o ∈ first :: w ->
    in_history repo hd (inner u)) as Hin.
  { intros [o|e] u Hu Ho; unfold iter_next in Hu; [|done]. cbn [map_err mbind result_bind] in Hu.
    destruct (try_from_oid repo o) as [i|e] eqn:Hi; [|done]. injection Hu as <-.
    by exists (first :: w), o. }
  split; [|eapply (fold_members (in_history repo hd)); [exact Hf| |by eapply Hin; [done|left]|done]].
  - eapply try_fold_chain; [exact Hf|]. by apply chain_root.
  - intros u Hu. apply list_elem_of_In, in_map_iff in Hu as (o & Ho & Hino).
    eapply Hin; [exact Ho|]. right. by apply list_elem_of_In.
Qed.

(** ** Commits and signatures *)

Lemma find_commits_ok repo oids l : find_commits repo oids = Ok l -> l = oids.
Proof.
  revert l. induction oids as [|o oids IH]; intros l Hf; simpl in Hf; [congruence|].
  apply res_bind_ok in Hf as (c & _ & Hf). apply res_bind_ok in Hf as (rest & Hr & Hf).
  apply IH in Hr as ->. congruence.
Qed.

(** The repository with the commit [c] written. *)
Definition written_commit (repo : Repo Sig) (c : Commit Sig) : Repo Sig :=
  MkRepo (<[commit_id c := c]> (commits repo)) (trees repo).

Lemma commit_ok msg sigs rev (ps : list (Identity T Oid Oid Sig)) repo cid repo' :
  commit msg sigs rev ps repo = Ok (cid, repo') ->
  let c := MkCommit rev (content_id <$> ps) msg sigs in
  rev ∈ trees repo /\ cid = commit_id c /\ repo' = written_commit repo c.
Proof.
  unfold commit, find_tree. case_bool_decide as Ht; [|done]. cbn [mbind result_bind].
  intros (l & ->%find_commits_ok & (u & _ & Hc)%res_bind_ok)%res_bind_ok.
  injection Hc as <- <-. done.
Qed.

Lemma sigs_extend_one (m : gmap N Sig) k s : sigs_extend m [(k, s)] = <[k := s]> m.
Proof. done. Qed.

Lemma sigs_extend_all (m m' : gmap N Sig) : sigs_extend m (btree_iter m') = m' ∪ m.
Proof.
  assert (forall l (m : gmap N Sig), NoDup l.*1 -> sigs_extend m l = list_to_map l ∪ m) as Hl.
  { induction l as [|[k s] l IH]; intros m0 Hnd; [simpl; by rewrite (left_id_L ∅ (∪))|].
    rewrite fmap_cons in Hnd. apply NoDup_cons in Hnd as [Hk Hnd]. cbn [sigs_extend foldl].
    change (sigs_extend (<[k := s]> m0) l = list_to_map ((k, s) :: l) ∪ m0).
    rewrite IH by done. cbn [list_to_map foldr fst snd].
    rewrite <- insert_union_r by (by apply not_elem_of_list_to_map_1). by rewrite insert_union_l. }
  rewrite Hl by (rewrite btree_iter_fst; apply btree_keys_nodup). f_equal.
  apply map_eq. intros k. apply option_eq. intros s. rewrite <- (elem_of_btree_iter m').
  symmetry. apply elem_of_list_to_map. rewrite btree_iter_fst. apply btree_keys_nodup.
Qed.

(** A signer whose signatures verify. *)
Definition honest (signer : Signer Sig S) : Prop :=
  forall rev s, sign_bytes signer rev = Ok s -> sig_verify s rev (public_key signer) = true.

Lemma well_signed_add i cid k s :
  well_signed sig_verify i -> sig_verify s (revision i) k = true ->
  well_signed sig_verify (with_commit i cid (<[k := s]> (signatures i))).
Proof.
  intros [_ Hi] Hs. split; [apply insert_non_empty|]. simpl. intros k' s'.
  rewrite lookup_insert_Some. intros [[<- <-]|[_ ?]]; auto.
Qed.

Lemma well_signed_union i j cid :
  well_signed sig_verify i -> well_signed sig_verify j -> revision i = revision j ->
  well_signed sig_verify (with_commit i cid (signatures j ∪ signatures i)).
Proof.
  intros [Hne Hi] [_ Hj] Hrev. split; simpl.
  - intros Hu. apply Hne. apply map_eq. intros k. rewrite lookup_empty.
    apply (f_equal (fun m => m !! k)) in Hu. rewrite lookup_empty, lookup_union_None in Hu. by destruct Hu.
  - intros k s. rewrite lookup_union_Some_raw, Hrev. intros [?|[_ ?]]; [auto|].
    rewrite <- Hrev. auto.
Qed.

Lemma choose_action_ok ours theirs pk repo a :
  choose_action ours theirs pk repo = Ok a ->
  is_Some (signatures ours !! pk) /\ root ours = root theirs /\
  match a with
  | Uptodate => graph_descendant_of repo (content_id ours) (content_id theirs) = Ok true
  | FastFwd => is_Some (signatures theirs !! pk) /\
      graph_descendant_of repo (content_id theirs) (content_id ours) = Ok true
  | SlowFwd => revision ours = revision theirs
  | SuccRev => replaces (doc theirs) = Some (revision ours)
  end.
Proof.
  unfold choose_action. case_bool_decide as Hpk; [simpl|done]. case_bool_decide as Hroot; [done|].
  intros (up & Hup & Hrest)%res_bind_ok. split; [done|]. split; [done|].
  destruct up.
  { injection Hrest as <-. by destruct (graph_descendant_of _ _ _); simplify_eq/=. }
  apply res_bind_ok in Hrest as (ff & Hff & Hrest). destruct ff.
  { injection Hrest as <-. case_bool_decide; [|done]. split; [done|].
    by destruct (graph_descendant_of repo (content_id theirs) _); simplify_eq/=. }
  case_bool_decide; [by injection Hrest as <-|]. case_bool_decide; [by injection Hrest as <-|done].
Qed.

(** C6 [history_verified]: the identity a history verifies to is read from a commit of
    the walk, and is the head of a chain of quorum-approved revisions whose
    predecessor is read from the walk as well. *)
Theorem history_verified repo hd folded :
  fold_verify_generic try_from_oid repo hd = Ok folded ->
  chain sig_verify (inner (Identity.head folded)) (inner <$> parent folded) /\
  in_history repo hd (inner (Identity.head folded)) /\
  verify_generic try_from_oid repo hd = Ok (Identity.head folded).
Proof.
  intros Hf. pose proof (fold_verify_spec _ _ _ Hf) as (? & ? & _). split_and!; [done|done|].
  unfold verify_generic. by rewrite Hf.
Qed.

(** [newer_by_ancestry]: of two identities the one whose history contains the
    other's revision is the newer one, the left one if both do; if neither does it
    is a fork. *)
Theorem newer_by_ancestry repo (left right : Identity T Oid Oid Sig) r :
  walk_complete repo -> newer repo left right = Ok r ->
  match r with
  | Some i =>
      i = left /\ in_ancestry repo (content_id left) (revision right) \/
      i = right /\ in_ancestry repo (content_id right) (revision left) /\
        ~ in_ancestry repo (content_id left) (revision right)
  | None =>
      ~ in_ancestry repo (content_id left) (revision right) /\
      ~ in_ancestry repo (content_id right) (revision left)
  end.
Proof.
  intros Hw (b & Hb & Hr)%res_bind_ok. apply (ancestry_spec _ _ _ _ Hw) in Hb.
  destruct b; [injection Hr as <-; by left|].
  apply res_bind_ok in Hr as (b & Hb' & Hr). apply (ancestry_spec _ _ _ _ Hw) in Hb'.
  destruct b; injection Hr as <-; [by right|by split].
Qed.

(** [update_from_sound]: merging a foreign identity into ours requires ours to be
    signed by us and both to share the root.  The result has that root, carries
    valid signatures, ours among them, and is one of the two identities, with the
    repository unchanged, when one descends from the other; or else a new commit,
    the only change, with ours as first parent: on the same revision with the union
    of the signatures, or on the revision that replaces ours with our signature
    added to theirs. *)
Theorem update_from_sound (ours theirs : Verifying (Identity T Oid Oid Sig) Signed) signer repo r repo' :
  well_signed sig_verify (inner ours) -> well_signed sig_verify (inner theirs) -> honest signer ->
  update_from ours theirs signer repo = Ok (r, repo') ->
  is_Some (signatures (inner ours) !! public_key signer) /\
  root (inner ours) = root (inner theirs) /\ root r = root (inner ours) /\
  well_signed sig_verify r /\ is_Some (signatures r !! public_key signer) /\
  (repo' = repo /\
     (r = inner ours /\
        graph_descendant_of repo (content_id (inner ours)) (content_id (inner theirs)) = Ok true \/
      r = inner theirs /\
        graph_descendant_of repo (content_id (inner theirs)) (content_id (inner ours)) = Ok true) \/
   exists c, repo' = written_commit repo c /\ content_id r = commit_id c /\
     c_tree c = revision r /\ c_signatures c = signatures r /\ revision r ∈ trees repo /\
     (doc r = doc (inner ours) /\ revision r = revision (inner ours) /\
        revision (inner theirs) = revision (inner ours) /\
        signatures r = signatures (inner theirs) ∪ signatures (inner ours) /\
        c_parents c = [content_id (inner ours)] \/
      doc r = doc (inner theirs) /\ revision r = revision (inner theirs) /\
        replaces (doc (inner theirs)) = Some (revision (inner ours)) /\
        (exists s, signatures r = <[public_key signer := s]> (signatures (inner theirs))) /\
        c_parents c = [content_id (inner ours); content_id (inner theirs)])).
Proof.
  destruct ours as [ours], theirs as [theirs]. cbn [inner]. intros Ho Ht Hs.
  intros (a & (Hpk & Hroot & Ha)%choose_action_ok & Hu)%res_bind_ok. cbn [inner] in *.
  split; [done|]. split; [done|]. destruct a.
  - injection Hu as <- <-. split_and!; [done|done|done|]. left. by split; [|left].
  - destruct Ha. injection Hu as <- <-. split_and!; [done|done|done|]. left. by split; [|right].
  - rewrite sigs_extend_all in Hu. destruct (commit _ _ _ _ _) as [[cid r']|e] eqn:Hc; [|done].
    apply commit_ok in Hc as (Htree & -> & ->). injection Hu as <- <-. split_and!; [done| | |].
    + by apply well_signed_union.
    + simpl. destruct Hpk as [s Hpk]. destruct (signatures theirs !! public_key signer) as [s'|] eqn:Hth;
        [exists s'; by apply lookup_union_Some_l|exists s; by rewrite lookup_union_r].
    + right. eexists. split_and!; [done|done|done|done|done|]. left. by split_and!.
  - unfold sign in Hu. destruct (sign_bytes signer (revision theirs)) as [s|e] eqn:Hsig; [|done].
    cbn [fmap result_fmap map_err mbind result_bind] in Hu. rewrite sigs_extend_one in Hu.
    destruct (commit _ _ _ _ _) as [[cid r']|e] eqn:Hc; [|done].
    apply commit_ok in Hc as (Htree & -> & ->). injection Hu as <- <-. split_and!; [done| | |].
    + apply well_signed_add; [done|]. by apply Hs.
    + simpl. by rewrite lookup_insert_eq.
    + right. eexists. split_and!; [done|done|done|done|done|]. right. split_and!; by eauto.
Qed.

(** [create_from_sound]: approving a foreign identity keeps its root, revision and
    document, adds our valid signature to its signatures, and writes one commit on
    its revision whose parent it is. *)
Theorem create_from_sound (theirs : Verifying (Identity T Oid Oid Sig) Signed) signer repo r repo' :
  well_signed sig_verify (inner theirs) -> honest signer ->
  create_from theirs signer repo = Ok (r, repo') ->
  root r = root (inner theirs) /\ revision r = revision (inner theirs) /\
  doc r = doc (inner theirs) /\ well_signed sig_verify r /\
  (exists s, signatures r = <[public_key signer := s]> (signatures (inner theirs))) /\
  exists c, repo' = written_commit repo c /\ content_id r = commit_id c /\
    c_tree c = revision r /\ c_signatures c = signatures r /\
    c_parents c = [content_id (inner theirs)].
Proof.
  destruct theirs as [theirs]. cbn [inner]. intros Ht Hs Hc. unfold create_from, sign in Hc.
  cbn [inner] in Hc. destruct (sign_bytes signer (revision theirs)) as [s|e] eqn:Hsig; [|done].
  cbn [fmap result_fmap map_err mbind result_bind] in Hc. rewrite sigs_extend_one in Hc.
  destruct (commit _ _ _ _ _) as [[cid r']|e] eqn:Hcm; [|done].
  apply commit_ok in Hcm as (_ & -> & ->). injection Hc as <- <-.
  split_and!; [done|done|done|apply well_signed_add; [done|by apply Hs]|by eauto|].
  eexists. by split_and!.
Qed.
End GenericProofs.

(** ** Projects *)

Section ProjectProofs.
Context {P Q F : Type}.
Abbreviation Person := (Identity (Doc Q (gset N) Oid) Oid Oid Sig) (only parsing).
Abbreviation Project := (Identity (Doc P (Indirect Q Oid Oid Sig) Oid) Oid Oid Sig) (only parsing).
Context (person_from_oid : Repo Sig -> Oid -> result LoadError Person).
Context (project_from_oid : Repo Sig -> Oid -> result LoadError Project).

(** How an update of the delegations relates the old and the new ones: keys stay,
    a person becomes the verified head of the latest history of its root, in whose
    ancestry its known revision is. *)
Definition updated_delegate (repo : Repo Sig) (find_latest_head : Oid -> result F Oid)
    (old new : N + Person) : Prop :=
  match old, new with
  | inl k, inl k' => k = k'
  | inr id, inr id' =>
      exists hd par, find_latest_head (root id) = Ok hd /\
        in_ancestry repo hd (revision id) /\
        in_history person_from_oid repo hd id' /\ chain sig_verify id' par
  | _, _ => False
  end.

Lemma resolve_loop_spec repo flh current : walk_complete repo -> forall updated out,
  resolve_loop person_from_oid repo flh current updated = Ok out ->
  exists new, out = updated ++ new /\ Forall2 (updated_delegate repo flh) current new.
Proof.
  intros Hw. induction current as [|[k|id] current IH]; intros updated out Hr; simpl in Hr.
  - injection Hr as <-. exists []. by rewrite app_nil_r.
  - apply IH in Hr as (new & -> & Hn). exists (inl k :: new). rewrite <- app_assoc. split; [done|].
    by constructor.
  - destruct (flh (root id)) as [hd|e] eqn:Hh; [|done]. cbn [map_err mbind result_bind] in Hr.
    destruct (updated_person person_from_oid repo id hd) as [v|e] eqn:Hv; [|done].
    cbn [map_err mbind result_bind] in Hr. apply IH in Hr as (new & -> & Hn).
    exists (inr (inner v) :: new). rewrite <- app_assoc. split; [done|]. constructor; [|done].
    unfold updated_person in Hv.
    destruct (is_in_ancestry_path repo hd (revision id)) as [b|e] eqn:Hb; [|done].
    cbn [map_err mbind result_bind] in Hv. apply (ancestry_spec _ _ _ _ Hw) in Hb.
    destruct b; [|done]. unfold verify_person, verify_generic in Hv.
    destruct (fold_verify_generic person_from_oid repo hd) as [folded|e] eqn:Hf; [|done].
    injection Hv as <-. apply fold_verify_spec in Hf as (Hc & Hh' & _). simpl.
    by exists hd, (inner <$> parent folded).
Qed.

(** C7 [project_verified]: a project verifies to the head of its chain of approved
    revisions with its delegations brought up to date (keys as they are, each person
    replaced by the verified head of its latest history, which must contain the
    revision known so far) and its signatures reach a quorum of the updated
    delegations and of its predecessor's. *)
Theorem project_verified repo (find_latest_head : Oid -> result F Oid) hd v :
  walk_complete repo ->
  verify_project person_from_oid project_from_oid repo find_latest_head hd = Ok v ->
  exists old par new x, chain sig_verify old par /\ in_history project_from_oid repo hd old /\
    Forall2 (updated_delegate repo find_latest_head) (indirect_iter (delegations (doc old))) new /\
    try_from_iter new = Ok x /\
    inner v = identity_map (second (fun _ => x)) old /\ succeeds sig_verify (inner v) par.
Proof.
  intros Hw. unfold verify_project.
  destruct (fold_verify_generic project_from_oid repo hd) as [folded|e] eqn:Hf; [|done].
  apply fold_verify_spec in Hf as (Hc & Hh & _). cbn [map_err mbind result_bind].
  set (old := inner (Identity.head folded)) in *. intros (h & Ht & Hv)%res_bind_ok.
  unfold transpose, identity_map, try_second, second, bimap in Ht. cbn in Ht.
  destruct (resolve_delegation_updates person_from_oid repo find_latest_head (delegations (doc old)))
    as [x|e] eqn:Hx; [|done]. cbn in Ht. injection Ht as <-.
  unfold resolve_delegation_updates in Hx.
  destruct (resolve_loop _ _ _ _ _) as [new|e] eqn:Hr; [|done]. cbn [mbind result_bind] in Hx.
  apply (resolve_loop_spec _ _ _ Hw) in Hr as (new' & -> & Hn). simpl in Hx.
  destruct (try_from_iter new') as [x'|e] eqn:Hx'; [|done]. injection Hx as ->.
  match type of Hv with map_err _ ?m = _ => destruct m as [v'|e] eqn:Hm; [|done] end.
  injection Hv as ->.
  exists old, (inner <$> parent folded), new', x.
  assert (untrusted_verified (H := LoadError) sig_verify
    (from_untrusted (identity_map (second (fun _ => x)) old)) (parent folded) = Ok v) as Huv by exact Hm.
  apply untrusted_verified_spec in Huv as [-> Hs]. by split_and!.
Qed.
End ProjectProofs.

End Git.

(** ** A repository with a person, its successor and a project *)

Module Example.
Definition person_msg : Message := UpdatedSignatures 0.
Definition repo : Repo N := MkRepo
  {[ 10%N := MkCommit 7%N [] person_msg ∅;
     11%N := MkCommit 20%N [10%N] person_msg ∅;
     50%N := MkCommit 60%N [] person_msg ∅ ]}
  {[ 7; 20; 60 ]}%N.
Definition commit_id (c : Commit N) : N := 100 + c_tree c.
Definition descendant_of (_ : Repo N) (a b : N) : result unit bool :=
  Ok (bool_decide (a = 11%N /\ b = 10%N)).
Definition walk (_ : Repo N) (c : N) : result unit (list (result unit N)) :=
  if N.eqb c 11 then Ok [Ok 11%N; Ok 10%N]
  else if N.eqb c 10 then Ok [Ok 10%N]
  else if N.eqb c 50 then Ok [Ok 50%N] else Err tt.
Definition walk_reverse (r : Repo N) (c : N) : result unit (list (result unit N)) :=
  (@rev _) <$> walk r c.
Definition load (_ : Repo N) (o : N) : result unit (Identity (Doc unit (gset N) N) N N N) :=
  if N.eqb o 10 then Ok person_example
  else if N.eqb o 11 then Ok successor_example else Err tt.
Definition project : Identity (Doc unit (Indirect unit N N N) N) N N N :=
  (MkIdentity 50 60 60 (MkDoc 0 None tt (built [inl 3; inr person_example]))
     {[ 1 := 61; 3 := 63 ]})%N.
Definition load_project (_ : Repo N) (o : N) :
    result unit (Identity (Doc unit (Indirect unit N N N) N) N N N) :=
  if N.eqb o 50 then Ok project else Err tt.
Definition latest (_ : N) : result unit N := Ok 11%N.
Definition signer : Signer N unit := MkSigner 1%N (fun rev => Ok (rev + 1)%N).

Lemma walks : walk_complete walk repo.
Proof.
  assert (ancestor repo 10 10) as H10 by (eapply ancestor_refl; reflexivity).
  assert (forall o, ancestor repo 10 o -> o = 10%N) as Ho10.
  { intros o Ha. inversion Ha as [|? c p ? Hc Hp]; subst; [done|]. vm_compute in Hc.
    injection Hc as <-. by apply elem_of_nil in Hp. }
  intros c w o. unfold walk. destruct (N.eqb_spec c 11) as [->|]; [intros [= <-]|].
  - split.
    + intros [[= ->]|[[= ->]|[]%elem_of_nil]%elem_of_cons]%elem_of_cons.
      * eapply ancestor_refl. reflexivity.
      * eapply (ancestor_step _ 11%N _ 10%N); [reflexivity|left|done].
    + intros Ha. inversion Ha as [|? c p ? Hc Hp Hb]; subst; [left|]. vm_compute in Hc.
      injection Hc as <-. apply list_elem_of_singleton in Hp as ->. apply Ho10 in Hb as ->.
      right. left.
  - destruct (N.eqb_spec c 10) as [->|]; [intros [= <-]|].
    + rewrite list_elem_of_singleton. split; [by intros [= ->]|]. by intros ->%Ho10.
    + destruct (N.eqb_spec c 50) as [->|]; [intros [= <-]|done].
      rewrite list_elem_of_singleton. split; [intros [= ->]; eapply ancestor_refl; reflexivity|].
      intros Ha. inversion Ha as [|? c p ? Hc Hp]; subst; [done|]. vm_compute in Hc.
      injection Hc as <-. by apply elem_of_nil in Hp.
Qed.
End Example.
Import Example.

Lemma history_verified_witness :
  exists folded, fold_verify_generic sum_verify walk_reverse (fun e => e) load repo 11%N = Ok folded /\
    in_history walk_reverse load repo 11%N (inner (Identity.head folded)).
Proof.
  eexists. split; [vm_compute; reflexivity|].
  eapply (history_verified sum_verify walk_reverse (fun e => e) load repo 11%N).
  vm_compute. reflexivity.
Defined.

Lemma newer_by_ancestry_witness :
  newer tt walk repo successor_example person_example = Ok (Some successor_example) /\
  (successor_example = successor_example /\ in_ancestry repo 11%N 7%N \/
   successor_example = person_example /\ in_ancestry repo 10%N 20%N /\ ~ in_ancestry repo 11%N 7%N).
Proof.
  assert (newer tt walk repo successor_example person_example = Ok (Some successor_example)) as Hn
    by (vm_compute; reflexivity).
  split; [exact Hn|]. exact (newer_by_ancestry tt walk repo _ _ _ walks Hn).
Defined.

Lemma create_from_sound_witness :
  exists r repo',
    create_from (LoadError := unit) (CjsonError := unit) tt commit_id (Ok tt) (MkVerifying Signed person_example) signer repo = Ok (r, repo') /\
    well_signed sum_verify r.
Proof.
  eexists _, _. split; [vm_compute; reflexivity|].
  eapply (create_from_sound (LoadError := unit) (CjsonError := unit) sum_verify tt commit_id (Ok tt) (MkVerifying Signed person_example)
            signer repo).
  - cbn [inner]. assert (signed (E := unit) (H := unit) sum_verify (from_untrusted person_example) =
      Ok (MkVerifying Signed person_example)) as Hs by (vm_compute; reflexivity).
    by apply signed_spec in Hs as [_ ?].
  - intros rev s [= <-]. apply N.eqb_refl.
  - vm_compute. reflexivity.
Defined.

Lemma update_from_sound_witness :
  exists r repo',
    update_from tt commit_id (Ok tt) descendant_of (MkVerifying Signed person_example)
      (MkVerifying Signed proposal_example) signer
      (MkRepo (<[12%N := MkCommit 30%N [10%N] person_msg ∅]> (commits repo)) {[ 7; 20; 30 ]}%N)
    = Ok (r, repo') /\ well_signed sum_verify r /\ revision r = 30%N.
Proof.
  assert (forall i : Identity (Doc unit (gset N) N) N N N, signed (E := unit) (H := unit) sum_verify (from_untrusted i) =
    Ok (MkVerifying Signed i) -> well_signed sum_verify i) as Hs
    by (by intros i [_ ?]%signed_spec).
  eexists _, _. split; [vm_compute; reflexivity|]. split; [|reflexivity].
  eapply (update_from_sound sum_verify tt commit_id (Ok tt) descendant_of
            (MkVerifying Signed person_example) (MkVerifying Signed proposal_example) signer
            (MkRepo (<[12%N := MkCommit 30%N [10%N] person_msg ∅]> (commits repo)) {[ 7; 20; 30 ]}%N)).
  - apply Hs. vm_compute. reflexivity.
  - apply Hs. vm_compute. reflexivity.
  - intros rev s [= <-]. apply N.eqb_refl.
  - vm_compute. reflexivity.
Defined.

Lemma project_verified_witness :
  exists v, verify_project sum_verify tt walk walk_reverse (fun e => e) load load_project repo latest 50%N
      = Ok v /\
    exists old par new x, chain sum_verify old par /\ in_history walk_reverse load_project repo 50%N old /\
      Forall2 (updated_delegate sum_verify walk_reverse load repo latest)
        (indirect_iter (delegations (doc old))) new /\
      try_from_iter new = Ok x /\
      inner v = identity_map (second (fun _ => x)) old /\ succeeds sum_verify (inner v) par.
Proof.
  eexists. split; [vm_compute; reflexivity|].
  eapply (project_verified sum_verify tt walk walk_reverse (fun e => e) load load_project repo latest 50%N).
  - exact walks.
  - vm_compute. reflexivity.
Defined.
