(* ===== verification/PruningFold.v ===== *)
(** * Folding a graph of changes

    [cob/src/pruning_fold.rs]: a fold over the nodes of an acyclic graph in
    topological order, which leaves out the nodes the folded function rejects and
    everything below them. *)
From stdpp Require Import base list gmap.
From Stdlib Require Import Lia.
From S2P Require Import Prelude.

(** [std::ops::ControlFlow]. *)
Inductive ControlFlow (O : Type) : Type :=
| Continue (o : O)
| Break (o : O).
Arguments Continue {O} o.
Arguments Break {O} o.

(** The trait [GraphNode]. *)
Class GraphNode (Node Id : Type) := {
  node_id : Node -> Id;
  child_ids : Node -> list Id;
}.

Section PruningFold.
Context {Node Id O : Type} `{Countable Id} `{GraphNode Node Id}.

Record RejectedNodes := MkRejected {
  direct : gset Id;
  transitive : gmap Id Id;
}.

Definition rejected_new : RejectedNodes := MkRejected ∅ ∅.

Definition rejected_ancestor (r : RejectedNodes) (node : Id) : option Id := transitive r !! node.

Definition is_rejected (r : RejectedNodes) (node : Id) : bool := bool_decide (node ∈ direct r).

Definition directly_reject (r : RejectedNodes) (node : Id) (children : list Id) : RejectedNodes :=
  MkRejected ({[ node ]} ∪ direct r)
    (foldl (fun t child => <[child := node]> t) (transitive r) children).

Definition transitively_reject (r : RejectedNodes) (child ancestor : Id) : RejectedNodes :=
  MkRejected (direct r) (<[child := ancestor]> (transitive r)).

(** One round of the loop. *)
Definition fold_node (f : O -> Node -> ControlFlow O) (st : RejectedNodes * O) (node : Node) :
    RejectedNodes * O :=
  let '(rejected, state) := st in
  if is_rejected rejected (node_id node) then (rejected, state)
  else match rejected_ancestor rejected (node_id node) with
  | Some ancestor =>
      (foldl (fun r child => transitively_reject r child ancestor) rejected (child_ids node), state)
  | None =>
      match f state node with
      | Continue state => (rejected, state)
      | Break state => (directly_reject rejected (node_id node) (child_ids node), state)
      end
  end.

Definition pruning_fold (init : O) (items : list Node) (f : O -> Node -> ControlFlow O) : O :=
  (foldl (fold_node f) (rejected_new, init) items).2.

End PruningFold.
Arguments RejectedNodes : clear implicits.
Arguments RejectedNodes Id {_ _}.

(** ** Specification *)

Section Spec.
Context {Node Id O : Type} `{Countable Id} `{GraphNode Node Id}.
Implicit Type items : list Node.

(** Parents come before their children, and ids are unique. *)
Definition topological items : Prop :=
  NoDup (node_id <$> items) /\
  forall i j m n, items !! i = Some m -> items !! j = Some n -> node_id n ∈ child_ids m -> (i < j)%nat.

(** Recording the calls of the folded function, with its verdicts. *)
Definition logged (f : O -> Node -> ControlFlow O) (st : O * list (Node * bool)) (n : Node) :
    ControlFlow (O * list (Node * bool)) :=
  match f st.1 n with
  | Continue o => Continue (o, st.2 ++ [(n, true)])
  | Break o => Break (o, st.2 ++ [(n, false)])
  end.

(** The nodes left out, given the calls: the rejected ones, and those below. *)
Inductive left_out items (log : list (Node * bool)) : Node -> Prop :=
| left_out_broken n : (n, false) ∈ log -> left_out items log n
| left_out_below m n :
    m ∈ items -> n ∈ items -> left_out items log m -> node_id n ∈ child_ids m -> left_out items log n.

(** [n] is below a node that is left out. *)
Definition below items log n : Prop :=
  exists m, m ∈ items /\ left_out items log m /\ node_id n ∈ child_ids m.

Lemma direct_children (children : list Id) (a : Id) : forall (t : gmap Id Id) k,
  is_Some (foldl (fun t child => <[child := a]> t) t children !! k) <-> k ∈ children \/ is_Some (t !! k).
Proof.
  induction children as [|c children IH]; intros t k; simpl.
  - rewrite elem_of_nil. by intuition.
  - rewrite IH, lookup_insert_is_Some, elem_of_cons. destruct (decide (c = k)); naive_solver.
Qed.

Lemma transitive_children (children : list Id) (a : Id) : forall (r : RejectedNodes Id),
  direct (foldl (fun r child => transitively_reject r child a) r children) = direct r /\
  transitive (foldl (fun r child => transitively_reject r child a) r children) =
    foldl (fun t child => <[child := a]> t) (transitive r) children.
Proof. induction children as [|c children IH]; intros r; [done|]. apply (IH (transitively_reject r c a)). Qed.

(** After the nodes [seen]: the calls were made in their order, for exactly those
    not below a node left out; [direct] holds what was rejected, [transitive] the
    children of what was left out. *)
Record fold_inv (seen : list Node) (r : RejectedNodes Id) (log : list (Node * bool)) : Prop := {
  fi_order : log.*1 `sublist_of` seen;
  fi_calls n : n ∈ seen -> n ∈ log.*1 <-> ~ below seen log n;
  fi_direct k : k ∈ direct r <-> exists n, (n, false) ∈ log /\ node_id n = k;
  fi_transitive k : is_Some (transitive r !! k) <->
    exists m, m ∈ seen /\ left_out seen log m /\ k ∈ child_ids m;
}.

Lemma fi_in seen r log n b : fold_inv seen r log -> (n, b) ∈ log -> n ∈ seen.
Proof.
  intros Hi Hin. eapply elem_of_sublist; [|apply (fi_order _ _ _ Hi)].
  apply list_elem_of_fmap. by exists (n, b).
Qed.

(** Later nodes do not change what is left out among earlier ones. *)
Lemma left_out_snoc seen n log log' m :
  n ∉ seen -> (forall p, p ∈ seen -> node_id p ∉ child_ids n) ->
  (forall p b, p ∈ seen -> (p, b) ∈ log' <-> (p, b) ∈ log) ->
  m ∈ seen -> left_out (seen ++ [n]) log' m <-> left_out seen log m.
Proof.
  intros Hn Hch Hlog Hm. split.
  - intros Hl. induction Hl as [m Hb|p m Hp Hm' Hl IH Hc]; [left; by apply Hlog|].
    apply elem_of_app in Hp as [Hp|Hp%list_elem_of_singleton].
    + eapply left_out_below; [exact Hp|done|by apply IH|done].
    + subst p. by destruct (Hch m Hm).
  - intros Hl. induction Hl as [m Hb|p m Hp Hm' Hl IH Hc]; [left; by apply Hlog|].
    eapply left_out_below; [|apply elem_of_app; by left|by apply IH|exact Hc].
    apply elem_of_app. by left.
Qed.

Lemma below_snoc seen n log log' m :
  n ∉ seen -> (forall p, p ∈ seen ++ [n] -> node_id p ∉ child_ids n) ->
  (forall p b, p ∈ seen -> (p, b) ∈ log' <-> (p, b) ∈ log) ->
  m ∈ seen ++ [n] -> below (seen ++ [n]) log' m <->
  exists p, p ∈ seen /\ left_out seen log p /\ node_id m ∈ child_ids p.
Proof.
  intros Hn Hch Hlog Hm.
  assert (forall p, p ∈ seen -> node_id p ∉ child_ids n) as Hch'
    by (intros p Hp; apply Hch, elem_of_app; by left).
  split.
  - intros (p & Hp & Hl & Hc). apply elem_of_app in Hp as [Hp|Hp%list_elem_of_singleton].
    + exists p. split_and!; [done| |done]. by eapply left_out_snoc.
    + subst p. by destruct (Hch m Hm).
  - intros (p & Hp & Hl & Hc). exists p. split_and!; [apply elem_of_app; by left| |done].
    by eapply left_out_snoc.
Qed.

(** The calls after one more node: none if it is passed over, else one with the
    verdict [b]. *)
Definition call (skip b : bool) (n : Node) : list (Node * bool) := if skip then [] else [(n, b)].

(** What one round needs to know of the node it adds. *)
Record next_node (seen : list Node) (n : Node) : Prop := {
  nn_new : n ∉ seen;
  nn_children p : p ∈ seen ++ [n] -> node_id p ∉ child_ids n;
}.

Lemma nn_seen seen n p : next_node seen n -> p ∈ seen -> node_id p ∉ child_ids n.
Proof. intros Hn Hp. apply (nn_children _ _ Hn), elem_of_app. by left. Qed.

Section Round.
Context (seen : list Node) (n : Node) (log : list (Node * bool)) (skip b : bool).
Context (Hn : next_node seen n) (Hlog : forall p b', (p, b') ∈ log -> p ∈ seen).
Context (Hskip : skip = true <-> exists p, p ∈ seen /\ left_out seen log p /\ node_id n ∈ child_ids p).

Lemma call_seen p b' : p ∈ seen -> (p, b') ∈ log ++ call skip b n <-> (p, b') ∈ log.
Proof.
  intros Hp. rewrite elem_of_app. split; [|by left]. intros [?|Hx]; [done|]. unfold call in Hx.
  destruct skip; [by apply elem_of_nil in Hx|]. apply list_elem_of_singleton in Hx as [= -> ->].
  by destruct (nn_new _ _ Hn).
Qed.

Lemma round_left_out m :
  m ∈ seen -> left_out (seen ++ [n]) (log ++ call skip b n) m <-> left_out seen log m.
Proof.
  intros Hm. apply left_out_snoc; [apply Hn|intros; by apply (nn_seen seen)|apply call_seen|done].
Qed.

Lemma round_below m :
  m ∈ seen ++ [n] -> below (seen ++ [n]) (log ++ call skip b n) m <->
  exists p, p ∈ seen /\ left_out seen log p /\ node_id m ∈ child_ids p.
Proof. intros Hm. apply below_snoc; [apply Hn|apply Hn|apply call_seen|done]. Qed.

Lemma round_node : left_out (seen ++ [n]) (log ++ call skip b n) n <-> skip = true \/ b = false.
Proof.
  assert (n ∈ seen ++ [n]) as Hlast by (apply elem_of_app; right; left). split.
  - intros Hl. inversion Hl as [? Hb|m ? Hm Hm' Hl' Hc]; subst.
    + apply elem_of_app in Hb as [Hb|Hb]; [by apply Hlog, (nn_new _ _ Hn) in Hb|].
      clear -Hb. unfold call in Hb. destruct skip; [by left|].
      apply list_elem_of_singleton in Hb as [= <-]. by right.
    + left. apply Hskip, round_below; [done|]. by exists m.
  - intros Hsb. destruct (bool_dec skip true) as [E|E].
    + destruct (proj1 Hskip E) as (p & Hp & Hl & Hc).
      eapply (left_out_below _ _ p); [apply elem_of_app; by left|done|by apply round_left_out|done].
    + destruct Hsb as [?|Hb]; [done|]. left. apply elem_of_app. right. unfold call.
      apply not_true_is_false in E. rewrite E, Hb. left.
Qed.

Lemma round_children k :
  (exists m, m ∈ seen ++ [n] /\ left_out (seen ++ [n]) (log ++ call skip b n) m /\ k ∈ child_ids m) <->
  (exists m, m ∈ seen /\ left_out seen log m /\ k ∈ child_ids m) \/
  ((skip = true \/ b = false) /\ k ∈ child_ids n).
Proof.
  split.
  - intros (m & Hm & Hl & Hc). apply elem_of_app in Hm as [Hm|Hm%list_elem_of_singleton].
    + left. exists m. split_and!; [done|by apply round_left_out|done].
    + subst m. right. split; [by apply round_node|done].
  - intros [(m & Hm & Hl & Hc)|[Hb Hc]].
    + exists m. split_and!; [apply elem_of_app; by left|by apply round_left_out|done].
    + exists n. split_and!; [apply elem_of_app; right; left|by apply round_node|done].
Qed.
End Round.

(** One round keeps the invariant. *)
Lemma fold_inv_step seen r log n r' (skip b : bool) :
  fold_inv seen r log -> next_node seen n ->
  skip = bool_decide (is_Some (transitive r !! node_id n)) ->
  (forall k, k ∈ direct r' <-> k ∈ direct r \/ (skip = false /\ b = false /\ k = node_id n)) ->
  (forall k, is_Some (transitive r' !! k) <->
     is_Some (transitive r !! k) \/ ((skip = true \/ b = false) /\ k ∈ child_ids n)) ->
  fold_inv (seen ++ [n]) r' (log ++ call skip b n).
Proof.
  intros Hi Hn Hskip Hd Ht.
  assert (forall p b', (p, b') ∈ log -> p ∈ seen) as Hlog by (intros; by eapply fi_in).
  assert (skip = true <-> exists p, p ∈ seen /\ left_out seen log p /\ node_id n ∈ child_ids p) as Hs
    by (rewrite Hskip, bool_decide_eq_true; apply (fi_transitive _ _ _ Hi)).
  split.
  - rewrite fmap_app. destruct skip; simpl.
    + rewrite app_nil_r. apply sublist_inserts_r, (fi_order _ _ _ Hi).
    + apply sublist_app; [apply (fi_order _ _ _ Hi)|done].
  - intros m Hm. rewrite round_below by done. rewrite fmap_app, elem_of_app.
    apply elem_of_app in Hm as [Hm|Hm%list_elem_of_singleton].
    + rewrite <- (fi_calls _ _ _ Hi m Hm). unfold call.
      destruct skip; simpl; [rewrite elem_of_nil; by intuition|].
      rewrite list_elem_of_singleton. split; [|by left]. intros [?|Hx]; [done|].
      subst. by destruct (nn_new _ _ Hn).
    + subst m. rewrite <- Hs. unfold call. split.
      * intros [([x b'] & -> & Hx)%list_elem_of_fmap|Hx]; [by apply Hlog, (nn_new _ _ Hn) in Hx|].
        destruct skip; [by apply elem_of_nil in Hx|done].
      * intros Hns. right. destruct skip; [done|]. left.
  - intros k. rewrite Hd, (fi_direct _ _ _ Hi). setoid_rewrite elem_of_app. unfold call. split.
    + intros [(m & ? & ?)|(-> & -> & ->)]; [exists m; eauto|]. exists n. split; [right; left|done].
    + intros (m & [Hm|Hm] & Hk); [left; eauto|]. destruct skip; [by apply elem_of_nil in Hm|].
      apply list_elem_of_singleton in Hm as [= -> <-]. by right.
  - intros k. by rewrite Ht, (fi_transitive _ _ _ Hi), round_children.
Qed.

Lemma fold_node_inv f seen r o log n r' o' log' :
  fold_inv seen r log -> next_node seen n -> (forall p, p ∈ seen -> node_id p <> node_id n) ->
  fold_node (logged f) (r, (o, log)) n = (r', (o', log')) ->
  fold_inv (seen ++ [n]) r' log'.
Proof.
  intros Hi Hn Hids. unfold fold_node, is_rejected, rejected_ancestor, logged.
  case_bool_decide as Hrej.
  { exfalso. apply (fi_direct _ _ _ Hi) in Hrej as (m & Hm & Hid).
    apply (Hids m); [by eapply fi_in|done]. }
  destruct (transitive r !! node_id n) as [a|] eqn:Ht.
  - intros [= <- <- <-]. destruct (transitive_children (child_ids n) a r) as [Hd Htr].
    replace log with (log ++ call true true n) by (apply app_nil_r).
    eapply fold_inv_step; [exact Hi|done|by rewrite Ht| |].
    + intros k. rewrite Hd. naive_solver.
    + intros k. rewrite Htr, direct_children. naive_solver.
  - simpl. destruct (f o n) as [o1|o1]; intros [= <- <- <-].
    + change ([(n, true)]) with (call false true n).
      eapply fold_inv_step; [exact Hi|done|by rewrite Ht| |]; naive_solver.
    + change ([(n, false)]) with (call false false n).
      eapply fold_inv_step; [exact Hi|done|by rewrite Ht| |].
      * intros k. simpl. rewrite elem_of_union, elem_of_singleton. naive_solver.
      * intros k. simpl. rewrite direct_children. naive_solver.
Qed.

Lemma fold_all_inv f items : forall seen r o log,
  topological (seen ++ items) -> fold_inv seen r log ->
  exists r' o' log', foldl (fold_node (logged f)) (r, (o, log)) items = (r', (o', log')) /\
    fold_inv (seen ++ items) r' log'.
Proof.
  induction items as [|n items IH]; intros seen r o log [Hnd Htopo] Hi.
  { exists r, o, log. rewrite app_nil_r. by split. }
  cbn [foldl]. destruct (fold_node (logged f) (r, (o, log)) n) as [r1 [o1 log1]] eqn:Hs.
  assert ((seen ++ n :: items) !! length seen = Some n) as Hat by apply list_lookup_middle, eq_refl.
  assert (forall p, p ∈ seen -> exists i, (i < length seen)%nat /\ (seen ++ n :: items) !! i = Some p) as Hpos.
  { intros p [i Hp]%list_elem_of_lookup. exists i. split; [by apply lookup_lt_Some in Hp|].
    by apply lookup_app_l_Some. }
  assert (forall p, p ∈ seen -> node_id p <> node_id n) as Hids.
  { intros p Hp Heq. rewrite fmap_app, fmap_cons in Hnd. apply NoDup_app in Hnd as (_ & Hdis & _).
    apply (Hdis (node_id p)); [by apply list_elem_of_fmap_2|]. rewrite Heq. left. }
  assert (next_node seen n) as Hn.
  { split; [intros Hp; by apply Hids in Hp|]. intros p Hp Hc.
    apply elem_of_app in Hp as [Hp|Hp%list_elem_of_singleton].
    - destruct (Hpos p Hp) as (i & Hi' & Hl). pose proof (Htopo _ _ _ _ Hat Hl Hc). lia.
    - subst p. pose proof (Htopo _ _ _ _ Hat Hat Hc). lia. }
  pose proof (fold_node_inv _ _ _ _ _ _ _ _ _ Hi Hn Hids Hs) as Hi1.
  rewrite cons_middle, (assoc_L (++)) in Hnd, Htopo |- *.
  by apply (IH (seen ++ [n])).
Qed.

(** Recording the calls does not change the fold. *)
Lemma fold_logged f items : forall r o log,
  (foldl (fold_node (logged f)) (r, (o, log)) items).1 = (foldl (fold_node f) (r, o) items).1 /\
  (foldl (fold_node (logged f)) (r, (o, log)) items).2.1 = (foldl (fold_node f) (r, o) items).2.
Proof.
  induction items as [|n items IH]; intros r o log; [done|]. cbn [foldl].
  unfold fold_node at 2 4 6 8. unfold logged at 2 4. simpl.
  destruct (is_rejected r (node_id n)); [apply IH|].
  destruct (rejected_ancestor r (node_id n)); [apply IH|].
  destruct (f o n); apply IH.
Qed.

Lemma fold_inv_nil : fold_inv [] rejected_new [].
Proof.
  split.
  - done.
  - by intros n ?%elem_of_nil.
  - intros k. simpl. split; [set_solver|]. by intros (n & ?%elem_of_nil & _).
  - intros k. simpl. rewrite lookup_empty. split; [by intros []|].
    by intros (m & ?%elem_of_nil & _).
Qed.

(** The calls of a whole fold. *)
Definition calls (init : O) items (f : O -> Node -> ControlFlow O) : list (Node * bool) :=
  (pruning_fold (init, []) items (logged f)).2.

Lemma calls_spec init items f :
  topological items ->
  (calls init items f).*1 `sublist_of` items /\
  (forall n, n ∈ items -> n ∈ (calls init items f).*1 <-> ~ below items (calls init items f) n) /\
  (pruning_fold (init, []) items (logged f)).1 = pruning_fold init items f.
Proof.
  intros Ht. destruct (fold_all_inv f items [] rejected_new init [] Ht fold_inv_nil)
    as (r & o & log & Hf & Hi). simpl in Hi.
  unfold calls, pruning_fold. rewrite Hf. simpl. split_and!.
  - apply (fi_order _ _ _ Hi).
  - apply (fi_calls _ _ _ Hi).
  - destruct (fold_logged f items rejected_new init []) as [_ <-]. by rewrite Hf.
Qed.
End Spec.

(** C33 [pruning_fold_prunes]: over a topologically ordered acyclic graph the function is
    called on the nodes in order, on exactly those that are not below a node left
    out, where a node is left out when the function rejects it or it is below one
    that is; the result is the state the calls leave. *)
Theorem pruning_fold_prunes {Node Id O} `{Countable Id} `{GraphNode Node Id}
    (init : O) (items : list Node) (f : O -> Node -> ControlFlow O) :
  topological items ->
  (calls init items f).*1 `sublist_of` items /\
  (forall n, n ∈ items -> n ∈ (calls init items f).*1 <-> ~ below items (calls init items f) n) /\
  (pruning_fold (init, []) items (logged f)).1 = pruning_fold init items f.
Proof. apply calls_spec. Qed.

(** A diamond, 1 above 2 and 3, both above 4, where 2 is rejected. *)
Definition pair_node : GraphNode (nat * list nat) nat := {| node_id := fst; child_ids := snd |}.
#[export] Existing Instance pair_node.

Definition diamond : list (nat * list nat) := [(1, [2; 3]); (2, [4]); (3, [4]); (4, [])].

Definition not_two (o : list nat) (n : nat * list nat) : ControlFlow (list nat) :=
  if Nat.eqb n.1 2 then Break o else Continue (o ++ [n.1]).

Lemma pruning_fold_prunes_witness :
  pruning_fold [] diamond not_two = [1; 3] /\
  ((4, []) ∉ (calls [] diamond not_two).*1) /\
  ((4, []) ∈ (calls [] diamond not_two).*1 <-> ~ below diamond (calls [] diamond not_two) (4, [])).
Proof.
  split; [reflexivity|]. split; [by apply (bool_decide_unpack _)|].
  apply (pruning_fold_prunes [] diamond not_two).
  - split; [by apply (bool_decide_unpack _)|].
    intros i j m n Hi Hj Hc.
    destruct i as [|[|[|[|i]]]], j as [|[|[|[|j]]]]; simpl in *; simplify_eq; simpl in *; try lia; set_solver.
  - do 3 right. left.
Defined.
