(* ===== verification/Cob.v ===== *)
(** * Collaborative objects: history and evaluation

    [cob/src/history.rs], [cob/src/change_graph/evaluation.rs],
    [cob/src/authorizing_identity.rs], the lookup of identities of
    [cob/src/identity_storage.rs] and the signature check of [cob/src/change.rs].
    The graph type of the [petgraph] crate is the class [PetGraph], with the laws the
    code relies on; the verification of identities is that of [GitIdentity.v], given
    here as functions of the object id. *)
From stdpp Require Import base list gmap.
From Stdlib Require Import NArith Lia.
From Stdlib Require String.
Import String.StringSyntax.
From S2P Require Import Prelude Identity PruningFold.

(** ** [petgraph::Graph], directed, with its traversal orders *)

Class PetGraph (G A : Type) := {
  pg_new : G;
  pg_add_node : G -> A -> nat * G;
  pg_update_edge : G -> nat -> nat -> outcome G;
  pg_weight : G -> nat -> option A;
  pg_edge : G -> nat -> nat -> bool;
  pg_sinks : G -> list nat;
  pg_topo : G -> list nat;
}.

Class PetGraphLaws (G A : Type) `{PetGraph G A} := {
  pg_add_fresh g a ix g' : pg_add_node g a = (ix, g') ->
    pg_weight g ix = None /\ pg_weight g' ix = Some a /\
    (forall k, k <> ix -> pg_weight g' k = pg_weight g k) /\
    (forall x y, pg_edge g' x y = pg_edge g x y);
  pg_edge_ends g x y : pg_edge g x y = true -> is_Some (pg_weight g x) /\ is_Some (pg_weight g y);
  pg_update_ok g a b : is_Some (pg_weight g a) -> is_Some (pg_weight g b) ->
    exists g', pg_update_edge g a b = Done g';
  pg_update_spec g a b g' : pg_update_edge g a b = Done g' ->
    (forall k, pg_weight g' k = pg_weight g k) /\
    (forall x y, pg_edge g' x y = true <-> pg_edge g x y = true \/ (x = a /\ y = b));
  pg_sinks_spec g ix : ix ∈ pg_sinks g <->
    is_Some (pg_weight g ix) /\ forall y, pg_edge g ix y = false;
}.

(** ** Entries *)

Inductive EntryContents := Automerge (bytes : list N).

Record HistoryEntry := MkEntry {
  he_id : N;
  author : N;
  children : list N;
  contents : EntryContents;
}.

#[export] Instance entry_node : GraphNode HistoryEntry N := {|
  node_id := he_id;
  child_ids := children;
|}.

Definition add_child (e : HistoryEntry) (c : N) : HistoryEntry :=
  MkEntry (he_id e) (author e) (children e ++ [c]) (contents e).

Section History.
Context {G : Type} `{PetGraph G HistoryEntry}.

Record History := MkHistory {
  h_root : N;
  entries : gmap N HistoryEntry;
  indices : gmap N nat;
  graph : G;
}.

Inductive CreateError := MissingRoot.

(** The loop over the children of one entry; the stack has its top in front. *)
Fixpoint add_children (es : gmap N HistoryEntry) (entry_ix : nat) (cs : list N)
    (st : G * gmap N nat * list HistoryEntry) : outcome (G * gmap N nat * list HistoryEntry) :=
  match cs with
  | [] => Done st
  | child_id :: cs =>
      let '(g, ixs, to_process) := st in
      child ← unwrap (es !! child_id);
      let '(child_ix, g) := pg_add_node g child in
      let ixs := <[he_id child := child_ix]> ixs in
      g ← pg_update_edge g entry_ix child_ix;
      add_children es entry_ix cs (g, ixs, child :: to_process)
  end.

(** The [while let] loop; [None] is out of fuel. *)
Fixpoint create_loop (fuel : nat) (es : gmap N HistoryEntry) (st : G * gmap N nat * list HistoryEntry) :
    option (outcome (G * gmap N nat)) :=
  match fuel with
  | O => None
  | S fuel =>
      let '(g, ixs, to_process) := st in
      match to_process with
      | [] => Some (Done (g, ixs))
      | entry :: to_process =>
          match unwrap (ixs !! he_id entry) ≫= fun entry_ix =>
                add_children es entry_ix (children entry) (g, ixs, to_process) with
          | Panic => Some Panic
          | Done st => create_loop fuel es st
          end
      end
  end.

Definition create_petgraph (fuel : nat) (root : N) (es : gmap N HistoryEntry) :
    option (outcome (G * gmap N nat)) :=
  match es !! root with
  | None => Some Panic
  | Some root =>
      let '(root_ix, g) := pg_add_node pg_new root in
      create_loop fuel es (g, {[ he_id root := root_ix ]}, [root])
  end.

Definition history_new (fuel : nat) (root : N) (es : gmap N HistoryEntry) :
    option (outcome (result CreateError History)) :=
  match es !! root with
  | None => Some (Done (Err MissingRoot))
  | Some _ =>
      match create_petgraph fuel root es with
      | Some (Done (g, ixs)) => Some (Done (Ok (MkHistory root es ixs g)))
      | Some Panic => Some Panic
      | None => None
      end
  end.

Definition new_from_root (fuel : nat) (id author : N) (contents : EntryContents) :
    option (outcome History) :=
  let root_entry := MkEntry id author [] contents in
  let es := {[ id := root_entry ]} in
  match create_petgraph fuel id es with
  | Some (Done (g, ixs)) => Some (Done (MkHistory id es ixs g))
  | Some Panic => Some Panic
  | None => None
  end.

(** The tips: entries of the nodes without outgoing edges. *)
Definition tips (h : History) : gset N :=
  list_to_set (omap (fun ix => he_id <$> pg_weight (graph h) ix) (pg_sinks (graph h))).

(** The loop over the tips in [extend]. *)
Fixpoint link_tips (new_id : N) (new_ix : nat) (ts : list N) (h : History) : outcome History :=
  match ts with
  | [] => Done h
  | tip :: ts =>
      let es := match entries h !! tip with
                | Some e => <[tip := add_child e new_id]> (entries h)
                | None => entries h
                end in
      tip_ix ← unwrap (indices h !! tip);
      g ← pg_update_edge (graph h) tip_ix new_ix;
      link_tips new_id new_ix ts (MkHistory (h_root h) es (indices h) g)
  end.

Definition extend (h : History) (new_id new_author : N) (new_contents : EntryContents) : outcome History :=
  let ts := tips h in
  let new_entry := MkEntry new_id new_author [] new_contents in
  let '(new_ix, g) := pg_add_node (graph h) new_entry in
  let h := MkHistory (h_root h) (<[he_id new_entry := new_entry]> (entries h)) (indices h) g in
  link_tips new_id new_ix (bset_iter ts) h.

Definition traverse {A} (h : History) (init : A) (f : A -> HistoryEntry -> ControlFlow A) : A :=
  pruning_fold init (omap (pg_weight (graph h)) (pg_topo (graph h))) f.
End History.
Arguments History : clear implicits.

(** ** Changes and their evaluation *)

(** String literals. *)
Definition lit (s : String.string) : String.string := s.
Arguments lit s%_string_scope.

Inductive HistoryType := AutomergeHistory.

Record Manifest := MkManifest { typename : String.string; history_type : HistoryType }.

Record Change (Sig : Type) : Type := MkChange {
  ch_commit : N;
  ch_revision : N;
  ch_signatures : gmap N Sig;
  author_commit : N;
  schema_commit : option N;
  authorizing_identity_commit : N;
  manifest : Manifest;
  ch_contents : EntryContents;
}.
Arguments MkChange {Sig} _ _ _ _ _ _ _ _.
Arguments manifest {Sig} _.
Arguments ch_commit {Sig} _.
Arguments ch_revision {Sig} _.
Arguments ch_signatures {Sig} _.
Arguments author_commit {Sig} _.
Arguments schema_commit {Sig} _.
Arguments authorizing_identity_commit {Sig} _.
Arguments ch_contents {Sig} _.

Inductive AuthDecision := Authorized | NotAuthorized (reason : String.string).

(** A verified person or project, as far as it is used: its URN and tip. *)
Record VerifiedId := MkVerified { v_urn : N; v_tip : N }.

Inductive SomeIdentity := PersonIdentity | ProjectIdentity | UnknownIdentity.

Inductive AuthorizingIdentity :=
| AuthPerson (p : VerifiedId)
| AuthProject (p : VerifiedId).

Definition auth_id (a : AuthorizingIdentity) : VerifiedId :=
  match a with AuthPerson p => p | AuthProject p => p end.

Definition auth_urn (a : AuthorizingIdentity) : N := v_urn (auth_id a).

Definition not_that_identity : String.string :=
  (lit "attempting to update a cob in a person identity with a principal which is not that identity").

Definition check_authorization (a : AuthorizingIdentity) (principal : VerifiedId) : AuthDecision :=
  match a with
  | AuthPerson p =>
      if bool_decide (v_urn p = v_urn principal) then Authorized
      else NotAuthorized not_that_identity
  | AuthProject _ => Authorized
  end.

Inductive LookupError (L P Q : Type) : Type :=
| LookupPerson (e : P)
| LookupProject (e : Q)
| LoadIdentity (e : L)
| CouldNotVerifyTip
| UnknownIdentityType (oid : N)
| LookupGit (code : N).
Arguments LookupPerson {L P Q} e.
Arguments LookupProject {L P Q} e.
Arguments LoadIdentity {L P Q} e.
Arguments CouldNotVerifyTip {L P Q}.
Arguments UnknownIdentityType {L P Q} oid.
Arguments LookupGit {L P Q} code.

Inductive RejectionReason (E : Type) : Type :=
| InvalidSignatures
| InvalidAuthorizer (e : E)
| WrongAuthorizer
| MissingAuthor (oid : N)
| ErrorFindingAuthor (oid : N) (e : E)
| Unauthorized (reason : String.string).
Arguments InvalidSignatures {E}.
Arguments InvalidAuthorizer {E} e.
Arguments WrongAuthorizer {E}.
Arguments MissingAuthor {E} oid.
Arguments ErrorFindingAuthor {E} oid e.
Arguments Unauthorized {E} reason.

#[export] Instance change_node {Sig} : GraphNode (Change Sig * list N) N := {|
  node_id := fun c => ch_commit c.1;
  child_ids := snd;
|}.

Section Evaluation.
Context {G Sig L P Q : Type} `{PetGraph G HistoryEntry}.
(** Verifying a signature; reading an identity of unknown type from a commit;
    verifying the history of a person and of a project. *)
Context (sig_verify : Sig -> N -> N -> bool).
Context (some_identity : N -> result L SomeIdentity).
Context (verify_person : N -> result P VerifiedId).
Context (verify_project : N -> result Q VerifiedId).
(** The identity the object is stored under. *)
Context (authorizer : AuthorizingIdentity).

Definition valid_signatures (c : Change Sig) : bool :=
  forallb (fun ks => sig_verify ks.2 (ch_revision c) ks.1) (btree_iter (ch_signatures c)).

Definition lookup_person (oid : N) : result (LookupError L P Q) (option VerifiedId) :=
  map_err LookupPerson (Some <$> verify_person oid).

Definition lookup_authorizing_identity (oid : N) : result (LookupError L P Q) AuthorizingIdentity :=
  id ← map_err LoadIdentity (some_identity oid);
  auth ← match id with
         | PersonIdentity => AuthPerson <$> map_err LookupPerson (verify_person oid)
         | ProjectIdentity => AuthProject <$> map_err LookupProject (verify_project oid)
         | UnknownIdentity => Err (UnknownIdentityType oid)
         end;
  if bool_decide (v_tip (auth_id auth) <> oid) then Err CouldNotVerifyTip else Ok auth.

Definition evaluate_change (c : Change Sig) (child_commits : list N) :
    result (RejectionReason (LookupError L P Q)) HistoryEntry :=
  if negb (valid_signatures c) then Err InvalidSignatures
  else
    auth ← map_err InvalidAuthorizer (lookup_authorizing_identity (authorizing_identity_commit c));
    if bool_decide (auth_urn auth <> auth_urn authorizer) then Err WrongAuthorizer
    else
      found ← map_err (ErrorFindingAuthor (author_commit c)) (lookup_person (author_commit c));
      author ← ok_or found (MissingAuthor (author_commit c));
      match check_authorization auth author with
      | Authorized => Ok (MkEntry (ch_commit c) (v_urn author) child_commits (ch_contents c))
      | NotAuthorized reason => Err (Unauthorized reason)
      end.

(** The closure [evaluate] folds with. *)
Definition evaluate_step (es : gmap N HistoryEntry) (c : Change Sig * list N) :
    ControlFlow (gmap N HistoryEntry) :=
  match evaluate_change c.1 c.2 with
  | Err _ => Break es
  | Ok entry => Continue (<[ch_commit c.1 := entry]> es)
  end.

Definition evaluate (fuel : nat) (root : N) (items : list (Change Sig * list N)) :
    option (outcome (History G)) :=
  let es := pruning_fold ∅ items evaluate_step in
  match history_new fuel root es with
  | Some (Done (Ok h)) => Some (Done h)
  | Some _ => Some Panic
  | None => None
  end.
End Evaluation.

(** ** The history of an object *)

Section HistoryProofs.
Context {G : Type} `{PetGraphLaws G HistoryEntry}.
Implicit Type es : gmap N HistoryEntry.

(** The recorded indices are nodes of the graph. *)
Definition indexed (g : G) (ixs : gmap N nat) : Prop :=
  forall id ix, ixs !! id = Some ix -> is_Some (pg_weight g ix).

Lemma indexed_add g ixs a ix g' :
  indexed g ixs -> pg_add_node g a = (ix, g') -> indexed g' ixs /\ indexed g' (<[he_id a := ix]> ixs).
Proof.
  intros Hi (Hnone & Hsome & Hother & _)%pg_add_fresh.
  assert (indexed g' ixs) as Hi'.
  { intros id k Hk. apply Hi in Hk as [w Hw]. rewrite Hother; [eauto|]. intros ->. congruence. }
  split; [done|]. intros id k [[_ <-]|[_ Hk]]%lookup_insert_Some; [eauto|by apply (Hi' id)].
Qed.

Lemma indexed_update g ixs a b g' : indexed g ixs -> pg_update_edge g a b = Done g' -> indexed g' ixs.
Proof. intros Hi [Hw _]%pg_update_spec id ix Hk. rewrite Hw. by apply (Hi id). Qed.

(** The entries the children refer to, the last one on top of the stack. *)
Definition child_entries es (cs : list N) : list HistoryEntry := rev (omap (fun c => es !! c) cs).

Lemma child_entries_cons es c cs e :
  es !! c = Some e -> child_entries es (c :: cs) = child_entries es cs ++ [e].
Proof. intros Hc. unfold child_entries. simpl. by rewrite Hc. Qed.

Lemma add_children_ok es ix cs : forall g ixs stk,
  indexed g ixs -> is_Some (pg_weight g ix) -> (forall c, c ∈ cs -> is_Some (es !! c)) ->
  exists g' ixs', add_children es ix cs (g, ixs, stk) = Done (g', ixs', child_entries es cs ++ stk) /\
    indexed g' ixs' /\ dom ixs ⊆ dom ixs' /\
    (forall e, e ∈ child_entries es cs -> he_id e ∈ dom ixs').
Proof.
  induction cs as [|c cs IH]; intros g ixs stk Hi Hix Hc.
  - exists g, ixs. split_and!; [done|done|done|by intros e ?%elem_of_nil].
  - destruct (Hc c) as [e He]; [left|]. cbn [add_children]. rewrite He. cbn [unwrap mbind outcome_bind].
    destruct (pg_add_node g e) as [k g1] eqn:Hadd. destruct (indexed_add _ _ _ _ _ Hi Hadd) as [_ Hi1].
    apply pg_add_fresh in Hadd as (Hnone & Hsome & Hother & _).
    assert (is_Some (pg_weight g1 ix)) as Hix1.
    { rewrite Hother; [done|]. intros ->. destruct Hix. congruence. }
    destruct (pg_update_ok g1 ix k) as [g2 Hg2]; [done|by eauto|]. rewrite Hg2.
    cbn [mbind outcome_bind].
    destruct (IH g2 (<[he_id e := k]> ixs) (e :: stk)) as (g' & ixs' & Hadd & Hi' & Hdom & Hids).
    + by eapply indexed_update.
    + apply pg_update_spec in Hg2 as [Hw _]. by rewrite Hw.
    + intros c' Hc'. apply Hc. by right.
    + exists g', ixs'. rewrite (child_entries_cons es c cs e He), <- app_assoc. cbn [app].
      split_and!; [done|done|rewrite dom_insert in Hdom; set_solver|].
      intros e' [He'|He'%list_elem_of_singleton]%elem_of_app; [by apply Hids|]. subst e'.
      apply Hdom. rewrite dom_insert. set_solver.
Qed.

Lemma add_children_done es ix cs : forall g ixs stk st,
  add_children es ix cs (g, ixs, stk) = Done st ->
  (forall c, c ∈ cs -> is_Some (es !! c)) /\ st.2 = child_entries es cs ++ stk.
Proof.
  induction cs as [|c cs IH]; intros g ixs stk st Ha; cbn [add_children] in Ha.
  - injection Ha as <-. split; [by intros c ?%elem_of_nil|done].
  - destruct (es !! c) as [e|] eqn:He; [|done]. cbn [unwrap mbind outcome_bind] in Ha.
    destruct (pg_add_node g e) as [k g1]. apply out_bind_done in Ha as (g2 & _ & Ha).
    apply IH in Ha as [Hc ->]. split.
    + intros c' [->|Hin]%elem_of_cons; [by rewrite He|by apply Hc].
    + by rewrite (child_entries_cons es c cs e He), <- app_assoc.
Qed.

(** [e'] is reached from [e] through children among the entries. *)
Inductive reaches_entry es : HistoryEntry -> HistoryEntry -> Prop :=
| reach_here e : reaches_entry es e e
| reach_child e c e' e'' :
    c ∈ children e -> es !! c = Some e' -> reaches_entry es e' e'' -> reaches_entry es e e''.

(** A graph is only built when every child of every reachable entry is there. *)
Lemma create_loop_closed fuel es : forall g ixs stk r,
  create_loop fuel es (g, ixs, stk) = Some (Done r) ->
  forall e e' c, e ∈ stk -> reaches_entry es e e' -> c ∈ children e' -> is_Some (es !! c).
Proof.
  induction fuel as [|fuel IH]; intros g ixs stk r Hl e e' c He Hr Hc; [done|].
  cbn [create_loop] in Hl. destruct stk as [|top stk]; [by apply elem_of_nil in He|].
  destruct (unwrap (ixs !! he_id top)) as [ix|]; cbn [mbind outcome_bind] in Hl; [|done].
  destruct (add_children es ix (children top) (g, ixs, stk)) as [[[g1 ixs1] stk1]|] eqn:Ha; [|done].
  apply add_children_done in Ha as [Hcs Hstk]. simpl in Hstk. subst stk1.
  apply elem_of_cons in He as [->|He].
  - inversion Hr as [|? c' e1 ? Hc' He1 Hr']; subst; [by apply Hcs|].
    eapply (IH _ _ _ _ Hl e1 e' c); [|done|done]. apply elem_of_app. left. unfold child_entries.
    apply list_elem_of_In, in_rev. rewrite rev_involutive. apply list_elem_of_In.
    apply list_elem_of_omap. by exists c'.
  - eapply (IH _ _ _ _ Hl e e' c); [|done|done]. apply elem_of_app. by right.
Qed.

(** *** Termination on acyclic entries *)

(** Every entry is stored under its id, and [rank] goes down from an entry to its
    children. *)
Definition acyclic es (rank : N -> nat) : Prop :=
  forall k e, es !! k = Some e -> he_id e = k /\ forall c, c ∈ children e -> (rank c < rank k)%nat.

(** All children are there. *)
Definition closed es : Prop :=
  forall k e c, es !! k = Some e -> c ∈ children e -> is_Some (es !! c).

(** The number of rounds an entry causes: one, and those of its children. *)
Fixpoint rounds (n : nat) es (e : HistoryEntry) : nat :=
  match n with
  | O => 1
  | S n => S (sum_list (rounds n es <$> child_entries es (children e)))
  end.

Lemma sum_list_fmap_app {A} (f : A -> nat) xs ys :
  sum_list (f <$> xs ++ ys) = (sum_list (f <$> xs) + sum_list (f <$> ys))%nat.
Proof. rewrite fmap_app. induction (f <$> xs) as [|x l IH]; simpl; [done|]. rewrite IH. lia. Qed.

Lemma rounds_enough es rank : acyclic es rank -> forall n m k e,
  es !! k = Some e -> (rank k < n)%nat -> (rank k < m)%nat -> rounds n es e = rounds m es e.
Proof.
  intros Ha n. induction n as [|n IH]; intros m k e He Hn Hm; [lia|].
  destruct m as [|m]; [lia|]. cbn [rounds]. do 2 f_equal.
  destruct (Ha k e He) as [_ Hc]. apply list_fmap_ext. intros i e' Hi.
  apply list_elem_of_lookup_2, list_elem_of_In, in_rev, list_elem_of_In, list_elem_of_omap in Hi
    as (c & Hin & He'). pose proof (Hc c Hin). apply (IH m c); [done|lia|lia].
Qed.

(** The rounds left after one more. *)
Lemma rounds_step es rank B e stk fuel :
  acyclic es rank -> (forall k, (rank k < B)%nat) -> es !! he_id e = Some e ->
  (sum_list (rounds B es <$> e :: stk) < S fuel)%nat ->
  (sum_list (rounds B es <$> child_entries es (children e) ++ stk) < fuel)%nat.
Proof.
  intros Ha HB He Hf. rewrite sum_list_fmap_app. rewrite fmap_cons in Hf.
  change (sum_list (rounds B es e :: (rounds B es <$> stk)))
    with (rounds B es e + sum_list (rounds B es <$> stk))%nat in Hf.
  rewrite (rounds_enough es rank Ha B (S B) (he_id e)) in Hf; [|done|apply HB|pose proof (HB (he_id e)); lia].
  cbn [rounds] in Hf. lia.
Qed.

Lemma child_entries_stored es rank e e' :
  acyclic es rank -> e' ∈ child_entries es (children e) -> es !! he_id e' = Some e'.
Proof.
  intros Ha Hin. apply list_elem_of_In, in_rev, list_elem_of_In, list_elem_of_omap in Hin
    as (c & Hin & He'). by destruct (Ha c e' He') as [-> _].
Qed.

(** The loop always ends, *)
Lemma create_loop_ends es rank B : acyclic es rank -> (forall k, (rank k < B)%nat) ->
  forall fuel g ixs stk, (forall e, e ∈ stk -> es !! he_id e = Some e) ->
  (sum_list (rounds B es <$> stk) < fuel)%nat -> exists r, create_loop fuel es (g, ixs, stk) = Some r.
Proof.
  intros Ha HB fuel. induction fuel as [|fuel IH]; intros g ixs stk Hstk Hf; [lia|].
  cbn [create_loop]. destruct stk as [|e stk]; [eauto|].
  destruct (unwrap (ixs !! he_id e)) as [ix|]; cbn [mbind outcome_bind]; [|eauto].
  destruct (add_children es ix (children e) (g, ixs, stk)) as [[[g1 ixs1] stk1]|] eqn:Hadd; [|eauto].
  apply add_children_done in Hadd as [_ Hstk1]. simpl in Hstk1. subst stk1. apply IH.
  - intros e' [Hin|Hin]%elem_of_app; [by eapply child_entries_stored|apply Hstk; by right].
  - eapply rounds_step; [done|done|apply Hstk; left|done].
Qed.

(** and with a graph when all children are there. *)
Lemma create_loop_total es rank B : acyclic es rank -> (forall k, (rank k < B)%nat) -> closed es ->
  forall fuel g ixs stk,
  indexed g ixs -> (forall e, e ∈ stk -> he_id e ∈ dom ixs /\ es !! he_id e = Some e) ->
  (sum_list (rounds B es <$> stk) < fuel)%nat ->
  exists r, create_loop fuel es (g, ixs, stk) = Some (Done r) /\ indexed r.1 r.2.
Proof.
  intros Ha HB Hcl fuel. induction fuel as [|fuel IH]; intros g ixs stk Hi Hstk Hf; [lia|].
  cbn [create_loop]. destruct stk as [|e stk]; [by exists (g, ixs)|].
  destruct (Hstk e) as [[ix Hix]%elem_of_dom He]; [left|]. rewrite Hix. cbn [unwrap mbind outcome_bind].
  destruct (add_children_ok es ix (children e) g ixs stk) as (g' & ixs' & -> & Hi' & Hdom & Hids);
    [done|by apply (Hi (he_id e))|intros c Hin; by eapply Hcl|].
  apply IH; [done| |by eapply rounds_step].
  intros e' [Hin|Hin]%elem_of_app.
  - split; [by apply Hids|by eapply child_entries_stored].
  - destruct (Hstk e') as [? ?]; [by right|]. split; [by apply Hdom|done].
Qed.

Lemma create_loop_mono es fuel fuel' : forall st r,
  create_loop fuel es st = Some r -> (fuel <= fuel')%nat -> create_loop fuel' es st = Some r.
Proof.
  revert fuel'. induction fuel as [|fuel IH]; intros fuel' st r Hl Hle; [done|].
  destruct fuel' as [|fuel']; [lia|]. cbn [create_loop] in *. destruct st as [[g ixs] stk].
  destruct stk as [|e stk]; [done|]. destruct (_ ≫= _) as [st|]; [|done]. apply IH; [done|lia].
Qed.

Lemma create_total es rank B root e :
  acyclic es rank -> (forall k, (rank k < B)%nat) -> es !! root = Some e ->
  exists fuel r, (forall fuel', (fuel <= fuel')%nat -> create_petgraph fuel' root es = Some r) /\
    (closed es -> exists g, r = Done g).
Proof.
  intros Ha HB He. unfold create_petgraph. rewrite He.
  destruct (pg_add_node pg_new e) as [ix g] eqn:Hadd.
  apply pg_add_fresh in Hadd as (_ & Hsome & _ & _). destruct (Ha root e He) as [Hid _].
  assert (sum_list (rounds B es <$> [e]) < S (sum_list (rounds B es <$> [e])))%nat as Hf by lia.
  assert (forall e', e' ∈ [e] -> he_id e' ∈ dom ({[he_id e := ix]} : gmap N nat) /\
    es !! he_id e' = Some e') as Hstk.
  { intros e' ->%list_elem_of_singleton. rewrite dom_singleton, Hid. split; [set_solver|done]. }
  destruct (create_loop_ends es rank B Ha HB _ g {[he_id e := ix]} [e]
    (fun e' H => proj2 (Hstk e' H)) Hf) as [r Hr].
  eexists _, r. split; [intros fuel' Hle; eapply create_loop_mono; [exact Hr|exact Hle]|]. intros Hcl.
  assert (indexed g {[he_id e := ix]}) as Hi
    by (intros id k [_ <-]%lookup_singleton_Some; eauto).
  destruct (create_loop_total es rank B Ha HB Hcl _ g _ [e] Hi Hstk Hf) as (gi & Hgi & _).
  exists gi. congruence.
Qed.

(** *** Extending *)

Lemma link_tips_done new_id ix ts : forall h h',
  link_tips new_id ix ts h = Done h' ->
  indices h' = indices h /\ (forall k, pg_weight (graph h') k = pg_weight (graph h) k) /\
  (forall x y, pg_edge (graph h') x y = true ->
     pg_edge (graph h) x y = true \/ exists tip, indices h !! tip = Some x).
Proof.
  induction ts as [|t ts IH]; intros h h' Hl; cbn [link_tips] in Hl; [injection Hl as <-; eauto|].
  destruct (indices h !! t) as [tix|] eqn:Ht; [|done]. cbn [unwrap mbind outcome_bind] in Hl.
  apply out_bind_done in Hl as (g & [Hw Hedge]%pg_update_spec & Hl).
  apply IH in Hl as (Hix & Hw' & Hedge'). simpl in *. split_and!; [done| |].
  - intros k. by rewrite Hw', Hw.
  - intros x y Hxy. apply Hedge' in Hxy as [Hxy|?]; [|by right].
    apply Hedge in Hxy as [?|[-> _]]; [by left|right; eauto].
Qed.

Lemma link_tips_panics new_id ix t ts : forall h,
  t ∈ ts -> indices h !! t = None -> link_tips new_id ix ts h = Panic.
Proof.
  induction ts as [|t' ts IH]; intros h Hin Ht; [by apply elem_of_nil in Hin|]. cbn [link_tips].
  destruct (indices h !! t') as [tix|] eqn:Ht'; [|done]. cbn [unwrap mbind outcome_bind].
  destruct (pg_update_edge (graph h) tix ix) as [g|]; [|done]. cbn [mbind outcome_bind].
  apply IH; [|done]. apply elem_of_cons in Hin as [->|?]; [congruence|done].
Qed.

Lemma extend_tip h new_id a c h' :
  indexed (graph h) (indices h) -> extend h new_id a c = Done h' ->
  new_id ∈ tips h' /\ indices h' = indices h.
Proof.
  intros Hi. unfold extend.
  destruct (pg_add_node (graph h) (MkEntry new_id a [] c)) as [ix g] eqn:Hadd. simpl.
  intros (Hix & Hw & Hedge)%link_tips_done. simpl in *. split; [|done].
  apply pg_add_fresh in Hadd as (Hnone & Hsome & Hother & Hsame).
  unfold tips. apply elem_of_list_to_set, list_elem_of_omap. exists ix.
  rewrite Hw, Hsome. split; [|done]. apply pg_sinks_spec. rewrite Hw, Hsome. split; [eauto|].
  intros y. apply not_true_iff_false. intros [Hy|[tip Htip]]%Hedge.
  - rewrite Hsame in Hy. apply pg_edge_ends in Hy as [[w Hx] _]. congruence.
  - apply Hi in Htip as [w Hx]. congruence.
Qed.

(** The tips get the new child, the other entries stay. *)
Lemma link_tips_entries new_id ix ts : forall h h', NoDup ts ->
  link_tips new_id ix ts h = Done h' -> h_root h' = h_root h /\
  forall k, entries h' !! k = (fun e => if bool_decide (k ∈ ts) then add_child e new_id else e) <$> entries h !! k.
Proof.
  induction ts as [|t ts IH]; intros h h' Hnd Hl; cbn [link_tips] in Hl.
  - injection Hl as <-. split; [done|]. intros k. by destruct (entries h !! k).
  - apply out_bind_done in Hl as (tix & _ & (g & _ & Hl)%out_bind_done). apply NoDup_cons in Hnd as [Hnt Hnd].
    apply (IH _ _ Hnd) in Hl as [Hr He]. cbn [h_root entries] in *. split; [done|]. intros k. rewrite He.
    destruct (decide (k = t)) as [->|Hne].
    + rewrite (bool_decide_eq_true_2 (t ∈ t :: ts)), (bool_decide_eq_false_2 (t ∈ ts)) by (done || left).
      destruct (entries h !! t) as [e|] eqn:Ht; [by rewrite lookup_insert_eq|by rewrite Ht].
    + assert (bool_decide (k ∈ t :: ts) = bool_decide (k ∈ ts)) as ->.
      { apply bool_decide_ext. rewrite elem_of_cons. tauto. }
      destruct (entries h !! t); [by rewrite lookup_insert_ne|done].
Qed.

Lemma extend_entries h new_id a c h' : extend h new_id a c = Done h' -> new_id ∉ tips h ->
  h_root h' = h_root h /\ entries h' !! new_id = Some (MkEntry new_id a [] c) /\
  forall k, k <> new_id ->
    entries h' !! k = (fun e => if bool_decide (k ∈ tips h) then add_child e new_id else e) <$> entries h !! k.
Proof.
  unfold extend. destruct (pg_add_node _ _) as [ix g]. intros [Hr He]%link_tips_entries Hnew; [|apply bset_iter_nodup].
  cbn [h_root entries he_id] in *. split_and!; [done| |].
  - rewrite He, lookup_insert_eq. cbn. rewrite bool_decide_eq_false_2; [done|]. by rewrite elem_of_bset_iter.
  - intros k Hk. rewrite He, lookup_insert_ne by done. by destruct (entries h !! k); cbn;
      rewrite ?(bool_decide_ext _ _ (elem_of_bset_iter (tips h) k)).
Qed.
End HistoryProofs.

(** ** Evaluation *)

Section EvaluationProofs.
Context {G Sig L P Q : Type} `{PetGraphLaws G HistoryEntry}.
Context (sig_verify : Sig -> N -> N -> bool).
Context (some_identity : N -> result L SomeIdentity).
Context (verify_person : N -> result P VerifiedId).
Context (verify_project : N -> result Q VerifiedId).
Context (authorizer : AuthorizingIdentity).
Abbreviation ev := (evaluate_change sig_verify some_identity verify_person verify_project authorizer)
  (only parsing).
Abbreviation step := (evaluate_step sig_verify some_identity verify_person verify_project authorizer)
  (only parsing).
Implicit Type items : list (Change Sig * list N).

Lemma evaluated_id c cs e : ev c cs = Ok e -> he_id e = ch_commit c /\ children e = cs.
Proof.
  unfold evaluate_change. destruct (negb _); [done|]. intros (auth & _ & He)%res_bind_ok.
  case_bool_decide; [done|]. apply res_bind_ok in He as (found & _ & He).
  apply res_bind_ok in He as (who & _ & He). destruct (check_authorization auth who); [|done].
  by injection He as <-.
Qed.

(** The entries are those of the changes accepted by a call. *)
Lemma step_entries items : forall r es log r' es' log',
  foldl (fold_node (logged step)) (r, (es, log)) items = (r', (es', log')) ->
  NoDup (node_id <$> (log.*1 ++ items)) ->
  (forall k e, es !! k = Some e <-> exists c, (c, true) ∈ log /\ ch_commit c.1 = k /\ ev c.1 c.2 = Ok e) ->
  (forall c, (c, true) ∈ log -> is_ok (ev c.1 c.2) = true) ->
  (forall c, (c, false) ∈ log -> is_ok (ev c.1 c.2) = false) ->
  (forall k e, es' !! k = Some e <-> exists c, (c, true) ∈ log' /\ ch_commit c.1 = k /\ ev c.1 c.2 = Ok e) /\
  (forall c, (c, true) ∈ log' -> is_ok (ev c.1 c.2) = true) /\
  (forall c, (c, false) ∈ log' -> is_ok (ev c.1 c.2) = false).
Proof.
  induction items as [|n items IH]; intros r es log r' es' log' Hf Hnd He Ht Hb; cbn [foldl] in Hf.
  { injection Hf as <- <- <-. by split_and!. }
  assert (forall log1, log1 = log \/ (exists b, log1 = log ++ [(n, b)]) -> NoDup (node_id <$> (log1.*1 ++ items))) as Hnd'.
  { intros log1 [->|[b ->]].
    - eapply sublist_NoDup; [exact Hnd|]. apply fmap_sublist, sublist_app; [done|]. by constructor.
    - rewrite (fmap_app fst), <- app_assoc. exact Hnd. }
  destruct (fold_node (logged step) (r, (es, log)) n) as [r1 [es1 log1]] eqn:Hn.
  unfold fold_node in Hn. destruct (is_rejected r (node_id n)).
  { injection Hn as <- <- <-. eapply IH; [exact Hf| |done..]. by apply Hnd'; left. }
  destruct (rejected_ancestor r (node_id n)).
  { injection Hn as <- <- <-. eapply IH; [exact Hf| |done..]. by apply Hnd'; left. }
  unfold logged, evaluate_step in Hn. simpl in Hn. destruct (ev n.1 n.2) as [e|e] eqn:Hev.
  - injection Hn as <- <- <-. eapply IH; [exact Hf|apply Hnd'; eauto| | |].
    + intros k e'. setoid_rewrite elem_of_app. setoid_rewrite list_elem_of_singleton. split.
      * intros [[<- <-]|[_ Hk]]%lookup_insert_Some; [exists n; eauto|]. apply He in Hk as (c & ? & ?). eauto.
      * intros (c & [Hin|[= ->]] & Hk & Hc).
        -- rewrite lookup_insert_ne; [apply He; eauto|]. intros Heq. subst k. change (node_id n = node_id c) in Heq.
           rewrite fmap_app, fmap_cons in Hnd. apply NoDup_app in Hnd as (_ & Hdis & _).
           apply (Hdis (node_id c)); [|rewrite <- Heq; left].
           apply list_elem_of_fmap_2, list_elem_of_fmap. by exists (c, true).
        -- subst k. rewrite lookup_insert_eq. congruence.
    + intros c [Hin|[= ->]%list_elem_of_singleton]%elem_of_app; [by apply Ht|by rewrite Hev].
    + intros c [Hin|[=]%list_elem_of_singleton]%elem_of_app. by apply Hb.
  - injection Hn as <- <- <-. eapply IH; [exact Hf|apply Hnd'; eauto| | |].
    + intros k e'. rewrite He. setoid_rewrite elem_of_app. setoid_rewrite list_elem_of_singleton.
      split; intros (c & Hin & ?); exists c; split; try done; [by left|]. by destruct Hin as [?|[=]].
    + intros c [Hin|[=]%list_elem_of_singleton]%elem_of_app. by apply Ht.
    + intros c [Hin|[= ->]%list_elem_of_singleton]%elem_of_app; [by apply Hb|by rewrite Hev].
Qed.

(** The entries of an evaluation. *)
Definition evaluated items : gmap N HistoryEntry := pruning_fold ∅ items step.

Lemma evaluated_spec items :
  topological items ->
  (forall k e, evaluated items !! k = Some e <->
     exists c, c ∈ items /\ ~ below items (calls ∅ items step) c /\ ch_commit c.1 = k /\ ev c.1 c.2 = Ok e) /\
  (forall c, (c, false) ∈ calls ∅ items step -> is_ok (ev c.1 c.2) = false).
Proof.
  intros Ht. pose proof (calls_spec ∅ items step Ht) as (Hsub & Hcalls & Hres).
  unfold evaluated. rewrite <- Hres. unfold calls, pruning_fold in *.
  destruct (foldl (fold_node (logged step)) (rejected_new, (∅, [])) items) as [r [es log]] eqn:Hf.
  simpl in *. destruct (step_entries items _ _ _ _ _ _ Hf) as (He & Htrue & Hfalse).
  - simpl. by destruct Ht.
  - intros k e. rewrite lookup_empty. split; [done|]. by intros (c & ?%elem_of_nil & _).
  - by intros c ?%elem_of_nil.
  - by intros c ?%elem_of_nil.
  - split; [|done]. intros k e. rewrite He. split.
    + intros (c & Hin & Hk & Hc). exists c.
      assert (c ∈ log.*1) as Hl by (apply list_elem_of_fmap; by exists (c, true)).
      assert (c ∈ items) as Hci by (by eapply elem_of_sublist). split_and!; [done|by apply Hcalls|done|done].
    + intros (c & Hin & Hb & Hk & Hc). apply Hcalls in Hb; [|done].
      apply list_elem_of_fmap in Hb as ([c' b] & -> & Hb). exists c'. simpl in *.
      destruct b; [done|]. apply Hfalse in Hb. by rewrite Hc in Hb.
Qed.

Lemma same_change items c c' :
  topological items -> c ∈ items -> c' ∈ items -> ch_commit c.1 = ch_commit c'.1 -> c = c'.
Proof.
  intros [Hnd _] [i Hi]%list_elem_of_lookup [j Hj]%list_elem_of_lookup Heq.
  assert (i = j) as ->; [|congruence].
  eapply NoDup_lookup; [exact Hnd| |]; rewrite list_lookup_fmap.
  - by rewrite Hi.
  - rewrite Hj. simpl. by rewrite Heq.
Qed.

(** The position of a change from the end; 0 for ids that are not there. *)
Definition position items (k : N) : nat :=
  (length items - match list_find (fun c => ch_commit c.1 = k) items with
                  | Some (i, _) => i | None => length items end)%nat.

Lemma position_of items c i :
  topological items -> items !! i = Some c -> position items (ch_commit c.1) = (length items - i)%nat.
Proof.
  intros Ht Hi. unfold position.
  assert (c ∈ items) as Hin by (by eapply list_elem_of_lookup_2).
  destruct (list_find_elem_of (fun d => ch_commit d.1 = ch_commit c.1) items c) as [[j d] Hj]; [done|done|].
  rewrite Hj. apply list_find_Some in Hj as (Hl & Heq & _).
  assert (d = c) as -> by (apply (same_change items); [done|by eapply list_elem_of_lookup_2|done|done]).
  f_equal. destruct Ht as [Hnd _]. eapply (NoDup_lookup (node_id <$> items)); [done|..];
    rewrite list_lookup_fmap; [by rewrite Hl|by rewrite Hi].
Qed.

(** Positions go down from a change to its children. *)
Lemma evaluated_acyclic items :
  topological items -> acyclic (evaluated items) (position items) /\
  forall k, (position items k < S (length items))%nat.
Proof.
  intros Ht. split; [|intros k; unfold position; lia]. intros k e Hk.
  apply (proj1 (evaluated_spec items Ht)) in Hk as (c & Hin & _ & <- & Hc).
  apply evaluated_id in Hc as [Hid Hch]. split; [done|]. rewrite Hch. intros x Hx.
  apply list_elem_of_lookup in Hin as [i Hi]. rewrite (position_of items c i Ht Hi).
  pose proof (lookup_lt_Some _ _ _ Hi). unfold position.
  destruct (list_find _ items) as [[j d]|] eqn:Hj; [|lia].
  apply list_find_Some in Hj as (Hd & Hdx & _).
  assert (i < j)%nat; [|apply lookup_lt_Some in Hd; lia].
  apply (proj2 Ht i j c d Hi Hd). simpl. by rewrite Hdx.
Qed.

Lemma evaluated_all items :
  topological items -> (forall c, c ∈ items -> is_ok (ev c.1 c.2) = true) ->
  forall k e, evaluated items !! k = Some e <->
    exists c, c ∈ items /\ ch_commit c.1 = k /\ ev c.1 c.2 = Ok e.
Proof.
  intros Ht Hok. destruct (evaluated_spec items Ht) as [He Hfalse].
  assert (forall c, ~ below items (calls ∅ items step) c) as Hnb.
  { intros c (m & _ & Hl & _). induction Hl as [n Hin|]; [|done].
    pose proof (calls_spec ∅ items step Ht) as (Hsub & _).
    assert (n ∈ items) as Hni.
    { eapply elem_of_sublist; [|exact Hsub]. apply list_elem_of_fmap. by exists (n, false). }
    apply Hfalse in Hin. by rewrite Hok in Hin. }
  intros k e. rewrite He. split; intros (c & Hc); exists c; naive_solver.
Qed.

Lemma evaluate_history fuel root items h :
  evaluate (G := G) sig_verify some_identity verify_person verify_project authorizer fuel root items
    = Some (Done h) ->
  exists e, evaluated items !! root = Some e /\ entries h = evaluated items /\
    forall e' c, reaches_entry (evaluated items) e e' -> c ∈ children e' -> is_Some (evaluated items !! c).
Proof.
  unfold evaluate, history_new. fold (evaluated items).
  destruct (evaluated items !! root) as [e|] eqn:Hroot; [|done]. unfold create_petgraph. rewrite Hroot.
  destruct (pg_add_node pg_new e) as [ix g].
  destruct (create_loop fuel _ _) as [[[g' ixs']|]|] eqn:Hl; [|done|done]. intros [= <-].
  exists e. split_and!; [done|done|]. intros e' c. apply (create_loop_closed _ _ _ _ _ _ Hl). left.
Qed.
(** Acceptable changes are all in the history. *)
Lemma evaluates_all root items :
  topological items -> (forall c, c ∈ items -> is_ok (ev c.1 c.2) = true) ->
  (forall c k, c ∈ items -> k ∈ c.2 -> exists c', c' ∈ items /\ ch_commit c'.1 = k) ->
  (exists c, c ∈ items /\ ch_commit c.1 = root) ->
  exists fuel h, (forall fuel', (fuel <= fuel')%nat -> 
      evaluate (G := G) sig_verify some_identity verify_person verify_project authorizer fuel' root items
        = Some (Done h)) /\ h_root h = root /\
    forall k e, entries h !! k = Some e <->
      exists c, c ∈ items /\ ch_commit c.1 = k /\ ev c.1 c.2 = Ok e.
Proof.
  intros Ht Hok Hclosed (c0 & Hc0 & Hroot).
  destruct (evaluated_acyclic items Ht) as [Ha HB].
  pose proof (evaluated_all items Ht Hok) as He.
  pose proof (Hok c0 Hc0) as Hok0. destruct (ev c0.1 c0.2) as [e0|] eqn:Hev; [|done].
  set (es := evaluated items) in *.
  assert (es !! root = Some e0) as Hr by (apply He; by exists c0).
  destruct (create_total (G := G) es _ _ root e0 Ha HB Hr) as (fuel & r & Hf & Hdone).
  destruct Hdone as [[g ixs] ->].
  { intros k e x (c & Hc & <- & Hce)%He Hx. apply evaluated_id in Hce as [_ Hch]. rewrite Hch in Hx.
    destruct (Hclosed c x Hc Hx) as (c' & Hc' & <-). pose proof (Hok c' Hc') as Hok'.
    destruct (ev c'.1 c'.2) as [e'|] eqn:Hev'; [|done]. exists e'. apply He. eauto. }
  exists fuel, (MkHistory root es ixs g). split_and!; [|done|exact He].
  intros fuel' Hle. unfold evaluate, history_new.
  fold (evaluated items). fold es.
  by rewrite Hr, Hf.
Qed.
End EvaluationProofs.

(** ** Theorems *)

Section CobClaims.
Context {G Sig L P Q : Type} `{PetGraphLaws G HistoryEntry}.
Context (sig_verify : Sig -> N -> N -> bool).
Context (some_identity : N -> result L SomeIdentity).
Context (verify_person : N -> result P VerifiedId).
Context (verify_project : N -> result Q VerifiedId).
Context (authorizer : AuthorizingIdentity).
Abbreviation ev := (evaluate_change sig_verify some_identity verify_person verify_project authorizer)
  (only parsing).
Abbreviation run := (evaluate (G := G) sig_verify some_identity verify_person verify_project authorizer)
  (only parsing).
Implicit Type items : list (Change Sig * list N).

(** [evaluate_complete]: a graph of changes whose children are all in it, in
    topological order and all acceptable, evaluates without panic, with enough fuel,
    to a history with exactly one entry per change. *)
Theorem evaluate_complete root items :
  topological items -> (forall c, c ∈ items -> is_ok (ev c.1 c.2) = true) ->
  (forall c k, c ∈ items -> k ∈ c.2 -> exists c', c' ∈ items /\ ch_commit c'.1 = k) ->
  (exists c, c ∈ items /\ ch_commit c.1 = root) ->
  exists fuel h, (forall fuel', (fuel <= fuel')%nat -> run fuel' root items = Some (Done h)) /\
    forall k e, entries h !! k = Some e <->
      exists c, c ∈ items /\ ch_commit c.1 = k /\ ev c.1 c.2 = Ok e.
Proof.
  intros Ht Hok Hclosed Hroot. destruct (evaluates_all sig_verify some_identity verify_person verify_project
    authorizer root items Ht Hok Hclosed Hroot) as (fuel & h & Hf & _ & He). eauto.
Qed.

(** [rejected_change_panics]: when the root change has a child that is not
    acceptable, as any peer can publish, evaluation does not leave the child out but
    panics: the child stays listed under its parent, or the root is not accepted
    itself, and the construction of the graph looks both up. *)
Theorem rejected_change_panics items (r c : Change Sig * list N) :
  topological items -> r ∈ items -> c ∈ items -> ch_commit c.1 ∈ r.2 ->
  is_ok (ev c.1 c.2) = false ->
  exists fuel, forall fuel', (fuel <= fuel')%nat -> run fuel' (ch_commit r.1) items = Some Panic.
Proof.
  intros Ht Hr Hc Hchild Hrej.
  assert (forall fuel h, run fuel (ch_commit r.1) items <> Some (Done h)) as Hnot.
  { intros fuel h Hrun. apply evaluate_history in Hrun as (e & He & _ & Hclosed).
    destruct (evaluated_spec sig_verify some_identity verify_person verify_project authorizer items Ht)
      as [Hspec _].
    apply Hspec in He as (r' & Hr' & _ & Hid & Hev).
    assert (r' = r) as -> by (by apply (same_change items)).
    apply evaluated_id in Hev as [_ Hch].
    destruct (Hclosed e (ch_commit c.1)) as [e' He']; [constructor|by rewrite Hch|].
    apply Hspec in He' as (c' & Hc' & _ & Hid' & Hev').
    assert (c' = c) as -> by (by apply (same_change items)). by rewrite Hev' in Hrej. }
  destruct (evaluated_acyclic sig_verify some_identity verify_person verify_project authorizer
    items Ht) as [Ha HB].
  unfold evaluate, history_new in *.
  fold (evaluated sig_verify some_identity verify_person verify_project authorizer items) in *.
  set (es := evaluated sig_verify some_identity verify_person verify_project authorizer items) in *.
  destruct (es !! ch_commit r.1) as [e|] eqn:He; [|exists 0%nat; done].
  destruct (create_total (G := G) es _ _ _ e Ha HB He) as (fuel & o & Hf & _).
  exists fuel. intros fuel' Hle. specialize (Hnot fuel'). rewrite (Hf fuel' Hle) in *.
  destruct o as [[g ixs]|]; [|done]. by destruct (Hnot (MkHistory (ch_commit r.1) es ixs g)).
Qed.

(** [unsigned_change_accepted]: a change without any signature passes evaluation like
    a signed one, and signatures need not be by keys of the author: the verdict does
    not depend on who signed, only on the signatures present being valid. *)
Theorem unsigned_change_accepted (c : Change Sig) child_commits :
  valid_signatures sig_verify c = true ->
  ev (MkChange (ch_commit c) (ch_revision c) ∅ (author_commit c) (schema_commit c)
        (authorizing_identity_commit c) (manifest c) (ch_contents c)) child_commits = ev c child_commits.
Proof. intros Hv. unfold evaluate_change. rewrite Hv. done. Qed.

(** [second_extend_panics]: extending a history does not record the index of the new
    node, so that the next extension, whose tips include it, panics. *)
Theorem second_extend_panics (h h' : History G) id a cont id' a' cont' :
  indexed (graph h) (indices h) -> indices h !! id = None ->
  extend h id a cont = Done h' -> extend h' id' a' cont' = Panic.
Proof.
  intros Hi Hnew Hext. destruct (extend_tip _ _ _ _ _ Hi Hext) as [Htip Hix].
  unfold extend. destruct (pg_add_node (graph h') _) as [ix g]. simpl.
  eapply (link_tips_panics _ _ id); [by apply elem_of_bset_iter|]. simpl. by rewrite Hix.
Qed.
End CobClaims.

(** ** A graph that satisfies the laws *)

Module ListGraph.
(** Nodes in order of insertion, edges between them. *)
Definition edges_ok (n : nat) (es : list (nat * nat)) : Prop :=
  Forall (fun e => (e.1 < n)%nat /\ (e.2 < n)%nat) es.

Record lgraph (A : Type) := MkLGraph {
  nodes : list A;
  lgedges : list (nat * nat);
  lg_ok : edges_ok (length nodes) lgedges;
}.
Arguments MkLGraph {A} _ _ _.
Arguments nodes {A} _.
Arguments lgedges {A} _.
Arguments lg_ok {A} _.

Lemma add_ok {A} (g : lgraph A) a : edges_ok (length (nodes g ++ [a])) (lgedges g).
Proof.
  eapply Forall_impl; [exact (lg_ok g)|]. intros e. rewrite length_app. simpl. lia.
Qed.

Lemma edge_ok {A} (g : lgraph A) a b :
  (a < length (nodes g))%nat /\ (b < length (nodes g))%nat ->
  edges_ok (length (nodes g)) ((a, b) :: lgedges g).
Proof. intros Hab. constructor; [exact Hab|exact (lg_ok g)]. Qed.

Definition lg_update {A} (g : lgraph A) (a b : nat) : outcome (lgraph A) :=
  match decide (a < length (nodes g) /\ b < length (nodes g))%nat with
  | left Hab => Done (MkLGraph (nodes g) ((a, b) :: lgedges g) (edge_ok g a b Hab))
  | right _ => Panic
  end.

(** Nodes none of whose parents are left come first; nodes on cycles are left out. *)
Fixpoint kahn (fuel : nat) (es : list (nat * nat)) (todo : list nat) : list nat :=
  match fuel with
  | O => []
  | S fuel =>
      match list_find (fun x => Forall (fun e => e.2 = x -> e.1 ∉ todo) es) todo with
      | None => []
      | Some (_, x) => x :: kahn fuel es (filter (fun y => y <> x) todo)
      end
  end.

#[export] Instance list_graph {A} : PetGraph (lgraph A) A := {|
  pg_new := MkLGraph [] [] (Forall_nil_2 _);
  pg_add_node g a := (length (nodes g), MkLGraph (nodes g ++ [a]) (lgedges g) (add_ok g a));
  pg_update_edge := lg_update;
  pg_weight g k := nodes g !! k;
  pg_edge g x y := bool_decide ((x, y) ∈ lgedges g);
  pg_sinks g := filter (fun x => x ∉ (lgedges g).*1) (seq 0 (length (nodes g)));
  pg_topo g := kahn (length (nodes g)) (lgedges g) (seq 0 (length (nodes g)));
|}.

#[export] Program Instance list_graph_laws {A} : PetGraphLaws (lgraph A) A.
Next Obligation.
  intros A g a ix g' [= <- <-]. simpl. split_and!.
  - by apply lookup_ge_None_2.
  - by apply list_lookup_middle.
  - intros k Hk. destruct (decide (k < length (nodes g))%nat).
    + by apply lookup_app_l.
    + rewrite !lookup_ge_None_2; [done|lia|rewrite length_app; simpl; lia].
  - done.
Qed.
Next Obligation.
  intros A g x y Hxy. simpl in *. apply bool_decide_eq_true in Hxy.
  pose proof (lg_ok g) as Hok. eapply Forall_forall in Hok as [Hx Hy]; [|exact Hxy]. simpl in *.
  split; by apply lookup_lt_is_Some.
Qed.
Next Obligation.
  intros A g a b Ha Hb. simpl in *. apply lookup_lt_is_Some in Ha, Hb. unfold lg_update.
  destruct (decide _) as [?|Hn]; [eauto|]. by destruct Hn.
Qed.
Next Obligation.
  intros A g a b g'. simpl. unfold lg_update. destruct (decide _); [|done]. intros [= <-]. simpl.
  split; [done|]. intros x y. rewrite !bool_decide_eq_true, elem_of_cons. naive_solver.
Qed.
Next Obligation.
  intros A g ix. simpl. rewrite list_elem_of_filter, elem_of_seq, lookup_lt_is_Some. split.
  - intros [Hn Hlt]. split; [lia|]. intros y. apply bool_decide_eq_false. intros Hin.
    apply Hn, list_elem_of_fmap. by exists (ix, y).
  - intros [Hlt Hn]. split; [|lia]. intros ([x y] & -> & Hin)%list_elem_of_fmap.
    specialize (Hn y). by apply bool_decide_eq_false in Hn.
Qed.
End ListGraph.
Import ListGraph.

(** A project's object: a root change with one child. *)
Module CobExample.
Definition auth : AuthorizingIdentity := AuthProject (MkVerified 60 50).
Definition some_identity (o : N) : result unit SomeIdentity :=
  if N.eqb o 50 then Ok ProjectIdentity else Ok PersonIdentity.
Definition person (o : N) : result unit VerifiedId := if N.eqb o 11 then Ok (MkVerified 7 11) else Err tt.
Definition project (o : N) : result unit VerifiedId := Ok (MkVerified 60 50).
Definition verify (s r k : N) : bool := N.eqb s (r + k).
Definition the_manifest : Manifest := MkManifest (lit "issue") AutomergeHistory.
Definition root_change : Change N := MkChange 100 5 {[ 1%N := 6%N ]} 11 None 50 the_manifest (Automerge [1%N]).
Definition good_child : Change N := MkChange 101 8 {[ 1%N := 9%N ]} 11 None 50 the_manifest (Automerge [2%N]).
(** Its author cannot be verified. *)
Definition bad_child : Change N := MkChange 101 8 {[ 1%N := 9%N ]} 12 None 50 the_manifest (Automerge [2%N]).

Lemma two_topological (c : Change N) :
  ch_commit c = 101%N -> topological [(root_change, [101%N]); (c, [])].
Proof.
  intros Hc. split.
  - simpl. rewrite Hc. by apply (bool_decide_unpack _).
  - intros i j m n Hi Hj Hin. destruct i as [|[|i]], j as [|[|j]]; simpl in *; simplify_eq;
      simpl in *; try lia; set_solver.
Qed.
End CobExample.
Import CobExample.

Lemma evaluate_complete_witness :
  exists fuel h, (forall fuel', (fuel <= fuel')%nat ->
      evaluate (G := lgraph HistoryEntry) verify some_identity person project auth fuel' 100%N
        [(root_change, [101%N]); (good_child, [])] = Some (Done h)) /\
    is_Some (entries h !! 101%N).
Proof.
  destruct (evaluate_complete (G := lgraph HistoryEntry) verify some_identity person project auth 100%N
    [(root_change, [101%N]); (good_child, [])]) as (fuel & h & Hf & He).
  - apply two_topological. reflexivity.
  - intros c [->|[->|[]%elem_of_nil]%elem_of_cons]%elem_of_cons; vm_compute; reflexivity.
  - intros c k [->|[->|[]%elem_of_nil]%elem_of_cons]%elem_of_cons Hk; [|by apply elem_of_nil in Hk].
    apply list_elem_of_singleton in Hk as ->. exists (good_child, []). split; [right; left|reflexivity].
  - exists (root_change, [101%N]). split; [left|reflexivity].
  - exists fuel, h. split; [exact Hf|]. exists (MkEntry 101 7 [] (Automerge [2%N])). apply He.
    exists (good_child, []). split; [right; left|]. split; vm_compute; reflexivity.
Defined.

Lemma rejected_change_panics_witness :
  exists fuel, forall fuel', (fuel <= fuel')%nat ->
    evaluate (G := lgraph HistoryEntry) verify some_identity person project auth fuel' 100%N
      [(root_change, [101%N]); (bad_child, [])] = Some Panic.
Proof.
  apply (rejected_change_panics (G := lgraph HistoryEntry) verify some_identity person project auth
    [(root_change, [101%N]); (bad_child, [])] (root_change, [101%N]) (bad_child, [])).
  - apply two_topological. reflexivity.
  - left.
  - right. left.
  - left.
  - vm_compute. reflexivity.
Defined.

Lemma unsigned_change_accepted_witness :
  evaluate_change verify some_identity person project auth
    (MkChange 101 8 ∅ 11 None 50 the_manifest (Automerge [2%N])) [] =
  Ok (MkEntry 101 7 [] (Automerge [2%N])).
Proof.
  etransitivity.
  - apply (unsigned_change_accepted verify some_identity person project auth good_child []).
    vm_compute. reflexivity.
  - vm_compute. reflexivity.
Defined.

Lemma second_extend_panics_witness :
  exists h h' : History (lgraph HistoryEntry),
    new_from_root 2 100 7 (Automerge []) = Some (Done h) /\
    extend h 101 7 (Automerge []) = Done h' /\ extend h' 102 7 (Automerge []) = Panic.
Proof.
  assert (exists h : History (lgraph HistoryEntry), new_from_root 2 100 7 (Automerge []) = Some (Done h) /\
    indices h = {[ 100%N := 0%nat ]} /\ is_Some (pg_weight (graph h) 0) /\
    exists h', extend h 101 7 (Automerge []) = Done h') as (h & Hh & Hix & Hw & h' & Hh').
  { eexists. split; [reflexivity|]. split; [reflexivity|]. split; [by eexists|].
    eexists. reflexivity. }
  exists h, h'. split; [exact Hh|]. split; [exact Hh'|].
  apply (second_extend_panics h h' 101%N 7%N (Automerge []) 102%N 7%N (Automerge [])); [| |exact Hh'].
  - intros id ix. rewrite Hix. by intros [_ <-]%lookup_singleton_Some.
  - by rewrite Hix.
Defined.
