(* ===== verification/Trailers.v ===== *)
(** * Trailers of commit messages

    [git-trailers/src/lib.rs]: the last paragraph of a commit message holds lines of
    tokens and values.  [parse] reads them, [display] renders them.  The parser is
    written with the combinators of the library nom: they are the interface [Nom],
    with their documented behaviour as [NomLaws]; [ListNom] meets it. *)
From stdpp Require Import base list.
From Stdlib Require Import NArith Lia.
From Stdlib Require String.
Import String.StringSyntax.
From S2P Require Import Prelude RefFormat.
#[local] Open Scope N_scope.

Definition nl : N := 10.
Definition cr : N := 13.
Definition is_blank (c : N) : bool := (c =? 32) || (c =? 9).
Definition is_eol (c : N) : bool := (c =? nl) || (c =? cr).

(** [char::is_whitespace]: the code points with the property [White_Space]. *)
Definition is_whitespace (c : N) : bool :=
  (9 <=? c) && (c <=? 13) || (c =? 32) || (c =? 133) || (c =? 160) || (c =? 5760) ||
  (8192 <=? c) && (c <=? 8202) || (c =? 8232) || (c =? 8233) || (c =? 8239) || (c =? 8287) || (c =? 12288).

(** [str::trim_end]. *)
Fixpoint trim_start (s : list N) : list N :=
  match s with
  | [] => []
  | c :: s' => if is_whitespace c then trim_start s' else s
  end.
Definition trim_end (s : list N) : list N := reverse (trim_start (reverse s)).

(** [char::is_alphanumeric], a table of Unicode: what it says of ASCII. *)
Class Alphanumeric := {
  is_alphanumeric : N -> bool;
  alphanumeric_ascii c : c < 128 -> is_alphanumeric c =
    (48 <=? c) && (c <=? 57) || (65 <=? c) && (c <=? 90) || (97 <=? c) && (c <=? 122);
}.

(** ** The library nom

    A parser returns what is left of the input and a value. *)
Definition parser (E A : Type) : Type := list N -> result E (list N * A).

Class Nom (E : Type) := {
  tag : list N -> parser E (list N);
  take_until : list N -> parser E (list N);
  take_while1 : (N -> bool) -> parser E (list N);
  line_ending : parser E (list N);
  not_line_ending : parser E (list N);
  one_of : list N -> parser E N;
  space0 : parser E (list N);
  space1 : parser E (list N);
  rest : parser E (list N);
  alt {A} : parser E A -> parser E A -> parser E A;
  pmap {A B} : parser E A -> (A -> B) -> parser E B;
  many0 {A} : parser E A -> parser E (list A);
  separated_list1 {A B} : parser E B -> parser E A -> parser E (list A);
  delimited {A B D} : parser E A -> parser E B -> parser E D -> parser E B;
  preceded {A B} : parser E A -> parser E B -> parser E B;
  terminated {A B} : parser E A -> parser E B -> parser E A;
  separated_pair {A B D} : parser E A -> parser E B -> parser E D -> parser E (A * D);
}.

Definition fails {E A} (r : result E A) : Prop := exists e, r = Err e.

(** The character [s] starts with, if any, is not of the kind. *)
Definition stops (p : N -> bool) (s : list N) : Prop :=
  match s with [] => True | c :: _ => p c = false end.

Class NomLaws (E : Type) `{Nom E} := {
  tag_ok t s : tag t (t ++ s) = Ok (s, t);
  tag_fails t s : (forall s', s <> t ++ s') -> fails (tag t s);
  take_until_ok t a s : (forall a' s', a ++ t ++ s = a' ++ t ++ s' -> length a <= length a')%nat ->
    take_until t (a ++ t ++ s) = Ok (t ++ s, a);
  take_until_fails t s : (forall a' s', s <> a' ++ t ++ s') -> fails (take_until t s);
  take_while1_ok p a s : a <> [] -> Forall (fun c => p c = true) a -> stops p s ->
    take_while1 p (a ++ s) = Ok (s, a);
  take_while1_fails p s : stops p s -> fails (take_while1 p s);
  line_ending_ok s : line_ending (nl :: s) = Ok (s, [nl]);
  line_ending_cr s : line_ending (cr :: nl :: s) = Ok (s, [cr; nl]);
  line_ending_fails s : stops is_eol s -> fails (line_ending s);
  not_line_ending_ok a s : Forall (fun c => is_eol c = false) a ->
    (s = [] \/ (exists s', s = nl :: s') \/ (exists s', s = cr :: nl :: s')) ->
    not_line_ending (a ++ s) = Ok (s, a);
  one_of_ok cs c s : c ∈ cs -> one_of cs (c :: s) = Ok (s, c);
  one_of_fails cs s : stops (fun c => bool_decide (c ∈ cs)) s -> fails (one_of cs s);
  space0_ok a s : Forall (fun c => is_blank c = true) a -> stops is_blank s -> space0 (a ++ s) = Ok (s, a);
  space1_ok a s : a <> [] -> Forall (fun c => is_blank c = true) a -> stops is_blank s ->
    space1 (a ++ s) = Ok (s, a);
  space1_fails s : stops is_blank s -> fails (space1 s);
  rest_ok s : rest s = Ok ([], s);
  alt_left {A} (p q : parser E A) s x : p s = Ok x -> alt p q s = Ok x;
  alt_right {A} (p q : parser E A) s x : fails (p s) -> q s = Ok x -> alt p q s = Ok x;
  pmap_ok {A B} (p : parser E A) (f : A -> B) s :
    pmap p f s = '(r, a) ← p s; Ok (r, f a);
  many0_stop {A} (p : parser E A) s : fails (p s) -> many0 p s = Ok (s, []);
  many0_more {A} (p : parser E A) s r a : p s = Ok (r, a) -> (length r < length s)%nat ->
    many0 p s = '(r, l) ← many0 p r; Ok (r, a :: l);
  separated_list1_eq {A B} (sep : parser E B) (p : parser E A) s :
    (forall s r x, sep s = Ok (r, x) -> (length r < length s)%nat) ->
    separated_list1 sep p s =
      '(r, a) ← p s;
      '(r, l) ← many0 (preceded sep p) r;
      Ok (r, a :: l);
  delimited_eq {A B D} (p : parser E A) (q : parser E B) (t : parser E D) s :
    delimited p q t s = '(r, _) ← p s; '(r, b) ← q r; '(r, _) ← t r; Ok (r, b);
  preceded_eq {A B} (p : parser E A) (q : parser E B) s :
    preceded p q s = '(r, _) ← p s; q r;
  terminated_eq {A B} (p : parser E A) (q : parser E B) s :
    terminated p q s = '(r, a) ← p s; '(r, _) ← q r; Ok (r, a);
  separated_pair_eq {A B D} (p : parser E A) (q : parser E B) (t : parser E D) s :
    separated_pair p q t s = '(r, a) ← p s; '(r, _) ← q r; '(r, d) ← t r; Ok (r, (a, d));
}.

(** ** Trailers *)

(** [Token] is the string it wraps. *)
Record Trailer : Type := MkTrailer {
  token : list N;
  values : list (list N);
}.
#[export] Instance trailer_eq_dec : EqDecision Trailer.
Proof. solve_decision. Defined.

Inductive Error (E : Type) : Type :=
| MissingParagraph
| Trailing (rest : list N)
| Parse (e : E).
Arguments MissingParagraph {E}.
Arguments Trailing {E} rest.
Arguments Parse {E} e.

Inductive InvalidToken (E : Type) : Type :=
| TokenTrailing (rest : list N)
| TokenParse (e : E).
Arguments TokenTrailing {E} rest.
Arguments TokenParse {E} e.

(** [values.join(sep)]. *)
Fixpoint join_with (sep : list N) (l : list (list N)) : list N :=
  match l with
  | [] => []
  | [v] => v
  | v :: l => v ++ sep ++ join_with sep l
  end.

(** [Display] of one trailer. *)
Definition display_one (separator : list N) (t : Trailer) : list N :=
  token t ++ separator ++ join_with (nl :: str "  ") (values t).

(** [DisplayMany]: [sep_for] is the trait [Separator]. *)
Definition display (sep_for : list N -> list N) (ts : list Trailer) : list N :=
  join_with [nl] ((fun t => display_one (sep_for (token t)) t) <$> ts).

Module Parser.
Section Parser.
Context {E : Type} `{Nom E} `{Alphanumeric}.

Definition EMPTY_LINE : list N := [nl; nl].

Definition paragraph : parser E (list N) := alt (take_until EMPTY_LINE) rest.
Definition paragraphs : parser E (list (list N)) := separated_list1 (tag EMPTY_LINE) paragraph.

Definition is_token_char (c : N) : bool := is_alphanumeric c || (c =? 45).

Definition p_token : parser E (list N) := take_while1 is_token_char.
Definition separator (separators : list N) : parser E N := delimited space0 (one_of separators) space0.
Definition until_eol : parser E (list N) := terminated not_line_ending line_ending.
Definition until_eol_or_eof : parser E (list N) := alt until_eol rest.
Definition indented_line_contents : parser E (list N) := preceded space1 until_eol_or_eof.
Definition multiline_values : parser E (list (list N)) := many0 (pmap indented_line_contents (fun v => v)).

Definition p_values : parser E (list (list N)) := fun s =>
  '(r, opt_inline_value) ← until_eol_or_eof s;
  '(r, vs) ← multiline_values r;
  Ok (r, match opt_inline_value with [] => vs | _ => opt_inline_value :: vs end).

Definition trailer (separators : list N) : parser E Trailer := fun s =>
  '(r, (t, vs)) ← separated_pair p_token (separator separators) p_values s;
  Ok (r, MkTrailer t vs).

Definition trailers (separators : list N) : parser E (list Trailer) := many0 (trailer separators).
End Parser.
End Parser.

Section Parse.
Context {E : Type} `{Nom E} `{Alphanumeric}.

Definition parse (message separators : list N) : result (Error E) (list Trailer) :=
  p ← (match Parser.paragraphs (trim_end message) with
       | Err _ => Err MissingParagraph
       | Ok (_, ps) =>
           match list.last ps with
           | None | Some [] => Err MissingParagraph
           | Some p => Ok p
           end
       end);
  match Parser.trailers separators p with
  | Ok ([], ts) => Ok ts
  | Ok (unparseable, _) => Err (Trailing unparseable)
  | Err e => Err (Parse e)
  end.

Definition token_try_from (s : list N) : result (InvalidToken E) (list N) :=
  match Parser.p_token s with
  | Ok ([], t) => Ok t
  | Ok (trailing, _) => Err (TokenTrailing trailing)
  | Err e => Err (TokenParse e)
  end.
End Parse.

(** ** The combinators on lists *)
Module ListNom.

Fixpoint span (p : N -> bool) (s : list N) : list N * list N :=
  match s with
  | [] => ([], [])
  | c :: s' => if p c then let '(a, b) := span p s' in (c :: a, b) else ([], s)
  end.

Definition strip (t s : list N) : option (list N) :=
  if bool_decide (take (length t) s = t) then Some (drop (length t) s) else None.

Fixpoint find_sub (t s : list N) : option (list N) :=
  match strip t s with
  | Some _ => Some []
  | None => match s with [] => None | c :: s' => cons c <$> find_sub t s' end
  end.

Definition p_until (t : list N) : parser unit (list N) := fun s =>
  match find_sub t s with Some a => Ok (drop (length a) s, a) | None => Err tt end.
Definition p_while (p : N -> bool) : parser unit (list N) := fun s => let '(a, b) := span p s in Ok (b, a).
Definition p_nonempty (p : N -> bool) : parser unit (list N) := fun s =>
  match span p s with ([], _) => Err tt | (a, b) => Ok (b, a) end.
Definition p_eol : parser unit (list N) := fun s =>
  match s with
  | c :: s' =>
      if c =? nl then Ok (s', [c])
      else match s' with
           | d :: s'' => if (c =? cr) && (d =? nl) then Ok (s'', [c; d]) else Err tt
           | [] => Err tt
           end
  | [] => Err tt
  end.
Definition p_line : parser unit (list N) := fun s =>
  let '(a, b) := span (fun c => negb (is_eol c)) s in
  match b with
  | [] => Ok (b, a)
  | _ => match p_eol b with Ok _ => Ok (b, a) | Err e => Err e end
  end.
Definition p_one (cs : list N) : parser unit N := fun s =>
  match s with
  | c :: s' => if bool_decide (c ∈ cs) then Ok (s', c) else Err tt
  | [] => Err tt
  end.

Fixpoint loop {A} (fuel : nat) (p : parser unit A) (s : list N) : result unit (list N * list A) :=
  match fuel with
  | O => Ok (s, [])
  | S fuel =>
      match p s with
      | Err _ => Ok (s, [])
      | Ok (r, a) =>
          if (length s <=? length r)%nat then Err tt
          else '(r, l) ← loop fuel p r; Ok (r, a :: l)
      end
  end.
Definition p_many {A} (p : parser unit A) : parser unit (list A) := fun s => loop (S (length s)) p s.
Definition seq {A B} (p : parser unit A) (q : parser unit B) : parser unit B := fun s => '(r, _) ← p s; q r.

#[export] Instance list_nom : Nom unit := {|
  tag := fun t s => match strip t s with Some r => Ok (r, t) | None => Err tt end;
  take_until := p_until;
  take_while1 := p_nonempty;
  line_ending := p_eol;
  not_line_ending := p_line;
  one_of := p_one;
  space0 := p_while is_blank;
  space1 := p_nonempty is_blank;
  rest := fun s => Ok ([], s);
  alt A p q := fun s => match p s with Ok x => Ok x | Err _ => q s end;
  pmap A B p f := fun s => '(r, a) ← p s; Ok (r, f a);
  many0 A p := p_many p;
  separated_list1 A B sep p := fun s =>
    '(r, a) ← p s; '(r, l) ← p_many (seq sep p) r; Ok (r, a :: l);
  delimited A B D p q t := fun s => '(r, _) ← p s; '(r, b) ← q r; '(r, _) ← t r; Ok (r, b);
  preceded A B p q := seq p q;
  terminated A B p q := fun s => '(r, a) ← p s; '(r, _) ← q r; Ok (r, a);
  separated_pair A B D p q t := fun s =>
    '(r, a) ← p s; '(r, _) ← q r; '(r, d) ← t r; Ok (r, (a, d));
|}.

Lemma span_ok p a s : Forall (fun c => p c = true) a -> stops p s -> span p (a ++ s) = (a, s).
Proof.
  intros Ha Hs. induction Ha as [|c a Hc _ IH]; cbn [app span].
  - destruct s as [|c s]; [done|]. simpl in *. by rewrite Hs.
  - by rewrite Hc, IH.
Qed.

Lemma span_nil p s : stops p s -> span p s = ([], s).
Proof. intros Hs. by apply (span_ok p []). Qed.

Lemma strip_ok t s : strip t (t ++ s) = Some s.
Proof.
  unfold strip. rewrite bool_decide_eq_true_2 by apply take_app_length. by rewrite drop_app_length.
Qed.
Lemma strip_some t s r : strip t s = Some r -> s = t ++ r.
Proof.
  unfold strip. case_bool_decide as Ht; [|done]. intros [= <-]. rewrite <- Ht at 1. by rewrite take_drop.
Qed.

Lemma find_sub_some t s a : find_sub t s = Some a -> exists r, s = a ++ t ++ r.
Proof.
  revert a. induction s as [|c s IH]; intros a; cbn [find_sub].
  - destruct (strip t []) as [r|] eqn:Hs; [|done]. intros [= <-]. apply strip_some in Hs. by exists r.
  - destruct (strip t (c :: s)) as [r|] eqn:Hs.
    + intros [= <-]. apply strip_some in Hs. by exists r.
    + destruct (find_sub t s) as [a'|]; [|done]. intros [= <-]. destruct (IH a' eq_refl) as [r ->]. by exists r.
Qed.

Lemma find_sub_first t a s :
  (forall a' s', a ++ t ++ s = a' ++ t ++ s' -> length a <= length a')%nat ->
  find_sub t (a ++ t ++ s) = Some a.
Proof.
  induction a as [|c a IH]; intros Hmin.
  - simpl. destruct (t ++ s) eqn:Hts; cbn [find_sub]; rewrite <- Hts, strip_ok; done.
  - cbn [app find_sub]. destruct (strip t (c :: a ++ t ++ s)) as [r|] eqn:Hs.
    + exfalso. apply strip_some in Hs. specialize (Hmin [] r Hs). simpl in Hmin. lia.
    + rewrite IH; [done|]. intros a' s' Heq. specialize (Hmin (c :: a') s'). simpl in Hmin.
      rewrite Heq in Hmin. specialize (Hmin eq_refl). lia.
Qed.

Lemma loop_fuel {A} (p : parser unit A) n : forall m s,
  (length s < n)%nat -> (length s < m)%nat -> loop n p s = loop m p s.
Proof.
  induction n as [|n IH]; intros [|m] s Hn Hm; [lia..|]. cbn [loop].
  destruct (p s) as [[r a]|]; [|done]. destruct (Nat.leb_spec (length s) (length r)); [done|].
  by rewrite (IH m r) by lia.
Qed.

#[export] Instance list_nom_laws : NomLaws unit.
Proof.
  split; cbn [tag take_until take_while1 line_ending not_line_ending one_of space0 space1 rest alt pmap
    many0 separated_list1 delimited preceded terminated separated_pair list_nom]; try done.
  - intros t s. by rewrite strip_ok.
  - intros t s Hs. destruct (strip t s) as [r|] eqn:Hr; [|by eexists]. apply strip_some in Hr. by apply Hs in Hr.
  - intros t a s Hmin. unfold p_until. rewrite find_sub_first by done. by rewrite drop_app_length.
  - intros t s Hs. unfold p_until. destruct (find_sub t s) as [a|] eqn:Ha; [|by eexists].
    apply find_sub_some in Ha as [r Hr]. by apply Hs in Hr.
  - intros p a s Hne Ha Hs. unfold p_nonempty. rewrite span_ok by done. by destruct a.
  - intros p s Hs. unfold p_nonempty. rewrite span_nil by done. by eexists.
  - intros [|c s]; unfold p_eol; simpl; [by eexists|]. unfold is_eol. intros [Hn Hc]%orb_false_elim. rewrite Hn, Hc.
    destruct s; by eexists.
  - intros a s Ha Hs. unfold p_line. rewrite span_ok.
    + destruct Hs as [->|[[s' ->]|[s' ->]]]; done.
    + eapply Forall_impl; [exact Ha|]. intros c ->. done.
    + destruct Hs as [->|[[s' ->]|[s' ->]]]; done.
  - intros cs c s Hc. unfold p_one. by rewrite bool_decide_eq_true_2.
  - intros cs [|c s]; unfold p_one; simpl; [by eexists|]. intros ->. by eexists.
  - intros a s Ha Hs. unfold p_while. by rewrite span_ok.
  - intros a s Hne Ha Hs. unfold p_nonempty. rewrite span_ok by done. by destruct a.
  - intros s Hs. unfold p_nonempty. rewrite span_nil by done. by eexists.
  - intros A p q s x ->. done.
  - intros A p q s x [e ->]. done.
  - intros A p s [e He]. unfold p_many. cbn [loop]. by rewrite He.
  - intros A p s r a Hp Hlt. unfold p_many. cbn [loop]. rewrite Hp.
    destruct (Nat.leb_spec (length s) (length r)); [lia|]. by rewrite (loop_fuel p (length s) (S (length r))) by lia.
Qed.
End ListNom.

(** ** Paragraphs *)

(** The first paragraph, and the others. *)
Fixpoint split_paragraphs (s : list N) : list N * list (list N) :=
  match s with
  | [] => ([], [])
  | c :: s' =>
      match s' with
      | d :: s'' =>
          if (c =? nl) && (d =? nl) then ([], let '(p, ps) := split_paragraphs s'' in p :: ps)
          else let '(p, ps) := split_paragraphs s' in (c :: p, ps)
      | [] => ([c], [])
      end
  end.

(** What follows the last empty line, if there is one. *)
Fixpoint after_gap (s : list N) : option (list N) :=
  match s with
  | [] => None
  | c :: s' =>
      match s' with
      | d :: s'' => if (c =? nl) && (d =? nl) then Some (default s'' (after_gap s'')) else after_gap s'
      | [] => None
      end
  end.

Lemma split_paragraphs_cons c d s :
  split_paragraphs (c :: d :: s) =
  if (c =? nl) && (d =? nl) then ([], let '(p, ps) := split_paragraphs s in p :: ps)
  else let '(p, ps) := split_paragraphs (d :: s) in (c :: p, ps).
Proof. reflexivity. Qed.

Lemma after_gap_cons c d s :
  after_gap (c :: d :: s) =
  if (c =? nl) && (d =? nl) then Some (default s (after_gap s)) else after_gap (d :: s).
Proof. reflexivity. Qed.

(** Whether the text ends with an odd number of line feeds. *)
Definition odd_newlines (s : list N) : bool :=
  foldl (fun odd c => if c =? nl then negb odd else false) false s.

Section Paragraphs.
Context {E : Type} `{NomLaws E}.

Lemma tag_consumes (t : list N) s r x : t <> [] -> tag t s = Ok (r, x) -> (length r < length s)%nat.
Proof.
  intros Ht Hr. destruct (decide (take (length t) s = t)) as [Htake|Htake].
  - rewrite <- (take_drop (length t) s), Htake in Hr |- *. rewrite tag_ok in Hr. injection Hr as -> _.
    rewrite length_app. destruct t; [done|]. simpl. lia.
  - destruct (tag_fails t s) as [e He]; [|congruence]. intros s' ->. apply Htake, take_app_length.
Qed.

(** [s] is at an empty line, or at its end. *)
Definition at_gap (s : list N) : Prop := s = [] \/ exists s', s = nl :: nl :: s'.

Lemma split_paragraphs_first s : forall p ps, split_paragraphs s = (p, ps) ->
  (forall a' s', s = a' ++ [nl; nl] ++ s' -> length p <= length a')%nat /\
  match ps with
  | [] => s = p
  | q :: qs => exists r, s = p ++ nl :: nl :: r /\ split_paragraphs r = (q, qs)
  end.
Proof using.
  induction s as [s IH] using (induction_ltof1 _ length). unfold ltof in IH. destruct s as [|c [|d s]]; intros p ps.
  - intros [= <- <-]. simpl. split; [intros; lia|done].
  - cbn. intros [= <- <-]. split; [|done]. intros [|x [|y a']] s' Hs; simpl in *; simplify_eq; lia.
  - rewrite split_paragraphs_cons. destruct ((c =? nl) && (d =? nl)) eqn:Hg.
    + apply andb_true_iff in Hg as [->%N.eqb_eq ->%N.eqb_eq].
      destruct (split_paragraphs s) as [q qs] eqn:Hs. intros [= <- <-]. split; [simpl; lia|]. by exists s.
    + destruct (split_paragraphs (d :: s)) as [q qs] eqn:Hs. intros [= <- <-].
      destruct (IH (d :: s) ltac:(simpl; lia) q qs Hs) as [Hmin Hq]. split.
      * intros [|x a'] s' Heq; simpl in Heq; simplify_eq.
        simpl. match goal with H : d :: s = _ |- _ => specialize (Hmin _ _ H) end. lia.
      * destruct qs; [by rewrite Hq|]. destruct Hq as (r & Hr & ?). exists r. rewrite Hr. done.
Qed.

Lemma paragraph_spec s p ps :
  split_paragraphs s = (p, ps) -> exists r, Parser.paragraph (E:=E) s = Ok (r, p) /\ s = p ++ r /\
    match ps with
    | [] => r = []
    | q :: qs => exists r', r = Parser.EMPTY_LINE ++ r' /\ split_paragraphs r' = (q, qs)
    end.
Proof.
  intros Hs. destruct (split_paragraphs_first s p ps Hs) as [Hmin Hps]. unfold Parser.paragraph.
  destruct ps as [|q qs].
  - subst s. exists []. split_and!; [|by rewrite app_nil_r|done]. apply alt_right; [|apply rest_ok].
    apply take_until_fails. intros a' s' Heq. specialize (Hmin a' s' Heq).
    apply (f_equal length) in Heq. rewrite !length_app in Heq. simpl in Heq. lia.
  - destruct Hps as (r & Hr & Hq). exists (nl :: nl :: r). split_and!; [|done|by exists r].
    apply alt_left. rewrite Hr. apply (take_until_ok [nl; nl] p r).
    intros a' s' Heq. apply Hmin with s'. rewrite <- Heq. done.
Qed.

Lemma paragraphs_rest n : forall s p ps r,
  (length s <= n)%nat -> split_paragraphs s = (p, ps) -> Parser.paragraph (E:=E) s = Ok (r, p) ->
  many0 (preceded (tag Parser.EMPTY_LINE) (Parser.paragraph (E:=E))) r = Ok ([], ps).
Proof.
  induction n as [|n IH]; intros s p ps r Hn Hs Hp.
  all: destruct (paragraph_spec s p ps Hs) as (r0 & Hp0 & Hsr & Hps); rewrite Hp0 in Hp; injection Hp as ->.
  all: destruct ps as [|q qs].
  1, 3: subst r; apply many0_stop; rewrite preceded_eq;
    (destruct (tag_fails (E:=E) Parser.EMPTY_LINE []) as [e ->]; [by intros s'|by exists e]).
  all: destruct Hps as (r' & -> & Hq); rewrite Hsr, length_app in Hn.
  { simpl in Hn. lia. }
  destruct (paragraph_spec r' q qs Hq) as (r'' & Hp' & Hr' & _).
  rewrite (many0_more _ _ r'' q).
  - rewrite (IH r' q qs r''); [done|simpl in Hn; lia|done|done].
  - rewrite preceded_eq, tag_ok. exact Hp'.
  - rewrite Hr', !length_app. simpl. lia.
Qed.

Lemma paragraphs_spec s :
  Parser.paragraphs (E:=E) s = Ok ([], let '(p, ps) := split_paragraphs s in p :: ps).
Proof.
  unfold Parser.paragraphs. rewrite separated_list1_eq by (intros ? ? ?; by apply tag_consumes).
  destruct (split_paragraphs s) as [p ps] eqn:Hs.
  destruct (paragraph_spec s p ps Hs) as (r & Hp & _). rewrite Hp. cbn [mbind result_bind].
  by rewrite (paragraphs_rest (length s) s p ps r).
Qed.
End Paragraphs.

Lemma split_last s p ps : split_paragraphs s = (p, ps) -> list.last ps = after_gap s.
Proof.
  revert p ps. induction s as [s IH] using (induction_ltof1 _ length). unfold ltof in IH.
  destruct s as [|c [|d s]]; intros p ps; [by intros [= <- <-]..|].
  rewrite split_paragraphs_cons, after_gap_cons. destruct ((c =? nl) && (d =? nl)) eqn:Hg.
  - destruct (split_paragraphs s) as [q qs] eqn:Hs. intros [= <- <-].
    pose proof (IH s ltac:(simpl; lia) q qs Hs) as Hl. rewrite <- Hl.
    destruct qs as [|q' qs]; [|rewrite last_cons; by destruct (list.last (q' :: qs)) eqn:Hq; [|apply last_None in Hq]].
    destruct (split_paragraphs_first s q [] Hs) as [_ ->]. done.
  - destruct (split_paragraphs (d :: s)) as [q qs] eqn:Hs. intros [= <- <-].
    apply (IH (d :: s) ltac:(simpl; lia) q qs Hs).
Qed.

Lemma last_paragraph s :
  list.last (let '(p, ps) := split_paragraphs s in p :: ps) = Some (default s (after_gap s)).
Proof.
  destruct (split_paragraphs s) as [p ps] eqn:Hs. rewrite <- (split_last s p ps Hs). rewrite last_cons.
  destruct (list.last ps) eqn:Hl; [done|]. apply last_None in Hl as ->.
  destruct (split_paragraphs_first s p [] Hs) as [_ ->]. done.
Qed.

Lemma after_gap_body t n : after_gap t = None -> stops (N.eqb nl) t -> forall body,
  (length body <= n)%nat ->
  after_gap (body ++ nl :: nl :: t) = Some (if odd_newlines body then nl :: t else t).
Proof.
  intros Ht Hstop. induction n as [|n IH]; intros body Hn.
  { destruct body; [|simpl in Hn; lia]. cbn. by rewrite Ht. }
  assert (after_gap (nl :: t) = None) as Hnt.
  { destruct t as [|d t]; [done|]. rewrite after_gap_cons. change ((nl =? d) = false) in Hstop. rewrite N.eqb_sym in Hstop.
    rewrite Hstop, andb_false_r. done. }
  destruct body as [|c [|d body]].
  - cbn. by rewrite Ht.
  - unfold odd_newlines. cbn [app foldl]. destruct (N.eqb_spec c nl) as [->|Hc].
    + rewrite after_gap_cons, N.eqb_refl. cbn [andb]. by rewrite Hnt.
    + rewrite after_gap_cons. destruct (N.eqb_spec c nl); [done|]. cbn [andb].
      rewrite after_gap_cons, N.eqb_refl. cbn [andb]. by rewrite Ht.
  - change ((c :: d :: body) ++ nl :: nl :: t) with (c :: d :: (body ++ nl :: nl :: t)).
    rewrite after_gap_cons. unfold odd_newlines in *. cbn [foldl].
    destruct (N.eqb_spec c nl) as [->|Hc]; destruct (N.eqb_spec d nl) as [->|Hd]; cbn [andb negb].
    + rewrite (IH body) by (simpl in Hn; lia). done.
    + change (d :: body ++ nl :: nl :: t) with ((d :: body) ++ nl :: nl :: t).
      specialize (IH (d :: body) ltac:(simpl in *; lia)). cbn [foldl] in IH.
      destruct (N.eqb_spec d nl); [done|]. exact IH.
    + specialize (IH (nl :: body) ltac:(simpl in *; lia)). cbn [foldl] in IH. exact IH.
    + specialize (IH (d :: body) ltac:(simpl in *; lia)). cbn [foldl] in IH.
      destruct (N.eqb_spec d nl); [done|]. exact IH.
Qed.

(** ** Rendered trailers *)

Section Rendered.
Context {E : Type} `{NomLaws E} `{Alphanumeric}.
Context (seps : list N).

Definition blanks (s : list N) : Prop := Forall (fun c => is_blank c = true) s.
Definition one_line (s : list N) : Prop := Forall (fun c => is_eol c = false) s.
Definition ends_solid (s : list N) : Prop := exists s' c, s = s' ++ [c] /\ is_whitespace c = false.

(** Values that can be read back: one line each, not empty, without blanks around. *)
Definition value_ok (v : list N) : Prop := one_line v /\ stops is_blank v /\ ends_solid v.
Definition token_ok (t : list N) : Prop := t <> [] /\ Forall (fun c => Parser.is_token_char c = true) t.
Definition trailer_ok (t : Trailer) : Prop := token_ok (token t) /\ Forall value_ok (values t).

(** A separator: one of the separator characters, with blanks around it. *)
Definition sep_char (c : N) : Prop :=
  c ∈ seps /\ is_whitespace c = false /\ Parser.is_token_char c = false.
Definition sep_ok (s : list N) : Prop :=
  exists a c b, s = a ++ c :: b /\ blanks a /\ blanks b /\ sep_char c.

(** A rendered trailer, and the separator it is rendered with. *)
Record line : Type := MkLine { l_trailer : Trailer; l_before : list N; l_char : N; l_after : list N }.
Definition line_ok (l : line) : Prop :=
  trailer_ok (l_trailer l) /\ blanks (l_before l) /\ blanks (l_after l) /\ sep_char (l_char l).

(** The values after the first. *)
Fixpoint indent (vs : list (list N)) (tail : list N) : list N :=
  match vs with
  | [] => tail
  | v :: vs => nl :: str "  " ++ v ++ indent vs tail
  end.

Definition values_text (vs : list (list N)) (tail : list N) : list N :=
  match vs with [] => tail | v :: vs => v ++ indent vs tail end.

Definition line_text (l : line) (tail : list N) : list N :=
  token (l_trailer l) ++ l_before l ++ l_char l :: l_after l ++ values_text (values (l_trailer l)) tail.

Fixpoint text (ls : list line) : list N :=
  match ls with
  | [] => []
  | [l] => line_text l []
  | l :: ls => line_text l (nl :: text ls)
  end.

(** Where the values of a trailer end: at the end of the input, or before a line that
    is not indented. *)
Definition ends_at (tail r : list N) : Prop :=
  tail = [] /\ r = [] \/ tail = nl :: r /\ stops is_blank r.

Lemma blank_whitespace c : is_blank c = true -> is_whitespace c = true.
Proof using. unfold is_blank. intros [->%N.eqb_eq| ->%N.eqb_eq]%orb_prop; reflexivity. Qed.

Lemma blank_not_token c : is_blank c = true -> Parser.is_token_char c = false.
Proof using.
  unfold is_blank, Parser.is_token_char.
  intros [->%N.eqb_eq| ->%N.eqb_eq]%orb_prop; rewrite alphanumeric_ascii by done; reflexivity.
Qed.

Lemma nl_not_token : Parser.is_token_char nl = false.
Proof using. unfold Parser.is_token_char, nl. by rewrite alphanumeric_ascii. Qed.

Lemma solid_nonempty s : ends_solid s -> s <> [].
Proof using. intros (s' & c & -> & _). by destruct s'. Qed.

Lemma stops_app p s t : s <> [] -> stops p s -> stops p (s ++ t).
Proof using. by destruct s. Qed.

Lemma ends_at_line tail r :
  ends_at tail r -> tail = [] \/ (exists s', tail = nl :: s') \/ (exists s', tail = cr :: nl :: s').
Proof using. intros [[-> _]|[-> _]]; eauto. Qed.

Lemma until_line v r : one_line v -> Parser.until_eol_or_eof (E:=E) (v ++ nl :: r) = Ok (r, v).
Proof using H0.
  intros Hv. unfold Parser.until_eol_or_eof, Parser.until_eol. apply alt_left. rewrite terminated_eq.
  rewrite not_line_ending_ok by eauto. cbn [mbind result_bind]. by rewrite line_ending_ok.
Qed.

Lemma until_tail v tail r : one_line v -> ends_at tail r ->
  Parser.until_eol_or_eof (E:=E) (v ++ tail) = Ok (r, v).
Proof using H0.
  intros Hv [[-> ->]|[-> _]]; [|by apply until_line].
  rewrite app_nil_r. unfold Parser.until_eol_or_eof, Parser.until_eol. apply alt_right; [|apply rest_ok].
  rewrite terminated_eq. rewrite <- (app_nil_r v) at 1. rewrite not_line_ending_ok by eauto. cbn [mbind result_bind].
  destruct (line_ending_fails (E:=E) []) as [e ->]; [done|by exists e].
Qed.

Lemma indented_fails r : stops is_blank r ->
  fails (pmap Parser.indented_line_contents (fun v : list N => v) r : result E _).
Proof using H0.
  intros Hr. rewrite pmap_ok. unfold Parser.indented_line_contents. rewrite preceded_eq.
  destruct (space1_fails (E:=E) r Hr) as [e ->]. by exists e.
Qed.

Lemma ends_at_stops tail r : ends_at tail r -> stops is_blank r.
Proof using. by intros [[_ ->]|[_ ?]]. Qed.

Lemma multiline_ok vs tail r : ends_at tail r -> forall w, Forall value_ok (w :: vs) ->
  Parser.multiline_values (E:=E) (str "  " ++ w ++ indent vs tail) = Ok (r, w :: vs).
Proof using H0.
  intros Hr. induction vs as [|v vs IH]; intros w Hw; unfold Parser.multiline_values;
    apply Forall_cons in Hw as [(Hl & Hs & He) Hvs].
  - rewrite (many0_more _ _ r w).
    + by rewrite many0_stop by (by eapply indented_fails, ends_at_stops).
    + rewrite pmap_ok. unfold Parser.indented_line_contents. rewrite preceded_eq.
      rewrite space1_ok; [|done|by repeat constructor|by apply stops_app; [apply solid_nonempty|]].
      cbn [mbind result_bind]. cbn [indent]. by rewrite (until_tail w tail r).
    + destruct Hr as [[-> ->]|[-> _]]; cbn [indent]; rewrite !length_app; simpl; lia.
  - cbn [indent]. rewrite (many0_more _ _ (str "  " ++ v ++ indent vs tail) w).
    + specialize (IH v Hvs). unfold Parser.multiline_values in IH. by rewrite IH.
    + rewrite pmap_ok. unfold Parser.indented_line_contents. rewrite preceded_eq.
      rewrite space1_ok; [|done|by repeat constructor|by apply stops_app; [apply solid_nonempty|]].
      cbn [mbind result_bind]. by rewrite until_line.
    + rewrite !length_app. simpl. rewrite !length_app. simpl. lia.
Qed.

Lemma values_parse vs tail r : ends_at tail r -> Forall value_ok vs ->
  Parser.p_values (E:=E) (values_text vs tail) = Ok (r, vs).
Proof using H0.
  intros Hr Hvs. unfold Parser.p_values. destruct vs as [|v vs]; cbn [values_text].
  - pose proof (until_tail [] tail r (Forall_nil_2 _) Hr) as Hu. cbn [app] in Hu. rewrite Hu. cbn [mbind result_bind]. unfold Parser.multiline_values.
    by rewrite many0_stop by (by eapply indented_fails, ends_at_stops).
  - pose proof Hvs as [(Hl & Hs & He) Hvs']%Forall_cons. apply solid_nonempty in He.
    destruct vs as [|w vs]; cbn [indent].
    + rewrite (until_tail v tail r) by done. cbn [mbind result_bind]. unfold Parser.multiline_values.
      rewrite many0_stop by (by eapply indented_fails, ends_at_stops). cbn [mbind result_bind]. by destruct v.
    + rewrite until_line by done. cbn [mbind result_bind]. rewrite (multiline_ok vs tail r Hr w Hvs').
      cbn [mbind result_bind]. by destruct v.
Qed.

Lemma values_stop vs tail r : ends_at tail r -> Forall value_ok vs -> stops is_blank (values_text vs tail).
Proof using.
  intros Hr Hvs. destruct Hvs as [|v vs (_ & Hs & He) _]; cbn [values_text].
  - by destruct Hr as [[-> _]|[-> _]].
  - apply stops_app; [by apply solid_nonempty|done].
Qed.

Lemma trailer_parse l tail r : line_ok l -> ends_at tail r ->
  Parser.trailer (E:=E) seps (line_text l tail) = Ok (r, l_trailer l).
Proof using H0.
  intros (([Hne Htok] & Hvs) & Ha & Hb & (Hc & Hw & Ht)) Hr. unfold Parser.trailer, line_text.
  assert (is_blank (l_char l) = false) as Hbc.
  { destruct (is_blank (l_char l)) eqn:Hx; [|done]. apply blank_whitespace in Hx. congruence. }
  rewrite separated_pair_eq. unfold Parser.p_token. rewrite take_while1_ok; [|done|done|].
  2: { destruct Ha as [|x a Hx _]; [done|]. by apply blank_not_token. }
  cbn [mbind result_bind]. unfold Parser.separator. rewrite delimited_eq, space0_ok by done. cbn [mbind result_bind].
  rewrite one_of_ok by done. cbn [mbind result_bind]. rewrite space0_ok by (done || by eapply values_stop).
  cbn [mbind result_bind]. rewrite (values_parse _ _ r) by done. cbn. by destruct (l_trailer l).
Qed.

Lemma trailer_fails s : stops Parser.is_token_char s -> fails (Parser.trailer (E:=E) seps s).
Proof using H0.
  intros Hs. unfold Parser.trailer. rewrite separated_pair_eq. unfold Parser.p_token.
  destruct (take_while1_fails (E:=E) _ _ Hs) as [e ->]. by exists e.
Qed.

Lemma text_stops ls : Forall line_ok ls -> stops is_blank (text ls).
Proof using.
  intros Hls. destruct Hls as [|l ls (([Hne Htok] & _) & _) _]; [done|].
  assert (forall tail, stops is_blank (line_text l tail)) as Hl.
  { intros tail. unfold line_text. apply stops_app; [done|]. destruct Htok as [|c t Hc _]; [done|].
    cbn [stops]. destruct (is_blank c) eqn:Hx; [|done]. apply blank_not_token in Hx. congruence. }
  destruct ls; apply Hl.
Qed.

Lemma tail_length l tail r : line_ok l -> ends_at tail r -> (length r < length (line_text l tail))%nat.
Proof using.
  intros (([Hne _] & _) & _) Hr. unfold line_text. rewrite !length_app. simpl. rewrite length_app.
  assert (length tail <= length (values_text (values (l_trailer l)) tail))%nat as Hv.
  { destruct (values (l_trailer l)) as [|v vs]; [done|]. cbn [values_text]. rewrite length_app.
    assert (length tail <= length (indent vs tail))%nat; [|lia]. clear. induction vs as [|w vs IH]; [done|].
    cbn [indent length]. rewrite !length_app. lia. }
  assert (length r <= length tail)%nat by (destruct Hr as [[-> ->]|[-> _]]; simpl; lia).
  lia.
Qed.

Lemma trailers_parse ls : Forall line_ok ls ->
  Parser.trailers (E:=E) seps (text ls) = Ok ([], l_trailer <$> ls).
Proof using H0.
  unfold Parser.trailers. induction 1 as [|l ls Hl Hls IH]; [apply many0_stop, trailer_fails; done|].
  assert (exists tail, text (l :: ls) = line_text l tail /\ ends_at tail (text ls)) as (tail & -> & Ht).
  { destruct ls as [|l' ls]; [exists []; split; [done|by left]|]. eexists. split; [done|]. right.
    split; [done|]. by apply text_stops. }
  rewrite (many0_more _ _ (text ls) (l_trailer l)); [by rewrite IH|by apply trailer_parse|by apply tail_length].
Qed.

(** ** No empty line inside *)

Lemma eol_not_nl c : is_eol c = false -> (c =? nl) = false.
Proof using. unfold is_eol. by intros [? _]%orb_false_elim. Qed.

Lemma after_gap_line s t : one_line s -> after_gap (s ++ t) = after_gap t.
Proof using.
  induction 1 as [|c s Hc _ IH]; [done|]. cbn [app]. destruct (s ++ t) as [|d u] eqn:Hu.
  - apply app_eq_nil in Hu as [-> ->]. done.
  - by rewrite after_gap_cons, (eol_not_nl c Hc).
Qed.

Lemma after_gap_char c t : is_eol c = false -> after_gap (c :: t) = after_gap t.
Proof using. intros Hc. apply (after_gap_line [c]). by repeat constructor. Qed.

Lemma after_gap_nl s : stops (N.eqb nl) s -> after_gap (nl :: s) = after_gap s.
Proof using.
  destruct s as [|d s]; [done|]. intros Hs. change ((nl =? d) = false) in Hs. rewrite after_gap_cons.
  by rewrite (N.eqb_sym d), Hs, andb_false_r.
Qed.

Lemma blanks_line s : blanks s -> one_line s.
Proof using.
  intros Hs. eapply Forall_impl; [exact Hs|]. intros c. unfold is_blank.
  intros [->%N.eqb_eq| ->%N.eqb_eq]%orb_prop; reflexivity.
Qed.

Lemma token_line s : Forall (fun c => Parser.is_token_char c = true) s -> one_line s.
Proof using.
  intros Hs. eapply Forall_impl; [exact Hs|]. intros c Hc. unfold is_eol.
  destruct (N.eqb_spec c nl) as [->|_]; [by rewrite nl_not_token in Hc|].
  destruct (N.eqb_spec c cr) as [->|_]; [|done]. exfalso. revert Hc. unfold Parser.is_token_char, cr.
  by rewrite alphanumeric_ascii.
Qed.

Lemma solid_not_eol c : is_whitespace c = false -> is_eol c = false.
Proof using.
  intros Hc. unfold is_eol. destruct (N.eqb_spec c nl) as [->|_]; [done|]. destruct (N.eqb_spec c cr) as [->|_]; done.
Qed.

Lemma after_gap_text ls : Forall line_ok ls -> after_gap (text ls) = None /\ stops (N.eqb nl) (text ls).
Proof using.
  assert (forall l tail, line_ok l -> after_gap (line_text l tail) = after_gap tail /\
    stops (N.eqb nl) (line_text l tail)) as Hone.
  { intros l tail (([Hne Htok] & Hvs) & Ha & Hb & (_ & Hw & _)). unfold line_text. split.
    - rewrite after_gap_line by (by apply token_line). rewrite after_gap_line by (by apply blanks_line).
      rewrite (after_gap_char (l_char l)) by (by apply solid_not_eol).
      rewrite after_gap_line by (by apply blanks_line).
      assert (forall vs, Forall value_ok vs -> after_gap (indent vs tail) = after_gap tail) as Hi.
      { induction 1 as [|v vs (Hv & _) _ IH]; [done|]. cbn [indent]. rewrite after_gap_nl by done.
        rewrite (after_gap_line (str "  ")) by (by repeat constructor). by rewrite after_gap_line. }
      destruct Hvs as [|v vs (Hv & _) Hvs]; [done|]. cbn [values_text]. rewrite after_gap_line by done. by apply Hi.
    - destruct Htok as [|c t Hc _]; [done|]. cbn [app stops]. destruct (N.eqb_spec nl c) as [<-|]; [|done].
      by rewrite nl_not_token in Hc. }
  induction 1 as [|l ls Hl _ IH]; [done|]. destruct IH as [IHg IHs].
  destruct ls as [|l' ls].
  - exact (Hone l [] Hl).
  - change (text (l :: l' :: ls)) with (line_text l (nl :: text (l' :: ls))). destruct (Hone l (nl :: text (l' :: ls)) Hl) as [-> ?]. by rewrite after_gap_nl.
Qed.

(** ** Messages *)

Lemma trim_start_app ws s : Forall (fun c => is_whitespace c = true) ws -> trim_start (ws ++ s) = trim_start s.
Proof using. induction 1 as [|c ws Hc _ IH]; [done|]. cbn [app trim_start]. by rewrite Hc. Qed.

Lemma trim_end_solid s ws : ends_solid s -> Forall (fun c => is_whitespace c = true) ws -> trim_end (s ++ ws) = s.
Proof using.
  intros (s' & c & -> & Hc) Hws. unfold trim_end. rewrite reverse_app, trim_start_app by (by apply Forall_reverse).
  rewrite reverse_app. cbn [reverse rev_append app]. cbn [trim_start]. rewrite Hc.
  change (c :: reverse s') with (reverse [c] ++ reverse s'). rewrite <- reverse_app. apply reverse_involutive.
Qed.

Lemma solid_app s t : ends_solid t -> ends_solid (s ++ t).
Proof using. intros (t' & c & -> & Hc). exists (s ++ t'), c. by rewrite app_assoc. Qed.

(** A line whose separator is not followed by blanks only. *)
Definition line_solid (l : line) : Prop := values (l_trailer l) = [] -> l_after l = [].

Lemma line_ends_solid l : line_ok l -> line_solid l -> ends_solid (line_text l []).
Proof using.
  intros ((_ & Hvs) & _ & _ & (_ & Hw & _)) Hl. unfold line_text, line_solid in *. apply solid_app, solid_app.
  destruct Hvs as [|v vs (_ & _ & Hv) Hvs].
  - rewrite Hl by done. exists [], (l_char l). done.
  - apply (solid_app (l_char l :: l_after l)). cbn [values_text].
    assert (forall vs v, ends_solid v -> Forall value_ok vs -> ends_solid (v ++ indent vs [])) as Hi; [|by apply Hi].
    clear. induction vs as [|w vs IH]; intros v Hv Hvs; cbn [indent]; [by rewrite app_nil_r|].
    apply Forall_cons in Hvs as [(_ & _ & Hw) Hvs]. apply solid_app, (solid_app (nl :: str "  ")). by apply IH.
Qed.

Lemma values_text_tail vs tail : exists u, values_text vs tail = u ++ tail.
Proof using.
  destruct vs as [|v vs]; [by exists []|]. cbn [values_text].
  assert (exists u, indent vs tail = u ++ tail) as [u ->]; [|exists (v ++ u); by rewrite app_assoc].
  induction vs as [|w vs [u IH]]; [by exists []|]. cbn [indent]. rewrite IH.
  exists (nl :: str "  " ++ w ++ u). simpl. by rewrite <- !app_assoc.
Qed.

Lemma text_snoc ls : exists u, forall l, text (ls ++ [l]) = u ++ line_text l [].
Proof using.
  induction ls as [|l0 ls [u IH]]; [by exists []|].
  assert (exists u0, forall x, line_text l0 (nl :: x) = u0 ++ x) as [u0 Hu0].
  { exists (line_text l0 [nl]). intros x. unfold line_text.
    assert (values_text (values (l_trailer l0)) (nl :: x) = values_text (values (l_trailer l0)) [nl] ++ x) as ->.
    { destruct (values (l_trailer l0)) as [|v vs]; [done|]. cbn [values_text]. rewrite <- app_assoc. f_equal.
      clear. induction vs as [|w vs IH]; [done|]. cbn [indent]. rewrite IH. simpl. by rewrite <- !app_assoc. }
    rewrite <- !app_assoc. cbn [app]. by rewrite <- !app_assoc. }
  exists (u0 ++ u). intros l. specialize (IH l). cbn [app].
  destruct (ls ++ [l]) as [|l1 ls1] eqn:Heq; [by destruct ls|].
  change (text (l0 :: l1 :: ls1)) with (line_text l0 (nl :: text (l1 :: ls1))).
  by rewrite Hu0, IH, app_assoc.
Qed.

Lemma text_solid ls l : line_ok l -> line_solid l -> ends_solid (text (ls ++ [l])).
Proof using. intros Hok Hl. destruct (text_snoc ls) as [u ->]. by apply solid_app, line_ends_solid. Qed.

(** A message whose last paragraph is rendered trailers: they are found unless the
    body ends with an odd number of line feeds. *)
Lemma parse_message body ls l ws :
  Forall line_ok (ls ++ [l]) -> line_solid l -> Forall (fun c => is_whitespace c = true) ws ->
  parse (E:=E) (body ++ nl :: nl :: text (ls ++ [l]) ++ ws) seps =
  if odd_newlines body then Err (Trailing (nl :: text (ls ++ [l]))) else Ok (l_trailer <$> (ls ++ [l])).
Proof using H0.
  intros Hls Hl Hws. pose proof Hls as [_ [Hok _]%Forall_cons]%Forall_app.
  pose proof (text_solid ls l Hok Hl) as Hsolid.
  destruct (after_gap_text _ Hls) as [Hgap Hstop]. unfold parse.
  replace (body ++ nl :: nl :: text (ls ++ [l]) ++ ws) with ((body ++ nl :: nl :: text (ls ++ [l])) ++ ws)
    by (by rewrite <- app_assoc).
  rewrite trim_end_solid by (done || by apply solid_app, (solid_app [nl; nl])).
  rewrite paragraphs_spec, last_paragraph, (after_gap_body _ (length body)) by done. cbn [default from_option].
  destruct (odd_newlines body).
  - cbn [mbind result_bind id]. unfold Parser.trailers. rewrite many0_stop; [done|]. apply trailer_fails, nl_not_token.
  - unfold id. apply solid_nonempty in Hsolid. destruct (text (ls ++ [l])) as [|c s] eqn:Ht; [done|].
    cbn [mbind result_bind]. rewrite <- Ht. by rewrite trailers_parse.
Qed.

Lemma parse_text ls l ws :
  Forall line_ok (ls ++ [l]) -> line_solid l -> Forall (fun c => is_whitespace c = true) ws ->
  parse (E:=E) (text (ls ++ [l]) ++ ws) seps = Ok (l_trailer <$> (ls ++ [l])).
Proof using H0.
  intros Hls Hl Hws. pose proof Hls as [_ [Hok _]%Forall_cons]%Forall_app.
  pose proof (text_solid ls l Hok Hl) as Hsolid.
  destruct (after_gap_text _ Hls) as [Hgap Hstop]. unfold parse. rewrite trim_end_solid by done.
  rewrite paragraphs_spec, last_paragraph, Hgap. cbn [default from_option].
  apply solid_nonempty in Hsolid. destruct (text (ls ++ [l])) as [|c s] eqn:Ht; [done|].
  cbn [mbind result_bind]. rewrite <- Ht. by rewrite trailers_parse.
Qed.

(** ** What is displayed *)

Lemma values_join vs tail : values_text vs tail = join_with (nl :: str "  ") vs ++ tail.
Proof using.
  destruct vs as [|v vs]; [done|]. cbn [values_text]. revert v. induction vs as [|w vs IH]; intros v; [done|].
  cbn [indent]. rewrite IH. change (join_with (nl :: str "  ") (v :: w :: vs)) with
    (v ++ (nl :: str "  ") ++ join_with (nl :: str "  ") (w :: vs)).
  rewrite <- !app_assoc. reflexivity.
Qed.

Definition line_sep (l : line) : list N := l_before l ++ l_char l :: l_after l.

Lemma line_display l tail : line_text l tail = display_one (line_sep l) (l_trailer l) ++ tail.
Proof using.
  unfold line_text, display_one, line_sep. rewrite values_join. rewrite <- ?app_assoc. cbn [app]. by rewrite <- ?app_assoc.
Qed.

Lemma text_join ls : text ls = join_with [nl] ((fun l => display_one (line_sep l) (l_trailer l)) <$> ls).
Proof using.
  induction ls as [|l [|l' ls] IH]; [done|apply (eq_trans (line_display l [])), app_nil_r|].
  change (text (l :: l' :: ls)) with (line_text l (nl :: text (l' :: ls))). rewrite IH, line_display. done.
Qed.

Lemma display_lines sep_for ts :
  Forall trailer_ok ts -> Forall (fun t => sep_ok (sep_for (token t))) ts ->
  exists ls, Forall line_ok ls /\ l_trailer <$> ls = ts /\ display sep_for ts = text ls.
Proof using.
  intros Hts Hseps.
  assert (exists ls, Forall line_ok ls /\ l_trailer <$> ls = ts /\
    (fun l => display_one (line_sep l) (l_trailer l)) <$> ls = (fun t => display_one (sep_for (token t)) t) <$> ts)
    as (ls & Hok & Htr & Hd).
  2: { exists ls. split_and!; [done|done|]. unfold display. by rewrite text_join, Hd. }
  induction Hts as [|t ts Ht _ IH]; [by exists []|]. apply Forall_cons in Hseps as [(a & c & b & Hs & Ha & Hb & Hc) Hseps].
  destruct (IH Hseps) as (ls & Hok & Htr & Hd). exists (MkLine t a c b :: ls). split_and!.
  - constructor; [|done]. done.
  - cbn. by rewrite Htr.
  - cbn [fmap list_fmap]. cbn [fmap list_fmap] in Hd. rewrite Hd. unfold line_sep. cbn. by rewrite <- Hs.
Qed.

(** The blanks after a separator without a value are at the end of the message. *)
Lemma trim_last ls l : line_ok l -> exists l' ws,
  line_ok l' /\ line_solid l' /\ l_trailer l' = l_trailer l /\ Forall (fun c => is_whitespace c = true) ws /\
  text (ls ++ [l]) = text (ls ++ [l']) ++ ws.
Proof using.
  intros Hl. destruct (values (l_trailer l)) as [|v vs] eqn:Hv.
  - exists (MkLine (l_trailer l) (l_before l) (l_char l) []), (l_after l).
    destruct Hl as (Ht & Ha & Hb & Hc). split; [by split_and!; [..|constructor|]|]. split; [done|]. split_and!; [done|..].
    + eapply Forall_impl; [exact Hb|]. apply blank_whitespace.
    + destruct (text_snoc ls) as [u Hu]. rewrite !Hu. unfold line_text. cbn. rewrite Hv. cbn [values_text].
      rewrite app_nil_r. by rewrite <- !app_assoc.
  - exists l, []. split_and!; [done| |done|constructor|by rewrite app_nil_r]. intros Hnil. congruence.
Qed.

(** A message made of a body and of displayed trailers, followed by white space. *)
Lemma parse_displayed sep_for ts ws :
  ts <> [] -> Forall trailer_ok ts -> Forall (fun t => sep_ok (sep_for (token t))) ts ->
  Forall (fun c => is_whitespace c = true) ws ->
  parse (E:=E) (display sep_for ts ++ ws) seps = Ok ts /\
  forall body, match parse (E:=E) (body ++ nl :: nl :: display sep_for ts ++ ws) seps with
    | Ok ts' => odd_newlines body = false /\ ts' = ts
    | Err e => odd_newlines body = true /\ exists r, e = Trailing r
    end.
Proof using H0.
  intros Hne Hts Hseps Hws. destruct (display_lines sep_for ts Hts Hseps) as (ls & Hok & <- & ->).
  destruct ls as [|l ls _] using rev_ind; [done|]. apply Forall_app in Hok as [Hls [Hl _]%Forall_cons].
  destruct (trim_last ls l Hl) as (l' & ws' & Hl' & Hsolid & Htr & Hws' & ->).
  assert (l_trailer <$> ls ++ [l] = l_trailer <$> ls ++ [l']) as -> by (rewrite !fmap_app; cbn; by rewrite Htr).
  assert (Forall line_ok (ls ++ [l'])) as Hok by (apply Forall_app; split; [done|by constructor]).
  assert (Forall (fun c => is_whitespace c = true) (ws' ++ ws)) as Hall by (by apply Forall_app).
  rewrite <- app_assoc. split; [by apply parse_text|]. intros body. rewrite parse_message by done.
  destruct (odd_newlines body); [split; [done|by eexists]|done].
Qed.
End Rendered.

(** [trailers_roundtrip]: trailers that are displayed, each with a separator, are parsed
    back: the same tokens and values in the same order, as long as the tokens are made of
    letters, digits and dashes, the values are lines without white space around them, and
    the separators use a character given to the parser. *)
Theorem trailers_roundtrip {E} `{NomLaws E} `{Alphanumeric} (seps : list N) (sep_for : list N -> list N)
    (ts : list Trailer) (Hne : ts <> []) (Hts : Forall trailer_ok ts)
    (Hseps : Forall (fun t => sep_ok seps (sep_for (token t))) ts) :
  parse (E:=E) (display sep_for ts) seps = Ok ts.
Proof.
  destruct (parse_displayed (E:=E) seps sep_for ts [] Hne Hts Hseps (Forall_nil_2 _)) as [Hp _].
  by rewrite app_nil_r in Hp.
Qed.

Definition ascii_alphanumeric : Alphanumeric.
Proof.
  refine {| is_alphanumeric := fun c =>
    (48 <=? c) && (c <=? 57) || (65 <=? c) && (c <=? 90) || (97 <=? c) && (c <=? 122) |}.
  done.
Defined.

#[local] Existing Instance ascii_alphanumeric.
Import ListNom.

Lemma trailers_roundtrip_witness :
  let ts := [MkTrailer (str "Tested-by") [str "Alice"; str "Bob"]; MkTrailer (str "Fixes") [str "42"];
             MkTrailer (str "Just-a-token") []] in
  let sep := fun t : list N => if bool_decide (t = str "Fixes") then str " #" else str ": " in
  display sep ts = str "Tested-by: Alice" ++ [nl] ++ str "  Bob" ++ [nl] ++ str "Fixes #42" ++ [nl] ++
    str "Just-a-token: " /\
  parse (E:=unit) (display sep ts) (str ":#") = Ok ts.
Proof.
  split; [vm_compute; reflexivity|].
  apply (trailers_roundtrip (E:=unit) (str ":#")).
  - done.
  - repeat constructor; try done; try (by eexists (str "Alic"), _); try (by eexists (str "Bo"), _);
      try (by eexists (str "4"), _).
  - repeat constructor.
    + exists [], 58, (str " "). by repeat constructor.
    + exists (str " "), 35, []. by repeat constructor.
    + exists [], 58, (str " "). by repeat constructor.
Defined.
