(* ===== verification/CommitMessage.v ===== *)
(** * Signatures and object ids in commit messages

    [link-identities/src/sign.rs], [link-identities/src/git/sign.rs],
    [cob/src/trailers.rs] and the conversions of [git-ext/src/oid.rs] it uses:
    signatures and the object ids of parents with a special role are trailers of
    commit messages.  The textual forms of keys and signatures are those of
    [link-crypto], here the interface [KeyText]; multibase and multihash are
    libraries, the interface [Multicodec]. *)
From stdpp Require Import base list gmap fin_maps.
From Stdlib Require Import NArith Lia.
From Stdlib Require String.
Import String.StringSyntax.
From S2P Require Import Prelude RefFormat Trailers.
#[local] Open Scope N_scope.

(** ** Interfaces *)

(** [Display] and [Deserialize] of [PublicKey] and [Signature]. *)
Class KeyText (Sig D : Type) := {
  key_to_string : N -> list N;
  key_deserialize : list N -> result D N;
  sig_to_string : Sig -> list N;
  sig_deserialize : list N -> result D Sig;
}.

(** A word: not empty, and without white space. *)
Definition word (s : list N) : Prop := s <> [] /\ Forall (fun c => is_whitespace c = false) s.

Class KeyTextLaws (Sig D : Type) `{KeyText Sig D} := {
  key_roundtrip k : key_deserialize (key_to_string k) = Ok k;
  sig_roundtrip s : sig_deserialize (sig_to_string s) = Ok s;
  key_word k : word (key_to_string k);
  sig_word s : word (sig_to_string s);
}.

(** The libraries multibase and multihash, and the bytes of a [git2::Oid]. *)
Class Multicodec (MB MH G : Type) := {
  multibase_encode : list N -> list N;            (** in [Base32Z] *)
  multibase_decode : list N -> result MB (list N);
  multihash_wrap : N -> list N -> list N;
  multihash_from_slice : list N -> result MH (N * list N);
  oid_as_bytes : N -> list N;
  oid_from_bytes : list N -> result G N;
}.

Class MulticodecLaws (MB MH G : Type) `{Multicodec MB MH G} := {
  multibase_roundtrip bs : multibase_decode (multibase_encode bs) = Ok bs;
  multibase_word bs : word (multibase_encode bs);
  multibase_prefix bs : head (multibase_encode bs) = Some 104;     (** [h] is the code of [Base32Z] *)
  multihash_roundtrip c bs : multihash_from_slice (multihash_wrap c bs) = Ok (c, bs);
  oid_bytes_roundtrip o : oid_from_bytes (oid_as_bytes o) = Ok o;
}.

(** ** [link-identities/src/sign.rs] *)

(** [str::split_whitespace]; [cur] is the word being read. *)
Fixpoint split_words (cur s : list N) : list (list N) :=
  match s with
  | [] => match cur with [] => [] | _ => [cur] end
  | c :: s =>
      if is_whitespace c
      then match cur with [] => split_words [] s | _ => cur :: split_words [] s end
      else split_words (cur ++ [c]) s
  end.
Definition split_whitespace (s : list N) : list (list N) := split_words [] s.

Definition TRAILER_TOKEN : list N := str "X-Rad-Signature".

Inductive SignatureError (D : Type) : Type :=
| Missing (what : list N)
| Serde (e : D).
Arguments Missing {D} what.
Arguments Serde {D} e.

Inductive SignaturesError (D E : Type) : Type :=
| SigSignature (e : SignatureError D)
| SigTrailer (e : Trailers.Error E).
Arguments SigSignature {D E} e.
Arguments SigTrailer {D E} e.

Section Sign.
Context {Sig D E : Type} `{KeyText Sig D} `{Nom E} `{Alphanumeric}.

(** [Signature::try_from(Trailer)]. *)
Definition signature_try_from (t : Trailer) : result (SignatureError D) (N * Sig) :=
  let words := values t ≫= split_whitespace in
  key ← (k ← ok_or (head words) (Missing (str "public key")); map_err Serde (key_deserialize k));
  sig ← (s ← ok_or (head (tail words)) (Missing (str "signature")); map_err Serde (sig_deserialize s));
  Ok (key, sig).

(** [Token::try_from(..).unwrap()]. *)
Definition token_unwrap (s : list N) : outcome (list N) := unwrap (res_ok (token_try_from (E:=E) s)).

(** [Trailer::from(SignatureRef)]. *)
Definition signature_trailer (kv : N * Sig) : outcome Trailer :=
  t ← token_unwrap TRAILER_TOKEN;
  Done (MkTrailer t [key_to_string kv.1; sig_to_string kv.2]).

(** [iter.collect::<Result<Signatures, _>>()]. *)
Fixpoint collect_signatures (acc : gmap N Sig) (ts : list Trailer) : result (SignaturesError D E) (gmap N Sig) :=
  match ts with
  | [] => Ok acc
  | t :: ts =>
      kv ← map_err SigSignature (signature_try_from t);
      collect_signatures (<[kv.1 := kv.2]> acc) ts
  end.

(** [Signatures::try_from(Vec<Trailer>)]. *)
Definition signatures_try_from (ts : list Trailer) : result (SignaturesError D E) (gmap N Sig) :=
  collect_signatures ∅ (filter (fun t => token t = TRAILER_TOKEN) ts).

(** [Signatures::from_trailers]. *)
Definition from_trailers (message : list N) : result (SignaturesError D E) (gmap N Sig) :=
  ts ← map_err SigTrailer (parse message (str ":")); signatures_try_from ts.

Fixpoint map_out {A B} (f : A -> outcome B) (l : list A) : outcome (list B) :=
  match l with
  | [] => Done []
  | a :: l => b ← f a; bs ← map_out f l; Done (b :: bs)
  end.

(** [Vec<Trailer>::from(&Signatures)]. *)
Definition signature_trailers (sigs : gmap N Sig) : outcome (list Trailer) :=
  map_out signature_trailer (btree_iter sigs).

(** ** [link-identities/src/git/sign.rs] *)

Record CommitMessage : Type := MkMessage {
  body : list N;
  trailers : list Trailer;
}.

(** [CommitMessage::new]. *)
Definition message_new (b : list N) (sigs : gmap N Sig) (extra_trailers : list Trailer) : outcome CommitMessage :=
  ts ← signature_trailers sigs;
  Done (MkMessage b (ts ++ extra_trailers)).

(** [Display for CommitMessage]: the index is always below the length, so every
    trailer is followed by a line feed. *)
Definition message_display (m : CommitMessage) : list N :=
  body m ++ [nl; nl] ++
  concat (imap (fun i t =>
    display_one (str ": ") t ++ (if (i <? length (trailers m))%nat then [nl] else [])) (trailers m)).
End Sign.

(** ** [git-ext/src/oid.rs] *)

(** [multihash::Code::Sha1]. *)
Definition Sha1 : N := 17.

Inductive FromMultihashError (G : Type) : Type :=
| AlgorithmMismatch (actual : N)
| OidGit (e : G).
Arguments AlgorithmMismatch {G} actual.
Arguments OidGit {G} e.

(** ** [cob/src/trailers.rs] *)

Inductive OidError (MB MH G : Type) : Type :=
| NoTrailer
| MultipleTrailers
| NoValue
| InvalidMultibase (e : MB)
| InvalidMultihash (e : MH)
| FromMultiHash (e : FromMultihashError G).
Arguments NoTrailer {MB MH G}. Arguments MultipleTrailers {MB MH G}. Arguments NoValue {MB MH G}.
Arguments InvalidMultibase {MB MH G} e. Arguments InvalidMultihash {MB MH G} e.
Arguments FromMultiHash {MB MH G} e.

Definition X_RAD_AUTHOR : list N := str "X-Rad-Author".
Definition X_RAD_AUTHORIZING_IDENTITY : list N := str "X-Rad-Authorizing-Identity".
Definition X_RAD_SCHEMA : list N := str "X-Rad-Schema".

Section Oid.
Context {MB MH G E : Type} `{Multicodec MB MH G} `{Nom E} `{Alphanumeric}.

(** [Multihash::from(&Oid)]. *)
Definition into_multihash (oid : N) : list N := multihash_wrap Sha1 (oid_as_bytes oid).

(** [Oid::try_from(MultihashRef)]. *)
Definition oid_try_from (mhash : N * list N) : result (FromMultihashError G) N :=
  if bool_decide (mhash.1 <> Sha1) then Err (AlgorithmMismatch mhash.1)
  else map_err OidGit (oid_from_bytes mhash.2).

Definition encode_oid (oid : N) : list N := multibase_encode (into_multihash oid).

(** The macro [oid_trailer!], for the token it is given. *)
Definition oid_trailer (tok : list N) (oid : N) : outcome Trailer :=
  t ← token_unwrap (E:=E) tok; Done (MkTrailer t [encode_oid oid]).

(** [TryFrom<&Trailer>]. *)
Definition oid_of_trailer (t : Trailer) : result (OidError MB MH G) N :=
  val ← ok_or (head (values t)) NoValue;
  bytes ← map_err InvalidMultibase (multibase_decode val);
  mhash ← map_err InvalidMultihash (multihash_from_slice bytes);
  map_err FromMultiHash (oid_try_from mhash).

Fixpoint collect_oids (ts : list Trailer) : result (OidError MB MH G) (list N) :=
  match ts with
  | [] => Ok []
  | t :: ts => o ← oid_of_trailer t; os ← collect_oids ts; Ok (o :: os)
  end.

(** [from_trailers]: a token that is not one matches nothing. *)
Definition oid_from_trailers (tok : list N) (ts : list Trailer) : result (OidError MB MH G) N :=
  os ← collect_oids (filter (fun t => res_ok (token_try_from (E:=E) tok) = Some (token t)) ts);
  match os with
  | [] => Err NoTrailer
  | [o] => Ok o
  | _ => Err MultipleTrailers
  end.
End Oid.

(** ** Reading messages back *)
Section Roundtrip.
Context {E : Type} `{NomLaws E} `{Alphanumeric}.

Lemma token_unwrap_done tok : token_ok tok -> token_try_from (E:=E) tok = Ok tok /\ token_unwrap (E:=E) tok = Done tok.
Proof using H0.
  intros [Hne Ht]. assert (token_try_from (E:=E) tok = Ok tok) as Htok.
  { unfold token_try_from, Parser.p_token. rewrite <- (app_nil_r tok) at 1. by rewrite take_while1_ok. }
  split; [done|]. unfold token_unwrap. by rewrite Htok.
Qed.

(** The tokens in use are tokens. *)
Lemma ascii_token tok : tok <> [] ->
  forallb (fun c => (c <? 128) && ((48 <=? c) && (c <=? 57) || (65 <=? c) && (c <=? 90) || (97 <=? c) && (c <=? 122) || (c =? 45))) tok = true ->
  token_ok tok.
Proof using.
  intros Hne Ht. split; [done|]. apply Forall_forall. intros c Hc. unfold Parser.is_token_char.
  rewrite forallb_forall in Ht. apply list_elem_of_In in Hc. apply Ht in Hc.
  apply andb_true_iff in Hc as [Hlt Hc]. apply N.ltb_lt in Hlt. by rewrite alphanumeric_ascii.
Qed.

Lemma word_value w : word w -> value_ok w.
Proof using.
  intros [Hne Hw]. split_and!.
  - eapply Forall_impl; [exact Hw|]. apply solid_not_eol.
  - destruct Hw as [|c w Hc _]; [done|]. cbn [stops]. destruct (is_blank c) eqn:Hb; [|done].
    apply blank_whitespace in Hb. congruence.
  - destruct w as [|c w _] using rev_ind; [done|]. apply Forall_app in Hw as [_ [Hc _]%Forall_cons].
    by exists w, c.
Qed.

Lemma split_word cur w : Forall (fun c => is_whitespace c = false) w -> cur ++ w <> [] ->
  split_words cur w = [cur ++ w].
Proof using.
  revert cur. induction w as [|c w IH]; intros cur Hw Hne; cbn [split_words].
  - rewrite app_nil_r in *. by destruct cur.
  - apply Forall_cons in Hw as [-> Hw]. rewrite IH; [by rewrite <- app_assoc|done|by destruct cur].
Qed.

Lemma split_whitespace_word w : word w -> split_whitespace w = [w].
Proof using. intros [Hne Hw]. by apply (split_word []). Qed.

Lemma map_out_done {A B} (f : A -> outcome B) (g : A -> B) l :
  (forall a, a ∈ l -> f a = Done (g a)) -> map_out f l = Done (g <$> l).
Proof using.
  induction l as [|a l IH]; intros Hf; cbn [map_out]; [done|]. rewrite Hf by (by left). cbn [mbind outcome_bind].
  rewrite IH; [done|]. intros b Hb. apply Hf. by right.
Qed.

Lemma fold_insert {V} (l : list (N * V)) : forall acc : gmap N V, NoDup l.*1 ->
  foldl (fun m kv => <[kv.1 := kv.2]> m) acc l = list_to_map l ∪ acc.
Proof using.
  induction l as [|[k v] l IH]; intros acc Hnd; cbn [foldl]; [by rewrite list_to_map_nil, map_empty_union|].
  cbn [fmap list_fmap] in Hnd. apply NoDup_cons in Hnd as [Hk Hnd]. rewrite IH by done. rewrite list_to_map_cons. cbn [fst snd].
  rewrite <- insert_union_r by (by apply not_elem_of_list_to_map_1). by rewrite insert_union_l.
Qed.

Lemma btree_iter_map {V} (m : gmap N V) : list_to_map (btree_iter m) = m.
Proof using.
  apply map_eq. intros k. destruct (m !! k) as [v|] eqn:Hm.
  - apply elem_of_list_to_map_1; [rewrite btree_iter_fst; apply btree_keys_nodup|]. by apply elem_of_btree_iter.
  - apply not_elem_of_list_to_map_1. rewrite btree_iter_fst, elem_of_btree_keys. intros [v Hv]. congruence.
Qed.

Context {Sig D : Type} `{KeyTextLaws Sig D}.

(** The trailer of a signature. *)
Definition sig_line (kv : N * Sig) : Trailer :=
  MkTrailer TRAILER_TOKEN [key_to_string kv.1; sig_to_string kv.2].

Lemma signature_token : token_ok TRAILER_TOKEN.
Proof using. by apply ascii_token. Qed.

Lemma signature_trailers_done sigs : signature_trailers (E:=E) sigs = Done (sig_line <$> btree_iter sigs).
Proof using H0.
  apply map_out_done. intros kv _. unfold signature_trailer.
  by rewrite (proj2 (token_unwrap_done _ signature_token)).
Qed.

Lemma sig_line_ok kv : trailer_ok (sig_line kv).
Proof using H3.
  split; [apply signature_token|]. apply Forall_cons. split; [apply word_value, key_word|].
  apply Forall_singleton, word_value, sig_word.
Qed.

Lemma sig_line_read kv : signature_try_from (sig_line kv) = Ok kv.
Proof using H3.
  unfold signature_try_from, sig_line. cbn [values]. cbn [mbind list_bind].
  rewrite !split_whitespace_word by (apply key_word || apply sig_word). cbn.
  rewrite key_roundtrip, sig_roundtrip. by destruct kv.
Qed.

Lemma collect_sig_lines l : forall acc,
  collect_signatures (E:=E) acc (sig_line <$> l) = Ok (foldl (fun m kv => <[kv.1 := kv.2]> m) acc l).
Proof using H3.
  induction l as [|kv l IH]; intros acc; [done|]. cbn [fmap list_fmap collect_signatures foldl].
  rewrite sig_line_read. cbn. apply IH.
Qed.

Lemma signatures_read sigs extra : Forall (fun t => token t <> TRAILER_TOKEN) extra ->
  signatures_try_from (E:=E) ((sig_line <$> btree_iter sigs) ++ extra) = Ok sigs.
Proof using H3.
  intros Hextra. unfold signatures_try_from. rewrite filter_app.
  rewrite (filter_all _ (sig_line <$> btree_iter sigs)) by (apply Forall_fmap, Forall_forall; done).
  rewrite (filter_none _ extra) by done. rewrite app_nil_r, collect_sig_lines.
  rewrite fold_insert by (rewrite btree_iter_fst; apply btree_keys_nodup).
  by rewrite btree_iter_map, map_union_empty.
Qed.

Lemma message_text b ts : ts <> [] ->
  message_display (MkMessage b ts) = b ++ nl :: nl :: display (fun _ => str ": ") ts ++ [nl].
Proof using.
  intros Hne. unfold message_display. cbn [body trailers app]. do 3 f_equal.
  assert (forall (n : nat) l, (n + length l <= length ts)%nat ->
    imap (fun i t => display_one (str ": ") t ++ (if (n + i <? length ts)%nat then [nl] else [])) l =
    (fun t => display_one (str ": ") t ++ [nl]) <$> l) as Hi.
  { intros n l. revert n. induction l as [|t l IH]; intros n Hn; [done|]. simpl in Hn. cbn [imap fmap list_fmap].
    destruct (Nat.ltb_spec (n + 0) (length ts)); [|lia]. f_equal. rewrite <- (IH (S n)) by lia.
    apply imap_ext. intros i x _. cbn. by replace (n + S i)%nat with (S n + i)%nat by lia. }
  specialize (Hi O ts (le_n _)). cbn [Nat.add] in Hi. rewrite Hi. clear Hi. unfold display.
  induction ts as [|t [|t' ts] IH]; [done|cbn; by rewrite app_nil_r|].
  cbn [fmap list_fmap concat]. cbn [fmap list_fmap concat] in IH. rewrite IH by done.
  change (join_with [nl] (?a :: ?b :: ?l)) with (a ++ [nl] ++ join_with [nl] (b :: l)).
  by rewrite <- !app_assoc.
Qed.
End Roundtrip.

Section Oids.
Context {E MB MH G : Type} `{NomLaws E} `{Alphanumeric} `{MulticodecLaws MB MH G}.

Definition oid_line (tok : list N) (oid : N) : Trailer := MkTrailer tok [encode_oid oid].

Lemma oid_trailer_done tok oid : token_ok tok -> oid_trailer (E:=E) tok oid = Done (oid_line tok oid).
Proof using H0. intros Ht. unfold oid_trailer. by rewrite (proj2 (token_unwrap_done _ Ht)). Qed.

Lemma oid_line_ok tok oid : token_ok tok -> trailer_ok (oid_line tok oid).
Proof using H3. intros Ht. split; [done|]. apply Forall_singleton, word_value, multibase_word. Qed.

Lemma oid_line_read tok oid : oid_of_trailer (oid_line tok oid) = Ok oid.
Proof using H3.
  unfold oid_of_trailer, oid_line, encode_oid, into_multihash. cbn. rewrite multibase_roundtrip. cbn.
  rewrite multihash_roundtrip. cbn. unfold oid_try_from. cbn [fst snd]. rewrite bool_decide_eq_false_2 by tauto.
  by rewrite oid_bytes_roundtrip.
Qed.

(** The only trailer with the token is found. *)
Lemma oid_found tok oid ts1 ts2 : token_ok tok ->
  Forall (fun t => token t <> tok) (ts1 ++ ts2) ->
  oid_from_trailers (E:=E) tok (ts1 ++ oid_line tok oid :: ts2) = Ok oid.
Proof using H0 H3.
  intros Ht Hts. unfold oid_from_trailers. rewrite (proj1 (token_unwrap_done _ Ht)). cbn [res_ok].
  apply Forall_app in Hts as [H1' H2']. rewrite filter_app, filter_cons_True by done.
  rewrite (filter_none _ ts1), (filter_none _ ts2) by (eapply Forall_impl; [done|]; intros ? ? [= ?]; congruence).
  cbn [app collect_oids]. by rewrite oid_line_read.
Qed.

Lemma oid_missing tok ts : token_ok tok -> Forall (fun t => token t <> tok) ts ->
  oid_from_trailers (E:=E) tok ts = Err NoTrailer.
Proof using H0.
  intros Ht Hts. unfold oid_from_trailers. rewrite (proj1 (token_unwrap_done _ Ht)). cbn [res_ok].
  by rewrite (filter_none _ ts) by (eapply Forall_impl; [done|]; intros ? ? [= ?]; congruence).
Qed.
End Oids.

Section Message.
Context {E Sig D : Type} `{NomLaws E} `{Alphanumeric} `{KeyTextLaws Sig D}.

(** The trailers of a message, read back. *)
Lemma message_parse b (sigs : gmap N Sig) extra :
  (sigs <> ∅ \/ extra <> []) -> Forall trailer_ok extra ->
  exists m, message_new (E:=E) b sigs extra = Done m /\
    match parse (E:=E) (message_display m) (str ":") with
    | Ok ts => odd_newlines b = false /\ ts = (sig_line <$> btree_iter sigs) ++ extra
    | Err e => odd_newlines b = true /\ exists r, e = Trailing r
    end.
Proof using H0 H3.
  intros Hne Hextra. unfold message_new. rewrite signature_trailers_done. cbn [mbind outcome_bind].
  eexists. split; [done|]. set (ts := (sig_line <$> btree_iter sigs) ++ extra).
  assert (ts <> []) as Hts.
  { unfold ts. intros [Hs ->]%app_eq_nil. destruct Hne as [Hne|]; [|done]. apply Hne.
    apply fmap_nil_inv in Hs. rewrite <- (btree_iter_map sigs), Hs. done. }
  rewrite message_text by done.
  apply (parse_displayed (str ":") (fun _ => str ": ") ts [nl]); [done| | |by repeat constructor].
  - apply Forall_app. split; [|done]. apply Forall_fmap, Forall_forall. intros kv _. apply sig_line_ok.
  - apply Forall_forall. intros t _. exists [], 58, (str " "). split_and!; [done|constructor|by repeat constructor|].
    split_and!; [by left|done|]. unfold Parser.is_token_char. by rewrite alphanumeric_ascii.
Qed.

(** [commit_message_roundtrip]: the signatures of a commit message are read back, exactly,
    when the text of the message does not end with an odd number of line feeds; when it
    does, the trailers are not found and reading the signatures fails. *)
Theorem commit_message_roundtrip (b : list N) (sigs : gmap N Sig) (extra : list Trailer)
    (Hne : sigs <> ∅ \/ extra <> []) (Hextra : Forall trailer_ok extra)
    (Htok : Forall (fun t => token t <> TRAILER_TOKEN) extra) :
  exists m, message_new (E:=E) b sigs extra = Done m /\
    match from_trailers (E:=E) (Sig:=Sig) (message_display m) with
    | Ok sigs' => odd_newlines b = false /\ sigs' = sigs
    | Err e => odd_newlines b = true /\ exists r, e = SigTrailer (Trailing r)
    end.
Proof using H0 H3.
  destruct (message_parse b sigs extra Hne Hextra) as (m & Hm & Hp). exists m. split; [done|].
  unfold from_trailers. destruct (parse (message_display m) (str ":")) as [ts|e]; cbn [map_err mbind result_bind].
  - destruct Hp as [Hodd ->]. by rewrite signatures_read.
  - destruct Hp as [Hodd [r ->]]. eauto.
Qed.
End Message.

(** ** Keys written in unary *)
Module UnaryText.
Definition write (n : N) : list N := replicate (S (N.to_nat n)) 97.
Definition read (s : list N) : result unit N :=
  if bool_decide (s <> [] /\ Forall (fun c => c = 97) s) then Ok (N.of_nat (length s - 1)) else Err tt.

Lemma read_write n : read (write n) = Ok n.
Proof.
  unfold read, write. rewrite bool_decide_eq_true_2 by (split; [done|by apply Forall_replicate]).
  rewrite length_replicate. f_equal. lia.
Qed.
Lemma write_word n : word (write n).
Proof. split; [done|]. by apply Forall_replicate. Qed.

#[export] Instance unary_text : KeyText N unit := {|
  key_to_string := write; key_deserialize := read; sig_to_string := write; sig_deserialize := read;
|}.
#[export] Instance unary_text_laws : KeyTextLaws N unit := {|
  key_roundtrip := read_write; sig_roundtrip := read_write; key_word := write_word; sig_word := write_word;
|}.
#[export] Existing Instance ascii_alphanumeric.
#[export] Existing Instance ListNom.list_nom.
#[export] Existing Instance ListNom.list_nom_laws.

(** A body that ends with one line feed too many. *)
Lemma commit_message_roundtrip_witness :
  exists m e, message_new (E:=unit) (str "new change" ++ [nl]) {[ 1 := 2 ]} [] = Done m /\
    message_display m = str "new change" ++ [nl; nl; nl] ++ str "X-Rad-Signature: aa" ++ [nl] ++ str "  aaa" ++ [nl] /\
    from_trailers (E:=unit) (Sig:=N) (message_display m) = Err e.
Proof.
  destruct (commit_message_roundtrip (E:=unit) (Sig:=N) (D:=unit) (str "new change" ++ [nl]) {[ 1 := 2 ]} [])
    as (m & Hm & Hp).
  - left. by vm_compute.
  - constructor.
  - constructor.
  - destruct (from_trailers (E:=unit) (Sig:=N) (message_display m)) as [s|e] eqn:Hf.
    + destruct Hp as [Hodd _]. vm_compute in Hodd. discriminate.
    + exists m, e. split_and!; [exact Hm| |exact Hf]. vm_compute in Hm. injection Hm as <-. vm_compute. reflexivity.
Defined.
End UnaryText.
