(* ===== verification/ChangeStore.v ===== *)
(** * Changes in git

    [cob/src/change.rs]: a change of a collaborative object is a commit; its tree holds
    a manifest and the contents, its message the signatures and the roles of its
    parents.  [change_create] writes a change, [change_load] reads one.  libgit2 is the
    interface [Git2], TOML the interface [Toml]. *)
From stdpp Require Import base list gmap.
From Stdlib Require Import NArith Lia.
From Stdlib Require String.
Import String.StringSyntax.
From S2P Require Import Prelude Effects RefFormat Trailers CommitMessage Cob.
From S2P Require GitIdentity.
#[local] Open Scope N_scope.

(** ** Interfaces *)

(** A commit as it is read; a message that is not UTF-8 is [None]. *)
Record GitCommit : Type := MkGitCommit {
  gc_tree : N;
  gc_parents : list N;
  gc_message : option (list N);
}.

Inductive GitObject : Type := Blob (bytes : list N) | NotABlob.

Class Git2 (R GE : Type) := {
  git_blob : list N -> st R GE N;
  git_treebuilder : R -> result GE (gmap (list N) N);
  git_tb_insert : R -> gmap (list N) N -> list N -> N -> result GE (gmap (list N) N);
  git_tb_write : gmap (list N) N -> st R GE N;
  git_commit : list N -> N -> list N -> st R GE N;      (** message, tree, parents *)
  git_signature : R -> result GE unit;
  git_find_tree : R -> N -> result GE (gmap (list N) N);
  git_find_commit : R -> N -> result GE GitCommit;
  git_find_object : R -> N -> result GE GitObject;
}.

(** [git_commit_message] leaves out line feeds at the start. *)
Fixpoint strip_newlines (s : list N) : list N :=
  match s with
  | [] => []
  | c :: s' => if c =? nl then strip_newlines s' else s
  end.

(** What is found stays. *)
Definition git_grows {R GE} `{Git2 R GE} (r r' : R) : Prop :=
  (forall o x, git_find_object r o = Ok x -> git_find_object r' o = Ok x) /\
  (forall o x, git_find_tree r o = Ok x -> git_find_tree r' o = Ok x) /\
  (forall o x, git_find_commit r o = Ok x -> git_find_commit r' o = Ok x).

Class Git2Laws (R GE : Type) `{Git2 R GE} := {
  git_treebuilder_ok r m : git_treebuilder r = Ok m -> m = ∅;
  git_tb_insert_ok r m n o m' : git_tb_insert r m n o = Ok m' -> m' = <[n := o]> m;
  git_blob_ok bs r o r' : git_blob bs r = (EOk o, r') ->
    git_find_object r' o = Ok (Blob bs) /\ git_grows r r';
  git_tb_write_ok m r o r' : git_tb_write m r = (EOk o, r') ->
    git_find_tree r' o = Ok m /\ git_grows r r';
  git_commit_ok msg tree parents r o r' : git_commit msg tree parents r = (EOk o, r') ->
    git_find_commit r' o = Ok (MkGitCommit tree parents (Some (strip_newlines msg))) /\ git_grows r r';
}.

Class Toml (TE : Type) := {
  toml_to_vec : Manifest -> list N;
  toml_from_slice : list N -> result TE Manifest;
  toml_roundtrip m : toml_from_slice (toml_to_vec m) = Ok m;
}.

(** ** Data *)

Inductive ChangeCreate (GE SE : Type) : Type :=
| CreateGit (e : GE)
| CreateSigner (e : SE).
Arguments CreateGit {GE SE} e.
Arguments CreateSigner {GE SE} e.

Inductive ChangeLoad (GE TE D E MB MH G : Type) : Type :=
| LoadSignatures (e : SignaturesError D E)
| LoadGit (e : GE)
| NoManifest
| ManifestIsNotBlob
| InvalidManifest (e : TE)
| NoChange
| ChangeNotBlob
| LoadSchema (e : OidError MB MH G)
| LoadAuthor (e : OidError MB MH G)
| LoadAuthorizing (e : OidError MB MH G)
| LoadUtf8
| LoadTrailer (e : Trailers.Error E).
Arguments LoadSignatures {GE TE D E MB MH G} e. Arguments LoadGit {GE TE D E MB MH G} e.
Arguments NoManifest {GE TE D E MB MH G}. Arguments ManifestIsNotBlob {GE TE D E MB MH G}.
Arguments InvalidManifest {GE TE D E MB MH G} e. Arguments NoChange {GE TE D E MB MH G}.
Arguments ChangeNotBlob {GE TE D E MB MH G}. Arguments LoadSchema {GE TE D E MB MH G} e.
Arguments LoadAuthor {GE TE D E MB MH G} e. Arguments LoadAuthorizing {GE TE D E MB MH G} e.
Arguments LoadUtf8 {GE TE D E MB MH G}. Arguments LoadTrailer {GE TE D E MB MH G} e.

Record NewChangeSpec : Type := MkSpec {
  spec_typename : String.string;
  spec_tips : option (list N);
  spec_message : option (list N);
  spec_contents : EntryContents;
}.

Definition MANIFEST_BLOB_NAME : list N := str "manifest.toml".
Definition CHANGE_BLOB_NAME : list N := str "change".

(** [HistoryType::from(&EntryContents)] and [EntryContents::as_ref]. *)
Definition history_type_of (c : EntryContents) : HistoryType :=
  match c with Automerge _ => AutomergeHistory end.
Definition contents_bytes (c : EntryContents) : list N :=
  match c with Automerge bs => bs end.

Definition default_message : list N := str "new change".

Section Store.
Context {R GE SE TE D E MB MH G Sig : Type}.
Context `{Git2 R GE} `{Toml TE} `{KeyText Sig D} `{Nom E} `{Alphanumeric} `{Multicodec MB MH G}.

Abbreviation CM := (st R (ChangeCreate GE SE)) (only parsing).

(** A call into libgit2 that changes the repository, and one that only reads it. *)
Definition git {A} (m : st R GE A) : st R (ChangeCreate GE SE) A := fun r =>
  let '(x, r) := m r in (eff_map_err CreateGit x, r).
Definition git_read {A} (f : R -> result GE A) : st R (ChangeCreate GE SE) A :=
  reads (fun r => of_res_with CreateGit (f r)).

(** The tree with the manifest and the contents. *)
Definition write_tree (m : Manifest) (contents : EntryContents) : st R (ChangeCreate GE SE) N :=
  tb ← git_read git_treebuilder;
  manifest_oid ← git (git_blob (toml_to_vec m));
  tb ← git_read (fun r => git_tb_insert r tb MANIFEST_BLOB_NAME manifest_oid);
  change_blob ← git (git_blob (contents_bytes contents));
  tb ← git_read (fun r => git_tb_insert r tb CHANGE_BLOB_NAME change_blob);
  git (git_tb_write tb).

(** [find_commit] on each of the tips. *)
Definition find_tips (r : R) (tips : list N) : result GE unit :=
  foldl (fun acc o => acc ← acc; _ ← git_find_commit r o; Ok tt) (Ok tt) tips.

(** [Change::create]. *)
Definition change_create (authorizing author : N) (signer : GitIdentity.Signer Sig SE) (spec : NewChangeSpec) :
    st R (ChangeCreate GE SE) (Change Sig) :=
  let m := MkManifest (spec_typename spec) (history_type_of (spec_contents spec)) in
  revision ← write_tree m (spec_contents spec);
  _ ← git_read (fun r => git_find_tree r revision);
  _ ← git_read (fun r => git_find_commit r author);
  _ ← git_read git_signature;
  _ ← git_read (fun r => git_find_commit r authorizing);
  sig ← lift (of_res_with CreateSigner (GitIdentity.sign signer revision));
  let signatures := {[ sig.1 := sig.2 ]} in
  let tips := default [] (spec_tips spec) in
  _ ← git_read (fun r => find_tips r tips);
  t1 ← lift (of_out (oid_trailer (E:=E) X_RAD_AUTHOR author));
  t2 ← lift (of_out (oid_trailer (E:=E) X_RAD_AUTHORIZING_IDENTITY authorizing));
  msg ← lift (of_out (message_new (E:=E) (default default_message (spec_message spec)) signatures [t1; t2]));
  commit ← git (git_commit (message_display msg) revision (tips ++ [authorizing; author]));
  mret (MkChange commit revision signatures author None authorizing m (spec_contents spec)).

Abbreviation LE := (ChangeLoad GE TE D E MB MH G) (only parsing).

(** A file of the tree of a change. *)
Definition tree_blob (r : R) (tree : gmap (list N) N) (name : list N) (missing not_blob : LE) : result LE (list N) :=
  entry ← ok_or (tree !! name) missing;
  obj ← map_err LoadGit (git_find_object r entry);
  match obj with Blob bs => Ok bs | NotABlob => Err not_blob end.

(** [Change::load]; [id] is the id of the commit. *)
Definition change_load (r : R) (id : N) (commit : GitCommit) : result LE (Change Sig) :=
  msg ← ok_or (gc_message commit) LoadUtf8;
  trailers ← map_err LoadTrailer (parse msg (str ":"));
  author ← map_err LoadAuthor (oid_from_trailers (E:=E) X_RAD_AUTHOR trailers);
  authorizing ← map_err LoadAuthorizing (oid_from_trailers (E:=E) X_RAD_AUTHORIZING_IDENTITY trailers);
  schema ← (match oid_from_trailers (E:=E) X_RAD_SCHEMA trailers with
            | Ok o => Ok (Some o)
            | Err NoTrailer => Ok None
            | Err e => Err (LoadSchema e)
            end);
  signatures ← map_err LoadSignatures (signatures_try_from trailers);
  tree ← map_err LoadGit (git_find_tree r (gc_tree commit));
  manifest_blob ← tree_blob r tree MANIFEST_BLOB_NAME NoManifest ManifestIsNotBlob;
  m ← map_err InvalidManifest (toml_from_slice manifest_blob);
  contents ← (match history_type m with
              | AutomergeHistory =>
                  bs ← tree_blob r tree CHANGE_BLOB_NAME NoChange ChangeNotBlob; Ok (Automerge bs)
              end);
  Ok (MkChange id (gc_tree commit) signatures author schema authorizing m contents).
End Store.

(** ** Reading changes back *)

Lemma strip_app b t : stops (N.eqb nl) t ->
  strip_newlines (b ++ nl :: nl :: t) =
  match strip_newlines b with [] => t | s => s ++ nl :: nl :: t end.
Proof.
  intros Ht. induction b as [|c b IH]; cbn [app strip_newlines].
  - rewrite N.eqb_refl. destruct t as [|d t]; [done|]. change ((nl =? d) = false) in Ht. cbn [strip_newlines].
    by rewrite N.eqb_sym, Ht.
  - destruct (c =? nl); [exact IH|done].
Qed.

Section Roundtrip.
Context {R GE SE TE D E MB MH G Sig : Type}.
Context `{Git2Laws R GE} `{Toml TE} `{KeyTextLaws Sig D} `{NomLaws E} `{Alphanumeric} `{MulticodecLaws MB MH G}.

Lemma git_ok {A} (m : st R GE A) r a r' :
  git (SE:=SE) m r = (EOk a, r') <-> m r = (EOk a, r').
Proof using. unfold git. destruct (m r) as [[|e|] r1]; cbn; split; congruence. Qed.

Lemma git_read_ok {A} (f : R -> result GE A) r a r' :
  git_read (SE:=SE) f r = (EOk a, r') <-> f r = Ok a /\ r' = r.
Proof using.
  unfold git_read, reads. rewrite pair_equal_spec, of_res_with_ok. split; intros []; subst; done.
Qed.

Lemma lift_ok {W F A} (x : eff F A) (r : W) a r' : lift x r = (EOk a, r') <-> x = EOk a /\ r' = r.
Proof using. unfold lift. rewrite pair_equal_spec. split; intros []; subst; done. Qed.

Lemma git_grows_refl r : git_grows r r.
Proof using. done. Qed.
Lemma git_grows_trans r1 r2 r3 : git_grows r1 r2 -> git_grows r2 r3 -> git_grows r1 r3.
Proof using. intros (A1 & A2 & A3) (B1 & B2 & B3). split_and!; eauto. Qed.

(** The tree of a change, as it is found later. *)
Definition tree_of (m : Manifest) (contents : EntryContents) (r : R) (o : N) : Prop :=
  exists tree o1 o2, git_find_tree r o = Ok tree /\
    tree !! MANIFEST_BLOB_NAME = Some o1 /\ git_find_object r o1 = Ok (Blob (toml_to_vec m)) /\
    tree !! CHANGE_BLOB_NAME = Some o2 /\ git_find_object r o2 = Ok (Blob (contents_bytes contents)).

Lemma tree_of_grows m contents r r' o : git_grows r r' -> tree_of m contents r o -> tree_of m contents r' o.
Proof using.
  intros (Ho & Ht & _) (tree & o1 & o2 & ? & ? & ? & ? & ?). exists tree, o1, o2. split_and!; auto.
Qed.

Lemma write_tree_ok m contents r o r' :
  write_tree (SE:=SE) m contents r = (EOk o, r') -> tree_of m contents r' o /\ git_grows r r'.
Proof using H0.
  unfold write_tree.
  intros (tb & r0 & [Hb ->]%git_read_ok & Hx)%st_bind_ok.
  apply st_bind_ok in Hx as (o1 & r1 & [Ho1 Hg1]%git_ok%git_blob_ok & Hx).
  apply st_bind_ok in Hx as (tb1 & r1' & [Ht1%git_tb_insert_ok ->]%git_read_ok & Hx).
  apply st_bind_ok in Hx as (o2 & r2 & [Ho2 Hg2]%git_ok%git_blob_ok & Hx).
  apply st_bind_ok in Hx as (tb2 & r2' & [Ht2%git_tb_insert_ok ->]%git_read_ok & Hx).
  apply git_ok, git_tb_write_ok in Hx as [Ht Hg3]. apply git_treebuilder_ok in Hb as ->. subst.
  split; [|by eapply git_grows_trans; [|eapply git_grows_trans]].
  eexists _, o1, o2. split_and!; [exact Ht| | | |].
  - by rewrite lookup_insert_ne, lookup_insert_eq.
  - apply Hg3, Hg2, Ho1.
  - by rewrite lookup_insert_eq.
  - apply Hg3, Ho2.
Qed.

Lemma tree_read m contents r o : tree_of m contents r o ->
  exists tree, git_find_tree r o = Ok tree /\
    tree_blob (TE:=TE) (D:=D) (E:=E) (MB:=MB) (MH:=MH) (G:=G) r tree MANIFEST_BLOB_NAME NoManifest ManifestIsNotBlob
      = Ok (toml_to_vec m) /\
    tree_blob (TE:=TE) (D:=D) (E:=E) (MB:=MB) (MH:=MH) (G:=G) r tree CHANGE_BLOB_NAME NoChange ChangeNotBlob
      = Ok (contents_bytes contents).
Proof using.
  intros (tree & o1 & o2 & Ht & Hn1 & Hb1 & Hn2 & Hb2). exists tree. unfold tree_blob. rewrite Hn1, Hn2. cbn.
  by rewrite Hb1, Hb2.
Qed.

Lemma author_token : token_ok X_RAD_AUTHOR.
Proof using. by apply ascii_token. Qed.
Lemma authorizing_token : token_ok X_RAD_AUTHORIZING_IDENTITY.
Proof using. by apply ascii_token. Qed.
Lemma schema_token : token_ok X_RAD_SCHEMA.
Proof using. by apply ascii_token. Qed.

(** The trailers of the message of a change. *)
Definition change_trailers (sigs : gmap N Sig) (author authorizing : N) : list Trailer :=
  (sig_line <$> btree_iter sigs) ++
  [oid_line X_RAD_AUTHOR author; oid_line X_RAD_AUTHORIZING_IDENTITY authorizing].

Lemma change_trailers_read sigs author authorizing :
  let ts := change_trailers sigs author authorizing in
  oid_from_trailers (E:=E) X_RAD_AUTHOR ts = Ok author /\
  oid_from_trailers (E:=E) X_RAD_AUTHORIZING_IDENTITY ts = Ok authorizing /\
  oid_from_trailers (E:=E) X_RAD_SCHEMA ts = Err NoTrailer /\
  signatures_try_from (E:=E) ts = Ok sigs.
Proof using H3 H5 H8.
  cbn zeta. unfold change_trailers.
  assert (forall tok, tok <> TRAILER_TOKEN -> Forall (fun t => token t <> tok) (sig_line <$> btree_iter sigs)) as Hs.
  { intros tok Hne. apply Forall_fmap, Forall_forall. intros kv _ Heq. by apply Hne; rewrite <- Heq. }
  split_and!.
  - apply oid_found; [apply author_token|]. apply Forall_app. split; [by apply Hs|by repeat constructor].
  - rewrite cons_middle, app_assoc. apply oid_found; [apply authorizing_token|]. rewrite <- app_assoc.
    apply Forall_app. split; [by apply Hs|by repeat constructor].
  - apply oid_missing; [apply schema_token|]. apply Forall_app. split; [by apply Hs|by repeat constructor].
  - apply signatures_read. by repeat constructor.
Qed.

(** The message of a change as it is found in the repository. *)
Lemma change_message b (sigs : gmap N Sig) author authorizing : sigs <> ∅ ->
  exists m, message_new (E:=E) b sigs
      [oid_line X_RAD_AUTHOR author; oid_line X_RAD_AUTHORIZING_IDENTITY authorizing] = Done m /\
    match parse (E:=E) (strip_newlines (message_display m)) (str ":") with
    | Ok ts => odd_newlines (strip_newlines b) = false /\ ts = change_trailers sigs author authorizing
    | Err e => odd_newlines (strip_newlines b) = true /\ exists x, e = Trailing x
    end.
Proof using H3 H5 H8.
  intros Hne. unfold message_new. rewrite signature_trailers_done. cbn [mbind outcome_bind]. eexists. split; [done|].
  fold (change_trailers sigs author authorizing). set (ts := change_trailers sigs author authorizing).
  assert (ts <> []) as Hts by (unfold ts, change_trailers; intros [_ ?]%app_eq_nil; done).
  assert (Forall trailer_ok ts) as Hok.
  { apply Forall_app. split; [apply Forall_fmap, Forall_forall; intros; apply sig_line_ok|].
    repeat apply Forall_cons_2; [apply oid_line_ok, author_token|apply oid_line_ok, authorizing_token|constructor]. }
  assert (Forall (fun t => sep_ok (str ":") (str ": ")) ts) as Hsep.
  { apply Forall_forall. intros t _. exists [], 58, (str " "). split_and!; [done|constructor|by repeat constructor|].
    split_and!; [by left|done|]. unfold Parser.is_token_char. by rewrite alphanumeric_ascii. }
  rewrite message_text by done.
  destruct (parse_displayed (E:=E) (str ":") (fun _ => str ": ") ts [nl] Hts Hok Hsep) as [Hp1 Hp2];
    [by repeat constructor|].
  rewrite strip_app.
  - destruct (strip_newlines b) as [|c s]; [by rewrite Hp1|]. apply Hp2.
  - unfold display. destruct ts as [|t ts']; [done|]. apply Forall_cons in Hok as [[[Hne' Ht] _] _].
    assert (exists u, join_with [nl] ((fun t => display_one (str ": ") t) <$> t :: ts') = token t ++ u) as [u ->].
    { cbn [fmap list_fmap]. destruct (_ <$> ts'); unfold display_one; cbn [join_with]; rewrite <- ?app_assoc; eauto. }
    destruct Ht as [|c u' Hc _]; [done|]. change ((nl =? c) = false). apply N.eqb_neq. intros <-.
    by rewrite nl_not_token in Hc.
Qed.

(** Changes that can be loaded stay. *)
Lemma tree_blob_grows r r' tree name (e1 e2 : ChangeLoad GE TE D E MB MH G) bs : git_grows r r' ->
  tree_blob r tree name e1 e2 = Ok bs -> tree_blob r' tree name e1 e2 = Ok bs.
Proof using.
  intros (Ho & _) Hb. unfold tree_blob in *. destruct (ok_or (tree !! name) e1) as [o|]; [|done]. cbn in *.
  destruct (git_find_object r o) as [x|] eqn:Hx; [|done]. by rewrite (Ho _ _ Hx).
Qed.

Lemma change_load_grows r r' id commit (c : Change Sig) : git_grows r r' ->
  change_load (D:=D) (E:=E) (TE:=TE) r id commit = Ok c -> change_load (D:=D) (E:=E) (TE:=TE) r' id commit = Ok c.
Proof using.
  intros Hg. unfold change_load.
  do 6 (match goal with |- mbind _ ?m = Ok _ -> _ => destruct m; [|done] end; cbn [mbind result_bind]).
  destruct (git_find_tree r (gc_tree commit)) as [tree|] eqn:Ht; [|done].
  apply (proj1 (proj2 Hg)) in Ht. rewrite Ht. cbn [map_err mbind result_bind].
  match goal with |- mbind _ ?m = Ok _ -> _ => destruct m as [mb|] eqn:Hm; [|done] end.
  rewrite (tree_blob_grows _ _ _ _ _ _ _ Hg Hm). cbn [mbind result_bind].
  destruct (toml_from_slice mb) as [m|]; [|done]. cbn [map_err mbind result_bind]. destruct (history_type m).
  match goal with |- mbind _ (mbind _ ?m) = Ok _ -> _ => destruct m as [cb|] eqn:Hcb; [|done] end.
  by rewrite (tree_blob_grows _ _ _ _ _ _ _ Hg Hcb).
Qed.

(** What the commit of a new change says, and that it can be read. *)
Lemma created (authorizing author : N) (signer : GitIdentity.Signer Sig SE) (spec : NewChangeSpec) (r r' : R) (c : Change Sig) :
  change_create (E:=E) (TE:=TE) authorizing author signer spec r = (EOk c, r') ->
  git_grows r r' /\
  (author_commit c = author /\ authorizing_identity_commit c = authorizing /\ schema_commit c = None /\
   ch_contents c = spec_contents spec /\ typename (manifest c) = spec_typename spec) /\
  (exists key sig, GitIdentity.sign signer (ch_revision c) = Ok (key, sig) /\ ch_signatures c = {[ key := sig ]}) /\
  exists commit, git_find_commit r' (ch_commit c) = Ok commit /\
    gc_parents commit = default [] (spec_tips spec) ++ [authorizing; author] /\
    match change_load (E:=E) (TE:=TE) r' (ch_commit c) commit with
    | Ok c' => odd_newlines (strip_newlines (default default_message (spec_message spec))) = false /\ c' = c
    | Err e => odd_newlines (strip_newlines (default default_message (spec_message spec))) = true /\
        exists x, e = LoadTrailer (Trailing x)
    end.
Proof using H0 H3 H5 H8.
  intros Hc. unfold change_create in Hc.
  apply st_bind_ok in Hc as (rev & r1 & [Htree Hg1]%write_tree_ok & Hc).
  repeat (apply st_bind_ok in Hc as (? & ? & [_ ->]%git_read_ok & Hc)).
  apply st_bind_ok in Hc as ([key sig] & ? & [Hsig%of_res_with_ok ->]%lift_ok & Hc).
  apply st_bind_ok in Hc as (? & ? & [_ ->]%git_read_ok & Hc).
  apply st_bind_ok in Hc as (t1 & ? & [Ht1%of_out_ok ->]%lift_ok & Hc).
  apply st_bind_ok in Hc as (t2 & ? & [Ht2%of_out_ok ->]%lift_ok & Hc).
  rewrite oid_trailer_done in Ht1 by apply author_token. rewrite oid_trailer_done in Ht2 by apply authorizing_token.
  injection Ht1 as <-. injection Ht2 as <-. cbn [fst snd] in Hc.
  destruct (change_message (default default_message (spec_message spec)) {[ key := sig ]} author authorizing)
    as (m & Hm & Hp); [apply map_non_empty_singleton|].
  apply st_bind_ok in Hc as (m' & ? & [Hm'%of_out_ok ->]%lift_ok & Hc). rewrite Hm in Hm'. injection Hm' as <-.
  apply st_bind_ok in Hc as (commit & r2 & [Hcommit Hg2]%git_ok%git_commit_ok & [= <- <-]).
  split; [by eapply git_grows_trans|]. split; [done|]. split; [by exists key, sig|].
  eexists. split; [exact Hcommit|]. split; [done|]. unfold change_load. cbn [gc_message ok_or mbind result_bind].
  destruct (parse (strip_newlines (message_display m)) (str ":")) as [ts|e]; cbn [map_err mbind result_bind].
  2: { destruct Hp as [? (err & ->)]. eauto. }
  destruct Hp as [Hodd ->]. destruct (change_trailers_read {[ key := sig ]} author authorizing) as (-> & -> & -> & ->).
  cbn [map_err mbind result_bind gc_tree].
  apply (tree_of_grows _ _ _ _ _ Hg2) in Htree.
  destruct (tree_read _ _ _ _ Htree) as (tree & -> & Hb1 & Hb2). cbn [map_err mbind result_bind]. rewrite Hb1.
  cbn [map_err mbind result_bind]. rewrite toml_roundtrip. cbn [map_err mbind result_bind history_type].
  destruct (spec_contents spec) as [bs]. cbn [history_type_of]. rewrite Hb2. done.
Qed.

(** [change_roundtrip]: a change that has been created is loaded from the repository as it
    was: its contents, its type, its signatures and the identities it refers to.  The one
    exception is a message that ends with an odd number of line feeds: then the trailers
    are not found, and the change that was created cannot be loaded. *)
Theorem change_roundtrip (authorizing author : N) (signer : GitIdentity.Signer Sig SE) (spec : NewChangeSpec)
    (r r' : R) (c : Change Sig)
    (Hc : change_create (E:=E) (TE:=TE) authorizing author signer spec r = (EOk c, r')) :
  exists commit, git_find_commit r' (ch_commit c) = Ok commit /\
    match change_load (E:=E) (TE:=TE) r' (ch_commit c) commit with
    | Ok c' => odd_newlines (strip_newlines (default default_message (spec_message spec))) = false /\ c' = c
    | Err e => odd_newlines (strip_newlines (default default_message (spec_message spec))) = true /\
        exists x, e = LoadTrailer (Trailing x)
    end.
Proof using H0 H3 H5 H8. apply created in Hc as (_ & _ & _ & commit & Hf & _ & Hl). by exists commit. Qed.
End Roundtrip.

(** ** A store in memory *)
Module MemoryStore.
(** References to objects are kept in the same list. *)
Inductive obj : Type :=
| OBlob (bytes : list N)
| OTree (t : gmap (list N) N)
| OCommit (c : GitCommit)
| ORef (urn : N) (ty : String.string) (object target : N).

(** The id of an object is its position. *)
Definition repo : Type := list obj.
Definition put (o : obj) : st repo unit N := fun r => (EOk (N.of_nat (length r)), r ++ [o]).
Definition get (r : repo) (o : N) : option obj := r !! N.to_nat o.

Definition as_tree (x : option obj) : result unit (gmap (list N) N) :=
  match x with Some (OTree t) => Ok t | _ => Err tt end.
Definition as_commit (x : option obj) : result unit GitCommit :=
  match x with Some (OCommit c) => Ok c | _ => Err tt end.
Definition as_object (x : option obj) : result unit GitObject :=
  match x with Some (OBlob bs) => Ok (Blob bs) | Some _ => Ok NotABlob | None => Err tt end.

#[export] Instance memory_git : Git2 repo unit := {|
  git_blob bs := put (OBlob bs);
  git_treebuilder _ := Ok ∅;
  git_tb_insert _ m n o := Ok (<[n := o]> m);
  git_tb_write m := put (OTree m);
  git_commit msg tree parents := put (OCommit (MkGitCommit tree parents (Some (strip_newlines msg))));
  git_signature _ := Ok tt;
  git_find_tree r o := as_tree (get r o);
  git_find_commit r o := as_commit (get r o);
  git_find_object r o := as_object (get r o);
|}.

Lemma put_found x r o r' : put x r = (EOk o, r') -> get r' o = Some x /\ forall i y, get r i = Some y -> get r' i = Some y.
Proof.
  intros [= <- <-]. unfold get. split.
  - rewrite Nat2N.id. by apply list_lookup_middle.
  - intros i y Hi. by apply lookup_app_l_Some.
Qed.

Lemma found_grows (r r' : repo) : (forall i y, get r i = Some y -> get r' i = Some y) -> git_grows r r'.
Proof.
  intros Hg. split_and!; intros o x; cbn; destruct (get r o) eqn:Ho; try done; by rewrite (Hg _ _ Ho).
Qed.

Lemma stored {A} (view : option obj -> A) x r o r' :
  put x r = (EOk o, r') -> view (get r' o) = view (Some x) /\ git_grows r r'.
Proof. intros [-> Hg]%put_found. split; [done|by apply found_grows]. Qed.

#[export] Instance memory_git_laws : Git2Laws repo unit := {|
  git_treebuilder_ok r m Hm := eq_sym (f_equal (fun x => match x with Ok y => y | Err _ => m end) Hm);
  git_tb_insert_ok r m n o m' Hm := eq_sym (f_equal (fun x => match x with Ok y => y | Err _ => m' end) Hm);
  git_blob_ok bs := stored as_object (OBlob bs);
  git_tb_write_ok m := stored as_tree (OTree m);
  git_commit_ok msg tree parents := stored as_commit (OCommit (MkGitCommit tree parents (Some (strip_newlines msg))));
|}.

Lemma undo_fmap {A B} (f : A -> B) (g : B -> A) (l : list A) : (forall x, g (f x) = x) -> g <$> (f <$> l) = l.
Proof. intros Hg. rewrite <- list_fmap_compose. induction l as [|x l IH]; [done|]. cbn. by rewrite Hg, IH. Qed.

(** A manifest as its type name. *)
Definition of_name (s : String.string) : list N := Ascii.N_of_ascii <$> String.list_ascii_of_string s.
Definition to_name (bs : list N) : String.string := String.string_of_list_ascii (Ascii.ascii_of_N <$> bs).
Lemma to_of_name s : to_name (of_name s) = s.
Proof.
  unfold to_name, of_name. rewrite undo_fmap by apply Ascii.ascii_N_embedding. apply String.string_of_list_ascii_of_string.
Qed.
Lemma name_roundtrip m :
  (fun bs => Ok (MkManifest (to_name bs) AutomergeHistory)) (of_name (typename m)) = @Ok unit _ m.
Proof.
  destruct m as [s []]. cbn. do 2 f_equal. apply to_of_name.
Qed.
#[export] Instance name_toml : Toml unit := {| toml_roundtrip := name_roundtrip |}.

Definition shift : N := 2097152.
Definition shift_encode (bs : list N) : list N := 104 :: (N.add shift <$> bs).
#[export] Instance shift_codec : Multicodec unit unit unit := {|
  multibase_encode := shift_encode;
  multibase_decode s := Ok ((fun c => c - shift) <$> tail s);
  multihash_wrap c bs := c :: bs;
  multihash_from_slice bs := match bs with c :: bs => Ok (c, bs) | [] => Err tt end;
  oid_as_bytes o := [o];
  oid_from_bytes bs := match bs with [o] => Ok o | _ => Err tt end;
|}.
Lemma shift_word bs : word (shift_encode bs).
Proof.
  split; [done|]. constructor; [done|]. apply Forall_fmap, Forall_forall. intros c _. unfold compose, is_whitespace, shift.
  apply not_true_iff_false. rewrite !orb_true_iff, !andb_true_iff, !N.leb_le, !N.eqb_eq. lia.
Qed.
Lemma shift_decode bs : @Ok unit _ ((fun c => c - shift) <$> tail (shift_encode bs)) = Ok bs.
Proof.
  f_equal. apply undo_fmap. intros c. lia.
Qed.
#[export] Instance shift_codec_laws : MulticodecLaws unit unit unit := {|
  multibase_roundtrip := shift_decode;
  multibase_word := shift_word;
  multibase_prefix _ := eq_refl;
  multihash_roundtrip _ _ := eq_refl;
  oid_bytes_roundtrip _ := eq_refl;
|}.

Definition a_commit : obj := OCommit (MkGitCommit 0 [] (Some [])).
Definition a_signer : GitIdentity.Signer N unit := GitIdentity.MkSigner 7 (fun o => Ok (o + 1)).
Definition a_spec (message : list N) : NewChangeSpec :=
  MkSpec (String.String (Ascii.ascii_of_N 120) String.EmptyString) None (Some message) (Automerge [1; 2; 3]).
Import UnaryText.

(** A change whose author and authorizing identity are the commits 0 and 1. *)
Lemma change_roundtrip_witness :
  exists r' c commit,
    change_create (SE:=unit) (E:=unit) (TE:=unit) (D:=unit) 0 1 a_signer (a_spec (str "first")) [a_commit; a_commit]
      = (EOk c, r') /\ git_find_commit r' (ch_commit c) = Ok commit /\
    change_load (E:=unit) (TE:=unit) (D:=unit) r' (ch_commit c) commit = Ok c.
Proof.
  destruct (change_create (SE:=unit) (E:=unit) (TE:=unit) (D:=unit) 0 1 a_signer (a_spec (str "first"))
    [a_commit; a_commit]) as [[c|e|] r'] eqn:Hc; [|by vm_compute in Hc|by vm_compute in Hc].
  destruct (change_roundtrip 0 1 a_signer (a_spec (str "first")) [a_commit; a_commit] r' c Hc) as (commit & Hf & Hl).
  exists r', c, commit. split_and!; [done|done|].
  destruct (change_load r' (ch_commit c) commit) as [c'|]; [by destruct Hl as [_ ->]|].
  by destruct Hl as [Hl _]; vm_compute in Hl.
Defined.
End MemoryStore.
