(* ===== verification/ChangeGraph.v ===== *)
(** * The graph of the changes of an object

    [cob/src/change_graph.rs]: from the references to an object the changes are loaded,
    parents after children, into a graph; the graph is evaluated to a history.  [load]
    stands for [Change::load], which [ChangeStore.change_load] models.  What libgit2 and
    petgraph are used for besides [Git2] and [PetGraph] is [GitWalk] and [PetWalk]. *)
From stdpp Require Import base list gmap sorting.
From Stdlib Require Import NArith Lia.
From Stdlib Require String.
Import String.StringSyntax.
From S2P Require Import Prelude Effects RefFormat PruningFold Cob ChangeStore.

(** ** Interfaces *)

(** [Commit::parents] ends at the first parent that is not found; [Reference::peel_to_commit]. *)
Class GitWalk (R GE Rf : Type) := {
  git_parents : R -> GitCommit -> list (N * GitCommit);
  git_peel : R -> Rf -> result GE (N * GitCommit);
}.

Class GitWalkLaws (R GE Rf : Type) `{Git2 R GE} `{GitWalk R GE Rf} := {
  git_parents_found r c id pc : (id, pc) ∈ git_parents r c -> id ∈ gc_parents c /\ git_find_commit r id = Ok pc;
  git_peel_found r rf id c : git_peel r rf = Ok (id, c) -> git_find_commit r id = Ok c;
}.

Class PetWalk (G A : Type) := {
  pg_sources : G -> list nat;
  pg_targets : G -> nat -> list nat;
  pg_node_count : G -> nat;
}.

(** [rank] shows that a graph has no cycles. *)
Definition ranked {G A} `{PetGraph G A} (g : G) (rank : nat -> nat) : Prop :=
  forall x y, pg_edge g x y = true -> (rank x < rank y)%nat.

Class PetWalkLaws (G A : Type) `{PetGraph G A} `{PetWalk G A} := {
  pg_new_weight ix : pg_weight pg_new ix = None;
  pg_sources_spec g ix : ix ∈ pg_sources g <-> is_Some (pg_weight g ix) /\ forall x, pg_edge g x ix = false;
  pg_targets_spec g ix y : y ∈ pg_targets g ix <-> pg_edge g ix y = true;
  pg_topo_nodup g : NoDup (pg_topo g);
  pg_topo_nodes g rank ix : ranked g rank -> ix ∈ pg_topo g <-> is_Some (pg_weight g ix);
  pg_topo_order g rank i j x y : ranked g rank ->
    pg_topo g !! i = Some x -> pg_topo g !! j = Some y -> pg_edge g x y = true -> (i < j)%nat;
}.

(** ** Definitions *)

Inductive GraphError (GE : Type) : Type :=
| MissingRevision (oid : N)
| GraphGit (e : GE).
Arguments MissingRevision {GE} oid.
Arguments GraphGit {GE} e.

Record GraphBuilder (CG : Type) : Type := MkBuilder {
  node_indices : gmap N nat;
  bgraph : CG;
}.
Arguments MkBuilder {CG} _ _.
Arguments node_indices {CG} _.
Arguments bgraph {CG} _.

Record ChangeGraph (CG : Type) : Type := MkChangeGraph {
  cg_object_id : N;
  cg_authorizing : AuthorizingIdentity;
  cgraph : CG;
}.
Arguments MkChangeGraph {CG} _ _ _.
Arguments cg_object_id {CG} _.
Arguments cg_authorizing {CG} _.
Arguments cgraph {CG} _.

(** [CollaborativeObject] *)
Record CollaborativeObject (G : Type) : Type := MkObject {
  co_authorizing_urn : N;
  co_typename : String.string;
  co_history : History G;
  co_id : N;
}.
Arguments MkObject {G} _ _ _ _.
Arguments co_authorizing_urn {G} _.
Arguments co_typename {G} _.
Arguments co_history {G} _.
Arguments co_id {G} _.

Section Graph.
Context {R GE Rf LE Sig CG : Type}.
Context `{GitWalk R GE Rf} `{PetGraph CG (Change Sig)} `{PetWalk CG (Change Sig)}.
Context (load : R -> N -> GitCommit -> result LE (Change Sig)).

(** An edge to process: the parent, and the id of the child. *)
Definition pending : Type := (N * GitCommit) * N.

Definition builder_default : GraphBuilder CG := MkBuilder ∅ pg_new.

Definition has_edge (b : GraphBuilder CG) (parent_id child_id : N) : bool :=
  match node_indices b !! parent_id, node_indices b !! child_id with
  | Some parent_ix, Some child_ix => pg_edge (bgraph b) parent_ix child_ix
  | _, _ => false
  end.

(** The parents of a commit that only say which identities it refers to. *)
Definition is_role (c : Change Sig) (id : N) : bool :=
  bool_decide (id = author_commit c) || bool_decide (Some id = schema_commit c) ||
  bool_decide (id = authorizing_identity_commit c).

Definition add_change (r : R) (id : N) (commit : GitCommit) (c : Change Sig) (b : GraphBuilder CG) :
    list pending * GraphBuilder CG :=
  let b := match node_indices b !! id with
           | Some _ => b
           | None => let '(ix, g) := pg_add_node (bgraph b) c in MkBuilder (<[id := ix]> (node_indices b)) g
           end in
  (omap (fun parent => if is_role c parent.1 || has_edge b parent.1 id then None else Some (parent, id))
     (git_parents r commit), b).

Definition add_edge (child parent : N) (b : GraphBuilder CG) : outcome (GraphBuilder CG) :=
  child_id ← unwrap (node_indices b !! child);
  parent_id ← unwrap (node_indices b !! parent);
  g ← pg_update_edge (bgraph b) parent_id child_id;
  Done (MkBuilder (node_indices b) g).

Definition build (b : GraphBuilder CG) (oid : N) (auth : AuthorizingIdentity) : option (ChangeGraph CG) :=
  match pg_sources (bgraph b) with
  | [] => None
  | _ :: _ => Some (MkChangeGraph oid auth (bgraph b))
  end.

(** One reference to the object; the top of the stack is in front. *)
Definition load_tip (r : R) (acc : GraphBuilder CG * list pending) (reference : Rf) :
    eff (GraphError GE) (GraphBuilder CG * list pending) :=
  commit ← of_res_with GraphGit (git_peel r reference);
  match load r commit.1 commit.2 with
  | Ok c => let '(new_edges, b) := add_change r commit.1 commit.2 c acc.1 in EOk (b, rev new_edges ++ acc.2)
  | Err _ => EOk acc
  end.

(** The [while let] loop; [None] is out of fuel. *)
Fixpoint load_loop (fuel : nat) (r : R) (b : GraphBuilder CG) (edges_to_process : list pending) :
    option (outcome (GraphBuilder CG)) :=
  match fuel with
  | O => None
  | S fuel =>
      match edges_to_process with
      | [] => Some (Done b)
      | ((parent_id, parent_commit), child_id) :: edges_to_process =>
          match load r parent_id parent_commit with
          | Ok c =>
              let '(new_edges, b) := add_change r parent_id parent_commit c b in
              match add_edge child_id parent_id b with
              | Done b => load_loop fuel r b (rev new_edges ++ edges_to_process)
              | Panic => Some Panic
              end
          | Err _ => load_loop fuel r b edges_to_process
          end
      end
  end.

Definition graph_load (fuel : nat) (r : R) (tip_refs : list Rf) (auth : AuthorizingIdentity) (oid : N) :
    option (eff (GraphError GE) (option (ChangeGraph CG))) :=
  match eff_fold (load_tip r) (builder_default, []) tip_refs with
  | EOk (b, edges) =>
      match load_loop fuel r b edges with
      | Some (Done b) => Some (EOk (build b oid auth))
      | Some Panic => Some EPanic
      | None => None
      end
  | EErr e => Some (EErr e)
  | EPanic => Some EPanic
  end.

(** The commits [edges_directed(idx, Outgoing)] leads to. *)
Fixpoint commits_of (g : CG) (ixs : list nat) : outcome (list N) :=
  match ixs with
  | [] => Done []
  | ix :: ixs => c ← unwrap (pg_weight g ix); cs ← commits_of g ixs; Done (ch_commit c :: cs)
  end.

(** The items [evaluate] goes through. *)
Fixpoint items_of (g : CG) (ixs : list nat) : outcome (list (Change Sig * list N)) :=
  match ixs with
  | [] => Done []
  | ix :: ixs =>
      node ← unwrap (pg_weight g ix);
      child_commits ← commits_of g (pg_targets g ix);
      items ← items_of g ixs;
      Done ((node, child_commits) :: items)
  end.

Definition graph_tips (g : ChangeGraph CG) : outcome (gset N) :=
  cs ← commits_of (cgraph g) (pg_sinks (cgraph g)); Done (list_to_set cs).

Definition number_of_nodes (g : ChangeGraph CG) : N := N.of_nat (pg_node_count (cgraph g)).

Section Evaluate.
Context {G L P Q : Type} `{PetGraph G HistoryEntry}.
Context (sig_verify : Sig -> N -> N -> bool).
Context (some_identity : N -> result L SomeIdentity).
Context (verify_person : N -> result P VerifiedId).
Context (verify_project : N -> result Q VerifiedId).

(** [ChangeGraph::evaluate]. *)
Definition graph_evaluate (fuel : nat) (g : ChangeGraph CG) : option (outcome (CollaborativeObject G)) :=
  let roots := merge_sort le (pg_sources (cgraph g)) in
  match (root ← unwrap (head roots);
         root_change ← unwrap (pg_weight (cgraph g) root);
         items ← items_of (cgraph g) (pg_topo (cgraph g));
         Done (root_change, items)) with
  | Done (root_change, items) =>
      match evaluate sig_verify some_identity verify_person verify_project (cg_authorizing g)
              fuel (ch_commit root_change) items with
      | Some (Done h) =>
          Some (Done (MkObject (auth_urn (cg_authorizing g)) (typename (manifest root_change)) h (cg_object_id g)))
      | Some Panic => Some Panic
      | None => None
      end
  | Panic => Some Panic
  end.
End Evaluate.
End Graph.

(** ** What is loaded *)

Section Loading.
Context {R GE Rf LE Sig CG : Type}.
Context `{G2 : Git2 R GE} `{GW : !GitWalk R GE Rf} `{GWL : !GitWalkLaws R GE Rf}.
Context `{PG : PetGraph CG (Change Sig)} `{PGL : !PetGraphLaws CG (Change Sig)}.
Context `{PW : !PetWalk CG (Change Sig)} `{PWL : !PetWalkLaws CG (Change Sig)}.
Context (load : R -> N -> GitCommit -> result LE (Change Sig)).
Context (load_id : forall r id commit c, load r id commit = Ok c -> ch_commit c = id).
Context (r : R).

(** The change of a commit, if there is one. *)
Definition loaded (id : N) : option (Change Sig) :=
  match git_find_commit r id with Ok commit => res_ok (load r id commit) | Err _ => None end.

(** [p] is a parent of the change [c], and not only because of the identities it refers to. *)
Definition depends (c p : N) : Prop :=
  exists commit change, git_find_commit r c = Ok commit /\ load r c commit = Ok change /\
    p ∈ (git_parents r commit).*1 /\ is_role change p = false.

(** The changes that are found from the tips. *)
Inductive reached (tips : list N) : N -> Prop :=
| reached_tip id : id ∈ tips -> is_Some (loaded id) -> reached tips id
| reached_parent c p : reached tips c -> depends c p -> is_Some (loaded p) -> reached tips p.

Lemma loaded_ok id commit c : git_find_commit r id = Ok commit -> load r id commit = Ok c -> loaded id = Some c.
Proof using. intros Hf Hl. unfold loaded. by rewrite Hf, Hl. Qed.

Lemma loaded_id id c : loaded id = Some c -> ch_commit c = id.
Proof using load_id.
  unfold loaded. destruct (git_find_commit r id) as [commit|]; [|done].
  destruct (load r id commit) eqn:Hl; [|done]. intros [= <-]. by eapply load_id.
Qed.

(** The graph as far as it is built, with the edges still to process. *)
Record graph_inv (tips : list N) (b : GraphBuilder CG) (stack : list pending) : Prop := {
  gi_node id ix : node_indices b !! id = Some ix ->
    exists c, pg_weight (bgraph b) ix = Some c /\ loaded id = Some c /\ reached tips id;
  gi_index ix c : pg_weight (bgraph b) ix = Some c -> node_indices b !! ch_commit c = Some ix;
  gi_edge x y : pg_edge (bgraph b) x y = true ->
    exists p c, node_indices b !! p = Some x /\ node_indices b !! c = Some y /\ depends c p;
  gi_stack p pc c : ((p, pc), c) ∈ stack ->
    git_find_commit r p = Ok pc /\ depends c p /\ is_Some (node_indices b !! c);
  gi_all c p : is_Some (node_indices b !! c) -> depends c p -> is_Some (loaded p) ->
    has_edge b p c = true \/ exists pc, ((p, pc), c) ∈ stack;
}.

Lemma graph_inv_default tips : graph_inv tips builder_default [].
Proof using PGL PWL.
  split; cbn.
  - intros id ix Hid. by rewrite lookup_empty in Hid.
  - intros ix c Hw. by rewrite pg_new_weight in Hw.
  - intros x y [[w Hw] _]%pg_edge_ends. by rewrite pg_new_weight in Hw.
  - by intros p pc c ?%elem_of_nil.
  - intros c p [? Hc]. by rewrite lookup_empty in Hc.
Qed.

Lemma index_inj tips b stack id id' ix : graph_inv tips b stack ->
  node_indices b !! id = Some ix -> node_indices b !! id' = Some ix -> id = id'.
Proof using load_id.
  intros Hi (c & Hw & Hl & _)%(gi_node _ _ _ Hi) (c' & Hw' & Hl' & _)%(gi_node _ _ _ Hi).
  apply loaded_id in Hl, Hl'. congruence.
Qed.

(** *** A new node *)

Lemma node_inv tips b stack id c : graph_inv tips b stack ->
  node_indices b !! id = None -> loaded id = Some c -> reached tips id ->
  forall ix g, pg_add_node (bgraph b) c = (ix, g) ->
  let b' := MkBuilder (<[id := ix]> (node_indices b)) g in
  (forall id' ix', node_indices b' !! id' = Some ix' ->
    exists c', pg_weight g ix' = Some c' /\ loaded id' = Some c' /\ reached tips id') /\
  (forall ix' c', pg_weight g ix' = Some c' -> node_indices b' !! ch_commit c' = Some ix') /\
  (forall p c', has_edge b p c' = true -> has_edge b' p c' = true).
Proof using load_id PGL.
  intros Hi Hnone Hl Hr ix g (Hfresh & Hnew & Hold & Hedge)%pg_add_fresh b'. split_and!.
  - intros id' ix' Hx. cbn in Hx. apply lookup_insert_Some in Hx as [[<- <-]|[Hne Hid]]; [eauto|].
    destruct (gi_node _ _ _ Hi _ _ Hid) as (c' & Hw & ?). exists c'. split; [|done].
    rewrite Hold; [done|]. intros ->. congruence.
  - intros ix' c' Hw. destruct (decide (ix' = ix)) as [->|Hne].
    + rewrite Hnew in Hw. injection Hw as <-. rewrite (loaded_id _ _ Hl). cbn. apply lookup_insert_eq.
    + rewrite Hold in Hw by done. apply (gi_index _ _ _ Hi) in Hw. cbn.
      rewrite lookup_insert_ne; [done|]. intros ->. congruence.
  - intros p c'. unfold has_edge. cbn.
    destruct (node_indices b !! p) as [x|] eqn:Hp; [|done].
    destruct (node_indices b !! c') as [y|] eqn:Hc'; [|done].
    rewrite !lookup_insert_ne by (intros ->; congruence). by rewrite Hp, Hc', Hedge.
Qed.

Lemma new_edges_spec (c : Change Sig) id (b : GraphBuilder CG) (parents : list (N * GitCommit)) p pc c' :
  ((p, pc), c') ∈ omap (fun parent : N * GitCommit =>
    if is_role c parent.1 || has_edge b parent.1 id then None else Some (parent, id)) parents <->
  (p, pc) ∈ parents /\ c' = id /\ is_role c p = false /\ has_edge b p id = false.
Proof using.
  rewrite list_elem_of_omap. split.
  - intros ([p' pc'] & Hin & Heq). cbn in Heq. destruct (is_role c p') eqn:?; [done|].
    destruct (has_edge b p' id) eqn:?; [done|]. cbn in Heq. by injection Heq as <- <- <-.
  - intros (Hin & -> & Hr & He). exists (p, pc). split; [done|]. cbn. by rewrite Hr, He.
Qed.

Lemma add_change_inv tips b stack id commit c new b' :
  graph_inv tips b stack -> git_find_commit r id = Ok commit -> load r id commit = Ok c -> reached tips id ->
  add_change r id commit c b = (new, b') ->
  graph_inv tips b' (rev new ++ stack) /\ is_Some (node_indices b' !! id) /\
  forall p pc c', ((p, pc), c') ∈ new -> p ∈ gc_parents commit.
Proof using load_id PGL GWL.
  intros Hi Hf Hl Hr Ha. unfold add_change in Ha.
  set (b1 := match node_indices b !! id with Some _ => b | None => _ end) in Ha. injection Ha as Hnew <-.
  pose proof (loaded_ok _ _ _ Hf Hl) as Hlc.
  assert (is_Some (node_indices b1 !! id) /\
    (forall id', is_Some (node_indices b1 !! id') <-> id' = id \/ is_Some (node_indices b !! id')) /\
    (forall id' ix', node_indices b1 !! id' = Some ix' ->
      exists c', pg_weight (bgraph b1) ix' = Some c' /\ loaded id' = Some c' /\ reached tips id') /\
    (forall ix' c', pg_weight (bgraph b1) ix' = Some c' -> node_indices b1 !! ch_commit c' = Some ix') /\
    (forall p c', has_edge b p c' = true -> has_edge b1 p c' = true) /\
    (forall k ix', node_indices b !! k = Some ix' -> node_indices b1 !! k = Some ix') /\
    (forall x y, pg_edge (bgraph b1) x y = pg_edge (bgraph b) x y)) as (Hid & Hdom & Hn & Hw & He & Hsub & Hedge).
  { unfold b1. destruct (node_indices b !! id) as [ix|] eqn:Hix.
    - split_and!; try done; [|apply Hi..]. intros id'. split; [by right|]. intros [->|?]; [by eexists|done].
    - destruct (pg_add_node (bgraph b) c) as [ix g] eqn:Hadd.
      destruct (node_inv _ _ _ _ _ Hi Hix Hlc Hr _ _ Hadd) as (? & ? & ?). apply pg_add_fresh in Hadd as (_ & _ & _ & ?).
      split_and!; try done; cbn.
      + by rewrite lookup_insert_eq.
      + intros id'. rewrite lookup_insert_is_Some. destruct (decide (id = id')) as [->|]; naive_solver.
      + intros k ix' Hk. rewrite lookup_insert_ne; [done|]. intros ->. congruence. }
  split_and!; [|done|].
  2: { intros p pc c'. rewrite <- Hnew. intros (Hin & _)%new_edges_spec. by apply git_parents_found in Hin as [? _]. }
  assert (forall p pc c', ((p, pc), c') ∈ rev new ++ stack <->
    ((p, pc) ∈ git_parents r commit /\ c' = id /\ is_role c p = false /\ has_edge b1 p id = false) \/
    ((p, pc), c') ∈ stack) as Hstk.
  { intros p pc c'. rewrite elem_of_app, <- new_edges_spec, Hnew, !list_elem_of_In, <- in_rev. done. }
  split; [done|done| | |].
  - intros x y. rewrite Hedge. intros (p & c' & ? & ? & ?)%(gi_edge _ _ _ Hi). exists p, c'. auto.
  - intros p pc c' [(Hin & -> & Hrole & _)|Hin]%Hstk.
    + pose proof (git_parents_found _ _ _ _ Hin) as [_ ?]. split_and!; [done| |done].
      exists commit, c. split_and!; [done..| |done]. apply list_elem_of_fmap. by exists (p, pc).
    + apply (gi_stack _ _ _ Hi) in Hin as (? & ? & ?). split_and!; [done..|]. apply Hdom. by right.
  - intros c' p [->|Hc]%Hdom Hdep Hlp.
    + destruct (has_edge b1 p id) eqn:Hb; [by left|]. right.
      destruct Hdep as (commit' & c'' & Hf' & Hl' & Hin & Hrole). rewrite Hf in Hf'.
      injection Hf' as <-. rewrite Hl in Hl'. injection Hl' as <-.
      apply list_elem_of_fmap in Hin as ([p' pc] & Heq & Hin). cbn in Heq. subst p'.
      exists pc. apply Hstk. left. done.
    + destruct (gi_all _ _ _ Hi c' p Hc Hdep Hlp) as [?|[pc ?]]; [left; auto|]. right. exists pc. apply Hstk. by right.
Qed.

(** Nodes stay. *)
Definition nodes_kept (b b' : GraphBuilder CG) : Prop :=
  forall id, is_Some (node_indices b !! id) -> is_Some (node_indices b' !! id).

Lemma add_change_kept id commit c b : nodes_kept b (add_change r id commit c b).2.
Proof using.
  intros x Hx. unfold add_change. cbn. destruct (node_indices b !! id) eqn:Hid; [done|].
  destruct (pg_add_node (bgraph b) c). cbn. apply lookup_insert_is_Some. destruct (decide (id = x)); auto.
Qed.

Lemma add_edge_kept c p b b' : add_edge c p b = Done b' -> nodes_kept b b'.
Proof using.
  unfold add_edge. intros (y & _ & (x & _ & (g & _ & [= <-])%out_bind_done)%out_bind_done)%out_bind_done. by intros id.
Qed.

Lemma add_edge_inv tips b s1 p pc c s2 : graph_inv tips b (s1 ++ ((p, pc), c) :: s2) ->
  is_Some (node_indices b !! p) -> exists b', add_edge c p b = Done b' /\ graph_inv tips b' (s1 ++ s2).
Proof using load_id PGL GWL PWL.
  intros Hi [x Hx]. destruct (gi_stack _ _ _ Hi p pc c) as (Hf & Hdep & [y Hy]); [set_solver|].
  destruct (gi_node _ _ _ Hi _ _ Hx) as (cx & Hwx & _). destruct (gi_node _ _ _ Hi _ _ Hy) as (cy & Hwy & _).
  destruct (pg_update_ok (bgraph b) x y) as [g Hg]; [by eauto..|].
  unfold add_edge. rewrite Hx, Hy. cbn. rewrite Hg. eexists. split; [done|].
  apply pg_update_spec in Hg as [Hw He]. split; cbn.
  - intros id ix. rewrite Hw. apply (gi_node _ _ _ Hi).
  - intros ix c'. rewrite Hw. apply (gi_index _ _ _ Hi).
  - intros x' y' [Hxy|[-> ->]]%He; [by apply (gi_edge _ _ _ Hi)|]. eauto.
  - intros p' pc' c' Hin. apply (gi_stack _ _ _ Hi). set_solver.
  - intros c' p' Hc Hd Hl. unfold has_edge. cbn.
    destruct (gi_all _ _ _ Hi c' p' Hc Hd Hl) as [Hb|[pc' Hin]].
    + left. unfold has_edge in Hb. destruct (node_indices b !! p'), (node_indices b !! c'); try done. apply He. by left.
    + rewrite elem_of_app, elem_of_cons in Hin. destruct Hin as [Hin|[[= -> -> ->]|Hin]].
      * right. exists pc'. set_solver.
      * left. rewrite Hx, Hy. apply He. by right.
      * right. exists pc'. set_solver.
Qed.

(** *** The loop *)

(** [rank] shows that the commits have no cycles. *)
Definition commits_ranked (rank : N -> nat) : Prop :=
  forall id c p, git_find_commit r id = Ok c -> p ∈ gc_parents c -> (rank p < rank id)%nat.

Lemma load_round tips b p pc c rest : graph_inv tips b (((p, pc), c) :: rest) ->
  exists b' new, graph_inv tips b' (new ++ rest) /\ nodes_kept b b' /\
    (forall fuel, load_loop load (S fuel) r b (((p, pc), c) :: rest) = load_loop load fuel r b' (new ++ rest)) /\
    (forall p' pc' c', ((p', pc'), c') ∈ new -> p' ∈ gc_parents pc).
Proof using load_id PGL GWL PWL.
  intros Hi. destruct (gi_stack _ _ _ Hi p pc c) as (Hf & Hdep & Hc); [left|].
  destruct (load r p pc) as [ch|e] eqn:Hl.
  - destruct (add_change r p pc ch b) as [new b1] eqn:Ha.
    assert (reached tips p) as Hr.
    { destruct Hc as [ix Hix]. destruct (gi_node _ _ _ Hi _ _ Hix) as (? & _ & _ & ?).
      eapply reached_parent; [done..|]. by rewrite (loaded_ok _ _ _ Hf Hl). }
    destruct (add_change_inv _ _ _ _ _ _ _ _ Hi Hf Hl Hr Ha) as (Hi1 & Hp & Hnew).
    apply add_edge_inv in Hi1 as (b' & Hb' & Hi'); [|done]. exists b', (rev new). split_and!; [done| | |].
    + intros id Hid. apply (add_edge_kept _ _ _ _ Hb'). pose proof (add_change_kept p pc ch b id Hid) as Hk. by rewrite Ha in Hk.
    + intros fuel. cbn [load_loop]. by rewrite Hl, Ha, Hb'.
    + intros p' pc' c'. rewrite list_elem_of_In, <- in_rev, <- list_elem_of_In. apply Hnew.
  - exists b, []. split_and!; [|by intros id|intros fuel; cbn [load_loop]; by rewrite Hl|by intros ??? ?%elem_of_nil].
    destruct Hi as [Hi1 Hi2 Hi3 Hi4 Hi5]. split; [done..| |].
    + intros p' pc' c' Hin. apply (Hi4 p' pc' c'). by right.
    + intros c' p' Hc' Hd Hlp. destruct (Hi5 c' p' Hc' Hd Hlp) as [?|[pc' [[= -> -> ->]|Hin]%elem_of_cons]]; [by left| |eauto].
      unfold loaded in Hlp. rewrite Hf, Hl in Hlp. by destruct Hlp.
Qed.

Lemma load_rounds rank tips : commits_ranked rank -> forall k es b rest,
  (forall p pc c, ((p, pc), c) ∈ es -> (rank p < k)%nat) -> graph_inv tips b (es ++ rest) ->
  exists n b', graph_inv tips b' rest /\ nodes_kept b b' /\
    forall fuel, load_loop load (n + fuel) r b (es ++ rest) = load_loop load fuel r b' rest.
Proof using load_id PGL GWL PWL.
  intros Hrank. induction k as [|k IHk]; intros es.
  - destruct es as [|[[p pc] c] es]; intros b rest Hes Hi; [by exists 0%nat, b; split; [done|]; split; [intros id|]|].
    specialize (Hes p pc c). exfalso. assert (rank p < 0)%nat by (apply Hes; left). lia.
  - induction es as [|[[p pc] c] es IH]; intros b rest Hes Hi; [by exists 0%nat, b; split; [done|]; split; [intros id|]|].
    pose proof (gi_stack _ _ _ Hi p pc c) as [Hf _]; [left|].
    destruct (load_round _ _ _ _ _ _ Hi) as (b1 & new & Hi1 & Hk1 & Hl1 & Hnew).
    destruct (IHk new b1 (es ++ rest)) as (n1 & b2 & Hi2 & Hk2 & Hl2); [|done|].
    { intros p' pc' c' Hin%Hnew. specialize (Hrank p pc p' Hf Hin).
      assert (rank p < S k)%nat by (eapply Hes; left). lia. }
    destruct (IH b2 rest) as (n2 & b3 & Hi3 & Hk3 & Hl3); [|done|].
    { intros p' pc' c' Hin. eapply Hes. right. exact Hin. }
    exists (S (n1 + n2)), b3. split_and!; [done|by intros id ?; apply Hk3, Hk2, Hk1|]. intros fuel. cbn [app].
    change (S (n1 + n2) + fuel)%nat with (S (n1 + n2 + fuel)). rewrite Hl1.
    rewrite <- Nat.add_assoc, Hl2. apply Hl3.
Qed.

Lemma load_loop_ends rank tips b es : commits_ranked rank -> graph_inv tips b es ->
  exists n b', graph_inv tips b' [] /\ nodes_kept b b' /\
    forall fuel, (n <= fuel)%nat -> load_loop load fuel r b es = Some (Done b').
Proof using load_id PGL GWL PWL.
  intros Hrank Hi.
  destruct (load_rounds rank tips Hrank (S (max_list ((fun e : pending => rank e.1.1) <$> es))) es b []) as (n & b' & Hi' & Hk & Hl).
  - intros p pc c Hin. apply Nat.lt_succ_r, max_list_elem_of_le, list_elem_of_fmap. by exists ((p, pc), c).
  - by rewrite app_nil_r.
  - exists (S n), b'. split_and!; [done..|]. intros fuel Hfuel. rewrite app_nil_r in Hl.
    replace fuel with (n + S (fuel - S n))%nat by lia. by rewrite Hl.
Qed.

(** *** The references *)

Definition peels (rf : Rf) (id : N) : Prop := exists c, git_peel r rf = Ok (id, c).

Lemma load_tips_inv tips refs ids : Forall2 peels refs ids -> (forall id, id ∈ ids -> id ∈ tips) ->
  forall b stack, graph_inv tips b stack ->
  exists b' stack', eff_fold (load_tip load r) (b, stack) refs = EOk (b', stack') /\ graph_inv tips b' stack' /\
    (forall id, is_Some (node_indices b !! id) \/ (id ∈ ids /\ is_Some (loaded id)) -> is_Some (node_indices b' !! id)).
Proof using load_id PGL GWL.
  induction 1 as [|rf id refs ids [commit Hp] _ IH]; intros Hin b stack Hi.
  - exists b, stack. split_and!; [done..|]. by intros id [?|[?%elem_of_nil _]].
  - assert (load_tip load r (b, stack) rf = match load r id commit with
      | Ok c => let '(new, b') := add_change r id commit c b in EOk (b', rev new ++ stack)
      | Err _ => EOk (b, stack) end) as Hstep by (unfold load_tip; by rewrite Hp).
    cbn [eff_fold]. rewrite Hstep. pose proof (git_peel_found _ _ _ _ Hp) as Hf.
    destruct (load r id commit) as [c|e] eqn:Hl.
    + destruct (add_change r id commit c b) as [new b1] eqn:Ha.
      assert (reached tips id) as Hr by (apply reached_tip; [apply Hin; left|by rewrite (loaded_ok _ _ _ Hf Hl)]).
      destruct (add_change_inv _ _ _ _ _ _ _ _ Hi Hf Hl Hr Ha) as (Hi1 & Hid & _).
      destruct (IH (fun x Hx => Hin x (list_elem_of_further _ _ _ Hx)) b1 (rev new ++ stack) Hi1) as (b' & stack' & Hb' & Hi' & Hdom).
      exists b', stack'. split_and!; [done..|]. intros x [Hx|[[->|Hx]%elem_of_cons Hlx]]; apply Hdom; [left|by left|by right].
      pose proof (add_change_kept id commit c b x Hx) as Hk. by rewrite Ha in Hk.
    + destruct (IH (fun x Hx => Hin x (list_elem_of_further _ _ _ Hx)) b stack Hi) as (b' & stack' & Hb' & Hi' & Hdom).
      exists b', stack'. split_and!; [done..|]. intros x [Hx|[[->|Hx]%elem_of_cons Hlx]]; apply Hdom; [by left| |by right].
      unfold loaded in Hlx. rewrite Hf, Hl in Hlx. by destruct Hlx.
Qed.

(** *** The graph *)

(** The graph has one node for each change that is found, and an edge from a change to
    each change that depends on it. *)
Record graph_exact (tips : list N) (g : CG) : Prop := {
  ge_nodes c : (exists ix, pg_weight g ix = Some c) <-> reached tips (ch_commit c) /\ loaded (ch_commit c) = Some c;
  ge_unique x y cx cy : pg_weight g x = Some cx -> pg_weight g y = Some cy -> ch_commit cx = ch_commit cy -> x = y;
  ge_edges x y cx cy : pg_weight g x = Some cx -> pg_weight g y = Some cy ->
    pg_edge g x y = true <-> depends (ch_commit cy) (ch_commit cx);
}.

Lemma inv_exact tips b : graph_inv tips b [] ->
  (forall id, id ∈ tips -> is_Some (loaded id) -> is_Some (node_indices b !! id)) ->
  graph_exact tips (bgraph b).
Proof using load_id.
  intros Hi Htips.
  assert (forall id, reached tips id -> is_Some (node_indices b !! id)) as Hall.
  { induction 1 as [id ? ?|c p _ IH Hd Hl]; [by apply Htips|].
    destruct (gi_all _ _ _ Hi c p IH Hd Hl) as [He|[? ?%elem_of_nil]]; [|done].
    unfold has_edge in He. by destruct (node_indices b !! p). }
  split.
  - intros c. split.
    + intros [ix Hix]. pose proof (gi_index _ _ _ Hi _ _ Hix) as Hx.
      destruct (gi_node _ _ _ Hi _ _ Hx) as (c' & Hw & Hl & Hr). split; [done|]. congruence.
    + intros [[ix Hix]%Hall Hl]. exists ix. destruct (gi_node _ _ _ Hi _ _ Hix) as (c' & ? & ? & _). congruence.
  - intros x y cx cy Hx%(gi_index _ _ _ Hi) Hy%(gi_index _ _ _ Hi) Heq. congruence.
  - intros x y cx cy Hwx Hwy. pose proof (gi_index _ _ _ Hi _ _ Hwx) as Hx. pose proof (gi_index _ _ _ Hi _ _ Hwy) as Hy.
    split.
    + intros (p & c & Hp & Hc & Hd)%(gi_edge _ _ _ Hi).
      by rewrite (index_inj _ _ _ _ _ _ Hi Hx Hp), (index_inj _ _ _ _ _ _ Hi Hy Hc).
    + intros Hd. destruct (gi_node _ _ _ Hi _ _ Hx) as (? & _ & Hl & _).
      destruct (gi_all _ _ _ Hi _ _ (mk_is_Some _ _ Hy) Hd (mk_is_Some _ _ Hl)) as [He|[? ?%elem_of_nil]]; [|done].
      unfold has_edge in He. by rewrite Hx, Hy in He.
Qed.

(** The rank of a node. *)
Definition node_rank (rank : N -> nat) (g : CG) (ix : nat) : nat :=
  match pg_weight g ix with Some c => rank (ch_commit c) | None => 0%nat end.

Lemma depends_rank rank c p : commits_ranked rank -> depends c p -> (rank p < rank c)%nat.
Proof using GWL.
  intros Hrank (commit & ch & Hf & _ & ([p' pc] & -> & Hin)%list_elem_of_fmap & _).
  apply (Hrank _ _ _ Hf). by apply git_parents_found in Hin as [? _].
Qed.

Lemma graph_ranked rank tips g : commits_ranked rank -> graph_exact tips g -> ranked g (node_rank rank g).
Proof using GWL PGL.
  intros Hrank Hg x y Hxy. destruct (pg_edge_ends _ _ _ Hxy) as [[cx Hx] [cy Hy]]. unfold node_rank.
  rewrite Hx, Hy. apply (depends_rank rank); [done|]. by apply (ge_edges _ _ Hg x y).
Qed.

(** A graph with a node has a node without incoming edges. *)
Lemma source_exists rank g ix : ranked g rank -> is_Some (pg_weight g ix) -> pg_sources g <> [].
Proof using PGL PWL.
  intros Hrank Hix%(pg_topo_nodes g rank); [|done]. destruct (pg_topo g) as [|s t] eqn:Ht; [by apply elem_of_nil in Hix|].
  intros Hnil. assert (s ∈ pg_sources g) as Hs; [|rewrite Hnil in Hs; by apply elem_of_nil in Hs].
  apply pg_sources_spec. split; [apply (pg_topo_nodes g rank); [done|]; rewrite Ht; left|].
  intros x. destruct (pg_edge g x s) eqn:He; [|done]. exfalso.
  destruct (pg_edge_ends _ _ _ He) as [Hx _]. apply (pg_topo_nodes g rank) in Hx; [|done].
  apply list_elem_of_lookup in Hx as [j Hj].
  assert (j < 0)%nat; [|lia]. apply (pg_topo_order g rank j 0 x s); [done..|by rewrite Ht|done].
Qed.

Lemma loads_exactly rank refs ids auth oid : commits_ranked rank -> Forall2 peels refs ids ->
  exists n og, (forall fuel, (n <= fuel)%nat -> graph_load load fuel r refs auth oid = Some (EOk og)) /\
    match og with
    | Some g => graph_exact ids (cgraph g) /\ (exists id, reached ids id) /\ cg_object_id g = oid /\ cg_authorizing g = auth
    | None => forall id, ~ reached ids id
    end.
Proof using load_id PGL GWL PWL.
  intros Hrank Hrefs.
  destruct (load_tips_inv ids refs ids Hrefs (fun _ Hx => Hx) builder_default [] (graph_inv_default ids)) as (b & stack & Hb & Hi & Hdom).
  destruct (load_loop_ends rank ids b stack Hrank Hi) as (n & b' & Hi' & Hk & Hl).
  exists n, (build b' oid auth). split.
  { intros fuel Hfuel. unfold graph_load. by rewrite Hb, (Hl _ Hfuel). }
  assert (graph_exact ids (bgraph b')) as Hg.
  { apply inv_exact; [done|]. intros id Hin Hlo. apply Hk, Hdom. by right. }
  unfold build. destruct (pg_sources (bgraph b')) as [|s ss] eqn:Hs.
  2: { split_and!; [done| |done..]. assert (s ∈ pg_sources (bgraph b')) as [[c Hc] _]%pg_sources_spec by (rewrite Hs; left).
       exists (ch_commit c). by apply (proj1 (ge_nodes _ _ Hg c) (ex_intro _ s Hc)). }
  intros id Hr. assert (exists c, loaded id = Some c) as [c Hc] by (by destruct Hr as [? ? [c ?]|? ? ? ? [c ?]]; exists c).
  destruct (proj2 (ge_nodes _ _ Hg c)) as [ix Hix]; [by rewrite (loaded_id _ _ Hc)|].
  eapply (source_exists _ (bgraph b')); [by eapply graph_ranked|by eexists|done].
Qed.
End Loading.

(** ** Evaluating what is loaded *)

Section Evaluating.
Context {R GE Rf LE Sig CG G L P Q : Type}.
Context `{G2 : Git2 R GE} `{GW : !GitWalk R GE Rf} `{GWL : !GitWalkLaws R GE Rf}.
Context `{PG : PetGraph CG (Change Sig)} `{PGL : !PetGraphLaws CG (Change Sig)}.
Context `{PW : !PetWalk CG (Change Sig)} `{PWL : !PetWalkLaws CG (Change Sig)}.
Context `{HG : PetGraph G HistoryEntry} `{HGL : !PetGraphLaws G HistoryEntry}.
Context (load : R -> N -> GitCommit -> result LE (Change Sig)).
Context (load_id : forall r id commit c, load r id commit = Ok c -> ch_commit c = id).
Context (sig_verify : Sig -> N -> N -> bool).
Context (some_identity : N -> result L SomeIdentity).
Context (verify_person : N -> result P VerifiedId).
Context (verify_project : N -> result Q VerifiedId).
Context (r : R).
Abbreviation ev auth := (evaluate_change sig_verify some_identity verify_person verify_project auth) (only parsing).
Abbreviation geval := (graph_evaluate (G:=G) sig_verify some_identity verify_person verify_project) (only parsing).

Lemma evaluated_entry auth c cs :
  match ev auth c cs with
  | Ok e => exists a, forall cs', ev auth c cs' = Ok (MkEntry (ch_commit c) a cs' (ch_contents c))
  | Err x => forall cs', ev auth c cs' = Err x
  end.
Proof using.
  unfold evaluate_change. destruct (negb _); [done|].
  destruct (map_err _ (lookup_authorizing_identity _ _ _ _)) as [a|]; cbn; [|done].
  case_bool_decide; [done|]. destruct (map_err _ (lookup_person _ _)) as [found|]; cbn; [|done].
  destruct (ok_or found _) as [who|]; cbn; [|done]. destruct (check_authorization a who); eauto.
Qed.

Lemma evaluated_ok auth c cs e : ev auth c cs = Ok e ->
  exists a, e = MkEntry (ch_commit c) a cs (ch_contents c).
Proof using.
  intros He. pose proof (evaluated_entry auth c cs) as Hx. rewrite He in Hx. destruct Hx as [a Ha].
  exists a. specialize (Ha cs). congruence.
Qed.

(** The commit of a node. *)
Definition node_commit (g : CG) (ix : nat) (k : N) : Prop := exists c, pg_weight g ix = Some c /\ ch_commit c = k.

Lemma commits_of_done g ixs : (forall ix, ix ∈ ixs -> is_Some (pg_weight g ix)) ->
  exists cs, commits_of g ixs = Done cs /\ Forall2 (node_commit g) ixs cs.
Proof using.
  induction ixs as [|ix ixs IH]; intros Hall; [by exists []|]. destruct (Hall ix) as [c Hc]; [left|].
  destruct IH as (cs & Hcs & Hf); [intros x Hx; apply Hall; by right|].
  cbn [commits_of]. rewrite Hc. cbn. rewrite Hcs. eexists. split; [done|]. constructor; [by exists c|done].
Qed.

(** An item of the evaluation: a node, and the commits of its children. *)
Definition item_at (g : CG) (ix : nat) (item : Change Sig * list N) : Prop :=
  pg_weight g ix = Some item.1 /\
  forall k, k ∈ item.2 <-> exists y, pg_edge g ix y = true /\ node_commit g y k.

Lemma items_of_done g ixs : (forall ix, ix ∈ ixs -> is_Some (pg_weight g ix)) ->
  exists items, items_of g ixs = Done items /\ Forall2 (item_at g) ixs items.
Proof using PGL PWL.
  induction ixs as [|ix ixs IH]; intros Hall; [by exists []|]. destruct (Hall ix) as [c Hc]; [left|].
  destruct IH as (items & Hitems & Hf); [intros x Hx; apply Hall; by right|].
  destruct (commits_of_done g (pg_targets g ix)) as (cs & Hcs & Hfc).
  { intros y Hy%pg_targets_spec. by apply pg_edge_ends in Hy as [_ ?]. }
  cbn [items_of]. rewrite Hc. cbn [unwrap mbind outcome_bind]. rewrite Hcs. cbn [mbind outcome_bind]. rewrite Hitems.
  eexists. split; [done|]. constructor; [|done]. split; [done|]. intros k. cbn. split.
  - intros [i Hi]%list_elem_of_lookup. destruct (Forall2_lookup_r _ _ _ _ _ Hfc Hi) as (y & Hy & Hk).
    exists y. split; [|done]. by eapply pg_targets_spec, list_elem_of_lookup_2.
  - intros (y & [i Hi]%pg_targets_spec%list_elem_of_lookup & (cy & Hw & <-)).
    destruct (Forall2_lookup_l _ _ _ _ _ Hfc Hi) as (k & Hk & (cy' & Hw' & <-)).
    assert (cy' = cy) as -> by congruence. by eapply list_elem_of_lookup_2.
Qed.

Lemma item_children tips g ix item : graph_exact load r tips g -> item_at g ix item ->
  reached load r tips (ch_commit item.1) /\ loaded load r (ch_commit item.1) = Some item.1 /\
  forall k, k ∈ item.2 <-> reached load r tips k /\ depends load r k (ch_commit item.1).
Proof using PGL load_id.
  intros Hg [Hw Hk]. destruct (proj1 (ge_nodes _ _ _ _ Hg item.1) (ex_intro _ ix Hw)) as [Hr Hl].
  split_and!; [done..|]. intros k. rewrite Hk. split.
  - intros (y & He & cy & Hy & <-). split.
    + by apply (proj1 (ge_nodes _ _ _ _ Hg cy) (ex_intro _ y Hy)).
    + by apply (ge_edges _ _ _ _ Hg ix y item.1 cy Hw Hy).
  - intros [Hrk Hd]. assert (exists c, loaded load r k = Some c) as [c Hc] by (by destruct Hrk as [? ? [c ?]|? ? ? ? [c ?]]; exists c).
    pose proof (loaded_id load load_id r _ _ Hc) as <-.
    destruct (proj2 (ge_nodes _ _ _ _ Hg c) (conj Hrk Hc)) as [y Hy].
    exists y. split; [by apply (ge_edges _ _ _ _ Hg ix y item.1 c Hw Hy)|by exists c].
Qed.

Lemma graph_items rank tips g : commits_ranked r rank -> graph_exact load r tips g ->
  exists items, items_of g (pg_topo g) = Done items /\ topological items /\
    (forall item, item ∈ items -> exists ix, item_at g ix item) /\
    (forall k, reached load r tips k -> exists item, item ∈ items /\ ch_commit item.1 = k).
Proof using GWL PGL PWL load_id.
  intros Hrank Hg. pose proof (graph_ranked load r rank tips g Hrank Hg) as Hrk.
  destruct (items_of_done g (pg_topo g)) as (items & Hitems & Hf).
  { intros ix. by apply (pg_topo_nodes g _ ix Hrk). }
  exists items. split; [done|]. split; [split|split].
  - apply NoDup_alt. intros i j k Hi Hj. rewrite list_lookup_fmap in Hi, Hj.
    apply fmap_Some in Hi as (mi & Hi & ->). apply fmap_Some in Hj as (mj & Hj & Heq).
    destruct (Forall2_lookup_r _ _ _ _ _ Hf Hi) as (xi & Hxi & [Hwi _]).
    destruct (Forall2_lookup_r _ _ _ _ _ Hf Hj) as (xj & Hxj & [Hwj _]).
    eapply NoDup_lookup; [apply (pg_topo_nodup g)|exact Hxi|].
    by rewrite (ge_unique _ _ _ _ Hg _ _ _ _ Hwi Hwj Heq).
  - intros i j m n Hi Hj Hin.
    destruct (Forall2_lookup_r _ _ _ _ _ Hf Hi) as (xi & Hxi & [_ Hki]).
    destruct (Forall2_lookup_r _ _ _ _ _ Hf Hj) as (xj & Hxj & [Hwj _]).
    destruct (proj1 (Hki _) Hin) as (y & He & cy & Hy & Heq).
    rewrite (ge_unique _ _ _ _ Hg _ _ _ _ Hy Hwj Heq) in He. by apply (pg_topo_order g _ i j xi xj Hrk).
  - intros item [i Hi]%list_elem_of_lookup. destruct (Forall2_lookup_r _ _ _ _ _ Hf Hi) as (ix & _ & ?). by exists ix.
  - intros k Hr. assert (exists c, loaded load r k = Some c) as [c Hc] by (by destruct Hr as [? ? [c ?]|? ? ? ? [c ?]]; exists c).
    pose proof (loaded_id load load_id r _ _ Hc) as <-.
    destruct (proj2 (ge_nodes _ _ _ _ Hg c) (conj Hr Hc)) as [ix Hw].
    assert (ix ∈ pg_topo g) as [i Hi]%list_elem_of_lookup by (apply (pg_topo_nodes g _ ix Hrk); by exists c).
    destruct (Forall2_lookup_l _ _ _ _ _ Hf Hi) as (item & Hit & [Hw' _]).
    exists item. split; [by eapply list_elem_of_lookup_2|]. congruence.
Qed.

(** What a history holds that was made from the changes found from the tips. *)
Record history_of (auth : AuthorizingIdentity) (tips : list N) (h : History G) : Prop := {
  ho_dom k : is_Some (entries h !! k) <-> reached load r tips k;
  ho_entry k e : entries h !! k = Some e -> exists c, loaded load r k = Some c /\ he_id e = k /\
    contents e = ch_contents c /\ ev auth c (children e) = Ok e /\ forall x, x ∈ children e <-> reached load r tips x /\ depends load r x k;
  ho_root : reached load r tips (h_root h) /\ forall p, reached load r tips p -> ~ depends load r (h_root h) p;
}.

(** Every change found is one that evaluation accepts. *)
Definition all_accepted (auth : AuthorizingIdentity) (tips : list N) : Prop :=
  forall k c, reached load r tips k -> loaded load r k = Some c -> is_ok (ev auth c []) = true.

Lemma first_root rank g : ranked g rank -> (exists ix, is_Some (pg_weight g ix)) ->
  exists root c, head (merge_sort le (pg_sources g)) = Some root /\ pg_weight g root = Some c /\
    forall x, pg_edge g x root = false.
Proof using PGL PWL.
  intros Hrank [ix Hix]. pose proof (source_exists rank g ix Hrank Hix) as Hne.
  destruct (merge_sort le (pg_sources g)) as [|root rest] eqn:Hs.
  { by apply (f_equal length) in Hs; rewrite merge_sort_Permutation in Hs; destruct (pg_sources g). }
  assert (root ∈ pg_sources g) as [[c Hc] Hno]%pg_sources_spec
    by (rewrite <- (merge_sort_Permutation le), Hs; left).
  by exists root, c.
Qed.

Lemma evaluates_exactly rank tips g : commits_ranked r rank -> graph_exact load r tips (cgraph g) ->
  (exists k, reached load r tips k) -> all_accepted (cg_authorizing g) tips ->
  exists n o, (forall fuel, (n <= fuel)%nat -> geval fuel g = Some (Done o)) /\
    history_of (cg_authorizing g) tips (co_history o) /\ co_id o = cg_object_id g /\ co_authorizing_urn o = auth_urn (cg_authorizing g).
Proof using GWL PGL PWL HGL load_id.
  intros Hrank Hg [k Hk] Hacc.
  destruct (graph_items rank tips _ Hrank Hg) as (items & Hitems & Htopo & Hin & Hall).
  destruct (Hall k Hk) as (item0 & Hi0 & <-). destruct (Hin item0 Hi0) as [ix0 [Hw0 _]].
  destruct (first_root _ _ (graph_ranked load r rank tips _ Hrank Hg)) as (root & c & Hroot & Hc & Hno); [by exists ix0, item0.1|].
  destruct (proj1 (ge_nodes _ _ _ _ Hg c) (ex_intro _ root Hc)) as [Hrc Hlc].
  destruct (evaluates_all (G:=G) sig_verify some_identity verify_person verify_project (cg_authorizing g)
    (ch_commit c) items Htopo) as (n & h & Hrun & Hh & He).
  - intros item Hitem. destruct (Hin item Hitem) as [ix Hat]. destruct (item_children _ _ _ _ Hg Hat) as (Hr & Hl & _).
    pose proof (Hacc _ _ Hr Hl) as Ha. pose proof (evaluated_entry (cg_authorizing g) item.1 []) as Hx.
    destruct (ev (cg_authorizing g) item.1 []); [|done]. by destruct Hx as [who ->].
  - intros item x Hitem Hx. destruct (Hin item Hitem) as [ix Hat].
    destruct (item_children _ _ _ _ Hg Hat) as (_ & _ & Hch). apply Hall, Hch, Hx.
  - by apply Hall.
  - eexists n, _. split; [|split; [split|]].
    + intros fuel Hfuel. unfold graph_evaluate. rewrite Hroot. cbn [unwrap mbind outcome_bind].
      rewrite Hc. cbn [unwrap mbind outcome_bind]. rewrite Hitems. cbn [mbind outcome_bind]. by rewrite (Hrun _ Hfuel).
    + intros x. cbn. split.
      * intros [e (item & Hitem & <- & _)%He]. destruct (Hin item Hitem) as [ix Hat].
        by destruct (item_children _ _ _ _ Hg Hat) as (? & _).
      * intros Hx. destruct (Hall x Hx) as (item & Hitem & <-). destruct (Hin item Hitem) as [ix Hat].
        destruct (item_children _ _ _ _ Hg Hat) as (Hr & Hl & _).
        pose proof (Hacc _ _ Hr Hl) as Ha. pose proof (evaluated_entry (cg_authorizing g) item.1 []) as Hev.
        destruct (ev (cg_authorizing g) item.1 []); [|done]. destruct Hev as [who Hev].
        eexists. apply He. eauto.
    + intros x e. cbn. intros (item & Hitem & <- & Hev)%He. destruct (Hin item Hitem) as [ix Hat].
      destruct (item_children _ _ _ _ Hg Hat) as (_ & Hl & Hch). exists item.1. split; [done|].
      pose proof Hev as Hev'. apply evaluated_ok in Hev' as [a ->]. done.
    + cbn. rewrite Hh. split; [done|]. intros p Hp Hd. destruct (Hall p Hp) as (item & Hitem & <-).
      destruct (Hin item Hitem) as [ix [Hw _]]. apply (ge_edges _ _ _ _ Hg ix root _ _ Hw Hc) in Hd. by rewrite Hno in Hd.
    + done.
Qed.
End Evaluating.

(** ** Instances *)

(** The graph of [Cob.ListGraph] satisfies the laws. *)
Module ListWalk.
Import ListGraph.

Lemma kahn_sub fuel es : forall todo x, x ∈ kahn fuel es todo -> x ∈ todo.
Proof.
  induction fuel as [|fuel IH]; intros todo x; cbn [kahn]; [by intros ?%elem_of_nil|].
  destruct (list_find _ todo) as [[i y]|] eqn:Hf; [|by intros ?%elem_of_nil].
  apply list_find_Some in Hf as (Hy%list_elem_of_lookup_2 & _).
  intros [->|Hx%IH]%elem_of_cons; [done|]. by apply list_elem_of_filter in Hx as [_ ?].
Qed.

Lemma kahn_nodup fuel es : forall todo, NoDup (kahn fuel es todo).
Proof.
  induction fuel as [|fuel IH]; intros todo; cbn [kahn]; [constructor|].
  destruct (list_find _ todo) as [[i y]|]; constructor; [|done].
  intros Hy%kahn_sub. by apply list_elem_of_filter in Hy as [? _].
Qed.

Lemma kahn_order fuel es : forall todo i j x y,
  kahn fuel es todo !! i = Some x -> kahn fuel es todo !! j = Some y -> (x, y) ∈ es -> (i < j)%nat.
Proof.
  induction fuel as [|fuel IH]; intros todo i j x y Hi Hj Hxy; [done|].
  pose proof (kahn_sub _ _ _ _ (list_elem_of_lookup_2 _ _ _ Hi)) as Hx. cbn [kahn] in Hi, Hj.
  destruct (list_find _ todo) as [[k z]|] eqn:Hf; [|done]. apply list_find_Some in Hf as (_ & Hz & _).
  destruct j as [|j].
  - injection Hj as ->. rewrite Forall_forall in Hz. by destruct (Hz _ Hxy).
  - destruct i as [|i]; [lia|]. assert (i < j)%nat; [|lia]. by eapply IH.
Qed.

Lemma least (rank : nat -> nat) l : l <> [] -> exists x, x ∈ l /\ forall y, y ∈ l -> (rank x <= rank y)%nat.
Proof.
  induction l as [|a l IH]; [done|]. intros _. destruct l as [|b l].
  { exists a. split; [left|]. by intros y ->%list_elem_of_singleton. }
  destruct IH as (x & Hx & Hle); [done|]. destruct (decide (rank a <= rank x)%nat).
  - exists a. split; [left|]. intros y [->|Hy%Hle]%elem_of_cons; lia.
  - exists x. split; [by right|]. intros y [->|Hy%Hle]%elem_of_cons; lia.
Qed.

Lemma kahn_all rank es : (forall x y, (x, y) ∈ es -> (rank x < rank y)%nat) ->
  forall fuel todo x, (length todo <= fuel)%nat -> x ∈ todo -> x ∈ kahn fuel es todo.
Proof.
  intros Hrank. induction fuel as [|fuel IH]; intros todo x Hlen Hx.
  { destruct todo; [done|cbn in Hlen; lia]. }
  cbn [kahn]. destruct (least rank todo) as (m & Hm & Hle); [by intros ->; apply elem_of_nil in Hx|].
  destruct (list_find _ todo) as [[k z]|] eqn:Hf.
  - apply list_find_Some in Hf as (Hz%list_elem_of_lookup_2 & _). destruct (decide (x = z)) as [->|Hne]; [left|right].
    apply IH; [|by apply list_elem_of_filter].
    enough (length (filter (fun y => y <> z) todo) < length todo)%nat by lia.
    eapply length_filter_lt; [exact Hz|]. tauto.
  - eapply list_find_None, Forall_forall in Hf; [|exact Hm]. destruct Hf. apply Forall_forall.
    intros [a b] Hab Hb. cbn in *. subst b. intros Ha%Hle. specialize (Hrank a m Hab). lia.
Qed.

#[export] Instance list_walk {A} : PetWalk (lgraph A) A := {|
  pg_sources g := filter (fun x => x ∉ (lgedges g).*2) (seq 0 (length (nodes g)));
  pg_targets g x := (filter (fun e => e.1 = x) (lgedges g)).*2;
  pg_node_count g := length (nodes g);
|}.

#[export] Program Instance list_walk_laws {A} : PetWalkLaws (lgraph A) A.
Next Obligation. done. Qed.
Next Obligation.
  intros A g ix. cbn. rewrite list_elem_of_filter, elem_of_seq, lookup_lt_is_Some. split.
  - intros [Hn Hlt]. split; [lia|]. intros x. apply bool_decide_eq_false. intros Hin.
    apply Hn, list_elem_of_fmap. by exists (x, ix).
  - intros [Hlt Hn]. split; [|lia]. intros ([x y] & -> & Hin)%list_elem_of_fmap.
    specialize (Hn x). by apply bool_decide_eq_false in Hn.
Qed.
Next Obligation.
  intros A g ix y. cbn. rewrite bool_decide_eq_true, list_elem_of_fmap. split.
  - intros ([x z] & -> & [Hx Hin]%list_elem_of_filter). cbn in *. by subst.
  - intros Hin. exists (ix, y). split; [done|]. by apply list_elem_of_filter.
Qed.
Next Obligation. intros A g. apply kahn_nodup. Qed.
Next Obligation.
  intros A g rank ix Hrank. cbn. rewrite lookup_lt_is_Some. split.
  - intros Hx%kahn_sub%elem_of_seq. lia.
  - intros Hx. apply (kahn_all rank).
    + intros x y Hxy. apply Hrank. by apply bool_decide_eq_true.
    + by rewrite length_seq.
    + apply elem_of_seq. lia.
Qed.
Next Obligation.
  intros A g rank i j x y Hrank Hi Hj Hxy. eapply kahn_order; [exact Hi|exact Hj|]. by apply bool_decide_eq_true in Hxy.
Qed.
End ListWalk.

(** The store of [ChangeStore.MemoryStore]; a reference is the id it points to. *)
Module MemoryWalk.
Import MemoryStore.
Fixpoint parents_from (r : repo) (ps : list N) : list (N * GitCommit) :=
  match ps with
  | [] => []
  | p :: ps => match git_find_commit r p with Ok c => (p, c) :: parents_from r ps | Err _ => [] end
  end.

Lemma parents_from_found r ps id c : (id, c) ∈ parents_from r ps -> id ∈ ps /\ git_find_commit r id = Ok c.
Proof.
  induction ps as [|p ps IH]; cbn [parents_from]; [by intros ?%elem_of_nil|].
  destruct (git_find_commit r p) as [c'|] eqn:Hf; [|by intros ?%elem_of_nil].
  intros [[= -> ->]|Hin%IH]%elem_of_cons; [split; [left|done]|]. destruct Hin. split; [by right|done].
Qed.

#[export] Instance memory_walk : GitWalk repo unit N := {|
  git_parents r c := parents_from r (gc_parents c);
  git_peel r o := (fun c => (o, c)) <$> git_find_commit r o;
|}.
#[export] Program Instance memory_walk_laws : GitWalkLaws repo unit N.
Next Obligation. intros r c id pc. apply parents_from_found. Qed.
Next Obligation. intros r o id c. cbn. destruct (as_commit _) eqn:Hc; [|done]. intros [= <- <-]. done. Qed.
End MemoryWalk.

(** ** Theorems *)

Section GraphClaims.
Context {R GE Rf LE Sig CG : Type}.
Context `{G2 : Git2 R GE} `{GW : !GitWalk R GE Rf} `{GWL : !GitWalkLaws R GE Rf}.
Context `{PG : PetGraph CG (Change Sig)} `{PGL : !PetGraphLaws CG (Change Sig)}.
Context `{PW : !PetWalk CG (Change Sig)} `{PWL : !PetWalkLaws CG (Change Sig)}.
Context (load : R -> N -> GitCommit -> result LE (Change Sig)).

(** C19 [graph_load_exact]: loading ends, without panic, on any history of commits (these have no
    cycles); the graph has exactly one node for each change that can be loaded and reached
    from the references through changes that can be loaded, and an edge from a change to
    each change that has it as a parent.  There is no graph exactly when nothing is found. *)
Theorem graph_load_exact (r : R) (rank : N -> nat) (refs : list Rf) (ids : list N)
    (auth : AuthorizingIdentity) (oid : N)
    (Hid : forall r id commit c, load r id commit = Ok c -> ch_commit c = id)
    (Hrank : commits_ranked r rank) (Hrefs : Forall2 (peels r) refs ids) :
  exists n og, (forall fuel, (n <= fuel)%nat -> graph_load load fuel r refs auth oid = Some (EOk og)) /\
    match og with
    | Some g => graph_exact load r ids (cgraph g)
    | None => forall id, ~ reached load r ids id
    end.
Proof using GWL PGL PWL.
  destruct (loads_exactly load Hid r rank refs ids auth oid Hrank Hrefs) as (n & og & Hload & Hog).
  exists n, og. split; [done|]. destruct og; [by destruct Hog|done].
Qed.

(** A reference that cannot be resolved ends the loading, whatever the others are. *)
Theorem graph_load_error (r : R) (fuel : nat) (refs1 refs2 : list Rf) (ids : list N) (rf : Rf) (e : GE)
    (auth : AuthorizingIdentity) (oid : N)
    (Hrefs : Forall2 (peels r) refs1 ids) (Hrf : git_peel r rf = Err e) :
  graph_load load fuel r (refs1 ++ rf :: refs2) auth oid = Some (EErr (GraphGit e)).
Proof using.
  unfold graph_load. rewrite eff_fold_app.
  assert (forall acc, exists acc', eff_fold (load_tip load r) acc refs1 = EOk acc') as Hf.
  { clear Hrf. induction Hrefs as [|x id refs ids' [c Hp] _ IH]; intros acc; [by exists acc|]. cbn [eff_fold].
    assert (exists acc', load_tip load r acc x = EOk acc') as [acc' ->]; [|apply IH].
    unfold load_tip. rewrite Hp. cbn. destruct (load r id c); [|eauto]. destruct (add_change r id c a acc.1); eauto. }
  destruct (Hf (builder_default, [])) as [acc' ->]. cbn [mbind eff_bind eff_fold].
  assert (load_tip load r acc' rf = EErr (GraphGit e)) as ->; [|done]. unfold load_tip. by rewrite Hrf.
Qed.
End GraphClaims.

(** Three changes, the last one with both others as parents, and a commit that is no change. *)
Module GraphExample.
Import MemoryStore MemoryWalk ListGraph ListWalk.
#[local] Open Scope N_scope.
Definition commit_with (parents : list N) (message : option (list N)) : obj := OCommit (MkGitCommit 0 parents message).
Definition the_repo : repo :=
  [commit_with [] (Some [1]); commit_with [0; 3] (Some [1]); commit_with [0; 1] (Some [1]); commit_with [] None].
Definition the_load (r : repo) (id : N) (c : GitCommit) : result unit (Change N) :=
  match gc_message c with
  | Some _ => Ok (MkChange id 0 ∅ 100 None 101 (MkManifest (lit "x") AutomergeHistory) (Automerge []))
  | None => Err tt
  end.
Definition the_rank (id : N) : nat := if decide (id = 3) then 0 else S (N.to_nat id).

Lemma graph_load_exact_witness :
  exists n g, (forall fuel, (n <= fuel)%nat ->
      graph_load (CG:=lgraph (Change N)) the_load fuel the_repo [2] (AuthProject (MkVerified 60 50)) 0 = Some (EOk (Some g))) /\
    graph_exact the_load the_repo [2] (cgraph g).
Proof.
  destruct (graph_load_exact (CG:=lgraph (Change N)) the_load the_repo the_rank [2] [2] (AuthProject (MkVerified 60 50)) 0)
    as (n & og & Hl & Hog).
  - intros r id commit c. unfold the_load. destruct (gc_message commit); [|done]. by intros [= <-].
  - intros id c p Hf Hp. cbn in Hf. unfold get in Hf. remember (N.to_nat id) as i eqn:Hi.
    assert (id = N.of_nat i) as -> by lia. clear Hi.
    do 4 (destruct i as [|i]; [cbn in Hf; injection Hf as <-; cbn in Hp;
      repeat (apply elem_of_cons in Hp as [->|Hp]; [vm_compute; lia|]); by apply elem_of_nil in Hp|]).
    done.
  - constructor; [|constructor]. eexists. reflexivity.
  - destruct og as [g|]; [by exists n, g|]. exfalso. apply (Hog 2). apply reached_tip; [left|]. by eexists.
Defined.
End GraphExample.
