(* ===== verification/CobCache.v ===== *)
(** * The cache of collaborative objects

    [cob/src/cache.rs] and [cob/src/cache/cached_change_graph.rs], with the names of
    objects and of their types ([ObjectId] and [TypeName] of [cob/src/lib.rs]).  The
    file system and the CBOR codec are the interfaces [Fs] and [Cbor]; the order in
    which a cached graph is decoded is kept, because making the history of what was
    read can panic. *)
From stdpp Require Import base list gmap.
From Stdlib Require Import NArith Lia.
From Stdlib Require String Ascii.
Import String.StringSyntax.
From S2P Require Import Prelude Effects RefFormat Trailers CommitMessage PruningFold Cob ChangeStore.
#[local] Open Scope N_scope.

(** ** Names *)

Definition is_type_char (c : N) : bool :=
  (97 <=? c) && (c <=? 122) || (65 <=? c) && (c <=? 90) || (48 <=? c) && (c <=? 57).

Definition bytes_of (s : String.string) : list N := Ascii.N_of_ascii <$> String.list_ascii_of_string s.

(** [^([a-zA-Z0-9])+(\.[a-zA-Z0-9]+)*$]; [started] after a first character of a part. *)
Fixpoint type_parts (started : bool) (s : list N) : bool :=
  match s with
  | [] => started
  | c :: s => if c =? 46 then started && type_parts false s else is_type_char c && type_parts true s
  end.

(** [TypeName::from_str] *)
Definition typename_from_str (s : String.string) : result unit String.string :=
  if type_parts false (bytes_of s) then Ok s else Err tt.

(** [TypeName::regex_safe_string] *)
Fixpoint regex_safe (s : String.string) : String.string :=
  match s with
  | String.EmptyString => String.EmptyString
  | String.String c s =>
      if Ascii.eqb c (Ascii.ascii_of_N 46)
      then String.String (Ascii.ascii_of_N 92) (String.String c (regex_safe s))
      else String.String c (regex_safe s)
  end.

Inductive ParseObjectId (MB MH G : Type) : Type :=
| ParseGit2 (e : G)
| MultibaseDecode (e : MB)
| MultiHashFromBytes (e : MH)
| OidFromMultiHash (e : FromMultihashError G).
Arguments ParseGit2 {MB MH G} e.
Arguments MultibaseDecode {MB MH G} e.
Arguments MultiHashFromBytes {MB MH G} e.
Arguments OidFromMultiHash {MB MH G} e.

Section ObjectId.
Context {MB MH GT : Type} `{Multicodec MB MH GT}.

(** [ObjectId::from_str]; [Display for ObjectId] is [encode_oid]. *)
Definition object_id_from_str (s : list N) : result (ParseObjectId MB MH GT) N :=
  bytes ← map_err MultibaseDecode (multibase_decode s);
  mh ← map_err MultiHashFromBytes (multihash_from_slice bytes);
  map_err OidFromMultiHash (oid_try_from mh).
End ObjectId.

(** ** Cached graphs *)

Record CachedChangeGraph (G : Type) : Type := MkCached {
  cc_history : History G;
  cc_refs : gset N;
  cc_typename : String.string;
  cc_object_id : N;
  cc_urn : N;
}.
Arguments MkCached {G} _ _ _ _ _.
Arguments cc_history {G} _.
Arguments cc_refs {G} _.
Arguments cc_typename {G} _.
Arguments cc_object_id {G} _.
Arguments cc_urn {G} _.

Definition cached_new {G} (tips : list N) (h : History G) (ty : String.string) (oid urn : N) : CachedChangeGraph G :=
  MkCached h (list_to_set tips) ty oid urn.

(** [CachedChangeGraph::update_ref]. *)
Definition cached_update_ref {G} `{PetGraph G HistoryEntry} (g : CachedChangeGraph G) (previous : option N)
    (new author : N) (changes : EntryContents) : outcome (CachedChangeGraph G) :=
  let refs := match previous with Some p => cc_refs g ∖ {[ p ]} | None => cc_refs g end in
  h ← extend (cc_history g) new author changes;
  Done (MkCached h ({[ new ]} ∪ refs) (cc_typename g) (cc_object_id g) (cc_urn g)).

(** ** Encoding *)

(** [RawHistory], and what follows it. *)
Record RawHistory : Type := MkRaw { raw_root : N; raw_entries : gmap N HistoryEntry }.
Record RawRest : Type := MkRest { raw_refs : gset N; raw_typename : String.string; raw_object_id : list N; raw_urn : N }.

Class Cbor (DE : Type) := {
  cbor_encode : RawHistory -> RawRest -> list N;
  cbor_history : list N -> result DE (RawHistory * list N);
  cbor_rest : list N -> result DE RawRest;
}.
Class CborLaws (DE : Type) `{Cbor DE} := {
  cbor_roundtrip h x : exists bs, cbor_history (cbor_encode h x) = Ok (h, bs) /\ cbor_rest bs = Ok x;
}.

(** ** The file system *)

Definition path : Type := list (list N).

Class Fs (F IE : Type) := {
  fs_read : F -> path -> result IE (list N);
  fs_not_found : IE -> bool;
  fs_exists : F -> path -> bool;
  fs_create_dir_all : path -> st F IE unit;
  fs_tempfile : path -> st F IE path;
  fs_create : path -> st F IE unit;
  fs_write : path -> list N -> st F IE unit;
  fs_sync : path -> st F IE unit;
  fs_rename : path -> path -> st F IE unit;
  fs_remove : path -> F -> F;                     (** what dropping a temporary file does *)
}.

(** Files other than [p] stay as they are. *)
Definition only_touches {F IE} `{Fs F IE} (p : path) (w w' : F) : Prop :=
  forall q, q <> p -> fs_read w' q = fs_read w q.

Class FsLaws (F IE : Type) `{Fs F IE} := {
  fs_create_dir_read d w q : fs_read (fs_create_dir_all d w).2 q = fs_read w q;
  (** The name of a temporary file starts with a dot. *)
  fs_tempfile_fresh d w x w' : fs_tempfile d w = (x, w') ->
    match x with
    | EOk p => (exists n, p = d ++ [46 :: n]) /\ only_touches p w w'
    | _ => forall q, fs_read w' q = fs_read w q
    end;
  fs_create_spec p w : only_touches p w (fs_create p w).2 /\
    ((fs_create p w).1 = EOk tt -> fs_read (fs_create p w).2 p = Ok []);
  fs_write_spec p bs w : only_touches p w (fs_write p bs w).2 /\
    ((fs_write p bs w).1 = EOk tt -> fs_read w p = Ok [] -> fs_read (fs_write p bs w).2 p = Ok bs);
  fs_sync_read p w q : fs_read (fs_sync p w).2 q = fs_read w q;
  fs_rename_spec p q w x w' : fs_rename p q w = (x, w') ->
    match x with
    | EOk _ => fs_read w' q = fs_read w p /\ forall q', q' <> p -> q' <> q -> fs_read w' q' = fs_read w q'
    | _ => forall q', fs_read w' q' = fs_read w q'
    end;
  fs_remove_read p w : only_touches p w (fs_remove p w);
}.

(** ** Caches *)

Inductive CacheError (IE DE : Type) : Type :=
| CacheIo (e : IE)
| CacheGit
| MinicborDecode (e : DE)
| MinicborEncode (e : IE).
Arguments CacheIo {IE DE} e.
Arguments CacheGit {IE DE}.
Arguments MinicborDecode {IE DE} e.
Arguments MinicborEncode {IE DE} e.

(** [Box<dyn Cache>]. *)
Inductive Cache : Type :=
| FileSystemCache (dir : path)
| NoOpCache.

Section Cache.
Context {F IE DE MB MH GT G : Type}.
Context `{Fs F IE} `{Cbor DE} `{Multicodec MB MH GT} `{PetGraph G HistoryEntry}.

Definition fs_cache_open (dir : path) : st F IE Cache :=
  let dir := dir ++ [str "v1"] in
  w ← get;
  _ ← (if fs_exists w dir then mret tt else fs_create_dir_all dir);
  mret (FileSystemCache dir).

Definition open_cache (p : option path) : st F IE Cache :=
  match p with Some p => fs_cache_open p | None => mret NoOpCache end.

Definition object_path (dir : path) (oid : N) : path := dir ++ [encode_oid oid].

(** [minicbor::Encode] and [minicbor::Decode] for a cached graph. *)
Definition cached_encode (g : CachedChangeGraph G) : list N :=
  cbor_encode (MkRaw (h_root (cc_history g)) (entries (cc_history g)))
    (MkRest (cc_refs g) (cc_typename g) (encode_oid (cc_object_id g)) (cc_urn g)).

(** Decoding; any error is the same to the caller. *)
Definition cached_decode (fuel : nat) (bs : list N) : option (outcome (option (CachedChangeGraph G))) :=
  match cbor_history bs with
  | Err _ => Some (Done None)
  | Ok (raw, bs) =>
      match history_new fuel (raw_root raw) (raw_entries raw) with
      | None => None
      | Some Panic => Some Panic
      | Some (Done (Err _)) => Some (Done None)
      | Some (Done (Ok h)) =>
          Some (Done (
            rest ← res_ok (cbor_rest bs);
            ty ← res_ok (typename_from_str (raw_typename rest));
            oid ← res_ok (object_id_from_str (raw_object_id rest));
            Some (MkCached h (raw_refs rest) ty oid (raw_urn rest))))
      end
  end.

(** [Cache::load]; [None] is out of fuel. *)
Definition cache_load (fuel : nat) (w : F) (c : Cache) (oid : N) (known_refs : gset N) :
    option (eff (CacheError IE DE) (option (CachedChangeGraph G))) :=
  match c with
  | NoOpCache => Some (EOk None)
  | FileSystemCache dir =>
      match fs_read w (object_path dir oid) with
      | Err e => if fs_not_found e then Some (EOk None) else Some (EErr (CacheIo e))
      | Ok bytes =>
          match cached_decode fuel bytes with
          | None => None
          | Some Panic => Some EPanic
          | Some (Done None) => Some (EOk None)
          | Some (Done (Some g)) => Some (EOk (if bool_decide (known_refs = cc_refs g) then Some g else None))
          end
      end
  end.

Definition io {A} (e : IE -> CacheError IE DE) (m : st F IE A) : st F (CacheError IE DE) A := fun w =>
  let '(x, w) := m w in (eff_map_err e x, w).

(** A [NamedTempFile] is removed when it is dropped, whatever happened. *)
Definition dropping {A} (tmp : path) (m : st F (CacheError IE DE) A) : st F (CacheError IE DE) A := fun w =>
  let '(x, w) := m w in (x, fs_remove tmp w).

(** [Cache::put]. *)
Definition cache_put (c : Cache) (oid : N) (g : CachedChangeGraph G) : st F (CacheError IE DE) unit :=
  match c with
  | NoOpCache => mret tt
  | FileSystemCache dir =>
      tmp ← io CacheIo (fs_tempfile dir);
      dropping tmp (
        _ ← io CacheIo (fs_create tmp);
        _ ← io MinicborEncode (fs_write tmp (cached_encode g));
        _ ← io CacheIo (fs_sync tmp);
        io CacheIo (fs_rename tmp (object_path dir oid)))
  end.
End Cache.

(** ** Theorems *)

Section CacheProofs.
Context {F IE DE MB MH GT G : Type}.
Context `{FsLaws F IE} `{CborLaws DE} `{MulticodecLaws MB MH GT} `{PetGraphLaws G HistoryEntry}.

Lemma object_id_roundtrip oid : object_id_from_str (encode_oid oid) = Ok oid.
Proof using H4.
  unfold object_id_from_str, encode_oid. rewrite multibase_roundtrip. cbn. unfold into_multihash.
  rewrite multihash_roundtrip. cbn. unfold oid_try_from. cbn [fst snd]. rewrite bool_decide_eq_false_2 by tauto.
  by rewrite oid_bytes_roundtrip.
Qed.

Lemma object_path_inj dir oid oid' : object_path dir oid = object_path dir oid' -> oid = oid'.
Proof using H4.
  unfold object_path. intros Heq%app_inv_head. injection Heq as Heq.
  apply (f_equal object_id_from_str) in Heq. rewrite !object_id_roundtrip in Heq. congruence.
Qed.

Lemma object_path_not_temp dir oid n : object_path dir oid <> dir ++ [46 :: n].
Proof using H4.
  unfold object_path. intros Heq%app_inv_head. injection Heq as Heq.
  pose proof (multibase_prefix (into_multihash oid)) as Hp. unfold encode_oid in Heq. rewrite Heq in Hp. by injection Hp.
Qed.

Lemma io_inv {A} (f : IE -> CacheError IE DE) (m : st F IE A) w x w' : io f m w = (x, w') ->
  exists y, m w = (y, w') /\ x = eff_map_err f y.
Proof using. unfold io. destruct (m w) as [y w1]. intros [= <- <-]. eauto. Qed.

(** Writing to the temporary file, and moving it in place. *)
Lemma written tmp target bs w (x : eff (CacheError IE DE) unit) w' : tmp <> target ->
  (_ ← io CacheIo (fs_create tmp);
   _ ← io MinicborEncode (fs_write tmp bs);
   _ ← io CacheIo (fs_sync tmp);
   io CacheIo (fs_rename tmp target)) w = (x, w') ->
  match x with
  | EOk _ => fs_read w' target = Ok bs /\ forall q, q <> tmp -> q <> target -> fs_read w' q = fs_read w q
  | _ => only_touches tmp w w'
  end.
Proof using H0.
  intros Hne. unfold mbind, st_bind, io, only_touches.
  destruct (fs_create_spec tmp w) as [Ht1 Hc1]. destruct (fs_create tmp w) as [x1 w1] eqn:E1. cbn [fst snd] in *.
  destruct x1 as [[]|e|]; cbn [eff_map_err]; [|by intros [= <- <-]..].
  destruct (fs_write_spec tmp bs w1) as [Ht2 Hc2]. destruct (fs_write tmp bs w1) as [x2 w2] eqn:E2. cbn [fst snd] in *.
  assert (forall q, q <> tmp -> fs_read w2 q = fs_read w q) as Hw2 by (intros q Hq; by rewrite Ht2, Ht1).
  destruct x2 as [[]|e|]; cbn [eff_map_err]; [|by intros [= <- <-]..].
  pose proof (fs_sync_read tmp w2) as Hs. destruct (fs_sync tmp w2) as [x3 w3] eqn:E3. cbn [fst snd] in *.
  assert (forall q, q <> tmp -> fs_read w3 q = fs_read w q) as Hw3 by (intros q Hq; by rewrite Hs, Hw2).
  destruct x3 as [[]|e|]; cbn [eff_map_err]; [|by intros [= <- <-]..].
  destruct (fs_rename tmp target w3) as [x4 w4] eqn:E4. apply fs_rename_spec in E4.
  destruct x4 as [[]|e|]; intros [= <- <-]; cbn [eff_map_err].
  - destruct E4 as [-> Hq]. split; [rewrite Hs; by apply Hc2; [|apply Hc1]|]. intros q Hq1 Hq2. by rewrite Hq, Hw3.
  - intros q Hq. by rewrite E4, Hw3.
  - intros q Hq. by rewrite E4, Hw3.
Qed.

Lemma put_spec (dir : path) (oid : N) (g : CachedChangeGraph G) (w w' : F) (x : eff (CacheError IE DE) unit)
    (Hput : cache_put (FileSystemCache dir) oid g w = (x, w')) :
  fs_read w' (object_path dir oid) =
    match x with EOk _ => Ok (cached_encode g) | _ => fs_read w (object_path dir oid) end /\
  forall oid', oid' <> oid -> fs_read w' (object_path dir oid') = fs_read w (object_path dir oid').
Proof using H0 H4.
  cbn [cache_put] in Hput. unfold mbind at 1, st_bind at 1 in Hput.
  destruct (io CacheIo (fs_tempfile dir) w) as [y w1] eqn:Ht. apply io_inv in Ht as (t & Ht & ->).
  apply fs_tempfile_fresh in Ht. destruct t as [tmp|e|]; cbn [eff_map_err] in Hput.
  2-3: injection Hput as <- <-; split; intros; apply Ht.
  destruct Ht as [[n ->] Htouch]. unfold dropping in Hput.
  assert (forall o, object_path dir o <> dir ++ [46 :: n]) as Hnt by (intros o; apply object_path_not_temp).
  match type of Hput with (let '(_, _) := ?m in _) = _ => destruct m as [y w2] eqn:Hbody end. injection Hput as <- <-.
  apply written in Hbody; [|by apply not_eq_sym]. rewrite !fs_remove_read by apply Hnt. split.
  - destruct y as [[]|e|]; [apply Hbody|by rewrite Hbody, Htouch..].
  - intros oid' Hoid. rewrite fs_remove_read by apply Hnt.
    assert (object_path dir oid' <> object_path dir oid) as Hp by (intros ?%object_path_inj; done).
    destruct y as [[]|e|]; [destruct Hbody as [_ ->]; [by apply Htouch|done..]|by rewrite Hbody, Htouch..].
Qed.

(** [cache_put_atomic]: writing a graph to the cache is atomic: when it succeeds, the file of
    the object holds the graph; when it fails, at whatever point, the file is as it was.
    The files of other objects are never changed. *)
Theorem cache_put_atomic (dir : path) (oid : N) (g : CachedChangeGraph G) (w w' : F) (x : eff (CacheError IE DE) unit)
    (Hput : cache_put (FileSystemCache dir) oid g w = (x, w')) :
  fs_read w' (object_path dir oid) =
    match x with EOk _ => Ok (cached_encode g) | _ => fs_read w (object_path dir oid) end /\
  forall oid', oid' <> oid -> fs_read w' (object_path dir oid') = fs_read w (object_path dir oid').
Proof using H0 H4. by apply put_spec. Qed.

(** What can be stored: a history whose graph can be built again. *)
Definition rebuildable (h : History G) : Prop :=
  exists n h', history_new (G:=G) n (h_root h) (entries h) = Some (Done (Ok h')).

Lemma history_rebuilt (h : History G) : rebuildable h ->
  exists n h', (forall fuel, (n <= fuel)%nat -> history_new fuel (h_root h) (entries h) = Some (Done (Ok h'))) /\
    h_root h' = h_root h /\ entries h' = entries h.
Proof using.
  intros (n & h' & Hn). exists n, h'. unfold history_new, create_petgraph in *.
  destruct (entries h !! h_root h) as [e|]; [|done]. destruct (pg_add_node pg_new e) as [ix g].
  destruct (create_loop n _ _) as [[[g' ixs]|]|] eqn:Hl; [|done|done]. injection Hn as <-.
  split_and!; [|done..]. intros fuel Hfuel. by rewrite (create_loop_mono _ _ _ _ _ Hl Hfuel).
Qed.

Lemma wf_rebuildable (h : History G) rank B : closed (entries h) -> is_Some (entries h !! h_root h) ->
  acyclic (entries h) rank -> (forall k, (rank k < B)%nat) -> rebuildable h.
Proof using H6.
  intros Hcl [e He] Ha HB.
  destruct (create_total (G:=G) _ rank B _ e Ha HB He) as (n & o & Hn & Ho). destruct (Ho Hcl) as [[g ixs] ->].
  exists n. eexists. unfold history_new. rewrite He, Hn by done. reflexivity.
Qed.

(** The same graph, up to the arrangement of the nodes of its history in memory. *)
Definition same_cached (g g' : CachedChangeGraph G) : Prop :=
  h_root (cc_history g') = h_root (cc_history g) /\ entries (cc_history g') = entries (cc_history g) /\
  cc_refs g' = cc_refs g /\ cc_typename g' = cc_typename g /\ cc_object_id g' = cc_object_id g /\ cc_urn g' = cc_urn g.

Lemma cached_decodes g : rebuildable (cc_history g) -> typename_from_str (cc_typename g) = Ok (cc_typename g) ->
  exists n g', (forall fuel, (n <= fuel)%nat -> cached_decode fuel (cached_encode g) = Some (Done (Some g'))) /\ same_cached g g'.
Proof using H2 H4 H6.
  intros Hwf Hty. destruct (history_rebuilt _ Hwf) as (n & h' & Hh & Hroot & Hes).
  destruct (cbor_roundtrip (MkRaw (h_root (cc_history g)) (entries (cc_history g)))
    (MkRest (cc_refs g) (cc_typename g) (encode_oid (cc_object_id g)) (cc_urn g))) as (bs & Hb1 & Hb2).
  exists n, (MkCached h' (cc_refs g) (cc_typename g) (cc_object_id g) (cc_urn g)). split; [|by split_and!].
  intros fuel Hfuel. unfold cached_decode, cached_encode. rewrite Hb1. cbn [raw_root raw_entries]. rewrite (Hh _ Hfuel), Hb2.
  cbn [res_ok mbind option_bind raw_refs raw_typename raw_object_id raw_urn]. rewrite Hty. cbn [res_ok mbind option_bind].
  by rewrite object_id_roundtrip.
Qed.

Lemma stored_found (dir : path) (oid : N) (g : CachedChangeGraph G) (w w' : F) (known : gset N)
    (Hput : cache_put (DE:=DE) (FileSystemCache dir) oid g w = (EOk tt, w'))
    (Hwf : rebuildable (cc_history g)) (Hty : typename_from_str (cc_typename g) = Ok (cc_typename g)) :
  exists n g', (forall fuel, (n <= fuel)%nat ->
      cache_load (DE:=DE) fuel w' (FileSystemCache dir) oid known =
        Some (EOk (if bool_decide (known = cc_refs g) then Some g' else None))) /\ same_cached g g'.
Proof using H0 H2 H4 H6.
  destruct (cached_decodes g Hwf Hty) as (n & g' & Hd & Hg). exists n, g'. split; [|done].
  intros fuel Hfuel. cbn [cache_load]. rewrite (proj1 (put_spec _ _ _ _ _ _ Hput)), (Hd _ Hfuel).
  by destruct Hg as (_ & _ & -> & _).
Qed.

(** [cache_roundtrip]: a graph that was put in the cache is found there again as long as the
    references to the object are those it was made from, with the same history, and
    is not found otherwise. *)
Theorem cache_roundtrip (dir : path) (oid : N) (g : CachedChangeGraph G) (w w' : F) (known : gset N)
    (Hput : cache_put (DE:=DE) (FileSystemCache dir) oid g w = (EOk tt, w'))
    (Hwf : rebuildable (cc_history g)) (Hty : typename_from_str (cc_typename g) = Ok (cc_typename g)) :
  exists n g', (forall fuel, (n <= fuel)%nat ->
      cache_load (DE:=DE) fuel w' (FileSystemCache dir) oid known =
        Some (EOk (if bool_decide (known = cc_refs g) then Some g' else None))) /\ same_cached g g'.
Proof using H0 H2 H4 H6. by apply stored_found with w. Qed.

End CacheProofs.

(** ** A file system in memory *)
Module MemoryFs.
Import MemoryStore.
Definition files : Type := gmap path (list N).

#[export] Instance memory_fs : Fs files unit := {|
  fs_read w p := ok_or (w !! p) tt;
  fs_not_found _ := true;
  fs_exists _ _ := true;
  fs_create_dir_all _ w := (EOk tt, w);
  fs_tempfile d w := (EOk (d ++ [[46]]), w);
  fs_create p w := (EOk tt, <[p := []]> w);
  fs_write p bs w := (EOk tt, <[p := bs]> w);
  fs_sync _ w := (EOk tt, w);
  fs_rename p q w := match w !! p with Some bs => (EOk tt, <[q := bs]> (delete p w)) | None => (EErr tt, w) end;
  fs_remove p w := delete p w;
|}.

Lemma read_insert (w : files) p bs q : fs_read (<[p := bs]> w : files) q = if decide (p = q) then Ok bs else fs_read w q.
Proof.
  change (ok_or ((<[p := bs]> w : gmap path (list N)) !! q) tt = if decide (p = q) then Ok bs else ok_or (w !! q) tt).
  rewrite (lookup_insert (M:=gmap path) w p q bs). by case_decide.
Qed.
Lemma read_delete (w : files) p q : p <> q -> fs_read (delete p w : files) q = fs_read w q.
Proof.
  intros Hne. change (ok_or ((delete p w : gmap path (list N)) !! q) tt = ok_or (w !! q) tt).
  by rewrite (lookup_delete_ne (M:=gmap path) w p q Hne).
Qed.

#[export] Program Instance memory_fs_laws : FsLaws files unit.
Next Obligation. done. Qed.
Next Obligation. intros d w x w' [= <- <-]. split; [by exists []|by intros q Hq]. Qed.
Next Obligation.
  intros p w. split; [intros q Hq|intros _]; cbn [fs_create memory_fs snd]; rewrite read_insert; by case_decide.
Qed.
Next Obligation.
  intros p bs w. split; [intros q Hq|intros _ _]; cbn [fs_write memory_fs snd]; rewrite read_insert; by case_decide.
Qed.
Next Obligation. done. Qed.
Next Obligation.
  intros p q w x w'. cbn [fs_rename memory_fs]. destruct (w !! p) as [bs|] eqn:Hp; intros [= <- <-]; [|done].
  split.
  - rewrite read_insert. case_decide; [|done]. cbn. by rewrite Hp.
  - intros q' Hp' Hq'. rewrite read_insert. case_decide; [by subst|]. by apply read_delete, not_eq_sym.
Qed.
Next Obligation. intros p w q Hq. by apply read_delete, not_eq_sym. Qed.

(** *** A codec *)
Class Codec (A : Type) := {
  enc : A -> list N;
  dec : list N -> option (A * list N);
  dec_enc a bs : dec (enc a ++ bs) = Some (a, bs);
}.

#[export] Program Instance codec_n : Codec N :=
  {| enc n := [n]; dec bs := match bs with n :: bs => Some (n, bs) | [] => None end |}.
Next Obligation. done. Qed.

#[export] Program Instance codec_pair {A B} `{Codec A} `{Codec B} : Codec (A * B) := {|
  enc x := enc x.1 ++ enc x.2;
  dec bs := '(a, bs) ← dec bs; '(b, bs) ← dec bs; Some ((a, b), bs);
|}.
Next Obligation. intros A B CA CB [a b] bs. cbn. rewrite <- app_assoc, dec_enc. cbn. by rewrite dec_enc. Qed.

Fixpoint dec_list {A} `{Codec A} (n : nat) (bs : list N) : option (list A * list N) :=
  match n with
  | O => Some ([], bs)
  | S n => '(a, bs) ← dec bs; '(l, bs) ← dec_list n bs; Some (a :: l, bs)
  end.
#[export] Program Instance codec_list {A} `{Codec A} : Codec (list A) := {|
  enc l := N.of_nat (length l) :: (l ≫= enc);
  dec bs := match bs with n :: bs => dec_list (N.to_nat n) bs | [] => None end;
|}.
Next Obligation.
  intros A CA l bs. cbn. rewrite Nat2N.id. induction l as [|a l IH]; [done|].
  cbn. rewrite <- app_assoc, dec_enc. cbn. by rewrite IH.
Qed.

(** By a bijection. *)
Definition codec_via {A B} `{Codec B} (f : A -> B) (g : B -> A) (Hgf : forall a, g (f a) = a) : Codec A.
Proof.
  refine {| enc a := enc (f a); dec bs := '(b, bs) ← dec bs; Some (g b, bs) |}.
  intros a bs. rewrite dec_enc. cbn. by rewrite Hgf.
Defined.

#[export] Instance codec_set : Codec (gset N) := codec_via elements list_to_set list_to_set_elements_L.
#[export] Instance codec_map {V} `{Codec V} : Codec (gmap N V) := codec_via map_to_list list_to_map list_to_map_to_list.
#[export] Instance codec_string : Codec String.string := codec_via of_name to_name to_of_name.
#[export] Instance codec_entry : Codec HistoryEntry.
Proof.
  refine (codec_via (fun e => (he_id e, author e, children e, match contents e with Automerge bs => bs end))
    (fun '(i, a, cs, bs) => MkEntry i a cs (Automerge bs)) _). by intros [? ? ? []].
Defined.
#[export] Instance codec_raw : Codec RawHistory.
Proof. refine (codec_via (fun h => (raw_root h, raw_entries h)) (fun '(x, y) => MkRaw x y) _). by intros []. Defined.
#[export] Instance codec_rest : Codec RawRest.
Proof.
  refine (codec_via (fun x => (raw_refs x, raw_typename x, raw_object_id x, raw_urn x))
    (fun '(r, t, o, u) => MkRest r t o u) _). by intros [].
Defined.

#[export] Instance list_cbor : Cbor unit := {|
  cbor_encode h x := enc h ++ enc x;
  cbor_history bs := ok_or (dec bs) tt;
  cbor_rest bs := ok_or (fst <$> dec bs) tt;
|}.
#[export] Program Instance list_cbor_laws : CborLaws unit.
Next Obligation.
  intros h x. exists (enc x). cbn [cbor_history cbor_rest cbor_encode list_cbor]. rewrite dec_enc. split; [done|].
  rewrite <- (app_nil_r (enc x)), dec_enc. done.
Qed.

(** *** A graph with one entry *)
Import ListGraph.
Definition one_entry : HistoryEntry := MkEntry 3 7 [] (Automerge [1]).
Definition one_history : History (lgraph HistoryEntry) := MkHistory 3 {[ 3 := one_entry ]} ∅ pg_new.
Definition one_cached : CachedChangeGraph (lgraph HistoryEntry) := cached_new [5] one_history (lit "a.b") 3 60.

Lemma one_wf : rebuildable one_history.
Proof.
  apply (wf_rebuildable one_history (fun _ => 0%nat) 1%nat); cbn [one_history entries h_root].
  - intros k e c [<- <-]%lookup_singleton_Some Hc. by apply elem_of_nil in Hc.
  - by rewrite lookup_singleton_eq.
  - intros k e [<- <-]%lookup_singleton_Some. split; [done|].
    intros c Hc. by apply elem_of_nil in Hc.
  - intros k. lia.
Qed.

Lemma cache_put_atomic_witness :
  exists w', cache_put (DE:=unit) (FileSystemCache []) 3 one_cached (∅ : files) = (EOk tt, w') /\
    fs_read w' (object_path [] 3) = Ok (cached_encode one_cached).
Proof.
  eexists. split; [reflexivity|].
  refine (proj1 (cache_put_atomic (DE:=unit) [] 3 one_cached (∅ : files) _ (EOk tt) _)). reflexivity.
Defined.

Lemma cache_roundtrip_witness :
  exists w' n g', (forall fuel, (n <= fuel)%nat ->
      cache_load (G:=lgraph HistoryEntry) (DE:=unit) fuel w' (FileSystemCache []) 3 {[ 5 ]} = Some (EOk (Some g'))) /\
    same_cached one_cached g'.
Proof.
  destruct (cache_put (DE:=unit) (FileSystemCache []) 3 one_cached (∅ : files)) as [x w'] eqn:Hp.
  assert (x = EOk tt) as -> by (apply (f_equal fst) in Hp; etransitivity; [symmetry; exact Hp|reflexivity]).
  destruct (cache_roundtrip (DE:=unit) [] 3 one_cached ∅ w' {[ 5 ]} Hp one_wf) as (n & g' & Hl & Hg); [reflexivity|].
  exists w', n, g'. split; [|exact Hg]. intros fuel Hfuel. rewrite (Hl fuel Hfuel). reflexivity.
Defined.
End MemoryFs.
