(* ===== verification/CobApi.v ===== *)
(** * Collaborative objects: the interface

    [cob/src/lib.rs]: objects are created, retrieved, listed and updated.  The layout of
    the references to objects is the interface [RefsStorage] of [cob/src/refs_storage.rs].
    The state is the repository and the file system of the cache. *)
From stdpp Require Import base list gmap.
From Stdlib Require Import NArith Lia.
From Stdlib Require String.
Import String.StringSyntax.
From S2P Require Import Prelude Effects RefFormat Trailers CommitMessage PruningFold Cob ChangeStore ChangeGraph CobCache.
From S2P Require GitIdentity.
#[local] Open Scope N_scope.

(** ** References to objects *)

Record ObjectRefs (Rf : Type) : Type := MkObjectRefs {
  or_local : option Rf;
  or_remote : list Rf;
}.
Arguments MkObjectRefs {Rf} _ _.
Arguments or_local {Rf} _.
Arguments or_remote {Rf} _.

Definition object_refs_iter {Rf} (o : ObjectRefs Rf) : list Rf := option_list (or_local o) ++ or_remote o.

Class RefsStorage (R Rf RE : Type) := {
  rs_object_references : R -> N -> String.string -> N -> result RE (ObjectRefs Rf);
  rs_type_references : R -> N -> String.string -> result RE (list (N * ObjectRefs Rf));
  rs_update_ref : N -> String.string -> N -> N -> st R RE unit;
}.

(** After an update the local reference is to the new commit. *)
Class RefsStorageLaws (R GE Rf RE : Type) `{Git2 R GE} `{GitWalk R GE Rf} `{RefsStorage R Rf RE} := {
  rs_update_ok urn ty oid new r r' c : rs_update_ref urn ty oid new r = (EOk tt, r') -> git_find_commit r new = Ok c ->
    git_grows r r' /\ exists rf remote, rs_object_references r' urn ty oid = Ok (MkObjectRefs (Some rf) remote) /\
      git_peel r' rf = Ok (new, c);
}.

(** ** Errors *)

Inductive Create (CE RE KE IE : Type) : Type :=
| InvalidAutomergeHistory
| CreateChangeError (e : CE)
| CreateRefs (e : RE)
| CreateCache (e : KE)
| CreateIo (e : IE)
| CreateSignerIsNotAuthor.
Arguments InvalidAutomergeHistory {CE RE KE IE}.
Arguments CreateChangeError {CE RE KE IE} e.
Arguments CreateRefs {CE RE KE IE} e.
Arguments CreateCache {CE RE KE IE} e.
Arguments CreateIo {CE RE KE IE} e.
Arguments CreateSignerIsNotAuthor {CE RE KE IE}.

Inductive Retrieve (GE RE KE IE : Type) : Type :=
| RetrieveChangeGraph (e : GraphError GE)
| RetrieveGit (e : GE)
| RetrieveRefs (e : RE)
| RetrieveCache (e : KE)
| RetrieveIo (e : IE).
Arguments RetrieveChangeGraph {GE RE KE IE} e.
Arguments RetrieveGit {GE RE KE IE} e.
Arguments RetrieveRefs {GE RE KE IE} e.
Arguments RetrieveCache {GE RE KE IE} e.
Arguments RetrieveIo {GE RE KE IE} e.

Inductive Update (CE GE RE KE IE : Type) : Type :=
| UpdateChangeGraph (e : GraphError GE)
| NoSuchObject
| UpdateCreateChange (e : CE)
| UpdateRefs (e : RE)
| UpdateCache (e : KE)
| UpdateGit (e : GE)
| UpdateIo (e : IE)
| UpdateSignerIsNotAuthor.
Arguments UpdateChangeGraph {CE GE RE KE IE} e.
Arguments NoSuchObject {CE GE RE KE IE}.
Arguments UpdateCreateChange {CE GE RE KE IE} e.
Arguments UpdateRefs {CE GE RE KE IE} e.
Arguments UpdateCache {CE GE RE KE IE} e.
Arguments UpdateGit {CE GE RE KE IE} e.
Arguments UpdateIo {CE GE RE KE IE} e.
Arguments UpdateSignerIsNotAuthor {CE GE RE KE IE}.

(** The conversions [load_or_materialize] asks for. *)
Class FromErrors (E GE KE : Type) := {
  from_cache : KE -> E;
  from_graph : GraphError GE -> E;
  from_git : GE -> E;
}.
#[export] Instance retrieve_from {GE RE KE IE} : FromErrors (Retrieve GE RE KE IE) GE KE :=
  {| from_cache := RetrieveCache; from_graph := RetrieveChangeGraph; from_git := RetrieveGit |}.
#[export] Instance update_from {CE GE RE KE IE} : FromErrors (Update CE GE RE KE IE) GE KE :=
  {| from_cache := UpdateCache; from_graph := UpdateChangeGraph; from_git := UpdateGit |}.

(** ** Computations that may run out of fuel *)

Definition run (W E A : Type) : Type := W -> option (eff E A * W).
#[export] Instance run_ret {W E} : MRet (run W E) := fun A a w => Some (EOk a, w).
#[export] Instance run_bind {W E} : MBind (run W E) := fun A B f m w =>
  match m w with
  | Some (EOk a, w) => f a w
  | Some (EErr e, w) => Some (EErr e, w)
  | Some (EPanic, w) => Some (EPanic, w)
  | None => None
  end.

Record World (R F : Type) : Type := MkWorld { w_repo : R; w_fs : F }.
Arguments MkWorld {R F} _ _.
Arguments w_repo {R F} _.
Arguments w_fs {R F} _.

Section Lift.
Context {R F E X : Type}.
Definition fails {A} (e : E) : run (World R F) E A := fun w => Some (EErr e, w).
Definition panics {A} : run (World R F) E A := fun w => Some (EPanic, w).
Definition of_outcome {A} (x : outcome A) : run (World R F) E A :=
  match x with Done a => mret a | Panic => panics end.
Definition on_repo {A} (f : X -> E) (m : st R X A) : run (World R F) E A := fun w =>
  let '(x, r) := m (w_repo w) in Some (eff_map_err f x, MkWorld r (w_fs w)).
Definition on_fs {A} (f : X -> E) (m : st F X A) : run (World R F) E A := fun w =>
  let '(x, s) := m (w_fs w) in Some (eff_map_err f x, MkWorld (w_repo w) s).
Definition asks {A} (f : X -> E) (g : World R F -> option (eff X A)) : run (World R F) E A := fun w =>
  match g w with Some x => Some (eff_map_err f x, w) | None => None end.
End Lift.

(** ** The operations *)

(** A verified person, as far as it is used: the identity, and its keys. *)
Record Author : Type := MkAuthor { a_id : VerifiedId; a_keys : gset N }.

Definition is_signer_for {Sig SE} (signer : GitIdentity.Signer Sig SE) (person : Author) : bool :=
  bool_decide (GitIdentity.public_key signer ∈ a_keys person).

Record CreateObjectArgs (Sig SE : Type) : Type := MkCreateArgs {
  ca_contents : EntryContents;
  ca_typename : String.string;
  ca_message : option (list N);
  ca_signer : GitIdentity.Signer Sig SE;
  ca_author : Author;
  ca_authorizing : AuthorizingIdentity;
  ca_cache_dir : option path;
}.
Arguments MkCreateArgs {Sig SE} _ _ _ _ _ _ _.
Arguments ca_contents {Sig SE} _. Arguments ca_typename {Sig SE} _. Arguments ca_message {Sig SE} _.
Arguments ca_signer {Sig SE} _. Arguments ca_author {Sig SE} _. Arguments ca_authorizing {Sig SE} _.
Arguments ca_cache_dir {Sig SE} _.

Definition change_spec {Sig SE} (args : CreateObjectArgs Sig SE) : NewChangeSpec :=
  MkSpec (ca_typename args) None (ca_message args) (ca_contents args).

Record UpdateObjectArgs (Sig SE : Type) : Type := MkUpdateArgs {
  ua_signer : GitIdentity.Signer Sig SE;
  ua_author : Author;
  ua_authorizing : AuthorizingIdentity;
  ua_cache_dir : option path;
  ua_object_id : N;
  ua_typename : String.string;
  ua_message : option (list N);
  ua_changes : EntryContents;
}.
Arguments MkUpdateArgs {Sig SE} _ _ _ _ _ _ _ _.
Arguments ua_signer {Sig SE} _. Arguments ua_author {Sig SE} _. Arguments ua_authorizing {Sig SE} _.
Arguments ua_cache_dir {Sig SE} _. Arguments ua_object_id {Sig SE} _. Arguments ua_typename {Sig SE} _.
Arguments ua_message {Sig SE} _. Arguments ua_changes {Sig SE} _.

(** [AuthorizingIdentity::content_id]. *)
Definition content_id (a : AuthorizingIdentity) : N := v_tip (auth_id a).

(** [From<Rc<RefCell<CachedChangeGraph>>> for CollaborativeObject]. *)
Definition object_of {G} (g : CachedChangeGraph G) : CollaborativeObject G :=
  MkObject (cc_urn g) (cc_typename g) (cc_history g) (cc_object_id g).

Section Api.
Context {R GE Rf RE F IE DE SE TE D E MB MH GT Sig CG G L P Q : Type}.
Context `{Git2 R GE} `{GitWalk R GE Rf} `{RefsStorage R Rf RE} `{Fs F IE} `{Cbor DE}.
Context `{Toml TE} `{KeyText Sig D} `{Nom E} `{Alphanumeric} `{Multicodec MB MH GT}.
Context `{PetGraph CG (Change Sig)} `{PetWalk CG (Change Sig)} `{PetGraph G HistoryEntry}.
Context (sig_verify : Sig -> N -> N -> bool).
Context (some_identity : R -> N -> result L SomeIdentity).
Context (verify_person : R -> N -> result P VerifiedId).
Context (verify_project : R -> N -> result Q VerifiedId).

Abbreviation W := (World R F) (only parsing).
Abbreviation CE := (ChangeCreate GE SE) (only parsing).
Abbreviation KE := (CacheError IE DE) (only parsing).
Abbreviation LE := (ChangeLoad GE TE D E MB MH GT) (only parsing).
Abbreviation load := (change_load (GE:=GE) (TE:=TE) (D:=D) (E:=E) (MB:=MB) (MH:=MH) (G:=GT) (Sig:=Sig)) (only parsing).
Abbreviation create := (change_create (R:=R) (GE:=GE) (SE:=SE) (TE:=TE) (D:=D) (E:=E) (MB:=MB) (MH:=MH) (G:=GT) (Sig:=Sig)) (only parsing).

(** The ids of the commits the references point to. *)
Definition tip_oids (r : R) (o : ObjectRefs Rf) : eff GE (gset N) :=
  ids ← eff_map (fun rf => fst <$> of_res (git_peel r rf)) (object_refs_iter o);
  EOk (list_to_set ids).

Section Materialize.
Context {X : Type} `{FromErrors X GE KE}.

(** [CobRefs::load_or_materialize]. *)
Definition load_or_materialize (fuel : nat) (cache : Cache) (refs : ObjectRefs Rf) (oid : N) (ty : String.string)
    (auth : AuthorizingIdentity) : run W X (option (CachedChangeGraph G)) :=
  tips ← asks from_git (fun w => Some (tip_oids (w_repo w) refs));
  found ← asks from_cache (fun w => cache_load fuel (w_fs w) cache oid tips);
  match found with
  | Some obj => mret (Some obj)
  | None =>
      loaded ← asks from_graph (fun w => graph_load (CG:=CG) load fuel (w_repo w) (object_refs_iter refs) auth oid);
      match loaded with
      | None => mret None
      | Some graph =>
          object ← asks (fun e : X => e) (fun w =>
            of_out <$> graph_evaluate (G:=G) sig_verify (some_identity (w_repo w)) (verify_person (w_repo w))
              (verify_project (w_repo w)) fuel graph);
          let cached := MkCached (co_history object) tips ty oid (auth_urn auth) in
          _ ← on_fs from_cache (cache_put cache (co_id object) cached);
          mret (Some cached)
      end
  end.
End Materialize.

Definition create_object (fuel : nat) (args : CreateObjectArgs Sig SE) :
    run W (Create CE RE KE IE) (CollaborativeObject G) :=
  let auth := ca_authorizing args in
  if negb (is_signer_for (ca_signer args) (ca_author args)) then fails CreateSignerIsNotAuthor
  else
    init_change ← on_repo CreateChangeError
      (create (content_id auth) (v_tip (a_id (ca_author args))) (ca_signer args) (change_spec args));
    history ← asks (fun e => e) (fun _ =>
      of_out <$> new_from_root fuel (ch_commit init_change) (v_urn (a_id (ca_author args))) (ca_contents args));
    let object_id := ch_commit init_change in
    _ ← on_repo CreateRefs (rs_update_ref (auth_urn auth) (ca_typename args) object_id (ch_commit init_change));
    cache ← on_fs CreateIo (open_cache (ca_cache_dir args));
    let cached_graph :=
      cached_new [author_commit init_change] history (ca_typename args) object_id (auth_urn auth) in
    _ ← on_fs CreateCache (cache_put cache (ch_commit init_change) cached_graph);
    mret (MkObject (auth_urn auth) (ca_typename args) (cc_history cached_graph) (ch_commit init_change)).

Definition retrieve (fuel : nat) (auth : AuthorizingIdentity) (ty : String.string) (oid : N) (cache_dir : option path) :
    run W (Retrieve GE RE KE IE) (option (CollaborativeObject G)) :=
  tip_refs ← asks RetrieveRefs (fun w => Some (of_res (rs_object_references (w_repo w) (auth_urn auth) ty oid)));
  cache ← on_fs RetrieveIo (open_cache cache_dir);
  tg ← load_or_materialize fuel cache tip_refs oid ty auth;
  mret (object_of <$> tg).

(** The loop over the objects in [list]. *)
Fixpoint list_objects (fuel : nat) (cache : Cache) (auth : AuthorizingIdentity) (ty : String.string)
    (references : list (N * ObjectRefs Rf)) (result : list (CollaborativeObject G)) :
    run W (Retrieve GE RE KE IE) (list (CollaborativeObject G)) :=
  match references with
  | [] => mret result
  | (oid, tip_refs) :: references =>
      loaded ← load_or_materialize fuel cache tip_refs oid ty auth;
      match loaded with
      | Some obj => list_objects fuel cache auth ty references (result ++ [object_of obj])
      | None => list_objects fuel cache auth ty references result
      end
  end.

Definition list_all (fuel : nat) (auth : AuthorizingIdentity) (ty : String.string) (cache_dir : option path) :
    run W (Retrieve GE RE KE IE) (list (CollaborativeObject G)) :=
  references ← asks RetrieveRefs (fun w => Some (of_res (rs_type_references (w_repo w) (auth_urn auth) ty)));
  cache ← on_fs RetrieveIo (open_cache cache_dir);
  list_objects fuel cache auth ty references [].

Definition update (fuel : nat) (args : UpdateObjectArgs Sig SE) :
    run W (Update CE GE RE KE IE) (CollaborativeObject G) :=
  let auth := ua_authorizing args in
  if negb (is_signer_for (ua_signer args) (ua_author args)) then fails UpdateSignerIsNotAuthor
  else
    existing_refs ← asks UpdateRefs (fun w =>
      Some (of_res (rs_object_references (w_repo w) (auth_urn auth) (ua_typename args) (ua_object_id args))));
    previous_ref ← asks UpdateGit (fun w => Some
      (match or_local existing_refs with
       | Some local => (fun c => Some c.1) <$> of_res (git_peel (w_repo w) local)
       | None => EOk None
       end));
    cache ← on_fs UpdateIo (open_cache (ua_cache_dir args));
    found ← load_or_materialize fuel cache existing_refs (ua_object_id args) (ua_typename args) auth;
    cached ← (match found with Some c => mret c | None => fails NoSuchObject end);
    change ← on_repo UpdateCreateChange
      (create (content_id auth) (v_tip (a_id (ua_author args))) (ua_signer args)
        (MkSpec (ua_typename args) (Some (bset_iter (cc_refs cached))) (ua_message args) (ua_changes args)));
    cached ← of_outcome
      (cached_update_ref cached previous_ref (ch_commit change) (v_urn (a_id (ua_author args))) (ua_changes args));
    _ ← on_fs UpdateCache (cache_put cache (ua_object_id args) cached);
    _ ← on_repo UpdateRefs
      (rs_update_ref (auth_urn auth) (ua_typename args) (ua_object_id args) (ch_commit change));
    mret (object_of cached).

Record ChangeGraphInfo : Type := MkInfo { gi_object_id : N; gi_number_of_nodes : N; gi_tips : gset N }.

(** [changegraph_info_for_object], without the drawing of the graph. *)
Definition changegraph_info_for_object (fuel : nat) (auth : AuthorizingIdentity) (ty : String.string) (oid : N) :
    run W (Retrieve GE RE KE IE) (option ChangeGraphInfo) :=
  tip_refs ← asks RetrieveRefs (fun w => Some (of_res (rs_object_references (w_repo w) (auth_urn auth) ty oid)));
  loaded ← asks RetrieveChangeGraph (fun w =>
    graph_load (CG:=CG) load fuel (w_repo w) (object_refs_iter tip_refs) auth oid);
  match loaded with
  | Some graph =>
      tips ← of_outcome (graph_tips graph);
      mret (Some (MkInfo oid (number_of_nodes graph) tips))
  | None => mret None
  end.
End Api.

(** ** Running *)

Section RunLemmas.
Context {R F E X : Type}.

Lemma run_bind_ok {A B} (m : run (World R F) E A) (f : A -> run (World R F) E B) w b w' :
  (m ≫= f) w = Some (EOk b, w') <-> exists a w1, m w = Some (EOk a, w1) /\ f a w1 = Some (EOk b, w').
Proof.
  unfold mbind, run_bind. destruct (m w) as [[[a|e|] w1]|].
  - split; [eauto|]. by intros (? & ? & [= <- <-] & ?).
  - split; [done|]. by intros (? & ? & ? & ?).
  - split; [done|]. by intros (? & ? & ? & ?).
  - split; [done|]. by intros (? & ? & ? & ?).
Qed.

(** One step of a run. *)
Lemma run_step {A B} (m : run (World R F) E A) (f : A -> run (World R F) E B) w a w1 :
  m w = Some (EOk a, w1) -> (m ≫= f) w = f a w1.
Proof. intros Hm. unfold mbind, run_bind. by rewrite Hm. Qed.
Lemma asks_step {A} (f : X -> E) (g : World R F -> option (eff X A)) w a :
  g w = Some (EOk a) -> asks f g w = Some (EOk a, w).
Proof. intros Hg. unfold asks. by rewrite Hg. Qed.

Lemma on_repo_ok {A} (f : X -> E) (m : st R X A) w a w' :
  on_repo (F:=F) f m w = Some (EOk a, w') <-> m (w_repo w) = (EOk a, w_repo w') /\ w_fs w' = w_fs w.
Proof. unfold on_repo. destruct (m (w_repo w)) as [[]], w'; cbn; naive_solver. Qed.

Lemma on_fs_ok {A} (f : X -> E) (m : st F X A) w a w' :
  on_fs (R:=R) f m w = Some (EOk a, w') <-> m (w_fs w) = (EOk a, w_fs w') /\ w_repo w' = w_repo w.
Proof. unfold on_fs. destruct (m (w_fs w)) as [[]], w'; cbn; naive_solver. Qed.

Lemma asks_ok {A} (f : X -> E) (g : World R F -> option (eff X A)) w a w' :
  asks f g w = Some (EOk a, w') <-> g w = Some (EOk a) /\ w' = w.
Proof. unfold asks. destruct (g w) as [[]|]; cbn; naive_solver. Qed.

Lemma of_outcome_ok {A} (x : outcome A) (w : World R F) a w' :
  of_outcome (E:=E) x w = Some (EOk a, w') <-> x = Done a /\ w' = w.
Proof. destruct x; cbn; unfold mret, run_ret, panics; naive_solver. Qed.
End RunLemmas.

(** ** Retrieving *)

Section ApiProofs.
Context {R GE Rf RE F IE DE SE TE D E MB MH GT Sig CG G L P Q : Type}.
Context `{G2 : Git2 R GE} `{G2L : !Git2Laws R GE} `{GW : !GitWalk R GE Rf} `{GWL : !GitWalkLaws R GE Rf}.
Context `{RS : RefsStorage R Rf RE} `{FS : Fs F IE} `{FSL : !FsLaws F IE} `{CB : Cbor DE} `{CBL : !CborLaws DE}.
Context `{TM : Toml TE} `{KT : KeyText Sig D} `{KTL : !KeyTextLaws Sig D} `{NM : Nom E} `{NML : !NomLaws E} `{AN : Alphanumeric}.
Context `{MC : Multicodec MB MH GT} `{MCL : !MulticodecLaws MB MH GT}.
Context `{PG : PetGraph CG (Change Sig)} `{PGL : !PetGraphLaws CG (Change Sig)}.
Context `{PW : !PetWalk CG (Change Sig)} `{PWL : !PetWalkLaws CG (Change Sig)}.
Context `{HG : PetGraph G HistoryEntry} `{HGL : !PetGraphLaws G HistoryEntry}.
Context (sig_verify : Sig -> N -> N -> bool).
Context (some_identity : R -> N -> result L SomeIdentity).
Context (verify_person : R -> N -> result P VerifiedId).
Context (verify_project : R -> N -> result Q VerifiedId).

Abbreviation load := (change_load (GE:=GE) (TE:=TE) (D:=D) (E:=E) (MB:=MB) (MH:=MH) (G:=GT) (Sig:=Sig)) (only parsing).
Abbreviation create := (change_create (R:=R) (GE:=GE) (SE:=SE) (TE:=TE) (D:=D) (E:=E) (MB:=MB) (MH:=MH) (G:=GT) (Sig:=Sig)) (only parsing).
Abbreviation materialize Y := (load_or_materialize (X:=Y) (TE:=TE) (D:=D) (E:=E) (MB:=MB) (MH:=MH) (GT:=GT) (DE:=DE) (IE:=IE)
  (CG:=CG) (G:=G) sig_verify some_identity verify_person verify_project) (only parsing).

Lemma change_load_id r id commit c : load r id commit = Ok c -> ch_commit c = id.
Proof using.
  unfold change_load. intros Hl.
  repeat match goal with H : mbind _ _ = Ok _ |- _ => apply res_bind_ok in H as (? & ? & H) end. by injection Hl as <-.
Qed.

Lemma tip_oids_ok r refs s :
  tip_oids r refs = EOk s <-> exists ids, Forall2 (peels r) (object_refs_iter refs) ids /\ s = list_to_set ids.
Proof using.
  unfold tip_oids. rewrite eff_bind_ok. setoid_rewrite eff_map_ok.
  assert (forall rf id, fst <$> of_res (git_peel r rf) = EOk (E:=GE) id <-> peels r rf id) as Hp.
  { intros rf id. unfold peels. destruct (git_peel r rf) as [[id' c]|]; cbn.
    - split; [intros [= <-]; eauto|by intros (c' & [= <- _])].
    - split; [done|by intros (c' & ?)]. }
  split.
  - intros (ids & Hids & [= <-]). exists ids. split; [|done]. eapply Forall2_impl; [exact Hids|]. intros. by apply Hp.
  - intros (ids & Hids & ->). exists ids. split; [|done]. eapply Forall2_impl; [exact Hids|]. intros. by apply Hp.
Qed.

Lemma graph_load_fields fuel r refs auth oid g :
  graph_load (CG:=CG) load fuel r refs auth oid = Some (EOk (Some g)) -> cg_object_id g = oid /\ cg_authorizing g = auth.
Proof using.
  unfold graph_load. destruct (eff_fold _ _ _) as [[b es]|e|]; [|done..].
  destruct (load_loop _ _ _ _ _) as [[b'|]|]; [|done..]. unfold build. destruct (pg_sources _); [done|]. by intros [= <-].
Qed.

Lemma graph_evaluate_fields fuel r (g : ChangeGraph CG) (o : CollaborativeObject G) :
  graph_evaluate sig_verify (some_identity r) (verify_person r) (verify_project r) fuel g = Some (Done o) ->
  rebuildable (co_history o) /\ co_id o = cg_object_id g.
Proof using.
  unfold graph_evaluate. destruct (_ ≫= _) as [[c items]|]; [|done].
  destruct (evaluate _ _ _ _ _ _ _ _) as [[h|]|] eqn:He; [|done..]. intros [= <-]. cbn. split; [|done].
  unfold evaluate in He. destruct (history_new _ _ _) as [[[h'|]|]|] eqn:Hh; [|done..]. injection He as ->.
  exists fuel, h. unfold history_new in *. destruct (_ !! ch_commit c) eqn:Hc; [|done].
  destruct (create_petgraph _ _ _) as [[[g' ixs]|]|] eqn:Hcp; [|done..]. injection Hh as <-. cbn. by rewrite Hc, Hcp.
Qed.

(** *** What an operation finds *)

(** The changes that are found can all be accepted. *)
Abbreviation accepted r := (all_accepted load sig_verify (some_identity r) (verify_person r) (verify_project r) r) (only parsing).

(** The history is made from the changes found from the tips. *)
Abbreviation made_from r := (history_of load sig_verify (some_identity r) (verify_person r) (verify_project r) r) (only parsing).

Lemma materialize_miss {X} `{FE : FromErrors X GE (CacheError IE DE)} w cache refs ids oid ty auth rank :
  Forall2 (peels (w_repo w)) (object_refs_iter refs) ids -> commits_ranked (w_repo w) rank ->
  accepted (w_repo w) auth ids ->
  (exists n, forall fuel, (n <= fuel)%nat -> cache_load (G:=G) fuel (w_fs w) cache oid (list_to_set ids) = Some (EOk (E:=CacheError IE DE) None)) ->
  exists n og, (forall fuel, (n <= fuel)%nat ->
      materialize X fuel cache refs oid ty auth w =
      match og with
      | Some g => (_ ← on_fs from_cache (cache_put cache oid g); mret (Some g)) w
      | None => Some (EOk None, w)
      end) /\
    match og with
    | Some g => made_from (w_repo w) auth ids (cc_history g) /\ cc_refs g = list_to_set ids /\
        cc_typename g = ty /\ cc_object_id g = oid /\ cc_urn g = auth_urn auth
    | None => forall id, ~ reached load (w_repo w) ids id
    end.
Proof.
  intros Hrefs Hrank Hacc [n1 Hc].
  destruct (loads_exactly (CG:=CG) load change_load_id (w_repo w) rank _ ids auth oid Hrank Hrefs) as (n2 & og & Hl & Hog).
  assert (tip_oids (w_repo w) refs = EOk (list_to_set ids)) as Htips by (apply tip_oids_ok; eauto).
  assert (forall fuel, (n1 <= fuel)%nat -> (n2 <= fuel)%nat -> materialize X fuel cache refs oid ty auth w =
    match og with
    | Some g => (object ← asks (fun e : X => e) (fun w =>
            of_out <$> graph_evaluate (G:=G) sig_verify (some_identity (w_repo w)) (verify_person (w_repo w))
              (verify_project (w_repo w)) fuel g);
          _ ← on_fs from_cache (cache_put cache (co_id object) (MkCached (co_history object) (list_to_set ids) ty oid (auth_urn auth)));
          mret (Some (MkCached (co_history object) (list_to_set ids) ty oid (auth_urn auth)))) w
    | None => Some (EOk None, w)
    end) as Hrun.
  { intros fuel Hf1 Hf2. unfold load_or_materialize.
    rewrite (run_step _ _ _ _ _ (asks_step _ _ _ _ (f_equal Some Htips))).
    rewrite (run_step _ _ _ _ _ (asks_step _ _ _ _ (Hc _ Hf1))).
    rewrite (run_step _ _ _ _ _ (asks_step _ _ _ _ (Hl _ Hf2))). by destruct og. }
  destruct og as [g|]; [|exists (n1 + n2)%nat, None; split; [intros fuel Hfuel; apply Hrun; lia|done]].
  destruct Hog as (Hg & Hne & Hoid & Hauth).
  destruct (evaluates_exactly (G:=G) load change_load_id sig_verify (some_identity (w_repo w)) (verify_person (w_repo w))
    (verify_project (w_repo w)) (w_repo w) rank ids g Hrank Hg Hne) as (n3 & o & He & Hh & Hid & Hurn); [by rewrite Hauth|].
  exists (n1 + n2 + n3)%nat, (Some (MkCached (co_history o) (list_to_set ids) ty oid (auth_urn auth))).
  split; [|by rewrite Hauth in Hh].
  intros fuel Hfuel. rewrite Hrun by lia.
  erewrite run_step; [|apply asks_step; rewrite He by lia; reflexivity]. by rewrite Hid, Hoid.
Qed.

Abbreviation retr := (retrieve (TE:=TE) (D:=D) (E:=E) (MB:=MB) (MH:=MH) (GT:=GT) (RE:=RE) (F:=F) (DE:=DE) (IE:=IE)
  (CG:=CG) (G:=G) sig_verify some_identity verify_person verify_project) (only parsing).

(** Without a cache. *)
Lemma retrieves_exactly w auth ty oid refs ids rank :
  rs_object_references (w_repo w) (auth_urn auth) ty oid = Ok refs ->
  Forall2 (peels (w_repo w)) (object_refs_iter refs) ids -> commits_ranked (w_repo w) rank ->
  accepted (w_repo w) auth ids ->
  exists n oo, (forall fuel, (n <= fuel)%nat -> retr fuel auth ty oid None w = Some (EOk oo, w)) /\
    match oo with
    | Some o => made_from (w_repo w) auth ids (co_history o) /\ co_id o = oid /\ co_typename o = ty /\
        co_authorizing_urn o = auth_urn auth
    | None => forall id, ~ reached load (w_repo w) ids id
    end.
Proof.
  intros Href Hrefs Hrank Hacc.
  destruct (materialize_miss (X:=Retrieve GE RE (CacheError IE DE) IE) w NoOpCache refs ids oid ty auth rank Hrefs Hrank Hacc)
    as (n & og & Hm & Hog); [by exists 0%nat|].
  exists n, (object_of <$> og). split.
  - intros fuel Hfuel. unfold retrieve. erewrite run_step; [|apply asks_step; by rewrite Href].
    erewrite run_step; [|reflexivity]. destruct w as [r f]. cbn [w_repo w_fs].
    erewrite run_step; [|rewrite (Hm _ Hfuel); destruct og; reflexivity]. by destruct og.
  - destruct og as [g|]; [|done]. destruct Hog as (Hh & _ & Hty & Hoid & Hurn). done.
Qed.

(** *** The cache *)

Lemma cache_load_mono fuel fuel' (w : F) cache oid known x : (fuel <= fuel')%nat ->
  cache_load (G:=G) fuel w cache oid known = Some (EOk (E:=CacheError IE DE) x) ->
  cache_load (G:=G) fuel' w cache oid known = Some (EOk (E:=CacheError IE DE) x).
Proof.
  intros Hle. destruct cache as [dir|]; [|done]. cbn [cache_load]. destruct (fs_read w _); [|done].
  unfold cached_decode. destruct (cbor_history _) as [[raw bs]|]; [|done]. unfold history_new.
  destruct (raw_entries raw !! raw_root raw) as [e|] eqn:He; [|done]. unfold create_petgraph. rewrite He.
  destruct (pg_add_node pg_new e). destruct (create_loop fuel _ _) as [o|] eqn:Hl; [|done].
  by rewrite (create_loop_mono _ _ _ _ _ Hl Hle).
Qed.

(** [materialize_cached]: an object that was found with a cache, whether in the cache or by
    evaluating its changes, is found in the cache the next time, as long as its references
    are the same: with the same history, and without changing anything. *)
Theorem materialize_cached {X : Type} {FE : FromErrors X GE (CacheError IE DE)} (fuel : nat) (dir : path)
    (refs : ObjectRefs Rf) (oid : N) (ty : String.string) (auth : AuthorizingIdentity) (w w1 : World R F)
    (g : CachedChangeGraph G)
    (Hm : materialize X fuel (FileSystemCache dir) refs oid ty auth w = Some (EOk (Some g), w1))
    (Hty : typename_from_str ty = Ok ty) :
  w_repo w1 = w_repo w /\ exists n g', same_cached g g' /\ forall fuel', (n <= fuel')%nat ->
    materialize X fuel' (FileSystemCache dir) refs oid ty auth w1 = Some (EOk (Some g'), w1).
Proof.
  unfold load_or_materialize in Hm.
  apply run_bind_ok in Hm as (tips & w' & [Htips ->]%asks_ok & Hm). injection Htips as Htips.
  apply run_bind_ok in Hm as (found & w' & [Hfound ->]%asks_ok & Hm).
  assert (forall n g' w2, w_repo w2 = w_repo w -> (forall fuel', (n <= fuel')%nat ->
    cache_load fuel' (w_fs w2) (FileSystemCache dir) oid tips = Some (EOk (E:=CacheError IE DE) (Some g'))) ->
    forall fuel', (n <= fuel')%nat ->
    materialize X fuel' (FileSystemCache dir) refs oid ty auth w2 = Some (EOk (Some g'), w2)) as Hhit.
  { intros n g' w2 Hr Hl fuel' Hf. unfold load_or_materialize. erewrite run_step; [|apply asks_step; by rewrite Hr, Htips].
    by erewrite run_step; [|apply asks_step, Hl, Hf]. }
  destruct found as [obj|].
  - injection Hm as <- <-. split; [done|]. exists fuel, obj. split; [done|].
    apply Hhit; [done|]. intros fuel' Hf. by apply (cache_load_mono fuel).
  - apply run_bind_ok in Hm as (og & w' & [Hg ->]%asks_ok & Hm). destruct og as [cg|]; [|done].
    apply run_bind_ok in Hm as (o & w' & [Ho ->]%asks_ok & Hm).
    apply run_bind_ok in Hm as ([] & w2 & [Hput Hr]%on_fs_ok & [= <- <-]). split; [done|].
    apply graph_load_fields in Hg as [Hoid _].
    destruct (graph_evaluate _ _ _ _ fuel cg) as [[o'|]|] eqn:He; [|done..]. injection Ho as ->.
    apply graph_evaluate_fields in He as [Hre Hid]. rewrite Hid, Hoid in Hput.
    destruct (stored_found _ _ _ _ _ tips Hput) as (n & g' & Hl & Hsame); [done..|].
    exists n, g'. split; [done|]. apply Hhit; [done|]. intros fuel' Hf. rewrite (Hl _ Hf).
    by rewrite bool_decide_eq_true_2.
Qed.

(** *** Creating *)
Context `{RSL : !RefsStorageLaws R GE Rf RE}.
Abbreviation crea := (create_object (GE:=GE) (RE:=RE) (TE:=TE) (D:=D) (E:=E) (MB:=MB) (MH:=MH) (GT:=GT) (F:=F) (DE:=DE) (IE:=IE)
  (Sig:=Sig) (SE:=SE) (G:=G)) (only parsing).

Lemma new_from_root_history fuel id a contents (h : History G) : new_from_root fuel id a contents = Some (Done h) ->
  h_root h = id /\ entries h = {[ id := MkEntry id a [] contents ]} /\ rebuildable h.
Proof.
  unfold new_from_root. destruct (create_petgraph _ _ _) as [[[g ixs]|]|] eqn:Hc; [|done..]. intros [= <-].
  split_and!; [done..|]. exists fuel. eexists. cbn. unfold history_new. by rewrite lookup_singleton_eq, Hc.
Qed.

(** What an object that was created looks like. *)
Lemma object_created fuel args w o w1 : crea fuel args w = Some (EOk o, w1) ->
  let a := ca_author args in let auth := ca_authorizing args in
  is_signer_for (ca_signer args) a = true /\
  exists c r1 h cache s,
    create (content_id auth) (v_tip (a_id a)) (ca_signer args) (change_spec args) (w_repo w) = (EOk c, r1) /\
    rs_update_ref (auth_urn auth) (ca_typename args) (ch_commit c) (ch_commit c) r1 = (EOk tt, w_repo w1) /\
    new_from_root fuel (ch_commit c) (v_urn (a_id a)) (ca_contents args) = Some (Done h) /\
    open_cache (ca_cache_dir args) (w_fs w) = (EOk cache, s) /\
    cache_put (DE:=DE) cache (ch_commit c)
      (cached_new [author_commit c] h (ca_typename args) (ch_commit c) (auth_urn auth)) s = (EOk tt, w_fs w1) /\
    o = MkObject (auth_urn auth) (ca_typename args) h (ch_commit c).
Proof.
  unfold create_object. cbn zeta. destruct (is_signer_for _ _); [|done]. cbn [negb]. intros Hc. split; [done|].
  apply run_bind_ok in Hc as (c & w2 & [Hcreate Hfs2]%on_repo_ok & Hc).
  apply run_bind_ok in Hc as (h & w3 & [Hh ->]%asks_ok & Hc).
  apply run_bind_ok in Hc as ([] & w4 & [Hup Hfs4]%on_repo_ok & Hc).
  apply run_bind_ok in Hc as (cache & w5 & [Hopen Hr5]%on_fs_ok & Hc).
  apply run_bind_ok in Hc as ([] & w6 & [Hput Hr6]%on_fs_ok & [= <- <-]).
  destruct (new_from_root _ _ _ _) as [[h'|]|] eqn:Hnew; [|done..]. injection Hh as ->.
  exists c, (w_repo w2), h, cache, (w_fs w5). rewrite Hr6, Hr5. rewrite Hfs4, Hfs2 in Hopen. done.
Qed.

(** The change is the only one that is found from its commit. *)
Lemma first_change_alone r id commit c : git_find_commit r id = Ok commit -> load r id commit = Ok c ->
  (forall p, p ∈ gc_parents commit -> is_role c p = true) -> forall k, reached load r [id] k <-> k = id.
Proof.
  intros Hf Hl Hroles k. split.
  - induction 1 as [k ->%list_elem_of_singleton _|c' p _ -> (commit' & ch & Hf' & Hl' & Hin & Hrole)]; [done|].
    rewrite Hf in Hf'. injection Hf' as <-. rewrite Hl in Hl'. injection Hl' as <-.
    apply list_elem_of_fmap in Hin as ([p' pc] & -> & [Hp _]%git_parents_found). by rewrite Hroles in Hrole.
  - intros ->. apply reached_tip; [left|]. by rewrite (loaded_ok load r _ _ _ Hf Hl).
Qed.

(** The author of a new change is accepted, as the repository is afterwards. *)
Record author_accepted (r : R) (auth : AuthorizingIdentity) (a : Author) (signer : GitIdentity.Signer Sig SE) : Prop := {
  aa_sign rev key sig : GitIdentity.sign signer rev = Ok (key, sig) -> sig_verify sig rev key = true;
  aa_auth : exists auth' p,
    lookup_authorizing_identity (P:=P) (Q:=Q) (some_identity r) (verify_person r) (verify_project r) (content_id auth) = Ok auth' /\
    auth_urn auth' = auth_urn auth /\
    lookup_person (L:=L) (Q:=Q) (verify_person r) (v_tip (a_id a)) = Ok (Some p) /\ v_urn p = v_urn (a_id a) /\
    check_authorization auth' p = Authorized;
}.

Lemma new_change_accepted r auth a signer c cs : author_accepted r auth a signer ->
  author_commit c = v_tip (a_id a) -> authorizing_identity_commit c = content_id auth ->
  (exists key sig, GitIdentity.sign signer (ch_revision c) = Ok (key, sig) /\ ch_signatures c = {[ key := sig ]}) ->
  evaluate_change sig_verify (some_identity r) (verify_person r) (verify_project r) auth c cs =
    Ok (MkEntry (ch_commit c) (v_urn (a_id a)) cs (ch_contents c)).
Proof.
  intros [Hsign (auth' & p & Ha & Hurn & Hp & Hpu & Hok)] Hac Haic (key & sig & Hs & Hsigs).
  unfold evaluate_change.
  assert (valid_signatures sig_verify c = true) as ->.
  { apply forallb_forall. intros [k s] Hin%list_elem_of_In%elem_of_btree_iter. rewrite Hsigs in Hin.
    apply lookup_singleton_Some in Hin as [<- <-]. by apply Hsign. }
  cbn [negb]. rewrite Haic, Ha. cbn. rewrite bool_decide_eq_false_2 by tauto. rewrite Hac, Hp. cbn. by rewrite Hok, Hpu.
Qed.

(** C18 [create_retrieve]: an object that was created can be retrieved, with the history, the
    type and the id that [create_object] returned: one entry, with the contents given, by
    the author.  The author must be one that evaluation accepts, nobody else may refer to
    the new object, and the message must not end with an odd number of line feeds. *)
Theorem create_retrieve (fuel : nat) (args : CreateObjectArgs Sig SE) (w w1 : World R F) (o : CollaborativeObject G)
    (rank : N -> nat)
    (Hcr : crea fuel args w = Some (EOk o, w1))
    (Hodd : odd_newlines (strip_newlines (default default_message (ca_message args))) = false)
    (Hacc : author_accepted (w_repo w1) (ca_authorizing args) (ca_author args) (ca_signer args))
    (Hrank : commits_ranked (w_repo w1) rank)
    (Hremote : forall refs,
      rs_object_references (w_repo w1) (auth_urn (ca_authorizing args)) (ca_typename args) (co_id o) = Ok refs ->
      or_remote refs = []) :
  exists n o', (forall fuel', (n <= fuel')%nat ->
      retr fuel' (ca_authorizing args) (ca_typename args) (co_id o) None w1 = Some (EOk (Some o'), w1)) /\
    entries (co_history o) = {[ co_id o := MkEntry (co_id o) (v_urn (a_id (ca_author args))) [] (ca_contents args) ]} /\
    h_root (co_history o) = co_id o /\ co_typename o = ca_typename args /\
    co_id o' = co_id o /\ co_typename o' = co_typename o /\ co_authorizing_urn o' = co_authorizing_urn o /\
    h_root (co_history o') = h_root (co_history o) /\ entries (co_history o') = entries (co_history o).
Proof.
  apply object_created in Hcr as (_ & c & r1 & h & cache & s & Hc & Hup & Hh & _ & _ & ->). cbn [co_id] in *.
  apply new_from_root_history in Hh as (Hroot & Hes & _).
  apply created in Hc as (Hg & (Hau & Haut & Hsch & Hcont & _) & Hsig & commit & Hf & Hpar & Hl).
  cbn [change_spec spec_message spec_tips spec_contents] in *.
  destruct (load r1 (ch_commit c) commit) as [c'|] eqn:Hload; [|by destruct Hl; congruence]. destruct Hl as [_ ->].
  destruct (rs_update_ok _ _ _ _ _ _ _ Hup Hf) as (Hg2 & rf & remote & Hrefs & Hpeel).
  apply (change_load_grows _ _ _ _ _ Hg2) in Hload. apply (proj2 (proj2 Hg2)) in Hf.
  pose proof (Hremote _ Hrefs) as Hrem. cbn in Hrem. subst remote.
  assert (forall k, reached load (w_repo w1) [ch_commit c] k <-> k = ch_commit c) as Hreach.
  { apply (first_change_alone _ _ commit c Hf Hload). intros p. rewrite Hpar. cbn.
    unfold is_role. rewrite Hau, Haut. rewrite !orb_true_iff, !bool_decide_eq_true.
    intros [->|[->|[]%elem_of_nil]%elem_of_cons]%elem_of_cons; auto. }
  pose proof (loaded_ok load _ _ _ _ Hf Hload) as Hlc.
  destruct (retrieves_exactly w1 (ca_authorizing args) (ca_typename args) (ch_commit c) _ [ch_commit c] rank Hrefs)
    as (n & oo & Hret & Hoo); [|done| |].
  - constructor; [by eexists|constructor].
  - intros k x ->%Hreach. rewrite Hlc. intros [= <-]. by erewrite new_change_accepted.
  - destruct oo as [o'|]; [|by destruct (Hoo (ch_commit c)); apply Hreach]. destruct Hoo as (Hho & Hid & Hty & Hurn).
    exists n, o'. cbn [co_history co_typename co_authorizing_urn]. split_and!; try done.
    + destruct Hho as [_ _ [->%Hreach _]]. done.
    + rewrite Hes. apply map_eq. intros k. destruct (decide (k = ch_commit c)) as [->|Hne].
      * rewrite lookup_singleton_eq. destruct (proj2 (ho_dom _ _ _ _ _ _ _ _ _ Hho (ch_commit c))) as [e He]; [by apply Hreach|].
        rewrite He. destruct (ho_entry _ _ _ _ _ _ _ _ _ Hho _ _ He) as (x & Hx & _ & _ & Hev & Hch).
        rewrite Hlc in Hx. injection Hx as <-.
        assert (children e = []) as Hnil.
        { destruct (children e) as [|y ys]; [done|]. destruct (proj1 (Hch y)) as [->%Hreach Hd]; [left|].
          exfalso. apply (depends_rank _ _ rank) in Hd; [lia|done]. }
        rewrite Hnil in Hev. erewrite new_change_accepted in Hev; [|done..]. injection Hev as <-. by rewrite Hcont.
      * rewrite lookup_singleton_ne by done. apply eq_None_not_Some. by intros ?%(ho_dom _ _ _ _ _ _ _ _ _ Hho)%Hreach.
Qed.

(** [retrieve_exact]: retrieving an object gives a history of exactly the changes that can be
    loaded and are reached from the references to the object, each with what evaluation
    makes of it and with the changes that depend on it as its children, when evaluation
    accepts them all; it gives nothing exactly when there is no such change. *)
Theorem retrieve_exact (w : World R F) (auth : AuthorizingIdentity) (ty : String.string) (oid : N)
    (refs : ObjectRefs Rf) (ids : list N) (rank : N -> nat)
    (Hrefs : rs_object_references (w_repo w) (auth_urn auth) ty oid = Ok refs)
    (Hids : Forall2 (peels (w_repo w)) (object_refs_iter refs) ids)
    (Hrank : commits_ranked (w_repo w) rank) (Hacc : accepted (w_repo w) auth ids) :
  exists n oo, (forall fuel, (n <= fuel)%nat -> retr fuel auth ty oid None w = Some (EOk oo, w)) /\
    match oo with
    | Some o => made_from (w_repo w) auth ids (co_history o) /\ co_id o = oid /\ co_typename o = ty
    | None => forall id, ~ reached load (w_repo w) ids id
    end.
Proof.
  destruct (retrieves_exactly w auth ty oid refs ids rank Hrefs Hids Hrank Hacc) as (n & oo & Hret & Hoo).
  exists n, oo. split; [done|]. destruct oo; [|done]. by destruct Hoo as (? & ? & ? & _).
Qed.

(** [create_cache_stale]: what [create_object] puts in the cache is never used: it is filed
    under the commit of the author's identity instead of that of the new change, so that
    looking the object up with the reference that was just written misses. *)
Theorem create_cache_stale (fuel : nat) (args : CreateObjectArgs Sig SE) (dir : path) (w w1 : World R F)
    (o : CollaborativeObject G) (rank : N -> nat)
    (Hcr : crea fuel args w = Some (EOk o, w1)) (Hdir : ca_cache_dir args = Some dir)
    (Hty : typename_from_str (ca_typename args) = Ok (ca_typename args)) (Hrank : commits_ranked (w_repo w1) rank) :
  exists n, forall fuel', (n <= fuel')%nat ->
    cache_load (G:=G) fuel' (w_fs w1) (FileSystemCache (dir ++ [str "v1"])) (co_id o) {[ co_id o ]} =
      Some (EOk (E:=CacheError IE DE) None).
Proof.
  apply object_created in Hcr as (_ & c & r1 & h & cache & s & Hc & Hup & Hh & Hopen & Hput & ->). cbn [co_id] in *.
  apply new_from_root_history in Hh as (_ & _ & Hre).
  apply created in Hc as (Hg & (Hau & _) & _ & commit & Hf & Hpar & _).
  destruct (rs_update_ok _ _ _ _ _ _ _ Hup Hf) as (Hg2 & _). apply (proj2 (proj2 Hg2)) in Hf.
  rewrite Hdir in Hopen. unfold open_cache, fs_cache_open in Hopen. revert Hopen. generalize (str "v1"). intros v Hopen. apply st_bind_ok in Hopen as (w' & s' & [= <- <-] & Hopen).
  apply st_bind_ok in Hopen as ([] & s'' & _ & [= <- <-]).
  destruct (stored_found _ _ _ _ _ {[ ch_commit c ]} Hput Hre Hty) as (n & g' & Hl & _).
  exists n. intros fuel' Hf'. rewrite (Hl _ Hf'), bool_decide_eq_false_2; [done|].
  cbn [cached_new cc_refs list_to_set]. intros Heq.
  assert (author_commit c ∈ ({[ ch_commit c ]} : gset N)) as Hbad%elem_of_singleton
    by (rewrite Heq; apply elem_of_union_l, elem_of_singleton_2; reflexivity).
  specialize (Hrank _ _ (v_tip (a_id (ca_author args))) Hf). rewrite Hpar, <- Hbad, Hau in Hrank.
  assert (rank (v_tip (a_id (ca_author args))) < rank (v_tip (a_id (ca_author args))))%nat; [|lia].
  apply Hrank, elem_of_app. right. right. left.
Qed.

Abbreviation upd := (update (GE:=GE) (RE:=RE) (TE:=TE) (D:=D) (E:=E) (MB:=MB) (MH:=MH) (GT:=GT) (F:=F) (DE:=DE) (IE:=IE)
  (Sig:=Sig) (SE:=SE) (CG:=CG) (G:=G) sig_verify some_identity verify_person verify_project) (only parsing).

(** [update_appends]: an update adds one change: its commit has the references the object was
    found with as parents, besides the identities; the history it returns has it as
    a new entry below the entries that had no children, and is otherwise the one that was
    found; and the local reference to the object is to the new commit afterwards. *)
Theorem update_appends (fuel : nat) (args : UpdateObjectArgs Sig SE) (w w1 : World R F) (o : CollaborativeObject G)
    (Hup : upd fuel args w = Some (EOk o, w1)) :
  let auth := ua_authorizing args in let a := ua_author args in
  is_signer_for (ua_signer args) a = true /\
  exists refs cache g w0 w2 k commit,
    rs_object_references (w_repo w) (auth_urn auth) (ua_typename args) (ua_object_id args) = Ok refs /\ w_repo w0 = w_repo w /\
    materialize (Update (ChangeCreate GE SE) GE RE (CacheError IE DE) IE) fuel cache refs (ua_object_id args)
      (ua_typename args) auth w0 = Some (EOk (Some g), w2) /\
    git_find_commit (w_repo w1) k = Ok commit /\
    gc_parents commit = bset_iter (cc_refs g) ++ [content_id auth; v_tip (a_id a)] /\
    (exists rf remote, rs_object_references (w_repo w1) (auth_urn auth) (ua_typename args) (ua_object_id args) =
       Ok (MkObjectRefs (Some rf) remote) /\ git_peel (w_repo w1) rf = Ok (k, commit)) /\
    (k ∉ tips (cc_history g) ->
     entries (co_history o) !! k = Some (MkEntry k (v_urn (a_id a)) [] (ua_changes args)) /\
     forall k', k' <> k -> entries (co_history o) !! k' =
       (fun e => if bool_decide (k' ∈ tips (cc_history g)) then add_child e k else e) <$> entries (cc_history g) !! k').
Proof.
  cbn zeta. unfold update in Hup. destruct (is_signer_for _ _); [|done]. cbn [negb] in Hup. split; [done|].
  apply run_bind_ok in Hup as (refs & w' & [Hrefs ->]%asks_ok & Hup).
  apply run_bind_ok in Hup as (prev & w' & [Hprev ->]%asks_ok & Hup).
  apply run_bind_ok in Hup as (cache & w0 & [Hopen Hr0]%on_fs_ok & Hup).
  apply run_bind_ok in Hup as (found & w2 & Hm & Hup).
  apply run_bind_ok in Hup as (g & w2' & Hfound & Hup). destruct found as [g'|]; [|done]. injection Hfound as <- <-.
  apply run_bind_ok in Hup as (c & w3 & [Hc Hfs3]%on_repo_ok & Hup).
  apply run_bind_ok in Hup as (g'' & w3' & [Hext ->]%of_outcome_ok & Hup).
  apply run_bind_ok in Hup as ([] & w4 & [Hput Hr4]%on_fs_ok & Hup).
  apply run_bind_ok in Hup as ([] & w5 & [Hur Hfs5]%on_repo_ok & [= <- <-]).
  destruct (rs_object_references (w_repo w) _ _ _) as [refs'|] eqn:Href; [|done]. injection Hrefs as ->.
  apply created in Hc as (Hg & _ & _ & commit & Hf & Hpar & _). rewrite <- Hr4 in Hf.
  destruct (rs_update_ok _ _ _ _ _ _ _ Hur Hf) as (Hg2 & rf & remote & Hnew & Hpeel).
  apply out_bind_done in Hext as (h & Hh & [= <-]).
  exists refs, cache, g', w0, w2, (ch_commit c), commit. split_and!; [done..|by apply (proj2 (proj2 Hg2))|done|by exists rf, remote|].
  intros Hk. destruct (extend_entries _ _ _ _ _ Hh Hk) as (_ & He1 & He2). done.
Qed.
End ApiProofs.

(** ** An example *)
Module ApiExample.
Import UnaryText MemoryStore MemoryWalk ListGraph ListWalk MemoryFs.

(** The last reference that was written. *)
Fixpoint last_ref (urn : N) (ty : String.string) (object : N) (r : repo) (found : option N) : option N :=
  match r with
  | [] => found
  | ORef u t o target :: r =>
      last_ref urn ty object r (if bool_decide (u = urn /\ t = ty /\ o = object) then Some target else found)
  | _ :: r => last_ref urn ty object r found
  end.

#[export] Instance memory_refs : RefsStorage repo N unit := {|
  rs_object_references r urn ty o := Ok (MkObjectRefs (last_ref urn ty o r None) []);
  rs_type_references _ _ _ := Ok [];
  rs_update_ref urn ty o new r := (EOk tt, r ++ [ORef urn ty o new]);
|}.

Lemma last_ref_app urn ty o r r' found : last_ref urn ty o (r ++ r') found = last_ref urn ty o r' (last_ref urn ty o r found).
Proof. revert found. induction r as [|[] r IH]; intros found; cbn; auto. Qed.

#[export] Program Instance memory_refs_laws : RefsStorageLaws repo unit N unit.
Next Obligation.
  intros urn ty o new r r' c [= <-] Hc.
  assert (git_grows r (r ++ [ORef urn ty o new])) as Hg.
  { apply found_grows. intros i y Hi. by apply lookup_app_l_Some. }
  split; [done|]. exists new, []. cbn [rs_object_references memory_refs]. rewrite last_ref_app. cbn [last_ref].
  rewrite bool_decide_eq_true_2 by done. split; [done|]. apply (proj2 (proj2 Hg)) in Hc.
  exact (f_equal (fmap (fun c => (new, c))) Hc).
Qed.

(** Parents come before their children. *)
Definition ranked_check (r : repo) : bool :=
  forallb (fun x : bool => x) (imap (fun i x =>
    match x with OCommit c => forallb (fun p => N.to_nat p <? i)%nat (gc_parents c) | _ => true end) r).

Lemma ranked_check_ok r : ranked_check r = true -> commits_ranked r N.to_nat.
Proof.
  intros Hr id c p Hf Hp. cbn in Hf. unfold get, repo in *.
  destruct (r !! N.to_nat id) as [x|] eqn:Hx; [|done]. destruct x as [| |c'|]; try done. injection Hf as ->.
  unfold ranked_check in Hr. rewrite forallb_forall in Hr.
  assert (forallb (fun p => N.to_nat p <? N.to_nat id)%nat (gc_parents c) = true) as Hall.
  { apply Hr, list_elem_of_In, list_elem_of_lookup. exists (N.to_nat id). by rewrite list_lookup_imap, Hx. }
  rewrite forallb_forall in Hall. specialize (Hall p). rewrite <- list_elem_of_In, Nat.ltb_lt in Hall. by apply Hall.
Qed.

(** A project, at commit 0, and a person, at commit 1, that makes a change. *)
Definition the_auth : AuthorizingIdentity := AuthProject (MkVerified 60 0).
Definition the_author : Author := MkAuthor (MkVerified 70 1) {[ 7 ]}.
Definition identity_of (r : repo) (o : N) : result unit SomeIdentity := if N.eqb o 0 then Ok ProjectIdentity else Ok PersonIdentity.
Definition person_of (r : repo) (o : N) : result unit VerifiedId := if N.eqb o 1 then Ok (MkVerified 70 1) else Err tt.
Definition project_of (r : repo) (o : N) : result unit VerifiedId := if N.eqb o 0 then Ok (MkVerified 60 0) else Err tt.
Definition verify_sig (s rev key : N) : bool := N.eqb s (rev + 1).

Definition the_args (dir : option path) : CreateObjectArgs N unit :=
  MkCreateArgs (Automerge [1; 2]) (lit "a.b") (Some (str "first")) a_signer the_author the_auth dir.
Definition the_world : World repo files := MkWorld [a_commit; a_commit] ∅.

Abbreviation create_it := (create_object (GE:=unit) (Rf:=N) (RE:=unit) (TE:=unit) (D:=unit) (E:=unit) (MB:=unit) (MH:=unit) (GT:=unit)
  (DE:=unit) (IE:=unit) (Sig:=N) (SE:=unit) (G:=lgraph HistoryEntry)) (only parsing).
Abbreviation retrieve_it := (retrieve (GE:=unit) (Rf:=N) (RE:=unit) (TE:=unit) (D:=unit) (E:=unit) (MB:=unit) (MH:=unit) (GT:=unit)
  (DE:=unit) (IE:=unit) (Sig:=N) (CG:=lgraph (Change N)) (G:=lgraph HistoryEntry)
  verify_sig identity_of person_of project_of) (only parsing).

Lemma author_ok r : author_accepted (SE:=unit) verify_sig identity_of person_of project_of r the_auth the_author a_signer.
Proof.
  split.
  - intros rev key sig. cbn. intros [= <- <-]. apply N.eqb_refl.
  - exists the_auth, (MkVerified 70 1). by split_and!.
Qed.

(** Only how a run ends is looked at. *)
Definition succeeds {W E A} (x : option (eff E A * W)) : bool := match x with Some (EOk _, _) => true | _ => false end.

Lemma create_retrieve_witness :
  exists o w1 n o', create_it 5 (the_args None) the_world = Some (EOk o, w1) /\
    (forall fuel, (n <= fuel)%nat -> retrieve_it fuel the_auth (lit "a.b") (co_id o) None w1 = Some (EOk (Some o'), w1)) /\
    entries (co_history o') = {[ co_id o := MkEntry (co_id o) 70 [] (Automerge [1; 2]) ]}.
Proof.
  destruct (create_it 5 (the_args None) the_world) as [[[o|e|] w1]|] eqn:Hc; [|by vm_compute in Hc..].
  assert (match create_it 5 (the_args None) the_world with Some (_, w) => ranked_check (w_repo w) | None => true end = true) as Hr
    by (vm_compute; reflexivity).
  rewrite Hc in Hr. apply ranked_check_ok in Hr.
  destruct (create_retrieve verify_sig identity_of person_of project_of 5 (the_args None) the_world w1 o N.to_nat Hc)
    as (n & o' & Hret & Hes & _ & _ & _ & _ & _ & _ & Hes').
  - vm_compute. reflexivity.
  - apply author_ok.
  - exact Hr.
  - cbn. by intros refs [= <-].
  - exists o, w1, n, o'. split; [done|]. split; [exact Hret|]. by rewrite Hes', Hes.
Defined.

(** The repository afterwards. *)
Definition after : World repo files :=
  match create_it 5 (the_args None) the_world with Some (_, w) => w | None => the_world end.
Definition the_object : N :=
  match create_it 5 (the_args None) the_world with Some (EOk o, _) => co_id o | _ => 0 end.

Abbreviation load_it := (change_load (GE:=unit) (TE:=unit) (D:=unit) (E:=unit) (MB:=unit) (MH:=unit) (G:=unit) (Sig:=N)) (only parsing).

Definition accepted_check (r : repo) (auth : AuthorizingIdentity) : bool :=
  forallb (fun i => match loaded load_it r (N.of_nat i) with
    | Some c => is_ok (evaluate_change verify_sig (identity_of r) (person_of r) (project_of r) auth c [])
    | None => true
    end) (seq 0 (length r)).

Lemma accepted_check_ok r auth tips : accepted_check r auth = true ->
  all_accepted load_it verify_sig (identity_of r) (person_of r) (project_of r) r auth tips.
Proof.
  unfold accepted_check. rewrite forallb_forall. intros Hr k c _ Hk.
  assert (N.to_nat k < length r)%nat as Hlt.
  { apply lookup_lt_is_Some. unfold loaded, git_find_commit, memory_git, get, repo in *.
    by destruct (r !! N.to_nat k). }
  specialize (Hr (N.to_nat k)). rewrite N2Nat.id, Hk in Hr. apply Hr, list_elem_of_In, elem_of_seq. lia.
Qed.

Lemma retrieve_exact_witness :
  exists n o, (forall fuel, (n <= fuel)%nat -> retrieve_it fuel the_auth (lit "a.b") the_object None after = Some (EOk (Some o), after)) /\
    is_Some (entries (co_history o) !! the_object).
Proof.
  destruct (retrieve_exact (GE:=unit) (Rf:=N) (RE:=unit) (TE:=unit) (D:=unit) (E:=unit) (MB:=unit) (MH:=unit) (GT:=unit)
    (DE:=unit) (IE:=unit) (CG:=lgraph (Change N)) (G:=lgraph HistoryEntry) verify_sig identity_of person_of project_of after the_auth (lit "a.b") the_object (MkObjectRefs (Some the_object) []) [the_object] N.to_nat)
    as (n & oo & Hret & Hoo).
  - vm_compute. reflexivity.
  - constructor; [|constructor]. eexists. vm_compute. reflexivity.
  - apply ranked_check_ok. vm_compute. reflexivity.
  - apply accepted_check_ok. vm_compute. reflexivity.
  - assert (reached load_it (w_repo after) [the_object] the_object) as Hr.
    { apply reached_tip; [left|]. eexists. vm_compute. reflexivity. }
    destruct oo as [o|]; [|by destruct (Hoo the_object)]. exists n, o. split; [exact Hret|].
    destruct Hoo as (Hh & _). apply (ho_dom _ _ _ _ _ _ _ _ _ Hh), Hr.
Defined.

Lemma create_cache_stale_witness :
  exists o w1 n, create_it 5 (the_args (Some [])) the_world = Some (EOk o, w1) /\
    forall fuel, (n <= fuel)%nat ->
      cache_load (DE:=unit) (G:=lgraph HistoryEntry) fuel (w_fs w1) (FileSystemCache ([] ++ [str "v1"])) (co_id o) {[ co_id o ]} =
        Some (EOk None).
Proof.
  assert (succeeds (create_it 5 (the_args (Some [])) the_world) = true) as Hs by (vm_compute; reflexivity).
  assert (match create_it 5 (the_args (Some [])) the_world with Some (_, w) => ranked_check (w_repo w) | None => true end = true) as Hr
    by (vm_compute; reflexivity).
  destruct (create_it 5 (the_args (Some [])) the_world) as [[[o|e|] w1]|] eqn:Hc; [|discriminate Hs..].
  apply ranked_check_ok in Hr.
  destruct (create_cache_stale 5 (the_args (Some [])) [] the_world w1 o N.to_nat Hc) as [n Hn]; [reflexivity|reflexivity|exact Hr|].
  exists o, w1, n. split; [done|exact Hn].
Defined.

(** The changes of the object that was created, found with a cache twice. *)
Abbreviation find_it := (load_or_materialize (GE:=unit) (Rf:=N) (X:=Retrieve unit unit (CacheError unit unit) unit)
  (TE:=unit) (D:=unit) (E:=unit) (MB:=unit) (MH:=unit) (GT:=unit)
  (DE:=unit) (IE:=unit) (Sig:=N) (CG:=lgraph (Change N)) (G:=lgraph HistoryEntry)
  verify_sig identity_of person_of project_of) (only parsing).

Lemma materialize_cached_witness :
  exists g w1 n g', find_it 5 (FileSystemCache []) (MkObjectRefs (Some the_object) []) the_object (lit "a.b") the_auth after
      = Some (EOk (Some g), w1) /\ same_cached g g' /\
    forall fuel, (n <= fuel)%nat -> find_it fuel (FileSystemCache []) (MkObjectRefs (Some the_object) []) the_object (lit "a.b") the_auth w1
      = Some (EOk (Some g'), w1).
Proof.
  assert (match find_it 5 (FileSystemCache []) (MkObjectRefs (Some the_object) []) the_object (lit "a.b") the_auth after with
    Some (EOk (Some _), _) => true | _ => false end = true) as Hs by (vm_compute; reflexivity).
  destruct (find_it 5 (FileSystemCache []) (MkObjectRefs (Some the_object) []) the_object (lit "a.b") the_auth after)
    as [[[[g|]|e|] w1]|] eqn:Hc; [|discriminate Hs..].
  destruct (materialize_cached verify_sig identity_of person_of project_of 5 [] (MkObjectRefs (Some the_object) [])
    the_object (lit "a.b") the_auth after w1 g Hc) as (_ & n & g' & Hsame & Hn); [reflexivity|].
  exists g, w1, n, g'. split; [done|]. split; [exact Hsame|exact Hn].
Defined.

Definition the_update : UpdateObjectArgs N unit :=
  MkUpdateArgs a_signer the_author the_auth None the_object (lit "a.b") None (Automerge [3]).
Abbreviation update_it := (update (GE:=unit) (Rf:=N) (RE:=unit) (TE:=unit) (D:=unit) (E:=unit) (MB:=unit) (MH:=unit) (GT:=unit)
  (DE:=unit) (IE:=unit) (Sig:=N) (SE:=unit) (CG:=lgraph (Change N)) (G:=lgraph HistoryEntry)
  verify_sig identity_of person_of project_of) (only parsing).

Lemma update_appends_witness :
  exists o w1 k commit, update_it 5 the_update after = Some (EOk o, w1) /\
    git_find_commit (w_repo w1) k = Ok commit /\ 1 ∈ gc_parents commit.
Proof.
  destruct (update_it 5 the_update after) as [[[o|e|] w1]|] eqn:Hc; [|by vm_compute in Hc..].
  destruct (update_appends verify_sig identity_of person_of project_of 5 the_update after w1 o Hc)
    as (_ & refs & cache & g & w0 & w2 & k & commit & Hrefs & Hw0 & Hm & Hf & Hpar & _).
  exists o, w1, k, commit. split; [done|]. split; [exact Hf|].
  rewrite Hpar. apply elem_of_app. right. right. left.
Defined.
End ApiExample.
