(* ===== verification/CanonicalJson.v ===== *)
(** * Canonical JSON: values, their text, and parsing it

    [link-canonical/src/json.rs], [json/ser.rs], [json/parser.rs],
    [json/parser/string.rs] and [Cstring] of [link-canonical/src/lib.rs].  Text is
    a list of code points; what the code writes as bytes is the UTF-8 encoding of the
    text.  Unicode normalization is the class [Nfc], the streaming parsers of nom the
    class [NomStream]. *)
From Stdlib Require Import NArith ZArith Lia Decimal.
From Stdlib Require DecimalFacts DecimalN.
From stdpp Require Import base list sets.
From Stdlib Require String.
Import String.StringSyntax.
From S2P Require Import Prelude RefFormat Trailers.
#[local] Open Scope N_scope.

(** ** Interfaces *)

(** [str::nfc] of the library unicode-normalization. *)
Class Nfc := {
  nfc : list N -> list N;
  nfc_idem s : nfc (nfc s) = nfc s;
}.

(** A streaming parser may ask for more input; a [Failure] is not recovered from. *)
Inductive ires (E A : Type) : Type :=
| IOk (rest : list N) (a : A)
| IError (e : E)
| IFailure (e : E)
| Incomplete.
Arguments IOk {E A} rest a.
Arguments IError {E A} e.
Arguments IFailure {E A} e.
Arguments Incomplete {E A}.

Definition sparser (E A : Type) : Type := list N -> ires E A.

Definition ibind {E A B} (r : ires E A) (f : list N -> A -> ires E B) : ires E B :=
  match r with
  | IOk rest a => f rest a
  | IError e => IError e
  | IFailure e => IFailure e
  | Incomplete => Incomplete
  end.

Class NomStream (E : Type) := {
  s_tag : list N -> sparser E (list N);
  s_char : N -> sparser E N;
  s_one_of : list N -> sparser E N;
  s_take_while : (N -> bool) -> sparser E (list N);
  s_take_while1 : (N -> bool) -> sparser E (list N);
  s_multispace1 : sparser E (list N);
  s_alt {A} : sparser E A -> sparser E A -> sparser E A;
  s_map {A B} : sparser E A -> (A -> B) -> sparser E B;
  s_map_opt {A B} : sparser E A -> (A -> option B) -> sparser E B;
  s_map_res {A B X} : sparser E A -> (A -> result X B) -> sparser E B;
  s_value {A B} : B -> sparser E A -> sparser E B;
  s_recognize {A} : sparser E A -> sparser E (list N);
  s_cut {A} : sparser E A -> sparser E A;
  s_context {A} : list N -> sparser E A -> sparser E A;
  s_pair {A B} : sparser E A -> sparser E B -> sparser E (A * B);
  s_preceded {A B} : sparser E A -> sparser E B -> sparser E B;
  s_terminated {A B} : sparser E A -> sparser E B -> sparser E A;
  s_delimited {A B D} : sparser E A -> sparser E B -> sparser E D -> sparser E B;
  s_separated_pair {A B D} : sparser E A -> sparser E B -> sparser E D -> sparser E (A * D);
  s_separated_list0 {A B} : sparser E B -> sparser E A -> sparser E (list A);
  s_fold_many0 {A B} : sparser E A -> B -> (B -> A -> B) -> sparser E B;
}.

(** An error another alternative can recover from. *)
Definition soft {E A} (r : ires E A) : Prop := exists e, r = IError e.

Class NomStreamLaws (E : Type) `{NomStream E} := {
  s_tag_ok t s : s_tag t (t ++ s) = IOk s t;
  s_tag_soft a x t y s : x <> y -> soft (s_tag (a ++ x :: t) (a ++ y :: s));
  s_char_ok c s : s_char c (c :: s) = IOk s c;
  s_char_soft c d s : c <> d -> soft (s_char c (d :: s));
  s_one_of_ok cs c s : c ∈ cs -> s_one_of cs (c :: s) = IOk s c;
  s_one_of_soft cs c s : c ∉ cs -> soft (s_one_of cs (c :: s));
  s_take_while_ok p a c s : Forall (fun x => p x = true) a -> p c = false ->
    s_take_while p (a ++ c :: s) = IOk (c :: s) a;
  s_take_while_more p a : Forall (fun x => p x = true) a -> s_take_while p a = Incomplete;
  s_take_while1_ok p a c s : a <> [] -> Forall (fun x => p x = true) a -> p c = false ->
    s_take_while1 p (a ++ c :: s) = IOk (c :: s) a;
  s_take_while1_soft p c s : p c = false -> soft (s_take_while1 p (c :: s));
  s_alt_first {A} (p q : sparser E A) s : ~ soft (p s) -> s_alt p q s = p s;
  s_alt_second {A} (p q : sparser E A) s : soft (p s) -> ~ soft (q s) -> s_alt p q s = q s;
  s_alt_soft {A} (p q : sparser E A) s : soft (p s) -> soft (q s) -> soft (s_alt p q s);
  s_map_eq {A B} (p : sparser E A) (f : A -> B) s : s_map p f s = ibind (p s) (fun r a => IOk r (f a));
  s_map_opt_ok {A B} (p : sparser E A) (f : A -> option B) s r a b :
    p s = IOk r a -> f a = Some b -> s_map_opt p f s = IOk r b;
  s_map_opt_soft {A B} (p : sparser E A) (f : A -> option B) s :
    soft (p s) \/ (exists r a, p s = IOk r a /\ f a = None) -> soft (s_map_opt p f s);
  s_map_opt_more {A B} (p : sparser E A) (f : A -> option B) s :
    p s = Incomplete -> s_map_opt p f s = Incomplete;
  s_map_res_soft {A B X} (p : sparser E A) (f : A -> result X B) s :
    soft (p s) \/ (exists r a e, p s = IOk r a /\ f a = Err e) -> soft (s_map_res p f s);
  s_value_eq {A B} (b : B) (p : sparser E A) s : s_value b p s = ibind (p s) (fun r _ => IOk r b);
  s_recognize_ok {A} (p : sparser E A) s r a : p (s ++ r) = IOk r a -> s_recognize p (s ++ r) = IOk r s;
  s_recognize_soft {A} (p : sparser E A) s : soft (p s) -> soft (s_recognize p s);
  s_recognize_more {A} (p : sparser E A) s : p s = Incomplete -> s_recognize p s = Incomplete;
  s_cut_ok {A} (p : sparser E A) s : ~ soft (p s) -> s_cut p s = p s;
  s_context_ok {A} n (p : sparser E A) s r a : p s = IOk r a -> s_context n p s = IOk r a;
  s_context_soft {A} n (p : sparser E A) s : soft (p s) -> soft (s_context n p s);
  s_context_more {A} n (p : sparser E A) s : p s = Incomplete -> s_context n p s = Incomplete;
  s_pair_eq {A B} (p : sparser E A) (q : sparser E B) s :
    s_pair p q s = ibind (p s) (fun r a => ibind (q r) (fun r b => IOk r (a, b)));
  s_preceded_eq {A B} (p : sparser E A) (q : sparser E B) s : s_preceded p q s = ibind (p s) (fun r _ => q r);
  s_terminated_eq {A B} (p : sparser E A) (q : sparser E B) s :
    s_terminated p q s = ibind (p s) (fun r a => ibind (q r) (fun r _ => IOk r a));
  s_delimited_eq {A B D} (p : sparser E A) (q : sparser E B) (t : sparser E D) s :
    s_delimited p q t s = ibind (p s) (fun r _ => ibind (q r) (fun r b => ibind (t r) (fun r _ => IOk r b)));
  s_separated_pair_eq {A B D} (p : sparser E A) (q : sparser E B) (t : sparser E D) s :
    s_separated_pair p q t s =
      ibind (p s) (fun r a => ibind (q r) (fun r _ => ibind (t r) (fun r d => IOk r (a, d))));
  s_separated_list0_nil {A B} (sep : sparser E B) (p : sparser E A) s :
    soft (p s) -> s_separated_list0 sep p s = IOk s [];
  s_separated_list0_last {A B} (sep : sparser E B) (p : sparser E A) s r a :
    p s = IOk r a -> soft (sep r) -> s_separated_list0 sep p s = IOk r [a];
  s_separated_list0_more {A B} (sep : sparser E B) (p : sparser E A) s r r' a b :
    p s = IOk r a -> sep r = IOk r' b -> (length r' < length r <= length s)%nat -> ~ soft (p r') ->
    s_separated_list0 sep p s = ibind (s_separated_list0 sep p r') (fun r l => IOk r (a :: l));
  s_fold_many0_stop {A B} (p : sparser E A) (b : B) f s : soft (p s) -> s_fold_many0 p b f s = IOk s b;
  s_fold_many0_more {A B} (p : sparser E A) (b : B) f s r a :
    p s = IOk r a -> (length r < length s)%nat -> s_fold_many0 p b f s = s_fold_many0 p (f b a) f r;
}.

(** ** Values *)

Inductive Number := U64 (n : N) | I64 (z : Z).

(** A [Map] is the sorted list of the entries of its [BTreeMap], a [Cstring] its text. *)
Unset Elimination Schemes.
Inductive Value :=
| Object (m : list (list N * Value))
| Array (vs : list Value)
| JString (s : list N)
| JNumber (n : Number)
| JBool (b : bool)
| Null.
Set Elimination Schemes.

Definition ty_name (v : Value) : list N :=
  match v with
  | Object _ => str "object"
  | Array _ => str "array"
  | JString _ => str "string"
  | JNumber _ => str "number"
  | JBool _ => str "bool"
  | Null => str "null"
  end.

(** The order of strings. *)
Fixpoint str_cmp (a b : list N) : comparison :=
  match a, b with
  | [], [] => Eq
  | [], _ => Lt
  | _, [] => Gt
  | x :: a, y :: b => match x ?= y with Eq => str_cmp a b | c => c end
  end.

Section Map.
Context {V : Type}.
Definition map_new : list (list N * V) := [].
Fixpoint map_insert (k : list N) (v : V) (m : list (list N * V)) : list (list N * V) :=
  match m with
  | [] => [(k, v)]
  | (k', v') :: m' =>
      match str_cmp k k' with
      | Lt => (k, v) :: m
      | Eq => (k, v) :: m'
      | Gt => (k', v') :: map_insert k v m'
      end
  end.
Fixpoint map_get (k : list N) (m : list (list N * V)) : option V :=
  match m with
  | [] => None
  | (k', v') :: m' => match str_cmp k k' with Eq => Some v' | _ => map_get k m' end
  end.
Fixpoint map_remove (k : list N) (m : list (list N * V)) : list (list N * V) :=
  match m with
  | [] => []
  | (k', v') :: m' => match str_cmp k k' with Eq => m' | _ => (k', v') :: map_remove k m' end
  end.
(** [Map::insert] and [Map::remove] return the previous value. *)
Definition Map_insert (k : list N) (v : V) (m : list (list N * V)) : list (list N * V) * option V :=
  (map_insert k v m, map_get k m).
Definition Map_remove (k : list N) (m : list (list N * V)) : list (list N * V) * option V :=
  (map_remove k m, map_get k m).
(** [Entry]: [and_modify], and [or_insert_with_key] with the value it borrows. *)
Definition entry_and_modify (k : list N) (f : V -> V) (m : list (list N * V)) : list (list N * V) :=
  match map_get k m with Some v => map_insert k (f v) m | None => m end.
Definition entry_or_insert_with_key (k : list N) (f : list N -> V) (m : list (list N * V)) : list (list N * V) * V :=
  match map_get k m with Some v => (m, v) | None => (map_insert k (f k) m, f k) end.
Definition entry_or_insert_with (k : list N) (f : unit -> V) (m : list (list N * V)) : list (list N * V) * V :=
  entry_or_insert_with_key k (fun _ => f tt) m.
Definition entry_or_insert (k : list N) (v : V) (m : list (list N * V)) : list (list N * V) * V :=
  entry_or_insert_with_key k (fun _ => v) m.
(** [FromIterator for Map]. *)
Definition map_collect (l : list (list N * V)) : list (list N * V) :=
  foldl (fun m kv => map_insert kv.1 kv.2 m) map_new l.
End Map.

Section Canonical.
Context `{Nfc}.

(** [Cstring::from]. *)
Definition cstring_from (s : list N) : list N := nfc s.

(** [ToCjson] *)
Class ToCjson (A : Type) := into_cjson : A -> Value.
#[export] Instance value_cjson : ToCjson Value := fun v => v.
#[export] Instance u64_cjson : ToCjson N := fun n => JNumber (U64 n).
#[export] Instance i64_cjson : ToCjson Z := fun z => JNumber (I64 z).
#[export] Instance bool_cjson : ToCjson bool := JBool.
#[export] Instance option_cjson {A} `{ToCjson A} : ToCjson (option A) := fun o =>
  match o with None => Null | Some t => into_cjson t end.
Definition string_cjson (s : list N) : Value := JString (cstring_from s).
Definition into_array {A} `{ToCjson A} (l : list A) : Value := Array (into_cjson <$> l).
Definition into_object {A} `{ToCjson A} (l : list (list N * A)) : Value :=
  Object (map_collect ((fun kv => (cstring_from kv.1, into_cjson kv.2)) <$> l)).
End Canonical.

(** ** Text *)

Fixpoint uint_text (d : Decimal.uint) : list N :=
  match d with
  | Nil => []
  | D0 d => 48 :: uint_text d | D1 d => 49 :: uint_text d | D2 d => 50 :: uint_text d
  | D3 d => 51 :: uint_text d | D4 d => 52 :: uint_text d | D5 d => 53 :: uint_text d
  | D6 d => 54 :: uint_text d | D7 d => 55 :: uint_text d | D8 d => 56 :: uint_text d
  | D9 d => 57 :: uint_text d
  end.
(** [format!("{}", n)] *)
Definition dec_text (n : N) : list N := uint_text (N.to_uint n).

Definition number_text (n : Number) : list N :=
  match n with
  | U64 x => dec_text x
  | I64 x => if (x <? 0)%Z then 45 :: dec_text (Z.to_N (- x)) else dec_text (Z.to_N x)
  end.

Definition between (before after : N) (body : list N) : list N := before :: body ++ [after].
Definition string_text (s : list N) : list N := between 34 34 s.

(** [intercalate]: a comma after each element but the last. *)
Fixpoint intercalate (l : list (list N)) : list N :=
  match l with
  | [] => []
  | [x] => x
  | x :: l => x ++ 44 :: intercalate l
  end.

Fixpoint to_text (v : Value) : list N :=
  match v with
  | Object m => between 123 125 (intercalate (map (fun kv => string_text kv.1 ++ 58 :: to_text kv.2) m))
  | Array vs => between 91 93 (intercalate (map to_text vs))
  | JString s => string_text s
  | JNumber n => number_text n
  | JBool true => str "true"
  | JBool false => str "false"
  | Null => str "null"
  end.

(** ** Parsing *)

Inductive StringError := ControlCode.

Inductive StringFragment := Literal (s : list N) | EscapedChar (s : list N) | EscapedWS.

Definition is_nonescaped_string_char (c : N) : bool := (32 <=? c) && negb (c =? 34) && negb (c =? 92).
Definition is_digit (c : N) : bool := (48 <=? c) && (c <=? 57).
Definition is_hex_digit (c : N) : bool := is_digit c || (65 <=? c) && (c <=? 70) || (97 <=? c) && (c <=? 102).
Definition is_sp (c : N) : bool := bool_decide (c ∈ [32; 9; 13; 10]).

(** The value of digits; [str::parse] fails when it is not in range. *)
Definition digits_value (s : list N) : N := foldl (fun n c => 10 * n + (c - 48)) 0 s.
Definition parse_u64 (s : list N) : option N := if digits_value s <? 2 ^ 64 then Some (digits_value s) else None.
Definition parse_i64 (s : list N) : option Z :=
  if digits_value s <? 2 ^ 63 then Some (Z.of_N (digits_value s)) else None.

Section Parser.
Context {E : Type} `{NomStream E} `{Nfc}.

Definition control_code : sparser E (list N) :=
  s_map_res (s_pair (s_tag (str "\x")) (s_pair (s_one_of (str "01234567")) (s_take_while is_hex_digit)))
    (fun _ => Err ControlCode).
Definition nonescaped_string : sparser E (list N) := s_take_while1 is_nonescaped_string_char.
Definition escape_code : sparser E (list N) :=
  s_alt control_code
    (s_recognize (s_pair (s_tag [92])
      (s_alt (s_tag [34]) (s_alt (s_tag [92]) (s_alt (s_tag (str "/")) (s_alt (s_tag (str "b"))
        (s_alt (s_tag (str "f")) (s_alt (s_tag (str "n")) (s_alt (s_tag (str "r")) (s_alt (s_tag (str "t"))
          (s_tag (str "u")))))))))))).

Definition parse_escaped_whitespace : sparser E (list N) := s_preceded (s_char 92) s_multispace1.
Definition parse_fragment : sparser E StringFragment :=
  s_alt (s_map nonescaped_string Literal)
    (s_alt (s_map escape_code EscapedChar) (s_value EscapedWS parse_escaped_whitespace)).
Definition push_fragment (s : list N) (f : StringFragment) : list N :=
  match f with Literal x | EscapedChar x => s ++ x | EscapedWS => s end.
(** [string::parse] *)
Definition string_parse : sparser E (list N) :=
  s_map (s_delimited (s_char 34) (s_fold_many0 parse_fragment [] push_fragment) (s_char 34)) nfc.

Definition sp : sparser E (list N) := s_take_while is_sp.
Definition cstring : sparser E (list N) := s_map string_parse cstring_from.
Definition json_string : sparser E Value := s_context (str "string") (s_map cstring JString).
Definition json_null : sparser E Value := s_value Null (s_tag (str "null")).
Definition boolean : sparser E Value :=
  s_context (str "bool") (s_alt (s_value (JBool true) (s_tag (str "true"))) (s_value (JBool false) (s_tag (str "false")))).
Definition digits : sparser E (list N) :=
  s_alt (s_tag (str "0")) (s_recognize (s_pair (s_one_of (str "123456789")) (s_take_while is_digit))).
Definition minus : sparser E N := s_char 45.
Definition signed : sparser E Value :=
  s_preceded minus (s_map_opt digits (fun d => (fun z => JNumber (I64 (- z))) <$> parse_i64 d)).
Definition unsigned : sparser E Value := s_map_opt digits (fun d => (fun n => JNumber (U64 n)) <$> parse_u64 d).
Definition number : sparser E Value := s_context (str "number") (s_alt signed unsigned).

(** The values that contain values, given the parser of those. *)
Definition json_pair (json : sparser E Value) : sparser E (list N * Value) :=
  s_separated_pair (s_preceded sp cstring) (s_cut (s_preceded sp (s_char 58))) json.
Definition members (json : sparser E Value) : sparser E (list (list N * Value)) :=
  s_separated_list0 (s_preceded sp (s_char 44)) (json_pair json).
Definition object (json : sparser E Value) : sparser E Value :=
  s_context (str "object") (s_preceded (s_char 123)
    (s_cut (s_terminated (s_map (members json) (fun ms => Object (map_collect ms))) (s_preceded sp (s_char 125))))).
Definition array (json : sparser E Value) : sparser E Value :=
  s_map (s_context (str "array") (s_preceded (s_char 91)
    (s_cut (s_terminated (s_separated_list0 (s_preceded sp (s_char 44)) json) (s_preceded sp (s_char 93)))))) Array.

(** [json]; with no fuel left it asks for more input. *)
Fixpoint json (fuel : nat) : sparser E Value :=
  match fuel with
  | O => fun _ => Incomplete
  | S fuel =>
      s_preceded sp (s_alt json_string (s_alt number (s_alt (object (json fuel)) (s_alt (array (json fuel))
        (s_alt boolean json_null)))))
  end.

Inductive FromStrError := ExpectedEof (rem : list N) | ParseFailed (e : E) | UnexpectedEnd.

(** [Value::from_str] *)
Definition value_from_str (fuel : nat) (s : list N) : result FromStrError Value :=
  match json fuel s with
  | IOk rem value => match trim_end (trim_start rem) with [] => Ok value | _ => Err (ExpectedEof rem) end
  | IError e | IFailure e => Err (ParseFailed e)
  | Incomplete => Err UnexpectedEnd
  end.
End Parser.

(** ** Parsers that satisfy the laws *)
Module ListStream.
Fixpoint l_tag (t full s : list N) : ires unit (list N) :=
  match t, s with
  | [], _ => IOk s full
  | _ :: _, [] => Incomplete
  | x :: t, y :: s => if x =? y then l_tag t full s else IError tt
  end.
Definition l_one (p : N -> bool) : sparser unit N := fun s =>
  match s with [] => Incomplete | c :: s => if p c then IOk s c else IError tt end.
Fixpoint l_while (p : N -> bool) (s : list N) : ires unit (list N) :=
  match s with
  | [] => Incomplete
  | c :: s' => if p c then ibind (l_while p s') (fun r a => IOk r (c :: a)) else IOk s []
  end.
Definition l_while1 (p : N -> bool) : sparser unit (list N) := fun s =>
  match s with
  | [] => Incomplete
  | c :: _ => if p c then l_while p s else IError tt
  end.
Definition l_alt {A} (p q : sparser unit A) : sparser unit A := fun s =>
  match p s with IError _ => q s | r => r end.
Definition l_then {A B} (p : sparser unit A) (f : A -> sparser unit B) : sparser unit B := fun s =>
  ibind (p s) (fun r a => f a r).
Definition l_ret {A} (a : A) : sparser unit A := fun s => IOk s a.

Fixpoint l_list {A B} (fuel : nat) (sep : sparser unit B) (p : sparser unit A) (s : list N) : ires unit (list A) :=
  match fuel with
  | O => Incomplete
  | S fuel =>
      match p s with
      | IError _ => IOk s []
      | IOk r a =>
          match sep r with
          | IError _ => IOk r [a]
          | IOk r' _ =>
              match p r' with
              | IError _ => IOk r [a]
              | _ => if (length r' <? length s)%nat then ibind (l_list fuel sep p r') (fun r l => IOk r (a :: l)) else IError tt
              end
          | IFailure e => IFailure e
          | Incomplete => Incomplete
          end
      | IFailure e => IFailure e
      | Incomplete => Incomplete
      end
  end.
Fixpoint l_fold {A B} (fuel : nat) (p : sparser unit A) (b : B) (f : B -> A -> B) (s : list N) : ires unit B :=
  match fuel with
  | O => Incomplete
  | S fuel =>
      match p s with
      | IError _ => IOk s b
      | IOk r a => if (length r <? length s)%nat then l_fold fuel p (f b a) f r else IError tt
      | IFailure e => IFailure e
      | Incomplete => Incomplete
      end
  end.

#[export] Instance list_stream : NomStream unit := {|
  s_tag t := l_tag t t;
  s_char c := l_one (N.eqb c);
  s_one_of cs := l_one (fun c => bool_decide (c ∈ cs));
  s_take_while := l_while;
  s_take_while1 := l_while1;
  s_multispace1 := l_while1 is_sp;
  s_alt A := l_alt;
  s_map A B p f := l_then p (fun a => l_ret (f a));
  s_map_opt A B p f s := ibind (p s) (fun r a => match f a with Some b => IOk r b | None => IError tt end);
  s_map_res A B X p f s := ibind (p s) (fun r a => match f a with Ok b => IOk r b | Err _ => IError tt end);
  s_value A B b p := l_then p (fun _ => l_ret b);
  s_recognize A p s := ibind (p s) (fun r _ => IOk r (take (length s - length r) s));
  s_cut A p s := match p s with IError e => IFailure e | r => r end;
  s_context A _ p := p;
  s_pair A B p q := l_then p (fun a => l_then q (fun b => l_ret (a, b)));
  s_preceded A B p q := l_then p (fun _ => q);
  s_terminated A B p q := l_then p (fun a => l_then q (fun _ => l_ret a));
  s_delimited A B D p q t := l_then p (fun _ => l_then q (fun b => l_then t (fun _ => l_ret b)));
  s_separated_pair A B D p q t := l_then p (fun a => l_then q (fun _ => l_then t (fun d => l_ret (a, d))));
  s_separated_list0 A B sep p s := l_list (S (length s)) sep p s;
  s_fold_many0 A B p b f s := l_fold (S (length s)) p b f s;
|}.

Lemma l_tag_app a t full s : l_tag (a ++ t) full (a ++ s) = l_tag t full s.
Proof. induction a as [|x a IH]; [done|]. cbn. by rewrite N.eqb_refl. Qed.
Lemma l_while_app p a s : Forall (fun x => p x = true) a -> l_while p (a ++ s) = ibind (l_while p s) (fun r b => IOk r (a ++ b)).
Proof.
  induction 1 as [|c a Hc _ IH]; cbn; [by destruct (l_while p s)|]. rewrite Hc, IH. by destruct (l_while p s).
Qed.

Lemma l_list_fuel {A B} (sep : sparser unit B) (p : sparser unit A) fuel : forall fuel' s,
  (length s < fuel)%nat -> (length s < fuel')%nat -> l_list fuel sep p s = l_list fuel' sep p s.
Proof.
  induction fuel as [|fuel IH]; intros [|fuel'] s H1 H2; [lia..|]. cbn [l_list].
  destruct (p s) as [r a| | |]; try done. destruct (sep r) as [r' b| | |]; try done.
  destruct (p r'); try done; destruct (Nat.ltb_spec (length r') (length s)); try done; rewrite (IH fuel'); by try lia.
Qed.
Lemma l_fold_fuel {A B} (p : sparser unit A) (f : B -> A -> B) fuel : forall fuel' b s,
  (length s < fuel)%nat -> (length s < fuel')%nat -> l_fold fuel p b f s = l_fold fuel' p b f s.
Proof.
  induction fuel as [|fuel IH]; intros [|fuel'] b s H1 H2; [lia..|]. cbn [l_fold].
  destruct (p s) as [r a| | |]; try done. destruct (Nat.ltb_spec (length r) (length s)); [|done]. apply IH; lia.
Qed.

#[export] Program Instance list_stream_laws : NomStreamLaws unit.
Next Obligation.
  intros t s. cbn. generalize t at 2 4. intros full. rewrite <- (app_nil_r t) at 1. rewrite l_tag_app. by destruct s.
Qed.
Next Obligation.
  intros a x t y s Hne. cbn. rewrite l_tag_app. cbn. destruct (N.eqb_spec x y); [done|]. by eexists.
Qed.
Next Obligation. intros c s. cbn. by rewrite N.eqb_refl. Qed.
Next Obligation. intros c d s Hne. cbn. apply N.eqb_neq in Hne. rewrite Hne. by eexists. Qed.
Next Obligation. intros cs c s Hin. cbn. by rewrite bool_decide_eq_true_2. Qed.
Next Obligation. intros cs c s Hin. cbn. rewrite bool_decide_eq_false_2 by done. by eexists. Qed.
Next Obligation. intros p a c s Ha Hc. cbn. rewrite l_while_app by done. cbn. rewrite Hc. cbn. by rewrite app_nil_r. Qed.
Next Obligation. intros p a Ha. cbn. rewrite <- (app_nil_r a). by rewrite l_while_app. Qed.
Next Obligation.
  intros p a c s Hne Ha Hc. cbn. destruct a as [|x a]; [done|]. cbn [app l_while1].
  rewrite (Forall_inv Ha). change (x :: a ++ c :: s) with ((x :: a) ++ c :: s). rewrite l_while_app by done. cbn. rewrite Hc. cbn.
  by rewrite app_nil_r.
Qed.
Next Obligation. intros p c s Hc. cbn. rewrite Hc. by eexists. Qed.
Next Obligation. intros A p q s Hp. cbn. unfold l_alt. destruct (p s); try done. destruct Hp. by eexists. Qed.
Next Obligation. intros A p q s [e He] _. cbn. unfold l_alt. by rewrite He. Qed.
Next Obligation. intros A p q s [e He] Hq. cbn. unfold l_alt. by rewrite He. Qed.
Next Obligation. done. Qed.
Next Obligation. intros A B p f s r a b Hp Hf. cbn. rewrite Hp. cbn. by rewrite Hf. Qed.
Next Obligation.
  intros A B p f s [[e He]|(r & a & Hp & Hf)]; cbn; [rewrite He; by eexists|]. rewrite Hp. cbn. rewrite Hf. by eexists.
Qed.
Next Obligation. intros A B p f s Hp. cbn. by rewrite Hp. Qed.
Next Obligation.
  intros A B X p f s [[e He]|(r & a & e & Hp & Hf)]; cbn; [rewrite He; by eexists|]. rewrite Hp. cbn. rewrite Hf. by eexists.
Qed.
Next Obligation. done. Qed.
Next Obligation.
  intros A p s r a Hp. cbn. rewrite Hp. cbn. rewrite length_app. f_equal.
  replace (length s + length r - length r)%nat with (length s) by lia. by rewrite take_app_length.
Qed.
Next Obligation. intros A p s [e He]. cbn. rewrite He. by eexists. Qed.
Next Obligation. intros A p s He. cbn. by rewrite He. Qed.
Next Obligation. intros A p s Hp. cbn. destruct (p s); try done. destruct Hp. by eexists. Qed.
Next Obligation. done. Qed.
Next Obligation. done. Qed.
Next Obligation. done. Qed.
Next Obligation. done. Qed.
Next Obligation. done. Qed.
Next Obligation. done. Qed.
Next Obligation. done. Qed.
Next Obligation. done. Qed.
Next Obligation. intros A B sep p s [e He]. cbn [s_separated_list0 list_stream l_list]. by rewrite He. Qed.
Next Obligation. intros A B sep p s r a Hp [e He]. cbn [s_separated_list0 list_stream l_list]. by rewrite Hp, He. Qed.
Next Obligation.
  intros A B sep p s r r' a b Hp Hs Hlt Hq.
  assert (s_separated_list0 sep p r' = l_list (length s) sep p r') as -> by (apply l_list_fuel; lia).
  cbn [s_separated_list0 list_stream l_list]. rewrite Hp, Hs. destruct (Nat.ltb_spec (length r') (length s)); [|lia].
  destruct (p r'); try done. destruct Hq. by eexists.
Qed.
Next Obligation. intros A B p b f s [e He]. cbn [s_fold_many0 list_stream l_fold]. by rewrite He. Qed.
Next Obligation.
  intros A B p b f s r a Hp Hlt.
  assert (s_fold_many0 p (f b a) f r = l_fold (length s) p (f b a) f r) as -> by (apply l_fold_fuel; lia).
  cbn [s_fold_many0 list_stream l_fold]. rewrite Hp. by destruct (Nat.ltb_spec (length r) (length s)); [|lia].
Qed.
End ListStream.

(** ** Canonical values *)

(** A property of all values, by one of the values they contain. *)
Lemma value_ind (P : Value -> Prop)
    (HO : forall m, Forall (fun kv => P kv.2) m -> P (Object m)) (HA : forall vs, Forall P vs -> P (Array vs))
    (HS : forall s, P (JString s)) (HN : forall n, P (JNumber n)) (HB : forall b, P (JBool b)) (H0 : P Null) :
  forall v, P v.
Proof.
  fix IH 1. intros [m|vs|s|n|b|]; [apply HO|apply HA|apply HS|apply HN|apply HB|exact H0].
  - induction m as [|[k v] m IHm]; constructor; [apply IH|exact IHm].
  - induction vs as [|v vs IHvs]; constructor; [apply IH|exact IHvs].
Qed.

(** The characters that may follow a backslash. *)
Definition escapes : list N := [34; 92; 47; 98; 102; 110; 114; 116; 117].

(** Text in which every quote and every backslash is escaped, and that has no control characters. *)
Fixpoint legal (s : list N) : bool :=
  match s with
  | [] => true
  | c :: s' =>
      if c =? 92 then match s' with d :: s'' => bool_decide (d ∈ escapes) && legal s'' | [] => false end
      else is_nonescaped_string_char c && legal s'
  end.

(** Keys in ascending order, without duplicates. *)
Definition key_lt {V} (a b : list N * V) : bool := match str_cmp a.1 b.1 with Lt => true | _ => false end.
Fixpoint keys_sorted {V} (m : list (list N * V)) : bool :=
  match m with [] => true | kv :: m' => forallb (key_lt kv) m' && keys_sorted m' end.

Definition number_ok (n : Number) : bool :=
  match n with U64 x => x <? 2 ^ 64 | I64 z => (z <? 0)%Z && (- 2 ^ 63 <? z)%Z end.

Section Wf.
Context `{Nfc}.
Definition string_ok (s : list N) : bool := legal s && bool_decide (nfc s = s).

(** The values that parsing yields, up to zero with a sign. *)
Fixpoint canonical (v : Value) : bool :=
  match v with
  | Object m => keys_sorted m && forallb (fun kv => string_ok kv.1 && canonical kv.2) m
  | Array vs => forallb canonical vs
  | JString s => string_ok s
  | JNumber n => number_ok n
  | _ => true
  end.
End Wf.

(** The calls of [json] that parsing the text of a value nests: even an empty array looks for one. *)
Fixpoint depth (v : Value) : nat :=
  match v with
  | Object m => S (max_list (map (fun kv => depth kv.2) m))
  | Array vs => S (Nat.max 1 (max_list (map depth vs)))
  | _ => 1
  end.

(** *** Numbers *)

Lemma uint_text_digits d : Forall (fun c => is_digit c = true) (uint_text d).
Proof. induction d; cbn; constructor; try done. Qed.

Lemma digits_value_acc d : forall p,
  foldl (fun n c => 10 * n + (c - 48)) (N.pos p) (uint_text d) = N.pos (Pos.of_uint_acc d p).
Proof. induction d as [|d IH|d IH|d IH|d IH|d IH|d IH|d IH|d IH|d IH|d IH]; intros p; [done|..]; cbn [uint_text foldl Pos.of_uint_acc]; rewrite <- IH; f_equal; lia. Qed.
Lemma digits_value_uint d : digits_value (uint_text d) = N.of_uint d.
Proof.
  unfold digits_value, N.of_uint. induction d; [done|exact IHd|..]; cbn [uint_text foldl Pos.of_uint]; by rewrite <- digits_value_acc.
Qed.
Lemma digits_value_dec n : digits_value (dec_text n) = n.
Proof. unfold dec_text. rewrite digits_value_uint. apply DecimalN.Unsigned.of_to. Qed.

(** A numeral is zero or does not start with a zero. *)
Lemma nzhead_text d : nzhead d = Nil \/ exists c d', uint_text (nzhead d) = c :: uint_text d' /\ 49 <= c <= 57.
Proof. induction d; cbn [nzhead]; [by left|done|..]; right; cbn [uint_text]; eexists _, _; (split; [reflexivity|lia]). Qed.
Lemma dec_text_shape n :
  dec_text n = str "0" \/ exists c s, dec_text n = c :: s /\ 49 <= c <= 57 /\ Forall (fun c => is_digit c = true) s.
Proof.
  unfold dec_text. assert (N.to_uint n = unorm (N.to_uint n)) as -> by (by rewrite <- DecimalN.Unsigned.to_of, DecimalN.Unsigned.of_to).
  unfold unorm. destruct (nzhead_text (N.to_uint n)) as [->|(c & d' & Hc & Hr)]; [by left|right].
  exists c, (uint_text d'). split; [|by split; [|apply uint_text_digits]]. rewrite <- Hc. by destruct (nzhead (N.to_uint n)).
Qed.

(** *** Maps *)

Lemma str_cmp_eq a : forall b, str_cmp a b = Eq <-> a = b.
Proof.
  induction a as [|x a IH]; intros [|y b]; cbn; try done. destruct (N.compare_spec x y) as [->|?|?].
  - rewrite IH. split; [by intros ->|by intros [= ->]].
  - split; [done|]. intros [= -> _]. lia.
  - split; [done|]. intros [= -> _]. lia.
Qed.
Lemma str_cmp_antisym a : forall b, str_cmp b a = CompOpp (str_cmp a b).
Proof.
  induction a as [|x a IH]; intros [|y b]; cbn; try done. rewrite (N.compare_antisym x y), (IH b). by destruct (x ?= y).
Qed.
Lemma key_lt_true {V} (a b : list N * V) : key_lt a b = true <-> str_cmp a.1 b.1 = Lt.
Proof. unfold key_lt. by destruct (str_cmp a.1 b.1). Qed.

Lemma str_cmp_trans a : forall b c, str_cmp a b = Lt -> str_cmp b c = Lt -> str_cmp a c = Lt.
Proof.
  induction a as [|x a IH]; intros [|y b] [|z c]; cbn; try done.
  destruct (N.compare_spec x y) as [->|?|?], (N.compare_spec y z) as [->|?|?]; try done; rewrite ?N.compare_refl; eauto.
  all: intros _ _; by rewrite (proj2 (N.compare_lt_iff _ _)) by lia.
Qed.

Lemma map_insert_keys {V} k (v : V) m a : key_lt a (k, v) = true -> forallb (key_lt a) m = true ->
  forallb (key_lt a) (map_insert k v m) = true.
Proof.
  intros Hk. induction m as [|[k' v'] m IH]; cbn [map_insert forallb]; [by rewrite Hk|]. intros [Ha Hm]%andb_true_iff.
  destruct (str_cmp k k'); cbn [forallb]; rewrite ?Ha, ?Hm, ?Hk; auto.
Qed.
(** A map stays sorted by its keys. *)
Lemma map_insert_sorted {V} k (v : V) m : keys_sorted m = true -> keys_sorted (map_insert k v m) = true.
Proof.
  induction m as [|[k' v'] m IH]; cbn [map_insert keys_sorted]; [done|]. intros [Hk Hm]%andb_true_iff.
  destruct (str_cmp k k') eqn:Hc; cbn [keys_sorted forallb].
  - apply str_cmp_eq in Hc as ->. by rewrite Hm, andb_true_r.
  - rewrite Hk, Hm, !andb_true_r. apply andb_true_iff. split; [by apply key_lt_true|].
    apply forallb_forall. intros x Hx. apply (proj1 (forallb_forall _ _) Hk), key_lt_true in Hx. apply key_lt_true.
    by eapply str_cmp_trans.
  - rewrite IH, andb_true_r by done. apply map_insert_keys; [|done]. apply key_lt_true. cbn. by rewrite str_cmp_antisym, Hc.
Qed.
Lemma map_collect_keys_sorted {V} (l : list (list N * V)) : keys_sorted (map_collect l) = true.
Proof.
  unfold map_collect. assert (keys_sorted (map_new (V := V)) = true) as Hs by done. revert Hs. generalize (map_new (V := V)).
  induction l as [|kv l IH]; intros m Hm; [done|]. by apply IH, map_insert_sorted.
Qed.
(** What is inserted is found, and nothing else changes. *)
Lemma map_get_insert {V} k (v : V) m k' : keys_sorted m = true ->
  map_get k' (map_insert k v m) = if decide (k' = k) then Some v else map_get k' m.
Proof.
  induction m as [|[k1 v1] m IH]; cbn [map_insert map_get keys_sorted]; intros Hs.
  - destruct (decide (k' = k)) as [->|Hne]; [by rewrite (proj2 (str_cmp_eq k k))|]. destruct (str_cmp k' k) eqn:Hc; try done. by apply str_cmp_eq in Hc.
  - apply andb_true_iff in Hs as [Hk Hs]. destruct (str_cmp k k1) eqn:Hc; cbn [map_get].
    + apply str_cmp_eq in Hc as ->. destruct (decide (k' = k1)) as [->|Hne]; [by rewrite (proj2 (str_cmp_eq k1 k1))|].
      destruct (str_cmp k' k1) eqn:Hc; try done. by apply str_cmp_eq in Hc.
    + destruct (decide (k' = k)) as [->|Hne]; [by rewrite (proj2 (str_cmp_eq k k))|].
      destruct (str_cmp k' k) eqn:Hc'; try done. by apply str_cmp_eq in Hc'.
    + rewrite IH by done. destruct (decide (k' = k)) as [->|Hne]; [by rewrite Hc|]. done.
Qed.

Lemma map_insert_last {V} k (v : V) m : Forall (fun kv => key_lt kv (k, v) = true) m -> map_insert k v m = m ++ [(k, v)].
Proof.
  induction 1 as [|[k' v'] m Hlt _ IH]; [done|]. cbn. apply key_lt_true in Hlt. cbn in Hlt.
  by rewrite (str_cmp_antisym k' k), Hlt, IH.
Qed.
Lemma map_collect_acc {V} (l : list (list N * V)) : forall acc,
  Forall (fun a => Forall (fun b => key_lt a b = true) l) acc -> keys_sorted l = true ->
  foldl (fun m kv => map_insert kv.1 kv.2 m) acc l = acc ++ l.
Proof.
  induction l as [|[k v] l IH]; intros acc Hacc Hs; cbn [foldl]; [by rewrite app_nil_r|].
  cbn [keys_sorted] in Hs. apply andb_true_iff in Hs as [Hk Hs]. cbn [fst snd].
  rewrite map_insert_last by (eapply Forall_impl; [exact Hacc|by intros x ?%Forall_inv]).
  rewrite IH; [by rewrite <- app_assoc| |done]. apply Forall_app. split.
  - eapply Forall_impl; [exact Hacc|by intros x ?%Forall_inv_tail].
  - constructor; [by apply List.Forall_forall, forallb_forall|constructor].
Qed.
Lemma map_collect_sorted {V} (l : list (list N * V)) : keys_sorted l = true -> map_collect l = l.
Proof. intros Hs. unfold map_collect. by rewrite map_collect_acc. Qed.

(** *** Parsers *)
Create HintDb json discriminated.
Lemma soft_ok {E A} r (a : A) : ~ soft (IOk (E := E) r a). Proof. by intros [? ?]. Qed.
Lemma soft_more {E A} : ~ soft (Incomplete (E := E) (A := A)). Proof. by intros [? ?]. Qed.
Lemma soft_bind {E A B} (r : ires E A) (f : list N -> A -> ires E B) : soft r -> soft (ibind r f).
Proof. intros [e ->]. by exists e. Qed.
#[export] Hint Resolve soft_ok soft_more soft_bind : json.

Section Laws.
Context {E : Type} `{NomStreamLaws E}.

Lemma alt_ok1 {A} (p q : sparser E A) s r a : p s = IOk r a -> s_alt p q s = IOk r a.
Proof. intros Hp. rewrite <- Hp. apply s_alt_first. rewrite Hp. apply soft_ok. Qed.
Lemma alt_ok2 {A} (p q : sparser E A) s r a : soft (p s) -> q s = IOk r a -> s_alt p q s = IOk r a.
Proof. intros Hp Hq. rewrite <- Hq. apply s_alt_second; [done|]. rewrite Hq. apply soft_ok. Qed.
Lemma alt_more1 {A} (p q : sparser E A) s : p s = Incomplete -> s_alt p q s = Incomplete.
Proof. intros Hp. rewrite <- Hp. apply s_alt_first. rewrite Hp. apply soft_more. Qed.
Lemma alt_more2 {A} (p q : sparser E A) s : soft (p s) -> q s = Incomplete -> s_alt p q s = Incomplete.
Proof. intros Hp Hq. rewrite <- Hq. apply s_alt_second; [done|]. rewrite Hq. apply soft_more. Qed.
Lemma cut_ok {A} (p : sparser E A) s r a : p s = IOk r a -> s_cut p s = IOk r a.
Proof. intros Hp. rewrite <- Hp. apply s_cut_ok. rewrite Hp. apply soft_ok. Qed.
Lemma tag1_ok c s : s_tag [c] (c :: s) = IOk s [c].
Proof. apply (s_tag_ok [c]). Qed.
Lemma tag_soft x t y s : x <> y -> soft (s_tag (x :: t) (y :: s)).
Proof. apply (s_tag_soft []). Qed.
Lemma pair_soft {A B} (p : sparser E A) (q : sparser E B) s : soft (p s) -> soft (s_pair p q s).
Proof. rewrite s_pair_eq. apply soft_bind. Qed.
Lemma preceded_soft {A B} (p : sparser E A) (q : sparser E B) s : soft (p s) -> soft (s_preceded p q s).
Proof. rewrite s_preceded_eq. apply soft_bind. Qed.
Lemma map_soft {A B} (p : sparser E A) (f : A -> B) s : soft (p s) -> soft (s_map p f s).
Proof. rewrite s_map_eq. apply soft_bind. Qed.
Lemma value_soft {A B} (p : sparser E A) (b : B) s : soft (p s) -> soft (s_value b p s).
Proof. rewrite s_value_eq. apply soft_bind. Qed.
Lemma delimited_soft {A B D} (p : sparser E A) (q : sparser E B) (t : sparser E D) s : soft (p s) -> soft (s_delimited p q t s).
Proof. rewrite s_delimited_eq. apply soft_bind. Qed.
Lemma map_opt_soft {A B} (p : sparser E A) (f : A -> option B) s : soft (p s) -> soft (s_map_opt p f s).
Proof. intros Hp. apply s_map_opt_soft. by left. Qed.
Lemma map_res_soft {A B X} (p : sparser E A) (f : A -> result X B) s : soft (p s) -> soft (s_map_res p f s).
Proof. intros Hp. apply s_map_res_soft. by left. Qed.
End Laws.
#[export] Hint Resolve tag_soft pair_soft preceded_soft map_soft value_soft delimited_soft map_opt_soft map_res_soft
  s_context_soft s_recognize_soft s_alt_soft s_char_soft s_one_of_soft s_take_while1_soft : json.
Ltac str_lit := match goal with |- context [str ?x] => let t := eval vm_compute in (str x) in change (str x) with t end.
#[export] Hint Extern 0 (soft (s_tag (str _) _)) => str_lit : json.
#[export] Hint Extern 1 (_ <> _) => lia : json.
#[export] Hint Extern 1 (_ = false) => reflexivity : json.

Section RoundTrip.
Context {E : Type} `{NomStreamLaws E} `{Nfc}.
Implicit Types (s r : list N) (v : Value).

Lemma sp_none c s : is_sp c = false -> sp (c :: s) = IOk (c :: s) [].
Proof. apply (s_take_while_ok is_sp []). constructor. Qed.
Lemma sp_then {A} (p : sparser E A) c s : is_sp c = false -> s_preceded sp p (c :: s) = p (c :: s).
Proof. intros Hc. rewrite s_preceded_eq. by rewrite sp_none. Qed.

(** *** Strings *)
Lemma string_parse_soft c s : c <> 34 -> soft (string_parse (E := E) (c :: s)).
Proof. unfold string_parse. eauto with json. Qed.
Lemma parse_fragment_quote s : soft (parse_fragment (E := E) (34 :: s)).
Proof.
  unfold parse_fragment, nonescaped_string, escape_code, control_code, parse_escaped_whitespace.
  repeat apply s_alt_soft; eauto 8 with json. apply map_soft, s_alt_soft; eauto 8 with json.
Qed.

(** A backslash is followed by a character that may be escaped. *)
Lemma escaped_char d s : d ∈ escapes ->
  s_alt (s_tag [34]) (s_alt (s_tag [92]) (s_alt (s_tag (str "/")) (s_alt (s_tag (str "b")) (s_alt (s_tag (str "f"))
    (s_alt (s_tag (str "n")) (s_alt (s_tag (str "r")) (s_alt (s_tag (str "t")) (s_tag (str "u"))))))))) (d :: s)
  = IOk (E := E) s [d].
Proof.
  intros Hd. unfold escapes in Hd. repeat (apply elem_of_cons in Hd as [->|Hd]); [..|by apply elem_of_nil in Hd].
  all: repeat first [exact (tag1_ok _ s)|apply alt_ok1; exact (tag1_ok _ s)|apply alt_ok2; [by eauto with json|]].
Qed.
Lemma escape_ok d s : d ∈ escapes -> escape_code (E := E) (92 :: d :: s) = IOk s [92; d].
Proof.
  intros Hd. unfold escape_code. apply alt_ok2.
  { unfold control_code. apply map_res_soft, pair_soft. str_lit. apply (s_tag_soft [92]). intros <-. set_solver. }
  apply (s_recognize_ok _ [92; d] s ([92], [d])). cbn [app]. rewrite s_pair_eq, tag1_ok. cbn [ibind].
  by rewrite escaped_char.
Qed.

(** Text starts with an escape or a run of other characters. *)
Lemma legal_split c s : legal (c :: s) = true -> c <> 92 -> exists a s',
  c :: s = a ++ s' /\ a <> [] /\ Forall (fun x => is_nonescaped_string_char x = true) a /\ legal s' = true /\
  (s' = [] \/ exists t, s' = 92 :: t).
Proof.
  revert c. induction s as [|d s IH]; intros c Hl Hc.
  all: cbn [legal] in Hl; apply N.eqb_neq in Hc; rewrite Hc in Hl; apply andb_true_iff in Hl as [Hn Hl].
  - exists [c], []. split_and!; auto.
  - destruct (N.eq_dec d 92) as [->|Hd]; [exists [c], (92 :: s); by split_and!; eauto|].
    destruct (IH d Hl Hd) as (a & s' & -> & Ha & Hall & Hs). exists (c :: a), s'. split_and!; [done|done|by constructor|apply Hs|apply Hs].
Qed.

Lemma parse_fragment_escape d s : d ∈ escapes -> parse_fragment (92 :: d :: s) = IOk (E := E) s (EscapedChar [92; d]).
Proof.
  intros Hd. unfold parse_fragment. apply alt_ok2; [apply map_soft; unfold nonescaped_string; eauto with json|].
  apply alt_ok1. by rewrite s_map_eq, escape_ok.
Qed.
Lemma parse_fragment_literal a c s : a <> [] -> Forall (fun x => is_nonescaped_string_char x = true) a ->
  is_nonescaped_string_char c = false -> parse_fragment (a ++ c :: s) = IOk (E := E) (c :: s) (Literal a).
Proof.
  intros Ha Hall Hc. unfold parse_fragment. apply alt_ok1. unfold nonescaped_string. by rewrite s_map_eq, s_take_while1_ok.
Qed.

Lemma fold_fragments n : forall s acc r, (length s <= n)%nat -> legal s = true ->
  s_fold_many0 parse_fragment acc push_fragment (s ++ 34 :: r) = IOk (E := E) (34 :: r) (acc ++ s).
Proof.
  induction n as [|n IH]; intros [|c s] acc r Hn Hl; try (cbn in Hn; lia).
  1,2: rewrite app_nil_r; apply s_fold_many0_stop, parse_fragment_quote.
  destruct (N.eq_dec c 92) as [->|Hc].
  - destruct s as [|d s]; [done|]. cbn [legal] in Hl. rewrite N.eqb_refl in Hl. apply andb_true_iff in Hl as [Hd%bool_decide_eq_true Hl].
    cbn [app]. erewrite s_fold_many0_more by (apply parse_fragment_escape, Hd || cbn; lia).
    rewrite IH by (done || cbn in Hn; lia). cbn [push_fragment]. by rewrite <- app_assoc.
  - destruct (legal_split c s Hl Hc) as (a & s' & He & Ha & Hall & Hl' & Hs).
    rewrite He in Hn |- *. rewrite <- app_assoc. assert (0 < length a)%nat by (destruct a; [done|cbn; lia]).
    rewrite length_app in Hn.
    assert (parse_fragment (a ++ s' ++ 34 :: r) = IOk (E := E) (s' ++ 34 :: r) (Literal a)) as Hp
      by (by destruct Hs as [->|[t ->]]; apply parse_fragment_literal).
    rewrite (s_fold_many0_more _ _ _ _ _ _ Hp) by (rewrite !length_app; lia).
    rewrite IH by (done || lia). cbn [push_fragment]. by rewrite <- app_assoc.
Qed.
Lemma string_parse_ok s r : legal s = true -> string_parse (34 :: s ++ 34 :: r) = IOk (E := E) r (nfc s).
Proof.
  intros Hl. unfold string_parse. rewrite s_map_eq, s_delimited_eq, s_char_ok. cbn [ibind].
  rewrite (fold_fragments (length s)) by done. cbn [ibind]. by rewrite s_char_ok.
Qed.
Lemma cstring_ok s r : string_ok s = true -> cstring (string_text s ++ r) = IOk (E := E) r s.
Proof.
  intros [Hl Hn%bool_decide_eq_true]%andb_true_iff. unfold cstring, string_text, between. cbn [app]. rewrite <- app_assoc. cbn [app].
  rewrite s_map_eq, string_parse_ok by done. cbn [ibind]. unfold cstring_from. by rewrite !Hn.
Qed.

(** *** Numbers *)
Lemma digits_soft c s : is_digit c = false -> soft (digits (E := E) (c :: s)).
Proof.
  intros Hc. unfold digits. apply s_alt_soft.
  - str_lit. apply tag_soft. by intros <-.
  - apply s_recognize_soft, pair_soft, s_one_of_soft. str_lit. intros Hin.
    repeat (apply elem_of_cons in Hin as [->|Hin]; [done|]). by apply elem_of_nil in Hin.
Qed.
Lemma nonzero_digit c : 49 <= c <= 57 -> c ∈ str "123456789".
Proof. intros Hc. str_lit. assert (c = 49 \/ c = 50 \/ c = 51 \/ c = 52 \/ c = 53 \/ c = 54 \/ c = 55 \/ c = 56 \/ c = 57) by lia. set_solver. Qed.
Lemma zero_soft c s : 49 <= c <= 57 -> soft (s_tag (E := E) (str "0") (c :: s)).
Proof. intros Hc. str_lit. apply tag_soft. lia. Qed.
Lemma digits_ok n c r : is_digit c = false -> digits (dec_text n ++ c :: r) = IOk (E := E) (c :: r) (dec_text n).
Proof.
  intros Hc. unfold digits. destruct (dec_text_shape n) as [->|(d & s & -> & Hd & Hs)]; [apply alt_ok1, s_tag_ok|].
  cbn [app]. apply alt_ok2; [by apply zero_soft|]. change (d :: s ++ c :: r) with ((d :: s) ++ c :: r).
  eapply s_recognize_ok. cbn [app]. rewrite s_pair_eq, s_one_of_ok by (by apply nonzero_digit). cbn [ibind].
  by rewrite s_take_while_ok.
Qed.
Lemma number_ok_parse n c r : number_ok n = true -> is_digit c = false ->
  number (number_text n ++ c :: r) = IOk (E := E) (c :: r) (JNumber n).
Proof.
  intros Hn Hc. unfold number. apply s_context_ok. destruct n as [x|z]; cbn [number_ok number_text] in *.
  - apply alt_ok2.
    + unfold signed, minus. apply preceded_soft. destruct (dec_text_shape x) as [->|(d & s & -> & Hd & Hs)]; cbn [app]; eauto with json.
      str_lit. cbn [app]. eauto with json.
    + unfold unsigned. eapply s_map_opt_ok; [by apply digits_ok|]. unfold parse_u64. by rewrite digits_value_dec, Hn.
  - apply andb_true_iff in Hn as [Hneg Hmin]. rewrite Hneg. apply Z.ltb_lt in Hneg, Hmin. apply alt_ok1. unfold signed, minus.
    cbn [app]. rewrite s_preceded_eq, s_char_ok. cbn [ibind]. eapply s_map_opt_ok; [by apply digits_ok|].
    unfold parse_i64. rewrite digits_value_dec. destruct (N.ltb_spec (Z.to_N (- z)) (2 ^ 63)) as [_|Hge]; [cbn; do 3 f_equal; lia|lia].
Qed.

(** *** Values *)
Lemma json_string_soft c s : c <> 34 -> soft (json_string (E := E) (c :: s)).
Proof. intros Hc. unfold json_string, cstring. by apply s_context_soft, map_soft, map_soft, string_parse_soft. Qed.
Lemma number_soft c s : c <> 45 -> is_digit c = false -> soft (number (E := E) (c :: s)).
Proof.
  intros Hc Hd. unfold number, signed, unsigned, minus. apply s_context_soft, s_alt_soft; [eauto with json|].
  by apply map_opt_soft, digits_soft.
Qed.
Lemma object_soft j c s : c <> 123 -> soft (object (E := E) j (c :: s)).
Proof. unfold object. eauto with json. Qed.
Lemma array_soft j c s : c <> 91 -> soft (array (E := E) j (c :: s)).
Proof. unfold array. eauto with json. Qed.
Lemma boolean_soft c s : c <> 116 -> c <> 102 -> soft (boolean (E := E) (c :: s)).
Proof. intros Ht Hf. unfold boolean. apply s_context_soft, s_alt_soft; apply value_soft; str_lit; eauto with json. Qed.
Lemma json_null_soft c s : c <> 110 -> soft (json_null (E := E) (c :: s)).
Proof. intros Hn. unfold json_null. apply value_soft. str_lit. eauto with json. Qed.
Hint Resolve json_string_soft number_soft object_soft array_soft boolean_soft json_null_soft : json.

(** No value starts with a closing bracket or brace. *)
Lemma json_close_soft fuel c s : c ∈ [93; 125] -> soft (json (E := E) (S fuel) (c :: s)).
Proof.
  intros Hc. cbn [json]. repeat (apply elem_of_cons in Hc as [->|Hc]); [..|by apply elem_of_nil in Hc].
  all: rewrite sp_then by done; repeat apply s_alt_soft; auto with json.
Qed.

Lemma intercalate_cons x y l : intercalate (x :: y :: l) = x ++ 44 :: intercalate (y :: l).
Proof. done. Qed.

(** Elements separated by commas and followed by a closing delimiter. *)
Lemma separated_ok {A} (p : sparser E A) (txt : A -> list N) close r l : close ∈ [93; 125] ->
  soft (p (close :: r)) ->
  Forall (fun a => forall c r, c ∈ [44; 93; 125] -> p (txt a ++ c :: r) = IOk (c :: r) a) l ->
  s_separated_list0 (s_preceded sp (s_char 44)) p (intercalate (map txt l) ++ close :: r) = IOk (close :: r) l.
Proof.
  intros Hclose Hsoft Hl. destruct l as [|a l]; [by apply s_separated_list0_nil|].
  revert a Hl. induction l as [|b l IH]; intros a Hl; inversion_clear Hl as [|? ? Ha Hl']; cbn [map].
  - cbn [intercalate]. apply s_separated_list0_last; [apply Ha; set_solver|].
    repeat (apply elem_of_cons in Hclose as [->|Hclose]); [..|by apply elem_of_nil in Hclose].
    all: rewrite sp_then by done; auto with json.
  - rewrite intercalate_cons, <- app_assoc. cbn [app]. specialize (IH b Hl'). inversion_clear Hl' as [|? ? Hb _].
    erewrite s_separated_list0_more; [|apply Ha; set_solver|rewrite sp_then by done; apply s_char_ok|rewrite (length_app (txt a)); cbn [length]; lia|].
    + cbn [map] in IH. by rewrite IH.
    + destruct l as [|d l]; cbn [map]; [cbn [intercalate]; rewrite Hb by set_solver; apply soft_ok|].
      rewrite intercalate_cons, <- app_assoc. cbn [app]. rewrite Hb by set_solver. apply soft_ok.
Qed.

(** What must follow a value for its end to be known. *)
Definition ended v r : bool :=
  match v, r with JNumber _, c :: _ => negb (is_digit c) | JNumber _, [] => false | _, _ => true end.
Lemma ended_sep v c r : c ∈ [44; 93; 125] -> ended v (c :: r) = true.
Proof. intros Hc. destruct v; try done. cbn. repeat (apply elem_of_cons in Hc as [->|Hc]; [done|]). by apply elem_of_nil in Hc. Qed.

Definition pair_text (kv : list N * Value) : list N := string_text kv.1 ++ 58 :: to_text kv.2.

(** A value's text does not start with a space. *)
Lemma to_text_head v : exists c s, to_text v = c :: s /\ is_sp c = false.
Proof.
  destruct v as [m|vs|s|n|[|]|]; cbn [to_text]; try (unfold string_text, between; by eauto).
  all: try (str_lit; by eauto).
  assert (forall x, exists c s, dec_text x = c :: s /\ is_sp c = false) as Hd.
  { intros x. destruct (dec_text_shape x) as [->|(d & s & -> & Hd & _)]; [str_lit; by eauto|].
    exists d, s. split; [done|]. apply bool_decide_eq_false. set_unfold. lia. }
  destruct n as [x|z]; cbn [number_text]; [apply Hd|]. destruct (z <? 0)%Z; by eauto.
Qed.

Lemma json_pair_soft j c s : is_sp c = false -> c <> 34 -> soft (json_pair (E := E) j (c :: s)).
Proof.
  intros Hsp Hc. unfold json_pair, cstring. rewrite s_separated_pair_eq. apply soft_bind. rewrite sp_then by done.
  by apply map_soft, string_parse_soft.
Qed.
Lemma json_pair_ok j kv r : string_ok kv.1 = true -> j (to_text kv.2 ++ r) = IOk r kv.2 ->
  json_pair j (pair_text kv ++ r) = IOk (E := E) r kv.
Proof.
  intros Hk Hv. unfold json_pair. rewrite s_separated_pair_eq. unfold pair_text. rewrite <- app_assoc. cbn [app].
  assert (s_preceded sp cstring (string_text kv.1 ++ 58 :: to_text kv.2 ++ r) = IOk (E := E) (58 :: to_text kv.2 ++ r) kv.1) as ->
    by (rewrite <- (cstring_ok kv.1) by done; by apply sp_then).
  cbn [ibind]. erewrite cut_ok by (rewrite sp_then by done; apply s_char_ok). cbn [ibind]. rewrite Hv. by destruct kv.
Qed.

Lemma object_ok j m r : keys_sorted m = true ->
  Forall (fun kv => forall c r, c ∈ [44; 93; 125] -> json_pair j (pair_text kv ++ c :: r) = IOk (c :: r) kv) m ->
  object j (to_text (Object m) ++ r) = IOk (E := E) r (Object m).
Proof.
  intros Hs Hm. unfold object. apply s_context_ok. cbn [to_text between app]. rewrite s_preceded_eq, s_char_ok. cbn [ibind].
  rewrite <- app_assoc. cbn [app]. apply cut_ok. rewrite s_terminated_eq, s_map_eq. unfold members.
  rewrite (separated_ok (json_pair j) pair_text) by (done || set_solver || by apply json_pair_soft). cbn [ibind].
  rewrite sp_then, s_char_ok by done. cbn [ibind]. by rewrite map_collect_sorted.
Qed.
Lemma array_ok j vs r : (forall r, soft (j (93 :: r))) ->
  Forall (fun v => forall c r, c ∈ [44; 93; 125] -> j (to_text v ++ c :: r) = IOk (c :: r) v) vs ->
  array j (to_text (Array vs) ++ r) = IOk (E := E) r (Array vs).
Proof.
  intros Hsoft Hvs. unfold array. rewrite s_map_eq. erewrite s_context_ok; [cbn [ibind]; reflexivity|].
  cbn [to_text between app]. rewrite s_preceded_eq, s_char_ok. cbn [ibind]. rewrite <- app_assoc. cbn [app]. apply cut_ok.
  rewrite s_terminated_eq, (separated_ok j to_text) by (done || set_solver). cbn [ibind]. by rewrite sp_then, s_char_ok by done.
Qed.

Lemma json_head fuel v r : json (E := E) (S fuel) (to_text v ++ r) =
  s_alt json_string (s_alt number (s_alt (object (json fuel)) (s_alt (array (json fuel)) (s_alt boolean json_null)))) (to_text v ++ r).
Proof. cbn [json]. destruct (to_text_head v) as (c & s & -> & Hc). by apply sp_then. Qed.
Lemma depth_le {A} (f : A -> nat) l x n : (max_list (map f l) <= n)%nat -> x ∈ l -> (f x <= n)%nat.
Proof. intros Hl Hx. transitivity (max_list (map f l)); [|done]. apply max_list_elem_of_le. by apply (list_elem_of_fmap_2 f). Qed.

(** Goes on to the next alternative, as the text starts with another character. *)
Ltac next_alt := apply alt_ok2; [cbn [to_text between app]; try (str_lit; cbn [app]); by auto with json|].

Lemma json_ok v : forall fuel r, canonical v = true -> (depth v <= fuel)%nat -> ended v r = true ->
  json fuel (to_text v ++ r) = IOk (E := E) r v.
Proof.
  induction v as [m IH|vs IH|s|n|b|] using value_ind; intros [|fuel] r Hc Hd He; try (cbn in Hd; lia).
  all: rewrite json_head; cbn [canonical depth] in *.
  - apply andb_true_iff in Hc as [Hs Hc]. do 2 next_alt. apply alt_ok1, object_ok; [done|].
    apply Forall_forall. intros kv Hkv c r' Hsep. rewrite Forall_forall in IH.
    apply list_elem_of_In in Hkv as Hin. apply (proj1 (forallb_forall _ _) Hc), andb_true_iff in Hin as [Hk Hv].
    apply json_pair_ok; [done|]. apply IH; [done|done|apply (depth_le (fun kv => depth kv.2) m); [lia|done]|by apply ended_sep].
  - do 3 next_alt. destruct fuel as [|fuel]; [lia|].
    apply alt_ok1, array_ok; [intros r'; apply json_close_soft; set_solver|].
    apply Forall_forall. intros v Hin c r' Hsep. rewrite Forall_forall in IH. apply IH; [done| | |by apply ended_sep].
    + apply (proj1 (forallb_forall _ _) Hc). by apply list_elem_of_In.
    + apply (depth_le depth vs); [lia|done].
  - apply alt_ok1, s_context_ok. cbn [to_text]. by rewrite s_map_eq, cstring_ok.
  - destruct r as [|c r]; [done|]. apply negb_true_iff in He. apply alt_ok2; [|apply alt_ok1; by apply number_ok_parse].
    destruct n as [x|z]; cbn [to_text number_text]; [|cbn in Hc; apply andb_true_iff in Hc as [-> _]; cbn [app]; by auto with json].
    destruct (dec_text_shape x) as [->|(d & s & -> & Hds & _)]; cbn [app]; [str_lit|]; cbn [app]; by auto with json.
  - do 4 (apply alt_ok2; [destruct b; cbn [to_text]; str_lit; cbn [app]; by auto with json|]). apply alt_ok1, s_context_ok.
    destruct b; [apply alt_ok1|apply alt_ok2]; cbn [to_text].
    1,3: by rewrite s_value_eq, s_tag_ok. apply value_soft. repeat str_lit. cbn [app]. by eauto with json.
  - do 5 next_alt. cbn [to_text]. unfold json_null. by rewrite s_value_eq, s_tag_ok.
Qed.


(** A number that is not followed by anything may go on, so parsing it on its own fails. *)
Lemma number_alone n fuel : n <> 0 -> value_from_str (S fuel) (dec_text n) = Err (UnexpectedEnd (E := E)).
Proof.
  intros Hn. unfold value_from_str. rewrite <- (app_nil_r (dec_text n)).
  change (dec_text n) with (to_text (JNumber (U64 n))). rewrite json_head. cbn [to_text number_text].
  assert (exists c s, dec_text n = c :: s /\ 49 <= c <= 57 /\ Forall (fun c => is_digit c = true) s) as (c & s & -> & Hc & Hs).
  { destruct (dec_text_shape n) as [He|?]; [|done]. exfalso. apply Hn. by rewrite <- (digits_value_dec n), He. }
  rewrite app_nil_r.
  rewrite alt_more2; [done|by auto with json|]. apply alt_more1. unfold number. apply s_context_more, alt_more2.
  { unfold signed, minus. auto with json. }
  unfold unsigned, digits. apply s_map_opt_more, alt_more2; [by apply zero_soft|]. apply s_recognize_more.
  rewrite s_pair_eq, s_one_of_ok by (by apply nonzero_digit). cbn [ibind]. by rewrite s_take_while_more.
Qed.
End RoundTrip.
Import ListStream.

(** [canonical_injective]: two values of that kind with the same canonical form are equal, so that what is signed
    determines the value. *)
Theorem canonical_injective `{Nfc} v w : canonical v = true -> canonical w = true -> to_text v = to_text w -> v = w.
Proof.
  intros Hv Hw He. set (fuel := Nat.max (depth v) (depth w)).
  assert (forall u, canonical u = true -> (depth u <= fuel)%nat -> json fuel (to_text u ++ [44]) = IOk (E := unit) [44] u) as Hj.
  { intros u Hu Hd. apply json_ok; [done|done|]. by destruct u. }
  pose proof (Hj v Hv ltac:(lia)) as H1. rewrite He, Hj in H1 by (done || lia). congruence.
Qed.

(** Strings are written as they are: a quote in a string ends it, so that without [canonical] different
    values have the same form. *)
Example unescaped_quote :
  to_text (Array [JString (str "a"); JString (str "b")]) = to_text (Array [JString ([97; 34; 44; 34; 98])]).
Proof. reflexivity. Qed.

Module CanonicalWitness.
#[local] Instance plain : Nfc := {| nfc s := s; nfc_idem s := eq_refl |}.
Definition sample : Value :=
  Object [(str "a", Array []); (str "b", Array [JNumber (U64 18446744073709551615); JNumber (I64 (-7)); Null; JBool false]);
          (str "c", JString [92; 34; 98])].
(** The least [i64] is written but not read. *)
Example i64_min_rejected : exists e,
  value_from_str 9 (to_text (Array [JNumber (I64 (- 2 ^ 63))])) = Err (E := FromStrError (E := unit)) e.
Proof. eexists. vm_compute. reflexivity. Qed.
Lemma canonical_injective_witness : exists v w, canonical v = true /\ canonical w = true /\ to_text v = to_text w /\ v = w.
Proof.
  exists sample, (Object (map_collect [(str "c", JString [92; 34; 98]); (str "a", Array []);
    (str "b", Array [JNumber (U64 18446744073709551615); JNumber (I64 (-7)); Null; JBool false])])).
  split; [reflexivity|]. split; [reflexivity|]. split; [reflexivity|]. by apply canonical_injective.
Defined.
End CanonicalWitness.
