(* ===== verification/CanonicalFormatter.v ===== *)
(** * The formatter of canonical JSON

    [link-canonical/src/formatter.rs] and [Cjson] of [link-canonical/src/lib.rs]: the state machine that
    buffers the members of the objects being written, driven by the serializer of serde_json through the methods
    of its [Formatter].  What the default formatter of serde_json writes is the class [CompactFormatter]; which
    methods the serializer calls for a value is [calls], the protocol the comment on [Object] in the source
    describes. *)
From Stdlib Require Import NArith ZArith Lia.
From stdpp Require Import base list sets.
From Stdlib Require String.
Import String.StringSyntax.
From S2P Require Import Prelude RefFormat CanonicalJson.
#[local] Open Scope N_scope.

(** ** Interface *)

Inductive CharEscape :=
| Quote | ReverseSolidus | Solidus | Backspace | FormFeed | LineFeed | CarriageReturn | Tab | AsciiControl (b : N).

(** What each method of [serde_json::ser::CompactFormatter] writes. *)
Class CompactFormatter := {
  c_null : list N;
  c_bool : bool -> list N;
  c_uint : N -> list N;
  c_int : Z -> list N;
  c_number_str : list N -> list N;
  c_begin_string : list N;
  c_end_string : list N;
  c_char_escape : CharEscape -> list N;
  c_begin_array : list N;
  c_end_array : list N;
  c_begin_array_value : bool -> list N;
  c_end_array_value : list N;
  c_begin_object : list N;
  c_end_object : list N;
  c_begin_object_key : bool -> list N;
  c_end_object_key : list N;
  c_begin_object_value : list N;
  c_end_object_value : list N;
}.

(** The escapes of JSON: a backslash and a letter, or the code of a control character. *)
Definition hex_digit (d : N) : N := if d <? 10 then 48 + d else 87 + d.
Definition escape_text (e : CharEscape) : list N :=
  92 :: match e with
    | Quote => [34] | ReverseSolidus => [92] | Solidus => [47] | Backspace => [98] | FormFeed => [102] | LineFeed => [110]
    | CarriageReturn => [114] | Tab => [116]
    | AsciiControl b => [117; 48; 48; hex_digit (b / 16); hex_digit (b mod 16)] end.

(** Its documentation: JSON without white space. *)
Class CompactFormatterLaws `{CompactFormatter} := {
  c_null_law : c_null = str "null";
  c_bool_law b : c_bool b = if b then str "true" else str "false";
  c_uint_law n : c_uint n = number_text (U64 n);
  c_int_law z : c_int z = number_text (I64 z);
  c_string_law : c_begin_string = [34] /\ c_end_string = [34];
  c_char_escape_law e : c_char_escape e = escape_text e;
  c_array_law : c_begin_array = [91] /\ c_end_array = [93] /\ c_end_array_value = [];
  c_array_value_law first : c_begin_array_value first = if first then [] else [44];
  c_object_law : c_begin_object = [123] /\ c_end_object = [125];
  c_object_key_law first : c_begin_object_key first = if first then [] else [44];
  c_object_value_law : c_end_object_key = [] /\ c_begin_object_value = [58] /\ c_end_object_value = [];
}.

(** ** The formatter *)

Inductive FormatError := FloatNotAllowed | NoObject | RawFragmentInvalid.

Record Object := mkObject {
  obj : list (list N * list N);
  next_key : list N;
  next_value : list N;
  key_done : bool;
}.
Definition object_default : Object := mkObject [] [] [] false.

(** [CanonicalFormatter], and what was written to the writer it is given; the top of the stack comes first. *)
Record Formatter := mkFormatter {
  object_stack : list Object;
  output : list N;
}.
Definition formatter_new (out : list N) : Formatter := mkFormatter [] out.

(** Writing to [self.writer(writer)]. *)
Definition write (b : list N) (st : Formatter) : Formatter :=
  match object_stack st with
  | [] => mkFormatter [] (output st ++ b)
  | o :: os =>
      let o' := if key_done o then mkObject (obj o) (next_key o) (next_value o ++ b) (key_done o)
                else mkObject (obj o) (next_key o ++ b) (next_value o) (key_done o) in
      mkFormatter (o' :: os) (output st)
  end.

(** [obj_mut] and an update. *)
Definition obj_mut (f : Object -> Object) (st : Formatter) : result FormatError Formatter :=
  match object_stack st with
  | [] => Err NoObject
  | o :: os => Ok (mkFormatter (f o :: os) (output st))
  end.

(** The methods the serializer calls. *)
Inductive Call :=
| WriteNull | WriteBool (b : bool) | WriteUint (n : N) | WriteInt (z : Z) | WriteFloat
| WriteNumberStr (s : list N)
| BeginString | EndString | WriteStringFragment (s : list N) | WriteCharEscape (e : CharEscape)
| BeginArray | EndArray | BeginArrayValue (first : bool) | EndArrayValue
| BeginObject | EndObject | BeginObjectKey (first : bool) | EndObjectKey | BeginObjectValue | EndObjectValue.

Section Formatter.
Context `{CompactFormatter} `{Nfc}.

Definition write_number_str (s : list N) (st : Formatter) : result FormatError Formatter :=
  if existsb (fun c => (c =? 46) || (c =? 101) || (c =? 69)) s then Err FloatNotAllowed
  else Ok (write (c_number_str s) st).

(** One character of the normalized fragment after the other. *)
Definition write_string_fragment (s : list N) (st : Formatter) : result FormatError Formatter :=
  Ok (foldl (fun st ch => write [ch] st) st (nfc s)).

Definition begin_object (st : Formatter) : result FormatError Formatter :=
  let st := write c_begin_object st in
  Ok (mkFormatter (object_default :: object_stack st) (output st)).

(** The loop of [end_object]. *)
Fixpoint write_members (first : bool) (ms : list (list N * list N)) (st : Formatter) : Formatter :=
  match ms with
  | [] => st
  | (key, value) :: ms =>
      let st := write (c_begin_object_key first) st in
      let st := write key st in
      let st := write c_end_object_key st in
      let st := write c_begin_object_value st in
      let st := write value st in
      let st := write c_end_object_value st in
      write_members false ms st
  end.
Definition end_object (st : Formatter) : result FormatError Formatter :=
  match object_stack st with
  | [] => Err NoObject
  | o :: os => Ok (write c_end_object (write_members true (obj o) (mkFormatter os (output st))))
  end.
Definition begin_object_key : Formatter -> result FormatError Formatter :=
  obj_mut (fun o => mkObject (obj o) (next_key o) (next_value o) false).
Definition end_object_key : Formatter -> result FormatError Formatter :=
  obj_mut (fun o => mkObject (obj o) (next_key o) (next_value o) true).
Definition end_object_value : Formatter -> result FormatError Formatter :=
  obj_mut (fun o => mkObject (map_insert (next_key o) (next_value o) (obj o)) [] [] (key_done o)).

(** [impl Formatter for CanonicalFormatter] *)
Definition call (c : Call) (st : Formatter) : result FormatError Formatter :=
  match c with
  | WriteNull => Ok (write c_null st)
  | WriteBool b => Ok (write (c_bool b) st)
  | WriteUint n => Ok (write (c_uint n) st)
  | WriteInt z => Ok (write (c_int z) st)
  | WriteFloat => Err FloatNotAllowed
  | WriteNumberStr s => write_number_str s st
  | BeginString => Ok (write c_begin_string st)
  | EndString => Ok (write c_end_string st)
  | WriteStringFragment s => write_string_fragment s st
  | WriteCharEscape e => Ok (write (c_char_escape e) st)
  | BeginArray => Ok (write c_begin_array st)
  | EndArray => Ok (write c_end_array st)
  | BeginArrayValue first => Ok (write (c_begin_array_value first) st)
  | EndArrayValue => Ok (write c_end_array_value st)
  | BeginObject => begin_object st
  | EndObject => end_object st
  | BeginObjectKey _ => begin_object_key st
  | EndObjectKey => end_object_key st
  | BeginObjectValue => Ok st
  | EndObjectValue => end_object_value st
  end.
Fixpoint run (cs : list Call) (st : Formatter) : result FormatError Formatter :=
  match cs with
  | [] => Ok st
  | c :: cs => match call c st with Ok st' => run cs st' | Err e => Err e end
  end.

(** [write_raw_fragment]: the calls of the value the fragment parses to, on a new formatter. *)
Definition write_raw_fragment (fragment : option (list Call)) (st : Formatter) : result FormatError Formatter :=
  match fragment with
  | None => Err RawFragmentInvalid
  | Some cs =>
      match run cs (formatter_new []) with
      | Ok st' => Ok (write (output st') st)
      | Err e => Err e
      end
  end.
End Formatter.

(** ** What is serialized *)

(** A string as the serializer splits it, into text and characters that are escaped. *)
Inductive Piece := Fragment (s : list N) | Escape (e : CharEscape).
Unset Elimination Schemes.
Inductive SValue :=
| SNull | SBool (b : bool) | SUint (n : N) | SInt (z : Z) | SFloat | SNumberStr (s : list N)
| SString (ps : list Piece)
| SArray (vs : list SValue)
| SObject (ms : list (list Piece * SValue)).
Set Elimination Schemes.

(** For each element, told whether it is the first. *)
Fixpoint each {A B} (f : bool -> A -> list B) (first : bool) (l : list A) : list B :=
  match l with [] => [] | a :: l => f first a ++ each f false l end.

Definition piece_call (p : Piece) : Call :=
  match p with Fragment s => WriteStringFragment s | Escape e => WriteCharEscape e end.
Definition string_calls (ps : list Piece) : list Call := BeginString :: (piece_call <$> ps) ++ [EndString].

(** [serde_json::Serializer]: the calls it makes, in the order its [Formatter] documents. *)
Class Serializer := {
  serialize : SValue -> list Call;
  serialize_null : serialize SNull = [WriteNull];
  serialize_bool b : serialize (SBool b) = [WriteBool b];
  serialize_uint n : serialize (SUint n) = [WriteUint n];
  serialize_int z : serialize (SInt z) = [WriteInt z];
  serialize_float : serialize SFloat = [WriteFloat];
  serialize_number_str s : serialize (SNumberStr s) = [WriteNumberStr s];
  serialize_string ps : serialize (SString ps) = string_calls ps;
  serialize_array vs : serialize (SArray vs) =
    BeginArray :: each (fun first v => BeginArrayValue first :: serialize v ++ [EndArrayValue]) true vs ++ [EndArray];
  serialize_object ms : serialize (SObject ms) =
    BeginObject :: each (fun first kv =>
      BeginObjectKey first :: string_calls kv.1 ++ EndObjectKey :: BeginObjectValue :: serialize kv.2 ++ [EndObjectValue]) true ms ++ [EndObject];
}.

(** [Cjson::canonical_form] *)
Definition canonical_form `{CompactFormatter} `{Nfc} `{Serializer} (v : SValue) : result FormatError (list N) :=
  match run (serialize v) (formatter_new []) with Ok st => Ok (output st) | Err e => Err e end.

(** ** What is written *)
Section Render.
Context `{CompactFormatter} `{Nfc}.

Definition piece_text (p : Piece) : list N := match p with Fragment s => nfc s | Escape e => c_char_escape e end.
Definition pieces_text (ps : list Piece) : list N := c_begin_string ++ concat (piece_text <$> ps) ++ c_end_string.
Definition member_text (first : bool) (kv : list N * list N) : list N :=
  c_begin_object_key first ++ kv.1 ++ c_end_object_key ++ c_begin_object_value ++ kv.2 ++ c_end_object_value.
Fixpoint collect_ok {A B} (f : A -> result FormatError B) (l : list A) : result FormatError (list B) :=
  match l with
  | [] => Ok []
  | a :: l => match f a with Err e => Err e | Ok b => match collect_ok f l with Err e => Err e | Ok bs => Ok (b :: bs) end end
  end.
Definition map_ok {E A B} (f : A -> B) (r : result E A) : result E B := match r with Ok a => Ok (f a) | Err e => Err e end.

(** Objects with their members sorted by the text of their keys, the last one of those with equal keys. *)
Fixpoint render (v : SValue) : result FormatError (list N) :=
  match v with
  | SNull => Ok c_null
  | SBool b => Ok (c_bool b)
  | SUint n => Ok (c_uint n)
  | SInt z => Ok (c_int z)
  | SFloat => Err FloatNotAllowed
  | SNumberStr s => if existsb (fun c => (c =? 46) || (c =? 101) || (c =? 69)) s then Err FloatNotAllowed else Ok (c_number_str s)
  | SString ps => Ok (pieces_text ps)
  | SArray vs =>
      map_ok (fun ts => c_begin_array ++
          each (fun first t => c_begin_array_value first ++ t ++ c_end_array_value) true ts ++ c_end_array)
        (collect_ok render vs)
  | SObject ms =>
      map_ok (fun kvs => c_begin_object ++
          each member_text true (map_collect kvs) ++ c_end_object)
        (collect_ok (fun kv => map_ok (fun t => (pieces_text kv.1, t)) (render kv.2)) ms)
  end.
End Render.

Lemma svalue_ind (P : SValue -> Prop) (H0 : P SNull) (HB : forall b, P (SBool b)) (HU : forall n, P (SUint n))
    (HI : forall z, P (SInt z)) (HF : P SFloat) (HN : forall s, P (SNumberStr s)) (HS : forall ps, P (SString ps))
    (HA : forall vs, Forall P vs -> P (SArray vs)) (HO : forall ms, Forall (fun kv => P kv.2) ms -> P (SObject ms)) :
  forall v, P v.
Proof.
  fix IH 1. intros [| | | | | | |vs|ms]; [apply H0|apply HB|apply HU|apply HI|apply HF|apply HN|apply HS|apply HA|apply HO].
  - induction vs as [|v vs IHvs]; constructor; [apply IH|exact IHvs].
  - induction ms as [|[k v] ms IHms]; constructor; [apply IH|exact IHms].
Qed.

Section Runs.
Context `{CompactFormatter} `{Nfc}.

Lemma write_nil st : write [] st = st.
Proof. destruct st as [[|[o k v [|]] os] out]; cbn; by rewrite app_nil_r. Qed.
Lemma write_write a b st : write b (write a st) = write (a ++ b) st.
Proof. destruct st as [[|[o k v [|]] os] out]; cbn; by rewrite <- app_assoc. Qed.
Lemma write_chars s st : foldl (fun st ch => write [ch] st) st s = write s st.
Proof. revert st. induction s as [|c s IH]; intros st; cbn [foldl]; [by rewrite write_nil|]. by rewrite IH, write_write. Qed.

Lemma run_app cs cs' st : run (cs ++ cs') st = match run cs st with Ok st' => run cs' st' | Err e => Err e end.
Proof. revert st. induction cs as [|c cs IH]; intros st; cbn [run app]; [done|]. by destruct (call c st). Qed.

(** Calls that write a text to the current writer. *)
Definition writes (cs : list Call) (t : result FormatError (list N)) : Prop :=
  forall st, run cs st = map_ok (fun t => write t st) t.

Lemma writes_ok cs cs' t t' : writes cs (Ok t) -> writes cs' (Ok t') -> writes (cs ++ cs') (Ok (t ++ t')).
Proof. intros H1 H2 st. rewrite run_app, H1. cbn [map_ok]. rewrite H2. cbn [map_ok]. by rewrite write_write. Qed.
Lemma writes_string ps : writes (string_calls ps) (Ok (pieces_text ps)).
Proof.
  unfold string_calls, pieces_text. apply (writes_ok [BeginString]); [done|]. apply writes_ok; [|done].
  induction ps as [|p ps IH]; [intros st; cbn; by rewrite write_nil|]. cbn [fmap list_fmap concat].
  apply (writes_ok [piece_call p]); [|exact IH]. intros st. destruct p; cbn [piece_call run call map_ok piece_text]; [|done].
  unfold write_string_fragment. by rewrite write_chars.
Qed.

Lemma writes_array (f : SValue -> list Call) vs : Forall (fun v => writes (f v) (render v)) vs -> forall first,
  writes (each (fun first v => BeginArrayValue first :: f v ++ [EndArrayValue]) first vs)
    (map_ok (each (fun first t => c_begin_array_value first ++ t ++ c_end_array_value) first) (collect_ok render vs)).
Proof.
  induction 1 as [|v vs Hv _ IH]; intros first st; cbn [each collect_ok map_ok]; [by rewrite write_nil|].
  cbn [app run call]. rewrite <- app_assoc, run_app, Hv. destruct (render v) as [t|e]; cbn [map_ok]; [|done].
  cbn [app run call]. rewrite IH. destruct (collect_ok render vs) as [ts|e]; cbn [map_ok each]; [|done].
  by rewrite !write_write, <- !app_assoc.
Qed.

(** The members of an object, collected in the object on top of the stack. *)
Lemma run_members (f : SValue -> list Call) ms : Forall (fun kv => writes (f kv.2) (render kv.2)) ms -> forall first acc kd os out,
  run (each (fun first kv => BeginObjectKey first :: string_calls kv.1 ++ EndObjectKey :: BeginObjectValue
         :: f kv.2 ++ [EndObjectValue]) first ms) (mkFormatter (mkObject acc [] [] kd :: os) out) =
  map_ok (fun kvs => mkFormatter (mkObject (foldl (fun m kv => map_insert kv.1 kv.2 m) acc kvs) [] []
           (match kvs with [] => kd | _ => true end) :: os) out)
    (collect_ok (fun kv => map_ok (fun t => (pieces_text kv.1, t)) (render kv.2)) ms).
Proof.
  induction 1 as [|[k v] ms Hv _ IH]; intros first acc kd os out; cbn [each collect_ok map_ok]; [done|].
  cbn [app run call begin_object_key obj_mut object_stack obj next_key next_value output fst snd] in *.
  rewrite <- app_assoc, run_app, writes_string. cbn [map_ok write object_stack key_done].
  cbn [app run call end_object_key obj_mut object_stack obj next_key next_value output].
  rewrite <- app_assoc, run_app, Hv. destruct (render v) as [t|e]; cbn [map_ok]; [|done].
  cbn [write object_stack key_done app run call end_object_value obj_mut obj next_key next_value output].
  rewrite IH. by destruct (collect_ok _ ms) as [[|kv kvs]|e].
Qed.

Lemma write_members_eq first ms st : write_members first ms st = write (each member_text first ms) st.
Proof.
  revert first st. induction ms as [|[k v] ms IH]; intros first st; cbn [write_members each]; [by rewrite write_nil|].
  rewrite IH, !write_write. f_equal. unfold member_text. cbn [fst snd]. by rewrite <- !app_assoc.
Qed.
Lemma formatter_eta st : mkFormatter (object_stack st) (output st) = st.
Proof. by destruct st. Qed.

Context `{Serializer}.
Lemma serialize_writes v : writes (serialize v) (render v).
Proof.
  induction v as [|b|n|z| |s|ps|vs IH|ms IH] using svalue_ind.
  - by rewrite serialize_null.
  - by rewrite serialize_bool.
  - by rewrite serialize_uint.
  - by rewrite serialize_int.
  - by rewrite serialize_float.
  - rewrite serialize_number_str. intros st. cbn [run call render]. unfold write_number_str. by destruct (existsb _ s).
  - rewrite serialize_string. apply writes_string.
  - rewrite serialize_array. intros st. cbn [run call render]. rewrite run_app, (writes_array serialize) by done.
    destruct (collect_ok render vs) as [ts|e]; [|done]. cbn [map_ok run call]. by rewrite !write_write, <- ?app_assoc.
  - rewrite serialize_object. intros st. cbn [run call render]. unfold begin_object, object_default. rewrite run_app, run_members by done.
    destruct (collect_ok _ ms) as [kvs|e]; [|done]. cbn [map_ok run call]. unfold end_object. cbn [object_stack obj output].
    by rewrite formatter_eta, write_members_eq, !write_write, <- ?app_assoc.
Qed.
End Runs.

(** ** Theorems *)
Section Theorems.
Context `{CompactFormatter} `{Nfc} `{Serializer}.

(** [canonical_form_render]: serializing through the formatter never fails for want of an object and writes the
    sorted text of the value; it fails exactly when the value has a floating point number. *)
Theorem canonical_form_render v : canonical_form v = render v.
Proof. unfold canonical_form. rewrite serialize_writes. by destruct (render v). Qed.

(** A raw fragment is written in canonical form to the current writer. *)
Lemma write_raw_fragment_eq v st : write_raw_fragment (Some (serialize v)) st = map_ok (fun t => write t st) (render v).
Proof. unfold write_raw_fragment. rewrite serialize_writes. by destruct (render v). Qed.
End Theorems.

(** *** Sorted maps *)
Lemma map_get_lt {V} k (m : list (list N * V)) : forallb (fun kv => match str_cmp k kv.1 with Lt => true | _ => false end) m = true ->
  map_get k m = None.
Proof.
  induction m as [|[k' v'] m IH]; [done|]. cbn [forallb map_get fst]. intros [Hk Hm]%andb_true_iff.
  destruct (str_cmp k k') eqn:Hc; try done. by apply IH.
Qed.
Lemma keys_sorted_get {V} k (v : V) m : keys_sorted ((k, v) :: m) = true -> map_get k m = None.
Proof. cbn [keys_sorted]. intros [Hk _]%andb_true_iff. by apply map_get_lt. Qed.
Lemma keys_sorted_trans {V} k (m : list (list N * V)) k' v' : str_cmp k k' = Lt -> keys_sorted ((k', v') :: m) = true -> map_get k ((k', v') :: m) = None.
Proof.
  intros Hlt Hs. apply map_get_lt. cbn [keys_sorted forallb fst] in *. apply andb_true_iff in Hs as [Hk _]. rewrite Hlt. cbn.
  apply forallb_forall. intros x Hx. apply (proj1 (forallb_forall _ _) Hk), key_lt_true in Hx. by rewrite (str_cmp_trans _ _ _ Hlt Hx).
Qed.
Lemma str_cmp_refl a : str_cmp a a = Eq.
Proof. by apply str_cmp_eq. Qed.

(** A sorted map is determined by its entries. *)
Lemma map_ext {V} (m : list (list N * V)) : forall m', keys_sorted m = true -> keys_sorted m' = true ->
  (forall k, map_get k m = map_get k m') -> m = m'.
Proof.
  induction m as [|[k v] m IH]; intros [|[k' v'] m'] Hm Hm' Hget; [done|..].
  - specialize (Hget k'). cbn [map_get] in Hget. by rewrite str_cmp_refl in Hget.
  - specialize (Hget k). cbn [map_get] in Hget. by rewrite str_cmp_refl in Hget.
  - assert (str_cmp k k' = Eq) as Hk.
    { destruct (str_cmp k k') eqn:Hc; [done|exfalso..].
      - pose proof (Hget k) as Hg. rewrite (keys_sorted_trans k m' k' v' Hc Hm') in Hg. cbn [map_get] in Hg. by rewrite str_cmp_refl in Hg.
      - assert (str_cmp k' k = Lt) as Hc' by (by rewrite str_cmp_antisym, Hc).
        pose proof (Hget k') as Hg. rewrite (keys_sorted_trans k' m k v Hc' Hm) in Hg. cbn [map_get] in Hg. by rewrite str_cmp_refl in Hg. }
    apply str_cmp_eq in Hk as ->. pose proof (Hget k') as Hv. cbn [map_get] in Hv. rewrite str_cmp_refl in Hv. injection Hv as ->.
    f_equal. pose proof (keys_sorted_get _ _ _ Hm) as Hn. pose proof (keys_sorted_get _ _ _ Hm') as Hn'.
    cbn [keys_sorted] in Hm, Hm'. apply andb_true_iff in Hm as [_ Hm], Hm' as [_ Hm']. apply IH; [done..|].
    intros k. specialize (Hget k). cbn [map_get] in Hget. destruct (str_cmp k k') eqn:Hc; try done.
    apply str_cmp_eq in Hc as ->. congruence.
Qed.
Lemma map_insert_comm {V} k v k' v' (m : list (list N * V)) : keys_sorted m = true -> k <> k' ->
  map_insert k v (map_insert k' v' m) = map_insert k' v' (map_insert k v m).
Proof.
  intros Hm Hne. apply map_ext; [by apply map_insert_sorted, map_insert_sorted..|]. intros k1.
  rewrite !map_get_insert by (done || by apply map_insert_sorted). repeat case_decide; naive_solver.
Qed.
(** The order in which entries with different keys are inserted does not matter. *)
Lemma map_collect_perm {V} (l l' : list (list N * V)) : l ≡ₚ l' -> NoDup l.*1 -> map_collect l = map_collect l'.
Proof.
  unfold map_collect. intros Hp. assert (keys_sorted (map_new (V := V)) = true) as Hs by done.
  revert Hs. generalize (map_new (V := V)).
  induction Hp as [|x l l' _ IH|x y l|l l1 l' Hp1 IH1 _ IH2]; intros m Hm Hnd; cbn [foldl]; [done|..].
  - apply IH; [by apply map_insert_sorted|]. by apply NoDup_cons in Hnd as [_ ?].
  - rewrite map_insert_comm; [done|done|]. cbn in Hnd. apply NoDup_cons in Hnd as [Hy _]. set_solver.
  - rewrite IH1 by done. apply IH2; [done|]. by rewrite <- Hp1.
Qed.

Lemma map_insert_perm {V} k (v : V) m : (k ∉ m.*1) -> map_insert k v m ≡ₚ (k, v) :: m.
Proof.
  induction m as [|[k' v'] m IH]; intros Hk; [done|]. cbn [map_insert]. cbn in Hk.
  apply not_elem_of_cons in Hk as [Hne Hk]. destruct (str_cmp k k') eqn:Hc; [by apply str_cmp_eq in Hc|done|].
  rewrite IH by done. constructor.
Qed.
Lemma map_collect_of {V} (l : list (list N * V)) : NoDup l.*1 -> map_collect l ≡ₚ l.
Proof.
  intros Hl. unfold map_collect, map_new. rewrite <- (app_nil_l l) at 2.
  assert (NoDup (([] : list (list N * V)).*1 ++ l.*1)) as Hn by done. clear Hl. revert Hn. generalize ([] : list (list N * V)) as acc.
  induction l as [|[k v] l IH]; intros acc Hn; cbn [foldl fst snd]; [by rewrite app_nil_r|].
  rewrite fmap_cons in Hn. cbn [fst] in Hn. apply NoDup_app in Hn as (Ha & Hd & Hkl). apply NoDup_cons in Hkl as [Hk Hl].
  assert (map_insert k v acc ≡ₚ (k, v) :: acc) as Hp by (apply map_insert_perm; set_solver).
  rewrite IH, Hp; [by rewrite <- Permutation_middle|]. rewrite Hp, fmap_cons. cbn [fst app]. rewrite NoDup_cons. split; [set_solver|].
  apply NoDup_app. set_solver.
Qed.

Lemma collect_ok_perm {A B} (f : A -> result FormatError B) l l' : l ≡ₚ l' -> forall bs, collect_ok f l = Ok bs ->
  exists bs', collect_ok f l' = Ok bs' /\ bs ≡ₚ bs'.
Proof.
  induction 1 as [|x l l' _ IH|x y l|l l1 l' _ IH1 _ IH2]; intros bs Hb; cbn [collect_ok] in *.
  - eauto.
  - destruct (f x); [|done]. destruct (collect_ok f l) as [bs1|]; [|done]. injection Hb as <-.
    destruct (IH bs1) as (bs' & -> & Hp); [done|]. eexists. split; [done|]. by constructor.
  - destruct (f y); [|done]. destruct (f x); [|done]. destruct (collect_ok f l); [|done]. injection Hb as <-. eexists. split; [done|]. constructor.
  - destruct (IH1 bs Hb) as (bs1 & Hb1 & Hp1). destruct (IH2 bs1 Hb1) as (bs2 & Hb2 & Hp2). exists bs2. split; [done|]. by etransitivity.
Qed.
Lemma collect_ok_keys `{CompactFormatter} `{Nfc} ms kvs :
  collect_ok (fun kv => map_ok (fun t => (pieces_text kv.1, t)) (render kv.2)) ms = Ok kvs ->
  kvs.*1 = (fun kv => pieces_text kv.1) <$> ms.
Proof.
  revert kvs. induction ms as [|[k v] ms IH]; intros kvs Hk; cbn [collect_ok fst snd] in Hk; [by injection Hk as <-|].
  destruct (render v) as [t|]; [|done]. cbn [map_ok] in Hk. destruct (collect_ok _ ms) as [kvs1|]; [|done]. injection Hk as <-.
  cbn. f_equal. by apply IH.
Qed.

Section Order.
Context `{CompactFormatter} `{Nfc} `{Serializer}.
(** [canonical_form_order]: the canonical form of an object does not depend on the order in which its members are
    serialized, when their keys are written differently. *)
Theorem canonical_form_order ms ms' t : ms ≡ₚ ms' -> NoDup ((fun kv => pieces_text kv.1) <$> ms) ->
  canonical_form (SObject ms) = Ok t -> canonical_form (SObject ms') = Ok t.
Proof.
  unfold canonical_form. rewrite !serialize_writes. cbn [render]. intros Hp Hnd.
  destruct (collect_ok _ ms) as [kvs|] eqn:Hc; [|done].
  destruct (collect_ok_perm _ ms ms' Hp kvs Hc) as (kvs' & -> & Hpk).
  rewrite <- (collect_ok_keys _ _ Hc) in Hnd. cbn [map_ok]. by rewrite (map_collect_perm _ _ Hpk Hnd).
Qed.
End Order.

(** *** The two canonical forms *)

(** A [json::Value] as it would be serialized, its strings having nothing to escape. *)
Definition pieces (s : list N) : list Piece := match s with [] => [] | _ => [Fragment s] end.
Fixpoint svalue_of (v : Value) : SValue :=
  match v with
  | CanonicalJson.Object m => SObject (map (fun kv => (pieces kv.1, svalue_of kv.2)) m)
  | Array vs => SArray (map svalue_of vs)
  | JString s => SString (pieces s)
  | JNumber (U64 n) => SUint n
  | JNumber (I64 z) => SInt z
  | JBool b => SBool b
  | Null => SNull
  end.

(** Strings of characters above the quotation mark, none of them a backslash. *)
Definition plain_string (s : list N) : bool := forallb (fun c => (34 <? c) && negb (c =? 92)) s.
Fixpoint plain_strings (v : Value) : bool :=
  match v with
  | CanonicalJson.Object m => forallb (fun kv => plain_string kv.1 && plain_strings kv.2) m
  | Array vs => forallb plain_strings vs
  | JString s => plain_string s
  | _ => true
  end.

(** The order of such strings is the order of their quoted forms. *)
Lemma quoted_lt a : forall b, plain_string b = true -> str_cmp a b = Lt -> str_cmp (a ++ [34]) (b ++ [34]) = Lt.
Proof.
  induction a as [|x a IH]; intros [|y b] Hb; cbn [str_cmp app]; try done.
  - intros _. cbn [plain_string forallb] in Hb. apply andb_true_iff in Hb as [[Hy%N.ltb_lt _]%andb_true_iff _].
    by rewrite (proj2 (N.compare_lt_iff _ _)).
  - cbn [plain_string forallb] in Hb. apply andb_true_iff in Hb as [_ Hb]. destruct (x ?= y); try done. by apply IH.
Qed.

Section Agree.
Context `{CompactFormatterLaws} `{Nfc} `{Serializer}.

Lemma nfc_nil_text s : pieces_text (pieces (nfc s)) = string_text (nfc s).
Proof.
  unfold pieces_text, string_text, between. destruct c_string_law as [-> ->]. cbn [app]. f_equal. f_equal.
  destruct (nfc s) as [|c r] eqn:Hs; [done|]. cbn. rewrite app_nil_r. rewrite <- Hs. apply nfc_idem.
Qed.
Lemma string_ok_text s : string_ok s = true -> pieces_text (pieces s) = string_text s.
Proof. intros [_ Hn%bool_decide_eq_true]%andb_true_iff. rewrite <- Hn. apply nfc_nil_text. Qed.

Lemma each_intercalate {A} (f : bool -> A -> list N) (g : A -> list N) l :
  (forall a, f true a = g a) -> (forall a, f false a = 44 :: g a) -> each f true l = intercalate (map g l).
Proof.
  intros Ht Hf. destruct l as [|a l]; [done|]. cbn [each]. rewrite Ht. clear Ht. revert a.
  induction l as [|b l IH]; intros a; [by cbn; rewrite app_nil_r|]. cbn [map]. rewrite intercalate_cons.
  cbn [each]. rewrite Hf. cbn [app]. by rewrite IH.
Qed.
Lemma collect_ok_map {A B D} (f : B -> result FormatError D) (h : A -> B) (g : A -> D) l :
  Forall (fun a => f (h a) = Ok (g a)) l -> collect_ok f (map h l) = Ok (map g l).
Proof. induction 1 as [|a l Ha _ IH]; [done|]. cbn [map collect_ok]. by rewrite Ha, IH. Qed.
Lemma forallb_map {A B} (f : A -> B) p l : forallb p (map f l) = forallb (fun a => p (f a)) l.
Proof. induction l as [|a l IH]; [done|]. cbn. by rewrite IH. Qed.
Lemma quoted_sorted {V W} (g : V -> W) (m : list (list N * V)) : keys_sorted m = true ->
  forallb (fun kv => plain_string kv.1) m = true -> keys_sorted (map (fun kv => (string_text kv.1, g kv.2)) m) = true.
Proof.
  induction m as [|kv m IH]; [done|]. cbn [keys_sorted forallb map]. intros [Hk Hm]%andb_true_iff [_ Hp]%andb_true_iff.
  rewrite IH, andb_true_r, forallb_map by done. apply forallb_forall. intros x Hx.
  pose proof (proj1 (forallb_forall _ _) Hk x Hx) as Hlt. pose proof (proj1 (forallb_forall _ _) Hp x Hx) as Hpx.
  apply key_lt_true in Hlt. apply key_lt_true. cbn. by apply quoted_lt.
Qed.
Lemma member_text_eq first kv : member_text first kv = (if first then [] else [44]) ++ kv.1 ++ 58 :: kv.2.
Proof. unfold member_text. rewrite c_object_key_law. destruct c_object_value_law as (-> & -> & ->). cbn [app]. by rewrite app_nil_r. Qed.

Lemma render_svalue v : canonical v = true -> plain_strings v = true -> render (svalue_of v) = Ok (to_text v).
Proof.
  induction v as [m IH|vs IH|s|[n|z]|b|] using value_ind; intros Hc Hp; cbn [canonical plain_strings svalue_of render to_text] in *.
  - apply andb_true_iff in Hc as [Hs Hc]. rewrite Forall_forall in IH.
    rewrite (collect_ok_map _ _ (fun kv => (string_text kv.1, to_text kv.2))).
    + cbn [map_ok]. destruct c_object_law as [-> ->]. rewrite map_collect_sorted.
      * rewrite (each_intercalate _ (fun kv => kv.1 ++ 58 :: kv.2)) by (intros; by rewrite member_text_eq). unfold between. cbn [app].
        by rewrite map_map.
      * apply (quoted_sorted to_text); [done|]. apply forallb_forall. intros kv Hkv.
        by apply (proj1 (forallb_forall _ _) Hp), andb_true_iff in Hkv as [? _].
    + apply Forall_forall. intros kv Hkv. cbn [fst snd]. apply list_elem_of_In in Hkv as Hin.
      pose proof (proj1 (forallb_forall _ _) Hc _ Hin) as [Hk Hv]%andb_true_iff.
      pose proof (proj1 (forallb_forall _ _) Hp _ Hin) as [_ Hpv]%andb_true_iff.
      rewrite IH by done. cbn [map_ok]. by rewrite string_ok_text.
  - rewrite Forall_forall in IH. rewrite (collect_ok_map _ _ to_text).
    + cbn [map_ok]. destruct c_array_law as (-> & -> & ->).
      rewrite (each_intercalate _ (fun t => t)) by (intros; rewrite c_array_value_law; cbn [app]; by rewrite app_nil_r).
      unfold between. by rewrite map_id.
    + apply Forall_forall. intros v Hv. apply list_elem_of_In in Hv as Hin.
      apply IH; [done|by apply (proj1 (forallb_forall _ _) Hc)|by apply (proj1 (forallb_forall _ _) Hp)].
  - by rewrite string_ok_text.
  - by rewrite c_uint_law.
  - by rewrite c_int_law.
  - rewrite c_bool_law. by destruct b.
  - by rewrite c_null_law.
Qed.

(** [canonical_forms_agree]: the formatter and [json::Value] give a value the same canonical form when
    its strings have only characters above the quotation mark, and no backslash. *)
Theorem canonical_forms_agree v : canonical v = true -> plain_strings v = true -> canonical_form (svalue_of v) = Ok (to_text v).
Proof. intros Hc Hp. unfold canonical_form. rewrite serialize_writes, render_svalue by done. done. Qed.
End Agree.

Module FormatterWitness.
#[local] Instance plain : Nfc := {| nfc s := s; nfc_idem s := eq_refl |}.
#[local] Instance compact : CompactFormatter := {|
  c_null := str "null"; c_bool b := if b then str "true" else str "false";
  c_uint n := number_text (U64 n); c_int z := number_text (I64 z); c_number_str s := s;
  c_begin_string := [34]; c_end_string := [34];
  c_char_escape := escape_text;
  c_begin_array := [91]; c_end_array := [93]; c_begin_array_value first := if first then [] else [44]; c_end_array_value := [];
  c_begin_object := [123]; c_end_object := [125]; c_begin_object_key first := if first then [] else [44];
  c_end_object_key := []; c_begin_object_value := [58]; c_end_object_value := [] |}.
#[local] Instance compact_laws : CompactFormatterLaws.
Proof. by split. Qed.

Fixpoint calls (v : SValue) : list Call :=
  match v with
  | SNull => [WriteNull] | SBool b => [WriteBool b] | SUint n => [WriteUint n] | SInt z => [WriteInt z]
  | SFloat => [WriteFloat] | SNumberStr s => [WriteNumberStr s] | SString ps => string_calls ps
  | SArray vs => BeginArray :: each (fun first v => BeginArrayValue first :: calls v ++ [EndArrayValue]) true vs ++ [EndArray]
  | SObject ms => BeginObject :: each (fun first kv => BeginObjectKey first :: string_calls kv.1 ++ EndObjectKey :: BeginObjectValue
                    :: calls kv.2 ++ [EndObjectValue]) true ms ++ [EndObject]
  end.
#[local] Instance serializer : Serializer.
Proof. by refine {| serialize := calls |}. Defined.

Definition name (s : list N) : list Piece := [Fragment s].
Lemma canonical_form_order_witness :
  canonical_form (SObject [(name (str "b"), SUint 2); (name (str "a"), SObject []); (name (str "c"), SArray [SNull])]) =
  Ok (to_text (CanonicalJson.Object [(str "a", CanonicalJson.Object []); (str "b", JNumber (U64 2)); (str "c", Array [Null])])).
Proof.
  apply (canonical_form_order [(name (str "a"), SObject []); (name (str "c"), SArray [SNull]); (name (str "b"), SUint 2)]); [|apply (bool_decide_unpack _); reflexivity|reflexivity].
  apply Permutation_sym, (Permutation_cons_append [(name (str "a"), SObject []); (name (str "c"), SArray [SNull])] (name (str "b"), SUint 2)).
Defined.
Lemma canonical_forms_agree_witness : exists v, canonical v = true /\ plain_strings v = true /\ canonical_form (svalue_of v) = Ok (to_text v).
Proof.
  exists (CanonicalJson.Object [(str "a", Array [JBool true; JNumber (I64 (-3))]); (str "ab", JString (str "x-y"))]).
  split; [reflexivity|]. split; [reflexivity|]. apply canonical_forms_agree; reflexivity.
Defined.

(** A space sorts before the quotation mark that ends a key: the two forms differ. *)
Example space_in_key : let v := CanonicalJson.Object [(str "a", Null); (str "a b", Null)] in
  canonical v = true /\ canonical_form (svalue_of v) = Ok (to_text (CanonicalJson.Object [(str "a b", Null); (str "a", Null)])) /\
  canonical_form (svalue_of v) <> Ok (to_text v).
Proof. split; [reflexivity|]. split; [reflexivity|]. vm_compute. discriminate. Qed.
End FormatterWitness.
