(* ===== verification/Utf8.v ===== *)
(** * UTF-8 and percent-encoding

    Rust strings are sequences of scalar values encoded in UTF-8; the development keeps the scalar values.
    [utf8] and [from_utf8] are the encoding and [str::from_utf8]; [PercentEncoding] is the interface of the
    library percent-encoding, whose documentation describes it byte by byte. *)
From Stdlib Require Import NArith Lia.
From stdpp Require Import base list.
From S2P Require Import Prelude.
#[local] Open Scope N_scope.
#[local] Ltac Zify.zify_post_hook ::= Z.to_euclidean_division_equations.

(** ** UTF-8 *)

(** Scalar values: code points that are not surrogates. *)
Definition scalar (c : N) : bool := (c <? 55296) || ((57344 <=? c) && (c <? 1114112)).

Definition utf8_char (c : N) : list N :=
  if c <? 128 then [c]
  else if c <? 2048 then [192 + c / 64; 128 + c mod 64]
  else if c <? 65536 then [224 + c / 4096; 128 + (c / 64) mod 64; 128 + c mod 64]
  else [240 + c / 262144; 128 + (c / 4096) mod 64; 128 + (c / 64) mod 64; 128 + c mod 64].
Definition utf8 (s : list N) : list N := concat (map utf8_char s).

Definition is_cont (b : N) : bool := (128 <=? b) && (b <? 192).

(** The first scalar value of a byte sequence, if it is encoded as it must be, and the rest. *)
Definition utf8_next (bs : list N) : option (N * list N) :=
  match bs with
  | [] => None
  | b0 :: r =>
      if b0 <? 128 then Some (b0, r)
      else if (194 <=? b0) && (b0 <? 224) then
        match r with
        | b1 :: r => if is_cont b1 then Some ((b0 - 192) * 64 + (b1 - 128), r) else None
        | _ => None
        end
      else if (224 <=? b0) && (b0 <? 240) then
        match r with
        | b1 :: b2 :: r =>
            let c := (b0 - 224) * 4096 + (b1 - 128) * 64 + (b2 - 128) in
            if is_cont b1 && is_cont b2 && (2048 <=? c) && scalar c then Some (c, r) else None
        | _ => None
        end
      else if (240 <=? b0) && (b0 <? 245) then
        match r with
        | b1 :: b2 :: b3 :: r =>
            let c := (b0 - 240) * 262144 + (b1 - 128) * 4096 + (b2 - 128) * 64 + (b3 - 128) in
            if is_cont b1 && is_cont b2 && is_cont b3 && (65536 <=? c) && scalar c then Some (c, r) else None
        | _ => None
        end
      else None
  end.
Fixpoint utf8_decode (fuel : nat) (bs : list N) : option (list N) :=
  match fuel, bs with
  | _, [] => Some []
  | O, _ => None
  | S fuel, _ => match utf8_next bs with Some (c, r) => cons c <$> utf8_decode fuel r | None => None end
  end.
(** A scalar value takes at least one byte. *)
Definition from_utf8 (bs : list N) : option (list N) := utf8_decode (length bs) bs.

Definition scalars (s : list N) : bool := forallb scalar s.

Lemma utf8_char_next c r : scalar c = true -> utf8_next (utf8_char c ++ r) = Some (c, r).
Proof.
  unfold scalar, utf8_char. intros Hc. apply orb_true_iff in Hc. rewrite andb_true_iff, N.leb_le, !N.ltb_lt in Hc.
  assert (forall x, x < 64 -> is_cont (128 + x) = true) as Hcont.
  { intros x Hx. unfold is_cont. apply andb_true_iff. rewrite N.leb_le, N.ltb_lt. lia. }
  destruct (N.ltb_spec c 128); [cbn; by destruct (N.ltb_spec c 128); [|lia]|].
  destruct (N.ltb_spec c 2048).
  { cbn [app utf8_next]. destruct (N.ltb_spec (192 + c / 64) 128); [lia|].
    destruct (N.leb_spec 194 (192 + c / 64)); [|lia]. destruct (N.ltb_spec (192 + c / 64) 224); [|lia]. cbn [andb].
    rewrite Hcont by lia. do 2 f_equal. lia. }
  destruct (N.ltb_spec c 65536); cbn [app utf8_next].
  - destruct (N.ltb_spec (224 + c / 4096) 128); [lia|]. destruct (N.ltb_spec (224 + c / 4096) 224); [lia|]. rewrite andb_false_r.
    destruct (N.leb_spec 224 (224 + c / 4096)); [|lia]. destruct (N.ltb_spec (224 + c / 4096) 240); [|lia]. cbn [andb].
    rewrite !Hcont by lia. cbn [andb].
    replace ((224 + c / 4096 - 224) * 4096 + (128 + (c / 64) mod 64 - 128) * 64 + (128 + c mod 64 - 128)) with c by lia.
    destruct (N.leb_spec 2048 c); [|lia]. unfold scalar. cbn [andb].
    destruct (N.ltb_spec c 55296), (N.leb_spec 57344 c), (N.ltb_spec c 1114112); cbn; try done; lia.
  - destruct (N.ltb_spec (240 + c / 262144) 128); [lia|]. destruct (N.ltb_spec (240 + c / 262144) 224); [lia|]. rewrite andb_false_r.
    destruct (N.ltb_spec (240 + c / 262144) 240); [lia|]. rewrite andb_false_r.
    destruct (N.leb_spec 240 (240 + c / 262144)); [|lia]. destruct (N.ltb_spec (240 + c / 262144) 245); [|lia]. cbn [andb].
    rewrite !Hcont by lia. cbn [andb].
    replace ((240 + c / 262144 - 240) * 262144 + (128 + (c / 4096) mod 64 - 128) * 4096 + (128 + (c / 64) mod 64 - 128) * 64 + (128 + c mod 64 - 128))
      with c by lia.
    destruct (N.leb_spec 65536 c); [|lia]. unfold scalar. cbn [andb].
    destruct (N.ltb_spec c 55296), (N.leb_spec 57344 c), (N.ltb_spec c 1114112); cbn; try done; lia.
Qed.
Lemma utf8_char_length c : (1 <= length (utf8_char c))%nat.
Proof. unfold utf8_char. repeat case_match; cbn; lia. Qed.

Lemma utf8_decode_utf8 s : scalars s = true -> forall fuel, (length (utf8 s) <= fuel)%nat -> utf8_decode fuel (utf8 s) = Some s.
Proof.
  unfold utf8. induction s as [|c s IH]; intros Hs fuel Hf; [by destruct fuel|].
  cbn [scalars forallb] in Hs. apply andb_true_iff in Hs as [Hc Hs]. cbn [map concat] in *. rewrite length_app in Hf.
  pose proof (utf8_char_length c). destruct fuel as [|fuel]; [lia|].
  destruct (utf8_char c ++ concat (map utf8_char s)) as [|b bs] eqn:He.
  - apply app_nil in He as [He _]. rewrite He in H. cbn in H. lia.
  - cbn [utf8_decode]. rewrite <- He, utf8_char_next, IH by (done || lia). done.
Qed.
(** Decoding inverts encoding. *)
Lemma from_utf8_utf8 s : scalars s = true -> from_utf8 (utf8 s) = Some s.
Proof. intros Hs. by apply utf8_decode_utf8. Qed.
Lemma utf8_inj s t : scalars s = true -> scalars t = true -> utf8 s = utf8 t -> s = t.
Proof. intros Hs Ht He. apply from_utf8_utf8 in Hs, Ht. rewrite He in Hs. congruence. Qed.

Lemma utf8_ascii c : c < 128 -> utf8_char c = [c].
Proof. intros Hc. unfold utf8_char. by destruct (N.ltb_spec c 128); [|lia]. Qed.

(** Every byte sequence that can be decoded is the encoding of what it decodes to. *)
Lemma utf8_next_char bs c r : utf8_next bs = Some (c, r) -> bs = utf8_char c ++ r /\ scalar c = true.
Proof.
  assert (forall b, is_cont b = true -> 128 <= b < 192) as Hcont.
  { intros b. unfold is_cont. rewrite andb_true_iff, N.leb_le, N.ltb_lt. done. }
  unfold utf8_next. destruct bs as [|b0 bs]; [done|]. destruct (N.ltb_spec b0 128) as [L0|L0].
  { intros [= <- <-]. rewrite utf8_ascii by done. split; [done|]. unfold scalar. by destruct (N.ltb_spec b0 55296); [|lia]. }
  destruct (N.leb_spec 194 b0), (N.ltb_spec b0 224); cbn [andb].
  { destruct bs as [|b1 bs]; [done|]. destruct (is_cont b1) eqn:C1; [|done]. apply Hcont in C1. intros [= <- <-].
    unfold utf8_char, scalar. set (c0 := (b0 - 192) * 64 + (b1 - 128)). assert (128 <= c0 < 2048) as Hc by (unfold c0; lia).
    destruct (N.ltb_spec c0 128); [lia|]. destruct (N.ltb_spec c0 2048); [|lia]. destruct (N.ltb_spec c0 55296); [|lia].
    split; [|done]. cbn [app]. repeat f_equal; unfold c0; lia. }
  all: destruct (N.leb_spec 224 b0), (N.ltb_spec b0 240); cbn [andb]; try lia.
  2-3: destruct (N.leb_spec 240 b0), (N.ltb_spec b0 245); cbn [andb]; try done; try lia.
  - destruct bs as [|b1 [|b2 bs]]; try done. destruct (is_cont b1) eqn:C1, (is_cont b2) eqn:C2; try done. cbn [andb].
    apply Hcont in C1, C2. set (c0 := (b0 - 224) * 4096 + (b1 - 128) * 64 + (b2 - 128)). destruct (N.leb_spec 2048 c0); [|done].
    destruct (scalar c0) eqn:Hs; [|done]. intros [= <- <-]. split; [|done]. assert (c0 < 65536) as Hc by (unfold c0; lia).
    unfold utf8_char. destruct (N.ltb_spec c0 128); [lia|]. destruct (N.ltb_spec c0 2048); [lia|]. destruct (N.ltb_spec c0 65536); [|lia].
    cbn [app]. repeat f_equal; unfold c0; lia.
  - destruct bs as [|b1 [|b2 [|b3 bs]]]; try done. destruct (is_cont b1) eqn:C1, (is_cont b2) eqn:C2, (is_cont b3) eqn:C3; try done. cbn [andb].
    apply Hcont in C1, C2, C3. set (c0 := (b0 - 240) * 262144 + (b1 - 128) * 4096 + (b2 - 128) * 64 + (b3 - 128)).
    destruct (N.leb_spec 65536 c0); [|done]. destruct (scalar c0) eqn:Hs; [|done]. intros [= <- <-]. split; [|done].
    unfold utf8_char. destruct (N.ltb_spec c0 128); [lia|]. destruct (N.ltb_spec c0 2048); [lia|]. destruct (N.ltb_spec c0 65536); [lia|].
    cbn [app]. repeat f_equal; unfold c0; lia.
Qed.
Lemma utf8_decode_some fuel : forall bs s, utf8_decode fuel bs = Some s -> bs = utf8 s /\ scalars s = true.
Proof.
  induction fuel as [|fuel IH]; intros [|b bs] s; cbn [utf8_decode]; try (by intros [= <-]); try done.
  destruct (utf8_next (b :: bs)) as [[c r]|] eqn:Hn; [|done]. apply utf8_next_char in Hn as [-> Hc].
  destruct (utf8_decode fuel r) as [t|] eqn:Hr; [|done]. intros [= <-]. apply IH in Hr as [-> Ht].
  cbn [scalars forallb]. split; [done|]. by rewrite Hc.
Qed.
Lemma from_utf8_some bs s : from_utf8 bs = Some s <-> bs = utf8 s /\ scalars s = true.
Proof. split; [apply utf8_decode_some|]. intros [-> Hs]. by apply from_utf8_utf8. Qed.

(** ASCII characters are the bytes below 128. *)
Lemma utf8_char_high c b : 128 <= c -> b ∈ utf8_char c -> 128 <= b.
Proof.
  intros Hc. unfold utf8_char. destruct (N.ltb_spec c 128); [lia|].
  repeat case_match; intros Hb; repeat (apply elem_of_cons in Hb as [->|Hb]; [lia|]); by apply elem_of_nil in Hb.
Qed.
Lemma utf8_app s t : utf8 (s ++ t) = utf8 s ++ utf8 t.
Proof. unfold utf8. by rewrite map_app, concat_app. Qed.
Lemma utf8_all_ascii s : Forall (fun c => c < 128) s -> utf8 s = s.
Proof. unfold utf8. induction 1 as [|c s Hc _ IH]; [done|]. cbn. by rewrite utf8_ascii, IH. Qed.

(** ** Percent-encoding *)

Definition hex_digit (n : N) : N := if n <? 10 then 48 + n else 55 + n.
Definition hex_value (c : N) : option N :=
  if (48 <=? c) && (c <=? 57) then Some (c - 48)
  else if (65 <=? c) && (c <=? 70) then Some (c - 55)
  else if (97 <=? c) && (c <=? 102) then Some (c - 87)
  else None.

(** The bytes of the set and the bytes that are not ASCII are replaced. *)
Definition percent_byte (set : N -> bool) (b : N) : list N :=
  if (128 <=? b) || set b then [37; hex_digit (b / 16); hex_digit (b mod 16)] else [b].
Fixpoint percent_bytes (bs : list N) : list N :=
  match bs with
  | [] => []
  | b :: bs' =>
      match b =? 37, bs' with
      | true, h :: l :: r =>
          match hex_value h, hex_value l with Some x, Some y => 16 * x + y :: percent_bytes r | _, _ => b :: percent_bytes bs' end
      | _, _ => b :: percent_bytes bs'
      end
  end.

(** [utf8_percent_encode] and [percent_decode_str(..).decode_utf8()]. *)
Class PercentEncoding := {
  utf8_percent_encode : (N -> bool) -> list N -> list N;
  percent_decode_utf8 : list N -> option (list N);
  percent_encode_eq set s : utf8_percent_encode set s = concat (map (percent_byte set) (utf8 s));
  percent_decode_eq s : percent_decode_utf8 s = from_utf8 (percent_bytes (utf8 s));
}.
Definition percent_encoding_model : PercentEncoding := {|
  utf8_percent_encode set s := concat (map (percent_byte set) (utf8 s));
  percent_decode_utf8 s := from_utf8 (percent_bytes (utf8 s));
  percent_encode_eq set s := eq_refl;
  percent_decode_eq s := eq_refl;
|}.

Definition is_hex (c : N) : bool := match hex_value c with Some _ => true | None => false end.
(** Two hexadecimal digits come next. *)
Definition hex_next (s : list N) : bool := match s with h :: l :: _ => is_hex h && is_hex l | _ => false end.
(** Text without anything that looks percent-encoded. *)
Fixpoint percent_free (s : list N) : bool :=
  match s with [] => true | c :: s' => negb ((c =? 37) && hex_next s') && percent_free s' end.

Lemma hex_value_digit n : n < 16 -> hex_value (hex_digit n) = Some n.
Proof.
  intros Hn. unfold hex_digit, hex_value. destruct (N.ltb_spec n 10).
  - destruct (N.leb_spec 48 (48 + n)); [|lia]. destruct (N.leb_spec (48 + n) 57); [|lia]. cbn [andb]. f_equal. lia.
  - destruct (N.leb_spec (55 + n) 57); [lia|]. rewrite andb_false_r.
    destruct (N.leb_spec 65 (55 + n)); [|lia]. destruct (N.leb_spec (55 + n) 70); [|lia]. cbn [andb]. f_equal. lia.
Qed.
Lemma is_hex_range c : is_hex c = true -> 48 <= c <= 102.
Proof.
  unfold is_hex, hex_value. destruct (N.leb_spec 48 c), (N.leb_spec c 57), (N.leb_spec 65 c), (N.leb_spec c 70), (N.leb_spec 97 c), (N.leb_spec c 102);
    cbn; intros; try done; lia.
Qed.

Lemma percent_bytes_keep b bs : (b =? 37) && hex_next bs = false -> percent_bytes (b :: bs) = b :: percent_bytes bs.
Proof.
  intros Hb. cbn [percent_bytes]. destruct (b =? 37); [|done]. cbn [andb] in Hb. destruct bs as [|h [|l r]]; try done.
  cbn [hex_next] in Hb. unfold is_hex in Hb. by destruct (hex_value h), (hex_value l).
Qed.
Lemma percent_bytes_hex h l r : is_hex h && is_hex l = true -> exists x, percent_bytes (37 :: h :: l :: r) = x :: percent_bytes r.
Proof. cbn. unfold is_hex. destruct (hex_value h), (hex_value l); cbn; try done. eauto. Qed.
Lemma percent_bytes_length n : forall bs, (length bs <= n)%nat -> (length (percent_bytes bs) <= length bs)%nat.
Proof.
  induction n as [|n IH]; intros [|b bs] Hn; cbn [length] in *; try (cbn; lia).
  destruct ((b =? 37) && hex_next bs) eqn:Hb.
  - apply andb_true_iff in Hb as [->%N.eqb_eq Hh]. destruct bs as [|h [|l r]]; try done.
    destruct (percent_bytes_hex h l r Hh) as [x ->]. cbn [length] in *. specialize (IH r). lia.
  - rewrite percent_bytes_keep by done. cbn [length]. specialize (IH bs). lia.
Qed.
(** Decoding changes exactly the text in which something looks encoded. *)
Lemma percent_bytes_free n : forall bs, (length bs <= n)%nat -> percent_bytes bs = bs <-> percent_free bs = true.
Proof.
  induction n as [|n IH]; intros [|b bs] Hn; cbn [length] in Hn; try (by cbn); try lia.
  cbn [percent_free]. destruct ((b =? 37) && hex_next bs) eqn:Hb; cbn [negb andb].
  - split; [|done]. intros He. exfalso. apply andb_true_iff in Hb as [->%N.eqb_eq Hh]. destruct bs as [|h [|l r]]; try done.
    destruct (percent_bytes_hex h l r Hh) as [x Hx]. rewrite Hx in He. apply (f_equal length) in He. cbn [length] in He.
    pose proof (percent_bytes_length (length r) r ltac:(lia)). lia.
  - rewrite percent_bytes_keep, <- IH by (done || lia). split; [by intros [= ?]|by intros ->].
Qed.

(** Decoding after encoding is decoding, when neither the percent sign nor the digits are in the set. *)
Section Encode.
Context (set : N -> bool) (Hpct : set 37 = false) (Hhex : forall c, is_hex c = true -> set c = false).
Definition percent_encoded (bs : list N) : list N := concat (map (percent_byte set) bs).

Lemma percent_byte_hex c : is_hex c = true -> percent_byte set c = [c].
Proof.
  intros Hc. pose proof (is_hex_range c Hc). unfold percent_byte. rewrite Hhex by done.
  by destruct (N.leb_spec 128 c); [lia|].
Qed.
Lemma percent_byte_head c : is_hex c = false -> exists d r, percent_byte set c = d :: r /\ is_hex d = false.
Proof. intros Hc. unfold percent_byte. destruct ((128 <=? c) || set c); eauto. Qed.
Lemma hex_next_first d r : is_hex d = false -> hex_next (d :: r) = false.
Proof. intros Hd. cbn. by destruct r as [|l r]; [|rewrite Hd]. Qed.
Lemma hex_next_second h d r : is_hex d = false -> hex_next (h :: d :: r) = false.
Proof. intros Hd. cbn. by rewrite Hd, andb_false_r. Qed.
Lemma hex_next_encoded bs : hex_next (percent_encoded bs) = hex_next bs.
Proof.
  unfold percent_encoded. destruct bs as [|h bs]; [done|]. cbn [map concat]. destruct (is_hex h) eqn:Hh.
  - rewrite percent_byte_hex by done. cbn [app]. destruct bs as [|l bs]; [done|]. cbn [map concat].
    destruct (is_hex l) eqn:Hl; [by rewrite percent_byte_hex|].
    destruct (percent_byte_head l Hl) as (d & r & -> & Hd). cbn [app]. rewrite !hex_next_second by done. done.
  - destruct (percent_byte_head h Hh) as (d & r & -> & Hd). cbn [app]. by rewrite !hex_next_first.
Qed.
Lemma percent_bytes_encoded n : forall bs, (length bs <= n)%nat -> Forall (fun b => b < 256) bs ->
  percent_bytes (percent_encoded bs) = percent_bytes bs.
Proof.
  induction n as [|n IH]; intros [|b bs] Hn Hb; cbn [length] in Hn; try done; try lia.
  inversion_clear Hb as [|? ? Hb1 Hbs]. unfold percent_encoded. cbn [map concat].
  change (concat (map (percent_byte set) bs)) with (percent_encoded bs).
  destruct ((128 <=? b) || set b) eqn:Hs.
  - rewrite (percent_bytes_keep b bs).
    + unfold percent_byte at 1. rewrite Hs. cbn [app percent_bytes]. rewrite !hex_value_digit by lia. cbn [N.eqb Pos.eqb].
      rewrite IH by (done || lia). f_equal. lia.
    + destruct (N.eqb_spec b 37) as [->|]; [|done]. by rewrite Hpct in Hs.
  - unfold percent_byte at 1. rewrite Hs. cbn [app]. destruct ((b =? 37) && hex_next bs) eqn:Hk.
    + apply andb_true_iff in Hk as [->%N.eqb_eq Hh]. destruct bs as [|h [|l r]]; try done. cbn [hex_next] in Hh.
      apply andb_true_iff in Hh as [Hh Hl]. unfold percent_encoded. cbn [map concat]. rewrite !percent_byte_hex by done. cbn [app].
      cbn [percent_bytes N.eqb Pos.eqb]. unfold is_hex in Hh, Hl. destruct (hex_value h), (hex_value l); try done. f_equal.
      apply IH; [cbn [length] in Hn; lia|]. by inversion_clear Hbs as [|? ? _ Hr]; inversion_clear Hr.
    + rewrite !percent_bytes_keep by (done || by rewrite hex_next_encoded). f_equal. apply IH; [lia|done].
Qed.
End Encode.

Lemma utf8_bytes s : scalars s = true -> Forall (fun b => b < 256) (utf8 s).
Proof.
  unfold utf8. induction s as [|c s IH]; cbn [scalars forallb map concat]; [constructor|]. intros [Hc Hs]%andb_true_iff.
  apply Forall_app. split; [|by apply IH]. unfold scalar in Hc. apply orb_true_iff in Hc. rewrite andb_true_iff, N.leb_le, !N.ltb_lt in Hc.
  unfold utf8_char. destruct (N.ltb_spec c 128), (N.ltb_spec c 2048), (N.ltb_spec c 65536); repeat constructor; lia.
Qed.
Lemma utf8_char_shape c : c < 128 /\ utf8_char c = [c] \/ 128 <= c /\ exists b r, utf8_char c = b :: r /\ Forall (fun b => 128 <= b) (b :: r).
Proof.
  destruct (N.lt_ge_cases c 128) as [Hc|Hc]; [left; split; [done|by apply utf8_ascii]|right; split; [done|]].
  pose proof (utf8_char_length c). destruct (utf8_char c) as [|b r] eqn:He; [cbn in H; lia|]. exists b, r. split; [done|].
  rewrite <- He. apply Forall_forall. intros x. by apply utf8_char_high.
Qed.
Lemma high_not_hex c : 128 <= c -> is_hex c = false.
Proof. intros Hc. destruct (is_hex c) eqn:Hh; [|done]. apply is_hex_range in Hh. lia. Qed.
Lemma hex_next_utf8 s : hex_next (utf8 s) = hex_next s.
Proof.
  unfold utf8. destruct s as [|h s]; [done|]. cbn [map concat].
  destruct (utf8_char_shape h) as [[_ ->]|(Hh & b & r & -> & Hb)]; cbn [app].
  - destruct s as [|l s]; [done|]. cbn [map concat]. destruct (utf8_char_shape l) as [[_ ->]|(Hl & b & r & -> & Hb)]; [done|].
    cbn [app]. rewrite !hex_next_second; [done|by apply high_not_hex|]. apply high_not_hex. by apply Forall_inv in Hb.
  - rewrite !hex_next_first; [done|by apply high_not_hex|]. apply high_not_hex. by apply Forall_inv in Hb.
Qed.
Lemma percent_free_high bs t : Forall (fun b => 128 <= b) bs -> percent_free (bs ++ t) = percent_free t.
Proof.
  induction 1 as [|b bs Hb _ IH]; [done|]. cbn [app percent_free]. rewrite IH. by destruct (N.eqb_spec b 37); [lia|].
Qed.
Lemma percent_free_utf8 s : percent_free (utf8 s) = percent_free s.
Proof.
  induction s as [|c s IH]; [done|]. cbn [percent_free]. rewrite <- IH, <- (hex_next_utf8 s). unfold utf8 at 1. cbn [map concat].
  change (concat (map utf8_char s)) with (utf8 s).
  destruct (utf8_char_shape c) as [[_ ->]|(Hc & b & r & -> & Hb)]; [done|]. rewrite percent_free_high by done.
  by destruct (N.eqb_spec c 37); [lia|].
Qed.

(** Percent-encoding is undone exactly for text without anything that looks encoded. *)
Lemma percent_roundtrip `{PercentEncoding} set s : set 37 = false -> (forall c, is_hex c = true -> set c = false) -> scalars s = true ->
  percent_decode_utf8 (utf8_percent_encode set s) = Some s <-> percent_free s = true.
Proof.
  intros Hp Hx Hs. rewrite percent_decode_eq, percent_encode_eq.
  assert (Forall (fun b => b < 128) (concat (map (percent_byte set) (utf8 s)))) as Ha.
  { pose proof (utf8_bytes s Hs) as Hb. induction Hb as [|b bs Hb _ IH]; [constructor|]. cbn [map concat]. apply Forall_app. split; [|done].
    unfold percent_byte. destruct (N.leb_spec 128 b); cbn [orb]; [|destruct (set b)].
    3: by constructor. all: unfold hex_digit; repeat constructor; try lia; case_match; lia. }
  rewrite (utf8_all_ascii _ Ha). fold (percent_encoded set (utf8 s)). rewrite (percent_bytes_encoded set Hp Hx (length (utf8 s))) by (done || by apply utf8_bytes).
  rewrite <- percent_free_utf8, <- (percent_bytes_free (length (utf8 s))) by done. split.
  - intros [He _]%from_utf8_some. done.
  - intros ->. by apply from_utf8_utf8.
Qed.

(** *** ASCII prefixes *)
Lemma from_utf8_ascii a bs : Forall (fun c => c < 128) a -> from_utf8 (a ++ bs) = app a <$> from_utf8 bs.
Proof.
  induction 1 as [|c a Hc _ IH]; [change ([] ++ bs) with bs; by destruct (from_utf8 bs)|]. unfold from_utf8 in *. cbn [app length utf8_decode utf8_next].
  destruct (N.ltb_spec c 128); [|lia]. rewrite IH. by destruct (utf8_decode (length bs) bs).
Qed.
Lemma percent_bytes_app a bs : 37 ∉ a -> percent_bytes (a ++ bs) = a ++ percent_bytes bs.
Proof.
  induction a as [|c a IH]; intros Ha; [done|]. apply not_elem_of_cons in Ha as [Hc Ha]. cbn [app].
  rewrite percent_bytes_keep by (destruct (N.eqb_spec c 37); [congruence|done]). by rewrite IH.
Qed.
Lemma percent_decode_app `{PercentEncoding} a s : Forall (fun c => c < 128) a -> 37 ∉ a ->
  percent_decode_utf8 (a ++ s) = app a <$> percent_decode_utf8 s.
Proof. intros Ha Hp. rewrite !percent_decode_eq, utf8_app, utf8_all_ascii, percent_bytes_app by done. by apply from_utf8_ascii. Qed.

Lemma elem_of_utf8 b s : b ∈ utf8 s -> b < 128 -> b ∈ s.
Proof.
  unfold utf8. induction s as [|c s IH]; cbn [map concat]; [by intros ?%elem_of_nil|]. intros [Hb|Hb]%elem_of_app Hlt.
  - destruct (N.lt_ge_cases c 128) as [Hc|Hc].
    + rewrite utf8_ascii in Hb by done. apply elem_of_cons in Hb as [->|Hb%elem_of_nil]; [by left|done].
    + pose proof (utf8_char_high c b Hc Hb). lia.
  - right. by apply IH.
Qed.
(** What an encoded text is made of. *)
Lemma percent_encode_chars `{PercentEncoding} set s c : scalars s = true -> c ∈ utf8_percent_encode set s ->
  c = 37 \/ is_hex c = true \/ c ∈ s.
Proof.
  intros Hs. rewrite percent_encode_eq. pose proof (utf8_bytes s Hs) as Hb. rewrite Forall_forall in Hb.
  assert (forall b, b ∈ utf8 s -> c ∈ percent_byte set b -> c = 37 \/ is_hex c = true \/ c ∈ s) as Hall.
  { intros b Hin Hc. specialize (Hb b Hin). unfold percent_byte in Hc. destruct (N.leb_spec 128 b) as [Hh|Hh]; cbn [orb] in Hc; [|destruct (set b)].
    3: { apply elem_of_cons in Hc as [->|Hc%elem_of_nil]; [|done]. right; right. by apply elem_of_utf8. }
    all: assert (forall n, n < 16 -> is_hex (hex_digit n) = true) as Hx by (intros n Hn; unfold is_hex; by rewrite hex_value_digit).
    all: repeat (apply elem_of_cons in Hc as [->|Hc]; [auto|]); try (right; left; apply Hx; lia); by apply elem_of_nil in Hc. }
  revert Hall. generalize (utf8 s). intros bs. induction bs as [|b bs IH]; cbn [map concat]; [by intros _ ?%elem_of_nil|].
  intros Hall [Hc|Hc]%elem_of_app; [by apply (Hall b); [left|]|]. apply IH; [|done]. intros b' Hin. apply Hall. by right.
Qed.
