(* ===== verification/RefLike.v ===== *)
(** * Reference names of git-ext

    [git-ext/src/reference/name.rs], [reference.rs] and [reference/iter.rs]: the names most of [librad] works
    with.  A [RefLike] is a valid name, a [Qualified] one starts with [refs/], a [OneLevel] is what follows the
    category, a [RefspecPattern] may have one asterisk; all are their text here. *)
From stdpp Require Import base list sets.
From Stdlib Require Import NArith Lia.
From Stdlib Require String.
Import String.StringSyntax.
From S2P Require Import Prelude RefFormat RefName Utf8.
Import Name.
#[local] Open Scope N_scope.

(** ** Names *)

Inductive NameError := Utf8 | RefFormat (e : RefFormat.Error).
Definition error_empty : NameError := RefFormat RefFormat.Empty.
Inductive StripPrefixError := ImproperPrefix | NotPrefix.

(** [str::starts_with] and [str::strip_suffix] of a character. *)
Definition starts_with (p s : list N) : bool := match str_strip_prefix p s with Some _ => true | None => false end.
Definition strip_suffix (c : N) (s : list N) : option (list N) :=
  match last s with Some d => if d =? c then Some (removelast s) else None | None => None end.

Definition reflike_try_from (s : list N) : result NameError (list N) :=
  match ref_format (MkOptions true false) s with Ok _ => Ok s | Err e => Err (RefFormat e) end.
Definition reflike_from_bytes (bs : list N) : result NameError (list N) :=
  match from_utf8 bs with Some s => reflike_try_from s | None => Err Utf8 end.
Definition reflike_join (self other : list N) : list N := self ++ slash :: other.
Definition with_pattern_suffix (self suf : list N) : list N := self ++ slash :: suf.
Definition reflike_strip_prefix (self base : list N) : result StripPrefixError (list N) :=
  let base := default base (strip_suffix slash base) ++ [slash] in
  match str_strip_prefix base self with
  | None => Err NotPrefix
  | Some [] => Err ImproperPrefix
  | Some path => Ok path
  end.
(** [FromIterator] *)
Definition reflike_collect (l : list (list N)) : list N := join_on slash l.

(** [PATH_PERCENT_ENCODE_SET] *)
Definition path_percent_encode_set (c : N) : bool :=
  is_ascii_control c || bool_decide (c ∈ [32; 34; 60; 62; 96; 35; 63; 123; 125]).
Definition percent_encode `{PercentEncoding} (self : list N) : list N := utf8_percent_encode path_percent_encode_set self.

Definition REFS_SLASH : list N := str "refs/".

(** [From<RefLike>] of [OneLevel] and of [Qualified]. *)
Definition onelevel_from (path : list N) : list N :=
  if starts_with REFS_SLASH path then join_on slash (drop 2 (split_on slash path)) else path.
Definition qualified_from (path : list N) : list N :=
  if starts_with REFS_SLASH path then path else str "refs/heads/" ++ path.
(** [OneLevel::from_qualified]; [unreachable!] when there is no first component. *)
Definition onelevel_from_qualified (path : list N) : outcome (list N * option (list N)) :=
  match split_on slash (default path (str_strip_prefix REFS_SLASH path)) with
  | category :: head :: path => Done (join_on slash (head :: path), Some category)
  | [category] => Done (onelevel_from category, None)
  | [] => Panic
  end.
Definition into_qualified (self category : list N) : list N := str "refs/" ++ category ++ slash :: self.

Definition pattern_try_from (s : list N) : result NameError (list N) :=
  match ref_format (MkOptions true true) s with Ok _ => Ok s | Err e => Err (RefFormat e) end.
Definition pattern_from_bytes (bs : list N) : result NameError (list N) :=
  match from_utf8 bs with Some s => pattern_try_from s | None => Err Utf8 end.
Definition pattern_append (self refl : list N) : list N := self ++ slash :: refl.

(** ** References of a repository *)

(** What [git2] tells of a reference: its name, if it is UTF-8, and its target, if it is direct. *)
Record GitRef := MkGitRef { gr_name : option (list N); gr_target : option N }.

Definition peeled (head : GitRef) : option (list N * N) :=
  name ← gr_name head; target ← gr_target head; Some (name, target).
Definition refined (r : list N * N) : result NameError (list N * N) :=
  match reflike_try_from r.1 with Ok name => Ok (onelevel_from name, r.2) | Err e => Err e end.

(** [References]: the iterators that are left, the next one last. *)
Section References.
Context {A : Type}.
Fixpoint references_next_rev (inner : list (list A)) : option (A * list (list A)) :=
  match inner with
  | [] => None
  | [] :: inner => references_next_rev inner
  | (x :: iter) :: inner => Some (x, iter :: inner)
  end.
Definition references_next (inner : list (list A)) : option (A * list (list A)) :=
  match references_next_rev (rev inner) with Some (x, l) => Some (x, rev l) | None => None end.
Fixpoint references_all (fuel : nat) (inner : list (list A)) : list A :=
  match fuel with
  | O => []
  | S fuel => match references_next inner with Some (x, inner) => x :: references_all fuel inner | None => [] end
  end.
End References.
(** [References::peeled]: errors are skipped. *)
Definition references_peeled (l : list (result unit GitRef)) : list (list N * N) :=
  omap (fun r => match r with Ok head => peeled head | Err _ => None end) l.

(** ** Properties *)

Lemma starts_with_spec p s : starts_with p s = true <-> exists r, s = p ++ r.
Proof.
  unfold starts_with. destruct (str_strip_prefix p s) as [r|] eqn:Hr.
  - apply str_strip_prefix_spec in Hr. split; eauto.
  - split; [done|]. intros [r ->]. by rewrite (proj2 (str_strip_prefix_spec p (p ++ r) r) eq_refl) in Hr.
Qed.
Lemma reflike_try_from_ok s t : reflike_try_from s = Ok t <-> t = s /\ is_refstr s.
Proof.
  unfold reflike_try_from, is_refstr, CHECK_OPTS. destruct (ref_format _ s) as [[]|e]; split; [by intros [= <-]|by intros [-> _]|done|by intros [_ ?]].
Qed.
Lemma refs_slash_push r : REFS_SLASH ++ r = push REFS r.
Proof. done. Qed.
Lemma join_push_eq a b : reflike_join a b = push a b.
Proof. done. Qed.
Lemma heads_push r : str "refs/heads/" ++ r = push REFS (push HEADS r).
Proof. done. Qed.
Lemma component_not_refs c : slash ∉ c -> starts_with REFS_SLASH c = false.
Proof.
  intros Hc. destruct (starts_with REFS_SLASH c) eqn:Hs; [|done]. apply starts_with_spec in Hs as [r ->].
  exfalso. apply Hc. apply elem_of_app. left. by apply (bool_decide_unpack _).
Qed.

(** A name becomes qualified, under [refs/heads] if need be. *)
Lemma qualified_from_spec s : is_refstr s -> exists r, qualified_from s = push REFS r /\ is_piece r /\ is_refstr (qualified_from s).
Proof.
  intros Hs. unfold qualified_from. destruct (starts_with REFS_SLASH s) eqn:Hp.
  - apply starts_with_spec in Hp as [r ->]. exists r. rewrite refs_slash_push in *. split_and!; [done| |done].
    by apply refstr_piece, push_pieces in Hs as [??].
  - exists (push HEADS s). rewrite heads_push. assert (is_piece (push HEADS s)) as Hh.
    { apply refstr_piece, push_valid; [left; vm_compute; reflexivity|by apply refstr_piece]. }
    split_and!; [done|done|]. apply push_valid; [left; vm_compute; reflexivity|done].
Qed.

(** The parts a qualified name is split into. *)
Lemma onelevel_parts s : is_refstr s -> exists name cat,
  onelevel_from_qualified (qualified_from s) = Done (name, cat) /\ is_piece name /\
  match cat with
  | Some c => is_component c /\ into_qualified name c = qualified_from s /\ onelevel_from (qualified_from s) = name
  | None => s = REFS_SLASH ++ name /\ (slash ∉ name) /\ onelevel_from s = []
  end.
Proof.
  intros Hs. destruct (qualified_from_spec s Hs) as (r & Hq & Hr & _). rewrite Hq. unfold onelevel_from_qualified.
  assert (str_strip_prefix REFS_SLASH (push REFS r) = Some r) as -> by (by apply str_strip_prefix_spec). change (default (push REFS r) (Some r)) with r.
  assert (starts_with REFS_SLASH (push REFS r) = true) as Hst by (apply starts_with_spec; by exists r).
  assert (split_on slash (push REFS r) = REFS :: split_on slash r) as Hsp by exact (split_on_app slash REFS r).
  pose proof (proj1 (piece_components r) Hr) as Hc. unfold components, iter in Hc.
  pose proof (join_split slash r) as Hj. destruct (split_on slash r) as [|c [|h t]] eqn:He.
  - by destruct (split_on_nonempty slash r).
  - cbn in Hj. subst c. apply Forall_inv in Hc as [_ Hsl]. exists r, None.
    assert (onelevel_from r = r) as Ho by (unfold onelevel_from; by rewrite component_not_refs).
    split_and!; [by rewrite Ho|done| |done|].
    + unfold qualified_from in Hq. destruct (starts_with REFS_SLASH s) eqn:Hp; [by rewrite Hq|]. exfalso. apply Hsl.
      rewrite heads_push in Hq. apply (app_inv_head REFS_SLASH) in Hq as <-. apply elem_of_app. right. by left.
    + unfold qualified_from in Hq. destruct (starts_with REFS_SLASH s) eqn:Hp; [subst s; unfold onelevel_from; by rewrite Hst, Hsp|].
      exfalso. apply Hsl. rewrite heads_push in Hq. apply (app_inv_head REFS_SLASH) in Hq as <-. apply elem_of_app. right. by left.
  - exists (join_on slash (h :: t)), (Some c). inversion_clear Hc as [|? ? Hc1 Hc2].
    split_and!; [done|by apply join_piece|done| |unfold onelevel_from; by rewrite Hst, Hsp].
    unfold into_qualified. rewrite join_cons in Hj by done. by rewrite Hj.
Qed.

(** [onelevel_roundtrip]: splitting a qualified name into category and rest never panics, the parts are valid and give the
    name back; a name with a category only has none, and there [OneLevel::from] yields the empty text, which is
    no valid name. *)
Theorem onelevel_roundtrip s : is_refstr s -> exists name cat,
  onelevel_from_qualified (qualified_from s) = Done (name, cat) /\ is_piece name /\
  match cat with
  | Some c => is_component c /\ into_qualified name c = qualified_from s /\ onelevel_from (qualified_from s) = name
  | None => s = REFS_SLASH ++ name /\ (slash ∉ name) /\ onelevel_from s = []
  end.
Proof. apply onelevel_parts. Qed.
Lemma onelevel_roundtrip_witness : exists name cat,
  onelevel_from_qualified (qualified_from (str "refs/remotes/origin/hopper")) = Done (name, Some cat) /\
  into_qualified name cat = str "refs/remotes/origin/hopper".
Proof.
  destruct (onelevel_roundtrip (str "refs/remotes/origin/hopper") ltac:(vm_compute; reflexivity)) as (name & [cat|] & H1 & _ & H2).
  - exists name, cat. split; [exact H1|]. exact (proj1 (proj2 H2)).
  - vm_compute in H1. discriminate H1.
Defined.

(** Stripping a prefix inverts joining, with or without a slash at the end of the prefix. *)
Lemma reflike_strip_prefix_spec s base r :
  reflike_strip_prefix s base = Ok r <-> s = reflike_join (default base (strip_suffix slash base)) r /\ r <> [].
Proof.
  unfold reflike_strip_prefix, reflike_join. set (b := default base (strip_suffix slash base)).
  destruct (str_strip_prefix (b ++ [slash]) s) as [t|] eqn:Ht.
  - apply str_strip_prefix_spec in Ht as ->. rewrite <- app_assoc. cbn [app]. destruct t as [|c t]; split; try done.
    + intros [He Hr]. apply app_inv_head in He as [= <-]. done.
    + by intros [= <-].
    + intros [He _]. apply app_inv_head in He as [= <-]. done.
  - split; [done|]. intros [-> _]. exfalso.
    assert (str_strip_prefix (b ++ [slash]) (b ++ slash :: r) = Some r) as Hs by (apply str_strip_prefix_spec; by rewrite <- app_assoc).
    by rewrite Hs in Ht.
Qed.

(** The chained iterator yields everything, the iterators in reverse. *)
Lemma references_next_rev_spec {A} (inner : list (list A)) :
  match references_next_rev inner with
  | Some (x, l) => concat inner = x :: concat l
  | None => concat inner = []
  end.
Proof. induction inner as [|[|x it] inner IH]; [done|exact IH|done]. Qed.
Lemma references_all_spec {A} fuel : forall inner : list (list A), (length (concat inner) < fuel)%nat ->
  references_all fuel inner = concat (rev inner).
Proof.
  assert (forall l : list (list A), length (concat (rev l)) = length (concat l)) as Hlen.
  { induction l as [|a l IH]; [done|]. cbn [rev concat]. rewrite concat_app, !length_app, IH. cbn. rewrite length_app. cbn. lia. }
  induction fuel as [|fuel IH]; intros inner Hf; [lia|]. cbn [references_all]. unfold references_next.
  pose proof (references_next_rev_spec (rev inner)) as Hn. destruct (references_next_rev (rev inner)) as [[x l]|]; [|by rewrite Hn].
  rewrite Hn, IH, rev_involutive; [done|]. rewrite Hlen. rewrite <- (Hlen inner), Hn in Hf. cbn in Hf. lia.
Qed.
