(* ===== verification/Keys.v ===== *)
(** * The text of keys, signatures and peer ids

    [link-crypto/src/keys.rs] and [link-crypto/src/peer.rs]: keys are 32 bytes and signatures 64; their text is the
    z-base32 encoding of the bytes after a version byte.  The library multibase is the interface [Multibase]. *)
From stdpp Require Import base list sets.
From Stdlib Require Import NArith Lia.
From Stdlib Require String.
Import String.StringSyntax.
From S2P Require Import Prelude RefFormat RefName Scoped Utf8.
Import Name.
#[local] Open Scope N_scope.

(** ** Interface *)

Definition bytes (bs : list N) : Prop := Forall (fun b => b < 256) bs.

(** [multibase::encode] with [Base32Z], and [multibase::decode] of any base. *)
Class Multibase (MB : Type) := {
  base32z_encode : list N -> list N;
  base_decode : list N -> result MB (list N);
}.
Definition z_base32 : list N := str "ybndrfg8ejkmcpqxot1uwisza345h769".
(** The code of the base, and one of the 32 symbols for each group of five bits. *)
Class MultibaseLaws (MB : Type) `{Multibase MB} := {
  base_roundtrip bs : bytes bs -> base_decode (base32z_encode bs) = Ok bs;
  base_decode_bytes s bs : base_decode s = Ok bs -> bytes bs;
  base32z_shape bs : exists cs, base32z_encode bs = 104 :: cs /\ Forall (fun c => c ∈ z_base32) cs /\
    length cs = ((length bs * 8 + 4) / 5)%nat;
  (** Every base has data in ten bytes of text. *)
  base_data s bs : (10 <= length (utf8 s))%nat -> base_decode s = Ok bs -> bs <> [];
}.

(** ** Keys *)

Definition PUBLICKEYBYTES : nat := 32.
Definition VERSION : N := 0.

Inductive KeyError (MB : Type) : Type :=
| KeyBase (e : MB) | EmptyInput | UnknownKeyVersion (v : N) | InvalidLength.
Arguments KeyBase {MB} e. Arguments EmptyInput {MB}. Arguments UnknownKeyVersion {MB} v. Arguments InvalidLength {MB}.

Section Keys.
Context {MB : Type} `{Multibase MB}.

(** [ed25519::VerificationKeyBytes::try_from] checks the length. *)
Definition key_from_slice (bs : list N) : option (list N) :=
  if (length bs =? PUBLICKEYBYTES)%nat then Some bs else None.
Definition key_serialize (pk : list N) : list N := base32z_encode (VERSION :: pk).
Definition key_visit_str (s : list N) : result (KeyError MB) (list N) :=
  bytes ← map_err KeyBase (base_decode s);
  match bytes with
  | [] => Err EmptyInput
  | version :: data =>
      if negb (version =? VERSION) then Err (UnknownKeyVersion version)
      else ok_or (key_from_slice data) InvalidLength
  end.

Definition SIGNATUREBYTES : nat := 64.
Definition sig_serialize (sig : list N) : list N := base32z_encode ([VERSION] ++ sig).
Definition sig_visit_str (s : list N) : result (KeyError MB) (list N) :=
  bytes ← map_err KeyBase (base_decode s);
  match bytes with
  | [] => Err EmptyInput
  | version :: data =>
      if negb (version =? VERSION) then Err (UnknownKeyVersion version)
      else if (length data =? SIGNATUREBYTES)%nat then Ok data else Err InvalidLength
  end.

(** ** Peer ids *)

Inductive ConversionError : Type :=
| UnexpectedInputLength (n : nat) | UnknownVersion (v : N) | InvalidPublicKey | DecodeError (e : MB).

Definition peer_default_encoding (peer : list N) : list N := base32z_encode (0 :: peer).
Definition ENCODED_LEN : nat := 1 + ((PUBLICKEYBYTES + 1) * 8 + 4) / 5.

(** [expect] that there is at least one byte. *)
Definition from_default_encoding (s : list N) : outcome (result ConversionError (list N)) :=
  if negb (length (utf8 s) =? ENCODED_LEN)%nat then Done (Err (UnexpectedInputLength (length (utf8 s))))
  else
    match base_decode s with
    | Err e => Done (Err (DecodeError e))
    | Ok [] => Panic
    | Ok (version :: key) =>
        if negb (version =? 0) then Done (Err (UnknownVersion version))
        else Done (ok_or (key_from_slice key) InvalidPublicKey)
    end.
End Keys.

(** ** Properties *)
Section Laws.
Context {MB : Type} `{MultibaseLaws MB}.

Lemma z_base32_letters cs : Forall (fun c => c ∈ z_base32) cs -> Forall letter cs.
Proof.
  intros Hf. eapply Forall_impl; [exact Hf|]. intros c Hc. unfold z_base32 in Hc. vm_compute in Hc. unfold letter.
  repeat (apply elem_of_cons in Hc as [->|Hc]; [lia|]). by apply elem_of_nil in Hc.
Qed.
Lemma base32z_letters bs : Forall letter (base32z_encode bs) /\ base32z_encode bs <> [].
Proof.
  destruct (base32z_shape bs) as (cs & -> & Hcs & _). split; [|done]. constructor; [unfold letter; lia|by apply z_base32_letters].
Qed.
(** Encoded bytes are a valid component of a reference name. *)
Lemma base32z_component bs : is_refstr (base32z_encode bs) /\ slash ∉ base32z_encode bs.
Proof. destruct (base32z_letters bs). by apply letters_component. Qed.
Lemma letters_ascii s : Forall letter s -> Forall (fun c => c < 128) s.
Proof. intros Hs. eapply Forall_impl; [exact Hs|]. unfold letter. intros. lia. Qed.

(** [peer_id_roundtrip]: a peer id is read back from its text, whose length is the expected one, without panic; the
    text is a single component of a reference name, and so are the texts of keys and signatures, which
    are read back as well. *)
Theorem peer_id_roundtrip key sig : bytes key -> length key = PUBLICKEYBYTES -> bytes sig -> length sig = SIGNATUREBYTES ->
  from_default_encoding (peer_default_encoding key) = Done (Ok key) /\
  length (utf8 (peer_default_encoding key)) = ENCODED_LEN /\
  (is_refstr (peer_default_encoding key) /\ slash ∉ peer_default_encoding key) /\
  key_visit_str (key_serialize key) = Ok key /\ sig_visit_str (sig_serialize sig) = Ok sig.
Proof.
  intros Hk Hl Hs Hsl. assert (bytes (0 :: key)) as Hb by (constructor; [lia|done]).
  assert (length (utf8 (peer_default_encoding key)) = ENCODED_LEN) as Hlen.
  { unfold peer_default_encoding. rewrite utf8_all_ascii by (by apply letters_ascii, base32z_letters).
    destruct (base32z_shape (0 :: key)) as (cs & -> & _ & Hcs). cbn [length]. rewrite Hcs. cbn [length]. by rewrite Hl. }
  assert (key_from_slice key = Some key) as Hf by (unfold key_from_slice; by rewrite Hl).
  split_and!.
  - unfold from_default_encoding. rewrite Hlen, Nat.eqb_refl. cbn [negb]. unfold peer_default_encoding.
    rewrite base_roundtrip by done. cbn. by rewrite Hf.
  - done.
  - apply base32z_component.
  - apply base32z_component.
  - unfold key_visit_str, key_serialize. rewrite base_roundtrip by done. cbn. by rewrite Hf.
  - unfold sig_visit_str, sig_serialize. rewrite base_roundtrip by (constructor; [done|done]). cbn. by rewrite Hsl.
Qed.

(** [peer_never_panics]: the data that reading a peer id expects is there. *)
Lemma peer_never_panics s : from_default_encoding (MB := MB) s <> Panic.
Proof.
  unfold from_default_encoding. destruct (Nat.eqb_spec (length (utf8 s)) ENCODED_LEN) as [Hl|]; [|done]. cbn [negb].
  destruct (base_decode s) as [[|v key]|e] eqn:Hd; [|by case_match|done].
  apply base_data in Hd; [done|]. rewrite Hl. vm_compute. lia.
Qed.
(** A string of another length is refused, whatever it contains. *)
Lemma peer_id_length s : length (utf8 s) <> ENCODED_LEN ->
  from_default_encoding s = Done (Err (UnexpectedInputLength (MB := MB) (length (utf8 s)))).
Proof. intros Hs. unfold from_default_encoding. by rewrite (proj2 (Nat.eqb_neq _ _)). Qed.
End Laws.

(** ** z-base32 *)
Module ZBase32.
Fixpoint to_bits (k : nat) (n : N) : list bool := match k with O => [] | S k => N.testbit n (N.of_nat k) :: to_bits k n end.
Definition of_bits (l : list bool) : N := foldl (fun n b => 2 * n + N.b2n b) 0 l.
Fixpoint chunks (fuel k : nat) (l : list bool) : list (list bool) :=
  match fuel with
  | O => []
  | S fuel => if (length l <? k)%nat then [] else take k l :: chunks fuel k (drop k l)
  end.
Definition symbol (n : N) : N := nth (N.to_nat n) z_base32 0.
Fixpoint index_of (c : N) (l : list N) : option N :=
  match l with [] => None | x :: l => if x =? c then Some 0 else N.succ <$> index_of c l end.
Fixpoint indices (cs : list N) : option (list N) :=
  match cs with
  | [] => Some []
  | c :: cs => match index_of c z_base32, indices cs with Some i, Some l => Some (i :: l) | _, _ => None end
  end.
Definition pad (l : list bool) : list bool := l ++ replicate ((5 - length l mod 5) mod 5) false.
Definition encode (bs : list N) : list N :=
  let l := pad (concat (map (to_bits 8) bs)) in 104 :: map (fun g => symbol (of_bits g)) (chunks (length l) 5 l).
Definition decode (s : list N) : result unit (list N) :=
  match s with
  | 104 :: cs =>
      match indices cs with
      | Some vs => let l := concat (map (to_bits 5) vs) in Ok (map of_bits (chunks (S (length l)) 8 l))
      | None => Err tt
      end
  | _ => Err tt
  end.
#[export] Instance z_multibase : Multibase unit := {| base32z_encode := encode; base_decode := decode |}.

Lemma to_bits_length k n : length (to_bits k n) = k.
Proof. induction k as [|k IH]; [done|]. cbn. by rewrite IH. Qed.
Lemma bits8 b : b < 256 -> of_bits (to_bits 8 b) = b.
Proof.
  intros Hb. assert (forallb (fun n => of_bits (to_bits 8 (N.of_nat n)) =? N.of_nat n) (seq 0 256) = true) as Hall by (vm_compute; reflexivity).
  rewrite forallb_forall in Hall. specialize (Hall (N.to_nat b)). rewrite N2Nat.id in Hall. apply N.eqb_eq, Hall, in_seq. lia.
Qed.
Lemma map_id_bytes bs : bytes bs -> map (fun b => of_bits (to_bits 8 b)) bs = bs.
Proof. induction 1 as [|b bs Hb _ IH]; [done|]. cbn [map]. by rewrite bits8, IH. Qed.
Lemma bits5 g : length g = 5%nat -> to_bits 5 (of_bits g) = g /\ of_bits g < 32.
Proof. destruct g as [|a [|b [|c [|d [|e [|]]]]]]; try done. intros _. by destruct a, b, c, d, e. Qed.
Lemma symbol_index n : n < 32 -> index_of (symbol n) z_base32 = Some n /\ symbol n ∈ z_base32.
Proof.
  intros Hn. assert (forallb (fun k => bool_decide (index_of (symbol (N.of_nat k)) z_base32 = Some (N.of_nat k) /\ symbol (N.of_nat k) ∈ z_base32))
    (seq 0 32) = true) as Hall by (vm_compute; reflexivity).
  rewrite forallb_forall in Hall. specialize (Hall (N.to_nat n)). rewrite N2Nat.id in Hall.
  apply bool_decide_eq_true in Hall; [done|]. apply in_seq. lia.
Qed.

(** A multiple of five bits is its groups of five. *)
Lemma chunks_concat fuel : forall l, (length l <= fuel)%nat -> (length l mod 5 = 0)%nat ->
  concat (chunks fuel 5 l) = l /\ Forall (fun g => length g = 5%nat) (chunks fuel 5 l) /\ (5 * length (chunks fuel 5 l) = length l)%nat.
Proof.
  induction fuel as [|fuel IH]; intros l Hf Hm; [by destruct l; [|cbn in Hf; lia]|]. cbn [chunks].
  destruct (Nat.ltb_spec (length l) 5) as [Hlt|Hge].
  - assert (length l = 0)%nat as Hl by (rewrite Nat.mod_small in Hm by done; done). by destruct l.
  - destruct (IH (drop 5 l)) as (H1 & H2 & H3).
    + rewrite length_drop. lia.
    + rewrite length_drop. replace (length l) with ((length l - 5) + 1 * 5)%nat in Hm by lia. by rewrite Nat.Div0.mod_add in Hm.
    + cbn [concat length]. rewrite H1, take_drop. split_and!; [done| |rewrite length_drop in H3; lia].
      constructor; [rewrite length_take; lia|done].
Qed.
(** Groups of eight bits, whatever fewer than eight bits follow. *)
Lemma chunks_bytes bs : forall fuel t, (length bs < fuel)%nat -> (length t < 8)%nat ->
  chunks fuel 8 (concat (map (to_bits 8) bs) ++ t) = map (to_bits 8) bs.
Proof.
  induction bs as [|b bs IH]; intros [|fuel] t Hf Ht; cbn [length] in Hf; try lia; cbn [chunks map concat app].
  - by destruct (Nat.ltb_spec (length t) 8); [|lia].
  - rewrite !length_app, to_bits_length. destruct (Nat.ltb_spec (8 + length (concat (map (to_bits 8) bs)) + length t) 8); [lia|].
    rewrite <- app_assoc, take_app_length', drop_app_length' by (by rewrite to_bits_length). by rewrite IH by lia.
Qed.
Lemma bits_length bs : length (concat (map (to_bits 8) bs)) = (8 * length bs)%nat.
Proof. induction bs as [|b bs IH]; [done|]. cbn [map concat length]. rewrite length_app, to_bits_length, IH. lia. Qed.
Lemma pad_arith n : (n + (5 - n mod 5) mod 5 = 5 * ((n + 4) / 5))%nat.
Proof.
  pose proof (Nat.div_mod_eq n 5) as Hd. pose proof (Nat.mod_upper_bound n 5 ltac:(lia)) as Hu.
  generalize dependent (n mod 5)%nat. generalize (n / 5)%nat. intros q r Hd Hu.
  assert (r = 0 \/ r = 1 \/ r = 2 \/ r = 3 \/ r = 4)%nat as Hr by lia.
  pose proof (Nat.div_mod_eq (n + 4) 5). pose proof (Nat.mod_upper_bound (n + 4) 5 ltac:(lia)).
  destruct Hr as [->|[->|[->|[->| ->]]]]; cbn [Nat.sub Nat.modulo Nat.divmod fst snd]; lia.
Qed.
Lemma pad_length l : (length (pad l) mod 5 = 0)%nat /\ (length (pad l) = 5 * ((length l + 4) / 5))%nat.
Proof.
  unfold pad. rewrite length_app, length_replicate, pad_arith. split; [|done]. by rewrite Nat.mul_comm, Nat.Div0.mod_mul.
Qed.
Lemma pad_short l : exists t, pad l = l ++ t /\ (length t < 5)%nat.
Proof. unfold pad. eexists. split; [done|]. rewrite length_replicate. by apply Nat.mod_upper_bound. Qed.

Lemma decode_groups gs : Forall (fun g => length g = 5%nat) gs ->
  indices (map (fun g => symbol (of_bits g)) gs) = Some (map of_bits gs) /\
  concat (map (to_bits 5) (map of_bits gs)) = concat gs /\ Forall (fun c => c ∈ z_base32) (map (fun g => symbol (of_bits g)) gs).
Proof.
  induction 1 as [|g gs Hg _ (IH1 & IH2 & IH3)]; [done|]. destruct (bits5 g Hg) as [H5 Hlt]. destruct (symbol_index _ Hlt) as [Hi He].
  cbn [map indices concat]. rewrite Hi, IH1, H5, IH2. split_and!; [done|done|by constructor].
Qed.

Lemma of_bits_bound g : forall acc, foldl (fun n b => 2 * n + N.b2n b) acc g < (acc + 1) * 2 ^ N.of_nat (length g).
Proof.
  induction g as [|b g IH]; intros acc; cbn [foldl length]; [cbn; lia|]. eapply N.lt_le_trans; [apply IH|].
  rewrite Nat2N.inj_succ, N.pow_succ_r'. assert (N.b2n b <= 1) by (by destruct b). nia.
Qed.
Lemma chunks_small fuel : forall l, bytes (map of_bits (chunks fuel 8 l)).
Proof.
  induction fuel as [|fuel IH]; intros l; [constructor|]. cbn [chunks].
  destruct (Nat.ltb_spec (length l) 8) as [|Hl]; [constructor|]. cbn [map]. constructor; [|apply IH].
  eapply N.lt_le_trans; [apply of_bits_bound|]. rewrite length_take_le by lia. cbn. lia.
Qed.

Lemma utf8_length s : (length (utf8 s) <= 4 * length s)%nat.
Proof.
  induction s as [|c s IH]; [done|]. unfold utf8 in *. cbn [map concat length]. rewrite length_app.
  assert (length (utf8_char c) <= 4)%nat by (unfold utf8_char; repeat case_match; cbn; lia). lia.
Qed.
Lemma indices_length cs vs : indices cs = Some vs -> length vs = length cs.
Proof.
  revert vs. induction cs as [|c cs IH]; intros vs; cbn [indices]; [by intros [= <-]|].
  destruct (index_of c z_base32); [|done]. destruct (indices cs); [|done]. intros [= <-]. cbn. by rewrite (IH _ eq_refl).
Qed.
#[export] Instance z_multibase_laws : MultibaseLaws unit.
Proof.
  split.
  - intros bs Hb. cbn [base_decode base32z_encode z_multibase]. unfold encode, decode. set (l := pad (concat (map (to_bits 8) bs))).
    destruct (pad_length (concat (map (to_bits 8) bs))) as [Hm _]. fold l in Hm.
    destruct (chunks_concat (length l) l ltac:(lia) Hm) as (Hc & Hg & _). destruct (decode_groups _ Hg) as (-> & -> & _). rewrite Hc.
    destruct (pad_short (concat (map (to_bits 8) bs))) as (t & Ht & Htl). unfold l. rewrite Ht.
    rewrite chunks_bytes by (rewrite ?length_app, ?bits_length; lia). f_equal. rewrite map_map. apply map_id_bytes. done.
  - intros s bs. cbn [base_decode z_multibase]. unfold decode. destruct s as [|c s]; [done|].
    destruct (decide (c = 104)) as [->|Hc]; [|by destruct c as [|c]; [|repeat (destruct c as [c|c|]; try done)]].
    destruct (indices s) as [vs|]; [|done]. intros Hb. assert (bs = map of_bits (chunks (S (length (concat (map (to_bits 5) vs)))) 8 (concat (map (to_bits 5) vs)))) as -> by congruence.
    apply chunks_small.
  - intros bs. cbn [base32z_encode z_multibase]. unfold encode. set (l := pad (concat (map (to_bits 8) bs))). eexists. split; [done|].
    destruct (pad_length (concat (map (to_bits 8) bs))) as [Hm Hl]. fold l in Hm, Hl.
    destruct (chunks_concat (length l) l ltac:(lia) Hm) as (_ & Hg & Hn). split; [by apply decode_groups|].
    rewrite length_map, (Nat.mul_comm (length bs) 8). rewrite bits_length in Hl. lia.
  - intros s bs Hs. cbn [base_decode z_multibase]. unfold decode. destruct s as [|c s]; [done|]. pose proof (utf8_length (c :: s)) as Hu. cbn [length] in Hu.
    destruct (decide (c = 104)) as [->|Hc]; [|by destruct c as [|c]; [|repeat (destruct c as [c|c|]; try done)]].
    destruct (indices s) as [vs|] eqn:Hi; [|done]. apply indices_length in Hi. destruct vs as [|a [|b vs]]; [cbn in Hi; lia..|].
    intros Hb. assert (bs = map of_bits (chunks (S (length (concat (map (to_bits 5) (a :: b :: vs))))) 8 (concat (map (to_bits 5) (a :: b :: vs))))) as -> by congruence.
    done.
Qed.

Lemma peer_id_roundtrip_witness : exists key, length key = PUBLICKEYBYTES /\
  from_default_encoding (MB := unit) (peer_default_encoding (MB := unit) key) = Done (Ok key).
Proof.
  exists (replicate 32 200). split; [reflexivity|].
  apply (peer_id_roundtrip (MB := unit) (replicate 32 200) (replicate 64 7)); [|reflexivity| |reflexivity].
  all: apply Forall_replicate; reflexivity.
Defined.
End ZBase32.
