(* ===== verification/UrnText.v ===== *)
(** * URNs

    [link-identities/src/urn.rs]: an identity is named by [rad:<protocol>:<id>], with an optional path that is a
    reference name; its id is also the namespace of its references.  Ids and their multihashes are the interface
    [HasProtocol]. *)
From stdpp Require Import base list sets.
From Stdlib Require Import NArith Lia.
From Stdlib Require String.
Import String.StringSyntax.
From S2P Require Import Prelude RefFormat RefName Scoped Utf8 RefLike Keys.
Import Name.
#[local] Open Scope N_scope.

(** ** Interface *)

(** [HasProtocol], the multihash of an id, and reading it back with the library multihash. *)
Class HasProtocol (R MH IE : Type) := {
  PROTOCOL : list N;
  id_multihash : R -> list N;
  multihash_from_bytes : list N -> result MH (N * list N);
  id_try_from : N * list N -> result IE R;
}.
Class HasProtocolLaws (R MH IE : Type) `{HasProtocol R MH IE} := {
  protocol_colon : 58 ∉ PROTOCOL;
  id_bytes r : bytes (id_multihash r);
  id_roundtrip r : exists mh, multihash_from_bytes (id_multihash r) = Ok mh /\ id_try_from mh = Ok r;
}.

(** ** URNs *)

Definition DEFAULT_PATH : list N := qualified_from (str "refs/rad/id").

Inductive DecodeId (MB MH IE : Type) : Type :=
| InvalidId (e : IE) | Encoding (e : MB) | DecodeMultihash (e : MH).
Arguments InvalidId {MB MH IE} e. Arguments Encoding {MB MH IE} e. Arguments DecodeMultihash {MB MH IE} e.
Inductive FromRefLike (D : Type) : Type :=
| RefMissing (what : list N) | Namespaced (e : StripPrefixError) | RefInvalidId (e : D) | RefPath (e : NameError).
Arguments RefMissing {D} what. Arguments Namespaced {D} e. Arguments RefInvalidId {D} e. Arguments RefPath {D} e.
Inductive FromStr (D : Type) : Type :=
| StrMissing (what : list N) | InvalidNID (s : list N) | InvalidProto (s : list N) | StrInvalidId (id : list N) (e : D)
| StrPath (e : NameError) | StrUtf8.
Arguments StrMissing {D} what. Arguments InvalidNID {D} s. Arguments InvalidProto {D} s. Arguments StrInvalidId {D} id e.
Arguments StrPath {D} e. Arguments StrUtf8 {D}.

Record Urn (R : Type) : Type := MkUrn { urn_id : R; urn_path : option (list N) }.
Arguments MkUrn {R} urn_id urn_path. Arguments urn_id {R} u. Arguments urn_path {R} u.

Definition urn_new {R} (id : R) : Urn R := MkUrn id None.
Definition urn_map {R S} (f : R -> S) (u : Urn R) : Urn S := MkUrn (f (urn_id u)) (urn_path u).
Definition map_path {R} (f : option (list N) -> option (list N)) (u : Urn R) : Urn R := MkUrn (urn_id u) (f (urn_path u)).
Definition with_path {R} (path : option (list N)) (u : Urn R) : Urn R := map_path (fun _ => path) u.

(** [str::splitn(2, c)] *)
Fixpoint splitn2 (c : N) (s : list N) : list N * option (list N) :=
  match s with
  | [] => ([], None)
  | x :: s => if x =? c then ([], Some s) else let '(a, b) := splitn2 c s in (x :: a, b)
  end.

Section Urn.
Context {R MB MH IE : Type} `{HasProtocol R MH IE} `{Multibase MB} `{PercentEncoding}.
Let D : Type := DecodeId MB MH IE.

Definition urn_encode_id (u : Urn R) : list N := base32z_encode (id_multihash (urn_id u)).
Definition urn_try_from_id (s : list N) : result D (Urn R) :=
  bytes ← map_err Encoding (base_decode s);
  mhash ← map_err DecodeMultihash (multihash_from_bytes bytes);
  id ← map_err InvalidId (id_try_from mhash);
  Ok (urn_new id).

(** [TryFrom<RefLike>] *)
Definition urn_from_reflike (refl : list N) : result (FromRefLike D) (Urn R) :=
  refl ← map_err Namespaced (reflike_strip_prefix refl (str "refs/namespaces/"));
  match split_on slash refl with
  | [] => Err (RefMissing (str "namespace"))
  | ns :: suf =>
      urn ← map_err RefInvalidId (urn_try_from_id ns);
      let path := join_on slash suf in
      path ← (match path with [] => Ok None | _ => Some <$> map_err RefPath (reflike_try_from path) end);
      Ok (with_path path urn)
  end.

(** [From<&Urn> for RefLike] *)
Definition reflike_from_urn (u : Urn R) : outcome (list N) :=
  refl ← unwrap (res_ok (reflike_try_from (urn_encode_id u)));
  match urn_path u with
  | None => Done refl
  | Some path => Done (reflike_join refl (qualified_from path))
  end.

(** [Display] *)
Definition urn_to_string (u : Urn R) : list N :=
  str "rad:" ++ PROTOCOL ++ 58 :: urn_encode_id u ++
  match urn_path u with Some path => slash :: percent_encode path | None => [] end.

(** [FromStr] *)
Definition urn_from_str (s : list N) : result (FromStr D) (Urn R) :=
  let components := split_on 58 s in
  nid ← ok_or (components !! 0%nat) (StrMissing (str "namespace"));
  _ ← (if bool_decide (nid = str "rad") then Ok tt else Err (InvalidNID nid));
  proto ← ok_or (components !! 1%nat) (StrMissing (str "protocol"));
  _ ← (if bool_decide (PROTOCOL = proto) then Ok tt else Err (InvalidProto proto));
  s ← ok_or (components !! 2%nat) (StrMissing (str "id[/path]"));
  decoded ← ok_or (percent_decode_utf8 s) StrUtf8;
  let '(id, rest) := splitn2 slash decoded in
  urn ← map_err (StrInvalidId id) (urn_try_from_id id);
  path ← (match rest with None => Ok None | Some p => Some <$> map_err StrPath (reflike_try_from p) end);
  Ok (with_path path urn).
End Urn.

(** ** Properties *)

(** No colon is in a reference name. *)
Lemma elem_of_components c s : c ∈ s -> c <> slash -> exists p, p ∈ split_on slash s /\ c ∈ p.
Proof.
  intros Hc Hne. rewrite <- (join_split slash s) in Hc. revert Hc. generalize (split_on slash s). intros ps.
  induction ps as [|p ps IH]; [by intros ?%elem_of_nil|]. destruct ps as [|q ps]; [intros Hc; exists p; split; [by left|done]|].
  rewrite join_cons by done. intros [Hc|Hc]%elem_of_app; [exists p; split; [by left|done]|].
  apply elem_of_cons in Hc as [->|Hc]; [done|]. destruct (IH Hc) as (x & Hx & Hcx). exists x. split; [by right|done].
Qed.
Lemma refstr_allowed s c : is_refstr s -> c ∈ s -> c <> slash -> forbidden c = false.
Proof.
  intros Hs Hc Hne. apply ref_format_spec in Hs as [_ Hv _ _]. destruct (elem_of_components c s Hc Hne) as (p & Hp & Hcp).
  rewrite Forall_forall in Hv. destruct (Hv p Hp) as [_ _ _ _ _ _ Hch _]. by rewrite Forall_forall in Hch; apply Hch.
Qed.
Lemma refstr_colon s : is_refstr s -> 58 ∉ s.
Proof. intros Hs Hc. by pose proof (refstr_allowed s 58 Hs Hc ltac:(done)). Qed.

Lemma splitn2_app c a b : c ∉ a -> splitn2 c (a ++ c :: b) = (a, Some b).
Proof.
  induction a as [|x a IH]; intros Ha; cbn; [by rewrite N.eqb_refl|]. apply not_elem_of_cons in Ha as [Hx Ha].
  destruct (N.eqb_spec x c); [congruence|]. by rewrite IH.
Qed.
Lemma splitn2_none c a : c ∉ a -> splitn2 c a = (a, None).
Proof.
  induction a as [|x a IH]; intros Ha; cbn; [done|]. apply not_elem_of_cons in Ha as [Hx Ha].
  destruct (N.eqb_spec x c); [congruence|]. by rewrite IH.
Qed.

(** The set of characters that are encoded in a path. *)
Lemma path_set_percent : path_percent_encode_set 37 = false.
Proof. reflexivity. Qed.
Lemma path_set_hex c : is_hex c = true -> path_percent_encode_set c = false.
Proof.
  intros Hc. pose proof (is_hex_range c Hc) as Hr.
  assert (forallb (fun n => negb (is_hex (N.of_nat n)) || negb (path_percent_encode_set (N.of_nat n))) (seq 0 128) = true) as Hall
    by (vm_compute; reflexivity).
  rewrite forallb_forall in Hall. specialize (Hall (N.to_nat c)). rewrite N2Nat.id, Hc in Hall. apply negb_true_iff, Hall, in_seq. lia.
Qed.

Section Laws.
Context {R MB MH IE : Type} `{HasProtocolLaws R MH IE} `{MultibaseLaws MB} `{PercentEncoding}.
Lemma urn_id_text (u : Urn R) : Forall letter (urn_encode_id u) /\ (slash ∉ urn_encode_id u) /\ is_refstr (urn_encode_id u).
Proof. unfold urn_encode_id. destruct (base32z_component (id_multihash (urn_id u))). split_and!; [apply base32z_letters|done..]. Qed.
Lemma try_from_encode_id (u : Urn R) : urn_try_from_id (urn_encode_id u) = Ok (urn_new (urn_id u)).
Proof.
  unfold urn_try_from_id, urn_encode_id. rewrite base_roundtrip by apply id_bytes. cbn.
  destruct (id_roundtrip (urn_id u)) as (mh & Hm & Hi). rewrite Hm. cbn. by rewrite Hi.
Qed.

Definition id_and_path (u : Urn R) : list N :=
  urn_encode_id u ++ match urn_path u with Some p => slash :: percent_encode p | None => [] end.

(** A URN whose path is a valid name of scalar values. *)
Definition urn_wf (u : Urn R) : Prop := match urn_path u with Some p => is_refstr p /\ scalars p = true | None => True end.

Lemma id_and_path_colon u : urn_wf u -> 58 ∉ id_and_path u.
Proof.
  intros Hu. unfold id_and_path. destruct (urn_id_text u) as (Hl & _ & _). intros [Hc|Hc]%elem_of_app.
  - rewrite Forall_forall in Hl. apply Hl in Hc. unfold letter in Hc. lia.
  - unfold urn_wf in Hu. destruct (urn_path u) as [p|]; [|by apply elem_of_nil in Hc]. destruct Hu as [Hp Hs].
    apply elem_of_cons in Hc as [Hc|Hc]; [done|]. unfold percent_encode in Hc. apply percent_encode_chars in Hc; [|done].
    destruct Hc as [Hc|[Hc|Hc]]; [done|done|]. by apply (refstr_colon p).
Qed.
Lemma urn_components u : urn_wf u -> split_on 58 (urn_to_string u) = [str "rad"; PROTOCOL; id_and_path u].
Proof.
  intros Hu. unfold urn_to_string. fold (id_and_path u).
  change (str "rad:" ++ PROTOCOL ++ 58 :: id_and_path u) with (str "rad" ++ 58 :: PROTOCOL ++ 58 :: id_and_path u).
  rewrite !split_on_app, (split_on_no 58 PROTOCOL), (split_on_no 58 (id_and_path u)).
  - reflexivity.
  - by apply id_and_path_colon.
  - apply protocol_colon.
Qed.
Lemma id_percent u : Forall (fun c => c < 128) (urn_encode_id u ++ [slash]) /\ 37 ∉ urn_encode_id u ++ [slash].
Proof.
  destruct (urn_id_text u) as (Hl & _ & _). split.
  - apply Forall_app. split; [by apply letters_ascii|]. constructor; [done|constructor].
  - intros [Hc|Hc]%elem_of_app; [|set_solver]. rewrite Forall_forall in Hl. apply Hl in Hc. unfold letter in Hc. lia.
Qed.

(** A URN without path is read back. *)
Lemma urn_text_new id : urn_from_str (urn_to_string (urn_new id)) = Ok (E := FromStr (DecodeId MB MH IE)) (urn_new id).
Proof.
  unfold urn_from_str. rewrite urn_components by done. cbn. rewrite bool_decide_eq_true_2 by done. cbn.
  destruct (urn_id_text (urn_new id)) as (Hl & Hsl & _). destruct (id_percent (urn_new id)) as [Ha Hp].
  unfold id_and_path. cbn [urn_path urn_new]. rewrite app_nil_r.
  assert (percent_decode_utf8 (urn_encode_id (urn_new id)) = Some (urn_encode_id (urn_new id))) as Hd.
  { rewrite <- (app_nil_r (urn_encode_id _)) at 1. rewrite percent_decode_app.
    - rewrite percent_decode_eq. cbn. by rewrite app_nil_r.
    - by apply letters_ascii.
    - intros Hc. apply Hp, elem_of_app. by left. }
  unfold urn_new in *. rewrite Hd. cbn. rewrite splitn2_none, try_from_encode_id by done. done.
Qed.

(** C36 [urn_text_roundtrip]: the text of a URN is read back exactly when nothing in its path looks percent-encoded: the percent
    sign itself is not encoded. *)
Theorem urn_text_roundtrip u : urn_wf u ->
  urn_from_str (urn_to_string u) = Ok (E := FromStr (DecodeId MB MH IE)) u <-> match urn_path u with Some p => percent_free p = true | None => True end.
Proof.
  intros Hu. unfold urn_from_str. rewrite urn_components by done. cbn. rewrite bool_decide_eq_true_2 by done. cbn.
  destruct (urn_id_text u) as (Hl & Hsl & _). destruct (id_percent u) as [Ha Hp].
  unfold id_and_path, urn_wf in *. destruct u as [id [p|]]; cbn [urn_path urn_id] in *.
  - destruct Hu as [Hr Hs]. change (slash :: percent_encode p) with ([slash] ++ percent_encode p). rewrite app_assoc, percent_decode_app by done.
    pose proof (percent_roundtrip path_percent_encode_set p path_set_percent path_set_hex Hs) as Hrt. unfold percent_encode.
    rewrite <- Hrt. destruct (percent_decode_utf8 (utf8_percent_encode path_percent_encode_set p)) as [q|]; cbn; [|done].
    rewrite <- app_assoc. cbn [app]. rewrite splitn2_app by done. rewrite try_from_encode_id. cbn. split.
    + destruct (reflike_try_from q) as [t|] eqn:Ht; cbn; [|done]. apply reflike_try_from_ok in Ht as [-> _]. by intros [= ->].
    + intros [= ->]. by rewrite (proj2 (reflike_try_from_ok p p) (conj eq_refl Hr)).
  - split; [done|]. intros _. pose proof (urn_text_new id) as Hn. unfold urn_from_str in Hn. rewrite urn_components in Hn by done. cbn in Hn.
    rewrite bool_decide_eq_true_2 in Hn by done. cbn in Hn. exact Hn.
Qed.

(** [urn_reference_roundtrip]: the namespace of a URN, a valid reference name, gives the URN back, its path qualified. *)
Theorem urn_reference_roundtrip u : urn_wf u -> exists r, reflike_from_urn u = Done r /\ is_refstr r /\
  urn_from_reflike (reflike_join (str "refs/namespaces") r)
  = Ok (E := FromRefLike (DecodeId MB MH IE)) (map_path (fmap qualified_from) u).
Proof.
  intros Hu. destruct (urn_id_text u) as (_ & Hsl & Hr). unfold reflike_from_urn.
  rewrite (proj2 (reflike_try_from_ok _ _) (conj eq_refl Hr)). cbn [res_ok unwrap mbind outcome_bind].
  assert (forall t, t <> [] -> reflike_strip_prefix (reflike_join (str "refs/namespaces") t) (str "refs/namespaces/") = Ok t) as Hstrip
    by (intros t Ht; by apply reflike_strip_prefix_spec).
  unfold urn_from_reflike, urn_wf in *. destruct u as [id [p|]]; cbn [urn_path] in *.
  - destruct (qualified_from_spec p (proj1 Hu)) as (q & Hq & _ & Hqr). eexists. split; [done|]. split.
    { unfold reflike_join. apply (push_valid _ (qualified_from p)); by apply refstr_piece. }
    rewrite Hstrip by (unfold reflike_join; by destruct (urn_encode_id _)). cbn. unfold reflike_join.
    rewrite split_on_app, (split_on_no slash (urn_encode_id _)) by done. cbn [app]. rewrite try_from_encode_id. cbn.
    rewrite join_split. destruct (qualified_from p) as [|c0 q0] eqn:Hqe; [done|].
    rewrite (proj2 (reflike_try_from_ok _ _) (conj eq_refl Hqr)). unfold map_path. cbn [urn_path fmap option_fmap option_map]. by rewrite Hqe.
  - eexists. split; [done|]. split; [done|]. rewrite Hstrip by (intros Hn; rewrite Hn in Hr; by vm_compute in Hr). cbn.
    rewrite (split_on_no slash (urn_encode_id _)) by done. by rewrite try_from_encode_id.
Qed.

(** The interface of URNs in replication, for ids. *)
Definition replication_urn : Scoped.Urn R := {|
  try_from_id s := urn_id <$> res_ok (urn_try_from_id s);
  encode_id r := urn_encode_id (urn_new r);
|}.
Lemma replication_urn_laws : @Scoped.UrnLaws R replication_urn.
Proof.
  split; intros r; unfold try_from_id, encode_id; cbn [replication_urn].
  - by rewrite try_from_encode_id.
  - apply (urn_id_text (urn_new r)).
  - apply (urn_id_text (urn_new r)).
Qed.
End Laws.

Module UrnWitness.
Import ZBase32.
#[local] Instance byte_ids : HasProtocol Byte.byte unit unit := {|
  PROTOCOL := str "git";
  id_multihash b := [17; 1; Byte.to_N b];
  multihash_from_bytes bs := match bs with c :: _ :: d => Ok (c, d) | _ => Err tt end;
  id_try_from mh := match mh.2 with [n] => match Byte.of_N n with Some b => Ok b | None => Err tt end | _ => Err tt end;
|}.
#[local] Instance byte_ids_laws : HasProtocolLaws Byte.byte unit unit.
Proof.
  split.
  - apply (bool_decide_unpack _). reflexivity.
  - intros b. repeat constructor. pose proof (Byte.to_N_bounded b). cbn [id_multihash byte_ids] in *. lia.
  - intros b. eexists. split; [done|]. cbn. by rewrite Byte.of_to_N.
Qed.
#[local] Existing Instance percent_encoding_model.
Lemma urn_text_roundtrip_witness :
  urn_from_str (urn_to_string (MkUrn Byte.x2a (Some (str "refs/heads/%zz{"))) ) =
  Ok (E := FromStr (DecodeId unit unit unit)) (MkUrn Byte.x2a (Some (str "refs/heads/%zz{"))).
Proof. apply (urn_text_roundtrip (MB := unit)); [split; reflexivity|reflexivity]. Defined.
Lemma urn_reference_roundtrip_witness : exists r,
  urn_from_reflike (reflike_join (str "refs/namespaces") r) =
  Ok (E := FromRefLike (DecodeId unit unit unit)) (MkUrn Byte.x2a (Some (str "refs/heads/next"))).
Proof.
  destruct (urn_reference_roundtrip (MB := unit) (MkUrn Byte.x2a (Some (str "next"))) ltac:(split; reflexivity)) as (r & _ & _ & Hr).
  exists r. exact Hr.
Defined.
(** [refs/heads/%41] is read back as [refs/heads/A]; what follows another colon is ignored. *)
Example percent_lost :
  urn_from_str (urn_to_string (MkUrn Byte.x2a (Some (str "refs/heads/%41")))) =
  Ok (E := FromStr (DecodeId unit unit unit)) (MkUrn Byte.x2a (Some (str "refs/heads/A"))).
Proof. vm_compute. reflexivity. Qed.
Example colon_ignored :
  urn_from_str (urn_to_string (MkUrn Byte.x2a None) ++ str ":anything") =
  Ok (E := FromStr (DecodeId unit unit unit)) (MkUrn Byte.x2a None).
Proof. vm_compute. reflexivity. Qed.
End UrnWitness.
