(* ===== verification/LibradRef.v ===== *)
(** * References of librad

    [librad/src/git/types.rs], [types/namespace.rs], [types/reference.rs] and [types/refspec.rs]: references as a
    namespace, a remote, a category and a name, how they are written, and their conversions to and from URNs;
    refspecs and their text. *)
From stdpp Require Import base list sets.
From Stdlib Require Import NArith Lia.
From Stdlib Require String.
Import String.StringSyntax.
From S2P Require Import Prelude Effects RefFormat RefName Scoped Utf8 RefLike Keys UrnText.
Import Name.
#[local] Open Scope N_scope.

(** ** Categories *)

Inductive RefsCategory := Heads | Rad | Tags | Notes | Cobs | Unknown (c : list N).

Definition category_known (s : list N) : option RefsCategory :=
  if bool_decide (s = str "heads") then Some Heads
  else if bool_decide (s = str "rad") then Some Rad
  else if bool_decide (s = str "tags") then Some Tags
  else if bool_decide (s = str "notes") then Some Notes
  else if bool_decide (s = str "cobs") then Some Cobs
  else None.
Definition category_from_str (s : list N) : result NameError RefsCategory :=
  match category_known s with Some c => Ok c | None => Unknown <$> reflike_try_from s end.
Definition category_parse (s : list N) : option RefsCategory := res_ok (category_from_str s).
Definition default_categories : list RefsCategory := [Heads; Tags; Notes].
Definition category_to_string (c : RefsCategory) : list N :=
  match c with
  | Heads => str "heads" | Rad => str "rad" | Tags => str "tags" | Notes => str "notes" | Cobs => str "cobs"
  | Unknown c => c
  end.
Definition category_reflike (c : RefsCategory) : outcome (list N) := unwrap (res_ok (reflike_try_from (category_to_string c))).
Definition category_from_reflike (r : list N) : RefsCategory :=
  match category_known r with Some c => c | None => Unknown r end.

#[export] Instance category_eq_dec : EqDecision RefsCategory.
Proof. solve_decision. Defined.

(** ** References *)

Inductive Force := ForceTrue | ForceFalse.
Definition as_bool (f : Force) : bool := match f with ForceTrue => true | ForceFalse => false end.
Definition force_from (b : bool) : Force := if b then ForceTrue else ForceFalse.

Record Reference (Ns Rm : Type) : Type := MkReference {
  remote : option Rm;
  category : RefsCategory;
  name : list N;
  namespace : option Ns;
}.
Arguments MkReference {Ns Rm} remote category name namespace.
Arguments remote {Ns Rm} r. Arguments category {Ns Rm} r. Arguments name {Ns Rm} r. Arguments namespace {Ns Rm} r.

(** [AsNamespace] and [AsRemote]: what becomes a component of a name. *)
Class IntoRefLike (A : Type) := into_reflike : A -> outcome (list N).
#[export] Instance reflike_into : IntoRefLike (list N) := fun r => Done r.

Section Reference.
Context {Ns Rm : Type}.

Definition with_remote (rm : option Rm) (r : Reference Ns Rm) : Reference Ns Rm :=
  MkReference rm (category r) (name r) (namespace r).
Definition with_namespace {Other} (ns : option Other) (r : Reference Ns Rm) : Reference Other Rm :=
  MkReference (remote r) (category r) (name r) ns.
Definition with_name (n : list N) (r : Reference Ns Rm) : Reference Ns Rm :=
  MkReference (remote r) (category r) n (namespace r).

(** One reference. *)
Definition rad_id (ns : option Ns) : Reference Ns Rm := MkReference None Rad (str "id") ns.
Definition rad_delegate {R MB MH IE} `{HasProtocol R MH IE} `{Multibase MB} (ns : option Ns) (urn : UrnText.Urn R) : outcome (Reference Ns Rm) :=
  id ← unwrap (res_ok (reflike_try_from (urn_encode_id (MB := MB) urn)));
  Done (MkReference None Rad (reflike_join (str "ids") id) ns).
Definition rad_signed_refs (ns : option Ns) (rm : option Rm) : Reference Ns Rm := MkReference rm Rad (str "signed_refs") ns.
Definition rad_self (ns : option Ns) (rm : option Rm) : Reference Ns Rm := MkReference rm Rad (str "self") ns.
Definition head (ns : option Ns) (rm : option Rm) (n : list N) : Reference Ns Rm := MkReference rm Heads n ns.
Definition tag (ns : option Ns) (rm : option Rm) (n : list N) : Reference Ns Rm := MkReference rm Tags n ns.
Definition rad_collaborative_object (ns : option Ns) (rm : option Rm) (typename oid : list N) : outcome (Reference Ns Rm) :=
  t ← unwrap (res_ok (reflike_try_from typename));
  o ← unwrap (res_ok (reflike_try_from oid));
  Done (MkReference rm Cobs (reflike_join t o) ns).

(** Many references. *)
Definition rad_ids_glob (ns : option Ns) : Reference Ns Rm := MkReference None Rad (str "ids/*") ns.
Definition heads (ns : option Ns) (rm : option Rm) : Reference Ns Rm := MkReference rm Heads (str "*") ns.
Definition rads (ns : option Ns) (rm : option Rm) : Reference Ns Rm := MkReference rm Rad (str "*") ns.
Definition tags (ns : option Ns) (rm : option Rm) : Reference Ns Rm := MkReference rm Tags (str "*") ns.
Definition notes (ns : option Ns) (rm : option Rm) : Reference Ns Rm := MkReference rm Notes (str "*") ns.
Definition cob (ns : option Ns) (rm : option Rm) : Reference Ns Rm := MkReference rm Cobs (str "*") ns.

Context `{IntoRefLike Ns} `{IntoRefLike Rm}.

(** [From<&Reference<_, _, One>> for RefLike] *)
Definition reference_reflike (r : Reference Ns Rm) : outcome (list N) :=
  let refl := str "refs" in
  refl ← (match namespace r with
          | Some ns => n ← into_reflike ns; Done (reflike_join (reflike_join (reflike_join refl (str "namespaces")) n) (str "refs"))
          | None => Done refl
          end);
  refl ← (match remote r with
          | Some rm => m ← into_reflike rm; Done (reflike_join (reflike_join refl (str "remotes")) m)
          | None => Done refl
          end);
  c ← category_reflike (category r);
  Done (reflike_join (reflike_join refl c) (onelevel_from (name r))).
(** [From<&Reference<_, _, Many>> for RefspecPattern] *)
Definition reference_pattern (r : Reference Ns Rm) : outcome (list N) :=
  let refl := str "refs" in
  refl ← (match namespace r with
          | Some ns => n ← into_reflike ns; Done (reflike_join (reflike_join (reflike_join refl (str "namespaces")) n) (str "refs"))
          | None => Done refl
          end);
  refl ← (match remote r with
          | Some rm => m ← into_reflike rm; Done (reflike_join (reflike_join refl (str "remotes")) m)
          | None => Done refl
          end);
  c ← category_reflike (category r);
  Done (with_pattern_suffix (reflike_join refl c) (name r)).
End Reference.

(** ** Namespaces, remotes and URNs *)

Inductive FromUrnError (MB : Type) : Type :=
| UrnMissing (what : list N) | InvalidCategory (s : list N) | UrnEof | UrnPeerId (e : ConversionError (MB := MB)).
Arguments UrnMissing {MB} what. Arguments InvalidCategory {MB} s. Arguments UrnEof {MB}. Arguments UrnPeerId {MB} e.

(** [iter.map(|x| RefLike::try_from(x).unwrap()).collect()] *)
Fixpoint unwrap_all (l : list (list N)) : outcome (list (list N)) :=
  match l with
  | [] => Done []
  | x :: l => r ← unwrap (res_ok (reflike_try_from x)); rs ← unwrap_all l; Done (r :: rs)
  end.
Fixpoint skip_while {A} (p : A -> bool) (l : list A) : list A :=
  match l with [] => [] | x :: l' => if p x then skip_while p l' else l end.

Section Urns.
Context {R MB MH IE : Type} `{HasProtocol R MH IE} `{Multibase MB}.

(** A [Namespace] is a URN without path. *)
Record Namespace := MkNamespace { ns_urn : UrnText.Urn R }.
Definition namespace_from (urn : UrnText.Urn R) : Namespace := MkNamespace (MkUrn (urn_id urn) None).
#[export] Instance namespace_into : IntoRefLike Namespace := fun ns => reflike_from_urn (MB := MB) (ns_urn ns).
(** [From<PeerId> for RefLike]; [expect]. *)
Record PeerId := MkPeerId { peer_key : list N }.
#[export] Instance peer_into : IntoRefLike PeerId := fun p =>
  unwrap (res_ok (reflike_try_from (peer_default_encoding (MB := MB) (peer_key p)))).

(** [TryFrom<Reference> for Urn] *)
Definition urn_from_reference (r : Reference Namespace PeerId) : outcome (result (list N) (UrnText.Urn R)) :=
  match namespace r with
  | None => Done (Err (str "missing namespace"))
  | Some ns =>
      path ← (match remote r with
              | Some rm => m ← into_reflike rm; Done (reflike_join (reflike_join (str "refs") (str "remotes")) m)
              | None => Done (str "refs")
              end);
      c ← category_reflike (category r);
      Done (Ok (MkUrn (urn_id (ns_urn ns)) (Some (reflike_join (reflike_join path c) (name r)))))
  end.

(** [TryFrom<&Urn> for Reference] *)
Definition reference_from_urn (urn : UrnText.Urn R) : outcome (result (FromUrnError MB) (Reference Namespace PeerId)) :=
  let ns := namespace_from urn in
  match urn_path urn with
  | None => Done (Ok (rad_id (Some ns)))
  | Some path =>
      match skip_while (fun x => bool_decide (x = str "refs")) (split_on slash (qualified_from path)) with
      | [] => Done (Err UrnEof)
      | x :: iter =>
          if bool_decide (x = str "remotes") then
            match iter with
            | [] => Done (Err (UrnMissing (str "remote peer id")))
            | p :: iter =>
                res ← from_default_encoding p;
                match res with
                | Err e => Done (Err (UrnPeerId e))
                | Ok key =>
                    match iter with
                    | [] => Done (Err (UrnMissing (str "category")))
                    | x :: iter =>
                        match category_parse x with
                        | None => Done (Err (InvalidCategory x))
                        | Some c =>
                            names ← unwrap_all iter;
                            Done (Ok (MkReference (Some (MkPeerId key)) c (reflike_collect names) (Some ns)))
                        end
                    end
                end
            end
          else
            names ← unwrap_all iter;
            Done (Ok (MkReference None (default Heads (category_parse x)) (reflike_collect names) (Some ns)))
      end
  end.
End Urns.
Arguments Namespace R : clear implicits.
Arguments MkNamespace {R} ns_urn.

(** ** Symbolic references *)

(** What is used of a [git2::Repository] that changes its references. *)
Class GitRefs (W E : Type) := {
  refname_to_id : list N -> W -> result E N;
  reference_ensure_log : list N -> st W E unit;
  reference_create : list N -> N -> bool -> st W E unit;
  reference_symbolic : list N -> list N -> bool -> st W E unit;
}.
Record SymbolicRef (S T : Type) : Type := MkSymbolicRef { source : S; target : T; sym_force : Force }.
Arguments MkSymbolicRef {S T} source target sym_force.
Arguments source {S T} s. Arguments target {S T} s. Arguments sym_force {S T} s.

Section Git.
Context {W E : Type} `{GitRefs W E} {Ns Rm : Type} `{IntoRefLike Ns} `{IntoRefLike Rm}.

Definition reference_oid (r : Reference Ns Rm) : st W E N :=
  name ← lift (of_out (reference_reflike r));
  reads (fun w => of_res (refname_to_id name w)).
Definition reference_write (r : Reference Ns Rm) (oid : N) (force : Force) : st W E unit :=
  name ← lift (of_out (reference_reflike r));
  _ ← reference_ensure_log name;
  reference_create name oid (as_bool force).
Definition symbolic_ref (r s : Reference Ns Rm) (force : Force) : SymbolicRef (Reference Ns Rm) (Reference Ns Rm) :=
  MkSymbolicRef s r force.
(** [SymbolicRef::create] *)
Definition symbolic_create (s : SymbolicRef (Reference Ns Rm) (Reference Ns Rm)) : st W E unit :=
  src ← lift (of_out (reference_reflike (source s)));
  tgt ← lift (of_out (reference_reflike (target s)));
  _ ← reads (fun w => of_res (refname_to_id tgt w));
  _ ← reference_ensure_log src;
  reference_symbolic src tgt (as_bool (sym_force s)).
End Git.

(** ** Refspecs *)

Record Refspec := MkRefspec { src : list N; dst : list N; force : Force }.

(** [str::trim_start_matches] *)
Fixpoint trim_start_matches (c : N) (s : list N) : list N :=
  match s with x :: s' => if x =? c then trim_start_matches c s' else s | [] => [] end.

(** [Display]: a pattern's text, or a name's. *)
Definition refspec_to_string (r : Refspec) : list N :=
  (if as_bool (force r) then [43] else []) ++ src r ++ 58 :: dst r.
(** [TryFrom<&str>], for patterns and for names. *)
Definition refspec_try_from_with (try_from : list N -> result NameError (list N)) (s : list N) : result NameError Refspec :=
  let force := force_from (starts_with [43] s) in
  let specs := trim_start_matches 43 s in
  let parts := split_on 58 specs in
  src ← ok_or (parts !! 0%nat) error_empty ≫= try_from;
  dst ← ok_or (parts !! 1%nat) error_empty ≫= try_from;
  Ok (MkRefspec src dst force).
Definition fetchspec_try_from : list N -> result NameError Refspec := refspec_try_from_with pattern_try_from.
Definition pushspec_try_from : list N -> result NameError Refspec := refspec_try_from_with reflike_try_from.

(** ** Properties *)

(** *** Categories *)
Lemma category_known_spec s c : category_known s = Some c <-> s = category_to_string c /\ (forall u, c <> Unknown u).
Proof.
  unfold category_known. repeat case_bool_decide; split; try (intros [= <-]; done); intros [Hs Hu]; destruct c; cbn in Hs; subst; try done.
  all: try (by exfalso; eapply Hu). all: congruence.
Qed.
(** A category, and what it is written as. *)
Definition category_wf (c : RefsCategory) : Prop :=
  match c with Unknown u => is_refstr u /\ (slash ∉ u) /\ category_known u = None | _ => True end.
Lemma category_roundtrip c : category_wf c ->
  category_from_str (category_to_string c) = Ok c /\ category_reflike c = Done (category_to_string c) /\
  category_from_reflike (category_to_string c) = c /\ is_refstr (category_to_string c) /\ slash ∉ category_to_string c.
Proof.
  intros Hc. destruct c as [| | | | |u]; cbn [category_wf category_to_string] in *.
  1-5: split_and!; [reflexivity..|apply (bool_decide_unpack _); reflexivity].
  destruct Hc as (Hr & Hsl & Hk). pose proof (proj2 (reflike_try_from_ok u u) (conj eq_refl Hr)) as Ht.
  unfold category_from_str, category_reflike, category_from_reflike. cbn [category_to_string]. rewrite Hk, Ht. done.
Qed.

(** *** Refspecs *)
Lemma trim_start_id s : starts_with [43] s = false -> trim_start_matches 43 s = s.
Proof. destruct s as [|x s]; [done|]. unfold starts_with. cbn. destruct (N.eqb_spec 43 x) as [<-|Hx]; [by destruct s|]. intros _. by destruct (N.eqb_spec x 43). Qed.
Lemma starts_with_app_cons c a b : a <> [] -> starts_with [c] (a ++ b) = starts_with [c] a.
Proof. destruct a as [|x a]; [done|]. intros _. unfold starts_with. cbn. destruct (c =? x); [|done]. by destruct a, b. Qed.

Lemma trim_start_none s : starts_with [43] (trim_start_matches 43 s) = false.
Proof.
  induction s as [|x s IH]; [done|]. cbn [trim_start_matches]. destruct (N.eqb_spec x 43) as [->|Hx]; [done|].
  unfold starts_with. cbn [str_strip_prefix]. destruct (N.eqb_spec 43 x); [congruence|done].
Qed.
Lemma split_first_plus s p ps : split_on 58 s = p :: ps -> starts_with [43] p = true -> starts_with [43] s = true.
Proof.
  intros Hs Hp. rewrite <- (join_split 58 s), Hs. apply starts_with_spec in Hp as [q ->]. apply starts_with_spec.
  destruct ps as [|p' ps]; [by exists q|]. rewrite join_cons by done. by exists (q ++ 58 :: join_on 58 (p' :: ps)).
Qed.

Section Refspec.
Context (try_from : list N -> result NameError (list N)) (Htry : forall s t, try_from s = Ok t -> t = s).
Lemma refspec_roundtrip_with r : try_from (src r) = Ok (src r) -> try_from (dst r) = Ok (dst r) ->
  src r <> [] -> (58 ∉ src r) -> (58 ∉ dst r) ->
  refspec_try_from_with try_from (refspec_to_string r) = Ok r <-> starts_with [43] (src r) = false.
Proof.
  intros Hs Hd Hne Hcs Hcd. destruct r as [s d f]. cbn [src dst force] in *.
  unfold refspec_try_from_with, refspec_to_string. cbn [src dst force]. split.
  - destruct (split_on 58 (trim_start_matches 43 _)) as [|p [|q ps]] eqn:Hsp; cbn; [done|by destruct (try_from p)|].
    destruct (try_from p) as [p'|] eqn:Hp; cbn; [|done]. destruct (try_from q) as [q'|] eqn:Hq; cbn; [|done]. intros [= -> _ _].
    apply Htry in Hp as ->. destruct (starts_with [43] p) eqn:Hpl; [|done].
    pose proof (split_first_plus _ _ _ Hsp Hpl) as Ht. by rewrite trim_start_none in Ht.
  - intros Hp. assert (starts_with [43] (s ++ 58 :: d) = false) as Ht by (by rewrite starts_with_app_cons).
    assert (trim_start_matches 43 ((if as_bool f then [43] else []) ++ s ++ 58 :: d) = s ++ 58 :: d) as ->
      by (destruct f; cbn [as_bool app trim_start_matches]; by rewrite trim_start_id).
    rewrite split_on_app, !split_on_no by done. cbn. rewrite Hs. cbn. rewrite Hd. cbn. do 2 f_equal.
    destruct f; cbn [as_bool app]; [done|]. by rewrite Ht.
Qed.
End Refspec.

Lemma format_colon opts s : ref_format opts s = Ok tt -> (58 ∉ s) /\ s <> [].
Proof.
  intros Hs. split; [|by intros ->]. intros Hc. apply ref_format_spec in Hs as [_ Hv _ _].
  destruct (elem_of_components 58 s Hc ltac:(done)) as (p & Hp & Hcp). rewrite Forall_forall in Hv.
  destruct (Hv p Hp) as [_ _ _ _ _ _ Hch _]. rewrite Forall_forall in Hch. by specialize (Hch 58 Hcp).
Qed.
Lemma pattern_try_from_ok s t : pattern_try_from s = Ok t <-> t = s /\ is_pattern s.
Proof.
  unfold pattern_try_from, is_pattern, Refspec.PATTERN_CHECK_OPTS. destruct (ref_format _ s) as [[]|e]; split; [by intros [= <-]|by intros [-> _]|done|by intros [_ ?]].
Qed.

(** [refspec_roundtrip]: a refspec of valid patterns, or of valid names, is read back from its text exactly when its
    source does not start with a plus sign, which is taken for the sign that forces the update. *)
Theorem refspec_roundtrip r :
  (is_pattern (src r) -> is_pattern (dst r) ->
   (fetchspec_try_from (refspec_to_string r) = Ok r <-> starts_with [43] (src r) = false)) /\
  (is_refstr (src r) -> is_refstr (dst r) ->
   (pushspec_try_from (refspec_to_string r) = Ok r <-> starts_with [43] (src r) = false)).
Proof.
  split; intros Hs Hd; destruct (format_colon _ _ Hs) as [Hcs Hne]; destruct (format_colon _ _ Hd) as [Hcd _];
    apply refspec_roundtrip_with; try done.
  - by intros s t [-> _]%pattern_try_from_ok.
  - by apply pattern_try_from_ok.
  - by apply pattern_try_from_ok.
  - by intros s t [-> _]%reflike_try_from_ok.
  - by apply reflike_try_from_ok.
  - by apply reflike_try_from_ok.
Qed.
Lemma refspec_roundtrip_witness : fetchspec_try_from (str "+refs/heads/*:refs/remotes/x/*") =
  Ok (MkRefspec (str "refs/heads/*") (str "refs/remotes/x/*") ForceTrue).
Proof.
  change (str "+refs/heads/*:refs/remotes/x/*") with (refspec_to_string (MkRefspec (str "refs/heads/*") (str "refs/remotes/x/*") ForceTrue)).
  apply (proj1 (refspec_roundtrip (MkRefspec (str "refs/heads/*") (str "refs/remotes/x/*") ForceTrue))); reflexivity.
Defined.

(** *** References and URNs *)

(** Names none of whose components is a lone at sign. *)
Definition name_wf (n : list N) : Prop := is_refstr n /\ (str "@" ∉ components n).

Lemma unwrap_all_done n : name_wf n -> unwrap_all (components n) = Done (components n).
Proof.
  intros [Hn Hat]. apply refstr_piece, piece_components in Hn. revert Hn Hat. generalize (components n). intros l Hl Hat.
  induction Hl as [|x l [[Hx|Hx] _] _ IH]; [done| |subst; by destruct Hat; left].
  cbn [unwrap_all]. rewrite (proj2 (reflike_try_from_ok x x) (conj eq_refl Hx)). cbn [res_ok unwrap mbind outcome_bind].
  rewrite IH by (intros ?; apply Hat; by right). done.
Qed.
Lemma unwrap_all_panic l : Forall is_component l -> str "@" ∈ l -> unwrap_all l = Panic.
Proof.
  induction 1 as [|x l [Hx _] _ IH]; [by intros ?%elem_of_nil|]. intros Hat. cbn [unwrap_all].
  destruct Hx as [Hx| ->]; [|reflexivity]. apply elem_of_cons in Hat as [<-|Hat]; [by vm_compute in Hx|].
  rewrite (proj2 (reflike_try_from_ok x x) (conj eq_refl Hx)). cbn [res_ok unwrap mbind outcome_bind]. by rewrite IH.
Qed.
Lemma components_refs r : components (push REFS r) = REFS :: components r.
Proof. apply components_push. Qed.
Lemma qualified_refs r : qualified_from (push REFS r) = push REFS r.
Proof. unfold qualified_from. by rewrite (proj2 (starts_with_spec REFS_SLASH (push REFS r)) (ex_intro _ r eq_refl)). Qed.
Lemma push_assoc a b c : push (push a b) c = push a (push b c).
Proof. unfold push. by rewrite <- !app_assoc. Qed.

Section UrnLaws.
Context {R MB MH IE : Type} `{HasProtocolLaws R MH IE} `{MultibaseLaws MB}.
#[local] Existing Instance namespace_into.
#[local] Existing Instance peer_into.

Definition peer_wf (p : PeerId) : Prop := bytes (peer_key p) /\ length (peer_key p) = PUBLICKEYBYTES.
Lemma peer_into_done p : peer_wf p -> into_reflike p = Done (peer_default_encoding (MB := MB) (peer_key p)).
Proof.
  intros [Hb Hl]. unfold into_reflike, peer_into, peer_default_encoding.
  by rewrite (proj2 (reflike_try_from_ok _ _) (conj eq_refl (proj1 (base32z_component (MB := MB) (0 :: peer_key p))))).
Qed.
Lemma peer_parse p : peer_wf p -> from_default_encoding (peer_default_encoding (MB := MB) (peer_key p)) = Done (Ok (peer_key p)).
Proof.
  intros [Hb Hl]. unfold from_default_encoding, peer_default_encoding.
  rewrite utf8_all_ascii by (by apply letters_ascii, base32z_letters).
  destruct (base32z_shape (MB := MB) (0 :: peer_key p)) as (cs & Hcs & _ & Hlen).
  assert (length (base32z_encode (MB := MB) (0 :: peer_key p)) = ENCODED_LEN) as ->.
  { rewrite Hcs. cbn [length]. rewrite Hlen. cbn [length]. by rewrite Hl. }
  rewrite Nat.eqb_refl. cbn [negb]. rewrite base_roundtrip by (constructor; [lia|done]). cbn. unfold key_from_slice. by rewrite Hl.
Qed.

(** The name of a namespace is the identifier of its URN. *)
Lemma namespace_done (urn : UrnText.Urn R) : namespace_into (MB := MB) (namespace_from urn) = Done (urn_encode_id (MB := MB) urn).
Proof.
  unfold namespace_into, namespace_from, reflike_from_urn. cbn [ns_urn urn_path].
  destruct (urn_id_text (MB := MB) urn) as (_ & _ & Hr). change (urn_encode_id (MkUrn (urn_id urn) None)) with (urn_encode_id (MB := MB) urn).
  by rewrite (proj2 (reflike_try_from_ok _ _) (conj eq_refl Hr)).
Qed.
(** A reference in a namespace whose category and name are written unambiguously. *)
Record reference_wf (r : Reference (Namespace R) PeerId) : Prop := {
  rw_namespace : exists id, namespace r = Some (MkNamespace (MkUrn id None));
  rw_remote : match remote r with Some p => peer_wf p | None => category r <> Unknown (str "remotes") end;
  rw_category : category_wf (category r) /\ category r <> Unknown (str "refs");
  rw_name : name_wf (name r);
}.

(** [reference_urn_roundtrip]: a reference becomes a URN with a valid path, without panic, and that URN becomes the reference again. *)
Theorem reference_urn_roundtrip (r : Reference (Namespace R) PeerId) : reference_wf r -> exists u,
  urn_from_reference (MB := MB) r = Done (Ok u) /\ (exists p, urn_path u = Some p /\ is_refstr p) /\
  reference_from_urn (MB := MB) u = Done (Ok r).
Proof.
  intros [[id Hns] Hrm [Hc Hcr] Hn]. destruct r as [rm c n ns]. cbn [namespace remote category name] in *. subst ns.
  destruct (category_roundtrip c Hc) as (Hcs & Hcd & _ & Hcref & Hcsl).
  assert (components (category_to_string c) = [category_to_string c]) as Hcc by (by apply split_on_no).
  assert (category_parse (category_to_string c) = Some c) as Hcp by (unfold category_parse; by rewrite Hcs).
  assert (category_to_string c <> str "refs") as Hne by (intros He; destruct c; try done; apply Hcr; f_equal; exact He).
  unfold urn_from_reference. cbn [namespace remote category name].
  assert (forall pre, is_piece pre -> is_refstr (push (push pre (category_to_string c)) n)) as Hval.
  { intros pre Hpre. apply push_valid; [|by apply refstr_piece, Hn]. apply refstr_piece, push_valid; [done|by apply refstr_piece]. }
  destruct rm as [p|].
  - rewrite peer_into_done by done. cbn [mbind outcome_bind]. rewrite Hcd. cbn [mbind outcome_bind].
    eexists. split; [done|]. rewrite !join_push_eq. split.
    { eexists. split; [done|]. apply Hval. apply refstr_piece, push_valid; [left; vm_compute; reflexivity|].
      apply refstr_piece, (base32z_component (MB := MB) (0 :: peer_key p)). }
    unfold reference_from_urn. cbn [urn_path ns_urn urn_id].
    set (enc := peer_default_encoding (MB := MB) (peer_key p)).
    assert (components enc = [enc]) as Hec by (apply split_on_no, base32z_component).
    rewrite !push_assoc. change (str "refs") with REFS at 2. rewrite qualified_refs.
    change (split_on slash ?x) with (components x). rewrite components_refs, !components_push, Hec, Hcc. cbn [app skip_while].
    rewrite bool_decide_eq_true_2 by done. change (components (str "remotes")) with [str "remotes"]. cbn [app skip_while].
    rewrite (bool_decide_eq_false_2 (str "remotes" = str "refs")) by done. rewrite bool_decide_eq_true_2 by done.
    rewrite (peer_parse p Hrm : from_default_encoding enc = _). cbn [mbind outcome_bind]. rewrite Hcp, unwrap_all_done by done. cbn [mbind outcome_bind].
    unfold reflike_collect. rewrite join_components. by destruct p.
  - cbn [mbind outcome_bind]. rewrite Hcd. cbn [mbind outcome_bind]. eexists. split; [done|]. rewrite !join_push_eq. split.
    { eexists. split; [done|]. apply Hval. left. vm_compute. reflexivity. }
    unfold reference_from_urn. cbn [urn_path ns_urn urn_id]. rewrite !push_assoc. change (str "refs") with REFS at 2. rewrite qualified_refs.
    change (split_on slash ?x) with (components x). rewrite components_refs, !components_push, Hcc. cbn [app skip_while].
    rewrite bool_decide_eq_true_2 by done. rewrite (bool_decide_eq_false_2 (category_to_string c = _)) by done.
    rewrite bool_decide_eq_false_2 by (intros He; destruct c; try done; apply Hrm; f_equal; exact He).
    rewrite unwrap_all_done by done. cbn [mbind outcome_bind]. rewrite Hcp. unfold reflike_collect. by rewrite join_components.
Qed.
End UrnLaws.

(** *** How references are written *)
Section Written.
Context {Ns Rm : Type} `{IntoRefLike Ns} `{IntoRefLike Rm}.

(** What a namespace or remote becomes is a valid component. *)
Definition into_component {A} `{IntoRefLike A} (a : A) (s : list N) : Prop := into_reflike a = Done s /\ is_component s.

Definition namespace_parts (ns : option (list N)) : list (list N) :=
  match ns with Some n => [NAMESPACES; n; REFS] | None => [] end.
Definition remote_parts (rm : option (list N)) : list (list N) := match rm with Some m => [REMOTES; m] | None => [] end.

(** [reference_written]: a reference is written as [refs], its namespace, its remote, its category and its name, which is a valid
    name; a name that starts with [refs/] loses its first two components, and must have more. *)
Theorem reference_written (r : Reference Ns Rm) (ns rm : option (list N)) :
  option_Forall2 into_component (namespace r) ns -> option_Forall2 into_component (remote r) rm ->
  category_wf (category r) -> is_piece (onelevel_from (name r)) ->
  reference_reflike r = Done (join_on slash (REFS :: namespace_parts ns ++ remote_parts rm ++
    category_to_string (category r) :: components (onelevel_from (name r)))) /\
  is_refstr (join_on slash (REFS :: namespace_parts ns ++ remote_parts rm ++
    category_to_string (category r) :: components (onelevel_from (name r)))).
Proof.
  intros Hns Hrm Hc Hn. destruct (category_roundtrip _ Hc) as (_ & Hcd & _ & Hcr & Hcs). split.
  - unfold reference_reflike. rewrite Hcd. destruct Hns as [n s [Hs _]|], Hrm as [m t [Ht _]|]; cbn [mbind outcome_bind]; rewrite ?Hs, ?Ht;
      cbn [mbind outcome_bind namespace_parts remote_parts app]; f_equal; rewrite !join_push_eq.
    all: rewrite <- (join_components (onelevel_from (name r))) at 1.
    all: destruct (components (onelevel_from (name r))) as [|x l] eqn:Hx; [by destruct (components_nonempty (onelevel_from (name r)))|].
    all: rewrite !push_assoc; rewrite !join_push; done.
  - apply refstr_valid. split.
    2: { intros He. rewrite join_cons in He by (by destruct ns, rm). discriminate He. }
    + apply join_piece; [done|]. constructor; [apply REFS_component|].
      apply Forall_app. split; [|apply Forall_app; split].
      * destruct Hns as [n s [_ Hs]|]; [|constructor]. apply Forall_cons; split; [apply NAMESPACES_component|].
        apply Forall_cons; split; [done|]. apply Forall_singleton, REFS_component.
      * destruct Hrm as [m t [_ Ht]|]; [|constructor]. apply Forall_cons; split; [apply REMOTES_component|]. by apply Forall_singleton.
      * constructor; [split; [by apply refstr_piece|done]|]. by apply piece_components.
Qed.
End Written.

(** *** Symbolic references *)
Section Symbolic.
Context {W E : Type} `{GitRefs W E} {Ns Rm : Type} `{IntoRefLike Ns} `{IntoRefLike Rm}.
(** Nothing is written when the target of a symbolic reference does not exist. *)
Lemma symbolic_needs_target (s : SymbolicRef (Reference Ns Rm) (Reference Ns Rm)) src tgt e w :
  reference_reflike (source s) = Done src -> reference_reflike (target s) = Done tgt -> refname_to_id tgt w = Err e ->
  symbolic_create s w = (EErr e, w).
Proof. intros Hs Ht He. unfold symbolic_create, mbind, st_bind, lift, reads. rewrite Hs, Ht. cbn. by rewrite He. Qed.
End Symbolic.

Module ReferenceWitness.
Import ZBase32 UrnWitness.
#[local] Existing Instance byte_ids.
#[local] Existing Instance byte_ids_laws.
#[local] Existing Instance namespace_into.
#[local] Existing Instance peer_into.
Definition peer : PeerId := MkPeerId (replicate 32 7).
Definition ns : Namespace Byte.byte := MkNamespace (MkUrn Byte.x2a None).
Lemma peer_ok : peer_wf peer.
Proof. split; [|reflexivity]. apply Forall_replicate. reflexivity. Qed.
Lemma reference_urn_roundtrip_witness : exists u,
  urn_from_reference (MB := unit) (MkReference (Some peer) Heads (str "feature/1") (Some ns)) = Done (Ok u) /\
  reference_from_urn (MB := unit) u = Done (Ok (MkReference (Some peer) Heads (str "feature/1") (Some ns))).
Proof.
  destruct (reference_urn_roundtrip (MB := unit) (MkReference (Some peer) Heads (str "feature/1") (Some ns))) as (u & H1 & _ & H2).
  - split; cbn.
    + exists Byte.x2a. reflexivity.
    + exact peer_ok.
    + split; [exact I|discriminate].
    + split; [reflexivity|]. apply (bool_decide_unpack _). reflexivity.
  - exists u. split; [exact H1|exact H2].
Defined.
Lemma reference_written_witness : is_refstr (str "refs/namespaces/hx/refs/remotes/hy/heads/next").
Proof.
  apply (reference_written (Ns := list N) (Rm := list N) (MkReference (Some (str "hy")) Heads (str "next") (Some (str "hx"))) (Some (str "hx")) (Some (str "hy"))).
  - constructor. split; [reflexivity|]. split; [left; reflexivity|]. apply (bool_decide_unpack _). reflexivity.
  - constructor. split; [reflexivity|]. split; [left; reflexivity|]. apply (bool_decide_unpack _). reflexivity.
  - exact I.
  - left. reflexivity.
Defined.
(** A path with a lone at sign is valid, and makes the conversion panic; a path that ends with its category yields
    the empty name. *)
Example at_sign_panics : is_refstr (str "refs/heads/@") /\
  reference_from_urn (MB := unit) (MkUrn Byte.x2a (Some (str "refs/heads/@"))) = Panic.
Proof. split; vm_compute; reflexivity. Qed.
Example empty_name : is_refstr (str "refs/heads") /\
  reference_from_urn (MB := unit) (MkUrn Byte.x2a (Some (str "refs/heads"))) = Done (Ok (MkReference None Heads [] (Some ns))).
Proof. split; vm_compute; reflexivity. Qed.
(** A source that starts with a plus sign. *)
Example plus_source : pushspec_try_from (refspec_to_string (MkRefspec (str "+a") (str "b") ForceFalse)) = Ok (MkRefspec (str "a") (str "b") ForceTrue).
Proof. reflexivity. Qed.
End ReferenceWitness.
