(* ===== verification/RemotesGraph.v ===== *)
(** * The transitive tracking graph

    [Remotes] of [librad/src/git/refs.rs]: the peers a peer tracks, with the peers those track, to some depth.  A
    [BTreeMap] is the list of its entries in the order of the keys; peers are the bytes of their keys. *)
From stdpp Require Import base list sets.
From Stdlib Require Import NArith Lia.
From S2P Require Import Prelude CanonicalJson.
#[local] Open Scope nat_scope.

Unset Elimination Schemes.
Inductive Remotes : Type := MkRemotes (m : list (list N * Remotes)).
Set Elimination Schemes.

Definition remotes_entries (r : Remotes) : list (list N * Remotes) := match r with MkRemotes m => m end.
Definition remotes_new : Remotes := MkRemotes [].
(** [FromIterator] *)
Definition remotes_collect (l : list (list N)) : Remotes := MkRemotes (map_collect (map (fun a => (a, remotes_new)) l)).

Fixpoint cutoff (depth : nat) (r : Remotes) : Remotes :=
  match depth with
  | O => MkRemotes []
  | S depth => MkRemotes (foldl (fun acc kv => map_insert kv.1 (cutoff depth kv.2) acc) [] (remotes_entries r))
  end.
(** In place: the values are cut, or the map is cleared. *)
Fixpoint cutoff_mut (depth : nat) (r : Remotes) : Remotes :=
  match r with
  | MkRemotes m =>
      if 0 <? depth then MkRemotes (map (fun kv => (kv.1, cutoff_mut (depth - 1) kv.2)) m) else remotes_new
  end.

(** The iterator [Flatten]. *)
Unset Elimination Schemes.
Inductive Flatten : Type := MkFlatten (outer : list (list N * Remotes)) (inner : option Flatten).
Set Elimination Schemes.
Definition flatten (r : Remotes) : Flatten := MkFlatten (remotes_entries r) None.
Fixpoint flatten_next (f : Flatten) : option (list N * Flatten) :=
  match f with
  | MkFlatten outer inner =>
      let from_outer :=
        match outer with
        | (k, v) :: outer => Some (k, MkFlatten outer (Some (MkFlatten (remotes_entries v) None)))
        | [] => None
        end in
      match inner with
      | Some flat =>
          match flatten_next flat with
          | Some (a, flat) => Some (a, MkFlatten outer (Some flat))
          | None => from_outer
          end
      | None => from_outer
      end
  end.
Fixpoint flatten_all (fuel : nat) (f : Flatten) : list (list N) :=
  match fuel with
  | O => []
  | S fuel => match flatten_next f with Some (a, f) => a :: flatten_all fuel f | None => [] end
  end.

(** ** Properties *)

(** The keys of a collected map. *)
Lemma map_collect_key {V} (l : list (list N * V)) k : k ∈ (map_collect l).*1 <-> k ∈ l.*1.
Proof.
  unfold map_collect. transitivity (k ∈ (map_new (V := V)).*1 \/ k ∈ l.*1); [|cbn; rewrite elem_of_nil; tauto]. generalize (map_new (V := V)).
  induction l as [|[k' v] l IH]; intros m; cbn [foldl fmap list_fmap fst snd]; [rewrite elem_of_nil; tauto|]. rewrite IH, elem_of_cons.
  enough (k ∈ (map_insert k' v m).*1 <-> k = k' \/ k ∈ m.*1) as -> by tauto. clear.
  induction m as [|[k1 v1] m IHm]; cbn [map_insert]; [cbn; rewrite elem_of_cons; done|].
  destruct (str_cmp k' k1) eqn:Hc; cbn [fmap list_fmap fst] in *; rewrite ?elem_of_cons; [|tauto|rewrite IHm; tauto].
  apply str_cmp_eq in Hc as ->. tauto.
Qed.

Lemma remotes_ind (P : Remotes -> Prop) (HM : forall m, Forall (fun kv => P kv.2) m -> P (MkRemotes m)) : forall r, P r.
Proof. fix IH 1. intros [m]. apply HM. induction m as [|[k v] m IHm]; constructor; [apply IH|exact IHm]. Qed.

Fixpoint remotes_sorted (r : Remotes) : bool :=
  match r with MkRemotes m => keys_sorted m && forallb (fun kv => remotes_sorted kv.2) m end.
Fixpoint remotes_depth (r : Remotes) : nat :=
  match r with MkRemotes m => match m with [] => 0 | _ => S (max_list (map (fun kv => remotes_depth kv.2) m)) end end.
(** All peers, each before those it tracks. *)
Fixpoint remotes_nodes (r : Remotes) : list (list N) :=
  match r with MkRemotes m => concat (map (fun kv => kv.1 :: remotes_nodes kv.2) m) end.

Lemma keys_sorted_map {V W} (f : V -> W) (m : list (list N * V)) : keys_sorted (map (fun kv => (kv.1, f kv.2)) m) = keys_sorted m.
Proof.
  induction m as [|kv m IH]; [done|]. cbn [map keys_sorted]. rewrite IH. f_equal. clear. induction m as [|x m IH]; [done|]. cbn [map forallb].
  by rewrite IH.
Qed.
Lemma insert_map {V W} (f : V -> W) (m : list (list N * V)) : keys_sorted m = true ->
  foldl (fun acc kv => map_insert kv.1 (f kv.2) acc) [] m = map (fun kv => (kv.1, f kv.2)) m.
Proof.
  intros Hs. rewrite <- (map_collect_sorted (map (fun kv => (kv.1, f kv.2)) m)) by (by rewrite keys_sorted_map).
  unfold map_collect, map_new. generalize (@nil (list N * W)). clear. induction m as [|kv m IH]; intros acc; [done|]. cbn [map foldl]. apply IH.
Qed.
Lemma cutoff_S d m : keys_sorted m = true -> cutoff (S d) (MkRemotes m) = MkRemotes (map (fun kv => (kv.1, cutoff d kv.2)) m).
Proof. intros Hs. cbn [cutoff remotes_entries]. by rewrite (insert_map (cutoff d)). Qed.

(** The two ways to cut give the same graph. *)
Lemma cutoff_mut_eq r : forall d, remotes_sorted r = true -> cutoff_mut d r = cutoff d r.
Proof.
  induction r as [m IH] using remotes_ind. intros [|d] Hs; [done|]. cbn [remotes_sorted] in Hs. apply andb_true_iff in Hs as [Hk Hs].
  rewrite cutoff_S by done. cbn [cutoff_mut Nat.ltb Nat.leb Nat.sub]. rewrite Nat.sub_0_r. f_equal. apply map_ext_in. intros kv Hin.
  rewrite Forall_forall in IH. rewrite IH; [done|by apply list_elem_of_In|by apply (proj1 (forallb_forall _ _) Hs)].
Qed.
Lemma cutoff_depth d : forall r, remotes_sorted r = true -> remotes_depth (cutoff d r) <= d.
Proof.
  induction d as [|d IH]; intros [m] Hs; [done|]. cbn [remotes_sorted] in Hs. apply andb_true_iff in Hs as [Hk Hs]. rewrite cutoff_S by done.
  destruct m as [|kv m]; [cbn; lia|]. cbn [remotes_depth map]. cbn [max_list].
  assert (Forall (fun kv => remotes_depth (cutoff d kv.2) <= d) (kv :: m)) as Hall.
  { apply Forall_forall. intros x Hx. apply IH. apply (proj1 (forallb_forall _ _) Hs). by apply list_elem_of_In. }
  apply le_n_S. inversion_clear Hall as [|? ? Hkv Hm]. apply Nat.max_lub; [done|].
  clear -Hm. induction Hm as [|x m Hx _ IHm]; [cbn; lia|]. cbn [map max_list snd]. by apply Nat.max_lub.
Qed.
Lemma cutoff_sorted d : forall r, remotes_sorted r = true -> remotes_sorted (cutoff d r) = true.
Proof.
  induction d as [|d IH]; intros [m] Hs; [done|]. cbn [remotes_sorted] in Hs. apply andb_true_iff in Hs as [Hk Hs]. rewrite cutoff_S by done.
  cbn [remotes_sorted]. rewrite keys_sorted_map, Hk. cbn [andb]. apply forallb_forall. intros x Hx. apply in_map_iff in Hx as (y & <- & Hy).
  apply IH. by apply (proj1 (forallb_forall _ _) Hs).
Qed.
(** A graph that is not deeper is left as it is. *)
Lemma cutoff_id d : forall r, remotes_sorted r = true -> remotes_depth r <= d -> cutoff d r = r.
Proof.
  induction d as [|d IH]; intros [m] Hs Hd.
  - by destruct m; [|cbn in Hd; lia].
  - cbn [remotes_sorted] in Hs. apply andb_true_iff in Hs as [Hk Hs]. rewrite cutoff_S by done. f_equal.
    rewrite <- (map_id m) at 2. apply map_ext_in. intros [k v] Hin. cbn. f_equal. apply IH; [by apply (proj1 (forallb_forall _ _) Hs (k, v))|].
    destruct m as [|x m]; [done|]. cbn [remotes_depth] in Hd. apply le_S_n in Hd.
    transitivity (max_list (map (fun kv => remotes_depth kv.2) (x :: m))); [|done].
    apply max_list_elem_of_le. apply (list_elem_of_fmap_2 (fun kv : list N * Remotes => remotes_depth kv.2) (x :: m) (k, v)).
    by apply list_elem_of_In.
Qed.

(** *** Flattening *)
Fixpoint flatten_rest (f : Flatten) : list (list N) :=
  match f with
  | MkFlatten outer inner =>
      match inner with Some flat => flatten_rest flat | None => [] end ++ remotes_nodes (MkRemotes outer)
  end.
Lemma flatten_next_rest f :
  match flatten_next f with Some (a, f') => flatten_rest f = a :: flatten_rest f' | None => flatten_rest f = [] end.
Proof.
  revert f. fix IH 1. intros [outer inner]. cbn [flatten_next].
  destruct inner as [flat|].
  - specialize (IH flat). destruct (flatten_next flat) as [[a flat']|]; cbn [flatten_rest]; [by rewrite IH|].
    rewrite IH. cbn [app]. destruct outer as [|[k v] outer]; [done|]. cbn [flatten_rest]. by destruct v.
  - destruct outer as [|[k v] outer]; [done|]. cbn [flatten_rest]. by destruct v.
Qed.
(** Flattening yields every node of the graph, each before those below it. *)
Lemma flatten_all_rest fuel : forall f, length (flatten_rest f) <= fuel -> flatten_all fuel f = flatten_rest f.
Proof.
  induction fuel as [|fuel IH]; intros f Hf; [by destruct (flatten_rest f); [|cbn in Hf; lia]|]. cbn [flatten_all].
  pose proof (flatten_next_rest f) as Hn. destruct (flatten_next f) as [[a f']|]; [|done]. rewrite Hn in Hf |- *. cbn in Hf. rewrite IH; [done|lia].
Qed.

(** [remotes_cutoff_flatten]: cutting the tracking graph leaves at most the given number of levels, in place or not, and keeps a
    graph that is not deeper; flattening it yields every peer in it, and ends. *)
Theorem remotes_cutoff_flatten r d : remotes_sorted r = true ->
  cutoff_mut d r = cutoff d r /\ remotes_depth (cutoff d r) <= d /\ (remotes_depth r <= d -> cutoff d r = r) /\
  flatten_all (length (remotes_nodes r)) (flatten r) = remotes_nodes r.
Proof.
  intros Hs. split_and!; [by apply cutoff_mut_eq|by apply cutoff_depth|by apply cutoff_id|].
  assert (flatten_rest (flatten r) = remotes_nodes r) as <- by (by destruct r). by apply flatten_all_rest.
Qed.
Definition sample_remotes : Remotes :=
  MkRemotes [([1%N], MkRemotes [([2%N], MkRemotes [([3%N], remotes_new)]); ([5%N], remotes_new)]); ([4%N], remotes_new)].
Lemma remotes_cutoff_flatten_witness : remotes_sorted sample_remotes = true /\ remotes_depth (cutoff 2 sample_remotes) <= 2 /\
  flatten_all 5 (flatten sample_remotes) = [[1%N]; [2%N]; [3%N]; [5%N]; [4%N]].
Proof.
  split; [reflexivity|]. destruct (remotes_cutoff_flatten sample_remotes 2 eq_refl) as (_ & Hd & _ & Hf). split; [exact Hd|exact Hf].
Defined.
