(* ===== verification/SignedRefs.v ===== *)
(** * Signed references

    [librad/src/git/refs.rs] and [refs/serde_impls.rs]: the published state of a repository, computed from its
    references and from what is tracked, signed in canonical form, stored as a blob and read back.  The storage
    is the interface [RefsStorage], writing to git the interface [RefsGit], signing the interface [SignedKeys]. *)
From stdpp Require Import base list sets.
From Stdlib Require Import NArith Lia.
From Stdlib Require String.
Import String.StringSyntax.
From S2P Require Import Prelude Effects RefFormat RefName Scoped Utf8 RefLike Keys UrnText LibradRef.
From S2P Require Import CanonicalJson CanonicalFormatter RemotesGraph.
Import Name.
#[local] Open Scope N_scope.
#[local] Existing Instance namespace_into.
#[local] Existing Instance peer_into.

(** ** Data *)

(** The depth of the tracking graph to retain per peer. *)
Definition TRACKING_GRAPH_DEPTH : nat := 3.
Definition BLOB_PATH : list N := str "refs".

(** A map from names to objects. *)
Definition OidMap : Type := list (list N * N).
Record Refs := MkRefs {
  categorised_refs : list (list N * OidMap);
  remotes : Remotes;
}.
Record Signed := MkSigned { signed_refs : Refs; signature : list N }.

(** What serde sees of a JSON document: the entries of objects in their order. *)
Unset Elimination Schemes.
Inductive Json := JObj (m : list (list N * Json)) | JStr (s : list N) | JOther.
Set Elimination Schemes.

Inductive JsonError (MB : Type) : Type :=
| JsonSyntax | WrongType | DuplicateField (f : list N) | MissingField (f : list N) | UnknownField (f : list N)
| BadOid | BadPeer (e : ConversionError (MB := MB)) | BadSignature.
Arguments JsonSyntax {MB}. Arguments WrongType {MB}. Arguments DuplicateField {MB} f. Arguments MissingField {MB} f.
Arguments UnknownField {MB} f. Arguments BadOid {MB}. Arguments BadPeer {MB} e. Arguments BadSignature {MB}.

Inductive SignedError (MB : Type) : Type :=
| InvalidSignature (r : Refs) | SignedJson (e : JsonError MB) | SignedCjson (e : FormatError).
Arguments InvalidSignature {MB} r. Arguments SignedJson {MB} e. Arguments SignedCjson {MB} e.

Inductive StoredError (MB SE KE : Type) : Type :=
| StoredSigned (e : SignedError MB) | Signing (e : KE) | SigningCjson (e : FormatError) | Store (e : SE) | Tracked (e : SE).
Arguments StoredSigned {MB SE KE} e. Arguments Signing {MB SE KE} e. Arguments SigningCjson {MB SE KE} e.
Arguments Store {MB SE KE} e. Arguments Tracked {MB SE KE} e.

(** ** Interfaces *)

(** The text of an object id, and the pieces serde_json writes a string in. *)
Class RefsText := {
  oid_text : N -> list N;
  oid_parse : list N -> option N;
  str_pieces : list N -> list Piece;
}.
(** [Signature::verify] and the signer. *)
Class SignedKeys (KE : Type) := {
  sig_verify : list N -> list N -> list N -> bool;      (** signature, data, key *)
  sign : list N -> result KE (list N);
}.
(** The library globset. *)
Class Globset := glob_matches : list N -> list N -> bool.
(** [ReadOnly] and the tracked peers of an identity. *)
Class RefsStorage (S R SE : Type) := {
  st_peer_id : S -> list N;
  st_references : S -> result SE (list (result SE GitRef));
  st_reference_oid : S -> list N -> result SE N;
  is_not_found : SE -> bool;
  st_blob_at : S -> N -> list N -> result SE (option (list N));
  tracked_peers : S -> R -> result SE (list (result SE (list N)));
}.
(** [serde_json::from_slice] and [to_vec], to and from what serde sees. *)
Class JsonText := {
  json_parse : list N -> option Json;
  json_print : Json -> list N;
}.

(** ** Serialization *)

Section Serde.
Context {MB : Type} `{Multibase MB} `{RefsText}.

Definition oids_serialize (m : OidMap) : Json := JObj (map (fun kv => (kv.1, JStr (oid_text kv.2))) m).
Fixpoint remotes_serialize (r : Remotes) : Json :=
  match r with MkRemotes m => JObj (map (fun kv => (peer_default_encoding (MB := MB) kv.1, remotes_serialize kv.2)) m) end.
(** [impl Serialize for Refs] and [for Signed<Verified>] *)
Definition refs_serialize (r : Refs) : Json :=
  JObj (map (fun kv => (kv.1, oids_serialize kv.2)) (categorised_refs r) ++ [(str "remotes", remotes_serialize (remotes r))]).
Definition signed_serialize (s : Signed) : Json :=
  JObj [(str "refs", refs_serialize (signed_refs s)); (str "signature", JStr (sig_serialize (MB := MB) (signature s)))].

Let M := eff (JsonError MB).
Definition oids_deserialize (j : Json) : M OidMap :=
  match j with
  | JObj m => eff_fold (fun acc kv =>
      match kv.2 with
      | JStr s => match oid_parse s with Some o => EOk (map_insert kv.1 o acc) | None => EErr BadOid end
      | _ => EErr WrongType
      end) [] m
  | _ => EErr WrongType
  end.
Definition peer_deserialize (s : list N) : M (list N) :=
  res ← of_out (from_default_encoding (MB := MB) s);
  match res with Ok key => EOk key | Err e => EErr (BadPeer e) end.
Fixpoint remotes_deserialize (j : Json) : M Remotes :=
  match j with
  | JObj m =>
      (fix go m acc :=
         match m with
         | [] => EOk (MkRemotes acc)
         | (k, v) :: m => key ← peer_deserialize k; r ← remotes_deserialize v; go m (map_insert key r acc)
         end) m []
  | _ => EErr WrongType
  end.
(** [RefsVisitor::visit_map] *)
Fixpoint refs_visit_map (m : list (list N * Json)) (rs : option Remotes) (cats : list (list N * OidMap)) : M Refs :=
  match m with
  | [] => match rs with Some rs => EOk (MkRefs cats rs) | None => EErr (MissingField (str "remotes")) end
  | (key, value) :: m =>
      if bool_decide (key = str "remotes")
      then v ← remotes_deserialize value; refs_visit_map m (Some v) cats
      else v ← oids_deserialize value; refs_visit_map m rs (map_insert key v cats)
  end.
Definition refs_deserialize (j : Json) : M Refs :=
  match j with JObj m => refs_visit_map m None [] | _ => EErr WrongType end.
(** [SignedVisitor::visit_map] *)
Fixpoint signed_visit_map (m : list (list N * Json)) (refs : option Refs) (sig : option (list N)) : M Signed :=
  match m with
  | [] =>
      match refs with
      | None => EErr (MissingField (str "refs"))
      | Some refs => match sig with None => EErr (MissingField (str "signature")) | Some sig => EOk (MkSigned refs sig) end
      end
  | (key, value) :: m =>
      if bool_decide (key = str "refs") then
        match refs with
        | Some _ => EErr (DuplicateField (str "refs"))
        | None => v ← refs_deserialize value; signed_visit_map m (Some v) sig
        end
      else if bool_decide (key = str "signature") then
        match sig with
        | Some _ => EErr (DuplicateField (str "signature"))
        | None =>
            match value with
            | JStr s => match sig_visit_str (MB := MB) s with Ok v => signed_visit_map m refs (Some v) | Err _ => EErr BadSignature end
            | _ => EErr WrongType
            end
        end
      else EErr (UnknownField key)
  end.
Definition signed_deserialize (j : Json) : M Signed :=
  match j with JObj m => signed_visit_map m None None | _ => EErr WrongType end.

(** What the canonical formatter is given. *)
Fixpoint json_svalue (j : Json) : SValue :=
  match j with
  | JObj m => SObject (map (fun kv => (str_pieces kv.1, json_svalue kv.2)) m)
  | JStr s => SString (str_pieces s)
  | JOther => SNull
  end.
End Serde.

(** ** Operations *)

(** What is used of libgit2 to write: looking up the branch, writing, and what else can fail. *)
Record ParentCommit := MkParent { pc_id : N; pc_tree : N }.
Class RefsGit (W GE : Type) := {
  rg_branch : list N -> W -> result GE (option ParentCommit);   (** [reference] and [peel_to_commit] *)
  rg_blob : list N -> st W GE N;
  rg_tree : list N -> N -> st W GE N;                          (** a tree with one entry *)
  rg_find_tree : N -> W -> result GE unit;
  rg_signature : W -> result GE unit;
  rg_commit : list N -> list N -> N -> option N -> st W GE N;   (** reference, message, tree, parent *)
  is_concurrent : GE -> bool;                                  (** class [Object] and code [Modified] *)
}.

Inductive Updated := MkUpdated (refs : Refs) (at_ : N) | Unchanged (refs : Refs) (at_ : N) | ConcurrentlyModified.

Section Refs.
Context {S R MB MH IE SE KE : Type} `{HasProtocol R MH IE} `{Multibase MB} `{RefsText} `{SignedKeys KE} `{RefsStorage S R SE}.
Context `{JsonText} `{Globset} `{CompactFormatter} `{Nfc} `{Serializer} `{PercentEncoding}.
Let M := eff (StoredError MB SE KE).

(** *** Signing *)

Definition refs_canonical_form (r : Refs) : result FormatError (list N) :=
  canonical_form (json_svalue (refs_serialize (MB := MB) r)).
Definition refs_sign (r : Refs) : M Signed :=
  data ← of_res_with SigningCjson (refs_canonical_form r);
  sig ← of_res_with Signing (sign data);
  EOk (MkSigned r sig).
(** [Signed::verify] and [Signed::from_json] *)
Definition signed_verify (unknown : Signed) (signer : list N) : result (SignedError MB) Signed :=
  canonical ← map_err SignedCjson (refs_canonical_form (signed_refs unknown));
  if sig_verify (signature unknown) canonical signer then Ok unknown else Err (InvalidSignature (signed_refs unknown)).
Definition signed_from_json (data : list N) (signer : list N) : eff (SignedError MB) Signed :=
  j ← of_res (ok_or (json_parse data) (SignedJson JsonSyntax));
  unknown ← eff_map_err SignedJson (signed_deserialize j);
  of_res (signed_verify unknown signer).

(** *** Loading *)

Definition sigrefs_name (urn : UrnText.Urn R) (peer : option (list N)) : M (list N) :=
  of_out (reference_reflike (Ns := Namespace R) (Rm := PeerId) (rad_signed_refs (Some (namespace_from urn)) (MkPeerId <$> peer))).
(** [load_at] *)
Definition refs_load_at (storage : S) (at_ : N) (peer : option (list N)) : M (option (N * Signed)) :=
  let signer := default (st_peer_id storage) peer in
  blob ← of_res_with Store (st_blob_at storage at_ BLOB_PATH);
  match blob with
  | None => EOk None
  | Some data => s ← eff_map_err StoredSigned (signed_from_json data signer); EOk (Some (at_, s))
  end.
(** [load] *)
Definition refs_load_signed (storage : S) (urn : UrnText.Urn R) (peer : option (list N)) : M (option (N * Signed)) :=
  sigrefs ← sigrefs_name urn peer;
  tip ← (match st_reference_oid storage sigrefs with
         | Ok oid => EOk (Some oid)
         | Err e => if is_not_found e then EOk None else EErr (Store e)
         end);
  match tip with
  | None => EOk None
  | Some at_ => refs_load_at storage at_ peer
  end.
(** [Refs::load] *)
Definition refs_load (storage : S) (urn : UrnText.Urn R) (peer : option (list N)) : M (option Refs) :=
  fmap (fun l : N * Signed => signed_refs l.2) <$> refs_load_signed storage urn peer.

(** *** Computing *)

(** [ReferencesGlob]: the matching references, and errors. *)
Definition references_glob (pattern : list N) (l : list (result SE GitRef)) : list (result SE GitRef) :=
  List.filter (fun r => match r with Ok g => match gr_name g with Some n => glob_matches pattern n | None => false end | Err _ => true end) l.

(** What a reference of the namespace is signed as. *)
Definition signed_as (ref_str : list N) : outcome (option (list N * list N)) :=
  match reflike_try_from ref_str with
  | Err _ => Done None
  | Ok refl =>
      q ← onelevel_from_qualified (qualified_from refl);
      match q with
      | (_, None) => Done None
      | (reference, Some c) =>
          let category := category_from_reflike c in
          if starts_with (str "refs/remotes") ref_str ||
             (bool_decide (category = Rad) && ends_with ref_str (str "rad/signed_refs"))
          then Done None
          else Done (Some (category_to_string category, reference))
      end
  end.
(** [entry(category).or_insert_with(BTreeMap::new)] and [insert]. *)
Definition cat_insert (cats : list (list N * OidMap)) (cat ref : list N) (oid : N) : list (list N * OidMap) :=
  map_insert cat (map_insert ref oid (default [] (map_get cat cats))) cats.
Fixpoint categorise (prefix : list N) (l : list (result SE GitRef)) (cats : list (list N * OidMap)) : outcome (list (list N * OidMap)) :=
  match l with
  | [] => Done cats
  | r :: l =>
      match (match r with Ok head => peeled head | Err _ => None end) with
      | None => categorise prefix l cats
      | Some (name, oid) =>
          match str_strip_prefix prefix name with
          | None => categorise prefix l cats
          | Some s =>
              x ← signed_as s;
              categorise prefix l (match x with Some (cat, ref) => cat_insert cats cat ref oid | None => cats end)
          end
      end
  end.
(** [or_insert_with(BTreeMap::new)] for a category. *)
Definition add_category (cats : list (list N * OidMap)) (c : RefsCategory) : list (list N * OidMap) :=
  match map_get (category_to_string c) cats with Some _ => cats | None => map_insert (category_to_string c) [] cats end.
Definition add_default_categories (cats : list (list N * OidMap)) : list (list N * OidMap) := foldl add_category cats default_categories.

(** [collect::<Result<Remotes, _>>] *)
Fixpoint collect_peers (l : list (result SE (list N))) : M (list (list N)) :=
  match l with
  | [] => EOk []
  | r :: l => p ← of_res_with Tracked r; ps ← collect_peers l; EOk (p :: ps)
  end.
(** [for (peer, tracked) in remotes.iter_mut()] *)
Fixpoint fill_remotes (storage : S) (urn : UrnText.Urn R) (m : list (list N * Remotes)) : M (list (list N * Remotes)) :=
  match m with
  | [] => EOk []
  | (peer, tracked) :: m =>
      l ← refs_load storage urn (Some peer);
      m' ← fill_remotes storage urn m;
      EOk ((peer, match l with Some refs => cutoff TRACKING_GRAPH_DEPTH (remotes refs) | None => tracked end) :: m')
  end.

(** [Refs::compute] *)
Definition refs_compute (storage : S) (urn : UrnText.Urn R) : M Refs :=
  ns ← of_out (into_reflike (namespace_from urn));
  let namespace_prefix := str "refs/namespaces/" ++ ns ++ [slash] in
  all ← of_res_with Store (st_references storage);
  cats ← of_out (categorise namespace_prefix (references_glob (namespace_prefix ++ [star]) all) []);
  let cats := add_default_categories cats in
  peers ← of_res_with Tracked (tracked_peers storage (urn_id urn));
  peers ← collect_peers peers;
  rs ← fill_remotes storage urn (remotes_entries (remotes_collect peers));
  EOk (MkRefs cats (MkRemotes rs)).

(** *** Updating *)

Context {W GE : Type} `{RefsGit W GE} (storage_of : W -> S) (of_git : GE -> SE).

Definition git_write {A} (m : st W GE A) : st W (StoredError MB SE KE) A := fun w =>
  let '(x, w) := m w in (eff_map_err (fun e => Store (of_git e)) x, w).
Definition git_query {A} (f : W -> result GE A) : st W (StoredError MB SE KE) A :=
  reads (fun w => of_res_with (fun e => Store (of_git e)) (f w)).

(** The commit, and what its failure means. *)
Definition commit_signed (branch : list N) (urn : UrnText.Urn R) (refs : Refs) (tree : N) (parent : option N) :
    st W (StoredError MB SE KE) Updated := fun w =>
  let '(x, w) := rg_commit branch (str "Update rad/signed_refs for " ++ urn_to_string (MB := MB) urn) tree parent w in
  (match x with
   | EOk commit => EOk (MkUpdated refs commit)
   | EErr e => if is_concurrent e then EOk ConcurrentlyModified else EErr (Store (of_git e))
   | EPanic => EPanic
   end, w).
(** [Refs::update] *)
Definition refs_update (urn : UrnText.Urn R) : st W (StoredError MB SE KE) Updated :=
  branch ← lift (sigrefs_name urn None);
  signed ← reads (fun w => r ← refs_compute (storage_of w) urn; refs_sign r);
  parent ← git_query (rg_branch branch);
  blob ← git_write (rg_blob (json_print (signed_serialize (MB := MB) signed)));
  tree ← git_write (rg_tree BLOB_PATH blob);
  _ ← git_query (rg_find_tree tree);
  match (match parent with Some p => if pc_tree p =? tree then Some p else None | None => None end) with
  | Some p => mret (Unchanged (signed_refs signed) (pc_id p))
  | None =>
      _ ← git_query rg_signature;
      commit_signed branch urn (signed_refs signed) tree (pc_id <$> parent)
  end.

End Refs.

(** *** Reading *)

(** The valid names among those of a category. *)
Definition one_levels (m : OidMap) : list (list N * N) :=
  flat_map (fun ro : list N * N => match reflike_try_from ro.1 with Ok n => [(onelevel_from n, ro.2)] | Err _ => [] end) m.
(** [iter_categorised] *)
Definition iter_categorised (r : Refs) : list ((list N * N) * RefsCategory) :=
  flat_map (fun kv : list N * OidMap =>
    match category_parse kv.1 with Some c => map (fun ro => (ro, c)) (one_levels kv.2) | None => [] end) (categorised_refs r).
Definition refs_for_category (r : Refs) (c : RefsCategory) : list (list N * N) :=
  match map_get (category_to_string c) (categorised_refs r) with None => [] | Some m => one_levels m end.
(** [other_refs] *)
Definition other_refs (r : Refs) : list (list N * list N * N) :=
  flat_map (fun kv : list N * OidMap =>
    match category_parse kv.1 with
    | Some (Unknown _) => map (fun ro => (kv.1, ro.1, ro.2)) kv.2
    | _ => []
    end) (categorised_refs r).
