(* ===== verification/SignedRefsSpec.v ===== *)
(** * What signed references promise

    That signed references are read back as they were written, that what is loaded was signed by the right key,
    what is computed from a repository, and that an update is found again. *)
From stdpp Require Import base countable list sets.
From Stdlib Require Import NArith Lia.
From Stdlib Require String.
Import String.StringSyntax.
From S2P Require Import Prelude Effects RefFormat RefName Scoped Utf8 RefLike Keys UrnText LibradRef.
From S2P Require Import CanonicalJson CanonicalFormatter RemotesGraph SignedRefs.
Import Name.
#[local] Open Scope N_scope.
#[local] Existing Instance namespace_into.
#[local] Existing Instance peer_into.

(** ** Interfaces *)
Class RefsTextLaws `{RefsText} := oid_text_roundtrip o : oid_parse (oid_text o) = Some o.
Class JsonTextLaws `{JsonText} := json_text_roundtrip j : json_parse (json_print j) = Some j.
(** The signer has the key [me]. *)
Class SignedKeysLaws (KE : Type) `{SignedKeys KE} (me : list N) := {
  sign_verifies data sig : sign data = Ok sig -> sig_verify sig data me = true;
  sign_bytes data sig : sign data = Ok sig -> bytes sig /\ length sig = SIGNATUREBYTES;
}.

(** ** Well-formed references *)
Definition key_ok (k : list N) : Prop := bytes k /\ length k = PUBLICKEYBYTES.
Fixpoint remotes_keys (r : Remotes) : Prop :=
  match r with MkRemotes m => (fix go m := match m with [] => True | (k, v) :: m => key_ok k /\ remotes_keys v /\ go m end) m end.
Record refs_wf (r : Refs) : Prop := {
  wf_categories : keys_sorted (categorised_refs r) = true;
  wf_oids : Forall (fun kv : list N * OidMap => keys_sorted kv.2 = true) (categorised_refs r);
  wf_no_remotes : Forall (fun kv : list N * OidMap => kv.1 <> str "remotes") (categorised_refs r);
  wf_remotes : remotes_sorted (remotes r) = true /\ remotes_keys (remotes r);
}.

Lemma eff_fold_map {E A B D} (f : A -> B -> eff E A) (g : D -> B) (h : A -> D -> A) l : forall acc,
  (forall acc d, d ∈ l -> f acc (g d) = EOk (h acc d)) -> eff_fold f acc (map g l) = EOk (foldl h acc l).
Proof.
  induction l as [|d l IH]; intros acc Hf; [done|]. cbn [map eff_fold foldl]. rewrite Hf by (by left). cbn.
  apply IH. intros. apply Hf. by right.
Qed.

Section Serde.
Context {MB : Type} `{MultibaseLaws MB} `{RefsTextLaws}.

Lemma oids_roundtrip m : keys_sorted m = true -> oids_deserialize (MB := MB) (oids_serialize m) = EOk m.
Proof.
  intros Hs. unfold oids_deserialize, oids_serialize.
  rewrite (eff_fold_map _ _ (fun m kv => map_insert kv.1 kv.2 m)) by (intros acc d _; cbn; by rewrite oid_text_roundtrip).
  f_equal. by apply (map_collect_sorted m).
Qed.
Lemma peer_text_roundtrip k : key_ok k -> peer_deserialize (MB := MB) (peer_default_encoding (MB := MB) k) = EOk k.
Proof. intros Hk. unfold peer_deserialize. rewrite (peer_parse (MB := MB) (MkPeerId k) Hk : from_default_encoding _ = _). done. Qed.

(** The loop over the entries of an object. *)
Fixpoint remotes_go (m : list (list N * Json)) (acc : list (list N * Remotes)) : eff (JsonError MB) Remotes :=
  match m with
  | [] => EOk (MkRemotes acc)
  | (k, v) :: m => key ← peer_deserialize k; r ← remotes_deserialize v; remotes_go m (map_insert key r acc)
  end.
Lemma remotes_deserialize_obj m : remotes_deserialize (MB := MB) (JObj m) = remotes_go m [].
Proof. cbn [remotes_deserialize]. generalize (@nil (list N * Remotes)). induction m as [|[k v] m IH]; intros acc; [done|]. cbn [remotes_go].
  destruct (peer_deserialize k); cbn; [|done..]. destruct (remotes_deserialize v); cbn; [|done..]. apply IH. Qed.

Lemma remotes_roundtrip r : remotes_sorted r = true -> remotes_keys r -> remotes_deserialize (MB := MB) (remotes_serialize (MB := MB) r) = EOk r.
Proof.
  induction r as [m IH] using remotes_ind. intros Hs Hk. cbn [remotes_serialize]. rewrite remotes_deserialize_obj.
  cbn [remotes_sorted] in Hs. apply andb_true_iff in Hs as [Hks Hs].
  assert (forall acc, remotes_go (map (fun kv => (peer_default_encoding (MB := MB) kv.1, remotes_serialize (MB := MB) kv.2)) m) acc =
    EOk (MkRemotes (foldl (fun m kv => map_insert kv.1 kv.2 m) acc m))) as Hgo.
  { clear Hks. induction m as [|[k v] m IHm]; intros acc; [done|]. cbn [map remotes_go foldl fst snd].
    cbn [remotes_keys] in Hk. destruct Hk as (Hk & Hv & Hm). inversion_clear IH as [|? ? IHv IHm']. cbn [forallb] in Hs. apply andb_true_iff in Hs as [Hsv Hsm].
    cbn [snd] in IHv. rewrite peer_text_roundtrip by done. cbn. rewrite IHv by done. cbn. by apply IHm. }
  rewrite Hgo. do 2 f_equal. by apply (map_collect_sorted m).
Qed.

Lemma refs_visit_roundtrip r : refs_wf r -> refs_deserialize (MB := MB) (refs_serialize (MB := MB) r) = EOk r.
Proof.
  intros [Hc Ho Hn [Hrs Hrk]]. destruct r as [cats rs]. cbn [categorised_refs remotes] in *. unfold refs_deserialize, refs_serialize. cbn [categorised_refs remotes].
  assert (forall acc, refs_visit_map (MB := MB) (map (fun kv => (kv.1, oids_serialize kv.2)) cats ++ [(str "remotes", remotes_serialize (MB := MB) rs)]) None acc =
    EOk (MkRefs (foldl (fun m kv => map_insert kv.1 kv.2 m) acc cats) rs)) as Hgo.
  { clear Hc. induction cats as [|[k m] cats IH]; intros acc; cbn [map app refs_visit_map foldl fst snd].
    - rewrite bool_decide_eq_true_2 by done. rewrite remotes_roundtrip by done. done.
    - inversion_clear Ho as [|? ? Hm Ho']. inversion_clear Hn as [|? ? Hk Hn']. cbn [fst snd] in *.
      rewrite bool_decide_eq_false_2 by done. rewrite oids_roundtrip by done. cbn. by apply IH. }
  rewrite Hgo. do 2 f_equal. by apply (map_collect_sorted cats).
Qed.
Lemma signed_visit_roundtrip s : refs_wf (signed_refs s) -> bytes (signature s) -> length (signature s) = SIGNATUREBYTES ->
  signed_deserialize (MB := MB) (signed_serialize (MB := MB) s) = EOk s.
Proof.
  intros Hr Hb Hl. destruct s as [r sig]. cbn [signed_refs signature] in *. unfold signed_deserialize, signed_serialize. cbn [signed_visit_map signed_refs signature].
  rewrite bool_decide_eq_true_2 by done. rewrite refs_visit_roundtrip by done. cbn.
  unfold sig_visit_str, sig_serialize. rewrite base_roundtrip by (constructor; [done|done]). cbn. by rewrite Hl.
Qed.

(** What is deserialized is in order, and its keys are keys. *)
Lemma peer_deserialize_ok s k : peer_deserialize (MB := MB) s = EOk k -> key_ok k.
Proof.
  unfold peer_deserialize, from_default_encoding. case_match; [done|]. destruct (base_decode s) as [[|v key]|] eqn:Hd; try done.
  destruct (v =? 0); [|done]. cbn. unfold key_from_slice. destruct (Nat.eqb_spec (length key) PUBLICKEYBYTES); [|done]. cbn. intros [= <-].
  split; [|done]. apply base_decode_bytes in Hd. by inversion_clear Hd.
Qed.
Lemma remotes_keys_insert k r m : key_ok k -> remotes_keys r -> remotes_keys (MkRemotes m) -> remotes_keys (MkRemotes (map_insert k r m)).
Proof.
  intros Hk Hr. induction m as [|[k' r'] m IH]; cbn [map_insert]; [done|]. intros (Hk' & Hr' & Hm). destruct (str_cmp k k'); cbn [remotes_keys]; try done.
  split; [done|]. split; [done|]. by apply IH.
Qed.
Lemma forallb_insert {V} (p : V -> bool) k v (m : list (list N * V)) : p v = true -> forallb (fun kv => p kv.2) m = true ->
  forallb (fun kv => p kv.2) (map_insert k v m) = true.
Proof.
  intros Hv. induction m as [|[k' v'] m IH]; cbn [map_insert forallb snd]; [by rewrite Hv|]. intros [Hv' Hm]%andb_true_iff.
  destruct (str_cmp k k'); cbn [forallb snd]; rewrite ?Hv, ?Hv', ?Hm; auto.
Qed.
Lemma json_ind (P : Json -> Prop) (HO : forall m, Forall (fun kv => P kv.2) m -> P (JObj m)) (HS : forall s, P (JStr s)) (HN : P JOther) : forall j, P j.
Proof. fix IH 1. intros [m|s|]; [apply HO|apply HS|exact HN]. induction m as [|[k v] m IHm]; constructor; [apply IH|exact IHm]. Qed.
Lemma remotes_deserialize_ok j : forall r, remotes_deserialize (MB := MB) j = EOk r -> remotes_sorted r = true /\ remotes_keys r.
Proof.
  induction j as [m IH|s|] using json_ind; intros r; [|done..]. rewrite remotes_deserialize_obj.
  assert (forall acc, remotes_sorted (MkRemotes acc) = true -> remotes_keys (MkRemotes acc) -> remotes_go m acc = EOk r ->
    remotes_sorted r = true /\ remotes_keys r) as Hgo; [|by apply Hgo].
  induction IH as [|[k v] m IHv _ IHm]; intros acc Hs Hk; cbn [remotes_go]; [by intros [= <-]|].
  destruct (peer_deserialize k) as [key| |] eqn:Hkey; cbn; [|done..]. cbn [snd] in IHv.
  destruct (remotes_deserialize v) as [rv| |] eqn:Hv; cbn; [|done..]. destruct (IHv rv eq_refl) as [Hsv Hkv].
  apply IHm; [|apply remotes_keys_insert; [by eapply peer_deserialize_ok|done|done]].
  cbn [remotes_sorted] in Hs |- *. apply andb_true_iff in Hs as [Hs1 Hs2]. rewrite map_insert_sorted by done. cbn [andb]. by apply forallb_insert.
Qed.
End Serde.

(** ** Verification *)
Section Verified.
Context {S R MB MH IE SE KE : Type} `{HasProtocolLaws R MH IE} `{MultibaseLaws MB} `{RefsTextLaws} `{SignedKeys KE} `{RefsStorage S R SE}.
Context `{JsonTextLaws} `{Globset} `{CompactFormatter} `{Nfc} `{Serializer}.

(** Signed by the key, in canonical form. *)
Definition signed_by (key : list N) (s : Signed) : Prop := exists data,
  refs_canonical_form (MB := MB) (signed_refs s) = Ok data /\ sig_verify (signature s) data key = true.

Lemma signed_from_json_ok data key s : signed_from_json (MB := MB) data key = EOk s -> signed_by key s.
Proof.
  unfold signed_from_json. destruct (json_parse data) as [j|]; cbn; [|done]. destruct (signed_deserialize j) as [u| |]; cbn; [|done..].
  unfold signed_verify, signed_by. destruct (refs_canonical_form (signed_refs u)) as [d|] eqn:Hc; cbn; [|done].
  destruct (sig_verify (signature u) d key) eqn:Hv; cbn; [|done]. intros [= <-]. eauto.
Qed.

(** C9 [load_verified]: whatever is in the storage, references that are loaded were signed, in canonical form, by the key of
    the peer they are loaded for, or by that of the storage when no peer is given. *)
Theorem load_verified (storage : S) (urn : UrnText.Urn R) peer at_ s :
  refs_load_signed (MB := MB) (KE := KE) storage urn peer = EOk (Some (at_, s)) -> signed_by (default (st_peer_id storage) peer) s.
Proof.
  unfold refs_load_signed. destruct (sigrefs_name urn peer) as [n| |]; cbn; [|done..].
  destruct (st_reference_oid storage n) as [o|e]; cbn; [|by destruct (is_not_found e)].
  unfold refs_load_at. destruct (st_blob_at storage o BLOB_PATH) as [[data|]|]; cbn; [|done..].
  destruct (signed_from_json data _) as [s'| |] eqn:Hs; cbn; [|done..]. intros [= -> ->]. by eapply signed_from_json_ok.
Qed.

(** What is signed is read back. *)
Lemma sign_roundtrip me `{!SignedKeysLaws KE me} (r : Refs) s : refs_wf r -> refs_sign (MB := MB) (SE := SE) r = EOk s ->
  signed_refs s = r /\ signed_from_json (MB := MB) (json_print (signed_serialize (MB := MB) s)) me = EOk s.
Proof.
  intros Hr. unfold refs_sign. destruct (refs_canonical_form r) as [d|] eqn:Hd; cbn; [|done]. destruct (sign d) as [sig|] eqn:Hs; cbn; [|done].
  intros [= <-]. split; [done|]. destruct (sign_bytes d sig Hs) as [Hb Hl]. unfold signed_from_json. rewrite json_text_roundtrip. cbn [ok_or of_res mbind eff_bind].
  rewrite signed_visit_roundtrip by done. cbn [eff_map_err mbind eff_bind]. unfold signed_verify. cbn [signed_refs signature]. rewrite Hd. cbn.
  by rewrite (sign_verifies (me := me) d sig Hs).
Qed.
End Verified.

(** ** Computation *)

(** Of a pattern that ends with its only asterisk: everything that starts with what is before it. *)
Class GlobsetLaws `{Globset} := glob_prefix p n : Forall (fun c => letter c \/ c = slash) p -> glob_matches (p ++ [star]) n = starts_with p n.

Lemma category_string c : category_to_string (category_from_reflike c) = c.
Proof.
  unfold category_from_reflike. destruct (category_known c) as [k|] eqn:Hk; [|done]. by apply category_known_spec in Hk as [-> _].
Qed.
Lemma onelevel_into cat ref : slash ∉ cat -> onelevel_from_qualified (into_qualified ref cat) = Done (ref, Some cat).
Proof.
  intros Hc. unfold onelevel_from_qualified, into_qualified.
  assert (str_strip_prefix REFS_SLASH (str "refs/" ++ cat ++ slash :: ref) = Some (cat ++ slash :: ref)) as -> by (by apply str_strip_prefix_spec).
  change (default ?x (Some ?y)) with y. rewrite split_on_app, split_on_no by done. cbn [app].
  destruct (split_on slash ref) as [|h t] eqn:He; [by destruct (split_on_nonempty slash ref)|]. by rewrite <- He, join_split.
Qed.
(** References under [refs/remotes] and the signed references themselves. *)
Definition excluded (cat s : list N) : bool :=
  starts_with (str "refs/remotes") s || (bool_decide (category_from_reflike cat = Rad) && ends_with s (str "rad/signed_refs")).
Lemma signed_as_spec s : exists x, signed_as s = Done x /\ forall cat ref,
  x = Some (cat, ref) <-> is_refstr s /\ (slash ∉ cat) /\ qualified_from s = into_qualified ref cat /\ excluded cat s = false.
Proof.
  unfold signed_as. destruct (reflike_try_from s) as [t|e] eqn:Ht.
  - apply reflike_try_from_ok in Ht as [-> Hs]. destruct (onelevel_parts s Hs) as (name & cat & Ho & _ & Hcat). rewrite Ho. cbn [mbind outcome_bind].
    destruct cat as [c|].
    + destruct Hcat as ([_ Hsl] & Hq & _). fold (excluded c s). rewrite category_string.
      assert (forall cat ref, (slash ∉ cat) -> qualified_from s = into_qualified ref cat -> cat = c /\ ref = name) as Huniq.
      { intros cat ref Hc He. rewrite He, onelevel_into in Ho by done. by injection Ho as -> ->. }
      destruct (excluded c s) eqn:Hx; eexists; (split; [done|]); intros cat ref; split; try done.
      * intros (_ & Hc & He & Hex). destruct (Huniq cat ref Hc He) as [-> ->]. congruence.
      * intros [= <- <-]. done.
      * intros (_ & Hc & He & _). by destruct (Huniq cat ref Hc He) as [-> ->].
    + eexists. split; [done|]. intros cat ref. split; [done|]. intros (_ & Hc & He & _). rewrite He, onelevel_into in Ho by done. done.
  - eexists. split; [done|]. intros cat ref. split; [done|]. intros (Hs & _).
    by rewrite (proj2 (reflike_try_from_ok s s) (conj eq_refl Hs)) in Ht.
Qed.
Lemma signed_as_no_remotes s cat ref : signed_as s = Done (Some (cat, ref)) -> cat <> str "remotes".
Proof.
  destruct (signed_as_spec s) as (x & -> & Hx). intros [= Hxe]. apply Hx in Hxe as (_ & _ & Hq & Hex). intros ->.
  unfold excluded in Hex. apply orb_false_iff in Hex as [Hst _]. unfold qualified_from in Hq. destruct (starts_with REFS_SLASH s); [|done].
  subst s. assert (starts_with (str "refs/remotes") (into_qualified ref (str "remotes")) = true) as Ht by (apply starts_with_spec; by eexists). congruence.
Qed.

(** *** Categories *)
Definition cat_get (cats : list (list N * OidMap)) (cat ref : list N) : option N := map_get cat cats ≫= map_get ref.
Definition cats_wf (cats : list (list N * OidMap)) : Prop :=
  keys_sorted cats = true /\ Forall (fun kv : list N * OidMap => keys_sorted kv.2 = true) cats /\
  Forall (fun kv : list N * OidMap => kv.1 <> str "remotes") cats.

Lemma Forall_insert {V} (P : list N * V -> Prop) k v m : P (k, v) -> Forall P m -> Forall P (map_insert k v m).
Proof.
  intros Hv. induction 1 as [|[k' v'] m Hkv Hm IH]; cbn [map_insert]; [by constructor|].
  destruct (str_cmp k k'); [by constructor|by repeat constructor|by constructor].
Qed.
Lemma map_get_elem {V} k (v : V) m : map_get k m = Some v -> (k, v) ∈ m.
Proof.
  induction m as [|[k' v'] m IH]; [done|]. cbn [map_get]. destruct (str_cmp k k') eqn:Hc.
  - intros [= ->]. apply str_cmp_eq in Hc as ->. by left.
  - intros Hg. right. by apply IH.
  - intros Hg. right. by apply IH.
Qed.
Lemma cat_sorted cats cat : cats_wf cats -> keys_sorted (default [] (map_get cat cats)) = true.
Proof.
  intros (_ & Ho & _). destruct (map_get cat cats) as [m|] eqn:Hg; [|done]. apply map_get_elem in Hg. rewrite Forall_forall in Ho. by apply (Ho _ Hg).
Qed.
Lemma cat_insert_wf cats cat ref oid : cats_wf cats -> cat <> str "remotes" -> cats_wf (cat_insert cats cat ref oid).
Proof.
  intros Hw Hne. pose proof (cat_sorted cats cat Hw) as Hs. destruct Hw as (Hk & Ho & Hn). unfold cat_insert. split_and!.
  - by apply map_insert_sorted.
  - apply Forall_insert; [|done]. by apply map_insert_sorted.
  - by apply Forall_insert.
Qed.
Lemma cat_get_insert cats cat ref oid cat' ref' : cats_wf cats ->
  cat_get (cat_insert cats cat ref oid) cat' ref' = if decide ((cat', ref') = (cat, ref)) then Some oid else cat_get cats cat' ref'.
Proof.
  intros Hw. pose proof (cat_sorted cats cat Hw) as Hs. destruct Hw as (Hk & _ & _). unfold cat_get, cat_insert.
  rewrite map_get_insert by done. destruct (decide (cat' = cat)) as [->|Hne]; cbn.
  - rewrite map_get_insert by done. destruct (decide (ref' = ref)) as [->|Hr]; [by rewrite decide_True|].
    rewrite decide_False by congruence. by destruct (map_get cat cats).
  - by rewrite decide_False by congruence.
Qed.
Lemma add_category_wf cats c : cats_wf cats -> category_to_string c <> str "remotes" -> cats_wf (add_category cats c) /\
  (forall cat ref, cat_get (add_category cats c) cat ref = cat_get cats cat ref) /\
  map_get (category_to_string c) (add_category cats c) <> None /\
  (forall k, map_get k cats <> None -> map_get k (add_category cats c) <> None).
Proof.
  intros (Hk & Ho & Hn) Hne. unfold add_category. destruct (map_get (category_to_string c) cats) eqn:Hg.
  - split_and!; [exact (conj Hk (conj Ho Hn))|done|by rewrite Hg|done].
  - split_and!.
    + unfold cats_wf. split_and!; [by apply map_insert_sorted|by apply Forall_insert|by apply Forall_insert].
    + intros cat ref. unfold cat_get. rewrite map_get_insert by done. destruct (decide (cat = category_to_string c)) as [->|]; [by rewrite Hg|done].
    + rewrite map_get_insert by done. by rewrite decide_True.
    + intros k Hk'. rewrite map_get_insert by done. by destruct (decide _).
Qed.
Lemma default_categories_wf cats : cats_wf cats -> cats_wf (add_default_categories cats) /\
  (forall cat ref, cat_get (add_default_categories cats) cat ref = cat_get cats cat ref) /\
  (forall c, c ∈ default_categories -> map_get (category_to_string c) (add_default_categories cats) <> None).
Proof.
  unfold add_default_categories. intros Hw.
  assert (Forall (fun c => category_to_string c <> str "remotes") default_categories) as Hd by (repeat constructor; done).
  revert cats Hw. induction default_categories as [|d ds IH]; intros cats Hw; cbn [foldl].
  - split_and!; [done|done|]. by intros c ?%elem_of_nil.
  - inversion_clear Hd as [|? ? Hne Hds]. destruct (add_category_wf cats d Hw Hne) as (Hw1 & Hg1 & Hd1 & _).
    destruct (IH Hds _ Hw1) as (Hw2 & Hg2 & Hd2). split_and!; [done|intros; by rewrite Hg2|].
    intros c [->|Hc]%elem_of_cons; [|by apply Hd2].
    clear - Hw1 Hd1 Hds. revert Hd1 Hw1. generalize (add_category cats d). induction ds as [|e ds IH]; intros m Hm Hwm; [done|]. cbn [foldl].
    inversion_clear Hds as [|? ? Hne Hds']. destruct (add_category_wf m e Hwm Hne) as (Hw' & _ & _ & Hp). by apply IH; [|apply Hp|].
Qed.

(** *** What is categorised *)
Section Categorise.
Context {SE : Type}.

(** The reference a git reference is signed as. *)
Definition kept (prefix : list N) (r : result SE GitRef) : option (list N * list N * N) :=
  match r with
  | Err _ => None
  | Ok head =>
      '(name, oid) ← peeled head; s ← str_strip_prefix prefix name;
      match signed_as s with Done (Some (cat, ref)) => Some (cat, ref, oid) | _ => None end
  end.
Definition keep (cats : list (list N * OidMap)) (x : list N * list N * N) := cat_insert cats x.1.1 x.1.2 x.2.
Lemma categorise_spec prefix l : forall cats, categorise (SE := SE) prefix l cats = Done (foldl keep cats (omap (kept prefix) l)).
Proof.
  induction l as [|r l IH]; intros cats; [done|]. cbn [categorise omap list_omap]. unfold kept at 1. destruct r as [head|e]; [|apply IH].
  destruct (peeled head) as [[name oid]|]; cbn [mbind option_bind]; [|apply IH].
  destruct (str_strip_prefix prefix name) as [s|]; cbn [mbind option_bind]; [|apply IH].
  destruct (signed_as_spec s) as (x & -> & _). cbn [mbind outcome_bind]. destruct x as [[cat ref]|]; cbn [foldl]; by rewrite IH.
Qed.
Lemma kept_no_remotes prefix r x : kept prefix r = Some x -> x.1.1 <> str "remotes".
Proof.
  unfold kept. destruct r as [head|]; [|done]. destruct (peeled head) as [[name oid]|]; cbn; [|done].
  destruct (str_strip_prefix prefix name) as [s|]; cbn; [|done]. destruct (signed_as s) as [[[cat ref]|]|] eqn:Hs; try done.
  intros [= <-]. by eapply signed_as_no_remotes.
Qed.
Lemma keep_all_wf l : forall cats, cats_wf cats -> Forall (fun x : list N * list N * N => x.1.1 <> str "remotes") l -> cats_wf (foldl keep cats l).
Proof.
  induction l as [|x l IH]; intros cats Hw Hl; [done|]. inversion_clear Hl. cbn [foldl]. apply IH; [|done]. by apply cat_insert_wf.
Qed.
(** With distinct keys, what is kept is what is found. *)
Lemma keep_all_get l : forall cats cat ref oid, cats_wf cats -> Forall (fun x : list N * list N * N => x.1.1 <> str "remotes") l ->
  NoDup (l.*1) -> cat_get (foldl keep cats l) cat ref = Some oid <->
  (cat, ref, oid) ∈ l \/ ((cat, ref) ∉ l.*1) /\ cat_get cats cat ref = Some oid.
Proof.
  induction l as [|[[c r] o] l IH]; intros cats cat ref oid Hw Hl Hd; cbn [foldl].
  - split; [by right; split; [apply not_elem_of_nil|]|]. by intros [?%elem_of_nil|[_ ?]].
  - inversion_clear Hl as [|? ? Hne Hl']. cbn [fmap list_fmap fst] in Hd. apply NoDup_cons in Hd as [Hni Hd].
    rewrite IH by (try done; by apply cat_insert_wf). unfold keep. cbn [fst snd]. rewrite cat_get_insert by done.
    cbn [fmap list_fmap fst]. rewrite elem_of_cons, not_elem_of_cons. destruct (decide ((cat, ref) = (c, r))) as [[= -> ->]|Hx].
    + split; [intros [Hi|[_ [= ->]]]; [by left; right|by left; left]|].
      intros [[[= ->]|Hi]|[[Hx _] _]]; [by right|by left|by destruct Hx].
    + split; [intros [Hi|[Hi Hg]]; [by left; right|by right]|]. intros [[[= -> -> ->]|Hi]|[[_ Hi] Hg]]; [done|by left|by right].
Qed.

(** The names of git references; under the prefix, they are in [refs/]. *)
Definition git_names (l : list (result SE GitRef)) : list (list N) := omap (fun r => match r with Ok g => gr_name g | Err _ => None end) l.
Definition names_under (prefix : list N) (l : list (result SE GitRef)) : Prop :=
  Forall (fun n => starts_with prefix n = true -> starts_with (prefix ++ REFS_SLASH) n = true) (git_names l).

Lemma kept_spec prefix r cat ref oid : names_under prefix [r] ->
  kept prefix r = Some (cat, ref, oid) <->
  (slash ∉ cat) /\ is_refstr (into_qualified ref cat) /\ excluded cat (into_qualified ref cat) = false /\
  exists g, r = Ok g /\ peeled g = Some (prefix ++ into_qualified ref cat, oid).
Proof.
  intros Hu. unfold kept. destruct r as [head|]; [|split; [done|by intros (_ & _ & _ & ? & ? & _)]].
  destruct (peeled head) as [[name o]|] eqn:Hp; cbn [mbind option_bind].
  2: { split; [done|]. intros (_ & _ & _ & g & [= <-] & Hg). congruence. }
  assert (gr_name head = Some name) as Hname by (unfold peeled in Hp; destruct (gr_name head), (gr_target head); cbn in Hp; congruence).
  destruct (str_strip_prefix prefix name) as [s|] eqn:Hs; cbn [mbind option_bind].
  2: { split; [done|]. intros (_ & _ & _ & g & [= <-] & Hg). rewrite Hp in Hg. injection Hg as -> ->.
    rewrite (proj2 (str_strip_prefix_spec _ _ _) eq_refl) in Hs. done. }
  apply str_strip_prefix_spec in Hs as ->. unfold names_under, git_names in Hu. cbn [omap list_omap] in Hu. rewrite Hname in Hu. rewrite Forall_singleton in Hu.
  assert (qualified_from s = s) as Hq.
  { destruct (proj1 (starts_with_spec _ _) (Hu (proj2 (starts_with_spec _ _) (ex_intro _ s eq_refl)))) as [t Ht].
    rewrite <- app_assoc in Ht. apply app_inv_head in Ht as ->. unfold qualified_from. by rewrite (proj2 (starts_with_spec _ _) (ex_intro _ t eq_refl)). }
  destruct (signed_as_spec s) as (x & -> & Hx). rewrite Hq in Hx. transitivity (x = Some (cat, ref) /\ o = oid).
  { destruct x as [[c' r']|]; split; [by intros [= -> -> ->]|by intros [[= -> ->] ->]|done|by intros [? _]]. }
  rewrite Hx. split.
  - intros [(Hr & Hc & -> & He) ->]. split_and!; try done. by exists head.
  - intros (Hc & Hr & He & g & [= <-] & Hg). rewrite Hp in Hg. injection Hg as Hs ->. apply app_inv_head in Hs as ->. done.
Qed.
Lemma names_under_elem prefix l r : names_under prefix l -> r ∈ l -> names_under prefix [r].
Proof.
  unfold names_under, git_names. rewrite !Forall_forall. intros Hl Hr n Hn. apply Hl. rewrite list_elem_of_omap in Hn |- *.
  destruct Hn as (x & ->%list_elem_of_singleton & Hx). eauto.
Qed.
(** Distinct references are signed as distinct names. *)
Lemma kept_distinct prefix l : names_under prefix l -> NoDup (git_names l) -> NoDup ((omap (kept prefix) l).*1).
Proof.
  induction l as [|r l IH]; intros Hu Hd; [constructor|].
  assert (names_under prefix l) as Hul by (eapply Forall_forall; intros n Hn; unfold names_under in Hu; rewrite Forall_forall in Hu; apply Hu;
    unfold git_names in *; rewrite list_elem_of_omap in Hn |- *; destruct Hn as (x & Hx & Hn); exists x; by split; [right|]).
  assert (NoDup (git_names l)) as Hdl by (unfold git_names in *; cbn [omap list_omap] in Hd; case_match; [by apply NoDup_cons in Hd as [_ ?]|done]).
  specialize (IH Hul Hdl). cbn [omap list_omap]. destruct (kept prefix r) as [[[c n] o]|] eqn:Hk; [|done]. cbn [fmap list_fmap fst].
  constructor; [|done]. intros ([[c' n'] o'] & [= <- <-] & Hin)%list_elem_of_fmap. apply list_elem_of_omap in Hin as (r' & Hr' & Hk').
  apply kept_spec in Hk as (_ & _ & _ & g & -> & Hg); [|by eapply names_under_elem; [exact Hu|left]].
  apply kept_spec in Hk' as (_ & _ & _ & g' & -> & Hg'); [|by eapply names_under_elem; [exact Hul|]].
  unfold peeled in Hg, Hg'. destruct (gr_name g) as [m|] eqn:Hm; [|done]. destruct (gr_name g') as [m'|] eqn:Hm'; [|done]. cbn in Hg, Hg'.
  destruct (gr_target g); [|done]. destruct (gr_target g'); [|done]. cbn in Hg, Hg'. simplify_eq.
  unfold git_names in Hd. cbn [omap list_omap] in Hd. rewrite Hm in Hd. apply NoDup_cons in Hd as [Hni _]. apply Hni.
  apply list_elem_of_omap. by exists (Ok g').
Qed.
End Categorise.

(** *** Computing *)
Section Compute.
Context {S R MB MH IE SE KE : Type} `{HasProtocolLaws R MH IE} `{MultibaseLaws MB} `{RefsTextLaws} `{SignedKeys KE} `{RefsStorage S R SE}.
Context `{JsonTextLaws} `{GlobsetLaws} `{CompactFormatter} `{Nfc} `{Serializer} `{PercentEncoding}.

Definition namespace_prefix (urn : UrnText.Urn R) : list N := str "refs/namespaces/" ++ urn_encode_id (MB := MB) urn ++ [slash].

Lemma namespace_prefix_plain urn : Forall (fun c => letter c \/ c = slash) (namespace_prefix urn).
Proof.
  unfold namespace_prefix. rewrite !Forall_app. split_and!.
  - assert (forallb (fun c => ((97 <=? c) && (c <=? 122)) || (c =? slash)) (str "refs/namespaces/") = true) as Hb by done.
    apply Forall_forall. intros c Hc%list_elem_of_In. apply (proj1 (forallb_forall _ _) Hb), orb_true_iff in Hc. unfold letter.
    destruct Hc as [[Hc1%N.leb_le Hc2%N.leb_le]%andb_true_iff|Hc%N.eqb_eq]; [left; lia|by right].
  - destruct (urn_id_text (MB := MB) urn) as (Hl & _). eapply Forall_impl; [exact Hl|]. by left.
  - constructor; [by right|constructor].
Qed.
(** The glob only leaves out what has another prefix. *)
Lemma kept_glob urn (l : list (result SE GitRef)) : omap (kept (namespace_prefix urn)) (references_glob (namespace_prefix urn ++ [star]) l) = omap (kept (namespace_prefix urn)) l.
Proof.
  unfold references_glob. induction l as [|r l IH]; [done|]. cbn [List.filter]. destruct r as [g|e]; [|cbn [omap list_omap]; by rewrite IH].
  destruct (gr_name g) as [n|] eqn:Hn.
  - rewrite glob_prefix by apply namespace_prefix_plain. destruct (starts_with (namespace_prefix urn) n) eqn:Hs; cbn [omap list_omap]; [by rewrite IH|].
    unfold kept at 2. unfold peeled. rewrite Hn. cbn [mbind option_bind]. destruct (gr_target g); cbn [mbind option_bind]; [|done].
    unfold starts_with in Hs. by destruct (str_strip_prefix _ n).
  - cbn [omap list_omap]. unfold kept at 2. unfold peeled. by rewrite Hn.
Qed.

Lemma refs_compute_ok (storage : S) urn r l : st_references storage = Ok l -> refs_compute (MB := MB) (KE := KE) storage urn = EOk r ->
  categorised_refs r = add_default_categories (foldl keep [] (omap (kept (namespace_prefix urn)) l)) /\
  exists tracked peers rs, tracked_peers storage (urn_id urn) = Ok tracked /\ collect_peers (MB := MB) (KE := KE) tracked = EOk peers /\
    fill_remotes (MB := MB) storage urn (remotes_entries (remotes_collect peers)) = EOk rs /\ remotes r = MkRemotes rs.
Proof.
  intros Hl. unfold refs_compute. change (into_reflike ?x) with (namespace_into (MB := MB) x). rewrite namespace_done, Hl. cbn [of_out of_res_with of_res map_err mbind eff_bind].
  fold (namespace_prefix urn). change (str "refs/namespaces/" ++ urn_encode_id urn ++ [slash]) with (namespace_prefix urn).
  rewrite categorise_spec, kept_glob. cbn [of_out mbind eff_bind]. intros Hc. inv_eff. eauto 10.
Qed.

Lemma kept_all_no_remotes prefix (l : list (result SE GitRef)) : Forall (fun x : list N * list N * N => x.1.1 <> str "remotes") (omap (kept prefix) l).
Proof. apply Forall_forall. intros x (y & _ & Hy)%list_elem_of_omap. by eapply kept_no_remotes. Qed.
Lemma nil_cats_wf : cats_wf [].
Proof. by split_and!. Qed.

(** [compute_exact]: the computed references are exactly the direct references of the namespace that are in a category, are
    valid names, and are neither under [refs/remotes] nor the signed references themselves, with their targets; and the default
    categories are always there. *)
Theorem compute_exact (storage : S) (urn : UrnText.Urn R) r l :
  st_references storage = Ok l -> NoDup (git_names l) -> names_under (namespace_prefix urn) l ->
  refs_compute (MB := MB) (KE := KE) storage urn = EOk r ->
  (forall cat ref oid, cat_get (categorised_refs r) cat ref = Some oid <->
    (slash ∉ cat) /\ is_refstr (into_qualified ref cat) /\ excluded cat (into_qualified ref cat) = false /\
    exists g, Ok g ∈ l /\ peeled g = Some (namespace_prefix urn ++ into_qualified ref cat, oid)) /\
  (forall c, c ∈ default_categories -> map_get (category_to_string c) (categorised_refs r) <> None).
Proof.
  intros Hl Hd Hu Hc. apply refs_compute_ok with (l := l) in Hc as [-> _]; [|done].
  pose proof (kept_all_no_remotes (namespace_prefix urn) l) as Hn. pose proof (keep_all_wf _ [] nil_cats_wf Hn) as Hw.
  destruct (default_categories_wf _ Hw) as (_ & Hg & Hdef). split; [|done]. intros cat ref oid. rewrite Hg, keep_all_get; [|apply nil_cats_wf|done|by apply kept_distinct].
  rewrite list_elem_of_omap. split.
  - intros [(x & Hx & Hk)|[_ ?]]; [|done]. apply kept_spec in Hk; [|by eapply names_under_elem]. destruct Hk as (? & ? & ? & g & -> & ?). eauto 10.
  - intros (? & ? & ? & g & Hg' & Hp). left. exists (Ok g). split; [done|]. apply kept_spec; [by eapply names_under_elem|]. eauto 10.
Qed.

(** *** What is tracked *)
Definition remotes_ok (r : Remotes) : Prop := remotes_sorted r = true /\ remotes_keys r.
Lemma remotes_keys_all m : remotes_keys (MkRemotes m) <-> Forall (fun kv => key_ok kv.1 /\ remotes_keys kv.2) m.
Proof.
  induction m as [|[k v] m IH]; [done|]. rewrite Forall_cons. cbn [fst snd]. cbn [remotes_keys] in *. rewrite IH. tauto.
Qed.
Lemma remotes_ok_all m : remotes_ok (MkRemotes m) <-> keys_sorted m = true /\ Forall (fun kv => key_ok kv.1 /\ remotes_ok kv.2) m.
Proof.
  unfold remotes_ok at 1. rewrite remotes_keys_all. cbn [remotes_sorted]. rewrite andb_true_iff, forallb_forall, !Forall_forall. unfold remotes_ok. split.
  - intros [[Hs Hv] Hk]. split; [done|]. intros kv Hkv. destruct (Hk kv Hkv) as [? ?]. split_and!; [done|by apply Hv, list_elem_of_In|done].
  - intros [Hs Hk]. split_and!; [done| |]; intros kv Hkv; [apply list_elem_of_In in Hkv|]; by destruct (Hk kv Hkv) as (? & ? & ?).
Qed.
Lemma cutoff_ok d : forall r, remotes_ok r -> remotes_ok (cutoff d r).
Proof.
  induction d as [|d IH]; intros [m]; [done|]. intros [Hs Hm]%remotes_ok_all. rewrite cutoff_S by done. apply remotes_ok_all.
  rewrite keys_sorted_map. split; [done|]. apply Forall_fmap. eapply Forall_impl; [exact Hm|]. intros kv [Hk Hv]. split; [done|]. by apply IH.
Qed.
Lemma refs_deserialize_ok j r : refs_deserialize (MB := MB) j = EOk r -> remotes_ok (remotes r).
Proof.
  destruct j as [m| |]; [|done..]. cbn [refs_deserialize].
  assert (forall rs cats, (forall x, rs = Some x -> remotes_ok x) -> refs_visit_map (MB := MB) m rs cats = EOk r -> remotes_ok (remotes r)) as Hgo.
  { induction m as [|[k v] m IH]; intros rs cats Hrs; cbn [refs_visit_map].
    - destruct rs as [x|]; [|done]. intros [= <-]. by apply Hrs.
    - case_bool_decide; intros Hv; inv_eff.
      + eapply IH; [|exact Hv]. intros ? [= <-]. by eapply remotes_deserialize_ok.
      + by eapply IH. }
  by apply Hgo.
Qed.
Lemma signed_deserialize_ok j s : signed_deserialize (MB := MB) j = EOk s -> remotes_ok (remotes (signed_refs s)).
Proof.
  destruct j as [m| |]; [|done..]. cbn [signed_deserialize].
  assert (forall rs sig, (forall x, rs = Some x -> remotes_ok (remotes x)) -> signed_visit_map (MB := MB) m rs sig = EOk s -> remotes_ok (remotes (signed_refs s))) as Hgo.
  { induction m as [|[k v] m IH]; intros rs sig Hrs; cbn [signed_visit_map].
    - destruct rs as [x|]; [|done]. destruct sig; [|done]. intros [= <-]. by apply Hrs.
    - case_bool_decide; [|case_bool_decide; [|done]].
      + destruct rs; [done|]. intros Hv. inv_eff. eapply IH; [|exact Hv]. intros ? [= <-]. by eapply refs_deserialize_ok.
      + destruct sig; [done|]. destruct v as [|t|]; [done| |done]. destruct (sig_visit_str t); [|done]. by apply IH. }
  by apply Hgo.
Qed.
Lemma refs_load_ok (storage : S) urn p refs : refs_load (MB := MB) (KE := KE) storage urn p = EOk (Some refs) -> remotes_ok (remotes refs).
Proof.
  unfold refs_load, refs_load_signed. destruct (sigrefs_name urn p) as [n| |]; cbn; [|done..].
  destruct (st_reference_oid storage n) as [o|e]; cbn; [|by destruct (is_not_found e)].
  unfold refs_load_at. destruct (st_blob_at storage o BLOB_PATH) as [[data|]|]; cbn; [|done..].
  destruct (signed_from_json data _) as [s'| |] eqn:Hs; cbn; [|done..]. intros [= <-]. unfold signed_from_json in Hs. inv_eff.
  unfold signed_verify in *. repeat case_match; simplify_eq/=. destruct (refs_canonical_form _); cbn in *; [|done].
  case_match; [|done]. simplify_eq. by eapply signed_deserialize_ok.
Qed.

(** The graph of a tracked peer is at most as deep as is retained. *)
Definition bounded_ok (kv : list N * Remotes) : Prop := key_ok kv.1 /\ remotes_ok kv.2 /\ (remotes_depth kv.2 <= TRACKING_GRAPH_DEPTH)%nat.
Lemma fill_remotes_ok (storage : S) urn m : forall rs, fill_remotes (MB := MB) (KE := KE) storage urn m = EOk rs -> Forall bounded_ok m ->
  rs.*1 = m.*1 /\ Forall bounded_ok rs.
Proof.
  induction m as [|[p t] m IH]; intros rs; cbn [fill_remotes]; [by intros [= <-]|].
  intros (l & Hl & (m' & Hf & Hrs)%eff_bind_ok)%eff_bind_ok Hm. inversion_clear Hm as [|? ? (Hk & Ht) Hm'].
  destruct (IH _ Hf Hm') as [Hks Hbs]. apply (f_equal (fun x => match x with EOk a => a | _ => [] end)) in Hrs. cbn beta iota in Hrs. subst rs.
  cbn [fmap list_fmap fst]. rewrite Hks. split; [done|]. constructor; [|done]. split; [done|]. cbn [snd]. destruct l as [refs|]; [|done].
  apply refs_load_ok in Hl. split; [by apply cutoff_ok|]. apply cutoff_depth, Hl.
Qed.
Lemma collect_peers_ok l : forall ps, collect_peers (MB := MB) (KE := KE) (SE := SE) l = EOk ps -> forall p, p ∈ ps <-> Ok p ∈ l.
Proof.
  induction l as [|r l IH]; intros ps; cbn [collect_peers]; [intros [= <-] p; by rewrite !elem_of_nil|]. intros Hc p. inv_eff.
  match goal with Hl : collect_peers l = _ |- _ => specialize (IH _ Hl p) end. rewrite !elem_of_cons, IH. split; intros [He|He]; auto; left; congruence.
Qed.
Lemma collect_bounded ps : Forall key_ok ps -> Forall bounded_ok (remotes_entries (remotes_collect ps)).
Proof.
  intros Hps. cbn [remotes_collect remotes_entries]. unfold map_collect.
  assert (Forall bounded_ok map_new) as Hm by constructor. revert Hm. generalize (map_new (V := Remotes)).
  induction Hps as [|p ps Hp _ IH]; intros m Hm; [done|]. cbn [map foldl fst snd]. apply IH, Forall_insert; [|done]. split; [done|]. cbn. split; [done|lia].
Qed.
Lemma keys_sorted_fst {V V'} (m : list (list N * V)) : forall m' : list (list N * V'), m.*1 = m'.*1 -> keys_sorted m = keys_sorted m'.
Proof.
  induction m as [|[k v] m IH]; intros [|[k' v'] m']; try done. intros [= -> Hm]. cbn [keys_sorted]. rewrite (IH m') by done. f_equal.
  clear -Hm. revert m' Hm. induction m as [|[a x] m IH]; intros [|[b y] m']; try done. intros [= -> Hm]. cbn [forallb]. by rewrite (IH m').
Qed.
Lemma compute_wf (storage : S) urn r l tracked : st_references storage = Ok l -> tracked_peers storage (urn_id urn) = Ok tracked ->
  (forall p, Ok p ∈ tracked -> key_ok p) -> refs_compute (MB := MB) (KE := KE) storage urn = EOk r ->
  refs_wf r /\ Forall bounded_ok (remotes_entries (remotes r)) /\ forall p, p ∈ (remotes_entries (remotes r)).*1 <-> Ok p ∈ tracked.
Proof.
  intros Hl Ht Hkey Hc. destruct (refs_compute_ok storage urn r l Hl Hc) as (Hcat & tr & peers & rs & Htr & Hp & Hf & Hr).
  rewrite Ht in Htr. injection Htr as <-. pose proof (collect_peers_ok tracked peers Hp) as Hpeers.
  destruct (fill_remotes_ok storage urn _ rs Hf) as [Hks Hbs]; [by apply collect_bounded, Forall_forall; intros p ?%Hpeers; apply Hkey|].
  rewrite Hr. cbn [remotes_entries]. split_and!; [|done|].
  - destruct (default_categories_wf _ (keep_all_wf _ [] nil_cats_wf (kept_all_no_remotes (namespace_prefix urn) l))) as ((Hs & Ho & Hn) & _ & _).
    rewrite <- Hcat in Hs, Ho, Hn. constructor; [done..|]. rewrite Hr. apply remotes_ok_all. split.
    + rewrite (keys_sorted_fst rs _ Hks). apply map_collect_keys_sorted.
    + eapply Forall_impl; [exact Hbs|]. by intros kv (? & ? & _).
  - intros p. rewrite Hks, <- Hpeers. cbn [remotes_collect remotes_entries]. rewrite map_collect_key. change (map ?f ?x) with (f <$> x). rewrite <- list_fmap_compose. cbn.
    by rewrite list_fmap_id.
Qed.

(** [compute_bounded]: whatever the peers have signed, the computed references are well formed, what is tracked are exactly the tracked peers,
    and the tracking graph is at most one level deeper than what is retained of the graph of each of them. *)
Theorem compute_bounded (storage : S) (urn : UrnText.Urn R) r l tracked :
  st_references storage = Ok l -> tracked_peers storage (urn_id urn) = Ok tracked -> (forall p, Ok p ∈ tracked -> key_ok p) ->
  refs_compute (MB := MB) (KE := KE) storage urn = EOk r ->
  refs_wf r /\ (forall p, p ∈ (remotes_entries (remotes r)).*1 <-> Ok p ∈ tracked) /\
  (remotes_depth (remotes r) <= Datatypes.S TRACKING_GRAPH_DEPTH)%nat.
Proof.
  intros Hl Ht Hk Hc. destruct (compute_wf storage urn r l tracked Hl Ht Hk Hc) as (Hw & Hb & Hp). split_and!; [done..|].
  destruct (remotes r) as [m]. cbn [remotes_entries] in Hb. clear -Hb. destruct m as [|kv m]; [cbn; lia|]. cbn [remotes_depth]. apply le_n_S.
  induction Hb as [|x l (_ & _ & Hx) _ IH]; [cbn; lia|]. cbn [map max_list]. by apply Nat.max_lub.
Qed.
End Compute.

(** ** Updates *)

(** The object database behind the storage, which writing only adds to. *)
Class RefsGitLaws (W GE S R SE : Type) `{RefsGit W GE} `{RefsStorage S R SE} (storage_of : W -> S) (me : list N) := {
  odb_blob : W -> N -> option (list N);
  odb_tree : W -> N -> list N -> option N;
  odb_commit : W -> N -> option N;
  storage_peer w : st_peer_id (storage_of w) = me;
  blob_at_spec w c t p b data : odb_commit w c = Some t -> odb_tree w t p = Some b -> odb_blob w b = Some data ->
    st_blob_at (storage_of w) c p = Ok (Some data);
  branch_commit name w p : rg_branch name w = Ok (Some p) -> odb_commit w (pc_id p) = Some (pc_tree p);
  blob_written data w b w' : rg_blob data w = (EOk b, w') -> odb_blob w' b = Some data /\
    (forall c t, odb_commit w c = Some t -> odb_commit w' c = Some t) /\ forall n, st_reference_oid (storage_of w') n = st_reference_oid (storage_of w) n;
  tree_written p b w t w' : rg_tree p b w = (EOk t, w') -> odb_tree w' t p = Some b /\
    (forall c t, odb_commit w c = Some t -> odb_commit w' c = Some t) /\ (forall x data, odb_blob w x = Some data -> odb_blob w' x = Some data) /\
    forall n, st_reference_oid (storage_of w') n = st_reference_oid (storage_of w) n;
  commit_written name msg t parent w c w' : rg_commit name msg t parent w = (EOk c, w') -> odb_commit w' c = Some t /\
    (forall x data, odb_blob w x = Some data -> odb_blob w' x = Some data) /\ (forall x p b, odb_tree w x p = Some b -> odb_tree w' x p = Some b) /\
    st_reference_oid (storage_of w') name = Ok c;
}.

(** What an update found or made, when it has not lost to another. *)
Definition updated_at (u : Updated) : option (Refs * N) :=
  match u with MkUpdated r a | Unchanged r a => Some (r, a) | ConcurrentlyModified => None end.

Section Update.
Context {S R MB MH IE SE KE W GE : Type} `{HasProtocolLaws R MH IE} `{MultibaseLaws MB} `{RefsTextLaws}.
Context `{HK : SignedKeys KE} {me : list N} `{!SignedKeysLaws KE me} `{HS : RefsStorage S R SE} `{HG : RefsGit W GE}.
Context `{JsonTextLaws} `{GlobsetLaws} `{CompactFormatter} `{Nfc} `{Serializer} `{PercentEncoding}.
Context (storage_of : W -> S) (of_git : GE -> SE) `{!RefsGitLaws W GE S R SE storage_of me}.

Lemma git_write_ok {A} (m : st W GE A) w a w' : git_write (MB := MB) (KE := KE) of_git m w = (EOk a, w') <-> m w = (EOk a, w').
Proof. unfold git_write. destruct (m w) as [[x| |] w1]; cbn; split; intros; simplify_eq; done. Qed.
Lemma git_query_ok {A} (f : W -> result GE A) w a w' : git_query (MB := MB) (KE := KE) of_git f w = (EOk a, w') <-> f w = Ok a /\ w' = w.
Proof. unfold git_query, reads. destruct (f w); cbn; split; [|intros []| |intros []]; intros; simplify_eq; done. Qed.
Lemma commit_signed_ok branch (urn : UrnText.Urn R) r tree parent w u w' : commit_signed (MB := MB) (KE := KE) of_git branch urn r tree parent w = (EOk u, w') ->
  u = ConcurrentlyModified \/ exists c msg, u = MkUpdated r c /\ rg_commit branch msg tree parent w = (EOk c, w').
Proof.
  unfold commit_signed. destruct (rg_commit _ _ _ _ _) as [[c|e|] w1] eqn:Hc; [| |done].
  - intros [= <- <-]. right. eauto.
  - destruct (is_concurrent e); [|done]. intros [= <- _]. by left.
Qed.

(** What the branch holds is loaded. *)
Lemma load_found (urn : UrnText.Urn R) branch w c t b s : sigrefs_name (MB := MB) (SE := SE) (KE := KE) urn None = EOk branch ->
  st_reference_oid (storage_of w) branch = Ok c -> odb_commit w c = Some t -> odb_tree w t BLOB_PATH = Some b ->
  odb_blob w b = Some (json_print (signed_serialize (MB := MB) s)) ->
  signed_from_json (MB := MB) (json_print (signed_serialize (MB := MB) s)) me = EOk s ->
  refs_load_signed (MB := MB) (KE := KE) (storage_of w) urn None = EOk (Some (c, s)).
Proof.
  intros Hn Hr Hc Ht Hb Hj. unfold refs_load_signed. rewrite Hn. cbn [mbind eff_bind]. rewrite Hr. cbn [mbind eff_bind].
  unfold refs_load_at. rewrite (blob_at_spec _ _ _ _ _ _ Hc Ht Hb). cbn [of_res_with of_res map_err mbind eff_bind]. rewrite storage_peer.
  unfold default, from_option, id. by rewrite Hj.
Qed.

(** C11 [update_load]: after an update that did not lose to another, the references that were computed are found at the commit it reports, signed with
    the key of the storage, whether they are new or were there already.  The branch, if it is there, holds a commit, and what is
    tracked are keys. *)
Theorem update_load (urn : UrnText.Urn R) w u w' r at_ branch :
  sigrefs_name (MB := MB) (SE := SE) (KE := KE) urn None = EOk branch ->
  (forall p, rg_branch branch w = Ok (Some p) -> st_reference_oid (storage_of w) branch = Ok (pc_id p)) ->
  (forall tracked p, tracked_peers (storage_of w) (urn_id urn) = Ok tracked -> Ok p ∈ tracked -> key_ok p) ->
  refs_update (MB := MB) (KE := KE) storage_of of_git urn w = (EOk u, w') -> updated_at u = Some (r, at_) ->
  refs_compute (MB := MB) (KE := KE) (storage_of w) urn = EOk r /\
  exists s, signed_refs s = r /\ refs_load_signed (MB := MB) (KE := KE) (storage_of w') urn None = EOk (Some (at_, s)).
Proof.
  intros Hbranch Hdirect Hkeys Hu Hat. unfold refs_update, lift, reads in Hu. rewrite Hbranch in Hu.
  apply st_bind_ok in Hu as (n & w0 & [= <- <-] & Hu). apply st_bind_ok in Hu as (s & w0 & Hs & Hu).
  injection Hs as Hs <-. apply eff_bind_ok in Hs as (r' & Hr & Hs).
  apply st_bind_ok in Hu as (parent & w0 & [Hparent ->]%git_query_ok & Hu).
  apply st_bind_ok in Hu as (b & w1 & Hb%git_write_ok & Hu). apply st_bind_ok in Hu as (t & w2 & Ht%git_write_ok & Hu).
  apply st_bind_ok in Hu as ([] & w0 & [_ ->]%git_query_ok & Hu).
  destruct (blob_written _ _ _ _ Hb) as (Hblob & Hbc & Hbr). destruct (tree_written _ _ _ _ _ Ht) as (Htree & Htc & Htb & Htr).
  assert (refs_wf r') as Hwf.
  { destruct (st_references (storage_of w)) as [l|e] eqn:Hl.
    2: { unfold refs_compute in Hr. rewrite Hl in Hr. apply eff_bind_ok in Hr as (? & _ & Hr). done. }
    destruct (refs_compute_ok _ urn r' l Hl Hr) as (_ & tracked & _ & _ & Htk & _). by eapply compute_wf; eauto. }
  destruct (sign_roundtrip (KE := KE) (SE := SE) me r' s Hwf Hs) as [Hsr Hload].
  enough (r = r' /\ refs_load_signed (MB := MB) (KE := KE) (storage_of w') urn None = EOk (Some (at_, s))) as [-> Hfound] by eauto.
  assert (forall pid, (git_query (MB := MB) (KE := KE) of_git rg_signature ≫= fun _ => commit_signed (MB := MB) (KE := KE) of_git branch urn (signed_refs s) t pid) w2 = (EOk u, w') ->
    r = r' /\ refs_load_signed (MB := MB) (KE := KE) (storage_of w') urn None = EOk (Some (at_, s))) as Hnew.
  { intros pid (? & w0 & [_ ->]%git_query_ok & Hc)%st_bind_ok. apply commit_signed_ok in Hc as [->|(c & msg & -> & Hc)]; [done|].
    injection Hat as <- <-. destruct (commit_written _ _ _ _ _ _ _ Hc) as (Hc3 & Hb3 & Ht3 & Hr3). split; [done|].
    apply (load_found urn branch w' c t b); auto. }
  destruct parent as [p|]; [|by eapply Hnew]. destruct (pc_tree p =? t) eqn:Hpt; [|by eapply Hnew].
  injection Hu as <- <-. injection Hat as <- <-. apply N.eqb_eq in Hpt. split; [done|]. apply (load_found urn branch w2 _ t b); auto.
  - rewrite Htr, Hbr. by apply Hdirect.
  - rewrite <- Hpt. apply Htc, Hbc. by eapply branch_commit.
Qed.
End Update.

(** ** A concrete repository *)
Module SignedRefsWitness.
Import ZBase32 UrnWitness FormatterWitness.
#[local] Existing Instance byte_ids.
#[local] Existing Instance byte_ids_laws.
#[local] Existing Instance percent_encoding_model.
#[local] Existing Instance FormatterWitness.plain.
#[local] Existing Instance compact.
#[local] Existing Instance serializer.

(** Object ids as text of one code. *)
#[local] Instance oid_codes : RefsText := {| oid_text o := [o]; oid_parse s := match s with [o] => Some o | _ => None end; str_pieces s := [Fragment s] |}.
#[local] Instance oid_codes_laws : RefsTextLaws.
Proof. done. Qed.

(** Documents as numbers. *)
Fixpoint to_tree (j : Json) : gen_tree (list N) :=
  match j with
  | JStr s => GenLeaf s
  | JOther => GenNode 0 []
  | JObj m => GenNode 1 (map (fun kv => GenNode 2 [GenLeaf kv.1; to_tree kv.2]) m)
  end.
Fixpoint of_tree (t : gen_tree (list N)) : Json :=
  match t with
  | GenLeaf s => JStr s
  | GenNode 1 ts => JObj (map (fun t => match t with GenNode 2 [GenLeaf k; v] => (k, of_tree v) | _ => ([], JOther) end) ts)
  | GenNode _ _ => JOther
  end.
#[local] Instance json_numbers : JsonText := {|
  json_parse s := match s with [Npos p] => of_tree <$> countable.decode p | _ => None end;
  json_print j := [Npos (countable.encode (to_tree j))] |}.
#[local] Instance json_numbers_laws : JsonTextLaws.
Proof.
  intros j. cbn. rewrite decode_encode. cbn. f_equal. induction j as [m IH|s|] using json_ind; [|done..]. cbn. f_equal.
  induction IH as [|[k v] m Hv _ IHm]; [done|]. cbn in *. by rewrite Hv, IHm.
Qed.

(** A checksum as signature. *)
Definition me : list N := replicate PUBLICKEYBYTES 7.
Definition checksum (data : list N) : list N := replicate SIGNATUREBYTES (foldr N.add 0 data mod 256).
#[local] Instance checksum_keys : SignedKeys unit := {|
  sig_verify sig data key := bool_decide (key = me) && bool_decide (sig = checksum data); sign data := Ok (checksum data) |}.
#[local] Instance checksum_keys_laws : SignedKeysLaws unit me.
Proof.
  split; intros data sig [= <-]; cbn [sig_verify checksum_keys]; [by rewrite !bool_decide_eq_true_2|].
  unfold checksum. split; [|by rewrite length_replicate]. apply Forall_replicate. by apply N.mod_lt.
Qed.

#[local] Instance star_glob : Globset := fun p n => match reverse p with c :: q => if c =? star then starts_with (reverse q) n else bool_decide (p = n) | [] => bool_decide (p = n) end.
#[local] Instance star_glob_laws : GlobsetLaws.
Proof. intros p n _. unfold glob_matches, star_glob. by rewrite reverse_snoc, N.eqb_refl, reverse_involutive. Qed.

(** Blobs, trees of one entry, commits and references; ids are positions. *)
Record World := MkWorld { w_blobs : list (list N); w_trees : list (list N * N); w_commits : list N; w_refs : list (list N * N) }.
Definition at_id {A} (l : list A) (o : N) : option A := l !! N.to_nat o.
Definition find_ref (w : World) (n : list N) : option N := snd <$> List.find (fun r => bool_decide (r.1 = n)) (w_refs w).
#[local] Instance world_storage : RefsStorage World Byte.byte bool := {|
  st_peer_id _ := me;
  st_references w := Ok (map (fun r => Ok (MkGitRef (Some r.1) (Some r.2))) (w_refs w));
  st_reference_oid w n := match find_ref w n with Some o => Ok o | None => Err true end;
  is_not_found e := e;
  st_blob_at w c p := Ok (t ← at_id (w_commits w) c; e ← at_id (w_trees w) t; if bool_decide (e.1 = p) then at_id (w_blobs w) e.2 else None);
  tracked_peers w r := Ok [Ok (replicate PUBLICKEYBYTES 9)];
|}.
#[local] Instance world_git : RefsGit World unit := {|
  rg_branch n w := match find_ref w n with
                   | Some c => match at_id (w_commits w) c with Some t => Ok (Some (MkParent c t)) | None => Err tt end
                   | None => Ok None end;
  rg_blob data w := (EOk (N.of_nat (length (w_blobs w))), MkWorld (w_blobs w ++ [data]) (w_trees w) (w_commits w) (w_refs w));
  rg_tree p b w := (EOk (N.of_nat (length (w_trees w))), MkWorld (w_blobs w) (w_trees w ++ [(p, b)]) (w_commits w) (w_refs w));
  rg_find_tree t w := Ok tt;
  rg_signature w := Ok tt;
  rg_commit n msg t parent w := (EOk (N.of_nat (length (w_commits w))),
    MkWorld (w_blobs w) (w_trees w) (w_commits w ++ [t]) ((n, N.of_nat (length (w_commits w))) :: w_refs w));
  is_concurrent _ := false;
|}.
Lemma at_id_old {A} (l : list A) x o a : at_id l o = Some a -> at_id (l ++ [x]) o = Some a.
Proof. unfold at_id. intros Ho. by apply lookup_app_l_Some. Qed.
Lemma at_id_new {A} (l : list A) x : at_id (l ++ [x]) (N.of_nat (length l)) = Some x.
Proof. unfold at_id. rewrite Nat2N.id. by apply list_lookup_middle. Qed.
#[local] Program Instance world_git_laws : RefsGitLaws World unit World Byte.byte bool id me := {|
  odb_blob w b := at_id (w_blobs w) b;
  odb_tree w t p := e ← at_id (w_trees w) t; if bool_decide (e.1 = p) then Some e.2 else None;
  odb_commit w c := at_id (w_commits w) c |}.
Next Obligation. done. Qed.
Next Obligation.
  intros w c t p b data Hc Ht Hb. cbn in *. unfold id. rewrite Hc. cbn. destruct (at_id (w_trees w) t) as [[q b']|]; [|done]. cbn in *.
  case_bool_decide; [|done]. simplify_eq. by rewrite Hb.
Qed.
Next Obligation.
  intros n w p. cbn. destruct (find_ref w n); [|done]. destruct (at_id (w_commits w) _) eqn:Hc; [|done]. by intros [= <-].
Qed.
Next Obligation. intros data w b w' [= <- <-]. cbn. split; [apply at_id_new|done]. Qed.
Next Obligation. intros p b w t w' [= <- <-]. cbn. rewrite at_id_new. cbn. by rewrite bool_decide_eq_true_2. Qed.
Next Obligation.
  intros n msg t parent w c w' [= <- <-]. cbn. rewrite at_id_new. split_and!; [done..|]. unfold id, find_ref. cbn. by rewrite bool_decide_eq_true_2.
Qed.

Definition project : UrnText.Urn Byte.byte := MkUrn Byte.x2a None.
Definition in_project (s : list N) : list N := namespace_prefix (MB := unit) project ++ s.
Definition start : World := MkWorld [] [] [3; 4; 5]
  [(in_project (str "refs/heads/main"), 0); (in_project (str "refs/cobs/x/y"), 1); (in_project (str "refs/remotes/p/heads/main"), 2); (str "refs/heads/other", 2)].

(** The category of collaborative objects comes before the heads. *)
Example start_computed : refs_compute (MB := unit) (KE := unit) start project = EOk (MkRefs
  [(str "cobs", [(str "x/y", 1)]); (str "heads", [(str "main", 0)]); (str "notes", []); (str "tags", [])]
  (MkRemotes [(replicate PUBLICKEYBYTES 9, remotes_new)])).
Proof. vm_compute. reflexivity. Qed.

Definition git_names_start : list (result bool GitRef) := map (fun r => Ok (MkGitRef (Some r.1) (Some r.2))) (w_refs start).
Lemma tracked_keys (w : World) tracked p : tracked_peers w (urn_id project) = Ok tracked -> Ok p ∈ tracked -> key_ok p.
Proof. intros [= <-] [= ->]%list_elem_of_singleton. split; [|done]. by repeat constructor. Qed.

Lemma start_references : st_references start = Ok git_names_start.
Proof. reflexivity. Qed.
Lemma compute_exact_witness : exists r, refs_compute (MB := unit) (KE := unit) start project = EOk r /\
  cat_get (categorised_refs r) (str "heads") (str "main") = Some 0.
Proof.
  eexists. split; [exact start_computed|].
  apply (compute_exact (MB := unit) (KE := unit) start project _ git_names_start start_references);
    [apply (bool_decide_unpack _); vm_compute; reflexivity|apply (bool_decide_unpack _); vm_compute; reflexivity|exact start_computed|].
  split; [apply (bool_decide_unpack _); reflexivity|]. split; [reflexivity|]. split; [reflexivity|].
  eexists. split; [left|reflexivity].
Defined.
Lemma compute_bounded_witness : exists r, refs_compute (MB := unit) (KE := unit) start project = EOk r /\
  (remotes_depth (remotes r) <= 4)%nat.
Proof.
  eexists. split; [exact start_computed|].
  apply (compute_bounded (MB := unit) (KE := unit) start project _ git_names_start [Ok (replicate PUBLICKEYBYTES 9)]); [exact start_references|reflexivity| |exact start_computed].
  intros p Hp. apply (tracked_keys start [Ok (replicate PUBLICKEYBYTES 9)]); [reflexivity|exact Hp].
Defined.
Lemma project_branch : sigrefs_name (MB := unit) (KE := unit) (SE := bool) project None = EOk (in_project (str "refs/rad/signed_refs")).
Proof. vm_compute. reflexivity. Qed.
Lemma no_branch p : rg_branch (in_project (str "refs/rad/signed_refs")) start = Ok (Some p) ->
  st_reference_oid (id start) (in_project (str "refs/rad/signed_refs")) = Ok (pc_id p).
Proof. vm_compute. discriminate. Qed.
Lemma update_load_witness : exists r w' s,
  refs_update (MB := unit) (KE := unit) id (fun _ => false) project start = (EOk (MkUpdated r 3), w') /\
  signed_refs s = r /\ refs_load_signed (MB := unit) (KE := unit) w' project None = EOk (Some (3, s)).
Proof.
  assert (exists r w', refs_update (MB := unit) (KE := unit) id (fun _ => false) project start = (EOk (MkUpdated r 3), w')) as (r & w' & Hu)
    by (do 2 eexists; vm_compute; reflexivity).
  destruct (update_load (MB := unit) (KE := unit) id (fun _ => false) project start _ w' r 3 (in_project (str "refs/rad/signed_refs"))
    project_branch no_branch (tracked_keys start) Hu eq_refl) as (_ & s & Hs & Hl).
  exists r, w', s. split; [exact Hu|]. split; [exact Hs|exact Hl].
Defined.
Lemma load_verified_witness : exists w' at_ s, refs_load_signed (MB := unit) (KE := unit) w' project None = EOk (Some (at_, s)) /\ signed_by (MB := unit) me s.
Proof.
  assert (exists w' at_ s, refs_load_signed (MB := unit) (KE := unit) w' project None = EOk (Some (at_, s))) as (w' & at_ & s & Hl).
  { exists (refs_update (MB := unit) (KE := unit) id (fun _ => false) project start).2. do 2 eexists. vm_compute. reflexivity. }
  exists w', at_, s. split; [exact Hl|]. exact (load_verified (KE := unit) w' project None at_ s Hl).
Defined.
End SignedRefsWitness.
