(* ===== verification/Fetchspecs.v ===== *)
(** * What librad asks of a remote

    [librad/src/git/fetch.rs] and [fetch/specs.rs]: the refspecs of the phases of a replication, from the tracked
    peers, the references they signed and those the remote advertises.  A [BTreeMap] is the list of its entries and
    a [BTreeSet] that of its elements, in order; peers are any type that becomes a component of a name. *)
From stdpp Require Import base list sets.
From Stdlib Require Import NArith Lia.
From Stdlib Require String.
Import String.StringSyntax.
From S2P Require Import Prelude RefFormat RefName.
Import Name.
From S2P Require Import Scoped Utf8 RefLike Keys UrnText LibradRef CanonicalJson RemotesGraph SignedRefs.
#[local] Open Scope N_scope.

(** ** Data *)

Definition ONE_KB : N := 1024.
Definition FIVE_MB : N := ONE_KB * 5000.
Definition FIVE_GB : N := ONE_KB * ONE_KB * ONE_KB * 5.
Record Limit := MkLimit { limit_peek : N; limit_data : N }.
Definition limit_default : Limit := MkLimit FIVE_MB FIVE_GB.

(** The references a remote advertises, and the result of a fetch: names with their targets. *)
Definition RemoteHeads : Type := list (list N * N).

Inductive Fetchspecs (P R : Type) : Type :=
| PeekAll (limit : Limit)
| Peek (remotes : list P) (limit : Limit)
| Replicate (tracked_sigrefs : list (P * Refs)) (delegates : list (UrnText.Urn R)) (limit : Limit).
Arguments PeekAll {P R} limit. Arguments Peek {P R} remotes limit. Arguments Replicate {P R} tracked_sigrefs delegates limit.

Definition fetch_limit {P R} (f : Fetchspecs P R) : N :=
  match f with PeekAll limit => limit_peek limit | Peek _ limit => limit_peek limit | Replicate _ _ limit => limit_data limit end.

(** [collect] of computations that may panic. *)
Fixpoint collect_out {A} (l : list (outcome A)) : outcome (list A) :=
  match l with [] => Done [] | x :: l => a ← x; rest ← collect_out l; Done (a :: rest) end.

(** ** Refspecs *)
Section Refspecs.
Context {P R MB MH IE : Type} `{EqDecision P} `{IntoRefLike P} `{HasProtocol R MH IE} `{Multibase MB}.
#[local] Existing Instance namespace_into.
#[local] Existing Instance reflike_into.

(** [Refspec { src, dst, force: Force::False }.into_fetchspec()] *)
Definition into_fetchspec (src dst : outcome (list N)) : outcome Refspec :=
  s ← src; d ← dst; Done (MkRefspec s d ForceFalse).

(** [remote_glob], of a reference whose remote is a pattern. *)
Definition remote_glob (r : Reference (Namespace R) (list N)) : outcome (list N) :=
  refl ← (match namespace r with
          | Some ns => n ← namespace_into (MB := MB) ns; Done (reflike_join (reflike_join (reflike_join (str "refs") (str "namespaces")) n) (str "refs"))
          | None => Done (str "refs")
          end);
  c ← category_reflike (category r);
  let suffix := reflike_join c (name r) in
  let rm := default [star] (remote r) in
  Done (pattern_append (with_pattern_suffix (reflike_join refl (str "remotes")) rm) suffix).

Definition all (urn : UrnText.Urn R) : outcome (list Refspec) :=
  let ns := Some (namespace_from urn) in
  let glob (r : Reference (Namespace R) (list N)) :=
    into_fetchspec (remote_glob (with_remote (Some [star]) r)) (remote_glob (with_remote (Some [star]) r)) in
  collect_out [glob (rad_id ns); glob (rad_self ns None); glob (rad_signed_refs ns None)].

(** The source of what a peer has: its own at the remote, which tracks the others. *)
Definition is_remote (remote_peer : P) (src : Reference (Namespace R) P) (rm : P) : Reference (Namespace R) P :=
  if decide (remote_peer = rm) then src else with_remote (Some rm) src.

Definition peek (urn : UrnText.Urn R) (remote_peer : P) (remotes : list P) : outcome (list Refspec) :=
  let ns := Some (namespace_from urn) in
  let one (r : Reference (Namespace R) P) rm :=
    into_fetchspec (reference_reflike (Ns := Namespace R) (is_remote remote_peer r rm)) (reference_reflike (Ns := Namespace R) (with_remote (Some rm) r)) in
  let glob (r : Reference (Namespace R) P) rm :=
    into_fetchspec (reference_pattern (Ns := Namespace R) (if decide (rm = remote_peer) then r else with_remote (Some rm) r))
      (reference_pattern (Ns := Namespace R) (with_remote (Some rm) r)) in
  collect_out (flat_map (fun rm =>
    [one (rad_id ns) rm; one (rad_self ns None) rm; one (rad_signed_refs ns None) rm; glob (rad_ids_glob ns) rm]) remotes).

(** The source of a reference of a tracked peer. *)
Definition tracked_src (remote_peer tracked_peer : P) (dst : Reference (Namespace R) P) : Reference (Namespace R) P :=
  if decide (tracked_peer = remote_peer) then with_remote None dst else dst.

Definition spec_signed_refs (urn : UrnText.Urn R) (remote_peer : P) (tracked : list P) : outcome (list Refspec) :=
  collect_out (map (fun tracked_peer =>
    let dst := rad_signed_refs (Some (namespace_from urn)) (Some tracked_peer) in
    into_fetchspec (reference_reflike (Ns := Namespace R) (tracked_src remote_peer tracked_peer dst)) (reference_reflike (Ns := Namespace R) dst)) tracked).

(** [namespaced]: where the remote has a signed reference of a tracked peer. *)
Definition namespaced (ns : Namespace R) (remote_peer tracked_peer : P) (nm : list N) (cat : RefsCategory) : outcome (list N) :=
  n ← namespace_into (MB := MB) ns;
  c ← category_reflike cat;
  let base := reflike_join (str "refs/namespaces") n in
  if decide (tracked_peer = remote_peer) then Done (reflike_join base (into_qualified nm c))
  else t ← into_reflike tracked_peer; Done (reflike_join (reflike_join (reflike_join (reflike_join base (str "refs/remotes")) t) c) nm).

(** [sigrefs]: only what is advertised with the target that was signed. *)
Definition sigref (ns : Namespace R) (remote_peer : P) (remote_heads : RemoteHeads) (tracked_peer : P)
    (entry : (list N * N) * RefsCategory) : outcome (option Refspec) :=
  let '((nm, tgt), cat) := entry in
  namespaced_name ← namespaced ns remote_peer tracked_peer nm cat;
  match map_get namespaced_name remote_heads with
  | None => Done None
  | Some remote_target =>
      if remote_target =? tgt then
        let dst := MkReference (Some tracked_peer) cat nm (Some ns) in
        Some <$> into_fetchspec (reference_reflike (Ns := Namespace R) (tracked_src remote_peer tracked_peer dst)) (reference_reflike (Ns := Namespace R) dst)
      else Done None
  end.
Definition sigrefs (ns : Namespace R) (remote_peer : P) (remote_heads : RemoteHeads) (tracked_peer : P) (refs : Refs) : outcome (list Refspec) :=
  l ← collect_out (map (sigref ns remote_peer remote_heads tracked_peer) (iter_categorised refs));
  Done (omap (M := list) (fun x : option Refspec => x) l).

Definition replicate (urn : UrnText.Urn R) (remote_peer : P) (remote_heads : RemoteHeads) (tracked_sigrefs : list (P * Refs))
    (delegates : list (UrnText.Urn R)) : outcome (list Refspec) :=
  signed ← collect_out (map (fun tr => sigrefs (namespace_from urn) remote_peer remote_heads tr.1 tr.2) tracked_sigrefs);
  peek_remote ← peek urn remote_peer [remote_peer];
  ds ← collect_out (map (fun delegate_urn =>
         p ← peek delegate_urn remote_peer [remote_peer];
         s ← spec_signed_refs delegate_urn remote_peer (map fst tracked_sigrefs);
         Done (p ++ s)) delegates);
  Done (concat signed ++ peek_remote ++ concat ds).

(** [Fetchspecs::refspecs] *)
Definition refspecs (f : Fetchspecs P R) (urn : UrnText.Urn R) (remote_peer : P) (remote_heads : RemoteHeads) : outcome (list Refspec) :=
  match f with
  | PeekAll _ => a ← all urn; r ← peek urn remote_peer [remote_peer]; Done (a ++ r)
  | Peek remotes _ => peek urn remote_peer remotes
  | Replicate tracked_sigrefs delegates _ => replicate urn remote_peer remote_heads tracked_sigrefs delegates
  end.
End Refspecs.

(** ** Properties *)

Lemma collect_out_ok {A} (l : list (outcome A)) : forall r, collect_out l = Done r <-> Forall2 (fun x a => x = Done a) l r.
Proof.
  induction l as [|x l IH]; intros r; cbn [collect_out]; [split; [by intros [= <-]|by inversion 1]|]. split.
  - destruct x as [a|]; cbn; [|done]. destruct (collect_out l) as [rest|] eqn:Hl; cbn; [|done]. intros [= <-]. constructor; [done|by apply IH].
  - inversion 1 as [|? a ? rest Hx Hl]; subst. cbn. apply IH in Hl as ->. done.
Qed.
Lemma collect_out_total {A} (l : list (outcome A)) : Forall (fun x => exists a, x = Done a) l -> exists r, collect_out l = Done r.
Proof.
  intros Hl. induction Hl as [|x l [a ->] _ [r Hr]]; [by eexists|]. cbn. rewrite Hr. by eexists.
Qed.
Lemma collect_out_elem {A} (l : list (outcome A)) r a : collect_out l = Done r -> a ∈ r <-> Done a ∈ l.
Proof.
  intros Hr%collect_out_ok. split.
  - intros Ha. apply list_elem_of_lookup in Ha as [i Ha]. destruct (Forall2_lookup_r _ _ _ _ _ Hr Ha) as (x & Hx & ->). by eapply list_elem_of_lookup_2.
  - intros Ha. apply list_elem_of_lookup in Ha as [i Ha]. destruct (Forall2_lookup_l _ _ _ _ _ Hr Ha) as (b & Hb & [= ->]). by eapply list_elem_of_lookup_2.
Qed.
Lemma into_fetchspec_ok s d spec : into_fetchspec s d = Done spec <-> exists a b, s = Done a /\ d = Done b /\ spec = MkRefspec a b ForceFalse.
Proof.
  unfold into_fetchspec. destruct s as [a|], d as [b|]; cbn; split; try done; try (by intros (? & ? & ? & ? & ?)); [intros [= <-]; eauto|].
  by intros (? & ? & [= <-] & [= <-] & ->).
Qed.
Lemma into_fetchspec_total s d : (exists a, s = Done a) -> (exists b, d = Done b) -> exists spec, into_fetchspec s d = Done spec.
Proof. intros [a ->] [b ->]. by eexists. Qed.

(** A name among the remote references of a namespace. *)
Definition in_remotes (n rm s : list N) : Prop := exists rest, s = str "refs/namespaces/" ++ n ++ str "/refs/remotes/" ++ rm ++ slash :: rest.

(** The peers and the namespaces a request is about. *)
Definition spec_peers {P R} (f : Fetchspecs P R) (remote_peer : P) : list P :=
  match f with PeekAll _ => [remote_peer] | Peek remotes _ => remotes | Replicate tracked _ _ => remote_peer :: map fst tracked end.
Definition spec_urns {P R} (f : Fetchspecs P R) (urn : UrnText.Urn R) : list (UrnText.Urn R) :=
  urn :: match f with Replicate _ delegates _ => delegates | _ => [] end.

Section Laws.
Context {P R MB MH IE : Type} `{EqDecision P} `{IntoRefLike P} `{HasProtocolLaws R MH IE} `{MultibaseLaws MB}.
#[local] Existing Instance namespace_into.
#[local] Existing Instance reflike_into.

(** How references of a namespace are written. *)
Definition own_name (n c nm : list N) : list N := str "refs/namespaces/" ++ n ++ str "/refs/" ++ c ++ slash :: nm.
Definition remote_name (n t c nm : list N) : list N := str "refs/namespaces/" ++ n ++ str "/refs/remotes/" ++ t ++ slash :: c ++ slash :: nm.
Definition placed_name (n : list N) (t : option (list N)) (c nm : list N) : list N :=
  match t with Some t => remote_name n t c nm | None => own_name n c nm end.

Definition texts (p : option P) (t : option (list N)) : Prop := option_Forall2 (fun p t => into_reflike p = Done t) p t.

Lemma reference_name (r : Reference (Namespace R) P) urn t c : namespace r = Some (namespace_from urn) -> texts (remote r) t ->
  category_reflike (category r) = Done c ->
  reference_reflike (Ns := Namespace R) r = Done (placed_name (urn_encode_id (MB := MB) urn) t c (onelevel_from (name r))) /\
  reference_pattern (Ns := Namespace R) r = Done (placed_name (urn_encode_id (MB := MB) urn) t c (name r)).
Proof.
  intros Hn Ht Hc. unfold reference_reflike, reference_pattern. rewrite Hn. change (into_reflike (namespace_from urn)) with (namespace_into (MB := MB) (namespace_from urn)).
  rewrite namespace_done, Hc. cbn [mbind outcome_bind]. destruct Ht as [p t Hp|]; [rewrite Hp|]; cbn [mbind outcome_bind]; split; f_equal;
    unfold placed_name, remote_name, own_name, with_pattern_suffix, reflike_join; by rewrite <- !app_assoc.
Qed.
Lemma remote_glob_name (r : Reference (Namespace R) (list N)) urn t c : namespace r = Some (namespace_from urn) -> remote r = Some t ->
  category_reflike (category r) = Done c -> remote_glob (MB := MB) r = Done (remote_name (urn_encode_id (MB := MB) urn) t c (name r)).
Proof.
  intros Hn Ht Hc. unfold remote_glob. rewrite Hn, Ht, namespace_done, Hc. cbn [mbind outcome_bind].
  unfold remote_name, pattern_append, with_pattern_suffix, reflike_join, default. f_equal. by rewrite <- !app_assoc.
Qed.
Lemma remote_name_in n t c nm : in_remotes n t (remote_name n t c nm).
Proof. by exists (c ++ slash :: nm). Qed.

(** What a refspec may be: without force, to the remote references of a namespace and a peer. *)
Definition spec_ok (urns : list (UrnText.Urn R)) (peers : list P) (s : Refspec) : Prop :=
  force s = ForceFalse /\ exists u p t, u ∈ urns /\ p ∈ peers /\ into_reflike p = Done t /\ in_remotes (urn_encode_id (MB := MB) u) t (dst s).
(** What the first request of a clone asks for of all peers: their [rad/id], [rad/self] and [rad/signed_refs], to where they are. *)
Definition all_peers_ok (urn : UrnText.Urn R) (s : Refspec) : Prop :=
  force s = ForceFalse /\ src s = dst s /\ exists nm, nm ∈ [str "id"; str "self"; str "signed_refs"] /\
    dst s = remote_name (urn_encode_id (MB := MB) urn) [star] (str "rad") nm.

(** A fetchspec for a peer, whichever its source. *)
Lemma peer_spec_ok (one : Reference (Namespace R) P -> outcome (list N)) (src dst : Reference (Namespace R) P) urns peers urn p t c :
  one = reference_reflike (Ns := Namespace R) \/ one = reference_pattern (Ns := Namespace R) ->
  urn ∈ urns -> p ∈ peers -> into_reflike p = Done t -> namespace src = Some (namespace_from urn) -> namespace dst = Some (namespace_from urn) ->
  (remote src = None \/ remote src = Some p) -> remote dst = Some p -> category_reflike (category src) = Done c -> category_reflike (category dst) = Done c ->
  exists s, into_fetchspec (one src) (one dst) = Done s /\ spec_ok urns peers s.
Proof.
  intros Hone Hu Hp Ht Hns Hnd Hrs Hrd Hcs Hcd.
  destruct (reference_name dst urn (Some t) c Hnd) as [Hd1 Hd2]; [rewrite Hrd; by constructor|done|].
  assert (exists t', texts (remote src) t') as [t' Ht'] by (destruct Hrs as [->| ->]; eexists; [constructor|by constructor]).
  destruct (reference_name src urn t' c Hns Ht' Hcs) as [Hs1 Hs2].
  destruct Hone as [-> | ->]; [rewrite Hs1, Hd1|rewrite Hs2, Hd2]; eexists; (split; [done|]); split; try done; exists urn, p, t; split_and!; try done; apply remote_name_in.
Qed.
Lemma collect_specs (Q : Refspec -> Prop) (l : list (outcome Refspec)) : Forall (fun x => exists s, x = Done s /\ Q s) l ->
  exists specs, collect_out l = Done specs /\ Forall Q specs.
Proof.
  intros Hl. destruct (collect_out_total l) as [specs Hs]; [eapply Forall_impl; [exact Hl|]; intros x (s & ? & _); eauto|].
  exists specs. split; [done|]. apply Forall_forall. intros s Hin. apply (collect_out_elem l specs s Hs) in Hin. rewrite Forall_forall in Hl.
  by destruct (Hl _ Hin) as (? & [= <-] & ?).
Qed.

Lemma is_remote_cases (rp rm : P) (r : Reference (Namespace R) P) : remote r = None -> remote (is_remote rp r rm) = None \/ remote (is_remote rp r rm) = Some rm.
Proof. intros Hr. unfold is_remote. destruct (decide (rp = rm)); auto. Qed.
Lemma is_remote_same (rp rm : P) (r : Reference (Namespace R) P) :
  namespace (is_remote rp r rm) = namespace r /\ category (is_remote rp r rm) = category r /\ name (is_remote rp r rm) = name r.
Proof. unfold is_remote. by destruct (decide (rp = rm)). Qed.
Lemma tracked_src_same (rp tp : P) (r : Reference (Namespace R) P) :
  namespace (tracked_src rp tp r) = namespace r /\ category (tracked_src rp tp r) = category r /\ name (tracked_src rp tp r) = name r.
Proof. unfold tracked_src. by destruct (decide (tp = rp)). Qed.

Lemma rad_reflike : category_reflike Rad = Done (str "rad").
Proof. reflexivity. Qed.
Lemma peek_ok urns peers urn rp remotes : urn ∈ urns -> (forall p, p ∈ remotes -> p ∈ peers /\ exists t, into_reflike p = Done t) ->
  exists specs, peek (MB := MB) urn rp remotes = Done specs /\ Forall (spec_ok urns peers) specs.
Proof.
  intros Hu Hp. unfold peek. apply collect_specs. apply Forall_flat_map, Forall_forall. intros rm Hrm. destruct (Hp rm Hrm) as [Hin [t Ht]].
  assert (forall (one : Reference (Namespace R) P -> outcome (list N)) (r r' : Reference (Namespace R) P),
    one = reference_reflike (Ns := Namespace R) \/ one = reference_pattern (Ns := Namespace R) ->
    namespace r = Some (namespace_from urn) -> category r = Rad -> namespace r' = namespace r -> category r' = category r -> remote r' = None \/ remote r' = Some rm ->
    exists s, into_fetchspec (one r') (one (with_remote (Some rm) r)) = Done s /\ spec_ok urns peers s) as Hone.
  { intros one r r' Hor Hn Hc Hn' Hc' Hr'. apply (peer_spec_ok one _ _ urns peers urn rm t (str "rad")); try done; cbn [with_remote namespace category remote];
      rewrite ?Hn', ?Hc', ?Hn, ?Hc; done. }
  assert (forall r : Reference (Namespace R) P, namespace r = Some (namespace_from urn) -> category r = Rad -> remote r = None ->
    exists s, into_fetchspec (reference_reflike (Ns := Namespace R) (is_remote rp r rm)) (reference_reflike (Ns := Namespace R) (with_remote (Some rm) r)) = Done s /\ spec_ok urns peers s) as Hrad.
  { intros r Hn Hc Hr. destruct (is_remote_same rp rm r) as (? & ? & _). apply Hone; try done; [by left|by apply is_remote_cases]. }
  apply Forall_cons; split; [by apply Hrad|]. apply Forall_cons; split; [by apply Hrad|]. apply Forall_cons; split; [by apply Hrad|].
  apply Forall_singleton, Hone; try done; [by right|by destruct (decide (rm = rp))..|destruct (decide (rm = rp)); [by left|by right]].
Qed.
Lemma all_ok urn : exists specs, all (MB := MB) urn = Done specs /\ Forall (all_peers_ok urn) specs.
Proof.
  unfold all. apply collect_specs. repeat (apply Forall_cons; split; [erewrite remote_glob_name by done; eexists; split; [done|]; split; [done|]; split; [done|]; eexists; split; [|done]; by repeat constructor|]).
  constructor.
Qed.
Lemma signed_refs_ok urns peers urn rp tracked : urn ∈ urns -> (forall p, p ∈ tracked -> p ∈ peers /\ exists t, into_reflike p = Done t) ->
  exists specs, spec_signed_refs (MB := MB) urn rp tracked = Done specs /\ Forall (spec_ok urns peers) specs.
Proof.
  intros Hu Hp. unfold spec_signed_refs. apply collect_specs. apply Forall_fmap, Forall_forall. intros p Hin. destruct (Hp p Hin) as [Hpe [t Ht]]. cbn beta.
  apply (peer_spec_ok (reference_reflike (Ns := Namespace R)) _ _ urns peers urn p t (str "rad")); try done; try (by left).
  all: unfold tracked_src; destruct (decide (p = rp)); by auto.
Qed.

(** *** Signed references *)
Lemma category_parse_reflike s c : category_parse s = Some c -> category_reflike c = Done (category_to_string c).
Proof.
  unfold category_parse, category_from_str. destruct (category_known s) as [k|] eqn:Hk; cbn.
  - intros [= <-]. apply category_known_spec in Hk as [_ Hu]. destruct k; try reflexivity. by destruct (Hu c).
  - destruct (reflike_try_from s) as [u|] eqn:Hs; cbn; [|done]. intros [= <-]. unfold category_reflike. cbn [category_to_string].
    apply reflike_try_from_ok in Hs as [-> Hs]. by rewrite (proj2 (reflike_try_from_ok s s) (conj eq_refl Hs)).
Qed.
Lemma iter_category refs e cat : (e, cat) ∈ iter_categorised refs -> category_reflike cat = Done (category_to_string cat).
Proof.
  unfold iter_categorised. intros Hin%list_elem_of_In. apply in_flat_map in Hin as ([k m] & _ & Hin). cbn [fst snd] in Hin.
  destruct (category_parse k) as [c|] eqn:Hk; [|done]. apply in_map_iff in Hin as (ro & [= _ <-] & _). by eapply category_parse_reflike.
Qed.

(** Where the remote has what a peer signed. *)
Definition at_remote (n : list N) (rp tp : P) (t c nm : list N) : list N := placed_name n (if decide (tp = rp) then None else Some t) c nm.

Lemma sigref_eq urn rp heads tp t nm tgt cat c : into_reflike tp = Done t -> category_reflike cat = Done c ->
  let n := urn_encode_id (MB := MB) urn in
  sigref (MB := MB) (namespace_from urn) rp heads tp ((nm, tgt), cat) =
  Done (if decide (map_get (at_remote n rp tp t c nm) heads = Some tgt)
        then Some (MkRefspec (at_remote n rp tp t c (onelevel_from nm)) (remote_name n t c (onelevel_from nm)) ForceFalse) else None).
Proof.
  intros Ht Hc n. unfold sigref.
  assert (namespaced (MB := MB) (namespace_from urn) rp tp nm cat = Done (at_remote n rp tp t c nm)) as ->.
  { unfold namespaced, at_remote. rewrite namespace_done, Hc. cbn [mbind outcome_bind]. destruct (decide (tp = rp)); [|rewrite Ht; cbn [mbind outcome_bind]]; f_equal;
      unfold placed_name, own_name, remote_name, into_qualified, reflike_join; by rewrite <- ?app_assoc. }
  cbn [mbind outcome_bind]. destruct (map_get (at_remote n rp tp t c nm) heads) as [rt|]; [|by rewrite decide_False].
  destruct (N.eqb_spec rt tgt) as [->|Hne]; [|by rewrite decide_False by congruence]. rewrite decide_True by done.
  destruct (reference_name (MkReference (Some tp) cat nm (Some (namespace_from urn))) urn (Some t) c) as [-> _]; [done|by constructor|done|].
  destruct (reference_name (tracked_src rp tp (MkReference (Some tp) cat nm (Some (namespace_from urn)))) urn (if decide (tp = rp) then None else Some t) c) as [-> _].
  - apply tracked_src_same.
  - unfold tracked_src. destruct (decide (tp = rp)); constructor. done.
  - by rewrite (proj1 (proj2 (tracked_src_same _ _ _))).
  - rewrite (proj2 (proj2 (tracked_src_same _ _ _))). done.
Qed.

Lemma sigrefs_spec urn rp heads tp t refs : into_reflike tp = Done t -> let n := urn_encode_id (MB := MB) urn in exists specs,
  sigrefs (MB := MB) (namespace_from urn) rp heads tp refs = Done specs /\
  forall s, s ∈ specs <-> exists nm tgt cat, ((nm, tgt), cat) ∈ iter_categorised refs /\
    map_get (at_remote n rp tp t (category_to_string cat) nm) heads = Some tgt /\
    s = MkRefspec (at_remote n rp tp t (category_to_string cat) (onelevel_from nm)) (remote_name n t (category_to_string cat) (onelevel_from nm)) ForceFalse.
Proof.
  intros Ht n. unfold sigrefs. destruct (collect_out_total (map (sigref (MB := MB) (namespace_from urn) rp heads tp) (iter_categorised refs))) as [l Hl].
  { apply Forall_fmap, Forall_forall. intros [[nm tgt] cat] Hin. unfold compose. rewrite (sigref_eq urn rp heads tp t nm tgt cat _ Ht (iter_category _ _ _ Hin)). eauto. }
  rewrite Hl. cbn [mbind outcome_bind]. eexists. split; [done|]. intros s. rewrite list_elem_of_omap. setoid_rewrite (collect_out_elem _ _ _ Hl). split.
  - intros (x & Hx & ->). apply list_elem_of_fmap in Hx as ([[nm tgt] cat] & Hs & Hin).
    rewrite (sigref_eq urn rp heads tp t nm tgt cat _ Ht (iter_category _ _ _ Hin)) in Hs. destruct (decide _) as [Hm|]; [|done]. injection Hs as ->. eauto 10.
  - intros (nm & tgt & cat & Hin & Hm & ->). eexists. split; [|done]. apply list_elem_of_fmap. exists ((nm, tgt), cat). split; [|done].
    rewrite (sigref_eq urn rp heads tp t nm tgt cat _ Ht (iter_category _ _ _ Hin)). by rewrite decide_True.
Qed.

(** [sigrefs_exact]: of what a tracked peer signed, exactly that is requested which the remote advertises with the target that was signed, at
    the place it is advertised at, and it goes to the remote references of the signer.  The names are not under another [refs/]. *)
Theorem sigrefs_exact urn rp heads tp t refs : into_reflike tp = Done t ->
  Forall (fun e => starts_with REFS_SLASH e.1.1 = false) (iter_categorised refs) -> let n := urn_encode_id (MB := MB) urn in exists specs,
  sigrefs (MB := MB) (namespace_from urn) rp heads tp refs = Done specs /\
  forall s, s ∈ specs <-> exists nm tgt cat, ((nm, tgt), cat) ∈ iter_categorised refs /\ map_get (src s) heads = Some tgt /\
    s = MkRefspec (at_remote n rp tp t (category_to_string cat) nm) (remote_name n t (category_to_string cat) nm) ForceFalse.
Proof.
  intros Ht Hp n. destruct (sigrefs_spec urn rp heads tp t refs Ht) as (specs & Hs & Hspec). exists specs. split; [done|]. intros s. rewrite Hspec.
  rewrite Forall_forall in Hp. assert (forall e, e ∈ iter_categorised refs -> onelevel_from e.1.1 = e.1.1) as Ho.
  { intros e He. unfold onelevel_from. by rewrite (Hp e He). }
  split; intros (nm & tgt & cat & Hin & Hm & ->); exists nm, tgt, cat; pose proof (Ho _ Hin) as Hnm; cbn [fst] in Hnm; rewrite Hnm in *; done.
Qed.

Lemma sigrefs_ok urns peers urn rp heads tp refs : urn ∈ urns -> tp ∈ peers -> (exists t, into_reflike tp = Done t) -> exists specs,
  sigrefs (MB := MB) (namespace_from urn) rp heads tp refs = Done specs /\ Forall (spec_ok urns peers) specs.
Proof.
  intros Hu Hp [t Ht]. destruct (sigrefs_spec urn rp heads tp t refs Ht) as (specs & Hs & Hspec). exists specs. split; [done|]. apply Forall_forall.
  intros s (nm & tgt & cat & _ & _ & ->)%Hspec. split; [done|]. exists urn, tp, t. split_and!; try done. apply remote_name_in.
Qed.
Lemma collect_concat {A} (Q : A -> Prop) (l : list (outcome (list A))) : Forall (fun x => exists s, x = Done s /\ Forall Q s) l ->
  exists ss, collect_out l = Done ss /\ Forall Q (concat ss).
Proof.
  intros Hl. induction Hl as [|x l (s & -> & Hs) _ (ss & Hss & HQ)]; [by eexists|]. cbn. rewrite Hss. eexists. split; [done|]. cbn. by apply Forall_app.
Qed.

Lemma refspecs_ok (f : Fetchspecs P R) urn rp heads : (forall p, p ∈ spec_peers f rp -> exists t, into_reflike p = Done t) ->
  exists specs, refspecs (MB := MB) f urn rp heads = Done specs /\
    Forall (fun s => spec_ok (spec_urns f urn) (spec_peers f rp) s \/ (exists l, f = PeekAll l) /\ all_peers_ok urn s) specs.
Proof.
  intros Hp. assert (forall urns peers (P : Prop) specs, Forall (spec_ok urns peers) specs -> Forall (fun s => spec_ok urns peers s \/ P /\ all_peers_ok urn s) specs) as Hl.
  { intros urns peers Q specs Hs. eapply Forall_impl; [exact Hs|]. auto. }
  destruct f as [l|remotes l|tracked delegates l]; cbn [refspecs spec_urns spec_peers] in *.
  - destruct (all_ok urn) as (a & -> & Ha). destruct (peek_ok [urn] [rp] urn rp [rp]) as (b & -> & Hb); [by left|by auto|].
    cbn. eexists. split; [done|]. apply Forall_app. split; [|by apply Hl]. eapply Forall_impl; [exact Ha|]. intros s Hs. right. split; [by exists l|done].
  - destruct (peek_ok [urn] remotes urn rp remotes) as (b & -> & Hb); [by left|by auto|]. eexists. split; [done|]. by apply Hl.
  - unfold replicate. set (urns := urn :: delegates). set (peers := rp :: map fst tracked).
    assert (forall tr, tr ∈ tracked -> tr.1 ∈ map fst tracked) as Htr by (intros tr Ht; apply list_elem_of_fmap; by exists tr).
    destruct (collect_concat (spec_ok urns peers) (map (fun tr => sigrefs (MB := MB) (namespace_from urn) rp heads tr.1 tr.2) tracked)) as (a & -> & Ha).
    { apply Forall_fmap, Forall_forall. intros tr Ht. apply sigrefs_ok; [by left|by right; apply Htr|apply Hp; right; by apply Htr]. }
    assert (forall u, u ∈ urns -> exists b, peek (MB := MB) u rp [rp] = Done b /\ Forall (spec_ok urns peers) b) as Hpeek.
    { intros u Hu. apply peek_ok; [done|]. intros p ->%list_elem_of_singleton. split; [by left|apply Hp; by left]. }
    destruct (Hpeek urn) as (b & -> & Hb); [by left|]. cbn [mbind outcome_bind].
    match goal with |- context [collect_out (map ?g delegates)] => destruct (collect_concat (spec_ok urns peers) (map g delegates)) as (c & -> & Hc) end.
    { apply Forall_fmap, Forall_forall. intros u Hu. unfold compose. destruct (Hpeek u) as (d & -> & Hd); [by right|].
      destruct (signed_refs_ok urns peers u rp (map fst tracked)) as (e & -> & He); [by right|intros p Hin; split; [by right|apply Hp; by right]|].
      cbn. eexists. split; [done|]. by apply Forall_app. }
    cbn. eexists. split; [done|]. apply Hl. by rewrite !Forall_app.
Qed.
(** C3 [fetch_remote_only]: the refspecs of any request are computed without panic, none is forced, and each goes to the remote references of a peer
    the request is about, in the namespace of the URN or of a delegate; only the first request of a clone also asks for references
    of all peers, and of these for nothing but [rad/id], [rad/self] and [rad/signed_refs], each to where it is: what is fetched never
    overwrites references of one's own. *)
Theorem fetch_remote_only (f : Fetchspecs P R) urn rp heads : (forall p, p ∈ spec_peers f rp -> exists t, into_reflike p = Done t) ->
  exists specs, refspecs (MB := MB) f urn rp heads = Done specs /\
    Forall (fun s => spec_ok (spec_urns f urn) (spec_peers f rp) s \/ (exists l, f = PeekAll l) /\ all_peers_ok urn s) specs.
Proof. apply refspecs_ok. Qed.
End Laws.

Module FetchspecsWitness.
Import ZBase32 UrnWitness.
#[local] Existing Instance byte_ids.
#[local] Existing Instance byte_ids_laws.
#[local] Instance peer_eq : EqDecision PeerId.
Proof. solve_decision. Defined.
#[local] Instance peer_text : IntoRefLike PeerId := peer_into (MB := unit).

Definition remote_peer : PeerId := MkPeerId (List.repeat 7 32).
Definition tracked_peer : PeerId := MkPeerId (List.repeat 9 32).
Definition project : UrnText.Urn Byte.byte := MkUrn Byte.x2a None.
Definition id : list N := urn_encode_id (MB := unit) project.
Definition tracked_text : list N := peer_default_encoding (MB := unit) (peer_key tracked_peer).
Definition signed : Refs := MkRefs [(str "heads", [(str "main", 1); (str "next", 2)])] remotes_new.
(** The remote has another target for [next]. *)
Definition heads : RemoteHeads := [(remote_name id tracked_text (str "heads") (str "main"), 1); (remote_name id tracked_text (str "heads") (str "next"), 3)].

Lemma tracked_done : into_reflike tracked_peer = Done tracked_text.
Proof. vm_compute. reflexivity. Qed.
Lemma signed_plain : Forall (fun e => starts_with REFS_SLASH e.1.1 = false) (iter_categorised signed).
Proof. apply (bool_decide_unpack _). vm_compute. reflexivity. Qed.
Lemma sigrefs_exact_witness : exists specs, sigrefs (MB := unit) (namespace_from project) remote_peer heads tracked_peer signed = Done specs /\
  MkRefspec (remote_name id tracked_text (str "heads") (str "main")) (remote_name id tracked_text (str "heads") (str "main")) ForceFalse ∈ specs.
Proof.
  destruct (sigrefs_exact (MB := unit) project remote_peer heads tracked_peer tracked_text signed tracked_done signed_plain) as (specs & Hs & Hspec).
  exists specs. split; [exact Hs|]. apply Hspec. exists (str "main"), 1, Heads. split; [left|]. split; [vm_compute; reflexivity|]. vm_compute. reflexivity.
Defined.
Example next_not_fetched : sigrefs (MB := unit) (namespace_from project) remote_peer heads tracked_peer signed =
  Done [MkRefspec (remote_name id tracked_text (str "heads") (str "main")) (remote_name id tracked_text (str "heads") (str "main")) ForceFalse].
Proof. vm_compute. reflexivity. Qed.
Lemma fetch_remote_only_witness : exists specs,
  refspecs (MB := unit) (Replicate [(tracked_peer, signed)] [project] limit_default) project remote_peer heads = Done specs /\
  Forall (fun s => spec_ok (MB := unit) [project; project] [remote_peer; tracked_peer] s \/
    (exists l, Replicate [(tracked_peer, signed)] [project] limit_default = PeekAll l) /\ all_peers_ok (MB := unit) project s) specs.
Proof.
  apply (fetch_remote_only (MB := unit) (Replicate [(tracked_peer, signed)] [project] limit_default)).
  intros p Hp. cbn [spec_peers map fst] in Hp. apply elem_of_cons in Hp as [->|Hp]; [eexists; vm_compute; reflexivity|].
  apply list_elem_of_singleton in Hp as ->. eexists. vm_compute. reflexivity.
Defined.

(** A name with [refs/] in it loses two components when it is read and two more when the refspec is written: what is fetched is not
    what was compared with the signed target. *)
Example unchecked_source :
  sigrefs (MB := unit) (namespace_from project) tracked_peer
    [(own_name id (str "heads") (str "refs/b/main"), 1); (own_name id (str "heads") (str "main"), 666)] tracked_peer
    (MkRefs [(str "heads", [(str "refs/a/refs/b/main", 1)])] remotes_new) =
  Done [MkRefspec (own_name id (str "heads") (str "main")) (remote_name id tracked_text (str "heads") (str "main")) ForceFalse].
Proof. vm_compute. reflexivity. Qed.
End FetchspecsWitness.
