(* ===== verification/StorageRead.v ===== *)
(** * Reading the storage

    [librad/src/git/storage/read.rs] and [git-ext/src/blob.rs]: what is read of the repository all peers' data is in,
    and what is absent as opposed to an error.  libgit2 is the interface [Git2Repo]. *)
From stdpp Require Import base list sets.
From Stdlib Require Import NArith Lia.
From Stdlib Require String.
Import String.StringSyntax.
From S2P Require Import Prelude Effects RefFormat RefName.
Import Name.
From S2P Require Import Scoped Utf8 RefLike Keys UrnText LibradRef CanonicalJson RemotesGraph SignedRefs.
#[local] Open Scope N_scope.

(** ** Interfaces *)

Inductive ObjectType := OCommit | OTree | OBlob | OTag.
#[export] Instance object_type_eq : EqDecision ObjectType.
Proof. solve_decision. Defined.

(** Where a walk along first parents starts. *)
Inductive WalkStart := StartOid (o : N) | StartRef (n : list N).

(** What is used of [git2::Repository]; a reference is its name. *)
Class Git2Repo (W GE : Type) := {
  is_not_found_err : GE -> bool;
  g_find_reference : W -> list N -> result GE unit;
  g_target : W -> list N -> option N;
  g_symbolic_target : W -> list N -> option (list N);
  g_peel : W -> list N -> ObjectType -> result GE N;
  g_refname_to_id : W -> list N -> result GE N;
  g_find_object : W -> N -> result GE (option ObjectType);
  g_object_tree : W -> N -> result GE N;
  g_odb : W -> result GE (N -> bool);
  g_descendant_of : W -> N -> N -> result GE bool;
  g_references : W -> result GE (list (result GE GitRef));
  g_reference_names : W -> result GE (list (result GE (list N)));
  g_find_remote : W -> list N -> result GE unit;
  g_get_path : W -> N -> list N -> result GE N;
  g_peel_to_blob : W -> N -> result GE (list N);
  g_commit_tree : W -> N -> result GE N;
  g_first_parent_reverse : W -> WalkStart -> result GE (list (result GE N));
}.

(** ** Errors *)

Inductive NotFound := NoSuchBlob (path : list N) | NoSuchBranch (name : list N) | NoSuchObject (o : N) | NoRefTarget.
Inductive BlobError (GE : Type) : Type := BlobNotFound (e : NotFound) | BlobGit (e : GE).
Arguments BlobNotFound {GE} e. Arguments BlobGit {GE} e.
Inductive ReadError (MB GE : Type) : Type := ReadRef (e : FromUrnError MB) | ReadBlob (e : BlobError GE) | ReadGit (e : GE).
Arguments ReadRef {MB GE} e. Arguments ReadBlob {MB GE} e. Arguments ReadGit {MB GE} e.

(** ** Blobs *)

Inductive Branch := BranchName (n : list N) | BranchRef (n : list N).
Inductive Blob := BlobTip (branch : Branch) (path : list N) | BlobInit (branch : Branch) (path : list N) | BlobAt (object : N) (path : list N).

Section Blob.
Context {W GE : Type} `{Git2Repo W GE} (w : W).

(** [or_matches(is_not_found_err, || Err(..))] *)
Definition or_missing {A} (x : result GE A) (e : NotFound) : result (BlobError GE) A :=
  match x with Ok a => Ok a | Err g => Err (if is_not_found_err g then BlobNotFound e else BlobGit g) end.

Definition blob_in (tree : N) (path : list N) : result (BlobError GE) (list N) :=
  entry ← or_missing (g_get_path w tree path) (NoSuchBlob path);
  map_err BlobGit (g_peel_to_blob w entry).
Definition blob_start (branch : Branch) : result (BlobError GE) WalkStart :=
  match branch with
  | BranchName name => Ok (StartRef name)
  | BranchRef r =>
      match g_target w r, g_symbolic_target w r with
      | Some oid, _ => Ok (StartOid oid)
      | _, Some sym => Ok (StartRef sym)
      | _, _ => Err (BlobNotFound NoRefTarget)
      end
  end.
(** [Blob::get] *)
Definition blob_get (b : Blob) : result (BlobError GE) (list N) :=
  match b with
  | BlobTip branch path =>
      r ← (match branch with
           | BranchName name => _ ← or_missing (g_find_reference w name) (NoSuchBranch name); Ok name
           | BranchRef r => Ok r
           end);
      tree ← map_err BlobGit (g_peel w r OTree);
      blob_in tree path
  | BlobInit branch path =>
      start ← blob_start branch;
      walk ← map_err BlobGit (g_first_parent_reverse w start);
      match walk with
      | [] => Err (BlobNotFound (NoSuchBlob path))
      | oid :: _ =>
          oid ← map_err BlobGit oid;
          tree ← map_err BlobGit (g_commit_tree w oid);
          blob_in tree path
      end
  | BlobAt object path =>
      _ ← or_missing (g_find_object w object) (NoSuchObject object);
      tree ← map_err BlobGit (g_object_tree w object);
      blob_in tree path
  end.
End Blob.

(** ** The storage *)
Section Read.
Context {W GE R MB MH IE : Type} `{Git2Repo W GE} `{HasProtocol R MH IE} `{Multibase MB} `{Globset}.
#[local] Existing Instance namespace_into.
#[local] Existing Instance peer_into.
Let M := eff (ReadError MB GE).
Let res := result (ReadError MB GE).

(** [or_matches(is_not_found_err, || Ok(None))] *)
Definition or_none {A} (x : result GE A) : res (option A) :=
  match x with Ok a => Ok (Some a) | Err e => if is_not_found_err e then Ok None else Err (ReadGit e) end.

(** [Reference::try_from(urn)] and its name. *)
Definition urn_reference_name (urn : UrnText.Urn R) : M (list N) :=
  r ← of_out (reference_from_urn (MB := MB) urn);
  r ← of_res (map_err ReadRef r);
  of_out (reference_reflike (Ns := Namespace R) (Rm := PeerId) r).

Definition has_ref (w : W) (name : list N) : res bool :=
  match g_find_reference w name with Ok _ => Ok true | Err e => if is_not_found_err e then Ok false else Err (ReadGit e) end.
Definition has_urn (w : W) (urn : UrnText.Urn R) : M bool :=
  name ← urn_reference_name urn; of_res (has_ref w name).

Definition find_object (w : W) (oid : N) : res (option (option ObjectType)) :=
  if oid =? 0 then Ok None else or_none (g_find_object w oid).
Definition has_object (w : W) (oid : N) : res bool :=
  if oid =? 0 then Ok false else exists_ ← map_err ReadGit (g_odb w); Ok (exists_ oid).
Definition tip (w : W) (urn : UrnText.Urn R) (kind : ObjectType) : M (option N) :=
  name ← urn_reference_name urn;
  r ← of_res (or_none (g_find_reference w name));
  match r with
  | None => EOk None
  | Some _ => Some <$> of_res_with ReadGit (g_peel w name kind)
  end.
Definition has_commit (w : W) (urn : UrnText.Urn R) (oid : N) : M bool :=
  obj ← of_res (find_object w oid);
  match obj with
  | Some (Some OCommit) =>
      tip ← tip w urn OCommit;
      match tip with
      | None => EOk false
      | Some tip => if tip =? oid then EOk true else of_res_with ReadGit (g_descendant_of w tip oid)
      end
  | _ => EOk false
  end.
Definition has_tag (w : W) (urn : UrnText.Urn R) (oid : N) : M bool :=
  obj ← of_res (find_object w oid);
  match obj with
  | Some (Some OTag) =>
      tip ← tip w urn OTag;
      EOk (match tip with Some tip => tip =? oid | None => false end)
  | _ => EOk false
  end.

Definition reference (w : W) (name : list N) : res (option (list N)) :=
  r ← or_none (g_find_reference w name); Ok ((fun _ => name) <$> r).
Definition reference_names_glob (w : W) (glob : list N) : res (list (res (list N))) :=
  names ← map_err ReadGit (g_reference_names w);
  Ok (omap (M := list) (fun n : result GE (list N) =>
    match n with
    | Err e => Some (Err (ReadGit e))
    | Ok name => match reflike_try_from name with Ok refl => if glob_matches glob refl then Some (Ok refl) else None | Err _ => None end
    end) names).
Definition read_references_glob (w : W) (glob : list N) : res (list (res GitRef)) :=
  refs ← map_err ReadGit (g_references w);
  Ok (references_glob glob (map (map_err ReadGit) refs)).
(** With [RefspecMatcher::from], the pattern is the glob. *)
Definition references (w : W) (r : Reference (Namespace R) PeerId) : M (list (res GitRef)) :=
  pat ← of_out (reference_pattern (Ns := Namespace R) (Rm := PeerId) r); of_res (read_references_glob w pat).
Definition reference_names (w : W) (r : Reference (Namespace R) PeerId) : M (list (res (list N))) :=
  pat ← of_out (reference_pattern (Ns := Namespace R) (Rm := PeerId) r); of_res (reference_names_glob w pat).
Definition storage_reference_oid (w : W) (name : list N) : res N := map_err ReadGit (g_refname_to_id w name).

Definition or_no_blob {A} (x : result (BlobError GE) A) : res (option A) :=
  match x with Ok a => Ok (Some a) | Err (BlobNotFound _) => Ok None | Err e => Err (ReadBlob e) end.
Definition blob (w : W) (name path : list N) : res (option (list N)) := or_no_blob (blob_get w (BlobTip (BranchName name) path)).
Definition blob_at (w : W) (oid : N) (path : list N) : res (option (list N)) := or_no_blob (blob_get w (BlobAt oid path)).
Definition has_remote (w : W) (urn : UrnText.Urn R) (peer : list N) : res bool :=
  let name := urn_encode_id (MB := MB) urn ++ slash :: peer_default_encoding (MB := MB) peer in
  match g_find_remote w name with Ok _ => Ok true | Err e => if is_not_found_err e then Ok false else Err (ReadGit e) end.

(** The storage as signed references see it, for a peer and what is tracked. *)
Definition read_storage (peer : list N) (tracked : W -> R -> res (list (res (list N)))) : RefsStorage W R (ReadError MB GE) := {|
  st_peer_id _ := peer;
  st_references w := map (map_err ReadGit) <$> map_err ReadGit (g_references w);
  st_reference_oid := storage_reference_oid;
  is_not_found e := match e with ReadGit e => is_not_found_err e | _ => false end;
  st_blob_at := blob_at;
  tracked_peers := tracked;
|}.
End Read.

(** ** Properties *)
Section Properties.
Context {W GE R MB MH IE : Type} `{Git2Repo W GE} `{HasProtocol R MH IE} `{Multibase MB}.

Lemma or_none_ok {A} (x : result GE A) r : or_none (MB := MB) x = Ok r <->
  match r with Some a => x = Ok a | None => exists e, x = Err e /\ is_not_found_err e = true end.
Proof.
  unfold or_none. destruct x as [a|e]; [split; [intros [= <-]; done|destruct r; [by intros [= ->]|by intros (? & ? & _)]]|].
  destruct (is_not_found_err e) eqn:He; split; [intros [= <-]; eauto|destruct r; [done|done]|done|destruct r; [done|intros (? & [= <-] & ?); congruence]].
Qed.

(** [has_commit_exact]: a commit is in the history of a URN exactly when it is a commit other than the zero id, the reference of the URN exists and
    can be peeled to a commit, and that is the commit or a descendant of it. *)
Theorem has_commit_exact (w : W) (urn : UrnText.Urn R) oid : has_commit (MB := MB) w urn oid = EOk true <->
  oid <> 0 /\ g_find_object w oid = Ok (Some OCommit) /\ exists name t, urn_reference_name (MB := MB) (GE := GE) urn = EOk name /\ g_find_reference w name = Ok tt /\
  g_peel w name OCommit = Ok t /\ (t = oid \/ g_descendant_of w t oid = Ok true).
Proof.
  unfold has_commit. rewrite eff_bind_ok. setoid_rewrite of_res_ok. unfold find_object. split.
  - intros (obj & Ho & Hk). destruct (N.eqb_spec oid 0) as [|Hz]; [by simplify_eq|]. apply or_none_ok in Ho. destruct obj as [[[]|]|]; try done.
    split_and!; [done..|]. apply eff_bind_ok in Hk as (t & Ht & Hk). unfold tip in Ht. apply eff_bind_ok in Ht as (name & Hn & Ht).
    apply eff_bind_ok in Ht as (r & Hr%of_res_ok%or_none_ok & Ht). destruct r as [[]|]; [|by simplify_eq].
    destruct (g_peel w name OCommit) as [t'|] eqn:Hp; cbn in Ht; [|done]. injection Ht as <-. exists name, t'. split_and!; try done.
    destruct (N.eqb_spec t' oid); [by left|]. apply of_res_with_ok in Hk. by right.
  - intros (Hz & Ho & name & t & Hn & Hr & Hp & Hd). exists (Some (Some OCommit)). apply N.eqb_neq in Hz. rewrite Hz. split; [by apply or_none_ok|].
    apply eff_bind_ok. exists (Some t). split.
    + unfold tip. apply eff_bind_ok. exists name. split; [done|]. apply eff_bind_ok. exists (Some tt). split; [by apply of_res_ok, or_none_ok|]. by rewrite Hp.
    + destruct (N.eqb_spec t oid); [done|]. apply of_res_with_ok. by destruct Hd.
Qed.
End Properties.
