(* ===== verification/IdentityStore.v ===== *)
(** * Identities in the storage

    [librad/src/git/identities/common.rs], [any.rs], [person.rs], [project.rs], [local.rs] and [relations.rs]: identities
    found through the references of URNs, and the references that are written when they are created, updated or
    merged.  Reading, verifying and committing identities is the interface [LinkIdentities], which stands for
    [link-identities/src/git.rs]; of an identity document only what is used here is kept. *)
From stdpp Require Import base list sets.
From Stdlib Require Import NArith Lia.
From Stdlib Require String.
Import String.StringSyntax.
From S2P Require Import Prelude Effects RefFormat RefName.
Import Name.
From S2P Require Import Scoped Utf8 RefLike Keys UrnText LibradRef CanonicalJson RemotesGraph SignedRefs StorageRead.
#[local] Open Scope N_scope.

(** ** Data *)

(** Peers are the bytes of their keys; a URN without path is its identifier. *)
Abbreviation Key := (list N) (only parsing).
Record Person (R : Type) : Type := MkPerson { pe_root : R; pe_content_id : N; pe_delegations : list Key; pe_signers : list Key }.
Arguments MkPerson {R} pe_root pe_content_id pe_delegations pe_signers.
Arguments pe_root {R} p. Arguments pe_content_id {R} p. Arguments pe_delegations {R} p. Arguments pe_signers {R} p.
Record Project (R : Type) : Type := MkProject { pj_root : R; pj_content_id : N; pj_delegations : list (Key + Person R) }.
Arguments MkProject {R} pj_root pj_content_id pj_delegations.
Arguments pj_root {R} p. Arguments pj_content_id {R} p. Arguments pj_delegations {R} p.
Inductive SomeIdentity (R : Type) : Type := IsPerson (p : Person R) | IsProject (p : Project R) | IsOther (root : R).
Arguments IsPerson {R} p. Arguments IsProject {R} p. Arguments IsOther {R} root.

Definition person_urn {R} (p : Person R) : UrnText.Urn R := urn_new (pe_root p).
Definition project_urn {R} (p : Project R) : UrnText.Urn R := urn_new (pj_root p).
Definition some_urn {R} (i : SomeIdentity R) : UrnText.Urn R :=
  match i with IsPerson p => person_urn p | IsProject p => project_urn p | IsOther r => urn_new r end.

(** The indirect delegations, [delegations().iter().filter_map(Either::right)]. *)
Definition indirect {R} (p : Project R) : list (Person R) :=
  omap (M := list) (fun d : Key + Person R => match d with inr person => Some person | inl _ => None end) (pj_delegations p).
Definition direct {R} (p : Project R) : list Key :=
  omap (M := list) (fun d : Key + Person R => match d with inl k => Some k | inr _ => None end) (pj_delegations p).

(** ** Interfaces *)

(** [Identities] of link-identities, for persons and projects. *)
Class LinkIdentities (W R LE PP JP : Type) := {
  li_person : W -> N -> result LE (Person R);
  li_project : W -> N -> result LE (Project R);
  li_some_identity : W -> N -> result LE (SomeIdentity R);
  li_verify_person : W -> N -> result LE (Person R);
  li_verify_project : forall F : Type, W -> (UrnText.Urn R -> eff F N) -> N -> eff LE (Project R);
  li_newer_person : W -> Person R -> Person R -> result LE (Person R);
  li_newer_project : W -> Project R -> Project R -> result LE (Project R);
  li_signed_person : Person R -> result LE (Person R);
  li_signed_project : Project R -> result LE (Project R);
  li_base_person : PP -> list Key -> st W LE R;
  li_base_project : JP -> list (Key + Person R) -> st W LE R;
  li_create_person : PP -> list Key -> st W LE (Person R);
  li_create_project : JP -> list (Key + Person R) -> st W LE (Project R);
  li_update_person : Person R -> option PP -> option (list Key) -> st W LE (Person R);
  li_update_project : Project R -> option JP -> option (list (Key + Person R)) -> st W LE (Project R);
  li_update_from_person : Person R -> Person R -> st W LE (Person R);
  li_update_from_project : Project R -> Project R -> st W LE (Project R);
}.
(** [is_exists_err] *)
Class GitExists (GE : Type) := is_exists_err : GE -> bool.

(** ** Errors *)
Inductive ValidationError := LocalSignature | LocalDelegation.
Inductive IdError (R MB D LE GE SGE : Type) : Type :=
| NotFoundUrn (urn : UrnText.Urn R) | RefFromUrn (e : FromUrnError MB) | UrnFromRef (e : FromRefLike D) | Sigrefs (e : SGE)
| LocalId (e : ValidationError) | Verification (e : LE) | Verify (e : LE) | Merge (e : LE) | Load (e : LE) | StoreId (e : LE)
| PersHist (e : LE) | ProjHist (e : LE) | Storage (e : ReadError MB GE) | GitErr (e : GE).
Arguments NotFoundUrn {R MB D LE GE SGE} urn. Arguments RefFromUrn {R MB D LE GE SGE} e. Arguments UrnFromRef {R MB D LE GE SGE} e.
Arguments Sigrefs {R MB D LE GE SGE} e. Arguments LocalId {R MB D LE GE SGE} e. Arguments Verification {R MB D LE GE SGE} e.
Arguments Verify {R MB D LE GE SGE} e. Arguments Merge {R MB D LE GE SGE} e. Arguments Load {R MB D LE GE SGE} e.
Arguments StoreId {R MB D LE GE SGE} e. Arguments PersHist {R MB D LE GE SGE} e. Arguments ProjHist {R MB D LE GE SGE} e.
 Arguments Storage {R MB D LE GE SGE} e. Arguments GitErr {R MB D LE GE SGE} e.

(** A state computation with another error. *)
Definition st_map_err {W E F A} (f : E -> F) (m : st W E A) : st W F A := fun w => let '(x, w) := m w in (eff_map_err f x, w).
(** [or_matches(p, || Ok(()))] *)
Definition st_or_matches {W E} (p : E -> bool) (m : st W E unit) : st W E unit := fun w =>
  let '(x, w) := m w in (match x with EErr e => if p e then EOk tt else EErr e | x => x end, w).
(** A loop. *)
Fixpoint st_for {W E A} (f : A -> st W E unit) (l : list A) : st W E unit :=
  match l with [] => mret tt | a :: l => _ ← f a; st_for f l end.

Section Identities.
Context {W GE R MB MH IE LE PP JP SGE : Type} `{Git2Repo W GE} `{GitRefs W GE} `{GitExists GE} `{HasProtocol R MH IE} `{Multibase MB} `{Globset}.
Context `{LinkIdentities W R LE PP JP}.
(** The peer of the storage, the conversion of git errors, and [Refs::update]. *)
Context (local_peer : Key) (store_git : GE -> LE) (sigrefs_update : UrnText.Urn R -> st W SGE unit).
#[local] Existing Instance namespace_into.
#[local] Existing Instance peer_into.
Let Ref := Reference (Namespace R) PeerId.
Let EE := IdError R MB (DecodeId MB MH IE) LE GE SGE.
Let M := eff EE.
Let S := st W EE.

(** ** [rad/id] *)

Definition id_ref (urn : UrnText.Urn R) : Ref := rad_id (Some (namespace_from urn)).
Definition idref_oid (w : W) (urn : UrnText.Urn R) : eff (ReadError MB GE) N :=
  n ← of_out (reference_reflike (id_ref urn)); of_res (storage_reference_oid w n).
Definition idref_create (urn : UrnText.Urn R) (target : N) : st W GE unit :=
  st_or_matches is_exists_err (reference_write (id_ref urn) target ForceFalse).
Definition idref_update (urn : UrnText.Urn R) (target : N) : st W GE unit := reference_write (id_ref urn) target ForceTrue.

(** ** Reading *)

(** The commit the reference of a URN points to is read; nothing when there is no such reference. *)
Definition resolve {A} (w : W) (urn : UrnText.Urn R) (f : N -> M A) : M (option A) :=
  r ← of_out (reference_from_urn (MB := MB) urn);
  branch ← of_res (map_err RefFromUrn r);
  name ← of_out (reference_reflike (Ns := Namespace R) (Rm := PeerId) branch);
  match reference (MB := MB) w name with
  | Ok (Some r) => tip ← of_res_with GitErr (g_peel w r OCommit); Some <$> f tip
  | Ok None => EOk None
  | Err (ReadGit e) => if is_not_found_err e then EOk None else EErr (Storage (ReadGit e))
  | Err e => EErr (Storage e)
  end.

Definition any_get (w : W) (urn : UrnText.Urn R) : M (option (SomeIdentity R)) :=
  resolve w urn (fun tip => of_res_with Load (li_some_identity w tip)).
Definition list_urns (w : W) : M (list (M (UrnText.Urn R))) :=
  names ← of_res_with Storage (reference_names_glob (MB := MB) w (str "refs/namespaces/*/refs/rad/id"));
  EOk (map (fun n => name ← of_res_with Storage n; urn ← of_res_with UrnFromRef (urn_from_reflike name); EOk (with_path None urn)) names).
Definition any_list (w : W) : M (list (M (SomeIdentity R))) :=
  urns ← list_urns w;
  EOk (omap (M := list) (fun u : M (UrnText.Urn R) =>
    match u with
    | EOk urn => match any_get w urn with EOk None => None | EOk (Some i) => Some (EOk i) | EErr e => Some (EErr e) | EPanic => Some EPanic end
    | EErr e => Some (EErr e)
    | EPanic => Some EPanic
    end) urns).

Definition person_get (w : W) (urn : UrnText.Urn R) : M (option (Person R)) :=
  resolve w urn (fun tip => of_res_with Load (li_person w tip)).
Definition person_verify (w : W) (urn : UrnText.Urn R) : M (option (Person R)) :=
  resolve w urn (fun tip => of_res_with Verify (li_verify_person w tip)).
Definition project_get (w : W) (urn : UrnText.Urn R) : M (option (Project R)) :=
  resolve w urn (fun tip => of_res_with Load (li_project w tip)).
Definition project_verify_with {F} (w : W) (urn : UrnText.Urn R) (lookup : UrnText.Urn R -> eff F N) : M (option (Project R)) :=
  resolve w urn (fun tip => eff_map_err Verify (li_verify_project F w lookup tip)).
Definition project_verify (w : W) (urn : UrnText.Urn R) : M (option (Project R)) :=
  project_verify_with w urn (fun u => idref_oid w u).
Definition person_newer (w : W) (a b : Person R) : M (Person R) := of_res_with PersHist (li_newer_person w a b).
Definition project_newer (w : W) (a b : Project R) : M (Project R) := of_res_with ProjHist (li_newer_project w a b).

(** ** Local identities *)

(** A verified person that is signed by the local key and delegates to it. *)
Definition local_valid (p : Person R) : result ValidationError (Person R) :=
  if negb (bool_decide (local_peer ∈ pe_signers p)) then Err LocalSignature
  else if negb (bool_decide (local_peer ∈ pe_delegations p)) then Err LocalDelegation
  else Ok p.
(** [LocalIdentity::link] *)
Definition local_link (p : Person R) (from : UrnText.Urn R) : st W GE unit :=
  symbolic_create (symbolic_ref (rad_id (Some (namespace_from (person_urn p)))) (rad_self (Some (namespace_from from)) None : Ref) ForceTrue).
Definition local_load (w : W) (urn : UrnText.Urn R) : M (option (Person R)) :=
  v ← person_verify w (with_path (Some (str "refs/rad/self")) urn);
  match v with
  | Some verified => Some <$> of_res_with LocalId (local_valid verified)
  | None => EOk None
  end.

(** ** Writing persons *)

Definition person_base (payload : PP) (delegations : list Key) : S (UrnText.Urn R) :=
  r ← st_map_err StoreId (li_base_person payload delegations); mret (urn_new r).
Definition person_create (payload : PP) (delegations : list Key) : S (Person R) :=
  person ← st_map_err StoreId (li_create_person payload delegations);
  verified ← reads (fun w => of_res_with Verify (li_verify_person w (pe_content_id person)));
  person ← lift (of_res_with LocalId (local_valid verified));
  let urn := person_urn person in
  _ ← st_map_err GitErr (idref_create urn (pe_content_id person));
  _ ← st_map_err (fun e => Storage (ReadGit e)) (local_link person urn);
  _ ← st_map_err Sigrefs (sigrefs_update urn);
  mret person.
(** [get(..)?.ok_or_else(|| NotFound)] *)
Definition found {A} (get : W -> UrnText.Urn R -> M (option A)) (urn : UrnText.Urn R) : S A :=
  x ← reads (fun w => get w urn);
  lift (of_res (ok_or x (NotFoundUrn urn))).
Definition link_opt (whoami : option (Person R)) (urn : UrnText.Urn R) : S unit :=
  match whoami with Some local_id => st_map_err (fun e => Storage (ReadGit e)) (local_link local_id urn) | None => mret tt end.
Definition person_update (urn : UrnText.Urn R) (whoami : option (Person R)) (payload : option PP) (delegations : option (list Key)) : S (Person R) :=
  prev ← found person_get urn;
  prev ← lift (of_res_with Verification (li_signed_person prev));
  next ← st_map_err StoreId (li_update_person prev payload delegations);
  _ ← st_map_err GitErr (idref_update urn (pe_content_id next));
  _ ← link_opt whoami urn;
  _ ← st_map_err Sigrefs (sigrefs_update urn);
  mret next.
(** The [rad/id] of a remote; [expect]. *)
Definition their_urn (urn : UrnText.Urn R) (from : Key) : outcome (UrnText.Urn R) :=
  q ← onelevel_from_qualified DEFAULT_PATH;
  rad ← unwrap (snd q);
  f ← peer_into (MB := MB) (MkPeerId from);
  Done (MkUrn (urn_id urn) (Some (reflike_join (reflike_join (reflike_join (str "refs/remotes") f) rad) (fst q)))).
Definition person_merge (urn : UrnText.Urn R) (from : Key) : S (Person R) :=
  ours ← found person_get urn;
  their ← lift (of_out (their_urn urn from));
  theirs ← found person_get their;
  ours ← lift (of_res_with Verification (li_signed_person ours));
  theirs ← lift (of_res_with Verification (li_signed_person theirs));
  next ← st_map_err Merge (li_update_from_person ours theirs);
  _ ← st_map_err GitErr (idref_update urn (pe_content_id next));
  _ ← st_map_err Sigrefs (sigrefs_update urn);
  mret next.
Definition fast_forward (latest : Person R) : S (option N) :=
  let urn := with_path None (person_urn latest) in
  canonical ← reads (fun w => eff_map_err Storage (idref_oid w urn));
  let tip := pe_content_id latest in
  ff ← reads (fun w => of_res_with GitErr (g_descendant_of w tip canonical));
  if (ff : bool) then _ ← st_map_err (fun e => StoreId (store_git e)) (idref_update urn tip); mret (Some tip) else mret None.

(** ** Writing projects *)

(** [ProjectRefs::delegates] *)
Definition delegate_symref (source : UrnText.Urn R) (person : Person R) : outcome (SymbolicRef Ref Ref) :=
  r ← rad_delegate (MB := MB) (Some (namespace_from source)) (person_urn person);
  Done (MkSymbolicRef r (rad_id (Some (namespace_from (person_urn person)))) ForceTrue).
(** [ProjectRefs::apply], for [Create] and [Update]. *)
Definition project_refs_apply (project : Project R) (id : UrnText.Urn R -> N -> st W GE unit) : S unit :=
  _ ← st_for (fun person => s ← lift (of_out (delegate_symref (project_urn project) person)); st_map_err GitErr (symbolic_create s)) (indirect project);
  st_map_err GitErr (id (project_urn project) (pj_content_id project)).
Definition project_base (payload : JP) (delegations : list (Key + Person R)) : S (UrnText.Urn R) :=
  r ← st_map_err StoreId (li_base_project payload delegations); mret (urn_new r).
Definition project_create (whoami : Person R) (payload : JP) (delegations : list (Key + Person R)) : S (Project R) :=
  project ← st_map_err StoreId (li_create_project payload delegations);
  let urn := project_urn project in
  _ ← project_refs_apply project idref_create;
  _ ← st_map_err (fun e => Storage (ReadGit e)) (local_link whoami urn);
  _ ← st_map_err Sigrefs (sigrefs_update urn);
  mret project.
Definition project_update (urn : UrnText.Urn R) (whoami : option (Person R)) (payload : option JP) (delegations : option (list (Key + Person R))) : S (Project R) :=
  prev ← found project_get urn;
  prev ← lift (of_res_with Verification (li_signed_project prev));
  next ← st_map_err StoreId (li_update_project prev payload delegations);
  _ ← project_refs_apply next idref_update;
  _ ← link_opt whoami urn;
  _ ← st_map_err Sigrefs (sigrefs_update urn);
  mret next.
Definition project_merge (urn : UrnText.Urn R) (from : Key) : S (Project R) :=
  ours ← found project_get urn;
  their ← lift (of_out (their_urn urn from));
  theirs ← found project_get their;
  ours ← lift (of_res_with Verification (li_signed_project ours));
  theirs ← lift (of_res_with Verification (li_signed_project theirs));
  next ← st_map_err Merge (li_update_from_project ours theirs);
  _ ← project_refs_apply next idref_update;
  _ ← st_map_err Sigrefs (sigrefs_update urn);
  mret next.
End Identities.

(** ** Relations of peers to an identity *)
Inductive Status (U : Type) : Type := NotReplicated | Replicated (user : U).
Arguments NotReplicated {U}. Arguments Replicated {U} user.
Inductive Peer (S : Type) : Type := PeerLocal (peer_id : Key) (status : S) | PeerRemote (peer_id : Key) (status : S).
Arguments PeerLocal {S} peer_id status. Arguments PeerRemote {S} peer_id status.

Definition status_map {U V} (f : U -> V) (s : Status U) : Status V := match s with NotReplicated => NotReplicated | Replicated u => Replicated (f u) end.
Definition peer_id {S} (p : Peer S) : Key := match p with PeerLocal i _ => i | PeerRemote i _ => i end.
Definition peer_status {S} (p : Peer S) : S := match p with PeerLocal _ s => s | PeerRemote _ s => s end.
Definition peer_map {S T} (f : S -> T) (p : Peer S) : Peer T := match p with PeerLocal i s => PeerLocal i (f s) | PeerRemote i s => PeerRemote i (f s) end.
Definition peer_replicated {U} (p : Peer (Status U)) : option (Peer U) :=
  match p with
  | PeerLocal i (Replicated u) => Some (PeerLocal i u)
  | PeerRemote i (Replicated u) => Some (PeerRemote i u)
  | PeerLocal _ _ | PeerRemote _ _ => None
  end.
Definition replicated_remote {U} (p : Peer (Status U)) : option (Key * U) :=
  match p with PeerRemote i (Replicated u) => Some (i, u) | PeerLocal _ _ | PeerRemote _ _ => None end.
Definition peer_local {U} (p : Peer (Status U)) : option (Key * Status U) := match p with PeerLocal i s => Some (i, s) | PeerRemote _ _ => None end.
Definition peer_remote {U} (p : Peer (Status U)) : option (Key * Status U) := match p with PeerLocal _ _ => None | PeerRemote i s => Some (i, s) end.

Record Persona (R : Type) : Type := MkPersona { persona_person : Person R; persona_delegate : bool; persona_refs : option Refs }.
Arguments MkPersona {R} persona_person persona_delegate persona_refs.
Inductive RelError (IDE SGE TE R : Type) : Type :=
| RelIdentities (e : IDE) | RelStored (e : SGE) | UnknownIdentity (urn : UrnText.Urn R) | RelTracked (e : TE).
Arguments RelIdentities {IDE SGE TE R} e. Arguments RelStored {IDE SGE TE R} e. Arguments UnknownIdentity {IDE SGE TE R} urn. Arguments RelTracked {IDE SGE TE R} e.

(** [Indirect::owner]: the person among the delegations who has the key. *)
Definition project_owner {R} (p : Project R) (key : Key) : option (Person R) :=
  List.find (fun person => bool_decide (key ∈ pe_delegations person)) (indirect p).

Section Relations.
Context {W GE R MB MH IE LE PP JP SGE TE : Type} `{Git2Repo W GE} `{HasProtocol R MH IE} `{Multibase MB} `{LinkIdentities W R LE PP JP}.
Context (local_peer : Key) (load_refs : W -> UrnText.Urn R -> option Key -> eff SGE (option Refs)).
Context (peers_tracked : W -> UrnText.Urn R -> result TE (list (result TE Key))).
#[local] Existing Instance namespace_into.
#[local] Existing Instance peer_into.
Let M := eff (RelError (IdError R MB (DecodeId MB MH IE) LE GE SGE) SGE TE R).

Definition is_delegate (identity : SomeIdentity R) (peer : Key) : M bool :=
  match identity with
  | IsProject project => EOk (match project_owner project peer with Some _ => true | None => false end)
  | IsPerson person => EOk (bool_decide (peer ∈ pe_delegations person))
  | IsOther r => EErr (UnknownIdentity (urn_new r))
  end.
Definition persona_load (w : W) (identity : SomeIdentity R) (peer : option Key) : M (option (Persona R)) :=
  let urn := some_urn identity in
  refs ← eff_map_err RelStored (load_refs w urn peer);
  delegate ← is_delegate identity (default local_peer peer);
  r ← of_out (urn_from_reference (MB := MB) (rad_self (Some (namespace_from urn)) (MkPeerId <$> peer)));
  rad_self_urn ← of_out (unwrap (res_ok r));
  person ← eff_map_err RelIdentities (person_get w rad_self_urn);
  EOk ((fun p => MkPersona p delegate refs) <$> person).
Fixpoint tracked_loop (w : W) (identity : SomeIdentity R) (peers : list (result TE Key)) : M (list (Peer (Status (Persona R)))) :=
  match peers with
  | [] => EOk []
  | p :: peers =>
      p ← of_res_with RelTracked p;
      persona ← persona_load w identity (Some p);
      rest ← tracked_loop w identity peers;
      EOk (PeerRemote p (match persona with Some persona => Replicated persona | None => NotReplicated end) :: rest)
  end.
Definition relations_tracked (w : W) (urn : UrnText.Urn R) : M (list (Peer (Status (Persona R)))) :=
  i ← eff_map_err RelIdentities (any_get w urn);
  identity ← of_res (ok_or i (RelIdentities (NotFoundUrn urn)));
  peers ← of_res_with RelTracked (peers_tracked w urn);
  tracked_loop w identity peers.
End Relations.
