(* ===== verification/Replication.v ===== *)
(** * Replication in librad

    [librad/src/git/replication.rs]: cloning or fetching an identity from a peer, through a [Fetcher].  Identities are read
    and adopted, delegates and what they track become tracked, signed references are fetched and one's own updated,
    and what is no longer needed is pruned.  A [BTreeSet] of peers is the list of their keys in order; tracking, the fetcher
    and signed references are parameters. *)
From stdpp Require Import base list sets.
From Stdlib Require Import NArith Lia.
From Stdlib Require String.
Import String.StringSyntax.
From S2P Require Import Prelude Effects RefFormat RefName.
Import Name.
From S2P Require Import Scoped Utf8 RefLike Keys UrnText LibradRef CanonicalJson RemotesGraph SignedRefs Fetchspecs StorageRead IdentityStore.
#[local] Open Scope N_scope.

(** ** Data *)

(** Sets of peers. *)
Definition key_set (l : list Key) : list Key := map fst (map_collect (map (fun k => (k, tt)) l)).
Definition key_diff (a b : list Key) : list Key := List.filter (fun k => negb (bool_decide (k ∈ b))) a.
Definition key_inter (a b : list Key) : list Key := List.filter (fun k => bool_decide (k ∈ b)) a.
(** [BTreeMap::extend] and [append] *)
Definition map_extend {V} (a b : list (list N * V)) : list (list N * V) := foldl (fun m kv => map_insert kv.1 kv.2 m) a b.

Record Partition := MkPartition { removed : list Key; added : list Key; kept : list Key }.
Definition partition (xs ys : list Key) : Partition := MkPartition (key_diff xs ys) (key_diff ys xs) (key_inter xs ys).

Inductive IdStatus := Even | Uneven.
Inductive Mode := Clone | Fetch.
Record ReplicateResult := MkReplicateResult { updated_tips : RemoteHeads; identity : IdStatus; mode : Mode }.
Inductive ModeInternal (R : Type) : Type :=
| InternalClone (identity : SomeIdentity R) (fetched_peers : list Key)
| InternalFetch (identity : SomeIdentity R) (existing : list Key).
Arguments InternalClone {R} identity fetched_peers. Arguments InternalFetch {R} identity existing.
Record DelegateView (R : Type) : Type := MkDelegateView { dv_urn : UrnText.Urn R; dv_delegate : Person R; dv_project : Project R }.
Arguments MkDelegateView {R} dv_urn dv_delegate dv_project. Arguments dv_urn {R} d. Arguments dv_delegate {R} d. Arguments dv_project {R} d.
Record SetupResult := MkSetupResult { setup_tips : RemoteHeads; setup_identity : IdStatus }.

Inductive RepError (R IDE SGE FE TE MB GE : Type) : Type :=
| SelfReplication | MissingIdentity | MissingIdentities (urn : UrnText.Urn R) | Missing (name : list N)
| RepRefFromUrn (urn : UrnText.Urn R) (e : FromUrnError MB) | UnknownIdentityKind (i : SomeIdentity R)
| RepRefs (e : SGE) | FetchError (e : FE) | RepIdentities (e : IDE) | RepStore (e : ReadError MB GE) | RepTracking (e : TE).
Arguments SelfReplication {R IDE SGE FE TE MB GE}. Arguments MissingIdentity {R IDE SGE FE TE MB GE}. Arguments MissingIdentities {R IDE SGE FE TE MB GE} urn.
Arguments Missing {R IDE SGE FE TE MB GE} name. Arguments RepRefFromUrn {R IDE SGE FE TE MB GE} urn e. Arguments UnknownIdentityKind {R IDE SGE FE TE MB GE} i.
Arguments RepRefs {R IDE SGE FE TE MB GE} e. Arguments FetchError {R IDE SGE FE TE MB GE} e. Arguments RepIdentities {R IDE SGE FE TE MB GE} e.
Arguments RepStore {R IDE SGE FE TE MB GE} e. Arguments RepTracking {R IDE SGE FE TE MB GE} e.

(** ** Interface *)

(** Tracking with the default configuration if there is no entry, and pruning any entry: whether that changed anything; the fetcher; and signed
    references. *)
Class ReplicationEnv (W R SGE FE TE : Type) := {
  env_track : UrnText.Urn R -> Key -> st W TE bool;
  env_untrack : UrnText.Urn R -> Key -> st W TE bool;
  env_tracked_peers : W -> UrnText.Urn R -> result TE (list (result TE Key));
  env_fetch : Fetchspecs PeerId R -> st W FE RemoteHeads;
  env_load_refs : W -> UrnText.Urn R -> option Key -> eff SGE (option Refs);
  env_update_refs : UrnText.Urn R -> st W SGE unit;
  env_stored_tracked : TE -> SGE;
}.

(** ** Operations *)
Section Replication.
Context {W GE R MB MH IE LE PP JP SGE FE TE : Type} `{Git2Repo W GE} `{GitRefs W GE} `{GitExists GE} `{HasProtocol R MH IE} `{Multibase MB}.
Context `{LinkIdentities W R LE PP JP} `{ReplicationEnv W R SGE FE TE}.
Context (local_peer : Key) (store_git : GE -> LE).
#[local] Existing Instance namespace_into.
#[local] Existing Instance peer_into.
Let Ref := Reference (Namespace R) PeerId.
Let IDE := IdError R MB (DecodeId MB MH IE) LE GE SGE.
Let EE := RepError R IDE SGE FE TE MB GE.
Let M := eff EE.
Let S := st W EE.

Definition git_err (e : GE) : EE := RepStore (ReadGit e).
(** [collect::<Result<BTreeSet<_>, _>>] *)
Definition tracked_set (w : W) (urn : UrnText.Urn R) : M (list Key) :=
  peers ← of_res_with RepTracking (env_tracked_peers w urn);
  ps ← eff_fold (fun acc p => p ← of_res_with RepTracking p; EOk (acc ++ [p])) [] peers;
  EOk (key_set ps).

(** [unsafe_into_urn]: [expect] that the namespace is set. *)
Definition unsafe_into_urn (r : Ref) : outcome (UrnText.Urn R) :=
  u ← urn_from_reference (MB := MB) r; unwrap (res_ok u).
Definition rad_id_of (urn : UrnText.Urn R) : Ref := rad_id (Some (namespace_from urn)).

Definition ensure_rad_id (urn : UrnText.Urn R) (tip : N) : S N :=
  _ ← st_map_err git_err (idref_create (MB := MB) urn tip);
  reads (fun w => eff_map_err RepStore (idref_oid w urn)).
(** The two functions named [track]. *)
Definition track (urn : UrnText.Urn R) (peer : Key) : S unit :=
  _ ← st_map_err RepTracking (env_track urn peer); mret tt.
Definition symref (top_level : UrnText.Urn R) (symbolic : Ref) : S unit :=
  r ← lift (of_out (reference_from_urn (MB := MB) top_level));
  r ← lift (of_res (map_err (RepRefFromUrn top_level) r));
  st_map_err git_err (st_or_matches is_exists_err (symbolic_create (symbolic_ref r symbolic ForceFalse))).
Definition adopt_rad_self (urn : UrnText.Urn R) (peer : Key) : S unit :=
  let rad_self_ref : Ref := rad_self (Some (namespace_from urn)) (Some (MkPeerId peer)) in
  name ← lift (of_out (reference_reflike rad_self_ref));
  b ← reads (fun w => of_res_with RepStore (has_ref (MB := MB) w name));
  if (b : bool) then
    rad_self_urn ← lift (of_out (unsafe_into_urn rad_self_ref));
    p ← reads (fun w => eff_map_err RepIdentities (person_verify (MB := MB) w rad_self_urn));
    match p with
    | None => mret tt
    | Some person =>
        rad_id_urn ← lift (of_out (unsafe_into_urn (rad_id_of (person_urn person))));
        known ← reads (fun w => eff_map_err RepStore (has_urn w (person_urn person)));
        if (known : bool) then mret tt
        else
          _ ← ensure_rad_id rad_id_urn (pe_content_id person);
          _ ← symref rad_id_urn rad_self_ref;
          track rad_id_urn peer
    end
  else mret tt.
Definition prune (urn : UrnText.Urn R) (peers : list Key) : S unit :=
  st_for (fun peer => _ ← st_map_err RepTracking (env_untrack urn peer); mret tt) peers.

(** The loop that keeps the newer, and [expect("empty delegations")]. *)
Definition latest_of {A} (newer : W -> A -> A -> M A) (l : list A) (w : W) : M A :=
  match l with [] => EPanic | a :: l => eff_fold (fun prev x => newer w prev x) a l end.

(** *** Persons *)

Definition verify_delegates (urn : UrnText.Urn R) (delegates : list Key) (w : W) : M (list (Key * Person R)) :=
  eff_fold (fun acc peer =>
    remote_urn ← of_out (unsafe_into_urn (with_remote (Some (MkPeerId peer)) (rad_id_of urn)));
    p ← eff_map_err RepIdentities (person_verify (MB := MB) w remote_urn);
    verified ← of_res (ok_or p (MissingIdentities remote_urn));
    EOk (acc ++ [(peer, verified)])) [] delegates.
Definition person_adopt_latest (urn : UrnText.Urn R) (delegates : list Key) : S IdStatus :=
  verified ← reads (verify_delegates urn delegates);
  latest ← reads (latest_of (fun w a b => eff_map_err RepIdentities (person_newer (SGE := SGE) (MB := MB) w a b)) (map snd verified));
  let expected := match map_get local_peer verified with Some ours => pe_content_id ours | None => pe_content_id latest end in
  actual ← ensure_rad_id urn expected;
  mret (if actual =? expected then Even else Uneven).
Definition person_ensure_setup (rad_id : UrnText.Urn R) (person : Person R) : S IdStatus :=
  let urn := person_urn person in
  p ← reads (fun w => eff_map_err RepIdentities (person_verify (MB := MB) w rad_id));
  match p with
  | None => lift (EErr MissingIdentity)
  | Some verified =>
      let delegations := key_set (pe_delegations verified) in
      _ ← st_for (fun peer => if bool_decide (peer = local_peer) then mret tt else _ ← track urn peer; adopt_rad_self urn peer) delegations;
      person_adopt_latest urn delegations
  end.

(** *** Projects *)

Definition verify_with_delegate (urn : UrnText.Urn R) (peer : option Key) (w : W) : M (Project R) :=
  p ← eff_map_err RepIdentities (project_verify_with (MB := MB) (SGE := SGE) w urn (fun delegate =>
        r ← of_out (rad_delegate (MB := MB) (Some (namespace_from urn)) delegate);
        n ← of_out (reference_reflike (with_remote (MkPeerId <$> peer) r : Ref));
        of_res (storage_reference_oid (MB := MB) w n)));
  of_res (ok_or p MissingIdentity).
Definition all_delegates (proj : Project R) : list Key :=
  key_set (flat_map (fun d => match d with inl pk => [pk] | inr person => pe_delegations person end) (pj_delegations proj)).
Fixpoint fetched_loop (names : list (list N)) : outcome (list Key) :=
  match names with
  | [] => Done []
  | name :: names =>
      let peer :=
        match urn_from_reflike (MB := MB) (R := R) name with
        | Ok (MkUrn _ (Some path)) =>
            match reflike_strip_prefix path (str "refs/remotes") with
            | Ok suffix => match split_on slash suffix with [] => Done None | s :: _ => res_ok <$> from_default_encoding (MB := MB) s end
            | Err _ => Done None
            end
        | _ => Done None
        end in
      p ← peer; rest ← fetched_loop names;
      Done (match p with Some p => p :: rest | None => rest end)
  end.
Definition fetched_peers (tips : RemoteHeads) : outcome (list Key) := ps ← fetched_loop (map fst tips); Done (key_set ps).

Definition adopt_delegate_person (peer : Key) (person : Person R) (project_urn : UrnText.Urn R) : S unit :=
  let delegate_urn := person_urn person in
  known ← reads (fun w => eff_map_err RepStore (has_urn w delegate_urn));
  _ ← (if (known : bool) then _ ← st_map_err RepIdentities (fast_forward (MB := MB) (SGE := SGE) store_git person); mret tt
       else
         _ ← ensure_rad_id delegate_urn (pe_content_id person);
         _ ← track delegate_urn peer;
         track project_urn peer);
  r ← lift (of_out (rad_delegate (MB := MB) (Some (namespace_from project_urn)) delegate_urn));
  symref delegate_urn r.
(** The inner loop of [delegate_views], over the keys of a delegate. *)
Fixpoint delegate_keys (proj : Project R) (remote_peer : option Key) (person : Person R) (keys : list Key)
    (views : list (Key * DelegateView R)) : S (list (Key * DelegateView R)) :=
  match keys with
  | [] => mret views
  | peer :: keys =>
      v ← (if bool_decide (peer = local_peer) then
             verified ← reads (verify_with_delegate (project_urn proj) remote_peer);
             mret (project_urn proj, verified)
           else
             remote_urn ← lift (of_out (unsafe_into_urn (with_remote (Some (MkPeerId peer)) (rad_id_of (project_urn proj)))));
             _ ← adopt_delegate_person peer person (project_urn proj);
             verified ← reads (verify_with_delegate remote_urn remote_peer);
             mret (remote_urn, verified));
      delegate_keys proj remote_peer person keys (map_insert peer (MkDelegateView v.1 person v.2) views)
  end.
Fixpoint delegate_loop (proj : Project R) (remote_peer : option Key) (delegates : list (Person R)) (views : list (Key * DelegateView R)) :
    S (list (Key * DelegateView R)) :=
  match delegates with
  | [] => mret views
  | delegate :: delegates =>
      r ← lift (of_out (rad_delegate (MB := MB) (Some (namespace_from (project_urn proj))) (person_urn delegate)));
      in_rad_ids ← lift (of_out (unsafe_into_urn (with_remote (MkPeerId <$> remote_peer) r)));
      p ← reads (fun w => eff_map_err RepIdentities (person_verify (MB := MB) w in_rad_ids));
      match p with
      | None => name ← lift (of_out (reflike_from_urn (MB := MB) in_rad_ids)); lift (EErr (Missing name))
      | Some person =>
          views ← delegate_keys proj remote_peer person (pe_delegations person) views;
          delegate_loop proj remote_peer delegates views
      end
  end.
Definition delegate_views (proj : Project R) (remote_peer : option Key) : S (list (Key * DelegateView R)) :=
  delegate_loop proj remote_peer (indirect proj) [].
Definition track_direct (proj : Project R) : S unit :=
  st_for (fun key => if bool_decide (key = local_peer) then mret tt else track (project_urn proj) key) (direct proj).
Definition project_adopt_latest (urn : UrnText.Urn R) (delegates : list (Key * DelegateView R)) : S IdStatus :=
  latest ← reads (latest_of (fun w a b => eff_map_err RepIdentities (project_newer (SGE := SGE) (MB := MB) w a b)) (map (fun kv => dv_project kv.2) delegates));
  let expected := match map_get local_peer delegates with Some ours => pj_content_id (dv_project ours) | None => pj_content_id latest end in
  actual ← ensure_rad_id urn expected;
  mret (if actual =? expected then Even else Uneven).
(** The signed references of the tracked peers that have some. *)
Definition tracked_sigrefs (urn : UrnText.Urn R) (w : W) : M (list (Key * Refs)) :=
  peers ← of_res_with RepTracking (env_tracked_peers w urn);
  eff_fold (fun acc p =>
    match p with
    | Err e => EErr (RepRefs (env_stored_tracked e))
    | Ok peer =>
        l ← eff_map_err RepRefs (env_load_refs w urn (Some peer));
        EOk (match l with Some refs => map_insert peer refs acc | None => acc end)
    end) [] peers.
Definition flattened (r : Remotes) : list Key := flatten_all (Datatypes.S (length (remotes_nodes r))) (flatten r).
Definition replicate_signed_refs (limit : Limit) (urn : UrnText.Urn R) (delegates : list (UrnText.Urn R)) : S (RemoteHeads * list Key) :=
  sigrefs ← reads (tracked_sigrefs urn);
  res ← st_map_err FetchError (env_fetch (Replicate (map (fun kr => (MkPeerId kr.1, kr.2)) sigrefs) delegates limit));
  _ ← st_map_err RepRefs (env_update_refs urn);
  mret (res, key_set (flat_map (fun kr => kr.1 :: flattened (remotes kr.2)) sigrefs)).
(** The URNs of the views, a set: they differ in their paths. *)
Definition view_urns (delegates : list (Key * DelegateView R)) : list (UrnText.Urn R) :=
  map snd (map_collect (map (fun kv => (default [] (urn_path (dv_urn kv.2)), dv_urn kv.2)) delegates)).
Definition project_ensure_setup (limit : Limit) (delegates : list (Key * DelegateView R)) (proj : Project R) : S SetupResult :=
  let urn := project_urn proj in
  id_status ← project_adopt_latest urn delegates;
  _ ← track_direct proj;
  res ← replicate_signed_refs limit urn (view_urns delegates);
  _ ← st_for (fun peer => if bool_decide (peer = local_peer) then mret tt else _ ← track urn peer; adopt_rad_self urn peer) res.2;
  mret (MkSetupResult res.1 id_status).

(** *** A whole run *)

Definition determine_mode (limit : Limit) (urn : UrnText.Urn R) (remote_peer : Key) : S (RemoteHeads * ModeInternal R) :=
  known ← reads (fun w => eff_map_err RepStore (has_urn w urn));
  if negb (known : bool) then
    updated ← st_map_err FetchError (env_fetch (PeekAll limit));
    fetched ← lift (of_out (fetched_peers updated));
    peeked ← st_map_err FetchError (env_fetch (Peek (map MkPeerId fetched) limit));
    let tips := map_extend updated peeked in
    remote_ident ← lift (of_out (unsafe_into_urn (with_remote (Some (MkPeerId remote_peer)) (rad_id_of urn))));
    i ← reads (fun w => eff_map_err RepIdentities (any_get (MB := MB) w remote_ident));
    i ← lift (of_res (ok_or i MissingIdentity));
    mret (tips, InternalClone i fetched)
  else
    i ← reads (fun w => eff_map_err RepIdentities (any_get (MB := MB) w urn));
    i ← lift (of_res (ok_or i MissingIdentity));
    existing ← (match i with
      | IsProject proj => tracked ← reads (fun w => tracked_set w urn); mret (key_set (all_delegates proj ++ tracked))
      | IsPerson _ => reads (fun w => tracked_set w urn)
      | IsOther _ => lift (EErr (UnknownIdentityKind i))
      end);
    tips ← st_map_err FetchError (env_fetch (Peek (map MkPeerId existing) limit));
    mret (tips, InternalFetch i existing).

Definition replicate_clone (limit : Limit) (urn : UrnText.Urn R) (remote_peer : Key) (whoami : option (Person R)) (tips : RemoteHeads)
    (i : SomeIdentity R) (fetched : list Key) : S (ReplicateResult * list Key) :=
  r ← (match i with
    | IsProject proj =>
        delegates ← delegate_views proj (Some remote_peer);
        rad_id_urn ← lift (of_out (unsafe_into_urn (with_remote (Some (MkPeerId remote_peer)) (rad_id_of urn))));
        proj ← reads (verify_with_delegate rad_id_urn (Some remote_peer));
        setup ← project_ensure_setup limit delegates proj;
        tracked ← reads (fun w => tracked_set w urn);
        mret (map_extend tips (setup_tips setup), key_set (map fst delegates ++ tracked), setup_identity setup)
    | IsPerson person =>
        rad_id_urn ← lift (of_out (unsafe_into_urn (with_remote (Some (MkPeerId remote_peer)) (rad_id_of (person_urn person)))));
        st_ ← person_ensure_setup rad_id_urn person;
        mret (tips, key_set (pe_delegations person), st_)
    | IsOther _ => lift (EErr (UnknownIdentityKind i))
    end);
  _ ← (match whoami with Some local_id => st_map_err git_err (local_link (MB := MB) local_id urn) | None => mret tt end);
  mret (MkReplicateResult r.1.1 r.2 Clone, key_diff fetched r.1.2).
Definition replicate_fetch (limit : Limit) (urn : UrnText.Urn R) (tips : RemoteHeads) (i : SomeIdentity R) (existing : list Key) : S (ReplicateResult * list Key) :=
  r ← (match i with
    | IsProject proj =>
        views ← delegate_views proj None;
        proj ← reads (verify_with_delegate urn None);
        let updated_delegations := all_delegates proj in
        _ ← lift (of_out (unsafe_into_urn (rad_id_of urn)));
        setup ← project_ensure_setup limit views proj;
        tracked ← reads (fun w => tracked_set w urn);
        mret (map_extend tips (setup_tips setup), key_set (tracked ++ updated_delegations), setup_identity setup)
    | IsPerson person =>
        rad_id_urn ← lift (of_out (unsafe_into_urn (rad_id_of (person_urn person))));
        st_ ← person_ensure_setup rad_id_urn person;
        tracked ← reads (fun w => tracked_set w urn);
        mret (tips, tracked, st_)
    | IsOther _ => lift (EErr (UnknownIdentityKind i))
    end);
  mret (MkReplicateResult r.1.1 r.2 Fetch, removed (partition existing r.1.2)).
(** [replicate], with the URN and the remote peer of the fetcher. *)
Definition replicate_run (fetcher_urn : UrnText.Urn R) (remote_peer : Key) (limit : Limit) (whoami : option (Person R)) : S ReplicateResult :=
  if bool_decide (local_peer = remote_peer) then lift (EErr SelfReplication)
  else
    let urn := urn_new (urn_id fetcher_urn) in
    next ← determine_mode limit urn remote_peer;
    r ← (match next.2 with
         | InternalClone i fetched => replicate_clone limit urn remote_peer whoami next.1 i fetched
         | InternalFetch i existing => replicate_fetch limit urn next.1 i existing
         end);
    _ ← prune urn (key_set (local_peer :: r.2));
    mret r.1.
End Replication.
