(* ===== verification/ReplicationSafety.v ===== *)
(** * What a replication can do to identities

    That a run of [Replication.v], however it ends, leaves every [rad/id] that is there where it was or moves it to a descendant,
    what it leaves tracked, and when it panics. *)
From stdpp Require Import base list sets.
From Stdlib Require Import NArith Lia.
From Stdlib Require String.
Import String.StringSyntax.
From S2P Require Import Prelude Effects RefFormat RefName.
Import Name.
From S2P Require Import Scoped Utf8 RefLike Keys UrnText LibradRef CanonicalJson RemotesGraph SignedRefs Fetchspecs StorageRead IdentityStore Replication.
#[local] Open Scope N_scope.
#[local] Existing Instance namespace_into.
#[local] Existing Instance peer_into.

(** ** Names *)

(** A refspec's destination, which may have one asterisk. *)
Definition dst_matches (d n : list N) : Prop :=
  n = d \/ exists a b x, d = a ++ star :: b /\ (star ∉ a) /\ n = a ++ x ++ b.

Lemma prefix_before_star p a b rest : star ∉ p -> p ++ rest = a ++ star :: b -> exists a', a = p ++ a'.
Proof.
  revert a. induction p as [|x p IH]; intros a Hp He; [by exists a|]. apply not_elem_of_cons in Hp as [Hx Hp]. destruct a as [|y a]; cbn in He.
  - injection He as Hxs _. congruence.
  - injection He as -> He. destruct (IH a Hp He) as [a' ->]. by exists a'.
Qed.

Section Names.
Context {R MB MH IE : Type} `{HasProtocolLaws R MH IE} `{MultibaseLaws MB}.

Definition rad_id_name (u : UrnText.Urn R) : list N := own_name (urn_encode_id (MB := MB) u) (str "rad") (str "id").
(** Not the [rad/id] of anything. *)
Definition not_rad_id (n : list N) : Prop := forall u, n <> rad_id_name u.

Lemma id_slash (u : UrnText.Urn R) : slash ∉ urn_encode_id (MB := MB) u.
Proof. by destruct (urn_id_text (MB := MB) u) as (_ & ? & _). Qed.
Lemma id_split (u v : UrnText.Urn R) a b : str "refs/namespaces/" ++ urn_encode_id (MB := MB) u ++ slash :: a = str "refs/namespaces/" ++ urn_encode_id (MB := MB) v ++ slash :: b -> a = b.
Proof.
  intros He%app_inv_head. apply (f_equal (splitn2 slash)) in He. rewrite !splitn2_app in He by apply id_slash. by injection He as _ He.
Qed.
Lemma own_not_rad_id (u : UrnText.Urn R) c nm : c ++ slash :: nm <> str "rad/id" -> not_rad_id (own_name (urn_encode_id (MB := MB) u) c nm).
Proof.
  intros Hne v He. unfold rad_id_name, own_name in He. change (str "/refs/" ++ ?x) with (slash :: str "refs/" ++ x) in He.
  apply id_split in He. apply app_inv_head in He. by apply Hne.
Qed.
Lemma in_remotes_not_rad_id (u : UrnText.Urn R) t n : in_remotes (urn_encode_id (MB := MB) u) t n -> not_rad_id n.
Proof.
  intros [rest ->] v He. unfold rad_id_name, own_name in He. change (str "/refs/" ++ ?x) with (slash :: str "refs/" ++ x) in He.
  change (str "/refs/remotes/" ++ ?x) with (slash :: str "refs/remotes/" ++ x) in He. apply id_split in He. discriminate He.
Qed.
(** What is fetched is not a [rad/id]. *)
Lemma fetched_not_rad_id (u : UrnText.Urn R) t d n : in_remotes (urn_encode_id (MB := MB) u) t d -> dst_matches d n -> not_rad_id n.
Proof.
  intros Hd [->|(a & b & x & He & Ha & ->)]; [by eapply in_remotes_not_rad_id|].
  assert (in_remotes (urn_encode_id (MB := MB) u) t d) as [rest Hr] by done. rewrite Hr in He.
  replace (str "refs/namespaces/" ++ urn_encode_id u ++ str "/refs/remotes/" ++ t ++ slash :: rest) with
    ((str "refs/namespaces/" ++ urn_encode_id (MB := MB) u ++ str "/refs/remotes/") ++ t ++ slash :: rest) in He by (by rewrite <- !app_assoc).
  apply prefix_before_star in He as [a' ->].
  - intros v Hv. rewrite <- !app_assoc in Hv. unfold rad_id_name, own_name in Hv. change (str "/refs/" ++ ?x) with (slash :: str "refs/" ++ x) in Hv.
    change (str "/refs/remotes/" ++ ?x) with (slash :: str "refs/remotes/" ++ x) in Hv. apply id_split in Hv. discriminate Hv.
  - rewrite !not_elem_of_app. split_and!; [apply (bool_decide_unpack _); reflexivity| |apply (bool_decide_unpack _); reflexivity].
    destruct (urn_id_text (MB := MB) u) as (Hl & _). rewrite Forall_forall in Hl. intros Hs%Hl. unfold letter, star in Hs. lia.
Qed.

(** The name of a reference of a namespace. *)
Lemma reference_done (r : Reference (Namespace R) PeerId) (u : UrnText.Urn R) n : namespace r = Some (namespace_from u) -> reference_reflike (Ns := Namespace R) r = Done n ->
  exists t c, category_reflike (category r) = Done c /\ n = placed_name (urn_encode_id (MB := MB) u) t c (onelevel_from (name r)) /\ (remote r = None <-> t = None).
Proof.
  intros Hn Hr. assert (exists c, category_reflike (category r) = Done c) as [c Hc].
  { destruct (category_reflike (category r)) eqn:Hc; [by eexists|]. exfalso. unfold reference_reflike in Hr. rewrite Hc in Hr.
    repeat case_match; try done; unfold mbind, outcome_bind in Hr; repeat case_match; done. }
  assert (exists t, texts (remote r) t) as [t Ht].
  { destruct (remote r) as [p|] eqn:Hp; [|by exists None; constructor]. destruct (into_reflike p) as [t|] eqn:Ht; [exists (Some t); by constructor|].
    exfalso. unfold reference_reflike in Hr. rewrite Hp, Ht in Hr. unfold mbind, outcome_bind in Hr. repeat case_match; done. }
  destruct (reference_name (MB := MB) r u t c Hn Ht Hc) as [He _]. rewrite He in Hr. injection Hr as <-. exists t, c. split_and!; [done..|].
  by inversion Ht.
Qed.
Lemma rad_self_not_rad_id (u : UrnText.Urn R) (p : option PeerId) n : reference_reflike (Ns := Namespace R) (rad_self (Some (namespace_from u)) p) = Done n -> not_rad_id n.
Proof.
  intros (t & c & [= <-] & -> & _)%(reference_done _ u); [|done]. destruct t as [t|]; cbn [placed_name].
  - eapply in_remotes_not_rad_id, remote_name_in.
  - by apply own_not_rad_id.
Qed.
Lemma rad_delegate_not_rad_id (u v : UrnText.Urn R) r n : rad_delegate (MB := MB) (Some (namespace_from u)) v = Done r -> reference_reflike (Ns := Namespace R) (Rm := PeerId) r = Done n -> not_rad_id n.
Proof.
  unfold rad_delegate. destruct (urn_id_text (MB := MB) v) as (_ & _ & Hv). rewrite (proj2 (reflike_try_from_ok _ _) (conj eq_refl Hv)). cbn [res_ok unwrap mbind outcome_bind].
  intros [= <-]. intros (t & c & [= <-] & -> & Ht)%(reference_done _ u); [|done]. rewrite (proj1 Ht) by done. apply own_not_rad_id. discriminate.
Qed.
Lemma id_ref_name (u : UrnText.Urn R) : reference_reflike (Ns := Namespace R) (Rm := PeerId) (id_ref u) = Done (rad_id_name u).
Proof. by destruct (reference_name (MB := MB) (P := PeerId) (id_ref u) u None (str "rad")) as [-> _]; [done|constructor|done|]. Qed.
End Names.

(** ** References *)
Inductive RawRef := DirectRef (o : N) | SymRef (n : list N).

(** What libgit2 does to references, and the ancestry of commits, which never changes. *)
Class RefsView (W GE : Type) `{Git2Repo W GE} `{GitRefs W GE} := {
  raw_ref : W -> list N -> option RawRef;
  descends : N -> N -> Prop;
  descends_trans a b c : descends a b -> descends b c -> descends a c;
  raw_direct w n o : raw_ref w n = Some (DirectRef o) -> g_refname_to_id w n = Ok o;
  descendant_ok w a b : g_descendant_of w a b = Ok true -> descends a b;
  ensure_log_raw n w x w' : reference_ensure_log n w = (x, w') -> forall m, raw_ref w' m = raw_ref w m;
  create_raw n o f w x w' : reference_create n o f w = (x, w') ->
    (x = EOk tt /\ (f = false -> raw_ref w n = None) /\ forall m, raw_ref w' m = if decide (m = n) then Some (DirectRef o) else raw_ref w m) \/
    (x <> EOk tt /\ forall m, raw_ref w' m = raw_ref w m);
  symbolic_raw n t f w x w' : reference_symbolic n t f w = (x, w') ->
    forall m, m <> n -> raw_ref w' m = raw_ref w m;
}.

Section Forward.
Context {W GE R MB MH IE : Type} `{HasProtocolLaws R MH IE} `{MultibaseLaws MB} `{RefsView W GE}.

(** Every [rad/id] that is there stays, or moves to a descendant. *)
Definition forward (w w' : W) : Prop := forall (u : UrnText.Urn R) o, raw_ref w (rad_id_name (MB := MB) u) = Some (DirectRef o) ->
  exists o', raw_ref w' (rad_id_name (MB := MB) u) = Some (DirectRef o') /\ (o' = o \/ descends o' o).

Lemma forward_refl w : forward w w.
Proof. intros u o Ho. exists o. auto. Qed.
Lemma forward_trans w1 w2 w3 : forward w1 w2 -> forward w2 w3 -> forward w1 w3.
Proof.
  intros H12 H23 u o Ho. destruct (H12 u o Ho) as (o2 & Ho2 & Hd2). destruct (H23 u o2 Ho2) as (o3 & Ho3 & Hd3). exists o3. split; [done|].
  destruct Hd2 as [->|Hd2], Hd3 as [->|Hd3]; eauto using descends_trans.
Qed.
Lemma forward_same w w' : (forall u : UrnText.Urn R, raw_ref w' (rad_id_name (MB := MB) u) = raw_ref w (rad_id_name (MB := MB) u)) -> forward w w'.
Proof. intros Hs u o Ho. exists o. rewrite Hs. auto. Qed.
Lemma forward_other w w' n : (forall m, m <> n -> raw_ref w' m = raw_ref w m) -> not_rad_id (MB := MB) (R := R) n -> forward w w'.
Proof. intros Hs Hn. apply forward_same. intros u. apply Hs. intros He. by apply (Hn u). Qed.

Definition fwd {E A} (m : st W E A) : Prop := forall w x w', m w = (x, w') -> forward w w'.

Lemma fwd_ret {E A} (a : A) : fwd (mret a : st W E A).
Proof. intros w x w' [= _ <-]. apply forward_refl. Qed.
Lemma fwd_lift {E A} (x : eff E A) : fwd (lift x : st W E A).
Proof. intros w y w' [= _ <-]. apply forward_refl. Qed.
Lemma fwd_reads {E A} (f : W -> eff E A) : fwd (reads f : st W E A).
Proof. intros w y w' [= _ <-]. apply forward_refl. Qed.
Lemma fwd_bind {E A B} (m : st W E A) (f : A -> st W E B) : fwd m -> (forall a, fwd (f a)) -> fwd (m ≫= f).
Proof.
  intros Hm Hf w x w' Hb. unfold mbind, st_bind in Hb. destruct (m w) as [[a|e|] w1] eqn:Hmw; [|injection Hb as _ <-; by eapply Hm..].
  eapply forward_trans; [by eapply Hm|by eapply Hf].
Qed.
Lemma fwd_map_err {E F A} (f : E -> F) (m : st W E A) : fwd m -> fwd (st_map_err f m).
Proof. intros Hm w x w' Hb. unfold st_map_err in Hb. destruct (m w) as [y w1] eqn:Hmw. injection Hb as _ <-. by eapply Hm. Qed.
Lemma fwd_or_matches {E} p (m : st W E unit) : fwd m -> fwd (st_or_matches p m).
Proof. intros Hm w x w' Hb. unfold st_or_matches in Hb. destruct (m w) as [y w1] eqn:Hmw. injection Hb as _ <-. by eapply Hm. Qed.
Lemma fwd_for {E A} (f : A -> st W E unit) l : (forall a, fwd (f a)) -> fwd (st_for f l).
Proof. intros Hf. induction l as [|a l IH]; [apply fwd_ret|]. apply fwd_bind; [apply Hf|by intros _]. Qed.
Lemma fwd_if {E A} (b : bool) (m1 m2 : st W E A) : fwd m1 -> fwd m2 -> fwd (if b then m1 else m2).
Proof. by destruct b. Qed.

(** *** Writing *)
Context `{GitExists GE}.

Lemma st_bind_lift {E A B} (x : eff E A) (f : A -> st W E B) w : (lift x ≫= f) w = match x with EOk a => f a w | EErr e => (EErr e, w) | EPanic => (EPanic, w) end.
Proof. unfold mbind, st_bind, lift. by destruct x. Qed.
Lemma idref_create_fwd u tip : fwd (idref_create (MB := MB) (R := R) u tip : st W GE unit).
Proof.
  apply fwd_or_matches. intros w x w' Hb. unfold reference_write in Hb. rewrite (id_ref_name (MB := MB)), st_bind_lift in Hb. cbn [of_out] in Hb.
  unfold mbind, st_bind in Hb. destruct (reference_ensure_log (rad_id_name u) w) as [[[]|e|] w1] eqn:Hl; [|injection Hb as _ <-; apply forward_same; intros v; by eapply ensure_log_raw..].
  pose proof (ensure_log_raw _ _ _ _ Hl) as Hlog. apply create_raw in Hb as [(-> & Hnone & Hraw)|[_ Hraw]]; [|apply forward_same; intros v; by rewrite Hraw, Hlog].
  intros v o Ho. exists o. rewrite Hraw. destruct (decide _) as [He|]; [|rewrite Hlog; auto].
  exfalso. rewrite He in Ho. rewrite <- (Hlog (rad_id_name u)), Hnone in Ho; done.
Qed.
Lemma symbolic_fwd (s : SymbolicRef (Reference (Namespace R) PeerId) (Reference (Namespace R) PeerId)) :
  (forall n, reference_reflike (Ns := Namespace R) (source s) = Done n -> not_rad_id (MB := MB) (R := R) n) -> fwd (symbolic_create s : st W GE unit).
Proof.
  intros Hn w x w' Hb. unfold symbolic_create in Hb. rewrite st_bind_lift in Hb. destruct (reference_reflike (source s)) as [n|] eqn:Hs; cbn [of_out] in Hb.
  2: { injection Hb as _ <-. apply forward_refl. }
  rewrite st_bind_lift in Hb. destruct (reference_reflike (target s)) as [t|]; cbn [of_out] in Hb.
  2: { injection Hb as _ <-. apply forward_refl. }
  unfold reads in Hb. unfold mbind, st_bind in Hb. destruct (refname_to_id t w); cbn in Hb; [|injection Hb as _ <-; apply forward_refl].
  destruct (reference_ensure_log n w) as [[[]|e|] w1] eqn:Hl; [|injection Hb as _ <-; apply forward_same; intros v; by eapply ensure_log_raw..].
  pose proof (ensure_log_raw _ _ _ _ Hl) as Hlog. eapply (forward_other w w' n); [|by apply Hn].
  intros m Hm. rewrite <- Hlog. by eapply symbolic_raw.
Qed.
(** Fast forwarding moves to a descendant. *)
Lemma fast_forward_fwd {LE SGE} (store_git : GE -> LE) (person : Person R) :
  fwd (fast_forward (MB := MB) (SGE := SGE) store_git person).
Proof.
  unfold fast_forward. set (u := with_path None (person_urn person)). intros w x w' Hb. unfold reads in Hb. unfold mbind at 1, st_bind at 1 in Hb.
  unfold idref_oid in Hb. rewrite (id_ref_name (MB := MB)) in Hb. cbn [of_out mbind eff_bind] in Hb. unfold storage_reference_oid in Hb.
  destruct (g_refname_to_id w (rad_id_name u)) as [can|e] eqn:Hcan; cbn [map_err of_res eff_map_err] in Hb; [|injection Hb as _ <-; apply forward_refl].
  unfold mbind at 1, st_bind at 1 in Hb. destruct (g_descendant_of w (pe_content_id person) can) as [[]|e] eqn:Hd; cbn [map_err of_res of_res_with] in Hb;
    [|injection Hb as _ <-; apply forward_refl..].
  assert (forall y w1, idref_update (MB := MB) u (pe_content_id person) w = (y, w1) -> forward w w1) as Hup.
  { intros y w1 Hu. unfold idref_update, reference_write in Hu. rewrite (id_ref_name (MB := MB)), st_bind_lift in Hu. cbn [of_out] in Hu.
    unfold mbind, st_bind in Hu. destruct (reference_ensure_log (rad_id_name u) w) as [[[]|e|] w2] eqn:Hl; [|injection Hu as _ <-; apply forward_same; intros v; by eapply ensure_log_raw..].
    pose proof (ensure_log_raw _ _ _ _ Hl) as Hlog. apply create_raw in Hu as [(-> & _ & Hraw)|[_ Hraw]]; [|apply forward_same; intros v; by rewrite Hraw, Hlog].
    intros v o Ho. rewrite Hraw. destruct (decide _) as [He|]; [|exists o; rewrite Hlog; auto].
    eexists. split; [done|]. right. rewrite He in Ho. apply raw_direct in Ho. rewrite Hcan in Ho. injection Ho as ->. by eapply descendant_ok. }
  unfold st_map_err in Hb. unfold mbind, st_bind in Hb. destruct (idref_update u (pe_content_id person) w) as [[y|e|] w1] eqn:Hu; cbn in Hb; injection Hb as _ <-; by eapply Hup.
Qed.
End Forward.

(** ** Runs *)
#[export] Instance peer_id_eq : EqDecision PeerId.
Proof. solve_decision. Defined.

(** The fetcher, of a URN and a remote peer, only writes where the refspecs say; tracking and signed references are elsewhere than [rad/id]. *)
Class EnvLaws (W GE R MB MH IE SGE FE TE : Type) `{HasProtocol R MH IE} `{Multibase MB} `{RefsView W GE} `{ReplicationEnv W R SGE FE TE}
    (urn : UrnText.Urn R) (remote_peer : Key) := {
  fetch_raw f w x w' : env_fetch f w = (x, w') -> forall n, raw_ref w' n = raw_ref w n \/
    exists heads specs s, refspecs (MB := MB) (P := PeerId) f urn (MkPeerId remote_peer) heads = Done specs /\ s ∈ specs /\ dst_matches (dst s) n;
  track_raw u p w x w' : env_track u p w = (x, w') -> forall v, raw_ref w' (rad_id_name (MB := MB) v) = raw_ref w (rad_id_name (MB := MB) v);
  untrack_raw u p w x w' : env_untrack u p w = (x, w') -> forall v, raw_ref w' (rad_id_name (MB := MB) v) = raw_ref w (rad_id_name (MB := MB) v);
  update_refs_raw u w x w' : env_update_refs u w = (x, w') -> forall v, raw_ref w' (rad_id_name (MB := MB) v) = raw_ref w (rad_id_name (MB := MB) v);
}.

Section Runs.
Context {W GE R MB MH IE LE PP JP SGE FE TE : Type} `{HasProtocolLaws R MH IE} `{MultibaseLaws MB} `{RefsView W GE} `{GitExists GE}.
Context `{LinkIdentities W R LE PP JP} `{HE : ReplicationEnv W R SGE FE TE} (urn : UrnText.Urn R) (remote_peer : Key) `{!EnvLaws W GE R MB MH IE SGE FE TE urn remote_peer}.
Context (local_peer : Key) (store_git : GE -> LE).
#[local] Abbreviation Fwd := (fwd (MB := MB) (R := R)) (only parsing).

Lemma peer_has_text (p : PeerId) : exists t, into_reflike p = Done t.
Proof.
  eexists. unfold into_reflike, peer_into, peer_default_encoding.
  by rewrite (proj2 (reflike_try_from_ok _ _) (conj eq_refl (proj1 (base32z_component (MB := MB) (0 :: peer_key p))))).
Qed.
Lemma fetch_fwd f : Fwd (env_fetch f : st W FE RemoteHeads).
Proof.
  intros w x w' Hf. apply forward_same. intros u. destruct (fetch_raw f w x w' Hf (rad_id_name u)) as [|(heads & specs & s & Hs & Hin & Hd)]; [done|]. exfalso.
  destruct (refspecs_ok (MB := MB) f urn (MkPeerId remote_peer) heads) as (specs' & Hs' & Hok); [intros; apply peer_has_text|]. rewrite Hs in Hs'. injection Hs' as <-.
  rewrite Forall_forall in Hok. destruct (Hok s Hin) as [(_ & v & p & t & _ & _ & _ & Hr)|(_ & _ & _ & nm & _ & Hr)].
  - by apply (fetched_not_rad_id (MB := MB) v t (dst s) (rad_id_name u) Hr Hd u).
  - refine (fetched_not_rad_id (MB := MB) urn [star] (dst s) (rad_id_name u) _ Hd u eq_refl). rewrite Hr. apply remote_name_in.
Qed.
Lemma track_fwd u p : Fwd (env_track u p : st W TE bool).
Proof. intros w x w' Ht. apply forward_same. by eapply track_raw. Qed.
Lemma untrack_fwd u p : Fwd (env_untrack u p : st W TE bool).
Proof. intros w x w' Ht. apply forward_same. by eapply untrack_raw. Qed.
Lemma update_refs_fwd u : Fwd (env_update_refs u : st W SGE unit).
Proof. intros w x w' Ht. apply forward_same. by eapply update_refs_raw. Qed.
Lemma symref_fwd u (r : Reference (Namespace R) PeerId) : (forall n, reference_reflike (Ns := Namespace R) r = Done n -> not_rad_id (MB := MB) (R := R) n) ->
  Fwd (symref (MB := MB) (LE := LE) (SGE := SGE) (FE := FE) (TE := TE) u r).
Proof. intros Hn. unfold symref. apply fwd_bind; [apply fwd_lift|intros x]. apply fwd_bind; [apply fwd_lift|intros y]. apply fwd_map_err, fwd_or_matches, symbolic_fwd. exact Hn. Qed.

(** The rules for the operations of a run, and for what is written. *)
Ltac fwd_step :=
  match goal with
  | |- fwd (mret _) => apply fwd_ret
  | |- fwd (lift _) => apply fwd_lift
  | |- fwd (reads _) => apply fwd_reads
  | |- fwd (_ ≫= _) => apply fwd_bind; [|intros ?]
  | |- fwd (st_map_err _ _) => apply fwd_map_err
  | |- fwd (st_or_matches _ _) => apply fwd_or_matches
  | |- fwd (st_for _ _) => apply fwd_for; intros ?
  | |- fwd (env_fetch _) => apply fetch_fwd
  | |- fwd (env_track _ _) => apply track_fwd
  | |- fwd (env_untrack _ _) => apply untrack_fwd
  | |- fwd (env_update_refs _) => apply update_refs_fwd
  | |- fwd (idref_create _ _) => apply idref_create_fwd
  | |- fwd (fast_forward _ _) => apply fast_forward_fwd
  | |- fwd (if _ then _ else _) => apply fwd_if
  | |- fwd (match ?x with _ => _ end) => destruct x
  | H : context [fwd _] |- _ => apply H
  end.
Ltac fwd_auto := repeat (cbv zeta; fwd_step).

Lemma ensure_rad_id_fwd u tip : Fwd (ensure_rad_id (MB := MB) (LE := LE) (SGE := SGE) (FE := FE) (TE := TE) u tip).
Proof. unfold ensure_rad_id. fwd_auto. Qed.
Lemma adopt_rad_self_fwd u p : Fwd (adopt_rad_self (MB := MB) (LE := LE) (PP := PP) (JP := JP) (SGE := SGE) (FE := FE) (TE := TE) u p).
Proof.
  pose proof ensure_rad_id_fwd as Hens.
  assert (forall v, Fwd (symref (MB := MB) (LE := LE) (SGE := SGE) (FE := FE) (TE := TE) v (rad_self (Some (namespace_from u)) (Some (MkPeerId p))))) as Hsym
    by (intros v; apply symref_fwd; intros n; apply rad_self_not_rad_id).
  unfold adopt_rad_self, track. fwd_auto.
Qed.
Lemma adopt_delegate_person_fwd p person u :
  Fwd (adopt_delegate_person (MB := MB) (SGE := SGE) (FE := FE) (TE := TE) store_git p person u).
Proof.
  pose proof ensure_rad_id_fwd as Hens. unfold adopt_delegate_person, track. apply fwd_bind; [fwd_auto|intros known]. apply fwd_bind; [fwd_auto|intros _].
  intros w x w' Hb. rewrite st_bind_lift in Hb. destruct (rad_delegate (Some (namespace_from u)) (person_urn person)) as [r|] eqn:Hr; cbn [of_out] in Hb.
  - eapply symref_fwd; [|exact Hb]. intros n. by eapply rad_delegate_not_rad_id.
  - injection Hb as _ <-. apply forward_refl.
Qed.

Lemma person_ensure_setup_fwd u person : Fwd (person_ensure_setup (MB := MB) (LE := LE) (PP := PP) (JP := JP) (SGE := SGE) (FE := FE) (TE := TE) local_peer u person).
Proof.
  pose proof ensure_rad_id_fwd as Hens. pose proof adopt_rad_self_fwd as Hself. unfold person_ensure_setup, person_adopt_latest, track. fwd_auto.
Qed.
Lemma delegate_views_fwd proj rp : Fwd (delegate_views (MB := MB) (LE := LE) (PP := PP) (JP := JP) (SGE := SGE) (FE := FE) (TE := TE) local_peer store_git proj rp).
Proof.
  unfold delegate_views. generalize (indirect proj) at 1. generalize (@nil (Key * DelegateView R)). pose proof adopt_delegate_person_fwd as Hadopt.
  assert (forall person keys views, Fwd (delegate_keys (MB := MB) (LE := LE) (PP := PP) (JP := JP) (SGE := SGE) (FE := FE) (TE := TE) local_peer store_git proj rp person keys views)) as Hkeys.
  { intros person keys. induction keys as [|k keys IH]; intros views; cbn [delegate_keys]; fwd_auto. }
  intros views l. revert views. induction l as [|d l IH]; intros views; cbn [delegate_loop]; fwd_auto.
Qed.
Lemma project_ensure_setup_fwd limit delegates proj : Fwd (project_ensure_setup (MB := MB) (LE := LE) (PP := PP) (JP := JP) (SGE := SGE) (FE := FE) (TE := TE) local_peer limit delegates proj).
Proof.
  pose proof ensure_rad_id_fwd as Hens. pose proof adopt_rad_self_fwd as Hself.
  unfold project_ensure_setup, project_adopt_latest, track_direct, replicate_signed_refs, track. fwd_auto.
Qed.
Lemma determine_mode_fwd limit u rp : Fwd (determine_mode (MB := MB) (LE := LE) (PP := PP) (JP := JP) (SGE := SGE) (FE := FE) (TE := TE) limit u rp).
Proof. unfold determine_mode. fwd_auto. Qed.
Lemma local_link_fwd person u : Fwd (local_link (MB := MB) person u : st W GE unit).
Proof. unfold local_link. apply symbolic_fwd. intros n. apply rad_self_not_rad_id. Qed.
Lemma run_fwd u rp limit whoami : Fwd (replicate_run (MB := MB) (LE := LE) (PP := PP) (JP := JP) (SGE := SGE) (FE := FE) (TE := TE) local_peer store_git u rp limit whoami).
Proof.
  pose proof delegate_views_fwd as Hviews. pose proof project_ensure_setup_fwd as Hproj. pose proof person_ensure_setup_fwd as Hpers.
  pose proof determine_mode_fwd as Hmode. pose proof local_link_fwd as Hlink. unfold replicate_run, replicate_clone, replicate_fetch, prune. fwd_auto.
Qed.

(** C2 [replicate_forward]: however a replication ends, whatever the remote sends and whatever the state before, no [rad/id] that was there is lost or
    rewound: it is where it was, or was moved to a descendant. *)
Theorem replicate_forward limit whoami w x w' :
  replicate_run (MB := MB) (LE := LE) (PP := PP) (JP := JP) (SGE := SGE) (FE := FE) (TE := TE) local_peer store_git urn remote_peer limit whoami w = (x, w') -> forward (MB := MB) (R := R) w w'.
Proof. apply run_fwd. Qed.
End Runs.

(** *** What is tracked afterwards *)
Section Tracked.
Context {W GE R MB MH IE LE PP JP SGE FE TE : Type} `{HasProtocol R MH IE} `{Multibase MB} `{Git2Repo W GE} `{GitRefs W GE} `{GitExists GE}.
Context `{LinkIdentities W R LE PP JP} `{HE : ReplicationEnv W R SGE FE TE} (local_peer : Key) (store_git : GE -> LE).

Definition tracks (w : W) (u : UrnText.Urn R) (p : Key) : Prop := exists l, env_tracked_peers w u = Ok l /\ Ok p ∈ l.
(** Untracking removes the entry and adds none. *)
Definition untrack_removes : Prop := forall u p w b w', env_untrack u p w = (EOk b, w') -> ~ tracks w' u p /\ forall q, tracks w' u q -> tracks w u q.

Lemma prune_ok u peers : untrack_removes -> forall w w', prune (MB := MB) (GE := GE) (MH := MH) (IE := IE) (LE := LE) (SGE := SGE) (FE := FE) (TE := TE) u peers w = (EOk tt, w') ->
  (forall p, p ∈ peers -> ~ tracks w' u p) /\ forall q, tracks w' u q -> tracks w u q.
Proof.
  intros Hu. unfold prune. induction peers as [|p peers IH]; intros w w'; cbn [st_for]; [intros [= <-]; split; [by intros p ?%elem_of_nil|done]|].
  intros ([] & w1 & Hp & Hr)%st_bind_ok. apply st_bind_ok in Hp as (b & w2 & Hp & [= <-]). unfold st_map_err in Hp.
  destruct (env_untrack u p w) as [[b'|e|] w3] eqn:He; cbn in Hp; try done. injection Hp as -> ->. destruct (Hu _ _ _ _ _ He) as [Hgone Hsub].
  destruct (IH _ _ Hr) as [Hall Hsub2]. split; [|by auto]. intros q [->|Hq]%elem_of_cons; [|by apply Hall]. intros Ht. by apply Hgone, Hsub2.
Qed.
Lemma key_set_elem l k : k ∈ key_set l <-> k ∈ l.
Proof.
  unfold key_set. change (map fst ?x) with (x.*1). rewrite map_collect_key. change (map ?f ?x) with (f <$> x). rewrite <- list_fmap_compose. cbn. by rewrite list_fmap_id.
Qed.
(** [replicate_untracks_self]: after a replication that succeeded, the local peer is not tracked in the context of the URN, and it never replicates from itself. *)
Theorem replicate_untracks_self (u : UrnText.Urn R) remote_peer limit whoami w r w' : untrack_removes ->
  replicate_run (MB := MB) (LE := LE) (PP := PP) (JP := JP) (SGE := SGE) (FE := FE) (TE := TE) local_peer store_git u remote_peer limit whoami w = (EOk r, w') ->
  ~ tracks w' (urn_new (urn_id u)) local_peer /\ local_peer <> remote_peer.
Proof.
  intros Hu. unfold replicate_run. case_bool_decide as Hne; [done|]. intros ([tips next] & w1 & _ & Hr)%st_bind_ok. split; [|done].
  apply st_bind_ok in Hr as ([res rm] & w2 & _ & Hr). apply st_bind_ok in Hr as ([] & w3 & Hp & [= _ <-]).
  apply (prune_ok _ _ Hu) in Hp as [Hp _]. apply Hp, key_set_elem. by left.
Qed.

(** C39 [direct_project_panics]: replicating a project all of whose delegations are direct panics once its identity is verified, in a clone as
    in a fetch: only indirect delegations have views. *)
Theorem direct_project_panics (u rid : UrnText.Urn R) remote_peer limit whoami tips proj peers w : indirect proj = [] ->
  unsafe_into_urn (MB := MB) (with_remote (Some (MkPeerId remote_peer)) (rad_id_of u)) = Done rid ->
  (forall verified, verify_with_delegate (MB := MB) (LE := LE) (PP := PP) (JP := JP) (SGE := SGE) (FE := FE) (TE := TE) rid (Some remote_peer) w = EOk verified ->
    replicate_clone (MB := MB) (LE := LE) (PP := PP) (JP := JP) (SGE := SGE) (FE := FE) (TE := TE) local_peer store_git limit u remote_peer whoami tips (IsProject proj) peers w = (EPanic, w)) /\
  (forall verified, verify_with_delegate (MB := MB) (LE := LE) (PP := PP) (JP := JP) (SGE := SGE) (FE := FE) (TE := TE) u None w = EOk verified ->
    replicate_fetch (MB := MB) (LE := LE) (PP := PP) (JP := JP) (SGE := SGE) (FE := FE) (TE := TE) local_peer store_git limit u tips (IsProject proj) peers w = (EPanic, w)).
Proof.
  intros Hi Hrid. unfold replicate_clone, replicate_fetch, delegate_views. rewrite Hi. cbn [delegate_loop]. split; intros verified Hv.
  - rewrite Hrid. unfold mbind, st_bind, mret, st_ret, lift, reads. cbn [of_out]. rewrite Hv. done.
  - unfold mbind, st_bind, mret, st_ret, lift, reads. rewrite Hv. by destruct (unsafe_into_urn (rad_id_of u)).
Qed.
End Tracked.

(** ** A concrete world *)
Module ReplicationWitness.
Import ZBase32 UrnWitness.
#[local] Existing Instance byte_ids.
#[local] Existing Instance byte_ids_laws.

(** References by name, the newest first; an error is whether something was not found. *)
Definition World : Type := list (list N * RawRef).
Definition find_ref (w : World) (n : list N) : option RawRef := snd <$> List.find (fun r => bool_decide (r.1 = n)) w.
Definition ref_oid (w : World) (n : list N) : result bool N :=
  match find_ref w n with
  | Some (DirectRef o) => Ok o
  | Some (SymRef t) => match find_ref w t with Some (DirectRef o) => Ok o | _ => Err true end
  | None => Err true
  end.
#[local] Instance world_repo : Git2Repo World bool := {|
  is_not_found_err e := e;
  g_find_reference w n := match find_ref w n with Some _ => Ok tt | None => Err true end;
  g_target w n := match find_ref w n with Some (DirectRef o) => Some o | _ => None end;
  g_symbolic_target w n := match find_ref w n with Some (SymRef t) => Some t | _ => None end;
  g_peel w n _ := ref_oid w n;
  g_refname_to_id := ref_oid;
  g_find_object _ _ := Ok (Some OCommit);
  g_object_tree _ _ := Err true;
  g_odb _ := Ok (fun _ => true);
  g_descendant_of _ a b := Ok (b <? a);
  g_references _ := Ok [];
  g_reference_names w := Ok (map (fun r => Ok r.1) w);
  g_find_remote _ _ := Err true;
  g_get_path _ _ _ := Err true;
  g_peel_to_blob _ _ := Err true;
  g_commit_tree _ _ := Err true;
  g_first_parent_reverse _ _ := Ok [];
|}.
Definition write (n : list N) (r : RawRef) (f : bool) (w : World) : eff bool unit * World :=
  if negb f && bool_decide (is_Some (find_ref w n)) then (EErr false, w) else (EOk tt, (n, r) :: w).
#[local] Instance world_refs : GitRefs World bool := {|
  refname_to_id n w := ref_oid w n;
  reference_ensure_log _ w := (EOk tt, w);
  reference_create n o f := write n (DirectRef o) f;
  reference_symbolic n t f := write n (SymRef t) f;
|}.
#[local] Instance world_exists : GitExists bool := negb.

Lemma find_ref_cons (w : World) n r m : find_ref ((n, r) :: w) m = if decide (m = n) then Some r else find_ref w m.
Proof. unfold find_ref. cbn. destruct (decide (m = n)) as [->|]; [by rewrite bool_decide_eq_true_2|by rewrite bool_decide_eq_false_2 by congruence]. Qed.
Lemma write_spec n r f w x w' : write n r f w = (x, w') ->
  (x = EOk tt /\ (f = false -> find_ref w n = None) /\ forall m, find_ref w' m = if decide (m = n) then Some r else find_ref w m) \/
  (x <> EOk tt /\ forall m, find_ref w' m = find_ref w m).
Proof.
  unfold write. destruct f; cbn [negb andb].
  - intros [= <- <-]. left. split_and!; [done|done|]. intros m. apply find_ref_cons.
  - destruct (find_ref w n) eqn:Hf; [rewrite bool_decide_eq_true_2 by (by eexists)|rewrite bool_decide_eq_false_2 by (by intros [? ?])]; intros [= <- <-]; [by right|].
    left. split_and!; [done|done|]. intros m. apply find_ref_cons.
Qed.
#[local] Program Instance world_view : RefsView World bool := {| raw_ref := find_ref; descends a b := b < a |}.
Next Obligation. cbn. intros. lia. Qed.
Next Obligation. cbn. intros w n o Hn. unfold ref_oid. by rewrite Hn. Qed.
Next Obligation. cbn. intros _ a b [= Hd]. by apply N.ltb_lt in Hd. Qed.
Next Obligation. cbn. by intros n w x w' [= _ <-]. Qed.
Next Obligation. cbn. intros n o f w x w'. apply write_spec. Qed.
Next Obligation.
  cbn. intros n t f w x w' [(_ & _ & Hw)|[_ Hw]]%write_spec m Hm; [|apply Hw]. rewrite Hw. by rewrite decide_False.
Qed.

Definition me : Key := List.repeat 7 32.
Definition friend : Key := List.repeat 9 32.
Definition their_id : UrnText.Urn Byte.byte := MkUrn Byte.x2a None.
Definition other_id : UrnText.Urn Byte.byte := MkUrn Byte.x2b None.
Definition friend_text : list N := peer_default_encoding (MB := unit) friend.
Definition their_rad_id : list N := remote_name (urn_encode_id (MB := unit) their_id) friend_text (str "rad") (str "id").

Definition them (o : N) : Person Byte.byte := MkPerson Byte.x2a o [friend] [friend].
#[local] Instance world_identities : LinkIdentities World Byte.byte unit unit unit := {|
  li_person _ o := Ok (them o);
  li_project _ o := Ok (MkProject Byte.x2b o []);
  li_some_identity _ o := Ok (IsPerson (them o));
  li_verify_person _ o := Ok (them o);
  li_verify_project _ _ _ o := EOk (MkProject Byte.x2b o [inl friend]);
  li_newer_person _ a _ := Ok a;
  li_newer_project _ a _ := Ok a;
  li_signed_person p := Ok p;
  li_signed_project p := Ok p;
  li_base_person _ _ := mret Byte.x2a;
  li_base_project _ _ := mret Byte.x2b;
  li_create_person _ _ := lift (EErr tt);
  li_create_project _ _ := lift (EErr tt);
  li_update_person p _ _ := mret p;
  li_update_project p _ _ := mret p;
  li_update_from_person p _ := mret p;
  li_update_from_project p _ := mret p;
|}.
(** The first request of a clone finds the identity of the peer. *)
#[local] Instance world_env : ReplicationEnv World Byte.byte unit unit unit := {|
  env_track _ _ := mret true;
  env_untrack _ _ := mret true;
  env_tracked_peers _ _ := Ok [];
  env_fetch f w := match f with PeekAll _ => (EOk [(their_rad_id, 5)], (their_rad_id, DirectRef 5) :: w) | _ => (EOk [], w) end;
  env_load_refs _ _ _ := EOk None;
  env_update_refs _ := mret tt;
  env_stored_tracked e := e;
|}.
#[local] Instance world_env_laws : EnvLaws World bool Byte.byte unit unit unit unit unit unit their_id friend.
Proof.
  split; [|cbn; by intros ? ? ? ? ? [= _ <-]..|cbn; by intros ? ? ? ? [= _ <-]].
  intros [l|? ?|? ? ?] w x w' [= _ <-] n; [|by left..]. cbn [raw_ref world_view]. rewrite find_ref_cons. destruct (decide (n = their_rad_id)) as [->|]; [|by left]. right.
  exists [], (match refspecs (MB := unit) (PeekAll l) their_id (MkPeerId friend) [] with Done s => s | Panic => [] end). eexists.
  split; [vm_compute; reflexivity|]. split; [left|]. right.
  exists (str "refs/namespaces/" ++ urn_encode_id (MB := unit) their_id ++ str "/refs/remotes/"), (str "/rad/id"), friend_text.
  split; [vm_compute; reflexivity|]. split; [apply (bool_decide_unpack _); vm_compute; reflexivity|vm_compute; reflexivity].
Qed.

Definition start : World := [(rad_id_name (MB := unit) other_id, DirectRef 1)].
Definition run := replicate_run (MB := unit) (LE := unit) (PP := unit) (JP := unit) (SGE := unit) (FE := unit) (TE := unit) me (fun _ => tt) their_id friend limit_default None.

Lemma replicate_forward_witness : exists r w', run start = (EOk r, w') /\ forward (MB := unit) (R := Byte.byte) start w'.
Proof.
  assert (exists r w', run start = (EOk r, w')) as (r & w' & Hr) by (do 2 eexists; vm_compute; reflexivity).
  exists r, w'. split; [exact Hr|]. exact (replicate_forward (MB := unit) their_id friend me (fun _ => tt) limit_default None start (EOk r) w' Hr).
Defined.
Lemma world_untrack : untrack_removes (W := World) (R := Byte.byte) (TE := unit).
Proof.
  intros u p w b w1 _. unfold tracks. cbn [env_tracked_peers world_env].
  split; [intros (l & [= <-] & Hin)|intros q (l & [= <-] & Hin)]; by apply elem_of_nil in Hin.
Qed.
Lemma replicate_untracks_self_witness : exists r w', run start = (EOk r, w') /\ ~ tracks w' (urn_new (urn_id their_id)) me.
Proof.
  assert (exists r w', run start = (EOk r, w')) as (r & w' & Hr) by (do 2 eexists; vm_compute; reflexivity).
  exists r, w'. split; [exact Hr|].
  apply (replicate_untracks_self (MB := unit) me (fun _ => tt) their_id friend limit_default None start r w' world_untrack Hr).
Defined.
(** What was cloned is adopted. *)
Example clone_adopts : match run start with (EOk r, w') => identity r = Even /\ mode r = Clone /\ find_ref w' (rad_id_name (MB := unit) their_id) = Some (DirectRef 5) | _ => False end.
Proof. vm_compute. done. Qed.

Definition direct_project : Project Byte.byte := MkProject Byte.x2b 1 [inl friend].
Lemma direct_project_panics_witness :
  replicate_fetch (MB := unit) (LE := unit) (PP := unit) (JP := unit) (SGE := unit) (FE := unit) (TE := unit) me (fun _ => tt) limit_default other_id [] (IsProject direct_project) [friend] start = (EPanic, start).
Proof.
  assert (exists v, verify_with_delegate (MB := unit) (LE := unit) (PP := unit) (JP := unit) (SGE := unit) (FE := unit) (TE := unit) other_id None start = EOk v) as [v Hv]
    by (eexists; vm_compute; reflexivity).
  assert (exists rid, unsafe_into_urn (MB := unit) (with_remote (Some (MkPeerId friend)) (rad_id_of other_id)) = Done rid) as [rid Hrid] by (eexists; vm_compute; reflexivity).
  refine (proj2 (direct_project_panics (MB := unit) (LE := unit) (PP := unit) (JP := unit) (SGE := unit) (FE := unit) (TE := unit) me (fun _ => tt) other_id rid friend limit_default None []
    direct_project [friend] start eq_refl Hrid) v Hv).
Defined.
End ReplicationWitness.
