(* ===== verification/TrackingConfig.v ===== *)
(** * Tracking configurations

    [link-tracking/src/config.rs], [config/cobs.rs], [config/cobs/cjson.rs], [git/config.rs] and
    [librad/src/git/tracking/odb.rs]: which references of a tracked peer are wanted, the canonical JSON of
    such a configuration, and its storage as a git blob.  The storage discharges the interface [Odb] the
    operations of [Tracking.v] are proved against. *)
From Stdlib Require Import NArith Lia.
From stdpp Require Import base list gmap sorting.
From Stdlib Require String.
Import String.StringSyntax.
From S2P Require Import Prelude RefFormat RefName Trailers CommitMessage Tracking CobCache CanonicalFormatter CanonicalJson Utf8.
#[local] Open Scope N_scope.

(** ** Filters on collaborative objects *)

Inductive TypeName := AnyType | Type_ (ty : list N).

Definition typename_key (t : TypeName) : option (list N) := match t with AnyType => None | Type_ ty => Some ty end.
Definition typename_of_key (o : option (list N)) : TypeName := match o with None => AnyType | Some ty => Type_ ty end.
Lemma typename_key_inv t : typename_of_key (typename_key t) = t.
Proof. by destruct t. Qed.
#[export] Instance typename_key_inj : Inj (=) (=) typename_key.
Proof. intros t u He. by rewrite <- (typename_key_inv t), He, typename_key_inv. Qed.
#[export] Instance typename_eq_dec : EqDecision TypeName.
Proof. solve_decision. Defined.
#[export] Instance typename_countable : Countable TypeName := inj_countable' _ _ typename_key_inv.
(** The derived order: the wildcard is below every type. *)
#[export] Program Instance ord_typename : OrdKey TypeName := {|
  key_le t u := key_le (typename_key t) (typename_key u);
|}.
Next Obligation. intros t u. apply _. Defined.
Next Obligation. intros t u. apply (total key_le). Qed.
Next Obligation. intros t u v. apply (transitivity (R := key_le)). Qed.
Next Obligation. intros t u H1 H2. apply (inj typename_key). by apply (anti_symm key_le). Qed.

Inductive Policy := Allow | Deny.
Definition inverse (p : Policy) : Policy := match p with Allow => Deny | Deny => Allow end.

Inductive Pattern := AnyObject | Objects (objs : gset N).
Definition matches (p : Pattern) (oid : N) : bool :=
  match p with AnyObject => true | Objects objs => bool_decide (oid ∈ objs) end.

Record CobFilter := MkFilter { policy : Policy; pattern : Pattern }.

#[export] Instance policy_eq_dec : EqDecision Policy.
Proof. solve_decision. Defined.

Abbreviation Cobs := (gmap TypeName CobFilter) (only parsing).

Definition allow_all : Cobs := {[ AnyType := MkFilter Allow AnyObject ]}.
Definition deny_all : Cobs := {[ AnyType := MkFilter Deny AnyObject ]}.
Definition cobs_empty : Cobs := ∅.
Definition cobs_get (c : Cobs) (ty : list N) : option CobFilter := c !! Type_ ty.
Definition wildcard (c : Cobs) : option CobFilter := c !! AnyType.
Definition cobs_insert (t : TypeName) (f : CobFilter) (c : Cobs) : option CobFilter * Cobs := (c !! t, <[t := f]> c).
Definition cobs_remove (t : TypeName) (c : Cobs) : Cobs := delete t c.
(** [FromIterator]: of two entries for a type the later one stays. *)
Definition cobs_from_iter (l : list (TypeName * CobFilter)) : Cobs := foldl (fun c kv => <[kv.1 := kv.2]> c) ∅ l.

(** *** [Entry]: a type name with the map it borrows; the operations change the map in place. *)
Definition and_modify (t : TypeName) (f : CobFilter -> CobFilter) (c : Cobs) : Cobs :=
  match c !! t with Some x => <[t := f x]> c | None => c end.
Definition set_policy (t : TypeName) (p : Policy) : Cobs -> Cobs := and_modify t (fun f => MkFilter p (pattern f)).
Definition set_pattern (t : TypeName) (p : Pattern) : Cobs -> Cobs := and_modify t (fun f => MkFilter (policy f) p).
Definition insert_objects (t : TypeName) (ids : list N) : Cobs -> Cobs :=
  and_modify t (fun f =>
    match pattern f with
    | AnyObject => f
    | Objects objs => MkFilter (policy f) (Objects (foldl (fun s id => {[ id ]} ∪ s) objs ids))
    end).
Definition remove_objects (t : TypeName) (ids : list N) : Cobs -> Cobs :=
  and_modify t (fun f =>
    match pattern f with
    | AnyObject => f
    | Objects objs => MkFilter (policy f) (Objects (foldl (fun s id => s ∖ {[ id ]}) objs ids))
    end).
Definition or_insert_with_key (t : TypeName) (default : TypeName -> CobFilter) (c : Cobs) : Cobs * CobFilter :=
  match c !! t with Some f => (c, f) | None => (<[t := default t]> c, default t) end.
Definition or_insert_with (t : TypeName) (default : unit -> CobFilter) (c : Cobs) : Cobs * CobFilter :=
  or_insert_with_key t (fun _ => default tt) c.
Definition or_insert (t : TypeName) (default : CobFilter) (c : Cobs) : Cobs * CobFilter :=
  or_insert_with_key t (fun _ => default) c.

Record Config := MkConfig { data : bool; cobs : Cobs }.
Definition config_default : Config := MkConfig true allow_all.

(** ** Canonical JSON *)

Definition POLICY : list N := str "policy".
Definition PATTERN : list N := str "pattern".
Definition DATA : list N := str "data".
Definition KCOBS : list N := str "cobs".

(** [cob::TypeName::from_str]; [Display] gives the text back. *)
Definition typename_parse (s : list N) : result unit (list N) := if type_parts false s then Ok s else Err tt.

Inductive PolicyError := UnexpectedPolicy (s : list N) | PolicyMismatchedTy (expected found : list N).
Inductive PatternError (OE : Type) : Type :=
| ExpectedWildcard | PatternMismatchedTy (expected found : list N) | Identifier (e : OE).
Arguments ExpectedWildcard {OE}. Arguments PatternMismatchedTy {OE} expected found. Arguments Identifier {OE} e.
Inductive FilterError (OE : Type) : Type :=
| FilterMissing (key : list N) | FilterMismatchedTy (expected found : list N)
| FilterPattern (e : PatternError OE) | FilterPolicy (e : PolicyError).
Arguments FilterMissing {OE} key. Arguments FilterMismatchedTy {OE} expected found.
Arguments FilterPattern {OE} e. Arguments FilterPolicy {OE} e.
(** [MismatchedStr] is never constructed. *)
Inductive CobsError (OE : Type) : Type :=
| CobsMismatchedTy (expected found : list N) | CobsMismatchedStr (s : list N)
| CobsFilter (e : FilterError OE) | CobsTypeName (e : unit).
Arguments CobsMismatchedTy {OE} expected found. Arguments CobsMismatchedStr {OE} s.
Arguments CobsFilter {OE} e. Arguments CobsTypeName {OE} e.
Inductive CjsonError (OE : Type) : Type :=
| CjsonMismatchedTy (expected found : list N) | CjsonMissing (key : list N) | CjsonCobs (e : CobsError OE).
Arguments CjsonMismatchedTy {OE} expected found. Arguments CjsonMissing {OE} key. Arguments CjsonCobs {OE} e.
(** [Value::try_from(&[u8])] fails on bytes that are not UTF-8, and where parsing fails. *)
Inductive BytesError (E : Type) : Type := NotUtf8 | BadJson (e : FromStrError (E := E)).
Arguments NotUtf8 {E}. Arguments BadJson {E} e.
Inductive ParseError (E OE : Type) : Type := ParseBytes (e : BytesError E) | ParseCjson (e : CjsonError OE).
Arguments ParseBytes {E OE} e. Arguments ParseCjson {E OE} e.

Section Cjson.
Context {MB MH G E : Type} `{Multicodec MB MH G} `{Nfc} `{NomStream E}.
Local Abbreviation oid_error := (ParseObjectId MB MH G).

(** *** Writing *)
Definition policy_cjson (p : Policy) : Value :=
  string_cjson (match p with Allow => str "allow" | Deny => str "deny" end).
(** [Cstring::from(TypeName)] *)
Definition typename_cstring (t : TypeName) : list N :=
  cstring_from (match t with AnyType => str "*" | Type_ ty => ty end).
Definition typename_cjson (t : TypeName) : Value := JString (cstring_from (typename_cstring t)).
Definition objectid_cstring (id : N) : list N := cstring_from (encode_oid id).
Definition objectid_cjson (id : N) : Value := JString (objectid_cstring id).
Definition pattern_cjson (p : Pattern) : Value :=
  match p with
  | AnyObject => string_cjson (str "*")
  | Objects objs => Array (objectid_cjson <$> bset_iter objs)
  end.
(** What [#[derive(ToCjson)]] generates for [Filter]. *)
Definition filter_cjson (f : CobFilter) : Value :=
  into_object [(str "policy", policy_cjson (policy f)); (str "pattern", pattern_cjson (pattern f))].
Definition cobs_cjson (c : Cobs) : Value :=
  Object (map_collect ((fun kv => (typename_cstring kv.1, filter_cjson kv.2)) <$> btree_iter c)).
Definition config_cjson (c : Config) : Value :=
  into_object [(str "data", into_cjson (data c)); (str "cobs", cobs_cjson (cobs c))].
(** [Config::canonical_form] *)
Definition config_canonical_form (c : Config) : list N := utf8 (to_text (config_cjson c)).

(** *** Reading *)
Definition policy_try_from (v : Value) : result PolicyError Policy :=
  match v with
  | JString s =>
      if bool_decide (s = str "allow") then Ok Allow
      else if bool_decide (s = str "deny") then Ok Deny
      else Err (UnexpectedPolicy s)
  | v => Err (PolicyMismatchedTy (str "expected string 'allow' or 'deny'") (ty_name v))
  end.
Definition object_try_from (v : Value) : result (PatternError oid_error) N :=
  match v with
  | JString s => map_err Identifier (object_id_from_str s)
  | v => Err (PatternMismatchedTy (str "<object id>") (ty_name v))
  end.
Definition pattern_try_from (v : Value) : result (PatternError oid_error) Pattern :=
  match v with
  | Array objs => ids ← mapM object_try_from objs; Ok (Objects (list_to_set ids))
  | JString s => if bool_decide (s = str "*") then Ok AnyObject else Err ExpectedWildcard
  | v => Err (PatternMismatchedTy (str "string of '*' or '[<object id> ..]'") (ty_name v))
  end.
Definition filter_try_from (v : Value) : result (FilterError oid_error) CobFilter :=
  match v with
  | Object map =>
      let (map, policy) := Map_remove POLICY map in
      policy ← ok_or policy (FilterMissing POLICY);
      let (map, pattern) := Map_remove PATTERN map in
      pattern ← ok_or pattern (FilterMissing PATTERN);
      policy ← map_err FilterPolicy (policy_try_from policy);
      pattern ← map_err FilterPattern (pattern_try_from pattern);
      Ok (MkFilter policy pattern)
  | v => Err (FilterMismatchedTy (str "expected string 'allow' or 'deny'") (ty_name v))
  end.
Definition try_typename (typename : list N) : result (CobsError oid_error) TypeName :=
  if bool_decide (typename = str "*") then Ok AnyType
  else ty ← map_err CobsTypeName (typename_parse typename); Ok (Type_ ty).
Definition cobs_entry_try_from (kv : list N * Value) : result (CobsError oid_error) (TypeName * CobFilter) :=
  let typename := try_typename kv.1 in
  let filter := map_err CobsFilter (filter_try_from kv.2) in
  ty ← typename; f ← filter; Ok (ty, f).
Definition cobs_try_from (v : Value) : result (CobsError oid_error) Cobs :=
  match v with
  | Object cobs => l ← mapM cobs_entry_try_from cobs; Ok (cobs_from_iter l)
  | v => Err (CobsMismatchedTy (123 :: 34 :: str "<typename>" ++ 34 :: str ": [<object id>...]}") (ty_name v))
  end.
Definition config_try_from (v : Value) : result (CjsonError oid_error) Config :=
  match v with
  | Object map =>
      let (map, cobs) := Map_remove KCOBS map in
      cobs ← ok_or cobs (CjsonMissing KCOBS);
      let (map, data) := Map_remove DATA map in
      data ← ok_or data (CjsonMissing DATA);
      data ← match data with JBool data => Ok data | v => Err (CjsonMismatchedTy (str "bool") (ty_name v)) end;
      cobs ← map_err CjsonCobs (cobs_try_from cobs);
      Ok (MkConfig data cobs)
  | v => Err (CjsonMismatchedTy (str "object, keys: [" ++ 34 :: str "cobs" ++ 34 :: str ", " ++ 34 :: str "data" ++ 34 :: str "]") (ty_name v))
  end.

(** [Value::try_from(&[u8])] *)
Definition value_try_from_bytes (fuel : nat) (bytes : list N) : result (BytesError E) Value :=
  match from_utf8 bytes with
  | None => Err NotUtf8
  | Some s => map_err BadJson (value_from_str fuel s)
  end.
(** [Config::try_from(&[u8])]; a configuration nests five values deep. *)
Definition config_try_from_bytes (fuel : nat) (bytes : list N) : result (ParseError E oid_error) Config :=
  val ← map_err ParseBytes (value_try_from_bytes fuel bytes);
  map_err ParseCjson (config_try_from val).
(** [Config::try_from(&str)] and [Config::from_str] *)
Definition config_from_str (fuel : nat) (s : list N) : result (ParseError E oid_error) Config :=
  config_try_from_bytes fuel (utf8 s).
End Cjson.

(** ** [git/config.rs] *)

Definition DATA_REFS : list (list N) := [Name.HEADS; Name.TAGS; Name.NOTES].

Inductive ObjectError (OE : Type) : Type := ObjectMismatchedTy (expected found : list N) | ObjectParse (e : OE).
Arguments ObjectMismatchedTy {OE} expected found. Arguments ObjectParse {OE} e.

Section Git.
Context {MB MH G : Type} `{Multicodec MB MH G} `{Nfc}.

(** [TypeName::try_from(&Component)] and [ObjectId::try_from(&Component)] parse the text of the component. *)
Definition objectid_parse (s : list N) : result (ObjectError (ParseObjectId MB MH G)) N :=
  map_err ObjectParse (object_id_from_str s).
Definition objectid_try_from_value (v : Value) : result (ObjectError (ParseObjectId MB MH G)) N :=
  match v with
  | JString id => objectid_parse id
  | v => Err (ObjectMismatchedTy (str "string representing object identifier") (ty_name v))
  end.

Definition policy_for (self : Config) (refname : list N) : outcome Policy :=
  '(_, cat, x, tail) ← Name.non_empty_iter refname;
  Done
    (if bool_decide (Name.COBS = cat) then
       let ty := res_ok (typename_parse x) in
       let id := head tail ≫= fun id => res_ok (objectid_parse id) in
       if bool_decide (is_Some (tail !! 1%nat)) then Deny else
       match ty, id with
       | Some ty, Some id =>
           match cobs_get (cobs self) ty with
           | None =>
               match wildcard (cobs self) with
               | None => Allow
               | Some f => policy f
               end
           | Some f => if matches (pattern f) id then policy f else inverse (policy f)
           end
       | _, _ => Deny
       end
     else if data self && existsb (fun allowed => bool_decide (allowed = cat)) DATA_REFS then Allow else Deny).

(** [Component::from]: two [expect]s. *)
Definition component_of_text (s : list N) : outcome (list N) :=
  r ← unwrap (res_ok (Name.try_from_str s));
  unwrap (Name.from_refstring r).
Definition typename_component (ty : list N) : outcome (list N) := component_of_text ty.
Definition objectid_component (id : N) : outcome (list N) := component_of_text (encode_oid id).

Definition typename_canonical_form (ty : list N) : list N := utf8 (to_text (JString (cstring_from ty))).
Definition objectid_canonical_form (id : N) : list N := utf8 (to_text (objectid_cjson id)).
End Git.

(** ** [librad/src/git/tracking/odb.rs] *)

(** What is used of libgit2: an object is found with the content it has if it is a blob. *)
Class GitBlobs (W GE : Type) := {
  gb_not_found : GE -> bool;
  gb_find_object : W -> N -> result GE (option (list N));
  gb_blob : list N -> W -> result GE (N * W);
}.

Inductive FindError (GE PE : Type) : Type := NotBlob (oid : N) | FindRead (e : GE) | FindConfig (oid : N) (e : PE).
Arguments NotBlob {GE PE} oid. Arguments FindRead {GE PE} e. Arguments FindConfig {GE PE} oid e.
Inductive ModifyError (GE PE : Type) : Type := ModifyFind (e : FindError GE PE) | ModifyMissing (oid : N) | ModifyWrite (e : GE).
Arguments ModifyFind {GE PE} e. Arguments ModifyMissing {GE PE} oid. Arguments ModifyWrite {GE PE} e.

Section Storage.
Context {MB MH G E W GE : Type} `{Multicodec MB MH G} `{Nfc} `{NomStream E} `{GitBlobs W GE}.
Local Abbreviation find_error := (FindError GE (ParseError E (ParseObjectId MB MH G))).

(** [ReadOnly::find_object] *)
Definition config_object (w : W) (oid : N) : result GE (option (option (list N))) :=
  if oid =? 0 then Ok None else
  match gb_find_object w oid with
  | Ok o => Ok (Some o)
  | Err e => if gb_not_found e then Ok None else Err e
  end.
Definition storage_find_config (fuel : nat) (w : W) (oid : N) : result find_error (option Config) :=
  obj ← map_err FindRead (config_object w oid);
  match obj with
  | None => Ok None
  | Some obj =>
      blob ← ok_or obj (NotBlob oid);
      c ← map_err (FindConfig oid) (config_try_from_bytes fuel blob);
      Ok (Some c)
  end.
Definition storage_write_config (c : Config) (w : W) : result GE (N * W) := gb_blob (config_canonical_form c) w.
Definition storage_modify_config (fuel : nat) (oid : N) (f : Config -> Config) (w : W)
    : result (ModifyError GE (ParseError E (ParseObjectId MB MH G))) (N * W) :=
  found ← map_err ModifyFind (storage_find_config fuel w oid);
  config ← ok_or found (ModifyMissing oid);
  map_err ModifyWrite (storage_write_config (f config) w).
End Storage.

(** ** What is relied on *)

(** Normalization leaves ASCII as it is. *)
Class NfcAscii `{Nfc} := nfc_ascii s : Forall (fun c => c < 128) s -> nfc s = s.
(** The alphabet of z-base32. *)
Class Base32Text (MB MH G : Type) `{Multicodec MB MH G} :=
  base32_alnum bs : Forall (fun c => is_type_char c = true) (multibase_encode bs).
(** A blob that was written is found, under an id that is not zero, and nothing is lost. *)
Class GitBlobsLaws (W GE : Type) `{GitBlobs W GE} := {
  gb_blob_find bs w o w' : gb_blob bs w = Ok (o, w') -> o <> 0 /\ gb_find_object w' o = Ok (Some bs);
  gb_blob_keeps bs w o w' o' x : gb_blob bs w = Ok (o, w') -> gb_find_object w o' = Ok x -> gb_find_object w' o' = Ok x;
}.

(** ** Maps and their entries *)

(** An object made from a list with an injective key is read back up to the order of the entries. *)
Lemma map_collect_mapM {A V E B} (key : A -> list N) (val : A -> V) (f : list N * V -> result E B) (g : A -> B) l :
  NoDup (key <$> l) -> (forall a, a ∈ l -> f (key a, val a) = Ok (g a)) ->
  exists l', l' ≡ₚ l /\ map_collect ((fun a => (key a, val a)) <$> l) = (fun a => (key a, val a)) <$> l' /\
    mapM f (map_collect ((fun a => (key a, val a)) <$> l)) = Ok (g <$> l').
Proof.
  intros Hn Hf. assert (NoDup ((fun a => (key a, val a)) <$> l).*1) as Hn' by (by rewrite <- list_fmap_compose).
  apply map_collect_of in Hn'. apply Permutation_map_inv in Hn' as (l' & He & Hp). exists l'. split; [done|]. split; [done|].
  rewrite He. assert (forall a, a ∈ l' -> f (key a, val a) = Ok (g a)) as Hf'.
  { intros a Ha. apply Hf. by rewrite Hp. }
  clear -Hf'. induction l' as [|a l' IH]; [done|]. cbn. rewrite Hf' by set_solver. cbn. by rewrite IH by set_solver.
Qed.

Lemma cobs_from_iter_list l : NoDup l.*1 -> cobs_from_iter l = (list_to_map l : gmap TypeName CobFilter).
Proof.
  intros Hl. rewrite (list_to_map_proper (M := gmap TypeName) l (reverse l)) by (done || by rewrite reverse_Permutation). clear Hl.
  unfold cobs_from_iter. induction l as [|[k f] l IH] using rev_ind; [done|]. by rewrite foldl_app, reverse_snoc, IH.
Qed.
Lemma btree_iter_perm {K} `{OrdKey K} {V} (m : gmap K V) : btree_iter m ≡ₚ map_to_list m.
Proof.
  apply NoDup_Permutation; [|apply NoDup_map_to_list|].
  - apply (NoDup_fmap_1 fst). rewrite btree_iter_fst. apply btree_keys_nodup.
  - intros [k v]. by rewrite elem_of_btree_iter, elem_of_map_to_list.
Qed.
Lemma cobs_from_btree (c : Cobs) l : l ≡ₚ btree_iter c -> cobs_from_iter l = c.
Proof.
  intros Hl. rewrite btree_iter_perm in Hl.
  assert (NoDup l.*1) as Hn by (rewrite Hl; apply NoDup_fst_map_to_list).
  rewrite cobs_from_iter_list by done. rewrite (list_to_map_proper _ _ Hn Hl). apply list_to_map_to_list.
Qed.

(** ** Texts *)

(** Letters, digits, dots and stars. *)
Definition plain_char (c : N) : bool := is_type_char c || (c =? 46) || (c =? 42).
Definition plain (s : list N) : bool := forallb plain_char s.

Lemma type_char_bounds c : is_type_char c = true -> 48 <= c <= 122 /\ c <> 92 /\ c <> 46 /\ c <> 42 /\ c <> 34.
Proof. unfold is_type_char. rewrite !orb_true_iff, !andb_true_iff, !N.leb_le. lia. Qed.
Lemma plain_char_bounds c : plain_char c = true -> 32 <= c < 128 /\ c <> 92 /\ c <> 34.
Proof.
  unfold plain_char. rewrite !orb_true_iff, !N.eqb_eq. intros [[Hc%type_char_bounds|Hc]|Hc]; lia.
Qed.
Lemma type_parts_chars s : forall b, type_parts b s = true -> Forall (fun c => is_type_char c = true \/ c = 46) s.
Proof.
  induction s as [|c s IH]; intros b Hs; [done|]. cbn in Hs. destruct (N.eqb_spec c 46); apply andb_true_iff in Hs as [? ?]; eauto.
Qed.
Lemma type_parts_plain s b : type_parts b s = true -> plain s = true.
Proof.
  intros Hs%type_parts_chars. apply forallb_forall. intros c Hc%list_elem_of_In. rewrite Forall_forall in Hs.
  unfold plain_char. destruct (Hs c Hc) as [->| ->]; [done|]. by rewrite orb_true_r.
Qed.
Lemma type_parts_star s b : type_parts b s = true -> s <> str "*".
Proof. intros Hs ->. by destruct b. Qed.

Definition typename_ok (t : TypeName) : bool := match t with AnyType => true | Type_ ty => type_parts false ty end.
(** The names of a configuration are names of types. *)
Definition config_ok (c : Config) : Prop := map_Forall (fun t _ => typename_ok t = true) (cobs c).
#[export] Instance config_ok_dec c : Decision (config_ok c) := _.

Section Text.
Context `{NfcAscii}.

Lemma plain_nfc s : plain s = true -> nfc s = s.
Proof.
  intros Hs. apply nfc_ascii, Forall_forall. intros c Hc%list_elem_of_In. eapply forallb_forall in Hs; [|done].
  apply plain_char_bounds in Hs. lia.
Qed.
Lemma plain_legal s : plain s = true -> legal s = true.
Proof.
  induction s as [|c s IH]; [done|]. cbn [plain forallb legal]. rewrite andb_true_iff. intros [Hc%plain_char_bounds Hs].
  destruct (N.eqb_spec c 92); [lia|]. rewrite IH, andb_true_r by done. unfold is_nonescaped_string_char.
  rewrite !andb_true_iff, N.leb_le, !negb_true_iff, !N.eqb_neq. lia.
Qed.
Lemma plain_string_ok s : plain s = true -> string_ok s = true.
Proof. intros Hs. unfold string_ok. by rewrite plain_legal, bool_decide_true by auto using plain_nfc. Qed.
Lemma plain_scalars s : plain s = true -> scalars s = true.
Proof.
  intros Hs. apply forallb_forall. intros c Hc. eapply forallb_forall in Hs; [|done]. apply plain_char_bounds in Hs.
  unfold scalar. by destruct (N.ltb_spec c 55296); [|lia].
Qed.

(** *** Values whose strings are plain *)
Fixpoint plain_value (v : Value) : bool :=
  match v with
  | Object m => keys_sorted m && forallb (fun kv => plain kv.1 && plain_value kv.2) m
  | Array vs => forallb plain_value vs
  | JString s => plain s
  | JNumber _ => false
  | _ => true
  end.
Lemma plain_canonical v : plain_value v = true -> canonical v = true.
Proof.
  induction v as [m IH|vs IH|s| | |] using value_ind; try done; cbn [plain_value canonical].
  - rewrite !andb_true_iff. intros [-> Hm]. split; [done|]. rewrite forallb_forall in Hm |- *. intros kv Hkv.
    rewrite Forall_forall in IH. specialize (Hm kv Hkv). apply andb_true_iff in Hm as [Hk Hv].
    rewrite plain_string_ok by done. apply IH; [by apply list_elem_of_In|done].
  - rewrite !forallb_forall. rewrite Forall_forall in IH. intros Hm v Hv. apply IH; [by apply list_elem_of_In|auto].
  - apply plain_string_ok.
Qed.
Lemma scalars_app s t : scalars (s ++ t) = scalars s && scalars t.
Proof. apply forallb_app. Qed.
Lemma scalars_intercalate l : Forall (fun s => scalars s = true) l -> scalars (intercalate l) = true.
Proof.
  induction 1 as [|s [|t l] Hs Hl IH]; [done|done|]. rewrite intercalate_cons, scalars_app, Hs. done.
Qed.
Lemma scalars_between a b s : scalar a = true -> scalar b = true -> scalars s = true -> scalars (between a b s) = true.
Proof. intros Ha Hb Hs. unfold between, scalars. cbn [forallb]. rewrite Ha, forallb_app. unfold scalars in Hs. rewrite Hs. cbn. by rewrite Hb. Qed.
Lemma plain_text v : plain_value v = true -> scalars (to_text v) = true.
Proof.
  induction v as [m IH|vs IH|s| |b|] using value_ind; try done; cbn [plain_value to_text].
  - rewrite andb_true_iff, forallb_forall. rewrite Forall_forall in IH. intros [_ Hm]. apply scalars_between; [done..|].
    apply scalars_intercalate, Forall_forall. intros t (kv & -> & Hkv)%list_elem_of_fmap.
    specialize (Hm kv ltac:(by apply list_elem_of_In)). apply andb_true_iff in Hm as [Hk Hv].
    rewrite scalars_app. unfold string_text. rewrite scalars_between by (done || by apply plain_scalars). cbn. by apply IH.
  - rewrite forallb_forall. rewrite Forall_forall in IH. intros Hm. apply scalars_between; [done..|].
    apply scalars_intercalate, Forall_forall. intros t (v & -> & Hv)%list_elem_of_fmap. apply IH; [done|]. by apply Hm, list_elem_of_In.
  - intros Hs. apply scalars_between; [done..|]. by apply plain_scalars.
  - by destruct b.
Qed.
End Text.

(** ** A configuration is read back *)
Section RoundTrip.
Context {MB MH G E : Type} `{MulticodecLaws MB MH G} `{!Base32Text MB MH G} `{NfcAscii} `{NomStreamLaws E}.

Lemma encode_plain id : plain (encode_oid id) = true.
Proof.
  apply forallb_forall. intros c Hc%list_elem_of_In. pose proof (base32_alnum (into_multihash id)) as Ha.
  rewrite Forall_forall in Ha. unfold plain_char. by rewrite (Ha c Hc).
Qed.
Lemma objectid_text id : objectid_cstring id = encode_oid id.
Proof. apply plain_nfc, encode_plain. Qed.

Lemma objects_read ids : mapM object_try_from (objectid_cjson <$> ids) = Ok ids.
Proof.
  induction ids as [|id ids IH]; [done|]. cbn. rewrite objectid_text, object_id_roundtrip. cbn. by rewrite IH.
Qed.
Lemma list_to_bset (s : gset N) : list_to_set (bset_iter s) = s.
Proof. apply set_eq. intros x. by rewrite elem_of_list_to_set, elem_of_bset_iter. Qed.
Lemma pattern_read p : pattern_try_from (pattern_cjson p) = Ok p.
Proof.
  destruct p as [|objs]; cbn [pattern_cjson pattern_try_from].
  - unfold string_cjson, cstring_from. by rewrite plain_nfc.
  - rewrite objects_read. cbn. by rewrite list_to_bset.
Qed.
Lemma policy_read p : policy_try_from (policy_cjson p) = Ok p.
Proof.
  unfold policy_cjson, string_cjson, cstring_from. by rewrite plain_nfc; destruct p.
Qed.

Lemma filter_cjson_eq f :
  filter_cjson f = Object [(PATTERN, pattern_cjson (pattern f)); (POLICY, policy_cjson (policy f))].
Proof.
  unfold filter_cjson, into_object. rewrite !fmap_cons. cbn [fst snd fmap list_fmap]. unfold cstring_from.
  by rewrite !plain_nfc.
Qed.
Lemma filter_read f : filter_try_from (filter_cjson f) = Ok f.
Proof.
  rewrite filter_cjson_eq. unfold filter_try_from, Map_remove. cbn [map_get map_remove].
  change (str_cmp POLICY PATTERN) with Gt. change (str_cmp POLICY POLICY) with Eq. cbn [map_get map_remove].
  change (str_cmp PATTERN PATTERN) with Eq. cbn -[policy_try_from pattern_try_from].
  rewrite policy_read. cbn -[pattern_try_from]. rewrite pattern_read. by destruct f.
Qed.

Definition typename_text (t : TypeName) : list N := match t with AnyType => str "*" | Type_ ty => ty end.
Lemma typename_plain t : typename_ok t = true -> plain (typename_text t) = true.
Proof. destruct t; [done|]. apply type_parts_plain. Qed.
Lemma typename_cstring_eq t : typename_ok t = true -> typename_cstring t = typename_text t.
Proof. intros Ht. by apply plain_nfc, typename_plain. Qed.
Lemma typename_read t : typename_ok t = true -> try_typename (typename_text t) = @Ok (CobsError (ParseObjectId MB MH G)) _ t.
Proof.
  destruct t as [|ty]; [done|]. cbn. intros Ht. unfold try_typename, typename_parse.
  rewrite bool_decide_false by (by eapply type_parts_star). by rewrite Ht.
Qed.
Lemma cobs_entry_read t f : typename_ok t = true -> cobs_entry_try_from (typename_cstring t, filter_cjson f) = Ok (t, f).
Proof.
  intros Ht. unfold cobs_entry_try_from. cbn [fst snd]. by rewrite typename_cstring_eq, typename_read, filter_read.
Qed.

(** The entries of the object a map of filters is written as. *)
Lemma cobs_object (c : Cobs) : map_Forall (fun t _ => typename_ok t = true) c -> exists l,
  l ≡ₚ btree_iter c /\ cobs_cjson c = Object ((fun kv => (typename_cstring kv.1, filter_cjson kv.2)) <$> l) /\
  cobs_try_from (cobs_cjson c) = Ok c.
Proof.
  intros Hc. assert (forall kv, kv ∈ btree_iter c -> typename_ok kv.1 = true) as Hok.
  { intros [t f] Hin. apply elem_of_btree_iter in Hin. by apply (Hc t f). }
  destruct (map_collect_mapM (fun kv => typename_cstring kv.1) (fun kv => filter_cjson kv.2) cobs_entry_try_from id (btree_iter c))
    as (l & Hp & He & Hm).
  - assert (NoDup (btree_iter c).*1) as Hn by (rewrite btree_iter_fst; apply btree_keys_nodup). revert Hn Hok.
    generalize (btree_iter c) as l. induction l as [|[t f] l IH]; intros Hn Hok; [constructor|]. revert Hn Hok. rewrite !fmap_cons, !NoDup_cons. cbn [fst]. intros [Hn Hl] Hok. split.
    + intros ([t' f'] & He & Hin)%list_elem_of_fmap. cbn [fst] in He. rewrite !typename_cstring_eq in He.
      * apply (f_equal (try_typename (MB := MB) (MH := MH) (G := G))) in He. rewrite !typename_read in He; [|by apply (Hok (t', f')); right|by apply (Hok (t, f)); left].
        apply Hn, list_elem_of_fmap. exists (t', f'). split; [|done]. cbn. congruence.
      * by apply (Hok (t', f')); right.
      * by apply (Hok (t, f)); left.
    + apply IH; [done|]. intros kv Hkv. apply Hok. by right.
  - intros [t f] Hin. apply cobs_entry_read. by apply (Hok (t, f)).
  - exists l. split; [done|]. unfold cobs_cjson. split; [by rewrite He|]. cbn [cobs_try_from]. rewrite Hm, list_fmap_id. cbn.
    by rewrite (cobs_from_btree c).
Qed.
Lemma config_cjson_eq c :
  config_cjson c = Object [(KCOBS, cobs_cjson (cobs c)); (DATA, JBool (data c))].
Proof.
  unfold config_cjson, into_object. rewrite !fmap_cons. cbn [fst snd fmap list_fmap]. unfold cstring_from.
  by rewrite !plain_nfc.
Qed.
Lemma config_read c : config_ok c -> config_try_from (config_cjson c) = Ok c.
Proof.
  intros Hc. rewrite config_cjson_eq. unfold config_try_from, Map_remove. cbn [map_get map_remove].
  change (str_cmp DATA KCOBS) with Gt. change (str_cmp KCOBS KCOBS) with Eq. cbn [map_get map_remove].
  change (str_cmp DATA DATA) with Eq. cbn -[cobs_try_from cobs_cjson].
  destruct (cobs_object (cobs c) Hc) as (l & _ & _ & ->). by destruct c.
Qed.

(** *** The text of a configuration *)
Lemma pattern_shape p : plain_value (pattern_cjson p) = true /\ (depth (pattern_cjson p) <= 2)%nat.
Proof.
  destruct p as [|objs]; cbn [pattern_cjson].
  - unfold string_cjson, cstring_from. rewrite plain_nfc by done. split; [done|]. cbn. lia.
  - cbn [plain_value depth]. split.
    + apply forallb_forall. intros v (id & <- & _)%in_map_iff. cbn. rewrite objectid_text. apply encode_plain.
    + induction (bset_iter objs); cbn in *; lia.
Qed.
Lemma filter_shape f : plain_value (filter_cjson f) = true /\ (depth (filter_cjson f) <= 3)%nat.
Proof.
  rewrite filter_cjson_eq. destruct (pattern_shape (pattern f)) as [Hp Hd].
  assert (plain_value (policy_cjson (policy f)) = true /\ depth (policy_cjson (policy f)) = 1%nat) as [Hq Hdq].
  { unfold policy_cjson, string_cjson, cstring_from. by rewrite plain_nfc; destruct (policy f). }
  revert Hp Hd Hq Hdq. generalize (pattern_cjson (pattern f)) (policy_cjson (policy f)). intros v w Hv Hd Hw Hdw.
  cbn. rewrite Hv, Hw, Hdw. split; [done|]. lia.
Qed.
Lemma max_list_le l n : Forall (fun x => x <= n)%nat l -> (max_list l <= n)%nat.
Proof. induction 1; cbn; lia. Qed.
Lemma config_shape c : config_ok c -> plain_value (config_cjson c) = true /\ (depth (config_cjson c) <= 5)%nat.
Proof.
  intros Hc. rewrite config_cjson_eq. destruct (cobs_object (cobs c) Hc) as (l & Hl & He & _).
  assert (plain_value (cobs_cjson (cobs c)) = true /\ (depth (cobs_cjson (cobs c)) <= 4)%nat) as [Hp Hd].
  { pose proof He as He'. unfold cobs_cjson in He. injection He as He.
    assert (forall kv, kv ∈ l -> typename_ok kv.1 = true) as Hok.
    { intros [t f] Hin. rewrite Hl in Hin. apply elem_of_btree_iter in Hin. by apply (Hc t f). }
    rewrite He'. cbn [plain_value depth]. split.
    - rewrite <- He, map_collect_keys_sorted, He. apply forallb_forall. intros kv ([t f] & <- & Hin)%in_map_iff.
      cbn [fst snd]. apply list_elem_of_In in Hin. specialize (Hok _ Hin). cbn in Hok.
      rewrite typename_cstring_eq, typename_plain by done. apply filter_shape.
    - apply le_n_S, max_list_le, Forall_forall. intros n (v & -> & ([t f] & -> & _)%list_elem_of_fmap)%list_elem_of_fmap.
      apply filter_shape. }
  revert Hp Hd. generalize (cobs_cjson (cobs c)). intros v Hv Hd. cbn. rewrite Hv. split; [done|]. lia.
Qed.
Lemma config_parse c fuel : config_ok c -> (5 <= fuel)%nat ->
  config_try_from_bytes fuel (config_canonical_form c) = @Ok (ParseError E (ParseObjectId MB MH G)) _ c.
Proof.
  intros Hc Hf. destruct (config_shape c Hc) as [Hp Hd]. unfold config_try_from_bytes, value_try_from_bytes, config_canonical_form.
  rewrite from_utf8_utf8 by (by apply plain_text). unfold value_from_str.
  rewrite <- (app_nil_r (to_text _)), json_ok by (by apply plain_canonical || lia || by rewrite config_cjson_eq).
  cbn -[config_try_from config_cjson]. by rewrite config_read.
Qed.
End RoundTrip.

(** ** What is read is well formed *)
Section Read.
Context {MB MH G E : Type} `{Multicodec MB MH G} `{Nfc} `{NomStream E}.

Lemma try_typename_ok s t : try_typename s = @Ok (CobsError (ParseObjectId MB MH G)) _ t -> typename_ok t = true.
Proof.
  unfold try_typename, typename_parse. case_bool_decide; [by intros [= <-]|].
  destruct (type_parts false s) eqn:Hs; [|done]. cbn. by intros [= <-].
Qed.
Lemma cobs_entry_ok v kv : cobs_entry_try_from v = @Ok (CobsError (ParseObjectId MB MH G)) _ kv -> typename_ok kv.1 = true.
Proof.
  unfold cobs_entry_try_from. destruct (try_typename (MB := MB) (MH := MH) (G := G) v.1) as [t|] eqn:Ht; [|by cbn].
  apply try_typename_ok in Ht. destruct (map_err _ _); cbn; [|done]. by intros [= <-].
Qed.
Lemma cobs_entries_ok vs l : mapM (cobs_entry_try_from (MB := MB)) vs = Ok l -> Forall (fun kv => typename_ok kv.1 = true) l.
Proof.
  revert l. induction vs as [|v vs IH]; intros l; [by intros [= <-]|]. cbn -[cobs_entry_try_from].
  destruct (cobs_entry_try_from v) as [kv|] eqn:Hv; cbn -[cobs_entry_try_from]; [|done].
  destruct (mapM _ vs) as [l'|]; cbn; [|done]. intros [= <-]. apply cobs_entry_ok in Hv. auto.
Qed.
Lemma cobs_from_iter_ok l : Forall (fun kv => typename_ok kv.1 = true) l ->
  map_Forall (fun t _ => typename_ok t = true) (cobs_from_iter l).
Proof.
  unfold cobs_from_iter. induction l as [|[t f] l IH] using rev_ind; [intros _; apply map_Forall_empty|].
  rewrite Forall_app, Forall_singleton, foldl_app. intros [Hl Ht]. apply map_Forall_insert_2; auto.
Qed.
Lemma config_parse_ok fuel bs c :
  config_try_from_bytes fuel bs = @Ok (ParseError E (ParseObjectId MB MH G)) _ c -> config_ok c.
Proof.
  unfold config_try_from_bytes. destruct (value_try_from_bytes fuel bs) as [v|]; [|done]. cbn.
  destruct v as [m| | | | |]; try done. unfold config_try_from, Map_remove.
  generalize KCOBS DATA. intros k k'.
  destruct (map_get k m) as [v|]; cbn; [|done]. destruct (map_get k' (map_remove k m)) as [d|]; cbn; [|done].
  destruct d as [| | | |b|]; cbn -[cobs_try_from]; try done. destruct v as [cs| | | | |]; cbn -[mapM]; try done.
  destruct (mapM _ cs) as [l|] eqn:Hl; cbn; [|done]. intros [= <-]. by apply cobs_from_iter_ok, (cobs_entries_ok cs).
Qed.
End Read.

(** ** The storage is an object store of configurations *)
Section Odb.
Context {MB MH G E W GE : Type} `{MulticodecLaws MB MH G} `{!Base32Text MB MH G} `{NfcAscii} `{NomStreamLaws E} `{GitBlobsLaws W GE}.
Local Abbreviation find_config_at := (storage_find_config (MB := MB) (MH := MH) (G := G) (E := E)).

Lemma storage_write_find fuel c w o w' : (5 <= fuel)%nat -> config_ok c -> storage_write_config c w = Ok (o, w') ->
  find_config_at fuel w' o = Ok (Some c).
Proof.
  intros Hf Hc Hw. apply gb_blob_find in Hw as [Ho Hw]. unfold storage_find_config, config_object.
  destruct (N.eqb_spec o 0); [done|]. rewrite Hw. cbn -[config_try_from_bytes config_canonical_form]. by rewrite config_parse.
Qed.
Lemma storage_write_keeps fuel c w o w' o' c' : storage_write_config c w = Ok (o, w') ->
  find_config_at fuel w o' = Ok (Some c') -> find_config_at fuel w' o' = Ok (Some c').
Proof.
  intros Hw. unfold storage_find_config, config_object. destruct (N.eqb_spec o' 0); [done|].
  destruct (gb_find_object w o') as [x|e] eqn:Hx; [|by destruct (gb_not_found e)]. by rewrite (gb_blob_keeps _ _ _ _ _ _ Hw Hx).
Qed.
Lemma storage_find_ok fuel w o c : find_config_at fuel w o = Ok (Some c) -> config_ok c.
Proof.
  unfold storage_find_config. destruct (config_object w o) as [[[bs|]|]|]; try done. cbn -[config_try_from_bytes].
  destruct (config_try_from_bytes fuel bs) as [c'|] eqn:Hp; [|done]. cbn. intros [= <-]. by eapply config_parse_ok.
Qed.
(** Modifying a configuration stores the modified one, and nothing that could be found is lost. *)
Lemma storage_modify_find fuel oid f w o w' : (5 <= fuel)%nat -> (forall c, config_ok c -> config_ok (f c)) ->
  storage_modify_config (MB := MB) (MH := MH) (G := G) (E := E) fuel oid f w = Ok (o, w') ->
  exists c, find_config_at fuel w oid = Ok (Some c) /\ find_config_at fuel w' o = Ok (Some (f c)) /\
    find_config_at fuel w' oid = Ok (Some c).
Proof.
  intros Hf Hk. unfold storage_modify_config. destruct (find_config_at fuel w oid) as [[c|]|] eqn:Hc; [|done..]. cbn.
  destruct (storage_write_config (f c) w) as [[o2 w2]|] eqn:Hw; [|done]. cbn. intros [= <- <-]. exists c. split; [done|].
  apply storage_find_ok in Hc as Hok. split; [eapply storage_write_find; eauto|by eapply storage_write_keeps].
Qed.

(** The store of [Tracking.v]: errors are not told apart there. *)
Definition odb_write (c : dsig config_ok) (w : W) : option (N * W) := res_ok (storage_write_config (`c) w).
Definition odb_find (o : N) (w : W) : option (option (dsig config_ok)) :=
  match find_config_at 5 w o with
  | Ok (Some c) => match decide (config_ok c) with left Hc => Some (Some (dexist c Hc)) | right _ => None end
  | Ok None => Some None
  | Err _ => None
  end.
Lemma odb_find_some o w c : odb_find o w = Some (Some c) <-> find_config_at 5 w o = Ok (Some (`c)).
Proof.
  unfold odb_find. destruct (find_config_at 5 w o) as [[c'|]|] eqn:Hf; [|by split..]. destruct (decide (config_ok c')) as [Hc|Hc].
  - split; [by intros [= <-]|]. intros [= He]. do 2 f_equal. by apply dsig_eq.
  - destruct Hc. by eapply storage_find_ok.
Qed.
#[export] Instance storage_odb : Odb W (dsig config_ok).
Proof.
  refine {| write_config := odb_write; find_config := odb_find |}.
  - intros c w o w' Hw. apply odb_find_some. unfold odb_write in Hw.
    destruct (storage_write_config (`c) w) as [p|] eqn:Hs; [|done]. injection Hw as ->.
    apply (storage_write_find 5 _ w); [lia|apply (proj2_dsig c)|done].
  - intros c w o w' o' c' Hw Hf. apply odb_find_some. apply odb_find_some in Hf. unfold odb_write in Hw.
    destruct (storage_write_config (`c) w) as [p|] eqn:Hs; [|done]. injection Hw as ->. by eapply storage_write_keeps.
Defined.
End Odb.

(** ** Entries *)

Lemma and_modify_lookup t f (c : Cobs) u : and_modify t f c !! u = (if bool_decide (u = t) then f <$> c !! u else c !! u).
Proof.
  unfold and_modify. destruct (c !! t) as [x|] eqn:Hx; case_bool_decide as Hu; subst.
  - by rewrite lookup_insert, Hx, decide_True.
  - by rewrite lookup_insert_ne.
  - by rewrite Hx.
  - done.
Qed.
Lemma elem_of_foldl_insert ids : forall (s : gset N) id, id ∈ foldl (fun s id => {[ id ]} ∪ s) s ids <-> id ∈ ids \/ id ∈ s.
Proof. induction ids as [|i ids IH]; intros s id; cbn; [set_solver|]. rewrite IH. set_solver. Qed.
Lemma elem_of_foldl_remove ids : forall (s : gset N) id, id ∈ foldl (fun s id => s ∖ {[ id ]}) s ids <-> (id ∉ ids) /\ id ∈ s.
Proof. induction ids as [|i ids IH]; intros s id; cbn; [set_solver|]. rewrite IH. set_solver. Qed.
(** [insert_objects_matches]: adding objects to an entry makes exactly these match as well, unless it matches everything;
    the policy and other entries stay as they are. *)
Theorem insert_objects_matches t ids (c : Cobs) u f : c !! u = Some f -> exists f', insert_objects t ids c !! u = Some f' /\
  policy f' = policy f /\ forall id, matches (pattern f') id = matches (pattern f) id || bool_decide (u = t /\ id ∈ ids).
Proof.
  intros Hu. unfold insert_objects. rewrite and_modify_lookup, Hu. case_bool_decide as Ht; cbn.
  - eexists. split; [done|]. destruct f as [p [|objs]]; cbn; (split; [done|]); intros id; [done|].
    apply eq_true_iff_eq. rewrite orb_true_iff, !bool_decide_eq_true, elem_of_foldl_insert. tauto.
  - exists f. split; [done|]. split; [done|]. intros id. rewrite (bool_decide_false (u = t /\ _)) by tauto. by rewrite orb_false_r.
Qed.
Theorem remove_objects_matches t ids (c : Cobs) u p objs : c !! u = Some (MkFilter p (Objects objs)) ->
  exists objs', remove_objects t ids c !! u = Some (MkFilter p (Objects objs')) /\
  forall id, id ∈ objs' <-> id ∈ objs /\ ~ (u = t /\ id ∈ ids).
Proof.
  intros Hu. unfold remove_objects. rewrite and_modify_lookup, Hu. case_bool_decide as Ht; cbn; eexists; (split; [done|]); intros id.
  - rewrite elem_of_foldl_remove. tauto.
  - tauto.
Qed.
(** A wildcard pattern is not changed by removing objects. *)
Lemma remove_objects_wildcard t ids (c : Cobs) p : c !! t = Some (MkFilter p AnyObject) ->
  remove_objects t ids c !! t = Some (MkFilter p AnyObject).
Proof. intros Hu. unfold remove_objects. by rewrite and_modify_lookup, Hu, bool_decide_true. Qed.

(** ** Policies *)
Section PolicyFor.
Context {MB MH G : Type} `{Multicodec MB MH G}.

(** Whether an object of a type is wanted: the filter of the type decides, or the default one, whose pattern is ignored. *)
Definition object_allowed (c : Cobs) (ty : list N) (id : N) : Prop :=
  match c !! Type_ ty, c !! AnyType with
  | Some f, _ => policy f = Allow <-> matches (pattern f) id = true
  | None, Some f => policy f = Allow
  | None, None => True
  end.
(** The references a configuration lets through. *)
Definition ref_allowed (c : Config) (refname : list N) : Prop :=
  (exists cat name, cat ∈ DATA_REFS /\ data c = true /\ exists rest, Name.components refname = Name.REFS :: cat :: name :: rest) \/
  (exists ty t id, Name.components refname = [Name.REFS; Name.COBS; ty; t] /\ type_parts false ty = true /\
     object_id_from_str t = @Ok (ParseObjectId MB MH G) _ id /\ object_allowed (cobs c) ty id).

Lemma policy_for_spec c q a b rest : Name.components q = Name.REFS :: a :: b :: rest ->
  exists p, policy_for (MB := MB) (MH := MH) (G := G) c q = Done p /\ (p = Allow <-> ref_allowed c q).
Proof.
  intros Hq. unfold policy_for, Name.non_empty_iter. unfold Name.components in Hq. rewrite Hq. cbn -[DATA_REFS Name.COBS].
  eexists. split; [done|]. unfold ref_allowed, Name.components. rewrite Hq. case_bool_decide as Ha.
  - subst a. transitivity (exists t id, rest = [t] /\ type_parts false b = true /\
      object_id_from_str t = @Ok (ParseObjectId MB MH G) _ id /\ object_allowed (cobs c) b id).
    2: { split; [intros (t & id & -> & ?); right; by exists b, t, id|].
         intros [(cat & name & Hin & _ & rest' & [= <- <- <-])|(ty & t & id & [= <- ->] & ?)]; [|by exists t, id].
         exfalso. revert Hin. by apply (bool_decide_eq_true_1 (Name.COBS ∉ DATA_REFS)). }
    destruct rest as [|t [|t' rest]]; cbn -[typename_parse objectid_parse].
    + split; [by destruct (res_ok _)|by intros (? & ? & ? & _)].
    + unfold typename_parse, objectid_parse, cobs_get, wildcard, object_allowed. destruct (type_parts false b); cbn.
      2: split; [done|by intros (? & ? & ? & ? & _)].
      destruct (object_id_from_str t) as [id|e] eqn:Hid; cbn.
      2: split; [done|intros (? & ? & [= <-] & _ & ? & _); congruence].
      transitivity (object_allowed (cobs c) b id).
      * unfold object_allowed. destruct (cobs c !! Type_ b) as [[[] pat]|]; cbn; [..|by destruct (cobs c !! AnyType)].
        all: destruct (matches pat id); cbn; intuition congruence.
      * split; [intros; by exists t, id|]. intros (? & ? & [= <-] & _ & Hid' & Ho). rewrite Hid in Hid'. by injection Hid' as <-.
    + split; [done|by intros (? & ? & ? & _)].
  - destruct (data c); cbn -[DATA_REFS].
    2: split; [done|intros [(? & ? & _ & ? & _)|(? & ? & ? & [= -> _ _] & _)]; by destruct Ha].
    transitivity (a ∈ DATA_REFS).
    + destruct (existsb _ _) eqn:He; split; try done; intros Hin.
      * apply existsb_exists in He as (x & Hx%list_elem_of_In & <-%bool_decide_eq_true). done.
      * apply not_true_iff_false in He. destruct He. apply existsb_exists. exists a. by rewrite bool_decide_true, <- list_elem_of_In.
    + split; [intros; left; by exists a, b; split_and!; eauto|].
      intros [(? & ? & ? & _ & ? & [= <- <- <-])|(? & ? & ? & [= -> _ _] & _)]; [done|by destruct Ha].
Qed.
End PolicyFor.

(** ** Names of types as components of references *)

Lemma adjacent_cons a b x y s : adjacent a b (x :: y :: s) = ((x =? a) && (y =? b)) || adjacent a b (y :: s).
Proof. done. Qed.
Lemma type_parts_dots s : forall b, type_parts b s = true ->
  adjacent dot dot s = false /\ last s <> Some dot /\ (b = false -> s <> [] /\ head s <> Some dot).
Proof.
  induction s as [|c s IH]; intros b Hs; cbn in Hs; [by subst b|]. destruct (N.eqb_spec c 46) as [->|Hc];
    apply andb_true_iff in Hs as [Hb Hs]; apply IH in Hs as (Ha & Hl & Hh).
  - subst b. destruct (Hh eq_refl) as [Hn Hd]. destruct s as [|d s]; [done|]. split; [|done]. rewrite adjacent_cons, Ha, orb_false_r.
    apply andb_false_iff. right. apply N.eqb_neq. intros ->. by apply Hd.
  - split_and!; [|destruct s; [|done]|].
    + destruct s as [|d s]; [done|]. rewrite adjacent_cons, Ha, orb_false_r. apply andb_false_iff. left. by apply N.eqb_neq.
    + cbn. intros [= ->]. by apply Hc.
    + intros _. split; [done|]. cbn. intros [= ->]. by apply Hc.
Qed.
Lemma adjacent_none a b s : (a ∉ s) -> adjacent a b s = false.
Proof.
  induction s as [|x s IH]; [done|]. rewrite not_elem_of_cons. intros [Hx Hs]. destruct s as [|y s]; [done|].
  rewrite adjacent_cons, IH, orb_false_r by done. apply andb_false_iff. left. apply N.eqb_neq. congruence.
Qed.
Lemma type_parts_not_in s b x : type_parts b s = true -> is_type_char x = false -> x <> 46 -> x ∉ s.
Proof. intros Hs%type_parts_chars Hx Hd Hin. rewrite Forall_forall in Hs. destruct (Hs x Hin); congruence. Qed.
Lemma type_parts_valid s : type_parts false s = true -> ends_with s (str ".lock") = false -> is_component s.
Proof.
  intros Hs Hl. assert (slash ∉ s) as Hslash by (by eapply type_parts_not_in).
  destruct (type_parts_dots s false Hs) as (Ha & Hlast & Hh). destruct (Hh eq_refl) as [Hn Hd].
  split; [left|done]. apply ref_format_spec. split.
  - intros ->. done.
  - rewrite split_on_no by done. apply Forall_singleton. split; try done.
    + apply adjacent_none. by eapply type_parts_not_in.
    + apply type_parts_chars in Hs. eapply Forall_impl; [done|]. intros c [Hc| ->]; [|done].
      apply type_char_bounds in Hc as Hb. unfold forbidden, invalid_chars, is_ascii_control. cbn [existsb].
      rewrite !orb_false_iff, !N.eqb_neq, N.ltb_ge. revert Hc. unfold is_type_char. rewrite !orb_true_iff, !andb_true_iff, !N.leb_le. lia.
    + intros [Hat _]. apply last_Some_elem_of in Hat. revert Hat. by eapply type_parts_not_in.
  - by left.
  - unfold globs_of. destruct (filter _ s) as [|x l] eqn:Hf; [done|]. exfalso.
    assert (x ∈ filter (fun c => c = star) s) as Hx by (rewrite Hf; left).
    apply list_elem_of_filter in Hx as [-> Hx]. revert Hx. by eapply type_parts_not_in.
Qed.

Lemma component_of_text_spec s : type_parts false s = true ->
  component_of_text s = if ends_with s (str ".lock") then Panic else Done s.
Proof.
  intros Hs. unfold component_of_text, Name.try_from_str. destruct (ends_with s (str ".lock")) eqn:Hl.
  - destruct (ref_format Name.CHECK_OPTS s) as [[]|e] eqn:Hr; [|done]. exfalso. apply ref_format_spec in Hr as [_ Hc _ _].
    rewrite split_on_no in Hc by (by eapply type_parts_not_in). rewrite Forall_singleton in Hc. apply cv_lock in Hc. congruence.
  - apply type_parts_valid in Hl as [Hc Hslash]; [|done]. destruct Hc as [Hc| ->]; [|done]. unfold is_refstr in Hc. rewrite Hc. cbn.
    unfold Name.from_refstring, RefName.contains. destruct (existsb (N.eqb slash) s) eqn:He; [|done].
    apply existsb_exists in He as (x & Hx%list_elem_of_In & <-%N.eqb_eq). done.
Qed.

Section Components.
Context {MB MH G : Type} `{MulticodecLaws MB MH G} `{!Base32Text MB MH G}.

Lemma alnum_parts s : forall b, (s <> [] \/ b = true) -> Forall (fun c => is_type_char c = true) s -> type_parts b s = true.
Proof.
  induction s as [|c s IH]; intros b Hn Hs; [by destruct Hn|]. apply Forall_cons in Hs as [Hc Hs]. cbn.
  apply type_char_bounds in Hc as Hb. destruct (N.eqb_spec c 46); [lia|]. rewrite Hc. apply IH; auto.
Qed.
Lemma encode_parts id : type_parts false (encode_oid id) = true.
Proof.
  apply alnum_parts; [left|apply base32_alnum]. intros He. pose proof (multibase_prefix (into_multihash id)) as Hp.
  unfold encode_oid in He. by rewrite He in Hp.
Qed.
Lemma encode_not_lock id : ends_with (encode_oid id) (str ".lock") = false.
Proof.
  unfold ends_with. apply andb_false_iff. left. apply bool_decide_eq_false_2. intros Hd.
  assert (46 ∈ encode_oid id) as Hin.
  { rewrite <- (take_drop (length (encode_oid id) - length (str ".lock")) (encode_oid id)), Hd. apply elem_of_app. right. left. }
  pose proof (base32_alnum (into_multihash id)) as Ha. rewrite Forall_forall in Ha. by specialize (Ha _ Hin).
Qed.
(** The id of an object is always a component. *)
Lemma objectid_component_done id : objectid_component id = Done (encode_oid id).
Proof. unfold objectid_component. by rewrite component_of_text_spec, encode_not_lock by apply encode_parts. Qed.

(** [typename_component_panics]: making a component of a reference from the name of a type panics exactly for the names
    that end in [.lock], which are names of types but not of references; every other name is the component itself. *)
Theorem typename_component_panics ty : type_parts false ty = true ->
  (typename_component ty = Panic <-> ends_with ty (str ".lock") = true) /\
  (ends_with ty (str ".lock") = false -> typename_component ty = Done ty /\ is_component ty).
Proof.
  intros Hty. unfold typename_component. rewrite component_of_text_spec by done.
  destruct (ends_with ty (str ".lock")) eqn:Hl; [done|]. split; [done|]. intros _. split; [done|]. by apply type_parts_valid.
Qed.

(** The policy for the reference of an object is what the filters say of the object. *)
Lemma cob_policy c ty id : type_parts false ty = true -> ends_with ty (str ".lock") = false ->
  exists q p, Name.from_refs_cobs ty (encode_oid id) = Done q /\ is_qualified q /\
    policy_for (MB := MB) (MH := MH) (G := G) c q = Done p /\ (p = Allow <-> object_allowed (cobs c) ty id).
Proof.
  intros Hty Hl. set (cs := [Name.REFS; Name.COBS; ty; encode_oid id]).
  assert (Forall is_component cs) as Hcs.
  { repeat apply Forall_cons_2; [apply REFS_component| |by apply type_parts_valid| |constructor]; apply type_parts_valid;
      [done|done|apply encode_parts|apply encode_not_lock]. }
  assert (Name.components (join_on slash cs) = cs) as Hcomp by (by apply components_join).
  destruct (policy_for_spec (MB := MB) (MH := MH) (G := G) c (join_on slash cs) Name.COBS ty [encode_oid id] Hcomp) as (p & Hp & Hiff).
  exists (join_on slash cs), p. split; [by apply from_iter_done|]. split; [|split; [done|]].
  - split; [|by eexists _, _, _]. destruct (join_piece cs ltac:(done) Hcs) as [?|He]; [done|]. exfalso.
    apply (f_equal Name.components) in He. by rewrite Hcomp in He.
  - rewrite Hiff. unfold ref_allowed. rewrite Hcomp. split.
    + intros [(cat & name & Hin & _ & rest & [= <- <- <-])|(ty' & t & id' & [= <- <-] & _ & Hid & Ho)].
      * exfalso. revert Hin. by apply (bool_decide_eq_true_1 (Name.COBS ∉ DATA_REFS)).
      * rewrite object_id_roundtrip in Hid. by injection Hid as <-.
    + intros Ho. right. exists ty, (encode_oid id), id. by rewrite object_id_roundtrip.
Qed.
End Components.

(** ** Theorems *)
Section Theorems.
Context {MB MH G E W GE : Type} `{MulticodecLaws MB MH G} `{!Base32Text MB MH G} `{NfcAscii} `{NomStreamLaws E} `{GitBlobsLaws W GE}.

(** [config_roundtrip]: a configuration whose types have valid names is read back from its canonical form, and found again
    under the id it was stored under; five nested values are enough to read it. *)
Theorem config_roundtrip c fuel : config_ok c -> (5 <= fuel)%nat ->
  config_try_from_bytes fuel (config_canonical_form c) = @Ok (ParseError E (ParseObjectId MB MH G)) _ c /\
  forall w o w', storage_write_config c w = Ok (E := GE) (o, w') ->
    storage_find_config (MB := MB) (MH := MH) (G := G) (E := E) fuel w' o = Ok (Some c).
Proof. intros Hc Hf. split; [by apply config_parse|]. intros w o w'. by apply storage_write_find. Qed.

(** [policy_exact]: evaluating a configuration on a qualified reference never fails, and lets through exactly the heads, tags
    and notes if data is wanted, and the references of collaborative objects the filters want; nothing else. *)
Theorem policy_exact c q : is_qualified q ->
  exists p, policy_for (MB := MB) (MH := MH) (G := G) c q = Done p /\ (p = Allow <-> ref_allowed (MB := MB) (MH := MH) (G := G) c q).
Proof. intros (_ & a & b & rest & Hq). by eapply policy_for_spec. Qed.
End Theorems.

(** ** A concrete store *)
Module TrackingConfigWitness.
Import ListStream.
#[export] Instance ascii_nfc : Nfc := {| nfc s := s; nfc_idem s := eq_refl |}.
#[export] Instance ascii_nfc_ascii : NfcAscii := fun s _ => eq_refl.

(** Numbers in unary, each ended by a zero. *)
Definition unary_encode (bs : list N) : list N := 104 :: concat (map (fun b => repeat 49 (N.to_nat b) ++ [48]) bs).
Fixpoint unary_decode (n : N) (s : list N) : list N :=
  match s with [] => [] | c :: s => if c =? 49 then unary_decode (n + 1) s else n :: unary_decode 0 s end.
Lemma unary_read b : forall n s, unary_decode n (repeat 49 b ++ 48 :: s) = n + N.of_nat b :: unary_decode 0 s.
Proof. induction b as [|b IH]; intros n s; cbn; [f_equal; lia|]. rewrite IH. f_equal. lia. Qed.
Lemma unary_roundtrip bs : @Ok unit _ (unary_decode 0 (tail (unary_encode bs))) = Ok bs.
Proof.
  f_equal. cbn [unary_encode tail]. induction bs as [|b bs IH]; [done|]. cbn [map concat]. rewrite <- app_assoc. cbn [app].
  rewrite unary_read, IH. f_equal. lia.
Qed.
Lemma unary_alnum bs : Forall (fun c => is_type_char c = true) (unary_encode bs).
Proof.
  constructor; [done|]. apply Forall_concat, Forall_forall. intros l (b & -> & _)%list_elem_of_fmap.
  apply Forall_app. split; [|by constructor]. by apply Forall_forall; intros x ->%list_elem_of_In%repeat_spec.
Qed.
#[export] Instance unary_codec : Multicodec unit unit unit := {|
  multibase_encode := unary_encode;
  multibase_decode s := Ok (unary_decode 0 (tail s));
  multihash_wrap c bs := c :: bs;
  multihash_from_slice bs := match bs with c :: bs => Ok (c, bs) | [] => Err tt end;
  oid_as_bytes o := [o];
  oid_from_bytes bs := match bs with [o] => Ok o | _ => Err tt end;
|}.
#[export] Instance unary_text : Base32Text unit unit unit := unary_alnum.
Lemma unary_word bs : word (unary_encode bs).
Proof.
  split; [done|]. eapply Forall_impl; [apply unary_alnum|]. intros c Hc%type_char_bounds. unfold is_whitespace.
  apply not_true_iff_false. rewrite !orb_true_iff, !andb_true_iff, !N.leb_le, !N.eqb_eq. lia.
Qed.
#[export] Instance unary_codec_laws : MulticodecLaws unit unit unit := {|
  multibase_roundtrip := unary_roundtrip;
  multibase_word := unary_word;
  multibase_prefix _ := eq_refl;
  multihash_roundtrip _ _ := eq_refl;
  oid_bytes_roundtrip _ := eq_refl;
|}.

(** Blobs under their position. *)
#[export] Instance list_blobs : GitBlobs (list (list N)) unit := {|
  gb_not_found _ := true;
  gb_find_object w o := match w !! N.to_nat (o - 1) with Some bs => Ok (Some bs) | None => Err tt end;
  gb_blob bs w := Ok (N.of_nat (S (length w)), w ++ [bs]);
|}.
#[export] Instance list_blobs_laws : GitBlobsLaws (list (list N)) unit.
Proof.
  split.
  - intros bs w o w' [= <- <-]. split; [lia|]. cbn [gb_find_object list_blobs].
    replace (N.to_nat (N.of_nat (S (length w)) - 1)) with (length w) by lia. by rewrite list_lookup_middle.
  - intros bs w o w' o' x [= <- <-]. cbn. destruct (w !! N.to_nat (o' - 1)) as [y|] eqn:Hy; [|done].
    by rewrite (lookup_app_l_Some _ _ _ _ Hy).
Qed.

Definition sample : Config :=
  MkConfig false (<[ Type_ (str "xyz.radicle.issue") := MkFilter Deny (Objects {[ 2; 3 ]}) ]> allow_all).
Lemma sample_config_ok : config_ok sample.
Proof. apply map_Forall_insert_2; [reflexivity|]. by apply map_Forall_singleton. Qed.

Lemma config_roundtrip_witness :
  config_try_from_bytes (E := unit) 5 (config_canonical_form sample) = Ok sample /\
  storage_find_config (E := unit) 5 [config_canonical_form sample] 1 = Ok (E := FindError unit _) (Some sample).
Proof.
  pose proof (config_roundtrip (E := unit) (W := list (list N)) (GE := unit) sample 5 sample_config_ok ltac:(lia)) as [H1 H2].
  split; [exact H1|]. by apply (H2 []).
Defined.
Lemma policy_exact_witness : exists q p, is_qualified q /\ policy_for sample q = Done p /\ (p = Allow <-> ref_allowed sample q).
Proof.
  exists (str "refs/cobs/xyz.radicle.issue/h11111111111111111011110").
  assert (is_qualified (str "refs/cobs/xyz.radicle.issue/h11111111111111111011110")) as Hq.
  { split; [vm_compute; reflexivity|]. exists (str "cobs"), (str "xyz.radicle.issue"), [str "h11111111111111111011110"].
    vm_compute. reflexivity. }
  destruct (policy_exact sample _ Hq) as (p & H1 & H2). exists p. split; [exact Hq|]. split; [exact H1|exact H2].
Defined.
(** The default filter decides alone: its pattern is not looked at. *)
Example wildcard_pattern_ignored :
  policy_for (MkConfig true {[ AnyType := MkFilter Allow (Objects ∅) ]}) (str "refs/cobs/a/h11111111111111111011110") = Done Allow.
Proof. vm_compute. reflexivity. Qed.
Lemma typename_component_panics_witness :
  typename_component (str "a.lock") = Panic /\ typename_component (str "a.b") = Done (str "a.b").
Proof.
  destruct (typename_component_panics (str "a.lock") eq_refl) as [[_ H1] _].
  destruct (typename_component_panics (str "a.b") eq_refl) as [_ H2].
  split; [exact (H1 eq_refl)|exact (proj1 (H2 eq_refl))].
Defined.

(** The theorems of [Tracking.v] hold over this store: what is tracked with a configuration is found with it. *)
Example tracked_config :
  exists r db, track demo_urn (Some 1) (dexist sample sample_config_ok) Policy.TrackAny (MkDb (D := list (list N)) ∅ [] tt) = Done (Ok (Ok r), db) /\
    get demo_urn (Some 1) db = Ok (Some (from_reference (refname_new demo_urn (Some 1)) (dexist sample sample_config_ok))).
Proof.
  apply (track_get demo_urn (Some 1) (dexist sample sample_config_ok) Policy.TrackAny (MkDb (D := list (list N)) ∅ [] tt) None); try done.
Qed.
End TrackingConfigWitness.
