(* ===== verification/Conntrack.v ===== *)
(** * Tracking of connections

    [librad/src/net/quic/connection/tracking.rs], with what it uses of [quic.rs],
    [quic/connection.rs] and [net/connection.rs].  A connection is kept alive by the map of
    connections; the lists of connections per peer hold weak pointers.  A weak pointer is
    the number of the allocation it points to, and can be upgraded as long as the map
    holds that allocation.  The operations take effect at once; the two threads that
    collect what is not used are interleaved with them entry by entry. *)
From stdpp Require Import base list gmap sorting.
From Stdlib Require Import NArith Lia.
From Stdlib Require String.
Import String.StringSyntax.
From S2P Require Import Prelude RefFormat.
#[local] Open Scope N_scope.

(** ** Data *)

Inductive CloseReason := ConnectionError | ServerShutdown | InvalidUpgrade | TooManyConnections | Timeout.

Definition close_code (r : CloseReason) : N :=
  match r with
  | ConnectionError => 3
  | ServerShutdown => 5
  | InvalidUpgrade => 6
  | TooManyConnections => 7
  | Timeout => 8
  end.
Definition reason_phrase (r : CloseReason) : list N :=
  match r with
  | ConnectionError => str "connection error"
  | ServerShutdown => str "server shutdown"
  | InvalidUpgrade => str "invalid or unsupported protocol upgrade"
  | TooManyConnections => str "too many connections"
  | Timeout => str "timeout"
  end.

Definition MAX_PEER_CONNECTIONS : nat := 5.

Record Connection := MkConnection { peer : N; stable_id : N; remote_addr : N }.
Definition conn_id (c : Connection) : N := stable_id c.

(** [Arc<Tracked>]: the allocation, and what is in it. *)
Record Tracked := MkTracked { alloc : N; connection : Connection; t_epoch : N }.

(** [closed] are the calls to close a connection so far, with their codes. *)
Record Conntrack := MkConntrack {
  epoch : N;
  connections : gmap N Tracked;
  peer_connections : gmap N (list N);
  next_alloc : N;
  closed : list (Connection * (N * list N));
}.

Definition conntrack_new : Conntrack := MkConntrack 0 ∅ ∅ 0 [].

Definition set_connections (s : Conntrack) (m : gmap N Tracked) : Conntrack :=
  MkConntrack (epoch s) m (peer_connections s) (next_alloc s) (closed s).
Definition set_peers (s : Conntrack) (m : gmap N (list N)) : Conntrack :=
  MkConntrack (epoch s) (connections s) m (next_alloc s) (closed s).

(** [Tracked::close] *)
Definition tracked_close (t : Tracked) (r : CloseReason) (s : Conntrack) : Conntrack :=
  MkConntrack (epoch s) (connections s) (peer_connections s) (next_alloc s)
    (closed s ++ [(connection t, (close_code r, reason_phrase r))]).

(** [Weak::upgrade] *)
Definition upgrade (s : Conntrack) (weak : N) : option Tracked :=
  snd <$> head (filter (fun kv => alloc kv.2 = weak) (map_to_list (connections s))).
(** [conns.retain(|weak| Weak::upgrade(weak).is_some())] *)
Definition retain_live (s : Conntrack) (conns : list N) : list N :=
  filter (fun weak => is_Some (upgrade s weak)) conns.

(** ** Operations *)

Definition total (s : Conntrack) : nat := size (connections s).

Definition connected_peers (s : Conntrack) : gmap N (list N) :=
  fmap (M := gmap N) (omap (M := list) (fun weak => t ← upgrade s weak; Some (remote_addr (connection t)))) (peer_connections s).

Definition peers (s : Conntrack) : list N := (map_to_list (peer_connections s)).*1.

Definition get (to : N) (s : Conntrack) : option Connection * Conntrack :=
  match peer_connections s !! to with
  | Some conns =>
      let conns := retain_live s conns in
      match conns with
      | [] => (None, set_peers s (delete to (peer_connections s)))
      | _ => ((weak ← last conns; t ← upgrade s weak; Some (connection t)),
              set_peers s (<[to := conns]> (peer_connections s)))
      end
  | None => (None, s)
  end.

(** [usize] *)
Definition usize_add (n m : N) : N := (n + m) mod 2 ^ 64.

Definition tickle (conn : N) (s : Conntrack) : Conntrack :=
  match connections s !! conn with
  | Some t =>
      set_connections s (<[conn := MkTracked (alloc t) (connection t) (N.max (t_epoch t) (usize_add (epoch s) 1))]> (connections s))
  | None => s
  end.

(** The first part of [connected]: a new allocation in the map, and a weak pointer to it. *)
Definition connected_insert (c : Connection) (s : Conntrack) : N * Conntrack :=
  let weak := next_alloc s in
  (weak, MkConntrack (epoch s) (<[conn_id c := MkTracked weak c (epoch s)]> (connections s)) (peer_connections s)
    (next_alloc s + 1) (closed s)).
(** The second: the pointer is added to those of the peer; when there are too many, all are closed. *)
Definition connected_peer (c : Connection) (weak : N) (s : Conntrack) : Conntrack :=
  match peer_connections s !! peer c with
  | None => set_peers s (<[peer c := [weak]]> (peer_connections s))
  | Some conns =>
      let conns := retain_live s conns in
      if (MAX_PEER_CONNECTIONS <=? length conns)%nat then
        let s := foldl (fun s' t => tracked_close t TooManyConnections s') s (omap (upgrade s) conns) in
        set_peers s (<[peer c := [weak]]> (peer_connections s))
      else set_peers s (<[peer c := conns ++ [weak]]> (peer_connections s))
  end.
Definition connected (c : Connection) (s : Conntrack) : Conntrack :=
  let (weak, s) := connected_insert c s in connected_peer c weak s.

Definition disconnect (conn : N) (reason : CloseReason) (s : Conntrack) : Conntrack :=
  match connections s !! conn with
  | Some t => tracked_close t reason (set_connections s (delete conn (connections s)))
  | None => s
  end.

Definition drop_tracked (s : Conntrack) (weak : N) : Conntrack :=
  match upgrade s weak with
  | Some t => set_connections s (delete (stable_id (connection t)) (connections s))
  | None => s
  end.
Definition disconnect_peer (p : N) (s : Conntrack) : Conntrack :=
  match peer_connections s !! p with
  | Some conns => foldl drop_tracked (set_peers s (delete p (peer_connections s))) conns
  | None => s
  end.

Definition disconnect_all (s : Conntrack) : Conntrack := set_peers (set_connections s ∅) ∅.

(** ** [spawn_gc] *)

(** A sweep starts: [epoch.fetch_add(1)] and [epoch.load()]. *)
Definition gc_begin (s : Conntrack) : (N * N) * Conntrack :=
  let prev_epoch := epoch s in
  let s := MkConntrack (usize_add prev_epoch 1) (connections s) (peer_connections s) (next_alloc s) (closed s) in
  ((prev_epoch, epoch s), s).
(** [connections.retain], on one entry. *)
Definition gc_entry (prev_epoch curr_epoch : N) (conn : N) (s : Conntrack) : Conntrack :=
  match connections s !! conn with
  | Some t =>
      if t_epoch t <=? prev_epoch
      then tracked_close t Timeout (set_connections s (delete conn (connections s)))
      else set_connections s (<[conn := MkTracked (alloc t) (connection t) (N.max (t_epoch t) curr_epoch)]> (connections s))
  | None => s
  end.
(** A whole sweep, when nothing else happens. *)
Definition gc_connections (s : Conntrack) : Conntrack :=
  let '((prev_epoch, curr_epoch), s) := gc_begin s in
  foldl (fun s conn => gc_entry prev_epoch curr_epoch conn s) s (map_to_list (connections s)).*1.

(** The second thread, on one peer: forget what is gone, and say whether nothing is left. *)
Definition gc_peer_retain (p : N) (s : Conntrack) : bool * Conntrack :=
  match peer_connections s !! p with
  | Some conns =>
      let conns := retain_live s conns in
      (match conns with [] => true | _ => false end, set_peers s (<[p := conns]> (peer_connections s)))
  | None => (false, s)
  end.
Definition gc_peer_evict (s : Conntrack) (p : N) : Conntrack :=
  match peer_connections s !! p with
  | Some [] => set_peers s (delete p (peer_connections s))
  | _ => s
  end.
Definition gc_peers (s : Conntrack) : Conntrack :=
  let '(evict, s) := foldl (fun acc p =>
      let (e, s) := gc_peer_retain p acc.2 in ((if e : bool then acc.1 ++ [p] else acc.1), s))
    ([], s) (map_to_list (peer_connections s)).*1 in
  foldl gc_peer_evict s evict.

(** [Connection::close] and [Connection::tickle]: connections that are not tracked do nothing. *)
Definition conn_close (tracked : bool) (c : Connection) (r : CloseReason) (s : Conntrack) : Conntrack :=
  if tracked then disconnect (conn_id c) r s else s.
Definition conn_tickle (tracked : bool) (c : Connection) (s : Conntrack) : Conntrack :=
  if tracked then tickle (conn_id c) s else s.

(** ** Executions *)

(** A sweep in progress: the epochs it works with, and the connections it still has to visit. *)
Record World := MkWorld { track : Conntrack; sweep : option (N * N * gset N) }.

Inductive Label :=
| Connected (c : Connection) | Tickle (conn : N) | Disconnect (conn : N) (r : CloseReason)
| DisconnectPeer (p : N) | DisconnectAll | Get (p : N)
| SweepBegin | SweepVisit (conn : N) | SweepEnd | PeerRetain (p : N) | PeerEvict (p : N).

(** The epoch does not wrap around: with a sweep a minute it takes longer than anyone waits. *)
Inductive step : World -> Label -> World -> Prop :=
| step_connected c s w : step (MkWorld s w) (Connected c) (MkWorld (connected c s) w)
| step_tickle i s w : step (MkWorld s w) (Tickle i) (MkWorld (tickle i s) w)
| step_disconnect i r s w : step (MkWorld s w) (Disconnect i r) (MkWorld (disconnect i r s) w)
| step_disconnect_peer p s w : step (MkWorld s w) (DisconnectPeer p) (MkWorld (disconnect_peer p s) w)
| step_disconnect_all s w : step (MkWorld s w) DisconnectAll (MkWorld (disconnect_all s) w)
| step_get p s w : step (MkWorld s w) (Get p) (MkWorld (get p s).2 w)
| step_begin s : epoch s + 2 < 2 ^ 64 ->
    step (MkWorld s None) SweepBegin (MkWorld (gc_begin s).2 (Some ((gc_begin s).1, dom (connections s))))
| step_visit i s prev curr rest :
    step (MkWorld s (Some (prev, curr, rest))) (SweepVisit i) (MkWorld (gc_entry prev curr i s) (Some (prev, curr, rest ∖ {[ i ]})))
| step_end s prev curr rest : rest ## dom (connections s) ->
    step (MkWorld s (Some (prev, curr, rest))) SweepEnd (MkWorld s None)
| step_peer_retain p s w : step (MkWorld s w) (PeerRetain p) (MkWorld (gc_peer_retain p s).2 w)
| step_peer_evict p s w : step (MkWorld s w) (PeerEvict p) (MkWorld (gc_peer_evict s p) w).

Inductive exec : World -> list Label -> World -> Prop :=
| exec_nil w : exec w [] w
| exec_cons w l w' ls w'' : step w l w' -> exec w' ls w'' -> exec w (l :: ls) w''.

Definition world_new : World := MkWorld conntrack_new None.
Definition reachable (w : World) : Prop := exists ls, exec world_new ls w.

(** ** The invariant *)

Record track_ok (s : Conntrack) : Prop := {
  ok_id i t : connections s !! i = Some t -> conn_id (connection t) = i;
  ok_alloc i t : connections s !! i = Some t -> alloc t < next_alloc s;
  ok_inj i j t u : connections s !! i = Some t -> connections s !! j = Some u -> alloc t = alloc u -> i = j;
  ok_epoch i t : connections s !! i = Some t -> t_epoch t <= epoch s + 1;
  ok_range : epoch s + 1 < 2 ^ 64;
  ok_length p l : peer_connections s !! p = Some l -> (length l <= MAX_PEER_CONNECTIONS)%nat;
  ok_sorted p l : peer_connections s !! p = Some l -> StronglySorted N.lt l;
  ok_old p l a : peer_connections s !! p = Some l -> a ∈ l -> a < next_alloc s;
  ok_peer p l i t : peer_connections s !! p = Some l -> connections s !! i = Some t -> alloc t ∈ l -> peer (connection t) = p;
  ok_recent i t l : connections s !! i = Some t -> peer_connections s !! peer (connection t) = Some l ->
    alloc t ∈ l \/ forall a, a ∈ l -> alloc t < a;
}.

Record world_ok (w : World) : Prop := {
  ok_track : track_ok (track w);
  ok_sweep prev curr rest : sweep w = Some (prev, curr, rest) -> curr = epoch (track w) /\ epoch (track w) = prev + 1;
}.

Lemma upgrade_spec s a t : track_ok s -> upgrade s a = Some t <-> exists i, connections s !! i = Some t /\ alloc t = a.
Proof.
  intros Hs. unfold upgrade. split.
  - intros ([i u] & Hh & ->)%fmap_Some. cbn [snd]. apply head_Some_elem_of, list_elem_of_filter in Hh as [Ha Hin].
    apply elem_of_map_to_list in Hin. by exists i.
  - intros (i & Hi & Ha). destruct (filter _ _) as [|[j u] l] eqn:Hf.
    + exfalso. assert ((i, t) ∈ filter (fun kv : N * Tracked => alloc kv.2 = a) (map_to_list (connections s))) as Hin.
      { apply list_elem_of_filter. split; [done|]. by apply elem_of_map_to_list. }
      rewrite Hf in Hin. by apply elem_of_nil in Hin.
    + cbn. assert ((j, u) ∈ filter (fun kv : N * Tracked => alloc kv.2 = a) (map_to_list (connections s))) as Hin by (rewrite Hf; left).
      apply list_elem_of_filter in Hin as [Hu Hin]. apply elem_of_map_to_list in Hin. cbn in Hu.
      assert (i = j) as -> by (eapply ok_inj; eauto; congruence). congruence.
Qed.
Lemma retain_live_spec s l a : track_ok s -> a ∈ retain_live s l <-> a ∈ l /\ exists i t, connections s !! i = Some t /\ alloc t = a.
Proof.
  intros Hs. unfold retain_live. rewrite list_elem_of_filter. split.
  - intros [[t Ht] Hl]. apply upgrade_spec in Ht as (i & ? & ?); eauto.
  - intros (Hl & i & t & Hi & Ha). split; [|done]. exists t. apply upgrade_spec; eauto.
Qed.
Lemma filter_sorted {A} (R : relation A) (P : A -> Prop) `{!forall x, Decision (P x)} l : StronglySorted R l -> StronglySorted R (filter P l).
Proof.
  induction 1 as [|x l Hl IH Hx]; [constructor|]. rewrite filter_cons. case_decide; [|done]. constructor; [done|].
  apply Forall_forall. intros y [_ Hy]%list_elem_of_filter. rewrite Forall_forall in Hx. auto.
Qed.

(** Connections that stay keep their allocation; epochs may grow within the bound. *)
Lemma connections_shrink s s' : track_ok s ->
  (forall i t', connections s' !! i = Some t' -> exists t, connections s !! i = Some t /\ alloc t = alloc t' /\
    connection t = connection t' /\ t_epoch t' <= epoch s' + 1) ->
  peer_connections s' = peer_connections s -> next_alloc s' = next_alloc s -> epoch s' + 1 < 2 ^ 64 -> track_ok s'.
Proof.
  intros Hs Hc Hp Hn He. split; rewrite ?Hp, ?Hn.
  - intros i t (u & Hu & _ & <- & _)%Hc. by apply (ok_id s Hs).
  - intros i t (u & Hu & <- & _)%Hc. by eapply (ok_alloc s Hs).
  - intros i j t u (t' & Ht & Hat & _)%Hc (u' & Hu & Hau & _)%Hc Ha. eapply (ok_inj s Hs); eauto. congruence.
  - by intros i t (u & _ & _ & _ & ?)%Hc.
  - done.
  - apply (ok_length s Hs).
  - apply (ok_sorted s Hs).
  - apply (ok_old s Hs).
  - intros p l i t Hl (u & Hu & <- & <- & _)%Hc Hin. by eapply (ok_peer s Hs).
  - intros i t l (u & Hu & <- & <- & _)%Hc Hl. by eapply (ok_recent s Hs).
Qed.
(** Lists that only lose pointers to what is gone. *)
Lemma peers_shrink s s' : track_ok s -> connections s' = connections s -> next_alloc s' = next_alloc s -> epoch s' = epoch s ->
  (forall p l', peer_connections s' !! p = Some l' -> peer_connections s !! p = Some l' \/
    exists l, peer_connections s !! p = Some l /\ l' = retain_live s l) -> track_ok s'.
Proof.
  intros Hs Hc Hn He Hp. assert (forall p l', peer_connections s' !! p = Some l' -> exists l, peer_connections s !! p = Some l /\
    (length l' <= length l)%nat /\ (StronglySorted N.lt l -> StronglySorted N.lt l') /\ (forall a, a ∈ l' -> a ∈ l) /\
    (forall i t, connections s !! i = Some t -> alloc t ∈ l -> alloc t ∈ l')) as Hsub.
  { intros p l' [Hl|(l & Hl & ->)]%Hp; [by exists l'|]. exists l. split_and!; [done|apply length_filter|apply filter_sorted|..].
    - intros a [? _]%(retain_live_spec s l a Hs). done.
    - intros i t Hi Ha. apply retain_live_spec; eauto. }
  split; rewrite ?Hc, ?Hn, ?He; try apply Hs.
  - intros p l' (l & Hl & Hlen & _)%Hsub. pose proof (ok_length s Hs p l Hl). lia.
  - intros p l' (l & Hl & _ & Hso & _)%Hsub. apply Hso, (ok_sorted s Hs p l Hl).
  - intros p l' a (l & Hl & _ & _ & Hin & _)%Hsub Ha. eapply (ok_old s Hs); eauto.
  - intros p l' i t (l & Hl & _ & _ & Hin & _)%Hsub Hi Ha. eapply (ok_peer s Hs); eauto.
  - intros i t l' Hi (l & Hl & _ & _ & Hin & Hlive)%Hsub. destruct (ok_recent s Hs i t l Hi Hl); eauto.
Qed.

Lemma usize_add_small n m : n + m < 2 ^ 64 -> usize_add n m = n + m.
Proof. intros. unfold usize_add. by apply N.mod_small. Qed.

Lemma conntrack_new_ok : track_ok conntrack_new.
Proof. split; cbn; intros; done. Qed.

Lemma tickle_ok i s : track_ok s -> track_ok (tickle i s).
Proof.
  intros Hs. unfold tickle. destruct (connections s !! i) as [t|] eqn:Hi; [|done].
  apply (connections_shrink s); [done| |done|done|apply (ok_range s Hs)]. cbn. intros j u. rewrite lookup_insert_Some.
  intros [[<- <-]|[Hne Hj]]; [exists t|exists u]; cbn.
  - split_and!; [done..|]. pose proof (ok_epoch s Hs i t Hi). pose proof (ok_range s Hs). rewrite usize_add_small by lia. lia.
  - split_and!; [done..|]. by eapply (ok_epoch s Hs).
Qed.
Lemma delete_ok s s' i : track_ok s -> connections s' = delete i (connections s) -> peer_connections s' = peer_connections s ->
  next_alloc s' = next_alloc s -> epoch s' = epoch s -> track_ok s'.
Proof.
  intros Hs Hc Hp Hn He. apply (connections_shrink s); [done| |done|done|rewrite He; apply (ok_range s Hs)].
  rewrite Hc, He. intros j u [_ Hj]%lookup_delete_Some. exists u. split_and!; [done..|]. by eapply (ok_epoch s Hs).
Qed.
Lemma disconnect_ok i r s : track_ok s -> track_ok (disconnect i r s).
Proof. intros Hs. unfold disconnect. destruct (connections s !! i) eqn:Hi; [|done]. by eapply delete_ok. Qed.
Lemma drop_tracked_ok s a : track_ok s -> track_ok (drop_tracked s a).
Proof. intros Hs. unfold drop_tracked. destruct (upgrade s a); [|done]. by eapply delete_ok. Qed.
Lemma drop_peer_ok s p : track_ok s -> track_ok (set_peers s (delete p (peer_connections s))).
Proof. intros Hs. apply (peers_shrink s); try done. cbn. intros q l [_ Hl]%lookup_delete_Some. by left. Qed.
Lemma disconnect_peer_ok p s : track_ok s -> track_ok (disconnect_peer p s).
Proof.
  intros Hs. unfold disconnect_peer. destruct (peer_connections s !! p) as [conns|]; [|done].
  apply drop_peer_ok with (p := p) in Hs. revert Hs. generalize (set_peers s (delete p (peer_connections s))).
  induction conns as [|a conns IH]; intros s' Hs'; [done|]. cbn. by apply IH, drop_tracked_ok.
Qed.
Lemma disconnect_all_ok s : track_ok s -> track_ok (disconnect_all s).
Proof. intros Hs. split; cbn; try done. apply (ok_range s Hs). Qed.
Lemma retain_peer_ok s p conns : track_ok s -> peer_connections s !! p = Some conns ->
  track_ok (set_peers s (<[p := retain_live s conns]> (peer_connections s))).
Proof.
  intros Hs Hp. apply (peers_shrink s); try done. cbn. intros q l. rewrite lookup_insert_Some.
  intros [[<- <-]|[_ Hl]]; [right; by exists conns|by left].
Qed.
Lemma get_ok p s : track_ok s -> track_ok (get p s).2.
Proof.
  intros Hs. unfold get. destruct (peer_connections s !! p) as [conns|] eqn:Hp; [|done].
  pose proof (retain_peer_ok s p conns Hs Hp) as Hr. by destruct (retain_live s conns); [apply drop_peer_ok|].
Qed.
Lemma gc_peer_retain_ok p s : track_ok s -> track_ok (gc_peer_retain p s).2.
Proof.
  intros Hs. unfold gc_peer_retain. destruct (peer_connections s !! p) as [conns|] eqn:Hp; [|done]. by apply retain_peer_ok.
Qed.
Lemma gc_peer_evict_ok s p : track_ok s -> track_ok (gc_peer_evict s p).
Proof. intros Hs. unfold gc_peer_evict. destruct (peer_connections s !! p) as [[|]|]; try done. by apply drop_peer_ok. Qed.
Lemma gc_begin_ok s : track_ok s -> epoch s + 2 < 2 ^ 64 -> track_ok (gc_begin s).2.
Proof.
  intros Hs He. cbn. apply (connections_shrink s); cbn; try done; rewrite usize_add_small by lia; [|lia].
  intros i t Hi. exists t. split_and!; [done..|]. pose proof (ok_epoch s Hs i t Hi). lia.
Qed.
Lemma gc_entry_ok prev curr i s : track_ok s -> curr <= epoch s -> track_ok (gc_entry prev curr i s).
Proof.
  intros Hs Hc. unfold gc_entry. destruct (connections s !! i) as [t|] eqn:Hi; [|done].
  destruct (t_epoch t <=? prev); [by eapply delete_ok|].
  apply (connections_shrink s); [done| |done|done|apply (ok_range s Hs)]. cbn. intros j u. rewrite lookup_insert_Some.
  intros [[<- <-]|[Hne Hj]]; [exists t|exists u]; cbn; (split_and!; [done..|]); [|by eapply (ok_epoch s Hs)].
  pose proof (ok_epoch s Hs i t Hi). lia.
Qed.

Lemma closing_keeps ts : forall s, let s' := foldl (fun s' t => tracked_close t TooManyConnections s') s ts in
  connections s' = connections s /\ peer_connections s' = peer_connections s /\ next_alloc s' = next_alloc s /\ epoch s' = epoch s.
Proof. induction ts as [|t ts IH]; intros s; [done|]. cbn. apply (IH (tracked_close t TooManyConnections s)). Qed.

(** What [connected] does to the maps. *)
Lemma connected_spec c s : let s' := connected c s in
  connections s' = <[conn_id c := MkTracked (next_alloc s) c (epoch s)]> (connections s) /\
  next_alloc s' = next_alloc s + 1 /\ epoch s' = epoch s /\
  exists l, peer_connections s' = <[peer c := l ++ [next_alloc s]]> (peer_connections s) /\
    (l = [] \/ exists conns, peer_connections s !! peer c = Some conns /\
      l = retain_live (connected_insert c s).2 conns /\ (length l < MAX_PEER_CONNECTIONS)%nat).
Proof.
  change (connected c s) with (connected_peer c (next_alloc s) (connected_insert c s).2). set (s1 := (connected_insert c s).2).
  unfold connected_peer. change (peer_connections s1) with (peer_connections s).
  destruct (peer_connections s !! peer c) as [conns|] eqn:Hp.
  2: { cbn. split_and!; try done. exists []. split; [done|by left]. }
  destruct (Nat.leb_spec MAX_PEER_CONNECTIONS (length (retain_live s1 conns))).
  - destruct (closing_keeps (omap (upgrade s1) (retain_live s1 conns)) s1) as (H1 & H2 & H3 & H4).
    cbn [set_peers connections peer_connections next_alloc epoch]. rewrite H1, H2, H3, H4. split_and!; try done. exists []. split; [done|by left].
  - cbn -[retain_live]. split_and!; try done. exists (retain_live s1 conns). split; [done|]. right. by exists conns.
Qed.

Lemma connected_insert_live c s l i t : track_ok s -> connections s !! i = Some t -> i <> conn_id c -> alloc t ∈ l ->
  alloc t ∈ retain_live (connected_insert c s).2 l.
Proof.
  intros Hs Hi Hne Hl. unfold retain_live. apply list_elem_of_filter. split; [|done].
  unfold upgrade. cbn [connections connected_insert snd].
  destruct (filter _ _) as [|kv l'] eqn:Hf; [|by eexists]. exfalso.
  assert ((i, t) ∈ filter (fun kv : N * Tracked => alloc kv.2 = alloc t)
    (map_to_list (<[conn_id c := MkTracked (next_alloc s) c (epoch s)]> (connections s)))) as Hin.
  { apply list_elem_of_filter. split; [done|]. apply elem_of_map_to_list. by rewrite lookup_insert_ne. }
  rewrite Hf in Hin. by apply elem_of_nil in Hin.
Qed.
Lemma connected_ok c s : track_ok s -> track_ok (connected c s).
Proof.
  intros Hs. destruct (connected_spec c s) as (Hc & Hn & He & l & Hp & Hl).
  assert (forall a, a ∈ l -> a < next_alloc s) as Hlt.
  { destruct Hl as [->|(conns & Hco & -> & _)]; [by intros a ?%elem_of_nil|]. intros a [_ Ha]%list_elem_of_filter.
    by eapply (ok_old s Hs). }
  assert (forall i t, <[conn_id c := MkTracked (next_alloc s) c (epoch s)]> (connections s) !! i = Some t ->
    i = conn_id c /\ t = MkTracked (next_alloc s) c (epoch s) \/ i <> conn_id c /\ connections s !! i = Some t) as Hcase.
  { intros i t [[<- <-]|[? ?]]%lookup_insert_Some; [by left|by right]. }
  assert (forall p l', <[peer c := l ++ [next_alloc s]]> (peer_connections s) !! p = Some l' ->
    p = peer c /\ l' = l ++ [next_alloc s] \/ p <> peer c /\ peer_connections s !! p = Some l') as Hpcase.
  { intros p l' [[<- <-]|[? ?]]%lookup_insert_Some; [by left|by right]. }
  split; rewrite ?Hc, ?Hn, ?He, ?Hp.
  - intros i t [[-> ->]|[_ Hi]]%Hcase; [done|]. by apply (ok_id s Hs).
  - intros i t [[-> ->]|[_ Hi]]%Hcase; cbn; [lia|]. pose proof (ok_alloc s Hs i t Hi). lia.
  - intros i j t u [[-> ->]|[_ Hi]]%Hcase [[-> ->]|[_ Hj]]%Hcase; cbn; [done|..].
    + pose proof (ok_alloc s Hs j u Hj). lia.
    + pose proof (ok_alloc s Hs i t Hi). lia.
    + by eapply (ok_inj s Hs).
  - intros i t [[-> ->]|[_ Hi]]%Hcase; cbn; [lia|]. by eapply (ok_epoch s Hs).
  - apply (ok_range s Hs).
  - intros p l' [[-> ->]|[_ Hl']]%Hpcase; [|by eapply (ok_length s Hs)]. rewrite length_app. cbn.
    destruct Hl as [->|(conns & _ & _ & Hlen)]; unfold MAX_PEER_CONNECTIONS in *; cbn; lia.
  - intros p l' [[-> ->]|[_ Hl']]%Hpcase; [|by eapply (ok_sorted s Hs)]. apply StronglySorted_app. split_and!.
    + intros a b Ha ->%list_elem_of_singleton. auto.
    + destruct Hl as [->|(conns & Hco & -> & _)]; [constructor|]. apply filter_sorted. by eapply (ok_sorted s Hs).
    + by repeat constructor.
  - intros p l' a [[-> ->]|[_ Hl']]%Hpcase Ha.
    + apply elem_of_app in Ha as [Ha| ->%list_elem_of_singleton]; [apply Hlt in Ha|]; lia.
    + pose proof (ok_old s Hs p l' a Hl' Ha). lia.
  - intros p l' i t Hl' Hi Hin. apply Hcase in Hi as [[-> ->]|[Hne Hi]]; cbn in *.
    + apply Hpcase in Hl' as [[-> ->]|[_ Hl']]; [done|]. pose proof (ok_old s Hs p l' _ Hl' Hin). lia.
    + apply Hpcase in Hl' as [[-> ->]|[_ Hl']]; [|by eapply (ok_peer s Hs)].
      apply elem_of_app in Hin as [Hin|Hin%list_elem_of_singleton].
      * destruct Hl as [->|(conns & Hco & -> & _)]; [by apply elem_of_nil in Hin|].
        apply list_elem_of_filter in Hin as [_ Hin]. by eapply (ok_peer s Hs).
      * pose proof (ok_alloc s Hs i t Hi). lia.
  - intros i t l' Hi Hl'. apply Hcase in Hi as [[-> ->]|[Hne Hi]]; cbn in *.
    + rewrite lookup_insert_eq in Hl'. injection Hl' as <-. left. apply elem_of_app. right. by left.
    + apply Hpcase in Hl' as [[Hpe ->]|[_ Hl']]; [|by eapply (ok_recent s Hs)].
      pose proof (ok_alloc s Hs i t Hi) as Ha. destruct Hl as [->|(conns & Hco & -> & _)].
      * right. intros a Hin. cbn in Hin. apply list_elem_of_singleton in Hin as ->. done.
      * rewrite <- Hpe in Hco. destruct (ok_recent s Hs i t conns Hi Hco) as [Hin|Hold].
        -- left. apply elem_of_app. left. by apply (connected_insert_live c s conns i).
        -- right. intros a [Hin| ->%list_elem_of_singleton]%elem_of_app; [|done].
           apply list_elem_of_filter in Hin as [_ Hin]. auto.
Qed.

(** ** Executions keep the invariant *)

Lemma track_epoch_closed s c : track_ok s -> epoch (disconnect_peer c s) = epoch s.
Proof.
  intros _. unfold disconnect_peer. destruct (peer_connections s !! c) as [conns|]; [|done].
  assert (forall s', epoch (foldl drop_tracked s' conns) = epoch s') as ->; [|done].
  induction conns as [|a conns IH]; intros s'; [done|]. cbn. rewrite IH. unfold drop_tracked. by destruct (upgrade s' a).
Qed.
Lemma step_epoch w l w' : step w l w' -> world_ok w -> epoch (track w') = epoch (track w) \/ l = SweepBegin.
Proof.
  intros Hst [Hs _]. destruct Hst; cbn [track] in *; try (by left); try (by right); left.
  - by destruct (connected_spec c s) as (_ & _ & -> & _).
  - unfold tickle. by destruct (connections s !! i).
  - unfold disconnect. by destruct (connections s !! i).
  - by apply track_epoch_closed.
  - unfold get. destruct (peer_connections s !! p) as [conns|]; [|done]. by destruct (retain_live s conns).
  - unfold gc_entry. destruct (connections s !! i) as [t|]; [|done]. by destruct (t_epoch t <=? prev).
  - unfold gc_peer_retain. by destruct (peer_connections s !! p).
  - unfold gc_peer_evict. by destruct (peer_connections s !! p) as [[|]|].
Qed.
Lemma step_ok w l w' : step w l w' -> world_ok w -> world_ok w'.
Proof.
  intros Hst Hw. pose proof (step_epoch w l w' Hst Hw) as He. destruct Hw as [Hs Hsw]. destruct Hst; cbn [track sweep] in *.
  all: split; cbn [track sweep]; [|try (by intros; destruct He as [->|?]; [by eapply Hsw|])].
  - by apply connected_ok.
  - by apply tickle_ok.
  - by apply disconnect_ok.
  - by apply disconnect_peer_ok.
  - by apply disconnect_all_ok.
  - by apply get_ok.
  - by apply gc_begin_ok.
  - intros prev curr rest [= <- <- <-]. cbn. rewrite usize_add_small by lia. done.
  - destruct (Hsw _ _ _ eq_refl) as [-> _]. by apply gc_entry_ok.
  - intros p c r [= <- <- <-]. destruct He as [->|?]; [|done]. by eapply Hsw.
  - done.
  - done.
  - by apply gc_peer_retain_ok.
  - by apply gc_peer_evict_ok.
Qed.
Lemma exec_ok w ls w' : exec w ls w' -> world_ok w -> world_ok w'.
Proof. induction 1; eauto using step_ok. Qed.
Lemma reachable_ok w : reachable w -> world_ok w.
Proof. intros (ls & He). eapply exec_ok; [done|]. split; [apply conntrack_new_ok|done]. Qed.
Lemma exec_app w ls1 ls2 w' : exec w (ls1 ++ ls2) w' <-> exists m, exec w ls1 m /\ exec m ls2 w'.
Proof.
  revert w. induction ls1 as [|l ls1 IH]; intros w; cbn.
  - split; [intros; exists w; split; [constructor|done]|]. intros (m & Hn & He). by inversion Hn; subst.
  - split.
    + intros He. inversion He as [|? ? ? ? ? Hst He']; subst. apply IH in He' as (m & H1 & H2). exists m. split; [by econstructor|done].
    + intros (m & H1 & H2). inversion H1 as [|? ? ? ? ? Hst He']; subst. econstructor; [done|]. apply IH. eauto.
Qed.

(** *** What a step does to one connection *)

(** Nothing makes the connection active or replaces it. *)
Definition leaves_idle (i : N) (l : Label) : Prop :=
  match l with Tickle j => j <> i | Connected c => conn_id c <> i | _ => True end.
(** Nothing removes the connection, except sweeps. *)
Definition leaves_open (i p : N) (l : Label) : Prop :=
  match l with
  | Disconnect j _ => j <> i
  | Connected c => conn_id c <> i
  | DisconnectPeer q => q <> p
  | DisconnectAll => False
  | _ => True
  end.

Lemma drop_all_sub conns : forall s i t, connections (foldl drop_tracked s conns) !! i = Some t -> connections s !! i = Some t.
Proof.
  induction conns as [|a conns IH]; intros s i t Hi; [done|]. cbn in Hi. apply IH in Hi. revert Hi. unfold drop_tracked.
  destruct (upgrade s a); [|done]. cbn. by intros [_ ?]%lookup_delete_Some.
Qed.
(** A step that does not make a connection active leaves it as it is, or drops it, or is the visit of a sweep. *)
Lemma step_idle w l w' i t' : step w l w' -> leaves_idle i l -> connections (track w') !! i = Some t' ->
  connections (track w) !! i = Some t' \/
  exists prev curr rest t, l = SweepVisit i /\ sweep w = Some (prev, curr, rest) /\ connections (track w) !! i = Some t /\
    prev < t_epoch t /\ t' = MkTracked (alloc t) (connection t) (N.max (t_epoch t) curr).
Proof.
  intros Hst Hl Ht. destruct Hst; cbn [track sweep leaves_idle] in *; try (by left).
  - left. destruct (connected_spec c s) as (Hc & _). rewrite Hc, lookup_insert_ne in Ht by done. done.
  - left. unfold tickle in Ht. destruct (connections s !! i0) eqn:Hi; [|done]. cbn in Ht. by rewrite lookup_insert_ne in Ht.
  - left. unfold disconnect in Ht. destruct (connections s !! i0) eqn:Hi; [|done]. cbn in Ht. by apply lookup_delete_Some in Ht as [_ ?].
  - left. unfold disconnect_peer in Ht. destruct (peer_connections s !! p) as [conns|]; [|done]. by apply drop_all_sub in Ht.
  - left. unfold get in Ht. destruct (peer_connections s !! p) as [conns|]; [|done]. by destruct (retain_live s conns).
  - unfold gc_entry in Ht. destruct (connections s !! i0) as [t|] eqn:Hi; [|by left]. destruct (N.leb_spec (t_epoch t) prev); cbn in Ht.
    + left. by apply lookup_delete_Some in Ht as [_ ?].
    + apply lookup_insert_Some in Ht as [[-> <-]|[? ?]]; [|by left]. right. by exists prev, curr, rest, t.
  - left. unfold gc_peer_retain in Ht. by destruct (peer_connections s !! p).
  - left. unfold gc_peer_evict in Ht. by destruct (peer_connections s !! p) as [[|]|].
Qed.

(** *** Idle connections *)

(** Due: the next sweep that starts will drop the connection. *)
Definition due (i : N) (w : World) : Prop := forall t, connections (track w) !! i = Some t -> t_epoch t <= epoch (track w).
(** Doomed: the sweep in progress will drop it. *)
Definition doomed (i : N) (w : World) : Prop := exists prev curr rest, sweep w = Some (prev, curr, rest) /\
  forall t, connections (track w) !! i = Some t -> t_epoch t <= prev /\ i ∈ rest.
Definition gone (i : N) (w : World) : Prop := connections (track w) !! i = None.

Lemma begin_due i w w' : world_ok w -> step w SweepBegin w' -> due i w'.
Proof.
  intros [Hs _] Hst. inversion Hst; subst; cbn in *. intros t Ht. cbn in *. rewrite usize_add_small by lia.
  by apply (ok_epoch _ Hs i).
Qed.
Lemma step_due i w l w' : world_ok w -> step w l w' -> leaves_idle i l -> due i w -> due i w'.
Proof.
  intros Hw Hst Hl Hd t' Ht'. pose proof (step_epoch w l w' Hst Hw) as He.
  assert (epoch (track w) <= epoch (track w')) as Hle.
  { destruct He as [->| ->]; [done|]. inversion Hst; subst; cbn. rewrite usize_add_small by lia. lia. }
  destruct (step_idle w l w' i t' Hst Hl Ht') as [Ht|(prev & curr & rest & t & -> & Hsw & Ht & _ & ->)].
  - specialize (Hd t' Ht). lia.
  - specialize (Hd t Ht). destruct (ok_sweep w Hw prev curr rest Hsw) as [-> _]. cbn. lia.
Qed.
Lemma begin_doomed i w w' : world_ok w -> step w SweepBegin w' -> due i w -> doomed i w'.
Proof.
  intros _ Hst Hd. inversion Hst; subst; cbn in *. eexists _, _, _. split; [done|]. cbn. intros t Ht. split; [by apply Hd|].
  apply elem_of_dom. by exists t.
Qed.
Lemma step_gone i w l w' : step w l w' -> leaves_idle i l -> gone i w -> gone i w'.
Proof.
  intros Hst Hl Hg. unfold gone in *. destruct (connections (track w') !! i) as [t'|] eqn:Ht'; [|done].
  destruct (step_idle w l w' i t' Hst Hl Ht') as [Ht|(? & ? & ? & t & _ & _ & Ht & _)]; congruence.
Qed.
Lemma end_gone i w w' : step w SweepEnd w' -> doomed i w -> gone i w'.
Proof.
  intros Hst (prev & curr & rest & Hsw & Hd). inversion Hst as [| | | | | | | |s prev' curr' rest' Hdis| |]; subst. cbn in *.
  injection Hsw as -> -> ->. unfold gone. cbn. destruct (connections s !! i) as [t|] eqn:Ht; [|done]. exfalso.
  destruct (Hd t eq_refl) as [_ Hin]. apply (Hdis i Hin). apply elem_of_dom. by exists t.
Qed.
Lemma step_doomed i w l w' : step w l w' -> leaves_idle i l -> doomed i w -> doomed i w' \/ gone i w'.
Proof.
  intros Hst Hl Hd. pose proof Hd as (prev & curr & rest & Hsw & Hdo).
  assert (l = SweepEnd -> gone i w') as Hend by (intros ->; by eapply end_gone).
  assert (forall rest', sweep w' = Some (prev, curr, rest') -> (i ∈ rest' \/ gone i w') -> doomed i w' \/ gone i w') as Hkeep.
  { intros rest' Hsw' Hin. destruct (connections (track w') !! i) as [t'|] eqn:Ht'; [|by right].
    destruct Hin as [Hin|Hg]; [|by right]. left. exists prev, curr, rest'. split; [done|]. intros u Hu. split; [|done].
    destruct (step_idle w l w' i u Hst Hl Hu) as [Ht|(p & c & r & t & _ & Hsw2 & Ht & Hlt & _)]; [by apply Hdo|].
    rewrite Hsw in Hsw2. injection Hsw2 as <- <- <-. destruct (Hdo t Ht). lia. }
  assert (i ∈ rest \/ gone i w') as Hin.
  { destruct (connections (track w') !! i) as [t'|] eqn:Ht'; [|by right]. left.
    destruct (step_idle w l w' i t' Hst Hl Ht') as [Ht|(? & ? & ? & t & _ & _ & Ht & _)]; by eapply Hdo. }
  destruct Hst; cbn [sweep] in *; try (by apply (Hkeep rest)); [|by right; apply Hend].
  injection Hsw as -> -> ->. apply (Hkeep (rest ∖ {[ i0 ]})); [done|]. destruct Hin as [Hin|?]; [|by right].
  destruct (decide (i0 = i)) as [->|]; [|left; set_solver]. right. unfold gone. cbn.
  unfold gc_entry. destruct (connections s !! i) as [t|] eqn:Ht; [|done]. destruct (Hdo t Ht) as [Hle _].
  destruct (N.leb_spec (t_epoch t) prev); [|lia]. cbn. apply lookup_delete_eq.
Qed.

Lemma exec_keeps (P : World -> Prop) (Q : Label -> Prop) w ls w' :
  (forall w l w', world_ok w -> step w l w' -> Q l -> P w -> P w') ->
  exec w ls w' -> world_ok w -> Forall Q ls -> P w -> P w'.
Proof.
  intros Hstep He. induction He as [|w l m ls w' Hst He IH]; intros Hw Hq HP; [done|]. apply Forall_cons in Hq as [Hl Hq].
  apply IH; [by eapply step_ok|done|]. by eapply Hstep.
Qed.
Lemma idle_dropped w i l0 l1 l2 l3 w' : world_ok w ->
  exec w (l0 ++ SweepBegin :: l1 ++ SweepBegin :: l2 ++ SweepEnd :: l3) w' ->
  Forall (leaves_idle i) (l0 ++ SweepBegin :: l1 ++ SweepBegin :: l2 ++ SweepEnd :: l3) -> gone i w'.
Proof.
  intros Hw He Hq. rewrite Forall_app, Forall_cons, Forall_app, Forall_cons, Forall_app, Forall_cons in Hq.
  destruct Hq as (Q0 & _ & Q1 & _ & Q2 & _ & Q3).
  apply exec_app in He as (m0 & E0 & He). inversion He as [|? ? m1 ? ? S1 He1]; subst.
  apply exec_app in He1 as (m2 & E1 & He2). inversion He2 as [|? ? m3 ? ? S2 He3]; subst.
  apply exec_app in He3 as (m4 & E2 & He4). inversion He4 as [|? ? m5 ? ? S3 E3]; subst.
  assert (world_ok m0) as W0 by eauto using exec_ok. assert (world_ok m1) as W1 by eauto using step_ok.
  assert (world_ok m2) as W2 by eauto using exec_ok. assert (world_ok m3) as W3 by eauto using step_ok.
  assert (world_ok m4) as W4 by eauto using exec_ok. assert (world_ok m5) as W5 by eauto using step_ok.
  assert (due i m2) as D by (apply (exec_keeps (due i) (leaves_idle i) m1 l1); eauto using step_due, begin_due).
  assert (doomed i m4 \/ gone i m4) as [HD|HG].
  { apply (exec_keeps (fun w => doomed i w \/ gone i w) (leaves_idle i) m3 l2); [|done|done|done|left; exact (begin_doomed i m2 m3 W2 S2 D)].
    intros w1 l w2 _ Hst Hl [?|?]; [by eapply step_doomed|right; by eapply step_gone]. }
  - apply (exec_keeps (gone i) (leaves_idle i) m5 l3); [intros ? ? ? _; apply step_gone|done|done|done|exact (end_gone i m4 m5 S3 HD)].
  - apply (exec_keeps (gone i) (leaves_idle i) m5 l3); [intros ? ? ? _; apply step_gone|done|done|done|exact (step_gone i m4 SweepEnd m5 S3 I HG)].
Qed.

(** *** Active connections *)

Lemma drop_all_keeps q conns : forall s i t, track_ok s -> connections s !! i = Some t -> peer (connection t) <> q ->
  (forall j u, connections s !! j = Some u -> alloc u ∈ conns -> peer (connection u) = q) ->
  connections (foldl drop_tracked s conns) !! i = Some t.
Proof.
  induction conns as [|a conns IH]; intros s i t Hs Hi Hp Hq; [done|]. cbn. apply IH; [by apply drop_tracked_ok| |done|].
  - unfold drop_tracked. destruct (upgrade s a) as [u|] eqn:Hu; [|done]. apply upgrade_spec in Hu as (j & Hj & Ha); [|done].
    cbn. rewrite lookup_delete_ne; [done|]. pose proof (ok_id s Hs j u Hj) as Hid. unfold conn_id in Hid. rewrite Hid. intros ->.
    assert (u = t) as -> by congruence. apply Hp, (Hq i t Hi). rewrite Ha. by left.
  - intros j u Hj Hin. apply (Hq j u); [|by right]. revert Hj. unfold drop_tracked. destruct (upgrade s a); [|done]. cbn.
    by intros [_ ?]%lookup_delete_Some.
Qed.
(** A step that does not remove a connection keeps it, unless it is the visit of a sweep that finds it due. *)
Lemma step_open w l w' i t : world_ok w -> step w l w' -> leaves_open i (peer (connection t)) l -> connections (track w) !! i = Some t ->
  (exists t', connections (track w') !! i = Some t' /\ alloc t' = alloc t /\ connection t' = connection t /\ t_epoch t <= t_epoch t') \/
  exists prev curr rest, sweep w = Some (prev, curr, rest) /\ t_epoch t <= prev.
Proof.
  intros [Hs _] Hst Hl Ht. assert (forall m : gmap N Tracked, m !! i = Some t -> exists t', m !! i = Some t' /\ alloc t' = alloc t /\
    connection t' = connection t /\ t_epoch t <= t_epoch t') as Hsame by (intros m ?; by exists t).
  destruct Hst; cbn [track sweep leaves_open] in *; try (left; by apply Hsame).
  - left. apply Hsame. destruct (connected_spec c s) as (Hc & _). by rewrite Hc, lookup_insert_ne.
  - left. unfold tickle. destruct (connections s !! i0) as [u|] eqn:Hi; [|by apply Hsame]. cbn.
    destruct (decide (i0 = i)) as [->|]; [|apply Hsame; by rewrite lookup_insert_ne].
    rewrite lookup_insert_eq. eexists. split; [done|]. assert (u = t) as -> by congruence. cbn. split_and!; try done. lia.
  - left. apply Hsame. unfold disconnect. destruct (connections s !! i0) eqn:Hi; [|done]. cbn. by rewrite lookup_delete_ne.
  - left. apply Hsame. unfold disconnect_peer. destruct (peer_connections s !! p) as [conns|] eqn:Hp; [|done].
    apply (drop_all_keeps p); [by apply drop_peer_ok|done|congruence|]. cbn. intros j u Hj Hin. by eapply (ok_peer s Hs).
  - left. apply Hsame. unfold get. destruct (peer_connections s !! p) as [conns|]; [|done]. by destruct (retain_live s conns).
  - unfold gc_entry. destruct (connections s !! i0) as [u|] eqn:Hi; [|left; by apply Hsame].
    destruct (decide (i0 = i)) as [->|Hne].
    + assert (u = t) as -> by congruence. destruct (N.leb_spec (t_epoch t) prev); [right; by eexists _, _, _|]. left. cbn.
      rewrite lookup_insert_eq. eexists. split; [done|]. cbn. split_and!; try done. lia.
    + left. apply Hsame. destruct (t_epoch u <=? prev); cbn; [by rewrite lookup_delete_ne|by rewrite lookup_insert_ne].
  - left. apply Hsame. unfold gc_peer_retain. by destruct (peer_connections s !! p).
  - left. apply Hsame. unfold gc_peer_evict. by destruct (peer_connections s !! p) as [[|]|].
Qed.

Definition is_begin (l : Label) : bool := match l with SweepBegin => true | _ => false end.
(** The sweeps that start. *)
Definition sweeps (ls : list Label) : nat := length (List.filter is_begin ls).

Lemma exec_open w ls w' : exec w ls w' -> forall i t k, world_ok w -> connections (track w) !! i = Some t ->
  Forall (leaves_open i (peer (connection t))) ls -> epoch (track w) + 1 <= t_epoch t + N.of_nat k -> (k + sweeps ls <= 1)%nat ->
  exists t', connections (track w') !! i = Some t' /\ alloc t' = alloc t /\ connection t' = connection t.
Proof.
  induction 1 as [w|w l m ls w' Hst He IH]; intros i t k Hw Ht Hl Hk Hs; [by exists t|]. apply Forall_cons in Hl as [Hl Hls].
  pose proof (step_ok w l m Hst Hw) as Hm.
  destruct (step_open w l m i t Hw Hst Hl Ht) as [(t' & Ht' & Ha & Hc & Hle)|(prev & curr & rest & Hsw & Hle)].
  - rewrite <- Ha, <- Hc. rewrite <- Hc in Hls. destruct (step_epoch w l m Hst Hw) as [Hee| ->].
    + apply (IH i t' k Hm Ht' Hls); [lia|]. unfold sweeps in *. cbn in Hs. destruct (is_begin l); cbn in Hs; lia.
    + apply (IH i t' (S k) Hm Ht' Hls); unfold sweeps in *; cbn in Hs; [|lia]. inversion Hst; subst; cbn in *.
      rewrite usize_add_small by lia. lia.
  - exfalso. destruct (ok_sweep w Hw _ _ _ Hsw) as [_ He']. lia.
Qed.

(** ** Theorems *)

(** C38 [idle_reaped]: in every execution from a reachable state, however the operations and the sweeps interleave, a connection
    that is not used and not replaced is not tracked any more once a sweep has ended that started after another one. *)
Theorem idle_reaped w i l0 l1 l2 l3 w' : reachable w ->
  exec w (l0 ++ SweepBegin :: l1 ++ SweepBegin :: l2 ++ SweepEnd :: l3) w' ->
  Forall (leaves_idle i) (l0 ++ SweepBegin :: l1 ++ SweepBegin :: l2 ++ SweepEnd :: l3) ->
  connections (track w') !! i = None.
Proof. intros Hw. apply idle_dropped. by apply reachable_ok. Qed.

(** [tickled_survives]: a connection that was just used is still tracked, as the same allocation, as long as at most one sweep
    starts and nobody drops it or its peer. *)
Theorem tickled_survives w i t ls w' : reachable w -> connections (track w) !! i = Some t ->
  exec w (Tickle i :: ls) w' -> Forall (leaves_open i (peer (connection t))) ls -> (sweeps ls <= 1)%nat ->
  exists t', connections (track w') !! i = Some t' /\ alloc t' = alloc t /\ connection t' = connection t.
Proof.
  intros Hw%reachable_ok Ht He Hl Hs. inversion He as [|? ? m ? ? Hst He']; subst.
  pose proof (step_ok w _ m Hst Hw) as Hm. inversion Hst; subst. cbn [track] in *.
  destruct Hw as [Hok _]. cbn in Hok.
  assert (connections (tickle i s) !! i = Some (MkTracked (alloc t) (connection t) (N.max (t_epoch t) (epoch s + 1)))) as Ht'.
  { unfold tickle. rewrite Ht. cbn. rewrite lookup_insert_eq. rewrite usize_add_small; [done|]. apply (ok_range s Hok). }
  apply (exec_open _ ls w' He' i _ 0 Hm Ht'); cbn; [done| |lia].
  unfold tickle. rewrite Ht. cbn. lia.
Qed.

(** [peer_lists]: in every reachable state no list of a peer is longer than the limit, it has no duplicates and all live
    pointers in it are to connections of that peer; what [get] returns is tracked, a connection to that peer, and none that
    is tracked for the peer is newer. *)
Theorem peer_lists w p : reachable w ->
  (forall l, peer_connections (track w) !! p = Some l -> (length l <= MAX_PEER_CONNECTIONS)%nat /\ NoDup l /\
    forall a t, a ∈ l -> upgrade (track w) a = Some t -> peer (connection t) = p) /\
  (forall c, (get p (track w)).1 = Some c -> exists t, connections (track w) !! conn_id c = Some t /\ connection t = c /\ peer c = p /\
    forall j u, connections (track w) !! j = Some u -> peer (connection u) = p -> alloc u <= alloc t).
Proof.
  intros [Hs _]%reachable_ok. split.
  - intros l Hl. split_and!; [by eapply ok_length| |].
    + eapply ok_sorted in Hl; [|done]. clear Hs. induction Hl as [|x l Hl IH Hx]; constructor; [|done]. intros Hin.
      rewrite Forall_forall in Hx. specialize (Hx x Hin). lia.
    + intros a t Ha Ht. apply upgrade_spec in Ht as (i & Hi & <-); [|done]. by eapply (ok_peer _ Hs).
  - intros c. unfold get. destruct (peer_connections (track w) !! p) as [conns|] eqn:Hp; [|done].
    destruct (retain_live (track w) conns) as [|a l] eqn:Hr; [done|]. cbn [fst]. rewrite <- Hr.
    destruct (last (retain_live (track w) conns)) as [b|] eqn:Hlast; [|done]. cbn.
    destruct (upgrade (track w) b) as [t|] eqn:Hu; [|done]. cbn. intros [= <-].
    apply upgrade_spec in Hu as (i & Hi & <-); [|done]. exists t. rewrite (ok_id _ Hs i t Hi). split; [done|]. split; [done|].
    apply last_Some_elem_of in Hlast as Hin. apply list_elem_of_filter in Hin as [_ Hin].
    split; [by eapply (ok_peer _ Hs)|]. intros j u Hj Hpu. rewrite <- Hpu in Hp.
    destruct (ok_recent _ Hs j u conns Hj Hp) as [Hinu|Hold]; [|specialize (Hold _ Hin); lia].
    assert (alloc u ∈ retain_live (track w) conns) as Hlive by (apply retain_live_spec; eauto).
    apply last_Some in Hlast as [l' Hl']. pose proof (filter_sorted _ (fun weak => is_Some (upgrade (track w) weak)) _ (ok_sorted _ Hs _ _ Hp)) as Hso.
    change (filter _ conns) with (retain_live (track w) conns) in Hso. rewrite Hl' in Hso, Hlive.
    apply elem_of_app in Hlive as [Hb|Hb%list_elem_of_singleton]; [|lia].
    apply StronglySorted_app in Hso as (Hlt & _). specialize (Hlt (alloc u) (alloc t) Hb ltac:(by left)). lia.
Qed.

(** [connected_get]: a connection that was just made is the one [get] returns for its peer. *)
Theorem connected_get w c : reachable w -> (get (peer c) (connected c (track w))).1 = Some c.
Proof.
  intros [Hs _]%reachable_ok. pose proof (connected_ok c _ Hs) as Hs'.
  destruct (connected_spec c (track w)) as (Hc & _ & _ & l & Hp & _). unfold get. rewrite Hp, lookup_insert_eq.
  assert (upgrade (connected c (track w)) (next_alloc (track w)) = Some (MkTracked (next_alloc (track w)) c (epoch (track w)))) as Hu.
  { apply upgrade_spec; [done|]. exists (conn_id c). by rewrite Hc, lookup_insert_eq. }
  assert (retain_live (connected c (track w)) (l ++ [next_alloc (track w)]) =
    retain_live (connected c (track w)) l ++ [next_alloc (track w)]) as ->.
  { unfold retain_live. rewrite filter_app. f_equal. rewrite filter_cons, decide_True; [done|]. by eexists. }
  destruct (retain_live _ l ++ [_]) as [|x l'] eqn:Hx; [by destruct (retain_live _ l)|]. cbn [fst]. rewrite <- Hx, last_snoc.
  cbn [mbind option_bind]. by rewrite Hu.
Qed.

(** A sweep on its own is the visit of every connection. *)
Lemma gc_entries_exec prev curr ids : forall s rest,
  exec (MkWorld s (Some (prev, curr, rest))) (SweepVisit <$> ids)
    (MkWorld (foldl (fun s i => gc_entry prev curr i s) s ids) (Some (prev, curr, rest ∖ list_to_set ids))).
Proof.
  induction ids as [|i ids IH]; intros s rest; cbn.
  - replace (rest ∖ ∅) with rest by set_solver. constructor.
  - econstructor; [constructor|]. replace (rest ∖ ({[i]} ∪ list_to_set ids)) with (rest ∖ {[ i ]} ∖ list_to_set ids) by set_solver. apply IH.
Qed.
Lemma gc_connections_exec s : epoch s + 2 < 2 ^ 64 ->
  exec (MkWorld s None) (SweepBegin :: (SweepVisit <$> (map_to_list (connections s)).*1) ++ [SweepEnd]) (MkWorld (gc_connections s) None).
Proof.
  intros He. econstructor; [by constructor|]. apply exec_app. eexists. split; [apply gc_entries_exec|].
  econstructor; [|constructor]. constructor. intros x Hx _. apply elem_of_difference in Hx as [Hx Hn]. apply Hn.
  apply elem_of_dom in Hx as [t Ht]. apply elem_of_list_to_set, list_elem_of_fmap. exists (x, t). split; [done|].
  by apply elem_of_map_to_list.
Qed.

(** [fresh_connection_reaped]: a connection that is made just before a sweep and not used until then is closed by it: its epoch
    is the current one, not the next. *)
Theorem fresh_connection_reaped s c : let '((prev, curr), s') := gc_begin (connected c s) in
  connections (gc_entry prev curr (conn_id c) s') !! conn_id c = None /\
  exists log, closed (gc_entry prev curr (conn_id c) s') = log ++ [(c, (close_code Timeout, reason_phrase Timeout))].
Proof.
  destruct (connected_spec c s) as (Hc & _ & He & _). cbn -[connected gc_entry]. unfold gc_entry.
  cbn [connections]. rewrite Hc, lookup_insert_eq. cbn [t_epoch]. rewrite He, N.leb_refl. cbn -[connected].
  split; [apply lookup_delete_eq|by eexists].
Qed.

(** ** Concrete executions *)

(** The steps, as a function. *)
Definition do_step (w : World) (l : Label) : option World :=
  let s := track w in
  match l, sweep w with
  | Connected c, _ => Some (MkWorld (connected c s) (sweep w))
  | Tickle i, _ => Some (MkWorld (tickle i s) (sweep w))
  | Disconnect i r, _ => Some (MkWorld (disconnect i r s) (sweep w))
  | DisconnectPeer p, _ => Some (MkWorld (disconnect_peer p s) (sweep w))
  | DisconnectAll, _ => Some (MkWorld (disconnect_all s) (sweep w))
  | Get p, _ => Some (MkWorld (get p s).2 (sweep w))
  | SweepBegin, None =>
      if epoch s + 2 <? 2 ^ 64 then Some (MkWorld (gc_begin s).2 (Some ((gc_begin s).1, dom (connections s)))) else None
  | SweepVisit i, Some (prev, curr, rest) => Some (MkWorld (gc_entry prev curr i s) (Some (prev, curr, rest ∖ {[ i ]})))
  | SweepEnd, Some (_, _, rest) => if bool_decide (rest ∩ dom (connections s) = ∅) then Some (MkWorld s None) else None
  | PeerRetain p, _ => Some (MkWorld (gc_peer_retain p s).2 (sweep w))
  | PeerEvict p, _ => Some (MkWorld (gc_peer_evict s p) (sweep w))
  | _, _ => None
  end.
Fixpoint do_steps (w : World) (ls : list Label) : option World :=
  match ls with [] => Some w | l :: ls => w ← do_step w l; do_steps w ls end.
Lemma do_step_exact w l w' : do_step w l = Some w' <-> step w l w'.
Proof.
  split.
  - destruct w as [s sw], l; cbn; try (intros [= <-]; constructor); destruct sw as [[[prev curr] rest]|]; cbn; try done.
    + destruct (N.ltb_spec (epoch s + 2) (2 ^ 64)); [|done]. intros [= <-]. by constructor.
    + intros [= <-]. constructor.
    + case_bool_decide; [|done]. intros [= <-]. constructor. set_solver.
  - destruct 1; cbn; try done.
    + by destruct (N.ltb_spec (epoch s + 2) (2 ^ 64)); [|lia].
    + rewrite bool_decide_true by set_solver. done.
Qed.
Lemma do_steps_exec ls : forall w w', do_steps w ls = Some w' -> exec w ls w'.
Proof.
  induction ls as [|l ls IH]; intros w w'; cbn; [intros [= <-]; constructor|].
  destruct (do_step w l) as [m|] eqn:Hm; [|done]. cbn. intros Hr. econstructor; [by apply do_step_exact|by apply IH].
Qed.

Definition demo_conn (i : N) : Connection := MkConnection 1 i i.
Definition demo_labels : list Label := [Connected (demo_conn 7); Tickle 7].
Definition demo_world : World := default world_new (do_steps world_new demo_labels).
Lemma demo_reachable : reachable demo_world.
Proof. exists demo_labels. by apply do_steps_exec. Qed.

Lemma idle_reaped_witness : exists w',
  exec demo_world ([] ++ SweepBegin :: [SweepVisit 7; SweepEnd] ++ SweepBegin :: [SweepVisit 7; Get 1] ++ SweepEnd :: []) w' /\
  connections (track w') !! 7 = None.
Proof.
  set (ls := [] ++ SweepBegin :: [SweepVisit 7; SweepEnd] ++ SweepBegin :: [SweepVisit 7; Get 1] ++ SweepEnd :: []).
  assert (exec demo_world ls (default world_new (do_steps demo_world ls))) as He by (apply do_steps_exec; vm_compute; reflexivity).
  eexists. split; [exact He|].
  apply (idle_reaped demo_world 7 [] [SweepVisit 7; SweepEnd] [SweepVisit 7; Get 1] [] _ demo_reachable He). repeat constructor.
Defined.
Lemma tickled_survives_witness : exists w' t',
  exec demo_world [Tickle 7; SweepBegin; SweepVisit 7; Connected (demo_conn 8); SweepEnd] w' /\ connections (track w') !! 7 = Some t'.
Proof.
  set (ls := [SweepBegin; SweepVisit 7; Connected (demo_conn 8); SweepEnd]).
  assert (exec demo_world (Tickle 7 :: ls) (default world_new (do_steps demo_world (Tickle 7 :: ls)))) as He
    by (apply do_steps_exec; vm_compute; reflexivity).
  destruct (tickled_survives demo_world 7 (MkTracked 0 (demo_conn 7) 1) ls _ demo_reachable eq_refl He) as (t' & Ht' & _);
    [repeat constructor; discriminate|vm_compute; lia|].
  eexists _, t'. split; [exact He|exact Ht'].
Defined.
Lemma peer_lists_witness : exists t, connections (track demo_world) !! 7 = Some t /\ connection t = demo_conn 7 /\
  (get 1 (track demo_world)).1 = Some (demo_conn 7).
Proof.
  destruct (peer_lists demo_world 1 demo_reachable) as [_ Hg].
  destruct (Hg (demo_conn 7) ltac:(vm_compute; reflexivity)) as (t & Ht & Hc & _). exists t. split; [exact Ht|]. split; [exact Hc|].
  vm_compute. reflexivity.
Defined.
(** When a peer has too many connections they are closed, but stay in the map until a sweep drops them. *)
Example evicted_still_tracked :
  let w := default world_new (do_steps world_new ((fun i => Connected (demo_conn i)) <$> [1; 2; 3; 4; 5; 6])) in
  total (track w) = 6%nat /\ peer_connections (track w) !! 1 = Some [5] /\ length (closed (track w)) = 5%nat.
Proof. vm_compute. split_and!; reflexivity. Qed.
(** The second thread: a peer without live connections is forgotten. *)
Example peers_collected : peers (gc_peers (track (default world_new (do_steps demo_world [Disconnect 7 Timeout])))) = [].
Proof. vm_compute. reflexivity. Qed.
