(* ===== verification/DefaultHead.v ===== *)
(** * The head of the default branch of a project

    [librad/src/git/identities/project/heads.rs]: the branches of all delegates are gathered into histories, each with a
    commit that is in all of them; a single history gives the head of the project, several a fork.  [MergeBase] is
    [merge_base] of libgit2. *)
From stdpp Require Import base list gmap sets.
From Stdlib Require Import NArith Lia.
From Stdlib Require String.
Import String.StringSyntax.
From S2P Require Import Prelude Effects RefFormat RefName.
Import Name.
From S2P Require Import Scoped Utf8 RefLike Keys UrnText LibradRef CanonicalJson RemotesGraph SignedRefs StorageRead IdentityStore ReplicationSafety.
#[local] Open Scope N_scope.

Class MergeBase (W GE : Type) := g_merge_base : W -> N -> N -> result GE N.

(** ** Data *)

Record Fork := MkFork { f_peers : gset (list N); f_tip : N }.
#[export] Instance fork_eq_dec : EqDecision Fork.
Proof. solve_decision. Defined.
#[export] Instance fork_countable : Countable Fork.
Proof. apply (inj_countable' (fun f => (f_peers f, f_tip f)) (fun p => MkFork p.1 p.2)). by intros []. Defined.

Inductive DefaultBranchHead := Forked (forks : gset Fork) | Head (target : N) (branch : list N).

Inductive FindDefaultBranch (MB GE : Type) : Type :=
| NoDefaultBranch | NoTips | FindRefFormat (e : RefFormat.Error) | FindRead (e : ReadError MB GE) | FindGit2 (e : GE).
Arguments NoDefaultBranch {MB GE}. Arguments NoTips {MB GE}. Arguments FindRefFormat {MB GE} e.
Arguments FindRead {MB GE} e. Arguments FindGit2 {MB GE} e.
Inductive SetDefaultBranch (MB GE SGE : Type) : Type :=
| SetFind (e : FindDefaultBranch MB GE) | SetGit (e : GE) | SetForked (forks : gset Fork) | SetUpdateRefs (e : SGE).
Arguments SetFind {MB GE SGE} e. Arguments SetGit {MB GE SGE} e. Arguments SetForked {MB GE SGE} forks. Arguments SetUpdateRefs {MB GE SGE} e.

(** ** Histories *)

Record History := MkHistory { merge_base : N; h_peers : gmap (list N) N }.
Definition history_new (base : N) (p : list N) : History := MkHistory base {[ p := base ]}.

Section Multiverse.
Context {W GE : Type} `{Git2Repo W GE} `{MergeBase W GE}.

(** The loop of [add_peer]; an error stops it. *)
Fixpoint add_loop (w : W) (p : list N) (tip : N) (hs : list History) : result GE (bool * list History) :=
  match hs with
  | [] => Ok (false, [])
  | h :: hs =>
      '(found, h) ← (if merge_base h =? tip then Ok (true, MkHistory (merge_base h) (<[p := tip]> (h_peers h)))
        else match g_merge_base w (merge_base h) tip with
             | Err e => if is_not_found_err e then Ok (false, h) else Err e
             | Ok b => Ok (true, MkHistory b (<[p := tip]> (h_peers h)))
             end);
      '(found', hs) ← add_loop w p tip hs;
      Ok (found || found', h :: hs)
  end.
Definition add_peer (w : W) (p : list N) (tip : N) (hs : list History) : result GE (list History) :=
  '(found_history, hs) ← add_loop w p tip hs;
  Ok (if (found_history : bool) then hs else hs ++ [history_new tip p]).
Definition finish {MB} (branch : list N) (hs : list History) : result (FindDefaultBranch MB GE) DefaultBranchHead :=
  match hs with
  | [] => Err NoTips
  | [h] => Ok (Head (merge_base h) branch)
  | _ => Ok (Forked (list_to_set (map (fun h => MkFork (dom (h_peers h)) (merge_base h)) hs)))
  end.
End Multiverse.

(** ** The default branch *)
Section Heads.
Context {W GE R MB MH IE SGE : Type} `{Git2Repo W GE} `{GitRefs W GE} `{MergeBase W GE} `{HasProtocol R MH IE} `{Multibase MB}.
Context (local : list N) (sigrefs_update : UrnText.Urn R -> st W SGE unit).

Definition delegate_peers (p : Project R) : list (list N) :=
  concat (map (fun d : Key + Person R => match d with inl key => [key] | inr person => pe_delegations person end) (pj_delegations p)).

Definition peer_commit (w : W) (urn : UrnText.Urn R) (peer_id branch : list N) : eff (FindDefaultBranch MB GE) (option N) :=
  remote_name ← of_res (map_err FindRefFormat (try_from_str (peer_default_encoding (MB := MB) peer_id)));
  reference ← of_out (if bool_decide (local = peer_id) then from_category HEADS branch
    else r ← from_category REMOTES remote_name; Done (join (join r HEADS) branch));
  eff_map_err FindRead (tip w (with_path (Some reference) urn) OCommit).

Fixpoint gather (w : W) (urn : UrnText.Urn R) (branch : list N) (peers : list (list N)) (hs : list History)
    : eff (FindDefaultBranch MB GE) (list History) :=
  match peers with
  | [] => EOk hs
  | p :: peers =>
      tip ← peer_commit w urn p branch;
      match tip with
      | Some tip => hs ← of_res_with FindGit2 (add_peer w p tip hs); gather w urn branch peers hs
      | None => gather w urn branch peers hs
      end
  end.
(** [default_branch] is that of the payload of the project. *)
Definition default_branch_head (w : W) (project : Project R) (default_branch : option (list N))
    : eff (FindDefaultBranch MB GE) DefaultBranchHead :=
  match default_branch with
  | Some default_branch =>
      branch ← of_res (map_err FindRefFormat (try_from_str default_branch));
      hs ← gather w (project_urn project) branch (delegate_peers project) [];
      of_res (finish branch hs)
  | None => EErr NoDefaultBranch
  end.

(** The names of the head and of the branch it points to; [expect]s. *)
Definition head_name (urn : UrnText.Urn R) : outcome (list N) :=
  unwrap (res_ok (try_from_str (str "refs/namespaces/" ++ urn_encode_id (MB := MB) urn ++ str "/refs/HEAD"))).
Definition urn_namespace_component (urn : UrnText.Urn R) : outcome (list N) :=
  rs ← unwrap (res_ok (try_from_str (urn_encode_id (MB := MB) urn))); unwrap (from_refstring rs).
Definition branch_name (urn : UrnText.Urn R) (branch : list N) : outcome (list N) :=
  c ← urn_namespace_component urn; q ← from_category HEADS branch; from_refs_namespaces c q.

Definition set_default_head (project : Project R) (default_branch : option (list N)) : st W (SetDefaultBranch MB GE SGE) N :=
  let urn := project_urn project in
  default_head ← reads (fun w => eff_map_err SetFind (default_branch_head w project default_branch));
  match default_head with
  | Head target branch =>
      head ← lift (of_out (head_name urn));
      branch_head ← lift (of_out (branch_name urn branch));
      _ ← st_map_err SetGit (reference_create branch_head target true);
      _ ← st_map_err SetGit (reference_symbolic head branch_head true);
      _ ← st_map_err SetUpdateRefs (sigrefs_update urn);
      mret target
  | Forked forks => lift (EErr (SetForked forks))
  end.
End Heads.

(** ** Ancestry *)

(** [anc w a b]: [a] is [b] or an ancestor of it. A merge base is a common ancestor, and is not found only when there is none. *)
Class AncestryLaws (W GE : Type) `{Git2Repo W GE} `{MergeBase W GE} := {
  anc : W -> N -> N -> Prop;
  anc_refl w a : anc w a a;
  anc_trans w a b c : anc w a b -> anc w b c -> anc w a c;
  merge_base_common w a b c : g_merge_base w a b = Ok c -> anc w c a /\ anc w c b;
  merge_base_none w a b e : g_merge_base w a b = Err e -> is_not_found_err e = true -> ~ exists c, anc w c a /\ anc w c b;
}.

Section Spec.
Context {W GE : Type} `{AncestryLaws W GE}.
Implicit Types (hs : list History) (w : W).

Definition related w a b : Prop := exists c, anc w c a /\ anc w c b.
Lemma related_anc w a b a' b' : related w a' b' -> anc w a' a -> anc w b' b -> related w a b.
Proof. intros (c & Ha & Hb) Ha' Hb'. exists c. eauto using anc_trans. Qed.

(** The histories of peers with tips: each is in one whose commit it contains, and the histories have nothing in common. *)
Record gathered w (tips all : list (list N * N)) hs : Prop := {
  ga_covered p t : (p, t) ∈ tips -> exists h, h ∈ hs /\ anc w (merge_base h) t /\ p ∈ dom (h_peers h);
  ga_peers h p t : h ∈ hs -> h_peers h !! p = Some t -> (p, t) ∈ all /\ anc w (merge_base h) t;
  ga_nonempty h : h ∈ hs -> h_peers h <> ∅;
  ga_apart i j h k : hs !! i = Some h -> hs !! j = Some k -> i <> j -> ~ related w (merge_base h) (merge_base k);
}.

(** What the loop does to one history. *)
Inductive joined w (p : list N) (t : N) : History -> bool -> History -> Prop :=
| joined_in h b : anc w b (merge_base h) -> anc w b t -> joined w p t h true (MkHistory b (<[p := t]> (h_peers h)))
| joined_out h : ~ related w (merge_base h) t -> joined w p t h false h.

Lemma add_loop_spec w p t hs : forall f hs', add_loop w p t hs = Ok (f, hs') ->
  exists fs, Forall2 (fun h fh => joined w p t h fh.1 fh.2) hs (zip fs hs') /\ length fs = length hs' /\ f = existsb id fs.
Proof.
  induction hs as [|h hs IH]; intros f hs'; cbn.
  - intros [= <- <-]. exists []. split; [constructor|done].
  - intros Hl. apply res_bind_ok in Hl as ([f1 h1] & Hj & Hl). apply res_bind_ok in Hl as ([f2 hs2] & Hr & [= <- <-]).
    destruct (IH _ _ Hr) as (fs & Hall & Hlen & ->). exists (f1 :: fs). split; [|split; [cbn; congruence|done]]. cbn. constructor; [|done].
    cbn. destruct (N.eqb_spec (merge_base h) t) as [He|He].
    + injection Hj as <- <-. apply joined_in; [apply anc_refl|rewrite He; apply anc_refl].
    + destruct (g_merge_base w (merge_base h) t) as [b|e] eqn:Hb.
      * injection Hj as <- <-. apply merge_base_common in Hb as [? ?]. by apply joined_in.
      * destruct (is_not_found_err e) eqn:Hn; [|done]. injection Hj as <- <-. apply joined_out. by eapply merge_base_none.
Qed.

Lemma add_loop_gathered w tips hs p t f hs' : gathered w tips tips hs -> add_loop w p t hs = Ok (f, hs') ->
  gathered w tips ((p, t) :: tips) hs' /\
  (if f then exists h, h ∈ hs' /\ anc w (merge_base h) t /\ p ∈ dom (h_peers h) else forall h, h ∈ hs' -> ~ related w (merge_base h) t).
Proof.
  intros Hg Hl. apply add_loop_spec in Hl as (fs & Hall & Hlen & ->).
  assert (forall i h', hs' !! i = Some h' -> exists h f, hs !! i = Some h /\ fs !! i = Some f /\ joined w p t h f h') as Hof.
  { intros i h' Hi. destruct (lookup_lt_is_Some_2 fs i) as [f Hf]; [rewrite Hlen; by eapply lookup_lt_Some|].
    assert (zip fs hs' !! i = Some (f, h')) as Hz by (apply lookup_zip_Some; done).
    eapply Forall2_lookup_r in Hall as (h & Hh & Hj); [|done]. by exists h, f. }
  assert (forall i h, hs !! i = Some h -> exists h' f, hs' !! i = Some h' /\ joined w p t h f h') as Hto.
  { intros i h Hi. eapply Forall2_lookup_l in Hall as ([f h'] & Hz & Hj); [|done]. apply lookup_zip_Some in Hz as [Hf Hh'].
    by exists h', f. }
  assert (forall h f h', joined w p t h f h' -> anc w (merge_base h') (merge_base h)) as Hdown.
  { intros h f h' []; [done|apply anc_refl]. }
  split; [split|].
  - intros q u Hq. destruct (ga_covered _ _ _ _ Hg q u Hq) as (h & [i Hi]%list_elem_of_lookup & Hu & Hqh).
    destruct (Hto i h Hi) as (h' & f & Hi' & Hj). exists h'. split; [by eapply list_elem_of_lookup_2|].
    split; [eapply anc_trans; [by eapply Hdown|done]|]. destruct Hj; [|done]. cbn. set_solver.
  - intros h' q u [i Hi]%list_elem_of_lookup Hq. destruct (Hof i h' Hi) as (h & f & Hh & _ & Hj).
    apply list_elem_of_lookup_2 in Hh. destruct Hj as [h b Hb Ht|h Hno]; cbn in Hq.
    + apply lookup_insert_Some in Hq as [[<- <-]|[_ Hq]]; [split; [left|done]|].
      destruct (ga_peers _ _ _ _ Hg h q u Hh Hq). split; [by right|]. eapply anc_trans; [exact Hb|done].
    + destruct (ga_peers _ _ _ _ Hg h q u Hh Hq). split; [by right|done].
  - intros h' [i Hi]%list_elem_of_lookup. destruct (Hof i h' Hi) as (h & f & Hh & _ & Hj).
    apply list_elem_of_lookup_2 in Hh. destruct Hj; [apply insert_non_empty|by apply (ga_nonempty _ _ _ _ Hg)].
  - intros i j h' k' Hi Hj Hne Hr. destruct (Hof i h' Hi) as (h & f & Hh & _ & Jh). destruct (Hof j k' Hj) as (k & g & Hk & _ & Jk).
    apply (ga_apart _ _ _ _ Hg i j h k Hh Hk Hne). eapply related_anc; [done|by eapply Hdown..].
  - destruct (existsb id fs) eqn:Hf.
    + apply existsb_exists in Hf as (f & Hin & Hft). apply list_elem_of_In, list_elem_of_lookup in Hin as [i Hi]. cbn in Hft. subst f.
      destruct (lookup_lt_is_Some_2 hs' i) as [h' Hh']; [rewrite <- Hlen; by eapply lookup_lt_Some|].
      destruct (Hof i h' Hh') as (h & f & _ & Hf & Hj). rewrite Hi in Hf. injection Hf as <-. exists h'.
      split; [by eapply list_elem_of_lookup_2|]. inversion Hj; subst. cbn. split; [done|]. set_solver.
    + intros h' [i Hi]%list_elem_of_lookup. destruct (Hof i h' Hi) as (h & f & _ & Hfi & Hj). destruct f.
      * apply not_true_iff_false in Hf. destruct Hf. apply existsb_exists. exists true. split; [|done].
        apply list_elem_of_In. by eapply list_elem_of_lookup_2.
      * by inversion Hj; subst.
Qed.
Lemma gathered_add w tips hs p t hs' : gathered w tips tips hs -> add_peer w p t hs = Ok hs' ->
  gathered w ((p, t) :: tips) ((p, t) :: tips) hs'.
Proof.
  intros Hg. unfold add_peer. intros Ha. apply res_bind_ok in Ha as ([f hs1] & Hl & [= <-]).
  apply add_loop_gathered with (tips := tips) in Hl as [Hg1 Hc]; [|done]. destruct f; cbn in Hc.
  - split; [|apply Hg1..]. intros q u [[= -> ->]|Hq]%elem_of_cons; [done|by apply (ga_covered _ _ _ _ Hg1)].
  - split.
    + intros q u [[= -> ->]|Hq]%elem_of_cons.
      * exists (history_new t p). split; [apply elem_of_app; right; by left|]. cbn. split; [apply anc_refl|]. set_solver.
      * destruct (ga_covered _ _ _ _ Hg1 q u Hq) as (h & Hin & ?). exists h. split; [apply elem_of_app; by left|done].
    + intros h q u [Hh| ->%list_elem_of_singleton]%elem_of_app Hq; [by apply (ga_peers _ _ _ _ Hg1)|].
      cbn in Hq. apply lookup_singleton_Some in Hq as [<- <-]. split; [left|apply anc_refl].
    + intros h [Hh| ->%list_elem_of_singleton]%elem_of_app; [by apply (ga_nonempty _ _ _ _ Hg1)|]. apply map_non_empty_singleton.
    + intros i j h k [Hi|[Hi Hh]]%lookup_app_Some [Hj|[Hj Hk]]%lookup_app_Some Hne.
      * by eapply (ga_apart _ _ _ _ Hg1 i j).
      * apply list_lookup_singleton_Some in Hk as [_ <-]. cbn. apply Hc. by eapply list_elem_of_lookup_2.
      * apply list_lookup_singleton_Some in Hh as [_ <-]. cbn. intros (c & H3 & H4). eapply Hc; [by eapply list_elem_of_lookup_2|by exists c].
      * apply list_lookup_singleton_Some in Hh as [? _]. apply list_lookup_singleton_Some in Hk as [? _]. lia.
Qed.
Lemma gathered_empty w : gathered w [] [] [].
Proof. split; [by intros ? ? ?%elem_of_nil|by intros ? ? ? ?%elem_of_nil|by intros ? ?%elem_of_nil|done]. Qed.
End Spec.

(** ** Theorems *)
Section Theorems.
Context {W GE R MB MH IE SGE : Type} `{AncestryLaws W GE} `{!GitRefs W GE} `{HasProtocol R MH IE} `{Multibase MB}.
Context (local : list N) (sigrefs_update : UrnText.Urn R -> st W SGE unit).

(** A delegate has a commit on the branch. *)
Definition has_tip (w : W) (project : Project R) (branch p : list N) (t : N) : Prop :=
  p ∈ delegate_peers project /\ peer_commit (MB := MB) local w (project_urn project) p branch = EOk (Some t).

Lemma gather_spec w urn branch peers : forall hs tips hs', gathered w tips tips hs ->
  gather (MB := MB) local w urn branch peers hs = EOk hs' ->
  exists tips', gathered w tips' tips' hs' /\
    forall p t, (p, t) ∈ tips' <-> (p, t) ∈ tips \/ p ∈ peers /\ peer_commit (MB := MB) local w urn p branch = EOk (Some t).
Proof.
  induction peers as [|q peers IH]; intros hs tips hs' Hg; cbn [gather].
  - intros [= <-]. exists tips. split; [done|]. intros p t. split; [by left|]. intros [?|[?%elem_of_nil _]]; done.
  - intros Hl. apply eff_bind_ok in Hl as (o & Hc & Hl). destruct o as [t|].
    + apply eff_bind_ok in Hl as (hs1 & Ha & Hl). apply of_res_with_ok in Ha. apply gathered_add with (tips := tips) in Ha; [|done].
      destruct (IH _ _ _ Ha Hl) as (tips' & Hg' & Ht). exists tips'. split; [done|]. intros p u. rewrite Ht, !elem_of_cons. split.
      * intros [[[= -> ->]|?]|[? ?]]; [right; split; [by left|done]|by left|right; split; [by right|done]].
      * intros [?|[[-> |?] ?]]; [left; by right|left; left; congruence|right; done].
    + destruct (IH _ _ _ Hg Hl) as (tips' & Hg' & Ht). exists tips'. split; [done|]. intros p u. rewrite Ht, elem_of_cons. split.
      * intros [?|[? ?]]; [by left|right; split; [by right|done]].
      * intros [?|[[-> |?] ?]]; [by left|congruence|by right].
Qed.

(** C27 [default_head_exact]: a head of the default branch is a commit that every delegate with a commit on that branch has in its
    history. A fork has at least two parts, no two of which have tips with an ancestor in common; every delegate with a commit is in a
    part whose tip it has in its history, and only those are; nothing is written for a fork. *)
Theorem default_head_exact w project branch r :
  default_branch_head (MB := MB) local w project (Some branch) = EOk r ->
  match r with
  | Head target b => b = branch /\ (exists p t, has_tip w project branch p t) /\
      forall p t, has_tip w project branch p t -> anc w target t
  | Forked forks =>
      (exists f g, f ∈ forks /\ g ∈ forks /\ f <> g) /\
      (forall f g, f ∈ forks -> g ∈ forks -> f <> g -> ~ related w (f_tip f) (f_tip g)) /\
      (forall p t, has_tip w project branch p t -> exists f, f ∈ forks /\ p ∈ f_peers f /\ anc w (f_tip f) t) /\
      (forall f p, f ∈ forks -> p ∈ f_peers f -> exists t, has_tip w project branch p t /\ anc w (f_tip f) t) /\
      set_default_head (MB := MB) local sigrefs_update project (Some branch) w = (EErr (SetForked forks), w)
  end.
Proof.
  intros Hd. assert (forall forks, default_branch_head (MB := MB) local w project (Some branch) = EOk (Forked forks) ->
    set_default_head (MB := MB) local sigrefs_update project (Some branch) w = (EErr (SetForked forks), w)) as Hset.
  { intros forks Hf. unfold set_default_head, reads, mbind, st_bind, lift. by rewrite Hf. }
  pose proof Hd as Hd'. unfold default_branch_head in Hd. apply eff_bind_ok in Hd as (b & Hb & Hd).
  apply of_res_ok in Hb. unfold try_from_str in Hb. assert (b = branch) as -> by (destruct (ref_format CHECK_OPTS branch); cbn in Hb; congruence).
  apply eff_bind_ok in Hd as (hs & Hg & Hf). apply of_res_ok in Hf.
  destruct (gather_spec w _ branch _ [] [] hs (gathered_empty w) Hg) as (tips & Hok & Ht).
  assert (forall p t, (p, t) ∈ tips <-> has_tip w project branch p t) as Htip.
  { intros p t. rewrite Ht. unfold has_tip. split; [intros [?%elem_of_nil|?]; done|by right]. }
  clear Ht. destruct hs as [|h [|k hs]]; cbn [finish] in Hf; [done|injection Hf as <-|injection Hf as <-].
  - split; [done|]. split.
    + destruct (map_choose (h_peers h)) as (p & t & Hp); [apply (ga_nonempty _ _ _ _ Hok); by left|].
      destruct (ga_peers _ _ _ _ Hok h p t ltac:(by left) Hp). exists p, t. by apply Htip.
    + intros p t Hp. apply Htip in Hp. by destruct (ga_covered _ _ _ _ Hok p t Hp) as (h' & ->%list_elem_of_singleton & ? & _).
  - set (fork := fun h => MkFork (dom (h_peers h)) (merge_base h)). set (hs' := h :: k :: hs) in *.
    assert (forall f, f ∈ (list_to_set (map fork hs') : gset Fork) <-> exists i x, hs' !! i = Some x /\ f = fork x) as Hin.
    { intros f. rewrite elem_of_list_to_set, list_elem_of_fmap. split.
      - intros (x & -> & [i Hi]%list_elem_of_lookup). by exists i, x.
      - intros (i & x & Hi & ->). exists x. split; [done|]. by eapply list_elem_of_lookup_2. }
    split_and!.
    + exists (fork h), (fork k). split_and!; [apply Hin; by exists 0%nat, h|apply Hin; by exists 1%nat, k|]. intros He.
      apply (ga_apart _ _ _ _ Hok 0 1 h k eq_refl eq_refl); [done|]. injection He as _ ->. exists (merge_base k). split; apply anc_refl.
    + intros f g (i & x & Hi & ->)%Hin (j & y & Hj & ->)%Hin Hne. apply (ga_apart _ _ _ _ Hok i j x y Hi Hj). intros ->. congruence.
    + intros p t Hp. apply Htip in Hp. destruct (ga_covered _ _ _ _ Hok p t Hp) as (x & [i Hi]%list_elem_of_lookup & Ha & Hd).
      exists (fork x). split; [apply Hin; by exists i, x|done].
    + intros f p (i & x & Hi & ->)%Hin Hp. cbn in Hp. apply elem_of_dom in Hp as [t Hp].
      destruct (ga_peers _ _ _ _ Hok x p t ltac:(by eapply list_elem_of_lookup_2) Hp) as [Hpt Ha]. exists t. split; [by apply Htip|done].
    + by apply Hset.
Qed.
End Theorems.

(** ** A concrete repository *)
Module HeadsWitness.
Import ZBase32 UrnWitness ReplicationWitness.
#[local] Existing Instance byte_ids.
#[local] Existing Instance world_repo.
#[local] Existing Instance world_refs.

(** A commit other than one contains its divisors. *)
Definition divides (a b : N) : Prop := a = b \/ 1 < a /\ N.divide a b.
#[local] Instance gcd_base : MergeBase World bool := fun _ a b =>
  if a =? b then Ok a else if 1 <? N.gcd a b then Ok (N.gcd a b) else Err true.
#[local] Program Instance gcd_laws : AncestryLaws World bool := {| anc _ := divides |}.
Next Obligation. by left. Qed.
Next Obligation. intros w a b c [->|[Ha Hab]] [->|[Hb Hbc]]; try (by left); right; try done. split; [done|]. by etransitivity. Qed.
Next Obligation.
  intros w a b c. unfold g_merge_base, gcd_base. destruct (N.eqb_spec a b) as [->|_]; [intros [= <-]; split; by left|].
  destruct (N.ltb_spec 1 (N.gcd a b)); [|done]. intros [= <-].
  split; right; (split; [done|]); [apply N.gcd_divide_l|apply N.gcd_divide_r].
Qed.
Next Obligation.
  intros w a b e. unfold g_merge_base, gcd_base. destruct (N.eqb_spec a b) as [->|Hne]; [done|].
  destruct (N.ltb_spec 1 (N.gcd a b)) as [|Hle]; [done|]. intros _ _ (c & Ha & Hb).
  assert (1 < c /\ N.divide c (N.gcd a b)) as [Hc Hd].
  { destruct Ha as [->|[Hc Ha]], Hb as [->|[Hc' Hb]]; try done; (split; [done|]); apply N.gcd_greatest; done || apply N.divide_refl. }
  destruct (N.eq_dec (N.gcd a b) 0) as [H0|H0]; [apply N.gcd_eq_0 in H0 as [-> ->]; done|]. apply N.divide_pos_le in Hd; lia.
Qed.

Definition main : list N := str "main".
Definition project : Project Byte.byte := MkProject Byte.x2b 1 [inl me; inr (MkPerson Byte.x2a 1 [friend] [friend])].
Definition tip_name (p : list N) : list N :=
  match (if bool_decide (me = p) then from_category HEADS main
         else r ← from_category REMOTES (peer_default_encoding (MB := unit) p); Done (join (join r HEADS) main)) with
  | Done r => match urn_reference_name (MB := unit) (GE := bool) (with_path (Some r) (project_urn project)) with EOk n => n | _ => [] end
  | Panic => []
  end.
Definition repo (mine theirs : N) : World := [(tip_name me, DirectRef mine); (tip_name friend, DirectRef theirs)].
Definition no_sigrefs : UrnText.Urn Byte.byte -> st World unit unit := fun _ w => (EOk tt, w).

(** The friend is ahead, or the histories have nothing in common. *)
Example ahead : default_branch_head (MB := unit) me (repo 6 30) project (Some main) = EOk (Head 6 main).
Proof. vm_compute. reflexivity. Qed.
Lemma default_head_exact_witness :
  default_branch_head (MB := unit) me (repo 6 10) project (Some main) = EOk (Head 2 main) /\
  forall p t, has_tip (MB := unit) me (repo 6 10) project main p t -> anc (repo 6 10) 2 t.
Proof.
  assert (default_branch_head (MB := unit) me (repo 6 10) project (Some main) = EOk (Head 2 main)) as Hd by (vm_compute; reflexivity).
  destruct (default_head_exact (MB := unit) me no_sigrefs (repo 6 10) project main (Head 2 main) Hd) as (_ & _ & Hall).
  split; [exact Hd|exact Hall].
Defined.
Example forked : match default_branch_head (MB := unit) me (repo 6 35) project (Some main) with
  | EOk (Forked forks) => size forks =? 2 | _ => false end%nat = true.
Proof. vm_compute. reflexivity. Qed.
(** Setting the head writes the branch and points the head of the namespace to it. *)
Example head_set : match set_default_head (MB := unit) me no_sigrefs project (Some main) (repo 6 30) with
  | (EOk t, (h, SymRef b) :: (b', DirectRef t') :: _) =>
      bool_decide (t = 6 /\ t' = 6 /\ b = b' /\ head_name (MB := unit) (project_urn project) = Done h)
  | _ => false
  end = true.
Proof. vm_compute. reflexivity. Qed.
End HeadsWitness.
