(* ===== verification/PackOdb.v ===== *)
(** * The object database of packs

    [link-git/src/odb.rs], [odb/backend.rs], [odb/pack.rs], [odb/window.rs], [odb/index.rs] and their metrics: indices of
    packs that are read again when an object is not found, a cache of open packs of fixed size, and the lookup of
    objects through both.  Files, indices and packs as gitoxide reads them are the interface [GitPack].  An [Arc] to a pack is a pointer
    into a heap, since the number of times it was used changes behind it. *)
From stdpp Require Import base list gmap sorting.
From Stdlib Require Import NArith Lia.
From Stdlib Require String.
Import String.StringSyntax.
From S2P Require Import Prelude Effects RefFormat RefName Utf8.
#[local] Open Scope N_scope.

(** ** Interface *)

Record DirEntry (IE : Type) : Type := MkDirEntry {
  de_path : list N;
  de_metadata : result IE (bool * result IE N);        (** is a file, and when it was modified *)
}.
Arguments MkDirEntry {IE} de_path de_metadata. Arguments de_path {IE} d. Arguments de_metadata {IE} d.

(** [W] is the file system, [X] and [F] are the files of indices and of packs, [O] objects. *)
Class GitPack (W X F O IE XE FE QE : Type) := {
  io_not_found : IE -> bool;
  read_dir : W -> list N -> result IE (list (result IE (DirEntry IE)));
  index_at : W -> list N -> result XE X;
  index_lookup : X -> N -> option N;
  pack_offset_at_index : X -> N -> N;
  data_at : W -> list N -> result FE F;
  (** an entry of a pack, with what finds the bases of deltas in it *)
  decode_entry : F -> N -> (N -> option N) -> result QE O;
  oid_from_hex : list N -> option (list N);
  fxhash : list N -> N;
  loose_contains : W -> N -> bool;
  loose_try_find : W -> N -> result IE (option O);
}.

(** ** Paths *)

Definition file_name (path : list N) : list N := default [] (last (split_on slash path)).
(** The part of a file name before its last dot, and the part after it. *)
Definition split_at_dot (name : list N) : option (list N * list N) :=
  if bool_decide (name = str "..") then None
  else match rfind dot name with
       | None | Some O => None
       | Some i => Some (take i name, drop (S i) name)
       end.
(** [Path::extension] and [Path::with_extension] *)
Definition extension (path : list N) : option (list N) := snd <$> split_at_dot (file_name path).
Definition with_extension (ext path : list N) : list N :=
  let name := file_name path in
  let stem := match split_at_dot name with Some (stem, _) => stem | None => name end in
  take (length path - length name) path ++ stem ++ dot :: ext.
Definition path_join (p q : list N) : list N := p ++ slash :: q.

(** ** Metrics *)

Definition count (n : N) : N := (n + 1) mod 2 ^ 64.

(** [window::Metrics] *)
Class WindowMetrics (M : Type) := { w_hit : M -> M; w_miss : M -> M; w_load : M -> M }.
Record WindowStats := MkWindowStats { cache_hits : N; cache_misses : N; file_loads : N }.
#[export] Instance window_stats : WindowMetrics WindowStats := {|
  w_hit m := MkWindowStats (count (cache_hits m)) (cache_misses m) (file_loads m);
  w_miss m := MkWindowStats (cache_hits m) (count (cache_misses m)) (file_loads m);
  w_load m := MkWindowStats (cache_hits m) (cache_misses m) (count (file_loads m));
|}.
#[export] Instance window_none : WindowMetrics unit := {| w_hit m := m; w_miss m := m; w_load m := m |}.
(** [index::Metrics] *)
Class IndexMetrics (M : Type) := { i_hit : M -> M; i_miss : M -> M; i_push : M -> M; i_reload : M -> M }.
Record IndexStats := MkIndexStats { hits : N; misses : N; pushes : N; reloads : N }.
#[export] Instance index_stats : IndexMetrics IndexStats := {|
  i_hit m := MkIndexStats (count (hits m)) (misses m) (pushes m) (reloads m);
  i_miss m := MkIndexStats (hits m) (count (misses m)) (pushes m) (reloads m);
  i_push m := MkIndexStats (hits m) (misses m) (count (pushes m)) (reloads m);
  i_reload m := MkIndexStats (hits m) (misses m) (pushes m) (count (reloads m));
|}.
#[export] Instance index_none : IndexMetrics unit := {| i_hit m := m; i_miss m := m; i_push m := m; i_reload m := m |}.

(** ** Packs *)

Record Data (F : Type) : Type := MkData { d_hash : N; d_hits : N; d_file : F }.
Arguments MkData {F} d_hash d_hits d_file. Arguments d_hash {F} d. Arguments d_hits {F} d. Arguments d_file {F} d.
Record Info := MkInfo { info_hash : N; data_path : list N }.
Record Index (X : Type) : Type := MkIndex { ix_info : Info; ix_file : X }.
Arguments MkIndex {X} ix_info ix_file. Arguments ix_info {X} i. Arguments ix_file {X} i.

Record DataError (FE : Type) : Type := MkDataError { de_at : list N; de_source : FE }.
Arguments MkDataError {FE} de_at de_source.
Record IndexError (XE : Type) : Type := MkIndexError { xe_at : list N; xe_source : XE }.
Arguments MkIndexError {XE} xe_at xe_source.

Definition data_hit {F} (d : Data F) : Data F := MkData (d_hash d) (count (d_hits d)) (d_file d).

(** [u64::from_be_bytes] *)
Definition from_be_bytes (bs : list N) : N := foldl (fun n b => 256 * n + b) 0 bs.

Section Pack.
Context {W X F O IE XE FE QE : Type} `{GitPack W X F O IE XE FE QE}.

Definition info_data (w : W) (i : Info) : result (DataError FE) (Data F) :=
  file ← map_err (MkDataError (data_path i)) (data_at w (data_path i)); Ok (MkData (info_hash i) 0 file).

(** The hash of an index: the first bytes of the id in its name, or a hash of the path. The name is cut at 40 bytes,
    which panics when it is shorter. *)
Definition name_hash (path : list N) : outcome N :=
  let name := file_name path in
  let sha_hex := utf8 (default name (str_strip_prefix (str "pack-") name)) in
  if (length sha_hex <? 40)%nat then Panic
  else Done (match oid_from_hex (take 40 sha_hex) with
             | None => fxhash path
             | Some oid => from_be_bytes (take 8 oid)
             end).
Definition index_open (w : W) (path : list N) : eff (IndexError XE) (Index X) :=
  file ← of_res_with (MkIndexError path) (index_at w path);
  hash ← of_out (name_hash path);
  EOk (MkIndex (MkInfo hash (with_extension (str "pack") path)) file).
Definition index_contains (i : Index X) (id : N) : bool := match index_lookup (ix_file i) id with Some _ => true | None => false end.
Definition index_ofs (i : Index X) (id : N) : option N := pack_offset_at_index (ix_file i) <$> index_lookup (ix_file i) id.
End Pack.

(** ** The cache of packs *)

(** The slots of each bucket hold pointers; [heap] is what they point to. *)
Record Fixed (F M : Type) : Type := MkFixed {
  entries : list (list (option N));
  heap : gmap N (Data F);
  next_ptr : N;
  w_stats : M;
}.
Arguments MkFixed {F M} entries heap next_ptr w_stats.
Arguments entries {F M} f. Arguments heap {F M} f. Arguments next_ptr {F M} f. Arguments w_stats {F M} f.

(** [Default], for [BUCKETS] and [SLOTS]. *)
Definition fixed_default {F} (buckets slots : nat) : Fixed F unit :=
  MkFixed (replicate buckets (replicate slots None)) ∅ 0 tt.
Definition with_metrics {F M M'} (s : Fixed F M) (m : M') : Fixed F M' := MkFixed (entries s) (heap s) (next_ptr s) m.
Definition with_stats {F M} (s : Fixed F M) : Fixed F WindowStats := with_metrics s (MkWindowStats 0 0 0).
(** The number of open files in [stats]. *)
Definition open_files {F M} (s : Fixed F M) : nat :=
  sum_list (map (fun bucket : list (option N) => length (omap (fun e : option N => e) bucket)) (entries s)).

Section Window.
Context {W X F O IE XE FE QE M : Type} `{GitPack W X F O IE XE FE QE} `{WindowMetrics M}.
Let S := st (Fixed F M) (DataError FE).

Definition record (f : M -> M) : S unit := fun s => (EOk tt, MkFixed (entries s) (heap s) (next_ptr s) (f (w_stats s))).
Definition hit (p : N) : S unit := fun s => (EOk tt, MkFixed (entries s) (alter data_hit p (heap s)) (next_ptr s) (w_stats s)).

(** The first entry of a bucket with a hash. *)
Fixpoint find_entry (h : gmap N (Data F)) (hash : N) (bucket : list (option N)) : option N :=
  match bucket with
  | [] => None
  | None :: bucket => find_entry h hash bucket
  | Some p :: bucket =>
      match h !! p with
      | Some d => if d_hash d =? hash then Some p else find_entry h hash bucket
      | None => find_entry h hash bucket
      end
  end.
Definition get_cached (idx : nat) (hash : N) : S (option N) :=
  s ← get;
  match find_entry (heap s) hash (default [] (entries s !! idx)) with
  | Some p => _ ← record w_hit; _ ← hit p; mret (Some p)
  | None => mret None
  end.

(** An empty slot, or the one that was used least. *)
Fixpoint evict_loop (h : gmap N (Data F)) (i : nat) (access : N) (evict : nat) (bucket : list (option N)) : nat :=
  match bucket with
  | [] => evict
  | None :: _ => i
  | Some p :: bucket =>
      let hits := match h !! p with Some d => d_hits d | None => 0 end in
      if hits <? access then evict_loop h (Datatypes.S i) hits i bucket else evict_loop h (Datatypes.S i) access evict bucket
  end.
Definition evict_slot (h : gmap N (Data F)) (bucket : list (option N)) : nat := evict_loop h 0 (2 ^ 64 - 1) 0 bucket.

(** Under the lock of the bucket. *)
Definition get_locked (w : W) (info : Info) (idx : nat) : S N :=
  found ← get_cached idx (info_hash info);
  match found with
  | Some p => mret p
  | None =>
      _ ← record w_load;
      data ← lift (of_res (info_data w info));
      s ← get;
      let p := next_ptr s in
      let bucket := default [] (entries s !! idx) in
      let evict := evict_slot (heap s) bucket in
      if (length bucket <=? evict)%nat then lift EPanic else
      _ ← put (MkFixed (<[idx := <[evict := Some p]> bucket]> (entries s)) (<[p := data]> (heap s)) (p + 1) (w_stats s));
      _ ← hit p;
      mret p
  end.
Definition window_get (w : W) (info : Info) : S N :=
  s ← get;
  if (length (entries s) =? 0)%nat then lift EPanic else
  let idx := N.to_nat (info_hash info mod N.of_nat (length (entries s))) in
  found ← get_cached idx (info_hash info);
  match found with
  | Some p => mret p
  | None => _ ← record w_miss; get_locked w info idx
  end.
End Window.

(** ** The indices *)

Inductive Discover (IE XE : Type) : Type := DIndex (e : IndexError XE) | DIo (e : IE).
Arguments DIndex {IE XE} e. Arguments DIo {IE XE} e.
Inductive Lookup (IE XE QE E : Type) : Type := LLookup (e : E) | LReload (e : Discover IE XE) | LDecode (e : QE).
Arguments LLookup {IE XE QE E} e. Arguments LReload {IE XE QE E} e. Arguments LDecode {IE XE QE E} e.

Record Shared (X M : Type) : Type := MkShared { pack_dir : list N; indices : list (Index X); i_stats : M }.
Arguments MkShared {X M} pack_dir indices i_stats.
Arguments pack_dir {X M} s. Arguments indices {X M} s. Arguments i_stats {X M} s.

(** [sort_by] of a vector, which keeps the order of equal elements. *)
Fixpoint insert_by {A} (le : A -> A -> bool) (x : A) (l : list A) : list A :=
  match l with
  | [] => [x]
  | y :: l => if le x y then x :: y :: l else y :: insert_by le x l
  end.
Definition sort_by {A} (le : A -> A -> bool) (l : list A) : list A := foldr (insert_by le) [] l.
Definition older (a b : list N * N) : bool := a.2 <=? b.2.

Definition is_empty {X M} (s : Shared X M) : bool := match indices s with [] => true | _ => false end.
Definition len {X M} (s : Shared X M) : nat := length (indices s).
Definition shared_with_metrics {X M M'} (s : Shared X M) (m : M') : Shared X M' := MkShared (pack_dir s) (indices s) m.
Definition shared_with_stats {X M} (s : Shared X M) : Shared X IndexStats := shared_with_metrics s (MkIndexStats 0 0 0 0).

Section Discovery.
Context {W X F O IE XE FE QE : Type} `{GitPack W X F O IE XE FE QE}.

(** The loop over the entries of the directory. *)
Definition discover_entry (paths : list (list N * N)) (entry : result IE (DirEntry IE)) : eff (Discover IE XE) (list (list N * N)) :=
  entry ← of_res_with DIo entry;
  let path := de_path entry in
  meta ← of_res_with DIo (de_metadata entry);
  if meta.1 && bool_decide (default [] (extension path) = str "idx") then
    mtime ← of_res_with DIo meta.2;
    EOk (paths ++ [(path, mtime)])
  else EOk paths.
Definition discover (w : W) (dir : list N) : eff (Discover IE XE) (list (Index X)) :=
  match read_dir w dir with
  | Ok iter =>
      paths ← eff_fold discover_entry [] iter;
      eff_map (fun p => eff_map_err DIndex (index_open w p.1)) (rev (sort_by older paths))
  | Err e => if io_not_found e then EOk [] else EErr (DIo e)
  end.
Definition shared_open (w : W) (git_dir : list N) : eff (Discover IE XE) (Shared X unit) :=
  let dir := path_join (path_join git_dir (str "objects")) (str "pack") in
  indices ← discover w dir;
  EOk (MkShared dir indices tt).
End Discovery.

Section SharedIndex.
Context {W X F O IE XE FE QE MI D : Type} `{GitPack W X F O IE XE FE QE} `{IndexMetrics MI}.

Definition index_record (f : MI -> MI) (s : Shared X MI) : Shared X MI := MkShared (pack_dir s) (indices s) (f (i_stats s)).
Definition push (idx : Index X) (s : Shared X MI) : Shared X MI :=
  index_record i_push (MkShared (pack_dir s) (idx :: indices s) (i_stats s)).
Definition reload (w : W) : st (Shared X MI) (Discover IE XE) unit :=
  s ← get;
  indices ← lift (discover w (pack_dir s));
  put (index_record i_reload (MkShared (pack_dir s) indices (i_stats s))).

(** The two rounds of [contains]; nothing is an error. *)
Definition contains (w : W) (id : N) (s : Shared X MI) : outcome bool * Shared X MI :=
  if existsb (fun idx => index_contains idx id) (indices s) then (Done true, index_record i_hit s) else
  match reload w s with
  | (EPanic, s) => (Panic, s)
  | (EErr _, s) => (Done false, index_record i_miss s)
  | (EOk _, s) =>
      if existsb (fun idx => index_contains idx id) (indices s) then (Done true, index_record i_hit s)
      else (Done false, index_record i_miss s)
  end.

(** An entry of the pack of an index, where the pack comes from [pack_cache]. *)
Definition load_obj {E} (ofs : N) (idx : Index X) (pack_cache : Info -> st D E F) : st D (Lookup IE XE QE E) O := fun d =>
  let '(data, d) := pack_cache (ix_info idx) d in
  (pack ← eff_map_err LLookup data; of_res_with LDecode (decode_entry pack ofs (index_ofs idx)), d).

(** The first index with an object, and the object's offset. *)
Fixpoint first_ofs (id : N) (l : list (Index X)) : option (N * Index X) :=
  match l with
  | [] => None
  | idx :: l => match index_ofs idx id with Some ofs => Some (ofs, idx) | None => first_ofs id l end
  end.
Definition lookup_in {E} (pack_cache : Info -> st D E F) (ofs : N) (idx : Index X)
    : st (Shared X MI * D) (Lookup IE XE QE E) (option O) := fun '(s, d) =>
  let '(obj, d) := load_obj ofs idx pack_cache d in
  (obj ← obj; EOk (Some obj), (index_record i_hit s, d)).
Definition lookup {E} (w : W) (pack_cache : Info -> st D E F) (id : N) : st (Shared X MI * D) (Lookup IE XE QE E) (option O) := fun '(s, d) =>
  match first_ofs id (indices s) with
  | Some (ofs, idx) => lookup_in pack_cache ofs idx (s, d)
  | None =>
      match reload w s with
      | (EPanic, s) => (EPanic, (s, d))
      | (EErr e, s) => (EErr (LReload e), (s, d))
      | (EOk _, s) =>
          match first_ofs id (indices s) with
          | Some (ofs, idx) => lookup_in pack_cache ofs idx (s, d)
          | None => (EOk None, (index_record i_miss s, d))
          end
      end
  end.
End SharedIndex.

(** ** The object database *)

Inductive OdbError (IE XE QE FE : Type) : Type := OPacked (e : Lookup IE XE QE (DataError FE)) | OLoose (e : IE).
Arguments OPacked {IE XE QE FE} e. Arguments OLoose {IE XE QE FE} e.

(** [backend::Packed], with the shared index and the cache of fixed size. *)
Record Packed (X F MI M : Type) : Type := MkPacked { p_index : Shared X MI; p_data : Fixed F M }.
Arguments MkPacked {X F MI M} p_index p_data. Arguments p_index {X F MI M} p. Arguments p_data {X F MI M} p.

Section Odb.
Context {W X F O IE XE FE QE MI M : Type} `{GitPack W X F O IE XE FE QE} `{IndexMetrics MI} `{WindowMetrics M}.

(** [Data::file] of what the cache returns. *)
Definition pack_file (w : W) (info : Info) : st (Fixed F M) (DataError FE) F :=
  p ← window_get w info;
  s ← get;
  match heap s !! p with Some d => mret (d_file d) | None => lift EPanic end.

Definition packed_contains (w : W) (id : N) (p : Packed X F MI M) : outcome bool * Packed X F MI M :=
  let '(r, s) := contains w id (p_index p) in (r, MkPacked s (p_data p)).
Definition packed_find (w : W) (id : N) : st (Packed X F MI M) (Lookup IE XE QE (DataError FE)) (option O) := fun p =>
  let '(r, (s, d)) := lookup w (pack_file w) id (p_index p, p_data p) in (r, MkPacked s d).

Definition odb_contains (w : W) (id : N) (p : Packed X F MI M) : outcome bool * Packed X F MI M :=
  match packed_contains w id p with
  | (Done false, p) => (Done (loose_contains w id), p)
  | r => r
  end.
Definition find (w : W) (id : N) : st (Packed X F MI M) (OdbError IE XE QE FE) (option O) := fun p =>
  match packed_contains w id p with
  | (Panic, p) => (EPanic, p)
  | (Done true, p) => let '(r, p) := packed_find w id p in (eff_map_err OPacked r, p)
  | (Done false, p) => (of_res_with OLoose (loose_try_find w id), p)
  end.
End Odb.

(** ** The cache returns the right pack *)

Definition ptr_hits {F} (h : gmap N (Data F)) (p : N) : N := match h !! p with Some d => d_hits d | None => 0 end.
(** A slot that may be overwritten: an empty one, or one used least when none is empty. *)
Definition victim {F} (h : gmap N (Data F)) (bucket : list (option N)) (i : nat) : Prop :=
  bucket !! i = Some None \/
  ((None ∉ bucket) /\ exists p, bucket !! i = Some (Some p) /\ forall q, Some q ∈ bucket -> ptr_hits h p <= ptr_hits h q).

Section FindEntry.
Context {F : Type} (h : gmap N (Data F)).

Lemma find_entry_some hash bucket p :
  find_entry h hash bucket = Some p -> Some p ∈ bucket /\ exists d, h !! p = Some d /\ d_hash d = hash.
Proof.
  induction bucket as [|[q|] bucket IH]; cbn; [done| |]; intros Hf; [|destruct (IH Hf); split; [by right|done]].
  destruct (h !! q) as [d|] eqn:Hq; [destruct (N.eqb_spec (d_hash d) hash)|]; simplify_eq;
    [split; [by left|eauto]|destruct (IH Hf); split; [by right|done]..].
Qed.
Lemma find_entry_none hash bucket p d :
  find_entry h hash bucket = None -> Some p ∈ bucket -> h !! p = Some d -> d_hash d <> hash.
Proof.
  induction bucket as [|[q|] bucket IH]; cbn; [by intros _ ?%not_elem_of_nil| |]; intros Hf [Heq|Hin]%elem_of_cons Hp.
  - simplify_eq. rewrite Hp in Hf. by destruct (N.eqb_spec (d_hash d) hash).
  - destruct (h !! q); [destruct (_ =? _)|]; naive_solver.
  - done.
  - naive_solver.
Qed.

(** What the loop over the rest of a bucket chooses, when the slots before it are in use. *)
Lemma evict_loop_spec bucket pre access evict :
  (pre = [] -> access = 2 ^ 64 - 1 /\ evict = 0%nat) -> None ∉ pre ->
  (forall p, Some p ∈ pre ++ bucket -> ptr_hits h p <= 2 ^ 64 - 1) ->
  (pre <> [] -> exists p, pre !! evict = Some (Some p) /\ ptr_hits h p = access /\ forall q, Some q ∈ pre -> access <= ptr_hits h q) ->
  pre ++ bucket <> [] ->
  victim h (pre ++ bucket) (evict_loop h (length pre) access evict bucket).
Proof.
  revert pre access evict. induction bucket as [|[p|] bucket IH]; intros pre access evict Hnil Hpre Hmax Hacc Hne; cbn [evict_loop].
  - rewrite app_nil_r in *. right. destruct (Hacc Hne) as (p & Hp & Hhits & Hmin). split; [done|]. exists p. split; [done|]. by rewrite Hhits.
  - fold (ptr_hits h p).
    assert (Heq : pre ++ Some p :: bucket = (pre ++ [Some p]) ++ bucket) by (by rewrite <- app_assoc).
    assert (Hsnoc : forall a e, (exists p', (pre ++ [Some p]) !! e = Some (Some p') /\ ptr_hits h p' = a /\ forall q, Some q ∈ pre ++ [Some p] -> a <= ptr_hits h q) ->
      victim h (pre ++ Some p :: bucket) (evict_loop h (Datatypes.S (length pre)) a e bucket)).
    { intros a e Hae. replace (Datatypes.S (length pre)) with (length (pre ++ [Some p])) by (rewrite length_app; cbn; lia).
      rewrite Heq in *. apply IH; [by intros [_ ?]%app_nil|set_solver|done..]. }
    destruct (N.ltb_spec (ptr_hits h p) access) as [Hlt|Hge]; apply Hsnoc.
    + exists p. split; [by rewrite lookup_app_r, Nat.sub_diag by lia|]. split; [done|].
      intros q [Hq|Hq]%elem_of_app; [|set_solver]. destruct (decide (pre = [])) as [->|Hn]; [set_solver|].
      destruct (Hacc Hn) as (? & ? & ? & Hmin). specialize (Hmin q Hq). lia.
    + destruct (decide (pre = [])) as [->|Hn].
      * destruct Hnil as [-> ->]; [done|]. exists p. split; [done|]. assert (ptr_hits h p <= 2 ^ 64 - 1) by (apply Hmax; set_solver).
        split; [lia|]. intros q Hq. assert (q = p) as -> by set_solver. lia.
      * destruct (Hacc Hn) as (p' & Hp' & Hh & Hmin). exists p'. split; [by apply lookup_app_l_Some|]. split; [done|].
        intros q [Hq|Hq]%elem_of_app; [by apply Hmin|]. assert (q = p) as -> by set_solver. lia.
  - left. by rewrite lookup_app_r, Nat.sub_diag by lia.
Qed.
Lemma evict_slot_spec bucket :
  bucket <> [] -> (forall p, Some p ∈ bucket -> ptr_hits h p <= 2 ^ 64 - 1) -> victim h bucket (evict_slot h bucket).
Proof. intros Hne Hmax. apply (evict_loop_spec bucket [] (2 ^ 64 - 1) 0); [done|set_solver|done|done|done]. Qed.
End FindEntry.

Section CacheInv.
Context {F M : Type} (B K : nat) (content : list N -> F) (known : Info -> Prop).

(** A pack cached in a bucket. *)
Definition slot_ok (h : gmap N (Data F)) (next : N) (idx : nat) (p : N) : Prop :=
  p < next /\
  exists d i, h !! p = Some d /\ known i /\ d_hash d = info_hash i /\ d_file d = content (data_path i) /\
    d_hits d < 2 ^ 64 /\ idx = N.to_nat (d_hash d mod N.of_nat B).
(** The shape of the cache, and what it holds. *)
Definition cache_inv (s : Fixed F M) : Prop :=
  length (entries s) = B /\
  forall idx bucket, entries s !! idx = Some bucket ->
    length bucket = K /\ forall p, Some p ∈ bucket -> slot_ok (heap s) (next_ptr s) idx p.

Lemma slot_ok_hit h next idx p q : slot_ok h next idx p -> slot_ok (alter data_hit q h) next idx p.
Proof.
  intros (Hp & d & i & Hd & Hi & Hh & Hf & Hc & Hx). split; [done|]. destruct (decide (p = q)) as [<-|Hne].
  - exists (data_hit d), i. rewrite lookup_alter_eq, Hd. repeat split; try done. cbn. unfold count. by apply N.mod_lt.
  - exists d, i. by rewrite lookup_alter_ne.
Qed.
Lemma slot_ok_new h next idx p d : slot_ok h next idx p -> slot_ok (<[next := d]> h) (next + 1) idx p.
Proof.
  intros (Hp & d' & i & Hd & Hrest). split; [lia|]. exists d', i. rewrite lookup_insert_ne by lia. done.
Qed.
Lemma slot_ok_hits h next idx p : slot_ok h next idx p -> ptr_hits h p <= 2 ^ 64 - 1.
Proof. intros (_ & d & i & Hd & _ & _ & _ & Hc & _). unfold ptr_hits. rewrite Hd. lia. Qed.

Lemma cache_inv_stats s m : cache_inv s -> cache_inv (MkFixed (entries s) (heap s) (next_ptr s) m).
Proof. done. Qed.
Lemma cache_inv_hit s p m : cache_inv s -> cache_inv (MkFixed (entries s) (alter data_hit p (heap s)) (next_ptr s) m).
Proof.
  intros [Hl Hs]. split; [done|]. intros idx bucket Hb. destruct (Hs _ _ Hb) as [? Hslots]. split; [done|].
  intros q Hq. by apply slot_ok_hit, Hslots.
Qed.
(** A pack is put into a slot of its bucket. *)
Lemma cache_inv_insert s i f bucket e m :
  cache_inv s -> known i -> f = content (data_path i) ->
  entries s !! N.to_nat (info_hash i mod N.of_nat B) = Some bucket ->
  cache_inv (MkFixed (<[N.to_nat (info_hash i mod N.of_nat B) := <[e := Some (next_ptr s)]> bucket]> (entries s))
    (<[next_ptr s := MkData (info_hash i) 0 f]> (heap s)) (next_ptr s + 1) m).
Proof.
  intros [Hl Hs] Hi Hf Hb. split; [by cbn; rewrite length_insert|]. cbn [entries heap next_ptr]. intros idx b.
  destruct (Hs _ _ Hb) as [Hlb Hslots]. rewrite list_lookup_insert_Some. intros [(<- & <- & Hlt)|[Hne Hb']].
  - split; [by rewrite length_insert|]. intros p [q Hq]%list_elem_of_lookup.
    apply list_lookup_insert_Some in Hq as [(_ & [= <-] & _)|[_ Hq]].
    + split; [lia|]. exists (MkData (info_hash i) 0 f), i. by rewrite lookup_insert_eq.
    + apply slot_ok_new, Hslots. by apply list_elem_of_lookup_2 in Hq.
  - destruct (Hs _ _ Hb') as [Hlb' Hslots']. split; [done|]. intros p Hp. by apply slot_ok_new, Hslots'.
Qed.

Lemma cache_inv_load s i f bucket e m :
  cache_inv s -> known i -> f = content (data_path i) ->
  entries s !! N.to_nat (info_hash i mod N.of_nat B) = Some bucket ->
  cache_inv (MkFixed (<[N.to_nat (info_hash i mod N.of_nat B) := <[e := Some (next_ptr s)]> bucket]> (entries s))
    (alter data_hit (next_ptr s) (<[next_ptr s := MkData (info_hash i) 0 f]> (heap s))) (next_ptr s + 1) m).
Proof. intros Hs Hi Hf Hb. exact (cache_inv_hit _ (next_ptr s) m (cache_inv_insert s i f bucket e m Hs Hi Hf Hb)). Qed.

Lemma open_files_bound s : cache_inv s -> (open_files s <= B * K)%nat.
Proof.
  intros [Hl Hs]. unfold open_files. assert (Hall : Forall (fun b : list (option N) => length b = K) (entries s)).
  { apply Forall_lookup. intros idx b Hb. by apply (Hs idx b). }
  rewrite <- Hl. clear Hs Hl. induction Hall as [|b l Hb Hall IH]; [done|]. cbn [map sum_list length].
  assert (length (omap (fun e : option N => e) b) <= length b)%nat 
    by (clear; induction b as [|[x|] b IH]; cbn in *; lia). cbn in *. lia.
Qed.
End CacheInv.

Lemma fixed_default_inv {F} B K content known : cache_inv B K content known (fixed_default B K : Fixed F unit).
Proof.
  split; [apply length_replicate|]. intros idx bucket [-> _]%lookup_replicate. split; [apply length_replicate|].
  by intros p [[=] _]%elem_of_replicate.
Qed.

Section WindowLaws.
Context {W X F O IE XE FE QE M : Type} `{GitPack W X F O IE XE FE QE} `{WindowMetrics M}.

(** [info] is in the cache. *)
Definition cached (s : Fixed F M) (info : Info) : Prop :=
  exists bucket p d, bucket ∈ entries s /\ Some p ∈ bucket /\ heap s !! p = Some d /\ d_hash d = info_hash info.

(** What [window_get] computes. *)
Lemma window_get_eq w info (s : Fixed F M) bucket :
  let idx := N.to_nat (info_hash info mod N.of_nat (length (entries s))) in
  entries s !! idx = Some bucket -> (evict_slot (heap s) bucket < length bucket)%nat ->
  window_get w info s =
  match find_entry (heap s) (info_hash info) bucket with
  | Some p => (EOk p, MkFixed (entries s) (alter data_hit p (heap s)) (next_ptr s) (w_hit (w_stats s)))
  | None =>
      let m := w_load (w_miss (w_stats s)) in
      match info_data w info with
      | Err e => (EErr e, MkFixed (entries s) (heap s) (next_ptr s) m)
      | Ok d => (EOk (next_ptr s), MkFixed (<[idx := <[evict_slot (heap s) bucket := Some (next_ptr s)]> bucket]> (entries s))
          (alter data_hit (next_ptr s) (<[next_ptr s := d]> (heap s))) (next_ptr s + 1) m)
      end
  end.
Proof.
  intros idx Hb Hev. unfold window_get, get_locked, get_cached, record, hit, mbind, st_bind, get, put, lift, mret, st_ret. cbn.
  destruct (Nat.eqb_spec (length (entries s)) 0) as [Hz|Hnz]; [apply lookup_lt_Some in Hb; lia|].
  fold idx. rewrite Hb. cbn. destruct (find_entry _ _ bucket) as [p|] eqn:Hfind; cbn; [done|]. cbn. rewrite Hb. cbn. rewrite Hfind. cbn.
  destruct (info_data w info); cbn; [|done]. rewrite Hb. cbn. fold (evict_slot (heap s) bucket).
  destruct (Nat.leb_spec (length bucket) (evict_slot (heap s) bucket)); [lia|done].
Qed.

Context (w : W) (B K : nat) (content : list N -> F) (known : Info -> Prop).
(** A file of packs is named by what is in it, and the hashes of the names that are used differ. *)
Hypothesis data_stable : forall path f, data_at w path = Ok f -> f = content path.
Hypothesis hash_faithful : forall i j, known i -> known j -> info_hash i = info_hash j -> content (data_path i) = content (data_path j).
Hypothesis buckets : (0 < B)%nat.
Hypothesis slots : (0 < K)%nat.

Lemma cache_bucket (s : Fixed F M) info : cache_inv B K content known s ->
  exists bucket, entries s !! N.to_nat (info_hash info mod N.of_nat (length (entries s))) = Some bucket /\ length bucket = K /\
    victim (heap s) bucket (evict_slot (heap s) bucket) /\ (evict_slot (heap s) bucket < length bucket)%nat.
Proof using buckets slots.
  intros [Hl Hs]. rewrite Hl. assert (Hlt : info_hash info mod N.of_nat B < N.of_nat B) by (apply N.mod_lt; lia).
  destruct (lookup_lt_is_Some_2 (entries s) (N.to_nat (info_hash info mod N.of_nat B))) as [bucket Hb]; [lia|].
  destruct (Hs _ _ Hb) as [Hk Hslots]. exists bucket. split; [done|]. split; [done|].
  assert (Hv : victim (heap s) bucket (evict_slot (heap s) bucket)).
  { apply evict_slot_spec; [by destruct bucket; cbn in *; [lia|]|]. intros p Hp. by eapply slot_ok_hits, Hslots. }
  split; [done|]. destruct Hv as [Hv|(_ & p & Hv & _)]; by apply lookup_lt_Some in Hv.
Qed.

(** A pack in the cache is in the bucket of its hash. *)
Lemma cached_bucket (s : Fixed F M) info bucket : cache_inv B K content known s ->
  entries s !! N.to_nat (info_hash info mod N.of_nat (length (entries s))) = Some bucket ->
  cached s info <-> find_entry (heap s) (info_hash info) bucket <> None.
Proof.
  intros [Hl Hs] Hb. split.
  - intros (b & p & d & [idx Hidx]%list_elem_of_lookup & Hp & Hd & Hh) Hnone. destruct (Hs _ _ Hidx) as [_ Hslots].
    destruct (Hslots p Hp) as (_ & d' & i & Hd' & _ & _ & _ & _ & Hx). rewrite Hd in Hd'. injection Hd' as <-. rewrite Hl, <- Hh, <- Hx, Hidx in Hb. injection Hb as ->.
    by apply (find_entry_none _ _ _ p d Hnone).
  - destruct (find_entry _ _ _) as [p|] eqn:Hf; [|done]. intros _. apply find_entry_some in Hf as (Hp & d & Hd & Hh).
    exists bucket, p, d. split; [by eapply list_elem_of_lookup_2|done].
Qed.

Lemma window_get_spec info (s : Fixed F M) : cache_inv B K content known s -> known info ->
  cache_inv B K content known (window_get w info s).2 /\
  match (window_get w info s).1 with
  | EOk p => (exists d, heap (window_get w info s).2 !! p = Some d /\ d_file d = content (data_path info)) /\ cached (window_get w info s).2 info
  | EErr e => ~ cached s info /\ (exists fe, data_at w (data_path info) = Err fe /\ e = MkDataError (data_path info) fe) /\
      entries (window_get w info s).2 = entries s /\ heap (window_get w info s).2 = heap s
  | EPanic => False
  end.
Proof using data_stable hash_faithful buckets slots.
  intros Hinv Hk. destruct (cache_bucket s info Hinv) as (bucket & Hb & Hlen & _ & Hev).
  pose proof (cached_bucket s info bucket Hinv Hb) as Hc. rewrite (window_get_eq w info s bucket Hb Hev).
  destruct (find_entry _ _ bucket) as [p|] eqn:Hf; cbn [fst snd].
  - split; [by apply cache_inv_hit|]. apply find_entry_some in Hf as (Hp & d & Hd & Hh). cbn [heap entries].
    destruct (proj2 Hinv _ _ Hb) as [_ Hslots].
    destruct (Hslots p Hp) as (_ & d' & i & Hd' & Hi & Hhi & Hfi & _). rewrite Hd in Hd'. injection Hd' as <-.
    split; [|exists bucket, p, (data_hit d); cbn; rewrite lookup_alter_eq, Hd; split; [by eapply list_elem_of_lookup_2|done]].
    exists (data_hit d). rewrite lookup_alter_eq, Hd. split; [done|]. cbn. rewrite Hfi. apply hash_faithful; [done..|congruence].
  - unfold info_data. destruct (data_at w (data_path info)) as [f|fe] eqn:Hd; cbn; [|split; [done|]; naive_solver].
    apply data_stable in Hd. destruct Hinv as [Hl Hs]. rewrite Hl in *. split.
    + by apply cache_inv_load.
    + rewrite lookup_alter_eq, lookup_insert_eq. cbn. split; [eexists; split; [done|]; by subst f|].
      eexists _, (next_ptr s), _. cbn. split; [apply list_elem_of_lookup_2 with (N.to_nat (info_hash info mod N.of_nat B)), list_lookup_insert_eq; by apply lookup_lt_Some in Hb|].
      split; [apply list_elem_of_lookup_2 with (evict_slot (heap s) bucket), list_lookup_insert_eq; done|].
      by rewrite lookup_alter_eq, lookup_insert_eq.
Qed.

(** What is in the cache stays, but for what a victim of the bucket gives up. *)
Lemma window_get_keeps info (s : Fixed F M) other : cache_inv B K content known s -> known info ->
  cached s other -> ~ cached (window_get w info s).2 other ->
  exists bucket p d, bucket ∈ entries s /\ (None ∉ bucket) /\ Some p ∈ bucket /\ heap s !! p = Some d /\ d_hash d = info_hash other /\
    forall q, Some q ∈ bucket -> ptr_hits (heap s) p <= ptr_hits (heap s) q.
Proof using buckets slots.
  intros Hinv Hk Ho Hn. destruct (cache_bucket s info Hinv) as (bucket & Hb & Hlen & Hv & Hev).
  rewrite (window_get_eq w info s bucket Hb Hev) in Hn.
  destruct Ho as (b & p & d & Hbin & Hp & Hd & Hh). pose proof Hinv as [Hl Hs].
  destruct (find_entry _ _ bucket) as [p'|] eqn:Hf; cbn [fst snd] in Hn.
  { destruct Hn. exists b, p, (if decide (p' = p) then data_hit d else d). cbn. split; [done|]. split; [done|].
    case_decide; subst; [by rewrite lookup_alter_eq, Hd|by rewrite lookup_alter_ne]. }
  destruct (info_data w info) as [nd|]; cbn [snd] in Hn; [|destruct Hn; by exists b, p, d].
  apply list_elem_of_lookup in Hbin as [idx Hidx]. destruct (Hs _ _ Hidx) as [_ Hslots]. destruct (Hslots p Hp) as (Hlt & _).
  assert (Hstay : forall b' j, <[N.to_nat (info_hash info mod N.of_nat (length (entries s))) := <[evict_slot (heap s) bucket := Some (next_ptr s)]> bucket]> (entries s) !! j = Some b' -> Some p ∈ b' -> False).
  { intros b' j Hj Hpb. apply Hn. exists b', p, d. cbn. rewrite lookup_alter_ne, lookup_insert_ne by lia.
    split; [by eapply list_elem_of_lookup_2|done]. }
  destruct (decide (idx = N.to_nat (info_hash info mod N.of_nat (length (entries s))))) as [->|Hne].
  2:{ exfalso. apply (Hstay b idx); [by rewrite list_lookup_insert_ne|done]. }
  rewrite Hb in Hidx. simplify_eq. apply list_elem_of_lookup in Hp as [k Hkk].
  destruct (decide (k = evict_slot (heap s) b)) as [->|Hne].
  2:{ exfalso. eapply Hstay; [apply list_lookup_insert_eq; by apply lookup_lt_Some in Hb|].
      apply list_elem_of_lookup_2 with k. by rewrite list_lookup_insert_ne. }
  destruct Hv as [Hv|(Hnone & p' & Hv & Hmin)]; rewrite Hkk in Hv; simplify_eq.
  exists b, p', d. split; [by eapply list_elem_of_lookup_2|]. split; [done|]. split; [by eapply list_elem_of_lookup_2|]. done.
Qed.
End WindowLaws.

(** ** Objects are found where they are *)

Section OdbLaws.
Context {W X F O IE XE FE QE MI M : Type} `{GitPack W X F O IE XE FE QE} `{IndexMetrics MI} `{WindowMetrics M}.

(** The first index with an object: of those in memory, or else of those on disk. *)
Definition located (w : W) (id : N) (s : Shared X MI) : eff (Discover IE XE) (option (N * Index X)) :=
  match first_ofs id (indices s) with
  | Some at_ => EOk (Some at_)
  | None => l ← discover w (pack_dir s); EOk (first_ofs id l)
  end.

Lemma first_ofs_contains id (l : list (Index X)) :
  existsb (fun idx => index_contains idx id) l = match first_ofs id l with Some _ => true | None => false end.
Proof. induction l as [|i l IH]; [done|]. cbn. unfold index_contains, index_ofs. by destruct (index_lookup (ix_file i) id). Qed.
Lemma first_ofs_some id (l : list (Index X)) ofs i : first_ofs id l = Some (ofs, i) -> i ∈ l /\ index_ofs i id = Some ofs.
Proof.
  induction l as [|j l IH]; [done|]. cbn. destruct (index_ofs j id) eqn:Hj; intros; simplify_eq; [split; [by left|done]|].
  destruct IH; [done|]. split; [by right|done].
Qed.
Lemma first_ofs_none id (l : list (Index X)) i : first_ofs id l = None -> i ∈ l -> index_ofs i id = None.
Proof. induction l as [|j l IH]; [by intros _ ?%not_elem_of_nil|]. cbn. destruct (index_ofs j id) eqn:Hj; [done|]. intros Hl [->|?]%elem_of_cons; eauto. Qed.

Lemma reload_eq w (s : Shared X MI) : reload w s =
  match discover w (pack_dir s) with
  | EOk l => (EOk tt, index_record i_reload (MkShared (pack_dir s) l (i_stats s)))
  | EErr e => (EErr e, s)
  | EPanic => (EPanic, s)
  end.
Proof. unfold reload, mbind, st_bind, get, lift. by destruct (discover w (pack_dir s)). Qed.

Lemma shared_contains_spec w id (s : Shared X MI) :
  match located w id s with
  | EOk (Some at_) => (contains w id s).1 = Done true /\ first_ofs id (indices (contains w id s).2) = Some at_
  | EOk None | EErr _ => (contains w id s).1 = Done false
  | EPanic => (contains w id s).1 = Panic
  end.
Proof.
  unfold contains, located. rewrite first_ofs_contains, reload_eq. destruct (first_ofs id (indices s)) eqn:Hs; [done|].
  destruct (discover w (pack_dir s)) as [l| |]; cbn; [|done..]. rewrite first_ofs_contains. by destruct (first_ofs id l) eqn:Hl.
Qed.

Lemma packed_find_found w id (p : Packed X F MI M) ofs i : first_ofs id (indices (p_index p)) = Some (ofs, i) ->
  packed_find w id p =
  (pack ← eff_map_err LLookup (pack_file w (ix_info i) (p_data p)).1; obj ← of_res_with LDecode (decode_entry pack ofs (index_ofs i)); EOk (Some obj),
   MkPacked (index_record i_hit (p_index p)) (pack_file w (ix_info i) (p_data p)).2).
Proof.
  intros Hi. unfold packed_find, lookup. rewrite Hi. unfold lookup_in, load_obj.
  destruct (pack_file w (ix_info i) (p_data p)) as [[f|e|] d]; cbn; [|done..]. by destruct (of_res_with LDecode _).
Qed.

Context (w : W) (B K : nat) (content : list N -> F) (known : Info -> Prop).
Hypothesis data_stable : forall path f, data_at w path = Ok f -> f = content path.
Hypothesis hash_faithful : forall i j, known i -> known j -> info_hash i = info_hash j -> content (data_path i) = content (data_path j).
Hypothesis buckets : (0 < B)%nat.
Hypothesis slots : (0 < K)%nat.

(** The contents of a pack, or the error that it is neither cached nor on disk. *)
Lemma pack_file_spec info (s : Fixed F M) : cache_inv B K content known s -> known info ->
  cache_inv B K content known (pack_file w info s).2 /\
  ((pack_file w info s).1 = EOk (content (data_path info)) \/
   ~ cached s info /\ exists fe, data_at w (data_path info) = Err fe /\ (pack_file w info s).1 = EErr (MkDataError (data_path info) fe)).
Proof using data_stable hash_faithful buckets slots.
  intros Hs Hk. destruct (window_get_spec w B K content known data_stable hash_faithful buckets slots info s Hs Hk) as [Hinv Hr].
  unfold pack_file, mbind, st_bind, get, mret, st_ret, lift. destruct (window_get w info s) as [[p|e|] s']; cbn in *; [|naive_solver..].
  destruct Hr as [(d & Hd & Hf) _]. rewrite Hd. split; [done|]. left. cbn. by rewrite Hf.
Qed.

Lemma find_spec id (p : Packed X F MI M) :
  cache_inv B K content known (p_data p) ->
  (forall at_ ofs i, located w id (p_index p) = EOk at_ -> at_ = Some (ofs, i) -> known (ix_info i)) ->
  cache_inv B K content known (p_data (find w id p).2) /\
  match located w id (p_index p) with
  | EOk (Some (ofs, i)) =>
      let path := data_path (ix_info i) in
      (find w id p).1 = (obj ← of_res_with (OPacked ∘ LDecode) (decode_entry (content path) ofs (index_ofs i)); EOk (Some obj)) \/
      (~ cached (p_data p) (ix_info i) /\ exists fe, data_at w path = Err fe /\ (find w id p).1 = EErr (OPacked (LLookup (MkDataError path fe))))
  | EOk None | EErr _ => (find w id p).1 = of_res_with OLoose (loose_try_find w id)
  | EPanic => (find w id p).1 = EPanic
  end.
Proof using data_stable hash_faithful buckets slots.
  intros Hinv Hk. pose proof (shared_contains_spec w id (p_index p)) as Hc. unfold find, packed_contains.
  destruct (located w id (p_index p)) as [[[ofs i]|]| |] eqn:Hl; destruct (contains w id (p_index p)) as [r s]; cbn in Hc; [|by subst r..].
  destruct Hc as [-> Hf]. rewrite (packed_find_found w id (MkPacked s (p_data p)) ofs i Hf). cbn.
  destruct (pack_file_spec (ix_info i) (p_data p) Hinv (Hk _ ofs i eq_refl eq_refl)) as [Hinv' Hp]. split; [done|].
  destruct Hp as [->|(? & fe & ? & ->)]; [left|right; naive_solver]. cbn. by destruct (decode_entry _ _ _).
Qed.
End OdbLaws.

(** ** Discovery *)

Section Sorting.
Context {A : Type} (le : A -> A -> bool).
Lemma insert_by_perm x l : insert_by le x l ≡ₚ x :: l.
Proof. induction l as [|y l IH]; [done|]. cbn. destruct (le x y); [done|]. rewrite IH. by constructor. Qed.
Lemma sort_by_perm l : sort_by le l ≡ₚ l.
Proof. induction l as [|x l IH]; [done|]. cbn. by rewrite insert_by_perm, IH. Qed.
Hypothesis le_total : forall x y, le x y = false -> le y x = true.
Lemma insert_by_sorted x l : Sorted le l -> Sorted le (insert_by le x l).
Proof using le_total.
  induction 1 as [|y l Hl IH Hd]; cbn; [by repeat constructor|]. destruct (le x y) eqn:Hxy.
  - repeat (constructor; [by constructor|]). constructor. by rewrite Hxy.
  - constructor; [done|]. destruct Hd as [|z l Hz]; cbn; [constructor; by rewrite le_total|].
    destruct (le x z); constructor; [by rewrite le_total|done].
Qed.
Lemma sort_by_sorted l : Sorted le (sort_by le l).
Proof using le_total. induction l as [|x l IH]; [constructor|]. by apply insert_by_sorted. Qed.
End Sorting.

Section DiscoverLaws.
Context {W X F O IE XE FE QE : Type} `{GitPack W X F O IE XE FE QE}.

(** A file of an index, modified at [mtime]. *)
Definition is_idx (entry : result IE (DirEntry IE)) (path : list N) (mtime : N) : Prop :=
  exists e, entry = Ok e /\ de_path e = path /\ de_metadata e = Ok (true, Ok mtime) /\ default [] (extension path) = str "idx".

Lemma discover_entry_spec paths entry paths' : discover_entry (XE := XE) paths entry = EOk paths' ->
  forall q, q ∈ paths' <-> q ∈ paths \/ is_idx entry q.1 q.2.
Proof.
  unfold discover_entry. intros Hd q. inv_eff.
  match goal with Hm : de_metadata _ = Ok ?m |- _ => destruct m as [b m'] end. cbn in *.
  destruct b; cbn in *; [destruct (decide (default [] (extension (de_path x)) = str "idx")) as [He|He]|].
  - rewrite bool_decide_true in Hd by done. inv_eff. rewrite elem_of_app, list_elem_of_singleton. unfold is_idx. cbn.
    split; [intros [?| ->]; [by left|right; naive_solver]|]. intros [?|(e & He' & Hq & Hm & _)]; [by left|right].
    destruct q; cbn in *. congruence.
  - rewrite bool_decide_false in Hd by done. injection Hd as <-. split; [by left|]. intros [?|(e & [= <-] & Hq & _ & Hi)]; [done|]. by rewrite <- Hq in Hi.
  - injection Hd as <-. split; [by left|]. intros [?|(e & [= <-] & _ & Hm & _)]; [done|congruence].
Qed.

Lemma discover_entries_spec iter paths paths' : eff_fold (discover_entry (XE := XE)) paths iter = EOk paths' ->
  forall q, q ∈ paths' <-> q ∈ paths \/ exists entry, entry ∈ iter /\ is_idx entry q.1 q.2.
Proof.
  revert paths. induction iter as [|entry iter IH]; intros paths; cbn [eff_fold].
  - intros [= <-] q. set_solver.
  - intros (ps & Hps & Hrest)%eff_bind_ok q. rewrite (IH ps Hrest q), (discover_entry_spec paths entry ps Hps q). set_solver.
Qed.

(** [discover_exact]: the indices found are those of the files of indices in the directory, the ones modified last first. *)
Theorem discover_exact (w : W) dir iter l :
  read_dir w dir = Ok iter -> discover w dir = EOk l ->
  exists paths : list (list N * N),
    Forall2 (fun p i => index_open w p.1 = EOk i) paths l /\
    Sorted (fun p q => q.2 <= p.2) paths /\
    forall p, p ∈ paths <-> exists entry, entry ∈ iter /\ is_idx entry p.1 p.2.
Proof.
  unfold discover. intros -> (paths & Hp & Hl%eff_map_ok)%eff_bind_ok. exists (rev (sort_by older paths)). split; [|split].
  - eapply Forall2_impl; [exact Hl|]. cbn. by intros p i ?%eff_map_err_ok.
  - assert (Hs : StronglySorted older (sort_by older paths)).
    { apply Sorted_StronglySorted; [intros p q r; unfold older; rewrite !Is_true_true, !N.leb_le; lia|].
      apply sort_by_sorted. intros p q. unfold older. rewrite N.leb_gt, N.leb_le. lia. }
    clear Hl Hp. apply StronglySorted_Sorted. induction Hs as [|p ps Hps IH Hall]; [constructor|]. cbn.
    apply StronglySorted_app_2; [|done|repeat constructor]. intros x y Hx%list_elem_of_In%in_rev%list_elem_of_In ->%list_elem_of_singleton.
    rewrite Forall_forall in Hall. specialize (Hall x Hx). unfold older in Hall. rewrite Is_true_true, N.leb_le in Hall. done.
  - intros p. rewrite list_elem_of_In, <- in_rev, <- list_elem_of_In, sort_by_perm, (discover_entries_spec iter [] paths Hp p). set_solver.
Qed.
End DiscoverLaws.

(** ** The claims *)

Section Claims.
Context {W X F O IE XE FE QE MI M : Type} `{GitPack W X F O IE XE FE QE} `{IndexMetrics MI} `{WindowMetrics M}.
Context (w : W) (B K : nat) (content : list N -> F) (known : Info -> Prop).
Hypothesis data_stable : forall path f, data_at w path = Ok f -> f = content path.
Hypothesis hash_faithful : forall i j, known i -> known j -> info_hash i = info_hash j -> content (data_path i) = content (data_path j).
Hypothesis buckets : (0 < B)%nat.
Hypothesis slots : (0 < K)%nat.

(** C25 [pack_cache_exact]: the cache returns the pack that was asked for and keeps it, from disk only when it is not cached; it fails only when
    the file does; it never holds more packs than it has slots; and a pack leaves it only from a full bucket of which no
    other was used less. *)
Theorem pack_cache_exact info (s : Fixed F M) :
  cache_inv B K content known s -> known info ->
  let '(r, s') := window_get w info s in
  cache_inv B K content known s' /\ (open_files s' <= B * K)%nat /\
  match r with
  | EOk p => (exists d, heap s' !! p = Some d /\ d_file d = content (data_path info)) /\ cached s' info
  | EErr e => ~ cached s info /\ (exists fe, data_at w (data_path info) = Err fe /\ e = MkDataError (data_path info) fe) /\
      entries s' = entries s /\ heap s' = heap s
  | EPanic => False
  end /\
  forall other, cached s other -> ~ cached s' other ->
    exists bucket p d, bucket ∈ entries s /\ (None ∉ bucket) /\ Some p ∈ bucket /\ heap s !! p = Some d /\ d_hash d = info_hash other /\
      forall q, Some q ∈ bucket -> ptr_hits (heap s) p <= ptr_hits (heap s) q.
Proof using data_stable hash_faithful buckets slots.
  intros Hs Hk. pose proof (window_get_spec w B K content known data_stable hash_faithful buckets slots info s Hs Hk) as [Hinv Hr].
  pose proof (window_get_keeps w B K content known buckets slots info s) as Hkeep.
  destruct (window_get w info s) as [r s']; cbn in *.
  split; [done|]. split; [by eapply open_files_bound|]. split; [done|]. intros other. by apply Hkeep.
Qed.

(** C24 [odb_find_exact]: an object is taken from the first index that has it, of those in memory or, when none has it, of those on disk: the
    index is of the packs, no index before it has the object, and the object is that of the contents of its pack.  Otherwise the object is looked up among the loose ones. *)
Theorem odb_find_exact id (p : Packed X F MI M) :
  cache_inv B K content known (p_data p) ->
  (forall i, i ∈ indices (p_index p) -> known (ix_info i)) ->
  (forall l i, discover w (pack_dir (p_index p)) = EOk l -> i ∈ l -> known (ix_info i)) ->
  let r := (find w id p).1 in
  cache_inv B K content known (p_data (find w id p).2) /\
  match located w id (p_index p) with
  | EOk (Some (ofs, i)) =>
      let path := data_path (ix_info i) in
      index_ofs i id = Some ofs /\
      (i ∈ indices (p_index p) \/ exists l, discover w (pack_dir (p_index p)) = EOk l /\ i ∈ l) /\
      (r = (obj ← of_res_with (OPacked ∘ LDecode) (decode_entry (content path) ofs (index_ofs i)); EOk (Some obj)) \/
       (~ cached (p_data p) (ix_info i) /\ exists fe, data_at w path = Err fe /\ r = EErr (OPacked (LLookup (MkDataError path fe)))))
  | EOk None =>
      (forall i, i ∈ indices (p_index p) -> index_ofs i id = None) /\
      (forall l i, discover w (pack_dir (p_index p)) = EOk l -> i ∈ l -> index_ofs i id = None) /\
      r = of_res_with OLoose (loose_try_find w id)
  | EErr _ => r = of_res_with OLoose (loose_try_find w id)
  | EPanic => r = EPanic
  end.
Proof using data_stable hash_faithful buckets slots.
  intros Hinv Hmem Hdisk. cbv zeta.
  assert (Hloc : forall at_ ofs i, located w id (p_index p) = EOk at_ -> at_ = Some (ofs, i) ->
    index_ofs i id = Some ofs /\ (i ∈ indices (p_index p) \/ exists l, discover w (pack_dir (p_index p)) = EOk l /\ i ∈ l)).
  { unfold located. intros at_ ofs i Hl ->. destruct (first_ofs id (indices (p_index p))) as [[]|] eqn:Hf; simplify_eq.
    - apply first_ofs_some in Hf as []. eauto.
    - inv_eff. match goal with Hd : discover _ _ = EOk ?l, Hf' : first_ofs _ ?l = _ |- _ => apply first_ofs_some in Hf' as []; eauto end. }
  destruct (find_spec w B K content known data_stable hash_faithful buckets slots id p Hinv) as [Hinv' Hr].
  { intros at_ ofs i Hl Hat. destruct (Hloc at_ ofs i Hl Hat) as (_ & [?|(l & ? & ?)]); eauto. }
  split; [done|]. destruct (located w id (p_index p)) as [[[ofs i]|]| |] eqn:Hl; [|split; [|split]|done..].
  - destruct (Hloc _ ofs i eq_refl eq_refl) as [? ?]. done.
  - intros i Hi. unfold located in Hl. destruct (first_ofs id (indices (p_index p))) as [[]|] eqn:Hf; [done|]. by eapply first_ofs_none.
  - intros l i Hd Hi. unfold located in Hl. destruct (first_ofs id (indices (p_index p))) as [[]|]; [done|]. rewrite Hd in Hl. cbn in Hl.
    injection Hl as Hl. by eapply first_ofs_none.
  - done.
Qed.
End Claims.

Module PackWitness.
(** A file system with files of indices, and of packs; an object is a number. *)
Record Fs := MkFs { fs_dir : result bool (list (list N * N)); fs_idx : list (list N * list (N * N)); fs_pack : list (list N * gmap N N) }.
Definition assoc {A} (l : list (list N * A)) (p : list N) : result unit A :=
  match list_find (fun kv => kv.1 = p) l with Some (_, kv) => Ok kv.2 | None => Err tt end.
#[export] Instance fs_git : GitPack Fs (list (N * N)) (gmap N N) N bool unit unit unit := {|
  io_not_found e := e;
  read_dir w _ := match fs_dir w with Ok l => Ok (map (fun e => Ok (MkDirEntry e.1 (Ok (true, Ok e.2)))) l) | Err e => Err e end;
  index_at w p := assoc (fs_idx w) p;
  index_lookup x id := N.of_nat ∘ fst <$> list_find (fun kv => kv.1 = id) x;
  pack_offset_at_index x k := default 0 (snd <$> x !! N.to_nat k);
  data_at w p := assoc (fs_pack w) p;
  decode_entry f ofs _ := match f !! ofs with Some o => Ok o | None => Err tt end;
  oid_from_hex s := Some s;
  fxhash s := 0;
  loose_contains _ id := id =? 9;
  loose_try_find _ id := Ok (if id =? 9 then Some 99 else None);
|}.

Definition packdir : list N := str "g/objects/pack".
Definition packname (c : N) (ext : list N) : list N := packdir ++ slash :: str "pack-" ++ replicate 40 c ++ dot :: ext.
Definition idx_a : list N := packname 97 (str "idx").
Definition idx_b : list N := packname 98 (str "idx").
Definition pack_a : list N := packname 97 (str "pack").
Definition pack_b : list N := packname 98 (str "pack").
(** Objects 1 and 2 are in a pack, and 2 and 3 in a newer one. *)
Definition fs0 : Fs := MkFs (Ok [(idx_a, 10); (pack_a, 10); (idx_b, 20); (pack_b, 20)])
  [(idx_a, [(1, 100); (2, 200)]); (idx_b, [(2, 300); (3, 400)])]
  [(pack_a, <[100 := 11]> {[200 := 12]}); (pack_b, <[300 := 12]> {[400 := 13]})].
Definition shared0 : Shared (list (N * N)) unit := match shared_open fs0 (str "g") with EOk s => s | _ => MkShared [] [] tt end.
Definition packed0 : Packed (list (N * N)) (gmap N N) unit unit := MkPacked shared0 (fixed_default 2 1).

Example newest_first : map (fun i => data_path (ix_info i)) (indices shared0) = [pack_b; pack_a].
Proof. vm_compute. reflexivity. Qed.
Example finds : (find fs0 1 packed0).1 = EOk (Some 11) /\ (find fs0 2 packed0).1 = EOk (Some 12) /\
  (find fs0 9 packed0).1 = EOk (Some 99) /\ (find fs0 5 packed0).1 = EOk None.
Proof. vm_compute. done. Qed.

(** An index whose name has fewer than 40 bytes makes the lookup panic. *)
Example short_name_panics : discover (MkFs (Ok [(packdir ++ slash :: str "x.idx", 1)]) [(packdir ++ slash :: str "x.idx", [])] []) packdir = EPanic.
Proof. vm_compute. reflexivity. Qed.

(** The packs were put together in a new one: an object that an index in memory has is not found any more, while its pack is not
    cached, though the new pack has it. *)
Definition compacted : Fs := MkFs (Ok [(packname 99 (str "idx"), 30)]) [(packname 99 (str "idx"), [(1, 1); (2, 2); (3, 3)])]
  [(packname 99 (str "pack"), <[1 := 11]> (<[2 := 12]> {[3 := 13]}))].
Example stale_index : (find compacted 1 packed0).1 = EErr (OPacked (LLookup (MkDataError pack_a tt))) /\
  (find compacted 1 (MkPacked (reload compacted shared0).2 (p_data packed0))).1 = EOk (Some 11).
Proof. vm_compute. done. Qed.

(** When the packs cannot be read, an object is said not to exist. *)
Example read_error_hidden : discover (MkFs (Err false) [] []) packdir = EErr (DIo false) /\
  (find (MkFs (Err false) [] []) 5 packed0).1 = EOk None.
Proof. vm_compute. done. Qed.

Definition content0 (p : list N) : gmap N N := match assoc (fs_pack fs0) p with Ok f => f | Err _ => ∅ end.
Definition known0 (i : Info) : Prop := i = MkInfo (from_be_bytes (replicate 8 97)) pack_a \/ i = MkInfo (from_be_bytes (replicate 8 98)) pack_b.

Lemma data_stable0 : forall path f, data_at fs0 path = Ok f -> f = content0 path.
Proof. intros path f Hf. unfold content0. change (assoc (fs_pack fs0) path = Ok f) in Hf. by rewrite Hf. Qed.
Lemma hash_faithful0 i j : known0 i -> known0 j -> info_hash i = info_hash j -> content0 (data_path i) = content0 (data_path j).
Proof. intros [-> | ->] [-> | ->]; done. Qed.

Lemma pack_cache_exact_witness :
  let '(r, s') := window_get fs0 (MkInfo (from_be_bytes (replicate 8 97)) pack_a) (fixed_default 2 1 : Fixed (gmap N N) unit) in
  (open_files s' <= 2)%nat /\ exists p d, r = EOk p /\ heap s' !! p = Some d /\ d_file d = <[100 := 11]> {[200 := 12]}.
Proof.
  pose proof (pack_cache_exact fs0 2 1 content0 known0 data_stable0 hash_faithful0 ltac:(lia) ltac:(lia)
    (MkInfo (from_be_bytes (replicate 8 97)) pack_a) (fixed_default 2 1 : Fixed (gmap N N) unit) (fixed_default_inv _ _ _ _) ltac:(by left)) as H.
  destruct (window_get fs0 _ _) as [r s'] eqn:Hw. destruct H as (_ & Ho & Hr & _). split; [done|].
  destruct r as [p|e|]; [|exfalso..].
  - destruct Hr as [(d & Hd & Hf) _]. exists p, d. done.
  - destruct Hr as (_ & (fe & Hfe & _) & _). vm_compute in Hfe. discriminate.
  - done.
Defined.

Lemma odb_find_exact_witness : (find fs0 3 packed0).1 = EOk (Some 13).
Proof.
  pose proof (odb_find_exact fs0 2 1 content0 known0 data_stable0 hash_faithful0 ltac:(lia) ltac:(lia) 3 packed0
    (fixed_default_inv _ _ _ _)) as H.
  assert (Hk : Forall (fun i => known0 (ix_info i)) (indices shared0)).
  { vm_compute. constructor; [by right|]. constructor; [by left|constructor]. }
  rewrite Forall_forall in Hk. destruct H as [_ H].
  - exact Hk.
  - intros l i Hl. assert (Hd : discover (IE := bool) (XE := unit) fs0 (pack_dir (p_index packed0)) = EOk (indices shared0)) by (vm_compute; reflexivity).
    rewrite Hd in Hl. injection Hl as <-. apply Hk.
  - destruct (located fs0 3 (p_index packed0)) as [[[ofs i]|]| |] eqn:Hl; vm_compute in Hl; simplify_eq.
    destruct H as (_ & _ & [H|(_ & fe & Hfe & _)]); [rewrite H; vm_compute; reflexivity|vm_compute in Hfe; discriminate].
Defined.
End PackWitness.
