(* ===== verification/Payload.v ===== *)
(** * Identity documents

    [link-identities/src/payload.rs], and the serialized form of documents in [generic.rs], [delegation/direct.rs],
    [sign.rs] and [urn.rs]: the payload of a person or a project with its extensions, delegations, and documents, as serde
    writes and reads them.  A [Url] is its serialization; parsing one is the interface [UrlLib]. *)
From stdpp Require Import base list gmap sorting.
From Stdlib Require Import NArith ZArith Lia.
From Stdlib Require String.
Import String.StringSyntax.
From S2P Require Import Prelude Effects RefFormat RefName Scoped Utf8 RefLike Keys UrnText.
From S2P Require Import Trailers CommitMessage CanonicalJson CanonicalFormatter Identity.
#[local] Open Scope N_scope.

(** ** What serde sees *)

(** A JSON value: the entries of an object in their order, which need not be unique. *)
Unset Elimination Schemes.
Inductive Json :=
| JsNull | JsBool (b : bool) | JsNum (n : Number) | JsFloat (f : list N)
| JsStr (s : list N)
| JsArr (l : list Json)
| JsObj (m : list (list N * Json)).
Set Elimination Schemes.
Lemma js_ind (P : Json -> Prop) (H0 : P JsNull) (HB : forall b, P (JsBool b)) (HN : forall n, P (JsNum n)) (HF : forall f, P (JsFloat f))
    (HS : forall s, P (JsStr s)) (HA : forall l, Forall P l -> P (JsArr l)) (HO : forall m, Forall (fun kv => P kv.2) m -> P (JsObj m)) : forall j, P j.
Proof.
  fix IH 1. intros [|b|n|f|s|l|m]; [done|apply HB|apply HN|apply HF|apply HS|apply HA|apply HO].
  - induction l as [|j l IHl]; constructor; [apply IH|apply IHl].
  - induction m as [|[k j] m IHm]; constructor; [apply IH|apply IHm].
Qed.

(** [serde_json::Value]: objects are maps, of which the last entry with a key is kept. *)
Fixpoint to_value (j : Json) : Json :=
  match j with
  | JsArr l => JsArr (map to_value l)
  | JsObj m => JsObj (map_collect (map (fun kv => (kv.1, to_value kv.2)) m))
  | _ => j
  end.
Definition is_null (j : Json) : bool := match j with JsNull => true | _ => false end.

Inductive SerdeError (D UE : Type) : Type :=
| WrongType | InvalidLen | TrailingElements | MissingField (f : list N) | DuplicateField (f : list N) | NumberRange
| BadUrl | MultipleSubjects | BadKey (e : D) | BadSig (e : D) | BadUrn (e : UE) | BadOid | DuplicateDelegation | NoDelegations
| NoExtension | SingleExtension | NoVariant.
Arguments WrongType {D UE}. Arguments InvalidLen {D UE}. Arguments TrailingElements {D UE}. Arguments MissingField {D UE} f.
Arguments DuplicateField {D UE} f. Arguments NumberRange {D UE}. Arguments BadUrl {D UE}. Arguments MultipleSubjects {D UE}.
Arguments BadKey {D UE} e. Arguments BadSig {D UE} e. Arguments BadUrn {D UE} e. Arguments BadOid {D UE}.
Arguments DuplicateDelegation {D UE}. Arguments NoDelegations {D UE}. Arguments NoExtension {D UE}. Arguments SingleExtension {D UE}.
Arguments NoVariant {D UE}.

(** ** Interfaces *)

(** The library url: parsing, which gives the normal form. *)
Class UrlLib := url_parse : list N -> option (list N).
(** The text of an object id. *)
Class OidText := { oid_to_string : N -> list N; oid_from_str : list N -> option N }.

(** [HasNamespace] and [Subject], with the derived [Serialize] and [Deserialize]. *)
Class Subject (T E : Type) := {
  namespace_base : list N;
  namespace : list N;
  subject_serialize : T -> Json;
  subject_deserialize : Json -> eff E T;
}.

(** ** Strings *)
Section Serde.
Context {D UE : Type} `{Nfc}.
Let M := eff (SerdeError D UE).

Fixpoint bytes_of (l : list Json) : M (list N) :=
  match l with
  | [] => EOk []
  | JsNum (U64 n) :: l => if n <? 256 then bs ← bytes_of l; EOk (n :: bs) else EErr NumberRange
  | JsNum (I64 _) :: _ => EErr NumberRange
  | _ :: _ => EErr WrongType
  end.
(** [ByteBuf] takes a string or a sequence of bytes; bytes that are not UTF-8 are taken for a string unchecked, which is
    undefined behaviour and stands as a panic here. *)
Definition cstring_deserialize (j : Json) : M (list N) :=
  match j with
  | JsStr s => EOk (cstring_from s)
  | JsArr l =>
      buf ← bytes_of l;
      match from_utf8 buf with Some s => EOk (cstring_from s) | None => EPanic end
  | _ => EErr WrongType
  end.
Definition option_deserialize {A} (f : Json -> M A) (j : Json) : M (option A) :=
  match j with JsNull => EOk None | _ => a ← f j; EOk (Some a) end.
Definition option_serialize {A} (f : A -> Json) (o : option A) : Json := match o with Some a => f a | None => JsNull end.

(** A field of a derived struct: refused the second time. *)
Definition field {A} (name : list N) (f : Json -> M A) (old : option A) (j : Json) : M (option A) :=
  match old with Some _ => EErr (DuplicateField name) | None => a ← f j; EOk (Some a) end.
Definition required {A} (name : list N) (o : option A) : M A := match o with Some a => EOk a | None => EErr (MissingField name) end.
(** An element of a struct that is read from an array. *)
Definition element {A} (f : Json -> M A) (l : list Json) : M (A * list Json) :=
  match l with [] => EErr InvalidLen | j :: l => a ← f j; EOk (a, l) end.
Definition no_more {A} (l : list Json) (a : A) : M A := match l with [] => EOk a | _ => EErr TrailingElements end.

(** ** Subjects *)

Record Person := MkPerson { person_name : list N }.
Record Project := MkProject { project_name : list N; project_description : option (list N); project_default_branch : option (list N) }.

Definition NAME : list N := str "name".
Definition DESCRIPTION : list N := str "description".
Definition DEFAULT_BRANCH : list N := str "default_branch".

Definition person_serialize (p : Person) : Json := JsObj [(NAME, JsStr (person_name p))].
Definition person_visit (acc : option (list N)) (kv : list N * Json) : M (option (list N)) :=
  if bool_decide (kv.1 = NAME) then field NAME cstring_deserialize acc kv.2 else EOk acc.
Definition person_deserialize (j : Json) : M Person :=
  match j with
  | JsObj m => acc ← eff_fold person_visit None m; name ← required NAME acc; EOk (MkPerson name)
  | JsArr l => '(name, l) ← element cstring_deserialize l; no_more l (MkPerson name)
  | _ => EErr WrongType
  end.

Definition project_serialize (p : Project) : Json :=
  JsObj [(NAME, JsStr (project_name p)); (DESCRIPTION, option_serialize JsStr (project_description p));
    (DEFAULT_BRANCH, option_serialize JsStr (project_default_branch p))].
Definition ProjectFields : Type := (option (list N) * option (option (list N)) * option (option (list N)))%type.
Definition project_visit (acc : ProjectFields) (kv : list N * Json) : M ProjectFields :=
  let '(name, desc, branch) := acc in
  if bool_decide (kv.1 = NAME) then name ← field NAME cstring_deserialize name kv.2; EOk (name, desc, branch)
  else if bool_decide (kv.1 = DESCRIPTION) then
    desc ← field DESCRIPTION (option_deserialize cstring_deserialize) desc kv.2; EOk (name, desc, branch)
  else if bool_decide (kv.1 = DEFAULT_BRANCH) then
    branch ← field DEFAULT_BRANCH (option_deserialize cstring_deserialize) branch kv.2; EOk (name, desc, branch)
  else EOk acc.
Definition project_deserialize (j : Json) : M Project :=
  match j with
  | JsObj m =>
      '(name, desc, branch) ← eff_fold project_visit (None, None, None) m;
      name ← required NAME name; EOk (MkProject name (default None desc) (default None branch))
  | JsArr l =>
      '(name, l) ← element cstring_deserialize l;
      '(desc, l) ← element (option_deserialize cstring_deserialize) l;
      '(branch, l) ← element (option_deserialize cstring_deserialize) l;
      no_more l (MkProject name desc branch)
  | _ => EErr WrongType
  end.

Definition PERSON_NAMESPACE_BASE : list N := str "https://radicle.xyz/link/identities/person".
Definition PERSON_NAMESPACE_V1 : list N := PERSON_NAMESPACE_BASE ++ str "/v1".
Definition PROJECT_NAMESPACE_BASE : list N := str "https://radicle.xyz/link/identities/project".
Definition PROJECT_NAMESPACE_V1 : list N := PROJECT_NAMESPACE_BASE ++ str "/v1".

#[export] Instance person_subject : Subject Person (SerdeError D UE) := {|
  namespace_base := PERSON_NAMESPACE_BASE; namespace := PERSON_NAMESPACE_V1;
  subject_serialize := person_serialize; subject_deserialize := person_deserialize |}.
#[export] Instance project_subject : Subject Project (SerdeError D UE) := {|
  namespace_base := PROJECT_NAMESPACE_BASE; namespace := PROJECT_NAMESPACE_V1;
  subject_serialize := project_serialize; subject_deserialize := project_deserialize |}.
End Serde.

(** ** Payloads *)

Record Ext (V : Type) : Type := MkExt { ext_namespace : list N; ext_val : V }.
Arguments MkExt {V} ext_namespace ext_val. Arguments ext_namespace {V} e. Arguments ext_val {V} e.
(** [HasNamespace] of a type, [serde_json::to_value] and [from_value] for it. *)
Class Extension (V JE : Type) := { v_namespace : list N; v_to_value : V -> result JE Json; v_from_value : Json -> result JE V }.
Definition ext_from {V JE} `{Extension V JE} (v : V) : Ext V := MkExt v_namespace v.

Inductive ExtError (JE : Type) : Type := ExtensionIsSubject | ExtJson (e : JE).
Arguments ExtensionIsSubject {JE}. Arguments ExtJson {JE} e.

(** The extensions are a map, sorted by namespace. *)
Record Payload (T : Type) : Type := MkPayload { subject : T; ext : list (list N * Json) }.
Arguments MkPayload {T} subject ext. Arguments subject {T} p. Arguments ext {T} p.

(** [Bound] and [RangeBounds] *)
Inductive Bound := Included (k : list N) | Excluded (k : list N) | Unbounded.
Definition after (b : Bound) (k : list N) : bool :=
  match b with
  | Included l => match str_cmp l k with Gt => false | _ => true end
  | Excluded l => match str_cmp l k with Lt => true | _ => false end
  | Unbounded => true
  end.
Definition before (b : Bound) (k : list N) : bool :=
  match b with
  | Included l => match str_cmp k l with Gt => false | _ => true end
  | Excluded l => match str_cmp k l with Lt => true | _ => false end
  | Unbounded => true
  end.
(** [BTreeMap::range] panics on a range that ends before it starts. *)
Definition range_ok (lo hi : Bound) : bool :=
  match lo, hi with
  | Unbounded, _ | _, Unbounded => true
  | Excluded l, Excluded h => match str_cmp l h with Lt => true | _ => false end
  | Included l, (Included h | Excluded h) | Excluded l, Included h => match str_cmp l h with Gt => false | _ => true end
  end.

Section Payload.
Context {D UE : Type} `{UrlLib}.
Let M := eff (SerdeError D UE).

(** [Serialize] and [Deserialize] of [Ext]. *)
Definition ext_serialize {V} (ser : V -> Json) (e : Ext V) : Json := JsObj [(ext_namespace e, ser (ext_val e))].
Definition url_deserialize (s : list N) : M (list N) := match url_parse s with Some u => EOk u | None => EErr BadUrl end.
Definition ext_deserialize {V} (de : Json -> M V) (j : Json) : M (Ext V) :=
  match j with
  | JsObj [] => EErr NoExtension
  | JsObj ((k, v) :: m) =>
      ns ← url_deserialize k; val ← de v;
      match m with
      | [] => EOk (MkExt ns val)
      | (k, v) :: _ => _ ← url_deserialize k; _ ← de v; EErr SingleExtension
      end
  | _ => EErr WrongType
  end.

Context {T : Type} `{Subject T (SerdeError D UE)}.

Definition namespace_matches (url : list N) : bool := starts_with namespace_base url.

Definition payload_new (subject : T) : Payload T := MkPayload subject [].
Definition set_ext {V JE} `{Extension V JE} (val : Ext V) (p : Payload T) : result (ExtError JE) (Payload T) :=
  if namespace_matches (ext_namespace val) then Err ExtensionIsSubject
  else v ← map_err ExtJson (v_to_value (ext_val val)); Ok (MkPayload (subject p) (map_insert (ext_namespace val) v (ext p))).
Definition with_ext {V JE} `{Extension V JE} (p : Payload T) (val : Ext V) : result (ExtError JE) (Payload T) := set_ext val p.
Definition get_ext V {JE} `{Extension V JE} (p : Payload T) : result JE (option V) :=
  match map_get v_namespace (ext p) with Some v => Some <$> v_from_value v | None => Ok None end.
Definition query_ext (lo hi : Bound) (p : Payload T) : outcome (list (list N * Json)) :=
  if range_ok lo hi then Done (filter (fun kv => Is_true (after lo kv.1 && before hi kv.1)) (ext p)) else Panic.
Definition remove_ext V {JE} `{Extension V JE} (p : Payload T) : result JE (option V) * Payload T :=
  let '(m, v) := Map_remove v_namespace (ext p) in
  (match v with Some v => Some <$> v_from_value v | None => Ok None end, MkPayload (subject p) m).
Definition exts (p : Payload T) : list (list N * Json) := ext p.

Definition payload_serialize (p : Payload T) : Json :=
  JsObj ((namespace, subject_serialize (subject p)) :: filter (fun kv => is_null kv.2 = false) (ext p)).
(** The subject is read as an option: a null leaves it unset. *)
Definition payload_visit (acc : option T * list (list N * Json)) (kv : list N * Json) : M (option T * list (list N * Json)) :=
  k ← url_deserialize kv.1;
  if namespace_matches k then
    match acc.1 with
    | None => s ← option_deserialize subject_deserialize kv.2; EOk (s, acc.2)
    | Some _ => EErr MultipleSubjects
    end
  else
    match map_get k acc.2 with
    | None => EOk (acc.1, map_insert k (to_value kv.2) acc.2)
    | Some _ => EErr (DuplicateField k)
    end.
Definition payload_deserialize (j : Json) : M (Payload T) :=
  match j with
  | JsObj m =>
      '(subject, ext) ← eff_fold payload_visit (None, []) m;
      subject ← required (str "subject") subject; EOk (MkPayload subject ext)
  | _ => EErr WrongType
  end.
End Payload.

(** ** Delegations *)

Section Delegations.
Context {Sig D MB MH IE : Type} `{KeyText Sig D} `{HasProtocol N MH IE} `{Multibase MB} `{PercentEncoding}.
Let M := eff (SerdeError D (FromStr (DecodeId MB MH IE))).

Definition key_json (k : N) : Json := JsStr (key_to_string k).
Definition key_of_json (j : Json) : M N := match j with JsStr s => of_res_with BadKey (key_deserialize s) | _ => EErr WrongType end.
Definition urn_json (u : UrnText.Urn N) : Json := JsStr (urn_to_string (MB := MB) u).
Definition urn_of_json (j : Json) : M (UrnText.Urn N) := match j with JsStr s => of_res_with BadUrn (urn_from_str s) | _ => EErr WrongType end.

(** [PersonDelegations] *)
Definition person_delegations_json (ks : gset N) : Json := JsArr (key_json <$> bset_iter ks).
Fixpoint person_visit_seq (set : gset N) (l : list Json) : M (gset N) :=
  match l with
  | [] => if bool_decide (set = ∅) then EErr NoDelegations else EOk set
  | j :: l =>
      key ← key_of_json j;
      if bool_decide (key ∈ set) then EErr DuplicateDelegation else person_visit_seq ({[ key ]} ∪ set) l
  end.
Definition person_delegations_of_json (j : Json) : M (gset N) :=
  match j with JsArr l => person_visit_seq ∅ l | _ => EErr WrongType end.

(** [KeyOrUrn]: untagged, a key first. The order is that of [Either], then of keys, or of ids and paths. *)
Definition KeyOrUrn : Type := (N + UrnText.Urn N)%type.
Definition path_cmp (a b : option (list N)) : comparison :=
  match a, b with
  | None, None => Eq | None, Some _ => Lt | Some _, None => Gt | Some a, Some b => str_cmp a b
  end.
Definition ku_cmp (a b : KeyOrUrn) : comparison :=
  match a, b with
  | inl a, inl b => N.compare a b
  | inl _, inr _ => Lt
  | inr _, inl _ => Gt
  | inr a, inr b => match N.compare (urn_id a) (urn_id b) with Eq => path_cmp (urn_path a) (urn_path b) | c => c end
  end.
Definition ku_json (x : KeyOrUrn) : Json := match x with inl k => key_json k | inr u => urn_json u end.
Definition ku_of_json (j : Json) : M KeyOrUrn :=
  match key_of_json j with
  | EOk k => EOk (inl k)
  | EErr _ => match urn_of_json j with EOk u => EOk (inr u) | EErr _ => EErr NoVariant | EPanic => EPanic end
  | EPanic => EPanic
  end.
(** A set of them, sorted. *)
Fixpoint ku_insert (x : KeyOrUrn) (l : list KeyOrUrn) : list KeyOrUrn :=
  match l with
  | [] => [x]
  | y :: l => match ku_cmp x y with Lt => x :: y :: l | Eq => y :: l | Gt => y :: ku_insert x l end
  end.
Definition ku_contains (x : KeyOrUrn) (l : list KeyOrUrn) : bool :=
  existsb (fun y => match ku_cmp x y with Eq => true | _ => false end) l.

(** [ProjectDelegations] *)
Definition project_delegations_from_iter (l : list KeyOrUrn) : list KeyOrUrn := foldl (fun s x => ku_insert x s) [] l.
Definition project_delegations_json (l : list KeyOrUrn) : Json := JsArr (ku_json <$> l).
Fixpoint project_visit_seq (set : list KeyOrUrn) (l : list Json) : M (list KeyOrUrn) :=
  match l with
  | [] => match set with [] => EErr NoDelegations | _ => EOk set end
  | j :: l => x ← ku_of_json j; if ku_contains x set then EErr DuplicateDelegation else project_visit_seq (ku_insert x set) l
  end.
Definition project_delegations_of_json (j : Json) : M (list KeyOrUrn) :=
  match j with JsArr l => project_visit_seq [] l | _ => EErr WrongType end.
End Delegations.

(** ** Documents *)

Definition VERSION_FIELD : list N := str "version".
Definition REPLACES : list N := str "replaces".
Definition PAYLOAD : list N := str "payload".
Definition DELEGATIONS : list N := str "delegations".

Section Docs.
Context {D UE : Type} `{OidText}.
Let M := eff (SerdeError D UE).

Definition oid_json (o : N) : Json := JsStr (oid_to_string o).
Definition oid_of_json (j : Json) : M N :=
  match j with JsStr s => match oid_from_str s with Some o => EOk o | None => EErr BadOid end | _ => EErr WrongType end.
Definition u8_of_json (j : Json) : M N :=
  match j with
  | JsNum (U64 n) => if n <? 256 then EOk n else EErr NumberRange
  | JsNum (I64 _) => EErr NumberRange
  | _ => EErr WrongType
  end.

Context {T G : Type} (pay_json : T -> Json) (pay_of : Json -> M T) (del_json : G -> Json) (del_of : Json -> M G).

(** The version is always written as zero. *)
Definition doc_json (d : Doc T G N) : Json :=
  JsObj [(VERSION_FIELD, JsNum (U64 0)); (REPLACES, option_serialize oid_json (replaces_field d));
    (PAYLOAD, pay_json (payload d)); (DELEGATIONS, del_json (delegations d))].
Record DocFields := MkDocFields { df_version : option N; df_replaces : option (option N); df_payload : option T; df_delegations : option G }.
Definition doc_visit (acc : DocFields) (kv : list N * Json) : M DocFields :=
  let '(MkDocFields v r p g) := acc in
  if bool_decide (kv.1 = VERSION_FIELD) then v ← field VERSION_FIELD u8_of_json v kv.2; EOk (MkDocFields v r p g)
  else if bool_decide (kv.1 = REPLACES) then r ← field REPLACES (option_deserialize oid_of_json) r kv.2; EOk (MkDocFields v r p g)
  else if bool_decide (kv.1 = PAYLOAD) then p ← field PAYLOAD pay_of p kv.2; EOk (MkDocFields v r p g)
  else if bool_decide (kv.1 = DELEGATIONS) then g ← field DELEGATIONS del_of g kv.2; EOk (MkDocFields v r p g)
  else EOk acc.
Definition doc_of_json (j : Json) : M (Doc T G N) :=
  match j with
  | JsObj m =>
      f ← eff_fold doc_visit (MkDocFields None None None None) m;
      v ← required VERSION_FIELD (df_version f);
      p ← required PAYLOAD (df_payload f);
      g ← required DELEGATIONS (df_delegations f);
      EOk (MkDoc v (default None (df_replaces f)) p g)
  | JsArr l =>
      '(v, l) ← element u8_of_json l;
      '(r, l) ← element (option_deserialize oid_of_json) l;
      '(p, l) ← element pay_of l;
      '(g, l) ← element del_of l;
      no_more l (MkDoc v r p g)
  | _ => EErr WrongType
  end.
End Docs.

(** [SomePayload] and [SomeDelegations]: untagged, a person first. *)
Inductive SomePayload := PayloadPerson (p : Payload Person) | PayloadProject (p : Payload Project).
Inductive SomeDelegations := DelegationsPerson (g : gset N) | DelegationsProject (g : list KeyOrUrn).
Definition untagged {E A B C} (f : A -> C) (g : B -> C) (a : eff E A) (b : eff E B) (none : E) : eff E C :=
  match a with
  | EOk a => EOk (f a)
  | EErr _ => match b with EOk b => EOk (g b) | EErr _ => EErr none | EPanic => EPanic end
  | EPanic => EPanic
  end.

Section Some.
Context {Sig D MB MH IE : Type} `{KeyText Sig D} `{HasProtocol N MH IE} `{Multibase MB} `{PercentEncoding} `{UrlLib} `{Nfc}.
Let M := eff (SerdeError D (FromStr (DecodeId MB MH IE))).

Definition some_payload_json (p : SomePayload) : Json :=
  match p with PayloadPerson p => payload_serialize (D := D) (UE := FromStr (DecodeId MB MH IE)) p | PayloadProject p => payload_serialize (D := D) (UE := FromStr (DecodeId MB MH IE)) p end.
Definition some_payload_of_json (j : Json) : M SomePayload :=
  untagged PayloadPerson PayloadProject (payload_deserialize j) (payload_deserialize j) NoVariant.
Definition some_delegations_of_json (j : Json) : M SomeDelegations :=
  untagged DelegationsPerson DelegationsProject (person_delegations_of_json j) (project_delegations_of_json j) NoVariant.
End Some.

(** ** Properties *)

(** Settles tests of constant keys. *)
Ltac const_keys :=
  repeat match goal with
  | |- context [bool_decide (?a = ?a)] => rewrite (bool_decide_eq_true_2 (a = a)) by reflexivity
  | |- context [bool_decide (?a = ?b)] => rewrite (bool_decide_eq_false_2 (a = b)) by (intros ?Heq; vm_compute in Heq; discriminate Heq)
  end; cbn [fst snd mbind eff_bind field required default].

Lemma eff_bind_EOk {E A B} (a : A) (f : A -> eff E B) : EOk a ≫= f = f a.
Proof. done. Qed.

(** What is read back of a subject, in whatever order its members come. *)
Class SubjectLaws (T E : Type) `{Subject T E} := {
  subject_ok : T -> Prop;
  subject_roundtrip s : subject_ok s -> subject_deserialize (to_value (subject_serialize s)) = EOk s;
  subject_some s : is_null (to_value (subject_serialize s)) = false;
  namespace_own : starts_with (namespace_base (T := T)) (namespace (T := T)) = true;
}.

Section SubjectLaws.
Context {D UE : Type} `{Nfc}.
Let E := SerdeError D UE.

Definition nfc_ok (s : list N) : Prop := nfc s = s.
Definition nfc_opt (o : option (list N)) : Prop := match o with Some s => nfc_ok s | None => True end.

Lemma cstring_read s : nfc_ok s -> cstring_deserialize (D := D) (UE := UE) (JsStr s) = EOk s.
Proof. intros Hs. cbn. unfold cstring_from. by rewrite Hs. Qed.
Lemma option_read o : nfc_opt o ->
  option_deserialize (cstring_deserialize (D := D) (UE := UE)) (option_serialize JsStr o) = EOk o.
Proof. destruct o as [s|]; [|done]. intros Hs. cbn -[cstring_deserialize]. by rewrite cstring_read. Qed.
Lemma option_value (o : option (list N)) : to_value (option_serialize JsStr o) = option_serialize JsStr o.
Proof. by destruct o. Qed.

#[export] Program Instance person_laws : SubjectLaws Person E := {|
  subject_ok p := nfc_ok (person_name p) |}.
Next Obligation.
  intros [name] Hn. cbn [subject_serialize subject_deserialize person_subject]. unfold person_serialize. cbn [person_name] in *.
  change (to_value _) with (JsObj [(NAME, JsStr name)]). cbn [person_deserialize eff_fold]. unfold person_visit. const_keys.
  by rewrite (cstring_read name Hn).
Qed.
Next Obligation. done. Qed.
Next Obligation. vm_compute. done. Qed.

Lemma project_members a b c : map_collect [(NAME, a); (DESCRIPTION, b); (DEFAULT_BRANCH, c)] =
  [(DEFAULT_BRANCH, c); (DESCRIPTION, b); (NAME, a)] :> list (list N * Json).
Proof. vm_compute. done. Qed.
#[export] Program Instance project_laws : SubjectLaws Project E := {|
  subject_ok p := nfc_ok (project_name p) /\ nfc_opt (project_description p) /\ nfc_opt (project_default_branch p) |}.
Next Obligation.
  intros [name desc branch] (Hn & Hd & Hb). cbn [project_name project_description project_default_branch] in *.
  cbn [subject_serialize subject_deserialize project_subject]. unfold project_serialize.
  cbn [to_value map fst snd project_name project_description project_default_branch]. rewrite !option_value, project_members.
  cbn [project_deserialize eff_fold].
  assert (project_visit (D := D) (UE := UE) (None, None, None) (DEFAULT_BRANCH, option_serialize JsStr branch) = EOk (None, None, Some branch)) as ->
    by (unfold project_visit; const_keys; by rewrite (option_read branch Hb)).
  cbn [mbind eff_bind].
  assert (project_visit (D := D) (UE := UE) (None, None, Some branch) (DESCRIPTION, option_serialize JsStr desc) = EOk (None, Some desc, Some branch)) as ->
    by (unfold project_visit; const_keys; by rewrite (option_read desc Hd)).
  cbn [mbind eff_bind]. unfold project_visit. const_keys. by rewrite (cstring_read name Hn).
Qed.
Next Obligation. done. Qed.
Next Obligation. vm_compute. done. Qed.
End SubjectLaws.

Lemma keys_sorted_nodup {V} (m : list (list N * V)) : keys_sorted m = true -> NoDup m.*1.
Proof.
  induction m as [|[k v] m IH]; intros Hs; [constructor|]. cbn [fmap list_fmap fst]. constructor.
  - intros (kv & Hk & Hin)%list_elem_of_fmap. pose proof (keys_sorted_get k v m Hs) as Hn. destruct kv as [k' v']. cbn in Hk. subst k'.
    clear -Hn Hin. induction m as [|[k1 v1] m IH]; [by apply not_elem_of_nil in Hin|]. cbn in Hn.
    destruct (str_cmp k k1) eqn:Hc; [done|..]; (apply elem_of_cons in Hin as [[= <- <-]|Hin]; [by rewrite str_cmp_refl in Hc|auto]).
  - apply IH. cbn in Hs. by apply andb_prop in Hs as [_ ?].
Qed.
Lemma map_get_notin {V} k (m : list (list N * V)) : map_get k m = None <-> k ∉ m.*1.
Proof.
  induction m as [|[k' v] m IH]; cbn [map_get]; [cbn; split; [intros _; apply not_elem_of_nil|done]|].
  cbn [fmap list_fmap fst]. rewrite not_elem_of_cons. destruct (str_cmp k k') eqn:Hc.
  - apply str_cmp_eq in Hc as ->. naive_solver.
  - rewrite IH. split; [intros ?; split; [intros ->; by rewrite str_cmp_refl in Hc|done]|naive_solver].
  - rewrite IH. split; [intros ?; split; [intros ->; by rewrite str_cmp_refl in Hc|done]|naive_solver].
Qed.

Lemma forallb_filter {A} (f : A -> bool) (P : A -> Prop) `{forall x, Decision (P x)} l : forallb f l = true -> forallb f (filter P l) = true.
Proof. rewrite !forallb_forall. intros Hl x Hx%list_elem_of_In%list_elem_of_filter. apply Hl. by apply list_elem_of_In, Hx. Qed.
Lemma keys_sorted_filter {V} (P : list N * V -> Prop) `{forall x, Decision (P x)} m : keys_sorted m = true -> keys_sorted (filter P m) = true.
Proof.
  induction m as [|kv m IH]; [done|]. cbn [keys_sorted]. intros [Hf Hs]%andb_prop. rewrite filter_cons. case_decide; [|auto].
  cbn [keys_sorted]. by rewrite forallb_filter, IH.
Qed.

Lemma map_insert_forall {V} (P : list N * V -> Prop) k v m : P (k, v) -> Forall P m -> Forall P (map_insert k v m).
Proof.
  intros Hk. induction 1 as [|[k' v'] m Hkv Hm IH]; cbn [map_insert]; [by repeat constructor|]. by destruct (str_cmp k k'); repeat constructor.
Qed.
Lemma map_collect_forall {V} (P : list N * V -> Prop) l : Forall P l -> Forall P (map_collect l).
Proof.
  unfold map_collect, map_new. generalize ([] : list (list N * V)) (Forall_nil_2 P). intros acc Hacc Hl. revert acc Hacc.
  induction Hl as [|[k v] l Hkv Hl IH]; intros acc Hacc; [done|]. cbn [foldl fst snd]. by apply IH, map_insert_forall.
Qed.
Lemma map_remove_forall {V} (P : list N * V -> Prop) k m : Forall P m -> Forall P (map_remove k m).
Proof. induction 1 as [|[k' v'] m Hkv Hm IH]; cbn [map_remove]; [done|]. by destruct (str_cmp k k'); [|constructor..]. Qed.
Lemma map_remove_sorted {V} k (m : list (list N * V)) : keys_sorted m = true -> keys_sorted (map_remove k m) = true.
Proof.
  induction m as [|[k' v'] m IH]; [done|]. cbn [keys_sorted map_remove]. intros [Hf Hs]%andb_prop.
  assert (keys_sorted ((k', v') :: map_remove k m) = true) as Hc.
  { cbn [keys_sorted]. rewrite IH, andb_true_r by done. rewrite forallb_forall in *. intros kv Hkv. apply Hf, list_elem_of_In.
    apply list_elem_of_In in Hkv. assert (Forall (fun kv => kv ∈ m) (map_remove k m)) as Hall by (apply map_remove_forall; by rewrite Forall_forall).
    rewrite Forall_forall in Hall. by apply Hall. }
  by destruct (str_cmp k k').
Qed.

(** A value is in normal form. *)
Lemma to_value_idem j : to_value (to_value j) = to_value j.
Proof.
  induction j as [|b|n|f|s|l IH|m IH] using js_ind; try done; cbn [to_value].
  - f_equal. rewrite map_map. induction IH as [|j l Hj _ IHl]; [done|]. cbn. by rewrite Hj, IHl.
  - f_equal. assert (Hf : Forall (fun kv => to_value kv.2 = kv.2) (map_collect (map (fun kv => (kv.1, to_value kv.2)) m))).
    { apply map_collect_forall. rewrite Forall_map. eapply Forall_impl; [exact IH|]. done. }
    assert (map (fun kv => (kv.1, to_value kv.2)) (map_collect (map (fun kv => (kv.1, to_value kv.2)) m)) = map_collect (map (fun kv => (kv.1, to_value kv.2)) m)) as ->.
    { induction Hf as [|[k v] l Hkv _ IHl]; [done|]. cbn in *. by rewrite Hkv, IHl. }
    apply map_collect_sorted, map_collect_keys_sorted.
Qed.

Section PayloadLaws.
Context {D UE T : Type} `{UrlLib} `{SubjectLaws T (SerdeError D UE)}.

(** The extensions: sorted by namespace, none of them a namespace of the subject. *)
Definition ext_ok (kv : list N * Json) : Prop :=
  url_parse kv.1 = Some kv.1 /\ namespace_matches (D := D) (UE := UE) (T := T) kv.1 = false /\ to_value kv.2 = kv.2.
Definition payload_ok (p : Payload T) : Prop := keys_sorted (ext p) = true /\ Forall ext_ok (ext p).
(** Extensions that are null are not written. *)
Definition visible (p : Payload T) : Payload T := MkPayload (subject p) (filter (fun kv => is_null kv.2 = false) (ext p)).

Lemma visit_exts l : forall s e, Forall ext_ok l -> NoDup (e.*1 ++ l.*1) ->
  eff_fold (payload_visit (D := D) (UE := UE) (T := T)) (s, e) l = EOk (s, foldl (fun m kv => map_insert kv.1 kv.2 m) e l).
Proof.
  induction l as [|[k v] l IH]; intros s e Hok Hnd; [done|]. cbn [eff_fold foldl]. cbn [fst snd].
  apply Forall_cons in Hok as [(Hu & Hm & Hv) Hok]. unfold payload_visit. cbn [fst snd] in *. unfold url_deserialize. rewrite Hu.
  cbn [mbind eff_bind]. rewrite Hm. cbn [fmap list_fmap fst] in Hnd.
  assert ((k ∉ e.*1) /\ NoDup (k :: e.*1 ++ l.*1)) as [Hk Hnd'].
  { rewrite Permutation_middle. split; [|done]. apply NoDup_app in Hnd as (_ & Hd & _). intros Hin. apply (Hd k Hin). by left. }
  rewrite (proj2 (map_get_notin k e) Hk), Hv. cbn [mbind eff_bind]. apply IH; [done|].
  by rewrite (map_insert_perm k v e Hk).
Qed.

Lemma visit_subject s e : subject_ok s -> url_parse (namespace (T := T)) = Some (namespace (T := T)) ->
  payload_visit (D := D) (UE := UE) (T := T) (None, e) (namespace (T := T), to_value (subject_serialize s)) = EOk (Some s, e).
Proof.
  intros Hsub Hurl. unfold payload_visit, url_deserialize. cbn [fst snd]. rewrite Hurl. cbn [mbind eff_bind].
  unfold namespace_matches. rewrite namespace_own. pose proof (subject_some s) as Hn. pose proof (subject_roundtrip _ Hsub) as Hr.
  destruct (to_value (subject_serialize s)); try done; cbn [option_deserialize]; by rewrite Hr.
Qed.

(** A payload is read back from its entries in any order, without the extensions that are null. *)
Lemma payload_read p m : payload_ok p -> subject_ok (subject p) -> url_parse (namespace (T := T)) = Some (namespace (T := T)) ->
  m ≡ₚ (namespace (T := T), to_value (subject_serialize (subject p))) :: ext (visible p) ->
  payload_deserialize (D := D) (UE := UE) (T := T) (JsObj m) = EOk (visible p).
Proof.
  intros [Hs Hx] Hsub Hurl Hm. cbn [payload_deserialize].
  pose proof (keys_sorted_filter (fun kv => is_null kv.2 = false) _ Hs) as Hs'.
  assert (Hx' : Forall ext_ok (ext (visible p))) by (rewrite Forall_forall in *; intros kv [_ Hkv]%list_elem_of_filter; by apply Hx).
  assert (Hin : (namespace (T := T), to_value (subject_serialize (subject p))) ∈ m) by (rewrite Hm; by left).
  apply list_elem_of_split in Hin as (l1 & l2 & ->). symmetry in Hm. apply Permutation_cons_app_inv in Hm.
  assert (Hl : Forall ext_ok (l1 ++ l2)) by (by rewrite <- Hm). apply Forall_app in Hl as [Hl1 Hl2].
  assert (Hnd : NoDup (l1 ++ l2).*1) by (rewrite <- Hm; by apply keys_sorted_nodup).
  rewrite eff_fold_app, visit_exts; [|done|cbn; rewrite fmap_app in Hnd; by apply NoDup_app in Hnd as (? & _)].
  cbn [mbind eff_bind eff_fold]. rewrite (visit_subject _ _ Hsub Hurl). cbn [mbind eff_bind].
  rewrite visit_exts; [|done|].
  - cbn [mbind eff_bind required]. rewrite <- foldl_app. change (foldl _ [] (l1 ++ l2)) with (map_collect (l1 ++ l2)).
    rewrite <- (map_collect_perm (ext (visible p))), map_collect_sorted; [done|done|done|by apply keys_sorted_nodup].
  - change (foldl _ [] l1) with (map_collect l1). rewrite map_collect_of; [by rewrite <- fmap_app|]. rewrite fmap_app in Hnd. by apply NoDup_app in Hnd as (? & _).
Qed.

Lemma payload_canonical p : payload_ok p -> exists m, to_value (payload_serialize (D := D) (UE := UE) p) = JsObj m /\
  m ≡ₚ (namespace (T := T), to_value (subject_serialize (subject p))) :: ext (visible p).
Proof.
  intros [Hs Hx]. unfold payload_serialize. cbn [to_value map fst snd]. eexists. split; [reflexivity|]. cbn [visible ext].
  pose proof (keys_sorted_filter (fun kv => is_null kv.2 = false) _ Hs) as Hs'.
  assert (Hx' : Forall ext_ok (filter (fun kv => is_null kv.2 = false) (ext p)))
    by (rewrite Forall_forall in *; intros kv [_ Hkv]%list_elem_of_filter; by apply Hx).
  assert (map (fun kv => (kv.1, to_value kv.2)) (filter (fun kv => is_null kv.2 = false) (ext p)) = filter (fun kv => is_null kv.2 = false) (ext p)) as ->.
  { clear Hs'. induction Hx' as [|[k v] l (_ & _ & Hv) _ IH]; [done|]. cbn in *. by rewrite Hv, IH. }
  apply map_collect_of. cbn [fmap list_fmap fst]. constructor; [|by apply keys_sorted_nodup].
  intros ([k v] & Hk & Hin)%list_elem_of_fmap. rewrite Forall_forall in Hx'. destruct (Hx' _ Hin) as (_ & Hm & _). cbn in *. subst k.
  unfold namespace_matches in Hm. by rewrite namespace_own in Hm.
Qed.
(** [payload_roundtrip]: a payload is read back from its canonical form, but for extensions that are null. *)
Lemma payload_roundtrip p : payload_ok p -> subject_ok (subject p) -> url_parse (namespace (T := T)) = Some (namespace (T := T)) ->
  payload_deserialize (D := D) (UE := UE) (T := T) (to_value (payload_serialize (D := D) (UE := UE) p)) = EOk (visible p).
Proof. intros Hp Hs Hu. destruct (payload_canonical p Hp) as (m & -> & Hm). by apply payload_read. Qed.

(** However a payload is made, its extensions never are of the namespaces of the subject. *)
Lemma payload_new_ok s : payload_ok (payload_new s).
Proof. split; [done|constructor]. Qed.
Lemma set_ext_ok {V JE} `{Extension V JE} (e : Ext V) p p' : payload_ok p -> url_parse (ext_namespace e) = Some (ext_namespace e) ->
  (forall v, v_to_value (ext_val e) = Ok v -> to_value v = v) -> set_ext (D := D) (UE := UE) e p = Ok p' -> payload_ok p'.
Proof.
  intros [Hs Hx] Hu Hv. unfold set_ext. destruct (namespace_matches (ext_namespace e)) eqn:Hm; [done|].
  destruct (v_to_value (ext_val e)) as [v|] eqn:Hval; cbn; [|done]. intros [= <-]. split; [by apply map_insert_sorted|].
  apply map_insert_forall; [|done]. split; [done|]. split; [done|]. by apply Hv.
Qed.
Lemma remove_ext_ok V {JE} `{Extension V JE} p : payload_ok p -> payload_ok (remove_ext V p).2.
Proof. intros [Hs Hx]. split; cbn; [by apply map_remove_sorted|by apply map_remove_forall]. Qed.
Lemma payload_deserialize_ok j p : (forall s u, url_parse s = Some u -> url_parse u = Some u) ->
  payload_deserialize (D := D) (UE := UE) j = EOk p -> payload_ok p.
Proof.
  intros Hurl. destruct j as [| | | | | |m]; try done. cbn [payload_deserialize]. intros Hd. inv_eff.
  enough (Hi : keys_sorted x.2 = true /\ Forall ext_ok x.2) by (destruct x as [[s|] e]; inv_eff; done).
  match goal with Hf : eff_fold _ _ _ = EOk _ |- _ => refine (eff_fold_ind _ (fun acc => keys_sorted acc.2 = true /\ Forall ext_ok acc.2) m _ _ _ _ Hf) end;
    [|by split].
  intros [s1 e1] [k v] [s2 e2] _ [Hs Hx] Hv. unfold payload_visit, url_deserialize in Hv. cbn [fst snd] in *.
  destruct (url_parse k) as [u|] eqn:Hu; [|done]. cbn [mbind eff_bind] in Hv. destruct (namespace_matches u) eqn:Hm.
  - destruct s1; [done|]. inv_eff. done.
  - destruct (map_get u e1); [done|]. injection Hv as <- <-. cbn [snd]. split; [by apply map_insert_sorted|].
    apply map_insert_forall; [|done]. split; [by eapply Hurl|]. split; [done|]. apply to_value_idem.
Qed.
End PayloadLaws.

(** ** Delegations and documents are read back *)

Lemma path_cmp_antisym a b : path_cmp b a = CompOpp (path_cmp a b).
Proof. destruct a, b; cbn; [apply str_cmp_antisym|done..]. Qed.
Lemma ku_cmp_antisym a b : ku_cmp b a = CompOpp (ku_cmp a b).
Proof.
  destruct a as [a|a], b as [b|b]; cbn; [apply N.compare_antisym|done|done|].
  rewrite (N.compare_antisym (urn_id a)). destruct (urn_id a ?= urn_id b); cbn; [apply path_cmp_antisym|done..].
Qed.
Lemma ku_insert_last x l : Forall (fun y => ku_cmp y x = Lt) l -> ku_insert x l = l ++ [x] /\ ku_contains x l = false.
Proof.
  induction 1 as [|y l Hy _ [IH1 IH2]]; [done|]. unfold ku_contains in *. cbn [existsb ku_insert]. rewrite (ku_cmp_antisym y x), Hy. cbn. by rewrite IH1.
Qed.

Section DelegationLaws.
Context {Sig D MB MH IE : Type} `{KeyTextLaws Sig D} `{HasProtocolLaws N MH IE} `{MultibaseLaws MB} `{PercentEncoding}.
Let UE := FromStr (DecodeId MB MH IE).
Lemma key_read k : key_of_json (MB := MB) (MH := MH) (IE := IE) (key_json k) = EOk k.
Proof using All. cbn. by rewrite key_roundtrip. Qed.

Lemma person_seq_read l : forall set : gset N, NoDup l -> (forall k, k ∈ l -> k ∉ set) -> set ∪ list_to_set l <> ∅ ->
  person_visit_seq (MB := MB) (MH := MH) (IE := IE) set (key_json <$> l) = EOk (set ∪ list_to_set l).
Proof using All.
  induction l as [|k l IH]; intros set Hnd Hd Hne.
  - cbn in *. rewrite union_empty_r_L in *. by rewrite bool_decide_eq_false_2.
  - rewrite fmap_cons. cbn [person_visit_seq]. rewrite key_read. cbn [mbind eff_bind]. apply NoDup_cons in Hnd as [Hk Hnd].
    rewrite bool_decide_eq_false_2 by (apply Hd; by left). rewrite IH; [f_equal; set_solver|done|set_solver|set_solver].
Qed.
Lemma person_delegations_read ks : ks <> ∅ -> person_delegations_of_json (MB := MB) (MH := MH) (IE := IE) (person_delegations_json ks) = EOk ks.
Proof using All.
  intros Hks. cbn [person_delegations_of_json person_delegations_json].
  assert (list_to_set (bset_iter ks) = ks) as Hs by (apply set_eq; intros k; by rewrite elem_of_list_to_set, elem_of_bset_iter).
  rewrite person_seq_read; rewrite ?union_empty_l_L, ?Hs; [done|apply bset_iter_nodup|set_solver|done].
Qed.

Lemma person_delegations_value ks : to_value (person_delegations_json ks) = person_delegations_json ks.
Proof using All.
  unfold person_delegations_json. cbn [to_value]. f_equal. generalize (bset_iter ks). intros l.
  induction l as [|k l IH]; [done|]. rewrite fmap_cons. cbn [map]. by rewrite IH.
Qed.

(** The text of a URN is not that of a key: [r] is not the code of a base. *)
Hypothesis urn_not_key : forall id, exists e, key_deserialize (urn_to_string (MB := MB) (urn_new id)) = Err e.

(** Delegations of a project, sorted and with URNs of identities. *)
Definition ku_sorted (l : list KeyOrUrn) : Prop := StronglySorted (fun a b => ku_cmp a b = Lt) l.
Definition ku_plain (x : KeyOrUrn) : Prop := match x with inl _ => True | inr u => urn_path u = None end.

Lemma ku_read x : ku_plain x -> ku_of_json (MB := MB) (MH := MH) (IE := IE) (ku_json x) = EOk x.
Proof using All.
  destruct x as [k|[id path]]; cbn [ku_plain ku_json].
  - intros _. unfold ku_of_json. by rewrite key_read.
  - cbn. intros ->. destruct (urn_not_key id) as [e He]. unfold ku_of_json, urn_json, urn_of_json, key_of_json.
    change (MkUrn id None) with (urn_new id). rewrite He. cbn [of_res_with map_err of_res]. by rewrite urn_text_new.
Qed.
Lemma project_seq_read l : forall set, ku_sorted (set ++ l) -> Forall ku_plain l -> set ++ l <> [] ->
  project_visit_seq (MB := MB) (MH := MH) (IE := IE) set (ku_json <$> l) = EOk (set ++ l).
Proof using All.
  induction l as [|x l IH]; intros set Hs Hp Hne.
  - rewrite app_nil_r in *. cbn. by destruct set.
  - rewrite fmap_cons. cbn [project_visit_seq]. apply Forall_cons in Hp as [Hx Hp]. rewrite ku_read by done. cbn [mbind eff_bind].
    assert (Forall (fun y => ku_cmp y x = Lt) set) as Hlt.
    { apply Forall_forall. intros y Hy. apply (StronglySorted_app_1_elem_of _ _ _ y x Hs Hy). by left. }
    destruct (ku_insert_last x set Hlt) as [-> ->]. rewrite IH; rewrite <- ?app_assoc; [done|done|done|by destruct set].
Qed.
Lemma project_delegations_read l : ku_sorted l -> Forall ku_plain l -> l <> [] ->
  project_delegations_of_json (MB := MB) (MH := MH) (IE := IE) (project_delegations_json (MB := MB) l) = EOk l.
Proof using All. intros Hs Hp Hl. cbn [project_delegations_of_json project_delegations_json]. by apply (project_seq_read l []). Qed.
End DelegationLaws.

(** Members of a document in canonical order. *)
Lemma doc_members a b c d : map_collect [(VERSION_FIELD, a); (REPLACES, b); (PAYLOAD, c); (DELEGATIONS, d)] =
  [(DELEGATIONS, d); (PAYLOAD, c); (REPLACES, b); (VERSION_FIELD, a)] :> list (list N * Json).
Proof. vm_compute. done. Qed.

Section DocLaws.
Context {D UE T G : Type} `{OidText}.
Context (pay_json : T -> Json) (pay_of : Json -> eff (SerdeError D UE) T) (del_json : G -> Json) (del_of : Json -> eff (SerdeError D UE) G).
Hypothesis oid_text : forall o, oid_from_str (oid_to_string o) = Some o.

(** A document is read back as its parts are, at version zero. *)
Lemma doc_read d p g : pay_of (to_value (pay_json (payload d))) = EOk p -> del_of (to_value (del_json (delegations d))) = EOk g ->
  doc_of_json pay_of del_of (to_value (doc_json pay_json del_json d)) = EOk (MkDoc 0 (replaces_field d) p g).
Proof using oid_text.
  intros Hp Hg. unfold doc_json. cbn [to_value map fst snd]. rewrite doc_members. cbn [doc_of_json eff_fold].
  assert (doc_visit pay_of del_of (MkDocFields None None None None) (DELEGATIONS, to_value (del_json (delegations d))) =
    EOk (MkDocFields None None None (Some g))) as -> by (unfold doc_visit; const_keys; by rewrite Hg).
  cbn [mbind eff_bind].
  assert (doc_visit pay_of del_of (MkDocFields None None None (Some g)) (PAYLOAD, to_value (pay_json (payload d))) =
    EOk (MkDocFields None None (Some p) (Some g))) as -> by (unfold doc_visit; const_keys; by rewrite Hp).
  cbn [mbind eff_bind].
  assert (doc_visit pay_of del_of (MkDocFields None None (Some p) (Some g)) (REPLACES, to_value (option_serialize oid_json (replaces_field d))) =
    EOk (MkDocFields None (Some (replaces_field d)) (Some p) (Some g))) as ->.
  { unfold doc_visit. const_keys. destruct (replaces_field d) as [o|]; [|done]. cbn. by rewrite oid_text. }
  cbn [mbind eff_bind]. unfold doc_visit. const_keys. done.
Qed.
End DocLaws.

Module PayloadExamples.
#[local] Instance any_url : UrlLib := fun s => Some s.
#[local] Instance plain : Nfc := {| nfc s := s; nfc_idem s := eq_refl |}.
Abbreviation read j := (payload_deserialize (D := unit) (UE := unit) (T := Person) j).

(** A name may be given as bytes that are no UTF-8, and is taken for a string unchecked. *)
Example name_not_utf8 : person_deserialize (D := unit) (UE := unit) (JsObj [(NAME, JsArr [JsNum (U64 255)])]) = EPanic.
Proof. vm_compute. reflexivity. Qed.
(** A subject that is null does not count: a document may have the namespace twice. *)
Example null_subject_skipped : read (JsObj [(PERSON_NAMESPACE_V1, JsNull); (PERSON_NAMESPACE_V1, person_serialize (MkPerson (str "alice")))]) =
  EOk (MkPayload (MkPerson (str "alice")) []).
Proof. vm_compute. reflexivity. Qed.
(** Any namespace that starts like that of a person is taken for it. *)
Example namespace_prefix : read (JsObj [(str "https://radicle.xyz/link/identities/personal-notes", person_serialize (MkPerson (str "alice")))]) =
  EOk (MkPayload (MkPerson (str "alice")) []).
Proof. vm_compute. reflexivity. Qed.
End PayloadExamples.
