(* ===== verification/IdentityDoc.v ===== *)
(** * Loading and storing identities

    [link-identities/src/git/load.rs], and [base], [create] and [update] of [git.rs]: an identity is a commit whose tree has
    the document under the name of its root, in canonical form, and with the persons a project delegates to inlined.  Git
    objects are the interface [IdentityGit]; [serde_json::from_slice] is the interface [SerdeJson]. *)
From stdpp Require Import base list gmap.
From Stdlib Require Import NArith Lia.
From Stdlib Require String.
Import String.StringSyntax.
From S2P Require Import Prelude Effects RefFormat RefName Scoped Utf8 RefLike Keys UrnText.
From S2P Require Import Trailers CommitMessage CanonicalJson CanonicalFormatter Identity Delegation GitIdentity Payload.
Import Direct Indirect.
#[local] Open Scope N_scope.

(** ** Interfaces *)

Inductive ObjectKind := KBlob | KTree | KOther.
#[export] Instance object_kind_eq_dec : EqDecision ObjectKind.
Proof. solve_decision. Defined.
Record TreeEntry := MkTreeEntry { te_name : list N; te_kind : ObjectKind; te_id : N }.
Record GitCommit := MkGitCommit { gc_tree : N; gc_parents : list N; gc_message : option (list N) }.

Class IdentityGit (W GE : Type) := {
  ig_not_found : GE -> bool;
  ig_find_commit : W -> N -> result GE GitCommit;
  ig_find_tree : W -> N -> result GE (list TreeEntry);
  ig_find_blob : W -> N -> result GE (list N);
  ig_object_kind : W -> N -> result GE ObjectKind;       (** [TreeEntry::to_object] *)
  ig_no_entry : GE;                                      (** [Tree::get_path] *)
  ig_bad_oid : GE;                                       (** [Oid::from_str] *)
  ig_hash_blob : list N -> result GE N;
  ig_blob : list N -> st W GE N;
  ig_builder_insert : W -> TreeEntry -> result GE unit;   (** what [TreeBuilder::insert] checks *)
  ig_builder_write : list TreeEntry -> st W GE N;
  ig_signature : W -> result GE unit;
  ig_commit : list N -> N -> list N -> st W GE N;          (** message, tree, parents *)
}.
Class SerdeJson := { from_slice : list N -> option Json; str_pieces : list N -> list Piece }.

(** ** Errors *)

Inductive Load (GE SE JE FE : Type) : Type :=
| MissingDoc | MissingRoot | DigestMismatch | NotABlob (path : list N) (kind : ObjectKind)
| LoadDelegation (e : FE) | LoadSignatures (e : option SE) | LoadCjson (e : FormatError) | LoadJson (e : option JE) | LoadGit (e : GE).
Arguments MissingDoc {GE SE JE FE}. Arguments MissingRoot {GE SE JE FE}. Arguments DigestMismatch {GE SE JE FE}.
Arguments NotABlob {GE SE JE FE} path kind. Arguments LoadDelegation {GE SE JE FE} e. Arguments LoadSignatures {GE SE JE FE} e.
Arguments LoadCjson {GE SE JE FE} e. Arguments LoadJson {GE SE JE FE} e. Arguments LoadGit {GE SE JE FE} e.
Inductive StoreError (GE S : Type) : Type := DocSigner (e : S) | DocCjson (e : FormatError) | DocGit (e : GE).
Arguments DocSigner {GE S} e. Arguments DocCjson {GE S} e. Arguments DocGit {GE S} e.

Section Json.
Context `{SerdeJson}.
(** What the canonical formatter is given. *)
Fixpoint js_svalue (j : Json) : SValue :=
  match j with
  | JsNull => SNull
  | JsBool b => SBool b
  | JsNum (U64 n) => SUint n
  | JsNum (I64 z) => SInt z
  | JsFloat _ => SFloat
  | JsStr s => SString (str_pieces s)
  | JsArr l => SArray (map js_svalue l)
  | JsObj m => SObject (map (fun kv => (str_pieces kv.1, js_svalue kv.2)) m)
  end.
End Json.

Section Docs.
Context {W GE Sig D MB MH IE NE S : Type}.
Context `{IdentityGit W GE} `{KeyText Sig D} `{HasProtocol N MH IE} `{Multibase MB} `{PercentEncoding} `{UrlLib} `{OidText}.
Context `{Nfc} `{CompactFormatter} `{Serializer} `{SerdeJson} `{Nom NE} `{Alphanumeric}.
Abbreviation UE := (FromStr (DecodeId MB MH IE)) (only parsing).
Abbreviation JE := (SerdeError D UE) (only parsing).
Abbreviation LoadE := (Load GE (SignaturesError D NE) JE (@FromIterError N)) (only parsing).

(** ** Documents of persons and projects *)

Definition person_payload_json : Payload Payload.Person -> Json := payload_serialize (D := D) (UE := UE).
Definition project_payload_json : Payload Payload.Project -> Json := payload_serialize (D := D) (UE := UE).
Definition person_doc_json : Doc (Payload Payload.Person) (gset N) N -> Json := doc_json person_payload_json person_delegations_json.
Definition project_doc_json : Doc (Payload Payload.Project) (list KeyOrUrn) N -> Json := doc_json project_payload_json (project_delegations_json (MB := MB)).
Definition person_doc_of (j : Json) : eff JE (Doc (Payload Payload.Person) (gset N) N) :=
  doc_of_json payload_deserialize person_delegations_of_json j.
Definition project_doc_of (j : Json) : eff JE (Doc (Payload Payload.Project) (list KeyOrUrn) N) :=
  doc_of_json payload_deserialize project_delegations_of_json j.

(** [SomeDoc] *)
Inductive SomeDoc :=
| DocPerson (d : Doc (Payload Payload.Person) (gset N) N)
| DocProject (d : Doc (Payload Payload.Project) (list KeyOrUrn) N).
Definition some_doc_json (d : SomeDoc) : Json := match d with DocPerson d => person_doc_json d | DocProject d => project_doc_json d end.
Definition some_doc_of (j : Json) : eff JE SomeDoc :=
  d ← doc_of_json some_payload_of_json some_delegations_of_json j;
  match payload d, delegations d with
  | PayloadPerson p, DelegationsPerson g => EOk (DocPerson (MkDoc (version d) (replaces_field d) p g))
  | PayloadProject p, DelegationsProject g => EOk (DocProject (MkDoc (version d) (replaces_field d) p g))
  | PayloadProject p, DelegationsPerson g =>
      EOk (DocProject (MkDoc (version d) (replaces_field d) p (project_delegations_from_iter (inl <$> bset_iter g))))
  | _, _ => EErr NoVariant
  end.

(** ** Loading *)

Definition signatures_of_commit (c : GitCommit) : result (option (SignaturesError D NE)) (gmap N Sig) :=
  match gc_message c with None => Err None | Some msg => map_err Some (from_trailers msg) end.
(** [Cjson::from_slice] *)
Definition doc_from_slice {A} (of_json : Json -> eff JE A) (bs : list N) : eff LoadE A :=
  match from_slice bs with None => EErr (LoadJson None) | Some j => eff_map_err (LoadJson ∘ Some) (of_json j) end.

(** [TryFrom<ByOid> for Any]: the entries of the tree, and the identity. *)
Definition any_try_from {A} (to_json : A -> Json) (of_json : Json -> eff JE A) (w : W) (oid : N) :
    eff LoadE (list TreeEntry * Identity A N N Sig) :=
  commit ← of_res_with LoadGit (ig_find_commit w oid);
  tree ← of_res_with LoadGit (ig_find_tree w (gc_tree commit));
  entry ← of_res (ok_or (hd_error (filter (fun e => te_kind e = KBlob) tree)) MissingDoc);
  root ← of_res (ok_or (oid_from_str (te_name entry)) (LoadGit ig_bad_oid));
  doc_blob ← of_res_with LoadGit (ig_find_blob w (te_id entry));
  _ ← (match ig_find_blob w root with
       | Ok _ => EOk tt
       | Err e => EErr (if ig_not_found e then MissingRoot else LoadGit e)
       end);
  doc ← doc_from_slice of_json doc_blob;
  canonical ← of_res_with LoadCjson (canonical_form (js_svalue (to_json doc)));
  hash ← of_res_with LoadGit (ig_hash_blob canonical);
  if negb (hash =? te_id entry) then EErr DigestMismatch else
  signatures ← of_res_with LoadSignatures (signatures_of_commit commit);
  EOk (tree, MkIdentity oid root (gc_tree commit) doc signatures).

Abbreviation PersonId := (Identity (Doc (Payload Payload.Person) (gset N) N) N N Sig) (only parsing).
Abbreviation Indirects := (Indirect (Payload Payload.Person) N N Sig) (only parsing).
Abbreviation ProjectId := (Identity (Doc (Payload Payload.Project) Indirects N) N N Sig) (only parsing).
Inductive SomeId := SomePerson (p : PersonId) | SomeProject (p : ProjectId).

(** [Identity] as it is inlined. *)
Definition CONTENT_ID : list N := str "content_id".
Definition ROOT : list N := str "root".
Definition REVISION : list N := str "revision".
Definition DOC : list N := str "doc".
Definition SIGNATURES : list N := str "signatures".
Definition signatures_json (sigs : gmap N Sig) : Json := JsObj (map (fun kv => (key_to_string kv.1, JsStr (sig_to_string kv.2))) (btree_iter sigs)).
Definition signatures_of_json (j : Json) : eff JE (gmap N Sig) :=
  match j with
  | JsObj m => eff_fold (fun acc kv =>
      k ← of_res_with BadKey (key_deserialize kv.1);
      s ← (match kv.2 with JsStr s => of_res_with BadSig (sig_deserialize s) | _ => EErr WrongType end);
      EOk (<[k := s]> acc)) ∅ m
  | _ => EErr WrongType
  end.
Definition inlined_json (p : PersonId) : Json :=
  JsObj [(CONTENT_ID, oid_json (content_id p)); (ROOT, oid_json (root p)); (REVISION, oid_json (revision p));
    (DOC, person_doc_json (doc p)); (SIGNATURES, signatures_json (signatures p))].
Record InlinedFields := MkInlinedFields { if_content_id : option N; if_root : option N; if_revision : option N;
  if_doc : option (Doc (Payload Payload.Person) (gset N) N); if_signatures : option (gmap N Sig) }.
Definition inlined_visit (acc : InlinedFields) (kv : list N * Json) : eff JE InlinedFields :=
  let '(MkInlinedFields c r v d s) := acc in
  if bool_decide (kv.1 = CONTENT_ID) then c ← field CONTENT_ID oid_of_json c kv.2; EOk (MkInlinedFields c r v d s)
  else if bool_decide (kv.1 = ROOT) then r ← field ROOT oid_of_json r kv.2; EOk (MkInlinedFields c r v d s)
  else if bool_decide (kv.1 = REVISION) then v ← field REVISION oid_of_json v kv.2; EOk (MkInlinedFields c r v d s)
  else if bool_decide (kv.1 = DOC) then d ← field DOC person_doc_of d kv.2; EOk (MkInlinedFields c r v d s)
  else if bool_decide (kv.1 = SIGNATURES) then s ← field SIGNATURES signatures_of_json s kv.2; EOk (MkInlinedFields c r v d s)
  else EOk acc.
Definition inlined_of (j : Json) : eff JE PersonId :=
  match j with
  | JsObj m =>
      f ← eff_fold inlined_visit (MkInlinedFields None None None None None) m;
      c ← required CONTENT_ID (if_content_id f); r ← required ROOT (if_root f); v ← required REVISION (if_revision f);
      d ← required DOC (if_doc f); s ← required SIGNATURES (if_signatures f);
      EOk (MkIdentity c r v d s)
  | JsArr l =>
      '(c, l) ← element oid_of_json l; '(r, l) ← element oid_of_json l; '(v, l) ← element oid_of_json l;
      '(d, l) ← element person_doc_of l; '(s, l) ← element signatures_of_json l;
      no_more l (MkIdentity c r v d s)
  | _ => EErr WrongType
  end.

(** [resolve_inlined_person] *)
Definition tree_entry (tree : list TreeEntry) (name : list N) : option TreeEntry := hd_error (filter (fun e => te_name e = name) tree).
Definition resolve_inlined_person (w : W) (tree : list TreeEntry) (urn : UrnText.Urn N) : eff LoadE PersonId :=
  let id := urn_encode_id (MB := MB) urn in
  dir ← of_res (ok_or (tree_entry tree DELEGATIONS) (LoadGit ig_no_entry));
  sub ← of_res_with LoadGit (ig_find_tree w (te_id dir));
  entry ← of_res (ok_or (tree_entry sub id) (LoadGit ig_no_entry));
  kind ← of_res_with LoadGit (ig_object_kind w (te_id entry));
  if negb (bool_decide (kind = KBlob)) then EErr (NotABlob (DELEGATIONS ++ slash :: id) kind) else
  blob ← of_res_with LoadGit (ig_find_blob w (te_id entry));
  doc_from_slice inlined_of blob.

Definition resolve_delegation (w : W) (tree : list TreeEntry) (d : KeyOrUrn) : eff LoadE (N + PersonId) :=
  match d with inl key => EOk (inl key) | inr urn => p ← resolve_inlined_person w tree urn; EOk (inr p) end.
Definition resolve_project (w : W) (tree : list TreeEntry) (i : Identity (Doc (Payload Payload.Project) (list KeyOrUrn) N) N N Sig) : eff LoadE ProjectId :=
  ds ← eff_map (resolve_delegation w tree) (delegations (doc i));
  ind ← of_res_with LoadDelegation (try_from_iter ds);
  EOk (MkIdentity (content_id i) (root i) (revision i) (second (fun _ => ind) (doc i)) (signatures i)).

Definition person_try_from (w : W) (oid : N) : eff LoadE PersonId :=
  '(_, i) ← any_try_from person_doc_json person_doc_of w oid; EOk i.
Definition project_try_from (w : W) (oid : N) : eff LoadE ProjectId :=
  '(tree, i) ← any_try_from project_doc_json project_doc_of w oid; resolve_project w tree i.
Definition some_try_from (w : W) (oid : N) : eff LoadE SomeId :=
  '(tree, i) ← any_try_from some_doc_json some_doc_of w oid;
  match doc i with
  | DocPerson d => EOk (SomePerson (MkIdentity (content_id i) (root i) (revision i) d (signatures i)))
  | DocProject d => p ← resolve_project w tree (MkIdentity (content_id i) (root i) (revision i) d (signatures i)); EOk (SomeProject p)
  end.

(** The methods of [SomeIdentity]. *)
Definition some_id_urn (i : SomeId) : UrnText.Urn N := match i with SomePerson p => urn_new (root p) | SomeProject p => urn_new (root p) end.
Definition some_id_person (i : SomeId) : option PersonId := match i with SomePerson p => Some p | SomeProject _ => None end.
Definition some_id_project (i : SomeId) : option ProjectId := match i with SomeProject p => Some p | SomePerson _ => None end.
Definition some_id_payload (i : SomeId) : SomePayload :=
  match i with SomeProject p => PayloadProject (payload (doc p)) | SomePerson p => PayloadPerson (payload (doc p)) end.
Definition some_id_content_id (i : SomeId) : N := match i with SomeProject p => content_id p | SomePerson p => content_id p end.

(** ** Storing *)

Abbreviation StoreE := (StoreError GE S) (only parsing).
Let M := st W StoreE.

Definition git {A} (m : st W GE A) : M A := fun w => let '(r, w) := m w in (eff_map_err DocGit r, w).
Definition write_json (j : Json) : M N :=
  bs ← lift (of_res_with DocCjson (canonical_form (js_svalue j))); git (ig_blob bs).

(** [TreeBuilder::insert]: replaces the entry of that name. *)
Definition builder_insert (e : TreeEntry) (b : list TreeEntry) : M (list TreeEntry) := fun w =>
  match ig_builder_insert w e with
  | Ok _ => (EOk (filter (fun x => te_name x <> te_name e) b ++ [e]), w)
  | Err err => (EErr (DocGit err), w)
  end.

(** [commit] *)
Definition commit_identity (message : list N) (sigs : gmap N Sig) (revision : N) (parents : list N) : M N :=
  _ ← reads (fun w => of_res_with DocGit (ig_find_tree w revision));
  _ ← reads (fun w => eff_map (fun p => of_res_with DocGit (ig_find_commit w p)) parents);
  _ ← reads (fun w => of_res_with DocGit (ig_signature w));
  msg ← lift (of_out (message_new (E := NE) message sigs []));
  git (ig_commit (message_display msg) revision parents).

Definition sign_rev (signer : GitIdentity.Signer Sig S) (revision : N) : M (gmap N Sig) :=
  kv ← lift (of_res_with DocSigner (GitIdentity.sign signer revision)); mret {[ kv.1 := kv.2 ]}.

Definition person_base (pay : Payload Payload.Person) (g : gset N) : M (Doc (Payload Payload.Person) (gset N) N * N) :=
  let doc := MkDoc 0 None pay g in
  root ← write_json (person_doc_json doc);
  mret (doc, root).
Definition person_create (pay : Payload Payload.Person) (g : gset N) (signer : GitIdentity.Signer Sig S) : M PersonId :=
  '(doc, root) ← person_base pay g;
  b ← builder_insert (MkTreeEntry (oid_to_string root) KBlob root) [];
  revision ← git (ig_builder_write b);
  sigs ← sign_rev signer revision;
  content_id ← commit_identity (str "Initialised personal identity " ++ oid_to_string root) sigs revision [];
  mret (MkIdentity content_id root revision doc sigs).
(** A new revision with another document. *)
Definition person_replace (base : PersonId) (doc : Doc (Payload Payload.Person) (gset N) N) (signer : GitIdentity.Signer Sig S) : M PersonId :=
  doc_blob ← write_json (person_doc_json doc);
  base_tree ← reads (fun w => of_res_with DocGit (ig_find_tree w (revision base)));
  b ← builder_insert (MkTreeEntry (oid_to_string (root base)) KBlob doc_blob) base_tree;
  rev ← git (ig_builder_write b);
  if rev =? revision base then mret base else
  sigs ← sign_rev signer rev;
  content_id ← commit_identity (str "Updated to revision " ++ oid_to_string rev) sigs rev [content_id base];
  mret (MkIdentity content_id (root base) rev doc sigs).
Definition person_update (base : PersonId) (pay : option (Payload Payload.Person)) (g : option (gset N))
    (signer : GitIdentity.Signer Sig S) : M PersonId :=
  match pay, g with
  | None, None => mret base
  | _, _ =>
      person_replace base (MkDoc 0 (Some (revision base)) (default (payload (doc base)) pay) (default (delegations (doc base)) g)) signer
  end.

(** [From<Indirect> for ProjectDelegations] *)
Definition project_delegations_from (ind : Indirects) : list KeyOrUrn :=
  project_delegations_from_iter (map (fun d : N + PersonId => match d with inl k => inl k | inr p => inr (urn_new (root p)) end) (indirect_iter ind)).

Fixpoint inline_persons (ps : list PersonId) (b : list TreeEntry) : M (list TreeEntry) :=
  match ps with
  | [] => mret b
  | p :: ps =>
      inlined ← write_json (inlined_json p);
      b ← builder_insert (MkTreeEntry (urn_encode_id (MB := MB) (urn_new (root p))) KBlob inlined) b;
      inline_persons ps b
  end.
Definition inline_indirect (tree : list TreeEntry) (ind : Indirects) : M (list TreeEntry) :=
  b ← inline_persons (iter_indirect (indirect_iter ind)) [];
  subtree ← git (ig_builder_write b);
  builder_insert (MkTreeEntry DELEGATIONS KTree subtree) tree.

Definition project_base (pay : Payload Payload.Project) (ind : Indirects) : M (Doc (Payload Payload.Project) (list KeyOrUrn) N * N) :=
  let doc := MkDoc 0 None pay (project_delegations_from ind) in
  root ← write_json (project_doc_json doc);
  mret (doc, root).
Definition project_create (pay : Payload Payload.Project) (ind : Indirects) (signer : GitIdentity.Signer Sig S) : M ProjectId :=
  '(doc, root) ← project_base pay ind;
  b ← inline_indirect [] ind;
  b ← builder_insert (MkTreeEntry (oid_to_string root) KBlob root) b;
  revision ← git (ig_builder_write b);
  sigs ← sign_rev signer revision;
  content_id ← commit_identity (str "Initialised project identity " ++ oid_to_string root) sigs revision [];
  mret (MkIdentity content_id root revision (second (fun _ => ind) doc) sigs).
Definition project_update (base : ProjectId) (pay : option (Payload Payload.Project)) (ind : option Indirects)
    (signer : GitIdentity.Signer Sig S) : M ProjectId :=
  match pay, ind with
  | None, None => mret base
  | _, _ =>
      let doc := MkDoc 0 (Some (revision base)) (default (payload (doc base)) pay) (project_delegations_from (default (delegations (doc base)) ind)) in
      base_tree ← reads (fun w => of_res_with DocGit (ig_find_tree w (revision base)));
      b ← (match ind with Some ind => inline_indirect base_tree ind | None => mret base_tree end);
      doc_blob ← write_json (project_doc_json doc);
      b ← builder_insert (MkTreeEntry (oid_to_string (root base)) KBlob doc_blob) b;
      rev ← git (ig_builder_write b);
      if rev =? revision base then mret base else
      sigs ← sign_rev signer rev;
      content_id ← commit_identity (str "Updated to revision " ++ oid_to_string rev) sigs rev [content_id base];
      mret (MkIdentity content_id (root base) rev (second (fun _ => default (delegations (Identity.doc base)) ind) doc) sigs)
  end.
End Docs.

(** ** Laws *)

(** *** JSON text *)

(** The text of a value as RFC 8259 has it, without white space, members in the order given: quotes, backslashes and control
    characters are escaped. *)
Definition escape_of (c : N) : option CharEscape :=
  if c =? 34 then Some Quote else if c =? 92 then Some ReverseSolidus else if c =? 8 then Some Backspace
  else if c =? 9 then Some Tab else if c =? 10 then Some LineFeed else if c =? 12 then Some FormFeed
  else if c =? 13 then Some CarriageReturn else if c <? 32 then Some (AsciiControl c) else None.
Definition escape_char (c : N) : list N := match escape_of c with Some e => escape_text e | None => [c] end.
Definition escape (s : list N) : list N := concat (map escape_char s).
Fixpoint json_text (j : Json) : list N :=
  match j with
  | JsNull | JsFloat _ => str "null"
  | JsBool b => if b then str "true" else str "false"
  | JsNum n => number_text n
  | JsStr s => string_text (escape s)
  | JsArr l => between 91 93 (intercalate (map json_text l))
  | JsObj m => between 123 125 (intercalate (map (fun kv => string_text (escape kv.1) ++ 58 :: json_text kv.2) m))
  end.
(** Values with nothing special about them but what strings hold: members in order, with keys of characters above the quotation
    mark and no backslash, numbers within range, no floating point numbers. *)
Fixpoint js_ordered (j : Json) : bool :=
  match j with
  | JsNum n => number_ok n
  | JsFloat _ => false
  | JsArr l => forallb js_ordered l
  | JsObj m => keys_sorted m && forallb (fun kv => plain_string kv.1 && js_ordered kv.2) m
  | _ => true
  end.

(** The characters a piece of a string stands for, and that it is escaped where it needs to be. *)
Definition piece_source (p : Piece) : list N :=
  match p with
  | Fragment s => s
  | Escape e => [match e with Quote => 34 | ReverseSolidus => 92 | Solidus => 47 | Backspace => 8 | FormFeed => 12 | LineFeed => 10
                 | CarriageReturn => 13 | Tab => 9 | AsciiControl b => b end]
  end.
Definition piece_ok (p : Piece) : Prop :=
  match p with
  | Fragment s => Forall (fun c => escape_of c = None) s
  | Escape e => Forall (fun c => escape_of c = Some e) (piece_source p)
  end.

(** [serde_json] reads JSON, an object with its members in the order of the text; and it splits a string into what is escaped
    and what is not. *)
Class SerdeJsonLaws `{SerdeJson} := {
  from_slice_text m : js_ordered (JsObj m) = true -> from_slice (json_text (JsObj m)) = Some (JsObj m);
  str_pieces_source s : concat (map piece_source (str_pieces s)) = s;
  str_pieces_ok s : Forall piece_ok (str_pieces s);
}.

(** What the formatter writes as JSON that is read back: text whose unescaped parts are normalized, members with different keys,
    of characters above the quotation mark and no backslash, numbers within range, no floating point numbers. *)
Definition string_plain `{Nfc} `{SerdeJson} (s : list N) : bool :=
  forallb (fun p => match p with Fragment f => bool_decide (nfc f = f) | Escape _ => true end) (str_pieces s).
Fixpoint js_plain `{Nfc} `{SerdeJson} (j : Json) : bool :=
  match j with
  | JsNum n => number_ok n
  | JsFloat _ => false
  | JsStr s => string_plain s
  | JsArr l => forallb js_plain l
  | JsObj m => bool_decide (NoDup m.*1) && forallb (fun kv => string_plain kv.1 && plain_string kv.1 && js_plain kv.2) m
  | _ => true
  end.

Lemma keys_sorted_fmap {V V'} (f : V -> V') (m : list (list N * V)) : keys_sorted (map (fun kv => (kv.1, f kv.2)) m) = keys_sorted m.
Proof.
  induction m as [|kv m IH]; [done|]. cbn [map keys_sorted]. rewrite IH. f_equal. clear IH.
  induction m as [|x m IH]; [done|]. cbn [map forallb]. by rewrite IH.
Qed.
(** Sorting by key and sorting by quoted key are the same. *)
Lemma quoted_collect {V} (g : V -> list N) (m : list (list N * V)) : NoDup m.*1 -> Forall (fun kv => plain_string kv.1 = true) m ->
  map_collect (map (fun kv => (string_text kv.1, g kv.2)) m) = map (fun kv => (string_text kv.1, g kv.2)) (map_collect m).
Proof.
  intros Hnd Hp. assert (map_collect m ≡ₚ m) as Hm by (by apply map_collect_of).
  rewrite <- (map_collect_perm (map (fun kv => (string_text kv.1, g kv.2)) (map_collect m))).
  - apply map_collect_sorted, quoted_sorted; [apply map_collect_keys_sorted|]. apply forallb_forall. intros kv Hkv%list_elem_of_In.
    rewrite Hm in Hkv. rewrite Forall_forall in Hp. by apply Hp.
  - by apply Permutation_map.
  - rewrite Hm. change (map ?f m) with (f <$> m). rewrite <- list_fmap_compose. cbn.
    assert (Hinj : NoDup ((fun k => string_text k) <$> m.*1)).
    { apply NoDup_fmap_2; [|done]. intros a b. unfold string_text, between. intros [= Heq]. by apply app_inj_2 in Heq as [-> _]. }
    by rewrite <- list_fmap_compose in Hinj.
Qed.
Lemma escape_none s : Forall (fun c => escape_of c = None) s -> escape s = s.
Proof. induction 1 as [|c s Hc _ IH]; [done|]. cbn. unfold escape_char at 1. rewrite Hc. cbn. f_equal. exact IH. Qed.
Lemma plain_escape s : plain_string s = true -> escape s = s.
Proof.
  intros Hs. apply escape_none, Forall_forall. intros c Hc%list_elem_of_In.
  apply (proj1 (forallb_forall _ _) Hs), andb_prop in Hc as [Hl%N.ltb_lt Hb%negb_true_iff]. unfold escape_of.
  assert (forall d, d <= 34 -> (c =? d) = false) as Hne by (intros d Hd; apply N.eqb_neq; lia).
  rewrite Hb, !Hne by lia. by rewrite (proj2 (N.ltb_ge _ _)) by lia.
Qed.

Section Written.
Context `{Nfc} `{CompactFormatterLaws} `{Serializer} `{SerdeJson} `{!SerdeJsonLaws}.

(** A string is written with its escapes. *)
Lemma pieces_escape s : string_plain s = true -> pieces_text (str_pieces s) = string_text (escape s).
Proof.
  intros Hp. unfold pieces_text, string_text, between. destruct c_string_law as [-> ->]. cbn [app]. f_equal. f_equal.
  rewrite <- (str_pieces_source s) at 2. pose proof (str_pieces_ok s) as Hok. unfold string_plain in Hp. revert Hp.
  induction Hok as [|p ps Hpo _ IH]; [done|]. cbn [forallb map concat fmap list_fmap]. intros [Hn Hps]%andb_prop.
  unfold escape in *. rewrite map_app, concat_app. rewrite <- IH by done. f_equal. destruct p as [f|e]; cbn [piece_text piece_source piece_ok] in *.
  - apply bool_decide_eq_true in Hn as ->. symmetry. by apply escape_none.
  - rewrite c_char_escape_law. apply Forall_cons in Hpo as [Hpo _]. cbn [map concat]. unfold escape_char. rewrite Hpo. by rewrite app_nil_r.
Qed.

Lemma render_json j : js_plain j = true -> render (js_svalue j) = Ok (json_text (to_value j)) /\ js_ordered (to_value j) = true.
Proof.
  induction j as [|b|[n|z]|f|s|l IH|m IH] using js_ind; intros Hp; cbn [js_plain js_svalue to_value json_text js_ordered render] in *.
  - by rewrite c_null_law.
  - by rewrite c_bool_law.
  - by rewrite c_uint_law.
  - by rewrite c_int_law.
  - done.
  - by rewrite pieces_escape.
  - rewrite Forall_forall in IH.
    assert (Hall : forall j, j ∈ l -> js_plain j = true) by (intros j Hj; apply (proj1 (forallb_forall _ _) Hp); by apply list_elem_of_In).
    rewrite (collect_ok_map _ _ (fun j => json_text (to_value j))) by (apply Forall_forall; intros j Hj; by apply IH, Hall).
    cbn [map_ok]. destruct c_array_law as (-> & -> & ->).
    rewrite (each_intercalate _ (fun t => t)) by (intros; rewrite c_array_value_law; cbn [app]; by rewrite app_nil_r).
    rewrite map_id, map_map, forallb_map. split; [done|]. apply forallb_forall; intros j Hj%list_elem_of_In; by apply IH, Hall.
  - apply andb_prop in Hp as [Hnd%bool_decide_eq_true Hp]. rewrite Forall_forall in IH.
    assert (Hall : forall kv, kv ∈ m -> string_plain kv.1 = true /\ plain_string kv.1 = true /\ js_plain kv.2 = true).
    { intros kv Hkv%list_elem_of_In. by apply (proj1 (forallb_forall _ _) Hp) in Hkv as [[? ?]%andb_prop ?]%andb_prop. }
    set (c := map_collect (map (fun kv => (kv.1, to_value kv.2)) m)).
    assert (Hnd' : NoDup (map (fun kv => (kv.1, to_value kv.2)) m).*1) by (change (map ?f m) with (f <$> m); rewrite <- list_fmap_compose; exact Hnd).
    assert (Hc : forall kv, kv ∈ c -> plain_string kv.1 = true /\ js_ordered kv.2 = true).
    { intros kv Hkv. unfold c in Hkv. rewrite map_collect_of in Hkv by done. apply list_elem_of_fmap in Hkv as (x & -> & Hx). cbn.
      destruct (Hall x Hx) as (? & ? & ?). split; [done|]. by apply IH. }
    rewrite (collect_ok_map _ _ (fun kv => (string_text kv.1, json_text (to_value kv.2)))).
    + cbn [map_ok]. destruct c_object_law as [-> ->].
      pose proof (quoted_collect json_text (map (fun kv => (kv.1, to_value kv.2)) m) Hnd') as Hq.
      rewrite map_map in Hq. cbn [fst snd] in Hq. rewrite Hq; [|apply Forall_map, Forall_forall; intros kv Hkv; cbn; by destruct (Hall kv Hkv) as (_ & ? & _)]. fold c.
      rewrite (each_intercalate _ (fun kv => kv.1 ++ 58 :: kv.2)) by (intros; by rewrite member_text_eq). unfold between. cbn [app].
      rewrite map_map. cbn [fst snd]. split.
      * do 4 f_equal. apply map_ext_in. intros kv Hkv%list_elem_of_In. by rewrite plain_escape by (by apply Hc).
      * unfold c at 1. rewrite map_collect_keys_sorted. cbn [andb]. apply forallb_forall. intros kv Hkv%list_elem_of_In.
        destruct (Hc kv Hkv) as (Hk & Hv). by rewrite Hk, Hv.
    + apply Forall_forall. intros kv Hkv. cbn [fst snd]. destruct (Hall kv Hkv) as (Hk & Hpk & Hv). destruct (IH kv Hkv Hv) as [-> _]. cbn [map_ok].
      by rewrite pieces_escape, plain_escape by done.
Qed.

(** What the formatter writes is read back. *)
Lemma from_slice_canonical m t : js_plain (JsObj m) = true -> canonical_form (js_svalue (JsObj m)) = Ok t -> from_slice t = Some (to_value (JsObj m)).
Proof.
  intros Hp Hc. destruct (render_json (JsObj m) Hp) as [Hr Ho]. unfold canonical_form in Hc. rewrite serialize_writes, Hr in Hc.
  cbn in Hc. injection Hc as <-. exact (from_slice_text _ Ho).
Qed.
End Written.

(** Nothing that was found is lost. *)
Definition grows {W GE} `{IdentityGit W GE} (w w' : W) : Prop :=
  (forall o c, ig_find_commit w o = Ok c -> ig_find_commit w' o = Ok c) /\
  (forall o t, ig_find_tree w o = Ok t -> ig_find_tree w' o = Ok t) /\
  (forall o b, ig_find_blob w o = Ok b -> ig_find_blob w' o = Ok b).
(** What was written is found, a tree with its entries in git's order. *)
Class IdentityGitLaws (W GE : Type) `{IdentityGit W GE} := {
  ig_blob_found bs w o w' : ig_blob bs w = (EOk o, w') -> ig_find_blob w' o = Ok bs /\ ig_hash_blob bs = Ok o;
  ig_tree_found es w o w' : ig_builder_write es w = (EOk o, w') -> exists es', es' ≡ₚ es /\ ig_find_tree w' o = Ok es';
  ig_commit_found msg t ps w o w' : ig_commit msg t ps w = (EOk o, w') -> ig_find_commit w' o = Ok (MkGitCommit t ps (Some msg));
  ig_blob_grows bs w : grows w (ig_blob bs w).2;
  ig_tree_grows es w : grows w (ig_builder_write es w).2;
  ig_commit_grows msg t ps w : grows w (ig_commit msg t ps w).2;
}.

#[export] Instance grows_preorder {W GE} `{IdentityGit W GE} : PreOrder grows.
Proof. split; [done|]. intros w1 w2 w3 (H1 & H2 & H3) (K1 & K2 & K3). split; [|split]; eauto. Qed.

Section StoreLaws.
Context {W GE Sig D MB MH IE NE S : Type}.
Context `{IdentityGitLaws W GE} `{KeyTextLaws Sig D} `{HasProtocolLaws N MH IE} `{MultibaseLaws MB} `{PercentEncoding} `{UrlLib} `{OidText}.
Context `{Nfc} `{CompactFormatterLaws} `{Serializer} `{SerdeJson} `{!SerdeJsonLaws} `{NomLaws NE} `{Alphanumeric}.
Hypothesis oid_text : forall o, oid_from_str (oid_to_string o) = Some o.
Hypothesis oid_line : forall o, oid_to_string o <> [] /\ Forall (fun c => c <> nl) (oid_to_string o).
Hypothesis person_url : url_parse PERSON_NAMESPACE_V1 = Some PERSON_NAMESPACE_V1.

Abbreviation UE := (FromStr (DecodeId MB MH IE)) (only parsing).
Abbreviation PersonId := (Identity (Doc (Payload Payload.Person) (gset N) N) N N Sig) (only parsing).
Abbreviation doc_text d := (canonical_form (js_svalue (person_doc_json (D := D) (MB := MB) (MH := MH) (IE := IE) d))).

(** A document that can be read back. *)
Definition doc_fine (d : Doc (Payload Payload.Person) (gset N) N) : Prop :=
  payload_ok (D := D) (UE := UE) (payload d) /\ nfc_ok (person_name (subject (payload d))) /\ delegations d <> ∅ /\
  js_plain (person_doc_json (D := D) (MB := MB) (MH := MH) (IE := IE) d) = true.
Definition visible_doc (d : Doc (Payload Payload.Person) (gset N) N) : Doc (Payload Payload.Person) (gset N) N :=
  MkDoc 0 (replaces_field d) (visible (payload d)) (delegations d).

(** An identity and the objects it is stored in. *)
Definition stored (w : W) (i : PersonId) : Prop :=
  exists parents msg t blob bs rb,
    ig_find_commit w (content_id i) = Ok (MkGitCommit (revision i) parents (Some msg)) /\
    from_trailers (E := NE) (D := D) msg = Ok (signatures i) /\
    ig_find_tree w (revision i) = Ok t /\
    filter (fun e => te_kind e = KBlob) t = [MkTreeEntry (oid_to_string (root i)) KBlob blob] /\
    ig_find_blob w blob = Ok bs /\ ig_hash_blob bs = Ok blob /\ ig_find_blob w (root i) = Ok rb /\
    doc_text (doc i) = Ok bs /\ doc_fine (doc i).

Lemma stored_grows w w' i : grows w w' -> stored w i -> stored w' i.
Proof.
  intros (G1 & G2 & G3) (ps & msg & t & blob & bs & rb & Hc & Hm & Ht & Hf & Hb & Hh & Hr & Hd).
  exists ps, msg, t, blob, bs, rb. eauto 20.
Qed.

Lemma doc_fine_read d : doc_fine d -> person_doc_of (D := D) (MB := MB) (MH := MH) (IE := IE) (to_value (person_doc_json (D := D) (MB := MB) (MH := MH) (IE := IE) d)) = EOk (visible_doc d).
Proof using All.
  intros (Hp & Hn & Hg & _). unfold person_doc_of, person_doc_json. apply doc_read; [done| |].
  - by apply payload_roundtrip.
  - rewrite (person_delegations_value (MB := MB) (MH := MH) (IE := IE)). by apply person_delegations_read.
Qed.

(** What is not visible is not written. *)
Lemma visible_json d : person_doc_json (D := D) (MB := MB) (MH := MH) (IE := IE) (visible_doc d) = person_doc_json (D := D) (MB := MB) (MH := MH) (IE := IE) d.
Proof.
  unfold person_doc_json, doc_json, person_payload_json, payload_serialize, visible_doc, visible. cbn.
  by rewrite list_filter_filter_l by done.
Qed.

Lemma stored_load w i : stored w i ->
  person_try_from (NE := NE) (D := D) (MB := MB) (MH := MH) (IE := IE) w (content_id i) =
  EOk (MkIdentity (content_id i) (root i) (revision i) (visible_doc (doc i)) (signatures i)).
Proof using All.
  intros (ps & msg & t & blob & bs & rb & Hc & Hm & Ht & Hf & Hb & Hh & Hr & Hd & Hfine).
  unfold person_try_from, any_try_from. rewrite Hc. cbn [of_res_with map_err of_res mbind eff_bind gc_tree]. rewrite Ht. cbn [of_res_with map_err of_res mbind eff_bind].
  rewrite Hf. cbn [hd_error ok_or of_res mbind eff_bind te_name te_id]. rewrite oid_text. cbn [ok_or of_res mbind eff_bind]. rewrite Hb.
  cbn [of_res_with map_err of_res mbind eff_bind]. rewrite Hr. cbn [mbind eff_bind]. unfold doc_from_slice.
  rewrite (from_slice_canonical _ bs (proj2 (proj2 (proj2 Hfine))) Hd). change (JsObj _) with (person_doc_json (D := D) (MB := MB) (MH := MH) (IE := IE) (doc i)).
  rewrite doc_fine_read by done. cbn [eff_map_err mbind eff_bind]. rewrite visible_json, Hd.
  cbn [of_res_with map_err of_res mbind eff_bind]. rewrite Hh. cbn [of_res_with map_err of_res mbind eff_bind]. rewrite N.eqb_refl. cbn [negb].
  unfold signatures_of_commit. cbn [gc_message]. rewrite Hm. done.
Qed.

Lemma message_line pre o : odd_newlines (pre ++ oid_to_string o) = false.
Proof using oid_line.
  destruct (oid_line o) as [Hne Hl]. unfold odd_newlines. rewrite foldl_app.
  destruct (exists_last Hne) as (l & c & Heq). rewrite Heq in *. apply Forall_app in Hl as [_ Hc]. apply Forall_cons in Hc as [Hc _].
  rewrite foldl_app. cbn. by rewrite (proj2 (N.eqb_neq _ _) Hc).
Qed.

(** *** Steps *)
Lemma git_ran {A} (m : st W GE A) w a w' : git (S := S) m w = (EOk a, w') -> m w = (EOk a, w').
Proof. unfold git. destruct (m w) as [[x|e|] w1]; cbn; by intros [= <- <-]. Qed.
Lemma write_json_ok j w o w' : write_json (S := S) j w = (EOk o, w') ->
  exists bs, canonical_form (js_svalue j) = Ok bs /\ ig_find_blob w' o = Ok bs /\ ig_hash_blob bs = Ok o /\ grows w w'.
Proof using All.
  unfold write_json. intros (bs & w1 & Hb & Hw)%st_bind_ok. unfold lift in Hb. injection Hb as Hb <-. apply of_res_with_ok in Hb.
  apply git_ran in Hw. exists bs. destruct (ig_blob_found _ _ _ _ Hw). pose proof (ig_blob_grows bs w) as Hg. rewrite Hw in Hg. done.
Qed.
Lemma builder_insert_ok e b w b' w' : builder_insert (S := S) e b w = (EOk b', w') -> b' = filter (fun x => te_name x <> te_name e) b ++ [e] /\ w' = w.
Proof. unfold builder_insert. destruct (ig_builder_insert w e); [|done]. by intros [= <- <-]. Qed.
Lemma builder_write_ok b w o w' : git (S := S) (ig_builder_write b) w = (EOk o, w') -> grows w w' /\ exists t, t ≡ₚ b /\ ig_find_tree w' o = Ok t.
Proof using All.
  intros Hg%git_ran. destruct (ig_tree_found _ _ _ _ Hg) as (t & Ht & Hf). pose proof (ig_tree_grows b w) as Hgr. rewrite Hg in Hgr. eauto.
Qed.
Lemma sign_rev_ok signer rev w sigs w' : sign_rev (W := W) (GE := GE) (S := S) signer rev w = (EOk sigs, w') -> w' = w /\ sigs <> (∅ : gmap N Sig).
Proof using All.
  unfold sign_rev. intros ([k sg] & w1 & Hs & Hr)%st_bind_ok. unfold lift in Hs. injection Hs as _ <-.
  injection Hr as <- <-. split; [done|]. apply map_non_empty_singleton.
Qed.
Lemma commit_identity_ok pre o sigs rev ps w c w' : sigs <> (∅ : gmap N Sig) ->
  commit_identity (S := S) (NE := NE) (D := D) (pre ++ oid_to_string o) sigs rev ps w = (EOk c, w') ->
  grows w w' /\ exists msg, ig_find_commit w' c = Ok (MkGitCommit rev ps (Some msg)) /\ from_trailers (E := NE) (D := D) msg = Ok sigs.
Proof using All.
  intros Hs. unfold commit_identity. intros (t & w1 & Ht & Hc)%st_bind_ok. unfold reads in Ht. injection Ht as _ <-.
  apply st_bind_ok in Hc as (ps' & w1 & Hp & Hc). unfold reads in Hp. injection Hp as _ <-.
  apply st_bind_ok in Hc as (sg & w1 & Hp & Hc). unfold reads in Hp. injection Hp as _ <-.
  apply st_bind_ok in Hc as (msg & w1 & Hm & Hc). unfold lift in Hm. injection Hm as Hm <-. apply of_out_ok in Hm. apply git_ran in Hc.
  pose proof (ig_commit_grows (message_display msg) rev ps w) as Hg. rewrite Hc in Hg. split; [done|]. exists (message_display msg).
  split; [by apply ig_commit_found in Hc|].
  destruct (commit_message_roundtrip (E := NE) (D := D) (pre ++ oid_to_string o) sigs [] (or_introl Hs) (Forall_nil_2 _) (Forall_nil_2 _)) as (m & Hm' & Hr).
  rewrite Hm in Hm'. injection Hm' as <-. rewrite message_line in Hr. destruct (from_trailers (message_display msg)) as [sigs'|]; [|by destruct Hr]. by destruct Hr as [_ ->].
Qed.

(** *** Creating and updating *)

Lemma person_create_stored pay g signer w i w' : doc_fine (MkDoc 0 None pay g) ->
  person_create (S := S) (NE := NE) (D := D) (MB := MB) (MH := MH) (IE := IE) pay g signer w = (EOk i, w') ->
  stored w' i /\ doc i = MkDoc 0 None pay g /\ grows w w'.
Proof using All.
  intros Hfine. unfold person_create, person_base.
  intros ([d r] & w1 & Hb & Hc)%st_bind_ok. apply st_bind_ok in Hb as (rt & w0 & Hj & Hret). injection Hret as <- <- <-.
  apply write_json_ok in Hj as (bs & Hbs & Hb & Hh & G1).
  apply st_bind_ok in Hc as (b & w2 & (-> & ->)%builder_insert_ok & Hc).
  apply st_bind_ok in Hc as (rev & w2 & (G2 & t & Ht & Hft)%builder_write_ok & Hc).
  apply st_bind_ok in Hc as (sigs & w3 & (-> & Hs)%sign_rev_ok & Hc).
  apply st_bind_ok in Hc as (c & w3 & (G3 & msg & Hm & Hr)%commit_identity_ok & Hc); [|done]. injection Hc as <- <-.
  split; [|split; [done|by rewrite G1, G2, G3]]. destruct G2 as (_ & _ & G2), G3 as (_ & G3 & G3').
  exists [], msg, t, rt, bs, bs. cbn [content_id revision signatures Identity.root doc]. split_and!; eauto.
  apply Permutation_singleton_r in Ht as ->. done.
Qed.

Lemma filter_blobs_replace (t b : list TreeEntry) e name : t ≡ₚ filter (fun x => te_name x <> name) b ++ [MkTreeEntry name KBlob e] ->
  (forall x, x ∈ b -> te_kind x = KBlob -> te_name x = name) -> filter (fun x => te_kind x = KBlob) t = [MkTreeEntry name KBlob e].
Proof.
  intros Ht Hb. apply Permutation_singleton_r. rewrite Ht, filter_app. cbn.
  assert (filter (fun x => te_kind x = KBlob) (filter (fun x => te_name x <> name) b) = []) as ->; [|done].
  apply filter_none, Forall_forall. intros x [Hn Hx]%list_elem_of_filter Hk. by apply Hn, Hb.
Qed.

Lemma person_replace_stored base d signer w i w' : stored w base -> doc_fine d ->
  person_replace (S := S) (NE := NE) (D := D) (MB := MB) (MH := MH) (IE := IE) base d signer w = (EOk i, w') ->
  stored w' i /\ grows w w' /\ root i = root base /\ (i = base \/ doc i = d).
Proof using All.
  intros Hst Hfine. unfold person_replace. intros (blob & w1 & (bs & Hbs & Hb & Hh & G1)%write_json_ok & Hc)%st_bind_ok.
  destruct (stored_grows _ _ _ G1 Hst) as (ps & msg & t & oblob & obs & rb & Hcm & Hm & Ht & Hf & _ & _ & Hrb & _).
  apply st_bind_ok in Hc as (bt & w2 & Hbt & Hc). unfold reads in Hbt. injection Hbt as Hbt <-. rewrite Ht in Hbt. cbn in Hbt. injection Hbt as <-.
  apply st_bind_ok in Hc as (b & w2 & (-> & ->)%builder_insert_ok & Hc).
  apply st_bind_ok in Hc as (rev & w2 & (G2 & t' & Ht' & Hft)%builder_write_ok & Hc).
  destruct (N.eqb_spec rev (revision base)) as [Heq|Hne].
  { injection Hc as <- <-. split; [by apply (stored_grows w); [rewrite G1, G2|]|]. split; [by rewrite G1, G2|]. eauto. }
  apply st_bind_ok in Hc as (sigs & w3 & (-> & Hs)%sign_rev_ok & Hc).
  apply st_bind_ok in Hc as (c & w3 & (G3 & msg' & Hm' & Hr)%commit_identity_ok & Hc); [|done]. injection Hc as <- <-.
  split; [|split; [by rewrite G1, G2, G3|]; eauto]. destruct G2 as (_ & _ & G2), G3 as (_ & G3 & G3').
  exists [content_id base], msg', t', blob, bs, rb. cbn [content_id revision signatures Identity.root doc]. split_and!; eauto.
  apply (filter_blobs_replace t' t); [done|]. intros x Hx Hk.
  assert (Hin : x ∈ filter (fun e => te_kind e = KBlob) t) by (by apply list_elem_of_filter). rewrite Hf in Hin. by apply list_elem_of_singleton in Hin as ->.
Qed.

(** C10 [person_store_load]: a person whose document has normalized text, members with different keys of characters above the quotation
    mark and no backslash, integers within range and no floating point numbers is, when it was created, loaded from the commit as it was,
    but for extensions that are null; and so is an update of a stored person, which keeps the root and replaces the revision it is made
    from.  The text is written by the formatter of the repository, quotes and control characters escaped, and read as JSON. *)
Theorem person_store_load :
  (forall pay g signer w i w', doc_fine (MkDoc 0 None pay g) ->
     person_create (S := S) (NE := NE) (D := D) (MB := MB) (MH := MH) (IE := IE) pay g signer w = (EOk i, w') ->
     stored w' i /\ doc i = MkDoc 0 None pay g) /\
  (forall base pay g signer w i w', stored w base ->
     doc_fine (MkDoc 0 (Some (revision base)) (default (payload (doc base)) pay) (default (delegations (doc base)) g)) ->
     person_update (S := S) (NE := NE) (D := D) (MB := MB) (MH := MH) (IE := IE) base pay g signer w = (EOk i, w') ->
     stored w' i /\ stored w' base /\ root i = root base /\
     (i = base \/ doc i = MkDoc 0 (Some (revision base)) (default (payload (doc base)) pay) (default (delegations (doc base)) g))) /\
  (forall w i, stored w i ->
     person_try_from (NE := NE) (D := D) (MB := MB) (MH := MH) (IE := IE) w (content_id i) =
     EOk (MkIdentity (content_id i) (root i) (revision i) (visible_doc (doc i)) (signatures i))).
Proof using All.
  split_and!.
  - intros pay g signer w i w' Hf Hc. destruct (person_create_stored _ _ _ _ _ _ Hf Hc) as (? & ? & _). done.
  - intros base pay g signer w i w' Hst Hf Hu. unfold person_update in Hu.
    assert (Hcase : person_replace (S := S) (NE := NE) (D := D) (MB := MB) (MH := MH) (IE := IE) base (MkDoc 0 (Some (revision base)) (default (payload (doc base)) pay) (default (delegations (doc base)) g)) signer w = (EOk i, w') \/ i = base /\ w' = w)
      by (destruct pay, g; [by left..|right; by injection Hu as <- <-]).
    destruct Hcase as [Hr|[-> ->]]; [|split; [done|]; split; [done|]; eauto].
    destruct (person_replace_stored _ _ _ _ _ _ Hst Hf Hr) as (? & ? & ? & ?). split; [done|]. split; [by eapply stored_grows|done].
  - apply stored_load.
Qed.
End StoreLaws.
