(* ===== verification/IdentityWitness.v ===== *)
(** * Identities in a repository in memory

    The interfaces of [IdentityDoc.v] met by concrete functions: a reader of JSON made from the parser of canonical JSON, with its escapes undone, and a store of
    git objects in finite maps, so that a person can be created and loaded by evaluation. *)
From stdpp Require Import base list gmap.
From Stdlib Require Import NArith Lia.
From Stdlib Require String.
Import String.StringSyntax.
From S2P Require Import Prelude Effects RefFormat RefName Scoped Utf8 RefLike Keys UrnText.
From S2P Require Import Trailers CommitMessage CanonicalJson CanonicalFormatter Identity Delegation GitIdentity Payload IdentityDoc.
Import Direct Indirect.
#[local] Open Scope N_scope.

(** ** A reader of JSON *)

#[local] Existing Instance ListStream.list_stream.
#[local] Existing Instance ListStream.list_stream_laws.

(** Strings of a canonical value keep their escapes. *)
Definition hex_value (c : N) : N := if c <? 58 then c - 48 else c - 87.
Definition unescaped (c : N) : N :=
  if c =? 98 then 8 else if c =? 102 then 12 else if c =? 110 then 10 else if c =? 114 then 13 else if c =? 116 then 9 else c.
Fixpoint unescape (s : list N) : list N :=
  match s with
  | [] => []
  | c :: s1 =>
      if c =? 92 then
        match s1 with
        | d :: s2 =>
            if d =? 117 then match s2 with _ :: _ :: h :: l :: s3 => (16 * hex_value h + hex_value l) :: unescape s3 | _ => [] end
            else unescaped d :: unescape s2
        | [] => []
        end
      else c :: unescape s1
  end.
Lemma hex_digit_spec d : d < 16 -> hex_value (hex_digit d) = d /\ is_nonescaped_string_char (hex_digit d) = true /\ hex_digit d <> 92.
Proof.
  intros Hd. unfold hex_value, hex_digit, is_nonescaped_string_char. destruct (N.ltb_spec d 10).
  - rewrite (proj2 (N.ltb_lt _ _)) by lia. split_and!; [lia| |lia].
    rewrite (proj2 (N.leb_le _ _)), !(proj2 (N.eqb_neq _ _)) by lia. done.
  - rewrite (proj2 (N.ltb_ge _ _)) by lia. split_and!; [lia| |lia].
    rewrite (proj2 (N.leb_le _ _)), !(proj2 (N.eqb_neq _ _)) by lia. done.
Qed.
Lemma escape_char_spec c r : unescape (escape_char c ++ r) = c :: unescape r /\ legal (escape_char c ++ r) = legal r.
Proof.
  unfold escape_char, escape_of.
  repeat match goal with |- context [if c =? ?d then _ else _] => destruct (N.eqb_spec c d) as [->|?]; [split; reflexivity|] end.
  destruct (N.ltb_spec c 32) as [Hc|Hc].
  - assert (c / 16 < 16 /\ c mod 16 < 16) as [H1 H2] by (split; [apply N.Div0.div_lt_upper_bound|apply N.mod_lt]; lia).
    destruct (hex_digit_spec _ H1) as (V1 & N1 & Hn1), (hex_digit_spec _ H2) as (V2 & N2 & Hn2).
    cbn [escape_text app unescape legal N.eqb Pos.eqb]. rewrite V1, V2, N1, N2. rewrite <- N.Div0.div_mod.
    apply N.eqb_neq in Hn1 as ->, Hn2 as ->. by rewrite bool_decide_eq_true_2 by (apply (bool_decide_unpack _); reflexivity).
  - cbn [app unescape legal]. rewrite !(proj2 (N.eqb_neq _ _)) by done. unfold is_nonescaped_string_char.
    rewrite (proj2 (N.leb_le _ _)), !(proj2 (N.eqb_neq _ _)) by (done || lia). done.
Qed.
Lemma unescape_escape s : unescape (escape s) = s /\ legal (escape s) = true.
Proof.
  induction s as [|c s [IH1 IH2]]; [done|]. change (escape (c :: s)) with (escape_char c ++ escape s).
  destruct (escape_char_spec c (escape s)) as [-> ->]. by rewrite IH1, IH2.
Qed.

Fixpoint value_of (j : Json) : Value :=
  match j with
  | JsNull | JsFloat _ => Null
  | JsBool b => JBool b
  | JsNum n => JNumber n
  | JsStr s => JString (escape s)
  | JsArr l => Array (map value_of l)
  | JsObj m => CanonicalJson.Object (map (fun kv => (kv.1, value_of kv.2)) m)
  end.
Fixpoint json_of (v : Value) : Json :=
  match v with
  | Null => JsNull
  | JBool b => JsBool b
  | JNumber n => JsNum n
  | JString s => JsStr (unescape s)
  | Array l => JsArr (map json_of l)
  | CanonicalJson.Object m => JsObj (map (fun kv => (kv.1, json_of kv.2)) m)
  end.
#[local] Existing Instance FormatterWitness.plain.
Lemma plain_ok s : plain_string s = true -> string_ok s = true.
Proof. intros Hs. unfold string_ok. rewrite <- (plain_escape s Hs), (proj2 (unescape_escape s)). by apply bool_decide_eq_true. Qed.
Lemma value_of_spec j : js_ordered j = true ->
  json_of (value_of j) = j /\ to_text (value_of j) = json_text j /\ canonical (value_of j) = true.
Proof.
  induction j as [|b|n|f|s|l IH|m IH] using js_ind; try done; cbn [js_ordered value_of json_of to_text json_text canonical]; intros Hf.
  - rewrite (proj1 (unescape_escape s)). unfold string_ok. by rewrite (proj2 (unescape_escape s)), bool_decide_eq_true_2.
  - rewrite !map_map, forallb_map. rewrite Forall_forall in IH.
    assert (Hall : forall j, List.In j l -> json_of (value_of j) = j /\ to_text (value_of j) = json_text j /\ canonical (value_of j) = true).
    { intros j Hj. apply IH; [by apply list_elem_of_In|by apply (proj1 (forallb_forall _ _) Hf)]. }
    split_and!; [|by do 2 f_equal; apply map_ext_in; intros j Hj; apply Hall|by apply forallb_forall; intros j Hj; apply Hall].
    f_equal. rewrite <- (map_id l) at 2. apply map_ext_in. intros j Hj. by apply Hall.
  - apply andb_prop in Hf as [Hs Hf]. rewrite !map_map, forallb_map, keys_sorted_fmap, Hs. cbn [fst snd andb]. rewrite Forall_forall in IH.
    assert (Hall : forall kv, List.In kv m -> plain_string kv.1 = true /\ json_of (value_of kv.2) = kv.2 /\ to_text (value_of kv.2) = json_text kv.2 /\ canonical (value_of kv.2) = true).
    { intros kv Hkv. pose proof (proj1 (forallb_forall _ _) Hf _ Hkv) as [Hk Hv]%andb_prop. split; [done|]. apply IH; [by apply list_elem_of_In|done]. }
    split_and!.
    + f_equal. rewrite <- (map_id m) at 2. apply map_ext_in. intros kv Hj. destruct (Hall _ Hj) as (_ & -> & _). by destruct kv.
    + do 2 f_equal. apply map_ext_in. intros kv Hkv. destruct (Hall _ Hkv) as (Hk & _ & -> & _). by rewrite plain_escape.
    + apply forallb_forall. intros kv Hkv. destruct (Hall _ Hkv) as (Hk & _ & _ & ->). by rewrite plain_ok.
Qed.

Lemma intercalate_length x l : x ∈ l -> (length x <= length (intercalate l))%nat.
Proof.
  induction l as [|y l IH]; [by intros ?%not_elem_of_nil|]. intros [->|Hx]%elem_of_cons.
  - destruct l; [cbn; lia|]. rewrite intercalate_cons, length_app. lia.
  - destruct l as [|z l]; [by apply not_elem_of_nil in Hx|]. rewrite intercalate_cons, length_app. cbn [length]. specialize (IH Hx). lia.
Qed.
Lemma max_list_bound {A} (f : A -> nat) l n : (forall x, x ∈ l -> f x <= n)%nat -> (max_list (map f l) <= n)%nat.
Proof. induction l as [|x l IH]; intros Hl; cbn; [lia|]. pose proof (Hl x ltac:(by left)). assert (max_list (map f l) <= n)%nat by (apply IH; intros; apply Hl; by right). lia. Qed.
Lemma depth_text v : (depth v <= length (to_text v))%nat.
Proof.
  induction v as [m IH|vs IH|s|n|b|] using value_ind; cbn [depth to_text].
  - unfold between. cbn [length]. rewrite length_app. cbn [length]. rewrite Forall_forall in IH.
    enough (max_list (map (fun kv => depth kv.2) m) <= length (intercalate (map (fun kv => string_text kv.1 ++ 58%N :: to_text kv.2) m)))%nat by lia.
    apply max_list_bound. intros kv Hkv. etransitivity; [by apply IH|].
    etransitivity; [|apply intercalate_length, (list_elem_of_fmap_2 (fun kv => string_text kv.1 ++ 58%N :: to_text kv.2)); exact Hkv].
    rewrite length_app. cbn [length]. lia.
  - unfold between. cbn [length]. rewrite length_app. cbn [length]. rewrite Forall_forall in IH.
    enough (max_list (map depth vs) <= length (intercalate (map to_text vs)))%nat by lia.
    apply max_list_bound. intros v Hv. etransitivity; [by apply IH|]. by apply intercalate_length, (list_elem_of_fmap_2 to_text).
  - cbn. lia.
  - destruct (to_text_head (E := unit) (JNumber n)) as (c & s & Hs & _). cbn [to_text] in Hs. rewrite Hs. cbn. lia.
  - destruct b; cbn; lia.
  - cbn. lia.
Qed.

(** Text is read with as much fuel as it is long. *)
Fixpoint split_pieces (s : list N) : list Piece :=
  match s with
  | [] => []
  | c :: s =>
      match escape_of c, split_pieces s with
      | Some e, ps => Escape e :: ps
      | None, Fragment f :: ps => Fragment (c :: f) :: ps
      | None, ps => Fragment [c] :: ps
      end
  end.
#[local] Instance reader : SerdeJson := {|
  from_slice t := match value_from_str (E := unit) (length t) t with Ok v => Some (json_of v) | Err _ => None end;
  str_pieces := split_pieces;
|}.

Lemma escape_source c e : escape_of c = Some e -> piece_source (Escape e) = [c].
Proof.
  unfold escape_of. repeat match goal with |- context [if c =? ?d then _ else _] => destruct (N.eqb_spec c d) as [->|?]; [by intros [= <-]|] end.
  destruct (c <? 32); [by intros [= <-]|done].
Qed.
#[local] Instance reader_laws : SerdeJsonLaws.
Proof.
  split.
  - intros m Ho. destruct (value_of_spec (JsObj m) Ho) as (Hj & Ht & Hc). cbn [from_slice reader]. unfold value_from_str. rewrite <- Ht.
    rewrite <- (app_nil_r (to_text (value_of (JsObj m)))) at 2. rewrite (json_ok (E := unit)); [|done|apply depth_text|done]. f_equal. exact Hj.
  - induction s as [|c s IH]; [done|]. cbn [str_pieces reader split_pieces] in *. destruct (escape_of c) as [e|] eqn:He.
    + cbn [map concat]. rewrite (escape_source c e He). cbn. by rewrite IH.
    + destruct (split_pieces s) as [|[f|e] ps]; cbn in *; by rewrite IH.
  - induction s as [|c s IH]; [constructor|]. cbn [str_pieces reader split_pieces] in *. destruct (escape_of c) as [e|] eqn:He.
    + constructor; [|done]. unfold piece_ok. rewrite (escape_source c e He). by apply Forall_singleton.
    + destruct (split_pieces s) as [|[f|e] ps]; [by repeat constructor| |by repeat (constructor; [by repeat constructor|])].
      apply Forall_cons in IH as [Hf IH]. constructor; [|done]. by constructor.
Qed.

(** ** A store of objects *)

Module Memory.
(** A blob is named by its contents, a tree or a commit by its position. *)
Definition named (bs : list N) : N := Npos (encode bs).
Definition find_blob (s : gset N) (o : N) : result unit (list N) :=
  if bool_decide (o ∈ s) then ok_or (match o with Npos p => decode p | N0 => None end) tt else Err tt.
Definition find_at {A} (l : list A) (o : N) : result unit A := ok_or (l !! N.to_nat o) tt.
Definition position {A} (l : list A) : N := N.of_nat (length l).
Lemma find_named bs s : find_blob ({[ named bs ]} ∪ s) (named bs) = Ok bs.
Proof. unfold find_blob. rewrite bool_decide_eq_true_2 by set_solver. cbn [named]. by rewrite decode_encode. Qed.
Lemma find_blob_grows (s s' : gset N) o bs : s ⊆ s' -> find_blob s o = Ok bs -> find_blob s' o = Ok bs.
Proof. unfold find_blob. intros Hs. case_bool_decide as Ho; [|done]. by rewrite bool_decide_eq_true_2 by set_solver. Qed.
Lemma find_at_grows {A} (l l' : list A) o a : find_at l o = Ok a -> find_at (l ++ l') o = Ok a.
Proof. unfold find_at. destruct (l !! N.to_nat o) eqn:Hl; [|done]. by rewrite (lookup_app_l_Some _ _ _ _ Hl). Qed.
Lemma find_position {A} (l : list A) a : find_at (l ++ [a]) (position l) = Ok a.
Proof. unfold find_at, position. rewrite Nat2N.id. by rewrite lookup_app_r, Nat.sub_diag by lia. Qed.

Record Store := MkStore { s_blobs : gset N; s_trees : list (list TreeEntry); s_commits : list GitCommit }.
#[export] Instance store_git : IdentityGit Store unit := {|
  ig_not_found _ := true;
  ig_find_commit w := find_at (s_commits w);
  ig_find_tree w := find_at (s_trees w);
  ig_find_blob w := find_blob (s_blobs w);
  ig_object_kind w o := Ok (if bool_decide (o ∈ s_blobs w) then KBlob else KTree);
  ig_no_entry := tt; ig_bad_oid := tt;
  ig_hash_blob bs := Ok (named bs);
  ig_blob bs w := (EOk (named bs), MkStore ({[ named bs ]} ∪ s_blobs w) (s_trees w) (s_commits w));
  ig_builder_insert _ _ := Ok tt;
  ig_builder_write es w := (EOk (position (s_trees w)), MkStore (s_blobs w) (s_trees w ++ [es]) (s_commits w));
  ig_signature _ := Ok tt;
  ig_commit msg t ps w := (EOk (position (s_commits w)), MkStore (s_blobs w) (s_trees w) (s_commits w ++ [MkGitCommit t ps (Some msg)]));
|}.
#[export] Instance store_git_laws : IdentityGitLaws Store unit.
Proof.
  split.
  - intros bs w o w' [= <- <-]. split; [apply find_named|done].
  - intros es w o w' [= <- <-]. exists es. split; [done|apply find_position].
  - intros msg t ps w o w' [= <- <-]. apply find_position.
  - intros bs w. split; [done|]. split; [done|]. intros o b. apply find_blob_grows. cbn. set_solver.
  - intros es w. split; [done|]. split; [|done]. intros o t. apply find_at_grows.
  - intros msg t ps w. split; [|done]. intros o c. apply find_at_grows.
Qed.

(** Ids are written in decimal. *)
#[export] Instance decimal_oid : OidText := {| oid_to_string := dec_text; oid_from_str s := Some (digits_value s) |}.
Lemma decimal_text o : oid_from_str (oid_to_string o) = Some o.
Proof. cbn. by rewrite digits_value_dec. Qed.
Lemma dec_text_digits o : Forall (fun c => is_digit c = true) (dec_text o).
Proof. apply uint_text_digits. Qed.
Lemma decimal_line o : oid_to_string o <> [] /\ Forall (fun c => c <> nl) (oid_to_string o).
Proof.
  split; [|eapply Forall_impl; [apply dec_text_digits|]; by intros c Hc ->].
  cbn. destruct (dec_text_shape o) as [->|(c & s & -> & _)]; done.
Qed.
#[export] Instance decimal_ids : HasProtocol N unit unit := {|
  PROTOCOL := str "git";
  id_multihash n := 17 :: dec_text n;
  multihash_from_bytes bs := match bs with c :: d => Ok (c, d) | [] => Err tt end;
  id_try_from mh := Ok (digits_value mh.2);
|}.
#[export] Instance decimal_ids_laws : HasProtocolLaws N unit unit.
Proof.
  split.
  - apply (bool_decide_unpack _). reflexivity.
  - intros n. constructor; [lia|]. eapply Forall_impl; [apply dec_text_digits|]. unfold is_digit. intros c [_ Hc%N.leb_le]%andb_prop. lia.
  - intros n. eexists. split; [done|]. cbn. by rewrite digits_value_dec.
Qed.
#[export] Instance any_url : UrlLib := fun s => Some s.
#[export] Existing Instance percent_encoding_model.
#[export] Existing Instance ZBase32.z_multibase.
#[export] Existing Instance ZBase32.z_multibase_laws.
#[export] Existing Instance UnaryText.unary_text.
#[export] Existing Instance UnaryText.unary_text_laws.
#[export] Existing Instance ascii_alphanumeric.
#[export] Existing Instance ListNom.list_nom.
#[export] Existing Instance ListNom.list_nom_laws.
#[export] Existing Instance FormatterWitness.plain.
#[export] Existing Instance FormatterWitness.compact.
#[export] Existing Instance FormatterWitness.compact_laws.
#[export] Existing Instance FormatterWitness.serializer.
#[export] Existing Instance reader.
#[export] Existing Instance reader_laws.

Definition empty : Store := MkStore ∅ [] [].
Definition signer : GitIdentity.Signer N unit := GitIdentity.MkSigner 3 (fun rev => Ok 7).
Definition alice : Payload Payload.Person := MkPayload (Payload.MkPerson (str "alice")) [(str "https://example.org/ext", JsArr [JsBool true; JsStr (34 :: 10 :: 1 :: str "a b")])].
Abbreviation created pay := (person_create (S := unit) (NE := unit) (D := unit) (MB := unit) (MH := unit) (IE := unit) pay {[ 3 ]} signer empty).
Abbreviation loaded w o := (person_try_from (NE := unit) (D := unit) (MB := unit) (MH := unit) (IE := unit) (Sig := N) w o).

Definition is_ok {E A} (x : eff E A) : bool := match x with EOk _ => true | _ => false end.
Lemma fine0 pay : payload_ok (D := unit) (UE := FromStr (DecodeId unit unit unit)) pay -> js_plain (person_doc_json (D := unit) (MB := unit) (MH := unit) (IE := unit) (MkDoc 0 None pay {[ 3 ]})) = true ->
  doc_fine (D := unit) (MB := unit) (MH := unit) (IE := unit) (MkDoc 0 None pay {[ 3 ]}).
Proof. intros Hp Hj. split; [done|]. split; [done|]. split; [cbn; set_solver|done]. Qed.

Lemma person_store_load_witness : exists i w', created alice = (EOk i, w') /\ loaded w' (content_id i) = EOk i.
Proof.
  destruct (person_store_load (W := Store) (GE := unit) (Sig := N) (D := unit) (MB := unit) (MH := unit) (IE := unit) (NE := unit) (S := unit)
    decimal_text decimal_line eq_refl) as (Hcreate & _ & Hload).
  assert (Hok : is_ok (created alice).1 = true) by (vm_compute; reflexivity).
  destruct (created alice) as [[i|e|] w'] eqn:Hc; [|discriminate Hok..].
  destruct (Hcreate alice {[ 3 ]} signer empty i w') as [Hst Hd].
  - apply fine0; [|vm_compute; reflexivity]. split; [reflexivity|]. constructor; [|constructor]. split; [done|]. split; [vm_compute; reflexivity|reflexivity].
  - exact Hc.
  - exists i, w'. split; [done|]. etransitivity; [exact (Hload w' i Hst)|]. f_equal. destruct i as [c r v d sg]. cbn in Hd. subst d. reflexivity.
Defined.

(** An extension that is null is not written: what is loaded is not what was created. *)
Definition nullified : Payload Payload.Person := MkPayload (Payload.MkPerson (str "alice")) [(str "https://example.org/ext", JsNull)].
Example null_extension_lost : exists i i' w', created nullified = (EOk i, w') /\ payload (doc i) = nullified /\
  loaded w' (content_id i) = EOk i' /\ payload (doc i') = MkPayload (Payload.MkPerson (str "alice")) [].
Proof.
  assert (Hok : is_ok (created nullified).1 = true) by (vm_compute; reflexivity).
  destruct (created nullified) as [[i|e|] w'] eqn:Hc; [|discriminate Hok..].
  assert (Hfine : doc_fine (D := unit) (MB := unit) (MH := unit) (IE := unit) (MkDoc 0 None nullified {[ 3 ]})).
  { apply fine0; [|vm_compute; reflexivity]. split; [reflexivity|]. constructor; [|constructor]. split; [done|]. split; [vm_compute; reflexivity|reflexivity]. }
  destruct (person_create_stored (W := Store) (GE := unit) (Sig := N) (D := unit) (MB := unit) (MH := unit) (IE := unit) (NE := unit) (S := unit)
    decimal_text decimal_line eq_refl nullified {[ 3 ]} signer empty i w' Hfine Hc) as (Hst & Hd & _).
  eexists i, _, w'. split; [done|]. split; [by rewrite Hd|].
  split; [exact (stored_load (W := Store) (GE := unit) (Sig := N) (D := unit) (MB := unit) (MH := unit) (IE := unit) (NE := unit) (S := unit)
    decimal_text decimal_line eq_refl w' i Hst)|]. cbn [doc]. by rewrite Hd.
Qed.
End Memory.
