(* ===== verification/ContextTracking.v ===== *)
(** * Tracking what was replicated

    The implementation of [Tracking] for [Context] in [librad/src/net/replication/context.rs]: after a run of
    [link-replication], the delegates of the identity and the identities they belong to are tracked.  The relations are turned
    into one batch of actions, of which only the first about each URN is kept; since all direct delegations are about the URN
    of the context, at most one of the peers is tracked. *)
From stdpp Require Import base list gmap.
From Stdlib Require Import NArith Lia.
From S2P Require Import Prelude Transmit TrackingConfig.
From S2P Require Import Policy Tracking Batch.

(** ** Configurations in batches *)

#[export] Instance pattern_eq_dec : EqDecision Pattern.
Proof. solve_decision. Defined.
#[export] Instance cobfilter_eq_dec : EqDecision CobFilter.
Proof. solve_decision. Defined.
Definition pattern_key (p : Pattern) : option (gset N) := match p with AnyObject => None | Objects o => Some o end.
Definition pattern_of_key (o : option (gset N)) : Pattern := match o with None => AnyObject | Some o => Objects o end.
Definition filter_key (f : CobFilter) : bool * option (gset N) :=
  (match TrackingConfig.policy f with TrackingConfig.Allow => true | TrackingConfig.Deny => false end, pattern_key (pattern f)).
Definition filter_of_key (k : bool * option (gset N)) : CobFilter :=
  MkFilter (if k.1 then TrackingConfig.Allow else TrackingConfig.Deny) (pattern_of_key k.2).
#[export] Program Instance cobfilter_countable : Countable CobFilter := inj_countable' filter_key filter_of_key _.
Next Obligation. by intros [[] []]. Qed.
#[export] Instance config_eq_dec : EqDecision Config.
Proof. solve_decision. Defined.
#[export] Program Instance config_countable : Countable Config :=
  inj_countable' (fun c => (data c, cobs c)) (fun p => MkConfig p.1 p.2) _.
Next Obligation. by intros []. Qed.

(** ** Operations *)

Definition CONFIG_FULL : Config := MkConfig true allow_all.
Definition CONFIG_MIN : Config := MkConfig false deny_all.

Section Context.
Context {D X : Type} `{Git2} `{Odb D Config}.
Variable self_urn : Urn.

(** The closure of [filter_map] in [track], with the URNs it has seen. *)
Definition track_action (seen : gset Urn) (rel : Rel Urn) : option (Action Config) * gset Urn :=
  match rel with
  | Delegation (inr urn) | SelfRef urn =>
      if bool_decide (urn ∈ seen) then (None, seen)
      else (Some (ATrack urn None CONFIG_MIN TrackMustNotExist), {[ urn ]} ∪ seen)
  | Delegation (inl id) =>
      if bool_decide (self_urn ∈ seen) then (None, seen)
      else (Some (ATrack self_urn (Some id) CONFIG_FULL TrackMustNotExist), {[ self_urn ]} ∪ seen)
  end.
Fixpoint track_actions (seen : gset Urn) (rels : list (Rel Urn)) : list (Action Config) :=
  match rels with
  | [] => []
  | rel :: rels =>
      let '(act, seen) := track_action seen rel in
      match act with Some a => a :: track_actions seen rels | None => track_actions seen rels end
  end.

(** What is reported of an update: [unreachable!] for one that untracks. *)
Definition tracked_of (up : BUpdated) : outcome (PeerId + Urn) :=
  match up with
  | BTracked r => Done (match remote (r_name r) with RDefault => inr (urn (r_name r)) | RPeer id => inl id end)
  | BUntracked _ => Panic
  end.
Fixpoint tracked_all (ups : list BUpdated) : outcome (list (PeerId + Urn)) :=
  match ups with
  | [] => Done []
  | up :: ups => x ← tracked_of up; xs ← tracked_all ups; Done (x :: xs)
  end.

Definition context_track (rels : list (Rel Urn)) (db : Db D X) : outcome (result OpError (list (PeerId + Urn)) * Db D X) :=
  '(res, db) ← batch (track_actions ∅ rels) db;
  match res with
  | Err e => Done (Err e, db)
  | Ok (ups, _) => l ← tracked_all ups; Done (Ok l, db)
  end.

(** [Iterator for Tracked]: default entries are passed over. *)
Fixpoint tracked_policies (items : list (result OpError (Tracked Config))) : list (result OpError (PeerId * DataPolicy)) :=
  match items with
  | [] => []
  | Ok (TrackedDefault _ _) :: items => tracked_policies items
  | Ok (TrackedPeer _ peer config) :: items => Ok (peer, if data config then DAllow else Transmit.Deny) :: tracked_policies items
  | Err e :: items => Err e :: tracked_policies items
  end.
Definition context_tracked (db : Db D X) : list (result OpError (PeerId * DataPolicy)) :=
  tracked_policies (tracked (Some self_urn) db).

(** ** The first relation about an URN *)

Definition rel_urn (rel : Rel Urn) : Urn := match rel with Delegation (inr u) | SelfRef u => u | Delegation (inl _) => self_urn end.
Definition rel_entry (rel : Rel Urn) : option PeerId * Config :=
  match rel with Delegation (inl id) => (Some id, CONFIG_FULL) | _ => (None, CONFIG_MIN) end.
Definition first_about (u : Urn) (rels : list (Rel Urn)) : option (Rel Urn) := head (filter (fun r => rel_urn r = u) rels).
(** What a list of relations adds to an entry that is not there yet. *)
Definition added (rels : list (Rel Urn)) (u : Urn) (peer : option PeerId) : option Config :=
  r ← first_about u rels; if decide ((rel_entry r).1 = peer) then Some (rel_entry r).2 else None.

Lemma track_action_spec seen rel :
  track_action seen rel =
  if decide (rel_urn rel ∈ seen) then (None, seen)
  else (Some (ATrack (rel_urn rel) (rel_entry rel).1 (rel_entry rel).2 TrackMustNotExist), {[ rel_urn rel ]} ∪ seen).
Proof. unfold track_action. by destruct rel as [[id|u]|u]; cbn [rel_urn rel_entry fst snd]; case_bool_decide; case_decide. Qed.

Lemma ops_on_actions u peer rels : forall seen,
  ops_on (u, peer) (track_actions seen rels) =
  if decide (u ∈ seen) then []
  else match added rels u peer with Some c => [inl (MkWithConfig TrackMustNotExist c)] | None => [] end.
Proof.
  induction rels as [|rel rels IH]; intros seen; [by case_decide|].
  cbn [track_actions]. rewrite track_action_spec. unfold added, first_about. rewrite filter_cons. fold (first_about u rels).
  case_decide as Hs; cbn zeta beta.
  - rewrite IH. case_decide as Hu; [done|]. rewrite decide_False by (intros <-; done). done.
  - unfold ops_on. rewrite filter_cons. fold (ops_on (u, peer) (track_actions ({[rel_urn rel]} ∪ seen) rels)). unfold action_key at 1. cbn [action_urn action_peer].
    destruct (decide (rel_urn rel = u)) as [<-|Hne].
    + rewrite (decide_False (P := _ ∈ seen)) by done. cbn [head mbind option_bind].
      assert (ops_on (rel_urn rel, peer) (track_actions ({[rel_urn rel]} ∪ seen) rels) = []) as Ho by (rewrite IH; by rewrite decide_True by set_solver).
      destruct (decide ((rel_entry rel).1 = peer)) as [<-|Hp].
      * rewrite decide_True by done. cbn [fmap list_fmap entry_op]. unfold ops_on in Ho. by rewrite Ho.
      * rewrite decide_False by (intros [= ?]; done). exact Ho.
    + rewrite decide_False by (intros [= ?]; done). fold (ops_on (u, peer) (track_actions ({[rel_urn rel]} ∪ seen) rels)). rewrite IH.
      unfold added. destruct (decide (u ∈ seen)); [by rewrite decide_True by set_solver|by rewrite decide_False by set_solver].
Qed.

(** ** What is reported *)

Lemma update_loop_report refs us : forall t a t' a', update_loop refs us (t, a) = Ok (t', a') ->
  exists xs, Forall2 (fun u x => exists rs, report_ok u (refs !! name_of u) x rs) us xs /\ updates a' = updates a ++ concat xs.
Proof.
  induction us as [|u us IH]; intros t a t' a' Hu; cbn [update_loop] in Hu.
  - simplify_eq. exists []. split; [constructor|]. by rewrite app_nil_r.
  - destruct (update_one refs u (t, a)) as [[t1 a1]|] eqn:E1; [|done]. apply IH in Hu as (xs & Hxs & ->).
    apply update_one_ok in E1 as (_ & x & rs & -> & Hr).
    exists (x :: xs). split; [constructor; eauto|]. cbn. by rewrite app_assoc.
Qed.

(** An action of a batch that only adds. *)
Definition adds (a : Action Config) : Prop := exists c, entry_op a = inl (MkWithConfig TrackMustNotExist c).

Lemma fused_adds rels fused : fuse (track_actions ∅ rels) = Done fused ->
  Forall adds fused /\ (forall u peer, (exists a, a ∈ fused /\ action_key a = (u, peer)) <-> is_Some (added rels u peer)).
Proof.
  intros Hf. destruct (fuse_spec (track_actions ∅ rels)) as (f & Ef & Hs). rewrite Hf in Ef. injection Ef as <-.
  assert (forall k, ops_on k fused = match added rels k.1 k.2 with Some c => [inl (MkWithConfig TrackMustNotExist c)] | None => [] end) as Hk.
  { intros [u peer]. specialize (Hs (u, peer)). rewrite ops_on_actions in Hs. rewrite decide_False in Hs by set_solver. cbn [fst snd].
    destruct (added rels u peer) as [c|]; [|done]. destruct Hs as (r & [= <-] & ->). done. }
  assert (forall a, a ∈ fused -> entry_op a ∈ ops_on (action_key a) fused) as Hin.
  { intros a Ha. apply list_elem_of_fmap. exists a. split; [done|]. by apply list_elem_of_filter. }
  split.
  - apply Forall_forall. intros a Ha. apply Hin in Ha. rewrite Hk in Ha. destruct (added _ _ _) as [c|]; [|by apply elem_of_nil in Ha].
    apply list_elem_of_singleton in Ha. by exists c.
  - intros u peer. specialize (Hk (u, peer)). cbn in Hk. split.
    + intros (a & Ha & E). apply Hin in Ha. rewrite E, Hk in Ha. destruct (added _ _ _); [done|by apply elem_of_nil in Ha].
    + intros [c Hc]. rewrite Hc in Hk. unfold ops_on in Hk.
      destruct (filter _ fused) as [|a l] eqn:El; [done|]. exists a.
      assert (a ∈ filter (fun a => action_key a = (u, peer)) fused) as Ha by (rewrite El; left). apply list_elem_of_filter in Ha. tauto.
Qed.

(** The updates that are reported: one for each action on a reference that was not there. *)
Lemma reported_adds rs d acts us xs : Forall adds acts -> Forall2 (update_of rs d) acts us ->
  Forall2 (fun u x => exists r, report_ok u (rs !! name_of u) x r) us xs ->
  exists l, tracked_all (updated_from <$> concat xs) = Done l /\
    forall y, y ∈ l <-> exists a, a ∈ acts /\ rs !! refname_new (action_urn a) (action_peer a) ≫= target = None /\
      y = match action_peer a with None => inr (urn (refname_new (action_urn a) None)) | Some id => inl id end.
Proof.
  intros Ha Hu. revert xs. induction Hu as [|a u acts us Hau Hu IH]; intros xs Hx; inversion Hx as [|? x ? xs' (r & Hr) Hxs]; subst.
  { exists []. split; [done|]. intros y. split; [by intros ?%elem_of_nil|]. by intros (a & ?%elem_of_nil & _). }
  apply Forall_cons in Ha as [[c Hc] Ha]. destruct (IH Ha _ Hxs) as (l & Hl & Hy).
  pose proof (update_of_name _ _ _ _ Hau) as Hn. destruct a as [n p c' t|]; cbn in Hc; simplify_eq. destruct Hau as (o & _ & ->).
  cbn [name_of action_urn action_peer] in *. cbn [report_ok] in Hr. cbn [concat]. rewrite fmap_app.
  destruct (rs !! refname_new n p ≫= target) as [g|] eqn:Eg; cbn [admits] in Hr.
  - destruct Hr as [-> _]. exists l. split; [exact Hl|]. intros y. rewrite Hy. split.
    + intros (a & Ha' & H1). exists a. split; [by right|done].
    + intros (a & [->|Ha']%elem_of_cons & H1 & H2); [|eauto]. cbn in H1. congruence.
  - destruct Hr as [-> _]. eexists (_ :: l). split; [cbn; by rewrite Hl|]. intros y. rewrite elem_of_cons, Hy. split.
    + intros [->|(a & Ha' & H1)]; [|exists a; split; [by right|done]].
      eexists. split; [left|]. split; [exact Eg|]. by destruct p.
    + intros (a & [->|Ha']%elem_of_cons & H1 & ->); [left; by destruct p|right; eauto].
Qed.

Lemma added_plain rels u peer : urn_path self_urn = None -> Forall (fun r => urn_path (rel_urn r) = None) rels ->
  is_Some (added rels u peer) -> urn_path u = None /\ (peer <> None -> u = self_urn).
Proof.
  intros Hs Hp [c Hc]. unfold added, first_about in Hc. destruct (filter _ rels) as [|r l] eqn:El; [done|]. cbn in Hc.
  assert (r ∈ filter (fun r => rel_urn r = u) rels) as Hr by (rewrite El; left). apply list_elem_of_filter in Hr as [<- Hr].
  rewrite Forall_forall in Hp. split; [by apply Hp|]. case_decide as Hd; [|done]. destruct r as [[id|v]|v]; cbn in *; [done|congruence..].
Qed.
Lemma actions_plain rels : urn_path self_urn = None -> Forall (fun r => urn_path (rel_urn r) = None) rels ->
  forall seen, Forall plain (track_actions seen rels).
Proof.
  intros Hs Hp. induction Hp as [|r rels Hr Hp IH]; intros seen; [constructor|]. cbn [track_actions]. rewrite track_action_spec.
  case_decide; cbn; [apply IH|]. constructor; [done|apply IH].
Qed.

Lemma entry_absent (db : Db D X) u peer : db_ok db -> entry db u peer = None <-> refs db !! refname_new u peer ≫= target = None.
Proof.
  intros Hok. unfold entry. destruct (refs db !! refname_new u peer) as [g|] eqn:Eg; [|done].
  destruct (Hok _ _ Eg) as [c Hc]. rewrite Hc. destruct g as [o|]; [done|]. done.
Qed.
Lemma key_eq (a : Action Config) u peer : action_key a = (u, peer) <-> action_urn a = u /\ action_peer a = peer.
Proof. unfold action_key. split; [by intros [= -> ->]|by intros [-> ->]]. Qed.

(** The reports of the batch. *)
Lemma batch_reports rels (db db' : Db D X) ups rej : batch (track_actions ∅ rels) db = Done (Ok (ups, rej), db') ->
  exists fused l, fuse (track_actions ∅ rels) = Done fused /\ tracked_all ups = Done l /\
    forall y, y ∈ l <-> exists a, a ∈ fused /\ refs db !! refname_new (action_urn a) (action_peer a) ≫= target = None /\
      y = match action_peer a with None => inr (urn (refname_new (action_urn a) None)) | Some id => inl id end.
Proof.
  unfold batch. destruct (fuse_spec (track_actions ∅ rels)) as (fused & Ef & _). rewrite Ef. cbn [mbind outcome_bind].
  destruct (fused_adds rels fused Ef) as [Hadds _]. intros Hb. exists fused.
  destruct (into_updates (refs db) fused ∅ (objects db)) as [us d] eqn:Hi. apply into_updates_spec in Hi as [_ Hus]; [|by intros ? ?].
  destruct us as [us|e]; [|done]. specialize (Hus us eq_refl). cbn [refs set_objects] in Hb.
  destruct (update us (refs db)) as [[a|e] r'] eqn:Hu; [|done]. injection Hb as <- _ _.
  unfold update in Hu. case_match; [done|]. destruct (update_loop _ us _) as [[t a']|] eqn:El; [|done].
  destruct (commit t (queue t) (refs db)) as [[] ?]; [|done]. injection Hu as -> _. apply update_loop_report in El as (xs & Hxs & ->).
  destruct (reported_adds _ _ _ _ _ Hadds Hus Hxs) as (l & Hl & Hy). by exists l.
Qed.
(** A batch that fails. *)
Lemma batch_fails {C} `{Odb D C} `{Countable C} (acts : list (Action C)) (db db' : Db D X) e :
  batch acts db = Done (Err e, db') -> e <> ETxn Commit -> refs db' = refs db.
Proof.
  unfold batch. destruct (fuse acts) as [fused|]; [|done]. cbn [mbind outcome_bind].
  destruct (into_updates (refs db) fused ∅ (objects db)) as [[us|e'] d]; [|by intros [= _ <-]]. cbn [refs set_objects].
  destruct (update us (refs db)) as [[a|e'] r'] eqn:Hu; [done|]. intros [= <- <-] He. eapply update_err; [exact Hu|congruence].
Qed.
Lemma batch_total {C} `{Odb D C} `{Countable C} (acts : list (Action C)) (db : Db D X) : exists r db', batch acts db = Done (r, db').
Proof.
  unfold batch. destruct (fuse_spec acts) as (fused & -> & _). cbn [mbind outcome_bind].
  destruct (into_updates _ _ _ _) as [[us|e] d]; [|by do 2 eexists]. destruct (update _ _) as [[a|e] r']; by do 2 eexists.
Qed.

(** C31 [context_track_exact]: after a run, tracking what it found never panics; when it fails, the references are as they were
    unless committing them failed; when it succeeds, every entry that was there is kept, and an entry that was not is added
    exactly when the first relation about its URN asks for it: with everything for a direct delegate, with nothing for the
    identity of an indirect one.  All direct delegates are relations about the URN of the context, so at most one of them is
    ever tracked.  What is reported are exactly the entries added. *)
Theorem context_track_exact rels (db : Db D X) (Hok : db_ok db) (Hself : urn_path self_urn = None)
    (Hplain : Forall (fun r => urn_path (rel_urn r) = None) rels) :
  exists r db', context_track rels db = Done (r, db') /\
    match r with
    | Err (ETxn Commit) => True
    | Err _ => refs db' = refs db
    | Ok l =>
        (forall i peer, entry db' (MkUrn i None) peer =
          match entry db (MkUrn i None) peer with Some c => Some c | None => added rels (MkUrn i None) peer end) /\
        (forall u, inr u ∈ l <-> entry db u None = None /\ is_Some (added rels u None)) /\
        (forall p, inl p ∈ l <-> entry db self_urn (Some p) = None /\ is_Some (added rels self_urn (Some p)))
    end.
Proof.
  unfold context_track. destruct (batch_total (track_actions ∅ rels) db) as (r & db' & Eb). rewrite Eb. cbn [mbind outcome_bind].
  destruct r as [[ups rej]|e].
  2:{ exists (Err e), db'. split; [done|]. pose proof (batch_fails _ _ _ _ Eb) as Hf.
      destruct e; try (by apply Hf). match goal with x : TxnError |- _ => destruct x; try done; by apply Hf end. }
  destruct (batch_reports _ _ _ _ _ Eb) as (fused & l & Ef & Hl & Hy). destruct (fused_adds rels fused Ef) as [_ Hkeys].
  rewrite Hl. exists (Ok l), db'. split; [done|]. split; [|split].
  - intros i peer. rewrite (batch_entry _ db db' _ i peer Hok (actions_plain rels Hself Hplain ∅) Eb), ops_on_actions.
    rewrite decide_False by set_solver. destruct (added rels (MkUrn i None) peer); cbn; by destruct (entry db (MkUrn i None) peer).
  - intros u. rewrite Hy, entry_absent by done. split.
    + intros (x & Hx & Hn & He). destruct (action_peer x) as [|] eqn:Ep; [done|].
      assert (is_Some (added rels (action_urn x) None)) as Ha by (apply Hkeys; exists x; by rewrite key_eq).
      destruct (added_plain _ _ _ Hself Hplain Ha) as [Hpath _]. unfold refname_new in He. rewrite Hpath in He. cbn in He. injection He as ->. done.
    + intros [Hn Ha]. destruct (added_plain _ _ _ Hself Hplain Ha) as [Hpath _]. apply Hkeys in Ha as (x & Hx & [Hxu Hxp]%key_eq).
      exists x. rewrite Hxu, Hxp. split; [done|]. split; [done|]. unfold refname_new. by rewrite Hpath.
  - intros p. rewrite Hy, entry_absent by done. split.
    + intros (x & Hx & Hn & He). destruct (action_peer x) as [q|] eqn:Ep; [|done]. injection He as ->.
      assert (is_Some (added rels (action_urn x) (Some q))) as Ha by (apply Hkeys; exists x; by rewrite key_eq).
      destruct (added_plain _ _ _ Hself Hplain Ha) as [_ Hu']. rewrite (Hu' ltac:(done)) in *. done.
    + intros [Hn Ha]. apply Hkeys in Ha as (x & Hx & [Hxu Hxp]%key_eq). exists x. rewrite Hxu, Hxp. done.
Qed.

Lemma tracked_policies_ok items p pol : Ok (p, pol) ∈ tracked_policies items <->
  exists u c, Ok (TrackedPeer u p c) ∈ items /\ pol = if data c then DAllow else Transmit.Deny.
Proof.
  induction items as [|[[u c|u q c]|e] items IH]; cbn [tracked_policies].
  - split; [by intros ?%elem_of_nil|by intros (? & ? & ?%elem_of_nil & _)].
  - rewrite IH. split; intros (v & d & Hi & He); exists v, d; [split; [by right|done]|]. by apply elem_of_cons in Hi as [?|?].
  - rewrite elem_of_cons, IH. split.
    + intros [[= -> ->]|(v & d & Hi & He)]; [exists u, c; split; [left|done]|exists v, d; split; [by right|done]].
    + intros (v & d & [[= -> -> ->]|Hi]%elem_of_cons & ->); [by left|right; eauto].
  - rewrite elem_of_cons, IH. split; [intros [?|(v & d & Hi & He)]; [done|]|intros (v & d & [?|Hi]%elem_of_cons & He); [done|]].
    + exists v, d. split; [by right|done].
    + right. eauto.
Qed.
Lemma tracked_policies_no_err items : Forall (fun r => is_ok r = true) items -> Forall (fun r => is_ok r = true) (tracked_policies items).
Proof. induction 1 as [|[[]|] items Hi _ IH]; cbn; [constructor|done|constructor; done|done]. Qed.

(** [context_tracked_exact]: in a database whose references all point to configurations, what the context reports as tracked
    are exactly the peers tracked for its URN, each with whether its data is replicated; default entries are left out. *)
Theorem context_tracked_exact (db : Db D X) : db_ok db -> urn_path self_urn = None ->
  (forall n g, refs db !! n = Some g -> urn_path (urn n) = None) ->
  Forall (fun r => is_ok r = true) (context_tracked db) /\
  forall p pol, Ok (p, pol) ∈ context_tracked db <->
    exists c, entry db self_urn (Some p) = Some c /\ pol = if data c then DAllow else Transmit.Deny.
Proof.
  intros Hok Hself Hpath. destruct (tracked_complete (Some self_urn) db Hok) as [Hf Ht]. split; [by apply tracked_policies_no_err|].
  intros p pol. unfold context_tracked. rewrite tracked_policies_ok. split.
  - intros (u & c & Hi & ->). apply Ht in Hi as (n & c' & He & Hc & [?|(v & [= <-] & Hid)]); [done|].
    exists c. split; [|done]. unfold entry. destruct n as [[|q] u']; cbn in He; [done|]. injection He as -> -> ->.
    destruct (refs db !! MkRefName (RPeer q) u') as [g|] eqn:Eg; [|done].
    assert (refname_new self_urn (Some q) = MkRefName (RPeer q) u') as Hn.
    { apply Hpath in Eg. cbn in Eg, Hid. unfold refname_new. rewrite Hself. cbn. f_equal. destruct self_urn, u'. cbn in *. congruence. }
    by rewrite Hn, Eg.
  - intros (c & He & ->). exists self_urn, c. split; [|done]. apply Ht. exists (refname_new self_urn (Some p)), c.
    assert (urn (refname_new self_urn (Some p)) = self_urn) as Hu by (unfold refname_new; by rewrite Hself).
    split; [unfold from_reference; cbn [remote refname_new remote_from]; by rewrite Hu|]. split; [exact He|]. right. exists self_urn. by rewrite Hu.
Qed.
End Context.

(** ** A store in memory *)

Module ContextMemory.
(** Configurations under their codes: the store is the set of codes written. *)
Definition config_of_code (o : N) : option Config := match o with Npos p => decode p | N0 => None end.
#[export] Instance config_store : Odb (gset N) Config.
Proof.
  refine {| write_config := fun c d => Some (Npos (encode c), {[ Npos (encode c) ]} ∪ d);
            find_config := fun o d => Some (if bool_decide (o ∈ d) then config_of_code o else None) |}.
  - intros c d o d' [= <- <-]. rewrite bool_decide_true by set_solver. cbn. by rewrite decode_encode.
  - intros c d o d' o' c' [= <- <-] [= Ho]. f_equal. destruct (decide (o' ∈ d)) as [Hd|Hd].
    + rewrite bool_decide_true in Ho by done. by rewrite bool_decide_true by set_solver.
    + by rewrite bool_decide_false in Ho by done.
Defined.

Definition own : Urn := MkUrn 7%N None.
Definition other : Urn := MkUrn 8%N None.
Definition store : Db (gset N) unit := MkDb ∅ ∅ tt.
(** Two direct delegates and one whose keys are those of an identity. *)
Definition rels : list (Rel Urn) := [Delegation (inr other); Delegation (inl 1%N); Delegation (inl 2%N); SelfRef own].

Lemma store_ok : db_ok store.
Proof. by intros n g Hn. Qed.

Lemma context_track_exact_witness : exists r db', context_track own rels store = Done (r, db') /\
    match r with
    | Err (ETxn Commit) => True
    | Err _ => Tracking.refs db' = Tracking.refs store
    | Ok l =>
        (forall i peer, entry db' (MkUrn i None) peer =
          match entry store (MkUrn i None) peer with Some c => Some c | None => added own rels (MkUrn i None) peer end) /\
        (forall u, inr u ∈ l <-> entry store u None = None /\ is_Some (added own rels u None)) /\
        (forall p, inl p ∈ l <-> entry store own (Some p) = None /\ is_Some (added own rels own (Some p)))
    end.
Proof. apply (context_track_exact own rels store store_ok); [done|by repeat constructor]. Defined.

(** [second_delegate_untracked]: of two direct delegates only the first is tracked, and of the own URN no default entry. *)
Example second_delegate_untracked : exists db', context_track own rels store = Done (Ok [inl 1%N; inr other], db') /\
  entry db' own (Some 1%N) = Some CONFIG_FULL /\ entry db' own (Some 2%N) = None /\ entry db' other None = Some CONFIG_MIN.
Proof. eexists. split; [by vm_compute|]. split_and!; by vm_compute. Qed.
(** [self_reference_hides_delegates]: none is, when the relation of the own URN comes first. *)
Example self_reference_hides_delegates : exists db', context_track own (SelfRef own :: rels) store = Done (Ok [inr own; inr other], db') /\
  entry db' own (Some 1%N) = None.
Proof. eexists. split; by vm_compute. Qed.
(** [peers_reported]: the peer is reported with its data. *)
Example peers_reported : exists db', context_track own rels store = Done (Ok [inl 1%N; inr other], db') /\
  context_tracked own db' = [Ok (1%N, DAllow)].
Proof. eexists. split; by vm_compute. Qed.
End ContextMemory.
