(* ===== verification/ReplicationContext.v ===== *)
(** * The context of a replication

    [Identities], [VerifiedIdentity] and [SignedRefs] for [Context] in [librad/src/net/replication/context.rs] (tracking is in
    [ContextTracking.v]): what [link-replication] sees of the identities and signed references in the storage of [librad].
    Reading an identity from a commit is the trait bound [TryFrom<ByOid>], a parameter as in [GitIdentity.v]; the library
    backoff is the number of times it lets an operation be retried, and what others do meanwhile. *)
From stdpp Require Import base list gmap fin_sets.
From Stdlib Require Import NArith Lia.
From Stdlib Require String.
Import String.StringSyntax.
From S2P Require Import Prelude Effects Identity Delegation GitIdentity.
From S2P Require Import RefFormat RefName Utf8 RefLike Keys UrnText CanonicalJson CanonicalFormatter LibradRef RemotesGraph SignedRefs.
Import Direct Indirect Name.
#[local] Open Scope N_scope.

(** ** Signed references *)

Module Sig.
Record Sigrefs := MkSigrefs { at_ : N; refs : gmap (list N) N; remotes : gset (list N) }.

(** The names, with their [expect], and [collect]: the last of several with one name stays. *)
Definition refname_of (cat : RefsCategory) (name : list N) : list N := str "refs/" ++ category_to_string cat ++ slash :: name.
Fixpoint refnames (l : list ((list N * N) * RefsCategory)) (acc : gmap (list N) N) : outcome (gmap (list N) N) :=
  match l with
  | [] => Done acc
  | ((name, oid), cat) :: l =>
      refname ← unwrap (res_ok (try_from_str (refname_of cat name)));
      refnames l (<[refname := oid]> acc)
  end.
(** The part [load] and [load_at] share. *)
Definition sigrefs_of (cut : nat) (loaded : N * Signed) : outcome Sigrefs :=
  refs ← refnames (iter_categorised (signed_refs loaded.2)) ∅;
  let remotes := cutoff_mut cut (SignedRefs.remotes (signed_refs loaded.2)) in
  Done (MkSigrefs loaded.1 refs (list_to_set (flatten_all (length (remotes_nodes remotes)) (flatten remotes)))).

Inductive SigrefsError (E : Type) : Type := Contended | SigRefs (e : E).
Arguments Contended {E}. Arguments SigRefs {E} e.

Section Load.
Context {S R MB MH IE SE KE : Type} `{HasProtocol R MH IE} `{Multibase MB} `{RefsText} `{SignedKeys KE} `{RefsStorage S R SE}.
Context `{JsonText} `{Globset} `{CompactFormatter} `{Nfc} `{Serializer} `{PercentEncoding}.
Abbreviation Er := (SigrefsError (StoredError MB SE KE)) (only parsing).
Variable self_urn : UrnText.Urn R.

Definition of_loaded (cut : nat) (l : option (N * Signed)) : eff Er (option Sigrefs) :=
  match l with None => EOk None | Some l => s ← of_out (sigrefs_of cut l); EOk (Some s) end.
Definition context_load (storage : S) (of_ : list N) (cut : nat) : eff Er (option Sigrefs) :=
  l ← eff_map_err SigRefs (refs_load_signed storage self_urn (Some of_)); of_loaded cut l.
Definition context_load_at (storage : S) (treeish : N) (signed_by : list N) (cut : nat) : eff Er (option Sigrefs) :=
  l ← eff_map_err SigRefs (refs_load_at storage treeish (Some signed_by)); of_loaded cut l.

(** [update]: one attempt, and [backoff::retry]. *)
Context {W GE : Type} `{RefsGit W GE} (storage_of : W -> S) (of_git : GE -> SE).
Definition attempt : st W (StoredError MB SE KE) (option N) := fun w =>
  match refs_update storage_of of_git self_urn w with
  | (EOk (MkUpdated _ at_), w) | (EOk (Unchanged _ at_), w) => (EOk (Some at_), w)
  | (EOk ConcurrentlyModified, w) => (EOk None, w)
  | (EErr e, w) => (EErr e, w)
  | (EPanic, w) => (EPanic, w)
  end.
Fixpoint context_update (wait : nat -> W -> W) (retries : nat) : st W Er (option N) := fun w =>
  match attempt w with
  | (EOk (Some at_), w) => (EOk (Some at_), w)
  | (EErr e, w) => (EErr (SigRefs e), w)
  | (EPanic, w) => (EPanic, w)
  | (EOk None, w) =>
      match retries with
      | O => (EErr Contended, w)
      | Datatypes.S n => context_update wait n (wait n w)
      end
  end.
End Load.

(** *** Properties *)

Lemma onelevel_piece s : is_refstr s -> onelevel_from s = [] \/ is_piece (onelevel_from s).
Proof.
  intros Hs. destruct (starts_with REFS_SLASH s) eqn:E; [|right; unfold onelevel_from; rewrite E; by apply refstr_piece].
  destruct (onelevel_parts s Hs) as (name & cat & _ & Hp & Hc). assert (qualified_from s = s) as Hq by (unfold qualified_from; by rewrite E).
  rewrite Hq in Hc. destruct cat as [c|]; [destruct Hc as (_ & _ & <-)|destruct Hc as (_ & _ & ->)]; auto.
Qed.
Lemma category_parse_text s c : category_parse s = Some c -> category_to_string c = s /\ is_refstr s.
Proof.
  unfold category_parse, category_from_str. destruct (category_known s) as [k|] eqn:Hk; cbn.
  - intros [= <-]. apply category_known_spec in Hk as [-> Hu]. split; [done|]. destruct k; try (vm_compute; reflexivity). by destruct (Hu c).
  - destruct (reflike_try_from s) as [t|] eqn:Ht; [|done]. apply reflike_try_from_ok in Ht as [-> Hr]. by intros [= <-].
Qed.
Lemma refname_valid cat name : is_refstr (category_to_string cat) -> name = [] \/ is_piece name ->
  res_ok (try_from_str (refname_of cat name)) = if decide (name = []) then None else Some (refname_of cat name).
Proof.
  intros Hc Hn. unfold try_from_str, refname_of. change (str "refs/" ++ category_to_string cat ++ slash :: name) with (push REFS (push (category_to_string cat) name)).
  destruct (ref_format CHECK_OPTS _) as [[]|e] eqn:Er; cbn; case_decide as Hd; try done.
  - subst. exfalso. assert (is_piece []) as [H|H]; [|by vm_compute in H|done].
    eapply push_pieces, (proj2 (push_pieces REFS _ _)). Unshelve. 2: exact (refstr_piece _ Er).
  - exfalso. destruct Hn as [?|Hn]; [done|].
    assert (is_refstr (push REFS (push (category_to_string cat) name))) as Hv; [|unfold is_refstr in Hv; congruence].
    apply push_valid; [left; vm_compute; reflexivity|]. apply refstr_piece, push_valid; [by apply refstr_piece|done].
Qed.

Lemma refnames_spec l : Forall (fun x => is_refstr (category_to_string x.2) /\ (x.1.1 = [] \/ is_piece x.1.1)) l -> forall acc,
  refnames l acc = if decide (Exists (fun x => x.1.1 = []) l) then Panic
                   else Done (foldl (fun m x => <[refname_of x.2 x.1.1 := x.1.2]> m) acc l).
Proof.
  induction 1 as [|[[name oid] cat] l [Hc Hn] _ IH]; intros acc; cbn [refnames]; [by rewrite decide_False by inversion 1|].
  cbn [fst snd] in Hc, Hn. rewrite refname_valid by done. destruct (decide (name = [])) as [->|Hne]; cbn [unwrap mbind outcome_bind].
  - rewrite decide_True; [done|]. by left.
  - rewrite IH. cbn [foldl fst snd]. destruct (decide (Exists _ l)) as [He|He]; destruct (decide (Exists _ (_ :: l))) as [Hx|Hx]; try done.
    + destruct Hx. by right.
    + destruct He. by inversion Hx.
Qed.
Lemma foldl_insert_spec {A} (key : A -> list N) (val : A -> N) l : forall acc : gmap (list N) N,
  (forall n o, foldl (fun m x => <[key x := val x]> m) acc l !! n = Some o -> acc !! n = Some o \/ exists x, x ∈ l /\ key x = n /\ val x = o) /\
  (forall x, x ∈ l -> is_Some (foldl (fun m x => <[key x := val x]> m) acc l !! key x)) /\
  (forall n, is_Some (acc !! n) -> is_Some (foldl (fun m x => <[key x := val x]> m) acc l !! n)).
Proof.
  induction l as [|y l IH]; intros acc; [split_and!; [by left|by intros x ?%elem_of_nil|done]|]. cbn [foldl].
  destruct (IH (<[key y := val y]> acc)) as (H1 & H2 & H3). split_and!.
  - intros n o Hn. apply H1 in Hn as [Hn|(x & Hx & Hk)]; [|right; exists x; split; [by right|done]].
    apply lookup_insert_Some in Hn as [[<- <-]|[_ Hn]]; [|by left]. right. exists y. split; [left|done].
  - intros x [->|Hx]%elem_of_cons; [|by apply H2]. apply H3. by rewrite lookup_insert_eq.
  - intros n Hn. apply H3. destruct (decide (key y = n)) as [<-|Hne]; [by rewrite lookup_insert_eq|by rewrite lookup_insert_ne].
Qed.

(** A reference as it is signed: the category, the name in it, and the target. *)
Definition signs (r : Refs) (cat name : list N) (oid : N) : Prop :=
  exists m, (cat, m) ∈ categorised_refs r /\ (name, oid) ∈ m /\ is_refstr cat /\ is_refstr name.
Lemma elem_of_categorised r name oid c : ((name, oid), c) ∈ iter_categorised r <->
  exists text, signs r (category_to_string c) text oid /\ category_parse (category_to_string c) = Some c /\ name = onelevel_from text.
Proof.
  unfold iter_categorised. rewrite list_elem_of_In, in_flat_map. split.
  - intros ([cat m] & Hm & Hx). cbn [fst snd] in Hx. destruct (category_parse cat) as [c'|] eqn:Hc; [|done].
    apply in_map_iff in Hx as ([n o] & [= -> -> ->] & Hx). unfold one_levels in Hx. apply in_flat_map in Hx as ([t o] & Ht & Hx). cbn [fst snd] in Hx.
    destruct (reflike_try_from t) as [t'|] eqn:Er; [|done]. apply reflike_try_from_ok in Er as [-> Hr]. destruct Hx as [[= <- <-]|[]].
    destruct (category_parse_text _ _ Hc) as [Hct Hcr]. exists t. rewrite Hct. split; [|done]. exists m. rewrite !list_elem_of_In. done.
  - intros (text & (m & Hm & Ht & Hcr & Hr) & Hc & ->). exists (category_to_string c, m). split; [by apply list_elem_of_In|]. cbn [fst snd]. rewrite Hc.
    apply in_map_iff. exists (onelevel_from text, oid). split; [done|]. unfold one_levels. apply in_flat_map. exists (text, oid).
    split; [by apply list_elem_of_In|]. cbn [fst snd]. rewrite (proj2 (reflike_try_from_ok text text) (conj eq_refl Hr)). by left.
Qed.
Lemma signs_category r cat name oid : signs r cat name oid -> exists c, category_to_string c = cat /\ category_parse cat = Some c.
Proof.
  intros (m & _ & _ & Hc & _). unfold category_parse, category_from_str. destruct (category_known cat) as [k|] eqn:Hk.
  - exists k. apply category_known_spec in Hk as [-> _]. done.
  - exists (Unknown cat). by rewrite (proj2 (reflike_try_from_ok cat cat) (conj eq_refl Hc)).
Qed.

(** C8 [context_sigrefs_exact]: the signed references of a peer, as a replication sees them.  They panic exactly when the peer has
    signed a name that is [refs/] and one component, whatever the category: what is left of it is empty.  Otherwise they are
    the signed references under their full, valid names, each at a signed target, and the peers of the tracking graph down
    to the cutoff. *)
Theorem context_sigrefs_exact cut at0 s (Hsorted : remotes_sorted (SignedRefs.remotes (signed_refs s)) = true) :
  (sigrefs_of cut (at0, s) = Panic <-> exists cat name oid, signs (signed_refs s) cat name oid /\ onelevel_from name = []) /\
  forall r, sigrefs_of cut (at0, s) = Done r ->
    at_ r = at0 /\
    (forall n o, refs r !! n = Some o -> is_refstr n /\
       exists cat name, signs (signed_refs s) cat name o /\ n = into_qualified (onelevel_from name) cat) /\
    (forall cat name o, signs (signed_refs s) cat name o -> is_Some (refs r !! into_qualified (onelevel_from name) cat)) /\
    remotes r = list_to_set (remotes_nodes (cutoff cut (SignedRefs.remotes (signed_refs s)))) /\
    (remotes_depth (cutoff cut (SignedRefs.remotes (signed_refs s))) <= cut)%nat.
Proof.
  destruct s as [rs sg]. cbn [signed_refs] in *. unfold sigrefs_of. cbn [fst snd signed_refs].
  assert (Forall (fun x : (list N * N) * RefsCategory => is_refstr (category_to_string x.2) /\ (x.1.1 = [] \/ is_piece x.1.1)) (iter_categorised rs)) as Hall.
  { apply Forall_forall. intros [[n o] c] Hx. apply elem_of_categorised in Hx as (t & (m & _ & _ & Hc & Ht) & _ & ->). split; [done|]. by apply onelevel_piece. }
  rewrite (refnames_spec _ Hall). split.
  - destruct (decide (Exists _ _)) as [He|He]; cbn [mbind outcome_bind]; (split; [intros Hp|]); try done.
    + apply Exists_exists in He as ([[n o] c] & Hx & Hn). cbn in Hn. subst n. apply elem_of_categorised in Hx as (t & Hs & _ & Ht). by exists (category_to_string c), t, o.
    + intros (cat & name & oid & Hs & Hn). destruct He. destruct (signs_category _ _ _ _ Hs) as (c & <- & Hc). apply Exists_exists.
      exists ((onelevel_from name, oid), c). split; [|done]. apply elem_of_categorised. by exists name.
  - destruct (decide (Exists _ _)) as [He|He]; cbn [mbind outcome_bind]; [done|]. intros r [= <-]. cbn [at_ refs remotes].
    destruct (foldl_insert_spec (fun x : (list N * N) * RefsCategory => refname_of x.2 x.1.1) (fun x => x.1.2) (iter_categorised rs) ∅) as (H1 & H2 & _).
    split_and!; [done| | |..].
    + intros n o Hn. apply H1 in Hn as [Hn|([[nm o'] c] & Hx & <- & <-)]; [done|]. cbn [fst snd] in *.
      pose proof (proj1 (Forall_forall _ _) Hall _ Hx) as [Hc Hp]. cbn [fst snd] in Hc, Hp. split.
      * destruct Hp as [->|Hp]; [destruct He; apply Exists_exists; eexists; split; [exact Hx|done]|].
        apply (push_valid REFS (push (category_to_string c) nm)); [left; vm_compute; reflexivity|]. apply refstr_piece, push_valid; [by apply refstr_piece|done].
      * apply elem_of_categorised in Hx as (t & Hs & _ & ->). by exists (category_to_string c), t.
    + intros cat name o Hs. destruct (signs_category _ _ _ _ Hs) as (c & <- & Hc).
      apply (H2 ((onelevel_from name, o), c)), elem_of_categorised. by exists name.
    + rewrite cutoff_mut_eq by done. pose proof (remotes_cutoff_flatten _ 0 (cutoff_sorted cut _ Hsorted)) as (_ & _ & _ & ->). done.
    + by apply cutoff_depth.
Qed.

(** A witness: two references, one under a name of its own, and a graph that is cut. *)
Definition sample : Signed :=
  MkSigned (MkRefs [(str "heads", [(str "main", 5)]); (str "tags", [(str "refs/tags/v1", 6)])] sample_remotes) [].
Lemma context_sigrefs_exact_witness : exists r, sigrefs_of 1 (9, sample) = Done r /\
  refs r !! str "refs/tags/v1" = Some 6 /\ is_refstr (str "refs/tags/v1") /\
  remotes r = list_to_set (remotes_nodes (cutoff 1 sample_remotes)).
Proof.
  eexists. split; [vm_compute; reflexivity|]. split; [vm_compute; reflexivity|].
  destruct (context_sigrefs_exact 1 9 sample eq_refl) as [_ H]. destruct (H _ eq_refl) as (_ & H1 & _ & H3 & _).
  split; [eapply (H1 (str "refs/tags/v1") 6); vm_compute; reflexivity|exact H3].
Defined.
(** [signed_name_panics]: a peer that signs a name of two components makes everyone who replicates from it panic. *)
Example signed_name_panics :
  sigrefs_of 1 (9, MkSigned (MkRefs [(str "heads", [(str "refs/main", 5)])] remotes_new) []) = Panic.
Proof. vm_compute. reflexivity. Qed.
(** [names_collide]: a category may have more than one component, so that two signed references have one name; one of them is lost. *)
Example names_collide : exists r,
  sigrefs_of 1 (9, MkSigned (MkRefs [(str "heads", [(str "a/b", 5)]); (str "heads/a", [(str "b", 6)])] remotes_new) []) = Done r /\
  refs r = {[ str "refs/heads/a/b" := 6 ]}.
Proof. eexists. split; vm_compute; reflexivity. Qed.

Section UpdateProps.
Context {S R MB MH IE SE KE : Type} `{HasProtocol R MH IE} `{Multibase MB} `{RefsText} `{SignedKeys KE} `{RefsStorage S R SE}.
Context `{JsonText} `{Globset} `{CompactFormatter} `{Nfc} `{Serializer} `{PercentEncoding}.
Context {W GE : Type} `{RefsGit W GE} (storage_of : W -> S) (of_git : GE -> SE).
Variable self_urn : UrnText.Urn R.
Abbreviation try_once := (attempt (MB := MB) (MH := MH) (IE := IE) (KE := KE) self_urn storage_of of_git).
Abbreviation run := (context_update (MB := MB) (MH := MH) (IE := IE) (KE := KE) self_urn storage_of of_git).

(** The attempts that met with a concurrent update: [n] are left from [w] on, [m] from [v] on. *)
Inductive contended (wait : nat -> W -> W) : nat -> W -> nat -> W -> Prop :=
| contended_none n w : contended wait n w n w
| contended_once n w w' m v : try_once w = (EOk None, w') -> contended wait n (wait n w') m v -> contended wait (Datatypes.S n) w m v.

(** [update_retries]: an update ends with the result of the first attempt that does not meet with a concurrent one, and is only given up
    when all of the attempts there are do. *)
Theorem update_retries wait n w : exists m v, contended wait n w m v /\
  match try_once v with
  | (EOk (Some at_), v') => run wait n w = (EOk (Some at_), v')
  | (EErr e, v') => run wait n w = (EErr (SigRefs e), v')
  | (EPanic, v') => run wait n w = (EPanic, v')
  | (EOk None, v') => m = O /\ run wait n w = (EErr Contended, v')
  end.
Proof.
  revert w. induction n as [|n IH]; intros w; cbn [context_update].
  - exists O, w. split; [constructor|]. by destruct (try_once w) as [[[a|]|e|] w'].
  - destruct (try_once w) as [[[a|]|e|] w'] eqn:E.
    2:{ destruct (IH (wait n w')) as (m & v & Hc & Hv). exists m, v. split; [by econstructor|exact Hv]. }
    all: exists (Datatypes.S n), w; split; [constructor|]; by rewrite E.
Qed.
End UpdateProps.
End Sig.

(** ** Identities *)

Module Ids.
Section Identities.
Context {Sig GitError LoadError P Q : Type}.
Context (sig_verify : Sig -> N -> N -> bool) (not_found : GitError).
Context (revwalk revwalk_first_parent : Repo Sig -> N -> result GitError (list (result GitError N))) (load_git : GitError -> LoadError).
Abbreviation Person := (Identity (Doc Q (gset N) N) N N Sig) (only parsing).
Abbreviation Project := (Identity (Doc P (Indirect Q N N Sig) N) N N Sig) (only parsing).
Inductive SomeIdentity := IsPerson (p : Person) | IsProject (p : Project).
Context (person_from_oid : Repo Sig -> N -> result LoadError Person) (project_from_oid : Repo Sig -> N -> result LoadError Project).
Context (some_from_oid : Repo Sig -> N -> result LoadError SomeIdentity).

Inductive SomeVerifiedIdentity := VPerson (p : Verifying Person Verified) | VProject (p : Verifying Project Verified).
Abbreviation VerPerson := (VerifyPerson (Verify N N Empty_set LoadError) GitError) (only parsing).
Inductive Verification :=
| VerPersonErr (e : VerPerson)
| VerProjectErr (e : VerifyProject N (Verify N N DoubleVote LoadError) VerPerson (FromIterError N) LoadError GitError)
| VerLoad (e : LoadError).

(** [Context::verify]; a delegate that cannot be resolved is the error [MissingDelegate] of its URN. *)
Definition context_verify_some (repo : Repo Sig) (id : SomeIdentity) (resolve : N -> option N) : result Verification SomeVerifiedIdentity :=
  match id with
  | IsPerson p =>
      v ← map_err VerPersonErr (verify_person sig_verify revwalk_first_parent load_git person_from_oid repo (content_id p));
      Ok (VPerson v)
  | IsProject p =>
      v ← map_err VerProjectErr (verify_project sig_verify not_found revwalk revwalk_first_parent load_git person_from_oid project_from_oid repo
        (fun urn => ok_or (resolve urn) urn) (content_id p));
      Ok (VProject v)
  end.
(** [Identities::verify] *)
Definition context_verify (repo : Repo Sig) (hd : N) (resolve : N -> option N) : result Verification SomeVerifiedIdentity :=
  id ← map_err VerLoad (some_from_oid repo hd);
  context_verify_some repo id resolve.

(** [Identities::newer] *)
(** No error of git: neither of the two is in the history of the other. *)
Inductive IdentityHistory := TypeMismatch (a b : SomeVerifiedIdentity) | HistoryOther (e : option GitError).
Definition newer_of {T} (wrap : Verifying (Identity T N N Sig) Verified -> SomeVerifiedIdentity) (repo : Repo Sig) (x y : Verifying (Identity T N N Sig) Verified) :
    result IdentityHistory SomeVerifiedIdentity :=
  match newer not_found revwalk repo (inner x) (inner y) with
  | Ok (Some i) => Ok (wrap (MkVerifying Verified i))
  | Ok None => Err (HistoryOther None)
  | Err e => Err (HistoryOther (Some e))
  end.
Definition context_newer (repo : Repo Sig) (a b : SomeVerifiedIdentity) : result IdentityHistory SomeVerifiedIdentity :=
  match a, b with
  | VPerson x, VPerson y => newer_of VPerson repo x y
  | VProject x, VProject y => newer_of VProject repo x y
  | x, y => Err (TypeMismatch x y)
  end.

(** [VerifiedIdentity for SomeVerifiedIdentity] *)
Definition ver_revision (v : SomeVerifiedIdentity) : N := match v with VPerson p => revision (inner p) | VProject p => revision (inner p) end.
Definition ver_content_id (v : SomeVerifiedIdentity) : N := match v with VPerson p => content_id (inner p) | VProject p => content_id (inner p) end.
Definition ver_urn (v : SomeVerifiedIdentity) : N := match v with VPerson p => root (inner p) | VProject p => root (inner p) end.
Definition delegation_keys (d : N + Person) : list N := match d with inl pk => [pk] | inr p => bset_iter (delegations (doc p)) end.
Definition ver_delegate_ids (v : SomeVerifiedIdentity) : outcome (gset N) :=
  let ds : gset N :=
    match v with
    | VPerson p => list_to_set (bset_iter (delegations (doc (inner p))))
    | VProject p => list_to_set (flat_map delegation_keys (indirect_iter (delegations (doc (inner p)))))
    end in
  if bool_decide (ds = ∅) then Panic else Done ds.
Definition ver_delegate_urns (v : SomeVerifiedIdentity) : gset N :=
  match v with
  | VProject p => list_to_set (root <$> iter_indirect (indirect_iter (delegations (doc (inner p)))))
  | VPerson _ => ∅
  end.

(** *** Properties *)

Definition ver_signatures (v : SomeVerifiedIdentity) : gmap N Sig :=
  match v with VPerson p => signatures (inner p) | VProject p => signatures (inner p) end.

(** Whoever verifies was signed by somebody who is eligible. *)
Lemma succeeds_signer {T E} `{DelegationsLaws T E} `{Replaces T N} (i : Identity T N N Sig) par : succeeds sig_verify i par ->
  exists e k sig, eligible (doc i) (dom (signatures i)) = Ok e /\ k ∈ e /\ signatures i !! k = Some sig /\ sig_verify sig (revision i) k = true.
Proof.
  intros ((_ & Hsig) & (e & He & Hsz) & _). destruct (set_choose_or_empty e) as [[k Hk]|Hem].
  2:{ apply leibniz_equiv in Hem. subst e. rewrite size_empty in Hsz. lia. }
  pose proof (eligible_votes _ _ _ He k Hk) as [sig Hs]%elem_of_dom. exists e, k, sig. eauto.
Qed.
Lemma eligible_delegate new (x : Indirect Q N N Sig) votes e k : try_from_iter new = Ok x -> indirect_eligible x votes = Ok e -> k ∈ e ->
  k ∈ flat_map delegation_keys (indirect_iter x).
Proof.
  intros [Hb ->]%try_from_iter_spec [-> _]%indirect_eligible_spec Hk. apply elem_of_intersection in Hk as [_ [o Ho]%elem_of_dom].
  apply built_lookup, elem_of_entries in Ho; [|done]. rewrite indirect_iter_split. apply list_elem_of_In, in_flat_map. destruct Ho as [[_ Hd]|(m & id & _ & Hm & Hd)].
  - exists (inl k). split; [|by left]. apply list_elem_of_In, elem_of_app. right. apply list_elem_of_fmap. exists k. split; [done|]. by rewrite direct_keys_built.
  - exists (inr id). split; [|by apply list_elem_of_In, elem_of_bset_iter]. apply list_elem_of_In, elem_of_app. left. apply list_elem_of_fmap. exists id. split; [done|]. by apply list_elem_of_lookup_2 with m.
Qed.

(** [verified_delegates]: the delegates of an identity a replication has verified can be asked for without panic, and one of them has
    signed the verified revision. *)
Theorem verified_delegates repo hd resolve v (Hv : context_verify repo hd resolve = Ok v) :
  exists ds, ver_delegate_ids v = Done ds /\
    exists k sig, k ∈ ds /\ ver_signatures v !! k = Some sig /\ sig_verify sig (ver_revision v) k = true.
Proof.
  unfold context_verify in Hv. destruct (some_from_oid repo hd) as [id|]; [|done]. cbn [map_err mbind result_bind] in Hv.
  assert (forall ds : gset N, (exists k sig, k ∈ ds /\ ver_signatures v !! k = Some sig /\ sig_verify sig (ver_revision v) k = true) ->
    exists ds', (if bool_decide (ds = ∅) then Panic else Done ds) = Done ds' /\
      exists k sig, k ∈ ds' /\ ver_signatures v !! k = Some sig /\ sig_verify sig (ver_revision v) k = true) as Hds.
  { intros ds (k & sig & Hk & Hs). exists ds. rewrite bool_decide_false by set_solver. split; [done|]. by exists k, sig. }
  unfold context_verify_some in Hv. destruct id as [p|p].
  - unfold verify_person, verify_generic in Hv. destruct (fold_verify_generic _ _ _ _ _ _) as [folded|] eqn:Hf; [|done].
    injection Hv as <-. apply fold_verify_spec in Hf as (Hc & _). apply chain_succeeds, succeeds_signer in Hc as (e & k & sig & He & Hk & Hs & Hsv).
    apply Hds. exists k, sig. split; [|done]. cbn in He. injection He as <-. rewrite direct_eligible_spec in Hk.
    apply elem_of_list_to_set, elem_of_bset_iter. set_solver.
  - unfold verify_project in Hv. destruct (fold_verify_generic _ _ _ _ _ _) as [folded|] eqn:Hf; [|done].
    cbn [map_err mbind result_bind] in Hv. unfold transpose, identity_map, try_second, second, bimap, resolve_delegation_updates in Hv. cbn in Hv.
    destruct (resolve_loop _ _ _ _ _ _ _ _ _) as [new|]; [|done]. cbn [mbind result_bind] in Hv.
    destruct (try_from_iter new) as [x|] eqn:Hx; [|done]. cbn in Hv.
    match type of Hv with context [map_err ProjectVerification ?m] => destruct m as [v'|e] eqn:Hm; [|done] end. injection Hv as <-.
    match type of Hm with context [from_untrusted ?i] => assert (untrusted_verified (H := LoadError) sig_verify (from_untrusted i) (parent folded) = Ok v') as Huv by exact Hm end.
    apply untrusted_verified_spec in Huv as [-> Hs]. apply succeeds_signer in Hs as (e & k & sig & He & Hk & Hs & Hsv).
    apply Hds. exists k, sig. split; [|done]. apply elem_of_list_to_set. cbn in *. by eapply eligible_delegate.
Qed.
End Identities.

(** The project and persons of [GitIdentity.v]. *)
Definition load_some (r : Repo N) (o : N) : result unit SomeIdentity :=
  match Example.load_project r o with Ok p => Ok (IsProject p) | Err _ => IsPerson <$> Example.load r o end.
Abbreviation verify_sample := (context_verify sum_verify tt Example.walk Example.walk_reverse (fun e => e) Example.load Example.load_project load_some
  Example.repo 50 (fun _ => Some 11)).
Lemma verified_delegates_witness : exists v, verify_sample = Ok v /\
  exists ds, ver_delegate_ids v = Done ds /\
    exists k sig, k ∈ ds /\ ver_signatures v !! k = Some sig /\ sum_verify sig (ver_revision v) k = true.
Proof.
  eexists. split; [vm_compute; reflexivity|].
  eapply (verified_delegates sum_verify tt Example.walk Example.walk_reverse (fun e => e) Example.load Example.load_project load_some Example.repo 50 (fun _ => Some 11)).
  vm_compute. reflexivity.
Defined.
(** [missing_delegate]: a project with a delegate that cannot be resolved does not verify. *)
Example missing_delegate : exists e, context_verify sum_verify tt Example.walk Example.walk_reverse (fun e => e) Example.load Example.load_project load_some
  Example.repo 50 (fun _ => None) = Err (VerProjectErr (Lookup e)).
Proof. eexists. vm_compute. reflexivity. Qed.
End Ids.
