(* ===== verification/PeerStorage.v ===== *)
(** * What a peer does with gossip

    [librad/src/net/peer/storage.rs]: [broadcast::LocalStorage] for the storage of a peer, that is, when an announcement is
    fetched, and when a request is answered; and [Replication::replicate] of [librad/src/net/replication.rs].  Git is the
    storage of [StorageRead.v], tracking the database of [Tracking.v].  Parameters ([PeerEnv]) are the pool of storage handles,
    the XOR filter of URNs, the rate limiter (governor), connecting to a peer, and the two kinds of run of [link-replication]
    ([Pull.v]). *)
From stdpp Require Import base list gmap.
From Stdlib Require Import NArith Lia.
From Stdlib Require String.
Import String.StringSyntax.
From S2P Require Import Prelude Effects Policy Tracking Broadcast.
From S2P Require Import RefFormat RefName Utf8 RefLike Keys UrnText CanonicalJson LibradRef SignedRefs StorageRead ReplicationSafety IdentityWitness.
Import Name.
#[local] Open Scope N_scope.

(** ** Interfaces *)

(** Peers are numbers here; their keys are bytes. *)
Class PeerKeys := key_bytes : N -> list N.
(** The environment: [W] is everything there is, [G] the git storage, [A] addresses, [Conn] connections. *)
Class PeerEnv (W G D X A Conn PE RE Success : Type) := {
  pe_peer_id : W -> N;
  pe_git : W -> G;
  pe_tracking : W -> Db D X;
  pe_pool : W -> option PE;                           (** an error of [Pool::get], if there is one *)
  pe_contains : W -> N -> bool;                        (** the filter, by the id of a URN *)
  pe_check_key : N * N -> W -> bool * W;                (** whether a peer and URN are within the quota *)
  pe_connect : N * list A -> W -> option Conn * W;
  pe_slots : W -> nat;
  pe_set_slots : nat -> W -> W;
  pe_user_name : W -> option RE;                      (** an error reading the configuration or opening the refdb *)
  pe_pull : Conn -> UrnText.Urn N -> st W RE Success;
  pe_clone : Conn -> UrnText.Urn N -> st W RE Success;
}.

Inductive ReplicateError (MB GE RE : Type) : Type := SlotTimeout | ReplRead (e : ReadError MB GE) | ReplRun (e : RE).
Arguments SlotTimeout {MB GE RE}. Arguments ReplRead {MB GE RE} e. Arguments ReplRun {MB GE RE} e.
Inductive StorageErr (MB GE PE RE : Type) : Type :=
| KnownObject (o : N) | RateLimited (remote_peer : N) (urn : UrnText.Urn N) | NoConnection (remote_peer : N)
| Pool (e : PE) | Track (e : OpError) | Repl (e : ReplicateError MB GE RE).
Arguments KnownObject {MB GE PE RE} o. Arguments RateLimited {MB GE PE RE} remote_peer urn. Arguments NoConnection {MB GE PE RE} remote_peer.
Arguments Pool {MB GE PE RE} e. Arguments Track {MB GE PE RE} e. Arguments Repl {MB GE PE RE} e.

Section Storage.
Context {W G GE D C X A Conn PE RE Success MB MH IE : Type}.
Context `{Tracking.Git2} `{Tracking.Odb D C} `{Git2Repo G GE} `{HasProtocol N MH IE} `{Multibase MB} `{Globset} `{PeerKeys}.
Context `{PeerEnv W G D X A Conn PE RE Success}.
Abbreviation Urn := (UrnText.Urn N) (only parsing).
Abbreviation Err' := (StorageErr MB GE PE RE) (only parsing).
(** [Either<Urn, Originates<Urn>>] *)
Abbreviation Origin := (UrnText.Urn N + N * UrnText.Urn N)%type (only parsing).

(** ** [urn_context] *)

Definition context_local (urn : Urn) : Urn := map_path (fun path => Some (default DEFAULT_PATH (qualified_from <$> path))) urn.
Definition context_remote (urn : Urn) (peer : N) : outcome Urn :=
  let qualified := default DEFAULT_PATH (qualified_from <$> urn_path urn) in
  p ← into_reflike (IntoRefLike := peer_into (MB := MB)) (MkPeerId (key_bytes peer));
  rest ← unwrap (res_ok (reflike_strip_prefix qualified (str "refs")));
  Done (MkUrn (urn_id urn) (Some (reflike_join (reflike_join (str "refs/remotes") p) rest))).
Definition urn_context (local_peer_id : N) (urn : Origin) : outcome Urn :=
  match urn with
  | inl urn => Done (context_local urn)
  | inr (from, urn) => if from =? local_peer_id then Done (context_local urn) else context_remote urn from
  end.

(** ** [Replication::replicate] *)

Definition replicate_blocking (conn : Conn) (urn : Urn) : st W (ReplicateError MB GE RE) Success := fun w =>
  match has_urn (MB := MB) (pe_git w) urn with
  | EErr e => (EErr (ReplRead e), w)
  | EPanic => (EPanic, w)
  | EOk have_urn =>
      match pe_user_name w with
      | Some e => (EErr (ReplRun e), w)
      | None =>
          let '(r, w) := if (have_urn : bool) then pe_pull conn urn w else pe_clone conn urn w in
          (eff_map_err ReplRun r, w)
      end
  end.
(** A slot is waited for, and given back however the run ends. *)
Definition replicate (conn : Conn) (urn : Urn) : st W (ReplicateError MB GE RE) Success := fun w =>
  match pe_slots w with
  | O => (EErr SlotTimeout, w)
  | Datatypes.S n =>
      let '(r, w) := replicate_blocking conn urn (pe_set_slots n w) in
      (r, pe_set_slots (Datatypes.S (pe_slots w)) w)
  end.

(** ** [Storage] *)

(** [unwrap_or(false)] *)
Definition or_false {E} (x : eff E bool) : eff Err' bool := match x with EOk b => EOk b | EErr _ => EOk false | EPanic => EPanic end.
Definition git_lookup (g : G) (urn : Urn) (head : option N) : eff Err' bool :=
  match head with
  | None => or_false (has_urn (MB := MB) g urn)
  | Some head =>
      b ← or_false (has_commit (MB := MB) g urn head);
      if (b : bool) then EOk true else or_false (has_tag (MB := MB) g urn head)
  end.
(** [git_has]: [expect] on the pool. *)
Definition git_has (w : W) (urn : Origin) (head : option N) : eff Err' bool :=
  match pe_pool w with
  | Some _ => EPanic
  | None =>
      urn ← of_out (urn_context (pe_peer_id w) urn);
      if negb (pe_contains w (urn_id urn)) then EOk false else git_lookup (pe_git w) urn head
  end.
(** [is_tracked] *)
Definition tracking_urn (urn : Urn) : Tracking.Urn := Tracking.MkUrn (urn_id urn) (urn_path urn).
Definition storage_is_tracked (w : W) (urn : Urn) (peer : N) : result Err' bool :=
  match pe_pool w with
  | Some e => Err (Pool e)
  | None =>
      b ← map_err Track (Tracking.is_tracked (tracking_urn urn) (Some peer) (pe_tracking w));
      if (b : bool) then Ok true else map_err Track (default_only (tracking_urn urn) (pe_tracking w))
  end.

(** [git_fetch] *)
Definition known (w : W) (urn : Origin) (head : option N) : eff Err' unit :=
  match head with
  | None => EOk tt
  | Some h => b ← git_has w urn (Some h); if (b : bool) then EErr (KnownObject h) else EOk tt
  end.
Definition fetch_from (from : N * list A) (urn : Urn) : st W Err' Success := fun w =>
  let '(ok, w) := pe_check_key (from.1, urn_id urn) w in
  if negb ok then (EErr (RateLimited from.1 urn), w)
  else match pe_connect from w with
       | (None, w) => (EErr (NoConnection from.1), w)
       | (Some conn, w) => let '(r, w) := replicate conn urn w in (eff_map_err Repl r, w)
       end.
Definition git_fetch (from : N * list A) (urn : Origin) (head : option N) : st W Err' Success :=
  _ ← reads (fun w => known w urn head);
  _ ← reads (fun w => match pe_pool w with Some e => EErr (Pool e) | None => EOk tt end);
  urn ← reads (fun w => of_out (urn_context (pe_peer_id w) urn));
  fetch_from from urn.

(** [LocalStorage::put] and [ask] *)
Definition rev_head (r : option Rev) : option N := match r with Some (Git head) => Some head | None => None end.
Definition storage_put (provider : N * list A) (has : Payload Urn) : W -> outcome (PutResult (Payload Urn)) * W := fun w =>
  let origin := default provider.1 (p_origin _ has) in
  match storage_is_tracked w (urn _ has) origin with
  | Err _ => (Done StorageError, w)
  | Ok false => (Done Uninteresting, w)
  | Ok true =>
      let urn' : Origin := inr (origin, urn _ has) in
      let head := rev_head (rev _ has) in
      match git_fetch provider urn' head w with
      | (EOk _, w) =>
          (match git_has w urn' head with
           | EOk true => Done (Applied (MkPayload _ (urn _ has) (rev _ has) (Some origin)))
           | EOk false => Done Stale
           | _ => Panic
           end, w)
      | (EErr (KnownObject _), w) | (EErr (RateLimited _ _), w) => (Done Stale, w)
      | (EErr _, w) => (Done StorageError, w)
      | (EPanic, w) => (Panic, w)
      end
  end.
Definition storage_ask (w : W) (want : Payload Urn) : eff Err' bool :=
  git_has w (match p_origin _ want with Some origin => inr (origin, urn _ want) | None => inl (urn _ want) end) (rev_head (rev _ want)).
End Storage.

(** ** Properties *)

Section Properties.
Context {W G GE D C X A Conn PE RE Success MB MH IE : Type}.
Context `{Tracking.Git2} `{Tracking.Odb D C} `{Git2Repo G GE} `{HasProtocolLaws N MH IE} `{MultibaseLaws MB} `{Globset} `{PeerKeys}.
Context `{PeerEnv W G D X A Conn PE RE Success}.
Hypothesis keys_wf : forall p, peer_wf (MkPeerId (key_bytes p)).
Abbreviation context := (urn_context (MB := MB)) (only parsing).

(** *** URNs *)

Definition path_ok (u : UrnText.Urn N) : Prop := match urn_path u with Some p => is_refstr p | None => True end.
(** The name a path stands for. *)
Definition qualified_path (u : UrnText.Urn N) : list N := default DEFAULT_PATH (qualified_from <$> urn_path u).
Lemma qualified_path_spec u : path_ok u -> exists r, qualified_path u = push REFS r /\ is_piece r /\ is_refstr (qualified_path u).
Proof.
  unfold path_ok, qualified_path. destruct (urn_path u) as [p|]; cbn [fmap option_fmap option_map default]; intros Hp; apply qualified_from_spec; [done|].
  vm_compute. reflexivity.
Qed.

(** [urn_context_exact]: the context of a URN is computed without panic: for what is the peer's own, its qualified path; for what originates
    elsewhere, the same path below the remote references of its origin. *)
Theorem urn_context_exact local from u : path_ok u -> exists r, qualified_path u = push REFS r /\
  context local (inl u) = Done (MkUrn (urn_id u) (Some (push REFS r))) /\
  context local (inr (from, u)) = Done (MkUrn (urn_id u) (Some (if from =? local then push REFS r
    else push (push (str "refs/remotes") (peer_default_encoding (MB := MB) (key_bytes from))) r))).
Proof using All.
  intros Hp. destruct (qualified_path_spec u Hp) as (r & Hq & Hr & _). exists r. split; [done|].
  assert (context_local u = MkUrn (urn_id u) (Some (push REFS r))) as Hl by (unfold context_local, map_path; f_equal; f_equal; exact Hq).
  unfold urn_context. rewrite Hl. split; [done|]. destruct (from =? local); [done|]. unfold context_remote. fold (qualified_path u). rewrite Hq.
  rewrite (peer_into_done (MB := MB) _ (keys_wf from)). cbn [mbind outcome_bind peer_key].
  rewrite (proj2 (reflike_strip_prefix_spec (push REFS r) (str "refs") r)); [done|]. split; [reflexivity|].
  intros ->. destruct Hr as [Hr|Hr]; [by vm_compute in Hr|done].
Qed.

(** *** Tracking *)

(** A URN is fetched from a peer that is tracked for it, or from anyone as long as nobody is and there is a default. *)
Definition tracked_for (db : Db D X) (u : Tracking.Urn) (p : N) : Prop :=
  is_Some (entry db u (Some p)) \/ (is_Some (entry db u None) /\ forall q, entry db u (Some q) = None).

Lemma default_only_loop_ok items : forall seen b, default_only_loop seen items = Ok b ->
  (b = true <-> (forall r, Ok r ∈ items -> Tracking.remote (r_name r) = RDefault) /\ (seen = true \/ exists r, Ok r ∈ items)).
Proof.
  induction items as [|[r|e] items IH]; intros seen b; cbn [default_only_loop].
  - intros [= ->]. split; [intros ->; split; [by intros r ?%elem_of_nil|by left]|]. intros [_ [?|(r & ?%elem_of_nil)]]; done.
  - destruct (Tracking.remote (r_name r)) eqn:Er.
    + intros Hb. rewrite (IH _ _ Hb). split.
      * intros [Ha _]. split; [|right; exists r; by left]. intros x [[= ->]|Hx]%elem_of_cons; auto.
      * intros [Ha _]. split; [|by left]. intros x Hx. apply Ha. by right.
    + intros [= <-]. split; [done|]. intros [Ha _]. specialize (Ha r ltac:(by left)). congruence.
  - done.
Qed.
Lemma elem_of_convert r (l : list (RefName * GRef)) : (Ok r : result TxnError Tracking.Ref) ∈ (convert <$> l) <-> exists n o, (n, Direct o) ∈ l /\ r = MkRef n o.
Proof.
  rewrite list_elem_of_fmap. split.
  - intros ([n [o|]] & Hr & Hn); cbn in Hr; [|done]. injection Hr as ->. eauto.
  - intros (n & o & Hn & ->). by exists (n, Direct o).
Qed.

(** The references of an identity, when no name has a path. *)
Lemma references_of (db : Db D X) u r : db_ok db -> (forall n g, Tracking.refs db !! n = Some g -> Tracking.urn_path (Tracking.urn n) = None) ->
  Ok r ∈ Tracking.references (Some u) (Tracking.refs db) <-> exists peer, r_name r = refname_new u peer /\ Tracking.refs db !! r_name r = Some (Direct (r_target r)).
Proof.
  intros Hok Hpath. unfold Tracking.references. rewrite elem_of_convert. setoid_rewrite list_elem_of_filter. setoid_rewrite iter_refs_perm.
  setoid_rewrite elem_of_map_to_list. cbn [fst]. split.
  - intros (n & o & [Hs Hn] & ->). cbn [r_name r_target]. exists (remote_into (Tracking.remote n)). split; [|done]. apply Hpath in Hn.
    unfold remotes_refspec in Hs. apply bool_decide_eq_true in Hs. destruct n as [rm [i pth]], u as [i' pth']. cbn in *. subst. unfold refname_new.
    cbn. f_equal; [by destruct rm|]. by destruct pth'.
  - intros (peer & Hn & Hr). exists (r_name r), (r_target r). split; [|by destruct r]. split; [|done]. unfold remotes_refspec. apply bool_decide_eq_true.
    rewrite Hn. by destruct u as [i [pth|]].
Qed.
Lemma entry_ref (db : Db D X) u peer : db_ok db -> is_Some (entry db u peer) <-> exists o, Tracking.refs db !! refname_new u peer = Some (Direct o).
Proof.
  intros Hok. unfold entry. destruct (Tracking.refs db !! refname_new u peer) as [g|] eqn:Eg.
  - pose proof (Hok _ _ Eg) as Hc. split; [intros _|intros _; exact Hc]. destruct g as [o|]; [by exists o|by destruct Hc].
  - split; [by intros [? ?]|by intros [? ?]].
Qed.
Lemma default_only_exact (db : Db D X) u b : db_ok db -> (forall n g, Tracking.refs db !! n = Some g -> Tracking.urn_path (Tracking.urn n) = None) ->
  default_only u db = Ok b -> b = true <-> is_Some (entry db u None) /\ forall q, entry db u (Some q) = None.
Proof.
  intros Hok Hpath Hb. unfold default_only in Hb. rewrite (default_only_loop_ok _ _ _ Hb). setoid_rewrite references_of; [|done..]. split.
  - intros [Hd [?|(r & peer & Hn & Hr)]]; [done|].
    assert (peer = None) as ->. { specialize (Hd r (ex_intro _ peer (conj Hn Hr))). rewrite Hn in Hd. by destruct peer. }
    split; [apply entry_ref; [done|]; exists (r_target r); by rewrite <- Hn|]. intros q. destruct (entry db u (Some q)) eqn:Eq; [|done]. exfalso.
    assert (is_Some (entry db u (Some q))) as (o & Ho)%entry_ref by (by eexists); [|done].
    specialize (Hd (MkRef (refname_new u (Some q)) o) (ex_intro _ (Some q) (conj eq_refl Ho))). done.
  - intros [(o & Ho)%entry_ref Hq]; [|done]. split.
    + intros r (peer & Hn & Hr). rewrite Hn in *. destruct peer as [q|]; [|done]. exfalso.
      assert (is_Some (entry db u (Some q))) as [c Hc] by (apply entry_ref; [done|]; by eexists). by rewrite Hq in Hc.
    + right. exists (MkRef (refname_new u None) o), None. done.
Qed.
Lemma is_tracked_exact (w : W) u p b : db_ok (pe_tracking w) ->
  (forall n g, Tracking.refs (pe_tracking w) !! n = Some g -> Tracking.urn_path (Tracking.urn n) = None) ->
  storage_is_tracked (MB := MB) (GE := GE) w u p = Ok b -> b = true <-> tracked_for (pe_tracking w) (tracking_urn u) p.
Proof.
  intros Hok Hpath. unfold storage_is_tracked, tracked_for. destruct (pe_pool w); [done|].
  destruct (Tracking.is_tracked _ _ _) as [t|] eqn:Et; [|done]. cbn [map_err mbind result_bind].
  assert (t = true <-> is_Some (entry (pe_tracking w) (tracking_urn u) (Some p))) as Ht.
  { unfold Tracking.is_tracked, find_reference in Et. rewrite entry_ref by done. destruct (git_fails _ _); [done|].
    destruct (Tracking.refs _ !! refname_new _ _) as [[o|]|]; simplify_eq; split; try done; [by exists o|by intros [? ?]]. }
  destruct t.
  - intros [= <-]. split; [intros _; left; by apply Ht|done].
  - destruct (default_only _ _) as [d|] eqn:Ed; [|done]. intros [= <-]. rewrite (default_only_exact _ _ _ Hok Hpath Ed).
    split; [by right|]. intros [Hs|?]; [|done]. by apply Ht in Hs.
Qed.

(** *** Announcements *)

(** What the storage has of a reference: a commit in its history or the tag it is at. *)
Definition git_shows (g : G) (u : UrnText.Urn N) (head : option N) : Prop :=
  exists name, urn_reference_name (MB := MB) (GE := GE) u = EOk name /\ g_find_reference g name = Ok tt /\
    match head with
    | None => True
    | Some h => (exists t, g_peel g name OCommit = Ok t /\ (t = h \/ g_descendant_of g t h = Ok true)) \/ g_peel g name OTag = Ok h
    end.
Lemma or_false_true {E} (x : eff E bool) : or_false (MB := MB) (GE := GE) (PE := PE) (RE := RE) x = EOk true <-> x = EOk true.
Proof. by destruct x as [[]|e|]; cbn. Qed.
Lemma git_lookup_shows g u head : git_lookup (MB := MB) (PE := PE) (RE := RE) g u head = EOk true -> git_shows g u head.
Proof.
  destruct head as [h|]; cbn [git_lookup].
  - intros (b & Hb & Hx)%eff_bind_ok. destruct b.
    + apply (proj1 (or_false_true _)), has_commit_exact in Hb as (_ & _ & name & t & Hn & Hf & Hp & Hd). exists name. split_and!; [done..|]. left. eauto.
    + apply (proj1 (or_false_true _)) in Hx. unfold has_tag in Hx. apply eff_bind_ok in Hx as (obj & _ & Hx). destruct obj as [[[]|]|]; try done.
      apply eff_bind_ok in Hx as (t & Ht & Hx). unfold tip in Ht. apply eff_bind_ok in Ht as (name & Hn & Ht).
      apply eff_bind_ok in Ht as (r & Hr%of_res_ok%or_none_ok & Ht). destruct r as [[]|]; [|by simplify_eq].
      destruct (g_peel g name OTag) as [t'|] eqn:Hp; cbn in Ht; [|done]. injection Ht as <-. injection Hx as Hx. apply N.eqb_eq in Hx as ->.
      exists name. split_and!; [done..|]. by right.
  - intros Hx. apply (proj1 (or_false_true _)) in Hx. unfold has_urn in Hx. apply eff_bind_ok in Hx as (name & Hn & Hx%of_res_ok). exists name. split; [done|]. split; [|done].
    unfold has_ref in Hx. destruct (g_find_reference g name) as [[]|]; [done|]. by case_match.
Qed.
Lemma git_has_shows (w : W) o head : git_has (MB := MB) w o head = EOk true ->
  exists u, context (pe_peer_id w) o = Done u /\ git_shows (pe_git w) u head.
Proof.
  unfold git_has. destruct (pe_pool w); [done|]. intros (u & Hu%of_out_ok & Hx)%eff_bind_ok. exists u. split; [done|].
  destruct (negb _); [done|]. by apply git_lookup_shows in Hx.
Qed.

(** A fetch that may have changed anything. *)
Lemma git_fetch_licensed (from : N * list A) o head (w : W) r w' : git_fetch (MB := MB) from o head w = (r, w') ->
  w' = w \/ (forall h, head = Some h -> git_has (MB := MB) w o (Some h) = EOk false) /\
    exists u, context (pe_peer_id w) o = Done u /\ let '(ok, w1) := pe_check_key (from.1, urn_id u) w in ok = false -> w' = w1.
Proof.
  unfold git_fetch, reads, mbind, st_bind. destruct (known w o head) as [[]|e|] eqn:Hk; [|intros [= _ ->]; by left..].
  destruct (pe_pool w) as [e|]; [intros [= _ ->]; by left|]. destruct (context (pe_peer_id w) o) as [u|] eqn:Hu; [|intros [= _ ->]; by left].
  cbn [of_out]. intros Hf. right. split.
  - intros h ->. cbn [known] in Hk. apply eff_bind_ok in Hk as ([] & Hg & Hx); [done|exact Hg].
  - exists u. split; [done|]. unfold fetch_from in Hf. destruct (pe_check_key _ w) as [[] w1]; [done|]. cbn in Hf. by injection Hf as _ <-.
Qed.

(** C14 [storage_put_safe]: what an announcement does to the storage of a peer.  Nothing changes unless its origin is tracked for the URN
    (or nobody is, and the URN is tracked by default) and the announced revision is not there yet; beyond the rate limiter
    nothing changes unless the provider is within its quota.  An announcement is passed on only with its origin, and only
    when the announced revision is then found at the reference of that origin. *)
Theorem storage_put_safe (provider : N * list A) (has : Payload (UrnText.Urn N)) (w : W) r w'
    (Hok : db_ok (pe_tracking w)) (Hnames : forall n g, Tracking.refs (pe_tracking w) !! n = Some g -> Tracking.urn_path (Tracking.urn n) = None)
    (Hput : storage_put (MB := MB) provider has w = (r, w')) :
  let origin := default provider.1 (p_origin _ has) in
  let head := rev_head (rev _ has) in
  (w' = w \/
   tracked_for (pe_tracking w) (tracking_urn (urn _ has)) origin /\
   (forall h, head = Some h -> git_has (MB := MB) w (inr (origin, urn _ has)) (Some h) = EOk false) /\
   exists u, context (pe_peer_id w) (inr (origin, urn _ has)) = Done u /\
     let '(ok, w1) := pe_check_key (provider.1, urn_id u) w in ok = false -> w' = w1) /\
  (forall p, r = Done (Applied p) -> p = MkPayload _ (urn _ has) (rev _ has) (Some origin) /\
     exists u, context (pe_peer_id w') (inr (origin, urn _ has)) = Done u /\ git_shows (pe_git w') u head).
Proof.
  intros origin head. unfold storage_put in Hput. fold origin head in Hput.
  destruct (storage_is_tracked w (urn _ has) origin) as [b|] eqn:Ht; [|injection Hput as <- <-; split; [by left|done]].
  pose proof (proj1 (is_tracked_exact w _ _ b Hok Hnames Ht)) as Htr. destruct b; [|injection Hput as <- <-; split; [by left|done]].
  destruct (git_fetch provider (inr (origin, urn _ has)) head w) as [x w1] eqn:Hf.
  assert (w' = w1 /\ forall p, r = Done (Applied p) -> p = MkPayload _ (urn _ has) (rev _ has) (Some origin) /\
    git_has (MB := MB) w1 (inr (origin, urn _ has)) head = EOk true) as [-> Hr].
  { destruct x as [a|e|]; [|destruct e; injection Hput as <- <-; done|injection Hput as <- <-; done].
    destruct (git_has w1 _ head) as [[]|e|]; injection Hput as <- <-; (split; [done|]); intros p [= <-]; done. }
  split.
  - apply git_fetch_licensed in Hf as [->|[Hh Hu]]; [by left|]. right. split; [by apply Htr|]. split; [exact Hh|exact Hu].
  - intros p Hp. apply Hr in Hp as [-> Hg]. split; [done|]. by apply git_has_shows.
Qed.
End Properties.

(** ** A concrete peer *)

Module PeerWitness.
Import ReplicationWitness.
#[local] Existing Instance world_repo.
#[local] Existing Instance Memory.decimal_ids.
#[local] Existing Instance Memory.decimal_ids_laws.
#[local] Existing Instance ZBase32.z_multibase.
#[local] Existing Instance ZBase32.z_multibase_laws.
#[local] Instance any_glob : Globset := fun _ _ => true.
#[local] Instance last_byte : PeerKeys := fun p => repeat 0 31 ++ [p mod 256].
Lemma last_byte_wf p : peer_wf (MkPeerId (key_bytes p)).
Proof.
  split; [|reflexivity]. cbn [peer_key key_bytes last_byte]. unfold bytes. apply Forall_app. split; [by repeat constructor|].
  constructor; [|constructor]. by apply N.mod_lt.
Qed.

(** Git, what is tracked, the fetches left, and the runs there were: [true] is a clone. *)
Record Env := MkEnv { e_git : World; e_tracking : Db (gset N) unit; e_slots : nat; e_quota : nat; e_runs : list bool }.
(** A run writes the reference of the URN. *)
Definition run (clone : bool) (urn : UrnText.Urn N) : st Env unit unit := fun e =>
  match urn_reference_name (MB := unit) (GE := bool) urn with
  | EOk name => (EOk tt, MkEnv ((name, DirectRef 9) :: e_git e) (e_tracking e) (e_slots e) (e_quota e) (clone :: e_runs e))
  | _ => (EErr tt, e)
  end.
#[local] Instance env : PeerEnv Env World (gset N) unit N unit unit unit unit := {|
  pe_peer_id _ := 3;
  pe_git := e_git;
  pe_tracking := e_tracking;
  pe_pool _ := None;
  pe_contains _ _ := true;
  pe_check_key _ e := match e_quota e with O => (false, e) | S n => (true, MkEnv (e_git e) (e_tracking e) (e_slots e) n (e_runs e)) end;
  pe_connect _ e := (Some tt, e);
  pe_slots := e_slots;
  pe_set_slots n e := MkEnv (e_git e) (e_tracking e) n (e_quota e) (e_runs e);
  pe_user_name _ := None;
  pe_pull _ := run false;
  pe_clone _ := run true;
|}.

Definition start : Env := MkEnv [] demo_db 1 1 [].
Definition announcement (o : N) : Payload (UrnText.Urn N) := MkPayload _ (urn_new 7) (Some (Git o)) None.
Abbreviation announce p o := (storage_put (MB := unit) (p, [] : list N) (announcement o)).

Lemma storage_put_safe_witness : exists w' u, announce 1 9 start = (Done (Applied (MkPayload _ (urn_new 7) (Some (Git 9)) (Some 1))), w') /\
  urn_context (MB := unit) 3 (inr (1, urn_new 7)) = Done u /\ git_shows (MB := unit) (e_git w') u (Some 9).
Proof.
  eexists _, _. split; [vm_compute; reflexivity|]. split; [vm_compute; reflexivity|].
  edestruct (storage_put_safe (MB := unit) (W := Env) (1, [] : list N) (announcement 9) start) as [_ Hp]; [exact demo_db_ok| |vm_compute; reflexivity|].
  - intros n g Hn. cbn in Hn. apply lookup_singleton_Some in Hn as [<- _]. reflexivity.
  - destruct (Hp _ eq_refl) as (_ & u & Hu & Hs). vm_compute in Hu. injection Hu as <-. exact Hs.
Defined.
(** [provider_untracked]: what comes from somebody else is not fetched. *)
Example provider_untracked : announce 2 9 start = (Done Uninteresting, start).
Proof. vm_compute. reflexivity. Qed.
(** [over_quota]: nor is it when there were too many fetches, which looks to others as if it was known. *)
Example over_quota : announce 1 9 (MkEnv [] demo_db 1 0 []) = (Done Stale, MkEnv [] demo_db 1 0 []).
Proof. vm_compute. reflexivity. Qed.
(** [lying_provider]: an announcement of a revision that is not there after the fetch goes no further. *)
Example lying_provider : (announce 1 10 start).1 = Done Stale /\ e_runs (announce 1 10 start).2 = [true].
Proof. vm_compute. done. Qed.
(** [known_urn_cloned]: the URN is in the storage, but not yet the references of the peer the announcement comes from: it is cloned
    as if it was not there. *)
Definition known_urn : Env :=
  match urn_reference_name (MB := unit) (GE := bool) (urn_new 7) with EOk name => MkEnv [(name, DirectRef 4)] demo_db 1 1 [] | _ => start end.
Example known_urn_cloned : has_urn (MB := unit) (e_git known_urn) (urn_new 7) = EOk true /\ e_runs (announce 1 9 known_urn).2 = [true].
Proof. vm_compute. done. Qed.
End PeerWitness.
