(* ===== verification/RequestPull.v ===== *)
(** * Requests to pull, and what a node tracks

    [cli/linkd-lib/src/tracking.rs] and [request_pull.rs]: the selection of peers and URNs a node tracks, the routine that
    tracks and replicates what is announced, and the guard of requests to pull; [librad/src/net/protocol/request_pull.rs] and
    [io/recv/request_pull.rs]: handling such a request, on the storage of [PeerStorage.v] and the tracking of [Tracking.v].
    Texts of messages are the values they are made of. *)
From stdpp Require Import base list gmap.
From Stdlib Require Import NArith Lia.
From S2P Require Import Prelude Effects TrackingConfig Refdb Policy Tracking Batch Broadcast.
From S2P Require Import RefFormat RefName Keys UrnText LibradRef SignedRefs StorageRead ReplicationSafety IdentityWitness ContextTracking PeerStorage.
#[local] Open Scope N_scope.

(** ** Selections *)

Section Selecting.
Context {P U : Type} `{OrdKey P} `{OrdKey U}.

Record Pair := MkPair { pair_peer : P; pair_urn : U }.
Inductive Selection := SelPeer (p : P) | SelUrn (u : U) | SelPair (p : Pair).
Definition Selected : Type := list Selection.
Inductive Tracker := Everything | TrackSelected (s : Selected).

Definition selection_is_tracked (s : Selection) (peer : P) (urn : U) : bool :=
  match s with
  | SelPeer p => bool_decide (p = peer)
  | SelUrn u => bool_decide (u = urn)
  | SelPair pr => bool_decide (pair_peer pr = peer) && bool_decide (pair_urn pr = urn)
  end.
Definition tracker_is_tracked (t : Tracker) (peer : P) (urn : U) : bool :=
  match t with Everything => true | TrackSelected s => existsb (fun s => selection_is_tracked s peer urn) s end.
(** [request_pull::Guard] of [Selection], [Selected] and [Tracker]. *)
Definition selection_guard (s : Selection) (peer : P) (urn : U) : bool :=
  match s with
  | SelPeer p => bool_decide (p = peer)
  | SelUrn u => bool_decide (u = urn)
  | SelPair pr => bool_decide (pair_peer pr = peer) && bool_decide (pair_urn pr = urn)
  end.
Definition selected_guard (s : Selected) (peer : P) (urn : U) : bool := existsb (fun s => selection_guard s peer urn) s.
Definition tracker_guard (t : Tracker) (peer : P) (urn : U) : bool :=
  match t with Everything => true | TrackSelected s => selected_guard s peer urn end.

(** [Selected::new] *)
Fixpoint select_pairs (pairs : list Pair) (peers : gset P) (urns : gset U) : Selected * gset P * gset U :=
  match pairs with
  | [] => ([], peers, urns)
  | pr :: pairs =>
      let '(sel, ps, us) := select_pairs pairs (peers ∖ {[ pair_peer pr ]}) (urns ∖ {[ pair_urn pr ]}) in
      (SelPair pr :: sel, ps, us)
  end.
Definition selected_new (peers : list P) (urns : list U) (pairs : list Pair) : Selected :=
  let '(sel, ps, us) := select_pairs pairs (list_to_set peers) (list_to_set urns) in
  sel ++ map SelPeer (bset_iter ps) ++ map SelUrn (bset_iter us).
Definition selected_peers (s : Selected) : list P := omap (fun s => match s with SelPeer p => Some p | _ => None end) s.
Definition selected_urns (s : Selected) : list U := omap (fun s => match s with SelUrn u => Some u | _ => None end) s.
Definition selected_pairs (s : Selected) : list Pair := omap (fun s => match s with SelPair p => Some p | _ => None end) s.

(** *** What is selected *)

Lemma select_pairs_spec pairs : forall peers urns, exists ps us, select_pairs pairs peers urns = (map SelPair pairs, ps, us) /\
  (forall p, p ∈ ps <-> p ∈ peers /\ p ∉ map pair_peer pairs) /\ (forall u, u ∈ us <-> u ∈ urns /\ u ∉ map pair_urn pairs).
Proof.
  induction pairs as [|pr pairs IH]; intros peers urns; cbn [select_pairs map].
  - exists peers, urns. split_and!; [done|intros; split; [intros; split; [done|apply not_elem_of_nil]|tauto]..].
  - destruct (IH (peers ∖ {[pair_peer pr]}) (urns ∖ {[pair_urn pr]})) as (ps & us & -> & Hp & Hu). exists ps, us.
    split_and!; [done|intros x; rewrite Hp|intros x; rewrite Hu]; rewrite elem_of_difference, elem_of_singleton, not_elem_of_cons; tauto.
Qed.

(** [selected_exact]: a selection guards requests as it tracks announcements: a peer and URN are selected exactly when they are as a pair,
    or the peer is and is in no pair, or the URN is and is in no pair.  So a pair takes away from what the peer or the URN on
    its own would select. *)
Theorem selected_exact peers urns pairs p u :
  selected_guard (selected_new peers urns pairs) p u = tracker_is_tracked (TrackSelected (selected_new peers urns pairs)) p u /\
  (selected_guard (selected_new peers urns pairs) p u = true <->
     MkPair p u ∈ pairs \/ (p ∈ peers /\ p ∉ map pair_peer pairs) \/ (u ∈ urns /\ u ∉ map pair_urn pairs)).
Proof.
  split; [done|]. unfold selected_guard, selected_new. destruct (select_pairs_spec pairs (list_to_set peers) (list_to_set urns)) as (ps & us & -> & Hp & Hu).
  rewrite !existsb_app, !orb_true_iff, !existsb_exists. setoid_rewrite in_map_iff. setoid_rewrite <- list_elem_of_In. repeat apply Morphisms_Prop.or_iff_morphism.
  - split.
    + intros (s & ([p' u'] & <- & Hin) & [Ha Hb]%andb_true_iff). apply bool_decide_eq_true in Ha, Hb. cbn in Ha, Hb. by subst.
    + intros Hin. exists (SelPair (MkPair p u)). split; [by exists (MkPair p u)|]. cbn. by rewrite !bool_decide_true.
  - setoid_rewrite elem_of_bset_iter. setoid_rewrite Hp. setoid_rewrite elem_of_list_to_set. split.
    + intros (s & (p' & <- & Hin) & Ha). apply bool_decide_eq_true in Ha. by subst.
    + intros Hin. exists (SelPeer p). split; [by exists p|]. by apply bool_decide_eq_true.
  - setoid_rewrite elem_of_bset_iter. setoid_rewrite Hu. setoid_rewrite elem_of_list_to_set. split.
    + intros (s & (u' & <- & Hin) & Ha). apply bool_decide_eq_true in Ha. by subst.
    + intros Hin. exists (SelUrn u). split; [by exists u|]. by apply bool_decide_eq_true.
Qed.
End Selecting.
Arguments Pair : clear implicits.
Arguments Selection : clear implicits.
Arguments Selected : clear implicits.
Arguments Tracker : clear implicits.

(** ** URNs in selections *)

#[export] Instance text_urn_eq_dec : EqDecision (UrnText.Urn N).
Proof. solve_decision. Defined.
#[export] Program Instance text_urn_countable : Countable (UrnText.Urn N) :=
  inj_countable' (fun u => (urn_id u, urn_path u)) (fun p => MkUrn p.1 p.2) _.
Next Obligation. by intros []. Qed.
#[export] Program Instance ord_text_urn : OrdKey (UrnText.Urn N) := {|
  key_le := fun u v => key_le (urn_id u, urn_path u) (urn_id v, urn_path v);
|}.
Next Obligation. intros u v. apply _. Defined.
Next Obligation. intros u v. apply (total key_le). Qed.
Next Obligation. intros u v w. apply (transitivity (R:=key_le)). Qed.
Next Obligation.
  intros [i p] [j q] H1 H2. pose proof (anti_symm key_le (i, p) (j, q) H1 H2). congruence.
Qed.

(** [FromStr for Pair]; the peer is its key. *)
Inductive PairError (MB MH IE : Type) : Type :=
| PairMalformed | PairPeer (e : ConversionError (MB := MB)) | PairUrn (e : FromStr (DecodeId MB MH IE)).
Arguments PairMalformed {MB MH IE}. Arguments PairPeer {MB MH IE} e. Arguments PairUrn {MB MH IE} e.
Definition pair_from_str {MB MH IE} `{HasProtocol N MH IE} `{Multibase MB} `{Utf8.PercentEncoding} (s : list N) :
    eff (PairError MB MH IE) (Pair (list N) (UrnText.Urn N)) :=
  match splitn2 44 s with
  | (_, None) => EErr PairMalformed
  | (peer, Some urn) =>
      p ← of_out (from_default_encoding peer);
      p ← of_res_with PairPeer p;
      u ← of_res_with PairUrn (urn_from_str urn);
      EOk (MkPair p (with_path None u))
  end.

(** ** The node *)

(** What is used of the node beyond [PeerEnv]. *)
Class NodeEnv (W D X A M IE CE : Type) := {
  ne_set_tracking : Db D X -> W -> W;
  ne_members : W -> M;                                     (** the membership protocol *)
  ne_init : W -> option IE;                                (** an error of [Replication::new] *)
  ne_replicate : N * list A -> UrnText.Urn N -> st W CE unit;  (** [Client::replicate] *)
}.

Inductive GuardError (PE : Type) : Type := GuardInit (e : PE) | GuardIsTracked (e : OpError) | GuardTrack (e : OpError) | Rejected (urn : UrnText.Urn N).
Arguments GuardInit {PE} e. Arguments GuardIsTracked {PE} e. Arguments GuardTrack {PE} e. Arguments Rejected {PE} urn.
Record Guarded := MkGuarded { g_tracked : option (result (PreviousError N) Tracking.Ref); g_urn : UrnText.Urn N }.

Inductive RequestError (MB GE PE RE IE : Type) : Type :=
| RequestReplication (e : ReplicateError MB GE RE) | RequestPool (e : PE) | RequestInit (e : IE) | RequestRead (e : ReadError MB GE).
Arguments RequestReplication {MB GE PE RE IE} e. Arguments RequestPool {MB GE PE RE IE} e.
Arguments RequestInit {MB GE PE RE IE} e. Arguments RequestRead {MB GE PE RE IE} e.

(** [Response], with what its messages say. *)
Record Success := MkSuccess { s_refs : list (list N * N); s_pruned : list (list N) }.
Inductive Progress := Authorizing (urn : UrnText.Urn N) | GuardPassed (g : Guarded) | Replicating (urn : UrnText.Urn N).
Inductive Response (MB GE PE RE IE : Type) : Type :=
| RSuccess (s : Success) | RGuardError (e : GuardError PE) | RReplicationError (e : RequestError MB GE PE RE IE) | RProgress (p : Progress).
Arguments RSuccess {MB GE PE RE IE} s. Arguments RGuardError {MB GE PE RE IE} e.
Arguments RReplicationError {MB GE PE RE IE} e. Arguments RProgress {MB GE PE RE IE} p.

(** [Gossip::Put] as the routine sees it, and other events. *)
Inductive NodeEvent (A : Type) : Type :=
| PutEvent (urn : UrnText.Urn N) (peer : N) (seen_addrs : list A) (result : PutResult (Payload (UrnText.Urn N)))
| OtherEvent.
Arguments PutEvent {A} urn peer seen_addrs result. Arguments OtherEvent {A}.

Section Node.
Context {W G GE D X A Conn PE RE MB MH IE M InitE CE : Type}.
Context `{Tracking.Git2} `{Tracking.Odb D Config} `{Git2Repo G GE} `{HasProtocol N MH IE} `{Multibase MB} `{Globset} `{PeerKeys}.
Context `{PeerEnv W G D X A Conn PE RE (list Refdb.Updated)} `{NodeEnv W D X A M InitE CE} `{Membership M}.
Abbreviation Urn := (UrnText.Urn N) (only parsing).
Abbreviation Resp := (Response MB GE PE RE InitE) (only parsing).

(** *** The guard *)

Definition linkd_guard (tracker : option (Tracker N Urn)) (peer : N) (urn : Urn) : st W (GuardError PE) Guarded := fun w =>
  match tracker with
  | None => (EErr (Rejected urn), w)
  | Some tracker =>
      if negb (tracker_guard tracker peer urn) then (EErr (Rejected urn), w)
      else match pe_pool w with
      | Some e => (EErr (GuardInit e), w)
      | None =>
          match Tracking.is_tracked (tracking_urn urn) (Some peer) (pe_tracking w) with
          | Err e => (EErr (GuardIsTracked e), w)
          | Ok true => (EOk (MkGuarded None urn), w)
          | Ok false =>
              match track (tracking_urn urn) (Some peer) config_default TrackMustNotExist (pe_tracking w) with
              | Panic => (EPanic, w)
              | Done (Err e, db) => (EErr (GuardTrack e), ne_set_tracking db w)
              | Done (Ok x, db) => (EOk (MkGuarded (Some x) urn), ne_set_tracking db w)
              end
          end
      end
  end.

(** *** Handling a request *)

(** The references of a run, a symbolic one with what its target is at. *)
Fixpoint success_of (g : G) (ups : list Refdb.Updated) (acc : Success) : result (ReadError MB GE) Success :=
  match ups with
  | [] => Ok acc
  | UpdatedDirect name target :: ups => success_of g ups (MkSuccess (s_refs acc ++ [(name, target)]) (s_pruned acc))
  | UpdatedSymbolic name target :: ups =>
      oid ← storage_reference_oid (MB := MB) g target;
      success_of g ups (MkSuccess (s_refs acc ++ [(name, oid)]) (s_pruned acc))
  | UpdatedPrune name :: ups => success_of g ups (MkSuccess (s_refs acc) (s_pruned acc ++ [name]))
  end.
(** [State::replicate]: with slots of its own, so that one is always free. *)
Definition request_replicate (conn : Conn) (urn : Urn) : st W (RequestError MB GE PE RE InitE) Success := fun w =>
  match ne_init w with
  | Some e => (EErr (RequestInit e), w)
  | None =>
      match pe_pool w with
      | Some e => (EErr (RequestPool e), w)
      | None =>
          match replicate_blocking (MB := MB) conn urn w with
          | (EErr e, w) => (EErr (RequestReplication e), w)
          | (EPanic, w) => (EPanic, w)
          | (EOk ups, w) =>
              match pe_pool w with
              | Some e => (EErr (RequestPool e), w)
              | None => (of_res_with RequestRead (success_of (pe_git w) ups (MkSuccess [] [])), w)
              end
          end
      end
  end.

(** The announcements of [control::gossip], each to a recipient. *)
Definition announce (w : W) (exclude : N) (urn : Urn) (oid : N) : list (N * Payload Urn) :=
  map (fun to => (to, MkPayload _ urn (Some (Git oid)) None)) (members (ne_members w) (Some exclude)).
Definition request_gossip (w : W) (exclude : N) (urn : Urn) (revs : list N) : list (N * Payload Urn) := flat_map (announce w exclude urn) revs.

(** [handle_request]: what is sent back, in order, and what is announced. *)
Definition handle_request (tracker : option (Tracker N Urn)) (peer : N) (urn : Urn) (conn : Conn) :
    W -> outcome (list Resp * list (N * Payload Urn)) * W := fun w =>
  match linkd_guard tracker peer urn w with
  | (EErr e, w) => (Done ([RProgress (Authorizing urn); RGuardError e], []), w)
  | (EPanic, w) => (Panic, w)
  | (EOk g, w) =>
      let progress := [RProgress (Authorizing urn); RProgress (GuardPassed g); RProgress (Replicating urn)] in
      match request_replicate conn urn w with
      | (EErr e, w) => (Done (progress ++ [RReplicationError e], []), w)
      | (EPanic, w) => (Panic, w)
      | (EOk s, w) => (Done (progress ++ [RSuccess s], request_gossip w peer urn (s_refs s).*2), w)
      end
  end.

(** *** The tracking routine *)

(** [tracking::track] and what came of it: whether the entry is new. *)
Definition track_announced (urn : Urn) (peer : N) (w : W) : outcome (option bool * W) :=
  match pe_pool w with
  | Some _ => Done (None, w)
  | None =>
      '(r, db) ← track (tracking_urn urn) (Some peer) config_default TrackMustNotExist (pe_tracking w);
      Done (match r with Err _ => None | Ok x => Some (is_ok x) end, ne_set_tracking db w)
  end.
(** One event of [routine]; errors are logged. *)
Definition routine_event (tracker : Tracker N Urn) (ev : NodeEvent A) (w : W) : outcome W :=
  match ev with
  | OtherEvent => Done w
  | PutEvent urn peer addrs result =>
      match result with
      | Uninteresting =>
          if negb (tracker_is_tracked tracker peer urn) then Done w
          else
            '(updated, w) ← track_announced urn peer w;
            match updated with
            | Some true =>
                match ne_replicate (peer, addrs) urn w with
                | (EPanic, _) => Panic
                | (_, w) => Done w
                end
            | _ => Done w
            end
      | _ => Done w
      end
  end.
End Node.

(** ** Properties *)

Section Properties.
Context {W G GE D X A Conn PE RE MB MH IE M InitE CE : Type}.
Context `{Tracking.Git2} `{Tracking.Odb D Config} `{Git2Repo G GE} `{HasProtocol N MH IE} `{Multibase MB} `{Globset} `{PeerKeys}.
Context `{PE0 : PeerEnv W G D X A Conn PE RE (list Refdb.Updated)} `{NE0 : NodeEnv W D X A M InitE CE} `{Membership M}.
Hypothesis set_tracking_get : forall db w, pe_tracking (ne_set_tracking db w) = db.

(** Tracking a peer that is not to be there yet. *)
Lemma track_new_spec u p (db : Db D X) r db' : db_ok db -> track u (Some p) config_default TrackMustNotExist db = Done (Ok r, db') ->
  db_ok db' /\ is_Some (entry db' u (Some p)) /\ (is_ok r = true <-> entry db u (Some p) = None) /\
  entry db' u (Some p) = Some (default config_default (entry db u (Some p))) /\
  forall u' p', refname_new u' p' <> refname_new u (Some p) -> entry db' u' p' = entry db u' p'.
Proof.
  intros Hok Ht. unfold track in Ht. destruct (write_config config_default (objects db)) as [[o d']|] eqn:Hw; [|done].
  destruct (update _ _) as [[a|e] r'] eqn:Hu; [|done].
  destruct (track_update_spec u (Some p) config_default TrackMustNotExist db o d' a r' Hok Hw Hu) as (Hok' & He & Hoth & x & Hx & Hadm).
  rewrite Hx in Ht. cbn [mbind outcome_bind] in Ht. injection Ht as <- <-. change (set_refs (set_objects db d') r') with (MkDb r' d' (others db)).
  split; [done|]. rewrite He. split_and!; [by destruct (entry db u (Some p)); eexists| |by destruct (entry db u (Some p))|done].
  rewrite Hadm. cbn [previous_of_track admits]. pose proof (entry_ref db u (Some p) Hok) as Hr. destruct (entry db u (Some p)) eqn:Ee.
  - destruct (proj1 Hr ltac:(by eexists)) as [o' Ho']. rewrite Ho'. done.
  - destruct (Tracking.refs db !! refname_new u (Some p)) as [g|] eqn:Eg; [|done].
    destruct (Hok _ _ Eg) as [c Hc]. destruct g as [o'|]; [|done]. exfalso. by destruct (proj2 Hr (ex_intro _ o' eq_refl)).
Qed.

(** [guard_tracks]: a request that passes the guard is selected, its peer is tracked for its URN afterwards, with the default configuration if
    it was not before, and nothing else is tracked or untracked; one that is rejected has no effect. *)
Lemma guard_tracks tracker p u w r w' : db_ok (pe_tracking w) -> linkd_guard tracker p u w = (r, w') ->
  match r with
  | EOk _ => (exists t, tracker = Some t /\ tracker_guard t p u = true) /\ db_ok (pe_tracking w') /\
      entry (pe_tracking w') (tracking_urn u) (Some p) = Some (default config_default (entry (pe_tracking w) (tracking_urn u) (Some p))) /\
      forall u' p', refname_new u' p' <> refname_new (tracking_urn u) (Some p) -> entry (pe_tracking w') u' p' = entry (pe_tracking w) u' p'
  | EErr (Rejected _) => w' = w
  | _ => exists t, tracker = Some t /\ tracker_guard t p u = true
  end.
Proof using set_tracking_get.
  intros Hok. unfold linkd_guard. destruct tracker as [t|]; [|by intros [= <- <-]]. destruct (tracker_guard t p u) eqn:Hg; cbn [negb]; [|by intros [= <- <-]].
  assert (exists t0, Some t = Some t0 /\ tracker_guard t0 p u = true) as Hex by (by exists t).
  destruct (pe_pool w); [by intros [= <- <-]|]. destruct (Tracking.is_tracked _ _ _) as [[]|] eqn:Et; [| |by intros [= <- <-]].
  - intros [= <- <-]. split; [done|]. split; [done|]. split; [|done]. unfold Tracking.is_tracked, find_reference in Et.
    destruct (git_fails _ _); [done|]. pose proof (entry_ref (pe_tracking w) (tracking_urn u) (Some p) Hok) as Hr.
    destruct (Tracking.refs _ !! refname_new _ _) as [[o|]|]; [|done..]. destruct (proj2 Hr (ex_intro _ o eq_refl)) as [c Hc]. by rewrite Hc.
  - destruct (track _ _ _ _ _) as [[[x|e] db]|] eqn:Ek; [|by intros [= <- <-]..]. intros [= <- <-]. rewrite set_tracking_get.
    destruct (track_new_spec _ _ _ _ _ Hok Ek) as (? & _ & _ & ? & ?). by split_and!.
Qed.

Lemma success_of_refs (g : G) ups : forall acc s, success_of (MB := MB) g ups acc = Ok s ->
  forall name oid, (name, oid) ∈ s_refs s -> (name, oid) ∈ s_refs acc \/ UpdatedDirect name oid ∈ ups \/
    exists t, UpdatedSymbolic name t ∈ ups /\ storage_reference_oid (MB := MB) g t = Ok oid.
Proof.
  induction ups as [|[n t|n t|n] ups IH]; intros acc s; cbn [success_of].
  - intros [= <-]. by left.
  - intros Hs name oid Hin. apply (IH _ _ Hs) in Hin as [Hin|[Hin|(t' & Hin & Ho)]].
    + cbn in Hin. apply elem_of_app in Hin as [Hin|[= -> ->]%list_elem_of_singleton]; [by left|right; left; by left].
    + right. left. by right.
    + right. right. exists t'. split; [by right|done].
  - intros (o & Ho & Hs)%res_bind_ok name oid Hin. apply (IH _ _ Hs) in Hin as [Hin|[Hin|(t' & Hin & Ho')]].
    + cbn in Hin. apply elem_of_app in Hin as [Hin|[= -> ->]%list_elem_of_singleton]; [by left|]. right. right. exists t. split; [by left|done].
    + right. left. by right.
    + right. right. exists t'. split; [by right|done].
  - intros Hs name oid Hin. apply (IH _ _ Hs) in Hin as [Hin|[Hin|(t' & Hin & Ho)]]; [by left|right; left; by right|right; right; exists t'; split; [by right|done]].
Qed.
Lemma elem_of_gossip (w : W) p u revs to pay : (to, pay) ∈ request_gossip w p u revs ->
  to <> p /\ is_member (ne_members w) to = true /\ exists oid, oid ∈ revs /\ pay = MkPayload _ u (Some (Git oid)) None.
Proof.
  unfold request_gossip, announce. intros Hin. apply list_elem_of_In, in_flat_map in Hin as (oid & Ho & Hin).
  apply in_map_iff in Hin as (to' & [= -> <-] & Hm%list_elem_of_In). split_and!.
  - intros ->. by apply members_exclude in Hm.
  - by eapply members_member.
  - exists oid. split; [by apply list_elem_of_In|done].
Qed.

(** The guard changes nothing but the tracking of the peer that asks. *)
Lemma guard_changes tracker p u (w : W) r w' : linkd_guard tracker p u w = (r, w') ->
  w' = w \/ exists x db, track (tracking_urn u) (Some p) config_default TrackMustNotExist (pe_tracking w) = Done (x, db) /\ w' = ne_set_tracking db w.
Proof using.
  unfold linkd_guard. destruct tracker as [t|]; [|intros [= _ <-]; by left]. case_match; [intros [= _ <-]; by left|].
  destruct (pe_pool w); [intros [= _ <-]; by left|]. destruct (Tracking.is_tracked _ _ _) as [[]|]; [intros [= _ <-]; by left| |intros [= _ <-]; by left].
  destruct (track _ _ _ _ _) as [[[x|e] db]|]; intros [= _ <-]; [right; by eexists _, _..|by left].
Qed.

(** C15 [request_pull_safe]: handling a request to pull.  One that is not selected is answered with its rejection and has no other effect.
    When the guard fails, nothing is done but what it did, which is at most to track the peer that asks for the URN.  Otherwise that
    peer is tracked, and replication is run once, on the state the guard left; the answer is what came of it, and nothing else is
    changed.  Announcements are made only when the run succeeded, of the URN at revisions that are in the answer, and to members other than
    the peer that asked. *)
Theorem request_pull_safe tracker p u conn (w : W) msgs anns w' (Hok : db_ok (pe_tracking w))
    (Hreq : handle_request (MB := MB) tracker p u conn w = (Done (msgs, anns), w')) :
  (match tracker with Some t => tracker_guard t p u | None => false end = false ->
     msgs = [RProgress (Authorizing u); RGuardError (Rejected u)] /\ anns = [] /\ w' = w) /\
  exists r w1, linkd_guard tracker p u w = (r, w1) /\
  (w1 = w \/ exists x db, track (tracking_urn u) (Some p) config_default TrackMustNotExist (pe_tracking w) = Done (x, db) /\ w1 = ne_set_tracking db w) /\
  ((exists e, r = EErr e /\ w' = w1 /\ msgs = [RProgress (Authorizing u); RGuardError e] /\ anns = []) \/
   exists g resp, r = EOk g /\ is_Some (entry (pe_tracking w1) (tracking_urn u) (Some p)) /\
     w' = (request_replicate (MB := MB) conn u w1).2 /\
     match (request_replicate (MB := MB) conn u w1).1 with EOk s => resp = RSuccess s | EErr e => resp = RReplicationError e /\ anns = [] | EPanic => False end /\
     msgs = [RProgress (Authorizing u); RProgress (GuardPassed g); RProgress (Replicating u); resp] /\
     forall to pay, (to, pay) ∈ anns -> to <> p /\ is_member (ne_members w') to = true /\
       exists s name oid, resp = RSuccess s /\ (name, oid) ∈ s_refs s /\ pay = MkPayload _ u (Some (Git oid)) None).
Proof.
  split.
  - intros Hsel. unfold handle_request, linkd_guard in Hreq. destruct tracker as [t|]; [rewrite Hsel in Hreq|]; by injection Hreq as <- <- <-.
  - unfold handle_request in Hreq. destruct (linkd_guard tracker p u w) as [r w1] eqn:Hg. pose proof (guard_tracks _ _ _ _ _ _ Hok Hg) as Ht.
    exists r, w1. split; [done|]. split; [by eapply guard_changes|].
    destruct r as [g|e|]; [|injection Hreq as <- <- <-; left; by exists e|done]. right. destruct Ht as (_ & _ & He & _).
    destruct (request_replicate conn u w1) as [[s|e|] w2]; [| |done]; injection Hreq as <- <- <-; (eexists g, _; split_and!; [done|by rewrite He; eexists|done|done|done|]).
    + intros to pay (Hne & Hm & oid & Ho & ->)%elem_of_gossip. split; [done|]. split; [done|]. apply list_elem_of_fmap in Ho as ([name oid'] & -> & Hin).
      by exists s, name, oid'.
    + by intros to pay ?%elem_of_nil.
Qed.

(** [routine_safe]: the tracking routine only acts on announcements of selected peers and URNs that were not interesting: those it tracks, with the
    default configuration unless they are tracked already, and it replicates exactly what it has newly tracked. *)
Theorem routine_safe tracker ev (w w' : W) : db_ok (pe_tracking w) -> routine_event (CE := CE) tracker ev w = Done w' ->
  w' = w \/ exists u p addrs, ev = PutEvent u p addrs Uninteresting /\ tracker_is_tracked tracker p u = true /\
    ((exists e db, track (tracking_urn u) (Some p) config_default TrackMustNotExist (pe_tracking w) = Done (Err e, db) /\ w' = ne_set_tracking db w) \/
     exists w1, db_ok (pe_tracking w1) /\
       entry (pe_tracking w1) (tracking_urn u) (Some p) = Some (default config_default (entry (pe_tracking w) (tracking_urn u) (Some p))) /\
       (forall u' p', refname_new u' p' <> refname_new (tracking_urn u) (Some p) -> entry (pe_tracking w1) u' p' = entry (pe_tracking w) u' p') /\
       w' = if decide (entry (pe_tracking w) (tracking_urn u) (Some p) = None) then (ne_replicate (p, addrs) u w1).2 else w1).
Proof using set_tracking_get.
  intros Hok. destruct ev as [u p addrs res|]; [|intros [= ->]; by left]. destruct res; cbn [routine_event]; try (intros [= ->]; by left).
  destruct (tracker_is_tracked tracker p u) eqn:Ht; cbn [negb]; [|intros [= ->]; by left]. unfold track_announced.
  destruct (pe_pool w); [intros [= ->]; by left|]. destruct (track _ _ _ _ _) as [[[x|e] db]|] eqn:Ek; [| |done]; cbn [mbind outcome_bind].
  - destruct (track_new_spec _ _ _ _ _ Hok Ek) as (Hok' & _ & Hnew & He & Hoth). intros Hr. right. exists u, p, addrs. split; [done|]. split; [done|].
    right. exists (ne_set_tracking db w). rewrite set_tracking_get. split_and!; [done..|].
    destruct (is_ok x) eqn:Ex; case_decide as Hd; [|by destruct Hd; apply Hnew|..].
    + destruct (ne_replicate _ _ _) as [[| |] w2]; [by injection Hr as <-..|done].
    + exfalso. apply Hnew in Hd. congruence.
    + by injection Hr as <-.
  - intros [= <-]. right. exists u, p, addrs. split; [done|]. split; [done|]. left. by exists e, db.
Qed.
End Properties.

(** ** A concrete node *)

Module NodeWitness.
Import ReplicationWitness.
#[local] Existing Instance world_repo.
#[local] Existing Instance Memory.decimal_ids.
#[local] Existing Instance ZBase32.z_multibase.
#[local] Existing Instance ContextMemory.config_store.
#[local] Instance some_glob : Globset := fun _ _ => true.
#[local] Instance byte_keys : PeerKeys := fun p => repeat 0 31 ++ [p mod 256].

Record Node := MkNode { n_git : World; n_tracking : Db (gset N) unit; n_runs : list bool }.
Definition node_run (clone : bool) (urn : UrnText.Urn N) : st Node unit (list Refdb.Updated) := fun n =>
  (EOk [UpdatedDirect [1] 9; UpdatedSymbolic [2] [1]; UpdatedPrune [3]], MkNode (([1], DirectRef 9) :: n_git n) (n_tracking n) (clone :: n_runs n)).
#[local] Instance node_env : PeerEnv Node World (gset N) unit N unit unit unit (list Refdb.Updated) := {|
  pe_peer_id _ := 3;
  pe_git := n_git;
  pe_tracking := n_tracking;
  pe_pool _ := None;
  pe_contains _ _ := true;
  pe_check_key _ n := (true, n);
  pe_connect _ n := (Some tt, n);
  pe_slots _ := 1%nat;
  pe_set_slots _ n := n;
  pe_user_name _ := None;
  pe_pull _ := node_run false;
  pe_clone _ := node_run true;
|}.
#[local] Program Instance three_members : Membership unit := {|
  members _ e := filter (fun p => e <> Some p) [1; 2; 4];
  is_member _ p := bool_decide (p ∈ [1; 2; 4]);
|}.
Next Obligation. intros m p Hp. apply list_elem_of_filter in Hp as [Hp _]. done. Qed.
Next Obligation. intros m e p Hp. apply list_elem_of_filter in Hp as [_ Hp]. by apply bool_decide_eq_true. Qed.
#[local] Instance node : NodeEnv Node (gset N) unit N unit unit unit := {|
  ne_set_tracking db n := MkNode (n_git n) db (n_runs n);
  ne_members _ := tt;
  ne_init _ := None;
  ne_replicate _ urn n := (EOk tt, (node_run true urn n).2);
|}.
Definition fresh : Node := MkNode [] (MkDb ∅ ∅ tt) [].
Definition only (p : N) : option (Tracker N (UrnText.Urn N)) := Some (TrackSelected (selected_new [p] [] [])).
Abbreviation request tracker := (handle_request (MB := unit) (GE := bool) (PE := unit) (RE := unit) (InitE := unit) (CE := unit) tracker 2 (urn_new 7) tt).

Lemma request_pull_safe_witness : exists msgs w', request (only 2) fresh =
    (Done (msgs, [(1, MkPayload _ (urn_new 7) (Some (Git 9)) None); (4, MkPayload _ (urn_new 7) (Some (Git 9)) None);
                  (1, MkPayload _ (urn_new 7) (Some (Git 9)) None); (4, MkPayload _ (urn_new 7) (Some (Git 9)) None)]), w') /\
  exists g w1, linkd_guard (only 2) 2 (urn_new 7) fresh = (EOk g, w1) /\ is_Some (entry (n_tracking w1) (tracking_urn (urn_new 7)) (Some 2)) /\
    w' = (request_replicate (MB := unit) (GE := bool) (PE := unit) (RE := unit) (InitE := unit) tt (urn_new 7) w1).2.
Proof.
  eexists _, _. split; [vm_compute; reflexivity|].
  assert (forall (db : Db (gset N) unit) (w : Node), pe_tracking (ne_set_tracking db w) = db) as Hset by done.
  edestruct (request_pull_safe (MB := unit) (GE := bool) (PE := unit) (RE := unit) (InitE := unit) (CE := unit) Hset (only 2) 2 (urn_new 7) tt fresh) as [_ Hr];
    [by intros n g Hn|vm_compute; reflexivity|].
  destruct Hr as (r & w1 & Hg & _ & [(e & _ & _ & He & _)|(g & resp & -> & He & Hw & _)]); [discriminate He|exists g, w1; split; [exact Hg|]; split; [exact He|exact Hw]].
Defined.
(** [stranger_rejected]: a peer that is not selected has no effect. *)
Example stranger_rejected : request (only 5) fresh = (Done ([RProgress (Authorizing (urn_new 7)); RGuardError (Rejected (urn_new 7))], []), fresh).
Proof. vm_compute. reflexivity. Qed.
(** [path_not_selected]: a URN is selected as it was given: an announcement that says where in it something is new does not match. *)
Example path_not_selected : tracker_is_tracked (TrackSelected (selected_new [] [urn_new 7] [] : Selected N (UrnText.Urn N))) 2 (MkUrn 7 (Some DEFAULT_PATH)) = false.
Proof. vm_compute. reflexivity. Qed.
(** [pair_narrows]: selecting a peer for one URN as well takes away the others. *)
Example pair_narrows : selected_guard (selected_new [2] [] [MkPair 2 (urn_new 7)] : Selected N (UrnText.Urn N)) 2 (urn_new 8) = false.
Proof. vm_compute. reflexivity. Qed.
End NodeWitness.
