(* ===== verification/Processes.v ===== *)
(** * The git processes of a server

    [cli/gitd-lib/src/processes.rs]: the loop that starts git processes for the clients of a server, passes their input on, and
    waits for them to end.  What [select!] finds ready is an event, so that the interleavings of completed processes, new
    requests and input are the sequences of events.  A process is a task with a number of its own; when it has closed
    its input, but is not completed yet, sending to it fails. *)
From stdpp Require Import base list gmap.
From Stdlib Require Import NArith Lia.
From S2P Require Import Prelude.

Section Processes.
Context {Id Data Sig : Type} `{Countable Id}.

Definition MAX_IN_FLIGHT_GITS : nat := 10.

(** [git_subprocess::Message] and [Message]. *)
Inductive SubMessage := SubData (d : Data) | SubEof | SubSignal (s : Sig).
Inductive Message := ToProcess (id : Id) (m : SubMessage) | Stop.
Inductive ProcessRunError := SubprocessDisappeared (id : Id).
(** How a task ended: with a result, or not at all. *)
Inductive TaskResult := TaskOk | TaskReplyError | TaskUnexpected | TaskPanicked | TaskCancelled.

(** The loop's own state; then the number of the next task, the tasks whose input is closed, and what was passed on. *)
Record Processes := MkProcesses {
  process_sends : gmap Id nat;
  running_processes : list (Id * nat);
  stopping : bool;
  next_task : nat;
  gone : gset nat;
  passed_on : list (nat * SubMessage);
}.
Definition processes_new : Processes := MkProcesses ∅ [] false 0 ∅ [].

(** [exec_git] *)
Definition exec_git (id : Id) (s : Processes) : Processes :=
  MkProcesses (<[id := next_task s]> (process_sends s)) (running_processes s ++ [(id, next_task s)]) (stopping s) (S (next_task s)) (gone s) (passed_on s).
(** [Sender::send] *)
Definition sender_send (task : nat) (m : SubMessage) (s : Processes) : option Processes :=
  if bool_decide (task ∈ gone s) then None
  else Some (MkProcesses (process_sends s) (running_processes s) (stopping s) (next_task s) (gone s) (passed_on s ++ [(task, m)])).
Definition send (id : Id) (d : Data) (s : Processes) : result ProcessRunError Processes :=
  match process_sends s !! id with
  | Some task => ok_or (sender_send task (SubData d) s) (SubprocessDisappeared id)
  | None => Ok s
  end.
(** [eof] and [signal] *)
Definition send_ok (id : Id) (m : SubMessage) (s : Processes) : Processes :=
  match process_sends s !! id with Some task => default s (sender_send task m s) | None => s end.
Definition handle_incoming (m : option Message) (s : Processes) : result ProcessRunError Processes :=
  match m with
  | None => Ok s
  | Some (ToProcess id (SubData d)) => send id d s
  | Some (ToProcess id m) => Ok (send_ok id m s)
  | Some Stop => Ok (MkProcesses (process_sends s) (running_processes s) true (next_task s) (gone s) (passed_on s))
  end.
(** [handle_completed]: the task is no longer held; [None] when there is none to wait for. *)
Definition handle_completed (completed : option ((Id * nat) * TaskResult)) (s : Processes) : outcome Processes :=
  match completed with
  | Some (t, r) =>
      let s := MkProcesses (process_sends s) (filter (fun x => x.2 <> t.2) (running_processes s)) (stopping s) (next_task s) (gone s) (passed_on s) in
      match r with
      | TaskPanicked | TaskCancelled => Panic
      | _ => Done (MkProcesses (delete t.1 (process_sends s)) (running_processes s) (stopping s) (next_task s) (gone s) (passed_on s))
      end
  | None => Done s
  end.

(** What happens next. *)
Inductive Event := Completed (task : nat) (r : TaskResult) | NoneRunning | NextExec (id : option Id) | NewIncoming (m : option Message) | InputClosed (task : nat).
Inductive Step := Next (s : Processes) | Returned (r : result ProcessRunError unit) | Panicked | NotReady.

(** One round of [run]. *)
Definition run_step (s : Processes) (e : Event) : Step :=
  if stopping s && bool_decide (running_processes s = []) then Returned (Ok tt)
  else match e with
  | Completed task r =>
      match list_find (fun x => x.2 = task) (running_processes s) with
      | None => NotReady
      | Some (_, t) => match handle_completed (Some (t, r)) s with Done s => Next s | Panic => Panicked end
      end
  | NoneRunning =>
      if bool_decide (running_processes s = []) then match handle_completed None s with Done s => Next s | Panic => Panicked end
      else NotReady
  | NextExec id =>
      if bool_decide (MAX_IN_FLIGHT_GITS < length (running_processes s))%nat || stopping s then NotReady
      else Next (match id with Some id => exec_git id s | None => s end)
  | NewIncoming m => match handle_incoming m s with Ok s => Next s | Err e => Returned (Err e) end
  | InputClosed task =>
      Next (MkProcesses (process_sends s) (running_processes s) (stopping s) (next_task s) ({[ task ]} ∪ gone s) (passed_on s))
  end.
(** The rounds of a loop that goes on; what is not ready does not happen. *)
Inductive steps : Processes -> list Event -> Processes -> Prop :=
| steps_nil s : steps s [] s
| steps_cons s e s1 es s2 : run_step s e = Next s1 -> steps s1 es s2 -> steps s (e :: es) s2.

(** ** Invariants *)

(** Tasks have their own numbers, and no more than one over the maximum are running. *)
Record processes_ok (s : Processes) : Prop := {
  po_bound : (length (running_processes s) <= MAX_IN_FLIGHT_GITS + 1)%nat;
  po_tasks : NoDup (running_processes s).*2;
  po_next : Forall (fun t => (t < next_task s)%nat) (running_processes s).*2;
}.
(** Every running process can be reached under its id, and nothing else. *)
Definition reachable (s : Processes) : Prop :=
  NoDup (running_processes s).*1 /\ forall id t, process_sends s !! id = Some t <-> (id, t) ∈ running_processes s.

Lemma run_step_completed s task r s' : run_step s (Completed task r) = Next s' ->
  exists id, (id, task) ∈ running_processes s /\ running_processes s' = filter (fun x => x.2 <> task) (running_processes s) /\
    process_sends s' = delete id (process_sends s) /\ next_task s' = next_task s /\ stopping s' = stopping s.
Proof.
  unfold run_step. case_match; [done|]. destruct (list_find _ _) as [[i [id t]]|] eqn:Hf; [|done].
  apply list_find_Some in Hf as (Hl & Ht & _). cbn in Ht. subst t. unfold handle_completed. intros Hr. exists id.
  split; [by apply list_elem_of_lookup_2 with i|]. by destruct r; simplify_eq.
Qed.
(** Input and its end only change what was passed on. *)
Lemma incoming_same m s s' : handle_incoming m s = Ok s' ->
  running_processes s' = running_processes s /\ process_sends s' = process_sends s /\ next_task s' = next_task s /\ gone s' = gone s /\
  stopping s' = (stopping s || match m with Some Stop => true | _ => false end).
Proof.
  destruct m as [[id [d| |sg]|]|]; cbn [handle_incoming]; rewrite ?orb_false_r.
  - unfold send, sender_send. destruct (process_sends s !! id); [|by intros [= <-]]. case_bool_decide; cbn; [done|by intros [= <-]].
  - unfold send_ok, sender_send. intros [= <-]. destruct (process_sends s !! id); [|done]. by case_bool_decide.
  - unfold send_ok, sender_send. intros [= <-]. destruct (process_sends s !! id); [|done]. by case_bool_decide.
  - intros [= <-]. by rewrite orb_true_r.
  - by intros [= <-].
Qed.

Lemma none_running_same s s' : run_step s NoneRunning = Next s' -> s' = s.
Proof. unfold run_step. case_match; [done|]. case_match; [|done]. by intros [= ->]. Qed.

Lemma filter_other (l : list (Id * nat)) task : (length (filter (fun x => x.2 <> task) l) <= length l)%nat /\ filter (fun x => x.2 <> task) l `sublist_of` l.
Proof. split; [apply length_filter|apply sublist_filter]. Qed.

Lemma processes_step_ok s e s' : processes_ok s -> run_step s e = Next s' -> processes_ok s'.
Proof.
  intros [Hb Hn Hf] Hs. destruct e as [task r| |id|m|task].
  - apply run_step_completed in Hs as (id & _ & Hr & _ & Hx & _). destruct (filter_other (running_processes s) task) as [Hlen Hsub].
    split; rewrite ?Hr, ?Hx; [lia|by eapply sublist_NoDup; [|apply fmap_sublist]|]. apply Forall_forall. intros t Ht. rewrite Forall_forall in Hf. apply Hf. apply list_elem_of_fmap in Ht as (x & -> & Hin). apply list_elem_of_fmap. exists x. split; [done|]. by apply list_elem_of_filter in Hin as [_ ?].
  - apply none_running_same in Hs as ->. by split.
  - unfold run_step in Hs. case_match; [done|]. destruct (_ || _) eqn:Hg; [done|]. apply orb_false_iff in Hg as [Hg%bool_decide_eq_false _].
    destruct id as [id|]; injection Hs as <-; [|by split]. cbn. unfold MAX_IN_FLIGHT_GITS in *. split; cbn; rewrite ?length_app, ?fmap_app; cbn; [lia| |].
    + apply NoDup_app. split; [done|]. split; [|apply NoDup_singleton]. intros t Ht ->%list_elem_of_singleton. rewrite Forall_forall in Hf. apply Hf in Ht. lia.
    + apply Forall_app. split; [|constructor; [lia|constructor]]. eapply Forall_impl; [exact Hf|]. cbn. intros. lia.
  - unfold run_step in Hs. case_match; [done|]. destruct (handle_incoming m s) eqn:Hm; [|done]. injection Hs as ->.
    apply incoming_same in Hm as (Hr & _ & Hx & _). split; by rewrite ?Hr, ?Hx.
  - unfold run_step in Hs. case_match; [done|]. injection Hs as <-. by split.
Qed.
Lemma processes_steps_ok s es s' : steps s es s' -> processes_ok s -> processes_ok s'.
Proof. induction 1 as [|s e s1 es s2 Hs _ IH]; [done|]. intros Hok. by eapply IH, processes_step_ok. Qed.
Lemma processes_new_ok : processes_ok processes_new.
Proof. split; cbn; [lia|constructor|constructor]. Qed.

(** Ids are not used again while their process is running. *)
Definition fresh_exec (s : Processes) (e : Event) : Prop :=
  match e with NextExec (Some id) => id ∉ (running_processes s).*1 | _ => True end.
Inductive fresh_steps : Processes -> list Event -> Processes -> Prop :=
| fresh_nil s : fresh_steps s [] s
| fresh_cons s e s1 es s2 : run_step s e = Next s1 -> fresh_exec s e -> fresh_steps s1 es s2 -> fresh_steps s (e :: es) s2.
Lemma fresh_steps_steps s es s' : fresh_steps s es s' -> steps s es s'.
Proof. induction 1; by econstructor. Qed.

Lemma task_owner (l : list (Id * nat)) a b t : NoDup l.*2 -> (a, t) ∈ l -> (b, t) ∈ l -> a = b.
Proof.
  induction l as [|[i u] l IH]; cbn; [by intros _ ?%elem_of_nil|]. intros [Hu Hnd]%NoDup_cons Ha Hb.
  assert (forall x, (x, u) ∉ l) as Hno by (intros x Hx; apply Hu, list_elem_of_fmap; by exists (x, u)).
  apply elem_of_cons in Ha as [Ha|Ha]; apply elem_of_cons in Hb as [Hb|Hb]; simplify_eq; [done|by destruct (Hno b)|by destruct (Hno a)|by apply IH].
Qed.
Lemma step_reachable s e s' : processes_ok s -> reachable s -> fresh_exec s e -> run_step s e = Next s' -> reachable s'.
Proof.
  intros Hok [Hnd Hs] Hfr Hr. destruct e as [task r| |id|m|task].
  - apply run_step_completed in Hr as (id & Hin & Hrun & Hsnd & _). destruct (filter_other (running_processes s) task) as [_ Hsub].
    unfold reachable. rewrite Hrun, Hsnd. split; [by eapply sublist_NoDup; [|apply fmap_sublist]|]. intros id' t.
    rewrite lookup_delete_Some, list_elem_of_filter, Hs. cbn. split.
    + intros [Hne Hx]. split; [|done]. intros ->. apply Hne.
      by apply (task_owner _ _ _ _ (po_tasks s Hok) Hin Hx).
    + intros [Hne Hx]. split; [|done]. intros ->. apply Hne. apply Hs in Hin, Hx. congruence.
  - apply none_running_same in Hr as ->. done.
  - unfold run_step in Hr. case_match; [done|]. destruct (_ || _); [done|]. destruct id as [id|]; injection Hr as <-; [|done].
    unfold reachable, exec_git. cbn. rewrite fmap_app. split.
    + apply NoDup_app. split; [done|]. split; [|apply NoDup_singleton]. by intros x Hx ->%list_elem_of_singleton.
    + intros id' t. rewrite lookup_insert_Some, elem_of_app, list_elem_of_singleton, Hs. cbn in Hfr. split.
      * intros [[-> ->]|[_ Hx]]; [by right|by left].
      * intros [Hx|[= -> ->]]; [|by left]. right. split; [|done]. intros ->. apply Hfr. apply list_elem_of_fmap. by exists (id', t).
  - unfold run_step in Hr. case_match; [done|]. destruct (handle_incoming m s) eqn:Hm; [|done]. injection Hr as ->.
    apply incoming_same in Hm as (Hx & Hy & _). unfold reachable. by rewrite Hx, Hy.
  - unfold run_step in Hr. case_match; [done|]. by injection Hr as <-.
Qed.
Lemma fresh_steps_reachable s es s' : fresh_steps s es s' -> processes_ok s -> reachable s -> reachable s'.
Proof.
  induction 1 as [|s e s1 es s2 Hs Hf _ IH]; [done|]. intros Hok Hr. apply IH; [by eapply processes_step_ok|by eapply step_reachable].
Qed.

(** ** Stopping *)

Lemma step_stopping s e s' : stopping s = true -> run_step s e = Next s' -> stopping s' = true /\
  (forall x, x ∈ running_processes s' -> x ∈ running_processes s /\ (forall r, e <> Completed x.2 r)).
Proof.
  intros Hst Hs. destruct e as [task r| |id|m|task].
  - apply run_step_completed in Hs as (id & _ & Hr & _ & _ & ->). split; [done|]. intros x. rewrite Hr. intros [Hne Hx]%list_elem_of_filter.
    split; [done|]. by intros r' [= ->].
  - apply none_running_same in Hs as ->. done.
  - unfold run_step in Hs. case_match; [done|]. rewrite Hst, orb_true_r in Hs. done.
  - unfold run_step in Hs. case_match; [done|]. destruct (handle_incoming m s) eqn:Hm; [|done]. injection Hs as ->.
    apply incoming_same in Hm as (-> & _ & _ & _ & ->). rewrite Hst. by split.
  - unfold run_step in Hs. case_match; [done|]. by injection Hs as <-.
Qed.
Lemma steps_stopping s es s' : steps s es s' -> stopping s = true -> stopping s' = true /\
  forall x, x ∈ running_processes s' -> x ∈ running_processes s /\ forall r, Completed x.2 r ∉ es.
Proof.
  induction 1 as [|s e s1 es s2 Hs _ IH]; intros Hst; [split; [done|]; intros x Hx; split; [done|]; intros r ?%elem_of_nil; done|].
  destruct (step_stopping _ _ _ Hst Hs) as [Hst1 Hrun1]. destruct (IH Hst1) as [Hst2 Hrun2]. split; [done|].
  intros x Hx. apply Hrun2 in Hx as [Hx Hno]. apply Hrun1 in Hx as [Hx He]. split; [done|]. intros r [Heq|Hin]%elem_of_cons; [by apply (He r)|by apply (Hno r)].
Qed.

(** C23 [processes_safe]: however requests, input and completions interleave, at most one process more than the maximum is running; and as long
    as ids are not used again while their process is running, every running process and no other is reached under its id:
    input for it is passed on to it, in order and to nobody else, unless it has closed its input, which ends the whole loop. *)
Theorem processes_safe es s (Hrun : fresh_steps processes_new es s) :
  (length (running_processes s) <= MAX_IN_FLIGHT_GITS + 1)%nat /\ reachable s /\
  forall id t d, (id, t) ∈ running_processes s -> stopping s = false \/ running_processes s <> [] ->
    run_step s (NewIncoming (Some (ToProcess id (SubData d)))) =
    if decide (t ∈ gone s) then Returned (Err (SubprocessDisappeared id))
    else Next (MkProcesses (process_sends s) (running_processes s) (stopping s) (next_task s) (gone s) (passed_on s ++ [(t, SubData d)])).
Proof.
  pose proof (processes_steps_ok _ _ _ (fresh_steps_steps _ _ _ Hrun) processes_new_ok) as Hok.
  assert (reachable processes_new) as Hnew by (split; [constructor|]; intros id t; cbn; rewrite lookup_empty; split; [done|by intros ?%elem_of_nil]).
  pose proof (fresh_steps_reachable _ _ _ Hrun processes_new_ok Hnew) as Hr. split; [apply Hok|]. split; [done|].
  intros id t d Hin _. unfold run_step. rewrite (bool_decide_false (running_processes s = [])) by (intros He; by rewrite He in Hin; apply elem_of_nil in Hin).
  rewrite andb_false_r. cbn [handle_incoming]. unfold send. rewrite (proj2 (proj2 Hr id t) Hin). unfold sender_send. case_bool_decide; case_decide; done.
Qed.

(** [stop_drains]: once the loop is told to stop, it starts nothing any more, and after the processes that were running have completed, whatever
    else came in meanwhile, it returns. *)
Theorem stop_drains s es s' (Hstop : stopping s = true) (Hrun : steps s es s')
    (Hdone : forall x, x ∈ running_processes s -> exists r, Completed x.2 r ∈ es) e :
  running_processes s' = [] /\ run_step s' e = Returned (Ok tt).
Proof.
  destruct (steps_stopping _ _ _ Hrun Hstop) as [Hst Hr]. assert (running_processes s' = []) as He.
  { destruct (running_processes s') as [|x l] eqn:El; [done|]. destruct (Hr x ltac:(by left)) as [Hin Hno]. destruct (Hdone x Hin) as [r Hx]. by apply Hno in Hx. }
  split; [done|]. unfold run_step. by rewrite Hst, He.
Qed.
End Processes.

(** ** Examples *)

Module ProcessesExample.
Abbreviation Ev := (Event (Id := N) (Data := N) (Sig := unit)) (only parsing).
Abbreviation Ps := (Processes (Id := N) (Data := N) (Sig := unit)) (only parsing).
Fixpoint run_all (s : Ps) (es : list Ev) : Step (Id := N) (Data := N) (Sig := unit) :=
  match es with
  | [] => Next s
  | e :: es => match run_step s e with Next s => run_all s es | r => r end
  end.
Definition fresh_event (s : Ps) (e : Ev) : bool := match e with NextExec (Some id) => bool_decide (id ∉ (running_processes s).*1) | _ => true end.
Fixpoint all_fresh (s : Ps) (es : list Ev) : bool :=
  match es with
  | [] => true
  | e :: es => fresh_event s e && match run_step s e with Next s => all_fresh s es | _ => true end
  end.
Lemma run_all_fresh es : forall s s', run_all s es = Next s' -> all_fresh s es = true -> fresh_steps s es s'.
Proof.
  induction es as [|e es IH]; intros s s'; cbn; [intros [= <-] _; constructor|].
  destruct (run_step s e) as [s1| | |] eqn:E; try done. intros Hr [Hf Ha]%andb_true_iff. econstructor; [exact E| |by apply IH].
  unfold fresh_event in Hf. destruct e as [| |[id|]| |]; try done. by apply bool_decide_eq_true in Hf.
Qed.

(** Two clients: the second sends something. *)
Definition two : list Ev := [NextExec (Some 1%N); NextExec (Some 2%N); NewIncoming (Some (ToProcess 2%N (SubData 7%N)))].
Lemma processes_safe_witness : exists s, fresh_steps processes_new two s /\ (length (running_processes s) <= 11)%nat /\ reachable s /\
  passed_on s = [(1, SubData 7%N)].
Proof.
  destruct (run_all processes_new two) as [s| | |] eqn:E; [|vm_compute in E; discriminate E..].
  pose proof (run_all_fresh two processes_new s E eq_refl) as Hf. exists s. split; [done|].
  destruct (processes_safe two s Hf) as (Hl & Hr & _). split; [exact Hl|]. split; [exact Hr|]. vm_compute in E. injection E as <-. reflexivity.
Defined.
(** They are told to stop, complete, and one sends something in between. *)
Definition finish : list Ev := [Completed 1 TaskOk; NewIncoming (Some (ToProcess 2%N (SubData 8%N))); Completed 0 TaskReplyError].
Definition stopped : Ps := match run_all processes_new (two ++ [NewIncoming (Some Stop)]) with Next s => s | _ => processes_new end.
Lemma stop_drains_witness : stopping stopped = true /\ length (running_processes stopped) = 2 /\
  exists s', steps stopped finish s' /\ run_step s' (NextExec (Some 3%N)) = Returned (Ok tt).
Proof.
  split; [vm_compute; reflexivity|]. split; [vm_compute; reflexivity|].
  destruct (run_all stopped finish) as [s'| | |] eqn:E; [|vm_compute in E; discriminate E..]. exists s'.
  assert (all_fresh stopped finish = true) as Hfr by (vm_compute; reflexivity).
  pose proof (fresh_steps_steps _ _ _ (run_all_fresh _ _ _ E Hfr)) as Hs. split; [exact Hs|].
  assert (stopping stopped = true) as Hst by (vm_compute; reflexivity). apply (stop_drains stopped finish s' Hst Hs). intros x Hx. vm_compute in Hx.
  repeat (apply elem_of_cons in Hx as [->|Hx]); [exists TaskReplyError|exists TaskOk|by apply elem_of_nil in Hx]; cbn; set_solver.
Defined.

(** [one_too_many]: eleven processes run at once, one more than the maximum. *)
Example one_too_many : exists s, run_all processes_new (map (fun n => NextExec (Some (N.of_nat n))) (seq 0 11)) = Next s /\ length (running_processes s) = 11.
Proof. eexists. split; [vm_compute; reflexivity|reflexivity]. Qed.
(** [late_input_ends_all]: input for a process that has closed its own ends the loop, though another process is running. *)
Example late_input_ends_all :
  run_all processes_new [NextExec (Some 1%N); NextExec (Some 2%N); InputClosed 0; NewIncoming (Some (ToProcess 1%N (SubData 7%N)))] =
  Returned (Err (SubprocessDisappeared 1%N)).
Proof. vm_compute. reflexivity. Qed.
(** [reused_id_unreachable]: when an id is used again, the end of the first process makes the second unreachable. *)
Example reused_id_unreachable : exists s, run_all processes_new [NextExec (Some 1%N); NextExec (Some 1%N); Completed 0 TaskOk] = Next s /\
  running_processes s = [(1%N, 1)] /\ process_sends s !! 1%N = None.
Proof. eexists. split; [vm_compute; reflexivity|]. split; reflexivity. Qed.
(** [closed_channel_spins]: when everybody who could send is gone and nothing is running, a round changes nothing and the loop does not end. *)
Example closed_channel_spins : run_step (processes_new : Ps) (NewIncoming None) = Next processes_new.
Proof. reflexivity. Qed.
End ProcessesExample.
