(* ===== verification/SshService.v ===== *)
(** * The commands a git server runs

    [link-git/src/service.rs] and [cli/gitd-lib/src/ssh_service.rs]: reading the command git sends over SSH;
    [cli/gitd-lib/src/git_subprocess/command.rs]: the git command that is run for it, on the storage of [StorageRead.v].
    Texts are lists of code points; the regular expression is the function that finds its leftmost match. *)
From stdpp Require Import base list gmap.
From Stdlib Require Import NArith Lia.
From Stdlib Require String.
Import String.StringSyntax.
From S2P Require Import Prelude Effects RefFormat RefName RefLike Trailers Utf8 Scoped Keys UrnText LibradRef SignedRefs StorageRead ReplicationSafety IdentityWitness.
Import Name.
#[local] Open Scope N_scope.

(** ** [link_git::service] *)

Inductive GitService := UploadPackLs | UploadPack | ReceivePackLs | ReceivePack.
#[export] Instance git_service_eq : EqDecision GitService.
Proof. solve_decision. Defined.
Record SshService (P : Type) : Type := MkSshService { service : GitService; path : P }.
Arguments MkSshService {P} service path. Arguments service {P} s. Arguments path {P} s.
Definition is_upload {P} (s : SshService P) : bool := match service s with UploadPackLs | UploadPack => true | ReceivePackLs | ReceivePack => false end.
Definition is_receive {P} (s : SshService P) : bool := negb (is_upload s).
(** [Display] *)
Definition service_to_string (s : GitService) : list N :=
  match s with
  | UploadPack => str "upload-pack"
  | UploadPackLs => str "upload-pack-ls"
  | ReceivePack => str "receive-pack"
  | ReceivePackLs => str "receive-pack-ls"
  end.
Inductive ParseService (PE : Type) : Type := BadFormat | BadNamespace (e : PE) | UnknownService (s : list N).
Arguments BadFormat {PE}. Arguments BadNamespace {PE} e. Arguments UnknownService {PE} s.

(** What [c] takes of the start of [s], and the rest. *)
Fixpoint span (c : N -> bool) (s : list N) : list N * list N :=
  match s with
  | [] => ([], [])
  | x :: r => if c x then let '(a, b) := span c r in (x :: a, b) else ([], s)
  end.
(** What comes before the last [c]. *)
Fixpoint before_last (c : N) (s : list N) : option (list N) :=
  match s with
  | [] => None
  | x :: s => match before_last c s with Some r => Some (x :: r) | None => if x =? c then Some [] else None end
  end.
Definition quote : N := 39.
(** The leftmost match of [SERVICE_REGEX], a word, a blank and a quoted text of one line whose first slash is left out; its groups. *)
Definition captured_path (line : list N) : option (list N) :=
  match before_last quote line with
  | Some (x :: ((_ :: _) as r)) => Some (if x =? slash then r else x :: r)
  | Some [x] => Some [x]
  | _ => None
  end.
Definition captures_at (s : list N) : option (list N * list N) :=
  match span (fun c => negb (is_whitespace c)) s with
  | ((_ :: _) as word, b :: q :: r) =>
      if (b =? 32) && (q =? quote) then pair word <$> captured_path (span (fun c => negb (c =? 10)) r).1 else None
  | _ => None
  end.
Fixpoint captures (s : list N) : option (list N * list N) :=
  match s with
  | [] => None
  | _ :: r => match captures_at s with Some c => Some c | None => captures r end
  end.
(** [FromStr] *)
Definition ssh_from_str {P PE} (parse : list N -> result PE P) (exec_str : list N) : result (ParseService PE) (SshService P) :=
  '(service_str, urn_str) ← ok_or (captures exec_str) BadFormat;
  path ← map_err BadNamespace (parse urn_str);
  service ← (if bool_decide (service_str = str "git-upload-pack") then Ok UploadPack
             else if bool_decide (service_str = str "git-receive-pack") then Ok ReceivePack
             else Err (UnknownService service_str));
  Ok (MkSshService service path).

(** ** [ssh_service]: paths that are URNs *)

Inductive UrnPathError (UE : Type) : Type := MissingSuffix | BadUrn (e : UE).
Arguments MissingSuffix {UE}. Arguments BadUrn {UE} e.
(** [str::strip_suffix] *)
Definition str_strip_suffix (p s : list N) : option (list N) := reverse <$> str_strip_prefix (reverse p) (reverse s).

Section UrnPath.
Context {R MB MH IE : Type} `{HasProtocol R MH IE} `{Multibase MB} `{PercentEncoding}.
Definition urn_path_to_string (u : UrnText.Urn R) : list N := urn_to_string u ++ str ".git".
Definition urn_path_from_str (s : list N) : result (UrnPathError (FromStr (DecodeId MB MH IE))) (UrnText.Urn R) :=
  match str_strip_suffix (str ".git") s with
  | Some prefix => map_err BadUrn (urn_from_str prefix)
  | None => Err MissingSuffix
  end.
End UrnPath.

(** ** [git_subprocess::command] *)

Inductive CommandError (MB GE R : Type) : Type :=
| NoSuchUrn (u : UrnText.Urn R) | FetchRefsGlob (u : UrnText.Urn R) (e : ReadError MB GE) | IterateRefs (u : UrnText.Urn R) (e : ReadError MB GE)
| CommandOther (e : ReadError MB GE).
Arguments NoSuchUrn {MB GE R} u. Arguments FetchRefsGlob {MB GE R} u e. Arguments IterateRefs {MB GE R} u e. Arguments CommandOther {MB GE R} e.

Section Command.
Context {W GE R MB MH IE : Type} `{Git2Repo W GE} `{HasProtocol R MH IE} `{Multibase MB} `{Globset}.
Let Urn := UrnText.Urn R.
Let res := result (CommandError MB GE R).

Definition remotes_of (urn : Urn) : outcome (list N) :=
  ns ← namespace_into (MB := MB) (namespace_from urn);
  Done (reflike_join (reflike_join (str "refs/namespaces") ns) (str "refs/remotes")).
Definition all_remote_refs (remotes : list N) : list N := remotes ++ str "/**/*".
Definition excluding (remotes : list N) : list N := remotes ++ str "/*/{rad,cobs}/*".

Definition guard_has_urn (w : W) (urn : Urn) : eff (CommandError MB GE R) unit :=
  have ← eff_map_err CommandOther (has_urn w urn);
  if (have : bool) then EOk tt else EErr (NoSuchUrn urn).
Fixpoint not_excluded (urn : Urn) (exclude : list N) (l : list (result (ReadError MB GE) (list N))) : res (list (list N)) :=
  match l with
  | [] => Ok []
  | Err e :: _ => Err (IterateRefs urn e)
  | Ok name :: l => rest ← not_excluded urn exclude l; Ok (if glob_matches exclude name then rest else name :: rest)
  end.
Definition visible_remotes (w : W) (urn : Urn) : eff (CommandError MB GE R) (list (list N)) :=
  remotes ← of_out (remotes_of urn);
  names ← of_res_with (FetchRefsGlob urn) (reference_names_glob (MB := MB) w (all_remote_refs remotes));
  of_res (not_excluded urn (excluding remotes) names).

Definition common_args (ns : list N) : list (list N) :=
  [str "--namespace=" ++ ns; str "-c"; str "transfer.hiderefs=refs/remotes"; str "-c"; str "transfer.hiderefs=refs/remotes/rad";
   str "-c"; str "transfer.hiderefs=refs/remotes/cobs"].
Definition show_remote (name : list N) : list (list N) := [str "-c"; str "uploadpack.hiderefs=!^" ++ name].
(** [create_command]: the arguments of [git]. *)
Definition create_command (w : W) (s : SshService Urn) : eff (CommandError MB GE R) (list (list N)) :=
  let urn := path s in
  _ ← guard_has_urn w urn;
  ns ← of_out (namespace_into (MB := MB) (namespace_from urn));
  args ← (match service s with
          | UploadPack | UploadPackLs =>
              remotes ← visible_remotes w urn;
              EOk (flat_map show_remote remotes ++ [str "upload-pack"; str "--strict"; str "--timeout=5"])
          | ReceivePack | ReceivePackLs => EOk [str "receive-pack"]
          end);
  EOk (common_args ns ++ args ++ match service s with UploadPackLs | ReceivePackLs => [str "--advertise-refs"] | _ => [] end).
End Command.

(** ** Reading commands *)

Definition solid (w : list N) : Prop := w <> [] /\ Forall (fun c => is_whitespace c = false) w.

Lemma span_app (c : N -> bool) a b : Forall (fun x => c x = true) a -> match b with x :: _ => c x = false | [] => True end -> span c (a ++ b) = (a, b).
Proof.
  intros Ha Hb. induction Ha as [|x a Hx _ IH]; cbn [app span].
  - destruct b as [|x b]; [done|]. cbn. by rewrite Hb.
  - by rewrite Hx, IH.
Qed.
Lemma span_eq (c : N -> bool) s : s = (span c s).1 ++ (span c s).2 /\ Forall (fun x => c x = true) (span c s).1.
Proof.
  induction s as [|x s IH]; cbn [span]; [by split|]. destruct (c x) eqn:Hx; cbn; [|by split]. destruct (span c s), IH as [IH1 IH2]; cbn in *.
  split; [by f_equal|by constructor].
Qed.
Lemma before_last_none c s : before_last c s = None <-> c ∉ s.
Proof.
  induction s as [|x s IH]; cbn; [split; [by intros _ ?%elem_of_nil|done]|]. rewrite not_elem_of_cons, <- IH.
  destruct (before_last c s); [split; [done|by intros [_ ?]]|]. destruct (N.eqb_spec x c); split; intuition congruence.
Qed.
Lemma before_last_app c a b : c ∉ b -> before_last c (a ++ c :: b) = Some a.
Proof. intros Hb%before_last_none. induction a as [|x a IH]; cbn; [by rewrite Hb, N.eqb_refl|by rewrite IH]. Qed.
Lemma before_last_some c s r : before_last c s = Some r -> exists b, s = r ++ c :: b /\ c ∉ b.
Proof.
  revert r. induction s as [|x s IH]; intros r; cbn; [done|]. destruct (before_last c s) as [r'|] eqn:Hr.
  - intros [= <-]. destruct (IH r' eq_refl) as (b & -> & Hb). by exists b.
  - destruct (N.eqb_spec x c) as [->|]; [|done]. intros [= <-]. exists s. by apply before_last_none in Hr.
Qed.

(** A path in a command: not empty, on one line, and with no slash in front. *)
Definition plain (t : list N) : Prop := match t with [] => False | c :: _ => c <> slash end /\ 10 ∉ t.
Lemma captured_plain (sl : bool) t b : plain t -> quote ∉ b -> captured_path ((if sl then [slash] else []) ++ t ++ quote :: b) = Some t.
Proof.
  intros [Ht _] Hb. unfold captured_path. destruct t as [|x t]; [done|]. rewrite app_assoc, before_last_app by done.
  destruct sl; cbn [app]; [by rewrite N.eqb_refl|]. apply N.eqb_neq in Ht. destruct t; [done|]. by rewrite Ht.
Qed.
Lemma captured_some line t : captured_path line = Some t ->
  t <> [] /\ exists sl b, line = (if (sl : bool) then [slash] else []) ++ t ++ quote :: b /\ quote ∉ b.
Proof.
  unfold captured_path. destruct (before_last quote line) as [r|] eqn:Hr; [|done]. apply before_last_some in Hr as (b & -> & Hb).
  destruct r as [|x [|y r]]; [done|intros [= <-]; split; [done|]; by exists false, b|]. destruct (N.eqb_spec x slash) as [->|].
  - intros [= <-]. split; [done|]. by exists true, b.
  - intros [= <-]. split; [done|]. by exists false, b.
Qed.

(** [captures_sound]: what is found is a word and a quoted text on one line. *)
Lemma captures_sound s w t : captures s = Some (w, t) ->
  solid w /\ t <> [] /\ (10 ∉ t) /\ exists a sl b, s = a ++ w ++ str " '" ++ (if (sl : bool) then [slash] else []) ++ t ++ quote :: b.
Proof.
  induction s as [|x s IH]; [done|]. cbn [captures]. destruct (captures_at (x :: s)) as [[w' t']|] eqn:Hc.
  - intros [= -> ->]. unfold captures_at in Hc. destruct (span_eq (fun c => negb (is_whitespace c)) (x :: s)) as [Hs Hw].
    destruct (span _ (x :: s)) as [[|y w'] r]; [done|]. cbn [fst snd] in Hs, Hw.
    destruct r as [|b0 [|q0 r]]; [done..|]. destruct (N.eqb_spec b0 32) as [->|]; [|done]. destruct (N.eqb_spec q0 quote) as [->|]; [|done]. cbn [andb] in Hc.
    destruct (captured_path _) as [t'|] eqn:Ht in Hc; [|done]. injection Hc as <- <-. apply captured_some in Ht as [Hne (sl & b & Hl & _)].
    destruct (span_eq (fun c => negb (c =? 10)) r) as [Hr Hn]. rewrite Hl in Hr, Hn. split; [split; [done|]|split; [done|split]].
    + eapply Forall_impl; [exact Hw|]. cbn. intros c Hx. by apply negb_true_iff in Hx.
    + intros Hin. rewrite Forall_forall in Hn. assert (negb (10 =? 10) = true) as Hx by (apply Hn; set_solver). done.
    + exists [], sl, (b ++ (span (fun c => negb (c =? 10)) r).2). rewrite Hs. cbn [app]. do 2 f_equal. rewrite Hr at 1. cbn. by rewrite <- !app_assoc.
  - intros H. destruct (IH H) as (H1 & H2 & H3 & a & sl & b & ->). split_and!; [done..|]. by exists (x :: a), sl, b.
Qed.
(** The command git sends for a word and a path. *)
Definition command_text (w : list N) (sl : bool) (t : list N) : list N := w ++ str " '" ++ (if sl then [slash] else []) ++ t ++ [quote].
Lemma captures_command w sl t : solid w -> plain t -> captures (command_text w sl t) = Some (w, t).
Proof.
  intros [Hne Hw] Ht. assert (captures_at (command_text w sl t) = Some (w, t)) as Hc.
  { unfold captures_at, command_text. rewrite span_app; [|eapply Forall_impl; [exact Hw|]; cbn; by intros c ->|done].
    destruct w as [|c w]; [done|]. change (str " '") with [32; quote]. cbn [app]. rewrite !N.eqb_refl. cbn [andb].
    rewrite <- (app_nil_r ((if sl then [slash] else []) ++ t ++ [quote])), span_app; [|apply Forall_forall; intros x Hin; apply negb_true_iff, N.eqb_neq; intros ->|done].
    - cbn [fst]. by rewrite captured_plain by (done || apply not_elem_of_nil).
    - destruct Ht as [_ Ht]. destruct sl; set_solver. }
  unfold command_text in *. destruct w as [|c w]; [done|]. cbn [app captures] in *. by rewrite Hc.
Qed.
Lemma strip_suffix_app p s : str_strip_suffix p (s ++ p) = Some s.
Proof.
  unfold str_strip_suffix. rewrite reverse_app, (proj2 (str_strip_prefix_spec _ _ (reverse s)) eq_refl). cbn. by rewrite reverse_involutive.
Qed.

Section Reading.
Context {R MB MH IE : Type} `{HasProtocolLaws R MH IE} `{MultibaseLaws MB} `{PercentEncoding}.
Let UE : Type := FromStr (DecodeId MB MH IE).

Lemma urn_plain (u : UrnText.Urn R) : urn_wf u -> 10 ∉ PROTOCOL -> plain (urn_path_to_string u).
Proof.
  intros Hu Hp. split; [done|]. unfold urn_path_to_string, urn_to_string. destruct (urn_id_text u) as (Hl & _). rewrite Forall_forall in Hl.
  intros [Hin|Hin]%elem_of_app; [|by apply (bool_decide_unpack (10 ∉ str ".git"))].
  apply elem_of_app in Hin as [Hin|Hin]; [by apply (bool_decide_unpack (10 ∉ str "rad:"))|]. apply elem_of_app in Hin as [Hin|Hin]; [done|].
  apply elem_of_cons in Hin as [Hin|Hin]; [done|]. apply elem_of_app in Hin as [Hin|Hin]; [apply Hl in Hin; unfold letter in Hin; lia|].
  unfold urn_wf in Hu. destruct (urn_path u) as [p|]; [|by apply elem_of_nil in Hin]. destruct Hu as [Hr Hs].
  apply elem_of_cons in Hin as [Hin|Hin]; [done|]. unfold percent_encode in Hin. apply percent_encode_chars in Hin as [?|[?|Hin]]; [done..| |done].
  by pose proof (refstr_allowed p 10 Hr Hin ltac:(done)).
Qed.

Definition known_service (w : list N) : option GitService :=
  if bool_decide (w = str "git-upload-pack") then Some UploadPack else if bool_decide (w = str "git-receive-pack") then Some ReceivePack else None.

(** [ssh_command_exact]: the command git sends, with or without a slash in front of the path, is read as exactly its service and its URN,
    whenever the text of the URN is one that is read back; other services and other paths are refused. Commands that are
    read contain, somewhere, a word and a quoted text on one line. *)
Theorem ssh_command_exact :
  (forall w sl (u : UrnText.Urn R), solid w -> urn_wf u -> 10 ∉ PROTOCOL ->
     ssh_from_str urn_path_from_str (command_text w sl (urn_path_to_string u)) =
     match urn_from_str (urn_to_string u) with
     | Err e => Err (BadNamespace (BadUrn (e : UE)))
     | Ok u' => match known_service w with Some s => Ok (MkSshService s u') | None => Err (UnknownService w) end
     end) /\
  (forall text s, ssh_from_str urn_path_from_str text = Ok s -> exists a w sl t b,
     text = a ++ w ++ str " '" ++ (if (sl : bool) then [slash] else []) ++ t ++ str ".git" ++ quote :: b /\
     known_service w = Some (service s) /\ urn_from_str t = Ok (E := UE) (path s)).
Proof.
  unfold ssh_from_str, known_service. split.
  - intros w sl u Hw Hu Hp. rewrite captures_command by (done || by apply urn_plain). cbn [ok_or mbind result_bind]. unfold urn_path_from_str, urn_path_to_string. rewrite strip_suffix_app.
    destruct (urn_from_str (urn_to_string u)); cbn; [|done]. by repeat case_bool_decide.
  - intros text s Hs. destruct (captures text) as [[w t]|] eqn:Hc; [|done]. cbn in Hs. apply captures_sound in Hc as (_ & _ & _ & a & sl & b & ->).
    unfold urn_path_from_str, str_strip_suffix in Hs. destruct (str_strip_prefix _ (reverse t)) as [r|] eqn:Hr; cbn in Hs; [|done].
    apply str_strip_prefix_spec in Hr. apply (f_equal reverse) in Hr. rewrite reverse_involutive, reverse_app, reverse_involutive in Hr. subst t.
    destruct (urn_from_str (reverse r)) as [u|] eqn:Hu; cbn in Hs; [|done].
    exists a, w, sl, (reverse r), b. split; [by rewrite <- (app_assoc (reverse r))|]. repeat case_bool_decide; cbn in Hs; simplify_eq; cbn; by rewrite Hu.
Qed.
End Reading.

(** ** What a command shows *)

Section Showing.
Context {W GE R MB MH IE : Type} `{Git2Repo W GE} `{HasProtocolLaws R MH IE} `{MultibaseLaws MB} `{Globset}.

Lemma not_excluded_ok (urn : UrnText.Urn R) ex l names : not_excluded (MB := MB) (GE := GE) urn ex l = Ok names ->
  forall n, n ∈ names <-> Ok n ∈ l /\ glob_matches ex n = false.
Proof.
  revert names. induction l as [|[m|e] l IH]; intros names; cbn [not_excluded]; [intros [= <-] n; rewrite !elem_of_nil; tauto| |done].
  destruct (not_excluded urn ex l) as [rest|]; cbn; [|done]. intros [= <-] n. specialize (IH rest eq_refl n). rewrite elem_of_cons.
  destruct (glob_matches ex m) eqn:Hm; rewrite ?elem_of_cons, IH; split.
  - intros [? ?]. auto.
  - intros [[[= ->]|?] ?]; [congruence|auto].
  - intros [->|[? ?]]; auto.
  - intros [[[= ->]|?] ?]; auto.
Qed.
Lemma remotes_of_done (urn : UrnText.Urn R) : exists rm, remotes_of (MB := MB) urn = Done rm.
Proof. unfold remotes_of. rewrite namespace_done. by eexists. Qed.

(** [git_command_safe]: a command is made only for a URN the storage has. It is confined to the namespace of the URN and hides the remotes;
    pushing gets no exception, and fetching gets one for exactly the references under the remotes of that namespace which are
    neither under [rad] nor under [cobs] of a remote, as the patterns of these have it. *)
Theorem git_command_safe w (s : SshService (UrnText.Urn R)) args (Hcmd : create_command (MB := MB) w s = EOk args) :
  has_urn (MB := MB) w (path s) = EOk true /\
  exists rm shown, remotes_of (MB := MB) (path s) = Done rm /\
    args = common_args (urn_encode_id (MB := MB) (path s)) ++ flat_map show_remote shown ++
      (if is_upload s then [str "upload-pack"; str "--strict"; str "--timeout=5"] else [str "receive-pack"]) ++
      (if bool_decide (service s = UploadPackLs \/ service s = ReceivePackLs) then [str "--advertise-refs"] else []) /\
    (is_receive s = true -> shown = []) /\
    (is_upload s = true -> exists names, g_reference_names w = Ok names /\
       forall n, n ∈ shown <-> is_refstr n /\ Ok n ∈ names /\ glob_matches (all_remote_refs rm) n = true /\ glob_matches (excluding rm) n = false).
Proof.
  unfold create_command, guard_has_urn in Hcmd. destruct (has_urn w (path s)) as [[]| |] eqn:Hh; cbn in Hcmd; try done. split; [done|].
  rewrite namespace_done in Hcmd. cbn [of_out mbind eff_bind] in Hcmd. destruct (remotes_of_done (path s)) as [rm Hrm]. exists rm.
  assert (forall shown, visible_remotes (MB := MB) w (path s) = EOk shown -> exists names, g_reference_names w = Ok names /\
    forall n, n ∈ shown <-> is_refstr n /\ Ok n ∈ names /\ glob_matches (all_remote_refs rm) n = true /\ glob_matches (excluding rm) n = false) as Hvis.
  { unfold visible_remotes. rewrite Hrm. cbn [of_out mbind eff_bind]. intros shown (l & Hl & Hs)%eff_bind_ok.
    apply of_res_with_ok in Hl. apply of_res_ok in Hs. unfold reference_names_glob in Hl. destruct (g_reference_names w) as [names|]; cbn in Hl; [|done].
    injection Hl as <-. exists names. split; [done|]. intros n. rewrite (not_excluded_ok _ _ _ _ Hs), list_elem_of_omap. split.
    - intros [(x & Hin & Hx) He]. destruct x as [m|]; [|done]. destruct (reflike_try_from m) as [r|] eqn:Hr; [|done].
      apply reflike_try_from_ok in Hr as [-> Hr]. destruct (glob_matches (all_remote_refs rm) m) eqn:Hg; [|done]. by injection Hx as ->.
    - intros (Hn & Hin & Hg & He). split; [|done]. exists (Ok n). split; [done|].
      by rewrite (proj2 (reflike_try_from_ok n n) (conj eq_refl Hn)), Hg. }
  destruct s as [[] u]; cbn [service path is_upload is_receive negb] in *.
  1,2: apply eff_bind_ok in Hcmd as (a & (shown & Hsh & [= <-])%eff_bind_ok & [= <-]); exists shown; split; [done|]; split; [by rewrite <- !app_assoc|]; split; [done|]; intros _; by apply Hvis.
  all: cbn in Hcmd; injection Hcmd as <-; exists []; by split_and!.
Qed.
End Showing.

(** ** Examples *)

Module SshWitness.
Import ReplicationWitness.
#[local] Existing Instance world_repo.
#[local] Existing Instance Memory.decimal_ids.
#[local] Existing Instance Memory.decimal_ids_laws.
#[local] Existing Instance ZBase32.z_multibase.
#[local] Existing Instance ZBase32.z_multibase_laws.
#[local] Existing Instance percent_encoding_model.
(** The two patterns: what is under a prefix, and what has a component [rad] or [cobs]. *)
#[local] Instance two_globs : Globset := fun glob name =>
  match str_strip_suffix (str "/**/*") glob with
  | Some p => starts_with p name
  | None => existsb (fun c => bool_decide (c = str "rad" \/ c = str "cobs")) (drop 6 (split_on slash name))
  end.
Abbreviation parse_command := (ssh_from_str (P := UrnText.Urn N) (urn_path_from_str (MB := unit) (MH := unit) (IE := unit))).

Lemma ssh_command_exact_witness :
  parse_command (command_text (str "git-upload-pack") true (urn_path_to_string (urn_new 7))) = Ok (MkSshService UploadPack (urn_new 7)) /\
  exists w, parse_command (command_text w false (urn_path_to_string (urn_new 7))) = Err (UnknownService w).
Proof.
  destruct (ssh_command_exact (R := N) (MB := unit) (MH := unit) (IE := unit)) as [Hr _]. split.
  - rewrite Hr; [vm_compute; reflexivity|split; [done|by repeat constructor]|done|apply (bool_decide_unpack _); reflexivity].
  - exists (str "upload-pack"). rewrite Hr; [vm_compute; reflexivity|split; [done|by repeat constructor]|done|apply (bool_decide_unpack _); reflexivity].
Defined.

Definition under (u : UrnText.Urn N) (name : list N) : list N := str "refs/namespaces/" ++ urn_encode_id (MB := unit) u ++ slash :: name.
Definition seven : World :=
  [(under (urn_new 7) (str "refs/rad/id"), DirectRef 1); (under (urn_new 7) (str "refs/heads/main"), DirectRef 2);
   (under (urn_new 7) (str "refs/remotes/p/heads/main"), DirectRef 3); (under (urn_new 7) (str "refs/remotes/p/rad/id"), DirectRef 4)].
Lemma git_command_safe_witness : exists args shown,
  create_command (MB := unit) seven (MkSshService UploadPack (urn_new 7)) = EOk args /\
  args = common_args (urn_encode_id (MB := unit) (urn_new 7)) ++ flat_map show_remote shown ++ [str "upload-pack"; str "--strict"; str "--timeout=5"] /\
  under (urn_new 7) (str "refs/remotes/p/heads/main") ∈ shown /\ under (urn_new 7) (str "refs/remotes/p/rad/id") ∉ shown.
Proof.
  destruct (create_command (MB := unit) seven (MkSshService UploadPack (urn_new 7))) as [args| |] eqn:Hc; [|vm_compute in Hc; discriminate Hc..].
  destruct (git_command_safe (MB := unit) (MH := unit) (IE := unit) seven (MkSshService UploadPack (urn_new 7)) args Hc) as (_ & rm & shown & Hrm & Ha & _ & Hs).
  exists args, shown. split; [done|]. split; [exact Ha|]. destruct (Hs eq_refl) as (names & Hn & Hin). vm_compute in Hrm. injection Hrm as <-.
  rewrite !Hin. split.
  - split; [vm_compute; reflexivity|]. split; [|split; vm_compute; reflexivity]. cbn in Hn. injection Hn as <-. set_solver.
  - intros (_ & _ & _ & Hx). vm_compute in Hx. discriminate Hx.
Defined.
(** [not_documented]: what the documentation gives as the form of a command is not read, and neither is a service by its own name. *)
Example not_documented : parse_command (str "upload-pack /rad:git:hyryd1.git") = Err BadFormat /\ forall s, known_service (service_to_string s) = None.
Proof. split; [vm_compute; reflexivity|by intros []]. Qed.
(** [anywhere_in_text]: what comes before and after the match does not matter. *)
Example anywhere_in_text : let c := command_text (str "git-upload-pack") false (urn_path_to_string (urn_new 7)) in
  parse_command (str "rm -rf / ; " ++ c ++ str " && anything") = parse_command c.
Proof. vm_compute. reflexivity. Qed.
End SshWitness.
