(* ===== verification/GitHooks.v ===== *)
(** * Hooks of a git server

    [cli/gitd-lib/src/hooks.rs]: what is done before a fetch is served and after a push has been taken: the references are signed, the
    seeds are asked to pull, and the new state is announced to the node.  Everything the hooks do, and every message to
    the client, is an act; what the storage, the seeds, the node and the client answer depends on the acts so far.
    Texts of messages are the values they are made of. *)
From stdpp Require Import base list.
From Stdlib Require Import NArith Lia.
From S2P Require Import Prelude Effects SignedRefs.
#[local] Open Scope N_scope.

(** [Announce], [PostReceive] and [PreUpload]. *)
Record PostReceive := MkPostReceive { pr_announce : bool; pr_request_pull : bool }.
Record PreUpload := MkPreUpload { pu_replicate : bool }.

Section Hooks.
Context {Peer Addr Urn Txt Pulled Replicated : Type}.
(** Errors of the client's channel, the pool, the storage, the network, and the node. *)
Context {ClientE PoolE RefsE NetE IoE TransportE : Type}.

Record Seed := MkSeed { seed_peer : Peer; seed_addrs : list Addr; seed_label : option Txt }.
(** [request_pull::Response] and [client::Reply]. *)
Inductive PullResponse := PullSuccess (s : Pulled) | PullError (m : Txt) | PullProgress (m : Txt).
Inductive Reply := ReplyProgress (m : Txt) | ReplySuccess | ReplyError (m : Txt).

(** What the client is told. *)
Inductive Note :=
| UpdatingSignedRefs | SigrefsRace | SignedRefsState (updated : bool)
| PullTo (p : Peer) (label : option Txt) | Pulled_ (u : Urn) (s : Pulled) | PullSays (m : Txt) | PullTransport (e : NetE) | PullFailed (p : Peer) (e : NetE) | SkippingPull
| Announcing | NodeSays (m : Txt) | AnnouncedRefs | SkippingAnnounce
| ReplicatingFrom (p : Peer) (label : option Txt) | Replicated_ (u : Urn) (r : Replicated) | ReplicationFailed (p : Peer) (e : NetE) | SkippingReplication.

Inductive Act :=
| Told (n : Note)
| NotTold (n : Note)
| SignedRefsUpdate (u : Urn) (r : result RefsE Updated)
| RequestedPull (p : Peer) (addrs : list Addr) (u : Urn)
| ReplicatedFrom (p : Peer) (addrs : list Addr) (u : Urn)
| AnnouncedAt (u : Urn) (at_ : N).
Let W : Type := list Act.

(** [error::Announce], [UpdateSignedRefs], [PostReceive]; a failed report is the client's error. *)
Inductive AnnounceError := AnnProgress (e : ClientE) | LinkdConnect (e : IoE) | LinkdTransport (e : TransportE) | Linkd (m : Txt).
Inductive UpdateError := UpdProgress (e : ClientE) | OpenStorage (e : PoolE) | UpdateRefs (e : RefsE).
Inductive PostReceiveError := PostAnnounce (e : AnnounceError) | PostUpdate (e : UpdateError) | PostRequestPull (e : ClientE) | PostProgress (e : ClientE).

(** The surroundings. *)
Record HookEnv := MkHookEnv {
  client_takes : W -> Note -> result ClientE unit;
  pool_get : W -> result PoolE unit;
  signed_refs_update : W -> Urn -> result RefsE Updated;
  client_request_pull : W -> Seed -> Urn -> result NetE (list (result NetE PullResponse));
  client_replicate : W -> Seed -> Urn -> result NetE Replicated;
  linkd_connect : W -> result IoE unit;
  linkd_execute : W -> Urn -> N -> result TransportE unit;
  (** the replies, and the error that ends them *)
  linkd_replies : W -> list Reply * TransportE;
}.

Section Env.
Context (env : HookEnv).

Definition act {E} (a : Act) : st W E unit := fun w => (EOk tt, w ++ [a]).
(** [report] *)
Definition report (n : Note) : st W ClientE unit := fun w =>
  match client_takes env w n with
  | Ok _ => (EOk tt, w ++ [Told n])
  | Err e => (EErr e, w ++ [NotTold n])
  end.
Definition err_map {E F A} (f : E -> F) (m : st W E A) : st W F A := fun w => let '(r, w) := m w in (eff_map_err f r, w).

Definition update_signed_refs (urn : Urn) : st W UpdateError (option N) :=
  _ ← err_map UpdProgress (report UpdatingSignedRefs);
  _ ← reads (fun w => of_res_with OpenStorage (pool_get env w));
  update_result ← get;
  let update_result := signed_refs_update env update_result urn in
  _ ← act (SignedRefsUpdate urn update_result);
  updated ← lift (of_res_with UpdateRefs update_result);
  match updated with
  | MkUpdated _ at_ => _ ← err_map UpdProgress (report (SignedRefsState true)); mret (Some at_)
  | Unchanged _ at_ => _ ← err_map UpdProgress (report (SignedRefsState false)); mret (Some at_)
  | ConcurrentlyModified => _ ← err_map UpdProgress (report SigrefsRace); mret None
  end.

(** The responses of a seed, up to the one that ends the request. *)
Fixpoint pull_responses (urn : Urn) (l : list (result NetE PullResponse)) : st W ClientE unit :=
  match l with
  | [] => mret tt
  | Ok (PullSuccess s) :: _ => report (Pulled_ urn s)
  | Ok (PullError m) :: _ => report (PullSays m)
  | Ok (PullProgress m) :: l => _ ← report (PullSays m); pull_responses urn l
  | Err e :: _ => report (PullTransport e)
  end.
Definition request_pull_from (urn : Urn) (seed : Seed) : st W ClientE unit :=
  _ ← report (PullTo (seed_peer seed) (seed_label seed));
  w ← get;
  _ ← act (RequestedPull (seed_peer seed) (seed_addrs seed) urn);
  match client_request_pull env w seed urn with
  | Ok responses => pull_responses urn responses
  | Err e => report (PullFailed (seed_peer seed) e)
  end.
Fixpoint request_pull (seeds : list Seed) (urn : Urn) : st W ClientE unit :=
  match seeds with
  | [] => mret tt
  | seed :: seeds => _ ← request_pull_from urn seed; request_pull seeds urn
  end.

Definition replicate_from (urn : Urn) (seed : Seed) : st W ClientE unit :=
  _ ← report (ReplicatingFrom (seed_peer seed) (seed_label seed));
  w ← get;
  _ ← act (ReplicatedFrom (seed_peer seed) (seed_addrs seed) urn);
  match client_replicate env w seed urn with
  | Ok r => report (Replicated_ urn r)
  | Err e => report (ReplicationFailed (seed_peer seed) e)
  end.
Fixpoint hook_replicate (seeds : list Seed) (urn : Urn) : st W ClientE unit :=
  match seeds with
  | [] => mret tt
  | seed :: seeds => _ ← replicate_from urn seed; hook_replicate seeds urn
  end.

(** The replies of the node, up to the one that ends the call. *)
Fixpoint node_replies (l : list Reply) (e : TransportE) : st W AnnounceError unit :=
  match l with
  | [] => lift (EErr (LinkdTransport e))
  | ReplyProgress m :: l => _ ← err_map AnnProgress (report (NodeSays m)); node_replies l e
  | ReplySuccess :: _ => err_map AnnProgress (report AnnouncedRefs)
  | ReplyError m :: _ => lift (EErr (Linkd m))
  end.
Definition hook_announce (urn : Urn) (at_ : N) : st W AnnounceError unit :=
  _ ← err_map AnnProgress (report Announcing);
  _ ← reads (fun w => of_res_with LinkdConnect (linkd_connect env w));
  w ← get;
  _ ← lift (of_res_with LinkdTransport (linkd_execute env w urn at_));
  _ ← act (AnnouncedAt urn at_);
  w ← get;
  node_replies (linkd_replies env w).1 (linkd_replies env w).2.

(** [Hooks::post_receive] and [Hooks::pre_upload]. *)
Definition post_receive (config : PostReceive) (seeds : list Seed) (urn : Urn) : st W PostReceiveError unit :=
  at_ ← err_map PostUpdate (update_signed_refs urn);
  _ ← (if pr_request_pull config then err_map PostRequestPull (request_pull seeds urn) else err_map PostProgress (report SkippingPull));
  match at_ with
  | None => mret tt
  | Some at_ => if pr_announce config then err_map PostAnnounce (hook_announce urn at_) else err_map PostProgress (report SkippingAnnounce)
  end.
Definition pre_upload (config : PreUpload) (seeds : list Seed) (urn : Urn) : st W ClientE unit :=
  if pu_replicate config then hook_replicate seeds urn else report SkippingReplication.

(** ** What the hooks do *)

Definition effect (a : Act) : option Act := match a with Told _ | NotTold _ => None | _ => Some a end.
Definition effects (t : list Act) : list Act := omap effect t.
Definition all_told (t : list Act) : Prop := Forall (fun a => match a with NotTold _ => False | _ => True end) t.
Lemma hook_effects_app t t' : effects (t ++ t') = effects t ++ effects t'.
Proof. apply omap_app. Qed.

(** [m] does what [plan] says, in that order, or a part of it when it fails; [only_told] when it only fails because the client is gone. *)
Definition carries {E A} (only_told : bool) (m : st W E A) (plan : list Act) : Prop := forall w, exists r t, m w = (r, w ++ t) /\
  match r with
  | EOk _ => effects t = plan /\ all_told t
  | EErr _ => effects t `prefix_of` plan /\ (only_told = true -> ~ all_told t)
  | EPanic => False
  end.
Lemma carries_ret {E A} b (a : A) : carries b (mret a : st W E A) [].
Proof. intros w. exists (EOk a), []. split; [by rewrite app_nil_r|]. split; [done|constructor]. Qed.
Lemma carries_bind {E A B} b (m : st W E A) (f : A -> st W E B) p q : carries b m p -> (forall a, carries b (f a) q) -> carries b (m ≫= f) (p ++ q).
Proof.
  intros Hm Hf w. destruct (Hm w) as (r & t & Hr & H). unfold mbind, st_bind. rewrite Hr. destruct r as [a|e|]; [|exists (EErr e), t; split; [done|]|done].
  - destruct (Hf a (w ++ t)) as (r2 & t2 & Hr2 & H2). exists r2, (t ++ t2). rewrite Hr2. split; [by rewrite app_assoc|]. destruct H as [He Ha]. rewrite hook_effects_app, He.
    destruct r2; [|split|done].
    + destruct H2 as [-> Ha2]. split; [done|by apply Forall_app].
    + by apply prefix_app, H2.
    + intros Hb Hall. apply (proj2 H2 Hb). by apply Forall_app in Hall as [_ ?].
  - destruct H as [Hp Ha]. split; [by apply prefix_app_r|done].
Qed.
Lemma carries_get {E A} b (f : W -> st W E A) p : (forall w, carries b (f w) p) -> carries b (get ≫= f) p.
Proof. intros Hf w. apply (Hf w). Qed.
Lemma carries_reads {E A} (f : W -> eff E A) : (forall w, f w <> EPanic) -> carries false (reads f) [].
Proof. intros Hf w. exists (f w), []. split; [by rewrite app_nil_r|]. specialize (Hf w). destruct (f w); [split; [done|constructor]|done..]. Qed.
Lemma carries_err_map {E F A} b (f : E -> F) (m : st W E A) p : carries b m p -> carries b (err_map f m) p.
Proof. intros Hm w. destruct (Hm w) as (r & t & Hr & H). exists (eff_map_err f r), t. unfold err_map. rewrite Hr. split; [done|]. by destruct r. Qed.
Lemma carries_weaken {E A} b (m : st W E A) p : carries true m p -> carries b m p.
Proof. intros Hm w. destruct (Hm w) as (r & t & Hr & H). exists r, t. split; [done|]. destruct r; [done| |done]. destruct H as [? Hn]. split; [done|]. intros _. by apply Hn. Qed.
Lemma carries_act {E} b (a : Act) : effect a = Some a -> carries (E := E) b (act a) [a].
Proof. intros Ha w. exists (EOk tt), [a]. split; [done|]. cbn. rewrite Ha. split; [done|]. constructor; [by destruct a|constructor]. Qed.
Lemma carries_report b n : carries b (report n) [].
Proof.
  intros w. unfold report. destruct (client_takes env w n) as [u|e].
  - exists (EOk tt), [Told n]. split; [done|]. split; [done|]. by repeat constructor.
  - exists (EErr e), [NotTold n]. split; [done|]. split; [done|]. intros _ Ha. by inversion Ha.
Qed.
#[local] Hint Resolve carries_ret carries_report carries_err_map carries_act carries_weaken : rad.

Definition pulls (seeds : list Seed) (urn : Urn) : list Act := map (fun s => RequestedPull (seed_peer s) (seed_addrs s) urn) seeds.
Definition replications (seeds : list Seed) (urn : Urn) : list Act := map (fun s => ReplicatedFrom (seed_peer s) (seed_addrs s) urn) seeds.
Lemma carries_responses b urn l : carries b (pull_responses urn l) [].
Proof. induction l as [|[[]|] l IH]; cbn [pull_responses]; auto with rad. by apply (carries_bind b _ _ [] []); auto with rad. Qed.
Lemma carries_pulls b seeds urn : carries b (request_pull seeds urn) (pulls seeds urn).
Proof.
  induction seeds as [|s seeds IH]; cbn [request_pull pulls map]; [apply carries_ret|]. apply (carries_bind b _ _ [_]); [|done].
  apply (carries_bind b _ _ []); [auto with rad|intros _]. apply carries_get. intros w. apply (carries_bind b _ _ [_] []); [auto with rad|intros _].
  destruct (client_request_pull env w s urn); [apply carries_responses|auto with rad].
Qed.
Lemma carries_replications b seeds urn : carries b (hook_replicate seeds urn) (replications seeds urn).
Proof.
  induction seeds as [|s seeds IH]; cbn [hook_replicate replications map]; [apply carries_ret|]. apply (carries_bind b _ _ [_]); [|done].
  apply (carries_bind b _ _ []); [auto with rad|intros _]. apply carries_get. intros w. apply (carries_bind b _ _ [_] []); [auto with rad|intros _].
  destruct (client_replicate env w s urn); auto with rad.
Qed.
Lemma carries_replies l e : carries false (node_replies l e) [].
Proof.
  induction l as [|[]]; cbn [node_replies]; [|by apply (carries_bind false _ _ [] []); auto with rad|auto with rad|]; intros w; eexists (EErr _), []; by rewrite app_nil_r.
Qed.
Lemma of_res_no_panic {E F A} (f : E -> F) (x : result E A) : of_res_with f x <> EPanic.
Proof. by destruct x. Qed.
Lemma carries_announce urn at_ : carries false (hook_announce urn at_) [AnnouncedAt urn at_].
Proof.
  unfold hook_announce. apply (carries_bind _ _ _ []); [auto with rad|intros _]. apply (carries_bind _ _ _ []); [apply carries_reads; intros; apply of_res_no_panic|intros _].
  apply carries_get. intros w. apply (carries_bind _ _ _ []); [|intros _].
  { apply (carries_reads (fun _ => of_res_with LinkdTransport (linkd_execute env w urn at_))). intros _. apply of_res_no_panic. }
  apply (carries_bind _ _ _ [_] []); [auto with rad|intros _]. apply carries_get. intros w'. apply carries_replies.
Qed.

Definition updated_at (u : Updated) : option N := match u with MkUpdated _ at_ | Unchanged _ at_ => Some at_ | ConcurrentlyModified => None end.
(** What is told of an update. *)
Definition state_note (u : Updated) : Note :=
  match u with MkUpdated _ _ => SignedRefsState true | Unchanged _ _ => SignedRefsState false | ConcurrentlyModified => SigrefsRace end.
Lemma update_signed_refs_eq urn w : update_signed_refs urn w =
  (_ ← err_map UpdProgress (report UpdatingSignedRefs);
   _ ← reads (fun w => of_res_with OpenStorage (pool_get env w));
   w ← get;
   _ ← act (SignedRefsUpdate urn (signed_refs_update env w urn));
   u ← lift (of_res_with UpdateRefs (signed_refs_update env w urn));
   _ ← err_map UpdProgress (report (state_note u)); mret (updated_at u)) w.
Proof.
  unfold update_signed_refs, mbind, st_bind. destruct (err_map UpdProgress (report UpdatingSignedRefs) w) as [[] w1]; [|done..].
  destruct (reads _ w1) as [[] w2]; [|done..]. cbn. by destruct (signed_refs_update env w2 urn) as [[]|].
Qed.
Lemma update_spec urn w : exists r t, update_signed_refs urn w = (r, w ++ t) /\
  ((effects t = [] /\ exists e, r = EErr e) \/
   exists res, effects t = [SignedRefsUpdate urn res] /\
     match r with
     | EOk o => exists u, res = Ok u /\ o = updated_at u /\ all_told t
     | EErr e => match res with Err e' => e = UpdateRefs e' | Ok _ => ~ all_told t end
     | EPanic => False
     end).
Proof.
  rewrite update_signed_refs_eq. unfold mbind, st_bind, err_map, report, reads, get, act, lift, mret, st_ret.
  destruct (client_takes env w UpdatingSignedRefs) as [?|e]; cbn; [|exists (EErr (UpdProgress e)), [NotTold UpdatingSignedRefs]; split; [done|]; left; eauto].
  set (w1 := w ++ [Told UpdatingSignedRefs]). destruct (pool_get env w1) as [?|e]; cbn; [|exists (EErr (OpenStorage e)), [Told UpdatingSignedRefs]; split; [done|]; left; eauto].
  destruct (signed_refs_update env w1 urn) as [u|e] eqn:Hu; cbn.
  - set (w2 := w1 ++ _). set (upd := SignedRefsUpdate urn (Ok u)). destruct (client_takes env w2 (state_note u)) as [?|e]; cbn.
    + exists (EOk (updated_at u)), [Told UpdatingSignedRefs; upd; Told (state_note u)]. unfold w2, w1. split; [by rewrite <- !app_assoc|]. right. exists (Ok u). split; [done|].
      exists u. split; [done|]. split; [done|]. by repeat constructor.
    + exists (EErr (UpdProgress e)), [Told UpdatingSignedRefs; upd; NotTold (state_note u)]. unfold w2, w1. split; [by rewrite <- !app_assoc|]. right. exists (Ok u). split; [done|].
      intros Ha. apply Forall_cons in Ha as [_ [_ [Ha _]%Forall_cons]%Forall_cons]. done.
  - exists (EErr (UpdateRefs e)), [Told UpdatingSignedRefs; SignedRefsUpdate urn (Err e)]. unfold w1. split; [by rewrite <- !app_assoc|]. right. exists (Err e). by split.
Qed.

(** What follows the update of the signed references. *)
Definition announced (config : PostReceive) (urn : Urn) (at_ : option N) : list Act :=
  match at_ with Some at_ => if pr_announce config then [AnnouncedAt urn at_] else [] | None => [] end.
Definition after_update (config : PostReceive) (seeds : list Seed) (urn : Urn) (u : Updated) : list Act :=
  (if pr_request_pull config then pulls seeds urn else []) ++ announced config urn (updated_at u).
Lemma announced_spec config urn o w : exists r t,
  match o with
  | None => mret tt
  | Some at_ => if pr_announce config then err_map PostAnnounce (hook_announce urn at_) else err_map PostProgress (report SkippingAnnounce)
  end w = (r, w ++ t) /\ effects t `prefix_of` announced config urn o /\ (r = EOk tt -> effects t = announced config urn o) /\
  (all_told t -> effects t = announced config urn o \/ exists e, r = EErr (PostAnnounce e)).
Proof.
  destruct o as [at_|]; cbn [announced]; [destruct (pr_announce config)|].
  - destruct (carries_announce urn at_ w) as (r & t & Hr & H). exists (eff_map_err PostAnnounce r), t. unfold err_map. rewrite Hr. split; [done|].
    destruct r as [?|e|]; [destruct H as [-> _]; eauto|split; [apply H|]; split; [done|eauto]|done].
  - destruct (carries_report true SkippingAnnounce w) as (r & t & Hr & H). exists (eff_map_err PostProgress r), t. unfold err_map. rewrite Hr. split; [done|].
    destruct r as [?|e|]; [destruct H as [-> _]; eauto|destruct H as [Hp Hn]; split; [done|]; split; [done|]; intros Ha; by destruct (Hn eq_refl Ha)|done].
  - exists (EOk tt), []. split; [by rewrite app_nil_r|]. by eauto.
Qed.

(** C20 [post_receive_safe]: after a push, nothing is asked of seeds or announced before the references were signed, and nothing at all when that
    failed. What is announced is the very state that was signed, and nothing when another update came in between. Otherwise, all
    seeds are asked, in order and whatever they answer, and the state is announced; only a client that is gone stops this
    half-way. *)
Theorem post_receive_safe config seeds urn w : exists r t, post_receive config seeds urn w = (r, w ++ t) /\
  ((effects t = [] /\ exists e, r = EErr e) \/
   exists res rest, effects t = SignedRefsUpdate urn res :: rest /\
     match res with
     | Err e => rest = [] /\ r = EErr (PostUpdate (UpdateRefs e))
     | Ok u => rest `prefix_of` after_update config seeds urn u /\ (r = EOk tt -> rest = after_update config seeds urn u) /\
         (all_told t -> (if pr_request_pull config then pulls seeds urn else []) `prefix_of` rest /\
            (rest = after_update config seeds urn u \/ exists e, r = EErr (PostAnnounce e)))
     end).
Proof.
  unfold post_receive. destruct (update_spec urn w) as (r1 & t1 & Hr1 & H1). unfold mbind at 1, st_bind at 1, err_map at 1. rewrite Hr1.
  destruct H1 as [(He & e & ->)|(res & He & Hres)].
  { exists (EErr (PostUpdate e)), t1. split; [done|]. left. eauto. }
  destruct r1 as [o|e|]; cbn [eff_map_err]; [|exists (EErr (PostUpdate e)), t1; split; [done|]; right; exists res, []; split; [done|]|done].
  2: { destruct res; [|by subst]. split; [apply prefix_nil|]. split; [done|]. done. }
  destruct Hres as (u & -> & -> & Ha1). set (ps := if pr_request_pull config then pulls seeds urn else []).
  set (m := if pr_request_pull config then _ else _). assert (carries true m ps) as Hm.
  { unfold m, ps. destruct (pr_request_pull config); apply carries_err_map; [apply carries_pulls|apply carries_report]. }
  destruct (Hm (w ++ t1)) as (r2 & t2 & Hr2 & H2). unfold mbind, st_bind. rewrite Hr2. destruct r2 as [[]|e|]; [| |done].
  2: { exists (EErr e), (t1 ++ t2). split; [by rewrite app_assoc|]. right. exists (Ok u), (effects t2). rewrite hook_effects_app, He. split; [done|].
    destruct H2 as [Hp Hn]. split; [by apply prefix_app_r|]. split; [done|]. intros [_ Ha]%Forall_app. by destruct (Hn eq_refl Ha). }
  destruct H2 as [He2 Ha2]. destruct (announced_spec config urn (updated_at u) ((w ++ t1) ++ t2)) as (r3 & t3 & Hr3 & Hp3 & Hok3 & Hall3).
  exists r3, (t1 ++ t2 ++ t3). split; [by rewrite Hr3, !app_assoc|]. right. exists (Ok u), (ps ++ effects t3).
  rewrite !hook_effects_app, He, He2. split; [done|]. unfold after_update. fold ps. split; [by apply prefix_app|]. split; [by intros ->%Hok3|].
  intros [_ [_ Ha]%Forall_app]%Forall_app. split; [by apply prefix_app_r|]. destruct (Hall3 Ha) as [->|?]; eauto.
Qed.

Lemma carries_no_panic {E A} b (m : st W E A) p w : carries b m p -> (m w).1 <> EPanic.
Proof. intros Hm. destruct (Hm w) as (r & t & Hr & H). rewrite Hr. by destruct r. Qed.
Lemma post_receive_no_panic config seeds urn w : (post_receive config seeds urn w).1 <> EPanic.
Proof.
  assert (forall E A B (m : st W E A) (f : A -> st W E B) w, (m w).1 <> EPanic -> (forall a w, (f a w).1 <> EPanic) -> ((m ≫= f) w).1 <> EPanic) as Hbind.
  { intros E A B m f w' Hm Hf. unfold mbind, st_bind. destruct (m w') as [[a|e|] w'']; [apply Hf|done|done]. }
  apply Hbind; [|intros o w1; apply Hbind; [|intros _ w2]].
  - destruct (update_spec urn w) as (r & t & Hr & H). unfold err_map. rewrite Hr. destruct r; [done..|]. destruct H as [(_ & e & ?)|(res & _ & [])]. done.
  - destruct (pr_request_pull config); eapply carries_no_panic, carries_err_map; [apply (carries_pulls true)|apply (carries_report true)].
  - destruct o as [at_|]; [destruct (pr_announce config)|done]; eapply carries_no_panic, carries_err_map; [apply carries_announce|apply (carries_report true)].
Qed.
(** [pre_upload_exact]: before a fetch, all seeds are replicated from, in order and whatever comes of it, unless the client is gone. *)
Theorem pre_upload_exact config seeds urn : carries true (pre_upload config seeds urn) (if pu_replicate config then replications seeds urn else []).
Proof. unfold pre_upload. destruct (pu_replicate config); [apply carries_replications|apply carries_report]. Qed.
End Env.
End Hooks.
