(* ===== verification/GitSubprocess.v ===== *)
(** * Running git for a client

    [cli/gitd-lib/src/git_subprocess.rs]: the hooks before a fetch, git itself with its input, its output and its signals, what is
    left of the output after it has ended, the hooks after a push, its exit status, and closing the channel.  What
    [select!] finds ready is an event; what happens, and every message to the client, is an act. *)
From stdpp Require Import base list sets.
From Stdlib Require Import NArith Lia Sorting.Sorted.
From S2P Require Import Prelude Effects RemotesGraph SignedRefs SshService Processes GitHooks.
#[local] Open Scope N_scope.

(** [ExitStatus]: the code, unless a signal ended the process. *)
Definition ExitStatus : Type := option N.
Definition success (s : ExitStatus) : bool := bool_decide (s = Some 0).

Section Subprocess.
Context {Peer Addr Urn Txt Pulled Replicated ClientE PoolE RefsE NetE IoE TransportE CmdE Sig : Type}.
Let Data : Type := list N.
Let HAct := Act (Peer := Peer) (Addr := Addr) (Urn := Urn) (Txt := Txt) (Pulled := Pulled) (Replicated := Replicated) (RefsE := RefsE) (NetE := NetE).
Let HEnv := HookEnv (Peer := Peer) (Addr := Addr) (Urn := Urn) (Txt := Txt) (Pulled := Pulled) (Replicated := Replicated)
  (ClientE := ClientE) (PoolE := PoolE) (RefsE := RefsE) (NetE := NetE) (IoE := IoE) (TransportE := TransportE).
Let HSeed := Seed (Peer := Peer) (Addr := Addr) (Txt := Txt).
Let PostE := PostReceiveError (Txt := Txt) (ClientE := ClientE) (PoolE := PoolE) (RefsE := RefsE) (IoE := IoE) (TransportE := TransportE).

(** [Error] *)
Inductive SubError := UnexpectedPool (e : PoolE) | UnexpectedCommand (e : CmdE) | UnexpectedIo (e : IoE) | SubReply (e : ClientE).
(** What the client is sent: output, texts of the server, and the end. *)
Inductive ToClient :=
| Stdout (d : Data) | Stderr (d : Data) | SpawnFailed (e : IoE) | SignalFailed | NoPid | NoStatus | HookFailed (e : PostE) | Exit (s : ExitStatus) | Close.
Inductive SubAct :=
| BeforeFetch (a : HAct)
| AfterPush (a : HAct)
| Sent (m : ToClient) (ok : bool)
| Spawned (args : list (list N))
| Written (d : Data) | StdinShut | Signalled (s : Sig) | Killed.
Let W : Type := list SubAct.
(** What can be ready, before git has ended and after. *)
Inductive ChildEvent := Input (m : option (SubMessage (Data := Data) (Sig := Sig))) | OutRead (r : result IoE Data) | ErrRead (r : result IoE Data) | Waited (r : result IoE ExitStatus).
Inductive DrainEvent := DrainOut (r : result IoE Data) | DrainErr (r : result IoE Data).

Record SubEnv := MkSubEnv {
  se_hooks : W -> HEnv;
  se_takes : W -> ToClient -> result ClientE unit;
  se_pool : W -> result PoolE unit;
  se_command : W -> SshService Urn -> result CmdE (list (list N));
  se_spawn : W -> list (list N) -> result IoE unit;
  se_shutdown : W -> result IoE unit;
  se_id : W -> option N;
  se_signal : W -> N -> Sig -> result unit unit;
  se_kill : W -> result IoE unit;
}.
(** [Hooks]: what is to be done, and the seeds. *)
Record Hooks := MkHooks { h_post : PostReceive; h_pre : PreUpload; h_seeds : list HSeed }.

(** How the loop on a running child ends. *)
Inductive Looped := ChildExited (s : ExitStatus) | ClientLeft | StillRunning.

Section Env.
Context (env : SubEnv).

Definition send_client (m : ToClient) : st W ClientE unit := fun w =>
  match se_takes env w m with Ok _ => (EOk tt, w ++ [Sent m true]) | Err e => (EErr e, w ++ [Sent m false]) end.
(** With [.ok()] *)
Definition send_client_ok {E} (m : ToClient) : st W E bool := fun w =>
  match send_client m w with (EOk _, w) => (EOk true, w) | (_, w) => (EOk false, w) end.
Definition sub_act {E} (a : SubAct) : st W E unit := fun w => (EOk tt, w ++ [a]).
(** Hooks start with what the client and the rest will say from here on. *)
Definition run_hook {E A} (tag : HAct -> SubAct) (m : HEnv -> st (list HAct) E A) : st W E A := fun w =>
  let '(r, t) := m (se_hooks env w) [] in (r, w ++ map tag t).
Definition reply {A} (m : st W ClientE A) : st W SubError A := fun w => let '(r, w) := m w in (eff_map_err SubReply r, w).

Definition forward_input (bytes_read : result IoE Data) (f : Data -> ToClient) : st W SubError bool :=
  match bytes_read with Ok d => send_client_ok (f d) | Err _ => mret true end.
Definition kill_child : st W SubError unit :=
  w ← get;
  _ ← sub_act Killed;
  lift (of_res_with UnexpectedIo (se_kill env w)).
(** An input, with the child's stdin still open or not; whether it is open afterwards. *)
Definition handle_input (stdin : bool) (m : option (SubMessage (Data := Data) (Sig := Sig))) : st W SubError bool :=
  match m with
  | Some (SubData d) => if stdin then _ ← sub_act (Written d); mret true else mret false
  | Some SubEof => if stdin then w ← get; _ ← sub_act StdinShut; _ ← lift (of_res_with UnexpectedIo (se_shutdown env w)); mret false else mret false
  | Some (SubSignal s) =>
      w ← get;
      match se_id env w with
      | Some pid => match se_signal env w pid s with
                    | Ok _ => _ ← sub_act (Signalled s); mret stdin
                    | Err _ => _ ← send_client_ok SignalFailed; mret stdin
                    end
      | None => _ ← send_client_ok NoPid; mret stdin
      end
  | None => mret stdin
  end.
Fixpoint child_loop (stdin : bool) (evs : list ChildEvent) : st W SubError Looped :=
  match evs with
  | [] => mret StillRunning
  | Input m :: evs => stdin ← handle_input stdin m; child_loop stdin evs
  | OutRead r :: evs => go ← forward_input r Stdout; if (go : bool) then child_loop stdin evs else _ ← kill_child; mret ClientLeft
  | ErrRead r :: evs => go ← forward_input r Stderr; if (go : bool) then child_loop stdin evs else _ ← kill_child; mret ClientLeft
  | Waited (Ok s) :: _ => mret (ChildExited s)
  | Waited (Err e) :: _ => _ ← send_client_ok NoStatus; lift (EErr (UnexpectedIo e))
  end.
(** What is left; [false] while output may still come. What is closed is not read any more. *)
Fixpoint drain (out err : bool) (evs : list DrainEvent) : st W SubError bool :=
  if negb out && negb err then mret true
  else match evs with
  | [] => mret false
  | DrainOut (Ok []) :: evs => drain false err evs
  | DrainErr (Ok []) :: evs => drain out false evs
  | DrainOut r :: evs => if out then _ ← forward_input r Stdout; drain out err evs else drain out err evs
  | DrainErr r :: evs => if err then _ ← forward_input r Stderr; drain out err evs else drain out err evs
  end.

(** Errors that mean the client went away. *)
Definition went_away (e : PostE) : bool :=
  match e with PostProgress _ | PostAnnounce (AnnProgress _) | PostUpdate (UpdProgress _) | PostRequestPull _ => true | _ => false end.
Definition post_hook (hooks : Hooks) (s : SshService Urn) : st W SubError unit := fun w =>
  if bool_decide (service s = ReceivePack) then
    match run_hook AfterPush (fun henv => post_receive henv (h_post hooks) (h_seeds hooks) (path s)) w with
    | (EErr e, w) => if went_away e then (EOk tt, w) else reply (send_client (HookFailed e)) w
    | (EOk _, w) => (EOk tt, w)
    | (EPanic, w) => (EPanic, w)
    end
  else (EOk tt, w).

(** After git has ended. *)
Definition child_exited (hooks : Hooks) (s : SshService Urn) (status : ExitStatus) (drains : list DrainEvent) : st W SubError bool :=
  drained ← drain true true drains;
  if negb drained then mret false
  else if negb (success status) then _ ← reply (send_client (Exit status)); mret true
  else _ ← post_hook hooks s; _ ← reply (send_client (Exit (Some 0))); mret true.
(** With git as it is to be run. *)
Definition run_child (hooks : Hooks) (s : SshService Urn) (evs : list ChildEvent) (drains : list DrainEvent) : st W SubError bool :=
  _ ← reads (fun w => of_res_with UnexpectedPool (se_pool env w));
  args ← reads (fun w => of_res_with UnexpectedCommand (se_command env w s));
  w ← get;
  match se_spawn env w args with
  | Err e => _ ← reply (send_client (SpawnFailed e)); mret true
  | Ok _ =>
      _ ← sub_act (Spawned args);
      looped ← child_loop true evs;
      match looped with
      | StillRunning => mret false
      | ClientLeft => mret true
      | ChildExited status => child_exited hooks s status drains
      end
  end.
(** [run_git_subprocess_inner]: [true] when it has returned, [false] when it waits for more events. *)
Definition run_git_subprocess_inner (hooks : Hooks) (s : SshService Urn) (evs : list ChildEvent) (drains : list DrainEvent) : st W SubError bool := fun w =>
  if is_upload s then
    match run_hook BeforeFetch (fun henv => pre_upload henv (h_pre hooks) (h_seeds hooks) (path s)) w with
    | (EOk _, w) => run_child hooks s evs drains w
    | (EErr _, w) => (EOk true, w)
    | (EPanic, w) => (EPanic, w)
    end
  else run_child hooks s evs drains w.
Definition run_git_subprocess (hooks : Hooks) (s : SshService Urn) (evs : list ChildEvent) (drains : list DrainEvent) : st W SubError bool := fun w =>
  match run_git_subprocess_inner hooks s evs drains w with
  | (EOk false, w) => (EOk false, w)
  | (EPanic, w) => (EPanic, w)
  | (r, w) => let '(_, w) := send_client Close w in (r, w)
  end.

(** ** The order of what happens *)

Definition phase (a : SubAct) : nat :=
  match a with
  | BeforeFetch _ => 0
  | Spawned _ => 1
  | AfterPush _ => 3
  | Sent (HookFailed _) _ => 4
  | Sent (Exit _) _ => 5
  | Sent Close _ => 6
  | _ => 2
  end.
(** A phase may come after another when it is a later one; the hooks, and the time git runs, have more than one act. *)
Definition after_ok (p q : nat) : Prop := (p < q \/ p = q /\ p <= 3)%nat.
Definition in_order (t : list SubAct) : Prop := StronglySorted after_ok (map phase t).
Definition between (lo hi : nat) (t : list SubAct) : Prop := in_order t /\ Forall (fun a => (lo <= phase a <= hi)%nat) t.
(** [m] adds acts in order, of the phases [lo] to [hi]; they and what it returns are as [P] says. *)
Definition phased {E A} (lo hi : nat) (m : st W E A) (P : eff E A -> list SubAct -> Prop) : Prop :=
  forall w, exists r t, m w = (r, w ++ t) /\ between lo hi t /\ P r t.

Lemma between_nil lo hi : between lo hi [].
Proof. split; [apply SSorted_nil|by apply Forall_nil]. Qed.
Lemma between_one lo hi a : (lo <= phase a <= hi)%nat -> between lo hi [a].
Proof. intros Ha. split; [apply SSorted_cons; [apply SSorted_nil|apply Forall_nil; done]|by apply Forall_singleton]. Qed.
Lemma between_app a b b' c t t' : after_ok b b' -> (a <= b' /\ b <= c)%nat -> between a b t -> between b' c t' -> between a c (t ++ t').
Proof.
  intros Hab Hle [Hs Hf] [Hs' Hf']. split.
  - unfold in_order in *. rewrite map_app. induction t as [|x t IH]; cbn; [done|]. apply StronglySorted_inv in Hs as [Hs Hx]. apply Forall_cons in Hf as [Hx' Hf].
    constructor; [by apply IH|]. apply Forall_app. split; [done|]. apply Forall_map. eapply Forall_impl; [exact Hf'|]. cbn. unfold after_ok in *. intros. lia.
  - apply Forall_app. split; (eapply Forall_impl; [eassumption|]); cbn; unfold after_ok in *; intros; lia.
Qed.
Lemma between_weaken a b lo hi t : (lo <= a /\ b <= hi)%nat -> between a b t -> between lo hi t.
Proof. intros Hle [Hs Hf]. split; [done|]. eapply Forall_impl; [exact Hf|]. cbn. intros. lia. Qed.
Lemma between_same p t : (p <= 3)%nat -> Forall (fun a => phase a = p) t -> between p p t.
Proof.
  intros Hp Hf. split; [|eapply Forall_impl; [exact Hf|]; cbn; intros; lia]. unfold in_order. induction Hf as [|x t Hx Hf IH]; cbn; constructor; [done|].
  apply Forall_map. eapply Forall_impl; [exact Hf|]. cbn. unfold after_ok. intros. lia.
Qed.

Definition any {E A} (r : eff E A) (t : list SubAct) : Prop := r <> EPanic.
Lemma phased_bind {E A B} a b b' c (m : st W E A) (f : A -> st W E B) (P : eff E A -> list SubAct -> Prop) (Q : eff E B -> list SubAct -> Prop) :
  after_ok b b' -> (a <= b' /\ b <= c)%nat -> phased a b m P ->
  (forall x t, P (EOk x) t -> phased b' c (f x) (fun r t' => Q r (t ++ t'))) -> (forall e t, P (EErr e) t -> Q (EErr e) t) -> (forall t, P EPanic t -> Q EPanic t) ->
  phased a c (m ≫= f) Q.
Proof.
  intros Hab Hle Hm Hf He Hp w. destruct (Hm w) as (r & t & Hr & Hb & HP). unfold mbind, st_bind. rewrite Hr. destruct r as [x|e|].
  - destruct (Hf x t HP (w ++ t)) as (r' & t' & Hr' & Hb' & HQ). exists r', (t ++ t'). rewrite Hr'. split; [by rewrite app_assoc|]. split; [by eapply between_app|done].
  - exists (EErr e), t. split; [done|]. split; [by eapply between_weaken; [|done]; lia|by apply He].
  - exists EPanic, t. split; [done|]. split; [by eapply between_weaken; [|done]; lia|by apply Hp].
Qed.
Lemma phased_ret {E A} lo hi (x : A) (Q : eff E A -> list SubAct -> Prop) : Q (EOk x) [] -> phased lo hi (mret x) Q.
Proof. intros HQ w. exists (EOk x), []. split; [by rewrite app_nil_r|]. split; [apply between_nil|done]. Qed.
Lemma phased_lift {E A} lo hi (x : eff E A) (Q : eff E A -> list SubAct -> Prop) : Q x [] -> phased lo hi (lift x) Q.
Proof. intros HQ w. exists x, []. split; [by rewrite app_nil_r|]. split; [apply between_nil|done]. Qed.
Lemma phased_get {E A} lo hi (f : W -> st W E A) Q : (forall w, phased lo hi (f w) Q) -> phased lo hi (get ≫= f) Q.
Proof. intros Hf w. apply (Hf w w). Qed.
Lemma phased_weaken {E A} lo hi (m : st W E A) (P Q : eff E A -> list SubAct -> Prop) : phased lo hi m P -> (forall r t, P r t -> Q r t) -> phased lo hi m Q.
Proof. intros Hm HPQ w. destruct (Hm w) as (r & t & Hr & Hb & HP). exists r, t. split; [done|]. split; [done|by apply HPQ]. Qed.
Lemma phased_act {E} lo hi a (Q : eff E unit -> list SubAct -> Prop) : (lo <= phase a <= hi)%nat -> Q (EOk tt) [a] -> phased lo hi (sub_act a) Q.
Proof. intros Ha HQ w. exists (EOk tt), [a]. split; [done|]. split; [by apply between_one|done]. Qed.
Lemma phased_send lo hi m (Q : eff ClientE unit -> list SubAct -> Prop) : (lo <= phase (Sent m true) <= hi)%nat ->
  Q (EOk tt) [Sent m true] -> (forall e, Q (EErr e) [Sent m false]) -> phased lo hi (send_client m) Q.
Proof.
  intros Hm Hok He w. unfold send_client.
  destruct (se_takes env w m) as [u|e]; [exists (EOk tt), [Sent m true]|exists (EErr e), [Sent m false]]; (split; [done|]; split; [apply between_one; destruct m; exact Hm|]); [done|apply He].
Qed.
Lemma phased_send_ok {E} lo hi m (Q : eff E bool -> list SubAct -> Prop) : (lo <= phase (Sent m true) <= hi)%nat ->
  (forall b, Q (EOk b) [Sent m b]) -> phased lo hi (send_client_ok m) Q.
Proof.
  intros Hm HQ w. destruct (phased_send lo hi m (fun r t => t = [Sent m (match r with EOk _ => true | _ => false end)] /\ r <> EPanic) Hm) with (w := w) as (r & t & Hr & Hb & Ht & Hn); [done|done|].
  unfold send_client_ok. rewrite Hr. subst t. destruct r; [exists (EOk true)|exists (EOk false)|done]; eexists; (split; [done|]; split; [exact Hb|apply HQ]).
Qed.
Lemma phased_reply {A} lo hi (m : st W ClientE A) Q : phased lo hi m (fun r t => Q (eff_map_err SubReply r) t) -> phased lo hi (reply m) Q.
Proof. intros Hm w. destruct (Hm w) as (r & t & Hr & Hb & HQ). exists (eff_map_err SubReply r), t. unfold reply. by rewrite Hr. Qed.

(** ** Output *)

(** What was sent of the output. *)
Definition out_of (a : SubAct) : option Data := match a with Sent (Stdout d) _ => Some d | _ => None end.
Definition err_of (a : SubAct) : option Data := match a with Sent (Stderr d) _ => Some d | _ => None end.
Definition sent_out (t : list SubAct) : Data := concat (omap out_of t).
Definition sent_err (t : list SubAct) : Data := concat (omap err_of t).
(** What was read of it, until git ended, and until it was closed. *)
Fixpoint out_read (evs : list ChildEvent) : Data :=
  match evs with [] | Waited _ :: _ => [] | OutRead (Ok d) :: evs => d ++ out_read evs | _ :: evs => out_read evs end.
Fixpoint err_read (evs : list ChildEvent) : Data :=
  match evs with [] | Waited _ :: _ => [] | ErrRead (Ok d) :: evs => d ++ err_read evs | _ :: evs => err_read evs end.
Fixpoint drain_out (evs : list DrainEvent) : Data :=
  match evs with [] | DrainOut (Ok []) :: _ => [] | DrainOut (Ok d) :: evs => d ++ drain_out evs | _ :: evs => drain_out evs end.
Fixpoint drain_err (evs : list DrainEvent) : Data :=
  match evs with [] | DrainErr (Ok []) :: _ => [] | DrainErr (Ok d) :: evs => d ++ drain_err evs | _ :: evs => drain_err evs end.
Lemma sent_out_app t t' : sent_out (t ++ t') = sent_out t ++ sent_out t'.
Proof. unfold sent_out. by rewrite omap_app, concat_app. Qed.
Lemma sent_err_app t t' : sent_err (t ++ t') = sent_err t ++ sent_err t'.
Proof. unfold sent_err. by rewrite omap_app, concat_app. Qed.

Definition no_output (t : list SubAct) : Prop := sent_out t = [] /\ sent_err t = [].
Lemma phased_input stdin m : phased 2 2 (handle_input stdin m) (fun r t => r <> EPanic /\ no_output t).
Proof.
  assert (forall a, phase a = 2%nat -> omap out_of [a] = [] -> omap err_of [a] = [] -> forall b : bool,
    phased 2 2 (_ ← sub_act a; mret b : st W SubError bool) (fun r t => r <> EPanic /\ no_output t)) as Hact.
  { intros a Ha Ho He b w. exists (EOk b), [a]. split; [done|]. split; [apply between_one; lia|]. split; [done|]. unfold no_output, sent_out, sent_err. by rewrite Ho, He. }
  assert (forall m, phase (Sent m true) = 2%nat -> omap out_of [Sent m true] = [] -> omap err_of [Sent m true] = [] -> forall b : bool,
    phased 2 2 (_ ← send_client_ok m; mret b : st W SubError bool) (fun r t => r <> EPanic /\ no_output t)) as Hsend.
  { intros x Hx Ho He b. eapply (phased_bind 2 2 2 2 _ _ (fun r t => exists b, r = EOk b /\ t = [Sent x b])); [right; lia|lia| |..].
    - apply phased_send_ok; [lia|]. intros b'. by exists b'.
    - intros b' t (? & _ & ->). apply phased_ret. rewrite app_nil_r. split; [done|]. unfold no_output, sent_out, sent_err. destruct x; try done.
    - by intros e t (? & ? & _).
    - by intros t (? & ? & _). }
  assert (forall b : bool, phased 2 2 (mret b : st W SubError bool) (fun r t => r <> EPanic /\ no_output t)) as Hret by (intros b; by apply phased_ret).
  destruct m as [[d| |sg]|]; cbn [handle_input].
  - destruct stdin; [by apply Hact|apply Hret].
  - destruct stdin; [|apply Hret]. apply phased_get. intros w.
    intros w'. exists (eff_map_err UnexpectedIo (_ ← of_res (se_shutdown env w); EOk false)), [StdinShut]. split; [|split; [by apply between_one|]].
    + by destruct (se_shutdown env w).
    + split; [by destruct (se_shutdown env w)|done].
  - apply phased_get. intros w. destruct (se_id env w) as [pid|]; [destruct (se_signal env w pid sg)|]; [by apply Hact|by apply Hsend|by apply Hsend].
  - apply Hret.
Qed.
Lemma phased_forward r (f : Data -> ToClient) : (forall d b, phase (Sent (f d) b) = 2%nat) ->
  phased 2 2 (forward_input r f) (fun x t => exists b, x = EOk b /\ t = match r with Ok d => [Sent (f d) b] | Err _ => [] end).
Proof.
  intros Hf. destruct r as [d|]; cbn [forward_input]; [|apply phased_ret; by exists true]. apply phased_send_ok; [rewrite Hf; lia|]. intros b. by exists b.
Qed.
Lemma phased_kill : phased 2 2 (_ ← kill_child; mret ClientLeft) (fun r _ => r <> EPanic /\ forall s, r <> EOk (ChildExited s)).
Proof.
  apply (phased_bind 2 2 2 2 _ _ (fun r _ => r <> EPanic)); [right; lia|lia| |by intros; apply phased_ret|done|done].
  apply phased_get. intros w. apply (phased_bind 2 2 2 2 _ _ (fun r _ => r <> EPanic)); [right; lia|lia|by apply phased_act; cbn; [lia|]| |done|done].
  intros _ t _. apply phased_lift. by destruct (se_kill env w).
Qed.

(** What the loop on git gives, and sends. *)
Definition looped_ok (evs : list ChildEvent) (r : eff SubError Looped) (t : list SubAct) : Prop :=
  r <> EPanic /\ forall s, r = EOk (ChildExited s) -> Waited (Ok s) ∈ evs /\ sent_out t = out_read evs /\ sent_err t = err_read evs.
Lemma phased_loop evs : forall stdin, phased 2 2 (child_loop stdin evs) (looped_ok evs).
Proof.
  induction evs as [|[m|r|r|[s|e]] evs IH]; intros stdin; cbn [child_loop].
  - by apply phased_ret.
  - apply (phased_bind 2 2 2 2 _ _ (fun r t => r <> EPanic /\ no_output t)); [right; lia|lia|apply phased_input| |done|by intros t [? _]].
    intros stdin' t [_ [Ho He]]. eapply phased_weaken; [apply IH|]. intros r t' [Hn Hs]. split; [done|]. intros s Hx. destruct (Hs s Hx) as (Hin & H1 & H2).
    split; [by right|]. by rewrite sent_out_app, sent_err_app, Ho, He.
  - eapply (phased_bind 2 2 2 2); [right; lia|lia|by apply (phased_forward r Stdout)| |by intros e t (? & ? & _)|by intros t (? & ? & _)].
    intros go t (b & _ & ->). destruct go; [|eapply phased_weaken; [apply phased_kill|]; intros r' t' [Hn Hs]; split; [done|]; intros s Hx; by destruct (Hs s)].
    eapply phased_weaken; [apply IH|]. intros r' t' [Hn Hs]. split; [done|]. intros s Hx. destruct (Hs s Hx) as (Hin & H1 & H2).
    split; [by right|]. rewrite sent_out_app, sent_err_app, H1, H2. by destruct r; cbn; rewrite ?app_nil_r.
  - eapply (phased_bind 2 2 2 2); [right; lia|lia|by apply (phased_forward r Stderr)| |by intros e t (? & ? & _)|by intros t (? & ? & _)].
    intros go t (b & _ & ->). destruct go; [|eapply phased_weaken; [apply phased_kill|]; intros r' t' [Hn Hs]; split; [done|]; intros s Hx; by destruct (Hs s)].
    eapply phased_weaken; [apply IH|]. intros r' t' [Hn Hs]. split; [done|]. intros s Hx. destruct (Hs s Hx) as (Hin & H1 & H2).
    split; [by right|]. rewrite sent_out_app, sent_err_app, H1, H2. by destruct r; cbn; rewrite ?app_nil_r.
  - apply phased_ret. split; [done|]. intros s' [= <-]. split; [by left|done].
  - eapply (phased_bind 2 2 2 2 _ _ (fun r _ => exists b, r = EOk b)); [right; lia|lia| | |by intros ? ? [? ?]|by intros ? [? ?]].
    + apply phased_send_ok; [cbn; lia|eauto].
    + intros b t _. by apply phased_lift.
Qed.

(** What is sent of what was left. *)
Lemma phased_drain evs : forall out err, phased 2 2 (drain out err evs) (fun r t => (exists b, r = EOk b) /\
  sent_out t = (if out then drain_out evs else []) /\ sent_err t = (if err then drain_err evs else [])).
Proof.
  induction evs as [|[r|r] evs IH]; intros out err; cbn [drain]; destruct (negb out && negb err) eqn:Hd;
    try (apply phased_ret; apply andb_true_iff in Hd as [->%negb_true_iff ->%negb_true_iff]; by eauto).
  - apply phased_ret. split; [eauto|]. by destruct out, err.
  - assert (phased 2 2 (if out then _ ← forward_input r Stdout; drain out err evs else drain out err evs) (fun r' t => (exists b, r' = EOk b) /\
      sent_out t = (if out then match r with Ok d => d ++ drain_out evs | Err _ => drain_out evs end else []) /\ sent_err t = (if err then drain_err evs else []))) as Hgo.
    { destruct out; [|apply IH]. eapply (phased_bind 2 2 2 2); [right; lia|lia|by apply (phased_forward r Stdout)| |by intros e t (? & ? & _)|by intros t (? & ? & _)].
      intros go t (b & _ & ->). eapply phased_weaken; [apply IH|]. intros r' t' (Hb & H1 & H2). split; [done|]. rewrite sent_out_app, sent_err_app, H1, H2.
      by destruct r; cbn; rewrite ?app_nil_r. }
    destruct r as [[|c d]|e]; [|exact Hgo..]. eapply phased_weaken; [apply IH|]. intros r' t (Hb & H1 & H2). by destruct out.
  - assert (phased 2 2 (if err then _ ← forward_input r Stderr; drain out err evs else drain out err evs) (fun r' t => (exists b, r' = EOk b) /\
      sent_out t = (if out then drain_out evs else []) /\ sent_err t = (if err then match r with Ok d => d ++ drain_err evs | Err _ => drain_err evs end else []))) as Hgo.
    { destruct err; [|apply IH]. eapply (phased_bind 2 2 2 2); [right; lia|lia|by apply (phased_forward r Stderr)| |by intros e t (? & ? & _)|by intros t (? & ? & _)].
      intros go t (b & _ & ->). eapply phased_weaken; [apply IH|]. intros r' t' (Hb & H1 & H2). split; [done|]. rewrite sent_out_app, sent_err_app, H1, H2.
      by destruct r; cbn; rewrite ?app_nil_r. }
    destruct r as [[|c d]|e]; [|exact Hgo..]. eapply phased_weaken; [apply IH|]. intros r' t (Hb & H1 & H2). by destruct err.
Qed.

(** ** Hooks and the end *)

Lemma phased_range {E A} lo hi (m : st W E A) P : phased lo hi m P -> phased lo hi m (fun r t => P r t /\ Forall (fun a => (lo <= phase a <= hi)%nat) t).
Proof. intros Hm w. destruct (Hm w) as (r & t & Hr & Hb & HP). exists r, t. split; [done|]. split; [done|]. split; [done|]. apply Hb. Qed.
Lemma hook_no_output (tag : HAct -> SubAct) t : (tag = BeforeFetch \/ tag = AfterPush) -> no_output (map tag t).
Proof. intros Ht. split; induction t as [|a t IH]; try done; destruct Ht as [-> | ->]; exact IH. Qed.
Lemma phased_hook {E A} p (tag : HAct -> SubAct) (m : HEnv -> st (list HAct) E A) : (p <= 3)%nat -> (forall a, phase (tag a) = p) -> (tag = BeforeFetch \/ tag = AfterPush) ->
  (forall henv, (m henv []).1 <> EPanic) -> phased p p (run_hook tag m) (fun r t => r <> EPanic /\ no_output t).
Proof.
  intros Hp Ht Htag Hm w. unfold run_hook. specialize (Hm (se_hooks env w)). destruct (m (se_hooks env w) []) as [r t]. exists r, (map tag t). split; [done|].
  split; [|split; [done|by apply hook_no_output]]. apply between_same; [done|]. apply Forall_map, Forall_true. exact Ht.
Qed.
Lemma phased_post_hook hooks s : phased 3 4 (post_hook hooks s) (fun r t => r <> EPanic /\ no_output t /\ forall a, AfterPush a ∈ t -> service s = ReceivePack).
Proof.
  intros w. unfold post_hook. case_bool_decide as Hs; [|exists (EOk tt), []; split; [by rewrite app_nil_r|]; split; [apply between_nil|]; split; [done|]; split; [done|]; by intros ? ?%elem_of_nil].
  edestruct (phased_hook 3 AfterPush (fun henv => post_receive henv (h_post hooks) (h_seeds hooks) (path s))) with (w := w) as (r & t & Hr & Hb & Hn & Ho); [lia|done|by right|intros; apply post_receive_no_panic|].
  rewrite Hr. assert (between 3 4 t) as Hb4 by (eapply between_weaken; [|exact Hb]; lia). destruct r as [u|e|]; [exists (EOk tt), t; by split_and!| |done].
  destruct (went_away e); [exists (EOk tt), t; by split_and!|].
  destruct (phased_reply 4 4 (send_client (HookFailed e)) (fun r t => r <> EPanic /\ no_output t)) with (w := w ++ t) as (r & t' & Hr' & Hb' & Hn' & Ho').
  { by apply phased_send; [cbn; lia|..]. }
  exists r, (t ++ t'). split; [by rewrite Hr', app_assoc|]. split; [by eapply (between_app 3 3 4 4); [left; lia|lia|..]|]. split; [done|]. split; [|done].
  destruct Ho as [H1 H2], Ho' as [H3 H4]. split; [by rewrite sent_out_app, H1, H3|by rewrite sent_err_app, H2, H4].
Qed.

(** The status the client gets, when git ended with [status]. *)
Definition told_status (status : ExitStatus) : ExitStatus := if success status then Some 0 else status.
Lemma phased_exit x lo : (lo <= 5)%nat -> phased lo 5 (_ ← reply (send_client (Exit x)); mret true) (fun r t => r <> EPanic /\ exists b, t = [Sent (Exit x) b]).
Proof.
  intros Hlo. intros w. unfold reply, send_client, mbind, st_bind. destruct (se_takes env w (Exit x)) as [u|e]; cbn;
    [exists (EOk true), [Sent (Exit x) true]|exists (EErr (SubReply e)), [Sent (Exit x) false]];
    (split; [done|]; split; [apply between_one; cbn; lia|]; split; [done|]; by eexists).
Qed.
Lemma not_in_range (t : list SubAct) lo hi a : Forall (fun a => (lo <= phase a <= hi)%nat) t -> (phase a < lo \/ hi < phase a)%nat -> a ∉ t.
Proof. intros Hf Ha Hin. rewrite Forall_forall in Hf. apply Hf in Hin. lia. Qed.

Lemma phased_child_exited hooks s status drains : phased 2 5 (child_exited hooks s status drains) (fun r t => r <> EPanic /\
  (forall a, AfterPush a ∈ t -> service s = ReceivePack /\ success status = true) /\
  (forall x b, Sent (Exit x) b ∈ t -> x = told_status status /\ sent_out t = drain_out drains /\ sent_err t = drain_err drains)).
Proof.
  unfold child_exited. eapply (phased_bind 2 2 3 5); [left; lia|lia|apply phased_range, phased_drain| |by intros e t [[[? ?] _] _]|by intros t [[[? ?] _] _]].
  intros drained t [(_ & Ho & He) Hr]. assert (forall a, AfterPush a ∉ t) as Hna by (intros a; by apply (not_in_range t 2 2); [|cbn; lia]).
  assert (forall x b, Sent (Exit x) b ∉ t) as Hnx by (intros x b; by apply (not_in_range t 2 2); [|cbn; lia]).
  destruct drained; cbn [negb]; [|apply phased_ret; rewrite app_nil_r; split; [done|]; split; [intros a Hin; by destruct (Hna a)|intros x b Hin; by destruct (Hnx x b)]].
  assert (forall t' b, no_output t' -> sent_out (t ++ t' ++ [Sent (Exit (told_status status)) b]) = drain_out drains /\ sent_err (t ++ t' ++ [Sent (Exit (told_status status)) b]) = drain_err drains) as Hout.
  { intros t' b [H1 H2]. by rewrite !sent_out_app, !sent_err_app, Ho, He, H1, H2, !app_nil_r. }
  unfold told_status in *. destruct (success status) eqn:Hst; cbn [negb].
  - eapply (phased_bind 3 4 5 5); [left; lia|lia|apply phased_range, (phased_post_hook hooks s)| | |by intros t' [[? _] _]].
    + intros [] t' [(_ & Hn & Hrp) Hr']. assert (forall x b, Sent (Exit x) b ∉ t') as Hnx' by (intros x b; by apply (not_in_range t' 3 4); [|cbn; lia]).
      eapply phased_weaken; [by apply (phased_exit (Some 0) 5)|]. intros r t'' [Hp [b ->]]. split; [done|]. split.
      * intros a Ha. apply elem_of_app in Ha as [Ha|Ha]; [by destruct (Hna a)|]. apply elem_of_app in Ha as [Ha|Ha]; [by split; [apply (Hrp a)|]|]. by apply list_elem_of_singleton in Ha.
      * intros x b' Ha. split; [|by apply Hout]. apply elem_of_app in Ha as [Ha|Ha]; [by destruct (Hnx x b')|]. apply elem_of_app in Ha as [Ha|Ha]; [by destruct (Hnx' x b')|].
        apply list_elem_of_singleton in Ha. congruence.
    + intros e t' [(_ & Hn & Hrp) Hr']. split; [done|]. split.
      * intros a [Ha|Ha]%elem_of_app; [by destruct (Hna a)|]. by split; [apply (Hrp a)|].
      * intros x b [Ha|Ha]%elem_of_app; [by destruct (Hnx x b)|]. by destruct (not_in_range t' 3 4 (Sent (Exit x) b) Hr' ltac:(right; cbn; lia) Ha).
  - eapply phased_weaken; [apply (phased_exit status 3); lia|]. intros r t' [Hp [b ->]]. split; [done|]. split.
    + intros a [Ha|Ha%list_elem_of_singleton]%elem_of_app; [by destruct (Hna a)|done].
    + intros x b' Ha. split; [|by apply (Hout [])]. apply elem_of_app in Ha as [Ha|Ha%list_elem_of_singleton]; [by destruct (Hnx x b')|congruence].
Qed.

(** What is so of the acts of a run. *)
Definition run_ok (s : SshService Urn) (evs : list ChildEvent) (drains : list DrainEvent) (t : list SubAct) : Prop :=
  (forall a, AfterPush a ∈ t -> service s = ReceivePack /\ exists status, Waited (Ok status) ∈ evs /\ success status = true) /\
  (forall x b, Sent (Exit x) b ∈ t -> exists status, Waited (Ok status) ∈ evs /\ x = told_status status /\
     sent_out t = out_read evs ++ drain_out drains /\ sent_err t = err_read evs ++ drain_err drains).
(** Acts before the hooks after a push, without output, do not matter for it. *)
Lemma run_ok_early s evs drains t : Forall (fun a => (phase a <= 2)%nat) t -> run_ok s evs drains t.
Proof.
  intros Hf. rewrite Forall_forall in Hf. split; [intros a Ha|intros x b Ha]; apply Hf in Ha; cbn in Ha; lia.
Qed.
Lemma run_ok_app s evs drains t t' : no_output t -> Forall (fun a => (phase a <= 2)%nat) t -> run_ok s evs drains t' -> run_ok s evs drains (t ++ t').
Proof.
  intros [Ho He] Hf [Ha Hx]. rewrite Forall_forall in Hf. split.
  - intros a [Hin|Hin]%elem_of_app; [apply Hf in Hin; cbn in Hin; lia|by apply Ha with a].
  - intros x b [Hin|Hin]%elem_of_app; [apply Hf in Hin; cbn in Hin; lia|]. rewrite sent_out_app, sent_err_app, Ho, He. by apply Hx with b.
Qed.
Lemma range_le t lo hi p : (hi <= p)%nat -> Forall (fun a => (lo <= phase a <= hi)%nat) t -> Forall (fun a => (phase a <= p)%nat) t.
Proof. intros Hp Hf. eapply Forall_impl; [exact Hf|]. cbn. intros. lia. Qed.

Lemma phased_child hooks s evs drains : phased 1 5 (run_child hooks s evs drains) (fun r t => r <> EPanic /\ run_ok s evs drains t).
Proof.
  assert (forall A (f : W -> eff SubError A), (forall w, f w <> EPanic) -> phased 1 1 (reads f) (fun r t => r <> EPanic /\ t = [])) as Hreads.
  { intros A f Hf w. exists (f w), []. split; [by rewrite app_nil_r|]. by split; [apply between_nil|]. }
  unfold run_child. eapply (phased_bind 1 1 1 5); [right; lia|lia|apply Hreads; intros; apply of_res_no_panic| |by intros e t [_ ->]; split; [|apply run_ok_early]|by intros t [? _]].
  intros _ t [_ ->]. cbn [app]. eapply (phased_bind 1 1 1 5); [right; lia|lia|apply Hreads; intros; apply of_res_no_panic| |by intros e t [_ ->]; split; [|apply run_ok_early]|by intros t [? _]].
  intros args t [_ ->]. cbn [app]. apply phased_get. intros w. destruct (se_spawn env w args) as [u|e].
  2: { eapply (phased_bind 1 2 2 5); [right; lia|lia|apply (phased_range 1 2 _ (fun r _ => r <> EPanic)), phased_reply, phased_send; [cbn; lia|done|done]| | |by intros t [? _]].
    - intros _ t [_ Hr]. apply phased_ret. rewrite app_nil_r. split; [done|]. apply run_ok_early. by eapply range_le; [|exact Hr].
    - intros e' t [_ Hr]. split; [done|]. apply run_ok_early. by eapply range_le; [|exact Hr]. }
  eapply (phased_bind 1 1 2 5 _ _ (fun r t => r <> EPanic /\ t = [Spawned args])); [left; lia|lia|by apply phased_act; cbn; [lia|]| |by intros e t [_ ->]; split; [|apply run_ok_early; repeat constructor; cbn; lia]|by intros t [? _]].
  intros _ t [_ ->]. eapply (phased_bind 2 2 2 5); [right; lia|lia|apply phased_range, phased_loop| | |by intros t [[? _] _]].
  2: { intros e t [_ Hr]. split; [done|]. apply run_ok_early. apply Forall_app. split; [repeat constructor; cbn; lia|by eapply range_le; [|exact Hr]]. }
  intros looped t [[_ Hl] Hr]. assert (Forall (fun a => (phase a <= 2)%nat) ([Spawned args] ++ t)) as Hearly.
  { apply Forall_app. split; [repeat constructor; cbn; lia|by eapply range_le; [|exact Hr]]. }
  destruct looped as [status| |]; [|apply phased_ret; split; [done|]; apply run_ok_early; by rewrite app_nil_r..].
  destruct (Hl status eq_refl) as (Hw & Ho & He). eapply phased_weaken; [apply phased_child_exited|]. intros r t' (Hn & Ha & Hx). split; [done|]. rewrite app_assoc.
  rewrite Forall_forall in Hearly. split.
  - intros a [Hin|Hin]%elem_of_app; [apply Hearly in Hin; cbn in Hin; lia|]. destruct (Ha a Hin) as [? ?]. split; [done|]. by exists status.
  - intros x b [Hin|Hin]%elem_of_app; [apply Hearly in Hin; cbn in Hin; lia|]. exists status. split; [done|]. destruct (Hx x b Hin) as (-> & H1 & H2).
    split; [done|]. rewrite !sent_out_app, !sent_err_app, Ho, He, H1, H2. done.
Qed.
Lemma phased_inner hooks s evs drains : phased 0 5 (run_git_subprocess_inner hooks s evs drains) (fun r t => r <> EPanic /\ run_ok s evs drains t).
Proof.
  intros w. unfold run_git_subprocess_inner. destruct (is_upload s).
  2: { destruct (phased_child hooks s evs drains w) as (r & t & Hr & Hb & H). exists r, t. split; [done|]. split; [eapply between_weaken; [|exact Hb]; lia|done]. }
  edestruct (phased_hook 0 BeforeFetch (fun henv => pre_upload henv (h_pre hooks) (h_seeds hooks) (path s))) with (w := w) as (r & t & Hr & Hb & Hn & Ho);
    [lia|done|by left|intros; eapply carries_no_panic, pre_upload_exact|].
  assert (Forall (fun a => (phase a <= 2)%nat) t) as He by (eapply (range_le _ 0 0); [lia|apply Hb]). rewrite Hr. destruct r as [u|e|]; [| |done].
  - destruct (phased_child hooks s evs drains (w ++ t)) as (r & t' & Hr' & Hb' & Hn' & H). exists r, (t ++ t'). rewrite Hr'. split; [by rewrite app_assoc|].
    split; [by eapply (between_app 0 0 1 5); [left; lia|lia|..]|]. split; [done|by apply run_ok_app].
  - exists (EOk true), t. split; [done|]. split; [by eapply between_weaken; [|exact Hb]; lia|]. split; [done|by apply run_ok_early].
Qed.

(** C21 [subprocess_safe]: whatever git, the client, the storage and the seeds do: the hooks before a fetch, starting git, its output, the hooks after
    a push, the exit status and closing the channel come in this order, with one exit status at most. The hooks after a push only
    run for one that git took. A client that gets an exit status has been sent everything git wrote, in order, and the status is git's.
    When the run is over, the last thing was to close the channel. *)
Theorem subprocess_safe hooks s evs drains : exists r t, run_git_subprocess hooks s evs drains [] = (r, t) /\ r <> EPanic /\ in_order t /\
  run_ok s evs drains t /\ (r <> EOk false -> exists b, last t = Some (Sent Close b)).
Proof.
  destruct (phased_inner hooks s evs drains []) as (r & t & Hr & Hb & Hn & Hok). unfold run_git_subprocess. rewrite Hr. cbn [app] in *.
  assert (forall (r' : eff SubError bool), r' <> EPanic -> exists r2 t2, (let '(_, w) := send_client Close t in (r', w)) = (r2, t2) /\ r2 <> EPanic /\ in_order t2 /\
    run_ok s evs drains t2 /\ (r2 <> EOk false -> exists b, last t2 = Some (Sent Close b))) as Hclose.
  { intros r' Hr'. destruct (phased_send 6 6 Close (fun _ t => exists b, t = [Sent Close b])) with (w := t) as (rc & tc & Hrc & Hbc & b & ->); [cbn; lia|by eexists|by eexists|].
    rewrite Hrc. exists r', (t ++ [Sent Close b]). split; [done|]. split; [done|]. split; [by apply (between_app 0 5 6 6); [left; lia|lia|..]|]. split; [|intros _; exists b; by rewrite last_app].
    destruct Hok as [Ha Hx]. split.
    - intros a [Hin|Hin%list_elem_of_singleton]%elem_of_app; [by apply Ha with a|done].
    - intros x b' [Hin|Hin%list_elem_of_singleton]%elem_of_app; [|done]. rewrite sent_out_app, sent_err_app, !app_nil_r. by apply Hx with b'. }
  destruct r as [[]|e|]; [by apply Hclose| |by apply Hclose|done]. exists (EOk false), t. split; [done|]. split; [done|]. split; [apply Hb|]. by split.
Qed.

(** ** The end *)

Lemma loop_ends evs : (exists x, Waited x ∈ evs) -> forall stdin w, (child_loop stdin evs w).1 <> EOk StillRunning.
Proof.
  induction evs as [|e evs IH]; [by intros [x ?%elem_of_nil]|]. intros [x Hx] stdin w.
  assert ((forall x, e <> Waited x) -> exists x, Waited x ∈ evs) as Hrest.
  { intros Hno. apply elem_of_cons in Hx as [Hx|Hx]; [by destruct (Hno x)|by exists x]. }
  assert (forall stdin (go : bool) w, (exists x, Waited x ∈ evs) -> ((if go then child_loop stdin evs else _ ← kill_child; mret ClientLeft) w).1 <> EOk StillRunning) as Hgo.
  { intros stdin' [] w' Hw'; [by apply IH|]. unfold kill_child, mbind, st_bind, get, sub_act, lift. cbn. by destruct (se_kill env w'). }
  destruct e as [m|r|r|[s|e]]; cbn [child_loop].
  - unfold mbind, st_bind. destruct (handle_input stdin m w) as [[b|e|] w']; [apply IH, Hrest|..]; done.
  - unfold mbind at 1, st_bind at 1. destruct (forward_input r Stdout w) as [[go|e|] w']; [apply Hgo, Hrest|..]; done.
  - unfold mbind at 1, st_bind at 1. destruct (forward_input r Stderr w) as [[go|e|] w']; [apply Hgo, Hrest|..]; done.
  - done.
  - unfold mbind, st_bind. by destruct (send_client_ok NoStatus w) as [[] ?].
Qed.
Lemma drain_ends evs : forall out err w, (out = true -> DrainOut (Ok []) ∈ evs) -> (err = true -> DrainErr (Ok []) ∈ evs) -> (drain out err evs w).1 <> EOk false.
Proof.
  induction evs as [|e evs IH]; intros out err w Ho He; cbn [drain].
  - destruct out; [by specialize (Ho eq_refl); apply elem_of_nil in Ho|]. by destruct err; [specialize (He eq_refl); apply elem_of_nil in He|].
  - destruct (negb out && negb err); [done|].
    assert (forall b : bool, (b = true -> DrainOut (Ok []) ∈ e :: evs) -> e <> DrainOut (Ok []) -> b = true -> DrainOut (Ok []) ∈ evs) as Hout
      by (intros b Hb Hne Htrue; specialize (Hb Htrue); apply elem_of_cons in Hb as [Hb|Hb]; [by rewrite Hb in Hne|done]).
    assert (forall b : bool, (b = true -> DrainErr (Ok []) ∈ e :: evs) -> e <> DrainErr (Ok []) -> b = true -> DrainErr (Ok []) ∈ evs) as Herr
      by (intros b Hb Hne Htrue; specialize (Hb Htrue); apply elem_of_cons in Hb as [Hb|Hb]; [by rewrite Hb in Hne|done]).
    destruct e as [r|r].
    + destruct r as [[|c d]|x]; [apply IH; [done|by apply Herr]|..].
      all: destruct out; [|apply IH; [done|by apply Herr]]. all: unfold mbind, st_bind; destruct (forward_input _ _ w) as [[] w']; [apply IH; [by apply Hout|by apply Herr]|done..].
    + destruct r as [[|c d]|x]; [apply IH; [by apply Hout|done]|..].
      all: destruct err; [|apply IH; [by apply Hout|done]]. all: unfold mbind, st_bind; destruct (forward_input _ _ w) as [[] w']; [apply IH; [by apply Hout|by apply Herr]|done..].
Qed.

(** [subprocess_returns]: when git ends and both its outputs are closed, the run is over, whatever else happens. *)
Theorem subprocess_returns hooks s evs drains (Hexit : exists x, Waited x ∈ evs) (Hout : DrainOut (Ok []) ∈ drains) (Herr : DrainErr (Ok []) ∈ drains) w :
  (run_git_subprocess hooks s evs drains w).1 <> EOk false.
Proof.
  assert (forall status w, (child_exited hooks s status drains w).1 <> EOk false) as Hend.
  { intros status w'. unfold child_exited, mbind at 1, st_bind at 1. pose proof (drain_ends drains true true w' (fun _ => Hout) (fun _ => Herr)) as Hd.
    destruct (drain true true drains w') as [[[]|e|] w1]; cbn [negb]; [|done..]. unfold mbind, st_bind, reply. destruct (success status); cbn [negb].
    - destruct (post_hook hooks s w1) as [[]]; [|done..]. by destruct (send_client _ _) as [[] ?].
    - by destruct (send_client _ _) as [[] ?]. }
  assert (forall w, (run_child hooks s evs drains w).1 <> EOk false) as Hchild.
  { intros w'. unfold run_child, mbind, st_bind, reads, get, sub_act. destruct (se_pool env w') as [?|e]; cbn; [|done]. destruct (se_command env w' s) as [args|e]; cbn; [|done].
    destruct (se_spawn env w' args) as [?|e]; [|by unfold reply; destruct (send_client _ _) as [[] ?]].
    pose proof (loop_ends evs Hexit true (w' ++ [Spawned args])) as Hl. destruct (child_loop _ _ _) as [[[]|e|] w2]; [apply Hend|done..]. }
  unfold run_git_subprocess. assert ((run_git_subprocess_inner hooks s evs drains w).1 <> EOk false) as Hi.
  { unfold run_git_subprocess_inner. destruct (is_upload s); [|apply Hchild]. destruct (run_hook _ _ w) as [[] ?]; [apply Hchild|done..]. }
  destruct (run_git_subprocess_inner hooks s evs drains w) as [[[]|e|] w1]; [|done|..]; [by destruct (send_client _ _)..|done].
Qed.
End Env.
End Subprocess.

(** ** Examples *)

Module SubprocessExample.
Abbreviation unit_hooks := (HookEnv (Peer := N) (Addr := N) (Urn := N) (Txt := unit) (Pulled := unit) (Replicated := unit)
  (ClientE := unit) (PoolE := unit) (RefsE := unit) (NetE := unit) (IoE := unit) (TransportE := unit)).
(** A client that listens, seeds and a node that do what they are asked; the update of the signed references is [u]. *)
Definition calm (u : result unit Updated) : unit_hooks :=
  MkHookEnv (fun _ _ => Ok tt) (fun _ => Ok tt) (fun _ _ => u) (fun _ _ _ => Ok [Ok (PullSuccess tt)]) (fun _ _ _ => Ok tt) (fun _ => Ok tt) (fun _ _ _ => Ok tt) (fun _ => ([ReplySuccess], tt)).
Abbreviation unit_env := (SubEnv (Peer := N) (Addr := N) (Urn := N) (Txt := unit) (Pulled := unit) (Replicated := unit)
  (ClientE := unit) (PoolE := unit) (RefsE := unit) (NetE := unit) (IoE := unit) (TransportE := unit) (CmdE := unit) (Sig := unit)).
Definition calm_env (u : result unit Updated) : unit_env :=
  MkSubEnv (fun _ => calm u) (fun _ _ => Ok tt) (fun _ => Ok tt) (fun _ _ => Ok [[7]]) (fun _ _ => Ok tt) (fun _ => Ok tt) (fun _ => Some 1) (fun _ _ _ => Ok tt) (fun _ => Ok tt).
Definition all_hooks : Hooks (Peer := N) (Addr := N) (Txt := unit) := MkHooks (MkPostReceive true true) (MkPreUpload true) [MkSeed 5 [50] None; MkSeed 6 [60] None].
Definition updated : Updated := MkUpdated (MkRefs [] remotes_new) 9.
Definition push : SshService N := MkSshService ReceivePack 3.
Definition one_push : list (ChildEvent (IoE := unit) (Sig := unit)) := [Input (Some (SubData [1])); OutRead (Ok [2]); Waited (Ok (Some 0))].
Definition rest : list (DrainEvent (IoE := unit)) := [DrainOut (Ok [3]); DrainOut (Ok []); DrainErr (Ok [])].

Lemma subprocess_returns_witness : (exists x, Waited x ∈ one_push) /\ (run_git_subprocess (calm_env (Ok updated)) all_hooks push one_push rest []).1 <> EOk false.
Proof.
  assert (exists x, Waited x ∈ one_push) as Hx by (exists (Ok (Some 0)); unfold one_push; set_solver). split; [exact Hx|].
  apply (subprocess_returns (calm_env (Ok updated)) all_hooks push one_push rest Hx); unfold rest; set_solver.
Defined.
(** [push_served]: a push from its start to its end, without what the client is told by the hooks. *)
Example push_served : let '(r, t) := run_git_subprocess (calm_env (Ok updated)) all_hooks push one_push rest [] in
  r = EOk true /\ omap (fun a => match a with AfterPush (Told _) => None | _ => Some a end) t =
  [Spawned [[7]]; Written [1]; Sent (Stdout [2]) true; Sent (Stdout [3]) true; AfterPush (SignedRefsUpdate 3 (Ok updated));
   AfterPush (RequestedPull 5 [50] 3); AfterPush (RequestedPull 6 [60] 3); AfterPush (AnnouncedAt 3 9); Sent (Exit (Some 0)) true; Sent Close true].
Proof. vm_compute. done. Qed.
(** [failed_hook_exits_zero]: the references could not be signed; the client is told, and that all went well. *)
Example failed_hook_exits_zero : let '(r, t) := run_git_subprocess (calm_env (Err tt)) all_hooks push one_push rest [] in
  r = EOk true /\ drop 5 t = [AfterPush (SignedRefsUpdate 3 (Err tt)); Sent (HookFailed (PostUpdate (UpdateRefs tt))) true; Sent (Exit (Some 0)) true; Sent Close true].
Proof. vm_compute. done. Qed.
(** [race_not_announced]: with another update at the same time the seeds are asked to pull, but nothing is announced. *)
Example race_not_announced : let '(r, t) := run_git_subprocess (calm_env (Ok ConcurrentlyModified)) all_hooks push one_push rest [] in
  r = EOk true /\ omap (fun a => match a with AfterPush h => effect h | _ => None end) t =
  [SignedRefsUpdate 3 (Ok ConcurrentlyModified); RequestedPull 5 [50] 3; RequestedPull 6 [60] 3].
Proof. vm_compute. done. Qed.
(** [closed_output_sent]: when git has closed its output but not ended yet, reading gives nothing at once, always, and each time the client
    is sent nothing. *)
Example closed_output_sent : (child_loop (calm_env (Ok updated)) true [OutRead (Ok []); OutRead (Ok []); OutRead (Ok [])] []).2 =
  [Sent (Stdout []) true; Sent (Stdout []) true; Sent (Stdout []) true].
Proof. vm_compute. done. Qed.
(** [read_error_repeats]: an output that cannot be read is read again, without end. *)
Example read_error_repeats n : drain (calm_env (Ok updated)) true true (repeat (DrainOut (Err tt)) n) [] = (EOk false, []).
Proof. induction n as [|n IH]; [done|exact IH]. Qed.
End SubprocessExample.
