(* ===== verification/GitServer.v ===== *)
(** * The SSH side of a git server

    [cli/gitd-lib/src/server.rs]: who may connect, what the requests of a session become, and what the client is told of how git
    ended; with [Processes.v], that the requests of a session only reach the processes of that session.  The text of a command
    is what [String::from_utf8_lossy] makes of its bytes; a channel and a session are numbers. *)
From stdpp Require Import base list gmap.
From Stdlib Require Import NArith Lia.
From S2P Require Import Prelude SshService Processes.
#[local] Open Scope N_scope.

(** [thrussh::Sig] and [nix::sys::signal::Signal]. *)
Inductive SshSig := ABRT | ALRM | FPE | HUP | ILL | INT | KILL | PIPE | QUIT | SEGV | TERM | USR1 | CustomSig (name : list N).
Inductive Signal := SIGABRT | SIGALRM | SIGFPE | SIGHUP | SIGILL | SIGINT | SIGKILL | SIGPIPE | SIGQUIT | SIGSEGV | SIGTERM | SIGUSR1.
Definition nix_signal (s : SshSig) : option Signal :=
  match s with
  | ABRT => Some SIGABRT | ALRM => Some SIGALRM | FPE => Some SIGFPE | HUP => Some SIGHUP | ILL => Some SIGILL | INT => Some SIGINT
  | KILL => Some SIGKILL | PIPE => Some SIGPIPE | QUIT => Some SIGQUIT | SEGV => Some SIGSEGV | TERM => Some SIGTERM | USR1 => Some SIGUSR1
  | CustomSig _ => None
  end.

Definition STDERR_ID : N := 1.
(** [ChannelAndSessionId] *)
Definition ChannelAndSessionId : Type := N * N.

Inductive Auth := Accept | Reject.
(** [auth_publickey] *)
Definition auth_publickey (peer client_key : list N) : Auth := if bool_decide (client_key = peer) then Accept else Reject.

(** The messages of [ChannelHandle::exit_status] and [close]. *)
Inductive ChannelMsg := ExitStatusRequest (code : N) | ExitSignalRequest (s : SshSig) (core_dumped : bool) (msg : list N) | ChannelEofMsg | ChannelCloseMsg.
Definition exit_status (code : option N) : ChannelMsg :=
  match code with Some code => ExitStatusRequest (code mod 2 ^ 32) | None => ExitSignalRequest KILL false [107; 105; 108; 108; 101; 100] end.
(** The messages sent, and whether all were, when [takes] says what the session takes. *)
Definition channel_close (takes : ChannelMsg -> bool) : list ChannelMsg * bool :=
  if takes ChannelEofMsg then ([ChannelEofMsg; ChannelCloseMsg], takes ChannelCloseMsg) else ([ChannelEofMsg], false).

Section Server.
Context {P PE Data : Type}.
Context (parse : list N -> result PE P).

(** What a session can ask. *)
Inductive Request := OpenSession (ch : N) | CloseChannel (ch : N) | DataReq (ch : N) (d : Data) | EofReq (ch : N) | SignalReq (ch : N) (s : SshSig) | ExecReq (ch : N) (text : list N).
Inductive HandleError := ExecGit | SendData.
(** What becomes of it: something for the loop, a process to start, an answer, or nothing. *)
Inductive Handled :=
| ToLoop (m : Message (Id := ChannelAndSessionId) (Data := Data) (Sig := Signal))
| ToExec (id : ChannelAndSessionId) (s : SshService P)
| InvalidUrl (ch : N) (extended : N) (e : ParseService PE)
| Ignored.

(** The handler of the session [session]; [alive] is whether the loop takes messages. *)
Definition handle (alive : bool) (session : N) (r : Request) : result HandleError Handled :=
  let to_loop ch m := if alive then Ok (ToLoop (ToProcess (ch, session) m)) else Err SendData in
  match r with
  | OpenSession _ | CloseChannel _ => Ok Ignored
  | DataReq ch d => to_loop ch (SubData d)
  | EofReq ch => to_loop ch SubEof
  | SignalReq ch s => match nix_signal s with Some s => to_loop ch (SubSignal s) | None => Ok Ignored end
  | ExecReq ch text =>
      match ssh_from_str parse text with
      | Err e => Ok (InvalidUrl ch STDERR_ID e)
      | Ok s => if alive then Ok (ToExec (ch, session) s) else Err ExecGit
      end
  end.
(** What the loop sees of it. *)
Definition loop_event (h : Handled) : option (Event (Id := ChannelAndSessionId) (Data := Data) (Sig := Signal)) :=
  match h with ToLoop m => Some (NewIncoming (Some m)) | ToExec id _ => Some (NextExec (Some id)) | _ => None end.

Lemma handle_id alive session r m : handle alive session r = Ok (ToLoop m) -> exists ch x, m = ToProcess (ch, session) x.
Proof.
  destruct r as [ch|ch|ch d|ch|ch s|ch text]; cbn [handle]; try done.
  - destruct alive; [|done]. intros [= <-]. eauto.
  - destruct alive; [|done]. intros [= <-]. eauto.
  - destruct (nix_signal s); [|done]. destruct alive; [|done]. intros [= <-]. eauto.
  - destruct (ssh_from_str parse text); [|done]. by destruct alive.
Qed.
(** What comes in is passed on to the process with its id, if at all. *)
Lemma incoming_passed (id : ChannelAndSessionId) (x : SubMessage (Data := Data) (Sig := Signal)) (s s' : Processes (Id := ChannelAndSessionId)) : handle_incoming (Some (ToProcess id x)) s = Ok s' ->
  passed_on s' = passed_on s \/ exists t, process_sends s !! id = Some t /\ passed_on s' = passed_on s ++ [(t, x)].
Proof.
  destruct x as [d| |sg]; cbn [handle_incoming].
  1: unfold send, sender_send; destruct (process_sends s !! id) as [t|]; [case_bool_decide; cbn; [done|]; intros [= <-]; right; by exists t|intros [= <-]; by left].
  all: unfold send_ok, sender_send; intros [= <-]; destruct (process_sends s !! id) as [t|]; [|by left]; case_bool_decide; cbn; [by left|right; by exists t].
Qed.

(** [sessions_isolated]: whatever a session asks, its input, ends of input and signals are passed on to processes of its own and to no other,
    as long as ids are not used again while their process runs; and processes it starts are its own. *)
Theorem sessions_isolated es s alive session r h e (Hrun : fresh_steps processes_new es s)
    (Hh : handle alive session r = Ok h) (He : loop_event h = Some e) :
  (forall id, e = NextExec id -> exists ch, id = Some (ch, session)) /\
  forall s', run_step s e = Next s' -> passed_on s' = passed_on s \/
    exists t ch x, passed_on s' = passed_on s ++ [(t, x)] /\ ((ch, session), t) ∈ running_processes s /\
      forall ch' other, other <> session -> ((ch', other), t) ∉ running_processes s.
Proof.
  pose proof (processes_steps_ok _ _ _ (fresh_steps_steps _ _ _ Hrun) processes_new_ok) as Hok.
  assert (reachable (processes_new (Id := ChannelAndSessionId) (Data := Data) (Sig := Signal))) as Hnew
    by (split; [constructor|]; intros id t; cbn; rewrite lookup_empty; split; [done|by intros ?%elem_of_nil]).
  pose proof (fresh_steps_reachable _ _ _ Hrun processes_new_ok Hnew) as [_ Hr]. destruct h as [m|id sv| |]; [| |done..]; injection He as <-.
  - split; [done|]. apply handle_id in Hh as (ch & x & ->). intros s' Hs. unfold run_step in Hs. case_match; [done|].
    destruct (handle_incoming _ s) as [s1|] eqn:Hi; [|done]. injection Hs as ->. destruct (incoming_passed _ _ _ _ Hi) as [|(t & Ht & Hp)]; [by left|right].
    exists t, ch, x. split; [done|]. apply Hr in Ht. split; [done|]. intros ch' other Hne Hin.
    pose proof (task_owner _ _ _ _ (po_tasks s Hok) Ht Hin) as Heq. congruence.
  - split.
    + intros id' [= <-]. destruct r as [ch|ch|ch d|ch|ch sg|ch text]; cbn [handle] in Hh; try done; [by destruct alive|by destruct alive|by destruct (nix_signal sg); [destruct alive|]|].
      destruct (ssh_from_str parse text); [|done]. destruct alive; [|done]. injection Hh as <- _. eauto.
    + intros s' Hs. left. unfold run_step in Hs. case_match; [done|]. destruct (_ || _); [done|]. by injection Hs as <-.
Qed.
End Server.

(** ** Examples *)

Module ServerExample.
Definition any_path (t : list N) : result unit (list N) := Ok t.
Abbreviation handle_req := (handle (P := list N) (PE := unit) (Data := N) any_path true).
(** The session 8 starts a process on its channel 0, and so does the session 9; then 9 sends something. *)
Definition two_sessions : list (Event (Id := ChannelAndSessionId) (Data := N) (Sig := Signal)) := [NextExec (Some (0, 8)); NextExec (Some (0, 9))].
Definition both : Processes (Id := ChannelAndSessionId) (Data := N) (Sig := Signal) := exec_git (0, 9) (exec_git (0, 8) processes_new).
Lemma both_fresh : fresh_steps processes_new two_sessions both.
Proof.
  eapply fresh_cons; [reflexivity|apply not_elem_of_nil|]. eapply fresh_cons; [reflexivity| |apply fresh_nil].
  intros Hin%list_elem_of_singleton. discriminate Hin.
Qed.
Lemma sessions_isolated_witness : exists s', run_step both (NewIncoming (Some (ToProcess (0, 9) (SubData 4)))) = Next s' /\
  (passed_on s' = passed_on both \/ exists t ch x, passed_on s' = passed_on both ++ [(t, x)] /\ ((ch, 9), t) ∈ running_processes both /\
    forall ch' other, other <> 9 -> ((ch', other), t) ∉ running_processes both) /\ passed_on s' = [(1%nat, SubData 4)].
Proof.
  destruct (run_step both (NewIncoming (Some (ToProcess (0, 9) (SubData 4))))) as [s'| | |] eqn:E; [|vm_compute in E; discriminate E..].
  exists s'. split; [reflexivity|]. split.
  - apply (proj2 (sessions_isolated any_path two_sessions both true 9 (DataReq 0 4) _ _ both_fresh eq_refl eq_refl) s' E).
  - vm_compute in E. injection E as <-. reflexivity.
Defined.
End ServerExample.
