(* ===== verification/LinkHooks.v ===== *)
(** * Hooks for changes

    [link-hooks]: the texts that tell hook processes of changed identities and of changed tracking relationships
    ([data.rs], [track.rs]), and the executor that passes them on ([hook.rs]).  A process is what it does with the writes to it; the
    routine of a hook only goes on while the executor waits for it, which is what the events of the executor say. *)
From stdpp Require Import base list gmap.
From Stdlib Require Import NArith Lia.
From Stdlib Require String.
Import String.StringSyntax.
From S2P Require Import Prelude RefFormat RefName RefLike Utf8 Scoped Keys UrnText LibradRef IdentityWitness.
Import Name.
#[local] Open Scope N_scope.

(** ** Notifications and their texts *)

(** [Display] and [FromStr] of revisions, of which [link-hooks] is a client. *)
Class RevText (R RE : Type) := { rev_to_string : R -> list N; rev_from_str : list N -> result RE R; rev_is_zero : R -> bool }.
Class RevTextLaws (R RE : Type) `{RevText R RE} := {
  rev_roundtrip (r : R) : rev_from_str (rev_to_string r) = Ok r;
  rev_plain (r : R) : 32 ∉ rev_to_string r;
}.

Inductive Updated := Zero | Created | Deleted | Changed | NoChange.
Record Data (R : Type) : Type := MkData { d_urn : UrnText.Urn R; d_old : R; d_new : R }.
Arguments MkData {R} d_urn d_old d_new. Arguments d_urn {R} d. Arguments d_old {R} d. Arguments d_new {R} d.
Record Track (R : Type) : Type := MkTrack { t_urn : UrnText.Urn R; t_peer : option PeerId; t_old : R; t_new : R }.
Arguments MkTrack {R} t_urn t_peer t_old t_new. Arguments t_urn {R} t. Arguments t_peer {R} t. Arguments t_old {R} t. Arguments t_new {R} t.
Inductive Notification (R : Type) : Type := NTrack (t : Track R) | NData (d : Data R).
Arguments NTrack {R} t. Arguments NData {R} d.

(** [error::Parse]; [ParsePeer] of [track] only. *)
Inductive ParseError (MB RE UE : Type) : Type :=
| Extra (s : list N) | Missing (what : list N) | Newline (s : list N) | ParsePeer (e : ConversionError (MB := MB)) | Revision (e : RE) | ParseUrn (e : UE).
Arguments Extra {MB RE UE} s. Arguments Missing {MB RE UE} what. Arguments Newline {MB RE UE} s. Arguments ParsePeer {MB RE UE} e.
Arguments Revision {MB RE UE} e. Arguments ParseUrn {MB RE UE} e.

(** [updated], the same for both. *)
Definition updated {R RE} `{RevText R RE} `{EqDecision R} (old new : R) : Updated :=
  match rev_is_zero old, rev_is_zero new with
  | true, true => Zero
  | true, false => Created
  | false, true => Deleted
  | false, false => if bool_decide (old <> new) then Changed else NoChange
  end.

(** [EOT] and [HookMessage]. *)
Definition EOT_CHAR : N := 4.
Inductive HookMessage (T : Type) : Type := EOT | Payload (t : T).
Arguments EOT {T}. Arguments Payload {T} t.
#[export] Instance hook_message_eq {T} `{EqDecision T} : EqDecision (HookMessage T).
Proof. solve_decision. Defined.
Definition hook_message_from_str {T E} (parse : list N -> outcome (result E T)) (s : list N) : outcome (result E (HookMessage T)) :=
  if bool_decide (s = [EOT_CHAR]) then Done (Ok EOT)
  else match parse s with Done (Ok t) => Done (Ok (Payload t)) | Done (Err e) => Done (Err e) | Panic => Panic end.

Section Texts.
Context {R RE MB MH IE : Type} `{RevText R RE} `{HasProtocol R MH IE} `{Multibase MB} `{PercentEncoding}.
Let UE : Type := FromStr (DecodeId MB MH IE).
Let PErr : Type := ParseError MB RE UE.

Definition peer_text (p : option PeerId) : list N := match p with None => str "default" | Some p => peer_default_encoding (peer_key p) end.
Definition data_to_string (d : Data R) : list N := urn_to_string (d_urn d) ++ 32 :: rev_to_string (d_old d) ++ 32 :: rev_to_string (d_new d) ++ [10].
Definition track_to_string (t : Track R) : list N :=
  urn_to_string (t_urn t) ++ 32 :: peer_text (t_peer t) ++ 32 :: rev_to_string (t_old t) ++ 32 :: rev_to_string (t_new t) ++ [10].
Definition notification_to_string (n : Notification R) : list N := match n with NTrack t => track_to_string t | NData d => data_to_string d end.

Definition parse_urn (c : option (list N)) : result PErr (UrnText.Urn R) :=
  match c with Some s => map_err ParseUrn (urn_from_str s) | None => Err (Missing (str "rad:git:<identitifier>[/<path>]")) end.
Definition parse_old (c : option (list N)) : result PErr R :=
  match c with Some s => map_err Revision (rev_from_str s) | None => Err (Missing (str "<old>")) end.
Definition parse_new (c : option (list N)) : result PErr R :=
  match c with
  | Some s => match strip_suffix 10 s with None => Err (Newline s) | Some s => map_err Revision (rev_from_str s) end
  | None => Err (Missing (str "<new> LF"))
  end.
Definition parse_peer (c : option (list N)) : outcome (result PErr (option PeerId)) :=
  match c with
  | Some s =>
      if bool_decide (s = str "default") then Done (Ok None)
      else match from_default_encoding s with
           | Done (Ok key) => Done (Ok (Some (MkPeerId key)))
           | Done (Err e) => Done (Err (ParsePeer e))
           | Panic => Panic
           end
  | None => Done (Err (Missing (str "<peer id>")))
  end.
Definition no_extra (c : option (list N)) : result PErr unit := match c with Some s => Err (Extra s) | None => Ok tt end.
Definition data_from_str (s : list N) : outcome (result PErr (Data R)) :=
  let components := split_on 32 s in
  Done (urn ← parse_urn (components !! 0%nat);
        old ← parse_old (components !! 1%nat);
        new ← parse_new (components !! 2%nat);
        _ ← no_extra (components !! 3%nat);
        Ok (MkData urn old new)).
Definition track_from_str (s : list N) : outcome (result PErr (Track R)) :=
  let components := split_on 32 s in
  match parse_urn (components !! 0%nat) with
  | Err e => Done (Err e)
  | Ok urn =>
      peer ← parse_peer (components !! 1%nat);
      Done (peer ← peer;
            old ← parse_old (components !! 2%nat);
            new ← parse_new (components !! 3%nat);
            _ ← no_extra (components !! 4%nat);
            Ok (MkTrack urn peer old new))
  end.
End Texts.

(** ** Texts are read back *)

Section RoundTrip.
Context {R RE MB MH IE : Type} `{RevTextLaws R RE} `{HasProtocolLaws R MH IE} `{MultibaseLaws MB} `{PercentEncoding}.
Context (protocol_blank : 32 ∉ PROTOCOL).
Let UE : Type := FromStr (DecodeId MB MH IE).

Lemma urn_no_blank (u : UrnText.Urn R) : urn_wf u -> 32 ∉ urn_to_string u.
Proof.
  intros Hu. unfold urn_to_string. destruct (urn_id_text u) as (Hl & _). rewrite Forall_forall in Hl.
  intros [Hin|Hin]%elem_of_app; [by apply (bool_decide_unpack (32 ∉ str "rad:"))|]. apply elem_of_app in Hin as [Hin|Hin]; [done|].
  apply elem_of_cons in Hin as [Hin|Hin]; [done|]. apply elem_of_app in Hin as [Hin|Hin]; [apply Hl in Hin; unfold letter in Hin; lia|].
  unfold urn_wf in Hu. destruct (urn_path u) as [p|]; [|by apply elem_of_nil in Hin]. destruct Hu as [Hr Hs].
  apply elem_of_cons in Hin as [Hin|Hin]; [done|]. unfold percent_encode in Hin. apply percent_encode_chars in Hin as [?|[?|Hin]]; [done..| |done].
  by pose proof (refstr_allowed p 32 Hr Hin ltac:(done)).
Qed.
Lemma peer_text_ok (p : option PeerId) : match p with Some p => peer_wf p | None => True end ->
  (32 ∉ peer_text (MB := MB) p) /\ parse_peer (RE := RE) (MH := MH) (IE := IE) (Some (peer_text (MB := MB) p)) = Done (Ok p).
Proof.
  destruct p as [p|]; intros Hp; [|split; [by apply (bool_decide_unpack _)|done]]. destruct Hp as [Hb Hl]. cbn [peer_text]. split.
  - destruct (base32z_letters (0 :: peer_key p)) as [Hf _]. intros Hin. rewrite Forall_forall in Hf. apply Hf in Hin. unfold letter in Hin. lia.
  - assert (peer_default_encoding (MB := MB) (peer_key p) <> str "default") as Hd.
    { unfold peer_default_encoding. destruct (base32z_shape (0 :: peer_key p)) as (cs & -> & _). done. }
    unfold parse_peer. rewrite (bool_decide_eq_false_2 _ Hd). destruct (peer_id_roundtrip (MB := MB) (peer_key p) (repeat 0 64) Hb Hl) as [-> _]; [by repeat constructor|done|].
    by destruct p.
Qed.
Lemma parse_new_ok (r : R) : parse_new (MB := MB) (MH := MH) (IE := IE) (Some (rev_to_string r ++ [10])) = Ok r.
Proof. unfold parse_new, strip_suffix. rewrite last_snoc. cbn. by rewrite removelast_last, rev_roundtrip. Qed.
Lemma split_last_rev (r : R) : split_on 32 (rev_to_string r ++ [10]) = [rev_to_string r ++ [10]].
Proof. apply split_on_no. intros [Hin|Hin]%elem_of_app; [by apply rev_plain in Hin|by apply list_elem_of_singleton in Hin]. Qed.

(** The components of a text. *)
Lemma track_components (a b c d : list N) : 32 ∉ a -> 32 ∉ b -> 32 ∉ c -> split_on 32 d = [d] ->
  track_from_str (MB := MB) (a ++ 32 :: b ++ 32 :: c ++ 32 :: d) =
  match parse_urn (MB := MB) (RE := RE) (Some a) with
  | Err e => Done (Err e)
  | Ok urn => peer ← parse_peer (Some b); Done (peer ← peer; old ← parse_old (Some c); new ← parse_new (Some d); Ok (MkTrack urn peer old new))
  end.
Proof. intros Ha Hb Hc Hd. unfold track_from_str. by rewrite !split_on_app, (split_on_no 32 a), (split_on_no 32 b), (split_on_no 32 c), Hd by done. Qed.
Lemma data_components (a b c : list N) : 32 ∉ a -> 32 ∉ b -> split_on 32 c = [c] ->
  data_from_str (MB := MB) (a ++ 32 :: b ++ 32 :: c) =
  Done (urn ← parse_urn (Some a); old ← parse_old (Some b); new ← parse_new (Some c); Ok (MkData urn old new)).
Proof. intros Ha Hb Hc. unfold data_from_str. by rewrite !split_on_app, (split_on_no 32 a), (split_on_no 32 b), Hc by done. Qed.

(** [notification_roundtrip]: what hooks are told of a change is read back as it was, for exactly the URNs whose texts are; and it is never
    taken for the end of the transmission. *)
Theorem notification_roundtrip (n : Notification R) (Hurn : urn_wf (match n with NTrack t => t_urn t | NData d => d_urn d end))
    (Hpeer : match n with NTrack t => match t_peer t with Some p => peer_wf p | None => True end | NData _ => True end) :
  let u := match n with NTrack t => t_urn t | NData d => d_urn d end in
  match n with
  | NTrack t => hook_message_from_str (track_from_str (MB := MB)) (notification_to_string n) = Done (Ok (Payload t))
  | NData d => hook_message_from_str (data_from_str (MB := MB)) (notification_to_string n) = Done (Ok (Payload d))
  end <-> urn_from_str (urn_to_string u) = Ok (E := UE) u.
Proof.
  intros u. assert (32 ∉ urn_to_string u) as Hu by (by apply urn_no_blank). assert (notification_to_string n <> [EOT_CHAR]) as Hne.
  { unfold notification_to_string, track_to_string, data_to_string, urn_to_string. by destruct n. }
  unfold hook_message_from_str. rewrite (bool_decide_eq_false_2 _ Hne). destruct n as [t|d]; cbn [notification_to_string] in *.
  - destruct (peer_text_ok (t_peer t) Hpeer) as [Hp Hq]. unfold track_to_string. fold u.
    rewrite track_components by (done || apply rev_plain || apply split_last_rev). rewrite Hq, parse_new_ok. unfold parse_urn, parse_old. rewrite rev_roundtrip.
    destruct (urn_from_str (urn_to_string u)) as [u'|e]; [|by split]. cbn. destruct t as [tu tp told tnew]. split; [by intros [= ->]|by intros [= ->]].
  - unfold data_to_string. fold u. rewrite data_components by (done || apply rev_plain || apply split_last_rev). rewrite parse_new_ok. unfold parse_urn, parse_old. rewrite rev_roundtrip.
    destruct (urn_from_str (urn_to_string u)) as [u'|e]; [|by split]. cbn. destruct d as [du dold dnew]. split; [by intros [= ->]|by intros [= ->]].
Qed.
End RoundTrip.

(** ** The executor *)

Section Executor.
Context {Path T : Type} `{EqDecision Path}.

(** [Event], the kind of a hook and of what it is sent. *)
Inductive Kind := KTrack | KData.
#[export] Instance kind_eq : EqDecision Kind.
Proof. solve_decision. Defined.

(** A hook: its channel and whether the executor still holds the sender; what was written to it; whether its routine has returned. The notes
    that did not get into the channel are kept aside. *)
Record HookState := MkHookState {
  hs_path : Path; hs_kind : Kind; hs_sender : bool; hs_queue : list (HookMessage T);
  hs_written : list (HookMessage T); hs_done : bool; hs_dropped : list T;
}.
Context (buffer : nat).

(** [Hooks::run], the start: a later hook of the same kind and path takes the place of the sender. *)
Definition overwritten (p : Path) (k : Kind) (rest : list (Path * Kind)) : bool := bool_decide ((p, k) ∈ rest).
Fixpoint start_hooks (l : list (Path * Kind)) : list HookState :=
  match l with
  | [] => []
  | (p, k) :: l => MkHookState p k (negb (overwritten p k l)) [] [] false [] :: start_hooks l
  end.
Definition executor_new (data_hooks track_hooks : list Path) : list HookState :=
  start_hooks (map (fun p => (p, KData)) data_hooks ++ map (fun p => (p, KTrack)) track_hooks).

(** [Senders::send] *)
Definition try_send (k : Kind) (n : T) (h : HookState) : HookState :=
  if hs_sender h && bool_decide (hs_kind h = k) then
    if hs_done h || (buffer <=? length (hs_queue h))%nat
    then MkHookState (hs_path h) (hs_kind h) (hs_sender h) (hs_queue h) (hs_written h) (hs_done h) (hs_dropped h ++ [n])
    else MkHookState (hs_path h) (hs_kind h) (hs_sender h) (hs_queue h ++ [Payload n]) (hs_written h) (hs_done h) (hs_dropped h)
  else h.
(** [Senders::remove], of both kinds. *)
Definition remove_sender (p : Path) (h : HookState) : HookState :=
  if bool_decide (hs_path h = p) then MkHookState (hs_path h) (hs_kind h) false (hs_queue h) (hs_written h) (hs_done h) (hs_dropped h) else h.
(** A round of [Hook::start]: what is received is written, with success or not; nothing to receive when the channel is empty, unless nobody can
    send any more. *)
Definition hook_receive (ok : bool) (h : HookState) : option HookState :=
  if hs_done h then None
  else match hs_queue h with
  | EOT :: q => Some (MkHookState (hs_path h) (hs_kind h) (hs_sender h) q (if ok then hs_written h ++ [EOT] else hs_written h) true (hs_dropped h))
  | Payload n :: q =>
      Some (if ok then MkHookState (hs_path h) (hs_kind h) (hs_sender h) q (hs_written h ++ [Payload n]) false (hs_dropped h)
            else MkHookState (hs_path h) (hs_kind h) (hs_sender h) q (hs_written h) true (hs_dropped h))
  | [] => if hs_sender h then None else Some (MkHookState (hs_path h) (hs_kind h) false [] (hs_written h) true (hs_dropped h))
  end.

(** What [select!] finds ready: a note, or the routine of a hook goes on. *)
Inductive ExecEvent := Notify (k : Kind) (n : T) | Receive (i : nat) (ok : bool).
(** A round of the loop, while there are routines left. A routine that has returned is taken out, with its senders. *)
Definition exec_step (e : ExecEvent) (s : list HookState) : option (list HookState) :=
  if forallb hs_done s then None
  else match e with
  | Notify k n => Some (map (try_send k n) s)
  | Receive i ok =>
      h ← s !! i;
      h ← hook_receive ok h;
      let s := <[i := h]> s in
      Some (if hs_done h then map (remove_sender (hs_path h)) s else s)
  end.
Fixpoint exec_run (es : list ExecEvent) (s : list HookState) : option (list HookState) :=
  match es with
  | [] => Some s
  | e :: es => s ← exec_step e s; exec_run es s
  end.

(** [Senders::eot], waiting for room in the channel: nobody receives from it meanwhile, and [None] is waiting for ever. *)
Definition send_eot (h : HookState) : option HookState :=
  if hs_sender h then
    if hs_done h then Some h
    else if (buffer <=? length (hs_queue h))%nat then None
    else Some (MkHookState (hs_path h) (hs_kind h) (hs_sender h) (hs_queue h ++ [EOT]) (hs_written h) (hs_done h) (hs_dropped h))
  else Some h.
Fixpoint eot_all (s : list HookState) : option (list HookState) :=
  match s with
  | [] => Some []
  | h :: s => h ← send_eot h; s ← eot_all s; Some (h :: s)
  end.
(** The end of a routine, all of whose writes succeed. *)
Fixpoint hook_finish (fuel : nat) (h : HookState) : HookState :=
  match fuel with
  | O => h
  | S fuel => match hook_receive true h with Some h => hook_finish fuel h | None => h end
  end.
(** [Hooks::run] after the loop: a routine has as many rounds as there are messages, and one. *)
Definition wait_all (s : list HookState) : list HookState := map (fun h => hook_finish (S (length (hs_queue h))) h) s.

(** *** What hooks get *)

Definition note_of (k : Kind) (e : ExecEvent) : option T := match e with Notify k' n => if bool_decide (k' = k) then Some n else None | Receive _ _ => None end.
(** The notes of a kind, as they came in. *)
Definition notes (k : Kind) (es : list ExecEvent) : list T := omap (note_of k) es.

(** What was written and what is waiting are some of the notes of the hook's kind, in their order, and all of them when none was dropped. *)
Record hook_ok (es : list ExecEvent) (h : HookState) : Prop := {
  ho_some : exists l, hs_written h ++ hs_queue h = map Payload l /\ l `sublist_of` notes (hs_kind h) es /\ (hs_sender h = true -> hs_dropped h = [] -> l = notes (hs_kind h) es);
  ho_done : hs_sender h = true -> hs_done h = false;
  ho_bound : (length (hs_queue h) <= buffer)%nat;
}.
Lemma start_ok l h : h ∈ start_hooks l -> hook_ok [] h.
Proof.
  induction l as [|[p k] l IH]; [by intros ?%elem_of_nil|]. cbn. intros [->|Hin]%elem_of_cons; [|by apply IH].
  split; cbn; [exists []; split_and!; [done|apply sublist_nil_l|done]|done|lia].
Qed.
Lemma notes_snoc k es e : notes k (es ++ [e]) = notes k es ++ match note_of k e with Some n => [n] | None => [] end.
Proof. unfold notes. rewrite omap_app. cbn. by destruct (note_of k e). Qed.
Lemma notes_receive k es i ok : notes k (es ++ [Receive i ok]) = notes k es.
Proof. by rewrite notes_snoc, app_nil_r. Qed.

Lemma try_send_ok es k n h : hook_ok es h -> hook_ok (es ++ [Notify k n]) (try_send k n h).
Proof.
  intros [(l & Hl & Hs & Ha) Hd Hb]. unfold try_send. destruct (hs_sender h) eqn:Hsend; cbn [andb].
  2: { split; [|by rewrite Hsend|done]. exists l. rewrite notes_snoc. split; [done|]. split; [by apply sublist_inserts_r|]. by rewrite Hsend. }
  case_bool_decide as Hk.
  - subst k. rewrite Hd by done. cbn [orb]. destruct (Nat.leb_spec buffer (length (hs_queue h))); split; cbn; rewrite ?Hsend; try done.
    + exists l. rewrite notes_snoc. split; [done|]. split; [by apply sublist_inserts_r|]. intros _ Hx. by destruct (hs_dropped h).
    + exists (l ++ [n]). rewrite app_assoc, Hl, map_app, notes_snoc. cbn. rewrite bool_decide_eq_true_2 by done. split; [done|].
      split; [by apply sublist_app|]. intros _ Hx. by rewrite Ha.
    + rewrite length_app. cbn. lia.
  - split; [|by rewrite Hsend|done]. exists l. rewrite notes_snoc. cbn. rewrite bool_decide_eq_false_2 by congruence. by rewrite app_nil_r, Hsend.
Qed.
Lemma remove_sender_ok es p h : hook_ok es h -> hook_ok es (remove_sender p h).
Proof. intros [(l & Hl & Hs & Ha) Hd Hb]. unfold remove_sender. case_bool_decide; [|split; eauto]. split; cbn; [|done|done]. by exists l. Qed.
(** A routine that returns keeps nothing it could be sent; others keep the invariant. *)
Lemma receive_ok es i ok ok' h h' : hook_ok es h -> hook_receive ok h = Some h' ->
  (if hs_done h' then hook_ok (es ++ [Receive i ok']) (remove_sender (hs_path h') h') else hook_ok (es ++ [Receive i ok']) h').
Proof.
  intros [(l & Hl & Hs & Ha) Hd Hb]. unfold hook_receive. destruct (hs_done h) eqn:Hdone; [done|]. destruct (hs_queue h) as [|[|n] q] eqn:Hq.
  - destruct (hs_sender h); [done|]. intros [= <-]. cbn. unfold remove_sender. rewrite bool_decide_eq_true_2 by done. split; cbn; [|done|lia].
    exists l. by rewrite notes_receive.
  - exfalso. apply (f_equal (fun x => EOT ∈ x)) in Hl. assert (EOT ∈ map (Payload (T := T)) l) as Hin by (rewrite <- Hl; set_solver).
    by apply list_elem_of_fmap in Hin as (? & ? & _).
  - cbn in Hb. destruct ok; intros [= <-]; cbn.
    + split; cbn; [|done|lia]. exists l. rewrite notes_receive, <- app_assoc. cbn [app]. by rewrite Hl.
    + unfold remove_sender. rewrite bool_decide_eq_true_2 by done. split; cbn; [|done|lia].
      symmetry in Hl. apply fmap_app_inv in Hl as (l1 & l2 & -> & Hl2 & ->). destruct l2 as [|n' l2]; [done|]. injection Hl2 as <- Hq2. exists (l1 ++ l2).
      rewrite notes_receive, Hq2. split; [by rewrite map_app|]. split; [|done].
      etrans; [|exact Hs]. apply sublist_app; [done|]. by constructor.
Qed.
Lemma step_hooks_ok es e s s' : Forall (hook_ok es) s -> exec_step e s = Some s' -> Forall (hook_ok (es ++ [e])) s' /\ map hs_kind s' = map hs_kind s.
Proof.
  intros Hs. unfold exec_step. destruct (forallb hs_done s); [done|]. destruct e as [k n|i ok].
  - intros [= <-]. split; [apply Forall_map; eapply Forall_impl; [exact Hs|]; intros h Hh; by apply try_send_ok|].
    rewrite map_map. apply map_ext. intros h. unfold try_send. by repeat case_match.
  - destruct (s !! i) as [h|] eqn:Hi; cbn; [|done]. destruct (hook_receive ok h) as [h'|] eqn:Hr; cbn; [|done]. intros [= <-].
    pose proof (proj1 (Forall_lookup _ _) Hs i h Hi) as Hh. pose proof (receive_ok es i ok ok h h' Hh Hr) as Hnew.
    assert (hs_kind h' = hs_kind h) as Hk by (unfold hook_receive in Hr; by repeat case_match; simplify_eq).
    assert (Forall (hook_ok (es ++ [Receive i ok])) s) as Hs'.
    { eapply Forall_impl; [exact Hs|]. intros x [(l & ?) ? ?]. split; [|done..]. exists l. by rewrite notes_receive. }
    assert (map hs_kind (<[i:=h']> s) = map hs_kind s) as Hks.
    { change (hs_kind <$> <[i:=h']> s = hs_kind <$> s). rewrite list_fmap_insert. apply list_insert_id. by rewrite list_lookup_fmap, Hi; cbn; rewrite Hk. }
    destruct (hs_done h').
    + split.
      * apply Forall_map, Forall_lookup. intros j x Hj. destruct (decide (j = i)) as [->|Hne].
        -- rewrite list_lookup_insert_eq in Hj by (by eapply lookup_lt_Some). by injection Hj as <-.
        -- rewrite list_lookup_insert_ne in Hj by done. apply remove_sender_ok. by apply (proj1 (Forall_lookup _ _) Hs' j x).
      * rewrite map_map. etrans; [|exact Hks]. apply map_ext. intros x. unfold remove_sender. by case_bool_decide.
    + split; [|done]. by apply Forall_insert.
Qed.
Lemma run_hooks_ok es : forall es0 s s', Forall (hook_ok es0) s -> exec_run es s = Some s' -> Forall (hook_ok (es0 ++ es)) s' /\ map hs_kind s' = map hs_kind s.
Proof.
  induction es as [|e es IH]; intros es0 s s' Hs; cbn; [intros [= <-]; by rewrite app_nil_r|].
  destruct (exec_step e s) as [s1|] eqn:He; cbn; [|done]. intros Hr. destruct (step_hooks_ok _ _ _ _ Hs He) as [Hs1 Hk1].
  destruct (IH _ _ _ Hs1 Hr) as [Hs' Hk']. rewrite <- app_assoc in Hs'. split; [done|]. by rewrite Hk'.
Qed.

Lemma send_eot_none h : (hs_sender h = true -> hs_done h = false) -> (length (hs_queue h) <= buffer)%nat ->
  send_eot h = None <-> hs_sender h = true /\ length (hs_queue h) = buffer.
Proof.
  intros Hd Hb. unfold send_eot. destruct (hs_sender h) eqn:Hs; [|split; [done|by intros [? _]]]. rewrite Hd by done.
  destruct (Nat.leb_spec buffer (length (hs_queue h))); split; try done; [intros _; split; [done|lia]|intros [_ ?]; lia].
Qed.
Lemma eot_all_none s : eot_all s = None <-> exists h, h ∈ s /\ send_eot h = None.
Proof.
  induction s as [|h s IH]; cbn; [split; [done|by intros (? & ?%elem_of_nil & _)]|]. destruct (send_eot h) as [h'|] eqn:Hh; cbn.
  - destruct (eot_all s) as [s'|]; cbn; split; try done.
    + intros (x & [->|Hx]%elem_of_cons & Hn); [congruence|]. destruct IH as [_ IH]. by discriminate IH; eauto.
    + intros _. destruct IH as [IH _]. destruct (IH eq_refl) as (x & Hx & Hn). exists x. split; [by right|done].
  - split; [|done]. intros _. exists h. split; [by left|done].
Qed.
Lemma eot_all_lookup s s' i h : eot_all s = Some s' -> s !! i = Some h -> exists h', s' !! i = Some h' /\ send_eot h = Some h'.
Proof.
  revert s' i. induction s as [|x s IH]; intros s' i; [done|]. cbn. destruct (send_eot x) as [x'|] eqn:Hx; cbn; [|done].
  destruct (eot_all s) as [s1|]; cbn; [|done]. intros [= <-]. destruct i as [|i]; cbn; [intros [= <-]; by exists x'|by apply IH].
Qed.
Lemma hook_finish_all l : forall fuel h, (S (length l) <= fuel)%nat -> hs_done h = false -> hs_queue h = map Payload l ++ [EOT] ->
  hs_done (hook_finish fuel h) = true /\ hs_written (hook_finish fuel h) = hs_written h ++ map Payload l ++ [EOT].
Proof.
  induction l as [|n l IH]; intros fuel h Hf Hd Hq; (destruct fuel as [|fuel]; [cbn in Hf; lia|]); cbn [hook_finish]; unfold hook_receive; rewrite Hd, Hq; cbn.
  - by destruct fuel.
  - cbn in Hf. destruct (IH fuel (MkHookState (hs_path h) (hs_kind h) (hs_sender h) (map Payload l ++ [EOT]) (hs_written h ++ [Payload n]) false (hs_dropped h))) as [H1 H2]; [lia|done|done|].
    split; [done|]. rewrite H2. cbn. by rewrite <- app_assoc.
Qed.

(** C22 [hooks_told]: hooks are only told of changes of their own kind, in the order these came in, whatever the other hooks do. One whose channel always
    had room has been told of all of them, and then of the end, once the executor is done. But the end is never sent to a hook whose
    channel is full when the notes end: the executor then waits for room that nobody makes. *)
Theorem hooks_told data_hooks track_hooks es s (Hrun : exec_run es (executor_new data_hooks track_hooks) = Some s) :
  (forall h, h ∈ s -> exists l, hs_written h ++ hs_queue h = map Payload l /\ l `sublist_of` notes (hs_kind h) es) /\
  (forall s' i h, eot_all s = Some s' -> s !! i = Some h -> hs_sender h = true -> hs_dropped h = [] ->
     exists h', wait_all s' !! i = Some h' /\ hs_done h' = true /\ hs_written h' = map Payload (notes (hs_kind h) es) ++ [EOT]) /\
  (eot_all s = None <-> exists h, h ∈ s /\ hs_sender h = true /\ length (hs_queue h) = buffer).
Proof.
  assert (Forall (hook_ok es) s) as Hok.
  { destruct (run_hooks_ok es [] _ _ ltac:(apply Forall_forall; intros h; apply start_ok) Hrun) as [Hok _]. exact Hok. }
  rewrite Forall_forall in Hok. split; [|split].
  - intros h Hin. destruct (Hok h Hin) as [(l & Hl & Hs & _) _ _]. eauto.
  - intros s' i h He Hi Hsend Hdrop. destruct (Hok h) as [(l & Hl & _ & Ha) Hd Hb]; [by eapply list_elem_of_lookup_2|].
    destruct (eot_all_lookup _ _ _ _ He Hi) as (h' & Hi' & Hh'). exists (hook_finish (S (length (hs_queue h'))) h').
    split; [unfold wait_all; by rewrite list_lookup_fmap, Hi'|].
    unfold send_eot in Hh'. rewrite Hsend, Hd in Hh' by done. destruct (_ <=? _)%nat; [done|]. injection Hh' as <-. cbn [hs_queue].
    rewrite (Ha Hsend Hdrop) in Hl. symmetry in Hl. apply fmap_app_inv in Hl as (l1 & l2 & Hw & Hq & ->).
    destruct (hook_finish_all l2 (S (length (hs_queue h ++ [EOT]))) (MkHookState (hs_path h) (hs_kind h) true (hs_queue h ++ [EOT]) (hs_written h) false (hs_dropped h))) as [H1 H2].
    + rewrite length_app, Hq, length_fmap. cbn. lia.
    + done.
    + cbn. by rewrite Hq.
    + split; [exact H1|]. rewrite H2. cbn. rewrite Hw, map_app, <- app_assoc. done.
  - rewrite eot_all_none. split.
    + intros (h & Hin & Hn). exists h. split; [done|]. destruct (Hok h Hin) as [_ Hd Hb]. by apply send_eot_none.
    + intros (h & Hin & Hn). exists h. split; [done|]. destruct (Hok h Hin) as [_ Hd Hb]. by apply send_eot_none.
Qed.
End Executor.

(** ** Examples *)

Module HooksExample.
#[local] Existing Instance Memory.decimal_ids.
#[local] Existing Instance Memory.decimal_ids_laws.
#[local] Existing Instance ZBase32.z_multibase.
#[local] Existing Instance ZBase32.z_multibase_laws.
#[local] Existing Instance percent_encoding_model.
#[local] Instance unary_revs : RevText N unit := {| rev_to_string n := repeat 49 (N.to_nat n); rev_from_str s := Ok (N.of_nat (length s)); rev_is_zero n := n =? 0 |}.
#[local] Instance unary_revs_laws : RevTextLaws N unit.
Proof.
  split; intros r; cbn; [by rewrite repeat_length, N2Nat.id|]. intros Hin%list_elem_of_In%repeat_spec. done.
Qed.
Definition a_change : Notification N := NTrack (MkTrack (urn_new 7) (Some (MkPeerId (repeat 3 32))) 0 5).
Lemma notification_roundtrip_witness : 
  hook_message_from_str (track_from_str (RE := unit) (MB := unit)) (notification_to_string (RE := unit) (MB := unit) a_change) =
  Done (Ok (Payload (MkTrack (urn_new 7) (Some (MkPeerId (repeat 3 32))) 0 5))).
Proof.
  apply (notification_roundtrip (RE := unit) (MB := unit) ltac:(apply (bool_decide_unpack _); reflexivity) a_change); [done| |vm_compute; reflexivity].
  split; [by repeat constructor|reflexivity].
Defined.

(** A data hook [1] and a track hook [2]; the first is told of two changes. *)
Definition some_events : list (ExecEvent (T := N)) := [Notify KData 5; Receive 0 true; Notify KTrack 6; Notify KData 7].
Lemma hooks_told_witness : exists s s' h', exec_run 2 some_events (executor_new [1] [2]) = Some s /\ eot_all 2 s = Some s' /\
  wait_all s' !! 0%nat = Some h' /\ hs_written h' = [Payload 5; Payload 7; EOT].
Proof.
  destruct (exec_run 2 some_events (executor_new [1] [2])) as [s|] eqn:Hr; [|vm_compute in Hr; discriminate Hr].
  destruct (eot_all 2 s) as [s'|] eqn:He; [|vm_compute in Hr; injection Hr as <-; vm_compute in He; discriminate He].
  destruct (s !! 0%nat) as [h|] eqn:Hh; [|vm_compute in Hr; injection Hr as <-; discriminate Hh].
  destruct (hooks_told 2 [1] [2] some_events s Hr) as (_ & Ht & _). destruct (Ht s' 0%nat h He Hh) as (h' & Hi & _ & Hw);
    [vm_compute in Hr; injection Hr as <-; by injection Hh as <-..|].
  exists s, s', h'. split; [reflexivity|]. split; [exact He|]. split; [exact Hi|]. rewrite Hw. vm_compute in Hr. injection Hr as <-. by injection Hh as <-.
Defined.
(** [full_channel_blocks]: a hook that is too slow for its channel when the notes end: the executor does not end, and the hook is not killed. *)
Example full_channel_blocks : exists s, exec_run 1 [Notify KData 5] (executor_new [1] [2] : list (HookState (T := N))) = Some s /\ eot_all 1 s = None.
Proof. eexists. split; [vm_compute; reflexivity|vm_compute; reflexivity]. Qed.
(** [same_path_removed]: the failure of a data hook also silences a track hook of the same path. *)
Example same_path_removed : exists s, exec_run 2 [Notify KData 5; Receive 0 false; Notify KTrack 6] (executor_new [1] [1] : list (HookState (T := N))) = Some s /\
  map hs_done s = [true; false] /\ map hs_queue s = [[]; []].
Proof. eexists. split; [vm_compute; reflexivity|]. done. Qed.
End HooksExample.
