(* ===== verification/RemoteConfig.v ===== *)
(** * Remotes in the configuration of a repository

    [librad/src/git/types/remote.rs]: the remotes of a working copy, as they are saved in and found in the configuration of git.
    libgit2 is the class [GitRemotes]; [GitRemotesLaws] says what its documentation does of the variables of a remote. *)
From stdpp Require Import base list sets.
From Stdlib Require Import NArith Lia.
From Stdlib Require String.
Import String.StringSyntax.
From S2P Require Import Prelude Effects RefFormat RefName RefLike LibradRef.
Import Name.
#[local] Open Scope N_scope.

(** ** libgit2 *)

Inductive Var := VUrl | VFetch | VPush | VOther (name : list N).
#[export] Instance var_eq : EqDecision Var.
Proof. solve_decision. Defined.
(** What [find_remote] gives: a URL and refspecs that are not UTF-8 are [None]. *)
Record GitRemote := MkGitRemote { gr_url : option (list N); gr_fetch : list (option (list N)); gr_push : list (option (list N)) }.

Class GitRemotes (W GE : Type) := {
  is_exists_err : GE -> bool;
  is_missing_err : GE -> bool;
  repo_remote (name url : list N) : st W GE unit;
  remove_multivar (name : list N) (v : Var) : st W GE unit;
  remote_set_url (name url : list N) : st W GE unit;
  remote_add_fetch (name spec : list N) : st W GE unit;
  remote_add_push (name spec : list N) : st W GE unit;
  find_remote (name : list N) (w : W) : result GE GitRemote;
  (** The values of a variable of a remote. *)
  values_of (w : W) (name : list N) (v : Var) : list (list N);
}.
(** [w'] only differs from [w] in the values of [v] of [n], if at all. *)
Definition only_changes `{GitRemotes W GE} (w w' : W) (n : list N) (vs : list Var) : Prop :=
  forall m v, m <> n \/ v ∉ vs -> values_of w' m v = values_of w m v.
Class GitRemotesLaws (W GE : Type) `{GitRemotes W GE} := {
  remote_created n u w w' : repo_remote n u w = (EOk tt, w') -> only_changes w w' n [VUrl; VFetch];
  remote_exists n u w e w' : repo_remote n u w = (EErr e, w') -> is_exists_err e = true -> only_changes w w' n [];
  multivar_removed n v w w' : remove_multivar n v w = (EOk tt, w') -> values_of w' n v = [] /\ only_changes w w' n [v];
  multivar_missing n v w e w' : remove_multivar n v w = (EErr e, w') -> is_missing_err e = true -> values_of w' n v = [] /\ only_changes w w' n [v];
  url_set n u w w' : remote_set_url n u w = (EOk tt, w') -> values_of w' n VUrl = [u] /\ only_changes w w' n [VUrl];
  fetch_added n s w w' : remote_add_fetch n s w = (EOk tt, w') -> values_of w' n VFetch = values_of w n VFetch ++ [s] /\ only_changes w w' n [VFetch];
  push_added n s w w' : remote_add_push n s w = (EOk tt, w') -> values_of w' n VPush = values_of w n VPush ++ [s] /\ only_changes w w' n [VPush];
  remote_found n w u : values_of w n VUrl = [u] ->
    find_remote n w = Ok (MkGitRemote (Some u) (map Some (values_of w n VFetch)) (map Some (values_of w n VPush)));
}.

(** ** Remotes *)

Inductive FindError (UE GE : Type) : Type := FindMissing (what : list N) | ParseUrl (e : UE) | FindRefspec (e : NameError) | FindGit (e : GE).
Arguments FindMissing {UE GE} what. Arguments ParseUrl {UE GE} e. Arguments FindRefspec {UE GE} e. Arguments FindGit {UE GE} e.
Record Remote (U : Type) : Type := MkRemote { rm_url : U; rm_name : list N; rm_fetchspecs : list Refspec; rm_pushspecs : list Refspec }.
Arguments MkRemote {U} rm_url rm_name rm_fetchspecs rm_pushspecs.
Arguments rm_url {U} r. Arguments rm_name {U} r. Arguments rm_fetchspecs {U} r. Arguments rm_pushspecs {U} r.

Section Remote.
Context {U UE W GE : Type} `{GitRemotes W GE}.
Context (url_to_string : U -> list N) (url_from_str : list N -> result UE U).

Definition rad_remote (url : U) (fetch_spec : option Refspec) : Remote U := MkRemote url (str "rad") (option_list fetch_spec) [].
Definition remote_new (url : U) (name : list N) : Remote U := MkRemote url name [] [].
Definition with_fetchspecs (specs : list Refspec) (r : Remote U) : Remote U := MkRemote (rm_url r) (rm_name r) specs (rm_pushspecs r).
Definition add_fetchspec (spec : Refspec) (r : Remote U) : Remote U := MkRemote (rm_url r) (rm_name r) (rm_fetchspecs r ++ [spec]) (rm_pushspecs r).
Definition with_pushspecs (specs : list Refspec) (r : Remote U) : Remote U := MkRemote (rm_url r) (rm_name r) (rm_fetchspecs r) specs.
Definition add_pushspec (spec : Refspec) (r : Remote U) : Remote U := MkRemote (rm_url r) (rm_name r) (rm_fetchspecs r) (rm_pushspecs r ++ [spec]).

(** [or_matches] *)
Definition or_matches (p : GE -> bool) (m : st W GE unit) : st W GE unit := fun w =>
  match m w with (EErr e, w) => if p e then (EOk tt, w) else (EErr e, w) | r => r end.
Fixpoint add_specs (add : list N -> st W GE unit) (specs : list Refspec) : st W GE unit :=
  match specs with
  | [] => mret tt
  | spec :: specs => _ ← add (refspec_to_string spec); add_specs add specs
  end.
(** [save] *)
Definition remote_save (r : Remote U) : st W GE unit :=
  let url := url_to_string (rm_url r) in
  let name := rm_name r in
  _ ← or_matches is_exists_err (repo_remote name url);
  _ ← or_matches is_missing_err (remove_multivar name VUrl);
  _ ← or_matches is_missing_err (remove_multivar name VFetch);
  _ ← or_matches is_missing_err (remove_multivar name VPush);
  _ ← remote_set_url name url;
  _ ← add_specs (remote_add_fetch name) (rm_fetchspecs r);
  add_specs (remote_add_push name) (rm_pushspecs r).

(** Refspecs of a remote, less those that are not text. *)
Fixpoint collect_specs (try_from : list N -> result NameError Refspec) (l : list (option (list N))) : result (FindError UE GE) (list Refspec) :=
  match l with
  | [] => Ok []
  | None :: l => collect_specs try_from l
  | Some s :: l => spec ← map_err FindRefspec (try_from s); specs ← collect_specs try_from l; Ok (spec :: specs)
  end.
(** [find] *)
Definition remote_find (w : W) (name : list N) : result (FindError UE GE) (option (Remote U)) :=
  match find_remote name w with
  | Err e => if is_missing_err e then Ok None else Err (FindGit e)
  | Ok remote =>
      url ← ok_or (gr_url remote) (FindMissing (str "url"));
      url ← map_err ParseUrl (url_from_str url);
      fetchspecs ← collect_specs fetchspec_try_from (gr_fetch remote);
      pushspecs ← collect_specs pushspec_try_from (gr_push remote);
      Ok (Some (MkRemote url name fetchspecs pushspecs))
  end.
End Remote.

(** ** What is saved is found *)

(** A refspec whose text is read back. *)
Definition fetchspec_ok (r : Refspec) : Prop := is_pattern (src r) /\ is_pattern (dst r) /\ starts_with [43] (src r) = false.
Definition pushspec_ok (r : Refspec) : Prop := is_refstr (src r) /\ is_refstr (dst r) /\ starts_with [43] (src r) = false.

Section Laws.
Context {U UE W GE : Type} `{GitRemotesLaws W GE}.
Context (url_to_string : U -> list N) (url_from_str : list N -> result UE U).

Lemma only_trans (w1 w2 w3 : W) n vs vs' : only_changes w1 w2 n vs -> only_changes w2 w3 n vs' -> only_changes w1 w3 n (vs ++ vs').
Proof. intros H1 H2 m v Hm. rewrite H2, H1; [done|..]; destruct Hm as [?|Hv]; auto; right; set_solver. Qed.
Lemma only_weaken (w1 w2 : W) n vs vs' : (forall v, v ∈ vs -> v ∈ vs') -> only_changes w1 w2 n vs -> only_changes w1 w2 n vs'.
Proof. intros Hs H1 m v [?|Hv]; apply H1; auto. Qed.
Lemma or_matches_created n u w w' : or_matches is_exists_err (repo_remote n u) w = (EOk tt, w') -> only_changes w w' n [VUrl; VFetch].
Proof.
  unfold or_matches. destruct (repo_remote n u w) as [[[]|e|] w1] eqn:Hr; [intros [= <-]; by apply remote_created in Hr| |done].
  destruct (is_exists_err e) eqn:He; [|done]. intros [= <-]. eapply only_weaken; [|by eapply remote_exists]. by intros v ?%elem_of_nil.
Qed.
Lemma or_matches_removed n v w w' : or_matches is_missing_err (remove_multivar n v) w = (EOk tt, w') -> values_of w' n v = [] /\ only_changes w w' n [v].
Proof.
  unfold or_matches. destruct (remove_multivar n v w) as [[[]|e|] w1] eqn:Hr; [intros [= <-]; by apply multivar_removed in Hr| |done].
  destruct (is_missing_err e) eqn:He; [|done]. intros [= <-]. by eapply multivar_missing.
Qed.
Lemma add_specs_ok n v (add : list N -> st W GE unit) specs :
  (forall s w w', add s w = (EOk tt, w') -> values_of w' n v = values_of w n v ++ [s] /\ only_changes w w' n [v]) ->
  forall w w', add_specs add specs w = (EOk tt, w') -> values_of w' n v = values_of w n v ++ map refspec_to_string specs /\ only_changes w w' n [v].
Proof.
  intros Hadd. induction specs as [|spec specs IH]; intros w w'; cbn [add_specs map]; [intros [= <-]; by rewrite app_nil_r|].
  intros ([] & w1 & H1 & H2)%st_bind_ok. apply Hadd in H1 as [Hv1 Ho1]. apply IH in H2 as [Hv2 Ho2]. split; [by rewrite Hv2, Hv1, <- app_assoc|].
  eapply only_weaken; [|by eapply only_trans]. set_solver.
Qed.
(** What a save leaves: exactly the URL and the refspecs of the remote, and everything else as it was. *)
Lemma remote_save_ok (r : Remote U) w w' : remote_save url_to_string r w = (EOk tt, w') ->
  values_of w' (rm_name r) VUrl = [url_to_string (rm_url r)] /\ values_of w' (rm_name r) VFetch = map refspec_to_string (rm_fetchspecs r) /\
  values_of w' (rm_name r) VPush = map refspec_to_string (rm_pushspecs r) /\ only_changes w w' (rm_name r) [VUrl; VFetch; VPush].
Proof.
  unfold remote_save. set (n := rm_name r). intros ([] & w1 & H1 & ([] & w2 & H2 & ([] & w3 & H3 & ([] & w4 & H4 & ([] & w5 & H5 & ([] & w6 & H6 & H7)%st_bind_ok)%st_bind_ok)%st_bind_ok)%st_bind_ok)%st_bind_ok)%st_bind_ok.
  apply or_matches_created in H1. apply or_matches_removed in H2 as [_ H2], H3 as [Hf H3], H4 as [Hp H4]. apply url_set in H5 as [Hu H5].
  apply (add_specs_ok n VFetch) in H6 as [Hf6 H6]; [|intros; by apply fetch_added]. apply (add_specs_ok n VPush) in H7 as [Hp7 H7]; [|intros; by apply push_added].
  assert (forall (v : Var) (vs : list Var), v ∉ vs -> n <> n \/ v ∉ vs) as Hn by (intros; by right). split_and!.
  - rewrite H7, H6, Hu by (apply Hn; set_solver). done.
  - rewrite H7, Hf6, H5, H4, Hf by (apply Hn; set_solver). done.
  - rewrite Hp7, H6, H5, Hp by (apply Hn; set_solver). done.
  - eapply only_weaken; [|eapply only_trans; [exact H1|eapply only_trans; [exact H2|eapply only_trans; [exact H3|eapply only_trans; [exact H4|eapply only_trans; [exact H5|eapply only_trans; [exact H6|exact H7]]]]]]]. set_solver.
Qed.
Lemma collect_specs_ok (try_from : list N -> result NameError Refspec) specs : Forall (fun s => try_from (refspec_to_string s) = Ok s) specs ->
  collect_specs (UE := UE) (GE := GE) try_from (map Some (map refspec_to_string specs)) = Ok specs.
Proof. induction 1 as [|s specs Hs _ IH]; cbn; [done|]. rewrite Hs. cbn. by rewrite IH. Qed.

(** [remote_saved_found]: a remote that was saved is found with its URL and its refspecs, whatever was configured under its name before; other remotes
    and other variables are as they were. *)
Theorem remote_saved_found (r : Remote U) w w' (Hurl : url_from_str (url_to_string (rm_url r)) = Ok (rm_url r))
    (Hfetch : Forall fetchspec_ok (rm_fetchspecs r)) (Hpush : Forall pushspec_ok (rm_pushspecs r)) (Hsave : remote_save url_to_string r w = (EOk tt, w')) :
  remote_find url_from_str w' (rm_name r) = Ok (Some r) /\
  forall n v, n <> rm_name r \/ v ∉ [VUrl; VFetch; VPush] -> values_of w' n v = values_of w n v.
Proof.
  apply remote_save_ok in Hsave as (Hu & Hf & Hp & Ho). split; [|exact Ho]. unfold remote_find. rewrite (remote_found _ _ _ Hu), Hf, Hp. cbn [gr_url gr_fetch gr_push].
  cbn [ok_or mbind result_bind]. rewrite Hurl. cbn [map_err]. rewrite !collect_specs_ok; [by destruct r|..].
  - eapply Forall_impl; [exact Hfetch|]. intros s (Hs & Hd & Hpl). by apply (proj1 (refspec_roundtrip s)).
  - eapply Forall_impl; [exact Hpush|]. intros s (Hs & Hd & Hpl). by apply (proj2 (refspec_roundtrip s)).
Qed.
End Laws.

(** ** Examples *)

Module RemoteExample.
(** A configuration as the list of its variables with their values, in order. *)
Definition Config : Type := list (list N * Var * list N).
Definition key_is (n : list N) (v : Var) (x : list N * Var * list N) : bool := bool_decide (x.1 = (n, v)).
Definition values (w : Config) (n : list N) (v : Var) : list (list N) := map snd (List.filter (key_is n v) w).
Definition without (w : Config) (n : list N) (v : Var) : Config := List.filter (fun x => negb (key_is n v x)) w.
Definition remote_known (w : Config) (n : list N) : bool := existsb (fun x => bool_decide (x.1.1 = n)) w.
#[local] Instance config_remotes : GitRemotes Config bool := {|
  is_exists_err e := e;
  is_missing_err e := negb e;
  repo_remote n u w := if remote_known w n then (EErr true, w)
    else (EOk tt, w ++ [(n, VUrl, u); (n, VFetch, str "+refs/heads/*:refs/remotes/" ++ n ++ str "/*")]);
  remove_multivar n v w := match values w n v with [] => (EErr false, w) | _ => (EOk tt, without w n v) end;
  remote_set_url n u w := (EOk tt, without w n VUrl ++ [(n, VUrl, u)]);
  remote_add_fetch n s w := (EOk tt, w ++ [(n, VFetch, s)]);
  remote_add_push n s w := (EOk tt, w ++ [(n, VPush, s)]);
  find_remote n w := if remote_known w n then Ok (MkGitRemote (hd_error (values w n VUrl)) (map Some (values w n VFetch)) (map Some (values w n VPush))) else Err false;
  values_of := values;
|}.
Lemma values_app w w' n v : values (w ++ w') n v = values w n v ++ values w' n v.
Proof. unfold values. by rewrite List.filter_app, map_app. Qed.
Lemma key_is_refl n v x : key_is n v (n, v, x) = true.
Proof. unfold key_is. by rewrite bool_decide_eq_true_2. Qed.
Lemma key_is_ne m v n v' x : m <> n \/ v <> v' -> key_is m v (n, v', x) = false.
Proof. intros Hne. unfold key_is. apply bool_decide_eq_false_2. cbn. intros [= -> ->]. by destruct Hne. Qed.
Lemma values_without w n v m v' : values (without w n v) m v' = if decide (m = n /\ v' = v) then [] else values w m v'.
Proof.
  unfold values, without. induction w as [|x w IH]; cbn [List.filter map]; [by case_decide|]. destruct (key_is n v x) eqn:Hx; cbn [negb List.filter].
  - rewrite IH. case_decide as Hd; [done|]. destruct (key_is m v' x) eqn:Hx'; [|done]. unfold key_is in *. apply bool_decide_eq_true in Hx, Hx'. destruct Hd. rewrite Hx in Hx'. by injection Hx' as <- <-.
  - destruct (key_is m v' x) eqn:Hx'; cbn [map]; rewrite IH; case_decide as Hd; try done. destruct Hd as [-> ->]. congruence.
Qed.
Lemma values_one n v x m v' : values [(n, v, x)] m v' = if decide (m = n /\ v' = v) then [x] else [].
Proof.
  unfold values. cbn [List.filter]. case_decide as Hd; [destruct Hd as [-> ->]; by rewrite key_is_refl|].
  rewrite key_is_ne; [done|]. destruct (decide (m = n)) as [->|]; [right; intros ->; by apply Hd|by left].
Qed.
#[local] Instance config_remotes_laws : GitRemotesLaws Config bool.
Proof.
  assert (forall (w : Config) n v x m v', m <> n \/ v' ∉ [v] -> values (w ++ [(n, v, x)]) m v' = values w m v') as Hadd.
  { intros w n v x m v' Hm. rewrite values_app, values_one. case_decide as Hd; [|by rewrite app_nil_r]. destruct Hd as [-> ->]. set_solver. }
  assert (forall (w : Config) n v m v', m <> n \/ v' ∉ [v] -> values (without w n v) m v' = values w m v') as Hdel.
  { intros w n v m v' Hm. rewrite values_without. case_decide as Hd; [|done]. destruct Hd as [-> ->]. set_solver. }
  split; cbn.
  - intros n u w w'. destruct (remote_known w n); [done|]. intros [= <-] m v Hm. cbn.
    change ([(n, VUrl, u); ?x]) with ([(n, VUrl, u)] ++ [x]). rewrite app_assoc, !Hadd; [done|..]; destruct Hm; auto; right; set_solver.
  - intros n u w e w'. destruct (remote_known w n); [|done]. by intros [= <- <-] _.
  - intros n v w w'. destruct (values w n v) eqn:Hv; [done|]. intros [= <-]. split; [rewrite values_without; by rewrite decide_True|]. intros m v' Hm. by apply Hdel.
  - intros n v w e w'. destruct (values w n v) eqn:Hv; [|done]. intros [= <- <-] _. by split.
  - intros n u w w' [= <-]. split; [rewrite values_app, values_without, values_one; by rewrite !decide_True|]. intros m v Hm. cbn. by rewrite Hadd, Hdel.
  - intros n s w w' [= <-]. split; [rewrite values_app, values_one; by rewrite decide_True|]. intros m v Hm. by apply Hadd.
  - intros n s w w' [= <-]. split; [rewrite values_app, values_one; by rewrite decide_True|]. intros m v Hm. by apply Hadd.
  - intros n w u Hu. assert (remote_known w n = true) as ->; [|by rewrite Hu].
    assert ((n, VUrl, u) ∈ w) as Hin.
    { unfold values in Hu. destruct (List.filter (key_is n VUrl) w) as [|[k y] l] eqn:Hf; [done|]. cbn in Hu. injection Hu as -> _.
      assert (In (k, u) (List.filter (key_is n VUrl) w)) as Hk by (rewrite Hf; by left). apply List.filter_In in Hk as [Hk1 Hk2].
      unfold key_is in Hk2. apply bool_decide_eq_true in Hk2. cbn in Hk2. subst k. by apply list_elem_of_In. }
    apply existsb_exists. exists (n, VUrl, u). split; [by apply list_elem_of_In|]. by apply bool_decide_eq_true_2.
Qed.
Definition rad_spec : Refspec := MkRefspec (str "refs/heads/*") (str "refs/remotes/rad/*") ForceTrue.
(** The remote [rad] was there already, with another URL and another variable. *)
Definition before : Config := [(str "rad", VUrl, [1]); (str "rad", VOther (str "mirror"), [2]); (str "origin", VUrl, [3])].
Definition same_text (s : list N) : result unit (list N) := Ok s.
Lemma remote_saved_found_witness : exists w', remote_save (fun u : list N => u) (rad_remote [9] (Some rad_spec)) before = (EOk tt, w') /\
  remote_find same_text w' (str "rad") = Ok (Some (rad_remote [9] (Some rad_spec))) /\ values_of w' (str "rad") (VOther (str "mirror")) = [[2]].
Proof.
  eexists. split; [vm_compute; reflexivity|].
  destruct (remote_saved_found (UE := unit) (fun u : list N => u) same_text (rad_remote [9] (Some rad_spec)) before _ eq_refl
    ltac:(repeat constructor) ltac:(constructor) eq_refl) as [Hf _].
  split; [exact Hf|vm_compute; reflexivity].
Defined.
End RemoteExample.
