(* ===== verification/Seeds.v ===== *)
(** * Seeds

    [cli/lnk-clib/src/seed.rs] and [seed/store/file.rs]: seeds as lines of a file, and loading them with their addresses looked up. Looking up is a
    parameter, and so is the text of addresses. *)
From stdpp Require Import base list.
From Stdlib Require Import NArith Lia.
From Stdlib Require String.
Import String.StringSyntax.
From S2P Require Import Prelude RefFormat RefName Utf8 Scoped Keys LibradRef.
Import Name.
#[local] Open Scope N_scope.

(** [Display] and [FromStr] of addresses. *)
Class AddrText (T TE : Type) := { addr_to_string : T -> list N; addr_from_str : list N -> result TE T }.
Class AddrTextLaws (T TE : Type) `{AddrText T TE} := { addr_roundtrip (a : T) : addr_from_str (addr_to_string a) = Ok a }.

Record Seed (A : Type) : Type := MkSeed { seed_peer : PeerId; seed_addrs : A; seed_label : option (list N) }.
Arguments MkSeed {A} seed_peer seed_addrs seed_label. Arguments seed_peer {A} s. Arguments seed_addrs {A} s. Arguments seed_label {A} s.

(** [error::Parse], [error::Resolve], [error::Load] and [error::Iter]. *)
Inductive SeedParseError (MB TE : Type) : Type := SeedMissing (what : list N) | SeedAddr (e : TE) | SeedPeer (e : ConversionError (MB := MB)) | Unexpected (s : list N).
Arguments SeedMissing {MB TE} what. Arguments SeedAddr {MB TE} e. Arguments SeedPeer {MB TE} e. Arguments Unexpected {MB TE} s.
Inductive ResolveError (IoE : Type) : Type := DnsLookupFailed (peer : PeerId) (addr : list N) | ResolveIo (e : IoE).
Arguments DnsLookupFailed {IoE} peer addr. Arguments ResolveIo {IoE} e.
Inductive LoadError (IE IoE : Type) : Type := MalformedSeed (e : IE) | LoadResolve (e : ResolveError IoE).
Arguments MalformedSeed {IE IoE} e. Arguments LoadResolve {IE IoE} e.
Inductive IterError (PE IoE : Type) : Type := IterIo (e : IoE) | IterParse (e : PE).
Arguments IterIo {PE IoE} e. Arguments IterParse {PE IoE} e.

Definition comma : N := 44.
Definition at_sign : N := 64.
Definition is_sep (c : N) : bool := (c =? comma) || (c =? at_sign).
(** [str::split] at either of two characters. *)
Fixpoint split_any (s : list N) : list (list N) :=
  match s with
  | [] => [[]]
  | c :: s => if is_sep c then [] :: split_any s else match split_any s with p :: ps => (c :: p) :: ps | [] => [[c]] end
  end.

Section Text.
Context {T TE MB : Type} `{AddrText T TE} `{Multibase MB}.
Definition seed_to_string (s : Seed T) : list N :=
  peer_default_encoding (peer_key (seed_peer s)) ++ at_sign :: addr_to_string (seed_addrs s) ++
  match seed_label s with Some label => comma :: label | None => [] end.
Definition seed_from_str (s : list N) : outcome (result (SeedParseError MB TE) (Seed T)) :=
  let components := split_any s in
  match components !! 0%nat with
  | None => Done (Err (SeedMissing (str "<peer id>")))
  | Some peer =>
      match from_default_encoding peer with
      | Panic => Panic
      | Done (Err e) => Done (Err (SeedPeer e))
      | Done (Ok key) =>
          Done (addr ← ok_or (components !! 1%nat) (SeedMissing (str "<addr>"));
                addrs ← map_err SeedAddr (addr_from_str addr);
                match components !! 3%nat with
                | Some wat => Err (Unexpected wat)
                | None => Ok (MkSeed (MkPeerId key) addrs (components !! 2%nat))
                end)
      end
  end.
End Text.

Section Load.
Context {T Addr IE PE IoE : Type}.
Context (lookup_host : T -> result IoE (list Addr)) (addr_text : T -> list N).

(** [Seed::resolve] *)
Definition seed_resolve (s : Seed T) : result (ResolveError IoE) (Seed (list Addr)) :=
  addrs ← map_err ResolveIo (lookup_host (seed_addrs s));
  match addrs with
  | [] => Err (DnsLookupFailed (seed_peer s) (addr_text (seed_addrs s)))
  | _ => Ok (MkSeed (seed_peer s) addrs (seed_label s))
  end.
(** [Seeds::load], after the scan; [None] when there is no cutoff. *)
Fixpoint load_loop (cutoff : option nat) (seeds : list (result IE (Seed T))) (resolved : list (Seed (list Addr))) (failures : list (LoadError IE IoE)) :
    list (Seed (list Addr)) * list (LoadError IE IoE) :=
  match seeds with
  | [] => (resolved, failures)
  | Err e :: seeds => load_loop cutoff seeds resolved (failures ++ [MalformedSeed e])
  | Ok seed :: seeds =>
      match seed_resolve seed with
      | Ok r => if bool_decide (Some (length (resolved ++ [r])) = cutoff) then (resolved ++ [r], failures) else load_loop cutoff seeds (resolved ++ [r]) failures
      | Err e => load_loop cutoff seeds resolved (failures ++ [LoadResolve e])
      end
  end.
Definition seeds_load (cutoff : option nat) (seeds : list (result IE (Seed T))) := load_loop cutoff seeds [] [].
(** [Seeds::resolve] *)
Fixpoint seeds_resolve (seeds : list (Seed T)) : list (Seed (list Addr)) * list (ResolveError IoE) :=
  match seeds with
  | [] => ([], [])
  | seed :: seeds => let '(rs, fs) := seeds_resolve seeds in match seed_resolve seed with Ok r => (r :: rs, fs) | Err e => (rs, e :: fs) end
  end.
(** The iterator of [FileStore] on the lines of the file: it ends with the first line that cannot be read. *)
Fixpoint file_iter (parse : list N -> result PE (Seed T)) (lines : list (result IoE (list N))) : list (result (IterError PE IoE) (Seed T)) :=
  match lines with
  | [] => []
  | Err e :: _ => [Err (IterIo e)]
  | Ok line :: lines => map_err IterParse (parse line) :: file_iter parse lines
  end.

(** ** What is loaded *)

Definition entry_ok (e : result IE (Seed T)) : option (Seed (list Addr)) := match e with Ok s => res_ok (seed_resolve s) | Err _ => None end.
Definition entry_err (e : result IE (Seed T)) : option (LoadError IE IoE) :=
  match e with Ok s => match seed_resolve s with Err e => Some (LoadResolve e) | Ok _ => None end | Err e => Some (MalformedSeed e) end.
Lemma load_loop_spec cutoff seeds : forall resolved failures, exists pre post, seeds = pre ++ post /\
  load_loop cutoff seeds resolved failures = (resolved ++ omap entry_ok pre, failures ++ omap entry_err pre) /\
  (post = [] \/ cutoff = Some (length (resolved ++ omap entry_ok pre)) /\ resolved ++ omap entry_ok pre <> []) /\
  (forall n, cutoff = Some n -> (length resolved < n)%nat -> (length (resolved ++ omap entry_ok pre) <= n)%nat).
Proof.
  induction seeds as [|e seeds IH]; intros resolved failures; cbn [load_loop].
  { exists [], []. rewrite !app_nil_r. split; [done|]. split; [done|]. split; [by left|lia]. }
  assert (forall resolved' failures', resolved' = resolved ++ option_list (entry_ok e) -> failures' = failures ++ option_list (entry_err e) ->
    (forall n, cutoff = Some n -> (length resolved < n)%nat -> (length resolved' < n)%nat) ->
    exists pre post, e :: seeds = pre ++ post /\ load_loop cutoff seeds resolved' failures' = (resolved ++ omap entry_ok pre, failures ++ omap entry_err pre) /\
    (post = [] \/ cutoff = Some (length (resolved ++ omap entry_ok pre)) /\ resolved ++ omap entry_ok pre <> []) /\
    (forall n, cutoff = Some n -> (length resolved < n)%nat -> (length (resolved ++ omap entry_ok pre) <= n)%nat)) as Hgo.
  { intros resolved' failures' -> -> Hlt. destruct (IH (resolved ++ option_list (entry_ok e)) (failures ++ option_list (entry_err e))) as (pre & post & -> & Hl & Hp & Hn).
    exists (e :: pre), post. assert (forall B (f : result IE (Seed T) -> option B) (l : list B), l ++ omap f (e :: pre) = (l ++ option_list (f e)) ++ omap f pre) as Ho
      by (intros B f l; cbn; destruct (f e); cbn; by rewrite <- app_assoc). rewrite !Ho. split; [done|]. split; [done|]. split; [done|]. intros n Hc Hr. apply Hn; auto. }
  destruct e as [seed|e]; cbn [entry_ok entry_err option_list] in Hgo.
  - destruct (seed_resolve seed) as [r|x] eqn:Hr; cbn [res_ok option_list] in Hgo.
    + case_bool_decide as Hc.
      * exists [Ok seed], seeds. cbn. rewrite Hr. cbn. rewrite app_nil_r. split; [done|]. split; [done|]. split; [right; split; [done|by destruct resolved]|]. intros n Hn _. rewrite Hn in Hc. by injection Hc as ->.
      * apply Hgo; [done|by rewrite app_nil_r|]. intros n Hn Hlt. rewrite length_app in *. cbn in *. assert (length resolved + 1 <> n)%nat by congruence. lia.
    + apply Hgo; [by rewrite app_nil_r|done|done].
  - apply Hgo; [by rewrite app_nil_r|done|done].
Qed.
(** [seeds_loaded]: the seeds that are loaded are those that can be resolved, in their order, with one failure for each of the others: of all the seeds there are
    without a cutoff or with one of zero, and otherwise of as many as it takes to have that number, and never more. *)
Theorem seeds_loaded cutoff seeds : exists pre post, seeds = pre ++ post /\
  seeds_load cutoff seeds = (omap entry_ok pre, omap entry_err pre) /\
  match cutoff with
  | None | Some O => post = []
  | Some n => (length (omap entry_ok pre) <= n)%nat /\ (post <> [] -> length (omap entry_ok pre) = n)
  end.
Proof.
  destruct (load_loop_spec cutoff seeds [] []) as (pre & post & Hs & Hl & Hp & Hn). exists pre, post. split; [done|]. split; [exact Hl|].
  destruct cutoff as [[|n]|].
  - destruct Hp as [->|[Hp Hne]]; [done|]. injection Hp as Hp. by destruct (omap entry_ok pre).
  - split; [apply (Hn (S n)); [done|cbn; lia]|]. intros Hne. destruct Hp as [->|[Hp _]]; [done|]. by injection Hp as ->.
  - by destruct Hp as [->|[? _]].
Qed.
End Load.

(** ** Texts are read back *)

Lemma split_any_nonempty s : split_any s <> [].
Proof. induction s as [|c s IH]; cbn; [done|]. destruct (is_sep c); [done|]. by destruct (split_any s). Qed.
Lemma split_any_no s : Forall (fun c => is_sep c = false) s -> split_any s = [s].
Proof. induction 1 as [|c s Hc _ IH]; cbn; [done|]. by rewrite Hc, IH. Qed.
Lemma split_any_sep a c b : Forall (fun c => is_sep c = false) a -> is_sep c = true -> split_any (a ++ c :: b) = a :: split_any b.
Proof. intros Ha Hc. induction Ha as [|x a Hx _ IH]; cbn; [by rewrite Hc|]. by rewrite Hx, IH. Qed.
Lemma split_any_one s : (exists p, split_any s = [p]) <-> Forall (fun c => is_sep c = false) s.
Proof.
  split; [|intros Hs; exists s; by apply split_any_no]. induction s as [|c s IH]; [by constructor|]. cbn. destruct (is_sep c) eqn:Hc.
  - intros [p [= _ Hp]]. by destruct (split_any_nonempty s).
  - destruct (split_any s) as [|q [|q' qs]] eqn:Hs; [by destruct (split_any_nonempty s)| |by intros [p ?]]. intros _. constructor; [done|]. apply IH. eauto.
Qed.

Section RoundTrip.
Context {T TE MB : Type} `{AddrTextLaws T TE} `{MultibaseLaws MB}.

(** [seed_roundtrip]: a seed whose address has no comma and no at sign is read back from its text exactly when its label has none either. *)
Theorem seed_roundtrip (s : Seed T) (Hpeer : peer_wf (seed_peer s)) (Haddr : Forall (fun c => is_sep c = false) (addr_to_string (seed_addrs s))) :
  seed_from_str (MB := MB) (seed_to_string (MB := MB) s) = Done (Ok s) <-> match seed_label s with Some l => Forall (fun c => is_sep c = false) l | None => True end.
Proof.
  destruct Hpeer as [Hb Hl]. destruct (peer_id_roundtrip (MB := MB) (peer_key (seed_peer s)) (repeat 0 64) Hb Hl) as [Hp _]; [by repeat constructor|done|].
  assert (Forall (fun c => is_sep c = false) (peer_default_encoding (MB := MB) (peer_key (seed_peer s)))) as Hsep.
  { destruct (base32z_letters (0 :: peer_key (seed_peer s))) as [Hf _]. eapply Forall_impl; [exact Hf|]. intros c Hc. unfold letter, is_sep, comma, at_sign in *.
    apply orb_false_iff. rewrite !N.eqb_neq. lia. }
  unfold seed_from_str, seed_to_string. rewrite split_any_sep by done. cbn [lookup list_lookup]. rewrite Hp. destruct s as [[key] addrs [label|]]; cbn [seed_peer seed_addrs seed_label peer_key] in *.
  - rewrite split_any_sep by done. cbn. rewrite addr_roundtrip. cbn. rewrite <- split_any_one. destruct (split_any label) as [|p [|q ps]] eqn:Hsp; [by destruct (split_any_nonempty label)|..].
    + split; [by eauto|]. intros _. assert (Forall (fun c => is_sep c = false) label) as Hlab by (apply split_any_one; eauto).
      rewrite split_any_no in Hsp by done. injection Hsp as <-. done.
    + cbn. split; [done|]. by intros [? ?].
  - rewrite app_nil_r, split_any_no by done. cbn. by rewrite addr_roundtrip.
Qed.
End RoundTrip.

(** ** Examples *)

Module SeedsExample.
#[local] Existing Instance ZBase32.z_multibase.
#[local] Existing Instance ZBase32.z_multibase_laws.
#[local] Instance plain_addr : AddrText (list N) unit := {| addr_to_string a := a; addr_from_str := Ok |}.
#[local] Instance plain_addr_laws : AddrTextLaws (list N) unit.
Proof. by split. Qed.
Definition a_seed (label : option (list N)) : Seed (list N) := MkSeed (MkPeerId (repeat 3 32)) (str "seed.example:8776") label.
Lemma seed_roundtrip_witness : seed_from_str (MB := unit) (seed_to_string (MB := unit) (a_seed (Some (str "home")))) = Done (Ok (a_seed (Some (str "home")))).
Proof. apply (seed_roundtrip (MB := unit) (a_seed (Some (str "home")))); [split; [by repeat constructor|reflexivity]|by repeat constructor|by repeat constructor]. Defined.
(** [label_with_comma]: a label with a comma is written, but not read. *)
Example label_with_comma : seed_from_str (MB := unit) (seed_to_string (MB := unit) (a_seed (Some (str "my,home")))) = Done (Err (Unexpected (str "home"))).
Proof. vm_compute. reflexivity. Qed.
(** [zero_cutoff_loads_all]: with a cutoff of zero, all seeds are loaded. *)
Example zero_cutoff_loads_all : length (seeds_load (IE := unit) (IoE := unit) (fun _ => Ok [tt]) (fun a => a) (Some 0%nat) [Ok (a_seed None); Ok (a_seed None)]).1 = 2%nat.
Proof. vm_compute. reflexivity. Qed.
End SeedsExample.
