(* ===== verification/Tasks.v ===== *)
(** * Driving a stream of tasks

    [link-async/src/tasks.rs]: the future that runs the tasks of a stream until the stream ends, until nothing happens for some time, or until a task
    fails.  A poll is a function of the state and of what the stream, the tasks and the clock answer in it. *)
From stdpp Require Import base list sets.
From Stdlib Require Import Lia.
From S2P Require Import Prelude.

Section Tasks.
Context {T E : Type}.
(** [OnErrorPolicy::extract_err]: [None] always for [Ignore], the residual of a failure for [ReturnRemainingTasks]. *)
Context (extract_err : T -> option E).
(** Whether there is an idle timeout. *)
Context (idle_timeout : bool).

(** What a task gives when it is joined. *)
Inductive Joined := JPanic | JCancelled | JOk (v : T).
(** [TasksState]; [Idle] with a timer or without. *)
Inductive TasksState := Servicing (ongoing_tasks : list nat) (finishing : bool) | Idle (sleep : bool) | Dead.
Inductive Output := DoneOutput | ErrorOutput (err : E) (remaining_tasks : list nat).
Inductive Poll := Ready (o : Output) | Pending | Panicked.
(** In a poll: the tasks the stream has, and whether it has ended then; the tasks that are joined, in order; whether the time is over. *)
Record PollInput := MkPollInput { new_tasks : list nat; stream_ended : bool; joined : list (nat * Joined); slept : bool }.

Definition tasks_new : TasksState := Idle idle_timeout.
Definition polls_stream (s : TasksState) : bool := match s with Idle _ | Servicing _ false => true | _ => false end.
(** The first half of [poll]: new tasks. *)
Definition collect_tasks (s : TasksState) (i : PollInput) : TasksState :=
  if polls_stream s then
    match s with
    | Servicing ongoing_tasks finishing => Servicing (ongoing_tasks ++ new_tasks i) (stream_ended i || finishing)
    | _ => match new_tasks i with [] => s | l => Servicing l (stream_ended i) end
    end
  else s.
(** The tasks that are ready, until there are no more or one fails. *)
Inductive Serviced := Left_ (ongoing_tasks : list nat) | Failed (err : E) (remaining : list nat) | TaskPanicked.
Fixpoint service (ongoing_tasks : list nat) (l : list (nat * Joined)) : Serviced :=
  match l with
  | [] => Left_ ongoing_tasks
  | (t, r) :: l =>
      if bool_decide (t ∈ ongoing_tasks) then
        let rest := filter (fun x => x <> t) ongoing_tasks in
        match r with
        | JPanic => TaskPanicked
        | JCancelled => service rest l
        | JOk v => match extract_err v with Some err => Failed err rest | None => service rest l end
        end
      else service ongoing_tasks l
  end.
(** [Future::poll] *)
Definition poll (s : TasksState) (i : PollInput) : Poll * TasksState :=
  match collect_tasks s i with
  | Servicing ongoing_tasks finishing =>
      match service ongoing_tasks (joined i) with
      | TaskPanicked => (Panicked, Servicing ongoing_tasks finishing)
      | Failed err remaining => (Ready (ErrorOutput err remaining), Servicing [] finishing)
      | Left_ [] => if finishing then (Ready DoneOutput, Dead) else (Pending, Idle idle_timeout)
      | Left_ ongoing_tasks => (Pending, Servicing ongoing_tasks finishing)
      end
  | Idle sleep => if sleep && slept i then (Ready DoneOutput, Dead) else (Pending, Idle sleep)
  | Dead => (Ready DoneOutput, Dead)
  end.
(** Polls until the future is ready, or panics. *)
Fixpoint run_tasks (s : TasksState) (inputs : list PollInput) : Poll * TasksState :=
  match inputs with
  | [] => (Pending, s)
  | i :: inputs => match poll s i with (Pending, s) => run_tasks s inputs | r => r end
  end.

(** ** No task is lost *)

Definition ongoing (s : TasksState) : list nat := match s with Servicing l _ => l | _ => [] end.
Definition pulled (s : TasksState) (i : PollInput) : list nat := if polls_stream s then new_tasks i else [].
(** All tasks that were taken from the stream. *)
Fixpoint all_pulled (s : TasksState) (inputs : list PollInput) : list nat :=
  match inputs with
  | [] => []
  | i :: inputs => pulled s i ++ match poll s i with (Pending, s) => all_pulled s inputs | _ => [] end
  end.
Definition all_joined (inputs : list PollInput) : list nat := (inputs ≫= joined).*1.

Lemma collect_ongoing s i : ongoing (collect_tasks s i) = ongoing s ++ pulled s i.
Proof.
  unfold collect_tasks, pulled. destruct s as [l [|]|b|]; cbn; rewrite ?app_nil_r; try done. by destruct (new_tasks i).
Qed.
Lemma service_left l ts ts' : service ts l = Left_ ts' -> forall x, x ∈ ts -> x ∈ ts' \/ x ∈ l.*1.
Proof.
  revert ts. induction l as [|[t r] l IH]; intros ts; cbn [service]; [intros [= <-]; by left|]. case_bool_decide.
  - intros Hs x Hx. assert (service (filter (fun x => x <> t) ts) l = Left_ ts' -> x ∈ ts' \/ x ∈ ((t, r) :: l).*1) as Hgo.
    { intros H'. destruct (decide (x = t)) as [->|Hne]; [right; cbn; by left|]. destruct (IH _ H' x) as [?|?]; [by apply list_elem_of_filter|by left|right; by right]. }
    destruct r; [done|by apply Hgo|]. destruct (extract_err v); [done|]. by apply Hgo.
  - intros Hs x Hx. destruct (IH _ Hs x Hx); [by left|right; by right].
Qed.
Lemma service_failed l ts err rest : service ts l = Failed err rest ->
  (forall x, x ∈ ts -> x ∈ rest \/ x ∈ l.*1) /\ (forall x, x ∈ rest -> x ∈ ts) /\ exists t v, (t, JOk v) ∈ l /\ extract_err v = Some err.
Proof.
  revert ts. induction l as [|[t r] l IH]; intros ts; cbn [service]; [done|].
  assert (forall ts', (forall x, x ∈ ts -> x ∈ ts' \/ x = t) -> (forall x, x ∈ ts' -> x ∈ ts) -> service ts' l = Failed err rest ->
    (forall x, x ∈ ts -> x ∈ rest \/ x ∈ ((t, r) :: l).*1) /\ (forall x, x ∈ rest -> x ∈ ts) /\ exists t' v, (t', JOk v) ∈ (t, r) :: l /\ extract_err v = Some err) as Hgo.
  { intros ts' H1 H2 H3. destruct (IH _ H3) as (Ha & Hb & t' & v & Hin & Hv). split_and!.
    - intros x Hx. destruct (H1 x Hx) as [Hx'| ->]; [|right; cbn; by left]. destruct (Ha x Hx'); [by left|right; by right].
    - intros x Hx. by apply H2, Hb.
    - exists t', v. split; [by right|done]. }
  assert (forall x, x ∈ ts -> x ∈ filter (fun x => x <> t) ts \/ x = t) as Hf.
  { intros x Hx. destruct (decide (x = t)) as [->|]; [by right|]. left. by apply list_elem_of_filter. }
  assert (forall x, x ∈ filter (fun x => x <> t) ts -> x ∈ ts) as Hg by (by intros x [_ ?]%list_elem_of_filter).
  case_bool_decide; [|by apply Hgo; auto]. destruct r as [| |v]; [done|by apply Hgo|]. destruct (extract_err v) as [err'|] eqn:Hv; [|by apply Hgo].
  intros [= -> <-]. split_and!; [|done|exists t, v; split; [by left|done]]. intros x Hx. destruct (Hf x Hx) as [?| ->]; [by left|right; cbn; by left].
Qed.
Lemma poll_pending s i s' : poll s i = (Pending, s') -> forall x, x ∈ ongoing s ++ pulled s i -> x ∈ ongoing s' \/ x ∈ (joined i).*1.
Proof.
  unfold poll. rewrite <- collect_ongoing. destruct (collect_tasks s i) as [l f|b|]; [| |done].
  - destruct (service l (joined i)) as [[|t l']| |] eqn:Hs; try done; [destruct f; [done|]|]; intros [= <-] x Hx; destruct (service_left _ _ _ Hs x Hx); auto.
  - intros _ x Hx. by apply elem_of_nil in Hx.
Qed.
Lemma poll_done s i s' : poll s i = (Ready DoneOutput, s') -> forall x, x ∈ ongoing s ++ pulled s i -> x ∈ (joined i).*1.
Proof.
  unfold poll. rewrite <- collect_ongoing. destruct (collect_tasks s i) as [l f|b|].
  - destruct (service l (joined i)) as [[|t l']| |] eqn:Hs; try done. destruct f; [|done]. intros _ x Hx. destruct (service_left _ _ _ Hs x Hx) as [?%elem_of_nil|?]; done.
  - intros _ x Hx. by apply elem_of_nil in Hx.
  - intros _ x Hx. by apply elem_of_nil in Hx.
Qed.
Lemma poll_error s i err rest s' : poll s i = (Ready (ErrorOutput err rest), s') ->
  (forall x, x ∈ ongoing s ++ pulled s i -> x ∈ rest \/ x ∈ (joined i).*1) /\ exists t v, (t, JOk v) ∈ joined i /\ extract_err v = Some err.
Proof.
  unfold poll. rewrite <- collect_ongoing. destruct (collect_tasks s i) as [l f|b|]; [|by destruct (b && slept i)|done].
  destruct (service l (joined i)) as [[|t l']|err' rest'|] eqn:Hs; try done; [by destruct f|]. intros [= <- <- _].
  destruct (service_failed _ _ _ _ Hs) as (H1 & _ & H3). done.
Qed.

(** [tasks_driven]: no task of the stream is lost: when the future is done, every task taken from the stream was joined; when a task fails, the failure is that
    of a task, and every other task was joined or is among the ones that are handed back; and until then they are being driven. *)
Theorem tasks_driven inputs s' r (Hrun : run_tasks tasks_new inputs = (r, s')) : forall x, x ∈ all_pulled tasks_new inputs ->
  match r with
  | Pending => x ∈ ongoing s' \/ x ∈ all_joined inputs
  | Ready DoneOutput => x ∈ all_joined inputs
  | Ready (ErrorOutput err rest) => (x ∈ rest \/ x ∈ all_joined inputs) /\ exists i t v, i ∈ inputs /\ (t, JOk v) ∈ joined i /\ extract_err v = Some err
  | Panicked => True
  end.
Proof.
  assert (forall s x, x ∈ ongoing s ++ all_pulled s inputs -> run_tasks s inputs = (r, s') -> match r with
    | Pending => x ∈ ongoing s' \/ x ∈ all_joined inputs
    | Ready DoneOutput => x ∈ all_joined inputs
    | Ready (ErrorOutput err rest) => (x ∈ rest \/ x ∈ all_joined inputs) /\ exists i t v, i ∈ inputs /\ (t, JOk v) ∈ joined i /\ extract_err v = Some err
    | Panicked => True
    end) as Hall; [|intros x Hx; by apply (Hall tasks_new)]. clear Hrun. unfold all_joined.
  induction inputs as [|i inputs IH]; intros s x; cbn [all_pulled run_tasks].
  { rewrite app_nil_r. intros Hx [= <- <-]. by left. }
  cbn [mbind list_bind]. rewrite fmap_app. destruct (poll s i) as [p s1] eqn:Hp. rewrite app_assoc. intros Hx Hr. destruct p as [[|err rest]| |].
  - rewrite app_nil_r in Hx. injection Hr as <- <-. apply elem_of_app. left. by apply (poll_done _ _ _ Hp).
  - rewrite app_nil_r in Hx. injection Hr as <- <-. destruct (poll_error _ _ _ _ _ Hp) as [H1 (t & v & Hin & Hv)]. split; [|exists i, t, v; split; [by left|done]].
    destruct (H1 x Hx); [by left|right; apply elem_of_app; by left].
  - assert (x ∈ ongoing s1 ++ all_pulled s1 inputs \/ x ∈ (joined i).*1) as [Hx1|Hx1].
    { apply elem_of_app in Hx as [Hx|Hx]; [|left; apply elem_of_app; by right]. destruct (poll_pending _ _ _ Hp x Hx); [left; apply elem_of_app; by left|by right]. }
    + specialize (IH s1 x Hx1 Hr). destruct r as [[|err rest]| |]; [apply elem_of_app; by right| |destruct IH; [by left|right; apply elem_of_app; by right]|done].
      destruct IH as [Ho (j & t & v & Hj & Hv)]. split; [destruct Ho; [by left|right; apply elem_of_app; by right]|]. exists j, t, v. split; [by right|done].
    + destruct r as [[|err rest]| |]; [apply elem_of_app; by left| |right; apply elem_of_app; by left|done]. split; [right; apply elem_of_app; by left|].
      clear -Hr. revert s1 Hr. induction inputs as [|j inputs IH]; intros s1; cbn [run_tasks]; [done|]. destruct (poll s1 j) as [q s2] eqn:Hq. destruct q as [[|err' rest']| |]; try done.
      * intros [= -> -> _]. destruct (poll_error _ _ _ _ _ Hq) as [_ (t & v & Hin & Hv)]. exists j, t, v. split; [right; by left|done].
      * intros Hr. destruct (IH s2 Hr) as (k & t & v & Hk & Hv). exists k, t, v. split; [|done]. apply elem_of_cons in Hk as [->|Hk]; [by left|right; by right].
  - by injection Hr as <- <-.
Qed.

(** ** The end *)

Definition harmless (r : nat * Joined) : Prop := match r.2 with JPanic => False | JCancelled => True | JOk v => extract_err v = None end.
Lemma service_harmless l ts : Forall harmless l -> exists ts', service ts l = Left_ ts' /\ forall x, x ∈ ts' <-> x ∈ ts /\ x ∉ l.*1.
Proof.
  intros Hl. revert ts. induction Hl as [|[t r] l Hr _ IH]; intros ts; cbn [service].
  { exists ts. split; [done|]. intros x. split; [intros Hx; split; [done|apply not_elem_of_nil]|by intros [? _]]. }
  assert (forall ts1, (forall x, x ∈ ts1 <-> x ∈ ts /\ x <> t) -> exists ts', service ts1 l = Left_ ts' /\ forall x, x ∈ ts' <-> x ∈ ts /\ x ∉ ((t, r) :: l).*1) as Hgo.
  { intros ts1 H1. destruct (IH ts1) as (ts' & Hs & Ht). exists ts'. split; [done|]. intros x. rewrite Ht, H1. cbn. rewrite not_elem_of_cons. tauto. }
  case_bool_decide as Hin.
  - assert (forall x, x ∈ filter (fun x => x <> t) ts <-> x ∈ ts /\ x <> t) as Hf by (intros x; rewrite list_elem_of_filter; tauto).
    destruct r as [| |v]; cbn in Hr; [done|by apply Hgo|]. rewrite Hr. by apply Hgo.
  - apply Hgo. intros x. split; [|by intros [? _]]. intros Hx. split; [done|]. by intros ->.
Qed.
(** [finishing_ends]: once the stream has ended while tasks are running, the future is done as soon as these are, if none of them fails. *)
Theorem finishing_ends inputs : forall l, l <> [] -> Forall (fun i => Forall harmless (joined i)) inputs -> (forall x, x ∈ l -> x ∈ all_joined inputs) ->
  run_tasks (Servicing l true) inputs = (Ready DoneOutput, Dead).
Proof.
  induction inputs as [|i inputs IH]; intros l Hne Hh Hall.
  { destruct l as [|x l]; [done|]. specialize (Hall x ltac:(by left)). by apply elem_of_nil in Hall. }
  apply Forall_cons in Hh as [Hi Hh]. cbn [run_tasks]. unfold poll. cbn [collect_tasks polls_stream]. destruct (service_harmless _ l Hi) as (l' & -> & Hl').
  destruct l' as [|x l']; [done|]. apply IH; [done|done|]. intros y Hy. apply Hl' in Hy as [Hy Hn]. specialize (Hall y Hy). unfold all_joined in *. cbn [mbind list_bind] in Hall.
  rewrite fmap_app in Hall. by apply elem_of_app in Hall as [?|?].
Qed.
(** [idle_end_missed]: when the stream ends while nothing is running, that is not noticed: without a timeout, the future is never ready. *)
Theorem idle_end_missed inputs : Forall (fun i => new_tasks i = []) inputs -> run_tasks (Idle false) inputs = (Pending, Idle false).
Proof. induction 1 as [|i inputs Hi _ IH]; [done|]. cbn [run_tasks]. unfold poll. cbn [collect_tasks polls_stream]. by rewrite Hi. Qed.
End Tasks.

(** ** Examples *)

Module TasksExample.
(** Even numbers are failures. *)
Definition fails (v : nat) : option nat := if Nat.even v then Some v else None.
Definition two_polls : list (PollInput (T := nat)) := [MkPollInput [1; 2; 3] false [(2, JOk 5)] false; MkPollInput [4] true [(3, JOk 8)] false].
Lemma tasks_driven_witness : run_tasks fails true (tasks_new true) two_polls = (Ready (ErrorOutput 8 [1; 4]), Servicing [] true) /\
  (1 ∈ [1; 4] \/ 1 ∈ all_joined two_polls).
Proof.
  split; [reflexivity|]. assert (1 ∈ all_pulled fails true (tasks_new true) two_polls) as Hin by (vm_compute; left).
  destruct (tasks_driven fails true two_polls (Servicing [] true) (Ready (ErrorOutput 8 [1; 4])) eq_refl 1 Hin) as [Ho _]. exact Ho.
Defined.
End TasksExample.
