(* ===== verification/Include.v ===== *)
(** * Include files of working copies

    [librad/src/git/include.rs]: the file that gives a working copy a remote for each tracked peer, and [cli/lnk-identities/src/git/include.rs], which
    makes it from the persons those peers are.  The text of a URL is a parameter, and so is writing the file. *)
From stdpp Require Import base list.
From Stdlib Require Import NArith Lia.
From Stdlib Require String.
Import String.StringSyntax.
From S2P Require Import Prelude RefFormat RefName RefLike Scoped Keys UrnText LibradRef IdentityStore RemoteConfig.
Import Name.
#[local] Open Scope N_scope.

Inductive IncludeError := MissingRefspec.
Record Include (U : Type) : Type := MkInclude { inc_remotes : list (Remote U); inc_path : list N; inc_url : U }.
Arguments MkInclude {U} inc_remotes inc_path inc_url. Arguments inc_remotes {U} i. Arguments inc_path {U} i. Arguments inc_url {U} i.

Section Include.
Context {U MB : Type} `{Multibase MB}.
Context (url_to_string : U -> list N) (encode_id : U -> list N).

Definition include_new (path : list N) (url : U) : Include U := MkInclude [] path url.
(** [build_remote]; [expect]. *)
Definition remote_name (peer : PeerId) (handle : option (list N)) : outcome (list N) :=
  match handle with
  | Some handle => unwrap (res_ok (reflike_try_from (handle ++ 64 :: peer_default_encoding (peer_key peer))))
  | None => peer_into (MB := MB) peer
  end.
Definition build_remote (url : U) (peer : PeerId) (handle : option (list N)) : outcome (Remote U) :=
  name ← remote_name peer handle;
  src ← reference_pattern (Ns := list N) (heads None (Some peer));
  dst ← reference_pattern (Ns := list N) (heads None (Some name));
  Done (with_fetchspecs [MkRefspec src dst ForceTrue] (remote_new url name)).
Definition add_remote (url : U) (peer : PeerId) (handle : option (list N)) (i : Include U) : outcome (Include U) :=
  r ← build_remote url peer handle; Done (MkInclude (inc_remotes i ++ [r]) (inc_path i) (inc_url i)).
Fixpoint build_remotes (url : U) (tracked : list (option (list N) * PeerId)) : outcome (list (Remote U)) :=
  match tracked with
  | [] => Done []
  | (handle, peer) :: tracked => r ← build_remote url peer handle; rs ← build_remotes url tracked; Done (r :: rs)
  end.
Definition from_tracked_persons (path : list N) (url : U) (tracked : list (option (list N) * PeerId)) : outcome (Include U) :=
  rs ← build_remotes url tracked; Done (MkInclude rs path url).

(** What [save] writes of a remote, in lines. *)
Definition header (name : list N) : list N := str "[remote " ++ 34 :: name ++ 34 :: str "]".
Definition remote_lines (r : Remote U) : list (list N) :=
  header (rm_name r) :: (9 :: str "url = " ++ url_to_string (rm_url r)) ::
  map (fun s => 9 :: str "fetch = " ++ refspec_to_string s) (rm_fetchspecs r) ++ map (fun s => 9 :: str "push = " ++ refspec_to_string s) (rm_pushspecs r).
Definition write_lines (l : list (list N)) : list N := concat (map (fun s => s ++ [10]) l).
(** [save]: the text that replaces the file, or nothing when a remote has no refspec. *)
Fixpoint include_text (rs : list (Remote U)) : result IncludeError (list N) :=
  match rs with
  | [] => Ok []
  | r :: rs => match rm_fetchspecs r with
               | [] => Err MissingRefspec
               | _ => t ← include_text rs; Ok (write_lines (remote_lines r) ++ t)
               end
  end.
(** [Path::join]: no second separator. *)
Definition file_path (i : Include U) : list N :=
  inc_path i ++ (if bool_decide (last (inc_path i) = Some slash \/ inc_path i = []) then [] else [slash]) ++ encode_id (inc_url i) ++ str ".inc".
(** [update] of [lnk-identities]: the handles of the tracked peers that are not the local one, by the names of the persons they are; a
    status has the name of the person. *)
Fixpoint handles (tracked : list (IdentityStore.Peer (Status (list N)))) : result NameError (list (option (list N) * PeerId)) :=
  match tracked with
  | [] => Ok []
  | p :: tracked => match peer_remote p with
                    | None => handles tracked
                    | Some (peer, NotReplicated) => rest ← handles tracked; Ok ((None, MkPeerId peer) :: rest)
                    | Some (peer, Replicated name) => handle ← reflike_try_from name; rest ← handles tracked; Ok ((Some handle, MkPeerId peer) :: rest)
                    end
  end.
End Include.

(** ** What is written *)

Lemma split_lines l t : Forall (fun s => 10 ∉ s) l -> split_on 10 (write_lines l ++ t) = l ++ split_on 10 t.
Proof.
  induction 1 as [|s l Hs _ IH]; [done|]. unfold write_lines in *. cbn [map concat app]. rewrite <- !app_assoc. cbn [app]. by rewrite split_on_app, split_on_no, IH.
Qed.
Lemma refstr_no_newline s : is_refstr s -> 10 ∉ s.
Proof. intros Hs Hin. by pose proof (refstr_allowed s 10 Hs Hin ltac:(done)). Qed.

Section Laws.
Context {U MB : Type} `{MultibaseLaws MB}.
Context (url_to_string : U -> list N) (Hurl : forall u, 10 ∉ url_to_string u).

Lemma reflike_done s r : unwrap (res_ok (reflike_try_from s)) = Done r -> r = s /\ is_refstr s.
Proof. destruct (reflike_try_from s) as [t|] eqn:Ht; [|done]. intros [= <-]. by apply reflike_try_from_ok. Qed.
(** The heads of a remote, as a refspec side. *)
Lemma heads_pattern {Rm} `{IntoRefLike Rm} (rm : Rm) p : reference_pattern (Ns := list N) (heads None (Some rm)) = Done p ->
  exists s, into_reflike rm = Done s /\ p = str "refs/remotes/" ++ s ++ str "/heads/*".
Proof.
  unfold reference_pattern, heads. cbn [namespace remote category name]. intros (r & [= <-] & (r' & (s & Hs & [= <-])%out_bind_done & (c & [= <-] & [= <-])%out_bind_done)%out_bind_done)%out_bind_done.
  exists s. split; [done|]. unfold with_pattern_suffix, reflike_join. rewrite <- !app_assoc. cbn [app]. rewrite <- ?app_assoc. reflexivity.
Qed.
(** The remote of a peer: fetching the heads of the peer into references of its own. *)
Lemma build_remote_ok url peer handle (r : Remote U) : build_remote (MB := MB) url peer handle = Done r ->
  is_refstr (rm_name r) /\ rm_url r = url /\ rm_name r = match handle with Some h => h ++ [64] | None => [] end ++ peer_default_encoding (peer_key peer) /\
  rm_fetchspecs r = [MkRefspec (str "refs/remotes/" ++ peer_default_encoding (peer_key peer) ++ str "/heads/*") (str "refs/remotes/" ++ rm_name r ++ str "/heads/*") ForceTrue] /\
  rm_pushspecs r = [].
Proof.
  unfold build_remote. intros (n & Hn & Hr)%out_bind_done. assert (is_refstr n /\ n = match handle with Some h => h ++ [64] | None => [] end ++ peer_default_encoding (peer_key peer)) as [Hs Hnn].
  { destruct handle as [h|]; unfold remote_name, peer_into in Hn; apply reflike_done in Hn as [-> ?]; (split; [done|]); [by rewrite <- app_assoc|done]. }
  apply out_bind_done in Hr as (src & (p & Hp & ->)%heads_pattern & (dst & (d & [= <-] & ->)%heads_pattern & [= <-])%out_bind_done).
  unfold into_reflike, peer_into in Hp. apply reflike_done in Hp as [-> _]. cbn [rm_name rm_url rm_fetchspecs rm_pushspecs with_fetchspecs remote_new]. by rewrite <- Hnn.
Qed.
Lemma remote_lines_fine url peer handle (r : Remote U) : build_remote (MB := MB) url peer handle = Done r -> Forall (fun s => 10 ∉ s) (remote_lines url_to_string r).
Proof.
  intros Hr. destruct (build_remote_ok _ _ _ _ Hr) as (Hn & Hu & _ & Hf & Hp). apply refstr_no_newline in Hn.
  assert (10 ∉ peer_default_encoding (MB := MB) (peer_key peer)) as Hk by apply refstr_no_newline, base32z_component.
  assert (forall a b : list N, 10 ∉ a -> 10 ∉ b -> 10 ∉ a ++ b) as Happ by (intros a b Ha Hb [?|?]%elem_of_app; done).
  assert (forall a : list N, bool_decide (10 ∉ a) = true -> 10 ∉ a) as Hlit by (intros a Ha; by apply bool_decide_eq_true in Ha).
  unfold remote_lines. rewrite Hf, Hp. repeat constructor.
  - unfold header. apply Happ; [by apply Hlit|]. change (34 :: rm_name r ++ 34 :: str "]") with ([34] ++ rm_name r ++ 34 :: str "]"). apply Happ; [by apply Hlit|]. apply Happ; [done|by apply Hlit].
  - change (9 :: str "url = " ++ url_to_string (rm_url r)) with ((9 :: str "url = ") ++ url_to_string (rm_url r)). apply Happ; [by apply Hlit|apply Hurl].
  - cbn [map]. unfold refspec_to_string. cbn [src dst force as_bool]. repeat match goal with |- 10 ∉ ?x :: ?l => change (x :: l) with ([x] ++ l); apply Happ; [by apply Hlit|] | |- 10 ∉ _ ++ _ => apply Happ | |- 10 ∉ str _ => by apply Hlit end; first [done | by apply Hlit].
Qed.

(** [include_exact]: the file has, for each tracked peer in order, exactly a section, the URL and one refspec, each on a line of its own: no name makes a line
    of its own. *)
Theorem include_exact path url tracked inc (Hinc : from_tracked_persons (MB := MB) path url tracked = Done inc) : exists t,
  include_text url_to_string (inc_remotes inc) = Ok t /\
  split_on 10 t = flat_map (fun x : option (list N) * PeerId =>
    let peer := peer_default_encoding (peer_key x.2) in
    let name := match x.1 with Some h => h ++ [64] | None => [] end ++ peer in
    [header name; 9 :: str "url = " ++ url_to_string url;
     9 :: str "fetch = " ++ 43 :: (str "refs/remotes/" ++ peer ++ str "/heads/*") ++ 58 :: str "refs/remotes/" ++ name ++ str "/heads/*"]) tracked ++ [[]].
Proof.
  apply out_bind_done in Hinc as (rs & Hrs & [= <-]). cbn [inc_remotes]. revert rs Hrs. induction tracked as [|[handle peer] tracked IH]; intros rs; cbn [build_remotes].
  { intros [= <-]. by exists []. }
  intros (r & Hr & (rs' & Hrs & [= <-])%out_bind_done)%out_bind_done. destruct (IH rs' Hrs) as (t & Ht & Hs).
  pose proof (remote_lines_fine _ _ _ _ Hr) as Hfine. destruct (build_remote_ok _ _ _ _ Hr) as (_ & Hu & Hn & Hf & Hp).
  exists (write_lines (remote_lines url_to_string r) ++ t). cbn [include_text]. rewrite Hf, Ht. split; [done|]. rewrite split_lines, Hs by done. cbn [flat_map]. rewrite <- app_assoc. f_equal.
  unfold remote_lines. rewrite Hu, Hf, Hp, Hn. done.
Qed.
End Laws.

(** ** Examples *)

Module IncludeExample.
#[local] Existing Instance ZBase32.z_multibase.
#[local] Existing Instance ZBase32.z_multibase_laws.
Definition peer_three : PeerId := MkPeerId (repeat 3 32).
Definition plain_url (_ : unit) : list N := str "rad://x.git".
Lemma include_exact_witness : exists inc t, from_tracked_persons (MB := unit) [47] tt [(Some (str "kim"), peer_three); (None, peer_three)] = Done inc /\
  include_text plain_url (inc_remotes inc) = Ok t /\ length (split_on 10 t) = 7%nat.
Proof.
  destruct (from_tracked_persons (MB := unit) [47] tt [(Some (str "kim"), peer_three); (None, peer_three)]) as [inc|] eqn:Hi; [|vm_compute in Hi; discriminate Hi].
  destruct (include_exact (MB := unit) plain_url ltac:(intros u; apply (bool_decide_unpack (10 ∉ str "rad://x.git")); reflexivity) [47] tt _ inc Hi) as (t & Ht & Hs).
  exists inc, t. split; [reflexivity|]. split; [exact Ht|]. rewrite Hs. reflexivity.
Defined.
(** [quote_ends_section]: a name may have a quote, and what follows it is then a variable of the section, up to the comment sign. *)
Definition quoted : list N := str "x" ++ 34 :: str "]vcs=evil;".
Example quote_ends_section : is_refstr quoted /\ handles [PeerRemote (repeat 3 32) (Replicated quoted)] = Ok [(Some quoted, peer_three)] /\
  exists n, remote_name (MB := unit) peer_three (Some quoted) = Done n /\ exists r, header n = header (str "x") ++ str "vcs=evil;" ++ r.
Proof. split; [reflexivity|]. split; [reflexivity|]. eexists. split; [vm_compute; reflexivity|]. eexists. reflexivity. Qed.
(** [blank_in_name]: one tracked person with a blank in the name, and there is no file for any of them. *)
Example blank_in_name : exists e, handles [PeerRemote (repeat 3 32) (Replicated (str "kim")); PeerRemote (repeat 4 32) (Replicated (str "Kim B"))] = Err e.
Proof. eexists. reflexivity. Qed.
End IncludeExample.
