(* ===== verification/MessageIo.v ===== *)
(** * Messages on the socket of a node

    [cli/linkd-lib/src/api/]: [io.rs], [messages.rs], [wire_types.rs], [wire_types/request.rs], [wire_types/response.rs], [announce.rs] and
    [request_pull.rs].  Requests and responses are headers and a payload, both in CBOR, behind their length in four bytes.  A
    reader may be dropped while it waits, and goes on where it was when it is called again.  What a socket has next is a list of events;
    CBOR, with what is derived for structs, is the parameter [MiniCbor]. *)
From stdpp Require Import base list.
From Stdlib Require Import NArith Lia.
From S2P Require Import Prelude Effects.
#[local] Open Scope N_scope.

(** minicbor: what is encoded is decoded from the front of a text. *)
Class MiniCbor (A : Type) := { cbor_encode : A -> list N; cbor_decode : list N -> option (A * list N) }.
Class MiniCborLaws (A : Type) `{MiniCbor A} (fits : A -> Prop) : Prop := {
  cbor_read_back a r : fits a -> cbor_decode (cbor_encode a ++ r) = Some (a, r);
  cbor_nonempty a : cbor_encode a <> [];
}.
(** [minicbor::decode]; what follows is ignored. *)
Definition minicbor_decode {A} `{MiniCbor A} (bs : list N) : option A := fst <$> cbor_decode bs.
Lemma minicbor_read_back {A} `{MiniCborLaws A fits} (a : A) : fits a -> minicbor_decode (cbor_encode a) = Some a.
Proof. intros Ha. unfold minicbor_decode. rewrite <- (app_nil_r (cbor_encode a)), cbor_read_back by done. done. Qed.

(** ** Messages *)

Record AnnounceRequest (Urn Rev : Type) : Type := MkAnnounceRequest { ar_urn : Urn; ar_rev : Rev }.
Arguments MkAnnounceRequest {Urn Rev} ar_urn ar_rev. Arguments ar_urn {Urn Rev} a. Arguments ar_rev {Urn Rev} a.
Record PullRequest (Urn Peer Addr : Type) : Type := MkPullRequest { pr_urn : Urn; pr_peer : Peer; pr_addrs : list Addr }.
Arguments MkPullRequest {Urn Peer Addr} pr_urn pr_peer pr_addrs.
Arguments pr_urn {Urn Peer Addr} p. Arguments pr_peer {Urn Peer Addr} p. Arguments pr_addrs {Urn Peer Addr} p.
(** [into_gossip]: URN, revision and origin. *)
Definition into_gossip {Urn Rev Peer : Type} (r : AnnounceRequest Urn Rev) (peer : Peer) : Urn * option Rev * option Peer :=
  (ar_urn r, Some (ar_rev r), Some peer).

Inductive RequestMode := FireAndForget | ReportProgress.
Inductive RequestPayload (An Pu : Type) : Type := ReqAnnounce (a : An) | ReqPull (p : Pu).
Arguments ReqAnnounce {An Pu} a. Arguments ReqPull {An Pu} p.
Record ApiRequest (An Pu : Type) : Type := MkApiRequest { rq_agent : list N; rq_mode : RequestMode; rq_payload : RequestPayload An Pu }.
Arguments MkApiRequest {An Pu} rq_agent rq_mode rq_payload.
Arguments rq_agent {An Pu} a. Arguments rq_mode {An Pu} a. Arguments rq_payload {An Pu} a.
Inductive ResponsePayload (P : Type) : Type := RespAck | RespProgress (s : list N) | RespError (s : list N) | RespSuccess (p : P).
Arguments RespAck {P}. Arguments RespProgress {P} s. Arguments RespError {P} s. Arguments RespSuccess {P} p.
Record ApiResponse (Id P : Type) : Type := MkApiResponse { rs_id : Id; rs_payload : ResponsePayload P }.
Arguments MkApiResponse {Id P} rs_id rs_payload. Arguments rs_id {Id P} a. Arguments rs_payload {Id P} a.
(** [SomeSuccess], which is encoded as what it has. *)
Inductive SomeSuccess (An Pu : Type) : Type := SuccAnnounce (a : An) | SuccPull (p : Pu).
Arguments SuccAnnounce {An Pu} a. Arguments SuccPull {An Pu} p.
Definition some_success_encode {An Pu : Type} `{MiniCbor An} `{MiniCbor Pu} (s : SomeSuccess An Pu) : list N :=
  match s with SuccAnnounce a => cbor_encode a | SuccPull p => cbor_encode p end.

(** ** Wire types *)

Record Message (Headers : Type) : Type := MkMessage { msg_headers : Headers; msg_payload : option (list N) }.
Arguments MkMessage {Headers} msg_headers msg_payload. Arguments msg_headers {Headers} m. Arguments msg_payload {Headers} m.

Inductive WireMode := WireFireAndForget | WireReportProgress | WireModeUnknown (n : N).
Inductive ReqKind := KindAnnounce | KindRequestPull | ReqKindUnknown (n : N).
Inductive RespKind := KindAck | KindSuccess | KindProgress | KindError | RespKindUnknown (n : N).
(** [Encode] and [Decode]: a [u8]. *)
Definition mode_u8 (m : WireMode) : N := match m with WireFireAndForget => 1 | WireReportProgress => 2 | WireModeUnknown n => n end.
Definition mode_of_u8 (n : N) : WireMode := match n with 1 => WireFireAndForget | 2 => WireReportProgress | _ => WireModeUnknown n end.
Definition req_kind_u8 (k : ReqKind) : N := match k with KindAnnounce => 1 | KindRequestPull => 5 | ReqKindUnknown n => n end.
Definition req_kind_of_u8 (n : N) : ReqKind := match n with 1 => KindAnnounce | 5 => KindRequestPull | _ => ReqKindUnknown n end.
Definition resp_kind_u8 (k : RespKind) : N :=
  match k with KindAck => 1 | KindSuccess => 2 | KindError => 3 | KindProgress => 4 | RespKindUnknown n => n end.
Definition resp_kind_of_u8 (n : N) : RespKind :=
  match n with 1 => KindAck | 2 => KindSuccess | 3 => KindError | 4 => KindProgress | _ => RespKindUnknown n end.
Definition wire_mode (m : RequestMode) : WireMode := match m with FireAndForget => WireFireAndForget | ReportProgress => WireReportProgress end.

(** Headers, in the maps that are derived for their fields. *)
Record ReqHeaders := MkReqHeaders { rh_agent : list N; rh_kind : ReqKind; rh_mode : WireMode }.
Record RespHeaders := MkRespHeaders { sh_id : list N; sh_kind : RespKind }.
#[export] Instance req_headers_cbor `{MiniCbor (list N * N * N)} : MiniCbor ReqHeaders := {|
  cbor_encode h := cbor_encode (rh_agent h, req_kind_u8 (rh_kind h), mode_u8 (rh_mode h));
  cbor_decode bs := '(ua, k, m, r) ← cbor_decode bs; Some (MkReqHeaders ua (req_kind_of_u8 k) (mode_of_u8 m), r);
|}.
#[export] Instance resp_headers_cbor `{MiniCbor (list N * N)} : MiniCbor RespHeaders := {|
  cbor_encode h := cbor_encode (sh_id h, resp_kind_u8 (sh_kind h));
  cbor_decode bs := '(i, k, r) ← cbor_decode bs; Some (MkRespHeaders i (resp_kind_of_u8 k), r);
|}.

(** [DecodeError] of both; what CBOR says is left out. *)
Inductive DecodeError := BadPayloadEncoding | MissingPayload | UnknownKind (n : N) | UnknownRequestMode (n : N).
Definition mode_try_from (m : WireMode) : result DecodeError RequestMode :=
  match m with
  | WireFireAndForget => Ok FireAndForget
  | WireReportProgress => Ok ReportProgress
  | WireModeUnknown n => Err (UnknownRequestMode n)
  end.

Section Wire.
Context {An Pu : Type} `{MiniCbor An} `{MiniCbor Pu}.
Definition request_to_wire (r : ApiRequest An Pu) : Message ReqHeaders :=
  let '(payload, kind) := match rq_payload r with
                          | ReqAnnounce a => (cbor_encode a, KindAnnounce)
                          | ReqPull p => (cbor_encode p, KindRequestPull)
                          end in
  MkMessage (MkReqHeaders (rq_agent r) kind (wire_mode (rq_mode r))) (Some payload).
Definition request_from_wire (m : Message ReqHeaders) : result DecodeError (ApiRequest An Pu) :=
  bytes ← ok_or (msg_payload m) MissingPayload;
  payload ← (match rh_kind (msg_headers m) with
             | KindAnnounce => a ← ok_or (minicbor_decode bytes) BadPayloadEncoding; Ok (ReqAnnounce a)
             | KindRequestPull => p ← ok_or (minicbor_decode bytes) BadPayloadEncoding; Ok (ReqPull p)
             | ReqKindUnknown n => Err (UnknownKind n)
             end);
  mode ← mode_try_from (rh_mode (msg_headers m));
  Ok (MkApiRequest (rh_agent (msg_headers m)) mode payload).
End Wire.

(** Texts of progress and errors are encoded as strings. *)
Section WireResponse.
Context {P : Type} `{MiniCbor (list N)}.
Definition response_to_wire (encode : P -> list N) (r : ApiResponse (list N) P) : Message RespHeaders :=
  let '(kind, payload) := match rs_payload r with
                          | RespAck => (KindAck, None)
                          | RespSuccess p => (KindSuccess, Some (encode p))
                          | RespProgress s => (KindProgress, Some (cbor_encode s))
                          | RespError s => (KindError, Some (cbor_encode s))
                          end in
  MkMessage (MkRespHeaders (rs_id r) kind) payload.
Definition response_from_wire `{MiniCbor P} (m : Message RespHeaders) : result DecodeError (ApiResponse (list N) P) :=
  payload ← (match sh_kind (msg_headers m) with
             | KindAck => Ok RespAck
             | KindError => bytes ← ok_or (msg_payload m) MissingPayload; s ← ok_or (minicbor_decode bytes) BadPayloadEncoding; Ok (RespError s)
             | KindProgress => bytes ← ok_or (msg_payload m) MissingPayload; s ← ok_or (minicbor_decode bytes) BadPayloadEncoding; Ok (RespProgress s)
             | KindSuccess => bytes ← ok_or (msg_payload m) MissingPayload; p ← ok_or (minicbor_decode bytes) BadPayloadEncoding; Ok (RespSuccess p)
             | RespKindUnknown n => Err (UnknownKind n)
             end);
  Ok (MkApiResponse (sh_id (msg_headers m)) payload).
End WireResponse.

(** ** Writing *)

Definition be_bytes32 (n : N) : list N := [n / 16777216 mod 256; n / 65536 mod 256; n / 256 mod 256; n mod 256].
Definition of_be_bytes32 (bs : list N) : N := foldl (fun n b => 256 * n + b) 0 bs.

(** [serialize]: the subtraction is on the length modulo 2^32. *)
Definition serialize {E} `{MiniCbor E} (m : Message E) : outcome (list N) :=
  let buffer := replicate 4 0 ++ cbor_encode (msg_headers m) ++ default [] (msg_payload m) in
  let len := N.of_nat (length buffer) mod 4294967296 in
  if len <? 4 then Panic else Done (be_bytes32 (len - 4) ++ drop 4 buffer).
(** How much a call of [write] takes, or that it fails. *)
Inductive WriteError := WriteZero | WriteIo.
Fixpoint write_loop (takes : list (option nat)) (buffer : list N) : result WriteError unit * list N :=
  match buffer, takes with
  | [], _ => (Ok tt, [])
  | _, [] => (Ok tt, buffer)
  | _, None :: _ => (Err WriteIo, [])
  | _, Some n :: takes =>
      let n := Nat.min n (length buffer) in
      if bool_decide (n = 0%nat) then (Err WriteZero, [])
      else let '(r, written) := write_loop takes (drop n buffer) in (r, take n buffer ++ written)
  end.
(** The result and what is on the socket then. *)
Definition write_message {E} `{MiniCbor E} (takes : list (option nat)) (m : Message E) : outcome (result WriteError unit * list N) :=
  buffer ← serialize m; Done (write_loop takes buffer).

(** ** Reading *)

Inductive ReadState := ReadLen (buf : list N) (o : nat) | ReadVal (o : nat).
Record MessageReader := MkReader { rd_buffer : list N; rd_state : ReadState }.
Definition read_state_new : ReadState := ReadLen (replicate 4 0) 0.
Definition reader_new : MessageReader := MkReader [] read_state_new.

(** What comes next: bytes, an error, or nothing yet, at which the call is dropped; then the other side has closed. *)
Inductive SockEvent := Arrived (bs : list N) | SockFailed | NothingYet.
Inductive ReadPoll := ReadReady (bs : list N) (src : list SockEvent) | ReadFailed (src : list SockEvent) | ReadPending (src : list SockEvent).
Definition sock_read (room : nat) (src : list SockEvent) : ReadPoll :=
  match src with
  | [] => ReadReady [] []
  | Arrived bs :: src => ReadReady (take room bs) (if (room <? length bs)%nat then Arrived (drop room bs) :: src else src)
  | SockFailed :: src => ReadFailed src
  | NothingYet :: src => ReadPending src
  end.
Definition fill (buf : list N) (o : nat) (bs : list N) : list N := take o buf ++ bs ++ drop (o + length bs) buf.

Inductive IoError := UnexpectedEof | IoFailed | DecodeFailed.
Inductive Call (A : Type) : Type :=
| CallReturned (r : A) (rd : MessageReader) (src : list SockEvent)
| CallDropped (rd : MessageReader) (src : list SockEvent)
| CallGoesOn.
Arguments CallReturned {A} r rd src. Arguments CallDropped {A} rd src. Arguments CallGoesOn {A}.

Section Reader.
Context {E : Type} `{MiniCbor E}.

Definition parse (buffer : list N) : option (Message E) :=
  '(headers, rest) ← cbor_decode buffer; Some (MkMessage headers (match rest with [] => None | _ => Some rest end)).
(** [read_message], as many rounds of it. *)
Fixpoint read_loop (fuel : nat) (rd : MessageReader) (src : list SockEvent) : Call (result IoError (option (Message E))) :=
  match fuel with
  | O => CallGoesOn
  | S fuel =>
      match rd_state rd with
      | ReadLen buf 4 => read_loop fuel (MkReader (replicate (N.to_nat (of_be_bytes32 buf)) 0) (ReadVal 0)) src
      | ReadLen buf o =>
          match sock_read (4 - o) src with
          | ReadPending src => CallDropped rd src
          | ReadFailed src => CallReturned (Err IoFailed) rd src
          | ReadReady [] src => CallReturned (Ok None) rd src
          | ReadReady bs src => read_loop fuel (MkReader (rd_buffer rd) (ReadLen (fill buf o bs) (o + length bs))) src
          end
      | ReadVal o =>
          if (length (rd_buffer rd) <=? o)%nat
          then CallReturned (match parse (rd_buffer rd) with Some m => Ok (Some m) | None => Err DecodeFailed end) (MkReader (rd_buffer rd) read_state_new) src
          else match sock_read (length (rd_buffer rd) - o) src with
               | ReadPending src => CallDropped rd src
               | ReadFailed src => CallReturned (Err IoFailed) rd src
               | ReadReady [] src => CallReturned (Err UnexpectedEof) rd src
               | ReadReady bs src => read_loop fuel (MkReader (fill (rd_buffer rd) o bs) (ReadVal (o + length bs))) src
               end
      end
  end.
(** The bytes and events that are left; each round but two takes one. *)
Definition event_size (e : SockEvent) : nat := match e with Arrived bs => S (length bs) | _ => 1 end.
Definition sock_size (src : list SockEvent) : nat := sum_list (map event_size src).
Definition read_message (rd : MessageReader) (src : list SockEvent) : Call (result IoError (option (Message E))) := read_loop (3 + sock_size src) rd src.
End Reader.

(** [process_recv_request], [process_recv_response]: every error is one of decoding. *)
Inductive SocketTransportError := TransportIo | TransportDecodeFailed.
Definition process_recv {W A} (try_from : W -> result DecodeError A) (r : result IoError (option W)) : result SocketTransportError (option A) :=
  match r with
  | Err _ => Err TransportDecodeFailed
  | Ok None => Ok None
  | Ok (Some w) => match try_from w with Ok a => Ok (Some a) | Err _ => Err TransportDecodeFailed end
  end.
Definition call_map {A B} (f : A -> B) (c : Call A) : Call B :=
  match c with CallReturned r rd src => CallReturned (f r) rd src | CallDropped rd src => CallDropped rd src | CallGoesOn => CallGoesOn end.
Definition recv_request {An Pu} `{MiniCbor (list N * N * N)} `{MiniCbor An} `{MiniCbor Pu} (rd : MessageReader) (src : list SockEvent)
  : Call (result SocketTransportError (option (ApiRequest An Pu))) :=
  call_map (process_recv request_from_wire) (read_message rd src).
Definition recv_response {P} `{MiniCbor (list N * N)} `{MiniCbor (list N)} `{MiniCbor P} (rd : MessageReader) (src : list SockEvent)
  : Call (result SocketTransportError (option (ApiResponse (list N) P))) :=
  call_map (process_recv response_from_wire) (read_message rd src).
Definition send_request {An Pu} `{MiniCbor (list N * N * N)} `{MiniCbor An} `{MiniCbor Pu} (takes : list (option nat)) (r : ApiRequest An Pu) :=
  write_message takes (request_to_wire r).
Definition send_response {P} `{MiniCbor (list N * N)} `{MiniCbor (list N)} (encode : P -> list N) (takes : list (option nat)) (r : ApiResponse (list N) P) :=
  write_message takes (response_to_wire encode r).

(** ** Frames *)

Lemma of_be_bytes n : n < 4294967296 -> of_be_bytes32 (be_bytes32 n) = n.
Proof.
  intros Hn. unfold of_be_bytes32, be_bytes32. cbn [foldl].
  assert (n / 65536 = n / 256 / 256) as H2 by (rewrite N.Div0.div_div; f_equal; lia).
  assert (n / 16777216 = n / 256 / 256 / 256) as H3 by (rewrite !N.Div0.div_div; f_equal; lia).
  rewrite H2, H3. assert (n / 256 / 256 / 256 < 256) as Hq by (rewrite !N.Div0.div_div; apply N.Div0.div_lt_upper_bound; lia).
  rewrite (N.mod_small (n / 256 / 256 / 256)) by done.
  pose proof (N.div_mod' n 256). pose proof (N.div_mod' (n / 256) 256). pose proof (N.div_mod' (n / 256 / 256) 256). lia.
Qed.
Lemma be_bytes32_inj m n : m < 4294967296 -> n < 4294967296 -> be_bytes32 m = be_bytes32 n -> m = n.
Proof. intros Hm Hn He. by rewrite <- (of_be_bytes m), <- (of_be_bytes n), He. Qed.

Definition frame (body : list N) : list N := be_bytes32 (N.of_nat (length body)) ++ body.
Definition short (body : list N) : Prop := N.of_nat (length body) + 4 < 4294967296.
Definition body_of {E} `{MiniCbor E} (m : Message E) : list N := cbor_encode (msg_headers m) ++ default [] (msg_payload m).

Lemma serialize_frame {E} `{MiniCbor E} (m : Message E) : short (body_of m) -> serialize m = Done (frame (body_of m)).
Proof.
  intros Hs. unfold serialize. fold (body_of m). change (replicate 4 0 ++ body_of m) with (0 :: 0 :: 0 :: 0 :: body_of m). cbn [length drop].
  unfold short in Hs. rewrite N.mod_small by lia. rewrite (proj2 (N.ltb_ge _ _)) by lia. unfold frame. do 3 f_equal. lia.
Qed.
Lemma write_loop_ok takes buffer written : write_loop takes buffer = (Ok tt, written) -> written = buffer.
Proof.
  revert buffer written. induction takes as [|[n|] takes IH]; intros [|b buffer] written; try by intros [= <-].
  cbn [write_loop]. case_bool_decide; [done|]. destruct (write_loop takes _) as [r w] eqn:Hw. intros [= -> <-]. apply IH in Hw as ->. apply take_drop.
Qed.
Lemma parse_body {E} `{MiniCborLaws E fits} (m : Message E) : fits (msg_headers m) -> msg_payload m <> Some [] -> parse (body_of m) = Some m.
Proof.
  intros Hf Hp. unfold parse, body_of. rewrite cbor_read_back by done. destruct m as [h [[|b p]|]]; done.
Qed.

(** ** The reader, against the bytes it took *)

Definition bytes_of (e : SockEvent) : list N := match e with Arrived bs => bs | _ => [] end.
Definition flat (src : list SockEvent) : list N := concat (map bytes_of src).
Definition drops (src : list SockEvent) : nat := sum_list (map (fun e => match e with NothingYet => 1%nat | _ => O end) src).
(** Bytes arrive, sooner or later, and no error. *)
Definition good (src : list SockEvent) : Prop := Forall (fun e => match e with Arrived bs => bs <> [] | SockFailed => False | NothingYet => True end) src.

Definition pending (rd : MessageReader) : list N :=
  match rd_state rd with ReadLen buf o => take o buf | ReadVal o => be_bytes32 (N.of_nat (length (rd_buffer rd))) ++ take o (rd_buffer rd) end.
Definition reader_ok (rd : MessageReader) : Prop :=
  match rd_state rd with
  | ReadLen buf o => length buf = 4%nat /\ (o <= 4)%nat
  | ReadVal o => (o <= length (rd_buffer rd))%nat /\ short (rd_buffer rd)
  end.

Lemma take_fill buf o bs : (o <= length buf)%nat -> take (o + length bs) (fill buf o bs) = take o buf ++ bs.
Proof.
  intros Ho. unfold fill. rewrite app_assoc, take_app_le, take_ge; [done| |]; rewrite length_app, length_take; lia.
Qed.
Lemma length_fill buf o bs : (o + length bs <= length buf)%nat -> length (fill buf o bs) = length buf.
Proof. intros Ho. unfold fill. rewrite !length_app, length_take, length_drop. lia. Qed.

Lemma sock_read_good room src : good src -> (0 < room)%nat ->
  match sock_read room src with
  | ReadReady [] src' => src = [] /\ src' = []
  | ReadReady bs src' => bs ++ flat src' = flat src /\ good src' /\ (length bs <= room)%nat /\ (sock_size src' < sock_size src)%nat /\ drops src' = drops src
  | ReadPending src' => flat src' = flat src /\ good src' /\ drops src = S (drops src')
  | ReadFailed _ => False
  end.
Proof.
  intros Hg Hr. destruct src as [|[bs| |] src]; [done| |by apply Forall_cons in Hg as [? _]|]; apply Forall_cons in Hg as [Hb Hg]; [|done].
  cbn [sock_read]. destruct bs as [|b bs]; [done|]. destruct room as [|room]; [lia|]. cbn [take drop].
  destruct (S room <? length (b :: bs))%nat eqn:Hl.
  - apply Nat.ltb_lt in Hl. split_and!.
    + unfold flat. cbn [map concat bytes_of app]. by rewrite app_assoc, take_drop.
    + constructor; [|done]. intros Hd. apply (f_equal length) in Hd. rewrite length_drop in Hd. cbn in Hd, Hl. lia.
    + cbn. rewrite length_take. lia.
    + unfold sock_size. cbn [map sum_list event_size length] in *. rewrite length_drop. cbn in Hl |- *. lia.
    + done.
  - split_and!.
    + apply Nat.ltb_ge in Hl. cbn in Hl. rewrite (take_ge bs) by lia. done.
    + done.
    + cbn. rewrite length_take. lia.
    + unfold sock_size. cbn. lia.
    + done.
Qed.

Lemma of_be_pending buf src body rest : length buf = 4%nat -> short body -> buf ++ src = frame body ++ rest ->
  of_be_bytes32 buf = N.of_nat (length body) /\ src = body ++ rest.
Proof.
  intros Hl Hs. unfold frame. rewrite <- app_assoc. intros [-> ->]%app_inj_1; [|done]. unfold short in Hs. split; [by apply of_be_bytes; lia|done].
Qed.
Lemma in_value buffer o src body rest : short buffer -> short body ->
  (be_bytes32 (N.of_nat (length buffer)) ++ take o buffer) ++ src = frame body ++ rest -> length buffer = length body /\ take o buffer ++ src = body ++ rest.
Proof.
  unfold short, frame. intros Hb Hs. rewrite <- !app_assoc. intros [He ->]%app_inj_1; [|done]. apply be_bytes32_inj in He; [|lia..]. split; [lia|done].
Qed.

Section ReaderLaws.
Context {E : Type} `{MiniCbor E}.
Definition parsed (body : list N) : result IoError (option (Message E)) := match parse body with Some m => Ok (Some m) | None => Err DecodeFailed end.
Definition rounds (rd : MessageReader) : nat := match rd_state rd with ReadLen _ _ => 2 | ReadVal _ => 1 end.

Lemma length_step buf o : (o < 4)%nat -> forall (fuel : nat) (b : list N) src,
  read_loop (E := E) (S fuel) (MkReader b (ReadLen buf o)) src = match sock_read (4 - o) src with
    | ReadPending src => CallDropped (MkReader b (ReadLen buf o)) src
    | ReadFailed src => CallReturned (Err IoFailed) (MkReader b (ReadLen buf o)) src
    | ReadReady [] src => CallReturned (Ok None) (MkReader b (ReadLen buf o)) src
    | ReadReady bs src => read_loop (E := E) fuel (MkReader b (ReadLen (fill buf o bs) (o + length bs))) src
    end.
Proof. intros Ho. destruct o as [|[|[|[|]]]]; try done. lia. Qed.

(** A call on a stream that starts with a frame, of which some may already be taken, returns what is in it, or is dropped with
    nothing lost. *)
Lemma read_loop_frame body rest : short body -> forall fuel rd src, reader_ok rd -> good src -> pending rd ++ flat src = frame body ++ rest ->
  (sock_size src + rounds rd <= fuel)%nat ->
  match read_loop (E := E) fuel rd src with
  | CallReturned r rd' src' => r = parsed body /\ rd_state rd' = read_state_new /\ flat src' = rest /\ good src' /\ drops src' = drops src
  | CallDropped rd' src' => reader_ok rd' /\ pending rd' ++ flat src' = frame body ++ rest /\ good src' /\ drops src = S (drops src')
  | CallGoesOn => False
  end.
Proof.
  intros Hshort. induction fuel as [|fuel IH]; intros rd src Hok Hg He Hf.
  { unfold rounds in Hf. destruct (rd_state rd); lia. }
  destruct rd as [buffer [buf o|o]]; unfold reader_ok, pending, rounds in *; cbn [rd_state rd_buffer] in *.
  - destruct Hok as [Hl Ho]. destruct (decide (o = 4%nat)) as [->|Hne].
    + cbn [MessageIo.read_loop rd_state]. rewrite take_ge in He by lia. apply of_be_pending in He as [Hn He]; [|done..]. rewrite Hn, Nat2N.id.
      apply IH; cbn [rd_state rd_buffer take]; [|done| |lia]; unfold short in *; rewrite length_replicate; [split; [lia|done]|].
      by rewrite app_nil_r, He, app_assoc.
    + assert (o < 4)%nat as Hlt by lia. rewrite length_step by done. pose proof (sock_read_good (4 - o) src Hg ltac:(lia)) as Hr.
      destruct (sock_read (4 - o) src) as [[|b bs] src'| |src'] eqn:Hsr; [| |done|].
      * destruct Hr as [-> ->]. apply (f_equal length) in He. unfold frame, flat in He. cbn in He. rewrite !length_app, length_take in He. cbn in He. lia.
      * destruct Hr as (Hfl & Hg' & Hlen & Hsz & Hd). rewrite <- Hd. apply IH; cbn [rd_state]; [|done| |lia].
        -- rewrite length_fill; [|lia]. split; [done|lia].
        -- rewrite take_fill by lia. by rewrite <- app_assoc, Hfl.
      * destruct Hr as (Hfl & Hg' & Hd). cbn [rd_state]. by rewrite Hfl.
  - destruct Hok as [Ho Hsb]. destruct (in_value _ _ _ _ _ Hsb Hshort He) as [Hbl Hbe]. cbn [MessageIo.read_loop rd_state rd_buffer].
    destruct (length buffer <=? o)%nat eqn:Hle.
    + apply Nat.leb_le in Hle. rewrite take_ge in Hbe by lia. apply app_inj_1 in Hbe as [-> ->]; [|done]. done.
    + apply Nat.leb_gt in Hle. pose proof (sock_read_good (length buffer - o) src Hg ltac:(lia)) as Hr.
      destruct (sock_read (length buffer - o) src) as [[|b bs] src'| |src'] eqn:Hsr; [| |done|].
      * destruct Hr as [-> ->]. apply (f_equal length) in Hbe. unfold flat in Hbe. cbn in Hbe. rewrite !length_app, length_take in Hbe. cbn in Hbe. lia.
      * destruct Hr as (Hfl & Hg' & Hlen & Hsz & Hd). rewrite <- Hd. apply IH; cbn [rd_state rd_buffer]; [|done| |lia].
        -- unfold short in *. rewrite length_fill by lia. split; [lia|done].
        -- rewrite take_fill, length_fill by lia. rewrite <- He, <- !app_assoc. by rewrite Hfl.
      * destruct Hr as (Hfl & Hg' & Hd). cbn [rd_state rd_buffer]. by rewrite Hfl.
Qed.
(** Between frames the call ends, once nothing comes any more. *)
Lemma read_loop_end rd src fuel : reader_ok rd -> good src -> pending rd ++ flat src = [] -> (0 < fuel)%nat ->
  match read_loop (E := E) fuel rd src with
  | CallReturned r _ _ => r = Ok None /\ drops src = 0%nat
  | CallDropped rd' src' => reader_ok rd' /\ pending rd' ++ flat src' = [] /\ good src' /\ drops src = S (drops src')
  | CallGoesOn => False
  end.
Proof.
  intros Hok Hg [Hp Hs]%app_eq_nil Hf. destruct rd as [buffer [buf o|o]]; unfold reader_ok, pending in *; cbn [rd_state rd_buffer] in *; [|done].
  destruct Hok as [Hl Ho]. assert (o = 0%nat) as -> by (apply (f_equal length) in Hp; rewrite length_take in Hp; cbn in Hp; lia).
  destruct fuel; [lia|]. rewrite length_step by lia. pose proof (sock_read_good 4 src Hg ltac:(lia)) as Hr. cbn [Nat.sub].
  destruct (sock_read 4 src) as [[|b bs] src'| |src']; [by destruct Hr as [-> ->]| |done|].
  - destruct Hr as [Hr _]. by rewrite Hs in Hr.
  - destruct Hr as (Hfl & Hg' & Hd). cbn [rd_state]. by rewrite Hfl, Hs.
Qed.

(** What as many calls return; those that are dropped return nothing. *)
Fixpoint receive (calls : nat) (rd : MessageReader) (src : list SockEvent) : list (result IoError (option (Message E))) :=
  match calls with
  | O => []
  | S calls => match read_message rd src with
               | CallReturned r rd src => r :: receive calls rd src
               | CallDropped rd src => receive calls rd src
               | CallGoesOn => []
               end
  end.
Lemma receive_frames calls bodies rd src : calls = (length bodies + drops src + 1)%nat -> Forall short bodies -> reader_ok rd -> good src ->
  pending rd ++ flat src = concat (map frame bodies) -> receive calls rd src = map parsed bodies ++ [Ok None].
Proof.
  revert bodies rd src. induction calls as [|calls IH]; intros bodies rd src Hn Hs Hok Hg He; [lia|]. cbn [receive]. unfold read_message.
  destruct bodies as [|body bodies]; cbn [map concat] in *.
  - pose proof (read_loop_end rd src (3 + sock_size src) Hok Hg He ltac:(lia)) as Hr.
    destruct (MessageIo.read_loop (3 + sock_size src) rd src) as [r rd' src'|rd' src'|]; [|by destruct Hr as (? & ? & ? & ?); apply (IH []); [cbn in *; lia|..]|done].
    destruct Hr as [-> Hd]. cbn in Hn. by replace calls with 0%nat by lia.
  - apply Forall_cons in Hs as [Hsb Hs]. pose proof (read_loop_frame body (concat (map frame bodies)) Hsb (3 + sock_size src) rd src Hok Hg He) as Hr.
    unfold rounds in Hr. specialize (Hr ltac:(destruct (rd_state rd); lia)).
    destruct (MessageIo.read_loop (3 + sock_size src) rd src) as [r [b s'] src'|rd' src'|]; [| |done].
    + cbn [rd_state] in Hr. destruct Hr as (-> & -> & Hfl & Hg' & Hd). cbn [app]. f_equal. apply IH; [cbn in *; lia|done|split; [done|lia]|done|done].
    + destruct Hr as (Hok' & He' & Hg' & Hd). apply (IH (body :: bodies)); [cbn in *; lia|by constructor|done|done|done].
Qed.
End ReaderLaws.

(** ** Requests and responses *)

Section Requests.
Context {An Pu : Type} `{MiniCborLaws An fits_an} `{MiniCborLaws Pu fits_pu} `{MiniCborLaws (list N * N * N) fits_h}.

(** Requests that CBOR can have, and that are not too long. *)
Record request_fits (r : ApiRequest An Pu) : Prop := {
  rf_payload : match rq_payload r with ReqAnnounce a => fits_an a | ReqPull p => fits_pu p end;
  rf_headers : forall k m, k < 256 -> m < 256 -> fits_h (rq_agent r, k, m);
  rf_short : short (body_of (request_to_wire r));
}.
Lemma request_wire (r : ApiRequest An Pu) : request_fits r -> request_from_wire (request_to_wire r) = Ok r.
Proof.
  intros [Hp _ _]. destruct r as [ua mode [a|p]]; unfold request_to_wire, request_from_wire; cbn in *; rewrite minicbor_read_back by done; by destruct mode.
Qed.
Lemma request_parsed (r : ApiRequest An Pu) : request_fits r -> parse (body_of (request_to_wire r)) = Some (request_to_wire r).
Proof.
  intros [_ Hh _]. unfold parse, body_of. destruct r as [ua mode payload]. cbn [rq_agent] in Hh.
  assert (exists k pl, request_to_wire (MkApiRequest ua mode payload) = MkMessage (MkReqHeaders ua k (wire_mode mode)) (Some pl) /\ pl <> [] /\ (k = KindAnnounce \/ k = KindRequestPull)) as (k & pl & -> & Hpl & Hk).
  { destruct payload as [a|p]; eexists _, _; (split; [reflexivity|]); (split; [apply cbor_nonempty|]); [by left|by right]. }
  cbn -[N.lt]. rewrite cbor_read_back by (destruct Hk as [-> | ->], mode; apply Hh; done). cbn.
  destruct pl as [|b pl]; [done|]. by destruct Hk as [-> | ->], mode.
Qed.

(** C29 [requests_arrive]: requests that were sent, however little of them was written at a time, are received as they were, each once and in order, however they
    arrive and however often a call to receive is dropped; then the end is seen, and a call never goes on for ever. *)
Theorem requests_arrive (rs : list (ApiRequest An Pu)) sent src :
  Forall request_fits rs -> Forall2 (fun r bs => exists takes, send_request takes r = Done (Ok tt, bs)) rs sent ->
  good src -> flat src = concat sent ->
  map (process_recv request_from_wire) (receive (length rs + drops src + 1) reader_new src) = map (fun r => Ok (Some r)) rs ++ [Ok None].
Proof.
  intros Hf Hs Hg Hfl. assert (sent = map frame (map (fun r => body_of (request_to_wire r)) rs)) as ->.
  { clear Hfl. induction Hs as [|r bs rs sent [takes Hr] _ IH]; [done|]. apply Forall_cons in Hf as [Hrf Hf]. cbn [map]. f_equal; [|by apply IH].
    unfold send_request, write_message in Hr. rewrite serialize_frame in Hr by apply Hrf. cbn in Hr. injection Hr as Hr. by apply write_loop_ok in Hr. }
  rewrite (receive_frames _ (map (fun r => body_of (request_to_wire r)) rs)); [|by rewrite length_map|apply Forall_map; eapply Forall_impl; [exact Hf|intros r Hr; apply Hr]|split; [done|lia]|done|done].
  rewrite map_app. f_equal. rewrite !map_map. apply map_ext_in. intros r Hr%list_elem_of_In. rewrite Forall_forall in Hf. specialize (Hf r Hr).
  unfold parsed. rewrite request_parsed by done. cbn [process_recv]. by rewrite request_wire.
Qed.
End Requests.

(** Responses are read from what they are written as. *)
Lemma response_wire {P} `{MiniCborLaws P fits_p} `{MiniCborLaws (list N) fits_s} (r : ApiResponse (list N) P) :
  match rs_payload r with RespAck => True | RespSuccess p => fits_p p | RespProgress s | RespError s => fits_s s end ->
  response_from_wire (response_to_wire cbor_encode r) = Ok r.
Proof. destruct r as [i [|s|s|p]]; unfold response_to_wire, response_from_wire; cbn; intros Hf; [done|by rewrite minicbor_read_back..]. Qed.

(** ** A reader that fails *)

(** [value_cut_off]: when the other side closes within a value every call fails, and the reader stays where it is. *)
Lemma value_cut_off {E} `{MiniCbor E} rd o : rd_state rd = ReadVal o -> (o < length (rd_buffer rd))%nat ->
  read_message (E := E) rd [] = CallReturned (Err UnexpectedEof) rd [].
Proof. intros Hs Ho. unfold read_message. cbn. rewrite Hs. by rewrite (proj2 (Nat.leb_gt _ _)). Qed.

(** ** Examples *)

Module MessageIoExample.
(** A text with its length in front, and numbers. *)
#[local] Instance headers_cbor : MiniCbor (list N * N * N) := {|
  cbor_encode h := N.of_nat (length h.1.1) :: h.1.1 ++ [h.1.2; h.2];
  cbor_decode bs := match bs with
                    | [] => None
                    | n :: bs => match drop (N.to_nat n) bs with k :: m :: r => Some (take (N.to_nat n) bs, k, m, r) | _ => None end
                    end;
|}.
#[local] Instance headers_cbor_laws : MiniCborLaws (list N * N * N) (fun _ => True).
Proof.
  split; [|done]. intros [[ua k] m] r _. cbn. rewrite Nat2N.id, <- app_assoc. cbn [app]. by rewrite drop_app_length, take_app_length.
Qed.
#[local] Instance number_cbor : MiniCbor N := {| cbor_encode n := [n]; cbor_decode bs := match bs with [] => None | n :: r => Some (n, r) end |}.
#[local] Instance number_cbor_laws : MiniCborLaws N (fun _ => True).
Proof. by split. Qed.

Definition announce7 : ApiRequest N N := MkApiRequest [108; 110; 107] FireAndForget (ReqAnnounce 7).
Definition pull9 : ApiRequest N N := MkApiRequest [108; 110; 107] ReportProgress (ReqPull 9).
Definition frame7 : list N := [0; 0; 0; 7; 3; 108; 110; 107; 1; 1; 7].
Definition frame9 : list N := [0; 0; 0; 7; 3; 108; 110; 107; 5; 2; 9].
Definition arrives : list SockEvent := [NothingYet; Arrived [0; 0]; NothingYet; Arrived [0; 7; 3; 108]; Arrived [110]; NothingYet; Arrived [107; 1; 1; 7; 0; 0; 0; 7; 3]; Arrived [108; 110; 107; 5; 2; 9]].
Lemma requests_arrive_witness : map (process_recv request_from_wire) (receive 6 reader_new arrives) = [Ok (Some announce7); Ok (Some pull9); Ok None].
Proof.
  apply (requests_arrive [announce7; pull9] [frame7; frame9] arrives).
  - repeat constructor; reflexivity.
  - constructor; [exists [Some 2%nat; Some 1%nat]; reflexivity|]. constructor; [exists []; reflexivity|constructor].
  - repeat constructor; discriminate.
  - reflexivity.
Defined.
(** [length_cut_off]: a message that is cut off within its length is no error. *)
Example length_cut_off : read_message (E := ReqHeaders) reader_new [Arrived (take 3 frame7)] = CallReturned (Ok None) (MkReader [] (ReadLen [0; 0; 0; 0] 3)) [].
Proof. reflexivity. Qed.
(** [empty_payload_lost]: an empty payload is read as none. *)
Example empty_payload_lost : exists bs, serialize (MkMessage (MkReqHeaders [] KindAnnounce WireFireAndForget) (Some [])) = Done (frame bs) /\
  parse bs = Some (MkMessage (MkReqHeaders [] KindAnnounce WireFireAndForget) None).
Proof. exists [0; 1; 1]. split; reflexivity. Qed.
End MessageIoExample.
