(* ===== verification/RpcServer.v ===== *)
(** * The server and the client of a node's socket

    [cli/linkd-lib/src/api/rpc.rs] and [client.rs].  A connection is served by a loop that reads requests, starts a handler for
    each, and writes the responses the handlers put into a channel of bounded length.  What [select!] finds ready, and what the handlers
    do meanwhile, are events, so that the interleavings are the sequences of events. *)
From stdpp Require Import base list.
From Stdlib Require Import NArith Lia.
From Stdlib Require String.
Import String.StringSyntax.
From S2P Require Import Prelude RefFormat CanonicalJson MessageIo.
#[local] Open Scope nat_scope.

(** ** Listeners *)

Inductive ListenerInterest := AckOnly | ProgressAndResult.
Definition interest_of (m : RequestMode) : ListenerInterest := match m with FireAndForget => AckOnly | ReportProgress => ProgressAndResult end.

Section Listener.
Context {S : Type}.
(** [progress], [error] and [success]: what is sent, if anything. *)
Definition listener_says (i : ListenerInterest) (p : ResponsePayload S) : list (ResponsePayload S) :=
  match i with AckOnly => [] | ProgressAndResult => [p] end.

(** What an announcement finds: the peers that are connected, first and after waiting, and whether it could be handed on. *)
Record AnnounceEnv := MkAnnounceEnv { connected : nat; wait_secs : N; connected_then : nat; announce_ok : bool }.
Definition announce_handle (done : S) (i : ListenerInterest) (env : AnnounceEnv) : list (ResponsePayload S) :=
  (if bool_decide (connected env = 0)
   then listener_says i (RespProgress (str "no connected peers, waiting " ++ dec_text (wait_secs env) ++ str " seconds")) else []) ++
  listener_says i (RespProgress (str "found " ++ dec_text (N.of_nat (connected_then env)) ++ str " peers")) ++
  listener_says i (if announce_ok env then RespSuccess done else RespError (str "unable to announce")).

(** What a remote answers to a request to pull; the last is an error of the connection, with its text. *)
Inductive PullReply := PullProgress (s : list N) | PullSuccess (r : S) | PullError (s : list N) | PullBroken (s : list N).
Inductive PullClient := NoClient | NotRequested | Requested (replies : list PullReply).
Fixpoint pull_loop (i : ListenerInterest) (replies : list PullReply) : list (ResponsePayload S) :=
  match replies with
  | [] => []
  | PullProgress s :: replies => listener_says i (RespProgress s) ++ pull_loop i replies
  | PullSuccess r :: _ => listener_says i (RespSuccess r)
  | PullError s :: _ => listener_says i (RespError (str "request-pull failed: " ++ s))
  | PullBroken s :: _ => listener_says i (RespError (str "request-pull failed: " ++ s))
  end.
Definition pull_handle (i : ListenerInterest) (remote urn : list N) (client : PullClient) : list (ResponsePayload S) :=
  match client with
  | NoClient => listener_says i (RespError (str "request-pull failed due to internal client error"))
  | NotRequested => listener_says i (RespError (str "unable to request-pull to `" ++ remote ++ str "` for `" ++ urn ++ str "`"))
  | Requested replies => pull_loop i replies
  end.
End Listener.
Arguments PullReply S : clear implicits. Arguments PullClient S : clear implicits.

(** ** The loop *)

Definition MAX_IN_FLIGHT_REQUESTS : nat := 20.
(** The length of the channel. *)
Definition CHANNEL : nat := 10.
Inductive JoinResult := JoinOk | JoinPanicked | JoinCancelled.
(** Where the loop is; when it waits for room for an acknowledgement, with what the handler of the request is to send. *)
Inductive Phase (S : Type) : Type := Serving | AwaitingRoom (outs : list (ResponsePayload S)) | Closing | Ended | Unwinding.
Arguments Serving {S}. Arguments AwaitingRoom {S} outs. Arguments Closing {S}. Arguments Ended {S}. Arguments Unwinding {S}.

Section Rpc.
Context {An Pu S : Type} `{MiniCbor (list N * N * N)} `{MiniCbor An} `{MiniCbor Pu}.
Abbreviation resp := (ApiResponse nat S).
(** What the handler of a request is going to send. *)
Context (handler : ApiRequest An Pu -> list (ResponsePayload S)).

(** Handlers with what they have still to send; ids are the numbers of the requests, by which [started] has all that is to be sent after
    the acknowledgement; [over] are those whose handlers returned. *)
Record Rpc := MkRpc {
  rpc_reader : MessageReader;
  rpc_src : list SockEvent;
  rpc_running : list (nat * list (ResponsePayload S));
  rpc_queue : list resp;
  rpc_written : list (resp * bool);
  rpc_phase : Phase S;
  rpc_started : list (list (ResponsePayload S));
  rpc_over : list nat;
}.
Definition rpc_new (src : list SockEvent) : Rpc := MkRpc reader_new src [] [] [] Serving [] [].

(** [Sender::send], which waits for room. *)
Definition channel_send (r : resp) (s : Rpc) : option Rpc :=
  if bool_decide (length (rpc_queue s) < CHANNEL)
  then Some (MkRpc (rpc_reader s) (rpc_src s) (rpc_running s) (rpc_queue s ++ [r]) (rpc_written s) (rpc_phase s) (rpc_started s) (rpc_over s)) else None.
(** A request: it is acknowledged in the loop itself, then the handler runs. *)
Definition dispatch (outs : list (ResponsePayload S)) (s : Rpc) : Rpc :=
  let id := length (rpc_started s) in
  match channel_send (MkApiResponse id RespAck) s with
  | Some s => MkRpc (rpc_reader s) (rpc_src s) (rpc_running s ++ [(id, outs)]) (rpc_queue s) (rpc_written s) Serving (rpc_started s ++ [outs]) (rpc_over s)
  | None => MkRpc (rpc_reader s) (rpc_src s) (rpc_running s) (rpc_queue s) (rpc_written s) (AwaitingRoom outs) (rpc_started s) (rpc_over s)
  end.
Definition set_phase (p : Phase S) (s : Rpc) : Rpc :=
  MkRpc (rpc_reader s) (rpc_src s) (rpc_running s) (rpc_queue s) (rpc_written s) p (rpc_started s) (rpc_over s).
(** The first branch of [select!]. *)
Definition rpc_recv (s : Rpc) : option Rpc :=
  let moved rd src := MkRpc rd src (rpc_running s) (rpc_queue s) (rpc_written s) (rpc_phase s) (rpc_started s) (rpc_over s) in
  match recv_request (rpc_reader s) (rpc_src s) with
  | CallReturned (Ok (Some r)) rd src => Some (dispatch (handler r) (moved rd src))
  | CallReturned (Ok None) rd src => Some (set_phase Closing (moved rd src))
  | CallReturned (Err TransportDecodeFailed) rd src => Some (moved rd src)
  | CallReturned (Err TransportIo) rd src => Some (set_phase Closing (moved rd src))
  | CallDropped rd src => Some (moved rd src)
  | CallGoesOn => None
  end.
(** [handle_task_complete] *)
Definition handle_task_complete (id : nat) (r : JoinResult) (s : Rpc) : Rpc :=
  let running := filter (fun x => x.1 <> id) (rpc_running s) in
  match r with
  | JoinOk => MkRpc (rpc_reader s) (rpc_src s) running (rpc_queue s) (rpc_written s) (rpc_phase s) (rpc_started s) (id :: rpc_over s)
  | JoinPanicked => MkRpc (rpc_reader s) (rpc_src s) running (rpc_queue s) (rpc_written s) Unwinding (rpc_started s) (rpc_over s)
  | JoinCancelled => MkRpc (rpc_reader s) (rpc_src s) running (rpc_queue s) (rpc_written s) (rpc_phase s) (rpc_started s) (rpc_over s)
  end.
Fixpoint pending_of (id : nat) (l : list (nat * list (ResponsePayload S))) : option (list (ResponsePayload S)) :=
  match l with [] => None | (i, p) :: l => if bool_decide (i = id) then Some p else pending_of id l end.
Definition set_pending (id : nat) (p : list (ResponsePayload S)) (l : list (nat * list (ResponsePayload S))) :=
  map (fun x => if bool_decide (x.1 = id) then (id, p) else x) l.

Inductive RpcEvent := Recv | Complete (id : nat) (r : JoinResult) | NothingRuns | Respond (ok : bool) | HandlerSends (id : nat) | RoomFound.
(** What happens, if it can. *)
Definition rpc_step (s : Rpc) (e : RpcEvent) : option Rpc :=
  match e, rpc_phase s with
  | Recv, Serving => if bool_decide (length (rpc_running s) < MAX_IN_FLIGHT_REQUESTS) then rpc_recv s else None
  | Complete id r, (Serving | Closing) =>
      match pending_of id (rpc_running s), r with
      | Some [], JoinOk | Some _, (JoinPanicked | JoinCancelled) => Some (handle_task_complete id r s)
      | _, _ => None
      end
  | NothingRuns, Serving => if bool_decide (rpc_running s = []) then Some s else None
  | NothingRuns, Closing => if bool_decide (rpc_running s = []) then Some (set_phase Ended s) else None
  | Respond ok, Serving =>
      match rpc_queue s with
      | [] => None
      | r :: q => Some (MkRpc (rpc_reader s) (rpc_src s) (rpc_running s) q (rpc_written s ++ [(r, ok)]) (rpc_phase s) (rpc_started s) (rpc_over s))
      end
  | HandlerSends id, (Serving | AwaitingRoom _ | Closing) =>
      match pending_of id (rpc_running s) with
      | Some (p :: rest) =>
          s ← channel_send (MkApiResponse id p) s;
          Some (MkRpc (rpc_reader s) (rpc_src s) (set_pending id rest (rpc_running s)) (rpc_queue s) (rpc_written s) (rpc_phase s) (rpc_started s) (rpc_over s))
      | _ => None
      end
  | RoomFound, AwaitingRoom outs => if bool_decide (length (rpc_queue s) < CHANNEL) then Some (dispatch outs s) else None
  | _, _ => None
  end.
Inductive rpc_steps : Rpc -> list RpcEvent -> Rpc -> Prop :=
| rpc_steps_nil s : rpc_steps s [] s
| rpc_steps_cons s e s1 es s2 : rpc_step s e = Some s1 -> rpc_steps s1 es s2 -> rpc_steps s (e :: es) s2.

(** ** What is sent *)

Definition outgoing (s : Rpc) : list resp := map fst (rpc_written s) ++ rpc_queue s.
Definition responses_of (id : nat) (l : list resp) : list (ResponsePayload S) := map rs_payload (filter (fun r => rs_id r = id) l).
Record rpc_ok (s : Rpc) : Prop := {
  ro_running : length (rpc_running s) <= MAX_IN_FLIGHT_REQUESTS;
  ro_queue : length (rpc_queue s) <= CHANNEL;
  ro_awaiting : forall outs, rpc_phase s = AwaitingRoom outs -> length (rpc_queue s) = CHANNEL /\ length (rpc_running s) < MAX_IN_FLIGHT_REQUESTS;
  ro_nodup : NoDup (rpc_running s).*1;
  ro_ids : Forall (fun id => id < length (rpc_started s)) ((rpc_running s).*1 ++ map rs_id (outgoing s));
  ro_over : Forall (fun id => id < length (rpc_started s) /\ id ∉ (rpc_running s).*1) (rpc_over s);
  ro_sent : forall id outs, rpc_started s !! id = Some outs -> exists rest,
    responses_of id (outgoing s) ++ rest = RespAck :: outs /\ (forall p, pending_of id (rpc_running s) = Some p -> rest = p) /\ (id ∈ rpc_over s -> rest = []);
}.

Lemma responses_of_app id l l' : responses_of id (l ++ l') = responses_of id l ++ responses_of id l'.
Proof. unfold responses_of. by rewrite filter_app, map_app. Qed.
Lemma responses_of_one id i p : responses_of id [MkApiResponse i p] = if bool_decide (i = id) then [p] else [].
Proof. unfold responses_of. cbn. case_decide; case_bool_decide; done. Qed.
Lemma responses_of_fresh id l : Forall (fun i => i < id) (map rs_id l) -> responses_of id l = [].
Proof. induction l as [|r l IH]; [done|]. cbn. intros [Hr Hl]%Forall_cons. unfold responses_of in *. cbn. rewrite decide_False by lia. by apply IH. Qed.
Lemma channel_send_some r s s' : channel_send r s = Some s' ->
  length (rpc_queue s) < CHANNEL /\ s' = MkRpc (rpc_reader s) (rpc_src s) (rpc_running s) (rpc_queue s ++ [r]) (rpc_written s) (rpc_phase s) (rpc_started s) (rpc_over s).
Proof. unfold channel_send. case_bool_decide; [|done]. by intros [= <-]. Qed.
Lemma pending_in id l p : pending_of id l = Some p -> id ∈ l.*1.
Proof. induction l as [|[i q] l IH]; [done|]. cbn. case_bool_decide; [subst; by left|]. right. by apply IH. Qed.
Lemma pending_of_app id l l' : pending_of id (l ++ l') = match pending_of id l with Some p => Some p | None => pending_of id l' end.
Proof. induction l as [|[i q] l IH]; [done|]. cbn. by case_bool_decide. Qed.
Lemma set_pending_ids id p l : (set_pending id p l).*1 = l.*1.
Proof. induction l as [|[i q] l IH]; [done|]. cbn. rewrite <- IH. by case_bool_decide; subst. Qed.
Lemma pending_set id p l i : id ∈ l.*1 -> pending_of i (set_pending id p l) = if bool_decide (i = id) then Some p else pending_of i l.
Proof.
  intros Hin. destruct (decide (i = id)) as [->|Hne].
  - rewrite bool_decide_eq_true_2 by done. induction l as [|[j q] l IH]; [by apply not_elem_of_nil in Hin|]. cbn.
    destruct (decide (j = id)) as [->|Hj]; [by repeat (rewrite bool_decide_eq_true_2 by done; cbn)|].
    rewrite bool_decide_eq_false_2 by done. cbn. rewrite bool_decide_eq_false_2 by done. apply IH. cbn in Hin. by apply elem_of_cons in Hin as [->|].
  - rewrite bool_decide_eq_false_2 by done. clear Hin. induction l as [|[j q] l IH]; [done|]. cbn. case_bool_decide; cbn; subst; [by rewrite !bool_decide_eq_false_2 by done|].
    case_bool_decide; [done|]. apply IH.
Qed.
Lemma pending_filter id l i : pending_of i (filter (fun x => x.1 <> id) l) = if bool_decide (i = id) then None else pending_of i l.
Proof.
  induction l as [|[j q] l IH]; [by cbn; case_bool_decide|]. cbn [pending_of]. destruct (decide (j = id)) as [->|Hj].
  - rewrite filter_cons_False by (cbn; tauto). rewrite IH. case_bool_decide; [done|]. by rewrite bool_decide_eq_false_2.
  - rewrite filter_cons_True by done. cbn [pending_of]. rewrite IH. destruct (decide (j = i)) as [->|Hi]; [|by rewrite (bool_decide_eq_false_2 (j = i))].
    by rewrite (bool_decide_eq_true_2 (i = i)), bool_decide_eq_false_2.
Qed.

Lemma filter_ids id (l : list (nat * list (ResponsePayload S))) : (filter (fun x => x.1 <> id) l).*1 `sublist_of` l.*1.
Proof. apply fmap_sublist, sublist_filter. Qed.
Lemma dispatch_ok outs s : rpc_ok s -> length (rpc_running s) < MAX_IN_FLIGHT_REQUESTS -> rpc_ok (dispatch outs s).
Proof.
  intros [Hr Hq Ha Hn Hi Ho Hs] Hlt. unfold dispatch. destruct (channel_send _ _) as [s'|] eqn:Hc.
  - apply channel_send_some in Hc as [Hroom ->]. apply Forall_app in Hi as [Hi1 Hi2].
    assert (length (rpc_started s) ∉ (rpc_running s).*1) as Hfresh by (intros Hin; rewrite Forall_forall in Hi1; apply Hi1 in Hin; lia).
    split; cbn [rpc_running rpc_queue rpc_phase rpc_started rpc_over].
    + rewrite length_app. cbn. lia.
    + rewrite length_app. cbn. lia.
    + done.
    + rewrite fmap_app. apply NoDup_app. split_and!; [done| |by apply NoDup_singleton]. intros x Hx ->%list_elem_of_singleton. done.
    + rewrite (fmap_app fst (rpc_running s)), length_app. unfold outgoing. cbn [rpc_written rpc_queue]. rewrite (app_assoc (map fst _)), (map_app rs_id). fold (outgoing s). cbn [map rs_id length fmap list_fmap fst].
      rewrite !Forall_app, !Forall_singleton. split_and!; [eapply Forall_impl; [exact Hi1|]; cbn; lia|lia|eapply Forall_impl; [exact Hi2|]; cbn; lia|lia].
    + eapply Forall_impl; [exact Ho|]. cbn. intros id [Hid Hnot]. rewrite length_app, fmap_app. cbn. split; [lia|]. intros [?|Hx%list_elem_of_singleton]%elem_of_app; [done|lia].
    + intros id o Hid. unfold outgoing. cbn [rpc_written rpc_queue]. rewrite app_assoc, responses_of_app, responses_of_one. fold (outgoing s).
      apply lookup_app_Some in Hid as [Hid|[Hge Hid]].
      * apply lookup_lt_Some in Hid as Hl. rewrite bool_decide_eq_false_2 by lia. rewrite app_nil_r. destruct (Hs id o Hid) as (rest & He & Hp & Hov). exists rest. split; [done|].
        split; [|done]. intros p. rewrite pending_of_app. cbn. rewrite bool_decide_eq_false_2 by lia. destruct (pending_of id _); [|done]. intros [= ->]. by apply Hp.
      * apply list_lookup_singleton_Some in Hid as [Hid <-]. assert (id = length (rpc_started s)) as -> by lia. rewrite bool_decide_eq_true_2 by done.
        exists outs. rewrite responses_of_fresh by done. split; [done|]. split.
        -- intros p. rewrite pending_of_app. destruct (pending_of _ (rpc_running s)) as [q|] eqn:Hq'; [by apply pending_in in Hq'|]. cbn. rewrite bool_decide_eq_true_2 by done. by intros [= ->].
        -- intros Hin. rewrite Forall_forall in Ho. apply Ho in Hin as [? _]. lia.
  - unfold channel_send in Hc. case_bool_decide as Hfull; [done|]. split; cbn [rpc_running rpc_queue rpc_phase rpc_started rpc_over]; try done.
    intros o [= <-]. split; [lia|done].
Qed.
(** The loop reads. *)
Lemma recv_ok s s' : rpc_ok s -> rpc_phase s = Serving -> length (rpc_running s) < MAX_IN_FLIGHT_REQUESTS -> rpc_recv s = Some s' -> rpc_ok s'.
Proof.
  intros Hok Hp Hlt. unfold rpc_recv.
  assert (forall rd src p, (forall outs, p <> AwaitingRoom outs) -> rpc_ok (MkRpc rd src (rpc_running s) (rpc_queue s) (rpc_written s) p (rpc_started s) (rpc_over s))) as Hmoved.
  { intros rd src p Hp'. destruct Hok. split; try done. intros outs Ho. by destruct (Hp' outs). }
  destruct (recv_request _ _) as [[[r|]|[]] rd src|rd src|]; try done; try by intros [= <-]; apply Hmoved; rewrite ?Hp.
  intros [= <-]. pose proof (Hmoved rd src Serving ltac:(done)) as Hm. rewrite Hp. revert Hm. generalize (handler r). intros outs Hm. by apply dispatch_ok.
Qed.

Lemma complete_ok s id r : rpc_ok s -> (forall outs, rpc_phase s <> AwaitingRoom outs) -> (r = JoinOk -> pending_of id (rpc_running s) = Some []) ->
  rpc_ok (handle_task_complete id r s).
Proof.
  intros [Hr Hq Ha Hn Hi Ho Hs] Hp Hpend. pose proof (filter_ids id (rpc_running s)) as Hsub.
  assert (length (filter (fun x => x.1 <> id) (rpc_running s)) <= MAX_IN_FLIGHT_REQUESTS) as Hlen by (etransitivity; [apply length_filter|done]).
  assert (Forall (fun i => i < length (rpc_started s)) ((filter (fun x => x.1 <> id) (rpc_running s)).*1 ++ map rs_id (outgoing s))) as Hids.
  { apply Forall_app in Hi as [Hi1 Hi2]. apply Forall_app. split; [|done]. rewrite Forall_forall in Hi1 |- *. intros i Hii. by apply Hi1, (elem_of_sublist _ _ _ Hii). }
  assert (Forall (fun i => i < length (rpc_started s) /\ i ∉ (filter (fun x => x.1 <> id) (rpc_running s)).*1) (rpc_over s)) as Hover.
  { eapply Forall_impl; [exact Ho|]. cbn. intros i [Hl Hi']. split; [done|]. intros Hin. by apply Hi', (elem_of_sublist _ _ _ Hin). }
  assert (forall i o, rpc_started s !! i = Some o -> exists rest, responses_of i (outgoing s) ++ rest = RespAck :: o /\
    (forall p, pending_of i (filter (fun x => x.1 <> id) (rpc_running s)) = Some p -> rest = p) /\ (i ∈ rpc_over s -> rest = [])) as Hsent.
  { intros i o Hio. destruct (Hs i o Hio) as (rest & He & Hpp & Hov). exists rest. split; [done|]. split; [|done]. intros p. rewrite pending_filter. case_bool_decide; [done|]. apply Hpp. }
  assert (NoDup (filter (fun x => x.1 <> id) (rpc_running s)).*1) as Hnd by by eapply sublist_NoDup.
  destruct r; (split; [done|done|cbn; try done; intros outs Ho'; by destruct (Hp outs)|done|done| |]); try done; cbn [handle_task_complete rpc_over rpc_started rpc_running].
  - constructor; [|done]. specialize (Hpend eq_refl). apply pending_in in Hpend as Hin. apply Forall_app in Hi as [Hi1 _]. rewrite Forall_forall in Hi1. split; [by apply Hi1|].
    intros (x & -> & [? _]%list_elem_of_filter)%list_elem_of_fmap. done.
  - intros i o Hio. destruct (decide (i = id)) as [->|Hne].
    + destruct (Hs id o Hio) as (rest & He & Hpp & _). exists rest. split; [done|]. split; [|intros _; by apply Hpp, Hpend]. intros p. rewrite pending_filter, bool_decide_eq_true_2; done.
    + destruct (Hsent i o Hio) as (rest & He & Hpp & Hov). exists rest. split; [done|]. split; [done|]. intros [?|?]%elem_of_cons; [done|by apply Hov].
Qed.
Lemma handler_sends_ok s id p rest s' : rpc_ok s -> pending_of id (rpc_running s) = Some (p :: rest) -> channel_send (MkApiResponse id p) s = Some s' ->
  rpc_ok (MkRpc (rpc_reader s') (rpc_src s') (set_pending id rest (rpc_running s')) (rpc_queue s') (rpc_written s') (rpc_phase s') (rpc_started s') (rpc_over s')).
Proof.
  intros [Hr Hq Ha Hn Hi Ho Hs] Hp [Hroom ->]%channel_send_some. apply pending_in in Hp as Hin. apply Forall_app in Hi as [Hi1 Hi2].
  split; cbn [rpc_running rpc_queue rpc_phase rpc_started rpc_over]; rewrite ?set_pending_ids.
  - unfold set_pending. by rewrite length_map.
  - rewrite length_app. cbn. lia.
  - intros outs Hout. apply Ha in Hout as [? _]. lia.
  - done.
  - unfold outgoing. cbn [rpc_written rpc_queue]. rewrite app_assoc, map_app. fold (outgoing s). rewrite !Forall_app. split_and!; [done|done|]. apply Forall_singleton. rewrite Forall_forall in Hi1. by apply Hi1.
  - done.
  - intros i o Hio. unfold outgoing. cbn [rpc_written rpc_queue]. rewrite app_assoc, responses_of_app, responses_of_one. fold (outgoing s).
    destruct (Hs i o Hio) as (rst & He & Hpp & Hov). destruct (decide (id = i)) as [->|Hne].
    + rewrite bool_decide_eq_true_2 by done. specialize (Hpp _ Hp) as ->. exists rest. split; [by rewrite <- app_assoc|]. split.
      * intros q. rewrite pending_set, bool_decide_eq_true_2 by done. by intros [= ->].
      * intros Hiov. rewrite Forall_forall in Ho. apply Ho in Hiov as [_ Hiov]. done.
    + rewrite bool_decide_eq_false_2, app_nil_r by done. exists rst. split; [done|]. split; [|done]. intros q. rewrite pending_set, bool_decide_eq_false_2 by done. apply Hpp.
Qed.
Lemma rpc_new_ok src : rpc_ok (rpc_new src).
Proof. split; cbn; try done; try constructor; lia. Qed.
Lemma rpc_step_ok s e s' : rpc_ok s -> rpc_step s e = Some s' -> rpc_ok s'.
Proof.
  intros Hok. unfold rpc_step. destruct e as [|id r| |ok|id|].
  - destruct (rpc_phase s) eqn:Hp; try done. case_bool_decide; [|done]. by apply recv_ok.
  - assert ((forall outs, rpc_phase s <> AwaitingRoom outs) -> match pending_of id (rpc_running s), r with Some [], JoinOk | Some _, (JoinPanicked | JoinCancelled) => Some (handle_task_complete id r s) | _, _ => None end = Some s' -> rpc_ok s') as Hc.
    { intros Hp. destruct (pending_of id (rpc_running s)) as [[|q ps]|] eqn:Hpend, r; try done; intros <-%(inj Some); by apply complete_ok. }
    destruct (rpc_phase s) eqn:Hp; try done; by apply Hc.
  - destruct (rpc_phase s) eqn:Hp; try done; (case_bool_decide; [|done]); intros [= <-]; [done|]. destruct Hok. by split.
  - destruct (rpc_phase s) eqn:Hp; try done. destruct (rpc_queue s) as [|r q] eqn:Hq; [done|]. intros [= <-]. destruct Hok as [? Hqu Ha ? Hi ? Hs].
    assert (forall l, map fst (rpc_written s ++ [(r, ok)]) ++ l = map fst (rpc_written s) ++ r :: l) as Hout by (intros l; by rewrite map_app, <- app_assoc).
    unfold outgoing in *. rewrite Hq in *. cbn in Hqu. split; unfold outgoing; cbn [rpc_running rpc_queue rpc_written rpc_phase rpc_started rpc_over]; rewrite ?Hout; try done. lia.
  - assert ((s' ← (match pending_of id (rpc_running s) with Some (p :: rest) => s ← channel_send (MkApiResponse id p) s;
       Some (MkRpc (rpc_reader s) (rpc_src s) (set_pending id rest (rpc_running s)) (rpc_queue s) (rpc_written s) (rpc_phase s) (rpc_started s) (rpc_over s)) | _ => None end); Some s') = Some s' -> rpc_ok s') as Hc.
    { destruct (pending_of id (rpc_running s)) as [[|p rest]|] eqn:Hpend; try done. destruct (channel_send _ s) as [s1|] eqn:Hch; [|done]. intros [= <-]. by eapply handler_sends_ok. }
    destruct (rpc_phase s); try done; intros Hs; apply Hc; by rewrite Hs.
  - destruct (rpc_phase s) eqn:Hp; try done. case_bool_decide; [|done]. intros [= <-]. apply dispatch_ok; [done|]. by eapply ro_awaiting.
Qed.
Lemma rpc_steps_ok s es s' : rpc_ok s -> rpc_steps s es s' -> rpc_ok s'.
Proof. intros Hok. induction 1 as [|s e s1 es s2 Hs _ IH]; [done|]. by apply IH, (rpc_step_ok s e). Qed.

(** C30 [rpc_safe]: however requests, handlers and writes interleave, no more than twenty requests are handled and ten responses wait at a time; what is
    sent for a request is its acknowledgement first and then, in order, what its handler sends, and all of it once the handler
    has returned. *)
Theorem rpc_safe src es s (Hs : rpc_steps (rpc_new src) es s) :
  length (rpc_running s) <= MAX_IN_FLIGHT_REQUESTS /\ length (rpc_queue s) <= CHANNEL /\
  forall id outs, rpc_started s !! id = Some outs ->
    responses_of id (outgoing s) `prefix_of` (RespAck :: outs) /\ (id ∈ rpc_over s -> responses_of id (outgoing s) = RespAck :: outs).
Proof.
  apply rpc_steps_ok in Hs as [Hr Hq _ _ _ _ Hsent]; [|apply rpc_new_ok]. split_and!; [done..|]. intros id outs Hid.
  destruct (Hsent id outs Hid) as (rest & He & _ & Ho). split; [by exists rest|]. intros Hin. by rewrite <- He, (Ho Hin), app_nil_r.
Qed.

(** [ack_blocks]: a loop that waits for room for an acknowledgement waits for ever, since nothing but the loop makes room. *)
Theorem ack_blocks s es s' outs (Hok : rpc_ok s) (Hp : rpc_phase s = AwaitingRoom outs) (Hs : rpc_steps s es s') :
  rpc_phase s' = AwaitingRoom outs /\ rpc_written s' = rpc_written s /\ rpc_queue s' = rpc_queue s.
Proof.
  revert Hok Hp. induction Hs as [|s e s1 es s2 Hs _ IH]; [done|]. intros Hok Hp. destruct (ro_awaiting s Hok outs Hp) as [Hq _].
  pose proof (rpc_step_ok _ _ _ Hok Hs) as Hok1. unfold rpc_step in Hs. rewrite Hp in Hs. destruct e as [| | | |id|]; try done.
  - destruct (pending_of id _) as [[|p rest]|]; try done. unfold channel_send in Hs. rewrite bool_decide_eq_false_2 in Hs by lia. done.
  - by rewrite bool_decide_eq_false_2 in Hs by lia.
Qed.
(** [cut_off_spins]: when the other side closes within a message the loop does not end, and goes round for ever. *)
Theorem cut_off_spins s o n (Hp : rpc_phase s = Serving) (Hst : rd_state (rpc_reader s) = ReadVal o) (Ho : o < length (rd_buffer (rpc_reader s)))
  (Hsrc : rpc_src s = []) (Hr : length (rpc_running s) < MAX_IN_FLIGHT_REQUESTS) : rpc_steps s (repeat Recv n) s.
Proof.
  assert (rpc_step s Recv = Some s) as Hstep.
  { unfold rpc_step. rewrite Hp, bool_decide_eq_true_2 by done. unfold rpc_recv, recv_request. rewrite Hsrc, (value_cut_off _ _ Hst Ho). cbn. by destruct s; cbn in *; subst. }
  induction n as [|n IH]; cbn; [constructor|by econstructor].
Qed.
(** [closing_blocks]: a connection that is closed while the channel is full waits for ever for a handler that has something to send. *)
Theorem closing_blocks s es s' id p rest (Hp : rpc_phase s = Closing) (Hq : length (rpc_queue s) = CHANNEL) (Hpend : pending_of id (rpc_running s) = Some (p :: rest))
  (Hs : rpc_steps s es s') (Hev : Forall (fun e => forall r, e = Complete id r -> r = JoinOk) es) (Hun : forall i, Complete i JoinPanicked ∉ es) : rpc_phase s' = Closing.
Proof.
  revert Hp Hq Hpend Hev Hun. induction Hs as [|s e s1 es s2 Hs _ IH]; [done|]. intros Hp Hq Hpend [He Hev]%Forall_cons Hun. unfold rpc_step in Hs. rewrite Hp in Hs.
  assert (forall i, Complete i JoinPanicked ∉ es) as Hun' by (intros i Hi; by apply (Hun i), list_elem_of_further). destruct e as [|i r| | |i|]; try done.
  - destruct (pending_of i (rpc_running s)) as [q|] eqn:Hi; [|done].
    assert (s1 = handle_task_complete i r s /\ (r = JoinOk -> q = [])) as [-> Hrq] by (destruct q, r; try done; by apply (inj Some) in Hs as <-).
    destruct (decide (i = id)) as [->|Hne]; [specialize (He r eq_refl) as ->; specialize (Hrq eq_refl) as ->; congruence|].
    destruct r; [|by destruct (Hun i); left|]; apply IH; cbn [handle_task_complete rpc_phase rpc_queue rpc_running]; try done; by rewrite pending_filter, bool_decide_eq_false_2.
  - case_bool_decide as Hn; [|done]. by rewrite Hn in Hpend.
  - destruct (pending_of i _) as [[|q r]|]; try done. unfold channel_send in Hs. rewrite bool_decide_eq_false_2 in Hs by lia. done.
Qed.
End Rpc.

(** ** The client *)

(** [Transport], as a client uses it. *)
Class Transport (T Rq Rs TE : Type) := { transport_send : Rq -> T -> result TE unit * T; transport_recv : T -> result TE (option Rs) * T }.
Record Connection (T : Type) : Type := MkConnection { conn_socket : T; conn_agent : list N }.
Arguments MkConnection {T} conn_socket conn_agent. Arguments conn_socket {T} c. Arguments conn_agent {T} c.
Inductive ReplyError (TE : Type) : Type := ReplyTransport (e : TE) | MissingReply | UnexpectedAck | ReplyMissingAck.
Arguments ReplyTransport {TE} e. Arguments MissingReply {TE}. Arguments UnexpectedAck {TE}. Arguments ReplyMissingAck {TE}.
Inductive ExecuteError (TE : Type) : Type := ExecTransport (e : TE) | ExecMissingAck.
Arguments ExecTransport {TE} e. Arguments ExecMissingAck {TE}.
Record Replies (T Id : Type) : Type := MkReplies { replies_id : Id; replies_conn : Connection T }.
Arguments MkReplies {T Id} replies_id replies_conn. Arguments replies_id {T Id} r. Arguments replies_conn {T Id} r.
Inductive Reply (T Id R : Type) : Type :=
| ReplyProgress (replies : Replies T Id) (msg : list N)
| ReplyFailed (conn : Connection T) (msg : list N)
| ReplySuccess (conn : Connection T) (payload : R).
Arguments ReplyProgress {T Id R} replies msg. Arguments ReplyFailed {T Id R} conn msg. Arguments ReplySuccess {T Id R} conn payload.

Section Client.
Context {T An Pu Id R TE : Type} `{Transport T (ApiRequest An Pu) (ApiResponse Id R) TE}.

Definition replies_process (self : Replies T Id) (msg : option (ApiResponse Id R)) : result (Connection T * ReplyError TE) (Reply T Id R) :=
  match msg with
  | None => Err (replies_conn self, MissingReply)
  | Some msg => match rs_payload msg with
                | RespAck => Err (replies_conn self, UnexpectedAck)
                | RespProgress s => Ok (ReplyProgress self s)
                | RespError s => Ok (ReplyFailed (replies_conn self) s)
                | RespSuccess p => Ok (ReplySuccess (replies_conn self) p)
                end
  end.
Definition replies_next (self : Replies T Id) : result (Connection T * ReplyError TE) (Reply T Id R) :=
  let '(r, socket) := transport_recv (conn_socket (replies_conn self)) in
  let self := MkReplies (replies_id self) (MkConnection socket (conn_agent (replies_conn self))) in
  match r with Err e => Err (replies_conn self, ReplyTransport e) | Ok msg => replies_process self msg end.

(** A command is what it asks for. *)
Definition command_request (payload : RequestPayload An Pu) (agent : list N) (mode : RequestMode) : ApiRequest An Pu := MkApiRequest agent mode payload.
(** Both ways: the request, then the first response. *)
Definition ask (payload : RequestPayload An Pu) (mode : RequestMode) (conn : Connection T) : result TE (option (ApiResponse Id R)) * Connection T :=
  match transport_send (command_request payload (conn_agent conn) mode) (conn_socket conn) with
  | (Err e, socket) => (Err e, MkConnection socket (conn_agent conn))
  | (Ok _, socket) => let '(r, socket) := transport_recv socket in (r, MkConnection socket (conn_agent conn))
  end.
Definition execute (payload : RequestPayload An Pu) (conn : Connection T) : result (ExecuteError TE) unit * Connection T :=
  let '(r, conn) := ask payload FireAndForget conn in
  (match r with
   | Err e => Err (ExecTransport e)
   | Ok (Some resp) => match rs_payload resp with RespAck => Ok tt | _ => Err ExecMissingAck end
   | Ok None => Err ExecMissingAck
   end, conn).
Definition execute_with_reply (payload : RequestPayload An Pu) (conn : Connection T) : result (ReplyError TE) (Replies T Id) :=
  let '(r, conn) := ask payload ReportProgress conn in
  match r with
  | Err e => Err (ReplyTransport e)
  | Ok (Some resp) => match rs_payload resp with RespAck => Ok (MkReplies (rs_id resp) conn) | _ => Err ReplyMissingAck end
  | Ok None => Err ReplyMissingAck
  end.
(** The loop over the replies that the documentation gives: what is printed, how it ends, and the connection for more. *)
Inductive EndOfReplies := EndFailed (msg : list N) | EndSuccess (payload : R) | EndTransport (e : ReplyError TE).
Fixpoint follow (fuel : nat) (self : Replies T Id) : option (list (list N) * EndOfReplies * Connection T) :=
  match fuel with
  | O => None
  | S fuel => match replies_next self with
              | Ok (ReplyProgress self msg) => '(msgs, r, conn) ← follow fuel self; Some (msg :: msgs, r, conn)
              | Ok (ReplyFailed conn msg) => Some ([], EndFailed msg, conn)
              | Ok (ReplySuccess conn p) => Some ([], EndSuccess p, conn)
              | Err (conn, e) => Some ([], EndTransport e, conn)
              end
  end.
End Client.
Arguments EndOfReplies R TE : clear implicits.

(** ** A conversation *)

(** A socket with what will be received, and what was sent. *)
Section Conversation.
Context {An Pu Id R TE : Type}.
Record Line := MkLine { line_in : list (ApiResponse Id R); line_out : list (ApiRequest An Pu) }.
#[export] Instance line_transport : Transport Line (ApiRequest An Pu) (ApiResponse Id R) TE := {|
  transport_send r l := (Ok tt, MkLine (line_in l) (line_out l ++ [r]));
  transport_recv l := match line_in l with [] => (Ok None, l) | r :: rs => (Ok (Some r), MkLine rs (line_out l)) end;
|}.
(** The responses to a request. *)
Definition responses (id : Id) (outs : list (ResponsePayload R)) : list (ApiResponse Id R) := map (MkApiResponse id) outs.
Inductive final : ResponsePayload R -> EndOfReplies R TE -> Prop :=
| final_failed s : final (RespError s) (EndFailed s)
| final_success p : final (RespSuccess p) (EndSuccess p).

Lemma follow_told id more out agent ps f e : final f e -> forall fuel, length ps < fuel ->
  follow fuel (MkReplies id (MkConnection (MkLine (responses id (map RespProgress ps ++ [f]) ++ more) out) agent)) = Some (ps, e, MkConnection (MkLine more out) agent).
Proof.
  intros Hf. induction ps as [|p ps IH]; intros [|fuel] Hl; try (cbn in Hl; lia); [by destruct Hf|]. cbn [length] in Hl.
  cbn. unfold responses in IH. by rewrite IH by lia.
Qed.

(** What a handler of an announcement sends. *)
Lemma announce_told (don : R) env : exists ps f e, announce_handle don ProgressAndResult env = map RespProgress ps ++ [f] /\ final f e /\
  e = (if announce_ok env then EndSuccess don else EndFailed (str "unable to announce")) /\ (length ps <= 2).
Proof.
  unfold announce_handle, listener_says. destruct (announce_ok env); case_bool_decide; [eexists [_; _]|eexists [_]|eexists [_; _]|eexists [_]];
    eexists _, _; (split; [reflexivity|]); (split; [constructor|]); cbn; auto.
Qed.
(** How a request to pull ends for the client: with the first reply that is no progress. *)
Fixpoint pull_end (replies : list (PullReply R)) : option (EndOfReplies R TE) :=
  match replies with
  | [] => None
  | PullProgress _ :: replies => pull_end replies
  | PullSuccess r :: _ => Some (EndSuccess r)
  | PullError s :: _ | PullBroken s :: _ => Some (EndFailed (str "request-pull failed: " ++ s))
  end.
Lemma pull_told replies e : pull_end replies = Some e -> exists ps f, pull_loop ProgressAndResult replies = map RespProgress ps ++ [f] /\ final f e /\ length ps < length replies.
Proof.
  induction replies as [|[s|r|s|s] replies IH]; cbn; [done| |intros [= <-]; eexists [], _; (split; [reflexivity|]); split; [constructor|cbn; lia]..].
  intros (ps & f & -> & Hf & Hl)%IH. exists (s :: ps), f. split_and!; [done|done|cbn; lia].
Qed.
(** Nothing but the acknowledgement is sent for a request that is not waited for. *)
Lemma forgotten_silent (don : R) env remote urn client : announce_handle don AckOnly env = [] /\ pull_handle (S := R) AckOnly remote urn client = [].
Proof.
  split; [unfold announce_handle; cbn; by case_bool_decide|]. destruct client as [| |replies]; [done..|]. cbn. induction replies as [|[] replies IH]; done.
Qed.

(** [conversation]: a client that does not wait gets the acknowledgement and no response is left over; one that waits for an announcement is told how it
    ended, and the connection is ready for the next request. *)
Theorem conversation (p : RequestPayload An Pu) (id : Id) (don : R) env agent out more :
  let conn mode := MkConnection (MkLine (responses id (RespAck :: announce_handle don (interest_of mode) env) ++ more) out) agent in
  let left mode := MkConnection (MkLine more (out ++ [MkApiRequest agent mode p])) agent in
  execute (TE := TE) p (conn FireAndForget) = (Ok tt, left FireAndForget) /\
  exists replies msgs, execute_with_reply (TE := TE) p (conn ReportProgress) = Ok replies /\ replies_id replies = id /\
    follow 3 replies = Some (msgs, if announce_ok env then EndSuccess don else EndFailed (str "unable to announce"), left ReportProgress).
Proof.
  intros conn left. split.
  - unfold conn, execute, ask. cbn [interest_of]. rewrite (proj1 (forgotten_silent don env [] [] NoClient)). reflexivity.
  - destruct (announce_told don env) as (ps & f & e & Ho & Hf & -> & Hl). eexists _, ps. split; [reflexivity|]. split; [reflexivity|].
    cbn [interest_of]. rewrite Ho. cbn [line_in line_out]. apply follow_told; [done|lia].
Qed.
End Conversation.

(** ** Examples *)

Module RpcExample.
#[local] Existing Instance MessageIoExample.headers_cbor.
#[local] Existing Instance MessageIoExample.number_cbor.
Definition one_progress (r : ApiRequest N N) : list (ResponsePayload unit) := announce_handle tt (interest_of (rq_mode r)) (MkAnnounceEnv 1 0 1 true).
Definition run_events (s : Rpc (S := unit)) (es : list RpcEvent) : option (Rpc (S := unit)) :=
  foldl (fun s e => s ← s; rpc_step (An := N) (Pu := N) one_progress s e) (Some s) es.
Lemma run_events_steps s es s' : run_events s es = Some s' -> rpc_steps (An := N) (Pu := N) one_progress s es s'.
Proof.
  revert s. induction es as [|e es IH]; intros s; [intros [= ->]; constructor|]. unfold run_events. cbn [foldl mbind option_bind].
  destruct (rpc_step one_progress s e) as [s1|] eqn:Hs; [intros Hr; econstructor; [exact Hs|by apply IH]|].
  intros Hr. exfalso. clear -Hr. induction es; [done|]. apply IHes, Hr.
Qed.
Definition two_frames : list SockEvent := [Arrived MessageIoExample.frame9; Arrived MessageIoExample.frame7].
Definition two_events : list RpcEvent := [Recv; HandlerSends 0; Recv; Respond true; HandlerSends 0; Complete 1 JoinOk; Respond true; Complete 0 JoinOk; Respond true; Respond true].
Lemma rpc_safe_witness : exists s, rpc_steps (An := N) (Pu := N) one_progress (rpc_new two_frames) two_events s /\ rpc_over s = [0; 1] /\
  length (rpc_running s) <= MAX_IN_FLIGHT_REQUESTS /\
  forall id outs, rpc_started s !! id = Some outs ->
    responses_of id (outgoing s) `prefix_of` (RespAck :: outs) /\ (id ∈ rpc_over s -> responses_of id (outgoing s) = RespAck :: outs).
Proof.
  destruct (run_events (rpc_new two_frames) two_events) as [s|] eqn:Hs; [|vm_compute in Hs; discriminate Hs].
  pose proof (run_events_steps _ _ _ Hs) as Hst. exists s. split; [exact Hst|]. split; [vm_compute in Hs; injection Hs as <-; reflexivity|].
  destruct (rpc_safe one_progress two_frames two_events s Hst) as (Hr & _ & Hsent). exact (conj Hr Hsent).
Defined.
(** [eleven_requests]: a client that sends eleven requests at once can stop the loop that serves it. *)
Example eleven_requests : exists s, rpc_steps (An := N) (Pu := N) one_progress (rpc_new [Arrived (concat (repeat MessageIoExample.frame7 11))]) (repeat Recv 11) s /\
  rpc_phase s = AwaitingRoom [].
Proof.
  destruct (run_events (rpc_new [Arrived (concat (repeat MessageIoExample.frame7 11))]) (repeat Recv 11)) as [s|] eqn:Hs; [|vm_compute in Hs; discriminate Hs].
  exists s. split; [by apply run_events_steps|]. vm_compute in Hs. by injection Hs as <-.
Qed.
(** [cut_off_reached]: a client that goes away within a message leaves the loop turning. *)
Example cut_off_reached n : exists s, rpc_steps (An := N) (Pu := N) one_progress (rpc_new [Arrived (take 6 MessageIoExample.frame7)]) [Recv] s /\
  rpc_phase s = Serving /\ rpc_steps (An := N) (Pu := N) one_progress s (repeat Recv n) s.
Proof.
  destruct (run_events (rpc_new [Arrived (take 6 MessageIoExample.frame7)]) [Recv]) as [s|] eqn:Hs; [|vm_compute in Hs; discriminate Hs].
  exists s. split; [by apply run_events_steps|]. vm_compute in Hs. injection Hs as <-. split; [done|]. apply (cut_off_spins one_progress _ 2); try reflexivity; vm_compute; lia.
Qed.
(** [pull_without_end]: when a remote ends its replies with progress, the client is never told that it is over. *)
Example pull_without_end : pull_handle (S := unit) ProgressAndResult [] [] (Requested [PullProgress [112%N]]) = [RespProgress [112%N]].
Proof. reflexivity. Qed.
End RpcExample.
