(* ===== verification/Profile.v ===== *)
(** * Profiles

    [librad/src/profile.rs], [librad/src/profile/id.rs] and [librad/src/paths.rs]: the directories in which a user keeps identities, one profile
    for each, and the file that says which profile is active.  Files, environment variables, the directories of the
    operating system and the generation of ids are parameters; paths are those of Unix. *)
From stdpp Require Import base list gmap strings.
From Stdlib Require Import NArith Lia.
From Stdlib Require String.
Import String.StringSyntax.
From S2P Require Import Prelude Effects RefFormat.
#[local] Open Scope N_scope.

(** ** Paths of Unix *)

(** [Path::components] *)
Inductive Component := RootDir | CurDir | ParentDir | Normal (name : list N).
Definition dot : list N := [46].
Definition dotdot : list N := [46; 46].
Definition component (p : list N) : list Component :=
  if bool_decide (p = [] \/ p = dot) then [] else if bool_decide (p = dotdot) then [ParentDir] else [Normal p].
Definition parts (ps : list (list N)) : list Component := concat (map component ps).
Definition components (s : list N) : list Component :=
  match s with
  | [] => []
  | _ => match split_on slash s with
         | [] :: ps => RootDir :: parts ps
         | p :: ps => if bool_decide (p = dot) then CurDir :: parts ps else parts (p :: ps)
         | [] => []
         end
  end.
(** [Path::join]: an absolute path replaces. *)
Definition join (p q : list N) : list N :=
  if bool_decide (head q = Some slash) then q
  else p ++ (if bool_decide (p = [] \/ last p = Some slash) then [] else [slash]) ++ q.
(** The first of [str::lines]. *)
Fixpoint first_line (s : list N) : list N :=
  match s with
  | [] => []
  | 10 :: _ => []
  | 13 :: 10 :: _ => []
  | c :: s => c :: first_line s
  end.

(** ** Profile ids *)

Inductive IdError (IE : Type) : Type := IdFromStr (id : list N) | IdFromEnv (id : list N) | IdFromFile (id path : list N) | IdIo (e : IE).
Arguments IdFromStr {IE} id. Arguments IdFromEnv {IE} id. Arguments IdFromFile {IE} id path. Arguments IdIo {IE} e.
Inductive ProfileError (IE : Type) : Type := DoesNotExist (id : list N) | ErrProfileId (e : IdError IE) | ErrIo (e : IE).
Arguments DoesNotExist {IE} id. Arguments ErrProfileId {IE} e. Arguments ErrIo {IE} e.
Inductive Validate := ValidateFile (id path : list N) | ValidateEnv (id : list N) | ValidateStr (id : list N).
Definition validate_id (v : Validate) : list N := match v with ValidateFile id _ => id | ValidateEnv id => id | ValidateStr id => id end.
Definition validate_error {IE} (v : Validate) : IdError IE :=
  match v with ValidateFile id path => IdFromFile id path | ValidateEnv id => IdFromEnv id | ValidateStr id => IdFromStr id end.

Definition is_valid (id : list N) : bool :=
  match components id with
  | Normal _ :: rest => match rest with [] => true | _ => false end
  | _ => false
  end.
Definition valid {IE} (v : Validate) : result (IdError IE) (list N) := if is_valid (validate_id v) then Ok (validate_id v) else Err (validate_error v).
Definition profile_id_from_str {IE} (id : list N) : result (IdError IE) (list N) := valid (ValidateStr id).

Inductive LnkHome := ProjectDirs | HomeRoot (root : list N).
(** The environment: variables that are set to a text, the directories for configuration, data and cache, and the one for sockets. *)
Record Environment := MkEnvironment {
  lnk_home : option (list N);
  lnk_profile : option (list N);
  project_dirs : option (list N * list N * list N);
  socket_dir : option (list N);
}.
Definition lnk_home_default (env : Environment) : LnkHome := match lnk_home env with Some root => HomeRoot root | None => ProjectDirs end.

Class ProfileFs (W IE : Type) := {
  pf_read : list N -> W -> result IE (list N);
  pf_not_found : IE -> bool;
  pf_missing_dirs : IE;                                   (** what is reported when there are no directories *)
  pf_write : list N -> list N -> st W IE unit;
  pf_create_dir_all : list N -> st W IE unit;
  pf_is_dir : list N -> W -> bool;
  pf_read_dir : list N -> W -> result IE (list (result IE (list N * result IE bool)));   (** names, and whether they are directories *)
  pf_uuid : W -> list N * W;
}.
Class ProfileFsLaws (W IE : Type) `{ProfileFs W IE} : Prop := {
  pf_write_read p s w w' : pf_write p s w = (EOk tt, w') -> pf_read p w' = Ok s;
  pf_create_read d w q : pf_read q (pf_create_dir_all d w).2 = pf_read q w;
  (** A UUID with hyphens *)
  pf_uuid_text w id w' : pf_uuid w = (id, w') -> id <> [] /\ Forall (fun c => 48 <= c <= 57 \/ 97 <= c <= 102 \/ c = 45) id;
}.
(** [?] with a conversion. *)
Definition st_err {W E F A} (f : E -> F) (m : st W E A) : st W F A := fun w => let '(x, w) := m w in (eff_map_err f x, w).

Section Profile.
Context {W IE : Type} `{ProfileFs W IE} (env : Environment).
Abbreviation M := (st W (ProfileError IE)).
Abbreviation MId := (st W (IdError IE)).
Abbreviation MIo := (st W IE).

Definition get_project_dirs : eff IE (list N * list N * list N) := of_res (ok_or (project_dirs env) pf_missing_dirs).
Definition get_socket_dir : eff IE (list N) := of_res (ok_or (socket_dir env) pf_missing_dirs).
Definition home_config (home : LnkHome) : eff IE (list N) :=
  match home with
  | ProjectDirs => '(config, _, _) ← get_project_dirs; EOk config
  | HomeRoot root => EOk root
  end.
Definition ACTIVE : list N := str "active_profile".

(** [ProfileId::new] *)
Definition profile_id_new {E} : st W E (list N) := fun w => let '(id, w) := pf_uuid w in (EOk id, w).
Definition profile_id_from_env : result (IdError IE) (option (list N)) :=
  match lnk_profile env with None => Ok None | Some id => id ← valid (ValidateEnv id); Ok (Some id) end.
Definition id_active (home : LnkHome) : MId (option (list N)) :=
  config ← lift (eff_map_err IdIo (home_config home));
  let active_path := join config ACTIVE in
  reads (fun w => match pf_read active_path w with
                  | Ok content => id ← of_res (valid (ValidateFile (first_line content) active_path)); EOk (Some id)
                  | Err e => if pf_not_found e then EOk None else EErr (IdIo e)
                  end).
Definition id_load (home : LnkHome) : MId (list N) :=
  active ← id_active home;
  match active with
  | Some id => mret id
  | None =>
      id ← profile_id_new;
      config ← lift (eff_map_err IdIo (home_config home));
      _ ← st_err IdIo (pf_create_dir_all config);
      _ ← st_err IdIo (pf_write (join config ACTIVE) id);
      mret id
  end.
Definition set_active (id : list N) (home : LnkHome) : MId unit :=
  config ← lift (eff_map_err IdIo (home_config home));
  st_err IdIo (pf_write (join config ACTIVE) id).

(** ** Paths *)

Record Paths := MkPaths {
  keys_dir : list N; git_dir : list N; git_includes_dir : list N; cob_cache_dir : list N;
  paths_socket_dir : list N; seeds_file : list N; hooks_dir : list N;
}.
Definition all_dirs (p : Paths) : list (list N) := [keys_dir p; git_dir p; git_includes_dir p; cob_cache_dir p; hooks_dir p].
Fixpoint create_all (dirs : list (list N)) : MIo unit :=
  match dirs with [] => mret tt | d :: dirs => _ ← pf_create_dir_all d; create_all dirs end.
Definition paths_init (p : Paths) : MIo Paths := _ ← create_all (all_dirs p); mret p.
Definition paths_new (profile_id : list N) : MIo Paths :=
  '(config, data, cache) ← lift get_project_dirs;
  let config_dir := join config profile_id in let data_dir := join data profile_id in let cache_dir := join cache profile_id in
  socket ← lift get_socket_dir;
  paths_init (MkPaths (join config_dir (str "keys")) (join data_dir (str "git")) (join config_dir (str "git-includes")) (join cache_dir (str "cob-cache"))
    socket (join config_dir (str "seeds")) (join data_dir (str "hooks"))).
Definition paths_from_root (root : list N) : MIo Paths :=
  socket ← lift get_socket_dir;
  paths_init (MkPaths (join root (str "keys")) (join root (str "git")) (join root (str "git-includes")) (join root (str "cob-cache"))
    socket (join root (str "seeds")) (join root (str "hooks"))).
Definition rpc_socket (p : Paths) (peer : list N) : list N := join (paths_socket_dir p) (str "link-peer-" ++ peer ++ str "-rpc.socket").
Definition events_socket (p : Paths) (peer : list N) : list N := join (paths_socket_dir p) (str "link-peer-" ++ peer ++ str "-events.socket").

(** ** Profiles *)

Record Profile := MkProfile { profile_id : list N; profile_paths : Paths }.
Definition from_home (home : LnkHome) (id : option (list N)) : M Profile :=
  id ← (match id with Some id => mret id | None => st_err ErrProfileId (id_load home) end);
  paths ← st_err ErrIo (match home with ProjectDirs => paths_new id | HomeRoot root => paths_from_root (join root id) end);
  mret (MkProfile id paths).
Definition from_root (root : list N) (id : option (list N)) : M Profile := from_home (HomeRoot root) id.
Definition profile_new (home : LnkHome) : M Profile := id ← profile_id_new; from_home home (Some id).
Definition profile_active (home : LnkHome) : M (option Profile) :=
  id ← st_err ErrProfileId (id_active home);
  match id with None => mret None | Some id => p ← from_home home (Some id); mret (Some p) end.
Definition profile_exists (home : LnkHome) (id : list N) : M bool :=
  config ← lift (eff_map_err ErrIo (home_config home)); reads (fun w => EOk (pf_is_dir (join config id) w)).
Definition profile_get (home : LnkHome) (id : list N) : M (option Profile) :=
  ex ← profile_exists home id;
  if negb ex then mret None else p ← from_home home (Some id); mret (Some p).
Definition profile_set (home : LnkHome) (id : list N) : M Profile :=
  ex ← profile_exists home id;
  if negb ex then lift (EErr (DoesNotExist id)) else _ ← st_err ErrProfileId (set_active id home); from_home home (Some id).
Fixpoint list_loop (home : LnkHome) (entries : list (result IE (list N * result IE bool))) : M (list Profile) :=
  match entries with
  | [] => mret []
  | entry :: entries =>
      '(name, ty) ← lift (of_res_with ErrIo entry);
      dir ← lift (of_res_with ErrIo ty);
      if negb dir then list_loop home entries
      else id ← lift (of_res_with ErrProfileId (profile_id_from_str name));
           p ← from_home home (Some id);
           ps ← list_loop home entries;
           mret (p :: ps)
  end.
Definition profile_list (home : LnkHome) : M (list Profile) :=
  config ← lift (eff_map_err ErrIo (home_config home));
  entries ← reads (fun w => of_res_with ErrIo (pf_read_dir config w));
  list_loop home entries.
Definition profile_load : M Profile :=
  id ← lift (of_res_with ErrProfileId profile_id_from_env);
  from_home (lnk_home_default env) id.
End Profile.

(** ** Where profiles are *)

Lemma parts_app ps qs : parts (ps ++ qs) = parts ps ++ parts qs.
Proof. unfold parts. by rewrite map_app, concat_app. Qed.
Lemma component_cases p : (p = [] \/ p = dot) /\ component p = [] \/ p = dotdot /\ component p = [ParentDir] \/
  p <> [] /\ p <> dot /\ p <> dotdot /\ component p = [Normal p].
Proof.
  unfold component. case_bool_decide as H1; [by left|]. case_bool_decide as H2; [by right; left|]. right; right. split_and!; [..|done]; intros ->; [by destruct H1; left|by destruct H1; right|done].
Qed.
Lemma parts_nil ps : parts ps = [] <-> Forall (fun p => p = [] \/ p = dot) ps.
Proof.
  induction ps as [|p ps IH]; [by split|]. rewrite Forall_cons, <- IH. unfold parts. cbn.
  destruct (component_cases p) as [[Hp ->]|[[-> ->]|(H1 & H2 & H3 & ->)]]; cbn; [tauto| |]; (split; [done|]); intros [[?|?] _]; done.
Qed.
Lemma components_app a b : a <> [] -> components (a ++ slash :: b) = components a ++ parts (split_on slash b).
Proof.
  intros Ha. unfold components. destruct a as [|x a]; [done|]. cbn [app]. change (x :: a ++ slash :: b) with ((x :: a) ++ slash :: b). rewrite split_on_app.
  pose proof (split_on_nonempty slash (x :: a)). destruct (split_on slash (x :: a)) as [|[|y p] ps]; [done|..]; cbn [app].
  - by rewrite parts_app.
  - case_bool_decide; [by rewrite parts_app|]. change ((y :: p) :: ps ++ split_on slash b) with (((y :: p) :: ps) ++ split_on slash b). by rewrite parts_app.
Qed.

(** What ids are valid: a name, and slashes and dots after it. *)
Definition trailing (ss : list (list N)) : list N := concat (map (cons slash) ss).
Lemma join_on_trailing p ps : join_on slash (p :: ps) = p ++ trailing ps.
Proof.
  revert p. induction ps as [|q ps IH]; intros p; [by rewrite app_nil_r|]. rewrite join_cons by done. rewrite IH. done.
Qed.
Lemma valid_parts id : is_valid id = true -> exists name ss, split_on slash id = name :: ss /\ name <> [] /\ name <> dot /\ name <> dotdot /\ parts ss = [].
Proof.
  unfold is_valid, components. destruct id as [|x id]; [done|]. destruct (split_on slash (x :: id)) as [|[|y p] ps]; [done..|].
  case_bool_decide as Hd; [done|]. intros Hv. exists (y :: p), ps. unfold parts in Hv. cbn [map concat] in Hv. change (concat (map component ps)) with (parts ps) in Hv.
  destruct (component_cases (y :: p)) as [[[?|?] _]|[[_ Hc]|(H1 & H2 & H3 & Hc)]]; [done..|by rewrite Hc in Hv|].
  rewrite Hc in Hv. cbn in Hv. by destruct (parts ps).
Qed.
(** [id_valid_exact]: an id is valid exactly when it is a name that is no dot or two dots, followed by nothing but slashes and single dots between them. *)
Theorem id_valid_exact id : is_valid id = true <-> exists name ss,
  id = name ++ trailing ss /\ (slash ∉ name) /\ name <> [] /\ name <> dot /\ name <> dotdot /\ Forall (fun s => s = [] \/ s = dot) ss.
Proof.
  split.
  - intros (name & ss & Hs & H1 & H2 & H3 & Hp)%valid_parts. exists name, ss. rewrite <- join_on_trailing, <- Hs, join_split. split; [done|].
    pose proof (split_on_pieces slash id) as Hf. rewrite Hs in Hf. apply Forall_cons in Hf as [? _]. split_and!; try done. by apply parts_nil.
  - intros (name & ss & -> & Hsl & H1 & H2 & H3 & Hss). rewrite <- join_on_trailing. unfold is_valid, components.
    assert (split_on slash (join_on slash (name :: ss)) = name :: ss) as Hsp.
    { apply split_join; [done|]. constructor; [done|]. eapply Forall_impl; [exact Hss|]. cbn. intros s [-> | ->]; [by apply not_elem_of_nil|by apply (bool_decide_unpack (slash ∉ dot))]. }
    rewrite Hsp. destruct name as [|x name]; [done|]. destruct (join_on slash ((x :: name) :: ss)) as [|y l]; [by cbn in Hsp|].
    rewrite bool_decide_eq_false_2 by done. change (parts ((x :: name) :: ss)) with (component (x :: name) ++ parts ss). apply parts_nil in Hss as ->.
    destruct (component_cases (x :: name)) as [[[?|?] _]|[[? _]|(_ & _ & _ & ->)]]; done.
Qed.
Lemma join_contained root id : root <> [] -> is_valid id = true -> exists name, name <> dotdot /\ components (join root id) = components root ++ [Normal name] /\ join root id <> [] /\ (slash ∉ id -> name = id).
Proof.
  intros Hr (name & ss & Hs & H1 & H2 & H3 & Hp)%valid_parts. exists name. split; [done|].
  assert (slash ∉ id -> name = id) as Hname by (intros Hno; rewrite split_on_no in Hs by done; by injection Hs as ->).
  assert (parts (split_on slash id) = [Normal name]) as Hid.
  { rewrite Hs. change (parts (name :: ss)) with (component name ++ parts ss). rewrite Hp. by destruct (component_cases name) as [[[?|?] _]|[[? _]|(_ & _ & _ & ->)]]. }
  assert (join root id = root ++ (if bool_decide (root = [] \/ last root = Some slash) then [] else [slash]) ++ id) as ->.
  { unfold join. rewrite bool_decide_eq_false_2; [done|]. destruct id as [|x id]; [done|]. cbn. intros [= ->]. by cbn in Hs; simplify_eq. }
  case_bool_decide as Hl.
  - destruct Hl as [?|Hl]; [done|]. apply last_Some in Hl as [r ->]. cbn [app]. rewrite <- app_assoc. cbn [app]. split; [|by split; [destruct r|]].
    destruct r as [|x r]; [|rewrite !components_app, Hid by done; cbn; by rewrite app_nil_r].
    cbn [app]. unfold components. cbn [split_on]. by rewrite N.eqb_refl, Hid.
  - cbn [app]. rewrite components_app, Hid by done. split; [done|]. by split; [destruct root|].
Qed.
Lemma sub_contained root sub : root <> [] -> is_valid sub = true -> slash ∉ sub -> components (join root sub) = components root ++ [Normal sub].
Proof. intros Hr Hv Hs. destruct (join_contained root sub Hr Hv) as (name & _ & -> & _ & Hn). by rewrite Hn. Qed.

(** ** The file of the active profile *)

Lemma first_line_id id : 10 ∉ id -> first_line id = id.
Proof.
  induction id as [|c id IH]; [done|]. intros Hn. assert (c <> 10) as Hc by (intros ->; apply Hn; by left). assert (10 ∉ id) as Hid by (intros Hin; apply Hn; by right).
  specialize (IH Hid). destruct (decide (c = 13)) as [->|Hcr].
  - destruct id as [|d id]; [done|]. assert (d <> 10) as Hd by (intros ->; apply Hid; by left). change (first_line (13 :: d :: id)) with (match d with 10 => [] | _ => 13 :: first_line (d :: id) end).
    rewrite IH. clear -Hd. destruct d as [|p]; [done|]. repeat (destruct p as [p|p|]; try done).
  - transitivity (c :: first_line id); [|by rewrite IH]. clear -Hc Hcr. destruct c as [|p]; [done|]. repeat (destruct p as [p|p|]; try done).
Qed.

Section Laws.
Context {W IE : Type} `{ProfileFsLaws W IE} (env : Environment).

Lemma st_err_ok {E F A} (f : E -> F) (m : st W E A) w a w' : st_err f m w = (EOk a, w') <-> m w = (EOk a, w').
Proof. unfold st_err. destruct (m w) as [[x|x|] v]; cbn; split; intros ?; simplify_eq; done. Qed.
Lemma lift_done {E A} (x : eff E A) (w : W) a w' : lift x w = (EOk a, w') <-> x = EOk a /\ w' = w.
Proof. unfold lift. split; [by intros [= -> ->]|by intros [-> ->]]. Qed.
Lemma create_all_read dirs w q : pf_read q (create_all (IE := IE) dirs w).2 = pf_read q w.
Proof.
  revert w. induction dirs as [|d dirs IH]; intros w; [done|]. cbn [create_all]. unfold mbind, st_bind. pose proof (pf_create_read d w q) as Hd.
  destruct (pf_create_dir_all d w) as [[[]|e|] w1]; cbn in *; [by rewrite IH|done..].
Qed.
Lemma paths_init_read p w q : pf_read q (paths_init (IE := IE) p w).2 = pf_read q w.
Proof.
  unfold paths_init, mbind, st_bind. pose proof (create_all_read (all_dirs p) w q) as Hc. destruct (create_all (all_dirs p) w) as [[[]|e|] w1]; cbn in *; done.
Qed.
(** Making the directories of a profile changes no file. *)
Lemma from_home_read home id w p w' q : from_home env home (Some id) w = (EOk p, w') -> profile_id p = id /\ pf_read q w' = pf_read q w.
Proof.
  unfold from_home. intros (i & w1 & [= <- <-] & (ps & w2 & Hp & [= <- <-])%st_bind_ok)%st_bind_ok. split; [done|]. apply st_err_ok in Hp.
  destruct home as [|root].
  - apply st_bind_ok in Hp as ([[config data] cache] & w3 & [_ ->]%lift_done & (socket & w4 & [_ ->]%lift_done & Hi)%st_bind_ok).
    erewrite <- (paths_init_read _ w). by rewrite Hi.
  - apply st_bind_ok in Hp as (socket & w4 & [_ ->]%lift_done & Hi). erewrite <- (paths_init_read _ w). by rewrite Hi.
Qed.
Lemma active_reads home config id w : home_config env home = EOk config -> pf_read (join config ACTIVE) w = Ok id -> is_valid id = true -> 10 ∉ id ->
  id_active env home w = (EOk (Some id), w).
Proof.
  intros Hc Hr Hv Hn. unfold id_active, mbind, st_bind, lift, reads. rewrite Hc. cbn -[join ACTIVE]. rewrite Hr, (first_line_id id) by done. unfold valid. cbn [validate_id]. by rewrite Hv.
Qed.
Lemma eff_map_err_ok' {E F A} (f : E -> F) (x : eff E A) a : eff_map_err f x = EOk a -> x = EOk a.
Proof. by destruct x; intros [= ->]. Qed.

(** [set_then_active]: the profile that was set, of a valid id without line feeds, is the active one then. *)
Theorem set_then_active home id w p w' (Hs : profile_set env home id w = (EOk p, w')) (Hv : is_valid id = true) (Hn : 10 ∉ id) :
  profile_id p = id /\ id_active env home w' = (EOk (Some id), w').
Proof.
  unfold profile_set in Hs. apply st_bind_ok in Hs as ([] & w1 & _ & Hs); [|by cbn in Hs]. cbn [negb] in Hs.
  apply st_bind_ok in Hs as ([] & w2 & Ha%st_err_ok & Hf). unfold set_active in Ha. apply st_bind_ok in Ha as (config & w3 & [Hc ->]%lift_done & Hw%st_err_ok).
  apply eff_map_err_ok' in Hc. apply pf_write_read in Hw. destruct (from_home_read _ _ _ _ _ (join config ACTIVE) Hf) as [Hid Hr].
  split; [done|]. apply (active_reads _ config); [done| |done|done]. by rewrite Hr.
Qed.
Lemma uuid_valid id : id <> [] -> Forall (fun c => 48 <= c <= 57 \/ 97 <= c <= 102 \/ c = 45) id -> is_valid id = true /\ (10 ∉ id).
Proof.
  intros Hne Hf. rewrite Forall_forall in Hf. split; [|intros Hin; apply Hf in Hin; lia]. apply id_valid_exact. exists id, []. rewrite app_nil_r.
  split_and!; [done|intros Hin; apply Hf in Hin; unfold slash in Hin; lia|done| | |constructor]; intros ->; specialize (Hf 46 ltac:(by left)); lia.
Qed.
(** [load_stable]: the id that is loaded, whether it was there or was made, is the one that is loaded next. *)
Theorem load_stable home id w w' (Hl : id_load env home w = (EOk id, w')) : id_load env home w' = (EOk id, w').
Proof.
  pose proof Hl as Hl0. unfold id_load in Hl. apply st_bind_ok in Hl as (active & w1 & Ha & Hl).
  assert (w1 = w) as ->. { unfold id_active in Ha. apply st_bind_ok in Ha as (config & w2 & [_ ->]%lift_done & Ha). by injection Ha as _ ->. }
  destruct active as [i|]; [by injection Hl as -> <-|].
  apply st_bind_ok in Hl as (i & w1 & Hu & (config & w2 & [Hc ->]%lift_done & ([] & w3 & _ & ([] & w4 & Hw%st_err_ok & [= -> ->])%st_bind_ok)%st_bind_ok)%st_bind_ok).
  unfold profile_id_new in Hu. destruct (pf_uuid w) as [u wu] eqn:Hpu. injection Hu as -> ->. destruct (pf_uuid_text _ _ _ Hpu) as [Hne Hf].
  destruct (uuid_valid id Hne Hf) as [Hv Hn]. apply eff_map_err_ok' in Hc. apply pf_write_read in Hw.
  unfold id_load, mbind, st_bind. by rewrite (active_reads _ config id).
Qed.

(** [profile_contained]: the files of a profile in a home are directly in the directory of the profile, which is directly in the home. *)
Theorem profile_contained root id w p w' (Hr : root <> []) (Hv : is_valid id = true) (Hp : from_home env (HomeRoot root) (Some id) w = (EOk p, w')) :
  exists name, name <> dotdot /\
  Forall2 (fun path sub => components path = components root ++ [Normal name; Normal sub])
    (seeds_file (profile_paths p) :: all_dirs (profile_paths p)) [str "seeds"; str "keys"; str "git"; str "git-includes"; str "cob-cache"; str "hooks"].
Proof.
  destruct (join_contained root id Hr Hv) as (name & Hd & Hc & Hne & _). exists name. split; [done|].
  assert (forall sub, is_valid sub = true -> slash ∉ sub -> components (join (join root id) sub) = components root ++ [Normal name; Normal sub]) as Hsub.
  { intros sub Hvs Hsl. apply (sub_contained _ sub Hne) in Hvs; [|done]. by rewrite Hvs, Hc, <- app_assoc. }
  unfold from_home in Hp. apply st_bind_ok in Hp as (i & w1 & [= <- <-] & (ps & w2 & Hp%st_err_ok & [= <- <-])%st_bind_ok).
  unfold paths_from_root in Hp. apply st_bind_ok in Hp as (socket & w4 & _ & (u & w5 & _ & [= <- <-])%st_bind_ok).
  cbn [profile_paths seeds_file all_dirs keys_dir git_dir git_includes_dir cob_cache_dir hooks_dir].
  repeat constructor; apply Hsub; first [reflexivity | by apply (bool_decide_unpack (slash ∉ _))].
Qed.
End Laws.

(** ** Examples *)

Module ProfileExample.
(** Files, directories, and the next number for an id. *)
Record Disk := MkDisk { files : gmap (list N) (list N); dirs : gset (list N); next_id : nat }.
#[local] Instance disk_fs : ProfileFs Disk bool := {|
  pf_read p w := match files w !! p with Some s => Ok s | None => Err true end;
  pf_not_found e := e;
  pf_missing_dirs := false;
  pf_write p s w := (EOk tt, MkDisk (<[p := s]> (files w)) (dirs w) (next_id w));
  pf_create_dir_all d w := (EOk tt, MkDisk (files w) ({[ d ]} ∪ dirs w) (next_id w));
  pf_is_dir p w := bool_decide (p ∈ dirs w);
  pf_read_dir p w := Ok [];
  pf_uuid w := (replicate (S (next_id w)) 97, MkDisk (files w) (dirs w) (S (next_id w)));
|}.
#[local] Instance disk_fs_laws : ProfileFsLaws Disk bool.
Proof.
  split.
  - intros p s w w' [= <-]. cbn. by rewrite lookup_insert_eq.
  - done.
  - intros w id w' [= <- _]. split; [done|]. apply (Forall_replicate _ (S (next_id w)) 97). lia.
Qed.
Definition plain_env : Environment := MkEnvironment None None None (Some (str "/tmp")).
Definition home : LnkHome := HomeRoot (str "/home").
Definition disk0 : Disk := MkDisk ∅ {[ str "/home/work"; str "/home/play" ]} 0.

Lemma set_then_active_witness : exists p w', profile_set plain_env home (str "work") disk0 = (EOk p, w') /\ profile_id p = str "work" /\
  id_active plain_env home w' = (EOk (Some (str "work")), w').
Proof.
  destruct (profile_set plain_env home (str "work") disk0) as [[p|e|] w'] eqn:Hs; [|vm_compute in Hs; discriminate Hs..].
  exists p, w'. split; [reflexivity|]. apply (set_then_active plain_env home (str "work") disk0 p w' Hs); [reflexivity|].
  apply (bool_decide_unpack (10 ∉ str "work")). reflexivity.
Defined.
Lemma load_stable_witness : exists w', id_load plain_env home disk0 = (EOk [97], w') /\ id_load plain_env home w' = (EOk [97], w').
Proof.
  destruct (id_load plain_env home disk0) as [x w'] eqn:Hl. assert (x = EOk [97]) as -> by (vm_compute in Hl; injection Hl as <- _; reflexivity).
  exists w'. split; [reflexivity|]. exact (load_stable plain_env home [97] disk0 w' Hl).
Defined.
Lemma profile_contained_witness : exists p w' name, from_home plain_env home (Some (str "work")) disk0 = (EOk p, w') /\
  components (git_dir (profile_paths p)) = [RootDir; Normal (str "home"); Normal name; Normal (str "git")].
Proof.
  destruct (from_home plain_env home (Some (str "work")) disk0) as [[p|e|] w'] eqn:Hs; [|vm_compute in Hs; discriminate Hs..].
  destruct (profile_contained plain_env (str "/home") (str "work") disk0 p w' ltac:(discriminate) ltac:(reflexivity) Hs) as (name & _ & Hf).
  exists p, w', name. split; [reflexivity|]. do 2 (apply Forall2_cons_1 in Hf as [_ Hf]). apply Forall2_cons_1 in Hf as [Hg _]. exact Hg.
Defined.
(** [separator_accepted]: an id may have separators after its name, and then names the directory of another profile. *)
Example separator_accepted : is_valid (str "work/") = true /\ is_valid (str "work/./") = true /\
  components (join (str "/home") (str "work/./")) = components (join (str "/home") (str "work")).
Proof. split_and!; reflexivity. Qed.
(** [line_feed_in_id]: a profile that was set with a line feed in its id is not the active one then. *)
Example line_feed_in_id : is_valid [97; 10; 98] = true /\ exists p w', profile_set plain_env home [97; 10; 98] (MkDisk ∅ {[ join (str "/home") [97; 10; 98] ]} 0) = (EOk p, w') /\
  id_active plain_env home w' = (EOk (Some [97]), w').
Proof. split; [reflexivity|]. eexists _, _. split; [vm_compute; reflexivity|]. vm_compute. reflexivity. Qed.
End ProfileExample.
